(* ===== verification/_CoqProject ===== *)
-Q . S2P
Prelude.v
Interfaces.v
Message.v
Session.v
Wheel.v
Timer.v
TimerService.v
Handle.v
Task.v
Mailbox.v
MailboxConc.v
Bwos.v
Scheduler.v
SchedConc.v
Server.v
Monitor.v
Start.v
Wire.v
Cluster.v
ClusterCall.v
NetBuffer.v
NetSocket.v
NetService.v
NetBooks.v
HttpHead.v
HttpClient.v
HttpPool.v
HttpBooks.v
WsSocket.v
WsBooks.v
HttpServer.v
HttpServerBooks.v
WsClient.v
TlsService.v
TlsBooks.v
QuicService.v
QuicBooks.v
QuicRun.v
QuicStreams.v
QuicExamples.v
Plugin.v
PluginOrder.v
PluginRun.v
Logger.v
Schema.v
Macros.v
Dashboard.v
Bootstrap.v
PluginMacro.v
