(* ===== verification/Prelude.v ===== *)
(** * rskynet: a verification library for the actor runtime

    rskynet is a Rust rewrite of the skynet actor framework.  A _node_ holds _services_;
    a service owns a mailbox, a set of tasks (futures) and a table of sessions it waits
    on, and is run by one worker thread at a time.  Workers take runnable services from
    a scheduler with one work-stealing queue each.  Timers, sockets and links to other
    nodes are services of their own, which other services reach by messages.

    ** Parts, files and sources

    All source paths are below [src/crates/].

    - [Prelude.v]: machine integers at 64 bits, generic list and map lemmas, tactics and
      the hint database [rsk].
    - [Interfaces.v]: containers of third-party crates (a FIFO queue, a slab)
      as classes of operations with their documented laws, and list
      implementations that satisfy them.
    - [Message.v]: [rskynet-core/src/message.rs], [error.rs]: message types, payloads,
      addresses and their text form.
    - [Session.v]: [rskynet-core/src/session.rs], the sessions a service waits on.
    - [Task.v]: [rskynet-core/src/task.rs], the tasks of a service, their wakers, and the
      cell that guards the service value ([SvcCell]).
    - [Handle.v]: [rskynet-core/src/handle.rs], the table of live services and names.
    - [Mailbox.v], [MailboxConc.v]: [Mailbox] of [rskynet-core/src/mq.rs]; first each
      method as a function, then cut at its accesses to shared memory and interleaved.
    - [Bwos.v]: [rskynet-core/src/bwos.rs], the block-based work-stealing queue; it
      implements the interface [RunDeque].
    - [Scheduler.v], [SchedConc.v]: [Scheduler], [WorkerSlot] of [mq.rs] and
      [handoff.rs] against [RunDeque]; then the push, pop and sleep paths interleaved.
    - [Server.v]: [rskynet-core/src/server.rs], [context.rs], [exclusive.rs]: a node with
      its services, on top of the mailbox, tasks, sessions and handles.
    - [Monitor.v]: [rskynet-core/src/monitor.rs], the watch over polls that do not return.
    - [Start.v]: [rskynet-core/src/start.rs], configuration, boot, drain and shutdown.
    - [Wheel.v], [Timer.v], [TimerService.v]: [rskynet-timer/src/wheel.rs], [lib.rs],
      [service.rs]: the timing wheel, its command queue, the service that turns it.
    - [Wire.v], [Cluster.v], [ClusterCall.v]: [rskynet-cluster/src/wire.rs], [lib.rs]:
      frames, the cluster service, and a call followed across two nodes.
    - [NetBuffer.v], [NetSocket.v], [NetService.v], [NetBooks.v]:
      [rskynet-net/src/buffer.rs], [socket.rs], [service.rs] (with [config.rs],
      [command.rs], [event.rs]): write queues, the socket table, the network service,
      and what it promises to its callers.
    - [HttpHead.v], [HttpClient.v], [HttpPool.v], [HttpBooks.v]:
      [rskynet-http/src/client.rs] (with [config.rs], [error.rs], [transport.rs], and
      [BodySpec] of [body.rs]): configurations, origins and framing headers; the client
      service against the class [Engine] of the protocol engine; its connections; what
      it promises to its callers.
    - [WsSocket.v], [WsBooks.v], [WsClient.v]: [rskynet-http/src/websocket.rs]: a
      WebSocket with its queue against the class [WsEngine] of the frame codec; what it
      promises to its reader; the client with its handshakes (class [WsHandshake]).
    - [HttpServer.v], [HttpServerBooks.v]: [rskynet-http/src/server.rs], [body.rs]: the
      server with the values it hands to the application, against the class
      [ServerEngine]; who owns which connection.
    - [TlsService.v], [TlsBooks.v]: [rskynet-tls/src/service.rs] (with [config.rs],
      [command.rs], [event.rs]): the TLS service against the class [TlsEngine] of the
      record layer; what it promises to callers and owners, and how its records fare in
      the write queues of [NetBuffer.v].
    - [QuicService.v], [QuicBooks.v], [QuicRun.v], [QuicStreams.v], [QuicExamples.v]:
      [rskynet-quic/src/service.rs] (with [config.rs], [command.rs], [event.rs]): the QUIC
      service against the class [QuicEngine] of the protocol; what the driving of an
      endpoint keeps; what the service promises in every run; the bytes of its streams;
      a protocol that can be computed, with which the theorems are applied.
    - [Plugin.v], [PluginOrder.v], [PluginRun.v]: [rskynet-plugin/src/lib.rs] (and
      [register_debug_messages] of [rskynet-core/src/context.rs]): the registry, the
      resolution of dependencies, the host and the context of a plugin; what [resolve]
      gives; what every run of a host keeps.
    - [Logger.v]: [rskynet-logger/src/lib.rs], the service that writes and rotates log
      files, over a file system that may fail.
    - [Schema.v]: [rskynet-core/src/schema.rs] and the derive [MessageSchema] of
      [rskynet-macros/src/expand.rs], with a meaning for the schemas, against the class
      [Serde] of what [serde] writes and how it names things.
    - [Macros.v]: the macros [service] and [exclusive] of [expand.rs], with a meaning for
      the [dispatch] they generate.
    - [PluginMacro.v]: the macro [service_plugin] of [rskynet-macros/src/plugin.rs], with a
      meaning for the [handle] it generates.
    - [Dashboard.v]: [rskynet-dashboard/src/lib.rs] and [rskynet-core/src/debug.rs]: the
      pages, the console and the descriptors of the messages it may send.
    - [Bootstrap.v]: [rskynet-core/src/module.rs] and [rskynet-bootstrap/src/lib.rs]: the
      registry of kinds of services, and the service that launches the configured ones.

    Definitions keep the names of the code.  A method that mutates [self] is a function
    from state to state; a place where the code would panic yields [None] (or sets
    [panicked] in [NetService.v]).  Threads that share memory are program counters, one
    step per atomic access.

    ** What the theorems show

    - Concurrency: a service is held by one worker at a time and never forgotten with
      work in its mailbox; workers never all sleep while a service is queued; messages
      leave in the order they came, each once ([MailboxConc.v], [SchedConc.v],
      [Monitor.v], [Handle.grab_linearizable]).
    - Data structures refine their abstract specification: the run queue a deque, the
      wheel a map of deadlines, the handle table a registry, the socket table a map,
      write queues a stream, the events of TLS connections a map of who owns what
      ([Bwos.v], [Wheel.v], [Handle.v], [NetSocket.v], [NetBuffer.v], [Scheduler.v],
      [TlsBooks.v]).
    - Nobody is left waiting: every request of a dead service is answered with an error,
      a sleep gets one answer in time, cluster requests and callers of the network
      service and of the HTTP client get exactly one answer, a WebSocket reader and a
      connect hear of whatever comes ([Server.v], [TimerService.v], [Cluster.v],
      [NetBooks.v], [HttpBooks.v], [WsBooks.v], [WsClient.v], [TlsBooks.v],
      [QuicRun.v]); where the code falls short of it the exception is a theorem too.
    - Identity: session numbers and handles are not reused, late replies are dropped,
      the connection filed under a node belongs to that node.
    - Resources: an HTTP connection serves one exchange at a time, connections stay
      within their limits, and a reader that stops holds the peer back ([HttpPool.v],
      [HttpBooks.v], [WsBooks.v], [QuicRun.v]); what is sent on a QUIC stream is written
      in order, once ([QuicStreams.v]); a connection of the HTTP server has one owner at a
      time, or a timer that ends it ([HttpServerBooks.v]).
    - Life cycle: boot order, the books of a node, yielding, abort, drain, shutdown.
    - Plugins and logs: plugins are resolved and initialised in the order of their
      dependencies, and their requests settled once; every log text is printed or counted
      as dropped, and the files hold what was printed ([PluginOrder.v], [PluginRun.v],
      [Logger.v]).
    - Formats: addresses and cluster frames survive printing and parsing, encoding,
      cutting and decoding; the schema of a message type accepts what is written
      for its values ([Schema.v]).
    - Dashboard: its console sends nothing but what a service offers, to loopback clients
      of an enabled console, and every response is as long as its head says
      ([Dashboard.v]).
    - Generated code: the [dispatch] of a service is the routing its attributes describe,
      and answers each request once; the [handle] of a plugin keeps the contract with the
      host, and is the routing its attributes describe ([Macros.v], [PluginMacro.v]).  The
      routing is that of attributes that write no type or command in two ways.

    ** Fuel

    Loops that are not structural carry fuel, and a theorem of each file shows that the
    fuel given is enough: the session table's size plus one in [Session.alloc] (a free
    number is among that many candidates); 2 in [Handle.register_loop] (after one growth
    a slot is free), [Mailbox.take_loop], [Bwos.push_loop], [Server.cleanup_loop] and
    [Server.retire_loop] (the second round finds nothing left); 64 in
    [Mailbox.double_threshold] (a 64-bit threshold doubles at most that often); the
    number of blocks in [Bwos.pop_loop] and [Bwos.steal_loop]; [YIELD_INTERVAL] in
    [Server.run_loop]; the length of the buffer plus one in [Wire.drain];
    [max_header_size] plus one in [HttpClient.serialize_loop] and the length of the
    input plus four in [HttpClient.drive_loop] (each turn consumes input or moves the
    protocol state on); the unread bytes plus one in [WsSocket.pump] (a message takes
    bytes); the length of the input plus three in [HttpServer.process_loop],
    [max_header_size] plus one in [HttpServer.head_loop], and the queued chunks plus two
    in [HttpServer.read]; the entries plus one in [TlsService.allocate], the bytes pending
    plus one in [TlsService.write_out] and [read_loop], the bytes given in [encrypt_loop]
    and [decrypt_loop]; in [QuicService.v] one more than what the class says there is to
    poll ([endpoint_work], [app_work], [tx_work]), which every poll that yields something
    lowers; the number of descriptors plus one in [Plugin.visit_plugin] (a plugin is
    entered once); the number of files plus one in [Logger.next_log_path] (one of that
    many names is free); the number of bytes in [Dashboard.chunks] (a chunk takes one).
    [Start.drain_loop] counts rounds, and [drain_may_not_end] shows that no number of
    them is enough in general.  The loops of [NetService.v] recurse on the script of
    answers of the operating system.

    ** Limits

    - Interleavings are sequentially consistent; memory orders are not modelled.  The
      monotonic clock is an input and does not go backwards where a theorem needs that.
    - Third-party containers are classes; [ArcSwap] is an atomic cell; the Protobuf codec
      is a parameter whose decoder undoes its encoder; [serde] is a class with the laws of
      its data format for what is written, and what it reads beyond that is left open; the
      operating system is a script of answers.
    - User code is a program over the operations of [Ctx]; the bodies of futures are not
      looked into.
    - Texts of error reasons stand for the originals; statistics and logging are left out.

    ** Not modelled

    - [rskynet-core]: [clock.rs] (a trait, whose implementation is [Timer.v]), [ext.rs],
      [payload.rs] and the loom tests; the spawning of
      threads and the TOML parser in [start.rs].
    - [rskynet-net/src/resolve.rs] and the thin client functions of [lib.rs].
    - Of [rskynet-tls], [identity.rs] (certificates and keys); of it, of [rskynet-quic] and
      of [rskynet-http], the functions that only send a command, and the dropping of futures
      half-way.
    - [rskynet-signal]: operating-system signals and crash reports.
    - Of [rskynet-macros], the macros of [cluster.rs] and [signal.rs], and the parsing of
      tokens.
*)
From stdpp Require Export base list gmap strings numbers relations.
From Stdlib Require Export ZArith Lia.

#[global] Open Scope Z_scope.

(** ** Machine integers

    A Rust [u64]/[usize] value is a [Z] in [0, 2^64).  Wrapping, saturating and
    checked operations are written out with the width explicit. *)

Declare Scope u64_scope.
Delimit Scope u64_scope with u64.

Definition U64_BITS : Z := 64.
Definition U64_MAX : Z := 2 ^ 64 - 1.
Definition is_u64 (z : Z) : Prop := 0 ≤ z < 2 ^ 64.
Definition wrap64 (z : Z) : Z := z mod 2 ^ 64.
Definition wrapping_add (a b : Z) : Z := wrap64 (a + b).
Definition wrapping_sub (a b : Z) : Z := wrap64 (a - b).
Definition wrapping_mul (a b : Z) : Z := wrap64 (a * b).
Definition saturating_add (a b : Z) : Z := Z.min U64_MAX (a + b).
Definition saturating_sub (a b : Z) : Z := Z.max 0 (a - b).
Definition saturating_mul (a b : Z) : Z := Z.min U64_MAX (a * b).
Definition checked_add (a b : Z) : option Z :=
  if decide (a + b ≤ U64_MAX) then Some (a + b) else None.
Definition checked_sub (a b : Z) : option Z :=
  if decide (0 ≤ a - b) then Some (a - b) else None.
Definition u64_not (a : Z) : Z := U64_MAX - a.
Definition div_ceil (a b : Z) : Z := (a + b - 1) / b.

Notation "a +w b" := (wrapping_add a b) (at level 50, left associativity) : u64_scope.
Notation "a -w b" := (wrapping_sub a b) (at level 50, left associativity) : u64_scope.
Notation "a +s b" := (saturating_add a b) (at level 50, left associativity) : u64_scope.
Notation "a -s b" := (saturating_sub a b) (at level 50, left associativity) : u64_scope.
Open Scope u64_scope.

#[global] Instance is_u64_dec z : Decision (is_u64 z).
Proof. unfold is_u64; apply _. Defined.

(** [Option::is_some_and]. *)
Definition is_some_and {A} (p : A → bool) (o : option A) : bool := match o with Some x => p x | None => false end.

(** ** Tactics and hint databases *)

Create HintDb rsk discriminated.

(** Case analysis on every [match]/[if] scrutinee of the goal, remembering the
    equation. *)
Ltac case_goal :=
  repeat match goal with
    | |- context [match ?x with _ => _ end] => destruct x eqn:?; simplify_eq/=
  end.

(** Same for the hypotheses. *)
Ltac case_hyps :=
  repeat match goal with
    | H : context [match ?x with _ => _ end] |- _ => destruct x eqn:?; simplify_eq/=
  end.

(** Open every conjunction and existential among the hypotheses. *)
Ltac unpack :=
  repeat match goal with
    | H : _ ∧ _ |- _ => destruct H
    | H : ∃ _, _ |- _ => destruct H
  end.

(** Unfold the machine-integer operations and decide linear arithmetic. *)
Ltac u64 :=
  unfold is_u64, wrapping_add, wrapping_sub, wrapping_mul, wrap64, saturating_add,
    saturating_sub, saturating_mul, U64_MAX, u64_not in *; lia.

Lemma wrapping_add_small a b : 0 ≤ a + b < 2 ^ 64 → wrapping_add a b = a + b.
Proof. apply Z.mod_small. Qed.

Lemma wrapping_sub_small a b : 0 ≤ a - b < 2 ^ 64 → wrapping_sub a b = a - b.
Proof. apply Z.mod_small. Qed.

(** From a run that evaluates to a value with a decidable property, that value. *)
Lemma some_view {A} (P : A → bool) (o : option A) :
  match o with Some x => P x | None => false end = true → ∃ x, o = Some x ∧ P x = true.
Proof. destruct o as [x|]; [|discriminate]. eauto. Qed.

(** ** Lists *)

(** Changing a function at one point of a duplicate-free list exchanges one
    segment of the concatenated images. *)
Lemma bind_update_perm {A B} `{EqDecision A} (f g : A → list B) (l : list A) (a : A) :
  NoDup l → a ∈ l → (∀ x, x ≠ a → f x = g x) →
  ∃ rest, l ≫= f ≡ₚ f a ++ rest ∧ l ≫= g ≡ₚ g a ++ rest.
Proof.
  intros Hnd (l1 & l2 & ->)%list_elem_of_split Hfg.
  apply NoDup_app in Hnd as (_ & Hd1 & (Hd2 & _)%NoDup_cons).
  assert (Hext : ∀ k, a ∉ k → k ≫= f = k ≫= g).
  { intros k Hk. induction k as [|x k IH]; [done|]. rewrite !bind_cons, IH by set_solver.
    f_equal. apply Hfg. set_solver. }
  exists ((l1 ≫= f) ++ (l2 ≫= f)). rewrite !bind_app, !bind_cons.
  assert (Ha1 : a ∉ l1) by (intros Ha; eapply Hd1; [exact Ha|apply list_elem_of_here]).
  rewrite <-(Hext l1), <-(Hext l2) by done.
  split; rewrite !(Permutation_app_comm (l1 ≫= f)), <-!app_assoc;
    f_equiv; apply Permutation_app_comm.
Qed.

Lemma filter_all {A} (P : A → Prop) `{∀ x, Decision (P x)} (l : list A) :
  (∀ x, x ∈ l → P x) → filter P l = l.
Proof.
  induction l as [|x l IH]; intros Hl; [done|].
  rewrite filter_cons_True by (apply Hl; left). f_equal. apply IH. intros. apply Hl. by right.
Qed.

Lemma filter_none {A} (P : A → Prop) `{∀ x, Decision (P x)} (l : list A) :
  (∀ x, x ∈ l → ¬ P x) → filter P l = [].
Proof.
  induction l as [|x l IH]; intros Hl; [done|].
  rewrite filter_cons_False by (apply Hl; left). apply IH. intros. apply Hl. by right.
Qed.

Lemma fmap_bind_list {A B C} (f : A → list B) (g : B → C) (l : list A) :
  g <$> (l ≫= f) = l ≫= (λ x, g <$> f x).
Proof. induction l as [|x l IH]; [done|]. by rewrite !bind_cons, fmap_app, IH. Qed.

(** A key that occurs once selects one element. *)
Lemma filter_key_singleton {A K} `{EqDecision K} (f : A → K) (l : list A) x :
  NoDup (f <$> l) → x ∈ l → filter (λ y, f y = f x) l = [x].
Proof.
  induction l as [|y l IH]; intros Hnd Hx; [by apply elem_of_nil in Hx|].
  rewrite fmap_cons in Hnd. apply NoDup_cons in Hnd as [Hnin Hnd]. apply elem_of_cons in Hx as [->|Hx].
  - rewrite filter_cons_True by done. f_equal. apply filter_none.
    intros z Hz Heq. apply Hnin. rewrite <-Heq. by apply list_elem_of_fmap_2.
  - rewrite filter_cons_False; [by apply IH|]. intros Heq. apply Hnin. rewrite Heq.
    by apply list_elem_of_fmap_2.
Qed.

(** Sums over the elements of a list, one of which changes. *)
Lemma sum_insert {A} (f : A → nat) (l : list A) i a b :
  l !! i = Some a → (sum_list_with f (<[i := b]> l) + f a = sum_list_with f l + f b)%nat.
Proof.
  revert i. induction l as [|x l IH]; intros [|i] Hi; [done|done|injection Hi as ->; cbn; lia|].
  change (<[S i := b]> (x :: l)) with (x :: <[i := b]> l). cbn. specialize (IH i Hi). lia.
Qed.

Lemma sum_ge {A} (f : A → nat) (l : list A) i a : l !! i = Some a → (f a ≤ sum_list_with f l)%nat.
Proof.
  revert i. induction l as [|x l IH]; intros [|i] Hi; cbn in *; simplify_eq; [lia|].
  specialize (IH i Hi). lia.
Qed.

Lemma sum_ge2 {A} (f : A → nat) (l : list A) i j a b :
  i ≠ j → l !! i = Some a → l !! j = Some b → (f a + f b ≤ sum_list_with f l)%nat.
Proof.
  revert i j. induction l as [|x l IH]; intros [|i] [|j] Hne Hi Hj; cbn in *; simplify_eq; try done.
  - pose proof (sum_ge f l j b Hj). lia.
  - pose proof (sum_ge f l i a Hi). lia.
  - specialize (IH i j ltac:(lia) Hi Hj). lia.
Qed.

Lemma sum_pos {A} (f : A → nat) (l : list A) :
  (0 < sum_list_with f l)%nat → ∃ i a, l !! i = Some a ∧ (0 < f a)%nat.
Proof.
  induction l as [|x l IH]; cbn; [lia|]. intros Hp. destruct (decide (0 < f x)%nat); [by exists 0%nat, x|].
  destruct IH as (i & a & Hi & Ha); [lia|]. by exists (S i), a.
Qed.

Lemma bind_insert_perm {A B} (f : A → list B) (l : list A) i a b :
  l !! i = Some a → (<[i := b]> l ≫= f) ++ f a ≡ₚ (l ≫= f) ++ f b.
Proof.
  intros Hi. rewrite insert_take_drop by (by eapply lookup_lt_Some). rewrite <-(take_drop_middle l i a Hi) at 3.
  rewrite !bind_app, !bind_cons. solve_Permutation.
Qed.

(** The sum of a measure over the entries of a table. *)
Definition map_sum {A} (f : A → Z) (m : gmap Z A) : Z := map_fold (λ _ a acc, (f a + acc)%Z) 0%Z m.

Lemma map_sum_insert {A} (f : A → Z) (m : gmap Z A) k a :
  map_sum f (<[k := a]> m) = (map_sum f m - from_option f 0 (m !! k) + f a)%Z.
Proof.
  unfold map_sum. destruct (m !! k) as [b|] eqn:E; cbn.
  - rewrite <-(insert_delete_id m k b E) at 2. rewrite <-insert_delete_eq.
    rewrite !map_fold_insert_L by (try apply lookup_delete_eq; intros; lia). lia.
  - rewrite map_fold_insert_L by (try done; intros; lia). lia.
Qed.

Lemma map_sum_delete {A} (f : A → Z) (m : gmap Z A) k :
  map_sum f (delete k m) = (map_sum f m - from_option f 0 (m !! k))%Z.
Proof.
  unfold map_sum. destruct (m !! k) as [b|] eqn:E; cbn; [|rewrite delete_id by done; lia].
  rewrite <-(insert_delete_id m k b E) at 2. rewrite map_fold_insert_L by (try apply lookup_delete_eq; intros; lia). lia.
Qed.

Lemma map_sum_ge {A} (f : A → Z) (m : gmap Z A) k a : (∀ b, (0 ≤ f b)%Z) → m !! k = Some a → (f a ≤ map_sum f m)%Z.
Proof.
  intros Hf Hk. rewrite <-(insert_delete_id m k a Hk), map_sum_insert, lookup_delete_eq. cbn.
  assert (0 ≤ map_sum f (delete k m))%Z; [|lia]. unfold map_sum. apply (map_fold_weak_ind (λ acc _, (0 ≤ acc)%Z)); [lia|].
  intros _ b _ acc _ Hacc. specialize (Hf b). lia.
Qed.

(** [Vec::swap_remove]: the last element takes the place of the removed one;
    [None] is the out-of-range panic. *)
Definition swap_remove {A} (i : nat) (l : list A) : option (list A) :=
  match l !! i, last l with
  | Some _, Some x => Some (take (length l - 1) (<[i := x]> l))
  | _, _ => None
  end.

Lemma swap_remove_spec {A} (l : list A) i x :
  l !! i = Some x →
  ∃ l', swap_remove i l = Some l' ∧ l ≡ₚ x :: l' ∧ S (length l') = length l
    ∧ (∀ j, (j < length l')%nat → j ≠ i → l' !! j = l !! j)
    ∧ ((i < length l')%nat → l' !! i = l !! length l').
Proof.
  intros Hx. pose proof (lookup_lt_Some _ _ _ Hx) as Hi.
  destruct (last l) as [y|] eqn:Hy; [|apply last_None in Hy; subst; cbn in Hi; lia].
  unfold swap_remove. rewrite Hx, Hy. eexists. split; [done|].
  pose proof Hy as (k & Hk)%last_Some. subst l. rewrite length_app in *. cbn in *.
  replace (length k + 1 - 1)%nat with (length k) by lia.
  rewrite length_take, length_insert, length_app, Nat.min_l by (cbn; lia).
  split_and!; [|lia| |].
  - destruct (decide (i = length k)) as [->|].
    + rewrite list_lookup_middle in Hx by done. injection Hx as <-.
      rewrite take_insert_ge by lia. rewrite take_app_length. by rewrite Permutation_app_comm.
    + rewrite lookup_app_l in Hx by lia. rewrite insert_app_l, take_app_le by (rewrite ?length_insert; lia).
      rewrite take_ge by (rewrite length_insert; lia).
      rewrite (Permutation_app_comm _ [y]), insert_take_drop by lia. cbn.
      rewrite <-(take_drop_middle k i x Hx) at 1. rewrite <-!Permutation_middle.
      apply perm_swap.
  - intros j Hj Hne. by rewrite lookup_take_lt, list_lookup_insert_ne by (try lia; done).
  - intros Hlt. rewrite lookup_take_lt, list_lookup_insert_eq by (rewrite ?length_app; cbn; lia).
    by rewrite list_lookup_middle.
Qed.
