(* ===== verification/Interfaces.v ===== *)
(** * Interfaces of the libraries the runtime is built on

    The code uses containers of third-party crates.  Each is a class of operations
    with the documented behaviour as laws; the components are proved against the
    class, and a plain list implementation shows that the laws can hold. *)
From S2P Require Import Prelude.

(** ** [crossbeam_queue::SegQueue]: an unbounded FIFO; [push] and [pop] are
    linearizable, so each is one atomic step. *)
Class Fifo (Q : Type → Type) : Type := {
  fifo_new {A} : Q A;
  fifo_push {A} : A → Q A → Q A;
  fifo_pop {A} : Q A → option (A * Q A);
  fifo_list {A} : Q A → list A;
}.

Class FifoLaws (Q : Type → Type) `{Fifo Q} : Prop := {
  fifo_list_new {A} : fifo_list (A := A) fifo_new = [];
  fifo_list_push {A} (x : A) q : fifo_list (fifo_push x q) = fifo_list q ++ [x];
  fifo_pop_nil {A} (q : Q A) : fifo_list q = [] → fifo_pop q = None;
  fifo_pop_cons {A} (q : Q A) x l :
    fifo_list q = x :: l → ∃ q', fifo_pop q = Some (x, q') ∧ fifo_list q' = l;
}.

Section fifo.
Context {Q : Type → Type} `{FifoLaws Q} {A : Type}.

Lemma fifo_pop_None (q : Q A) : fifo_pop q = None ↔ fifo_list q = [].
Proof.
  split; [|apply fifo_pop_nil]. intros Hp. destruct (fifo_list q) as [|x l] eqn:E; [done|].
  destruct (fifo_pop_cons q x l E) as (q' & Hq & _). congruence.
Qed.

Lemma fifo_pop_Some (q : Q A) x q' : fifo_pop q = Some (x, q') → fifo_list q = x :: fifo_list q'.
Proof.
  intros Hp. destruct (fifo_list q) as [|y l] eqn:E; [by rewrite fifo_pop_nil in Hp|].
  destruct (fifo_pop_cons q y l E) as (q1 & Hq & Hl). congruence.
Qed.
End fifo.

#[global] Instance list_fifo : Fifo list := {|
  fifo_new _ := [];
  fifo_push _ x q := q ++ [x];
  fifo_pop _ q := match q with [] => None | x :: q => Some (x, q) end;
  fifo_list _ q := q;
|}.

#[global] Instance list_fifo_laws : FifoLaws list.
Proof. split; [done|done|by intros A [|x q]|intros A q x l Hq; cbn in *; subst; by exists l]. Qed.

(** ** [slab::Slab]: values at small integer keys; [vacant_entry().key()] is a key
    that is not in use, and keys of removed values are given out again. *)
Class Slab (S : Type → Type) : Type := {
  slab_new {A} : S A;
  slab_vacant {A} : S A → nat;
  slab_get {A} : nat → S A → option A;
  slab_put {A} : nat → A → S A → S A;
  slab_remove {A} : nat → S A → S A;
  slab_iter {A} : S A → list (nat * A);
  slab_update {A} : (A → A) → S A → S A;
  slab_len {A} : S A → nat;
}.

Class SlabLaws (S : Type → Type) `{Slab S} : Prop := {
  slab_get_new {A} k : slab_get (A := A) k slab_new = None;
  slab_get_vacant {A} (s : S A) : slab_get (slab_vacant s) s = None;
  slab_get_put {A} (s : S A) k a k' :
    k = slab_vacant s ∨ is_Some (slab_get k s) →
    slab_get k' (slab_put k a s) = if decide (k' = k) then Some a else slab_get k' s;
  slab_get_remove {A} (s : S A) k k' :
    slab_get k' (slab_remove k s) = if decide (k' = k) then None else slab_get k' s;
  slab_get_update {A} (f : A → A) (s : S A) k : slab_get k (slab_update f s) = f <$> slab_get k s;
  slab_iter_get {A} (s : S A) k a : (k, a) ∈ slab_iter s ↔ slab_get k s = Some a;
  slab_iter_nodup {A} (s : S A) : NoDup (fst <$> slab_iter s);
  slab_len_iter {A} (s : S A) : slab_len s = length (slab_iter s);
}.

(** A finite map is a slab: the fresh key is one past the largest key in use. *)
#[global] Instance gmap_slab : Slab (gmap nat) := {|
  slab_new _ := ∅;
  slab_vacant _ m := fresh (dom m);
  slab_get _ k m := m !! k;
  slab_put _ k a m := <[k := a]> m;
  slab_remove _ k m := delete k m;
  slab_iter _ m := map_to_list m;
  slab_update _ f m := f <$> m;
  slab_len _ m := size m;
|}.

#[global] Instance gmap_slab_laws : SlabLaws (gmap nat).
Proof.
  split; intros; cbn.
  - apply lookup_empty.
  - apply not_elem_of_dom, is_fresh.
  - rewrite lookup_insert. repeat case_decide; congruence.
  - rewrite lookup_delete. repeat case_decide; congruence.
  - apply lookup_fmap.
  - apply elem_of_map_to_list.
  - apply NoDup_fst_map_to_list.
  - by rewrite length_map_to_list.
Qed.
