(* ===== verification/Message.v ===== *)
(** * Messages, payloads, addresses and kernel errors

    Models [rskynet-core/src/message.rs] and the error enumeration of
    [rskynet-core/src/error.rs].  A Rust [String] is the list of its UTF-8 bytes
    ([string]); the address grammar only inspects ASCII characters. *)
From S2P Require Import Prelude.
From Stdlib Require Import Ascii.

(** Service handles are [u64] ([rskynet_core::Handle]). *)
Abbreviation Handle := Z (only parsing).

(** ** Message types *)

Module MsgType.
(** [struct MsgType(pub u8)]. *)
Definition t : Type := Z.
Definition TEXT : t := 0.
Definition RESPONSE : t := 1.
Definition MULTICAST : t := 2.
Definition CLIENT : t := 3.
Definition SYSTEM : t := 4.
Definition SOCKET : t := 5.
Definition ERROR : t := 6.
Definition USER : t := 7.
Definition TLS : t := 8.
Definition QUIC : t := 9.

Definition is_reply (m : t) : bool := (m =? RESPONSE) || (m =? ERROR).
End MsgType.

(** ** Payloads *)

(** A boxed object is its dynamic [TypeId] together with the identity of the
    allocation; the kernel never looks inside. *)
Inductive Payload : Type :=
  | PNone
  | PBytes (bytes : list Z)
  | PBoxed (type_id : Z) (object : Z).

#[global] Instance Payload_eq_dec : EqDecision Payload.
Proof. solve_decision. Defined.

Module PayloadOps.
(** [Payload::downcast::<T>]: [inl] is the object, [inr] hands the payload back. *)
Definition downcast (T : Z) (p : Payload) : Z + Payload :=
  match p with
  | PBoxed ty o => if decide (ty = T) then inl o else inr p
  | other => inr other
  end.

Definition len (p : Payload) : Z :=
  match p with PBytes b => Z.of_nat (length b) | _ => 0 end.
End PayloadOps.

(** ** Errors *)

Inductive Error : Type :=
  | NoService (h : Handle)
  | UnknownService (kind : string)
  | NameNotFound (name : string)
  | CallFailed (h : Handle)
  | Canceled
  | Init (kind reason : string)
  | Service (msg : string)
  | PayloadMismatch (msg : string)
  | Config (msg : string)
  | ConfigIo (path : string)
  | ConfigParse
  | MissingTimer
  | Json
  | Io.

#[global] Instance Error_eq_dec : EqDecision Error.
Proof. solve_decision. Defined.

(** [Result<T>]: [inl] is [Ok], [inr] is [Err]. *)
Abbreviation Result T := (T + Error)%type.

(** ** Messages *)

Record Message : Type := mkMessage {
  source : Handle;
  session : Z;
  mtype : MsgType.t;
  payload : Payload;
}.

#[global] Instance Message_eq_dec : EqDecision Message.
Proof. unfold EqDecision, MsgType.t; intros [] []; unfold Decision; decide equality; apply decide; apply _. Defined.

(** [Message::take_payload]: what is taken, and the message left behind. *)
Definition take_payload (m : Message) : Payload * Message :=
  (payload m, mkMessage (source m) (session m) (mtype m) PNone).

Definition needs_reply (m : Message) : bool := negb (session m =? 0).

(** ** Addresses *)

Inductive Addr : Type :=
  | AHandle (h : Handle)
  | AName (name : string).

#[global] Instance Addr_eq_dec : EqDecision Addr.
Proof. solve_decision. Defined.

Module AddrText.
(** [char::to_digit(16)]. *)
Definition hex_value (c : ascii) : option Z :=
  let n := Z.of_nat (nat_of_ascii c) in
  if decide (48 ≤ n ≤ 57) then Some (n - 48)
  else if decide (97 ≤ n ≤ 102) then Some (n - 87)
  else if decide (65 ≤ n ≤ 70) then Some (n - 55)
  else None.

(** The digit loop of [u64::from_str_radix(_, 16)], overflow checked. *)
Fixpoint from_digits (acc : Z) (s : string) : option Z :=
  match s with
  | EmptyString => Some acc
  | String c rest =>
      v ← hex_value c;
      acc' ← checked_add (acc * 16) v;
      from_digits acc' rest
  end.

Definition plus_char : ascii := ascii_of_nat 43.
Definition minus_char : ascii := ascii_of_nat 45.
Definition colon_char : ascii := ascii_of_nat 58.
Definition dot_char : ascii := ascii_of_nat 46.

(** [u64::from_str_radix(_, 16)]: one leading [+] is accepted, the empty
    string and a lone sign are not. *)
Definition from_str_radix (s : string) : option Z :=
  match s with
  | EmptyString => None
  | String c rest =>
      if decide (c = plus_char) then
        match rest with EmptyString => None | _ => from_digits 0 rest end
      else from_digits 0 s
  end.

(** [str::trim_start_matches('.')]. *)
Fixpoint trim_dots (s : string) : string :=
  match s with
  | String c rest => if decide (c = dot_char) then trim_dots rest else s
  | EmptyString => EmptyString
  end.

(** [impl From<&str> for Addr]. *)
Definition from_str (value : string) : Addr :=
  match value with
  | String c hex =>
      if decide (c = colon_char) then
        match from_str_radix hex with
        | Some handle => AHandle handle
        | None => AName (trim_dots value)
        end
      else AName (trim_dots value)
  | EmptyString => AName EmptyString
  end.

(** Lower-case hexadecimal digits, most significant first. *)
Definition hex_char (d : Z) : ascii :=
  ascii_of_nat (Z.to_nat (if decide (d < 10) then d + 48 else d + 87)).

Fixpoint lower_hex (fuel : nat) (z : Z) (acc : string) : string :=
  match fuel with
  | O => acc
  | S fuel =>
      let acc' := String (hex_char (z mod 16)) acc in
      if decide (z / 16 = 0) then acc' else lower_hex fuel (z / 16) acc'
  end.

Fixpoint zeros (n : nat) (s : string) : string :=
  match n with O => s | S n => String (hex_char 0) (zeros n s) end.

(** The format specification [{:08x}] on a [u64]: sixteen digits suffice. *)
Definition fmt_08x (z : Z) : string :=
  let digits := lower_hex 16 z EmptyString in
  zeros (8 - String.length digits) digits.

(** [impl Display for Addr]. *)
Definition to_string (a : Addr) : string :=
  match a with
  | AHandle h => String colon_char (fmt_08x h)
  | AName name => String dot_char name
  end.

Lemma hex_value_char d : 0 ≤ d < 16 → hex_value (hex_char d) = Some d.
Proof.
  intros Hd. unfold hex_value, hex_char.
  rewrite nat_ascii_embedding by (case_decide; lia).
  repeat case_decide; f_equal; lia.
Qed.

Lemma hex_char_not_plus d : 0 ≤ d < 16 → hex_char d ≠ plus_char.
Proof.
  intros Hd Heq%(f_equal nat_of_ascii). unfold hex_char, plus_char in Heq.
  rewrite !nat_ascii_embedding in Heq by (try case_decide; lia).
  case_decide; lia.
Qed.

Lemma from_digits_lower_hex fuel z acc :
  0 ≤ z ≤ U64_MAX → z < 16 ^ Z.of_nat fuel → (0 < fuel)%nat →
  from_digits 0 (lower_hex fuel z acc) = from_digits z acc.
Proof.
  revert z acc. induction fuel as [|fuel IH]; intros z acc Hz Hlt Hf; [lia|].
  cbn [lower_hex]. pose proof (Z.mod_pos_bound z 16 ltac:(lia)) as Hmod.
  pose proof (Z.div_mod z 16 ltac:(lia)) as Hdm.
  assert (Hstep : from_digits (z / 16) (String (hex_char (z mod 16)) acc)
                  = from_digits z acc).
  { cbn [from_digits]. rewrite hex_value_char by lia. cbn.
    unfold checked_add. rewrite decide_True by lia. cbn. f_equal; lia. }
  case_decide as E; [by rewrite E in Hstep|].
  rewrite IH; [exact Hstep| | |].
  - pose proof (Z.div_le_upper_bound z 16 z). lia.
  - rewrite Nat2Z.inj_succ, Z.pow_succ_r in Hlt by lia.
    apply Z.div_lt_upper_bound; lia.
  - destruct fuel; [|lia]. change (16 ^ Z.of_nat 1) with 16 in Hlt.
    rewrite Z.div_small in E by lia. congruence.
Qed.

Lemma from_digits_zeros n s : from_digits 0 (zeros n s) = from_digits 0 s.
Proof.
  induction n as [|n IH]; [done|]. cbn [zeros from_digits].
  rewrite hex_value_char by lia. exact IH.
Qed.

(** A padded number starts with a hexadecimal digit. *)
Definition starts_hex (s : string) : Prop :=
  ∃ d rest, s = String (hex_char d) rest ∧ 0 ≤ d < 16.

Lemma lower_hex_starts fuel z acc :
  (0 < fuel)%nat ∨ starts_hex acc → starts_hex (lower_hex fuel z acc).
Proof.
  revert z acc. induction fuel as [|fuel IH]; intros z acc Hf; cbn [lower_hex].
  { destruct Hf; [lia|done]. }
  assert (starts_hex (String (hex_char (z mod 16)) acc)).
  { eexists _, _. split; [done|]. apply Z.mod_pos_bound; lia. }
  case_decide; auto.
Qed.

Lemma fmt_08x_starts z : starts_hex (fmt_08x z).
Proof.
  unfold fmt_08x. destruct (8 - _)%nat; cbn [zeros].
  - apply lower_hex_starts; left; lia.
  - eexists _, _; split; [done|lia].
Qed.

Lemma from_str_radix_fmt z : is_u64 z → from_str_radix (fmt_08x z) = Some z.
Proof.
  intros Hz. destruct (fmt_08x_starts z) as (d & rest & Heq & Hd).
  unfold from_str_radix. rewrite Heq, decide_False, <-Heq
    by (apply hex_char_not_plus; lia).
  unfold fmt_08x. rewrite from_digits_zeros, from_digits_lower_hex; [done| | |lia].
  - u64.
  - unfold is_u64 in Hz. change (16 ^ Z.of_nat 16) with (2 ^ 64). lia.
Qed.

Lemma from_digits_range acc s z :
  0 ≤ acc ≤ U64_MAX → from_digits acc s = Some z → 0 ≤ z ≤ U64_MAX.
Proof.
  revert acc. induction s as [|c s IH]; intros acc Hacc; cbn; [by intros [= ->]|].
  intros (v & Hv & (acc' & Hacc' & Hz)%bind_Some)%bind_Some. revert Hz. apply IH.
  unfold hex_value, checked_add in *. repeat case_decide; simplify_eq; lia.
Qed.

Lemma trim_dots_idemp s : trim_dots (trim_dots s) = trim_dots s.
Proof.
  induction s as [|c s IH]; [done|]. cbn. case_decide as Hc; [done|].
  cbn. by rewrite decide_False.
Qed.

Lemma from_str_handle s h : from_str s = AHandle h → is_u64 h.
Proof.
  destruct s as [|c hex]; [done|]. cbn [from_str].
  case_decide; [|done]. destruct (from_str_radix hex) eqn:E; [|done].
  intros [= ->]. assert (0 ≤ h ≤ U64_MAX); [|u64].
  destruct hex as [|c' hex']; [done|]. cbn in E. case_decide.
  - destruct hex'; [done|]. eapply from_digits_range, E. u64.
  - eapply (from_digits_range 0 (String c' hex')), E. u64.
Qed.

Lemma from_str_name s n : from_str s = AName n → trim_dots n = n.
Proof.
  destruct s as [|c hex]; cbn [from_str]; [by intros [= <-]|].
  case_decide; [destruct (from_str_radix hex); [done|]|];
    intros Heq; injection Heq as <-; apply (trim_dots_idemp (String c hex)).
Qed.

(** Parsing the printed form of an address that was itself parsed gives the
    same address back: handles survive the zero-padded hexadecimal form over
    the whole [u64] range, names survive the leading dot. *)
Theorem from_str_to_string s : from_str (to_string (from_str s)) = from_str s.
Proof.
  destruct (from_str s) as [h|n] eqn:E; cbn [to_string from_str].
  - rewrite decide_True, from_str_radix_fmt by eauto using from_str_handle. done.
  - rewrite decide_False by done. cbn [trim_dots]. rewrite decide_True by done.
    by rewrite (from_str_name _ _ E).
Qed.
End AddrText.
