(* ===== verification/Session.v ===== *)
(** * The session table

    Models [rskynet-core/src/session.rs]: the map from the session numbers a
    service is waiting on to the waker, or the reply, of the waiting task.  The
    table is only touched by the thread that runs the service, so the operations
    are pure functions on its state.  A waker is a value of an abstract type [W]
    with the documented [Waker::will_wake] test. *)
From S2P Require Import Prelude Message.

Module Session.
Section Session.
Context {W : Type} (will_wake : W → W → bool).

Inductive Slot : Type :=
  | Waiting (waker : option W)
  | Done (result : Result Payload).

Record SessionTable : Type := mkTable {
  next : Z;
  slots : gmap Z Slot;
  active : Z;
}.

Inductive Poll : Type := Pending | Ready (r : Result Payload).

Definition new : SessionTable := mkTable 0 ∅ 0.

(** One turn of the number generator in [alloc]: wrap around, skip zero. *)
Definition succ_session (n : Z) : Z :=
  let n := n +w 1 in if decide (n = 0) then 1 else n.

(** The allocation loop; [fuel] bounds the numbers tried. *)
Fixpoint alloc_loop (fuel : nat) (t : SessionTable) : option (Z * SessionTable) :=
  match fuel with
  | O => None
  | S fuel =>
      let s := succ_session (next t) in
      match slots t !! s with
      | None =>
          Some (s, mkTable s (<[s := Waiting None]> (slots t)) (active t +w 1))
      | Some _ => alloc_loop fuel (mkTable s (slots t) (active t))
      end
  end.

Definition alloc (t : SessionTable) : option (Z * SessionTable) :=
  alloc_loop (S (size (slots t))) t.

(** The new table, whether somebody was waiting, and the waker to call. *)
Definition complete (s : Z) (result : Result Payload) (t : SessionTable)
    : SessionTable * bool * option W :=
  match slots t !! s with
  | None => (t, false, None)
  | Some (Done _) => (t, false, None)
  | Some (Waiting w) =>
      (mkTable (next t) (<[s := Done result]> (slots t)) (active t), true, w)
  end.

Definition poll (s : Z) (waker : W) (t : SessionTable) : SessionTable * Poll :=
  match slots t !! s with
  | Some (Waiting old) =>
      let keep := match old with Some o => will_wake o waker | None => false end in
      if keep then (t, Pending)
      else (mkTable (next t) (<[s := Waiting (Some waker)]> (slots t)) (active t), Pending)
  | Some (Done result) =>
      (mkTable (next t) (delete s (slots t)) (active t -w 1), Ready result)
  | None => (t, Ready (inr Canceled))
  end.

Definition abandon (s : Z) (t : SessionTable) : SessionTable :=
  match slots t !! s with
  | Some _ => mkTable (next t) (delete s (slots t)) (active t -w 1)
  | None => t
  end.

Definition clear (t : SessionTable) : SessionTable := mkTable (next t) ∅ 0.

Definition pending (t : SessionTable) : Z := active t.

(** ** Sequences of operations *)

Inductive Op : Type :=
  | OAlloc
  | OComplete (s : Z) (r : Result Payload)
  | OPoll (s : Z) (w : W)
  | OAbandon (s : Z)
  | OClear.

Inductive Resp : Type :=
  | RSession (s : Z)
  | RDelivered (b : bool) (woken : option W)
  | RPoll (p : Poll)
  | RUnit.

Definition step (o : Op) (t : SessionTable) : option (SessionTable * Resp) :=
  match o with
  | OAlloc => '(s, t') ← alloc t; Some (t', RSession s)
  | OComplete s r =>
      let '(t', b, w) := complete s r t in Some (t', RDelivered b w)
  | OPoll s w => let '(t', p) := poll s w t in Some (t', RPoll p)
  | OAbandon s => Some (abandon s t, RUnit)
  | OClear => Some (clear t, RUnit)
  end.

Fixpoint run (os : list Op) (t : SessionTable) : option (SessionTable * list Resp) :=
  match os with
  | [] => Some (t, [])
  | o :: os =>
      '(t1, r) ← step o t;
      '(t2, rs) ← run os t1;
      Some (t2, r :: rs)
  end.

Definition allocated (rs : list Resp) : list Z :=
  omap (λ r, match r with RSession s => Some s | _ => None end) rs.

(** ** The table invariant *)

Definition live (t : SessionTable) : Z := Z.of_nat (size (slots t)).

(** Keys are genuine session numbers, [active] counts them, and there is room
    for one more. *)
Record wf (t : SessionTable) : Prop := {
  wf_next : is_u64 (next t);
  wf_keys : ∀ s, is_Some (slots t !! s) → 1 ≤ s ≤ U64_MAX;
  wf_active : active t = live t;
}.

(** The [k]-th number tried after [n], in closed form. *)
Definition candidate (n k : Z) : Z := 1 + (n + k - 1) mod U64_MAX.

Lemma succ_session_eq n : is_u64 n → succ_session n = candidate n 1.
Proof.
  intros Hn. unfold succ_session, candidate, wrapping_add, wrap64, is_u64, U64_MAX in *.
  destruct (decide (n = 2 ^ 64 - 1)) as [->|]; [done|].
  rewrite !Z.mod_small by lia. case_decide; lia.
Qed.

Lemma candidate_range n k : 1 ≤ candidate n k ≤ U64_MAX.
Proof.
  unfold candidate. pose proof (Z.mod_pos_bound (n + k - 1) U64_MAX).
  unfold U64_MAX in *. lia.
Qed.

Lemma candidate_succ n k : candidate (candidate n 1) k = candidate n (k + 1).
Proof.
  unfold candidate.
  replace (1 + (n + 1 - 1) mod U64_MAX + k - 1) with (k + n mod U64_MAX)
    by (replace (n + 1 - 1) with n by lia; lia).
  rewrite Zplus_mod_idemp_r. do 2 f_equal. lia.
Qed.

Lemma candidate_inj n j k :
  1 ≤ j ≤ U64_MAX → 1 ≤ k ≤ U64_MAX → candidate n j = candidate n k → j = k.
Proof.
  intros Hj Hk Heq. unfold candidate in Heq.
  assert (Hd : (j - k) mod U64_MAX = 0).
  { replace (j - k) with ((n + j - 1) - (n + k - 1)) by lia.
    rewrite Zminus_mod. replace ((n + j - 1) mod U64_MAX) with ((n + k - 1) mod U64_MAX) by lia.
    by rewrite Z.sub_diag. }
  apply Z.mod_divide in Hd as [q Hq]; [|u64].
  assert (q = 0) by (unfold U64_MAX in *; nia). lia.
Qed.

(** What the loop does when it finds a free number, and when it does not. *)
Lemma alloc_loop_spec fuel t :
  is_u64 (next t) →
  match alloc_loop fuel t with
  | Some (s, t') => ∃ k, 1 ≤ k ≤ Z.of_nat fuel ∧ s = candidate (next t) k
      ∧ slots t !! s = None
      ∧ t' = mkTable s (<[s := Waiting None]> (slots t)) (active t +w 1)
      ∧ ∀ j, 1 ≤ j < k → is_Some (slots t !! candidate (next t) j)
  | None => ∀ k, 1 ≤ k ≤ Z.of_nat fuel → is_Some (slots t !! candidate (next t) k)
  end.
Proof.
  revert t. induction fuel as [|fuel IH]; intros t Hn; cbn [alloc_loop]; [lia|].
  rewrite succ_session_eq by done.
  destruct (slots t !! candidate (next t) 1) as [x|] eqn:E.
  - pose proof (candidate_range (next t) 1).
    specialize (IH (mkTable (candidate (next t) 1) (slots t) (active t)) ltac:(cbn; u64)).
    destruct (alloc_loop _ _) as [[s t']|]; cbn in IH.
    + destruct IH as (k & Hk & -> & Hfree & -> & Hocc). rewrite candidate_succ in *.
      exists (k + 1). split_and!; [lia|lia|done|done|done|].
      intros j Hj. destruct (decide (j = 1)) as [->|]; [by eexists|].
      specialize (Hocc (j - 1) ltac:(lia)). rewrite candidate_succ in Hocc.
      by replace (j - 1 + 1) with j in Hocc by lia.
    + intros k Hk. destruct (decide (k = 1)) as [->|]; [by eexists|].
      specialize (IH (k - 1) ltac:(lia)). rewrite candidate_succ in IH.
      by replace (k - 1 + 1) with k in IH by lia.
  - exists 1. split_and!; [lia|lia|done|done|done|lia].
Qed.

(** Pigeonhole: the numbers tried are distinct, so a table with [n] entries
    cannot occupy [n + 1] of them. *)
Lemma occupied_bound t (f : nat) n :
  Z.of_nat f ≤ U64_MAX →
  (∀ k, 1 ≤ k ≤ Z.of_nat f → is_Some (slots t !! candidate n k)) →
  (f ≤ size (slots t))%nat.
Proof.
  intros Hf Hocc. set (l := candidate n <$> seqZ 1 (Z.of_nat f)).
  assert (Hnd : NoDup l).
  { apply NoDup_fmap_2_strong; [|apply NoDup_seqZ].
    intros j k Hj Hk Heq. rewrite !elem_of_seqZ in *. eapply candidate_inj, Heq; lia. }
  assert (Hsub : list_to_set l ⊆ dom (slots t)).
  { intros x Hx. apply elem_of_list_to_set, list_elem_of_fmap in Hx as (k & -> & Hk).
    apply elem_of_dom, Hocc. rewrite elem_of_seqZ in Hk. lia. }
  apply subseteq_size in Hsub. rewrite size_list_to_set, size_dom in Hsub by done.
  subst l. rewrite length_fmap, length_seqZ in Hsub. lia.
Qed.

Lemma alloc_some t :
  is_u64 (next t) → live t < U64_MAX → ∃ s t', alloc t = Some (s, t').
Proof.
  intros Hn Hl. unfold live in Hl.
  pose proof (alloc_loop_spec (S (size (slots t))) t Hn) as Hspec.
  unfold alloc. destruct (alloc_loop _ t) as [[s t']|]; [by eauto|].
  exfalso. apply occupied_bound in Hspec; lia.
Qed.

Lemma table_new_wf : wf new.
Proof. split; cbn; [u64| |done]. intros s []. by rewrite lookup_empty in *. Qed.

Lemma live_room t : live t < U64_MAX → active t = live t → active t +w 1 = live t + 1.
Proof. unfold live. intros. unfold wrapping_add, wrap64. rewrite Z.mod_small; u64. Qed.

Lemma live_pos t s : is_Some (slots t !! s) → 1 ≤ live t.
Proof.
  intros [x Hx]. unfold live. rewrite <-(insert_delete_id _ _ _ Hx), map_size_insert_None;
    [lia|apply lookup_delete_eq].
Qed.

Lemma live_delete t s :
  is_Some (slots t !! s) → Z.of_nat (size (delete s (slots t))) = live t - 1.
Proof.
  intros [x Hx]. unfold live. rewrite map_size_delete, Hx.
  pose proof (live_pos t s (ex_intro _ _ Hx)). unfold live in *. lia.
Qed.

Lemma wf_bound t : wf t → live t ≤ U64_MAX.
Proof.
  intros Hwf. unfold live.
  assert (Hsub : dom (slots t) ⊆ list_to_set (seqZ 1 U64_MAX)).
  { intros s Hs. apply elem_of_list_to_set, elem_of_seqZ.
    apply elem_of_dom, (wf_keys _ Hwf) in Hs. lia. }
  apply subseteq_size in Hsub.
  rewrite size_dom, size_list_to_set, length_seqZ in Hsub by apply NoDup_seqZ.
  u64.
Qed.

Lemma wf_delete t s :
  wf t → is_Some (slots t !! s) → wf (mkTable (next t) (delete s (slots t)) (active t -w 1)).
Proof.
  intros Hwf Hs. pose proof (live_delete t s Hs) as Hdel. pose proof (live_pos t s Hs).
  pose proof (wf_bound t Hwf). split; cbn.
  - apply Hwf.
  - intros s' [x Hx]. apply lookup_delete_Some in Hx as [_ Hx]. eapply wf_keys; eauto.
  - unfold live; cbn. rewrite Hdel, (wf_active _ Hwf). unfold wrapping_sub, wrap64.
    rewrite Z.mod_small; u64.
Qed.

Lemma wf_update t s x :
  wf t → is_Some (slots t !! s) → wf (mkTable (next t) (<[s := x]> (slots t)) (active t)).
Proof.
  intros Hwf [y Hy]. split; cbn.
  - apply Hwf.
  - intros s' [z Hz]. apply lookup_insert_Some in Hz as [[<- _]|[_ Hz]];
      eapply wf_keys; eauto.
  - unfold live; cbn. rewrite map_size_insert, Hy. apply Hwf.
Qed.

Lemma alloc_wf t s t' :
  wf t → live t < U64_MAX → alloc t = Some (s, t') →
  1 ≤ s ≤ U64_MAX ∧ slots t !! s = None ∧ next t' = s
  ∧ slots t' = <[s := Waiting None]> (slots t) ∧ wf t'.
Proof.
  intros Hwf Hl Ha. pose proof (alloc_loop_spec (S (size (slots t))) t (wf_next _ Hwf)) as Hs.
  unfold alloc in Ha. rewrite Ha in Hs. destruct Hs as (k & _ & Hk & Hfree & -> & _).
  pose proof (candidate_range (next t) k) as Hr. rewrite <-Hk in Hr.
  split_and!; [lia|lia|done|done|done|]. split; cbn.
  - u64.
  - intros s' [z Hz]. apply lookup_insert_Some in Hz as [[<- _]|[_ Hz]]; [done|].
    eapply wf_keys; eauto.
  - rewrite live_room by eauto using wf_active. unfold live; cbn.
    rewrite map_size_insert_None by done. lia.
Qed.

(** The table invariant is preserved by every operation, and no operation
    gets stuck: as long as fewer than [2^64 - 1] sessions are live, the
    allocation loop finds a free number within one more try than the table has
    entries, and [active] always equals the number of live sessions. *)
Theorem step_total_wf o t :
  wf t → live t < U64_MAX →
  ∃ t' r, step o t = Some (t', r) ∧ wf t' ∧ pending t' = live t'.
Proof.
  intros Hwf Hl.
  assert (∃ t' r, step o t = Some (t', r) ∧ wf t') as (t' & r & Hs & Hwf');
    [|exists t', r; split_and!; [done|done|apply (wf_active _ Hwf')]].
  destruct o as [|s r|s w|s|]; cbn [step].
  - destruct (alloc_some t (wf_next _ Hwf) Hl) as (s & t' & Ha).
    rewrite Ha. eexists _, _. split; [done|]. eapply alloc_wf; eauto.
  - unfold complete. destruct (slots t !! s) as [[w|?]|] eqn:E; eexists _, _;
      (split; [done|]); eauto using wf_update.
  - unfold poll. destruct (slots t !! s) as [[[o|]|?]|] eqn:E;
      [destruct (will_wake o w)|..]; eexists _, _; (split; [done|]);
      eauto using wf_update, wf_delete.
  - eexists _, _. split; [done|]. unfold abandon.
    destruct (slots t !! s) eqn:E; eauto using wf_delete.
  - eexists _, _. split; [done|]. split; cbn; [apply Hwf| |done].
    intros s []. by rewrite lookup_empty in *.
Qed.

(** ** Numbers are never reused *)

(** Before the counter wraps, every live session is at most [next]. *)
Record fresh (t : SessionTable) : Prop := {
  fresh_next : 0 ≤ next t ≤ U64_MAX;
  fresh_keys : ∀ s, is_Some (slots t !! s) → 1 ≤ s ≤ next t;
}.

Lemma fresh_new : fresh new.
Proof. split; cbn; [u64|]. intros s []. by rewrite lookup_empty in *. Qed.

Lemma fresh_same_next t m a :
  fresh t → (∀ s, is_Some (m !! s) → is_Some (slots t !! s)) → fresh (mkTable (next t) m a).
Proof. intros [Hn Hk] Hm. split; cbn; auto. Qed.

Lemma alloc_fresh t :
  fresh t → next t < U64_MAX →
  ∃ t', alloc t = Some (next t + 1, t') ∧ next t' = next t + 1 ∧ fresh t'.
Proof.
  intros [Hn Hk] Hlt. unfold alloc. cbn [alloc_loop].
  assert (Hs : succ_session (next t) = next t + 1).
  { unfold succ_session, wrapping_add, wrap64. rewrite Z.mod_small by u64.
    rewrite decide_False by lia. done. }
  rewrite Hs. destruct (slots t !! (next t + 1)) as [x|] eqn:E.
  { specialize (Hk (next t + 1) ltac:(by eexists)). lia. }
  eexists. split; [done|]. split; [done|]. split; cbn; [lia|].
  intros s [y Hy]. apply lookup_insert_Some in Hy as [[<- _]|[_ Hy]]; [lia|].
  specialize (Hk s ltac:(by eexists)). lia.
Qed.

(** An operation either allocates the next number or leaves the counter alone. *)
Lemma step_fresh o t t' r :
  fresh t → next t + Z.of_nat (length (allocated [r])) ≤ U64_MAX →
  step o t = Some (t', r) →
  fresh t' ∧ allocated [r] = seqZ (next t + 1) (next t' - next t) ∧ next t ≤ next t'.
Proof.
  intros Hf Hb Hs. pose proof (fresh_next _ Hf) as Hnext.
  assert (Hid : ∀ u, next u = next t → [] = seqZ (next t + 1) (next u - next t)).
  { intros u ->. by rewrite Z.sub_diag. }
  destruct o as [|s r'|s w|s|]; cbn [step] in Hs.
  - apply bind_Some in Hs as ([s u] & Ha & Heq). cbn in Heq. injection Heq as <- <-.
    cbn in Hb. destruct (alloc_fresh t Hf) as (t'' & Ha' & Hn' & Hf'); [lia|].
    rewrite Ha in Ha'. simplify_eq. split_and!; [done| |lia].
    rewrite Hn'. replace (next t + 1 - next t) with 1 by lia. done.
  - unfold complete in Hs. destruct (slots t !! s) as [[w|?]|] eqn:E; simplify_eq/=;
      (split_and!; [|by apply Hid|lia]); try done.
    apply fresh_same_next; [done|]. intros s'. rewrite lookup_insert. case_decide; naive_solver.
  - unfold poll in Hs. destruct (slots t !! s) as [[[o|]|?]|] eqn:E;
      [destruct (will_wake o w)|..]; simplify_eq/=; (split_and!; [|by apply Hid|lia]); try done;
      apply fresh_same_next; try done; intros s';
      rewrite ?lookup_insert, ?lookup_delete; case_decide; naive_solver.
  - simplify_eq/=. unfold abandon. destruct (slots t !! s) eqn:E; cbn;
      (split_and!; [|by apply Hid|lia]); try done. apply fresh_same_next; [done|]. intros s'. rewrite lookup_delete.
    case_decide; naive_solver.
  - simplify_eq/=. split_and!; [|by apply Hid|lia]. apply fresh_same_next; [done|].
    intros s'. rewrite lookup_empty. by intros [].
Qed.

Lemma allocated_cons r rs : allocated (r :: rs) = allocated [r] ++ allocated rs.
Proof. unfold allocated. cbn. by destruct r. Qed.

Lemma run_fresh os t t' rs :
  fresh t → next t + Z.of_nat (length (allocated rs)) ≤ U64_MAX →
  run os t = Some (t', rs) →
  fresh t' ∧ allocated rs = seqZ (next t + 1) (next t' - next t) ∧ next t ≤ next t'.
Proof.
  revert t rs. induction os as [|o os IH]; intros t rs Hf Hb Hr; cbn [run] in Hr.
  { simplify_eq. rewrite Z.sub_diag. split_and!; [done|done|lia]. }
  apply bind_Some in Hr as ([t1 r] & Hs & Hr). apply bind_Some in Hr as ([t2 rs'] & Hr & Heq).
  simplify_eq. rewrite allocated_cons, length_app in Hb.
  destruct (step_fresh o t t1 r) as (Hf1 & Ha1 & Hle1); [done|lia|done|].
  assert (next t1 = next t + Z.of_nat (length (allocated [r]))).
  { rewrite Ha1, length_seqZ. lia. }
  destruct (IH t1 rs') as (Hf2 & Ha2 & Hle2); [done|lia|done|].
  split_and!; [done| |lia]. rewrite allocated_cons, Ha1, Ha2.
  replace (next t' - next t) with ((next t1 - next t) + (next t' - next t1)) by lia.
  rewrite seqZ_app by lia. do 2 f_equal. lia.
Qed.

(** From a new table and for any sequence of operations that allocates
    fewer than [2^64] sessions, the numbers handed out are exactly
    [1, 2, 3, ...]: zero is never used and no number is ever used twice, also
    when sessions are abandoned, completed or cleared in between. *)
Theorem sessions_never_reused os t rs :
  run os new = Some (t, rs) →
  Z.of_nat (length (allocated rs)) ≤ U64_MAX →
  allocated rs = seqZ 1 (Z.of_nat (length (allocated rs))) ∧ NoDup (allocated rs).
Proof.
  intros Hr Hb. destruct (run_fresh os new t rs) as (_ & Ha & Hle);
    [apply fresh_new|cbn; lia|done|]. cbn in *.
  assert (next t = Z.of_nat (length (allocated rs))) as Hn.
  { rewrite Ha, length_seqZ. lia. }
  split; [|rewrite Ha; apply NoDup_seqZ]. rewrite <-Hn, Ha. f_equal; lia.
Qed.

(** ** Replies *)

Lemma alloc_loop_slots fuel t s t' :
  alloc_loop fuel t = Some (s, t') →
  slots t !! s = None ∧ slots t' = <[s := Waiting None]> (slots t).
Proof.
  revert t. induction fuel as [|fuel IH]; intros t; cbn [alloc_loop]; [done|].
  destruct (slots t !! succ_session (next t)) as [x|] eqn:E.
  - intros Ha. apply (IH (mkTable (succ_session (next t)) (slots t) (active t)) Ha).
  - intros Heq. by simplify_eq.
Qed.

(** Only an allocation adds an entry, and it adds the number it returns. *)
Lemma step_keys o t t' r s :
  step o t = Some (t', r) → is_Some (slots t' !! s) →
  is_Some (slots t !! s) ∨ r = RSession s.
Proof.
  intros Hs. destruct o as [|s' r'|s' w|s'|]; cbn [step] in Hs.
  - apply bind_Some in Hs as ([s' u] & Ha & Heq). injection Heq as <- <-.
    apply alloc_loop_slots in Ha as [_ ->]. rewrite lookup_insert.
    case_decide; naive_solver.
  - unfold complete in Hs. destruct (slots t !! s') as [[]|] eqn:E; simplify_eq/=; auto.
    rewrite lookup_insert. case_decide; naive_solver.
  - unfold poll in Hs. destruct (slots t !! s') as [[[o|]|]|] eqn:E;
      [destruct (will_wake o w)|..]; simplify_eq/=; auto;
      rewrite ?lookup_insert, ?lookup_delete; case_decide; naive_solver.
  - simplify_eq/=. unfold abandon. destruct (slots t !! s') eqn:E; auto.
    cbn. rewrite lookup_delete. case_decide; naive_solver.
  - simplify_eq/=. rewrite lookup_empty. by intros [].
Qed.

(** Once a session number has been given out and its entry removed, it stays
    out of the table. *)
Lemma removed_stays_removed s os t t' rs :
  fresh t → next t + Z.of_nat (length (allocated rs)) ≤ U64_MAX →
  s ≤ next t → slots t !! s = None →
  run os t = Some (t', rs) → slots t' !! s = None.
Proof.
  revert t rs. induction os as [|o os IH]; intros t rs Hf Hb Hs Hnone Hr; cbn [run] in Hr.
  { by simplify_eq. }
  apply bind_Some in Hr as ([t1 r] & Hstep & Hr). apply bind_Some in Hr as ([t2 rs'] & Hr & Heq).
  simplify_eq. rewrite allocated_cons, length_app in Hb.
  destruct (step_fresh o t t1 r) as (Hf1 & Ha1 & Hle1); [done|lia|done|].
  assert (next t1 = next t + Z.of_nat (length (allocated [r]))).
  { rewrite Ha1, length_seqZ. lia. }
  eapply (IH t1 rs'); [done|lia|lia| |done].
  apply eq_None_not_Some. intros [Hs'| ->]%(step_keys _ _ _ _ _ Hstep).
  - rewrite Hnone in Hs'. by destruct Hs'.
  - assert (s ∈ seqZ (next t + 1) (next t1 - next t)) as Hin
      by (rewrite <-Ha1; apply list_elem_of_here).
    apply elem_of_seqZ in Hin. lia.
Qed.

(** A reply to a session that was given up is dropped, no matter how late it
    arrives: after [abandon s], whatever the service does next (allocating more
    sessions included, up to [2^64 - 1] in its lifetime), [complete s] reports
    that nobody waits, wakes nobody and changes nothing, so it can never wake a
    newer request. *)
Theorem late_reply_dropped s os1 os2 t1 t2 rs1 rs2 result :
  run os1 new = Some (t1, rs1) → s ∈ allocated rs1 →
  run os2 (abandon s t1) = Some (t2, rs2) →
  Z.of_nat (length (allocated (rs1 ++ rs2))) ≤ U64_MAX →
  complete s result t2 = (t2, false, None).
Proof.
  intros H1 Hin H2 Hb. unfold allocated in Hb. rewrite omap_app, length_app in Hb.
  fold (allocated rs1) in Hb; fold (allocated rs2) in Hb.
  destruct (run_fresh os1 new t1 rs1) as (Hf1 & Ha1 & Hle1);
    [apply fresh_new|cbn; lia|done|].
  assert (Hn : next t1 = Z.of_nat (length (allocated rs1))).
  { rewrite Ha1, length_seqZ. cbn in *. lia. }
  destruct (step_fresh (OAbandon s) t1 (abandon s t1) RUnit) as (Hf & Ha & Hle);
    [done|cbn; lia|done|].
  assert (Hab : next (abandon s t1) = next t1 ∧ slots (abandon s t1) !! s = None).
  { unfold abandon. destruct (slots t1 !! s) eqn:E; cbn; [|done].
    by rewrite lookup_delete_eq. }
  destruct Hab as [Hna Hnone].
  rewrite Ha1 in Hin. apply elem_of_seqZ in Hin. cbn in Hin.
  unfold complete. erewrite (removed_stays_removed s os2 (abandon s t1)); eauto; lia.
Qed.

(** Operations that leave an entry alone. *)
Definition untouched (s : Z) (o : Op) : Prop :=
  match o with
  | OAlloc => True
  | OComplete s' _ | OPoll s' _ | OAbandon s' => s' ≠ s
  | OClear => False
  end.

(** The same, with further replies to the same session allowed. *)
Definition not_consumed (s : Z) (o : Op) : Prop :=
  match o with OComplete _ _ => True | _ => untouched s o end.

Lemma step_untouched s o t t' r x :
  untouched s o → step o t = Some (t', r) → slots t !! s = Some x → slots t' !! s = Some x.
Proof.
  intros Hu Hs Hx. destruct o as [|s' r'|s' w|s'|]; cbn [step untouched] in *; [| | | |done].
  - apply bind_Some in Hs as ([s' u] & Ha & Heq). injection Heq as <- <-.
    apply alloc_loop_slots in Ha as [Hn ->]. rewrite lookup_insert_ne by congruence. done.
  - unfold complete in Hs. destruct (slots t !! s') as [[]|] eqn:E; simplify_eq/=; auto.
    by rewrite lookup_insert_ne.
  - unfold poll in Hs. destruct (slots t !! s') as [[[o|]|]|] eqn:E;
      [destruct (will_wake o w)|..]; simplify_eq/=; auto;
      by rewrite ?lookup_insert_ne, ?lookup_delete_ne.
  - simplify_eq. unfold abandon. destruct (slots t !! s') eqn:E; auto.
    cbn. by rewrite lookup_delete_ne.
Qed.

Lemma step_not_consumed s o t t' r x :
  not_consumed s o → step o t = Some (t', r) →
  slots t !! s = Some (Done x) → slots t' !! s = Some (Done x).
Proof.
  intros Hu Hs Hx.
  destruct o as [|s' r'| | |]; try exact (step_untouched s _ t t' r _ Hu Hs Hx).
  destruct (decide (s' = s)) as [->|]; [|by eapply (step_untouched s (OComplete s' r'))].
  cbn in Hs. unfold complete in Hs. rewrite Hx in Hs. by simplify_eq.
Qed.

Lemma run_preserves (P : Op → Prop) (Q : SessionTable → Prop) os t t' rs :
  (∀ o u u' r, P o → step o u = Some (u', r) → Q u → Q u') →
  Forall P os → run os t = Some (t', rs) → Q t → Q t'.
Proof.
  intros Hstep Hos. revert t rs. induction Hos as [|o os Ho _ IH]; intros t rs Hr HQ; cbn [run] in Hr.
  { by simplify_eq. }
  apply bind_Some in Hr as ([t1 r] & Hs & Hr). apply bind_Some in Hr as ([t2 rs'] & Hr & Heq).
  simplify_eq. eauto.
Qed.

(** The first reply wins and is delivered exactly once: after [complete s r]
    was accepted, any further operations that do not consume the entry (more
    replies to [s] included) leave [r] in place, each further reply is refused,
    the next [poll s] returns [r], and the one after that reports cancellation. *)
Theorem first_reply_wins s r r' t t1 w1 os t2 rs w t3 p :
  complete s r t = (t1, true, w1) →
  Forall (not_consumed s) os → run os t1 = Some (t2, rs) →
  poll s w t2 = (t3, p) →
  complete s r' t2 = (t2, false, None) ∧ p = Ready r
  ∧ poll s w t3 = (t3, Ready (inr Canceled)).
Proof.
  intros Hc Hos Hr Hp.
  assert (H1 : slots t1 !! s = Some (Done r)).
  { unfold complete in Hc. destruct (slots t !! s) as [[]|]; simplify_eq/=.
    apply lookup_insert_eq. }
  assert (H2 : slots t2 !! s = Some (Done r)).
  { refine (run_preserves (not_consumed s) (λ u, slots u !! s = Some (Done r))
      os t1 t2 rs _ Hos Hr H1).
    intros o u u' q Ho Hs Hu. by eapply (step_not_consumed s o u u' q r). }
  unfold complete, poll in *. rewrite H2 in *. simplify_eq/=.
  by rewrite lookup_delete_eq.
Qed.

(** No wake-up is lost: if the waiting task polled with waker [w] and was told
    to wait, then when the reply arrives the waker that is called is [w] or one
    that [will_wake] certifies to wake the same task. *)
Theorem reply_wakes_last_poller s w t t1 os t2 rs r :
  poll s w t = (t1, Pending) →
  Forall (untouched s) os → run os t1 = Some (t2, rs) →
  ∃ t3 w', complete s r t2 = (t3, true, Some w') ∧ (w' = w ∨ will_wake w' w = true)
    ∧ slots t3 !! s = Some (Done r).
Proof.
  intros Hp Hos Hr.
  assert (∃ w', slots t1 !! s = Some (Waiting (Some w')) ∧ (w' = w ∨ will_wake w' w = true))
    as (w' & H1 & Hw).
  { unfold poll in Hp. destruct (slots t !! s) as [[[o|]|]|] eqn:E;
      [destruct (will_wake o w) eqn:Ew|..]; simplify_eq/=; eauto;
      rewrite lookup_insert_eq; eauto. }
  assert (H2 : slots t2 !! s = Some (Waiting (Some w'))).
  { refine (run_preserves (untouched s) (λ u, slots u !! s = Some (Waiting (Some w')))
      os t1 t2 rs _ Hos Hr H1).
    intros o u u' q Ho Hs Hu. by eapply (step_untouched s o u u' q). }
  eexists _, w'. unfold complete. rewrite H2. split_and!; [done|done|]. cbn.
  apply lookup_insert_eq.
Qed.
End Session.

(** ** Concrete runs: wakers are numbers, [will_wake] is equality *)

Example two_allocs :
  run Nat.eqb [OAlloc; OAlloc; OAbandon 1; OAlloc] new
  = Some (mkTable 3 (<[3 := Waiting None]> {[2 := Waiting None]}) 2,
          [RSession 1; RSession 2; RUnit; RSession 3]).
Proof. vm_compute. reflexivity. Qed.

Lemma step_total_wf_witness :
  wf (W := nat) new ∧ ∃ t' r, step Nat.eqb OAlloc new = Some (t', r) ∧ wf t' ∧ pending t' = live t'.
Proof.
  split; [apply table_new_wf|]. apply (step_total_wf Nat.eqb OAlloc new); [apply table_new_wf|done].
Defined.

Lemma sessions_never_reused_witness :
  let rs := [RSession (W := nat) 1; RSession 2; RUnit; RSession 3] in
  allocated rs = seqZ 1 (Z.of_nat (length (allocated rs))) ∧ NoDup (allocated rs).
Proof.
  apply (sessions_never_reused Nat.eqb [OAlloc; OAlloc; OAbandon 1; OAlloc]
    (mkTable 3 (<[3 := Waiting None]> {[2 := Waiting None]}) 2)); [vm_compute; reflexivity|done].
Defined.

Lemma late_reply_dropped_witness :
  let t := mkTable 2 {[2 := Waiting (@None nat)]} 1 in
  complete 1 (inl PNone) t = (t, false, None).
Proof.
  apply (late_reply_dropped Nat.eqb 1 [OAlloc] [OAlloc]
    (mkTable 1 {[1 := Waiting None]} 1) _ [RSession 1] [RSession 2]);
    [vm_compute; reflexivity|apply list_elem_of_here|vm_compute; reflexivity|done].
Defined.

Lemma first_reply_wins_witness :
  let t2 := mkTable 2 (<[2 := Waiting (@None nat)]> {[1 := Done (inl PNone)]}) 2 in
  complete 1 (inr Canceled) t2 = (t2, false, None) ∧ snd (poll Nat.eqb 1 7%nat t2) = Ready (inl PNone).
Proof.
  intros t2.
  destruct (first_reply_wins Nat.eqb 1 (inl PNone) (inr Canceled)
    (mkTable 1 {[1 := Waiting (Some 7%nat)]} 1) (mkTable 1 {[1 := Done (inl PNone)]} 1) (Some 7%nat)
    [OAlloc; OComplete 1 (inr Canceled)] t2 [RSession 2; RDelivered false None] 7%nat
    (fst (poll Nat.eqb 1 7%nat t2)) (snd (poll Nat.eqb 1 7%nat t2))) as (H1 & H2 & _);
    [vm_compute; reflexivity|repeat constructor|vm_compute; reflexivity|by destruct (poll _ _ _ _)|].
  by split.
Defined.

Lemma reply_wakes_last_poller_witness :
  ∃ t3 w', complete 1 (inl PNone) (mkTable 1 {[1 := Waiting (Some 7%nat)]} 1) = (t3, true, Some w')
    ∧ (w' = 7%nat ∨ Nat.eqb w' 7 = true) ∧ slots t3 !! 1 = Some (Done (inl PNone)).
Proof.
  apply (reply_wakes_last_poller Nat.eqb 1 7%nat (mkTable 1 {[1 := Waiting None]} 1)
    (mkTable 1 {[1 := Waiting (Some 7%nat)]} 1) [] _ []);
    [vm_compute; reflexivity|constructor|reflexivity].
Defined.
End Session.
