(* ===== verification/Wheel.v ===== *)
(** * The hierarchical timing wheel

    Models [rskynet-timer/src/wheel.rs].  The wheel has one ring of 256 buckets
    for the current 256 ticks and ten levels of 64 buckets above it; an index
    from timer keys to bucket positions makes cancellation constant time.

    Bucket indices come from masked values, so every [Vec] access of the code is
    in range; the two places where the code relies on the index instead
    ([swap_remove] in [cancel]) are written with the panic as [None]. *)
From S2P Require Import Prelude Message.
From Stdlib Require Import Sorted.

Module Wheel.

Definition TIME_NEAR_SHIFT : Z := 8.
Definition TIME_NEAR : nat := 256.
Definition TIME_LEVEL_SHIFT : Z := 6.
Definition TIME_LEVEL : nat := 64.
Definition TIME_NEAR_MASK : Z := 255.
Definition TIME_LEVEL_MASK : Z := 63.
Definition TIME_LEVELS : nat := 10.

(** [(handle, session)]. *)
Abbreviation TimerKey := (Z * Z)%type.

Record TimerEvent : Type := mkEvent {
  handle : Z;
  session : Z;
  expire : Z;
}.

#[global] Instance TimerEvent_eq_dec : EqDecision TimerEvent.
Proof. solve_decision. Defined.

Definition key (e : TimerEvent) : TimerKey := (handle e, session e).

Inductive Location : Type :=
  | Near (slot index : nat)
  | Level (level slot index : nat).

Record Wheel : Type := mkWheel {
  time : Z;
  near : list (list TimerEvent);
  levels : list (list (list TimerEvent));
  locations : gmap TimerKey Location;
}.

Definition new : Wheel :=
  mkWheel 0 (replicate TIME_NEAR []) (replicate TIME_LEVELS (replicate TIME_LEVEL [])) ∅.

(** A bucket is a slot of the near ring or of a level; reading one and storing
    one back are the [self.near[slot]] and [self.levels[level][slot]] accesses. *)
Inductive Bucket : Type :=
  | BNear (slot : nat)
  | BLevel (level slot : nat).

#[global] Instance Bucket_eq_dec : EqDecision Bucket.
Proof. solve_decision. Defined.

Definition get_bucket (w : Wheel) (b : Bucket) : list TimerEvent :=
  match b with
  | BNear s => near w !!! s
  | BLevel l s => (levels w !!! l) !!! s
  end.

Definition set_bucket (w : Wheel) (b : Bucket) (v : list TimerEvent) : Wheel :=
  match b with
  | BNear s => mkWheel (time w) (<[s := v]> (near w)) (levels w) (locations w)
  | BLevel l s =>
      mkWheel (time w) (near w) (<[l := <[s := v]> (levels w !!! l)]> (levels w)) (locations w)
  end.

Definition set_locations (w : Wheel) (m : gmap TimerKey Location) : Wheel :=
  mkWheel (time w) (near w) (levels w) m.

Definition loc (b : Bucket) (i : nat) : Location :=
  match b with BNear s => Near s i | BLevel l s => Level l s i end.

(** [bucket.push(event)] together with the index entry for it. *)
Definition push_event (b : Bucket) (e : TimerEvent) (w : Wheel) : Wheel :=
  let index := length (get_bucket w b) in
  let w := set_bucket w b (get_bucket w b ++ [e]) in
  set_locations w (<[key e := loc b index]> (locations w)).

(** The level search of [add]: the first level whose upper bits agree with the
    current time, the top level if there is none. *)
Definition select_level (expire current : Z) : nat :=
  let fits level :=
    let upper_shift := TIME_NEAR_SHIFT + (Z.of_nat level + 1) * TIME_LEVEL_SHIFT in
    bool_decide (U64_BITS ≤ upper_shift)
    || (Z.shiftr expire upper_shift =? Z.shiftr current upper_shift) in
  default (TIME_LEVELS - 1)%nat (List.find fits (seq 0 TIME_LEVELS)).

Definition add (event : TimerEvent) (w : Wheel) : Wheel :=
  let event :=
    if decide (expire event <= time w)
    then mkEvent (handle event) (session event) (time w) else event in
  let expire := expire event in
  let current := time w in
  if Z.lor expire TIME_NEAR_MASK =? Z.lor current TIME_NEAR_MASK then
    push_event (BNear (Z.to_nat (Z.land expire TIME_NEAR_MASK))) event w
  else
    let selected := select_level expire current in
    let shift := TIME_NEAR_SHIFT + Z.of_nat selected * TIME_LEVEL_SHIFT in
    let slot := Z.to_nat (Z.land (Z.shiftr expire shift) TIME_LEVEL_MASK) in
    push_event (BLevel selected slot) event w.

(** One branch of [cancel]: remove position [i] of bucket [b] and re-index the
    event that moved into its place. *)
Definition cancel_at (b : Bucket) (i : nat) (w : Wheel) : option Wheel :=
  bucket ← swap_remove i (get_bucket w b);
  let w := set_bucket w b bucket in
  Some (match bucket !! i with
        | Some event => set_locations w (<[key event := loc b i]> (locations w))
        | None => w
        end).

Definition cancel (k : TimerKey) (w : Wheel) : option Wheel :=
  match locations w !! k with
  | None => Some w
  | Some location =>
      let w := set_locations w (delete k (locations w)) in
      match location with
      | Near slot index => cancel_at (BNear slot) index w
      | Level level slot index => cancel_at (BLevel level slot) index w
      end
  end.

(** Re-inserting one event of a migrated bucket. *)
Definition readd (w : Wheel) (event : TimerEvent) : Wheel :=
  add event (set_locations w (delete (key event) (locations w))).

Definition move_list (level slot : nat) (w : Wheel) : Wheel :=
  let events := get_bucket w (BLevel level slot) in
  foldl readd (set_bucket w (BLevel level slot) []) events.

(** The migration loop of [shift]: [fuel] levels remain to be looked at. *)
Fixpoint shift_loop (fuel level : nat) (shifted : Z) (w : Wheel) : Wheel :=
  match fuel with
  | O => w
  | S fuel =>
      let slot := Z.to_nat (Z.land shifted TIME_LEVEL_MASK) in
      if decide (slot = 0%nat)
      then shift_loop fuel (S level) (Z.shiftr shifted TIME_LEVEL_SHIFT) w
      else move_list level slot w
  end.

Definition shift (w : Wheel) : Wheel :=
  let w := mkWheel (time w +w 1) (near w) (levels w) (locations w) in
  let current := time w in
  if decide (current = 0) then move_list (TIME_LEVELS - 1) 0 w
  else if decide (Z.land current TIME_NEAR_MASK = 0)
  then shift_loop TIME_LEVELS 0 (Z.shiftr current TIME_NEAR_SHIFT) w
  else w.

(** [execute(&mut out)]: the wheel and the events appended to [out]. *)
Definition execute (w : Wheel) : Wheel * list TimerEvent :=
  let slot := Z.to_nat (Z.land (time w) TIME_NEAR_MASK) in
  let events := get_bucket w (BNear slot) in
  let w := set_bucket w (BNear slot) [] in
  (set_locations w (foldl (λ m e, delete (key e) m) (locations w) events), events).

(** One turn of the loop of [WheelTimer::update]. *)
Definition tick (w : Wheel) : Wheel * list TimerEvent :=
  let '(w, out1) := execute w in
  let w := shift w in
  let '(w, out2) := execute w in
  (w, out1 ++ out2).

Fixpoint advance (n : nat) (w : Wheel) : Wheel * list TimerEvent :=
  match n with
  | O => (w, [])
  | S n =>
      let '(w, out) := tick w in
      let '(w, out') := advance n w in
      (w, out ++ out')
  end.

Example fires_on_time :
  let w := add (mkEvent 1 7 300) new in
  snd (advance 299 w) = [] ∧ snd (advance 300 w) = [mkEvent 1 7 300].
Proof. vm_compute. done. Qed.

(** ** Which bucket an event belongs to *)

(** The bucket [add] chooses at time [t] for an event due at [e]. *)
Definition bucket_for (t e : Z) : Bucket :=
  if Z.lor e TIME_NEAR_MASK =? Z.lor t TIME_NEAR_MASK
  then BNear (Z.to_nat (Z.land e TIME_NEAR_MASK))
  else
    let selected := select_level e t in
    BLevel selected (Z.to_nat (Z.land
      (Z.shiftr e (TIME_NEAR_SHIFT + Z.of_nat selected * TIME_LEVEL_SHIFT)) TIME_LEVEL_MASK)).

(** The number of ticks one bucket of level [l] spans. *)
Definition span (l : nat) : Z := 2 ^ (8 + 6 * Z.of_nat l).

Lemma span_pos l : 0 < span l.
Proof. unfold span. apply Z.pow_pos_nonneg; lia. Qed.

Lemma span_S l : span (S l) = span l * 64.
Proof. unfold span. rewrite Nat2Z.inj_succ. replace (8 + 6 * Z.succ _) with (8 + 6 * Z.of_nat l + 6) by lia.
  rewrite Z.pow_add_r by lia. lia. Qed.

Lemma span_le j k : (j ≤ k)%nat → ∃ q, span k = span j * q ∧ 0 < q.
Proof.
  induction 1 as [|k _ (q & Hq & Hpos)]; [exists 1; lia|].
  exists (q * 64). rewrite span_S, Hq. lia.
Qed.

(** Agreement at a fine level implies agreement at every coarser one. *)
Lemma div_span_le a b j k :
  (j ≤ k)%nat → a / span j = b / span j → a / span k = b / span k.
Proof.
  intros (q & -> & Hq)%span_le Heq. pose proof (span_pos j).
  rewrite <-!Z.div_div by lia. by rewrite Heq.
Qed.

Lemma land_near a : Z.land a TIME_NEAR_MASK = a mod span 0.
Proof. unfold TIME_NEAR_MASK. change 255 with (Z.ones 8). by rewrite Z.land_ones. Qed.

Lemma land_level a : Z.land a TIME_LEVEL_MASK = a mod 64.
Proof. unfold TIME_LEVEL_MASK. change 63 with (Z.ones 6). by rewrite Z.land_ones. Qed.

Lemma shiftr_span a l :
  Z.shiftr a (TIME_NEAR_SHIFT + Z.of_nat l * TIME_LEVEL_SHIFT) = a / span l.
Proof.
  rewrite Z.shiftr_div_pow2 by (unfold TIME_NEAR_SHIFT, TIME_LEVEL_SHIFT; lia).
  unfold span, TIME_NEAR_SHIFT, TIME_LEVEL_SHIFT. do 2 f_equal. lia.
Qed.

Lemma lor_near_eq a b :
  0 ≤ a → 0 ≤ b →
  Z.lor a TIME_NEAR_MASK = Z.lor b TIME_NEAR_MASK ↔ a / span 0 = b / span 0.
Proof.
  intros Ha Hb. change (span 0) with (2 ^ 8). rewrite <-!Z.shiftr_div_pow2 by lia.
  split; intros Heq.
  - apply (f_equal (λ z, Z.shiftr z 8)) in Heq. rewrite !Z.shiftr_lor in Heq.
    change (Z.shiftr TIME_NEAR_MASK 8) with 0 in Heq. by rewrite !Z.lor_0_r in Heq.
  - apply Z.bits_inj'. intros i Hi. rewrite !Z.lor_spec.
    destruct (decide (i < 8)) as [Hlt|Hge].
    + change TIME_NEAR_MASK with (Z.ones 8). rewrite Z.ones_spec_low, !orb_true_r by lia. done.
    + apply (f_equal (λ z, Z.testbit z (i - 8))) in Heq.
      rewrite !Z.shiftr_spec in Heq by lia. replace (i - 8 + 8) with i in Heq by lia.
      by rewrite Heq.
Qed.

(** First hit of a search through [seq a n]. *)
Lemma find_seq_first (f : nat → bool) n a i :
  List.find f (seq a n) = Some i →
  f i = true ∧ (a ≤ i < a + n)%nat ∧ ∀ j, (a ≤ j < i)%nat → f j = false.
Proof.
  revert a. induction n as [|n IH]; intros a; cbn; [done|].
  destruct (f a) eqn:E.
  - intros [= <-]. split_and!; [done|lia|lia|lia].
  - intros (H1 & H2 & H3)%IH. split_and!; [done|lia|lia|].
    intros j Hj. destruct (decide (j = a)) as [->|]; [done|]. apply H3. lia.
Qed.

Lemma find_seq_none (f : nat → bool) n a :
  List.find f (seq a n) = None → ∀ j, (a ≤ j < a + n)%nat → f j = false.
Proof. intros Hf j Hj. eapply List.find_none; [exact Hf|]. apply in_seq. lia. Qed.

Lemma fits_iff a b l :
  (bool_decide (U64_BITS ≤ TIME_NEAR_SHIFT + (Z.of_nat l + 1) * TIME_LEVEL_SHIFT)
   || (Z.shiftr a (TIME_NEAR_SHIFT + (Z.of_nat l + 1) * TIME_LEVEL_SHIFT)
       =? Z.shiftr b (TIME_NEAR_SHIFT + (Z.of_nat l + 1) * TIME_LEVEL_SHIFT))) = true
  ↔ (9 < l + 1)%nat ∨ a / span (S l) = b / span (S l).
Proof.
  rewrite orb_true_iff, bool_decide_eq_true, Z.eqb_eq.
  replace (Z.of_nat l + 1) with (Z.of_nat (S l)) by lia. rewrite !shiftr_span.
  unfold U64_BITS, TIME_NEAR_SHIFT, TIME_LEVEL_SHIFT. split; (intros [|]; [left; lia|by right]).
Qed.

Lemma top_span_agrees a b : is_u64 a → is_u64 b → a / span 10 = b / span 10.
Proof.
  unfold is_u64. intros. change (span 10) with (2 ^ 68). rewrite !Z.div_small; lia.
Qed.

(** [select_level] is the level where the two times first agree going up. *)
Lemma select_level_spec e t :
  is_u64 e → is_u64 t → e / span 0 ≠ t / span 0 →
  let l := select_level e t in
  (l < TIME_LEVELS)%nat ∧ e / span l ≠ t / span l ∧ e / span (S l) = t / span (S l).
Proof.
  intros He Ht Hne. unfold select_level. set (f := λ l, _). cbn zeta.
  destruct (List.find f (seq 0 TIME_LEVELS)) as [l|] eqn:E; cbn [from_option id].
  - apply find_seq_first in E as (Hf & Hl & Hmin). unfold f in Hf. apply fits_iff in Hf.
    split_and!; [unfold TIME_LEVELS in *; lia| |].
    + destruct l as [|l]; [done|]. intros Heq.
      specialize (Hmin l ltac:(lia)). apply not_true_iff_false in Hmin. apply Hmin.
      unfold f. apply fits_iff. by right.
    + destruct Hf as [Hf|]; [|done].
      assert (l = 9%nat) as -> by (unfold TIME_LEVELS in *; lia). by apply top_span_agrees.
  - exfalso. pose proof (find_seq_none _ _ _ E 9%nat ltac:(unfold TIME_LEVELS; lia)) as Hf.
    apply not_true_iff_false in Hf. apply Hf. unfold f. apply fits_iff. left. lia.
Qed.

Lemma level_unique a b j k :
  a / span j ≠ b / span j → a / span (S j) = b / span (S j) →
  a / span k ≠ b / span k → a / span (S k) = b / span (S k) → j = k.
Proof.
  intros Hj HSj Hk HSk. destruct (Nat.lt_trichotomy j k) as [Hlt|[?|Hlt]]; [|done|].
  - exfalso. apply Hk. eapply div_span_le, HSj. lia.
  - exfalso. apply Hj. eapply div_span_le, HSk. lia.
Qed.

Lemma bucket_for_near t e :
  is_u64 t → is_u64 e → e / span 0 = t / span 0 →
  bucket_for t e = BNear (Z.to_nat (e mod span 0)).
Proof.
  intros Ht He Heq. unfold bucket_for. rewrite land_near.
  apply lor_near_eq in Heq; [|u64..]. by apply Z.eqb_eq in Heq as ->.
Qed.

Lemma bucket_for_level t e l :
  is_u64 t → is_u64 e → e / span l ≠ t / span l → e / span (S l) = t / span (S l) →
  bucket_for t e = BLevel l (Z.to_nat (e / span l mod 64)).
Proof.
  intros Ht He Hl HSl. unfold bucket_for.
  assert (Hne : e / span 0 ≠ t / span 0).
  { intros Heq. apply Hl. eapply div_span_le, Heq. lia. }
  destruct (Z.eqb_spec (Z.lor e TIME_NEAR_MASK) (Z.lor t TIME_NEAR_MASK)) as [Heq|_].
  { apply lor_near_eq in Heq; [done|u64..]. }
  destruct (select_level_spec e t He Ht Hne) as (_ & H1 & H2). cbn zeta.
  rewrite shiftr_span, land_level.
  by rewrite (level_unique _ _ _ _ H1 H2 Hl HSl).
Qed.

Lemma bucket_for_cases t e :
  is_u64 t → is_u64 e →
  e / span 0 = t / span 0 ∨
  ∃ l, (l < TIME_LEVELS)%nat ∧ e / span l ≠ t / span l ∧ e / span (S l) = t / span (S l).
Proof.
  intros Ht He. destruct (decide (e / span 0 = t / span 0)) as [|Hne]; [by left|right].
  eexists. by apply select_level_spec.
Qed.

(** Buckets that exist. *)
Definition valid (b : Bucket) : Prop :=
  match b with
  | BNear s => (s < TIME_NEAR)%nat
  | BLevel l s => (l < TIME_LEVELS)%nat ∧ (s < TIME_LEVEL)%nat
  end.

Lemma bucket_for_valid t e : is_u64 t → is_u64 e → valid (bucket_for t e).
Proof.
  intros Ht He. destruct (bucket_for_cases t e Ht He) as [Hn|(l & Hl & H1 & H2)].
  - rewrite bucket_for_near by done. cbn. pose proof (Z.mod_pos_bound e (span 0) (span_pos 0)).
    change (span 0) with 256 in *. unfold TIME_NEAR. lia.
  - rewrite (bucket_for_level t e l) by done. split; [done|].
    pose proof (Z.mod_pos_bound (e / span l) 64). unfold TIME_LEVEL. lia.
Qed.

(** ** What a tick changes *)

(** The bucket the loop of [shift] migrates, as a function of the time alone. *)
Fixpoint migrated (fuel level : nat) (shifted : Z) : option (nat * nat) :=
  match fuel with
  | O => None
  | S fuel =>
      let slot := Z.to_nat (Z.land shifted TIME_LEVEL_MASK) in
      if decide (slot = 0%nat)
      then migrated fuel (S level) (Z.shiftr shifted TIME_LEVEL_SHIFT)
      else Some (level, slot)
  end.

Lemma shift_loop_migrated fuel level shifted w :
  shift_loop fuel level shifted w =
  match migrated fuel level shifted with Some (l, s) => move_list l s w | None => w end.
Proof.
  revert level shifted. induction fuel as [|fuel IH]; intros level shifted; cbn [shift_loop migrated];
    [done|]. by case_decide.
Qed.

Lemma migrated_spec fuel level t :
  (fuel + level = TIME_LEVELS)%nat → 0 < t → is_u64 t → (span level | t) →
  ∃ m, (m < TIME_LEVELS)%nat ∧ (span m | t) ∧ ¬ (span (S m) | t)
    ∧ migrated fuel level (t / span level) = Some (m, Z.to_nat (t / span m mod 64)).
Proof.
  revert level. induction fuel as [|fuel IH]; intros level Hf Hpos Ht [q Hq].
  { exfalso. assert (level = 10%nat) as -> by (unfold TIME_LEVELS in *; lia).
    change (span 10) with (2 ^ 68) in Hq. unfold is_u64 in Ht. nia. }
  pose proof (span_pos level) as Hsp.
  assert (Hdiv : t / span level = q) by (subst t; apply Z.div_mul; lia).
  cbn [migrated]. rewrite Hdiv, land_level.
  pose proof (Z.mod_pos_bound q 64 ltac:(lia)) as Hmod.
  case_decide as Hz.
  - assert (Hq64 : q = 64 * (q / 64)) by (pose proof (Z.div_mod q 64); lia).
    assert (Hdvd : (span (S level) | t)).
    { exists (q / 64). rewrite span_S. nia. }
    destruct (IH (S level) ltac:(lia) Hpos Ht Hdvd) as (m & Hm & Hdm & Hndm & Hmig).
    exists m. split_and!; [done..|]. rewrite <-Hmig. f_equal.
    unfold TIME_LEVEL_SHIFT. rewrite Z.shiftr_div_pow2, span_S, <-Z.div_div by lia.
    by rewrite Hdiv.
  - exists level. split_and!; [unfold TIME_LEVELS in *; lia|by exists q| |by rewrite Hdiv].
    intros [r Hr]. rewrite span_S in Hr. apply Hz.
    assert (q = r * 64) as -> by nia. by rewrite Z.mod_mul.
Qed.

Lemma div_succ_ndvd t d : 0 < d → ¬ (d | t + 1) → (t + 1) / d = t / d.
Proof.
  intros Hd Hn. apply (Z.div_unique_pos t d _ ((t + 1) mod d - 1)).
  - pose proof (Z.mod_pos_bound (t + 1) d Hd).
    assert ((t + 1) mod d ≠ 0); [|lia]. intros H0. apply Hn. apply Z.mod_divide; lia.
  - pose proof (Z.div_mod (t + 1) d). lia.
Qed.

(** An event still ahead of [t] cannot share a block of [d] ticks with [t] when
    the block ends at [t]. *)
Lemma same_block_end t e d : 0 < d → (d | t + 1) → e / d = t / d → e ≤ t.
Proof.
  intros Hd [q Hq] Heq. assert (t / d = q - 1) as Ht.
  { symmetry. apply (Z.div_unique_pos t d _ (d - 1)); lia. }
  pose proof (Z.div_mod e d). pose proof (Z.mod_pos_bound e d). nia.
Qed.

(** Moving the clock by one tick changes the bucket of no pending event, except
    for the events of the one bucket that [shift] migrates. *)
Lemma bucket_for_succ t e :
  0 ≤ t → t < e → is_u64 e →
  (Z.land (t + 1) TIME_NEAR_MASK = 0 →
   ∀ m s, migrated TIME_LEVELS 0 (Z.shiftr (t + 1) TIME_NEAR_SHIFT) = Some (m, s) →
   bucket_for t e ≠ BLevel m s) →
  bucket_for (t + 1) e = bucket_for t e.
Proof.
  intros Ht Hlt He Hmoved.
  assert (Hu : is_u64 t) by u64. assert (Hu1 : is_u64 (t + 1)) by u64.
  rewrite land_near in Hmoved. unfold TIME_NEAR_SHIFT in Hmoved.
  rewrite Z.shiftr_div_pow2 in Hmoved by lia. change (2 ^ 8) with (span 0) in Hmoved.
  pose proof (span_pos 0) as Hsp0.
  destruct (decide ((t + 1) mod span 0 = 0)) as [Hd|Hnd];
    [apply Z.mod_divide in Hd; [|lia]|rewrite Z.mod_divide in Hnd by lia].
  - destruct (migrated_spec TIME_LEVELS 0 (t + 1)) as (m & Hm & Hdm & Hndm & Hmig);
      [done|lia|done|done|].
    specialize (Hmoved ltac:(apply Z.mod_divide; [lia|done]) _ _ Hmig).
    assert (Hup : ∀ k, (m < k)%nat → (t + 1) / span k = t / span k).
    { intros k Hk. apply div_succ_ndvd; [apply span_pos|]. intros Hdk. apply Hndm.
      destruct (span_le (S m) k Hk) as (q & Hq & _). rewrite Hq in Hdk.
      eapply Z.divide_trans, Hdk. by exists q; lia. }
    assert (Hdown : ∀ k, (k ≤ m)%nat → (span k | t + 1)).
    { intros k Hk. destruct (span_le k m Hk) as (q & Hq & _).
      eapply Z.divide_trans, Hdm. rewrite Hq. by exists q; lia. }
    destruct (bucket_for_cases t e Hu He) as [Hn|(l & Hl & H1 & H2)].
    { pose proof (same_block_end t e (span 0) (span_pos 0) Hd Hn). lia. }
    rewrite (bucket_for_level t e l) in * by done.
    destruct (decide (S l ≤ m)%nat) as [Hle|Hgt].
    { pose proof (same_block_end t e (span (S l)) (span_pos _) (Hdown _ Hle) H2). lia. }
    apply bucket_for_level; [done|done| |by rewrite Hup by lia].
    destruct (decide (l = m)) as [->|]; [|by rewrite Hup by lia].
    intros Heq. apply Hmoved. by rewrite Heq.
  - assert (Hsame : ∀ k, (t + 1) / span k = t / span k).
    { intros k. apply div_succ_ndvd; [apply span_pos|]. intros Hdk. apply Hnd.
      destruct (span_le 0 k ltac:(lia)) as (q & Hq & _). rewrite Hq in Hdk.
      eapply Z.divide_trans, Hdk. by exists q; lia. }
    destruct (bucket_for_cases t e Hu He) as [Hn|(l & Hl & H1 & H2)].
    + by rewrite !bucket_for_near by (rewrite ?Hsame; done).
    + by rewrite !(bucket_for_level _ e l) by (rewrite ?Hsame; done).
Qed.

(** ** Reading and writing buckets *)

Record sized (w : Wheel) : Prop := {
  sized_near : length (near w) = TIME_NEAR;
  sized_levels : length (levels w) = TIME_LEVELS;
  sized_level : ∀ l, (l < TIME_LEVELS)%nat → length (levels w !!! l) = TIME_LEVEL;
}.

Lemma get_set_eq w b v : sized w → valid b → get_bucket (set_bucket w b v) b = v.
Proof.
  intros Hs Hb. destruct b as [s|l s]; cbn in *.
  - apply list_lookup_total_insert_eq. by rewrite sized_near.
  - destruct Hb as [Hl Hb]. rewrite list_lookup_total_insert_eq by (by rewrite sized_levels).
    apply list_lookup_total_insert_eq. by rewrite sized_level.
Qed.

Lemma get_set_ne w b b' v : b ≠ b' → get_bucket (set_bucket w b v) b' = get_bucket w b'.
Proof.
  intros Hne. destruct b as [s|l s], b' as [s'|l' s']; cbn; try done.
  - apply list_lookup_total_insert_ne. congruence.
  - destruct (decide (l = l')) as [->|Hl]; [|by rewrite list_lookup_total_insert_ne].
    destruct (decide (l' < length (levels w))%nat) as [Hlt|Hge].
    + rewrite list_lookup_total_insert_eq by done.
      apply list_lookup_total_insert_ne. congruence.
    + by rewrite list_insert_ge by lia.
Qed.

Lemma set_bucket_sized w b v : sized w → sized (set_bucket w b v).
Proof.
  intros [Hn Hl Hll]. destruct b as [s|l s]; split; cbn; rewrite ?length_insert; try done.
  intros l' Hl'. destruct (decide (l = l')) as [->|].
  - rewrite list_lookup_total_insert_eq by (by rewrite Hl). rewrite length_insert. auto.
  - rewrite list_lookup_total_insert_ne by done. auto.
Qed.

Lemma set_bucket_time w b v : time (set_bucket w b v) = time w.
Proof. by destruct b. Qed.

Lemma set_bucket_locations w b v : locations (set_bucket w b v) = locations w.
Proof. by destruct b. Qed.

Lemma get_set_locations w m b : get_bucket (set_locations w m) b = get_bucket w b.
Proof. by destruct b. Qed.

Lemma set_locations_sized w m : sized w → sized (set_locations w m).
Proof. by intros [? ? ?]. Qed.

Lemma loc_inj b b' i i' : loc b i = loc b' i' → b = b' ∧ i = i'.
Proof. destruct b, b'; cbn; naive_solver. Qed.

#[global] Arguments set_bucket : simpl never.
#[global] Arguments get_bucket : simpl never.
#[local] Hint Resolve set_bucket_sized set_locations_sized : rsk.

(** Every event of the wheel, bucket by bucket. *)
Definition all_buckets : list Bucket :=
  (BNear <$> seq 0 TIME_NEAR)
  ++ (l ← seq 0 TIME_LEVELS; BLevel l <$> seq 0 TIME_LEVEL).

Definition contents (w : Wheel) : list TimerEvent := all_buckets ≫= get_bucket w.

#[global] Arguments all_buckets : simpl never.
#[global] Arguments contents : simpl never.

Lemma elem_of_all_buckets b : b ∈ all_buckets ↔ valid b.
Proof.
  unfold all_buckets. rewrite elem_of_app, list_elem_of_fmap, list_elem_of_bind.
  destruct b as [s|l s]; cbn [valid].
  - split.
    + intros [(s' & [= <-] & Hs)|(l & (s' & ? & ?)%list_elem_of_fmap & _)]; [|done].
      apply elem_of_seq in Hs. lia.
    + intros Hs. left. exists s. split; [done|]. apply elem_of_seq. lia.
  - split.
    + intros [(s' & ? & Hs)|(l' & (s' & [= <- <-] & Hs)%list_elem_of_fmap & Hl)]; [done|].
      apply elem_of_seq in Hs, Hl. lia.
    + intros [Hl Hs]. right. exists l. rewrite list_elem_of_fmap, elem_of_seq.
      split; [|lia]. exists s. rewrite elem_of_seq. split; [done|lia].
Qed.

Lemma NoDup_all_buckets : NoDup all_buckets.
Proof.
  unfold all_buckets. apply NoDup_app. split_and!.
  - apply NoDup_fmap_2; [|apply NoDup_seq]. by intros ?? [= ->].
  - intros b (s & -> & _)%list_elem_of_fmap (l & (s' & ? & _)%list_elem_of_fmap & _)%list_elem_of_bind.
    done.
  - apply NoDup_bind; [|intros; apply NoDup_fmap_2; [by intros ?? [= ->]|apply NoDup_seq]|apply NoDup_seq].
    intros l l' b Hl Hl' (s & -> & _)%list_elem_of_fmap (s' & [= ->] & _)%list_elem_of_fmap. done.
Qed.

Lemma elem_of_contents w e : e ∈ contents w ↔ ∃ b, valid b ∧ e ∈ get_bucket w b.
Proof.
  unfold contents. rewrite list_elem_of_bind. setoid_rewrite elem_of_all_buckets. naive_solver.
Qed.

(** Replacing one bucket replaces one segment of the contents. *)
Lemma contents_set w b v :
  sized w → valid b →
  ∃ rest, contents w ≡ₚ get_bucket w b ++ rest ∧ contents (set_bucket w b v) ≡ₚ v ++ rest.
Proof.
  intros Hs Hb.
  destruct (bind_update_perm (get_bucket w) (get_bucket (set_bucket w b v)) all_buckets b)
    as (rest & H1 & H2).
  - apply NoDup_all_buckets.
  - by apply elem_of_all_buckets.
  - intros b' Hne. by rewrite get_set_ne.
  - exists rest. rewrite get_set_eq in H2 by done. done.
Qed.

Lemma contents_set_locations w m : contents (set_locations w m) = contents w.
Proof. apply list_bind_ext; [|done]. intros b. apply get_set_locations. Qed.

(** ** The invariant

    Every stored event sits in the bucket [add] would choose for it now, is not
    overdue, and is indexed at its exact position.  [rem] are events taken out of
    a bucket but still indexed, while a migration is under way. *)
Record inv_with (rem : list TimerEvent) (w : Wheel) : Prop := {
  inv_sized : sized w;
  inv_time : is_u64 (time w);
  inv_place : ∀ b e, e ∈ get_bucket w b →
    b = bucket_for (time w) (expire e) ∧ time w ≤ expire e ∧ is_u64 (expire e);
  inv_indexed : ∀ b i e, get_bucket w b !! i = Some e → locations w !! key e = Some (loc b i);
  inv_complete : ∀ k, is_Some (locations w !! k) →
    (∃ b e, e ∈ get_bucket w b ∧ key e = k) ∨ k ∈ key <$> rem;
  inv_rem_nodup : NoDup (key <$> rem);
  inv_rem_disj : ∀ b e, e ∈ get_bucket w b → key e ∉ key <$> rem;
}.

Definition inv (w : Wheel) : Prop := inv_with [] w.

Lemma bucket_valid rem w b e : inv_with rem w → e ∈ get_bucket w b → valid b.
Proof.
  intros Hi He. destruct (inv_place _ _ Hi _ _ He) as (-> & _ & Hu).
  apply bucket_for_valid; [apply Hi|done].
Qed.

Lemma inv_elem rem w e :
  inv_with rem w → e ∈ contents w → time w ≤ expire e ∧ is_u64 (expire e)
    ∧ e ∈ get_bucket w (bucket_for (time w) (expire e)).
Proof.
  intros Hi (b & _ & Hb)%elem_of_contents.
  destruct (inv_place _ _ Hi _ _ Hb) as (-> & ? & ?). done.
Qed.

(** Keys determine positions, hence stored keys are pairwise distinct. *)
Lemma inv_position rem w b i e b' i' e' :
  inv_with rem w → get_bucket w b !! i = Some e → get_bucket w b' !! i' = Some e' →
  key e = key e' → b = b' ∧ i = i'.
Proof.
  intros Hi He He' Hk. pose proof (inv_indexed _ _ Hi _ _ _ He) as H1.
  pose proof (inv_indexed _ _ Hi _ _ _ He') as H2. rewrite Hk, H2 in H1.
  injection H1 as H1. apply loc_inj in H1 as [-> ->]. done.
Qed.

Lemma bucket_nodup w b : inv w → NoDup (key <$> get_bucket w b).
Proof.
  intros Hi. apply NoDup_alt. intros i j k Hi' Hj'. rewrite !list_lookup_fmap in *.
  apply fmap_Some in Hi' as (e & He & ->), Hj' as (e' & He' & Heq).
  by destruct (inv_position _ _ _ _ _ _ _ _ Hi He He' Heq).
Qed.

Lemma inv_unindexed rem w b e :
  inv_with rem w → e ∈ get_bucket w b → is_Some (locations w !! key e).
Proof.
  intros Hi [i Hl]%list_elem_of_lookup. eexists. by eapply inv_indexed.
Qed.

Lemma lookup_total_replicate_nil {A} n i : replicate n (@nil A) !!! i = [].
Proof.
  rewrite list_lookup_total_alt. destruct (replicate n [] !! i) as [x|] eqn:E; [|done].
  by apply lookup_replicate_1 in E as [-> _].
Qed.

Lemma get_bucket_new b : get_bucket new b = [].
Proof.
  destruct b as [s|l s]; unfold get_bucket, new; cbn [near levels];
    [apply lookup_total_replicate_nil|].
  destruct (decide (l < TIME_LEVELS)%nat).
  - rewrite lookup_total_replicate_2 by done. apply lookup_total_replicate_nil.
  - rewrite (list_lookup_total_alt (replicate _ _) l).
    assert (replicate TIME_LEVELS (replicate TIME_LEVEL (@nil TimerEvent)) !! l = None) as ->
      by (apply lookup_replicate_None; lia).
    done.
Qed.

Lemma wheel_new_inv : inv new.
Proof.
  split.
  - split; unfold new; cbn [near levels]; rewrite ?length_replicate; try done.
    intros l Hl. by rewrite lookup_total_replicate_2, length_replicate.
  - cbn [time new]. u64.
  - intros b e. rewrite get_bucket_new. by intros ?%elem_of_nil.
  - intros b i e. by rewrite get_bucket_new.
  - cbn. intros k []. by rewrite lookup_empty in *.
  - constructor.
  - intros b e. rewrite get_bucket_new. by intros ?%elem_of_nil.
Qed.

Lemma contents_new : contents new = [].
Proof.
  destruct (contents new) as [|e l] eqn:E; [done|]. exfalso.
  assert (e ∈ contents new) as (b & _ & Hb)%elem_of_contents by (rewrite E; left).
  rewrite get_bucket_new in Hb. by apply elem_of_nil in Hb.
Qed.

(** ** Insertion *)

Lemma get_push b' b e w :
  sized w → valid b →
  get_bucket (push_event b e w) b' =
  get_bucket w b' ++ (if decide (b' = b) then [e] else []).
Proof.
  intros Hs Hb. unfold push_event. rewrite get_set_locations. case_decide as Heq.
  - subst b'. by rewrite get_set_eq.
  - by rewrite get_set_ne, app_nil_r.
Qed.

Lemma push_time b e w : time (push_event b e w) = time w.
Proof. unfold push_event. cbn. apply set_bucket_time. Qed.

Lemma push_locations b e w :
  locations (push_event b e w) = <[key e := loc b (length (get_bucket w b))]> (locations w).
Proof. unfold push_event. cbn. by rewrite set_bucket_locations. Qed.

Lemma push_sized b e w : sized w → sized (push_event b e w).
Proof. unfold push_event. auto with rsk. Qed.

Lemma push_contents b e w : sized w → valid b → contents (push_event b e w) ≡ₚ e :: contents w.
Proof.
  intros Hs Hb. unfold push_event. rewrite contents_set_locations.
  destruct (contents_set w b (get_bucket w b ++ [e]) Hs Hb) as (rest & -> & ->).
  rewrite (Permutation_app_comm _ [e]). done.
Qed.

Lemma push_inv rem e w :
  inv_with rem w → time w ≤ expire e → is_u64 (expire e) →
  locations w !! key e = None → key e ∉ key <$> rem →
  inv_with rem (push_event (bucket_for (time w) (expire e)) e w).
Proof.
  intros Hi Hle Hu Hnone Hrem. set (b := bucket_for (time w) (expire e)).
  assert (Hs := inv_sized _ _ Hi).
  assert (Hb : valid b) by (apply bucket_for_valid; [apply Hi|done]).
  assert (Hfresh : ∀ b' e', e' ∈ get_bucket w b' → key e' ≠ key e).
  { intros b' e' He' Heq. destruct (inv_unindexed _ _ _ _ Hi He') as [x Hx]. congruence. }
  assert (Hmem : ∀ b' e', e' ∈ get_bucket (push_event b e w) b' →
                 e' ∈ get_bucket w b' ∨ (b' = b ∧ e' = e)).
  { intros b' e'. rewrite get_push by done. case_decide; set_solver. }
  split.
  - by apply push_sized.
  - rewrite push_time. apply Hi.
  - intros b' e' [He'|[-> ->]]%Hmem; rewrite push_time; [by apply (inv_place _ _ Hi)|done].
  - intros b' i e'. rewrite get_push, push_locations by done. intros Hl.
    apply lookup_app_Some in Hl as [Hl|[Hge Hl]].
    + rewrite lookup_insert_ne; [by eapply inv_indexed|].
      apply not_eq_sym, (Hfresh b' e'). by eapply list_elem_of_lookup_2.
    + case_decide as Heq; [subst b'|done].
      apply list_lookup_singleton_Some in Hl as [Hz <-].
      rewrite lookup_insert_eq. do 2 f_equal. lia.
  - intros k. rewrite push_locations. intros [x Hx].
    apply lookup_insert_Some in Hx as [[<- _]|[Hne Hx]].
    + left. exists b, e. split; [|done]. rewrite get_push, decide_True by done. set_solver.
    + destruct (inv_complete _ _ Hi k) as [(b' & e' & He' & Hk)|]; [by eexists| |by right].
      left. exists b', e'. split; [|done]. rewrite get_push by done. set_solver.
  - apply Hi.
  - intros b' e' [He'|[-> ->]]%Hmem; [by eapply inv_rem_disj|done].
Qed.

(** The event as [add] stores it. *)
Definition clip (t : Z) (e : TimerEvent) : TimerEvent :=
  if decide (expire e <= t) then mkEvent (handle e) (session e) t else e.

Lemma add_push e w : add e w = push_event (bucket_for (time w) (expire (clip (time w) e))) (clip (time w) e) w.
Proof. unfold add, bucket_for. fold (clip (time w) e). cbn zeta. by destruct (_ =? _). Qed.

Lemma clip_key t e : key (clip t e) = key e.
Proof. unfold clip. by case_decide. Qed.

Lemma clip_id t e : t ≤ expire e → clip t e = e.
Proof. unfold clip. case_decide; [|done]. intros. destruct e; cbn in *. f_equal. lia. Qed.

Lemma clip_range t e :
  is_u64 t → is_u64 (expire e) → t ≤ expire (clip t e) ∧ is_u64 (expire (clip t e)).
Proof. unfold clip. case_decide; cbn; [done|]. u64. Qed.

Lemma add_inv_with rem e w :
  inv_with rem w → is_u64 (expire e) → locations w !! key e = None → key e ∉ key <$> rem →
  inv_with rem (add e w) ∧ contents (add e w) ≡ₚ clip (time w) e :: contents w
  ∧ time (add e w) = time w.
Proof.
  intros Hi Hu Hnone Hrem. rewrite add_push.
  destruct (clip_range (time w) e (inv_time _ _ Hi) Hu) as [Hle Hu'].
  split_and!; [|apply push_contents|apply push_time].
  - apply push_inv; rewrite ?clip_key; done.
  - apply Hi.
  - apply bucket_for_valid; [apply Hi|done].
Qed.

(** ** Migration *)

Lemma readd_inv rem e w :
  inv_with (e :: rem) w → time w ≤ expire e → is_u64 (expire e) →
  inv_with rem (readd w e) ∧ contents (readd w e) ≡ₚ e :: contents w ∧ time (readd w e) = time w.
Proof.
  intros Hi Hle Hu. unfold readd. set (w' := set_locations w _).
  pose proof (inv_rem_nodup _ _ Hi) as [Hnin Hnd]%NoDup_cons.
  assert (Hi' : inv_with rem w').
  { split.
    - apply set_locations_sized, Hi.
    - apply Hi.
    - intros b e'. unfold w'. rewrite get_set_locations. apply (inv_place _ _ Hi).
    - intros b i e'. unfold w'. rewrite get_set_locations. cbn. intros Hl.
      rewrite lookup_delete_ne; [by eapply inv_indexed|]. intros Heq.
      apply (inv_rem_disj _ _ Hi b e'); [by eapply list_elem_of_lookup_2|].
      rewrite <-Heq. apply list_elem_of_here.
    - cbn. intros k [x Hx]. apply lookup_delete_Some in Hx as [Hne Hx].
      destruct (inv_complete _ _ Hi k) as [(b & e' & He' & Hk)|Hin]; [by eexists| |].
      + left. exists b, e'. unfold w'. by rewrite get_set_locations.
      + right. cbn in Hin. apply elem_of_cons in Hin as [->|]; done.
    - done.
    - intros b e'. unfold w'. rewrite get_set_locations. intros He' Hin.
      apply (inv_rem_disj _ _ Hi _ _ He'). by apply list_elem_of_further. }
  destruct (add_inv_with rem e w' Hi' Hu) as (Ha & Hc & Ht).
  - cbn. apply lookup_delete_eq.
  - done.
  - unfold w' in Hc. rewrite contents_set_locations, clip_id in Hc by done. done.
Qed.

Lemma readd_all_inv rem w :
  inv_with rem w → (∀ e, e ∈ rem → time w ≤ expire e ∧ is_u64 (expire e)) →
  inv (foldl readd w rem) ∧ contents (foldl readd w rem) ≡ₚ rem ++ contents w
  ∧ time (foldl readd w rem) = time w.
Proof.
  revert w. induction rem as [|e rem IH]; intros w Hi Hrem; cbn [foldl]; [done|].
  destruct (Hrem e ltac:(apply list_elem_of_here)) as [Hle Hu].
  destruct (readd_inv rem e w Hi Hle Hu) as (Hi' & Hc & Ht).
  destruct (IH (readd w e) Hi') as (Hi'' & Hc' & Ht').
  { intros e' He'. rewrite Ht. apply Hrem. by apply list_elem_of_further. }
  split_and!; [done| |congruence]. rewrite Hc', Hc. symmetry. apply Permutation_middle.
Qed.

(** Emptying a bucket whose events are about to be re-inserted, at a time [t]
    for which every other bucket is already right. *)
Lemma take_bucket_inv b t w :
  inv w → is_u64 t → valid b →
  (∀ b' e, b' ≠ b → e ∈ get_bucket w b' → b' = bucket_for t (expire e) ∧ t ≤ expire e) →
  inv_with (get_bucket w b) (set_bucket (mkWheel t (near w) (levels w) (locations w)) b []).
Proof.
  intros Hi Ht Hb Hother. set (w1 := mkWheel t _ _ _).
  assert (Hg : ∀ b', get_bucket w1 b' = get_bucket w b') by (by intros []).
  assert (Hs1 : sized w1) by (destruct (inv_sized _ _ Hi); by split).
  assert (Hmem : ∀ b' e, e ∈ get_bucket (set_bucket w1 b []) b' → b' ≠ b ∧ e ∈ get_bucket w b').
  { intros b' e. destruct (decide (b' = b)) as [->|Hne].
    - rewrite get_set_eq by done. by intros ?%elem_of_nil.
    - rewrite get_set_ne by done. by rewrite Hg. }
  split.
  - auto with rsk.
  - by rewrite set_bucket_time.
  - intros b' e [Hne He]%Hmem. rewrite set_bucket_time. cbn [time w1].
    destruct (Hother b' e Hne He). split_and!; [done|done|]. by eapply (inv_place _ _ Hi).
  - intros b' i e. rewrite set_bucket_locations. cbn [locations w1].
    destruct (decide (b' = b)) as [->|Hne]; [by rewrite get_set_eq|].
    rewrite get_set_ne, Hg by done. apply (inv_indexed _ _ Hi).
  - intros k. rewrite set_bucket_locations. cbn [locations w1]. intros Hk.
    destruct (inv_complete _ _ Hi k Hk) as [(b' & e & He & <-)|Hn]; [|by apply elem_of_nil in Hn].
    destruct (decide (b' = b)) as [->|Hne].
    + right. by apply list_elem_of_fmap_2.
    + left. exists b', e. by rewrite get_set_ne, Hg by done.
  - by apply bucket_nodup.
  - intros b' e [Hne He]%Hmem (e' & Heq & He')%list_elem_of_fmap.
    apply list_elem_of_lookup in He as [i Hl], He' as [i' Hl'].
    by destruct (inv_position _ _ _ _ _ _ _ _ Hi Hl Hl' Heq).
Qed.

(** ** Firing *)

Lemma foldl_delete_lookup (l : list TimerEvent) (m : gmap TimerKey Location) k :
  foldl (λ m e, delete (key e) m) m l !! k = if decide (k ∈ key <$> l) then None else m !! k.
Proof.
  revert m. induction l as [|e l IH]; intros m; cbn [foldl].
  { case_decide as H; [by apply elem_of_nil in H|done]. }
  rewrite IH, fmap_cons. case_decide as H1; case_decide as H2; [done| | |].
  - exfalso. apply H2. by apply list_elem_of_further.
  - apply elem_of_cons in H2 as [->|]; [|done]. apply lookup_delete_eq.
  - apply lookup_delete_ne. intros <-. apply H2, list_elem_of_here.
Qed.

Lemma near_slot_due t e :
  is_u64 t → is_u64 e →
  BNear (Z.to_nat (Z.land t TIME_NEAR_MASK)) = bucket_for t e ↔ e = t.
Proof.
  intros Ht He. rewrite land_near. pose proof (span_pos 0) as Hsp. split.
  - intros Heq. destruct (bucket_for_cases t e Ht He) as [Hn|(l & _ & H1 & H2)].
    + rewrite bucket_for_near in Heq by done. injection Heq as Heq.
      pose proof (Z.mod_pos_bound e (span 0) Hsp). pose proof (Z.mod_pos_bound t (span 0) Hsp).
      apply Z2Nat.inj in Heq; [|lia..].
      rewrite (Z.div_mod e (span 0)), (Z.div_mod t (span 0)), Hn, Heq by lia. done.
    + by rewrite (bucket_for_level t e l) in Heq.
  - intros ->. by rewrite bucket_for_near.
Qed.

Lemma execute_inv w w' out :
  inv w → execute w = (w', out) →
  inv w' ∧ contents w ≡ₚ out ++ contents w' ∧ time w' = time w
  ∧ (∀ e, e ∈ out → expire e = time w) ∧ (∀ e, e ∈ contents w' → time w < expire e).
Proof.
  intros Hi. unfold execute. set (b := BNear _). intros [<- <-]%pair_eq.
  assert (Ht := inv_time _ _ Hi).
  assert (Hb : valid b).
  { unfold b. erewrite (proj2 (near_slot_due (time w) (time w) Ht Ht) eq_refl).
    by apply bucket_for_valid. }
  set (ws := set_bucket w b []).
  assert (Hsame : ws = set_bucket (mkWheel (time w) (near w) (levels w) (locations w)) b []).
  { unfold ws. by destruct w. }
  assert (Hw : inv_with (get_bucket w b) ws).
  { rewrite Hsame. apply take_bucket_inv; [done..|].
    intros b' e _ He. by destruct (inv_place _ _ Hi _ _ He) as (? & ? & ?). }
  assert (Hi' : inv (set_locations ws (foldl (λ m e, delete (key e) m) (locations ws) (get_bucket w b)))).
  { split.
    - apply set_locations_sized, Hw.
    - apply Hw.
    - intros b' e. rewrite get_set_locations. apply (inv_place _ _ Hw).
    - intros b' i e. rewrite get_set_locations. cbn [locations set_locations]. intros Hl.
      rewrite foldl_delete_lookup, decide_False; [by eapply inv_indexed|].
      eapply inv_rem_disj; [exact Hw|]. by eapply list_elem_of_lookup_2.
    - cbn [locations set_locations]. intros k. rewrite foldl_delete_lookup.
      case_decide as Hk; [by intros []|]. intros Hs.
      destruct (inv_complete _ _ Hw k Hs) as [(b' & e & He & Heq)|]; [|done].
      left. exists b', e. by rewrite get_set_locations.
    - constructor.
    - intros b' e _. apply not_elem_of_nil. }
  split_and!; [done| |exact (set_bucket_time w b [])| |].
  - destruct (contents_set w b [] (inv_sized _ _ Hi) Hb) as (rest & H1 & H2).
    etrans; [exact H1|]. apply Permutation_app_head. symmetry. exact H2.
  - intros e He. destruct (inv_place _ _ Hi _ _ He) as (Hbe & _ & Hu).
    by apply near_slot_due in Hbe.
  - intros e He. destruct (inv_elem _ _ _ Hi' He) as (Hle & Hu & Hin).
    rewrite get_set_locations in Hin. cbn in Hle, Hin. unfold ws in Hle, Hin.
    rewrite set_bucket_time in *. destruct (decide (expire e = time w)) as [Heq|]; [|lia].
    exfalso. apply near_slot_due in Heq; [|done..]. fold b in Heq.
    rewrite <-Heq, get_set_eq in Hin by (done || apply Hi). by apply elem_of_nil in Hin.
Qed.

(** ** Advancing the clock *)

Lemma get_retime t w b : get_bucket (mkWheel t (near w) (levels w) (locations w)) b = get_bucket w b.
Proof. by destruct b. Qed.

Lemma contents_retime t w : contents (mkWheel t (near w) (levels w) (locations w)) = contents w.
Proof. apply list_bind_ext; [|done]. intros b. apply get_retime. Qed.

Lemma retime_inv t w :
  inv w → is_u64 t →
  (∀ b e, e ∈ get_bucket w b → b = bucket_for t (expire e) ∧ t ≤ expire e) →
  inv (mkWheel t (near w) (levels w) (locations w)).
Proof.
  intros Hi Ht Hb. split.
  - destruct (inv_sized _ _ Hi). by split.
  - done.
  - intros b e. rewrite get_retime. intros He. destruct (Hb _ _ He).
    destruct (inv_place _ _ Hi _ _ He) as (_ & _ & ?). done.
  - intros b i e. rewrite get_retime. apply (inv_indexed _ _ Hi).
  - intros k Hk. destruct (inv_complete _ _ Hi k Hk) as [(b & e & ?)|?]; [left|by right].
    exists b, e. by rewrite get_retime.
  - constructor.
  - intros b e _. apply not_elem_of_nil.
Qed.

Lemma move_list_inv t l s w :
  inv w → is_u64 t → valid (BLevel l s) →
  (∀ b e, e ∈ get_bucket w b → t ≤ expire e) →
  (∀ b e, b ≠ BLevel l s → e ∈ get_bucket w b → b = bucket_for t (expire e)) →
  let w' := move_list l s (mkWheel t (near w) (levels w) (locations w)) in
  inv w' ∧ contents w' ≡ₚ contents w ∧ time w' = t.
Proof.
  intros Hi Ht Hv Hle Hb. cbn zeta. unfold move_list. rewrite get_retime.
  pose proof (take_bucket_inv (BLevel l s) t w Hi Ht Hv) as Htk.
  destruct (readd_all_inv _ _ (Htk ltac:(intros b' e Hne He; split; eauto))) as (Hi' & Hc & Htime).
  - intros e He. rewrite set_bucket_time. split; [by eapply Hle|]. by eapply (inv_place _ _ Hi).
  - split_and!; [done| |by rewrite Htime, set_bucket_time].
    rewrite Hc. destruct (contents_set (mkWheel t (near w) (levels w) (locations w))
      (BLevel l s) []) as (rest & H1 & H2); [by destruct (inv_sized _ _ Hi); split|done|].
    rewrite contents_retime, get_retime in H1. by rewrite H1, H2.
Qed.

Lemma shift_inv w :
  inv w → (∀ e, e ∈ contents w → time w < expire e) → time w + 1 < 2 ^ 64 →
  inv (shift w) ∧ contents (shift w) ≡ₚ contents w ∧ time (shift w) = time w + 1.
Proof.
  intros Hi Hahead Hmax. assert (Ht := inv_time _ _ Hi).
  assert (Hw : time w +w 1 = time w + 1) by (unfold wrapping_add, wrap64; rewrite Z.mod_small; u64).
  assert (Hu : is_u64 (time w + 1)) by u64.
  assert (Hb : ∀ b e, e ∈ get_bucket w b →
     b = bucket_for (time w) (expire e) ∧ time w < expire e ∧ is_u64 (expire e)).
  { intros b e He. destruct (inv_place _ _ Hi _ _ He) as (? & ? & ?). split_and!; [done| |done].
    apply Hahead, elem_of_contents. exists b. split; [|done]. by eapply bucket_valid. }
  unfold shift. rewrite Hw. cbn [time near levels locations].
  rewrite decide_False by u64. case_decide as Hland.
  - rewrite shift_loop_migrated. rewrite land_near in Hland.
    destruct (migrated_spec TIME_LEVELS 0 (time w + 1)) as (m & Hm & Hdm & Hndm & Hmig);
      [done|u64|done|apply Z.mod_divide; [pose proof (span_pos 0); lia|done]|].
    assert (Hsh : Z.shiftr (time w + 1) TIME_NEAR_SHIFT = (time w + 1) / span 0).
    { by rewrite Z.shiftr_div_pow2. }
    rewrite Hsh, Hmig. apply move_list_inv; [done|done| | |].
    + split; [done|]. pose proof (Z.mod_pos_bound ((time w + 1) / span m) 64).
      unfold TIME_LEVEL. lia.
    + intros b e He. destruct (Hb _ _ He) as (_ & ? & _). lia.
    + intros b e Hne He. destruct (Hb _ _ He) as (Heq & Hlt & Hue).
      rewrite bucket_for_succ; [done|u64|done|done|].
      intros _ m' s'. rewrite Hsh, Hmig. intros [= <- <-]. by rewrite <-Heq.
  - split_and!; [apply retime_inv| |done]; [done|done| |by rewrite contents_retime].
    intros b e He. destruct (Hb _ _ He) as (Heq & Hlt & Hue).
    rewrite bucket_for_succ by (done || u64). split; [done|lia].
Qed.

Lemma tick_inv w w' out :
  inv w → time w + 1 < 2 ^ 64 → tick w = (w', out) →
  inv w' ∧ contents w ≡ₚ out ++ contents w' ∧ time w' = time w + 1
  ∧ (∃ o1 o2, out = o1 ++ o2 ∧ (∀ e, e ∈ o1 → expire e = time w)
                             ∧ (∀ e, e ∈ o2 → expire e = time w + 1))
  ∧ (∀ e, e ∈ contents w' → time w + 1 < expire e).
Proof.
  intros Hi Hmax. unfold tick.
  destruct (execute w) as [w1 o1] eqn:E1.
  destruct (execute_inv w w1 o1 Hi E1) as (Hi1 & Hc1 & Ht1 & Ho1 & Hr1).
  destruct (shift_inv w1 Hi1) as (Hi2 & Hc2 & Ht2); [by rewrite Ht1|lia|].
  destruct (execute (shift w1)) as [w3 o2] eqn:E3.
  destruct (execute_inv _ _ _ Hi2 E3) as (Hi3 & Hc3 & Ht3 & Ho3 & Hr3).
  intros [<- <-]%pair_eq. rewrite Ht2, Ht1 in *. split_and!; [done| |done| |done].
  - by rewrite Hc1, <-Hc2, Hc3, app_assoc.
  - exists o1, o2. done.
Qed.

Definition by_expire (a b : TimerEvent) : Prop := expire a ≤ expire b.

Lemma StronglySorted_const (l : list TimerEvent) t :
  (∀ e, e ∈ l → expire e = t) → StronglySorted by_expire l.
Proof.
  induction l as [|e l IH]; intros Hl; constructor.
  - apply IH. intros. apply Hl. by apply list_elem_of_further.
  - apply Forall_forall. intros x Hx. unfold by_expire.
    rewrite (Hl e), (Hl x); [done|by apply list_elem_of_further|apply list_elem_of_here].
Qed.

Lemma StronglySorted_app_le (l k : list TimerEvent) t :
  StronglySorted by_expire l → StronglySorted by_expire k →
  (∀ e, e ∈ l → expire e ≤ t) → (∀ e, e ∈ k → t ≤ expire e) →
  StronglySorted by_expire (l ++ k).
Proof.
  intros Hl Hk Hlt Hkt. induction Hl as [|e l Hl IH Hf]; [done|]. cbn. constructor.
  - apply IH. intros. apply Hlt. by apply list_elem_of_further.
  - apply Forall_app. split; [done|]. apply Forall_forall. intros x Hx. unfold by_expire.
    specialize (Hlt e ltac:(apply list_elem_of_here)). specialize (Hkt x Hx). lia.
Qed.

Lemma advance_inv n w w' out :
  inv w → time w + Z.of_nat n < 2 ^ 64 → advance n w = (w', out) →
  inv w' ∧ contents w ≡ₚ out ++ contents w' ∧ time w' = time w + Z.of_nat n
  ∧ StronglySorted by_expire out
  ∧ (∀ e, e ∈ out → time w ≤ expire e ≤ time w + Z.of_nat n)
  ∧ (∀ e, e ∈ contents w' → (0 < n)%nat → time w + Z.of_nat n < expire e).
Proof.
  revert w out. induction n as [|n IH]; intros w out Hi Hmax; cbn [advance].
  { intros [<- <-]%pair_eq. split_and!; [done|done|lia|constructor| |lia].
    intros e He. by apply elem_of_nil in He. }
  destruct (tick w) as [w1 o1] eqn:E1. destruct (advance n w1) as [w2 o2] eqn:E2.
  intros [<- <-]%pair_eq.
  destruct (tick_inv w w1 o1 Hi ltac:(lia) E1) as (Hi1 & Hc1 & Ht1 & (p & q & -> & Hp & Hq) & Hr1).
  destruct (IH w1 o2 Hi1 ltac:(lia) E2) as (Hi2 & Hc2 & Ht2 & Hs2 & Ho2 & Hr2).
  assert (Ho2' : ∀ e, e ∈ o2 → time w + 1 < expire e).
  { intros e He. apply Hr1. rewrite Hc2. apply elem_of_app. by left. }
  split_and!; [done|by rewrite Hc1, Hc2, app_assoc|lia| | |].
  - apply StronglySorted_app_le with (t := time w + 1); [| done | |].
    + apply StronglySorted_app_le with (t := time w); try by eapply StronglySorted_const.
      * intros e He. rewrite Hp by done. lia.
      * intros e He. rewrite Hq by done. lia.
    + intros e [He|He]%elem_of_app; [rewrite Hp by done|rewrite Hq by done]; lia.
    + intros e He. specialize (Ho2' e He). lia.
  - intros e [[He|He]%elem_of_app|He]%elem_of_app;
      [rewrite Hp by done; lia|rewrite Hq by done; lia|]. specialize (Ho2 e He). lia.
  - intros e He _. destruct n as [|n].
    + cbn [advance] in E2. apply pair_eq in E2 as [-> _]. specialize (Hr1 e He). lia.
    + specialize (Hr2 e He ltac:(lia)). lia.
Qed.

(** ** Cancellation *)

Lemma contents_nodup w : inv w → NoDup (key <$> contents w).
Proof.
  intros Hi. unfold contents. rewrite fmap_bind_list. apply NoDup_bind.
  - intros b b' k _ _ (e & -> & He)%list_elem_of_fmap (e' & Hk & He')%list_elem_of_fmap.
    apply list_elem_of_lookup in He as [i He], He' as [i' He'].
    by destruct (inv_position _ _ _ _ _ _ _ _ Hi He He' Hk).
  - intros b _. by apply bucket_nodup.
  - apply NoDup_all_buckets.
Qed.

(** An index entry is exactly a stored event. *)
Lemma inv_located w k l :
  inv w → locations w !! k = Some l →
  ∃ b i e, l = loc b i ∧ get_bucket w b !! i = Some e ∧ key e = k.
Proof.
  intros Hi Hl. destruct (inv_complete _ _ Hi k ltac:(by eexists)) as [(b & e & He & Hk)|Hn];
    [|by apply elem_of_nil in Hn].
  apply list_elem_of_lookup in He as [i He]. exists b, i, e. split_and!; [|done|done].
  pose proof (inv_indexed _ _ Hi _ _ _ He) as H. rewrite Hk, Hl in H. by injection H.
Qed.

(** Removing position [i] of bucket [b] and re-indexing what moved there. *)
Lemma cancel_at_inv b i e w :
  inv w → get_bucket w b !! i = Some e →
  ∃ w', cancel_at b i (set_locations w (delete (key e) (locations w))) = Some w'
    ∧ inv w' ∧ time w' = time w ∧ contents w ≡ₚ e :: contents w'.
Proof.
  intros Hi He. assert (Hb : valid b) by (eapply bucket_valid; [done|by eapply list_elem_of_lookup_2]).
  assert (Hs := inv_sized _ _ Hi).
  destruct (swap_remove_spec _ _ _ He) as (l' & Hsw & Hperm & Hlen & Hsame & Hmoved).
  set (l := get_bucket w b) in *.
  unfold cancel_at. rewrite get_set_locations. fold l. rewrite Hsw. cbn [mbind option_bind].
  set (w0 := set_locations w (delete (key e) (locations w))).
  set (m := match l' !! i with Some ev => <[key ev := loc b i]> (locations w0) | None => locations w0 end).
  assert (Hres : match l' !! i with
     | Some event => set_locations (set_bucket w0 b l') (<[key event := loc b i]> (locations (set_bucket w0 b l')))
     | None => set_bucket w0 b l' end = set_locations (set_bucket w b l') m).
  { unfold m. rewrite set_bucket_locations. by destruct (l' !! i), b. }
  rewrite Hres. eexists. split; [done|]. clear Hres.
  assert (Hg : ∀ b', get_bucket (set_locations (set_bucket w b l') m) b' =
                     if decide (b' = b) then l' else get_bucket w b').
  { intros b'. rewrite get_set_locations. case_decide as Heq; [subst; by rewrite get_set_eq|].
    by rewrite get_set_ne. }
  assert (Hmem : ∀ b' e', e' ∈ get_bucket (set_locations (set_bucket w b l') m) b' → e' ∈ get_bucket w b').
  { intros b' e'. rewrite Hg. case_decide as Heq; [|done]. subst b'. fold l.
    intros Hin. rewrite Hperm. by apply list_elem_of_further. }
  (* the position an event of the new bucket had before *)
  assert (Hpos : ∀ j e', l' !! j = Some e' → ∃ j', l !! j' = Some e' ∧ j' ≠ i
      ∧ (j = i ∧ j' = length l' ∨ j ≠ i ∧ j' = j)).
  { intros j e' Hj. pose proof (lookup_lt_Some _ _ _ Hj). destruct (decide (j = i)) as [->|Hne].
    - exists (length l'). rewrite <-Hmoved by done. split_and!; [done|lia|by left].
    - exists j. rewrite <-Hsame by done. split_and!; [done|done|by right]. }
  assert (Hdel : ∀ b' j' e', get_bucket w b' !! j' = Some e' → (b', j') ≠ (b, i) → key e' ≠ key e).
  { intros b' j' e' Hj Hne Hk. destruct (inv_position _ _ _ _ _ _ _ _ Hi Hj He Hk) as [-> ->]. done. }
  split_and!; [split|by cbn; rewrite set_bucket_time|].
  - auto with rsk.
  - cbn. rewrite set_bucket_time. apply Hi.
  - intros b' e' He'%Hmem. cbn. rewrite set_bucket_time. by apply (inv_place _ _ Hi).
  - intros b' j e'. rewrite Hg. cbn [locations set_locations]. unfold m.
    case_decide as Heq.
    + subst b'. intros Hj. destruct (Hpos _ _ Hj) as (j' & Hj' & Hne & [[-> ->]|[Hji ->]]).
      * rewrite Hj. apply lookup_insert_eq.
      * assert (Hd : locations w0 !! key e' = Some (loc b j)).
        { cbn. rewrite lookup_delete_ne by (apply not_eq_sym, (Hdel b j); [done|congruence]).
          by eapply inv_indexed. }
        destruct (l' !! i) as [ev|] eqn:Hev; [|done]. rewrite lookup_insert_ne; [done|].
        destruct (Hpos _ _ Hev) as (j' & Hevj & _ & [[_ ->]|[? _]]); [|done].
        intros Hk. destruct (inv_position _ _ _ _ _ _ _ _ Hi Hevj Hj' Hk) as [_ Hx].
        pose proof (lookup_lt_Some _ _ _ Hj). lia.
    + intros Hj. assert (Hd : locations w0 !! key e' = Some (loc b' j)).
      { cbn. rewrite lookup_delete_ne by (apply not_eq_sym, (Hdel b' j); [done|congruence]).
        by eapply inv_indexed. }
      destruct (l' !! i) as [ev|] eqn:Hev; [|done]. rewrite lookup_insert_ne; [done|].
      destruct (Hpos _ _ Hev) as (j' & Hevj & _ & _). intros Hk.
      destruct (inv_position _ _ _ _ _ _ _ _ Hi Hevj Hj Hk) as [? _]. congruence.
  - cbn [locations set_locations]. intros k Hk.
    assert (Hk' : k ≠ key e ∧ is_Some (locations w !! k)).
    { unfold m in Hk. assert (is_Some (locations w0 !! k)) as Hk0.
      { destruct (l' !! i) as [ev|] eqn:Hev; [|done]. destruct Hk as [x Hx].
        apply lookup_insert_Some in Hx as [[<- _]|[_ Hx]]; [|by eexists].
        destruct (Hpos _ _ Hev) as (j' & Hevj & Hne & _). cbn.
        rewrite lookup_delete_ne by (apply not_eq_sym, (Hdel b j'); [done|congruence]).
        eexists. by eapply inv_indexed. }
      cbn in Hk0. destruct Hk0 as [x Hx]. apply lookup_delete_Some in Hx as [? ?].
      split; [done|by eexists]. }
    destruct Hk' as [Hne Hk']. left.
    destruct (inv_complete _ _ Hi k Hk') as [(b' & e' & He' & <-)|Hn]; [|by apply elem_of_nil in Hn].
    exists b', e'. split; [|done]. rewrite Hg. case_decide as Heq; [|done]. subst b'.
    fold l in He'. rewrite Hperm in He'. apply elem_of_cons in He' as [->|]; done.
  - constructor.
  - intros b' e' _. apply not_elem_of_nil.
  - rewrite contents_set_locations. destruct (contents_set w b l' Hs Hb) as (rest & -> & ->).
    fold l. by rewrite Hperm.
Qed.

Lemma cancel_inv k w :
  inv w →
  ∃ w', cancel k w = Some w' ∧ inv w' ∧ time w' = time w
    ∧ (w' = w ∧ k ∉ key <$> contents w ∨ ∃ e, key e = k ∧ contents w ≡ₚ e :: contents w').
Proof.
  intros Hi. unfold cancel. destruct (locations w !! k) as [l|] eqn:El.
  - destruct (inv_located w k l Hi El) as (b & i & e & -> & He & <-).
    destruct (cancel_at_inv b i e w Hi He) as (w' & Hc & Hi' & Ht & Hp).
    exists w'. split_and!; [|done|done|right; by exists e]. by destruct b.
  - exists w. split_and!; [done|done|done|]. left. split; [done|].
    intros (e & -> & He)%list_elem_of_fmap.
    apply elem_of_contents in He as (b & _ & He).
    destruct (inv_unindexed _ _ _ _ Hi He) as [x Hx]. congruence.
Qed.

(** ** Theorems *)

(** Exact punctuality: from any wheel that satisfies the invariant, advancing
    [n] ticks fires precisely the events due by then, in order of expiry, and
    keeps precisely the others, whatever levels they were stored on and however
    often they were migrated. *)
Theorem advance_fires_exactly n w w' out :
  inv w → (0 < n)%nat → time w + Z.of_nat n < 2 ^ 64 → advance n w = (w', out) →
  out ≡ₚ filter (λ e, expire e ≤ time w + Z.of_nat n) (contents w)
  ∧ contents w' ≡ₚ filter (λ e, ¬ expire e ≤ time w + Z.of_nat n) (contents w)
  ∧ StronglySorted by_expire out ∧ time w' = time w + Z.of_nat n ∧ inv w'.
Proof.
  intros Hi Hn Hmax Ha. destruct (advance_inv n w w' out Hi Hmax Ha) as (Hi' & Hc & Ht & Hs & Ho & Hr).
  split_and!; [| |done|done|done]; rewrite Hc, filter_app.
  - rewrite (filter_all _ out), (filter_none _ (contents w')), app_nil_r; [done| |].
    + intros e He. specialize (Hr e He Hn). lia.
    + intros e He. specialize (Ho e He). lia.
  - rewrite (filter_none _ out), (filter_all _ (contents w')); [done| |].
    + intros e He. specialize (Hr e He Hn). lia.
    + intros e He. specialize (Ho e He). lia.
Qed.

(** *** Refinement of a map of deadlines

    The specification of the wheel: a clock and a map from keys to deadlines. *)
Record Timers : Type := mkTimers { now : Z; due : gmap TimerKey Z }.

Inductive Cmd : Type :=
  | Arm (e : TimerEvent)
  | Cancel (k : TimerKey)
  | Tick.

(** A key may be armed again only after it fired or was cancelled. *)
Definition spec_step (c : Cmd) (a : Timers) : option (Timers * gmap TimerKey Z) :=
  match c with
  | Arm e =>
      match due a !! key e with
      | Some _ => None
      | None => Some (mkTimers (now a) (<[key e := Z.max (now a) (expire e)]> (due a)), ∅)
      end
  | Cancel k => Some (mkTimers (now a) (delete k (due a)), ∅)
  | Tick =>
      Some (mkTimers (now a + 1) (filter (λ p, ¬ p.2 ≤ now a + 1) (due a)),
            filter (λ p, p.2 ≤ now a + 1) (due a))
  end.

Definition wheel_step (c : Cmd) (w : Wheel) : option (Wheel * list TimerEvent) :=
  match c with
  | Arm e => Some (add e w, [])
  | Cancel k => w' ← cancel k w; Some (w', [])
  | Tick => Some (tick w)
  end.

(** The events of [l] are the bindings of [m]. *)
Definition events_of (l : list TimerEvent) (m : gmap TimerKey Z) : Prop :=
  NoDup (key <$> l) ∧ ∀ k x, m !! k = Some x ↔ ∃ e, e ∈ l ∧ key e = k ∧ expire e = x.

Definition refines (w : Wheel) (a : Timers) : Prop :=
  inv w ∧ time w = now a ∧ events_of (contents w) (due a).

#[global] Instance events_of_proper : Proper ((≡ₚ) ==> (=) ==> iff) events_of.
Proof.
  intros l l' Hl m ? <-. unfold events_of. setoid_rewrite Hl. done.
Qed.

Lemma events_of_cons e l m :
  events_of l m → m !! key e = None → events_of (e :: l) (<[key e := expire e]> m).
Proof.
  intros [Hnd Hm] Hnone.
  assert (Hnin : ∀ e', e' ∈ l → key e' ≠ key e).
  { intros e' He' Hk. assert (m !! key e = Some (expire e')) by (apply Hm; eauto). congruence. }
  split.
  - cbn. constructor; [|done]. intros (e' & Hk & He')%list_elem_of_fmap. by eapply Hnin.
  - intros k x. rewrite lookup_insert_Some, Hm. setoid_rewrite elem_of_cons.
    split; [|naive_solver]. intros [[? ?]|[? (e' & ? & ? & ?)]]; [exists e|exists e']; naive_solver.
Qed.

Lemma events_of_delete e l m : events_of (e :: l) m → events_of l (delete (key e) m).
Proof.
  intros [Hnd Hm]. cbn in Hnd. apply NoDup_cons in Hnd as [Hnin Hnd]. split; [done|].
  intros k x. rewrite lookup_delete_Some, Hm. setoid_rewrite elem_of_cons. split.
  - naive_solver.
  - intros (e' & He' & <- & <-). split; [|naive_solver]. intros Hk. apply Hnin.
    rewrite Hk. by apply list_elem_of_fmap_2.
Qed.

Lemma events_of_app l1 l2 m (P : Z → Prop) `{∀ x, Decision (P x)} :
  events_of (l1 ++ l2) m → (∀ e, e ∈ l1 → P (expire e)) → (∀ e, e ∈ l2 → ¬ P (expire e)) →
  events_of l1 (filter (λ p, P p.2) m) ∧ events_of l2 (filter (λ p, ¬ P p.2) m).
Proof.
  intros [Hnd Hm] H1 H2. rewrite fmap_app, NoDup_app in Hnd. destruct Hnd as (Hn1 & _ & Hn2).
  split; (split; [done|]); intros k x; rewrite map_lookup_filter_Some, Hm; cbn;
    setoid_rewrite elem_of_app; naive_solver.
Qed.

(** C20 Functional refinement: the wheel implements the map of deadlines.  From
    related states every command the specification accepts is carried out by the
    wheel without a panic, ends in related states and fires exactly the timers
    the specification fires, each once. *)
Theorem wheel_refines_deadlines c w a a' fired :
  refines w a → spec_step c a = Some (a', fired) → now a + 1 < 2 ^ 64 →
  (∀ e, c = Arm e → is_u64 (expire e)) →
  ∃ w' out, wheel_step c w = Some (w', out) ∧ refines w' a' ∧ events_of out fired.
Proof.
  intros (Hi & Ht & Hev) Hstep Hmax Hu.
  assert (Hnil : events_of [] ∅).
  { split; [constructor|]. intros k x. rewrite lookup_empty. set_solver. }
  destruct c as [e|k|]; cbn [spec_step wheel_step] in *.
  - destruct (due a !! key e) eqn:E; [done|]. injection Hstep as <- <-.
    eexists _, _. split; [done|]. split; [|done].
    assert (Hloc : locations w !! key e = None).
    { apply eq_None_not_Some. intros [l Hl].
      destruct (inv_located w _ l Hi Hl) as (b & i & e' & _ & He' & Hk).
      assert (due a !! key e = Some (expire e')); [|congruence]. apply Hev. exists e'.
      split_and!; [|done|done]. apply elem_of_contents. exists b.
      assert (e' ∈ get_bucket w b) by by eapply list_elem_of_lookup_2.
      split; [by eapply bucket_valid|done]. }
    destruct (add_inv_with [] e w Hi (Hu e eq_refl) Hloc (not_elem_of_nil _)) as (Ha & Hc & Hta).
    split_and!; [done|by rewrite Hta|]. cbn [due]. rewrite Hc.
    replace (Z.max (now a) (expire e)) with (expire (clip (time w) e))
      by (unfold clip; case_decide; cbn; lia).
    rewrite <-(clip_key (time w) e) in *. by apply events_of_cons.
  - injection Hstep as <- <-. destruct (cancel_inv k w Hi) as (w' & -> & Hi' & Ht' & Hcase).
    eexists _, _. split; [done|]. split; [|done]. split_and!; [done|by rewrite Ht'|].
    cbn [due]. destruct Hcase as [[-> Hn]|(e & <- & Hc)].
    + rewrite delete_id; [done|]. apply eq_None_not_Some. intros [x (e & He & Hk & _)%Hev].
      apply Hn. rewrite <-Hk. by apply list_elem_of_fmap_2.
    + rewrite Hc in Hev. by apply events_of_delete.
  - injection Hstep as <- <-. destruct (tick w) as [w' out] eqn:E.
    destruct (tick_inv w w' out Hi ltac:(lia) E) as (Hi' & Hc & Ht' & (p & q & -> & Hp & Hq) & Hr).
    eexists _, _. split; [done|]. rewrite Hc in Hev.
    destruct (events_of_app _ _ _ (λ x, x ≤ now a + 1) Hev) as [H1 H2].
    { intros e [He|He]%elem_of_app; [rewrite Hp by done|rewrite Hq by done]; lia. }
    { intros e He. specialize (Hr e He). lia. }
    split; [split_and!; cbn; [done|lia|done]|done].
Qed.

(** A cancelled timer never fires: once [cancel k] has been processed, no
    amount of advancing the clock delivers an event for [k]; cancelling twice, or
    cancelling what already fired, changes nothing and never panics. *)
Theorem cancelled_never_fires k w n :
  inv w → time w + Z.of_nat n < 2 ^ 64 →
  ∃ w', cancel k w = Some w' ∧ cancel k w' = Some w' ∧ k ∉ key <$> snd (advance n w').
Proof.
  intros Hi Hmax. destruct (cancel_inv k w Hi) as (w' & Hc & Hi' & Ht & Hcase).
  exists w'. split; [done|].
  assert (Hgone : k ∉ key <$> contents w').
  { destruct Hcase as [[-> Hn]|(e & <- & Hp)]; [done|]. intros (e' & Hk & He')%list_elem_of_fmap.
    assert (He : e ∈ contents w) by (rewrite Hp; left).
    assert (NoDup (key <$> contents w)) as Hnd by by apply contents_nodup.
    rewrite Hp in Hnd. apply NoDup_cons in Hnd as [Hnin _]. apply Hnin.
    apply list_elem_of_fmap. eauto. }
  split.
  - destruct (cancel_inv k w' Hi') as (w'' & Hc' & _ & _ & [[-> _]|(e & <- & Hp)]); [done|].
    exfalso. apply Hgone. rewrite Hp. left.
  - destruct (advance n w') as [w'' out] eqn:E.
    destruct (advance_inv n w' w'' out Hi' ltac:(lia) E) as (_ & Hp & _).
    cbn [snd]. intros Hin. apply Hgone. rewrite Hp, fmap_app. apply elem_of_app. by left.
Qed.

(** ** Concrete wheels *)

Definition two_timers : Wheel := add (mkEvent 1 8 20000) (add (mkEvent 1 7 300) new).

Lemma two_timers_inv : inv two_timers.
Proof.
  unfold two_timers.
  destruct (add_inv_with [] (mkEvent 1 7 300) new wheel_new_inv) as (H1 & _ & Ht);
    [cbn; u64|done|apply not_elem_of_nil|].
  apply add_inv_with; [done|cbn; u64|by vm_compute|apply not_elem_of_nil].
Qed.

Lemma advance_fires_exactly_witness :
  snd (advance 300 two_timers) ≡ₚ filter (λ e, expire e ≤ 300) (contents two_timers).
Proof.
  destruct (advance_fires_exactly 300 two_timers (fst (advance 300 two_timers))
    (snd (advance 300 two_timers))) as (H & _);
    [apply two_timers_inv|lia|vm_compute; done|by destruct (advance 300 two_timers)|].
  exact H.
Defined.

Lemma wheel_refines_deadlines_witness :
  ∃ w' out, wheel_step (Arm (mkEvent 1 7 300)) new = Some (w', out)
    ∧ refines w' (mkTimers 0 {[(1, 7) := 300]}) ∧ events_of out ∅.
Proof.
  apply (wheel_refines_deadlines (Arm (mkEvent 1 7 300)) new (mkTimers 0 ∅)).
  - split_and!; [apply wheel_new_inv|done|]. rewrite contents_new.
    split; [constructor|]. cbn [due]. intros k x. rewrite lookup_empty. set_solver.
  - reflexivity.
  - done.
  - intros e [= <-]. cbn. u64.
Defined.

Lemma cancelled_never_fires_witness :
  ∃ w', cancel (1, 7) two_timers = Some w' ∧ cancel (1, 7) w' = Some w'
    ∧ (1, 7) ∉ key <$> snd (advance 400 w').
Proof.
  apply (cancelled_never_fires (1, 7) two_timers 400); [apply two_timers_inv|vm_compute; done].
Defined.

End Wheel.
