(* ===== verification/Timer.v ===== *)
(** * The wheel timer

    Models [WheelTimer] of [rskynet-timer/src/lib.rs]: the FIFO of arm and cancel
    commands that any thread may append to, and [update], which the timer service
    calls to drain it into the wheel and to advance the wheel to the current time.
    The monotonic clock is an input: each operation is given the reading [ms] of
    [self.now()], the milliseconds since the node started. *)
From S2P Require Import Prelude Message Wheel.
Import Wheel.

Module Timer.

Inductive TimerCommand : Type :=
  | CArm (e : TimerEvent)
  | CCancel (k : TimerKey).

Record WheelTimer : Type := mkTimer {
  incoming : list TimerCommand;
  start_time_unix_ms : Z;
  wheel_ticks : Z;
}.

Definition new (unix_ms : Z) : WheelTimer := mkTimer [] unix_ms 0.

Definition wall_clock (ms : Z) (t : WheelTimer) : Z := start_time_unix_ms t +s ms.

Definition timeout (handle session delay_ms ms : Z) (t : WheelTimer) : WheelTimer :=
  let deadline_ms := ms +s delay_ms in
  let expire := div_ceil deadline_ms 10 in
  mkTimer (incoming t ++ [CArm (mkEvent handle session expire)])
    (start_time_unix_ms t) (wheel_ticks t).

Definition cancel (handle session : Z) (t : WheelTimer) : WheelTimer :=
  mkTimer (incoming t ++ [CCancel (handle, session)]) (start_time_unix_ms t) (wheel_ticks t).

(** The [while let Some(command) = self.incoming.pop()] loop. *)
Fixpoint drain (cmds : list TimerCommand) (w : Wheel) : option Wheel :=
  match cmds with
  | [] => Some w
  | CArm event :: cmds => drain cmds (add event w)
  | CCancel k :: cmds => w' ← Wheel.cancel k w; drain cmds w'
  end.

(** [update]: the new timer and wheel, and the events that came due; [None] is a
    panic inside the wheel. *)
Definition update (ms : Z) (t : WheelTimer) (w : Wheel)
    : option (WheelTimer * Wheel * list TimerEvent) :=
  let target_tick := ms / 10 in
  let diff := target_tick -s wheel_ticks t in
  w ← drain (incoming t) w;
  let t := mkTimer [] (start_time_unix_ms t) (wheel_ticks t) in
  if decide (diff = 0) then
    let '(w, out) := execute w in Some (t, w, out)
  else
    let t := mkTimer [] (start_time_unix_ms t) target_tick in
    let '(w, out) := advance (Z.to_nat diff) w in
    Some (t, w, out).

(** ** Histories of the timer

    What the node does to its timer over time, each step with its clock reading;
    the wheel belongs to the timer service and travels along. *)
Record State : Type := mkState { timer : WheelTimer; wheel : Wheel; clock : Z }.

Inductive Op : Type :=
  | OTimeout (handle session delay_ms : Z)
  | OCancel (handle session : Z)
  | OUpdate.

Definition step (o : Op) (ms : Z) (s : State) : option (State * list TimerEvent) :=
  match o with
  | OTimeout h n d => Some (mkState (timeout h n d ms (timer s)) (wheel s) ms, [])
  | OCancel h n => Some (mkState (cancel h n (timer s)) (wheel s) ms, [])
  | OUpdate =>
      '(t, w, out) ← update ms (timer s) (wheel s); Some (mkState t w ms, out)
  end.

Fixpoint run (os : list (Op * Z)) (s : State) : option (State * list TimerEvent) :=
  match os with
  | [] => Some (s, [])
  | (o, ms) :: os =>
      '(s1, out1) ← step o ms s;
      '(s2, out2) ← run os s1;
      Some (s2, out1 ++ out2)
  end.

Definition arm_keys (cmds : list TimerCommand) : list TimerKey :=
  omap (λ c, match c with CArm e => Some (key e) | CCancel _ => None end) cmds.

(** The wheel stands at [wheel_ticks], which never runs ahead of the clock; the
    keys waiting to be armed or stored in the wheel are pairwise distinct. *)
Record good (s : State) : Prop := {
  good_inv : inv (wheel s);
  good_sync : time (wheel s) = wheel_ticks (timer s);
  good_clock : wheel_ticks (timer s) * 10 ≤ clock s;
  good_range : is_u64 (clock s);
  good_expire : ∀ e, CArm e ∈ incoming (timer s) → is_u64 (expire e);
  good_keys : NoDup (arm_keys (incoming (timer s)) ++ (key <$> contents (wheel s)));
}.

Lemma good_new unix : good (mkState (new unix) Wheel.new 0).
Proof.
  split; cbn; [apply wheel_new_inv|done|lia|u64|intros e He; by apply elem_of_nil in He|].
  rewrite contents_new. constructor.
Qed.

(** A timer is pending with deadline tick [x]: stored in the wheel, or armed and
    not yet cancelled in the command queue. *)
Fixpoint queued (k : TimerKey) (x : Z) (cmds : list TimerCommand) : Prop :=
  match cmds with
  | [] => False
  | CArm e :: cmds => (key e = k ∧ expire e = x ∧ CCancel k ∉ cmds) ∨ queued k x cmds
  | CCancel _ :: cmds => queued k x cmds
  end.

Definition pending (k : TimerKey) (x : Z) (s : State) : Prop :=
  queued k x (incoming (timer s)) ∨
  (∃ e, e ∈ contents (wheel s) ∧ key e = k ∧ expire e = x ∧ CCancel k ∉ incoming (timer s)).

Definition known (s : State) : list TimerKey :=
  arm_keys (incoming (timer s)) ++ (key <$> contents (wheel s)).

Lemma arm_keys_app a b : arm_keys (a ++ b) = arm_keys a ++ arm_keys b.
Proof. apply omap_app. Qed.

Lemma queued_arm k x cmds : queued k x cmds → k ∈ arm_keys cmds.
Proof.
  induction cmds as [|[e|k'] cmds IH]; cbn; [done| |done].
  intros [(-> & _ & _)|Hq]; [left|right; auto].
Qed.

Lemma pending_known k x s : pending k x s → k ∈ known s.
Proof.
  unfold known. rewrite elem_of_app. intros [Hq|(e & He & <- & _)].
  - left. by eapply queued_arm.
  - right. by apply list_elem_of_fmap_2.
Qed.

(** Draining the command queue never panics, and a pending timer ends up in the
    wheel, not before the wheel's time. *)
Lemma commands_drained cmds w :
  inv w → (∀ e, CArm e ∈ cmds → is_u64 (expire e)) →
  NoDup (arm_keys cmds ++ (key <$> contents w)) →
  ∃ w', drain cmds w = Some w' ∧ inv w' ∧ time w' = time w
    ∧ (∀ k, k ∈ key <$> contents w' → k ∈ arm_keys cmds ++ (key <$> contents w))
    ∧ (∀ k x, queued k x cmds ∨ (∃ e, e ∈ contents w ∧ key e = k ∧ expire e = x ∧ CCancel k ∉ cmds) →
        ∃ e, e ∈ contents w' ∧ key e = k ∧ expire e = Z.max x (time w)).
Proof.
  revert w. induction cmds as [|[e|k'] cmds IH]; intros w Hi Hu Hnd; cbn [drain arm_keys omap] in *.
  { exists w. split_and!; [done|done|done|done|]. intros k x [[]|(e & He & Hk & Hx & _)].
    exists e. destruct (inv_elem _ _ _ Hi He). split_and!; [done|done|lia]. }
  - cbn in Hnd. apply NoDup_cons in Hnd as [Hnin Hnd].
    rewrite not_elem_of_app in Hnin. destruct Hnin as [Hn1 Hn2].
    assert (Hloc : locations w !! key e = None).
    { apply eq_None_not_Some. intros [l Hl].
      destruct (inv_located w _ l Hi Hl) as (b & i & e' & _ & He' & Hk).
      apply Hn2. rewrite <-Hk. apply list_elem_of_fmap_2, elem_of_contents. exists b.
      assert (e' ∈ get_bucket w b) by by eapply list_elem_of_lookup_2.
      split; [by eapply bucket_valid|done]. }
    destruct (add_inv_with [] e w Hi) as (Hi1 & Hc1 & Ht1);
      [apply Hu; left|done|apply not_elem_of_nil|].
    assert (Hk1 : key <$> contents (add e w) ≡ₚ key e :: (key <$> contents w)).
    { rewrite Hc1. cbn. by rewrite clip_key. }
    destruct (IH (add e w) Hi1) as (w' & Hd & Hi' & Ht' & Hkeys & Hpend).
    { intros e' He'. apply Hu. by right. }
    { rewrite Hk1, <-Permutation_middle. constructor; [|done]. by rewrite not_elem_of_app. }
    exists w'. split_and!; [done|done|lia| |].
    + intros k Hk%Hkeys. rewrite Hk1, <-Permutation_middle in Hk. exact Hk.
    + intros k x Hp. rewrite Ht1 in Hpend.
      assert (Hx : Z.max x (time w) = Z.max (Z.max x (time w)) (time w)) by lia.
      destruct Hp as [[(<- & <- & Hc)|Hq]|(e' & He' & Hk & Hx' & Hc)].
      * rewrite Hx. apply Hpend. right. exists (clip (time w) e).
        rewrite Hc1, clip_key. split_and!; [left|done| |done]. unfold clip. case_decide; cbn; lia.
      * apply Hpend. by left.
      * apply Hpend. right. exists e'. rewrite Hc1. split_and!; [by right|done|done|].
        intros ?. apply Hc. by right.
  - destruct (Wheel.cancel k' w) as [w1|] eqn:Ec;
      destruct (cancel_inv k' w Hi) as (w1' & Hc & Hi1 & Ht1 & Hcase); [|congruence].
    assert (w1' = w1) as -> by congruence. cbn [mbind option_bind].
    assert (Hsub : ∀ k, k ∈ key <$> contents w1 → k ∈ key <$> contents w).
    { intros k Hk. destruct Hcase as [[-> _]|(e & _ & Hp)]; [done|]. rewrite Hp. by right. }
    destruct (IH w1 Hi1) as (w' & Hd & Hi' & Ht' & Hkeys & Hpend).
    { intros e' He'. apply Hu. by right. }
    { destruct Hcase as [[-> _]|(e & _ & Hp)]; [done|].
      rewrite Hp in Hnd. cbn in Hnd. rewrite <-Permutation_middle in Hnd.
      by apply NoDup_cons in Hnd as [_ ?]. }
    exists w'. split_and!; [done|done|lia| |].
    + intros k Hk%Hkeys. rewrite elem_of_app in *. destruct Hk; auto.
    + intros k x Hp. rewrite Ht1 in Hpend. apply Hpend.
      destruct Hp as [Hq|(e' & He' & Hk & Hx & Hc')]; [by left|right].
      exists e'. split_and!; [|done|done|intros ?; apply Hc'; by right].
      destruct Hcase as [[-> _]|(e & He & Hp)]; [done|]. rewrite Hp in He'.
      apply elem_of_cons in He' as [->|]; [|done]. exfalso. apply Hc'. rewrite <-Hk, He. left.
Qed.

(** What one [update] delivers. *)
Lemma update_spec ms s :
  good s → clock s ≤ ms → is_u64 ms →
  ∃ t w out, update ms (timer s) (wheel s) = Some (t, w, out)
    ∧ good (mkState t w ms) ∧ incoming t = []
    ∧ (∀ k, k ∈ key <$> out ++ contents w → k ∈ known s)
    ∧ NoDup (key <$> out ++ contents w)
    ∧ (∀ e, e ∈ out → expire e ≤ ms / 10) ∧ (∀ e, e ∈ contents w → ms / 10 < expire e)
    ∧ (∀ k x, pending k x s → ∃ e, e ∈ out ++ contents w ∧ key e = k
        ∧ expire e = Z.max x (wheel_ticks (timer s))).
Proof.
  intros Hg Hle Hu. unfold update.
  destruct (commands_drained (incoming (timer s)) (wheel s)) as (w1 & Hd & Hi1 & Ht1 & Hk1 & Hp1);
    [apply Hg|apply Hg|apply Hg|].
  rewrite Hd. cbn [mbind option_bind]. rewrite (good_sync _ Hg) in *.
  pose proof (good_clock _ Hg) as Hclk. pose proof (inv_time _ _ Hi1) as Htu. rewrite Ht1 in Htu.
  assert (Htgt : wheel_ticks (timer s) ≤ ms / 10) by (apply Z.div_le_lower_bound; lia).
  assert (Hms : 10 * (ms / 10) ≤ ms) by (apply Z.mul_div_le; lia).
  assert (Hres : ∀ ticks w out, inv w → time w = ticks → ticks = ms / 10 →
     contents w1 ≡ₚ out ++ contents w →
     (∀ e, e ∈ out → expire e ≤ ms / 10) → (∀ e, e ∈ contents w → ms / 10 < expire e) →
     ∃ t w' out', Some (mkTimer [] (start_time_unix_ms (timer s)) ticks, w, out) = Some (t, w', out')
    ∧ good (mkState t w' ms) ∧ incoming t = []
    ∧ (∀ k, k ∈ key <$> out' ++ contents w' → k ∈ known s)
    ∧ NoDup (key <$> out' ++ contents w')
    ∧ (∀ e, e ∈ out' → expire e ≤ ms / 10) ∧ (∀ e, e ∈ contents w' → ms / 10 < expire e)
    ∧ (∀ k x, pending k x s → ∃ e, e ∈ out' ++ contents w' ∧ key e = k
        ∧ expire e = Z.max x (wheel_ticks (timer s)))).
  { intros ticks w out Hi Htw Hticks Hc Ho Hr. eexists _, w, out.
    assert (Hnd := contents_nodup _ Hi1). rewrite Hc in Hnd. split_and!; [done| |done| |done|done|done|].
    - split; cbn; [done|done|lia|done| |].
      + intros e He. by apply elem_of_nil in He.
      + rewrite fmap_app in Hnd. by apply NoDup_app in Hnd as (_ & _ & ?).
    - intros k Hk. apply Hk1. by rewrite Hc.
    - intros k x Hp. destruct (Hp1 k x Hp) as (e & He & ? & ?). exists e. by rewrite <-Hc. }
  unfold saturating_sub. case_decide as Hdiff.
  - destruct (execute w1) as [w out] eqn:E.
    destruct (execute_inv w1 w out Hi1 E) as (Hi & Hc & Ht & Ho & Hr).
    apply Hres; [done|lia|lia|done| |].
    + intros e He. rewrite (Ho e He). lia.
    + intros e He. specialize (Hr e He). lia.
  - set (n := Z.to_nat _). destruct (advance n w1) as [w out] eqn:E.
    assert (Hn : Z.of_nat n = ms / 10 - wheel_ticks (timer s)) by lia.
    destruct (advance_inv n w1 w out Hi1 ltac:(u64) E) as (Hi & Hc & Ht & _ & Ho & Hr).
    apply Hres; [done|lia|lia|done| |].
    + intros e He. specialize (Ho e He). lia.
    + intros e He. specialize (Hr e He ltac:(lia)). lia.
Qed.

(** ** Well-behaved histories *)

(** The clock readings never go backwards and stay in range. *)
Fixpoint monotone (c : Z) (os : list (Op * Z)) : Prop :=
  match os with
  | [] => True
  | (_, ms) :: os => c ≤ ms ∧ is_u64 ms ∧ monotone ms os
  end.

Definition op_key (o : Op) : option TimerKey :=
  match o with OTimeout h n _ => Some (h, n) | _ => None end.

Definition op_keys (os : list (Op * Z)) : list TimerKey := omap (λ p, op_key p.1) os.

Definition not_cancelled (k : TimerKey) (os : list (Op * Z)) : Prop :=
  Forall (λ p, p.1 ≠ OCancel k.1 k.2) os.

(** Delays are [u64]. *)
Definition delays_ok (os : list (Op * Z)) : Prop :=
  Forall (λ p, match p.1 with OTimeout _ _ d => is_u64 d | _ => True end) os.

(** Some [update] of the history runs at or after tick [x]. *)
Definition reached (x : Z) (os : list (Op * Z)) : bool :=
  existsb (λ p, match p.1 with OUpdate => bool_decide (x ≤ p.2 / 10) | _ => false end) os.

(** The tick a sleep of [d] milliseconds started at [ms] is due. *)
Definition due_tick (ms d : Z) : Z := div_ceil (ms +s d) 10.

Lemma due_tick_u64 ms d : is_u64 ms → is_u64 d → is_u64 (due_tick ms d).
Proof.
  intros. unfold due_tick, div_ceil.
  assert (0 ≤ ms +s d ≤ U64_MAX) by u64. unfold is_u64, U64_MAX in *.
  split; [apply Z.div_pos; lia|apply Z.div_lt_upper_bound; lia].
Qed.

Definition fired_for (k : TimerKey) (out : list TimerEvent) : nat :=
  length (filter (λ e, key e = k) out).

Lemma fired_for_app k a b : fired_for k (a ++ b) = (fired_for k a + fired_for k b)%nat.
Proof. unfold fired_for. by rewrite filter_app, length_app. Qed.

Lemma fired_for_none k out : k ∉ key <$> out → fired_for k out = 0%nat.
Proof.
  intros Hk. unfold fired_for. rewrite filter_none; [done|]. intros e He <-.
  apply Hk. by apply list_elem_of_fmap_2.
Qed.

Lemma fired_for_one e out : NoDup (key <$> out) → e ∈ out → fired_for (key e) out = 1%nat.
Proof. intros. unfold fired_for. by rewrite (filter_key_singleton key). Qed.

Lemma queued_app_other k x cmds c :
  queued k x cmds → c ≠ CCancel k → queued k x (cmds ++ [c]).
Proof.
  intros Hq Hc. induction cmds as [|[e|k'] cmds IH]; cbn in *; [done| |auto].
  destruct Hq as [(? & ? & Hn)|Hq]; [left|right; auto]. split_and!; [done..|].
  rewrite not_elem_of_app. split; [done|]. intros Heq%list_elem_of_singleton. congruence.
Qed.

Lemma queued_new k x cmds e : key e = k → expire e = x → queued k x (cmds ++ [CArm e]).
Proof.
  intros Hk Hx. induction cmds as [|[e'|k'] cmds IH]; cbn; [|by right|done].
  left. split_and!; [done|done|apply not_elem_of_nil].
Qed.

#[local] Arguments arm_keys : simpl never.

(** One step: it succeeds, keeps the state good, adds at most the key it arms,
    and treats a pending timer as its deadline says. *)
Lemma step_spec o ms s :
  good s → clock s ≤ ms → is_u64 ms →
  (∀ h n d, o = OTimeout h n d → ((h, n) ∉ known s) ∧ is_u64 d) →
  ∃ s' out, step o ms s = Some (s', out) ∧ good s' ∧ clock s' = ms
    ∧ (∀ k, k ∈ known s' → k ∈ known s ∨ op_key o = Some k)
    ∧ (∀ k, k ∉ known s → fired_for k out = 0%nat)
    ∧ (∀ k x, pending k x s → o ≠ OCancel k.1 k.2 →
        (if reached x [(o, ms)] then fired_for k out = 1%nat ∧ k ∉ known s'
        else fired_for k out = 0%nat ∧ pending k x s')).
Proof.
  intros Hg Hle Hu Hfresh. pose proof (good_clock _ Hg). destruct o as [h n d|h n|]; cbn [step].
  - destruct (Hfresh h n d eq_refl) as [Hnk Hud]. eexists _, _. split; [done|].
    assert (Hkn : arm_keys (incoming (timer s) ++ [CArm (mkEvent h n (due_tick ms d))])
                  ++ (key <$> contents (wheel s)) ≡ₚ (h, n) :: known s).
    { unfold known. rewrite arm_keys_app. unfold arm_keys at 2. cbn. rewrite <-app_assoc. cbn.
      by rewrite <-Permutation_middle. }
    split_and!; [|done| |done|].
    + split; cbn; [apply Hg|apply Hg|lia|done| |].
      * intros e [He|He]%elem_of_app; [by apply (good_expire _ Hg)|].
        apply list_elem_of_singleton in He as [= ->]. by apply due_tick_u64.
      * fold (due_tick ms d). rewrite Hkn. constructor; [done|apply Hg].
    + intros k. unfold known at 1. cbn. fold (due_tick ms d). rewrite Hkn.
      intros [->|]%elem_of_cons; auto.
    + intros k x Hp _. cbn. split; [done|]. destruct Hp as [Hq|(e & He & Hk & Hx & Hc)].
      * left. cbn. by apply queued_app_other.
      * right. exists e. split_and!; [done..|]. cbn. rewrite not_elem_of_app. split; [done|].
        by intros ?%list_elem_of_singleton.
  - eexists _, _. split; [done|].
    assert (Hkn : arm_keys (incoming (timer s) ++ [CCancel (h, n)]) = arm_keys (incoming (timer s))).
    { rewrite arm_keys_app. apply app_nil_r. }
    split_and!; [|done| |done|].
    + split; cbn; [apply Hg|apply Hg|lia|done| |].
      * intros e [He|He]%elem_of_app; [by apply (good_expire _ Hg)|].
        by apply list_elem_of_singleton in He.
      * rewrite Hkn. apply Hg.
    + intros k. unfold known. cbn [timer wheel incoming cancel]. rewrite Hkn. auto.
    + intros k x Hp Hne. cbn. split; [done|].
      assert (CCancel (h, n) ≠ CCancel k) by (intros [= <-]; by apply Hne).
      destruct Hp as [Hq|(e & He & Hk & Hx & Hc)].
      * left. cbn. by apply queued_app_other.
      * right. exists e. split_and!; [done..|]. cbn. rewrite not_elem_of_app. split; [done|].
        intros ?%list_elem_of_singleton. congruence.
  - destruct (update_spec ms s Hg Hle Hu) as (t & w & out & -> & Hg' & Hinc & Hkn & Hnd & Ho & Hr & Hp).
    cbn [mbind option_bind]. eexists _, _. split; [done|]. rewrite fmap_app in Hnd.
    pose proof Hnd as (Hndo & Hdisj & _)%NoDup_app.
    split_and!; [done|done| | |].
    + intros k. unfold known at 1. cbn. rewrite Hinc. cbn. intros Hk. left. apply Hkn.
      rewrite fmap_app. apply elem_of_app. by right.
    + intros k Hk. apply fired_for_none. intros Hin. apply Hk, Hkn.
      rewrite fmap_app. apply elem_of_app. by left.
    + intros k x Hpk _. destruct (Hp k x Hpk) as (e & He & <- & Hx). cbn. rewrite orb_false_r.
      assert (Htk : wheel_ticks (timer s) ≤ ms / 10) by (apply Z.div_le_lower_bound; lia).
      case_bool_decide as Hreach; apply elem_of_app in He as [He|He].
      * split; [by apply fired_for_one|]. unfold known. cbn. rewrite Hinc. cbn. intros Hin.
        eapply Hdisj; [|exact Hin]. by apply list_elem_of_fmap_2.
      * specialize (Hr e He). lia.
      * specialize (Ho e He). lia.
      * split; [apply fired_for_none; intros Hin; eapply Hdisj; [exact Hin|by apply list_elem_of_fmap_2]|].
        right. exists e. cbn. rewrite Hinc. split_and!; [done|done|lia|apply not_elem_of_nil].
Qed.

Lemma run_spec k os s :
  good s → monotone (clock s) os → delays_ok os → not_cancelled k os → k ∉ op_keys os →
  NoDup (op_keys os) → (∀ k', k' ∈ op_keys os → k' ∉ known s) →
  ∃ s' out, run os s = Some (s', out) ∧ good s'
    ∧ (k ∉ known s → fired_for k out = 0%nat)
    ∧ (∀ x, pending k x s → fired_for k out = if reached x os then 1%nat else 0%nat).
Proof.
  revert s. induction os as [|[o ms] os IH]; intros s Hg Hmono Hdel Hnc Hk Hnd Hfresh; cbn [run].
  { eexists _, _. split; [done|]. done. }
  destruct Hmono as (Hle & Hu & Hmono). apply Forall_cons in Hdel as [Hd Hdel].
  apply Forall_cons in Hnc as [Hc Hnc]. cbn [fst] in *.
  assert (Hops : op_keys ((o, ms) :: os) = from_option (λ k, [k]) [] (op_key o) ++ op_keys os).
  { unfold op_keys. cbn. by destruct (op_key o). }
  rewrite Hops in *. apply NoDup_app in Hnd as (_ & Hdj & Hnd). apply not_elem_of_app in Hk as [Hko Hk].
  destruct (step_spec o ms s Hg Hle Hu) as (s1 & out1 & Hs & Hg1 & Hc1 & Hkn1 & Hnone1 & Hpend1).
  { intros h n d ->. split; [|done]. apply Hfresh. cbn. left. }
  destruct (IH s1) as (s2 & out2 & Hr & Hg2 & Hnone2 & Hpend2); [done|by rewrite Hc1|done|done|done|done| |].
  { intros k' Hk' [Hin|Hin]%Hkn1; [by eapply Hfresh; [apply elem_of_app; right|]|].
    eapply Hdj; [|exact Hk']. rewrite Hin. left. }
  rewrite Hs. cbn [mbind option_bind]. rewrite Hr. cbn [mbind option_bind].
  eexists _, _. split; [done|]. split; [done|].
  assert (Hko' : op_key o ≠ Some k) by (intros Heq; rewrite Heq in Hko; apply Hko; left).
  split.
  - intros Hnk. rewrite fired_for_app, Hnone1, Hnone2; [done| |done].
    intros [?|?]%Hkn1; done.
  - intros x Hp. rewrite fired_for_app.
    change (reached x ((o, ms) :: os)) with
      (match o with OUpdate => bool_decide (x ≤ ms / 10) | _ => false end || reached x os).
    specialize (Hpend1 k x Hp Hc). cbn in Hpend1. rewrite orb_false_r in Hpend1.
    destruct (match o with OUpdate => _ | _ => _ end).
    + destruct Hpend1 as [-> Hnk]. by rewrite Hnone2.
    + destruct Hpend1 as [-> Hp1]. cbn. by apply Hpend2.
Qed.

(** Timers are neither early, late, lost nor duplicated.  Start a sleep of [d]
    milliseconds at clock reading [ms0] under a key that is not in use, and let
    any history of other timers, cancellations of other timers and updates
    follow, with a clock that does not go backwards.  The history never panics,
    and it delivers the sleep exactly once if some update ran at or after the
    due tick [ceil((ms0 + d) / 10)], and not at all otherwise. *)
Lemma sleep_fires s h n d ms0 os :
  good s → monotone (clock s) ((OTimeout h n d, ms0) :: os) →
  delays_ok ((OTimeout h n d, ms0) :: os) →
  NoDup (op_keys ((OTimeout h n d, ms0) :: os)) →
  (∀ k, k ∈ op_keys ((OTimeout h n d, ms0) :: os) → k ∉ known s) →
  not_cancelled (h, n) os →
  ∃ s' out, run ((OTimeout h n d, ms0) :: os) s = Some (s', out) ∧ good s'
    ∧ fired_for (h, n) out = if reached (due_tick ms0 d) os then 1%nat else 0%nat.
Proof.
  intros Hg (Hle & Hu & Hmono) [Hd Hdel]%Forall_cons Hnd Hfresh Hnc. cbn in Hnd, Hfresh, Hd.
  apply NoDup_cons in Hnd as [Hnin Hnd].
  destruct (step_spec (OTimeout h n d) ms0 s Hg Hle Hu) as (s1 & out1 & Hs & Hg1 & Hc1 & Hkn1 & _ & _).
  { intros ??? [= <- <- <-]. split; [|done]. apply Hfresh. left. }
  cbn [run]. rewrite Hs. cbn [mbind option_bind]. cbn [step] in Hs. injection Hs as Hs1 <-.
  destruct (run_spec (h, n) os s1) as (s2 & out2 & Hr & Hg2 & _ & Hp); [done|by rewrite Hc1|done|done|done|done| |].
  { intros k' Hk' [Hin|Hin]%Hkn1; [by eapply Hfresh; [right|]|].
    cbn in Hin. injection Hin as <-. done. }
  rewrite Hr. cbn [mbind option_bind]. eexists _, _. split; [done|]. split; [done|].
  apply Hp. subst s1. left. cbn. by apply queued_new.
Qed.

(** The 10 ms grid rounds up, never down: a sleep fires no earlier than asked
    and its due tick is less than one tick after the requested deadline. *)
Theorem due_tick_rounds_up ms d :
  0 ≤ ms → 0 ≤ d → ms + d ≤ U64_MAX →
  ms + d ≤ 10 * due_tick ms d < ms + d + 10.
Proof.
  intros Hms Hd Hmax. unfold due_tick, div_ceil, saturating_add. rewrite Z.min_r by lia.
  pose proof (Z.div_mod (ms + d + 10 - 1) 10 ltac:(lia)).
  pose proof (Z.mod_pos_bound (ms + d + 10 - 1) 10 ltac:(lia)). lia.
Qed.

Lemma due_tick_rounds_up_witness : 3 + 15 ≤ 10 * due_tick 3 15 < 3 + 15 + 10.
Proof. apply (due_tick_rounds_up 3 15); vm_compute; congruence. Defined.

End Timer.
