(* ===== verification/TimerService.v ===== *)
(** * The timer service

    [TimerService] of [rskynet-timer/src/service.rs]: the exclusive service that owns the
    wheel.  Each idle round advances the wheel to the clock, answers the sleeps that
    came due with a [RESPONSE], stops a booted node without services, and otherwise
    wakes a worker and sleeps for one tick.  Other threads arm and cancel timers in
    between. *)
From S2P Require Import Prelude Message Wheel Timer.
Import Wheel.

Module TimerService.
Import Timer.

Definition DEFAULT_TICK_MICROS : Z := 2500.

(** [init]: the configured tick, if there is a section; [None] is the error. *)
Definition init (tick_micros : option Z) : option Z :=
  let tick := default DEFAULT_TICK_MICROS tick_micros in
  if decide (tick = 0) then None else Some tick.

Record Timestamp : Type := mkStamp { ts_now : Z; ts_wall_clock : Z; ts_start_time : Z }.

Inductive Out : Type :=
  | ORespond (handle session : Z)        (** [RESPONSE] from handle 0 *)
  | OQuit
  | OPoke
  | OPark
  | OParkTimeout (micros : Z)
  | OStamp (dest session : Z) (t : Timestamp)
  | ORefuse (dest session : Z).

#[global] Instance Timestamp_eq_dec : EqDecision Timestamp.
Proof. solve_decision. Defined.

#[global] Instance Out_eq_dec : EqDecision Out.
Proof. solve_decision. Defined.

Definition stamp (ms : Z) (t : WheelTimer) : Timestamp := mkStamp ms (wall_clock ms t) (start_time_unix_ms t).

Definition respond (e : TimerEvent) : Out := let '(h, n) := key e in ORespond h n.

(** [idle]; [None] is a panic of the wheel. *)
Definition idle (tick : Z) (quit booted : bool) (services ms : Z) (s : State) : option (State * list Out) :=
  if quit then Some (s, [OPark]) else
  '(t, w, due) ← update ms (timer s) (wheel s);
  Some (mkState t w ms,
        (respond <$> due) ++ if booted && bool_decide (services = 0) then [OQuit] else [OPoke; OParkTimeout tick]).

(** [dispatch]: [request] says whether the payload is the request for a timestamp. *)
Definition dispatch (m : Message) (request : bool) (ms : Z) (s : State) : list Out :=
  if decide (mtype m ≠ MsgType.USER) then [] else
  if needs_reply m then [if request then OStamp (Message.source m) (Message.session m) (stamp ms (timer s)) else ORefuse (Message.source m) (Message.session m)]
  else [].

Inductive Event : Type :=
  | ESleep (handle session delay_ms : Z)
  | ECancel (handle session : Z)
  | ERound (quit booted : bool) (services : Z)
  | EMessage (m : Message) (request : bool).

Definition step (tick : Z) (ev : Event) (ms : Z) (s : State) : option (State * list Out) :=
  match ev with
  | ESleep h n d => Some (mkState (timeout h n d ms (timer s)) (wheel s) ms, [])
  | ECancel h n => Some (mkState (cancel h n (timer s)) (wheel s) ms, [])
  | ERound quit booted services => idle tick quit booted services ms s
  | EMessage m request => Some (s, dispatch m request ms s)
  end.

Fixpoint run (tick : Z) (evs : list (Event * Z)) (s : State) : option (State * list Out) :=
  match evs with
  | [] => Some (s, [])
  | (ev, ms) :: evs =>
      '(s1, out1) ← step tick ev ms s;
      '(s2, out2) ← run tick evs s1;
      Some (s2, out1 ++ out2)
  end.

(** ** Sleeps are answered *)

(** What an event does to the timer. *)
Definition timer_op (ev : Event) : option Op :=
  match ev with
  | ESleep h n d => Some (OTimeout h n d)
  | ECancel h n => Some (OCancel h n)
  | ERound false _ _ => Some OUpdate
  | _ => None
  end.

Definition timer_ops (evs : list (Event * Z)) : list (Op * Z) :=
  omap (λ p, o ← timer_op p.1; Some (o, p.2)) evs.

Definition responses (k : TimerKey) (os : list Out) : nat :=
  length (filter (λ o, o = ORespond k.1 k.2) os).

Lemma responses_app k a b : responses k (a ++ b) = (responses k a + responses k b)%nat.
Proof. unfold responses. by rewrite filter_app, length_app. Qed.

Lemma responses_none k os : (∀ o, o ∈ os → o ≠ ORespond k.1 k.2) → responses k os = 0%nat.
Proof. intros Ho. unfold responses. by rewrite filter_none. Qed.

(** Each event of the wheel becomes one response. *)
Lemma responses_due k due : responses k (respond <$> due) = fired_for k due.
Proof.
  assert (He : ∀ e, respond e = ORespond k.1 k.2 ↔ key e = k).
  { intros e. unfold respond. destruct (key e) as [h n], k as [h' n']. cbn. split; [by intros [= -> ->]|by intros [= -> ->]]. }
  unfold responses, fired_for. induction due as [|e due IH]; [done|]. rewrite fmap_cons. destruct (decide (key e = k)) as [Hk|Hk].
  - rewrite !filter_cons_True by (rewrite ?He; done). cbn. by rewrite IH.
  - rewrite !filter_cons_False by (rewrite ?He; done). exact IH.
Qed.

Lemma dispatch_silent k m request ms s : responses k (dispatch m request ms s) = 0%nat.
Proof.
  apply responses_none. unfold dispatch. case_decide; [set_solver|]. destruct (needs_reply m); [|set_solver].
  intros o Ho%list_elem_of_singleton. subst. by destruct request.
Qed.

(** The service does to the timer what its events say, and answers what fires. *)
Lemma run_timer tick k evs s :
  match Timer.run (timer_ops evs) s with
  | Some (s', fired) => ∃ s'' out, run tick evs s = Some (s'', out) ∧ timer s'' = timer s' ∧ wheel s'' = wheel s'
      ∧ responses k out = fired_for k fired
  | None => True
  end.
Proof.
  revert s. induction evs as [|[ev ms] evs IH]; intros s; [by exists s, []|]. unfold timer_ops. cbn [omap list_omap fst snd].
  assert (Hskip : ∀ s1 out1, step tick ev ms s = Some (s1, out1) → responses k out1 = 0%nat → s1 = s →
    match Timer.run (timer_ops evs) s with
    | Some (s', fired) => ∃ s'' out, run tick ((ev, ms) :: evs) s = Some (s'', out) ∧ timer s'' = timer s' ∧ wheel s'' = wheel s'
        ∧ responses k out = fired_for k fired
    | None => True
    end).
  { intros s1 out1 Hs Hz ->. specialize (IH s). destruct (Timer.run (timer_ops evs) s) as [[s' fired]|]; [|done].
    destruct IH as (s'' & out & Hr & E1 & E2 & E3). exists s'', (out1 ++ out). cbn [run]. rewrite Hs. cbn [mbind option_bind]. rewrite Hr.
    cbn [mbind option_bind]. split_and!; [done..|]. by rewrite responses_app, Hz. }
  assert (Hdo : ∀ o out1 fired1 s1, timer_op ev = Some o → Timer.step o ms s = Some (s1, fired1) → step tick ev ms s = Some (s1, out1) →
    responses k out1 = fired_for k fired1 →
    match Timer.run ((o, ms) :: timer_ops evs) s with
    | Some (s', fired) => ∃ s'' out, run tick ((ev, ms) :: evs) s = Some (s'', out) ∧ timer s'' = timer s' ∧ wheel s'' = wheel s'
        ∧ responses k out = fired_for k fired
    | None => True
    end).
  { intros o out1 fired1 s1 _ Ht Hs Hz. cbn [Timer.run]. rewrite Ht. cbn [mbind option_bind]. specialize (IH s1).
    destruct (Timer.run (timer_ops evs) s1) as [[s' fired]|]; [|done]. cbn [mbind option_bind]. destruct IH as (s'' & out & Hr & E1 & E2 & E3).
    exists s'', (out1 ++ out). cbn [run]. rewrite Hs. cbn [mbind option_bind]. rewrite Hr. cbn [mbind option_bind].
    split_and!; [done..|]. by rewrite responses_app, fired_for_app, Hz, E3. }
  destruct ev as [h n d|h n|quit booted services|m request]; cbn [timer_op mbind option_bind].
  - by eapply Hdo.
  - by eapply Hdo.
  - destruct quit; cbn [timer_op mbind option_bind]; [by eapply Hskip|].
    destruct (update ms (timer s) (wheel s)) as [[[t w] due]|] eqn:Eu.
    2:{ fold (timer_ops evs). cbn [Timer.run Timer.step]. by rewrite Eu. }
    eapply Hdo; [done|cbn; by rewrite Eu|cbn; by rewrite Eu|]. rewrite responses_app, responses_due.
    set (tail := if booted && _ then [OQuit] else _). assert (Hz : responses k tail = 0%nat); [|lia].
    apply responses_none. intros o. unfold tail. destruct (booted && _); set_solver.
  - eapply Hskip; [done|apply dispatch_silent|done].
Qed.

Lemma timer_ops_cons ev ms evs :
  timer_ops ((ev, ms) :: evs) = match timer_op ev with Some o => (o, ms) :: timer_ops evs | None => timer_ops evs end.
Proof. unfold timer_ops. cbn. by destruct (timer_op ev). Qed.

(** A clock that does not go backwards. *)
Fixpoint steady (c : Z) (evs : list (Event * Z)) : Prop :=
  match evs with
  | [] => True
  | (_, ms) :: evs => c ≤ ms ∧ is_u64 ms ∧ steady ms evs
  end.

Lemma steady_monotone c c' evs : c' ≤ c → steady c evs → monotone c' (timer_ops evs).
Proof.
  revert c c'. induction evs as [|[ev ms] evs IH]; intros c c' Hc; [done|]. intros (H1 & H2 & H3). rewrite timer_ops_cons.
  destruct (timer_op ev); [cbn; split_and!; [lia|done..|by eapply IH]|]. eapply IH; [|exact H3]. lia.
Qed.

(** The rounds that serve sleeps are the ones before the node quits. *)
Definition served (x : Z) (evs : list (Event * Z)) : bool :=
  existsb (λ p, match p.1 with ERound false _ _ => bool_decide (x ≤ p.2 / 10) | _ => false end) evs.

Lemma served_reached x evs : reached x (timer_ops evs) = served x evs.
Proof.
  unfold reached, served. induction evs as [|[ev ms] evs IH]; [done|]. rewrite timer_ops_cons.
  destruct ev as [| |[] ? ?|]; cbn [timer_op existsb fst snd]; rewrite ?IH; done.
Qed.

(** C17 A sleep is answered exactly once, by the timer service, and on time.  A service
    starts a sleep of [d] milliseconds in a session of its own; whatever other sleeps,
    cancellations of other sleeps, messages and idle rounds follow, the timer service
    does not panic, and it sends the session one [RESPONSE] if a round before the
    node quits runs at or after the due tick, and none otherwise. *)
Theorem sleep_answered_once tick s h n d ms0 evs :
  good s → steady (clock s) ((ESleep h n d, ms0) :: evs) →
  delays_ok (timer_ops ((ESleep h n d, ms0) :: evs)) → NoDup (op_keys (timer_ops ((ESleep h n d, ms0) :: evs))) →
  (∀ k, k ∈ op_keys (timer_ops ((ESleep h n d, ms0) :: evs)) → k ∉ known s) →
  not_cancelled (h, n) (timer_ops evs) →
  ∃ s' out, run tick ((ESleep h n d, ms0) :: evs) s = Some (s', out)
    ∧ responses (h, n) out = if served (due_tick ms0 d) evs then 1%nat else 0%nat.
Proof.
  intros Hg Hst Hdel Hnd Hfresh Hnc.
  destruct (sleep_fires s h n d ms0 (timer_ops evs)) as (s' & fired & Hr & _ & Hf); [done|by apply (steady_monotone (clock s) (clock s) ((ESleep h n d, ms0) :: evs))|done..|].
  pose proof (run_timer tick (h, n) ((ESleep h n d, ms0) :: evs) s) as Ht. rewrite timer_ops_cons in Ht. cbn [timer_op] in Ht. rewrite Hr in Ht.
  destruct Ht as (s'' & out & Hrun & _ & _ & Hres). exists s'', out. split; [done|]. by rewrite Hres, Hf, served_reached.
Qed.

Lemma sleep_answered_once_witness :
  ∃ s' out, run 2500 [(ESleep 1 2 15, 3); (ERound false true 4, 10); (ESleep 1 3 5, 11); (ERound false true 4, 25); (ERound true true 4, 40)]
      (mkState (new 0) Wheel.new 0) = Some (s', out) ∧ responses (1, 2) out = 1%nat.
Proof.
  apply (sleep_answered_once 2500 (mkState (new 0) Wheel.new 0) 1 2 15 3
    [(ERound false true 4, 10); (ESleep 1 3 5, 11); (ERound false true 4, 25); (ERound true true 4, 40)]).
  - apply good_new.
  - cbn. u64.
  - repeat constructor; vm_compute; congruence.
  - apply (bool_decide_unpack (NoDup _)). vm_compute. exact I.
  - intros k _ Hk. unfold known in Hk. cbn [wheel] in Hk. rewrite contents_new in Hk. by apply elem_of_nil in Hk.
  - repeat constructor; discriminate.
Defined.
End TimerService.
