(* ===== verification/Handle.v ===== *)
(** * The handle registry

    Models [HandleStorage] of [rskynet-core/src/handle.rs]: the power-of-two slot
    array addressed by [handle & (len - 1)], the allocation cursor, the table of
    local names, and the lock-free readers that work on a snapshot of the array
    while a writer replaces it.  The service context is opaque except for its
    [handle] field; the closure that builds it is an argument, as in the code.
    [None] as the result of an operation is a panic. *)
From S2P Require Import Prelude Message.
From stdpp Require Import sorting.
#[local] Open Scope Z_scope.

Module Handle.

Definition DEFAULT_SLOT_SIZE : nat := 4.
Definition U32_MAX : Z := 2 ^ 32 - 1.

Section storage.
Context {Ctx : Type} (handle_of : Ctx → Z).

Abbreviation Slots := (list (option Ctx)).

Record HandleStorage : Type := mkStorage {
  slots : Slots;
  names : gmap string Z;
  alloc : Z;
}.

Definition empty_slots (size : nat) : Slots := replicate size None.

Definition new : HandleStorage := mkStorage (empty_slots DEFAULT_SLOT_SIZE) ∅ 1.

(** [(handle as usize) & (len - 1)] as an index. *)
Definition hash (handle : Z) (len : nat) : nat := Z.to_nat (Z.land handle (Z.of_nat len - 1)).

(** Outcome of the [for _ in 0..slots.len()] scan: a free slot with its handle and
    the successor already computed, a full table, or the exhaustion panic. *)
Inductive Scan : Type :=
  | Found (handle next_handle : Z)
  | Full
  | Exhausted.

Fixpoint scan (n : nat) (sl : Slots) (handle : Z) : Scan :=
  match n with
  | O => Full
  | S n =>
      match sl !! hash handle (length sl) with
      | Some None =>
          match checked_add handle 1 with
          | Some next_handle => Found handle next_handle
          | None => Exhausted
          end
      | _ =>
          match checked_add handle 1 with
          | Some handle => scan n sl handle
          | None => Exhausted
          end
      end
  end.

(** The re-hashing loop of [grow], with its [debug_assert!]. *)
Fixpoint place_all (cs : list Ctx) (new_size : nat) (sl : Slots) : option Slots :=
  match cs with
  | [] => Some sl
  | ctx :: cs =>
      let h := hash (handle_of ctx) new_size in
      match sl !! h with
      | Some None => place_all cs new_size (<[h := Some ctx]> sl)
      | _ => None
      end
  end.

Definition contexts (s : HandleStorage) : list Ctx := omap id (slots s).

Definition handles (s : HandleStorage) : list Z := handle_of <$> contexts s.

Definition grow (s : HandleStorage) : option HandleStorage :=
  let new_size := (length (slots s) * 2)%nat in
  if decide (Z.of_nat new_size ≤ U32_MAX) then
    new_slots ← place_all (contexts s) new_size (empty_slots new_size);
    Some (mkStorage new_slots (names s) (alloc s))
  else None.

(** The store of a registration that found its slot. *)
Definition store_new (ctx : Ctx) (h next_handle : Z) (s : HandleStorage) : HandleStorage :=
  mkStorage (<[hash h (length (slots s)) := Some ctx]> (slots s)) (names s) next_handle.

Fixpoint register_loop (fuel : nat) (make : Z → Ctx) (s : HandleStorage)
    : option (HandleStorage * Ctx) :=
  match fuel with
  | O => None
  | S fuel =>
      match scan (length (slots s)) (slots s) (alloc s) with
      | Found h next_handle =>
          let ctx := make h in Some (store_new ctx h next_handle s, ctx)
      | Full => s' ← grow s; register_loop fuel make s'
      | Exhausted => None
      end
  end.

(** A full table grows once, and the doubled one has a free slot within reach of
    the cursor: two rounds of the [loop] are enough. *)
Definition register_with (make : Z → Ctx) (s : HandleStorage) : option (HandleStorage * Ctx) :=
  register_loop 2 make s.

Definition read_slot (sl : Slots) (h : Z) : option Ctx :=
  match sl !! hash h (length sl) with
  | Some (Some ctx) => if decide (handle_of ctx = h) then Some ctx else None
  | _ => None
  end.

Definition grab (h : Z) (s : HandleStorage) : option Ctx := read_slot (slots s) h.

Definition retire (h : Z) (s : HandleStorage) : HandleStorage * option Ctx :=
  match read_slot (slots s) h with
  | None => (s, None)
  | Some ctx =>
      let sl := <[hash h (length (slots s)) := None]> (slots s) in
      let nm := if decide (map_Exists (λ _ owner, owner = h) (names s))
                then filter (λ kv, kv.2 ≠ h) (names s) else names s in
      (mkStorage sl nm (alloc s), Some ctx)
  end.

Definition find_name (name : string) (s : HandleStorage) : option Z := names s !! name.

Definition register_name (h : Z) (name : string) (s : HandleStorage) : HandleStorage * bool :=
  match read_slot (slots s) h with
  | None => (s, false)
  | Some _ =>
      match names s !! name with
      | Some _ => (s, false)
      | None => (mkStorage (slots s) (<[name := h]> (names s)) (alloc s), true)
      end
  end.

(** [BTreeMap::iter]: in the order of the keys. *)
Definition btree_iter (m : gmap string Z) : list (string * Z) :=
  merge_sort (λ a b, String.le a.1 b.1) (map_to_list m).

Definition snapshot (s : HandleStorage) : list Ctx * gmap Z (list string) :=
  (contexts s,
   foldl (λ grouped nh, partial_alter (λ o, Some (default [] o ++ [nh.1])) nh.2 grouped) ∅
     (btree_iter (names s))).

(** ** Hashing *)

Lemma hash_pow h k : hash h (2 ^ k) = Z.to_nat (h mod 2 ^ Z.of_nat k).
Proof.
  unfold hash. f_equal. rewrite Nat2Z.inj_pow. change (Z.of_nat 2) with 2.
  rewrite Z.sub_1_r, <-Z.ones_equiv. apply Z.land_ones. lia.
Qed.

Lemma pow_pos k : 0 < 2 ^ Z.of_nat k.
Proof. apply Z.pow_pos_nonneg; lia. Qed.

Lemma pow_nat k : Z.of_nat (2 ^ k) = 2 ^ Z.of_nat k.
Proof. by rewrite Nat2Z.inj_pow. Qed.

Lemma hash_lt h k : (hash h (2 ^ k) < 2 ^ k)%nat.
Proof.
  rewrite hash_pow. pose proof (Z.mod_pos_bound h _ (pow_pos k)).
  apply Nat2Z.inj_lt. rewrite pow_nat. lia.
Qed.

Lemma hash_inj h h' k : hash h (2 ^ k) = hash h' (2 ^ k) ↔ h mod 2 ^ Z.of_nat k = h' mod 2 ^ Z.of_nat k.
Proof.
  rewrite !hash_pow. pose proof (Z.mod_pos_bound h _ (pow_pos k)).
  pose proof (Z.mod_pos_bound h' _ (pow_pos k)). lia.
Qed.

Lemma mod2_cases q : q mod 2 = 0 ∨ q mod 2 = 1.
Proof. pose proof (Z.mod_pos_bound q 2). lia. Qed.

(** Handles that collide in the doubled table collide in the smaller one. *)
Lemma hash_double h h' k : hash h (2 ^ S k) = hash h' (2 ^ S k) → hash h (2 ^ k) = hash h' (2 ^ k).
Proof.
  rewrite !hash_inj, Nat2Z.inj_succ, Z.pow_succ_r by lia. pose proof (pow_pos k) as Hp. intros Heq.
  rewrite (Z.mul_comm 2) in Heq. rewrite !Z.rem_mul_r in Heq by lia.
  pose proof (Z.mod_pos_bound h _ Hp). pose proof (Z.mod_pos_bound h' _ Hp).
  pose proof (mod2_cases (h / 2 ^ Z.of_nat k)). pose proof (mod2_cases (h' / 2 ^ Z.of_nat k)).
  naive_solver lia.
Qed.

(** Two handles one table length apart are separated by the doubled table. *)
Lemma hash_split h k :
  hash (h + 2 ^ Z.of_nat k) (2 ^ k) = hash h (2 ^ k) ∧ hash (h + 2 ^ Z.of_nat k) (2 ^ S k) ≠ hash h (2 ^ S k).
Proof.
  pose proof (pow_pos k) as Hp. split.
  - apply hash_inj. rewrite <-(Z.mul_1_l (2 ^ Z.of_nat k)) at 1. apply Z.mod_add. lia.
  - rewrite hash_inj, Nat2Z.inj_succ, Z.pow_succ_r by lia. rewrite (Z.mul_comm 2), !Z.rem_mul_r by lia.
    replace (h + 2 ^ Z.of_nat k) with (h + 1 * 2 ^ Z.of_nat k) by lia.
    rewrite Z.mod_add, Z.div_add by lia. intros Heq.
    set (q := h / 2 ^ Z.of_nat k) in *. pose proof (mod2_cases q). pose proof (mod2_cases (q + 1)).
    pose proof (Z.div_mod q 2 ltac:(lia)). pose proof (Z.div_mod (q + 1) 2 ltac:(lia)). naive_solver lia.
Qed.

(** Every slot is the hash of one of [len] consecutive handles. *)
Lemma hash_surj h k i : (i < 2 ^ k)%nat → ∃ j, 0 ≤ j < 2 ^ Z.of_nat k ∧ hash (h + j) (2 ^ k) = i.
Proof.
  intros Hi. exists ((Z.of_nat i - h) mod 2 ^ Z.of_nat k). pose proof (pow_pos k) as Hp.
  split; [by apply Z.mod_pos_bound|]. rewrite hash_pow.
  rewrite Z.add_mod_idemp_r by lia. replace (h + (Z.of_nat i - h)) with (Z.of_nat i) by lia.
  rewrite Z.mod_small; [lia|]. rewrite <-pow_nat. lia.
Qed.

(** ** The scan *)

Lemma scan_found n sl h h' nx :
  scan n sl h = Found h' nx →
  h ≤ h' < h + Z.of_nat n ∧ nx = h' + 1 ∧ nx ≤ U64_MAX ∧ sl !! hash h' (length sl) = Some None.
Proof.
  revert h. induction n as [|n IH]; intros h; cbn; [done|]. unfold checked_add.
  destruct (sl !! hash h (length sl)) as [[c|]|] eqn:Hl; case_decide; intros Heq; simplify_eq;
    try (apply IH in Heq; split_and!; lia || naive_solver).
  split_and!; lia || done.
Qed.

Lemma scan_hit n sl h j :
  h + Z.of_nat n ≤ U64_MAX → 0 ≤ j < Z.of_nat n → sl !! hash (h + j) (length sl) = Some None →
  ∃ h' nx, scan n sl h = Found h' nx.
Proof.
  revert h j. induction n as [|n IH]; intros h j Hmax Hj Hfree; cbn; [lia|].
  unfold checked_add. rewrite decide_True by lia.
  destruct (decide (j = 0)) as [->|Hj0].
  - rewrite Z.add_0_r in Hfree. rewrite Hfree. eauto.
  - destruct (IH (h + 1) (j - 1)) as (h' & nx & Hs); [lia|lia| |].
    { by replace (h + 1 + (j - 1)) with (h + j) by lia. }
    rewrite Hs. destruct (sl !! hash h (length sl)) as [[c|]|]; eauto.
Qed.

Lemma scan_exhausted n sl h : h + Z.of_nat n ≤ U64_MAX → scan n sl h ≠ Exhausted.
Proof.
  revert h. induction n as [|n IH]; intros h Hmax; cbn; [done|].
  unfold checked_add. rewrite decide_True by lia.
  destruct (sl !! hash h (length sl)) as [[c|]|]; try done; apply IH; lia.
Qed.

(** ** Invariant *)

(** The array length is a power of two, every stored context sits at its hash and
    was issued below the cursor, and every name belongs to a stored handle. *)
Record inv (s : HandleStorage) : Prop := {
  inv_len : ∃ k, length (slots s) = (2 ^ k)%nat;
  inv_place : ∀ i c, slots s !! i = Some (Some c) →
    i = hash (handle_of c) (length (slots s)) ∧ 1 ≤ handle_of c < alloc s;
  inv_names : ∀ n h, names s !! n = Some h → is_Some (grab h s);
  inv_alloc : 1 ≤ alloc s ≤ U64_MAX;
}.

Lemma storage_new_inv : inv new.
Proof.
  split; cbn; [by exists 2%nat| |intros n h Hn; by rewrite lookup_empty in Hn|unfold U64_MAX; lia].
  intros i c Hi. by apply list_elem_of_lookup_2, (elem_of_replicate_inv _ 4%nat) in Hi.
Qed.

Lemma read_slot_Some sl h c :
  read_slot sl h = Some c ↔ sl !! hash h (length sl) = Some (Some c) ∧ handle_of c = h.
Proof. unfold read_slot. split; case_goal; naive_solver. Qed.

Lemma inv_hash_lt s h : inv s → (hash h (length (slots s)) < length (slots s))%nat.
Proof. intros [[k Hk] _ _ _]. rewrite Hk. apply hash_lt. Qed.

Lemma inv_slot s h : inv s → ∃ o, slots s !! hash h (length (slots s)) = Some o.
Proof. intros Hi. apply lookup_lt_is_Some. by apply inv_hash_lt. Qed.

(** Contexts found by different handles are in different slots, so the registry
    is a finite map from handles to contexts. *)
Lemma grab_store s h c h' :
  inv s → slots s !! hash h (length (slots s)) = Some None → handle_of c = h →
  read_slot (<[hash h (length (slots s)) := Some c]> (slots s)) h'
  = if decide (h' = h) then Some c else grab h' s.
Proof.
  intros Hi Hfree Hc. unfold grab, read_slot. rewrite length_insert.
  destruct (decide (hash h' (length (slots s)) = hash h (length (slots s)))) as [Heq|Hne].
  - rewrite Heq, list_lookup_insert_eq by (by apply inv_hash_lt). rewrite Hfree.
    repeat case_decide; congruence.
  - rewrite list_lookup_insert_ne by congruence. by rewrite (decide_False (P := h' = h)) by congruence.
Qed.

Lemma grab_clear s h c h' :
  inv s → grab h s = Some c →
  read_slot (<[hash h (length (slots s)) := None]> (slots s)) h' = if decide (h' = h) then None else grab h' s.
Proof.
  intros Hi Hg. apply read_slot_Some in Hg as [Hl Hc]. unfold grab, read_slot. rewrite length_insert.
  destruct (decide (hash h' (length (slots s)) = hash h (length (slots s)))) as [Heq|Hne].
  - rewrite Heq, list_lookup_insert_eq by (by apply inv_hash_lt). rewrite Hl.
    repeat case_decide; congruence.
  - rewrite list_lookup_insert_ne by congruence. by rewrite (decide_False (P := h' = h)) by congruence.
Qed.

Lemma elem_of_contexts s c : inv s → c ∈ contexts s ↔ grab (handle_of c) s = Some c.
Proof.
  intros Hi. unfold contexts, grab. rewrite list_elem_of_omap, read_slot_Some. split.
  - intros (o & (i & Ho)%list_elem_of_lookup & [= ->]). split; [|done].
    by destruct (inv_place _ Hi _ _ Ho) as [<- _].
  - intros [Hl _]. exists (Some c). split; [by eapply list_elem_of_lookup_2|done].
Qed.

(** ** Growth *)

(** The contexts of a prefix of the table have distinct hashes. *)
Lemma contexts_hash_nodup s :
  inv s → NoDup ((λ c, hash (handle_of c) (length (slots s))) <$> contexts s).
Proof.
  intros [_ Hp _ _]. unfold contexts. set (n := length (slots s)) in *.
  assert (Hgen : ∀ sl off, (∀ i c, sl !! i = Some (Some c) → (off + i)%nat = hash (handle_of c) n) →
     NoDup ((λ c, hash (handle_of c) n) <$> omap id sl)
     ∧ ∀ x, x ∈ (λ c, hash (handle_of c) n) <$> omap id sl → (off ≤ x)%nat).
  { clear. induction sl as [|o sl IH]; intros off Hsl; cbn; [split; [constructor|by intros x Hx%elem_of_nil]|].
    destruct (IH (S off)) as [Hnd Hlow]; [intros i c Hc; rewrite <-(Hsl (S i) c Hc); lia|].
    destruct o as [c|]; cbn; [|split; [done|intros x Hx%Hlow; lia]].
    pose proof (Hsl 0%nat c eq_refl) as Hc. split.
    - constructor; [|done]. intros Hx%Hlow. lia.
    - intros x [->|Hx%Hlow]%elem_of_cons; lia. }
  apply (Hgen (slots s) 0%nat). intros i c Hc. by apply Hp.
Qed.

Lemma place_all_spec cs n sl :
  length sl = n → NoDup ((λ c, hash (handle_of c) n) <$> cs) →
  (∀ c, c ∈ cs → sl !! hash (handle_of c) n = Some None) →
  ∃ sl', place_all cs n sl = Some sl' ∧ length sl' = n
    ∧ (∀ i c, sl' !! i = Some (Some c) ↔
        (c ∈ cs ∧ i = hash (handle_of c) n) ∨ sl !! i = Some (Some c)).
Proof.
  revert sl. induction cs as [|c cs IH]; intros sl Hlen Hnd Hfree; cbn [place_all].
  { exists sl. split_and!; [done|done|]. intros i c. split; [by right|].
    intros [[Hc _]|]; [by apply elem_of_nil in Hc|done]. }
  apply NoDup_cons in Hnd as [Hnin Hnd]. pose proof (Hfree c ltac:(left)) as Hc. rewrite Hc.
  destruct (IH (<[hash (handle_of c) n := Some c]> sl)) as (sl' & Hp & Hlen' & Hiff);
    [by rewrite length_insert|done| |].
  { intros c' Hc'. rewrite list_lookup_insert_ne; [apply Hfree; by right|].
    intros Heq. apply Hnin, list_elem_of_fmap. by exists c'. }
  exists sl'. split_and!; [done|done|]. intros i c'.
  rewrite Hiff, list_lookup_insert_Some, elem_of_cons. apply lookup_lt_Some in Hc as Hlt. split.
  - naive_solver.
  - intros [[[->|?] ->]|Hl]; [by auto|by auto|]. right. right. split; [congruence|done].
Qed.

Lemma grow_spec s k :
  inv s → length (slots s) = (2 ^ k)%nat → 2 ^ (Z.of_nat k + 1) ≤ U32_MAX →
  ∃ s', grow s = Some s' ∧ inv s' ∧ names s' = names s ∧ alloc s' = alloc s
    ∧ length (slots s') = (2 ^ S k)%nat ∧ ∀ h, grab h s' = grab h s.
Proof.
  intros Hi Hk Hmax. unfold grow. rewrite Hk, (Nat.mul_comm _ 2). change (2 * 2 ^ k)%nat with (2 ^ S k)%nat.
  rewrite decide_True by (rewrite pow_nat, Nat2Z.inj_succ; done).
  destruct (place_all_spec (contexts s) (2 ^ S k) (empty_slots (2 ^ S k))) as (sl & -> & Hlen & Hiff).
  - apply length_replicate.
  - apply (NoDup_fmap_1 (λ i, (i mod 2 ^ k)%nat)). pose proof (contexts_hash_nodup s Hi) as Hnd.
    rewrite Hk in Hnd. rewrite <-list_fmap_compose. erewrite list_fmap_ext; [exact Hnd|].
    intros i c _. unfold compose. rewrite !hash_pow. rewrite Nat2Z.inj_succ.
    pose proof (Z.mod_pos_bound (handle_of c) (2 ^ Z.succ (Z.of_nat k))) as Hb.
    rewrite Z.pow_succ_r in * by lia. pose proof (pow_pos k).
    apply Nat2Z.inj. rewrite Nat2Z.inj_mod, pow_nat, !Z2Nat.id by (try apply Z.mod_pos_bound; lia).
    rewrite (Z.mul_comm 2), Z.rem_mul_r, (Z.mul_comm (2 ^ _)), Z.mod_add by lia. apply Z.mod_mod. lia.
  - intros c _. apply lookup_replicate_2, hash_lt.
  - cbn [mbind option_bind].
    assert (Hs : ∀ i c, sl !! i = Some (Some c) ↔ c ∈ contexts s ∧ i = hash (handle_of c) (2 ^ S k)).
    { intros i c. rewrite Hiff. split; [|by left]. intros [|Hr]; [done|].
      by apply lookup_replicate in Hr as [??]. }
    assert (Hgrab : ∀ h, read_slot sl h = grab h s).
    { intros h. apply option_eq. intros c. rewrite read_slot_Some, Hlen, Hs. split.
      - intros [[Hc _] <-]. by apply elem_of_contexts.
      - intros Hg. assert (handle_of c = h) as <- by by apply read_slot_Some in Hg as [_ ?].
        by rewrite elem_of_contexts. }
    eexists. split; [done|]. split_and!; [|done|done|done|exact Hgrab].
    split; cbn; [by exists (S k)| | |apply Hi].
    + intros i c [Hc ->]%Hs. rewrite Hlen. split; [done|].
      apply elem_of_contexts in Hc; [|done]. apply read_slot_Some in Hc as [Hc _].
      by apply (inv_place _ Hi _ _ Hc).
    + intros n h Hn. unfold grab. cbn. rewrite Hgrab. by apply (inv_names _ Hi n).
Qed.

(** ** Operations *)

Lemma store_new_spec s make h nx :
  inv s → (∀ h, handle_of (make h) = h) → alloc s ≤ h → nx = h + 1 → nx ≤ U64_MAX →
  slots s !! hash h (length (slots s)) = Some None →
  inv (store_new (make h) h nx s) ∧ grab h s = None
    ∧ ∀ h', grab h' (store_new (make h) h nx s) = if decide (h' = h) then Some (make h) else grab h' s.
Proof.
  intros Hi Hm Hh Hnx Hmax Hfree. pose proof (inv_alloc _ Hi) as [Ha _].
  assert (Hgrab := λ h', grab_store s h (make h) h' Hi Hfree (Hm h)).
  split_and!; [|by unfold grab, read_slot; rewrite Hfree|exact Hgrab].
  split; cbn; rewrite ?length_insert; [apply Hi| | |lia].
  - intros i c [(<- & [= <-] & _)|[_ Hl]]%list_lookup_insert_Some.
    + rewrite Hm. split; [done|lia].
    + destruct (inv_place _ Hi _ _ Hl). split; [done|lia].
  - intros n o Hn. unfold grab. cbn. rewrite Hgrab. case_decide; [done|]. by apply (inv_names _ Hi n).
Qed.

(** Room for one more service: the cursor and the array can still advance. *)
Definition has_room (s : HandleStorage) : Prop :=
  alloc s + 2 * Z.of_nat (length (slots s)) ≤ U64_MAX ∧ 2 * Z.of_nat (length (slots s)) ≤ U32_MAX.

(** The doubled table always has a slot for the cursor or for the handle one old
    table length further on. *)
Lemma grown_has_free s k :
  inv s → length (slots s) = (2 ^ S k)%nat →
  (∀ c c', c ∈ contexts s → c' ∈ contexts s →
    hash (handle_of c) (2 ^ k) = hash (handle_of c') (2 ^ k) → c = c') →
  ∃ j, 0 ≤ j < Z.of_nat (length (slots s)) ∧ slots s !! hash (alloc s + j) (length (slots s)) = Some None.
Proof.
  intros Hi Hlen Huniq. pose proof (pow_pos k) as Hp. destruct (hash_split (alloc s) k) as [Hsame Hdiff].
  rewrite <-Hlen in Hdiff.
  assert (Hlz : Z.of_nat (length (slots s)) = 2 * 2 ^ Z.of_nat k).
  { rewrite Hlen, pow_nat, Nat2Z.inj_succ, Z.pow_succ_r; lia. }
  destruct (inv_slot s (alloc s) Hi) as [[c|] Hc].
  2: { exists 0. rewrite Z.add_0_r. split; [lia|done]. }
  destruct (inv_slot s (alloc s + 2 ^ Z.of_nat k) Hi) as [[c'|] Hc'].
  2: { exists (2 ^ Z.of_nat k). split; [lia|done]. }
  exfalso. apply Hdiff.
  destruct (inv_place _ Hi _ _ Hc) as [Hh _], (inv_place _ Hi _ _ Hc') as [Hh' _].
  assert (c = c') as <-; [|congruence]. rewrite Hlen in Hh, Hh'. apply Huniq.
  - apply elem_of_contexts; [done|]. apply read_slot_Some. by rewrite Hlen, <-Hh, <-Hlen.
  - apply elem_of_contexts; [done|]. apply read_slot_Some. by rewrite Hlen, <-Hh', <-Hlen.
  - apply hash_double in Hh, Hh'. congruence.
Qed.

Lemma contexts_unique s c c' :
  inv s → c ∈ contexts s → c' ∈ contexts s →
  hash (handle_of c) (length (slots s)) = hash (handle_of c') (length (slots s)) → c = c'.
Proof.
  intros Hi Hc%elem_of_contexts Hc'%elem_of_contexts Heq; [|done..].
  apply read_slot_Some in Hc as [Hc _], Hc' as [Hc' _]. congruence.
Qed.

Lemma scan_full_grown s k s' :
  inv s → length (slots s) = (2 ^ k)%nat → inv s' → length (slots s') = (2 ^ S k)%nat →
  (∀ h, grab h s' = grab h s) →
  ∃ j, 0 ≤ j < Z.of_nat (length (slots s')) ∧ slots s' !! hash (alloc s' + j) (length (slots s')) = Some None.
Proof.
  intros Hi Hk Hi' Hk' Hg. apply (grown_has_free s' k Hi' Hk').
  intros c c' Hc%elem_of_contexts Hc'%elem_of_contexts; [|done..]. rewrite Hg in Hc, Hc'.
  rewrite <-Hk. by apply contexts_unique; [|apply elem_of_contexts..].
Qed.

Lemma register_with_spec s make :
  inv s → has_room s → (∀ h, handle_of (make h) = h) →
  ∃ s' h, register_with make s = Some (s', make h) ∧ inv s'
    ∧ alloc s ≤ h ∧ alloc s' = h + 1 ∧ names s' = names s ∧ grab h s = None
    ∧ (∀ h', grab h' s' = if decide (h' = h) then Some (make h) else grab h' s).
Proof.
  intros Hi [Hroom Hmax] Hm. destruct (inv_len _ Hi) as [k Hk]. pose proof (pow_pos k).
  unfold register_with, register_loop at 1.
  destruct (scan (length (slots s)) (slots s) (alloc s)) as [h nx| |] eqn:Hs.
  - apply scan_found in Hs as (Hh & Hnx & Hnm & Hfree).
    destruct (store_new_spec s make h nx) as (? & ? & ?); [done|done|lia|done|done|done|].
    eexists _, h. split; [done|]. cbn. by split_and!; [|lia|..].
  - destruct (grow_spec s k Hi Hk) as (s1 & Hgr & Hi1 & Hn1 & Ha1 & Hl1 & Hg1).
    { rewrite Hk, pow_nat in Hmax. rewrite Z.add_1_r, Z.pow_succ_r; lia. }
    rewrite Hgr. cbn [mbind option_bind register_loop].
    destruct (scan_full_grown s k s1 Hi Hk Hi1 Hl1 Hg1) as (j & Hj & Hfree).
    assert (Hlz : Z.of_nat (length (slots s1)) = 2 * Z.of_nat (length (slots s))) by (rewrite Hl1, Hk; cbn; lia).
    destruct (scan_hit (length (slots s1)) (slots s1) (alloc s1) j) as (h & nx & Hs1); [lia|done|done|].
    rewrite Hs1. apply scan_found in Hs1 as (Hh & Hnx & Hnm & Hfree1).
    destruct (store_new_spec s1 make h nx) as (? & Hnone & Hstore); [done|done|lia|done|done|done|].
    eexists _, h. split; [done|]. cbn. rewrite Hg1 in Hnone. split_and!; [done|lia|done|done|done|].
    intros h'. rewrite Hstore. by rewrite Hg1.
  - by apply scan_exhausted in Hs; [|lia].
Qed.

(** A registration that returns, room or not. *)
Lemma register_with_some s make s' c :
  inv s → (∀ h, handle_of (make h) = h) → register_with make s = Some (s', c) →
  ∃ h, c = make h ∧ inv s' ∧ alloc s ≤ h ∧ alloc s' = h + 1 ∧ grab h s = None
    ∧ (∀ h', grab h' s' = if decide (h' = h) then Some (make h) else grab h' s).
Proof.
  intros Hi Hm. destruct (inv_len _ Hi) as [k Hk]. unfold register_with, register_loop at 1.
  destruct (scan (length (slots s)) (slots s) (alloc s)) as [h nx| |] eqn:Hs; [|destruct (grow s) as [s1|] eqn:Hgr; [|done]|done].
  - intros [= <- <-]. apply scan_found in Hs as (Hh & Hnx & Hnm & Hfree).
    destruct (store_new_spec s make h nx) as (? & ? & ?); [done|done|lia|done|done|done|]. exists h. split_and!; try done; cbn; lia.
  - assert (Hmax : 2 ^ (Z.of_nat k + 1) ≤ U32_MAX).
    { unfold grow in Hgr. case_decide as Hd; [|done]. rewrite Hk, Nat2Z.inj_mul, pow_nat in Hd.
      rewrite Z.add_1_r, Z.pow_succ_r; lia. }
    destruct (grow_spec s k Hi Hk Hmax) as (s1' & Hgr' & Hi1 & _ & Ha1 & _ & Hg1). assert (s1' = s1) as -> by congruence.
    cbn [mbind option_bind register_loop].
    destruct (scan (length (slots s1)) (slots s1) (alloc s1)) as [h nx| |] eqn:Hs1; [|by destruct (grow s1)|done].
    intros [= <- <-]. apply scan_found in Hs1 as (Hh & Hnx & Hnm & Hfree).
    destruct (store_new_spec s1 make h nx) as (? & Hnone & Hst); [done|done|lia|done|done|done|]. rewrite Hg1 in Hnone.
    exists h. split_and!; [done|done|lia|cbn; lia|done|]. intros h'. rewrite Hst. by rewrite Hg1.
Qed.

Lemma retire_spec s h :
  inv s →
  inv (retire h s).1 ∧ (retire h s).2 = grab h s ∧ alloc (retire h s).1 = alloc s
    ∧ length (slots (retire h s).1) = length (slots s)
    ∧ names (retire h s).1 = filter (λ kv, kv.2 ≠ h) (names s)
    ∧ ∀ h', grab h' (retire h s).1 = if decide (h' = h) then None else grab h' s.
Proof.
  intros Hi. unfold retire. change (read_slot (slots s) h) with (grab h s).
  assert (Hno : grab h s = None ∨ ¬ map_Exists (λ _ owner, owner = h) (names s) →
                filter (λ kv, kv.2 ≠ h) (names s) = names s).
  { intros Hc. apply map_filter_id. intros n o Hn Heq. cbn in Heq. subst o. destruct Hc as [Hc|Hc].
    - destruct (inv_names _ Hi n h Hn) as [c ?]. congruence.
    - apply Hc. by exists n, h. }
  destruct (grab h s) as [c|] eqn:Hg; cbn.
  - assert (Hcl := λ h', grab_clear s h c h' Hi Hg).
    split_and!; [|done|done|by rewrite length_insert| |exact Hcl].
    + split; cbn; rewrite ?length_insert; [apply Hi| | |apply Hi].
      * intros i c' [(_ & ? & _)|[_ Hl]]%list_lookup_insert_Some; [done|]. by apply (inv_place _ Hi).
      * intros n o Hn. unfold grab. cbn. rewrite Hcl.
        assert (names s !! n = Some o ∧ o ≠ h) as [Hn' Hne].
        { case_decide as Hex; [by apply map_lookup_filter_Some in Hn|]. split; [done|].
          intros ->. apply Hex. by exists n, h. }
        rewrite decide_False by done. by apply (inv_names _ Hi n).
    + case_decide; [done|]. rewrite Hno; auto.
  - rewrite Hno by auto. split_and!; try done. intros h'. case_decide; by subst.
Qed.

Lemma register_name_spec s h n :
  inv s →
  inv (register_name h n s).1 ∧ alloc (register_name h n s).1 = alloc s
    ∧ slots (register_name h n s).1 = slots s
    ∧ ((register_name h n s).2 = true ↔ is_Some (grab h s) ∧ names s !! n = None)
    ∧ names (register_name h n s).1
      = if (register_name h n s).2 then <[n := h]> (names s) else names s.
Proof.
  intros Hi. unfold register_name. change (read_slot (slots s) h) with (grab h s).
  destruct (grab h s) as [c|] eqn:Hg; cbn; [|split_and!; done || naive_solver].
  destruct (names s !! n) as [o|] eqn:Hn; cbn; [split_and!; done || naive_solver|].
  split_and!; [|done..|naive_solver|done]. split; cbn; [apply Hi..| |apply Hi].
  intros n' o [[<- <-]|[_ Ho]]%lookup_insert_Some; [by exists c|].
  by apply (inv_names _ Hi n').
Qed.

(** ** Specification

    What the rest of the node relies on: a map from handles to live services, a
    map from names to handles, and handles issued in increasing order. *)
Record Spec : Type := mkSpec {
  live : gmap Z Ctx;
  spec_names : gmap string Z;
  next : Z;
}.

Inductive Op : Type :=
  | Register (make : Z → Ctx)
  | Retire (h : Z)
  | RegisterName (h : Z) (name : string).

Inductive Res : Type :=
  | RCtx (c : Ctx)
  | RRetired (o : option Ctx)
  | RNamed (b : bool).

Inductive spec_step : Spec → Op → Spec → Res → Prop :=
  | spec_register a make h :
      next a ≤ h → live a !! h = None →
      spec_step a (Register make)
        (mkSpec (<[h := make h]> (live a)) (spec_names a) (h + 1)) (RCtx (make h))
  | spec_retire a h :
      spec_step a (Retire h)
        (mkSpec (delete h (live a)) (filter (λ kv, kv.2 ≠ h) (spec_names a)) (next a))
        (RRetired (live a !! h))
  | spec_name a h n :
      is_Some (live a !! h) → spec_names a !! n = None →
      spec_step a (RegisterName h n) (mkSpec (live a) (<[n := h]> (spec_names a)) (next a)) (RNamed true)
  | spec_name_refused a h n :
      live a !! h = None ∨ is_Some (spec_names a !! n) →
      spec_step a (RegisterName h n) a (RNamed false).

Definition step (o : Op) (s : HandleStorage) : option (HandleStorage * Res) :=
  match o with
  | Register make => '(s', c) ← register_with make s; Some (s', RCtx c)
  | Retire h => let '(s', o) := retire h s in Some (s', RRetired o)
  | RegisterName h n => let '(s', b) := register_name h n s in Some (s', RNamed b)
  end.

(** The closure of a registration builds a context with the handle it is given. *)
Definition op_ok (o : Op) (s : HandleStorage) : Prop :=
  match o with
  | Register make => has_room s ∧ ∀ h, handle_of (make h) = h
  | _ => True
  end.

Record refines (s : HandleStorage) (a : Spec) : Prop := {
  ref_inv : inv s;
  ref_grab : ∀ h, grab h s = live a !! h;
  ref_names : ∀ n, find_name n s = spec_names a !! n;
  ref_next : alloc s = next a;
}.

(** C21 The slot table implements the registry: starting from related states every
    operation returns, gives the answer the map of live services and the map of
    names give, and leads to related states.  Growing the array, which moves
    every context, is invisible; a registration needs room in the handle space
    and in the array. *)
Theorem storage_refines_registry s a o :
  refines s a → op_ok o s →
  ∃ s' a' r, step o s = Some (s', r) ∧ spec_step a o a' r ∧ refines s' a'.
Proof.
  intros [Hi Hg Hn Ha] Hok. destruct o as [make|h|h n]; cbn [step].
  - destruct Hok as [Hroom Hm].
    destruct (register_with_spec s make Hi Hroom Hm) as (s' & h & -> & Hi' & Hle & Hnx & Hnm & Hnone & Hgr).
    cbn. eexists s', _, _. split; [done|]. split; [apply spec_register; [lia|by rewrite <-Hg]|].
    split; cbn; [done| | |done].
    + intros h'. rewrite Hgr, lookup_insert. repeat case_decide; congruence.
    + intros n. unfold find_name. rewrite Hnm. apply Hn.
  - destruct (retire_spec s h Hi) as (Hi' & Hr & Ha' & _ & Hnm & Hgr).
    destruct (retire h s) as [s' r]; cbn in *. subst r. eexists s', _, _. split; [done|].
    rewrite Hg. split; [apply spec_retire|]. split; cbn; [done| | |lia].
    + intros h'. rewrite Hgr, lookup_delete, Hg. repeat case_decide; congruence.
    + intros n. unfold find_name. rewrite Hnm. f_equal. f_equal. apply map_eq. apply Hn.
  - destruct (register_name_spec s h n Hi) as (Hi' & Ha' & Hsl & Hb & Hnm).
    destruct (register_name h n s) as [s' b]; cbn in *. unfold find_name in Hn. rewrite Hg, Hn in Hb.
    assert (Hg' : ∀ h', grab h' s' = live a !! h') by (intros; unfold grab; rewrite Hsl; apply Hg).
    destruct b; eexists s', _, _; (split; [done|]).
    + destruct Hb as [[Hl Hn0] _]; [done|]. split; [by apply spec_name|]. split; cbn; [done|done| |lia].
      intros n'. unfold find_name. rewrite Hnm, !lookup_insert. by rewrite Hn.
    + split; [apply spec_name_refused|].
      * destruct (live a !! h) as [c|] eqn:E1; [|by left]. right.
        destruct (spec_names a !! n) as [o|] eqn:E2; [done|]. destruct Hb as [_ Hb]. discriminate Hb. by split.
      * split; [done|done| |lia]. intros n'. unfold find_name. rewrite Hnm. apply Hn.
Qed.

(** ** Histories *)

Fixpoint run (os : list Op) (s : HandleStorage) : option (HandleStorage * list Z) :=
  match os with
  | [] => Some (s, [])
  | o :: os =>
      '(s1, r) ← step o s;
      '(s2, hs) ← run os s1;
      Some (s2, match r with RCtx c => handle_of c :: hs | _ => hs end)
  end.

Definition builds (o : Op) : Prop :=
  match o with Register make => ∀ h, handle_of (make h) = h | _ => True end.

Lemma register_loop_issues fuel make s s' c :
  register_loop fuel make s = Some (s', c) → inv s → (∀ h, handle_of (make h) = h) →
  inv s' ∧ alloc s ≤ handle_of c < alloc s'
    ∧ (∀ h, h ≠ handle_of c → grab h s' = grab h s).
Proof.
  revert s. induction fuel as [|fuel IH]; intros s Hr Hi Hm; cbn in Hr; [done|].
  destruct (scan (length (slots s)) (slots s) (alloc s)) as [h nx| |] eqn:Hs; [| |done].
  - injection Hr as <- <-. apply scan_found in Hs as (Hh & Hnx & Hnm & Hfree). rewrite Hm.
    destruct (store_new_spec s make h nx) as (? & _ & Hst); [done|done|lia|done|done|done|].
    split_and!; [done|lia|cbn; lia|]. intros h' Hne. by rewrite Hst, decide_False.
  - destruct (inv_len _ Hi) as [k Hk]. destruct (grow s) as [s1|] eqn:Hgr; [|done]. cbn in Hr.
    assert (Hmax : 2 ^ (Z.of_nat k + 1) ≤ U32_MAX).
    { unfold grow in Hgr. case_decide as Hd; [|done].
      rewrite Hk, Nat2Z.inj_mul, pow_nat in Hd. rewrite Z.add_1_r, Z.pow_succ_r; lia. }
    destruct (grow_spec s k Hi Hk Hmax) as (s1' & Hgr' & Hi1 & _ & Ha1 & _ & Hg1).
    assert (s1' = s1) as -> by congruence.
    destruct (IH s1 Hr Hi1 Hm) as (? & ? & Hrest). rewrite <-Ha1. split_and!; [done|lia..|].
    intros h Hne. by rewrite Hrest, Hg1.
Qed.

Lemma step_issues o s s' r :
  step o s = Some (s', r) → inv s → builds o →
  inv s' ∧ alloc s ≤ alloc s'
    ∧ (∀ c, r = RCtx c → alloc s ≤ handle_of c < alloc s')
    ∧ (∀ h, h < alloc s → grab h s = None → grab h s' = None).
Proof.
  intros Hs Hi Hm. destruct o as [make|h|h n]; cbn [step] in Hs.
  - destruct (register_with make s) as [[s1 c]|] eqn:Hr; simplify_eq/=.
    destruct (register_loop_issues _ _ _ _ _ Hr Hi Hm) as (? & Hh & Hrest).
    split_and!; [done|lia|by intros ? [= <-]|]. intros h Hlt Hn. rewrite Hrest; [done|lia].
  - destruct (retire_spec s h Hi) as (Hi' & _ & Ha' & _ & _ & Hgr).
    destruct (retire h s) as [s1 o]; simplify_eq/=. split_and!; [done|lia|done|].
    intros h' _ Hn. rewrite Hgr, Hn. by case_decide.
  - destruct (register_name_spec s h n Hi) as (Hi' & Ha' & Hsl & _).
    destruct (register_name h n s) as [s1 b]; simplify_eq/=. split_and!; [done|lia|done|].
    intros h' _ Hn. unfold grab. by rewrite Hsl.
Qed.

(** Handles are issued in strictly increasing order and never reused, in any
    history of registrations, retirements and namings, whatever the physical
    slots are recycled for; so a handle that no longer resolves never resolves
    again, and a stale address or late reply cannot reach a newer service. *)
Theorem handles_never_reused os s s' hs :
  run os s = Some (s', hs) → inv s → Forall builds os →
  inv s' ∧ StronglySorted Z.lt hs ∧ Forall (λ h, alloc s ≤ h < alloc s') hs
    ∧ (∀ h, h < alloc s → grab h s = None → grab h s' = None).
Proof.
  intros Hr Hi Hm. assert (Hmono : alloc s ≤ alloc s' ∧ inv s' ∧ StronglySorted Z.lt hs
    ∧ Forall (λ h, alloc s ≤ h < alloc s') hs ∧ (∀ h, h < alloc s → grab h s = None → grab h s' = None));
    [|tauto].
  revert s hs Hr Hi. induction Hm as [|o os Ho _ IH]; intros s hs Hr Hi; cbn in Hr.
  { simplify_eq. split_and!; [lia|done|constructor|constructor|done]. }
  destruct (step o s) as [[s1 r]|] eqn:Hs; [|done]. cbn in Hr.
  destruct (run os s1) as [[s2 hs2]|] eqn:Hr2; [|done]. cbn in Hr. injection Hr as <- <-.
  destruct (step_issues _ _ _ _ Hs Hi Ho) as (Hi1 & Hle1 & Hc & Hn1).
  destruct (IH s1 hs2 Hr2 Hi1) as (Hle2 & Hi2 & Hss & Hall & Hn2).
  assert (Hall' : Forall (λ h, alloc s ≤ h < alloc s2) hs2).
  { eapply Forall_impl; [exact Hall|]. cbn. intros. lia. }
  split_and!; [lia|done| | |intros h Hlt Hn; apply Hn2; [lia|auto]]; destruct r as [c|o'|b]; try done.
  - constructor; [done|]. specialize (Hc c eq_refl). eapply Forall_impl; [exact Hall|]. cbn. intros. lia.
  - constructor; [|done]. specialize (Hc c eq_refl). lia.
Qed.

(** ** Readers and writers

    Writers hold the [alloc] mutex, so their stores form one sequence; a reader
    takes no lock: it loads the array pointer and later reads one slot of that
    array.  [arrays] keeps the replaced arrays a reader may still hold, oldest
    first; each writer step is one atomic store of the code. *)
Record Shared : Type := mkShared { arrays : list Slots; cur : HandleStorage }.

Inductive wstep : Shared → Shared → Prop :=
  | w_store sh make h nx :
      scan (length (slots (cur sh))) (slots (cur sh)) (alloc (cur sh)) = Found h nx →
      wstep sh (mkShared (arrays sh) (store_new (make h) h nx (cur sh)))
  | w_grow sh s' :
      scan (length (slots (cur sh))) (slots (cur sh)) (alloc (cur sh)) = Full →
      grow (cur sh) = Some s' →
      wstep sh (mkShared (arrays sh ++ [slots (cur sh)]) s')
  | w_clear sh h c :
      grab h (cur sh) = Some c →
      wstep sh (mkShared (arrays sh)
        (mkStorage (<[hash h (length (slots (cur sh))) := None]> (slots (cur sh)))
           (names (cur sh)) (alloc (cur sh))))
  | w_names sh nm :
      wstep sh (mkShared (arrays sh) (mkStorage (slots (cur sh)) nm (alloc (cur sh)))).

(** The array a reader that loaded the pointer in state [sh0] looks at in [sh]. *)
Definition loaded (sh0 sh : Shared) : Slots := default (slots (cur sh)) (arrays sh !! length (arrays sh0)).

Lemma wstep_arrays sh sh' :
  wstep sh sh' → arrays sh' = arrays sh ∨ arrays sh' = arrays sh ++ [slots (cur sh)].
Proof. destruct 1; cbn; auto. Qed.

Lemma rtc_arrays sh sh' : rtc wstep sh sh' → (length (arrays sh) ≤ length (arrays sh'))%nat.
Proof.
  induction 1 as [|x y z Hs _ IH]; [done|].
  destruct (wstep_arrays _ _ Hs) as [Heq|Heq]; rewrite Heq in IH; rewrite ?length_app in IH; lia.
Qed.

(** [grab] is linearizable although it takes no lock: whatever registrations,
    growths and retirements happen between the load of the array pointer (state
    [sh0]) and the read of the slot (state [sh1]), the context it returns is the
    one an atomic [grab] returns in some state in between. *)
Theorem grab_linearizable sh0 sh1 h :
  rtc wstep sh0 sh1 →
  ∃ shm, rtc wstep sh0 shm ∧ rtc wstep shm sh1
    ∧ grab h (cur shm) = read_slot (loaded sh0 sh1) h.
Proof.
  revert sh1. apply rtc_ind_r; [|intros sh1 sh2 Hr Hs (shm & Hm1 & Hm2 & Hg)].
  { exists sh0. split_and!; [done|done|]. unfold loaded. by rewrite lookup_ge_None_2. }
  pose proof (rtc_arrays _ _ Hr) as Hle. destruct (wstep_arrays _ _ Hs) as [Heq|Heq].
  - destruct (decide (length (arrays sh0) = length (arrays sh1))) as [Hl|Hl].
    + exists sh2. split_and!; [by apply rtc_r with sh1|done|].
      unfold loaded. by rewrite Heq, lookup_ge_None_2 by lia.
    + exists shm. split_and!; [done|by apply rtc_r with sh1|]. rewrite Hg. unfold loaded. rewrite Heq.
      destruct (lookup_lt_is_Some_2 (arrays sh1) (length (arrays sh0))) as [a ->]; [lia|done].
  - exists shm. split_and!; [done|by apply rtc_r with sh1|]. rewrite Hg. unfold loaded. rewrite Heq.
    destruct (decide (length (arrays sh0) = length (arrays sh1))) as [Hl|Hl].
    + rewrite Hl, lookup_ge_None_2 by done. by rewrite list_lookup_middle.
    + by rewrite lookup_app_l by lia;
        destruct (lookup_lt_is_Some_2 (arrays sh1) (length (arrays sh0))) as [a ->]; [lia|].
Qed.

End storage.

(** ** Concrete histories *)

Lemma storage_refines_registry_witness :
  ∃ s' a' r, step (@id Z) (Register id) new = Some (s', r)
    ∧ spec_step (mkSpec ∅ ∅ 1) (Register id) a' r ∧ refines (@id Z) s' a'.
Proof.
  apply (storage_refines_registry (@id Z) new (mkSpec ∅ ∅ 1) (Register id)).
  - split; [apply storage_new_inv| |done|done]. intros h. change (live _ !! h) with ((∅ : gmap Z Z) !! h). rewrite lookup_empty. unfold grab.
    destruct (read_slot id (slots new) h) as [c|] eqn:E; [|done].
    apply read_slot_Some in E as [E _]. apply (inv_place _ _ (storage_new_inv (@id Z))) in E as [_ E].
    cbn in E. unfold id in E. lia.
  - split; [vm_compute; split; discriminate|done].
Defined.

Lemma handles_never_reused_witness :
  ∃ s' hs, run (@id Z) (replicate 5 (Register id) ++ [Retire 2; Register id]) new = Some (s', hs)
    ∧ hs = [1; 2; 3; 4; 5; 6] ∧ StronglySorted Z.lt hs ∧ grab (@id Z) 2 s' = None.
Proof.
  eexists _, _. split; [vm_compute; reflexivity|]. split; [done|].
  split; [|vm_compute; reflexivity].
  eapply (handles_never_reused (@id Z) (replicate 5 (Register id) ++ [Retire 2; Register id]) new);
    [vm_compute; reflexivity|apply storage_new_inv|repeat constructor].
Defined.

Lemma grab_linearizable_witness :
  ∃ sh0 sh1 : Shared (Ctx := Z), rtc (wstep id) sh0 sh1 ∧ sh0 ≠ sh1
    ∧ ∃ shm, rtc (wstep id) sh0 shm ∧ rtc (wstep id) shm sh1
      ∧ grab id 1 (cur shm) = read_slot id (loaded sh0 sh1) 1.
Proof.
  set (sh0 := mkShared [] (new (Ctx := Z))).
  exists sh0, (mkShared [] (store_new (Ctx := Z) 1 1 2 new)).
  assert (Hr : rtc (wstep id) sh0 (mkShared [] (store_new (Ctx := Z) 1 1 2 new))).
  { apply rtc_once. by apply (w_store id sh0 id 1 2). }
  split; [exact Hr|]. split; [discriminate|].
  apply (grab_linearizable id sh0 _ 1 Hr).
Defined.

End Handle.
