(* ===== verification/Task.v ===== *)
(** * Tasks of a service

    Models [rskynet-core/src/task.rs]: the slab of tasks with generations
    ([TaskSet]), the wakers that put a task back into the service's ready queue
    ([TaskWaker], [TaskSignal]), and the borrow guard of [SvcCell].  A future is an
    opaque value of type [F].  The [AtomicBool] of a [TaskSignal] lives in the store
    [signals]; the signal an insertion allocates is named by the insertion's
    generation, which is what the slot and its wakers share through the [Arc]. *)
From S2P Require Import Prelude Interfaces.

Record TaskId : Type := mkTaskId { index : nat; generation : Z }.

#[global] Instance TaskId_eq_dec : EqDecision TaskId.
Proof. solve_decision. Defined.

Module Task.

Record TaskWaker : Type := mkWaker { wk_task : TaskId; wk_signal : Z }.

#[global] Instance TaskWaker_eq_dec : EqDecision TaskWaker.
Proof. solve_decision. Defined.

Section tasks.
Context {S : Type → Type} `{SlabLaws S} {F : Type}.

Record TaskSlot : Type := mkSlot {
  future : option F;
  waker : TaskWaker;
  signal : Z;
  slot_generation : Z;
  request : option (Z * Z);
  source : Z;
}.

Record TaskSet : Type := mkTaskSet {
  slots : S TaskSlot;
  next_generation : Z;
  count : nat;
  signals : gmap Z bool;
}.

Definition new : TaskSet := mkTaskSet slab_new 0 0 ∅.

Definition insert (f : F) (req : option (Z * Z)) (src : Z) (t : TaskSet) : TaskSet * TaskId :=
  let g := next_generation t + 1 in
  let task := mkTaskId (slab_vacant (slots t)) g in
  let sl := slab_put (index task) (mkSlot (Some f) (mkWaker task g) g g req src) (slots t) in
  (mkTaskSet sl (next_generation t +w 1) (slab_len sl) (<[g := true]> (signals t)), task).

Definition set_future (o : option F) (sl : TaskSlot) : TaskSlot :=
  mkSlot o (waker sl) (signal sl) (slot_generation sl) (request sl) (source sl).

Definition take (task : TaskId) (t : TaskSet) : TaskSet * option (F * TaskWaker * Z) :=
  match slab_get (index task) (slots t) with
  | None => (t, None)
  | Some sl =>
      if decide (slot_generation sl ≠ generation task) then (t, None) else
      match future sl with
      | None => (t, None)
      | Some f =>
          (mkTaskSet (slab_put (index task) (set_future None sl) (slots t)) (next_generation t) (count t)
             (<[signal sl := false]> (signals t)),
           Some (f, waker sl, source sl))
      end
  end.

Definition restore (task : TaskId) (f : F) (t : TaskSet) : TaskSet :=
  match slab_get (index task) (slots t) with
  | None => t
  | Some sl =>
      if decide (slot_generation sl ≠ generation task) then t else
      mkTaskSet (slab_put (index task) (set_future (Some f) sl) (slots t)) (next_generation t)
        (count t) (signals t)
  end.

Definition remove (task : TaskId) (t : TaskSet) : TaskSet :=
  match slab_get (index task) (slots t) with
  | None => t
  | Some sl =>
      if decide (slot_generation sl = generation task) then
        let s' := slab_remove (index task) (slots t) in
        mkTaskSet s' (next_generation t) (slab_len s') (signals t)
      else t
  end.

Definition len (t : TaskSet) : nat := count t.

Definition take_requests (t : TaskSet) : TaskSet * list (Z * Z) :=
  (mkTaskSet
     (slab_update (λ sl, mkSlot (future sl) (waker sl) (signal sl) (slot_generation sl) None (source sl))
        (slots t))
     (next_generation t) (count t) (signals t),
   omap (λ kv, request kv.2) (slab_iter (slots t))).

Definition drain (t : TaskSet) : TaskSet * list F :=
  (mkTaskSet slab_new (next_generation t) 0 (signals t),
   omap (λ kv, future kv.2) (slab_iter (slots t))).

(** [wake_by_ref] up to the push: the compare-and-swap on the signal, and the
    ready entry the winner goes on to push. *)
Definition wake_by_ref (w : TaskWaker) (t : TaskSet) : TaskSet * option TaskId :=
  match signals t !! wk_signal w with
  | Some false =>
      (mkTaskSet (slots t) (next_generation t) (count t) (<[wk_signal w := true]> (signals t)),
       Some (wk_task w))
  | _ => (t, None)
  end.

(** ** The task machine of one service

    [inflight] holds the entries of wakers that won the compare-and-swap and have
    not reached the mailbox yet, [ready] the mailbox's ready queue, [polling] the
    task whose future the holder has moved out; [wakers] are the wakers handed
    out so far, which any thread may keep and use at any time. *)
Record Sys : Type := mkSys {
  tasks : TaskSet;
  inflight : list TaskId;
  ready : list TaskId;
  polling : option TaskId;
  wakers : list TaskWaker;
}.

Inductive Event : Type :=
  | EInsert (f : F) (req : option (Z * Z)) (src : Z)  (** [install_task] *)
  | EWake (w : TaskWaker)                             (** some thread calls [wake_by_ref] *)
  | EPush (i : nat)                                   (** a winning waker reaches [push_ready] *)
  | ETake                                             (** the holder pops a ready entry: [poll_task] *)
  | EFinish                                           (** the poll returned [Ready] *)
  | EPending (f : F)                                  (** the poll returned [Pending] *)
  | EDrain.                                           (** [cleanup]: tasks, then the ready queue *)

Definition step (e : Event) (s : Sys) : option Sys :=
  match e with
  | EInsert f req src =>
      let '(t, task) := insert f req src (tasks s) in
      Some (mkSys t (inflight s) (ready s ++ [task]) (polling s)
              (wakers s ++ [mkWaker task (generation task)]))
  | EWake w =>
      if decide (w ∈ wakers s) then
        let '(t, o) := wake_by_ref w (tasks s) in
        Some (mkSys t (inflight s ++ match o with Some k => [k] | None => [] end) (ready s)
                (polling s) (wakers s))
      else None
  | EPush i =>
      k ← inflight s !! i;
      Some (mkSys (tasks s) (delete i (inflight s)) (ready s ++ [k]) (polling s) (wakers s))
  | ETake =>
      match polling s, ready s with
      | None, k :: ready =>
          let '(t, o) := take k (tasks s) in
          Some (mkSys t (inflight s) ready (match o with Some _ => Some k | None => None end) (wakers s))
      | _, _ => None
      end
  | EFinish =>
      k ← polling s;
      Some (mkSys (remove k (tasks s)) (inflight s) (ready s) None (wakers s))
  | EPending f =>
      k ← polling s;
      Some (mkSys (restore k f (tasks s)) (inflight s) (ready s) None (wakers s))
  | EDrain =>
      match polling s with
      | Some _ => None
      | None => Some (mkSys (drain (tasks s)).1 (inflight s) [] None (wakers s))
      end
  end.

Definition init : Sys := mkSys new [] [] None [].

Definition entries (s : Sys) : list TaskId := inflight s ++ ready s.

(** Task [k] is alive: its slot carries its generation. *)
Definition alive (k : TaskId) (s : Sys) : Prop :=
  ∃ sl, slab_get (index k) (slots (tasks s)) = Some sl ∧ slot_generation sl = generation k.

#[global] Instance alive_dec k s : Decision (alive k s).
Proof.
  unfold alive. destruct (slab_get (index k) (slots (tasks s))) as [sl|]; [|right; naive_solver].
  destruct (decide (slot_generation sl = generation k)); [left; eauto|right; naive_solver].
Defined.

Record inv (s : Sys) : Prop := {
  inv_slot : ∀ i sl, slab_get i (slots (tasks s)) = Some sl →
    waker sl = mkWaker (mkTaskId i (slot_generation sl)) (slot_generation sl)
    ∧ signal sl = slot_generation sl ∧ waker sl ∈ wakers s
    ∧ (future sl = None ↔ polling s = Some (mkTaskId i (slot_generation sl)));
  inv_waker : ∀ w, w ∈ wakers s →
    wk_signal w = generation (wk_task w) ∧ 1 ≤ generation (wk_task w) ≤ next_generation (tasks s)
    ∧ is_Some (signals (tasks s) !! wk_signal w);
  inv_waker_uniq : ∀ w w', w ∈ wakers s → w' ∈ wakers s → wk_signal w = wk_signal w' → w = w';
  inv_entry : ∀ k, k ∈ entries s →
    mkWaker k (generation k) ∈ wakers s ∧ signals (tasks s) !! generation k = Some true;
  inv_nodup : NoDup (entries s);
  inv_live : ∀ k, alive k s → signals (tasks s) !! generation k = Some true → k ∈ entries s;
  inv_polling : ∀ k, polling s = Some k → alive k s;
  inv_count : count (tasks s) = slab_len (slots (tasks s));
  inv_gen : 0 ≤ next_generation (tasks s);
}.

Lemma sys_init_inv : inv init.
Proof.
  split; cbn; try done; try (intros ? Hw; by apply elem_of_nil in Hw).
  - intros i sl Hg. by rewrite slab_get_new in Hg.
  - intros w w' Hw. by apply elem_of_nil in Hw.
  - constructor.
  - rewrite slab_len_iter. destruct (slab_iter slab_new) as [|[k a] l] eqn:E; [done|].
    assert (slab_get k slab_new = Some a) as Hg by (apply slab_iter_get; rewrite E; left).
    by rewrite slab_get_new in Hg.
Qed.

(** Two live tasks with one generation are the same task. *)
Lemma gen_uniq s k sl k' sl' :
  inv s → slab_get k (slots (tasks s)) = Some sl → slab_get k' (slots (tasks s)) = Some sl' →
  slot_generation sl = slot_generation sl' → k = k'.
Proof.
  intros Hi Hk Hk' Hg. destruct (inv_slot _ Hi _ _ Hk) as (Hw & _ & Hin & _).
  destruct (inv_slot _ Hi _ _ Hk') as (Hw' & _ & Hin' & _).
  pose proof (inv_waker_uniq _ Hi _ _ Hin Hin') as Heq. rewrite Hw, Hw' in Heq. cbn in Heq.
  specialize (Heq Hg). congruence.
Qed.

Lemma slot_gen_bound s i sl :
  inv s → slab_get i (slots (tasks s)) = Some sl → slot_generation sl ≤ next_generation (tasks s).
Proof.
  intros Hi Hg. destruct (inv_slot _ Hi _ _ Hg) as (Hw & _ & Hin & _).
  apply (inv_waker _ Hi) in Hin. rewrite Hw in Hin. cbn in Hin. lia.
Qed.

Lemma polling_slot s k :
  inv s → polling s = Some k →
  ∃ sl, slab_get (index k) (slots (tasks s)) = Some sl ∧ slot_generation sl = generation k
    ∧ future sl = None.
Proof.
  intros Hi Hp. destruct (inv_polling _ Hi k Hp) as (sl & Hg & Hgen). exists sl. split_and!; [done..|].
  apply (inv_slot _ Hi _ _ Hg). rewrite Hgen, Hp. by destruct k.
Qed.

Lemma slab_len_put (m : S TaskSlot) k a :
  is_Some (slab_get k m) → slab_len (slab_put k a m) = slab_len m.
Proof.
  intros Hk. rewrite !slab_len_iter, <-!(length_fmap fst). apply Permutation_length, NoDup_Permutation;
    [apply slab_iter_nodup..|].
  intros i. rewrite !list_elem_of_fmap. split; intros ([i' b] & -> & Hb%slab_iter_get); cbn.
  - rewrite slab_get_put in Hb by auto. case_decide; subst.
    + destruct Hk as [c Hc]. exists (k, c). by rewrite slab_iter_get.
    + exists (i', b). by rewrite slab_iter_get.
  - destruct (decide (i' = k)) as [->|]; eexists (_, _); (split; [reflexivity|]); apply slab_iter_get;
      rewrite slab_get_put by auto; [by rewrite decide_True|by rewrite decide_False].
Qed.

Lemma insert_inv f req src s :
  inv s → next_generation (tasks s) + 1 < 2 ^ 64 → ∀ s', step (EInsert f req src) s = Some s' → inv s'.
Proof.
  intros Hi Hmax s' [= <-]. set (g := next_generation (tasks s) + 1). set (i := slab_vacant _).
  pose proof (inv_gen _ Hi) as Hg0.
  assert (Hput : ∀ sl i', slab_get i' (slab_put i sl (slots (tasks s)))
            = if decide (i' = i) then Some sl else slab_get i' (slots (tasks s))).
  { intros. apply slab_get_put. by left. }
  assert (Hw : wrapping_add (next_generation (tasks s)) 1 = g) by (apply wrapping_add_small; lia).
  assert (Hold : ∀ w, w ∈ wakers s → generation (wk_task w) < g ∧ wk_signal w < g).
  { intros w [-> ?]%(inv_waker _ Hi). subst g. lia. }
  assert (Hent : ∀ k, k ∈ entries s → generation k < g).
  { intros k [Hk _]%(inv_entry _ Hi). by apply Hold in Hk as [? _]. }
  split; cbn; rewrite ?Hw.
  - intros i' sl. rewrite Hput. case_decide as Hd; intros Hg.
    + injection Hg as <-. subst i'. cbn. split_and!; [done|done|apply elem_of_app; right; left|].
      split; [done|]. intros Hp. exfalso.
      destruct (polling_slot s _ Hi Hp) as (sl & Hsl & Hgen & _). cbn in *.
      pose proof (slot_gen_bound _ _ _ Hi Hsl). lia.
    + destruct (inv_slot _ Hi _ _ Hg) as (? & ? & ? & ?). split_and!; try done. apply elem_of_app. by left.
  - intros w [Hw'|Hw']%elem_of_app.
    + destruct (Hold w Hw'). destruct (inv_waker _ Hi w Hw') as (? & ? & ?).
      split_and!; [done|lia|lia|]. rewrite lookup_insert_ne by lia. done.
    + apply list_elem_of_singleton in Hw' as ->. cbn. rewrite lookup_insert_eq. split_and!; [done|lia|lia|done].
  - intros w w' [Hw1|Hw1]%elem_of_app [Hw2|Hw2]%elem_of_app;
      try (apply list_elem_of_singleton in Hw1 as ->); try (apply list_elem_of_singleton in Hw2 as ->);
      cbn; [by apply (inv_waker_uniq _ Hi)| | |done].
    + apply Hold in Hw1. lia.
    + apply Hold in Hw2. lia.
  - intros k. unfold entries. cbn. rewrite app_assoc, elem_of_app. intros [Hk|Hk].
    + apply Hent in Hk as Hlt. destruct (inv_entry _ Hi k Hk). rewrite lookup_insert_ne by lia.
      split; [|done]. apply elem_of_app. by left.
    + apply list_elem_of_singleton in Hk as ->. cbn. rewrite lookup_insert_eq.
      split; [|done]. apply elem_of_app. right. left.
  - unfold entries. cbn. rewrite app_assoc. apply NoDup_app. split_and!; [apply Hi| |apply NoDup_singleton].
    intros k Hk%Hent ->%list_elem_of_singleton. cbn in Hk. lia.
  - intros k (sl & Hg & Hgen). cbn in Hg. rewrite Hput in Hg. unfold entries. cbn. rewrite app_assoc.
    case_decide as Hd; intros Hs; apply elem_of_app.
    + right. injection Hg as <-. cbn in Hgen. apply list_elem_of_singleton. destruct k; cbn in *. congruence.
    + left. apply (inv_live _ Hi); [by exists sl|]. pose proof (slot_gen_bound _ _ _ Hi Hg).
      rewrite lookup_insert_ne in Hs by lia. done.
  - intros k (sl & Hg & Hgen & _)%(polling_slot _ _ Hi). exists sl. cbn. rewrite Hput.
    rewrite decide_False; [done|]. intros Heq. rewrite Heq in Hg. unfold i in Hg.
    by rewrite slab_get_vacant in Hg.
  - done.
  - lia.
Qed.

Lemma task_wake_inv w s s' : inv s → step (EWake w) s = Some s' → inv s'.
Proof.
  intros Hi Hs. cbn in Hs. case_decide as Hw; [|done]. unfold wake_by_ref in Hs.
  destruct (inv_waker _ Hi w Hw) as (Hsig & Hrange & Hsome).
  destruct (signals (tasks s) !! wk_signal w) as [[]|] eqn:Hq; simplify_eq/=.
  1, 3: rewrite app_nil_r; destruct s, Hi; by split.
  assert (Hnin : wk_task w ∉ entries s).
  { intros [_ Hk]%(inv_entry _ Hi). congruence. }
  assert (Hent : ∀ k, k ∈ (inflight s ++ [wk_task w]) ++ ready s ↔ k = wk_task w ∨ k ∈ entries s).
  { intros k. unfold entries. rewrite !elem_of_app, list_elem_of_singleton. tauto. }
  split; cbn; try apply Hi; unfold entries; cbn.
  - intros w' Hw'. destruct (inv_waker _ Hi w' Hw') as (? & ? & ?). split_and!; [done|lia|lia|].
    apply lookup_insert_is_Some'. by right.
  - intros k. rewrite Hent. intros [->|Hk].
    + rewrite <-Hsig, lookup_insert_eq. split; [|done]. destruct w. cbn in *. by subst.
    + destruct (inv_entry _ Hi k Hk) as [? Ht]. split; [done|]. apply lookup_insert_Some.
      right. split; [congruence|done].
  - rewrite <-app_assoc. cbn. rewrite <-Permutation_middle. constructor; [done|apply Hi].
  - intros k Hal Ht. rewrite Hent. destruct Hal as (sl & Hg & Hgen).
    destruct (inv_slot _ Hi _ _ Hg) as (Hwk & _ & Hin & _).
    apply lookup_insert_Some in Ht as [[Heq _]|[_ Ht]].
    + left. rewrite <-Hgen in Heq. pose proof (inv_waker_uniq _ Hi _ _ Hw Hin) as Hu.
      rewrite Hwk in Hu. cbn in Hu. rewrite Hu by done. cbn. rewrite Hgen. by destruct k.
    + right. apply (inv_live _ Hi); [by exists sl|done].
Qed.

Lemma entries_perm_inv s fl rd :
  inv s → fl ++ rd ≡ₚ entries s → inv (mkSys (tasks s) fl rd (polling s) (wakers s)).
Proof.
  intros Hi Hp. split; cbn; try apply Hi; unfold entries; cbn.
  - intros k. rewrite Hp. apply (inv_entry _ Hi).
  - rewrite Hp. apply Hi.
  - intros k. rewrite Hp. apply (inv_live _ Hi).
Qed.

Lemma ready_push_inv i s s' : inv s → step (EPush i) s = Some s' → inv s'.
Proof.
  intros Hi Hs. cbn in Hs. destruct (inflight s !! i) as [k|] eqn:Hk; simplify_eq/=.
  apply entries_perm_inv; [done|]. unfold entries.
  rewrite (Permutation_app_comm (ready s)), app_assoc, <-(Permutation_app_comm (ready s)).
  rewrite (delete_Permutation _ _ _ Hk) at 2. rewrite (Permutation_app_comm _ (ready s)).
  f_equiv. by rewrite <-Permutation_cons_append.
Qed.

(** Popping the entry of a live task yields its future, of a dead one nothing. *)
Lemma take_spec s k rest :
  inv s → polling s = None → ready s = k :: rest →
  (¬ alive k s → take k (tasks s) = (tasks s, None)) ∧
  (alive k s → ∃ sl f, slab_get (index k) (slots (tasks s)) = Some sl ∧ slot_generation sl = generation k
     ∧ take k (tasks s) =
       (mkTaskSet (slab_put (index k) (set_future None sl) (slots (tasks s)))
          (next_generation (tasks s)) (count (tasks s)) (<[generation k := false]> (signals (tasks s))),
        Some (f, mkWaker k (generation k), source sl))).
Proof.
  intros Hi Hp Hr. unfold take. split.
  - intros Hd. destruct (slab_get _ _) as [sl|] eqn:Hg; [|done]. rewrite decide_True; [done|].
    intros Heq. apply Hd. by exists sl.
  - intros (sl & Hg & Hgen). destruct (inv_slot _ Hi _ _ Hg) as (Hw & Hsg & _ & Hf).
    rewrite Hg, decide_False by auto. destruct (future sl) as [f|] eqn:Ef.
    + exists sl, f. split_and!; [done|done|]. rewrite Hsg, Hw, Hgen. by destruct k.
    + destruct Hf as [Hf _]. specialize (Hf eq_refl). congruence.
Qed.

Lemma take_inv s s' : inv s → step ETake s = Some s' → inv s'.
Proof.
  intros Hi Hs. cbn in Hs. destruct (polling s) as [?|] eqn:Hp; [done|].
  destruct (ready s) as [|k rest] eqn:Hr; [done|].
  destruct (take_spec s k rest Hi Hp Hr) as [Hdead Hlive].
  assert (Hperm : entries s ≡ₚ k :: inflight s ++ rest).
  { unfold entries. rewrite Hr. by rewrite Permutation_middle. }
  pose proof (inv_nodup _ Hi) as Hnd. rewrite Hperm in Hnd. apply NoDup_cons in Hnd as [Hnin Hnd].
  assert (Hsub : ∀ k', k' ∈ inflight s ++ rest → k' ∈ entries s ∧ generation k' ≠ generation k).
  { intros k' Hk'. assert (Hin : k' ∈ entries s) by (rewrite Hperm; by right). split; [done|].
    intros Heq. apply Hnin. assert (k' = k) as <-; [|done].
    destruct (inv_entry _ Hi k' Hin) as [H1 _], (inv_entry _ Hi k ltac:(rewrite Hperm; left)) as [H2 _].
    pose proof (inv_waker_uniq _ Hi _ _ H1 H2) as Hu. cbn in Hu. specialize (Hu Heq). congruence. }
  destruct (decide (alive k s)) as [Hal|Hal].
  - destruct (Hlive Hal) as (sl & f & Hg & Hgen & Ht). rewrite Ht in Hs. simplify_eq/=.
    assert (Hput := λ a i', slab_get_put (slots (tasks s)) (index k) a i' (or_intror (mk_is_Some _ _ Hg))).
    split; cbn; try apply Hi; unfold entries; cbn.
    + intros i' sl'. rewrite Hput. case_decide as Hd; intros Hg'.
      * injection Hg' as <-. subst i'. cbn. destruct (inv_slot _ Hi _ _ Hg) as (? & ? & ? & _).
        split_and!; [done..|]. split; [|done]. rewrite Hgen. by destruct k.
      * destruct (inv_slot _ Hi _ _ Hg') as (? & ? & ? & Hf). split_and!; [done..|].
        rewrite Hf, Hp. split; [done|]. intros [= ->]. cbn in Hd. done.
    + intros w Hw. destruct (inv_waker _ Hi w Hw) as (? & ? & ?). split_and!; [done|lia|lia|].
      apply lookup_insert_is_Some'. by right.
    + intros k' [Hin Hne]%Hsub. rewrite lookup_insert_ne by done. by apply (inv_entry _ Hi).
    + done.
    + intros k' (sl' & Hg' & Hgen') Hsig. cbn in Hg'. rewrite Hput in Hg'.
      apply lookup_insert_Some in Hsig as [[_ ?]|[Hne Hsig]]; [done|]. case_decide as Hd.
      * injection Hg' as <-. cbn in Hgen'. congruence.
      * assert (Hin : k' ∈ entries s) by (apply (inv_live _ Hi); [by exists sl'|done]).
        rewrite Hperm in Hin. apply elem_of_cons in Hin as [->|]; [done|done].
    + intros k' [= <-]. exists (set_future None sl). cbn. rewrite Hput, decide_True by done. done.
    + rewrite slab_len_put by done. apply Hi.
  - rewrite Hdead in Hs by done. simplify_eq/=. split; cbn; rewrite <-?Hp; try apply Hi; unfold entries; cbn.
    + intros k' [Hin _]%Hsub. by apply (inv_entry _ Hi).
    + done.
    + intros k' Hal' Hsig. assert (Hin : k' ∈ entries s) by by apply (inv_live _ Hi).
      rewrite Hperm in Hin. apply elem_of_cons in Hin as [->|]; [|done]. by destruct Hal.
Qed.

Lemma finish_inv s s' : inv s → step EFinish s = Some s' → inv s'.
Proof.
  intros Hi Hs. cbn in Hs. destruct (polling s) as [k|] eqn:Hp; simplify_eq/=.
  destruct (polling_slot s k Hi Hp) as (sl & Hg & Hgen & Hf). unfold remove. rewrite Hg, decide_True by done.
  assert (Hal : ∀ k', (∃ sl', slab_get (index k') (slab_remove (index k) (slots (tasks s))) = Some sl'
                  ∧ slot_generation sl' = generation k') → alive k' s).
  { intros k' (sl' & Hg' & ?). rewrite slab_get_remove in Hg'. case_decide; [done|]. by exists sl'. }
  split; cbn; try apply Hi; try done.
  - intros i' sl'. rewrite slab_get_remove. case_decide as Hd; [done|]. intros Hg'.
    destruct (inv_slot _ Hi _ _ Hg') as (? & ? & ? & Hf'). split_and!; [done..|]. rewrite Hf', Hp.
    split; [|done]. intros [= ->]. cbn in Hd. done.
  - intros k' Hk'. apply (inv_live _ Hi). by apply Hal.
Qed.

Lemma pending_inv f s s' : inv s → step (EPending f) s = Some s' → inv s'.
Proof.
  intros Hi Hs. cbn in Hs. destruct (polling s) as [k|] eqn:Hp; simplify_eq/=.
  destruct (polling_slot s k Hi Hp) as (sl & Hg & Hgen & Hf). unfold restore. rewrite Hg, decide_False by auto.
  assert (Hput := λ a i', slab_get_put (slots (tasks s)) (index k) a i' (or_intror (mk_is_Some _ _ Hg))).
  split; cbn; try apply Hi; try done.
  - intros i' sl'. rewrite Hput. case_decide as Hd; intros Hg'.
    + injection Hg' as <-. subst i'. cbn. destruct (inv_slot _ Hi _ _ Hg) as (? & ? & ? & _).
      by split_and!.
    + destruct (inv_slot _ Hi _ _ Hg') as (? & ? & ? & Hf'). split_and!; [done..|]. rewrite Hf', Hp.
      split; [|done]. intros [= ->]. cbn in Hd. done.
  - intros k' (sl' & Hg' & Hgen'). apply (inv_live _ Hi). cbn in Hg'. rewrite Hput in Hg'.
    case_decide as Hd; [|by exists sl']. exists sl. injection Hg' as <-. cbn in Hgen'.
    by rewrite Hd.
  - rewrite slab_len_put by done. apply Hi.
Qed.

Lemma slab_len_new : slab_len (A := TaskSlot) slab_new = 0%nat.
Proof.
  rewrite slab_len_iter. destruct (slab_iter slab_new) as [|[k a] l] eqn:E; [done|].
  assert (slab_get k slab_new = Some a) as Hg by (apply slab_iter_get; rewrite E; left).
  by rewrite slab_get_new in Hg.
Qed.

Lemma drain_inv s s' : inv s → step EDrain s = Some s' → inv s'.
Proof.
  intros Hi Hs. cbn in Hs. destruct (polling s) as [k|] eqn:Hp; simplify_eq/=.
  assert (Hsub : ∀ k, k ∈ inflight s ++ [] → k ∈ entries s).
  { intros k. rewrite app_nil_r. unfold entries. rewrite elem_of_app. by left. }
  split; cbn; try apply Hi; try done.
  - intros i sl Hg. by rewrite slab_get_new in Hg.
  - intros k Hk%Hsub. by apply (inv_entry _ Hi).
  - unfold entries. cbn. rewrite app_nil_r. pose proof (inv_nodup _ Hi) as Hnd.
    by apply NoDup_app in Hnd as [? _].
  - intros k (sl & Hg & _). cbn in Hg. by rewrite slab_get_new in Hg.
  - by rewrite slab_len_new.
Qed.

(** Generations are not exhausted: 2^64 tasks per service. *)
Definition event_ok (e : Event) (s : Sys) : Prop :=
  match e with EInsert _ _ _ => next_generation (tasks s) + 1 < 2 ^ 64 | _ => True end.

Lemma task_step_inv e s s' : inv s → event_ok e s → step e s = Some s' → inv s'.
Proof.
  intros Hi Hok. destruct e; [by apply insert_inv|by apply task_wake_inv|by apply ready_push_inv|by apply take_inv
    |by apply finish_inv|by apply pending_inv|by apply drain_inv].
Qed.

(** Runs: the events, and the tasks that were polled on the way. *)
Inductive steps : Sys → list Event → list TaskId → Sys → Prop :=
  | steps_nil s : steps s [] [] s
  | steps_cons e s s1 es ks s2 :
      step e s = Some s1 → event_ok e s → steps s1 es ks s2 →
      steps s (e :: es) (match e, polling s1 with ETake, Some k => k :: ks | _, _ => ks end) s2.

Lemma steps_inv s es ks s' : steps s es ks s' → inv s → inv s'.
Proof. induction 1 as [|e s s1 es ks s2 He Hok _ IH]; intros Hi; [done|]. eauto using task_step_inv. Qed.

(** Whatever threads do with the wakers of a service and however its tasks come
    and go, the ready queue (with the wake-ups still on their way to it) holds at
    most one entry per task, every entry belongs to a waker that was handed out,
    the signal of a task is set exactly while its entry is pending, and [len] is
    the number of tasks. *)
Theorem ready_entries_unique es ks s :
  steps init es ks s →
  NoDup (entries s)
  ∧ (∀ k, k ∈ entries s → mkWaker k (generation k) ∈ wakers s)
  ∧ (∀ k, alive k s → (signals (tasks s) !! generation k = Some true ↔ k ∈ entries s))
  ∧ len (tasks s) = slab_len (slots (tasks s)).
Proof.
  intros Hs. pose proof (steps_inv _ _ _ _ Hs sys_init_inv) as Hi. split_and!; [apply Hi| | |apply Hi].
  - intros k Hk. by apply (inv_entry _ Hi).
  - intros k Hk. split; [by apply (inv_live _ Hi)|]. intros Hin. by apply (inv_entry _ Hi).
Qed.

(** ** No wake-up is lost *)

(** An entry of a live task stays pending until the task is polled, is done or the
    service is torn down. *)
Lemma entry_persists e s s' k :
  inv s → event_ok e s → step e s = Some s' → alive k s → k ∈ entries s → e ≠ EDrain →
  (e = ETake ∧ polling s' = Some k) ∨ ¬ alive k s' ∨ (alive k s' ∧ k ∈ entries s').
Proof.
  intros Hi Hok Hs Hal Hin Hd. assert (Hi' := task_step_inv _ _ _ Hi Hok Hs).
  destruct (decide (alive k s')) as [Hal'|]; [|auto].
  destruct (decide (k ∈ entries s')) as [|Hnin]; [auto|]. left.
  unfold entries in *. destruct e as [f req src|w|i| | |f|]; cbn in Hs.
  - injection Hs as <-. exfalso. apply Hnin. cbn. rewrite app_assoc. apply elem_of_app. by left.
  - case_decide; [|done]. destruct (wake_by_ref w (tasks s)) as [t o]. injection Hs as <-.
    exfalso. apply Hnin. cbn. rewrite !elem_of_app in *. tauto.
  - destruct (inflight s !! i) as [k'|] eqn:Hk; simplify_eq/=. exfalso. apply Hnin.
    rewrite (delete_Permutation _ _ _ Hk) in Hin. rewrite !elem_of_app, ?elem_of_cons, ?elem_of_nil in *. tauto.
  - destruct (polling s) as [?|] eqn:Hp; [done|]. destruct (ready s) as [|k' rest] eqn:Hr; [done|].
    destruct (take_spec s k' rest Hi Hp Hr) as [_ Hlive].
    assert (k = k') as <-.
    { destruct (take k' (tasks s)) as [t o]. injection Hs as <-. cbn in Hnin.
      rewrite !elem_of_app, ?elem_of_cons in *. tauto. }
    destruct (Hlive Hal) as (sl & f & _ & _ & Ht). rewrite Ht in Hs. by injection Hs as <-.
  - by destruct (polling s) as [?|]; simplify_eq/=.
  - by destruct (polling s) as [?|]; simplify_eq/=.
  - done.
Qed.

Lemma task_gen_mono e s s' :
  inv s → event_ok e s → step e s = Some s' → next_generation (tasks s) ≤ next_generation (tasks s').
Proof.
  intros Hi Hok Hs. pose proof (inv_gen _ Hi). destruct e as [f req src|w|i| | |f|]; cbn in Hs, Hok.
  - injection Hs as <-. cbn. rewrite wrapping_add_small; lia.
  - unfold wake_by_ref in Hs. by repeat (case_match; simplify_eq/=).
  - by destruct (inflight s !! i); simplify_eq/=.
  - unfold take in Hs. by repeat (case_match; simplify_eq/=).
  - destruct (polling s); simplify_eq/=. unfold remove. by repeat (case_match; simplify_eq/=).
  - destruct (polling s); simplify_eq/=. unfold restore. by repeat (case_match; simplify_eq/=).
  - by destruct (polling s); simplify_eq/=.
Qed.

(** A task that is gone never comes back: its generation is not given out again,
    although its slot may be. *)
Lemma dead_stays e s s' k :
  inv s → event_ok e s → step e s = Some s' →
  generation k ≤ next_generation (tasks s) → ¬ alive k s →
  generation k ≤ next_generation (tasks s') ∧ ¬ alive k s'.
Proof.
  intros Hi Hok Hs Hle Hd. pose proof (inv_gen _ Hi). unfold alive in *.
  assert (Hsame : ∀ t, next_generation t = next_generation (tasks s) →
    (∀ i sl, slab_get i (slots t) = Some sl → ∃ sl', slab_get i (slots (tasks s)) = Some sl'
       ∧ slot_generation sl' = slot_generation sl) →
    generation k ≤ next_generation t ∧ ¬ ∃ sl, slab_get (index k) (slots t) = Some sl ∧ slot_generation sl = generation k).
  { intros t Ht Hsub. split; [lia|]. intros (sl & (sl' & ? & ?)%Hsub & ?). apply Hd. exists sl'.
    split; [done|congruence]. }
  destruct e as [f req src|w|i| | |f|]; cbn in Hs.
  - injection Hs as <-. cbn. cbn in Hok. rewrite wrapping_add_small by lia. split; [lia|].
    intros (sl & Hg & Hgen). rewrite slab_get_put in Hg by auto. case_decide.
    + injection Hg as <-. cbn in Hgen. lia.
    + apply Hd. by exists sl.
  - case_decide; [|done]. unfold wake_by_ref in Hs.
    destruct (signals (tasks s) !! wk_signal w) as [[]|]; simplify_eq/=; done.
  - destruct (inflight s !! i); simplify_eq/=. done.
  - destruct (polling s); [done|]. destruct (ready s) as [|k' rest]; [done|].
    destruct (take k' (tasks s)) as [t o] eqn:Ht. injection Hs as <-. unfold take in Ht.
    apply (Hsame t); repeat (case_match; simplify_eq/=); eauto. intros i sl Hg.
    rewrite slab_get_put in Hg by (right; by eexists). case_decide; simplify_eq; eauto.
  - destruct (polling s) as [k'|]; simplify_eq/=. apply (Hsame (remove k' (tasks s))); unfold remove;
      repeat (case_match; simplify_eq/=); eauto.
    intros i sl Hg. rewrite slab_get_remove in Hg. case_decide; simplify_eq; eauto.
  - destruct (polling s) as [k'|]; simplify_eq/=. apply (Hsame (restore k' f (tasks s))); unfold restore;
      repeat (case_match; simplify_eq/=); eauto.
    intros i sl Hg. rewrite slab_get_put in Hg by (right; by eexists). case_decide; simplify_eq; eauto.
  - destruct (polling s); simplify_eq/=. apply (Hsame (drain (tasks s)).1); [done|]. cbn. intros i sl Hg.
    by rewrite slab_get_new in Hg.
Qed.

Lemma dead_stays_steps s es ks s' k :
  steps s es ks s' → inv s → generation k ≤ next_generation (tasks s) → ¬ alive k s →
  ¬ alive k s' ∧ (k ∉ ks).
Proof.
  induction 1 as [s|e s s1 es ks s2 He Hok _ IH]; intros Hi Hle Hd; [split; [done|apply not_elem_of_nil]|].
  destruct (dead_stays e s s1 k Hi Hok He Hle Hd) as [Hle1 Hd1].
  assert (Hi1 := task_step_inv _ _ _ Hi Hok He). destruct (IH Hi1 Hle1 Hd1) as [? Hnin]. split; [done|].
  destruct e; try done. destruct (polling s1) as [k'|] eqn:Hp; [|done].
  intros [->|]%elem_of_cons; [|done]. by apply Hd1, (inv_polling _ Hi1).
Qed.

(** No wake-up is lost, for any interleaving of wakers and the holder: after
    [wake_by_ref] on a live task, and then any run of the service without
    teardown, the task has been polled since the wake-up, or its entry is still
    pending in the ready queue (or on its way there), or the task has completed. *)
Theorem wake_leads_to_poll s w s1 es ks s2 :
  inv s → alive (wk_task w) s → step (EWake w) s = Some s1 → steps s1 es ks s2 → EDrain ∉ es →
  wk_task w ∈ ks ∨ ¬ alive (wk_task w) s2 ∨ wk_task w ∈ entries s2.
Proof.
  intros Hi Hal Hw Hrun. assert (Hi1 := task_step_inv (EWake w) _ _ Hi I Hw).
  assert (Halive : alive (wk_task w) s1 ∧ signals (tasks s1) !! generation (wk_task w) = Some true).
  { cbn in Hw. case_decide as Hin; [|done]. destruct (inv_waker _ Hi w Hin) as (Hsig & _ & [b Hb]).
    unfold wake_by_ref in Hw. rewrite Hb in Hw. rewrite Hsig in Hb.
    destruct b; injection Hw as <-; (split; [exact Hal|]); cbn; [done|].
    by rewrite <-Hsig, lookup_insert_eq. }
  destruct Halive as [Hal1 Hset]. assert (Hin : wk_task w ∈ entries s1) by by apply (inv_live _ Hi1).
  clear s Hi Hal Hw Hset. revert Hal1 Hin Hi1. induction Hrun as [s|e s s1 es ks s2 He Hok Hrun IH];
    intros Hal Hin Hi; [auto|]. intros [Hd Hes]%not_elem_of_cons.
  assert (Hi1 := task_step_inv _ _ _ Hi Hok He).
  destruct (entry_persists e s s1 (wk_task w) Hi Hok He Hal Hin) as [[-> Hp]|[Hdead|[Hal1 Hin1]]]; [done| | |].
  - left. rewrite Hp. left.
  - right. left. eapply dead_stays_steps; [exact Hrun|done| |done].
    assert (generation (wk_task w) ≤ next_generation (tasks s)) as Hle.
    { destruct Hal as (sl & Hg & <-). by eapply slot_gen_bound. }
    pose proof (task_gen_mono _ _ _ Hi Hok He). lia.
  - destruct (IH Hal1 Hin1 Hi1 Hes) as [Hk|?]; [|by auto].
    left. destruct e; try done. destruct (polling s1); [by right|done].
Qed.

(** A stale waker is harmless.  Once a task is gone, no use of its wakers, at any
    later time and whatever task now occupies its slot, ever causes a poll under
    its identity, and the entry it queued makes the holder poll nothing and
    change nothing. *)
Theorem stale_waker_harmless s es ks s' k :
  inv s → mkWaker k (generation k) ∈ wakers s → ¬ alive k s → steps s es ks s' →
  (k ∉ ks) ∧ ¬ alive k s'
  ∧ (∀ rest s'', ready s' = k :: rest → step ETake s' = Some s'' →
       tasks s'' = tasks s' ∧ polling s'' = None).
Proof.
  intros Hi Hw Hd Hrun. destruct (inv_waker _ Hi _ Hw) as (_ & Hle & _). cbn in Hle.
  destruct (dead_stays_steps s es ks s' k Hrun Hi ltac:(lia) Hd) as [Hd' Hnin].
  split_and!; [done|done|]. intros rest s'' Hr Hs. assert (Hi' := steps_inv _ _ _ _ Hrun Hi).
  cbn in Hs. destruct (polling s') eqn:Hp; [done|]. rewrite Hr in Hs.
  destruct (take_spec s' k rest Hi' Hp Hr) as [Hdead _]. rewrite Hdead in Hs by done.
  by injection Hs as <-.
Qed.

End tasks.

(** ** Concrete runs *)

Abbreviation W1 := (mkWaker (mkTaskId 0 1) 1).

Lemma ready_entries_unique_witness :
  ∃ ks (s : Sys (S := gmap nat) (F := nat)),
    steps init [EInsert 7%nat None 0; ETake; EWake W1; EWake W1; EPush 0; EPending 8%nat] ks s
    ∧ ready s = [mkTaskId 0 1] ∧ NoDup (entries s).
Proof.
  eexists _, _.
  assert (Hs : steps init [EInsert 7%nat None 0; ETake; EWake W1; EWake W1; EPush 0; EPending 8%nat]
    _ _) by (repeat (eapply steps_cons; [vm_compute; reflexivity|done|]); apply steps_nil).
  split; [exact Hs|]. split; [reflexivity|].
  exact (proj1 (ready_entries_unique _ _ _ Hs)).
Defined.

(** A task that wakes itself during its poll is polled again. *)
Lemma wake_leads_to_poll_witness :
  ∃ (s s1 : Sys (S := gmap nat) (F := nat)) ks s2, inv s ∧ step (EWake W1) s = Some s1
    ∧ steps s1 [EPush 0; EPending 8%nat; ETake] ks s2
    ∧ (wk_task W1 ∈ ks ∨ ¬ alive (wk_task W1) s2 ∨ wk_task W1 ∈ entries s2).
Proof.
  assert (H0 : ∃ ks s, steps (S := gmap nat) (F := nat) init [EInsert 7%nat None 0; ETake] ks s
    ∧ alive (wk_task W1) s ∧ ∃ s1, step (EWake W1) s = Some s1
    ∧ ∃ ks2 s2, steps s1 [EPush 0; EPending 8%nat; ETake] ks2 s2).
  { eexists _, _. split; [repeat (eapply steps_cons; [vm_compute; reflexivity|done|]); apply steps_nil|].
    split; [eexists; split; vm_compute; reflexivity|].
    eexists. split; [vm_compute; reflexivity|]. eexists _, _.
    repeat (eapply steps_cons; [vm_compute; reflexivity|done|]); apply steps_nil. }
  destruct H0 as (ks & s & Hs & Hal & s1 & Hw & ks2 & s2 & Hrun).
  exists s, s1, ks2, s2. assert (Hi := steps_inv _ _ _ _ Hs sys_init_inv).
  split_and!; [done|done|done|].
  apply (wake_leads_to_poll s W1 s1 [EPush 0; EPending 8%nat; ETake] ks2 s2 Hi Hal Hw Hrun).
  rewrite !not_elem_of_cons. split_and!; [done..|apply not_elem_of_nil].
Defined.

(** The slot of a finished task is reused; the old waker does not reach the new
    task. *)
Lemma stale_waker_harmless_witness :
  ∃ (s : Sys (S := gmap nat) (F := nat)) ks s', inv s
    ∧ steps s [EInsert 9%nat None 0; ETake; EPending 9%nat; EWake W1; EPush 0; ETake] ks s'
    ∧ (mkTaskId 0 1 ∉ ks) ∧ mkTaskId 0 2 ∈ ks.
Proof.
  assert (H0 : ∃ ks s, steps (S := gmap nat) (F := nat) init
      [EInsert 7%nat None 0; ETake; EFinish] ks s
    ∧ W1 ∈ wakers s ∧ ¬ alive (mkTaskId 0 1) s
    ∧ ∃ ks2 s2, steps s [EInsert 9%nat None 0; ETake; EPending 9%nat; EWake W1; EPush 0; ETake] ks2 s2
    ∧ mkTaskId 0 2 ∈ ks2).
  { eexists _, _. split; [repeat (eapply steps_cons; [vm_compute; reflexivity|done|]); apply steps_nil|].
    split; [left|]. split; [intros (sl & Hg & _); vm_compute in Hg; discriminate|].
    eexists _, _. split; [repeat (eapply steps_cons; [vm_compute; reflexivity|done|]); apply steps_nil|].
    left. }
  destruct H0 as (ks & s & Hs & Hw & Hd & ks2 & s2 & Hrun & Hin).
  exists s, ks2, s2. assert (Hi := steps_inv _ _ _ _ Hs sys_init_inv). split_and!; [done|done| |done].
  apply (stale_waker_harmless s _ ks2 s2 (mkTaskId 0 1) Hi Hw Hd Hrun).
Defined.

End Task.

(** ** [SvcCell]

    A [RefCell] behind an atomic flag.  [borrow_state] is the [RefCell]'s own counter
    (0 free, -1 mutably borrowed, n > 0 shared), which is not atomic: it must only
    be touched by the thread that holds the flag. *)
Module SvcCell.
Section cell.
Context {T : Type}.

Record SvcCell : Type := mkCell { inner : T; borrow_state : Z; borrowed : bool }.

Inductive Guard : Type := SvcRef | SvcRefMut.

Definition new (value : T) : SvcCell := mkCell value 0 false.

(** [lease]: the compare-exchange of the flag; [None] is the assertion failure. *)
Definition lease (c : SvcCell) : option SvcCell :=
  if borrowed c then None else Some (mkCell (inner c) (borrow_state c) true).

(** [RefCell::borrow] and [borrow_mut] of the standard library; [None] is their own
    panic. *)
Definition refcell_borrow (g : Guard) (c : SvcCell) : option SvcCell :=
  match g with
  | SvcRef => if decide (borrow_state c < 0) then None
              else Some (mkCell (inner c) (borrow_state c + 1) (borrowed c))
  | SvcRefMut => if decide (borrow_state c = 0)
                 then Some (mkCell (inner c) (-1) (borrowed c)) else None
  end.

Definition borrow (g : Guard) (c : SvcCell) : option SvcCell :=
  c ← lease c; refcell_borrow g c.

(** Dropping a guard: the fields in declaration order, the [Ref] before the lease. *)
Definition drop_guard (g : Guard) (c : SvcCell) : SvcCell :=
  let b := match g with SvcRef => borrow_state c - 1 | SvcRefMut => borrow_state c + 1 end in
  mkCell (inner c) b false.

Definition replace (value : T) (c : SvcCell) : option (SvcCell * T) :=
  c' ← borrow SvcRefMut c;
  Some (drop_guard SvcRefMut (mkCell value (borrow_state c') (borrowed c')), inner c').

Definition get (c : SvcCell) : option (SvcCell * T) :=
  c' ← borrow SvcRef c; Some (drop_guard SvcRef c', inner c').

Definition set (value : T) (c : SvcCell) : option SvcCell :=
  c' ← borrow SvcRefMut c;
  Some (drop_guard SvcRefMut (mkCell value (borrow_state c') (borrowed c'))).

(** Threads borrowing and dropping guards in any order; [guards] are the guards
    that exist.  The flag and the counter change at different instants: a thread
    that has won the flag is [leased] until it has done the [RefCell] borrow, and a
    dropped [Ref] leaves it leased until the flag is cleared. *)
Record Sys : Type := mkSys { cell : SvcCell; leased : list nat; guards : list (nat * Guard) }.

Inductive step : Sys → Sys → Prop :=
  | s_lease t c c' ls gs : lease c = Some c' → step (mkSys c ls gs) (mkSys c' (t :: ls) gs)
  | s_borrow t g c c' l1 l2 gs :
      refcell_borrow g c = Some c' → step (mkSys c (l1 ++ t :: l2) gs) (mkSys c' (l1 ++ l2) ((t, g) :: gs))
  | s_drop_ref t g c ls g1 g2 :
      step (mkSys c ls (g1 ++ (t, g) :: g2))
        (mkSys (mkCell (inner c) (borrow_state (drop_guard g c)) (borrowed c)) (t :: ls) (g1 ++ g2))
  | s_drop_lease t c l1 l2 gs :
      step (mkSys c (l1 ++ t :: l2) gs) (mkSys (mkCell (inner c) (borrow_state c) false) (l1 ++ l2) gs).

(** Whatever threads do with a [SvcCell], at most one of them is inside a borrow,
    so the non-atomic counter of the [RefCell] and the value are never touched by
    two threads; and once the flag is won the [RefCell] borrow itself never
    fails: the only panic is the conflict reported by the flag. *)
Theorem svc_cell_exclusive v s :
  rtc step (mkSys (new v) [] []) s →
  (length (leased s) + length (guards s) = if borrowed (cell s) then 1 else 0)%nat
  ∧ (leased s ≠ [] → ∀ g, is_Some (refcell_borrow g (cell s))).
Proof.
  intros Hr. assert (Hinv : (length (leased s) + length (guards s) = if borrowed (cell s) then 1 else 0)%nat
    ∧ borrow_state (cell s) = match guards s with [] => 0 | (_, SvcRef) :: _ => 1 | (_, SvcRefMut) :: _ => -1 end).
  { revert s Hr. apply rtc_ind_r; [done|]. intros s1 s2 _ Hs [IH Hb]. destruct Hs; cbn in *.
    - unfold lease in *. destruct (borrowed c) eqn:Eb; [done|]. simplify_eq/=.
      destruct ls, gs; cbn in *; try lia; done.
    - rewrite !length_app in *. cbn in *. destruct (borrowed c) eqn:Eb; [|lia].
      destruct gs; cbn in *; [|lia]. unfold refcell_borrow in *.
      destruct g; case_decide; simplify_eq/=; rewrite Eb; (split; [|lia || done]); lia.
    - rewrite !length_app in *. cbn in *. destruct (borrowed c) eqn:Eb; [|lia].
      destruct g1 as [|[? []] ], g2; cbn in *; try lia. split; [lia|]. destruct g; cbn in *; lia.
    - rewrite !length_app in *. cbn in *. destruct (borrowed c) eqn:Eb; [|lia].
      destruct gs; cbn in *; [|lia]. split; [lia|done]. }
  destruct Hinv as [Hlen Hb]. split; [done|]. intros Hne g.
  destruct (leased s) as [|t ls]; [done|]. destruct (guards s); cbn in *.
  - unfold refcell_borrow. rewrite Hb. by destruct g.
  - destruct (borrowed (cell s)); lia.
Qed.

End cell.

Lemma svc_cell_exclusive_witness :
  ∃ s, rtc step (mkSys (new 5%nat) [] []) s ∧ leased s = [1%nat]
    ∧ ((leased s ≠ [] → ∀ g, is_Some (refcell_borrow g (cell s)))).
Proof.
  exists (mkSys (mkCell 5%nat 0 true) [1%nat] []).
  assert (Hr : rtc step (mkSys (new 5%nat) [] []) (mkSys (mkCell 5%nat 0 true) [1%nat] []))
    by (apply rtc_once, (s_lease 1%nat); reflexivity).
  split; [exact Hr|]. split; [reflexivity|].
  exact (proj2 (svc_cell_exclusive 5%nat _ Hr)).
Defined.

End SvcCell.
