(* ===== verification/Mailbox.v ===== *)
(** * Mailboxes

    Models [Mailbox] of [rskynet-core/src/mq.rs].  This file gives each method as a
    function on the mailbox, as it behaves when no other thread interferes;
    [MailboxConc.v] cuts the same methods at their atomic accesses and lets any number
    of threads interleave. *)
From S2P Require Import Prelude Interfaces Message Task.

Module Mailbox.

Definition OVERLOAD_THRESHOLD : Z := 1024.
Definition READY_BURST : Z := 64.

Inductive Ready : Type := RTask (task : TaskId).

Inductive Work : Type :=
  | WMessage (msg : Message)
  | WReady (r : Ready).

(** The [u8] constants of [mod state]. *)
Inductive MState : Type := IDLE | QUEUED | RUNNING | NOTIFIED.

#[global] Instance MState_eq_dec : EqDecision MState.
Proof. solve_decision. Defined.

Section mailbox.
Context {Q : Type → Type} `{FifoLaws Q}.

Record Mailbox : Type := mkMailbox {
  queue : Q Message;
  ready : Q Ready;
  len : Z;
  state : MState;
  overload : Z;
  overload_threshold : Z;
  ready_streak : Z;
}.

Definition new : Mailbox := mkMailbox fifo_new fifo_new 0 QUEUED 0 OVERLOAD_THRESHOLD 0.

Definition set_queue q (m : Mailbox) :=
  mkMailbox q (ready m) (len m) (state m) (overload m) (overload_threshold m) (ready_streak m).
Definition set_ready r (m : Mailbox) :=
  mkMailbox (queue m) r (len m) (state m) (overload m) (overload_threshold m) (ready_streak m).
Definition set_len n (m : Mailbox) :=
  mkMailbox (queue m) (ready m) n (state m) (overload m) (overload_threshold m) (ready_streak m).
Definition set_state st (m : Mailbox) :=
  mkMailbox (queue m) (ready m) (len m) st (overload m) (overload_threshold m) (ready_streak m).
Definition set_overload o (m : Mailbox) :=
  mkMailbox (queue m) (ready m) (len m) (state m) o (overload_threshold m) (ready_streak m).
Definition set_threshold t (m : Mailbox) :=
  mkMailbox (queue m) (ready m) (len m) (state m) (overload m) t (ready_streak m).
Definition set_streak k (m : Mailbox) :=
  mkMailbox (queue m) (ready m) (len m) (state m) (overload m) (overload_threshold m) k.

(** The [match current] of [notify]: the state to install, if any. *)
Definition notify_next (current : MState) : option MState :=
  match current with
  | IDLE => Some QUEUED
  | RUNNING => Some NOTIFIED
  | _ => None
  end.

Definition notify (m : Mailbox) : Mailbox * bool :=
  match notify_next (state m) with
  | Some next => (set_state next m, bool_decide (next = QUEUED))
  | None => (m, false)
  end.

Definition push_message (msg : Message) (m : Mailbox) : Mailbox * bool :=
  notify (set_queue (fifo_push msg (queue m)) (set_len (len m +w 1) m)).

Definition push_ready (r : Ready) (m : Mailbox) : Mailbox * bool :=
  notify (set_ready (fifo_push r (ready m)) m).

(** The [while length > threshold] loop: sixty-four doublings exhaust a [usize]. *)
Fixpoint double_threshold (fuel : nat) (length threshold : Z) : Z :=
  match fuel with
  | O => threshold
  | S fuel => if decide (threshold < length) then double_threshold fuel length (threshold * 2) else threshold
  end.

(** [None] is the arithmetic underflow of [fetch_sub(1) - 1]. *)
Definition check_overload (m : Mailbox) : option Mailbox :=
  if decide (len m = 0) then None else
  let length := len m - 1 in
  let m := set_len length m in
  let threshold := overload_threshold m in
  if decide (length ≤ threshold) then Some m else
  Some (set_threshold (double_threshold 64 length threshold) (set_overload length m)).

(** One round of the [loop] of [take_work]. *)
Inductive Round : Type :=
  | Got (w : Work) (m : Mailbox)
  | Released (m : Mailbox)    (** released: the state is [IDLE] *)
  | Again (m : Mailbox)      (** notified in between: scan again *)
  | Panicked.

Definition got_message (msg : Message) (q : Q Message) (m : Mailbox) : Round :=
  match check_overload (set_streak 0 (set_queue q m)) with
  | Some m => Got (WMessage msg) m
  | None => Panicked
  end.

Definition take_release (m : Mailbox) : Round :=
  match state m with
  | RUNNING => Released (set_threshold OVERLOAD_THRESHOLD (set_state IDLE m))
  | NOTIFIED => Again (set_state RUNNING m)
  | _ => Panicked
  end.

Definition take_ready_first (streak : Z) (m : Mailbox) : Round :=
  match fifo_pop (ready m) with
  | Some (r, q) => Got (WReady r) (set_streak (Z.min (streak + 1) READY_BURST) (set_ready q m))
  | None =>
      match fifo_pop (queue m) with
      | Some (msg, q) => got_message msg q m
      | None => take_release m
      end
  end.

Definition take_round (m : Mailbox) : Round :=
  let streak := ready_streak m in
  if decide (READY_BURST ≤ streak) then
    match fifo_pop (queue m) with
    | Some (msg, q) => got_message msg q m
    | None => take_ready_first streak m
    end
  else take_ready_first streak m.

(** A notified round resets the state to [RUNNING], so the second round cannot be
    notified again when nobody interferes: fuel two. *)
Fixpoint take_loop (fuel : nat) (m : Mailbox) : option (Mailbox * option Work) :=
  match fuel with
  | O => None
  | S fuel =>
      match take_round m with
      | Got w m => Some (m, Some w)
      | Released m => Some (m, None)
      | Again m => take_loop fuel m
      | Panicked => None
      end
  end.

Definition take_work (m : Mailbox) : option (Mailbox * option Work) := take_loop 2 m.

Definition mark_queued (m : Mailbox) : Mailbox := set_state QUEUED m.
Definition mark_running (m : Mailbox) : Mailbox := set_state RUNNING m.

Definition release (m : Mailbox) : option (Mailbox * bool) :=
  match state m with
  | RUNNING => Some (set_state IDLE m, true)
  | NOTIFIED => Some (set_state RUNNING m, false)
  | _ => None
  end.

Definition take_overload (m : Mailbox) : Mailbox * Z := (set_overload 0 m, overload m).

(** [drain]: the ready entries are dropped, the messages returned in order. *)
Fixpoint drain_messages (fuel : nat) (m : Mailbox) : Mailbox * list Message :=
  match fuel with
  | O => (m, [])
  | S fuel =>
      match fifo_pop (queue m) with
      | None => (m, [])
      | Some (msg, q) =>
          let '(m, rest) := drain_messages fuel (set_len (len m -w 1) (set_queue q m)) in
          (m, msg :: rest)
      end
  end.

Fixpoint drain_ready (fuel : nat) (m : Mailbox) : Mailbox :=
  match fuel with
  | O => m
  | S fuel => match fifo_pop (ready m) with None => m | Some (_, q) => drain_ready fuel (set_ready q m) end
  end.

(** One iteration per stored element and the final failing [pop]. *)
Definition drain (m : Mailbox) : Mailbox * list Message :=
  let m := drain_ready (S (length (fifo_list (ready m)))) m in
  drain_messages (S (length (fifo_list (queue m)))) m.

(** ** Overload reporting *)

Lemma double_threshold_spec fuel l t :
  0 < t → l ≤ t * 2 ^ Z.of_nat fuel →
  l ≤ double_threshold fuel l t ∧ t ≤ double_threshold fuel l t
    ∧ (t < l → double_threshold fuel l t < 2 * l)
    ∧ ∃ k, 0 ≤ k ∧ double_threshold fuel l t = t * 2 ^ k.
Proof.
  revert t. induction fuel as [|fuel IH]; intros t Ht Hl.
  - cbn in *. split_and!; [lia|lia|lia|]. exists 0. lia.
  - rewrite Nat2Z.inj_succ, Z.pow_succ_r in Hl by lia. cbn [double_threshold]. case_decide as Hd.
    + destruct (IH (t * 2)) as (H1 & H2 & H3 & k & Hk & Heq); [lia|lia|].
      split_and!; [done|lia| |exists (k + 1); split; [lia|rewrite Heq, Z.pow_add_r; lia]].
      intros _. destruct (decide (t * 2 < l)) as [Hlt|Hge]; [by apply H3|].
      destruct fuel; cbn [double_threshold] in *; [lia|]. rewrite decide_False by lia. lia.
    + split_and!; [lia|lia|lia|]. exists 0. lia.
Qed.

#[local] Arguments double_threshold : simpl never.

(** ** Well-formed mailboxes at rest *)

Record wf (m : Mailbox) : Prop := {
  wf_len : len m = Z.of_nat (length (fifo_list (queue m)));
  wf_threshold : OVERLOAD_THRESHOLD ≤ overload_threshold m;
  wf_streak : 0 ≤ ready_streak m ≤ READY_BURST;
}.

Lemma wf_new : wf new.
Proof. split; cbn; [by rewrite fifo_list_new|done|unfold READY_BURST; lia]. Qed.

Definition held (m : Mailbox) : Prop := state m = RUNNING ∨ state m = NOTIFIED.

(** A message leaves the queue: what the mailbox looks like afterwards. *)
Lemma got_message_spec m msg q :
  wf m → len m ≤ 2 ^ 63 → fifo_pop (queue m) = Some (msg, q) →
  ∃ m', got_message msg q m = Got (WMessage msg) m' ∧ wf m' ∧ state m' = state m
    ∧ queue m' = q ∧ ready m' = ready m ∧ ready_streak m' = 0 ∧ len m' = len m - 1
    ∧ len m' ≤ overload_threshold m'
    ∧ (overload m' = overload m ∨ overload m' = len m').
Proof.
  intros Hwf Hmax Hq. pose proof (fifo_pop_Some _ _ _ Hq) as Hl. pose proof (wf_len _ Hwf) as Hlen.
  rewrite Hl in Hlen. cbn in Hlen. pose proof (wf_threshold _ Hwf) as Ht. unfold OVERLOAD_THRESHOLD in Ht.
  unfold got_message, check_overload. cbn. rewrite decide_False by lia. case_decide as Hd.
  - eexists. split; [done|]. cbn. split_and!; try done; [|by left].
    split; cbn; [lia|apply Hwf|unfold READY_BURST; lia].
  - destruct (double_threshold_spec 64 (len m - 1) (overload_threshold m)) as (H1 & H2 & _ & _);
      [lia|change (Z.of_nat 64) with 64; nia|].
    eexists. split; [done|]. cbn. split_and!; try done; [|by right].
    split; cbn; [lia|unfold OVERLOAD_THRESHOLD; lia|unfold READY_BURST; lia].
Qed.

(** What one call of [take_work] is meant to return: a ready task first, unless
    tasks have already gone first [READY_BURST] times and a message waits. *)
Definition next_work (m : Mailbox) : option Work :=
  match fifo_list (ready m), fifo_list (queue m) with
  | r :: _, msg :: _ => Some (if decide (READY_BURST ≤ ready_streak m) then WMessage msg else WReady r)
  | r :: _, [] => Some (WReady r)
  | [], msg :: _ => Some (WMessage msg)
  | [], [] => None
  end.

Definition take_post (m m' : Mailbox) (o : option Work) : Prop :=
  match o with
  | None => state m' = IDLE ∧ overload_threshold m' = OVERLOAD_THRESHOLD
      ∧ queue m' = queue m ∧ ready m' = ready m
  | Some (WReady r) => held m' ∧ queue m' = queue m ∧ fifo_list (ready m) = r :: fifo_list (ready m')
      ∧ ready_streak m' = Z.min (ready_streak m + 1) READY_BURST
  | Some (WMessage msg) => held m' ∧ ready m' = ready m
      ∧ fifo_list (queue m) = msg :: fifo_list (queue m') ∧ ready_streak m' = 0
      ∧ len m' ≤ overload_threshold m'
  end.

Definition round_ok (m : Mailbox) (r : Round) : Prop :=
  match r with
  | Got w m' => next_work m = Some w ∧ wf m' ∧ take_post m m' (Some w)
  | Released m' => next_work m = None ∧ wf m' ∧ take_post m m' None
  | Again m' => next_work m = None ∧ wf m' ∧ state m = NOTIFIED ∧ m' = set_state RUNNING m
  | Panicked => False
  end.

Lemma take_ready_first_spec m :
  wf m → len m ≤ 2 ^ 63 → held m →
  (READY_BURST ≤ ready_streak m → fifo_list (queue m) = []) →
  round_ok m (take_ready_first (ready_streak m) m).
Proof.
  intros Hwf Hmax Hheld Hb. pose proof (wf_streak _ Hwf). unfold take_ready_first.
  destruct (fifo_pop (ready m)) as [[r q]|] eqn:Hr.
  - apply fifo_pop_Some in Hr. cbn. unfold next_work. rewrite Hr. split_and!; [|split; cbn; try apply Hwf; lia|done..].
    destruct (fifo_list (queue m)) eqn:Hq; [done|]. case_decide as Hd; [|done]. by specialize (Hb Hd).
  - apply fifo_pop_None in Hr. destruct (fifo_pop (queue m)) as [[msg q]|] eqn:Hq.
    + destruct (got_message_spec m msg q Hwf Hmax Hq) as (m' & -> & Hwf' & Hst & Hqm & Hrm & Hsm & Hlm & Hth & _).
      apply fifo_pop_Some in Hq. cbn. unfold next_work, held. rewrite Hr, Hq, Hst, Hqm. by split_and!.
    + apply fifo_pop_None in Hq. unfold take_release.
      destruct Hheld as [Hs|Hs]; rewrite Hs; cbn; unfold next_work; rewrite Hr, Hq;
        split_and!; try done; split; cbn; try apply Hwf; done.
Qed.

Lemma take_round_spec m : wf m → len m ≤ 2 ^ 63 → held m → round_ok m (take_round m).
Proof.
  intros Hwf Hmax Hheld. unfold take_round. case_decide as Hd.
  - destruct (fifo_pop (queue m)) as [[msg q]|] eqn:Hq.
    + destruct (got_message_spec m msg q Hwf Hmax Hq) as (m' & -> & Hwf' & Hst & Hqm & Hrm & Hsm & Hlm & Hth & _).
      apply fifo_pop_Some in Hq. cbn. unfold next_work, held. rewrite Hq, Hst, Hqm, Hrm.
      split_and!; try done. destruct (fifo_list (ready m)); [done|]. by rewrite decide_True.
    + apply fifo_pop_None in Hq. by apply take_ready_first_spec.
  - by apply take_ready_first_spec; [..|lia].
Qed.

(** [take_work] on a held, well-formed mailbox returns the work the policy asks
    for: it never panics, gives [None] exactly when both queues are empty (and
    then has released the mailbox to [IDLE]), pops exactly the element it returns,
    keeps the length counter exact, and raises the overload threshold over the
    remaining length. *)
Theorem take_work_correct m :
  wf m → len m ≤ 2 ^ 63 → held m →
  ∃ m', take_work m = Some (m', next_work m) ∧ wf m' ∧ take_post m m' (next_work m).
Proof.
  intros Hwf Hmax Hheld. unfold take_work, take_loop.
  pose proof (take_round_spec m Hwf Hmax Hheld) as Hr.
  destruct (take_round m) as [w m'|m'|m'|]; cbn in Hr; [..|done].
  - destruct Hr as (-> & ? & ?). eauto.
  - destruct Hr as (-> & ? & ?). eauto.
  - destruct Hr as (Hn & Hwf' & Hst & Hm'). rewrite Hm' in *.
    pose proof (take_round_spec (set_state RUNNING m) Hwf' Hmax (or_introl eq_refl)) as Hr2.
    assert (Hn2 : next_work (set_state RUNNING m) = None) by exact Hn. rewrite Hn.
    destruct (take_round (set_state RUNNING m)) as [w m2|m2|m2|]; cbn in Hr2; try naive_solver.
Qed.

(** What leaves the message queue when [take_work] returns, in any state. *)
Lemma take_work_queue m m' o :
  take_work m = Some (m', o) →
  match o with
  | Some (WMessage msg) => fifo_list (queue m) = msg :: fifo_list (queue m')
  | _ => fifo_list (queue m') = fifo_list (queue m)
  end.
Proof.
  assert (Hround : ∀ m, match take_round m with
    | Got (WMessage msg) m' => fifo_list (queue m) = msg :: fifo_list (queue m')
    | Got (WReady _) m' | Released m' | Again m' => fifo_list (queue m') = fifo_list (queue m)
    | Panicked => True end).
  { assert (Hgot : ∀ msg q m, fifo_pop (queue m) = Some (msg, q) → match got_message msg q m with
      | Got (WMessage msg') m' => fifo_list (queue m) = msg' :: fifo_list (queue m')
      | Got (WReady _) m' | Released m' | Again m' => fifo_list (queue m') = fifo_list (queue m)
      | Panicked => True end).
    { intros msg q m0 Hq%fifo_pop_Some. unfold got_message, check_overload. cbn. case_decide; [done|]. by case_decide. }
    assert (Hready : ∀ k m, match take_ready_first k m with
      | Got (WMessage msg) m' => fifo_list (queue m) = msg :: fifo_list (queue m')
      | Got (WReady _) m' | Released m' | Again m' => fifo_list (queue m') = fifo_list (queue m)
      | Panicked => True end).
    { intros k m0. unfold take_ready_first. destruct (fifo_pop (ready m0)) as [[r q]|]; [done|].
      destruct (fifo_pop (queue m0)) as [[msg q]|] eqn:Hq; [by apply Hgot|]. unfold take_release. by destruct (state m0). }
    intros m0. unfold take_round. case_decide; [|apply Hready]. destruct (fifo_pop (queue m0)) as [[msg q]|] eqn:Hq; [by apply Hgot|apply Hready]. }
  unfold take_work, take_loop. intros Ht. pose proof (Hround m) as H1. destruct (take_round m) as [w m1|m1|m1|]; simplify_eq; try done.
  pose proof (Hround m1) as H2. destruct (take_round m1) as [w m2|m2|m2|]; simplify_eq; try congruence.
  destruct w; congruence.
Qed.

(** ** Fairness of the ready priority *)

(** What happens to a held mailbox: pushes from anywhere, takes by the holder. *)
Inductive Op : Type :=
  | OPush (msg : Message)
  | OWake (r : Ready)
  | OTake.

Fixpoint run (os : list Op) (m : Mailbox) : option (Mailbox * list Work) :=
  match os with
  | [] => Some (m, [])
  | OPush msg :: os => run os (push_message msg m).1
  | OWake r :: os => run os (push_ready r m).1
  | OTake :: os =>
      '(m, w) ← take_work m;
      '(m', ws) ← run os m;
      Some (m', match w with Some w => w :: ws | None => ws end)
  end.

Fixpoint takes (os : list Op) : Z :=
  match os with [] => 0 | OTake :: os => 1 + takes os | _ :: os => takes os end.

Lemma notify_held m : held m → held (notify m).1 ∧ (wf m → wf (notify m).1)
  ∧ queue (notify m).1 = queue m ∧ ready (notify m).1 = ready m
  ∧ ready_streak (notify m).1 = ready_streak m ∧ len (notify m).1 = len m ∧ (notify m).2 = false.
Proof.
  intros [Hs|Hs]; unfold notify, held; rewrite Hs; cbn; rewrite ?Hs; split_and!; auto.
  intros Hwf. split; apply Hwf.
Qed.

Lemma push_message_held msg m :
  wf m → held m → len m + 1 < 2 ^ 64 →
  wf (push_message msg m).1 ∧ held (push_message msg m).1
  ∧ fifo_list (queue (push_message msg m).1) = fifo_list (queue m) ++ [msg]
  ∧ ready_streak (push_message msg m).1 = ready_streak m ∧ len (push_message msg m).1 = len m + 1.
Proof.
  intros Hwf Hh Hmax. pose proof (wf_len _ Hwf). unfold push_message.
  set (m1 := set_queue _ _). destruct (notify_held m1 Hh) as (Hh1 & Hwf1 & Hq & _ & Hst & Hl & _).
  assert (Hlen : len m1 = len m + 1) by (cbn; rewrite wrapping_add_small; lia).
  rewrite Hq, Hst, Hl, Hlen. cbn. rewrite fifo_list_push. split_and!; try done. apply Hwf1.
  split; [|apply Hwf|apply Hwf]. rewrite Hlen. cbn. rewrite fifo_list_push, length_app. cbn. lia.
Qed.

Lemma push_ready_held r m :
  wf m → held m →
  wf (push_ready r m).1 ∧ held (push_ready r m).1
  ∧ queue (push_ready r m).1 = queue m ∧ ready_streak (push_ready r m).1 = ready_streak m
  ∧ len (push_ready r m).1 = len m.
Proof.
  intros Hwf Hh. unfold push_ready. set (m1 := set_ready _ _).
  destruct (notify_held m1 Hh) as (Hh1 & Hwf1 & Hq & _ & Hst & Hl & _). rewrite Hq, Hst, Hl.
  split_and!; try done. apply Hwf1. split; apply Hwf.
Qed.

(** Ready tasks have priority but cannot starve messages: if a message is waiting
    in a held mailbox, then whatever is pushed or woken meanwhile, the oldest
    message is handed out after at most [READY_BURST] ready tasks. *)
Theorem ready_burst_fair m msg rest os :
  wf m → held m → fifo_list (queue m) = msg :: rest →
  len m + Z.of_nat (length os) ≤ 2 ^ 63 → READY_BURST < takes os →
  ∃ os1 os2 m1 m2 ws, os = os1 ++ OTake :: os2 ∧ run os1 m = Some (m1, ws)
    ∧ take_work m1 = Some (m2, Some (WMessage msg))
    ∧ Z.of_nat (length ws) ≤ READY_BURST ∧ Forall (λ w, ∃ r, w = WReady r) ws.
Proof.
  intros Hwf Hh Hq Hlen Ht.
  assert (Hs : READY_BURST - ready_streak m < takes os) by (pose proof (wf_streak _ Hwf); lia). clear Ht.
  enough (∃ os1 os2 m1 m2 ws, os = os1 ++ OTake :: os2 ∧ run os1 m = Some (m1, ws)
    ∧ take_work m1 = Some (m2, Some (WMessage msg))
    ∧ Z.of_nat (length ws) ≤ READY_BURST - ready_streak m ∧ Forall (λ w, ∃ r, w = WReady r) ws) as
    (os1 & os2 & m1 & m2 & ws & ? & ? & ? & ? & ?).
  { exists os1, os2, m1, m2, ws. pose proof (wf_streak _ Hwf). split_and!; try done. lia. }
  revert m rest Hwf Hh Hq Hlen Hs. induction os as [|o os IH]; intros m rest Hwf Hh Hq Hlen Hs;
    pose proof (wf_streak _ Hwf) as Hst; cbn [takes length] in *; [lia|]. destruct o as [msg'|r|].
  - destruct (push_message_held msg' m Hwf Hh) as (Hwf1 & Hh1 & Hq1 & Hst1 & Hl1); [lia|].
    destruct (IH _ (rest ++ [msg']) Hwf1 Hh1) as (os1 & os2 & m1 & m2 & ws & -> & Hr & Htk & Hle & Hall);
      [by rewrite Hq1, Hq|lia|lia|].
    exists (OPush msg' :: os1), os2, m1, m2, ws. split_and!; [done|exact Hr|done|lia|done].
  - destruct (push_ready_held r m Hwf Hh) as (Hwf1 & Hh1 & Hq1 & Hst1 & Hl1).
    destruct (IH _ rest Hwf1 Hh1) as (os1 & os2 & m1 & m2 & ws & -> & Hr & Htk & Hle & Hall);
      [by rewrite Hq1, Hq|lia|lia|].
    exists (OWake r :: os1), os2, m1, m2, ws. split_and!; [done|exact Hr|done|lia|done].
  - destruct (take_work_correct m Hwf ltac:(lia) Hh) as (m1 & Htk & Hwf1 & Hpost).
    destruct (next_work m) as [[msg'|r]|] eqn:Hn.
    + assert (msg' = msg) as ->.
      { destruct Hpost as (_ & _ & Hq' & _). congruence. }
      exists [], os, m, m1, []. split_and!; [done|done|done|cbn; lia|constructor].
    + destruct Hpost as (Hh1 & Hqm & Hrd & Hst1).
      assert (Hlt : ready_streak m < READY_BURST).
      { unfold next_work in Hn. rewrite Hrd, Hq in Hn. case_decide; [congruence|lia]. }
      assert (Hl1 : len m1 = len m) by (rewrite (wf_len _ Hwf1), (wf_len _ Hwf), Hqm; done).
      destruct (IH m1 rest Hwf1 Hh1) as (os1 & os2 & m2 & m3 & ws & -> & Hr & Htk' & Hle & Hall);
        [congruence|lia|lia|].
      exists (OTake :: os1), os2, m2, m3, (WReady r :: ws). split_and!; [done| |done|cbn; lia|].
      * cbn [run]. rewrite Htk. cbn. by rewrite Hr.
      * constructor; [by exists r|done].
    + unfold next_work in Hn. rewrite Hq in Hn. by destruct (fifo_list (ready m)).
Qed.

(** ** Draining *)

Lemma drain_ready_spec fuel m :
  (length (fifo_list (ready m)) < fuel)%nat →
  ∃ q, drain_ready fuel m = set_ready q m ∧ fifo_list q = [].
Proof.
  revert m. induction fuel as [|fuel IH]; intros m Hf; cbn; [lia|].
  destruct (fifo_pop (ready m)) as [[r q]|] eqn:Hr.
  - apply fifo_pop_Some in Hr. rewrite Hr in Hf. cbn in Hf.
    destruct (IH (set_ready q m)) as (q' & -> & Hq'); [cbn; lia|]. by exists q'.
  - apply fifo_pop_None in Hr. exists (ready m). by destruct m.
Qed.

Lemma drain_messages_spec fuel m :
  (length (fifo_list (queue m)) < fuel)%nat →
  len m = Z.of_nat (length (fifo_list (queue m))) → len m < 2 ^ 64 →
  ∃ q, drain_messages fuel m = (set_len 0 (set_queue q m), fifo_list (queue m)) ∧ fifo_list q = [].
Proof.
  revert m. induction fuel as [|fuel IH]; intros m Hf Hl Hmax; cbn; [lia|].
  destruct (fifo_pop (queue m)) as [[msg q]|] eqn:Hq.
  - apply fifo_pop_Some in Hq. rewrite Hq in *. cbn in Hf, Hl.
    destruct (IH (set_len (len m -w 1) (set_queue q m))) as (q' & Heq & Hq'); cbn;
      [lia|rewrite wrapping_sub_small; lia|rewrite wrapping_sub_small; lia|].
    cbn in Heq. rewrite Heq. by exists q'.
  - apply fifo_pop_None in Hq. exists (queue m). rewrite Hq in *. cbn in Hl. destruct m; cbn in *. by subst.
Qed.

(** [drain] empties both queues and hands back the waiting messages in order. *)
Lemma drain_spec m :
  wf m → len m < 2 ^ 64 →
  ∃ m', drain m = (m', fifo_list (queue m)) ∧ wf m' ∧ state m' = state m
    ∧ fifo_list (queue m') = [] ∧ fifo_list (ready m') = [].
Proof.
  intros Hwf Hmax. unfold drain.
  destruct (drain_ready_spec (S (length (fifo_list (ready m)))) m) as (r & -> & Hr); [lia|].
  destruct (drain_messages_spec (S (length (fifo_list (queue (set_ready r m))))) (set_ready r m))
    as (q & -> & Hq); cbn; [lia|apply Hwf|done|].
  eexists. split; [done|]. split_and!; try done. split; cbn; [by rewrite Hq|apply Hwf..].
Qed.

(** The same without the length counter: [drain] returns what is queued and leaves
    nothing. *)
Lemma drain_contents m :
  ∃ m', drain m = (m', fifo_list (queue m)) ∧ state m' = state m
    ∧ fifo_list (queue m') = [] ∧ fifo_list (ready m') = [].
Proof.
  unfold drain. destruct (drain_ready_spec (S (length (fifo_list (ready m)))) m) as (r & -> & Hr); [lia|].
  assert (Hm : ∀ fuel m, (length (fifo_list (queue m)) < fuel)%nat →
    ∃ m', drain_messages fuel m = (m', fifo_list (queue m)) ∧ state m' = state m ∧ fifo_list (queue m') = [] ∧ ready m' = ready m).
  { induction fuel as [|fuel IH]; intros m0 Hf; cbn [drain_messages]; [lia|].
    destruct (fifo_pop (queue m0)) as [[msg q]|] eqn:Hq.
    - apply fifo_pop_Some in Hq. rewrite Hq in Hf. cbn in Hf.
      destruct (IH (set_len (len m0 -w 1) (set_queue q m0))) as (m' & -> & H1 & H2 & H3); [cbn; lia|]. cbn. rewrite Hq. by exists m'.
    - apply fifo_pop_None in Hq. exists m0. by rewrite Hq. }
  destruct (Hm (S (length (fifo_list (queue (set_ready r m))))) (set_ready r m)) as (m' & -> & H1 & H2 & H3); [lia|].
  exists m'. split_and!; try done. by rewrite H3.
Qed.

End mailbox.

Definition demo_msg : Message := mkMessage 1 0 0 PNone.

Lemma take_work_correct_witness :
  ∃ m', take_work (set_state RUNNING (push_message demo_msg (new (Q := list))).1)
    = Some (m', Some (WMessage demo_msg)) ∧ fifo_list (queue m') = [].
Proof.
  destruct (take_work_correct (Q := list) (set_state RUNNING (push_message demo_msg new).1))
    as (m' & Ht & _ & (_ & _ & Hq & _)).
  - split; vm_compute; [done|discriminate|split; discriminate].
  - vm_compute. discriminate.
  - by left.
  - exists m'. split; [exact Ht|]. by injection Hq as Hq.
Defined.

Lemma ready_burst_fair_witness :
  ∃ os1 os2 m1 m2 ws,
    replicate 65 OTake = os1 ++ OTake :: os2
    ∧ run os1 (foldr (λ r m, (push_ready r m).1)
        (set_state RUNNING (push_message demo_msg (new (Q := list))).1)
        (replicate 70 (RTask (mkTaskId 0 1)))) = Some (m1, ws)
    ∧ take_work m1 = Some (m2, Some (WMessage demo_msg)) ∧ length ws = 64%nat.
Proof.
  destruct (ready_burst_fair (Q := list) (foldr (λ r m, (push_ready r m).1)
        (set_state RUNNING (push_message demo_msg (new (Q := list))).1)
        (replicate 70 (RTask (mkTaskId 0 1)))) demo_msg [] (replicate 65 OTake))
    as (os1 & os2 & m1 & m2 & ws & Hos & Hrun & Ht & _ & _).
  - split; vm_compute; [done|discriminate|split; discriminate].
  - by right.
  - reflexivity.
  - vm_compute. discriminate.
  - vm_compute. reflexivity.
  - exists (replicate 64 OTake), []. eexists _, _, _.
    split; [reflexivity|]. split; [vm_compute; reflexivity|]. split; [vm_compute; reflexivity|reflexivity].
Defined.

End Mailbox.
