(* ===== verification/MailboxConc.v ===== *)
(** * Mailboxes under concurrency

    The methods of [Mailbox] (file [Mailbox.v], [rskynet-core/src/mq.rs]) cut at their
    accesses to shared memory, for any number of threads.  A thread is a program
    counter: a producer inside [push_message], [push_ready] or [notify], a worker that
    popped the service from the run queue, or the holder inside [take_work],
    [drain] or [release].  [exec i c s] is the next atomic step of thread [i], with [c]
    deciding what an idle thread or the holder starts next and whether a weak
    compare-exchange fails spuriously.  The steps interleave sequentially
    consistently; the acquire/release annotations are not modelled. *)
From S2P Require Import Prelude Interfaces Message Task Mailbox.
Import Mailbox.

#[local] Arguments double_threshold : simpl never.

Module Concurrent.

Inductive PC : Type :=
  | Idle                          (** outside the mailbox *)
  | PushLen (msg : Message)       (** [push_message]: before [len.fetch_add] *)
  | PushMsg (msg : Message)       (** before [queue.push] *)
  | PushRdy (r : Ready)           (** [push_ready]: before [ready.push] *)
  | NLoad                         (** [notify]: before [state.load] *)
  | NCas (current : MState)       (** before the compare-exchange *)
  | Enqueue                       (** [notify] said true: before the run-queue push *)
  | Popped                        (** popped from the run queue: before [mark_running] *)
  | Hold                          (** holds the service, between two calls *)
  | TStreak                       (** [take_work]: before [ready_streak.load] *)
  | TBurst (streak : Z)           (** before the first [queue.pop] *)
  | TReady (streak : Z)           (** before [ready.pop] *)
  | TMsg                          (** before the second [queue.pop] *)
  | TCas                          (** before the compare-exchange to [IDLE] *)
  | TReset                        (** it failed on [NOTIFIED]: before the store of [RUNNING] *)
  | TThreshold                    (** it succeeded: before the store of [overload_threshold] *)
  | OSub (msg : Message)          (** [check_overload]: before [len.fetch_sub] *)
  | OLoad (msg : Message) (l : Z) (** before [overload_threshold.load] *)
  | OStore (msg : Message) (l t : Z) (** before the two stores *)
  | Requeue                       (** after [mark_queued]: before the run-queue push *)
  | DReady                        (** [drain]: before a [ready.pop] *)
  | DMsg                          (** before a [queue.pop] *)
  | DSub (msg : Message)          (** before [len.fetch_sub] *)
  | RCas                          (** [release]: before the compare-exchange *)
  | RReset                        (** it failed on [NOTIFIED]: before the store of [RUNNING] *)
  | Panic.

Inductive Choice : Type :=
  | CSend (msg : Message)
  | CWake (r : Ready)
  | CNotify
  | CPop
  | CTake
  | CYield
  | CClean
  | CSpurious
  | CStep.

Section conc.
Context {Q : Type → Type} `{FifoLaws Q}.

(** [runq] counts the entries of this service in the run queues; [pushed] and
    [taken] record the messages that entered and left the queue, in order. *)
Record Sys : Type := mkSys {
  mb : Mailbox (Q := Q);
  runq : nat;
  threads : list PC;
  pushed : list Message;
  taken : list Message;
}.

Definition goto (i : nat) (pc : PC) (s : Sys) : Sys :=
  mkSys (mb s) (runq s) (<[i := pc]> (threads s)) (pushed s) (taken s).
Definition with_mb (m : Mailbox) (s : Sys) : Sys :=
  mkSys m (runq s) (threads s) (pushed s) (taken s).
Definition with_runq (n : nat) (s : Sys) : Sys :=
  mkSys (mb s) n (threads s) (pushed s) (taken s).

(** The top of [notify]'s loop with the state it just saw. *)
Definition notify_seen (st : MState) : PC :=
  match notify_next st with Some _ => NCas st | None => Idle end.

Definition pop_queue (i : nat) (found : Message → PC) (empty : PC) (s : Sys) : Sys :=
  match fifo_pop (queue (mb s)) with
  | Some (msg, q) =>
      let s := goto i (found msg) (with_mb (set_queue q (mb s)) s) in
      mkSys (mb s) (runq s) (threads s) (pushed s) (taken s ++ [msg])
  | None => goto i empty s
  end.

Definition exec (i : nat) (c : Choice) (s : Sys) : option Sys :=
  pc ← threads s !! i;
  let m := mb s in
  match pc with
  | Idle =>
      match c with
      | CSend msg => Some (goto i (PushLen msg) s)
      | CWake r => Some (goto i (PushRdy r) s)
      | CNotify => Some (goto i NLoad s)
      | CPop => match runq s with O => None | S n => Some (goto i Popped (with_runq n s)) end
      | _ => None
      end
  | PushLen msg => Some (goto i (PushMsg msg) (with_mb (set_len (len m + 1) m) s))
  | PushMsg msg =>
      let s := goto i NLoad (with_mb (set_queue (fifo_push msg (queue m)) m) s) in
      Some (mkSys (mb s) (runq s) (threads s) (pushed s ++ [msg]) (taken s))
  | PushRdy r => Some (goto i NLoad (with_mb (set_ready (fifo_push r (ready m)) m) s))
  | NLoad => Some (goto i (notify_seen (state m)) s)
  | NCas current =>
      match notify_next current with
      | Some next =>
          match c with
          | CSpurious => Some (goto i (notify_seen (state m)) s)
          | _ =>
              if decide (state m = current) then
                Some (goto i (if decide (next = QUEUED) then Enqueue else Idle)
                        (with_mb (set_state next m) s))
              else Some (goto i (notify_seen (state m)) s)
          end
      | None => None
      end
  | Enqueue => Some (goto i Idle (with_runq (S (runq s)) s))
  | Popped => Some (goto i Hold (with_mb (mark_running m) s))
  | Hold =>
      match c with
      | CTake => Some (goto i TStreak s)
      | CYield => Some (goto i Requeue (with_mb (mark_queued m) s))
      | CClean => Some (goto i DReady s)
      | _ => None
      end
  | TStreak =>
      let streak := ready_streak m in
      Some (goto i (if decide (READY_BURST ≤ streak) then TBurst streak else TReady streak) s)
  | TBurst streak => Some (pop_queue i OSub (TReady streak) s)
  | TReady streak =>
      match fifo_pop (ready m) with
      | Some (_, q) =>
          Some (goto i Hold (with_mb (set_streak (Z.min (streak + 1) READY_BURST) (set_ready q m)) s))
      | None => Some (goto i TMsg s)
      end
  | TMsg => Some (pop_queue i OSub TCas s)
  | TCas =>
      match state m with
      | RUNNING => Some (goto i TThreshold (with_mb (set_state IDLE m) s))
      | NOTIFIED => Some (goto i TReset s)
      | _ => Some (goto i Panic s)
      end
  | TReset => Some (goto i TStreak (with_mb (set_state RUNNING m) s))
  | TThreshold => Some (goto i Idle (with_mb (set_threshold OVERLOAD_THRESHOLD m) s))
  | OSub msg =>
      if decide (len m = 0) then Some (goto i Panic s) else
      let l := len m - 1 in
      Some (goto i (OLoad msg l) (with_mb (set_len l (set_streak 0 m)) s))
  | OLoad msg l =>
      let threshold := overload_threshold m in
      Some (goto i (if decide (l ≤ threshold) then Hold
                    else OStore msg l (double_threshold 64 l threshold)) s)
  | OStore _ l t => Some (goto i Hold (with_mb (set_threshold t (set_overload l m)) s))
  | Requeue => Some (goto i Idle (with_runq (S (runq s)) s))
  | DReady =>
      match fifo_pop (ready m) with
      | Some (_, q) => Some (goto i DReady (with_mb (set_ready q m) s))
      | None => Some (goto i DMsg s)
      end
  | DMsg => Some (pop_queue i DSub RCas s)
  | DSub _ =>
      if decide (len m = 0) then Some (goto i Panic s) else
      Some (goto i DMsg (with_mb (set_len (len m - 1) m) s))
  | RCas =>
      match state m with
      | RUNNING => Some (goto i Idle (with_mb (set_state IDLE m) s))
      | NOTIFIED => Some (goto i RReset s)
      | _ => Some (goto i Panic s)
      end
  | RReset => Some (goto i DReady (with_mb (set_state RUNNING m) s))
  | Panic => None
  end.

Definition step (s s' : Sys) : Prop := ∃ i c, exec i c s = Some s'.

(** A new mailbox is [QUEUED] and its creator goes on to push it; [n] other threads
    may come along. *)
Definition init (n : nat) : Sys := mkSys new 0 (Enqueue :: replicate n Idle) [] [].

(** ** What each program counter stands for *)

(** About to hand the service over through the run queue, or just got it. *)
Definition transit (pc : PC) : nat :=
  match pc with Enqueue | Popped | Requeue => 1 | _ => 0 end.

(** Owns the service's private state. *)
Definition holding (pc : PC) : nat :=
  match pc with
  | Hold | TStreak | TBurst _ | TReady _ | TMsg | TCas | TReset
  | OSub _ | OLoad _ _ | OStore _ _ _ | DReady | DMsg | DSub _ | RCas | RReset => 1
  | _ => 0
  end.

(** Inside [notify]: will look at the state again. *)
Definition notifying (pc : PC) : nat :=
  match pc with NLoad | NCas _ => 1 | _ => 0 end.

(** Counted in [len] but not in the queue. *)
Definition counted (pc : PC) : nat :=
  match pc with PushMsg _ | OSub _ | DSub _ => 1 | _ => 0 end.

Definition tally (f : PC → nat) (s : Sys) : nat := sum_list_with f (threads s).

Definition has_work (m : Mailbox (Q := Q)) : Prop := fifo_list (queue m) ≠ [] ∨ fifo_list (ready m) ≠ [].

(** What the holder has seen empty at its program counter and will not look at
    again before it tries to release the mailbox. *)
Definition overlooked (pc : PC) (m : Mailbox (Q := Q)) : Prop :=
  match pc with
  | TMsg | DMsg | DSub _ => fifo_list (ready m) ≠ []
  | TCas | RCas => has_work m
  | _ => False
  end.

Record inv (s : Sys) : Prop := {
  inv_transit : (runq s + tally transit s = if decide (state (mb s) = QUEUED) then 1 else 0)%nat;
  inv_holding : (tally holding s = if decide (held (mb s)) then 1 else 0)%nat;
  inv_idle : state (mb s) = IDLE → has_work (mb s) → (0 < tally notifying s)%nat;
  inv_seen : ∀ i pc, threads s !! i = Some pc → state (mb s) = RUNNING → overlooked pc (mb s) →
    (0 < tally notifying s)%nat;
  inv_reset : ∀ i pc, threads s !! i = Some pc → pc = TReset ∨ pc = RReset → state (mb s) = NOTIFIED;
  inv_len : len (mb s) = Z.of_nat (length (fifo_list (queue (mb s))) + tally counted s);
  inv_panic : Panic ∉ threads s;
  inv_fifo : pushed s = taken s ++ fifo_list (queue (mb s));
}.

Lemma overlooked_holding pc m : overlooked pc m → holding pc = 1%nat.
Proof. by destruct pc. Qed.

(** ** Preservation *)

(** The step of thread [i] from [old] to [pc] that changes the shared memory to [m],
    [n], [ps], [tk]: the invariant reduces to what the step does to the counts, to
    the obligations of [i]'s new program counter and to those of other holders. *)
Lemma conc_move s i old pc m n ps tk :
  inv s → threads s !! i = Some old →
  (n + tally transit s + transit pc = (if decide (state m = QUEUED) then 1 else 0) + transit old)%nat →
  (tally holding s + holding pc = (if decide (held m) then 1 else 0) + holding old)%nat →
  (state m = IDLE → has_work m → (0 < tally notifying s + notifying pc - notifying old)%nat) →
  (state m = RUNNING → overlooked pc m → (0 < tally notifying s + notifying pc - notifying old)%nat) →
  (∀ pc', state m = RUNNING → overlooked pc' m → tally holding s = S (holding old) →
     (overlooked pc' (mb s) ∧ state (mb s) = RUNNING ∧ notifying pc = notifying old)
     ∨ (0 < tally notifying s + notifying pc - notifying old)%nat) →
  (pc = TReset ∨ pc = RReset → state m = NOTIFIED) →
  (state (mb s) = NOTIFIED → state m = NOTIFIED ∨ holding old = 1%nat) →
  (len m + Z.of_nat (counted old) = Z.of_nat (length (fifo_list (queue m)) + tally counted s + counted pc)) →
  pc ≠ Panic →
  ps = tk ++ fifo_list (queue m) →
  inv (mkSys m n (<[i := pc]> (threads s)) ps tk).
Proof.
  intros Hi Hold Ht Hh Hidle Hself Hother Hr Hr' Hl Hp Hf.
  assert (Hsum := λ f, sum_insert f (threads s) i old pc Hold).
  assert (Hhold1 : ∀ j pc', threads s !! j = Some pc' → i ≠ j → holding pc' = 1%nat →
     tally holding s = S (holding old)).
  { intros j pc' Hj Hne Hpc'. pose proof (sum_ge2 holding (threads s) i j old pc' Hne Hold Hj) as Hge.
    pose proof (inv_holding _ Hi) as Hh1. unfold tally in *. rewrite Hpc' in Hge.
    destruct (decide (held (mb s))); lia. }
  split; cbn; unfold tally in *; cbn.
  - pose proof (Hsum transit). lia.
  - pose proof (Hsum holding). lia.
  - intros H1 H2. pose proof (Hsum notifying). specialize (Hidle H1 H2). lia.
  - intros j pc' [(<- & <- & _)|[Hne Hj]]%list_lookup_insert_Some Hst Hov; pose proof (Hsum notifying).
    + specialize (Hself Hst Hov). lia.
    + destruct (Hother pc' Hst Hov) as [(H1' & H2' & H3')|?]; [| |lia].
      * eapply Hhold1; [exact Hj|done|by eapply overlooked_holding].
      * pose proof (inv_seen _ Hi j pc' Hj H2' H1') as Hx. unfold tally in Hx. lia.
  - intros j pc' [(<- & <- & _)|[Hne Hj]]%list_lookup_insert_Some Hpc'; [by apply Hr|].
    destruct Hr' as [?|Hho]; [by eapply (inv_reset _ Hi)|done|]. exfalso.
    assert (holding pc' = 1%nat) as Hpc1 by (destruct Hpc' as [ -> | -> ]; done).
    pose proof (sum_ge2 holding (threads s) i j old pc' Hne Hold Hj) as Hge.
    pose proof (inv_holding _ Hi) as Hh1. unfold tally in Hh1. destruct (decide (held (mb s))); lia.
  - pose proof (Hsum counted). lia.
  - intros [j [(_ & Heq & _)|[_ Hj]]%list_lookup_insert_Some]%list_elem_of_lookup; [done|].
    apply (inv_panic _ Hi). by eapply list_elem_of_lookup_2.
  - done.
Qed.

Lemma conc_init n : inv (init n).
Proof.
  assert (Hz : ∀ f : PC → nat, f Idle = 0%nat → sum_list_with f (replicate n Idle) = 0%nat).
  { intros f Hf. clear -Hf. induction n as [|n IH]; cbn; [done|]. by rewrite Hf. }
  split; cbn; unfold tally; cbn; rewrite ?Hz, ?fifo_list_new by done; try done.
  - intros [|i] pc Hpc; cbn in Hpc; [injection Hpc as <-; naive_solver|].
    apply lookup_replicate in Hpc as [-> _]. naive_solver.
  - intros [?|Hp]%elem_of_cons; [done|]. by apply elem_of_replicate in Hp as [? _].
Qed.

(** What the counts say about the state of the mailbox. *)
Lemma holding_held s i pc : inv s → threads s !! i = Some pc → holding pc = 1%nat → held (mb s) ∧ tally holding s = 1%nat.
Proof.
  intros Hi Hpc Hh. pose proof (sum_ge holding _ _ _ Hpc). pose proof (inv_holding _ Hi) as Hx.
  unfold tally in *. destruct (decide (held (mb s))); [done|lia].
Qed.

Lemma transit_queued s i pc : inv s → threads s !! i = Some pc → transit pc = 1%nat →
  state (mb s) = QUEUED ∧ runq s = 0%nat ∧ tally transit s = 1%nat ∧ tally holding s = 0%nat.
Proof.
  intros Hi Hpc Hh. pose proof (sum_ge transit _ _ _ Hpc). pose proof (inv_transit _ Hi) as Hx.
  pose proof (inv_holding _ Hi) as Hy. unfold tally in *.
  destruct (decide (state (mb s) = QUEUED)) as [E|E]; [|lia]. split_and!; [done|lia|lia|].
  rewrite Hy, decide_False; [done|]. unfold held. rewrite E. naive_solver.
Qed.

(** A step that keeps the state and the queues. *)
Lemma conc_quiet s i old pc m n :
  inv s → threads s !! i = Some old →
  state m = state (mb s) → queue m = queue (mb s) → ready m = ready (mb s) →
  (n + transit pc = runq s + transit old)%nat → holding pc = holding old →
  ((notifying old ≤ notifying pc)%nat ∨ state (mb s) = QUEUED ∨ state (mb s) = NOTIFIED) →
  (overlooked pc (mb s) → overlooked old (mb s)) →
  (pc = TReset ∨ pc = RReset → state (mb s) = NOTIFIED) →
  len m + Z.of_nat (counted old) = len (mb s) + Z.of_nat (counted pc) → pc ≠ Panic →
  inv (mkSys m n (<[i := pc]> (threads s)) (pushed s) (taken s)).
Proof.
  intros Hi Hpc Hst Hq Hr Hn Hh Hnot Hov Hres Hlen Hp.
  assert (Hnot' : state (mb s) = IDLE ∨ state (mb s) = RUNNING → (notifying old ≤ notifying pc)%nat).
  { destruct Hnot as [?|[E|E]]; [done|rewrite E; naive_solver..]. }
  assert (Hwork : has_work m ↔ has_work (mb s)) by (unfold has_work; by rewrite Hq, Hr).
  assert (Hover : ∀ pc', overlooked pc' m ↔ overlooked pc' (mb s)).
  { intros []; cbn; rewrite ?Hwork, ?Hr; done. }
  apply (conc_move _ _ _ _ _ _ _ _ Hi Hpc); rewrite ?Hst, ?Hq; [..|done|apply Hi].
  - pose proof (inv_transit _ Hi). lia.
  - pose proof (inv_holding _ Hi) as Hx. unfold held in *. rewrite Hst. lia.
  - rewrite Hwork. intros H1 H2. pose proof (inv_idle _ Hi H1 H2). specialize (Hnot' (or_introl H1)). lia.
  - intros H1 H2%Hover%Hov. pose proof (inv_seen _ Hi _ _ Hpc H1 H2). specialize (Hnot' (or_intror H1)). lia.
  - intros pc' H1 H2%Hover _. specialize (Hnot' (or_intror H1)).
    destruct (decide (notifying pc = notifying old)) as [|Hne]; [left; done|right].
    pose proof (sum_ge notifying _ _ _ Hpc). unfold tally. lia.
  - done.
  - auto.
  - pose proof (inv_len _ Hi). lia.
Qed.

(** A step of the holder that keeps the state and takes elements off the queues. *)
Lemma inv_pop s i old pc m tk :
  inv s → threads s !! i = Some old → holding old = 1%nat → holding pc = 1%nat →
  state m = state (mb s) →
  (overlooked pc m → overlooked old (mb s)) →
  pc ≠ TReset → pc ≠ RReset →
  len m + Z.of_nat (counted old) = Z.of_nat (length (fifo_list (queue m)) + tally counted s + counted pc) →
  pc ≠ Panic → pushed s = tk ++ fifo_list (queue m) →
  inv (mkSys m (runq s) (<[i := pc]> (threads s)) (pushed s) tk).
Proof.
  intros Hi Hpc Hho Hhp Hst Hov Hn1 Hn2 Hlen Hp Hf.
  assert (Ht : transit old = 0%nat ∧ transit pc = 0%nat ∧ notifying old = 0%nat ∧ notifying pc = 0%nat)
    by (destruct old, pc; done).
  destruct Ht as (Ht1 & Ht2 & Ht3 & Ht4). destruct (holding_held _ _ _ Hi Hpc Hho) as [Hheld Hone].
  apply (conc_move _ _ _ _ _ _ _ _ Hi Hpc); rewrite ?Hst; try done.
  - pose proof (inv_transit _ Hi). lia.
  - rewrite Hone, Hho, Hhp. rewrite decide_True; [done|]. unfold held in *. by rewrite Hst.
  - intros E. destruct Hheld; congruence.
  - intros H1 H2%Hov. pose proof (inv_seen _ Hi _ _ Hpc H1 H2). lia.
  - intros pc' _ _ Htwo. lia.
  - naive_solver.
  - auto.
Qed.

(** A push: afterwards the thread is inside [notify]. *)
Lemma inv_push s i old m ps :
  inv s → threads s !! i = Some old → transit old = 0%nat → holding old = 0%nat → notifying old = 0%nat →
  state m = state (mb s) →
  len m + Z.of_nat (counted old) = Z.of_nat (length (fifo_list (queue m)) + tally counted s) →
  ps = taken s ++ fifo_list (queue m) →
  inv (mkSys m (runq s) (<[i := NLoad]> (threads s)) ps (taken s)).
Proof.
  intros Hi Hpc Ht Hh Hno Hst Hlen Hf.
  apply (conc_move _ _ _ _ _ _ _ _ Hi Hpc); rewrite ?Hst; cbn; try done; try lia; [..|naive_solver|auto].
  - pose proof (inv_transit _ Hi). lia.
  - pose proof (inv_holding _ Hi). unfold held in *. rewrite Hst. lia.
Qed.

(** A step that changes the state and keeps the queues.  Nobody else holds the
    service, or the state it leaves behind asks nothing of a holder. *)
Lemma inv_state s i old pc st n :
  inv s → threads s !! i = Some old → st ≠ state (mb s) →
  (n + tally transit s + transit pc = (if decide (st = QUEUED) then 1 else 0) + transit old)%nat →
  (tally holding s + holding pc = (if decide (st = RUNNING ∨ st = NOTIFIED) then 1 else 0) + holding old)%nat →
  (st = IDLE → has_work (mb s) → overlooked old (mb s) ∧ state (mb s) = RUNNING) →
  (st = RUNNING → tally holding s = holding old) →
  (st = IDLE → notifying old = 0%nat) →
  ¬ overlooked pc (mb s) → pc ≠ TReset → pc ≠ RReset →
  (state (mb s) = NOTIFIED → holding old = 1%nat) →
  counted old = counted pc → pc ≠ Panic →
  inv (mkSys (set_state st (mb s)) n (<[i := pc]> (threads s)) (pushed s) (taken s)).
Proof.
  intros Hi Hpc Hne Ht Hh Hidle Hrun Hno Hov Hn1 Hn2 Hnt Hc Hp.
  apply (conc_move _ _ _ _ _ _ _ _ Hi Hpc); cbn; try done.
  - intros -> Hw. destruct (Hidle eq_refl Hw) as [H1 H2]. pose proof (inv_seen _ Hi _ _ Hpc H2 H1).
    rewrite Hno by done. lia.
  - intros pc' -> _ Htwo. specialize (Hrun eq_refl). lia.
  - naive_solver.
  - auto.
  - pose proof (inv_len _ Hi). lia.
  - apply Hi.
Qed.

Ltac by_state := repeat case_decide; try naive_solver; lia.

Ltac quiet Hi Hpc := apply (conc_quiet _ _ _ _ _ _ Hi Hpc); cbn; try done; try lia; try (by intros [?|?]); auto.

Lemma exec_producer_inv i c s s' pc :
  inv s → threads s !! i = Some pc → exec i c s = Some s' → holding pc = 0%nat → inv s'.
Proof.
  intros Hi Hpc He Hh. unfold exec in He. rewrite Hpc in He. cbn in He. destruct pc; try discriminate Hh.
  - destruct c; simplify_eq; [quiet Hi Hpc..|].
    destruct (runq s) as [|n] eqn:Hn; simplify_eq. quiet Hi Hpc.
  - injection He as <-. quiet Hi Hpc.
  - injection He as <-. apply (inv_push _ _ _ _ _ Hi Hpc); cbn; try done.
    + rewrite fifo_list_push, length_app. cbn. pose proof (inv_len _ Hi). lia.
    + rewrite fifo_list_push, app_assoc. by rewrite <-(inv_fifo _ Hi).
  - injection He as <-. apply (inv_push _ _ _ _ _ Hi Hpc); cbn; try done; [|apply Hi].
    pose proof (inv_len _ Hi). lia.
  - injection He as <-. unfold notify_seen. destruct (state (mb s)) eqn:E; cbn; quiet Hi Hpc.
  - destruct (notify_next current) as [next|] eqn:Hnx; [|done].
    assert (Hfail : inv (goto i (notify_seen (state (mb s))) s)).
    { unfold notify_seen. destruct (state (mb s)) eqn:E; cbn; quiet Hi Hpc. }
    assert (Hsucc : state (mb s) = current →
      inv (goto i (if decide (next = QUEUED) then Enqueue else Idle) (with_mb (set_state next (mb s)) s))).
    { intros Hst. pose proof (inv_transit _ Hi) as H1. pose proof (inv_holding _ Hi) as H2.
      unfold held in H2. rewrite Hst in *.
      destruct current; simplify_eq/=; apply (inv_state _ _ _ _ _ _ Hi Hpc); cbn; rewrite ?Hst; try done; by_state. }
    assert (Hcas : (if decide (state (mb s) = current)
        then Some (goto i (if decide (next = QUEUED) then Enqueue else Idle) (with_mb (set_state next (mb s)) s))
        else Some (goto i (notify_seen (state (mb s))) s)) = Some s' → inv s').
    { destruct (decide (state (mb s) = current)); intros [= <-]; auto. }
    destruct c; auto. by injection He as <-.
  - injection He as <-. quiet Hi Hpc.
  - injection He as <-. destruct (transit_queued _ _ _ Hi Hpc eq_refl) as (H1 & H2 & H3 & H4).
    unfold mark_running. apply (inv_state _ _ _ _ _ _ Hi Hpc); cbn; rewrite ?H1; try done; by_state.
  - injection He as <-. quiet Hi Hpc.
  - injection He as <-. quiet Hi Hpc.
  - done.
Qed.

Lemma pop_queue_inv i found empty old s :
  inv s → threads s !! i = Some old → holding old = 1%nat → counted old = 0%nat →
  (∀ msg, found msg = OSub msg) ∨ (∀ msg, found msg = DSub msg) ∧ old = DMsg →
  holding empty = 1%nat → counted empty = 0%nat → empty ≠ TReset → empty ≠ RReset → empty ≠ Panic →
  (fifo_list (queue (mb s)) = [] → overlooked empty (mb s) → overlooked old (mb s)) →
  inv (pop_queue i found empty s).
Proof.
  intros Hi Hpc Hh Hc Hf He1 He2 He3 He4 He5 Hov. unfold pop_queue.
  pose proof (inv_len _ Hi) as Hl. pose proof (inv_fifo _ Hi) as Hq.
  destruct (fifo_pop (queue (mb s))) as [[msg q]|] eqn:Hp.
  - apply fifo_pop_Some in Hp. rewrite Hp in *. cbn in Hl.
    assert (Hfc : counted (found msg) = 1%nat ∧ holding (found msg) = 1%nat ∧ found msg ≠ TReset
      ∧ found msg ≠ RReset ∧ found msg ≠ Panic
      ∧ (overlooked (found msg) (set_queue q (mb s)) → overlooked old (mb s))).
    { destruct Hf as [Hf|[Hf ->]]; rewrite Hf; done. }
    destruct Hfc as (F1 & F2 & F3 & F4 & F5 & F6).
    apply (inv_pop _ _ _ _ _ _ Hi Hpc); cbn; try done; [lia|]. by rewrite <-app_assoc.
  - apply fifo_pop_None in Hp. apply (inv_pop _ _ _ _ _ _ Hi Hpc); try done; [auto|lia].
Qed.

Lemma exec_holder_inv i c s s' pc :
  inv s → threads s !! i = Some pc → exec i c s = Some s' → holding pc = 1%nat → inv s'.
Proof.
  intros Hi Hpc He Hh. unfold exec in He. rewrite Hpc in He. cbn in He.
  destruct (holding_held _ _ _ Hi Hpc Hh) as [Hheld Hone].
  pose proof (inv_transit _ Hi) as Htr. pose proof (inv_len _ Hi) as Hlen. pose proof (inv_fifo _ Hi) as Hfi.
  rewrite decide_False in Htr by (destruct Hheld; congruence).
  destruct pc; try discriminate Hh.
  - (* Hold *) destruct c; simplify_eq; [quiet Hi Hpc| |quiet Hi Hpc].
    unfold mark_queued. apply (inv_state _ _ _ _ _ _ Hi Hpc); cbn; try done; [|by_state..].
    destruct Hheld; congruence.
  - (* TStreak *) injection He as <-. case_decide; quiet Hi Hpc.
  - (* TBurst *) injection He as <-. apply (pop_queue_inv _ _ _ _ _ Hi Hpc); cbn; try done. by left.
  - (* TReady *) destruct (fifo_pop (ready (mb s))) as [[r q]|] eqn:Hp; simplify_eq.
    + apply (inv_pop _ _ _ _ _ _ Hi Hpc); cbn; try done. lia.
    + apply fifo_pop_None in Hp. quiet Hi Hpc.
  - (* TMsg *) injection He as <-. apply (pop_queue_inv _ _ _ _ _ Hi Hpc); cbn; try done; [by left|].
    unfold has_work. naive_solver.
  - (* TCas *) destruct Hheld as [E|E]; rewrite E in He; simplify_eq.
    + apply (inv_state _ _ _ _ _ _ Hi Hpc); cbn; rewrite ?E; try done; by_state.
    + quiet Hi Hpc.
  - (* TReset *) injection He as <-. assert (E := inv_reset _ Hi _ _ Hpc (or_introl eq_refl)).
    apply (inv_state _ _ _ _ _ _ Hi Hpc); cbn; rewrite ?E; try done; by_state.
  - (* OSub *) assert (Hpos : len (mb s) ≠ 0).
    { pose proof (sum_ge counted _ _ _ Hpc) as Hx. cbn in Hx. unfold tally in Hlen. lia. }
    rewrite decide_False in He by done. injection He as <-. quiet Hi Hpc.
  - (* OLoad *) injection He as <-. case_decide; quiet Hi Hpc.
  - (* OStore *) injection He as <-. quiet Hi Hpc.
  - (* DReady *) destruct (fifo_pop (ready (mb s))) as [[r q]|] eqn:Hp; simplify_eq.
    + apply (inv_pop _ _ _ _ _ _ Hi Hpc); cbn; try done. lia.
    + apply fifo_pop_None in Hp. quiet Hi Hpc.
  - (* DMsg *) injection He as <-. apply (pop_queue_inv _ _ _ _ _ Hi Hpc); cbn; try done; [by right|].
    unfold has_work. naive_solver.
  - (* DSub *) assert (Hpos : len (mb s) ≠ 0).
    { pose proof (sum_ge counted _ _ _ Hpc) as Hx. cbn in Hx. unfold tally in Hlen. lia. }
    rewrite decide_False in He by done. injection He as <-. quiet Hi Hpc.
  - (* RCas *) destruct Hheld as [E|E]; rewrite E in He; simplify_eq.
    + apply (inv_state _ _ _ _ _ _ Hi Hpc); cbn; rewrite ?E; try done; by_state.
    + quiet Hi Hpc.
  - (* RReset *) injection He as <-. assert (E := inv_reset _ Hi _ _ Hpc (or_intror eq_refl)).
    apply (inv_state _ _ _ _ _ _ Hi Hpc); cbn; rewrite ?E; try done; by_state.
Qed.

Lemma conc_step_inv s s' : inv s → step s s' → inv s'.
Proof.
  intros Hi (i & c & He). assert (Hpc : ∃ pc, threads s !! i = Some pc).
  { unfold exec in He. destruct (threads s !! i); [by eexists|done]. }
  destruct Hpc as [pc Hpc]. destruct (decide (holding pc = 1%nat)) as [Hh|Hh];
    [by eapply exec_holder_inv|eapply exec_producer_inv; eauto]. by destruct pc.
Qed.

Lemma reachable_inv n s : rtc step (init n) s → inv s.
Proof. revert s. apply rtc_ind_r; [apply conc_init|]. intros s1 s2 _ Hs Hi. by eapply conc_step_inv. Qed.

(** ** Theorems *)

(** C1 A service is executed by one thread at a time: for any number of threads and
    any interleaving of pushes, wake-ups, pops, yields, takes and clean-ups, at most
    one thread is between [mark_running] and giving the service back; while one is,
    the service is in no run queue and nobody is about to put it there; and it is
    in the run queues at most once at any time. *)
Theorem single_holder n s :
  rtc step (init n) s →
  (∀ i j pi pj, threads s !! i = Some pi → threads s !! j = Some pj →
     holding pi = 1%nat → holding pj = 1%nat → i = j)
  ∧ (tally holding s = 1%nat → runq s = 0%nat ∧ tally transit s = 0%nat)
  ∧ (runq s + tally transit s + tally holding s ≤ 1)%nat.
Proof.
  intros Hr%reachable_inv. pose proof (inv_transit _ Hr) as Ht. pose proof (inv_holding _ Hr) as Hh.
  unfold held in Hh.
  assert (Hex : (runq s + tally transit s + tally holding s ≤ 1)%nat).
  { destruct (state (mb s)) eqn:E; repeat case_decide; naive_solver lia. }
  split_and!; [|lia|done].
  intros i j pi pj Hi Hj H1 H2. destruct (decide (i = j)) as [|Hne]; [done|].
  pose proof (sum_ge2 holding _ _ _ _ _ Hne Hi Hj). unfold tally in *. lia.
Qed.

(** C2 No message and no wake-up is lost: whenever a message or a ready task is in
    the mailbox and every producer has finished its [notify], the service is in a
    run queue, or on its way into one or out of one, or held by a worker; and if
    that worker has already looked past the work in its current scan, the state is
    [NOTIFIED], which makes its attempt to release the mailbox fail and scan
    again. *)
Theorem no_lost_work n s :
  rtc step (init n) s → has_work (mb s) → tally notifying s = 0%nat →
  (runq s + tally transit s = 1)%nat
  ∨ (∃ i pc, threads s !! i = Some pc ∧ holding pc = 1%nat
       ∧ (overlooked pc (mb s) → state (mb s) = NOTIFIED)).
Proof.
  intros Hr%reachable_inv Hw Hn. pose proof (inv_transit _ Hr) as Ht. pose proof (inv_holding _ Hr) as Hh.
  destruct (decide (held (mb s))) as [Hheld|Hnh].
  - right. assert (Hex : ∃ i pc, threads s !! i = Some pc ∧ holding pc = 1%nat).
    { unfold tally in Hh. clear -Hh. revert Hh. induction (threads s) as [|pc l IH]; cbn; [done|].
      intros Hh. destruct (decide (holding pc = 1%nat)) as [H1|H1]; [by exists 0%nat, pc|].
      assert (holding pc = 0%nat) as H0 by by destruct pc. destruct IH as (i & pc' & ? & ?); [lia|].
      by exists (S i), pc'. }
    destruct Hex as (i & pc & Hpc & H1). exists i, pc. split_and!; [done|done|]. intros Hov.
    destruct Hheld as [E|E]; [|done]. pose proof (inv_seen _ Hr _ _ Hpc E Hov). lia.
  - left. destruct (state (mb s)) eqn:E; unfold held in Hnh; rewrite ?E in *;
      [|by rewrite decide_True in Ht|naive_solver..].
    pose proof (inv_idle _ Hr E Hw). lia.
Qed.

(** C5 Messages are delivered exactly once and in the order they entered the queue,
    the internal assertions never fail, and the length counter is exact whenever
    no thread is between counting and queueing a message. *)
Theorem fifo_exactly_once n s :
  rtc step (init n) s →
  pushed s = taken s ++ fifo_list (queue (mb s))
  ∧ (Panic ∉ threads s)
  ∧ (tally counted s = 0%nat → len (mb s) = Z.of_nat (length (pushed s)) - Z.of_nat (length (taken s))).
Proof.
  intros Hr%reachable_inv. pose proof (inv_fifo _ Hr) as Hf. split_and!; [done|apply Hr|].
  intros Hc. pose proof (inv_len _ Hr) as Hl. rewrite Hf, length_app. lia.
Qed.

(** ** The uninterrupted holder runs [take_work] *)

Section solo.
Context (i rq : nat) (ths : list PC) (ps : list Message) (Hlt : (i < length ths)%nat).

(** Thread [i] at [pc], the other threads as in [ths]. *)
Definition st (pc : PC) (m : Mailbox (Q := Q)) (tk : list Message) : Sys := mkSys m rq (<[i := pc]> ths) ps tk.

Definition solo (s s' : Sys) : Prop := exec i CStep s = Some s'.

Definition reaches (s : Sys) (pc : PC) (m : Mailbox) : Prop := ∃ tk, rtc solo s (st pc m tk).

Lemma reaches_refl pc m tk : reaches (st pc m tk) pc m.
Proof. by exists tk. Qed.

Lemma reaches_step pc m tk pc1 m1 tk1 pc2 m2 :
  exec i CStep (st pc m tk) = Some (st pc1 m1 tk1) →
  reaches (st pc1 m1 tk1) pc2 m2 → reaches (st pc m tk) pc2 m2.
Proof. intros Hs (tk2 & Hr). exists tk2. by eapply rtc_l. Qed.

(** The next step of the thread in its normal form. *)
Lemma exec_st pc m tk :
  exec i CStep (st pc m tk) =
  match pc with
  | TStreak => Some (st (if decide (READY_BURST ≤ ready_streak m) then TBurst (ready_streak m)
                         else TReady (ready_streak m)) m tk)
  | TBurst k => Some (match fifo_pop (queue m) with
      | Some (msg, q) => st (OSub msg) (set_queue q m) (tk ++ [msg]) | None => st (TReady k) m tk end)
  | TReady k => Some (match fifo_pop (ready m) with
      | Some (_, q) => st Hold (set_streak (Z.min (k + 1) READY_BURST) (set_ready q m)) tk
      | None => st TMsg m tk end)
  | TMsg => Some (match fifo_pop (queue m) with
      | Some (msg, q) => st (OSub msg) (set_queue q m) (tk ++ [msg]) | None => st TCas m tk end)
  | TCas => Some (match state m with
      | RUNNING => st TThreshold (set_state IDLE m) tk | NOTIFIED => st TReset m tk | _ => st Panic m tk end)
  | TReset => Some (st TStreak (set_state RUNNING m) tk)
  | TThreshold => Some (st Idle (set_threshold OVERLOAD_THRESHOLD m) tk)
  | OSub msg => Some (if decide (len m = 0) then st Panic m tk
      else st (OLoad msg (len m - 1)) (set_len (len m - 1) (set_streak 0 m)) tk)
  | OLoad msg l => Some (st (if decide (l ≤ overload_threshold m) then Hold
      else OStore msg l (double_threshold 64 l (overload_threshold m))) m tk)
  | OStore _ l t => Some (st Hold (set_threshold t (set_overload l m)) tk)
  | _ => exec i CStep (st pc m tk)
  end.
Proof.
  destruct pc; try done; unfold exec, pop_queue, goto, with_mb, st; cbn;
    rewrite list_lookup_insert_eq by done; cbn;
    repeat (case_match; cbn); by rewrite ?list_insert_insert_eq.
Qed.

Definition round_end (s : Sys) (r : Round) : Prop :=
  match r with
  | Got _ m => reaches s Hold m
  | Released m => reaches s Idle m
  | Again m => reaches s TStreak m
  | Panicked => ∃ m, reaches s Panic m
  end.

Lemma round_end_step pc m tk pc1 m1 tk1 r :
  exec i CStep (st pc m tk) = Some (st pc1 m1 tk1) →
  round_end (st pc1 m1 tk1) r → round_end (st pc m tk) r.
Proof. intros Hs. destruct r; cbn; [by apply reaches_step..|]. intros [m' Hr]. exists m'. by eapply reaches_step. Qed.

Ltac next := eapply round_end_step; [rewrite exec_st; cbn; try reflexivity|].

Lemma solo_got msg q m tk : round_end (st (OSub msg) (set_queue q m) tk) (got_message msg q m).
Proof.
  unfold got_message, check_overload. cbn. case_decide as Hz.
  - next; [by rewrite decide_True|]. eexists. apply reaches_refl.
  - next; [by rewrite decide_False|]. next. case_decide as Hd; [apply reaches_refl|].
    next. apply reaches_refl.
Qed.

Lemma solo_release m tk : round_end (st TCas m tk) (take_release m).
Proof.
  unfold take_release. destruct (state m) eqn:E; next; rewrite ?E; try reflexivity.
  - eexists. apply reaches_refl.
  - eexists. apply reaches_refl.
  - next. apply reaches_refl.
  - next. apply reaches_refl.
Qed.

Lemma solo_ready_first k m tk : round_end (st (TReady k) m tk) (take_ready_first k m).
Proof.
  unfold take_ready_first. destruct (fifo_pop (ready m)) as [[r q]|] eqn:Hr.
  - next; [by rewrite Hr|]. apply reaches_refl.
  - next; [by rewrite Hr|]. destruct (fifo_pop (queue m)) as [[msg q]|] eqn:Hq.
    + next; [by rewrite Hq|]. apply solo_got.
    + next; [by rewrite Hq|]. apply solo_release.
Qed.

(** The step machine and the method agree: a holder that starts [take_work] and is
    not interrupted goes through the atomic steps to exactly the mailbox that the
    method's function computes, ending as the holder with the work, or outside
    with the mailbox released, or back at the top of the loop. *)
Theorem take_round_refined m tk : round_end (st TStreak m tk) (take_round m).
Proof.
  unfold take_round. case_decide as Hd.
  - next. rewrite decide_True by done. destruct (fifo_pop (queue m)) as [[msg q]|] eqn:Hq.
    + next; [by rewrite Hq|]. apply solo_got.
    + next; [by rewrite Hq|]. apply solo_ready_first.
  - next. rewrite decide_False by done. apply solo_ready_first.
Qed.

End solo.
End conc.

(** ** Concrete schedules *)

Fixpoint schedule (l : list (nat * Choice)) (s : Sys (Q := list)) : option Sys :=
  match l with [] => Some s | (i, c) :: l => s' ← exec i c s; schedule l s' end.

Lemma schedule_rtc l s s' : schedule l s = Some s' → rtc step s s'.
Proof.
  revert s. induction l as [|[i c] l IH]; intros s Hs; cbn [schedule] in Hs; [by injection Hs as <-|].
  destruct (exec i c s) as [s1|] eqn:He; [|done]. eapply rtc_l; [by exists i, c|by apply IH].
Qed.

(** Thread 0 holds the service while thread 1 has pushed a message. *)
Definition busy : list (nat * Choice) :=
  [(0, CStep); (0, CPop); (0, CStep); (1, CSend demo_msg); (1, CStep); (1, CStep); (1, CStep); (1, CStep)]%nat.

Lemma single_holder_witness :
  ∃ s, schedule busy (init 1) = Some s ∧ tally holding s = 1%nat ∧ runq s = 0%nat ∧ tally transit s = 0%nat.
Proof.
  eexists. split; [vm_compute; reflexivity|]. split; [reflexivity|].
  apply (single_holder 1); [|reflexivity]. apply (schedule_rtc busy). vm_compute. reflexivity.
Defined.

Lemma no_lost_work_witness :
  ∃ s, schedule busy (init 1) = Some s
    ∧ ((runq s + tally transit s = 1)%nat
       ∨ ∃ i pc, threads s !! i = Some pc ∧ holding pc = 1%nat
           ∧ (overlooked pc (mb s) → state (mb s) = NOTIFIED)).
Proof.
  eexists. split; [vm_compute; reflexivity|].
  apply (no_lost_work 1); [|left; discriminate|reflexivity].
  apply (schedule_rtc busy). vm_compute. reflexivity.
Defined.

Lemma fifo_exactly_once_witness :
  ∃ s, schedule busy (init 1) = Some s ∧ pushed s = [demo_msg]
    ∧ pushed s = taken s ++ fifo_list (queue (mb s)).
Proof.
  eexists. split; [vm_compute; reflexivity|]. split; [reflexivity|].
  apply (fifo_exactly_once 1). apply (schedule_rtc busy). vm_compute. reflexivity.
Defined.

Lemma take_round_refined_witness :
  round_end 0 0 [Idle; Idle] [] (st 0 0 [Idle; Idle] [] TStreak (set_state RUNNING (new (Q := list))) [])
    (take_round (set_state RUNNING new)).
Proof. apply (take_round_refined 0 0 [Idle; Idle] []). cbn. lia. Defined.

(** ** Two remarks of the code that do not hold *)

(** The fields [overload] and [overload_threshold] are not touched by the holder only:
    [take_work] stores the threshold after it has released the mailbox, when
    another worker may already hold the service. *)
Lemma threshold_store_races :
  ∃ s, rtc step (init (Q := list) 1) s
    ∧ threads s !! 0%nat = Some TThreshold ∧ threads s !! 1%nat = Some Hold.
Proof.
  eexists. split; [|split].
  - apply (schedule_rtc [(0, CStep); (0, CPop); (0, CStep); (0, CTake); (0, CStep); (0, CStep); (0, CStep);
      (0, CStep); (1, CNotify); (1, CStep); (1, CStep); (1, CStep); (1, CPop); (1, CStep)]%nat).
    vm_compute. reflexivity.
  - reflexivity.
  - reflexivity.
Qed.

(** A notified holder does not always find work in its second scan: the message may
    have been taken before its producer got to [notify]. *)
Lemma notified_scan_may_be_empty :
  ∃ s, rtc step (init (Q := list) 1) s
    ∧ threads s !! 0%nat = Some TReset ∧ pushed s = [demo_msg] ∧ ¬ has_work (mb s).
Proof.
  eexists. split_and!.
  - apply (schedule_rtc [(0, CStep); (0, CPop); (0, CStep); (1, CSend demo_msg); (1, CStep); (1, CStep);
      (0, CTake); (0, CStep); (0, CStep); (0, CStep); (0, CStep); (0, CStep);
      (0, CTake); (0, CStep); (0, CStep); (0, CStep); (1, CStep); (1, CStep); (0, CStep)]%nat).
    vm_compute. reflexivity.
  - reflexivity.
  - reflexivity.
  - by intros [?|?].
Qed.

End Concurrent.
