(* ===== verification/Bwos.v ===== *)
(** * The block-based work-stealing queue

    Models [rskynet-core/src/bwos.rs]: blocks of slots whose [head], [tail],
    [steal_count] and [steal_tail] words encode a generation in the high 56 bits and
    a slot index in the low 8, and the queue that chains them by a logical block
    sequence.  Each queue operation is one step: thieves that race inside a block are
    not interleaved.  A slot is [None] until it is written; reading such a
    slot, an assertion failure and a [reclaim] that spins forever all make an
    operation return [None]. *)
From S2P Require Import Prelude.

Module Bwos.

Definition SLOT_BITS : Z := 8.
Definition SLOT_MASK : Z := Z.shiftl 1 SLOT_BITS - 1.
Definition PREV_GEN_0 : Z := Z.shiftl 1 (64 - SLOT_BITS) - 1.
Definition MAX_GENERATION : Z := Z.shiftl 1 (64 - SLOT_BITS) - 1.
Definition NUM_BLOCKS : nat := 64.
Definition BLOCK_SIZE : nat := 16.

(** [x << k] on a [u64]. *)
Definition shl64 (x k : Z) : Z := wrap64 (Z.shiftl x k).

Section bwos.
Context {T : Type}.

Inductive Pushed : Type := Local | Granted.

Inductive Steal : Type :=
  | Taken (value : T)
  | Empty
  | Conflict
  | Done.

Record Block : Type := mkBlock {
  head : Z;
  tail : Z;
  steal_count : Z;
  steal_tail : Z;
  ring : list (option T);
}.

Definition block_size (b : Block) : Z := Z.of_nat (length (ring b)).

Definition block_new (block_size : nat) : Block :=
  let size := Z.of_nat block_size in
  let initial := Z.lor (shl64 PREV_GEN_0 SLOT_BITS) size in
  mkBlock initial size size initial (replicate block_size None).

Definition put (value : T) (b : Block) : option Block :=
  let back := tail b in
  if decide (back < block_size b) then
    Some (mkBlock (head b) (back + 1) (steal_count b) (steal_tail b)
            (<[Z.to_nat back := Some value]> (ring b)))
  else None.

(** The outer [None] is a read of a slot that was never written. *)
Definition get (b : Block) : option (Block * option T) :=
  let back := tail b in
  if decide (back = 0) then Some (b, None) else
  let front_idx := Z.land (head b) SLOT_MASK in
  if decide (front_idx = back) then Some (b, None) else
  match ring b !! Z.to_nat (back - 1) with
  | Some (Some value) =>
      Some (mkBlock (head b) (back - 1) (steal_count b) (steal_tail b) (ring b), Some value)
  | _ => None
  end.

(** [steal] with no other thief: the compare-exchange cannot fail. *)
Definition steal (thief_generation : Z) (b : Block) : option (Block * Steal) :=
  let spos := steal_tail b in
  let sidx := Z.land spos SLOT_MASK in
  let generation := Z.shiftr spos SLOT_BITS in
  if decide (generation ≠ thief_generation) then Some (b, Empty) else
  if decide (sidx = block_size b) then Some (b, Done) else
  let back := tail b in
  if decide (sidx = back) then Some (b, Empty) else
  match ring b !! Z.to_nat sidx with
  | Some (Some value) =>
      Some (mkBlock (head b) (tail b) (steal_count b + 1) (spos + 1) (ring b), Taken value)
  | _ => None
  end.

Definition takeover (b : Block) : Block :=
  mkBlock (steal_tail b) (tail b) (steal_count b) (head b) (ring b).

Definition grant (b : Block) : Block :=
  let block_end := steal_tail b in
  let old_head := head b in
  mkBlock block_end (tail b) (steal_count b) old_head (ring b).

Definition is_writable (generation : Z) (b : Block) : bool :=
  let writable := Z.lor (shl64 (generation -w 1) SLOT_BITS) (block_size b) in
  bool_decide (steal_tail b = writable).

Definition reclaim (generation : Z) (b : Block) : option Block :=
  let expected := Z.land (head b) SLOT_MASK in
  if decide (steal_count b = expected) then
    let expanded := shl64 generation SLOT_BITS in
    Some (mkBlock expanded 0 0 (Z.lor expanded (block_size b)) (ring b))
  else None.

Definition reduce_generation (b : Block) : Block :=
  mkBlock (head b) (tail b) (steal_count b) (steal_tail b -w Z.shiftl 1 SLOT_BITS) (ring b).

(** The slots [Drop] drops: those from the smaller of the two boundaries up to the
    tail. *)
Definition block_live (b : Block) : list (option T) :=
  let head_idx := Z.land (head b) SLOT_MASK in
  let steal_idx := Z.land (steal_tail b) SLOT_MASK in
  let tail_idx := Z.land (tail b) SLOT_MASK in
  let lo := Z.min head_idx steal_idx in
  take (Z.to_nat (tail_idx - lo)) (drop (Z.to_nat lo) (ring b)).

Record LifoQueue : Type := mkQueue {
  last_block : Z;
  start_block : Z;
  blocks : list Block;
  mask : Z;
  block_shift : Z;
}.

(** [usize::is_power_of_two] and [trailing_zeros] of a power of two. *)
Definition is_power_of_two (n : Z) : bool := bool_decide (0 < n ∧ n = 2 ^ Z.log2 n).

Definition queue_new (num_blocks block_size : nat) : option LifoQueue :=
  if decide (2 ≤ Z.of_nat num_blocks ∧ is_power_of_two (Z.of_nat num_blocks) = true) then
    if decide (0 < block_size)%nat then
      if decide (Z.of_nat block_size < Z.shiftl 1 SLOT_BITS) then
        b0 ← reclaim 0 (block_new block_size);
        Some (mkQueue 0 0 (<[0%nat := b0]> (replicate num_blocks (block_new block_size)))
                (Z.of_nat num_blocks - 1) (Z.log2 (Z.of_nat num_blocks)))
      else None
    else None
  else None.

Definition index (q : LifoQueue) (sequence : Z) : nat := Z.to_nat (Z.land sequence (mask q)).

Definition block_at (q : LifoQueue) (sequence : Z) : option Block := blocks q !! index q sequence.

Definition set_block (q : LifoQueue) (sequence : Z) (b : Block) : LifoQueue :=
  mkQueue (last_block q) (start_block q) (<[index q sequence := b]> (blocks q)) (mask q) (block_shift q).

Definition set_last (q : LifoQueue) (l : Z) : LifoQueue :=
  mkQueue l (start_block q) (blocks q) (mask q) (block_shift q).

Definition set_start (q : LifoQueue) (s : Z) : LifoQueue :=
  mkQueue (last_block q) s (blocks q) (mask q) (block_shift q).

Definition next_sequence (q : LifoQueue) (sequence : Z) : option Z :=
  next ← checked_add sequence 1;
  if decide (Z.shiftr next (block_shift q) ≤ MAX_GENERATION) then Some next else None.

Definition previous_sequence (sequence : Z) : option Z := checked_sub sequence 1.

(** [advance_put_index]: [Some (q, None)] is [false], [Some (q, Some owner)] is [true]
    with the new owner sequence. *)
Definition advance_put_index (q : LifoQueue) (owner : Z) : option (LifoQueue * option Z) :=
  next ← next_sequence q owner;
  if decide (index q next = index q owner) then Some (q, None) else
  let next_generation := Z.shiftr next (block_shift q) in
  next_block ← block_at q next;
  if negb (is_writable next_generation next_block) then Some (q, None) else
  let first := start_block q in
  q ← (if decide (index q next = index q first)
       then s ← next_sequence q first; Some (set_start q s) else Some q);
  owner_block ← block_at q owner;
  let q := set_block q owner (grant owner_block) in
  next_block ← block_at q next;
  next_block ← reclaim next_generation next_block;
  let q := set_block q next next_block in
  Some (set_last q next, Some next).

Definition advance_get_index (q : LifoQueue) (owner : Z) : option (LifoQueue * option Z) :=
  if decide (start_block q = owner) then Some (q, None) else
  predecessor ← previous_sequence owner;
  b ← block_at q owner;
  let q := set_block q owner (reduce_generation b) in
  p ← block_at q predecessor;
  let q := set_block q predecessor (takeover p) in
  Some (set_last q predecessor, Some predecessor).

(** The [loop] of [push_back]: a fresh block accepts a value, so two rounds. *)
Fixpoint push_loop (fuel : nat) (q : LifoQueue) (owner : Z) (granted : bool) (value : T)
    : option (LifoQueue * option Pushed) :=
  match fuel with
  | O => None
  | S fuel =>
      b ← block_at q owner;
      match put value b with
      | Some b => Some (set_block q owner b, Some (if granted then Granted else Local))
      | None =>
          '(q, o) ← advance_put_index q owner;
          match o with
          | None => Some (q, None)
          | Some owner => push_loop fuel q owner true value
          end
      end
  end.

Definition push_back (value : T) (q : LifoQueue) : option (LifoQueue * option Pushed) :=
  push_loop 2 q (last_block q) false value.

(** The [loop] of [pop_back] walks back over at most all blocks. *)
Fixpoint pop_loop (fuel : nat) (q : LifoQueue) (owner : Z) : option (LifoQueue * option T) :=
  match fuel with
  | O => None
  | S fuel =>
      b ← block_at q owner;
      '(b, o) ← get b;
      match o with
      | Some value => Some (set_block q owner b, Some value)
      | None =>
          '(q, o) ← advance_get_index q owner;
          match o with
          | None => Some (q, None)
          | Some owner => pop_loop fuel q owner
          end
      end
  end.

Definition pop_back (q : LifoQueue) : option (LifoQueue * option T) :=
  pop_loop (length (blocks q)) q (last_block q).

Fixpoint steal_loop (fuel : nat) (q : LifoQueue) (thief : Z) : option (LifoQueue * option T) :=
  match fuel with
  | O => None
  | S fuel =>
      b ← block_at q thief;
      '(b, r) ← steal (Z.shiftr thief (block_shift q)) b;
      match r with
      | Taken value => Some (set_block q thief b, Some value)
      | Empty => Some (q, None)
      | Conflict => steal_loop fuel q thief
      | Done =>
          thief ← next_sequence q thief;
          if decide (thief < last_block q) then steal_loop fuel q thief else Some (q, None)
      end
  end.

(** A thief visits each block of the window at most once. *)
Definition steal_front (q : LifoQueue) : option (LifoQueue * option T) :=
  steal_loop (length (blocks q)) q (start_block q).

(** ** The packed words *)

(** Generation [g] (modulo 2^56) and slot [i]. *)
Definition word (g i : Z) : Z := (g mod 2 ^ 56) * 256 + i.

Lemma slot_of x : Z.land x SLOT_MASK = x mod 256.
Proof. change SLOT_MASK with (Z.ones 8). by rewrite Z.land_ones. Qed.

Lemma word_slot g i : 0 ≤ i < 256 → Z.land (word g i) SLOT_MASK = i.
Proof. intros Hi. rewrite slot_of. unfold word. rewrite Z.add_comm, Z.mod_add by lia. by apply Z.mod_small. Qed.

Lemma word_gen g i : 0 ≤ i < 256 → Z.shiftr (word g i) SLOT_BITS = g mod 2 ^ 56.
Proof.
  intros Hi. unfold word, SLOT_BITS. rewrite Z.shiftr_div_pow2 by lia. change (2 ^ 8) with 256.
  rewrite Z.div_add_l, Z.div_small by lia. lia.
Qed.

Lemma shl_word g : shl64 g SLOT_BITS = word g 0.
Proof.
  unfold shl64, wrap64, word, SLOT_BITS. rewrite Z.shiftl_mul_pow2 by lia. change (2 ^ 8) with 256.
  change (2 ^ 64) with (2 ^ 56 * 256). rewrite Z.mul_mod_distr_r by lia. lia.
Qed.

Lemma lor_word g i : 0 ≤ i < 256 → Z.lor (word g 0) i = word g i.
Proof.
  intros Hi. unfold word. rewrite Z.add_0_r. symmetry. apply Z.add_nocarry_lor. apply Z.bits_inj'. intros n Hn.
  rewrite Z.land_spec, Z.bits_0. destruct (decide (n < 8)).
  - change 256 with (2 ^ 8). by rewrite Z.mul_pow2_bits_low by lia.
  - rewrite <-(Z.mod_small i (2 ^ 8)) by lia. by rewrite Z.mod_pow2_bits_high, andb_false_r by lia.
Qed.

Lemma word_wrap g i : word (wrap64 g) i = word g i.
Proof.
  unfold word, wrap64. f_equal. f_equal. change (2 ^ 64) with (2 ^ 56 * 256).
  rewrite Z.rem_mul_r by lia. rewrite Z.mul_comm, Z.mod_add by lia. apply Z.mod_mod. lia.
Qed.

Lemma word_pred g i : 0 ≤ i < 256 → word g i -w Z.shiftl 1 SLOT_BITS = word (g - 1) i.
Proof.
  intros Hi. unfold word, wrapping_sub, wrap64. change (Z.shiftl 1 SLOT_BITS) with 256.
  change (2 ^ 64) with (2 ^ 56 * 256).
  rewrite <-(Z.mod_small i 256) at 2 by lia.
  replace (g mod 2 ^ 56 * 256 + i - 256) with ((g mod 2 ^ 56 - 1) * 256 + i) by lia.
  rewrite (Z.mul_comm (2 ^ 56)), Z.rem_mul_r by lia.
  rewrite (Z.add_comm (_ * 256) i), Z.mod_add, Z.div_add by lia.
  rewrite Z.mod_small, (Z.div_small i 256) by lia. rewrite Z.add_0_l, Zminus_mod_idemp_l. lia.
Qed.

Lemma word_inj g g' i i' :
  0 ≤ i < 256 → 0 ≤ i' < 256 → word g i = word g' i' → g mod 2 ^ 56 = g' mod 2 ^ 56 ∧ i = i'.
Proof.
  intros Hi Hi' Heq. split.
  - by rewrite <-(word_gen g i), <-(word_gen g' i'), Heq.
  - by rewrite <-(word_slot g i), <-(word_slot g' i'), Heq.
Qed.

(** ** Blocks and their roles *)

Section roles.
Context (B : nat) (HB : 0 < Z.of_nat B < 256).

Abbreviation BZ := (Z.of_nat B).

(** Behind the owner: open to thieves, the first [k] slots are stolen. *)
Record granted (g : Z) (b : Block) (k : Z) (xs : list T) : Prop := {
  gr_ring : length (ring b) = B;
  gr_head : head b = word g BZ;
  gr_tail : tail b = BZ;
  gr_steal : steal_tail b = word g k;
  gr_count : steal_count b = k;
  gr_k : 0 ≤ k ≤ BZ;
  gr_slots : drop (Z.to_nat k) (ring b) = Some <$> xs;
}.

(** The owner's block: it takes from [k] up to the tail, thieves see it as done. *)
Record active (g : Z) (b : Block) (k : Z) (xs : list T) : Prop := {
  ac_ring : length (ring b) = B;
  ac_head : head b = word g k;
  ac_k : 0 ≤ k ≤ tail b;
  ac_tail : tail b ≤ BZ;
  ac_steal : steal_tail b = word g BZ;
  ac_count : steal_count b = k;
  ac_slots : take (Z.to_nat (tail b - k)) (drop (Z.to_nat k) (ring b)) = Some <$> xs;
}.

(** Ahead of the owner: empty, to be reused for generation [g]. *)
Record free (g : Z) (b : Block) : Prop := {
  fr_ring : length (ring b) = B;
  fr_steal : steal_tail b = word (g - 1) BZ;
  fr_count : steal_count b = Z.land (head b) SLOT_MASK;
  fr_empty : block_live b = [];
}.

Lemma granted_length g b k xs : granted g b k xs → Z.of_nat (length xs) = BZ - k.
Proof. intros []. apply (f_equal length) in gr_slots0. rewrite length_drop, length_fmap in *. lia. Qed.

Lemma active_length g b k xs : active g b k xs → Z.of_nat (length xs) = tail b - k.
Proof.
  intros []. apply (f_equal length) in ac_slots0. rewrite length_take, length_drop, length_fmap in *. lia.
Qed.

(** The range [Drop] uses is exactly the block's content, whatever its role. *)
Lemma granted_live g b k xs : granted g b k xs → block_live b = Some <$> xs.
Proof.
  intros Hg. pose proof (granted_length _ _ _ _ Hg). destruct Hg. unfold block_live.
  rewrite gr_head0, gr_steal0, gr_tail0, !word_slot by lia.
  rewrite <-(Z.mod_small BZ 256) at 2 by lia. rewrite slot_of, !(Z.mod_small BZ) by lia.
  rewrite Z.min_r by lia. rewrite gr_slots0, take_ge; [done|]. rewrite length_fmap. lia.
Qed.

Lemma active_live g b k xs : active g b k xs → block_live b = Some <$> xs.
Proof.
  intros []. unfold block_live. rewrite ac_head0, ac_steal0, !word_slot by lia.
  rewrite slot_of, (Z.mod_small (tail b)) by lia. by rewrite Z.min_l by lia.
Qed.

Lemma take_put (l : list (option T)) (a t : nat) v xs :
  (a ≤ t)%nat → (t < length l)%nat → take (t - a) (drop a l) = Some <$> xs →
  take (S t - a) (drop a (<[t := Some v]> l)) = Some <$> (xs ++ [v]).
Proof.
  intros Ha Ht Hx. rewrite drop_insert_ge by lia. replace (S t - a)%nat with (S (t - a)) by lia.
  rewrite (take_S_r _ _ (Some v)) by (apply list_lookup_insert_eq; rewrite length_drop; lia).
  by rewrite take_insert_ge, Hx, fmap_app by lia.
Qed.

Lemma put_active g b k xs v :
  active g b k xs → tail b < BZ → ∃ b', put v b = Some b' ∧ active g b' k (xs ++ [v]).
Proof.
  intros [] Ht. unfold put, block_size. rewrite ac_ring0, decide_True by done. eexists. split; [done|].
  split; cbn; rewrite ?length_insert; try done; try lia.
  replace (Z.to_nat (tail b + 1 - k)) with (S (Z.to_nat (tail b)) - Z.to_nat k)%nat by lia.
  apply take_put; [lia|lia|]. by replace (Z.to_nat (tail b) - Z.to_nat k)%nat with (Z.to_nat (tail b - k)) by lia.
Qed.

Lemma put_full g b k xs v : active g b k xs → tail b = BZ → put v b = None.
Proof. intros [] Ht. unfold put, block_size. rewrite ac_ring0. by rewrite decide_False by lia. Qed.

Lemma get_active_snoc g b k xs v :
  active g b k (xs ++ [v]) → ∃ b', get b = Some (b', Some v) ∧ active g b' k xs.
Proof.
  intros Ha. pose proof (active_length _ _ _ _ Ha) as Hl. rewrite length_app in Hl. cbn in Hl.
  destruct Ha. unfold get. rewrite decide_False by lia. rewrite ac_head0, word_slot, decide_False by lia.
  assert (Hlk : ring b !! Z.to_nat (tail b - 1) = Some (Some v)).
  { assert (Hx : (Some <$> (xs ++ [v])) !! length xs = Some (Some v)).
    { by rewrite fmap_app, fmap_cons, list_lookup_middle by (by rewrite length_fmap). }
    rewrite <-ac_slots0, lookup_take_lt, lookup_drop in Hx by lia. rewrite <-Hx. f_equal. lia. }
  rewrite Hlk. eexists. split; [done|]. split; cbn; try done; try lia.
  replace (Z.to_nat (tail b - 1 - k)) with (length xs) by lia.
  apply (f_equal (take (length xs))) in ac_slots0. rewrite take_take, Nat.min_l in ac_slots0 by lia.
  by rewrite ac_slots0, fmap_app, take_app_length' by (by rewrite length_fmap).
Qed.

Lemma get_active_nil g b k : active g b k [] → get b = Some (b, None).
Proof.
  intros Ha. pose proof (active_length _ _ _ _ Ha) as Hl. cbn in Hl. destruct Ha. unfold get.
  case_decide; [done|]. rewrite ac_head0, word_slot, decide_True by lia. done.
Qed.

Lemma grant_active g b k xs : active g b k xs → tail b = BZ → granted g (grant b) k xs.
Proof.
  intros [] Ht. split; cbn; try done; try lia. rewrite <-ac_slots0, take_ge; [done|].
  rewrite length_drop. lia.
Qed.

Lemma takeover_granted g b k xs : granted g b k xs → active g (takeover b) k xs.
Proof.
  intros []. split; cbn; try done; try lia. rewrite gr_tail0, <-gr_slots0, take_ge; [done|].
  rewrite length_drop. lia.
Qed.

Lemma reclaim_free g b : free g b → ∃ b', reclaim g b = Some b' ∧ active g b' 0 [] ∧ tail b' = 0.
Proof.
  intros []. unfold reclaim. rewrite fr_count0, decide_True by done. eexists. split; [done|].
  unfold block_size. rewrite fr_ring0, shl_word, lor_word by lia. by split; [split; cbn; try done; lia|].
Qed.

Lemma is_writable_spec g b : length (ring b) = B → is_writable g b = bool_decide (steal_tail b = word (g - 1) BZ).
Proof.
  intros Hr. unfold is_writable, block_size, wrapping_sub.
  by rewrite Hr, shl_word, word_wrap, lor_word by lia.
Qed.

Lemma free_writable g b : free g b → is_writable g b = true.
Proof. intros []. rewrite is_writable_spec by done. by apply bool_decide_eq_true. Qed.

(** A granted block whose elements are all stolen is free for the next generation. *)
Lemma granted_exhausted g b : granted g b BZ [] → free (g + 1) b.
Proof.
  intros Hg. pose proof (granted_live _ _ _ _ Hg). destruct Hg. split; try done.
  - by replace (g + 1 - 1) with g by lia.
  - by rewrite gr_head0, word_slot, gr_count0 by lia.
Qed.

Lemma granted_not_writable g b k xs :
  granted g b k xs → xs ≠ [] → is_writable (g + 1) b = false.
Proof.
  intros Hg Hx. pose proof (granted_length _ _ _ _ Hg) as Hl. destruct Hg. rewrite is_writable_spec by done.
  apply bool_decide_eq_false. rewrite gr_steal0. intros [_ Heq]%word_inj; [|lia..]. destruct xs; [done|].
  cbn in Hl. lia.
Qed.

(** The block the owner leaves backwards is empty and reusable for its own
    generation. *)
Lemma reduce_active g b k : active g b k [] → free g (reduce_generation b).
Proof.
  intros Ha. pose proof (active_length _ _ _ _ Ha) as Hl. cbn in Hl. destruct Ha.
  assert (Hst : steal_tail (reduce_generation b) = word (g - 1) BZ) by (cbn; by rewrite ac_steal0, word_pred by lia).
  split; try done.
  - cbn. by rewrite ac_head0, word_slot, ac_count0 by lia.
  - unfold block_live. rewrite Hst. cbn. rewrite ac_head0, !word_slot, slot_of, (Z.mod_small (tail b)) by lia.
    rewrite Z.min_l by lia. by replace (Z.to_nat (tail b - k)) with 0%nat by lia.
Qed.

Lemma steal_granted_cons g b k x xs :
  granted g b k (x :: xs) → 0 ≤ g < 2 ^ 56 →
  ∃ b', steal g b = Some (b', Taken x) ∧ granted g b' (k + 1) xs.
Proof.
  intros Hg Hgen. pose proof (granted_length _ _ _ _ Hg) as Hl. cbn in Hl. destruct Hg. unfold steal, block_size.
  rewrite gr_steal0, word_gen, (Z.mod_small g) by lia. rewrite decide_False by (intros Hn; by apply Hn).
  rewrite word_slot, gr_ring0, gr_tail0, decide_False, decide_False by lia.
  assert (Hlk : ring b !! Z.to_nat k = Some (Some x)).
  { rewrite <-(Nat.add_0_r (Z.to_nat k)), <-lookup_drop, gr_slots0. done. }
  rewrite Hlk. eexists. split; [done|]. split; cbn; try done; try lia.
  - unfold word. lia.
  - replace (Z.to_nat (k + 1)) with (Z.to_nat k + 1)%nat by lia. by rewrite <-drop_drop, gr_slots0.
Qed.

Lemma steal_granted_nil g b k :
  granted g b k [] → 0 ≤ g < 2 ^ 56 → steal g b = Some (b, Done).
Proof.
  intros Hg Hgen. pose proof (granted_length _ _ _ _ Hg) as Hl. cbn in Hl. destruct Hg. unfold steal, block_size.
  rewrite gr_steal0, word_gen, (Z.mod_small g) by lia. rewrite decide_False by (intros Hn; by apply Hn).
  by rewrite word_slot, gr_ring0, decide_True by lia.
Qed.

Lemma steal_active g b k xs : active g b k xs → 0 ≤ g < 2 ^ 56 → steal g b = Some (b, Done).
Proof.
  intros [] Hgen. unfold steal, block_size.
  rewrite ac_steal0, word_gen, (Z.mod_small g) by lia. rewrite decide_False by (intros Hn; by apply Hn).
  by rewrite word_slot, ac_ring0, decide_True by lia.
Qed.

Lemma free_new : free 0 (block_new B).
Proof.
  assert (Hinit : Z.lor (shl64 PREV_GEN_0 SLOT_BITS) BZ = word (-1) BZ).
  { by rewrite shl_word, lor_word by lia. }
  split; cbn; rewrite ?Hinit; [by apply length_replicate|done|by rewrite word_slot by lia|].
  unfold block_live. cbn. rewrite Hinit, word_slot, slot_of, Z.mod_small by lia.
  by replace (Z.to_nat (BZ - BZ `min` BZ)) with 0%nat by lia.
Qed.

(** ** The window of blocks *)

Context (sh : nat) (Hsh : (1 ≤ sh)%nat).

Abbreviation N := (2 ^ Z.of_nat sh).

Lemma N_ge2 : 2 ≤ N.
Proof. change 2 with (2 ^ 1) at 1. apply Z.pow_le_mono_r; lia. Qed.

Record dims (q : LifoQueue) : Prop := {
  d_blocks : Z.of_nat (length (blocks q)) = N;
  d_mask : mask q = N - 1;
  d_shift : block_shift q = Z.of_nat sh;
}.

Definition gen (sequence : Z) : Z := sequence / N.

Lemma gen_shift q sq : dims q → Z.shiftr sq (block_shift q) = gen sq.
Proof. intros Hd. rewrite (d_shift _ Hd). apply Z.shiftr_div_pow2. lia. Qed.

Lemma index_mod q sq : dims q → index q sq = Z.to_nat (sq mod N).
Proof.
  intros Hd. unfold index. rewrite (d_mask _ Hd), Z.sub_1_r, <-Z.ones_equiv, Z.land_ones by lia. done.
Qed.

Lemma index_lt q sq : dims q → (index q sq < length (blocks q))%nat.
Proof.
  intros Hd. rewrite index_mod by done. pose proof (d_blocks _ Hd). pose proof N_ge2.
  pose proof (Z.mod_pos_bound sq N ltac:(lia)). lia.
Qed.

(** Two sequences in one window share a block only if they are equal. *)
Lemma index_inj q s0 a b :
  dims q → s0 ≤ a < s0 + N → s0 ≤ b < s0 + N → index q a = index q b → a = b.
Proof.
  intros Hd Ha Hb. rewrite !index_mod by done. pose proof N_ge2. intros Heq.
  pose proof (Z.mod_pos_bound a N ltac:(lia)). pose proof (Z.mod_pos_bound b N ltac:(lia)).
  assert (Hm : a mod N = b mod N) by lia.
  pose proof (Z.div_mod a N ltac:(lia)). pose proof (Z.div_mod b N ltac:(lia)).
  destruct (Z.lt_trichotomy (a / N) (b / N)) as [Hlt|[Heq'|Hlt]]; [nia|congruence|nia].
Qed.

Lemma index_wrap q sq : dims q → index q (sq + N) = index q sq.
Proof.
  intros Hd. rewrite !index_mod by done. pose proof N_ge2. f_equal.
  rewrite <-(Z.mul_1_l N) at 1. apply Z.mod_add. lia.
Qed.

Lemma gen_wrap sq : gen (sq + N) = gen sq + 1.
Proof. unfold gen. pose proof N_ge2. rewrite <-(Z.mul_1_l N) at 1. apply Z.div_add. lia. Qed.

Lemma dims_set_block q sq b : dims q → dims (set_block q sq b).
Proof. intros []. split; cbn; try done. by rewrite length_insert. Qed.

Lemma block_at_set_block q sq b sq' :
  dims q → block_at (set_block q sq b) sq' = if decide (index q sq' = index q sq) then Some b else block_at q sq'.
Proof.
  intros Hd. unfold block_at. change (index (set_block q sq b) sq') with (index q sq'). cbn. case_decide as He.
  - rewrite He. apply list_lookup_insert_eq. by apply index_lt.
  - apply list_lookup_insert_ne. congruence.
Qed.

(** The granted blocks from [start_block] on, each with its steal position and its
    remaining elements, then the owner's block; the other blocks of the window are
    free.  Once a block still has elements to steal, no later block was stolen
    from. *)
Record rep (q : LifoQueue) (gs : list (Z * list T)) (ka : Z) (x : list T) : Prop := {
  rep_dims : dims q;
  rep_range : 0 ≤ start_block q ∧ last_block q = start_block q + Z.of_nat (length gs)
    ∧ Z.of_nat (length gs) < N ∧ gen (last_block q) ≤ MAX_GENERATION ∧ last_block q ≤ U64_MAX;
  rep_granted : ∀ j k xs, gs !! j = Some (k, xs) →
    ∃ b, block_at q (start_block q + Z.of_nat j) = Some b ∧ granted (gen (start_block q + Z.of_nat j)) b k xs;
  rep_active : ∃ b, block_at q (last_block q) = Some b ∧ active (gen (last_block q)) b ka x;
  rep_free : ∀ sq, last_block q < sq < start_block q + N → ∃ b, block_at q sq = Some b ∧ free (gen sq) b;
  rep_order : ∀ i j ki xi kj xj, (i < j)%nat → gs !! i = Some (ki, xi) → xi ≠ [] →
    (gs ++ [(ka, x)]) !! j = Some (kj, xj) → kj = 0;
}.

Lemma gen_nonneg sq : 0 ≤ sq → 0 ≤ gen sq.
Proof. intros. unfold gen. pose proof N_ge2. apply Z.div_pos; lia. Qed.

Lemma gen_mono a b : a ≤ b → gen a ≤ gen b.
Proof. intros. unfold gen. pose proof N_ge2. apply Z.div_le_mono; lia. Qed.

(** The sequence counter is not exhausted. *)
Definition has_seq (q : LifoQueue) : Prop :=
  gen (last_block q + 1) ≤ MAX_GENERATION ∧ last_block q + 1 ≤ U64_MAX.

Lemma next_sequence_ok q sq :
  dims q → sq + 1 ≤ U64_MAX → gen (sq + 1) ≤ MAX_GENERATION → next_sequence q sq = Some (sq + 1).
Proof.
  intros Hd Hu Hg. unfold next_sequence, checked_add. rewrite decide_True by done. cbn.
  rewrite gen_shift by done. by rewrite decide_True.
Qed.

(** ** Steps of the owner *)

Lemma rep_set_active q gs ka x b' ka' x' :
  rep q gs ka x → active (gen (last_block q)) b' ka' x' →
  (∀ ki xi, (ki, xi) ∈ gs → xi ≠ [] → ka' = 0) →
  rep (set_block q (last_block q) b') gs ka' x'.
Proof.
  intros Hr Ha Ho. pose proof (rep_dims _ _ _ _ Hr) as Hd. pose proof (rep_range _ _ _ _ Hr) as (Hs & Hl & Hn & Hg & Hu).
  pose proof N_ge2.
  assert (Hne : ∀ sq, start_block q ≤ sq < start_block q + N → sq ≠ last_block q →
    block_at (set_block q (last_block q) b') sq = block_at q sq).
  { intros sq Hsq Hneq. rewrite block_at_set_block by done. rewrite decide_False; [done|].
    intros Heq. apply Hneq. eapply (index_inj q (start_block q)); [done|lia|lia|done]. }
  split; [by apply dims_set_block|done| | | |]; cbn.
  - intros j k xs Hj. apply lookup_lt_Some in Hj as Hlt. rewrite Hne by lia. by apply (rep_granted _ _ _ _ Hr).
  - exists b'. split; [|done]. rewrite block_at_set_block by done. by rewrite decide_True.
  - intros sq Hsq. rewrite Hne by lia. by apply (rep_free _ _ _ _ Hr).
  - intros i j ki xi kj xj Hij Hi Hx Hj. apply lookup_app_Some in Hj as [Hj|[_ Hj]].
    + eapply (rep_order _ _ _ _ Hr); [done|done|done|]. rewrite lookup_app_l; [done|]. by eapply lookup_lt_Some.
    + apply list_lookup_singleton_Some in Hj as [_ [= <- <-]]. eapply Ho; [|done]. by eapply list_elem_of_lookup_2.
Qed.

Lemma active_order q gs ka x ki xi : rep q gs ka x → (ki, xi) ∈ gs → xi ≠ [] → ka = 0.
Proof.
  intros Hr [i Hi]%list_elem_of_lookup Hx. apply lookup_lt_Some in Hi as Hlt.
  eapply (rep_order _ _ _ _ Hr i (length gs)); [done|done|done|]. by rewrite list_lookup_middle.
Qed.

(** The window seen from start [s1]: the granted blocks [gs1] up to the owner, the free
    ones after it. *)
Definition window (q : LifoQueue) (s1 : Z) (gs1 : list (Z * list T)) : Prop :=
  last_block q = s1 + Z.of_nat (length gs1) ∧ Z.of_nat (length gs1) + 1 < N ∧ 0 ≤ s1
  ∧ (∀ j k xs, gs1 !! j = Some (k, xs) →
       ∃ b, block_at q (s1 + Z.of_nat j) = Some b ∧ granted (gen (s1 + Z.of_nat j)) b k xs)
  ∧ (∀ sq, last_block q < sq < s1 + N → ∃ b, block_at q sq = Some b ∧ free (gen sq) b).

Lemma rep_window q gs ka x : rep q gs ka x → Z.of_nat (length gs) + 1 < N → window q (start_block q) gs.
Proof. intros [Hd (?&?&?&?&?) Hg Ha Hf Ho] Hn. by split_and!; try lia. Qed.

(** A full window slides over its first block once that is stolen empty. *)
Lemma rep_slide q gs ka x k0 :
  rep q ((k0, []) :: gs) ka x → Z.of_nat (length gs) + 2 = N → window q (start_block q + 1) gs.
Proof.
  intros [Hd (Hs & Hl & _) Hg Ha Hf Ho] Hn. cbn in Hl. split_and!; [lia|lia|lia| |].
  - intros j k xs Hj. destruct (Hg (S j) k xs Hj) as (b & Hb & Hgr).
    replace (start_block q + 1 + Z.of_nat j) with (start_block q + Z.of_nat (S j)) by lia. eauto.
  - intros sq Hsq. assert (sq = start_block q + N) as -> by lia.
    destruct (Hg 0%nat k0 [] eq_refl) as (b & Hb & Hgr). rewrite Z.add_0_r in *.
    exists b. split; [unfold block_at in *; by rewrite index_wrap|].
    rewrite gen_wrap. apply granted_exhausted. pose proof (granted_length _ _ _ _ Hgr) as Hlen. cbn in Hlen.
    by replace BZ with k0 by lia.
Qed.

Lemma advance_window q s1 gs1 ka x b nb nb' :
  dims q → window q s1 gs1 → has_seq q →
  active (gen (last_block q)) b ka x → tail b = BZ →
  block_at q (last_block q + 1) = Some nb → active (gen (last_block q + 1)) nb' 0 [] →
  (∀ i j ki xi kj xj, (i < j)%nat → gs1 !! i = Some (ki, xi) → xi ≠ [] →
    (gs1 ++ [(ka, x)]) !! j = Some (kj, xj) → kj = 0) →
  rep (set_last (set_block (set_block (set_start q s1) (last_block q) (grant b)) (last_block q + 1) nb')
         (last_block q + 1)) (gs1 ++ [(ka, x)]) 0 [].
Proof.
  intros Hd (Hl & Hn & Hs & Hg & Hf) [Hgen Hu] Ha Ht Hnb Hnb' Ho. pose proof N_ge2.
  set (q' := set_last _ _). assert (Hd1 : dims (set_start q s1)) by (destruct Hd; by split).
  assert (Hd' : dims q') by (destruct (dims_set_block _ (last_block q + 1) nb'
    (dims_set_block _ (last_block q) (grant b) Hd1)); by split).
  assert (Hat : ∀ sq, s1 ≤ sq < s1 + N → block_at q' sq =
     if decide (sq = last_block q + 1) then Some nb'
     else if decide (sq = last_block q) then Some (grant b) else block_at q sq).
  { intros sq Hsq. change (block_at q' sq) with
      (block_at (set_block (set_block (set_start q s1) (last_block q) (grant b)) (last_block q + 1) nb') sq).
    rewrite block_at_set_block by (by apply dims_set_block).
    change (index (set_block (set_start q s1) (last_block q) (grant b)) sq) with (index q sq).
    change (index (set_block (set_start q s1) (last_block q) (grant b)) (last_block q + 1)) with (index q (last_block q + 1)).
    destruct (decide (sq = last_block q + 1)) as [->|H1]; [by rewrite decide_True|].
    rewrite decide_False by (intros He; apply H1; eapply (index_inj q s1); [done|lia|lia|done]).
    rewrite block_at_set_block by done.
    change (index (set_start q s1) sq) with (index q sq).
    change (index (set_start q s1) (last_block q)) with (index q (last_block q)).
    destruct (decide (sq = last_block q)) as [->|H2]; [by rewrite decide_True|].
    by rewrite decide_False by (intros He; apply H2; eapply (index_inj q s1); [done|lia|lia|done]). }
  split; [done|cbn; rewrite length_app; cbn; split_and!; lia| | | |]; cbn.
  - intros j k xs Hj. apply lookup_lt_Some in Hj as Hlt. rewrite length_app in Hlt. cbn in Hlt.
    rewrite Hat by lia. rewrite decide_False by lia. apply lookup_app_Some in Hj as [Hj|[Hle Hj]].
    + apply lookup_lt_Some in Hj as Hlt'. rewrite decide_False by lia. by apply Hg.
    + assert (j = length gs1) as -> by lia. rewrite Nat.sub_diag in Hj. injection Hj as <- <-.
      rewrite decide_True by lia. exists (grant b). split; [done|]. rewrite <-Hl. by apply grant_active.
  - exists nb'. rewrite Hat by lia. by rewrite decide_True.
  - intros sq Hsq. rewrite Hat by lia. rewrite !decide_False by lia. apply Hf. lia.
  - intros i j ki xi kj xj Hij Hi Hx Hj. apply lookup_app_Some in Hj as [Hj|[_ Hj]].
    + apply lookup_app_Some in Hi as [Hi|[Hge Hi]]; [by eapply Ho|].
      apply lookup_lt_Some in Hj as Hlt. rewrite length_app in Hlt. cbn in Hlt. lia.
    + by apply list_lookup_singleton_Some in Hj as [_ [= <- <-]].
Qed.

(** What [advance_put_index] computes once the next block turned out writable. *)
Lemma advance_put_run q s1 gs1 ka x b :
  dims q → window q s1 gs1 → has_seq q → s1 ≤ last_block q →
  block_at q (last_block q) = Some b → active (gen (last_block q)) b ka x → tail b = BZ →
  (s1 = start_block q + 1 ↔ index q (last_block q + 1) = index q (start_block q)) →
  s1 = start_block q ∨ s1 = start_block q + 1 →
  (∀ i j ki xi kj xj, (i < j)%nat → gs1 !! i = Some (ki, xi) → xi ≠ [] →
    (gs1 ++ [(ka, x)]) !! j = Some (kj, xj) → kj = 0) →
  ∃ q', advance_put_index q (last_block q) = Some (q', Some (last_block q + 1))
    ∧ last_block q' = last_block q + 1 ∧ rep q' (gs1 ++ [(ka, x)]) 0 []
    ∧ ∃ b', block_at q' (last_block q + 1) = Some b' ∧ tail b' = 0.
Proof.
  intros Hd Hw Hseq Hs1 Hb Ha Ht Hiff Hcase Ho. pose proof Hw as (Hl & Hn & Hs & Hg & Hf). pose proof N_ge2.
  pose proof Hseq as [Hgen Hu].
  destruct (Hf (last_block q + 1) ltac:(lia)) as (nb & Hnb & Hfree).
  destruct (reclaim_free _ _ Hfree) as (nb' & Hrec & Hact & Htl).
  assert (Hne : index q (last_block q + 1) ≠ index q (last_block q)).
  { intros He. apply (index_inj q (last_block q)) in He; [lia|done|lia|lia]. }
  pose proof (advance_window q s1 gs1 ka x b nb nb' Hd Hw Hseq Ha Ht Hnb Hact Ho) as Hrep.
  unfold advance_put_index. rewrite (next_sequence_ok q (last_block q)) by done. cbn [mbind option_bind].
  rewrite decide_False by done. rewrite Hnb. cbn [mbind option_bind].
  rewrite gen_shift, (free_writable _ _ Hfree) by done. cbn [negb].
  assert (Hst : (if decide (index q (last_block q + 1) = index q (start_block q))
      then s ← next_sequence q (start_block q); Some (set_start q s) else Some q) = Some (set_start q s1)).
  { case_decide as Hi.
    - assert (s1 = start_block q + 1) as -> by by apply Hiff.
      rewrite next_sequence_ok; [done|done|lia|]. pose proof (gen_mono (start_block q + 1) (last_block q + 1)). lia.
    - destruct Hcase as [->|Heq]; [by destruct q|]. by apply Hiff in Heq. }
  rewrite Hst. cbn [mbind option_bind].
  change (block_at (set_start q s1) (last_block q)) with (block_at q (last_block q)). rewrite Hb. cbn [mbind option_bind].
  assert (Hd1 : dims (set_start q s1)) by (destruct Hd; by split).
  rewrite block_at_set_block by done.
  change (index (set_start q s1)) with (index q). rewrite decide_False by done.
  change (block_at (set_start q s1) (last_block q + 1)) with (block_at q (last_block q + 1)). rewrite Hnb.
  cbn [mbind option_bind]. rewrite Hrec. cbn [mbind option_bind].
  eexists. split; [done|]. split; [done|]. split; [exact Hrep|]. exists nb'. split; [|done].
  change (block_at (set_last ?q ?l) ?sq) with (block_at q sq).
  rewrite block_at_set_block by (by apply dims_set_block). by rewrite decide_True.
Qed.

Lemma push_fresh q gs v granted :
  rep q gs 0 [] → (∃ b, block_at q (last_block q) = Some b ∧ tail b = 0) →
  ∃ q', push_loop 1 q (last_block q) granted v = Some (q', Some (if granted then Granted else Local))
    ∧ rep q' gs 0 [v].
Proof.
  intros Hr (b & Hb & Ht). destruct (rep_active _ _ _ _ Hr) as (b' & Hb' & Ha).
  assert (b' = b) as -> by congruence. cbn [push_loop]. rewrite Hb. cbn [mbind option_bind].
  destruct (put_active _ _ _ _ v Ha) as (b' & Hp & Ha'); [lia|]. rewrite Hp. eexists. split; [done|].
  eapply rep_set_active; [exact Hr|done|done].
Qed.

(** The second round of [push_back] on a window that has room. *)
Lemma push_advance q s1 gs1 (gs : list (Z * list T)) ka x b v :
  dims q → has_seq q → block_at q (last_block q) = Some b → active (gen (last_block q)) b ka x → tail b = BZ →
  window q s1 gs1 → s1 ≤ last_block q →
  (s1 = start_block q + 1 ↔ index q (last_block q + 1) = index q (start_block q)) →
  s1 = start_block q ∨ s1 = start_block q + 1 →
  (∀ i j ki xi kj xj, (i < j)%nat → gs1 !! i = Some (ki, xi) → xi ≠ [] →
    (gs1 ++ [(ka, x)]) !! j = Some (kj, xj) → kj = 0) →
  concat (snd <$> gs1) = concat (snd <$> gs) →
  ∃ q' p gs' ka' x', push_back v q = Some (q', Some p)
   ∧ rep q' gs' ka' x' ∧ concat (snd <$> gs') ++ x' = (concat (snd <$> gs) ++ x) ++ [v]
   ∧ (p = Granted ↔ last_block q' = last_block q + 1) ∧ (p = Local ↔ last_block q' = last_block q).
Proof.
  intros Hd Hseq Hb Ha Ht Hw Hle Hiff Hcase Ho Hc.
  unfold push_back. cbn [push_loop]. rewrite Hb. cbn [mbind option_bind]. rewrite (put_full _ _ _ _ v Ha Ht).
  destruct (advance_put_run q s1 gs1 ka x b Hd Hw Hseq Hle Hb Ha Ht Hiff Hcase Ho)
    as (q1 & -> & Hl1 & Hr1 & b1 & Hb1 & Ht1). cbn [mbind option_bind].
  destruct (push_fresh q1 _ v true Hr1) as (q2 & Hp & Hr2); [rewrite Hl1; by exists b1|].
  rewrite Hl1 in Hp. cbn [push_loop] in Hp. rewrite Hp. exists q2, Granted, (gs1 ++ [(ka, x)]), 0, [v].
  assert (Hl2 : last_block q2 = last_block q + 1).
  { rewrite Hb1 in Hp. cbn [mbind option_bind] in Hp.
    destruct (put v b1); [injection Hp as <-; done|exfalso].
    destruct (advance_put_index q1 _) as [[? []]|]; cbn in Hp; done. }
  split; [done|]. split; [done|]. rewrite fmap_app, concat_app, Hc. cbn. rewrite app_nil_r.
  split; [done|]. rewrite Hl2. split; [done|]. split; [done|lia].
Qed.

(** A window whose first block still has elements refuses to slide. *)
Lemma advance_put_refused q k0 x0 gs ka x :
  rep q ((k0, x0) :: gs) ka x → has_seq q → x0 ≠ [] → last_block q + 1 = start_block q + N →
  advance_put_index q (last_block q) = Some (q, None).
Proof.
  intros Hr [Hgen Hu] Hx0 Hwrap. pose proof (rep_dims _ _ _ _ Hr) as Hd. pose proof N_ge2.
  destruct (rep_granted _ _ _ _ Hr 0%nat k0 x0 eq_refl) as (nb & Hnb & Hgr). rewrite Z.add_0_r in *.
  unfold advance_put_index. rewrite (next_sequence_ok q (last_block q)) by done. cbn [mbind option_bind].
  rewrite decide_False; [|intros He; apply (index_inj q (last_block q)) in He; [lia|done|lia|lia]].
  rewrite Hwrap. unfold block_at in Hnb |- *. rewrite index_wrap, Hnb by done. cbn [mbind option_bind].
  by rewrite gen_shift, gen_wrap, (granted_not_writable _ _ _ _ Hgr Hx0) by done.
Qed.

Lemma concat_full (gs : list (Z * list T)) :
  (∀ k xs, (k, xs) ∈ gs → Z.of_nat (length xs) = BZ) →
  Z.of_nat (length (concat (snd <$> gs))) = BZ * Z.of_nat (length gs).
Proof.
  induction gs as [|[k xs] gs IH]; intros Hall; cbn; [lia|]. rewrite length_app.
  rewrite Nat2Z.inj_add, (Hall k xs) by left. rewrite IH; [lia|]. intros. eapply Hall. by right.
Qed.

(** Then the queue is nearly full: every other block is complete. *)
Lemma refused_length q k0 x0 gs ka x b :
  rep q ((k0, x0) :: gs) ka x → x0 ≠ [] → Z.of_nat (length gs) + 2 = N →
  block_at q (last_block q) = Some b → tail b = BZ →
  BZ * (N - 1) < Z.of_nat (length (concat (snd <$> (k0, x0) :: gs) ++ x)).
Proof.
  intros Hr Hx0 Hn Hb Ht. destruct (rep_active _ _ _ _ Hr) as (b' & Hb' & Ha).
  assert (b' = b) as -> by congruence. pose proof (active_length _ _ _ _ Ha) as Hx.
  assert (ka = 0) as -> by (eapply (active_order _ _ _ _ k0 x0 Hr); [left|done]).
  assert (Hgs : Z.of_nat (length (concat (snd <$> gs))) = BZ * Z.of_nat (length gs)).
  { apply concat_full. intros k xs [j Hj]%list_elem_of_lookup.
    assert (k = 0) as ->.
    { apply (rep_order _ _ _ _ Hr 0%nat (S j) k0 x0 k xs); [lia|done|done|].
      change ((gs ++ [(0, x)]) !! j = Some (k, xs)).
      rewrite lookup_app_l; [done|]. by eapply lookup_lt_Some. }
    destruct (rep_granted _ _ _ _ Hr (S j) 0 xs Hj) as (b' & _ & Hg).
    rewrite (granted_length _ _ _ _ Hg). lia. }
  cbn. rewrite !length_app. destruct x0; [done|]. cbn. nia.
Qed.

(** What [push_back] returns and leaves behind. *)
Lemma push_back_spec q gs ka x v :
  rep q gs ka x → has_seq q →
  (∃ q' p gs' ka' x', push_back v q = Some (q', Some p) ∧ rep q' gs' ka' x'
     ∧ concat (snd <$> gs') ++ x' = (concat (snd <$> gs) ++ x) ++ [v]
     ∧ (p = Granted ↔ last_block q' = last_block q + 1) ∧ (p = Local ↔ last_block q' = last_block q))
  ∨ (push_back v q = Some (q, None)
     ∧ BZ * (N - 1) < Z.of_nat (length (concat (snd <$> gs) ++ x))).
Proof.
  intros Hr Hseq. pose proof (rep_dims _ _ _ _ Hr) as Hd. pose proof (rep_range _ _ _ _ Hr) as (Hs & Hl & Hn & _).
  destruct (rep_active _ _ _ _ Hr) as (b & Hb & Ha). pose proof N_ge2.
  destruct (decide (tail b < BZ)) as [Hlt|Hge].
  { left. unfold push_back. cbn [push_loop]. rewrite Hb. cbn [mbind option_bind].
    destruct (put_active _ _ _ _ v Ha Hlt) as (b' & -> & Ha').
    eexists _, Local, gs, ka, _. split; [done|]. split; [eapply rep_set_active; [done|done|]|].
    - intros ki xi. by apply (active_order _ _ _ _ _ _ Hr).
    - split; [by rewrite app_assoc|]. split; [split; [done|cbn; lia]|done]. }
  assert (Ht : tail b = BZ) by (pose proof (ac_tail _ _ _ _ Ha); lia).
  destruct (decide (Z.of_nat (length gs) + 1 < N)) as [Hroom|Hfull].
  - left. eapply (push_advance q (start_block q) gs); [done..|by eapply rep_window|lia| |by left
      |apply (rep_order _ _ _ _ Hr)|done].
    split; [lia|]. intros He. apply (index_inj q (start_block q)) in He; [lia|done|lia|lia].
  - destruct gs as [|[k0 x0] gs]; [cbn in *; lia|]. cbn in Hl, Hn, Hfull.
    assert (Hwrap : last_block q + 1 = start_block q + N) by lia.
    destruct (decide (x0 = [])) as [->|Hx0].
    + left. eapply (push_advance q (start_block q + 1) gs); [done..|eapply rep_slide; [done|lia]|lia| |by right| |done].
      * by rewrite Hwrap, index_wrap by done.
      * intros i j ki xi kj xj Hij Hi Hx Hj. by apply (rep_order _ _ _ _ Hr (S i) (S j) ki xi kj xj); [lia|..].
    + right. split; [|by eapply refused_length; [done|done|lia|done|done]].
      unfold push_back. cbn [push_loop]. rewrite Hb. cbn [mbind option_bind].
      rewrite (put_full _ _ _ _ v Ha Ht), (advance_put_refused _ _ _ _ _ _ Hr Hseq Hx0 Hwrap). done.
Qed.

(** The owner steps back into the block before its empty one. *)
Lemma rep_retreat q gs k y ka :
  rep q (gs ++ [(k, y)]) ka [] →
  ∃ q', advance_get_index q (last_block q) = Some (q', Some (last_block q - 1))
    ∧ last_block q' = last_block q - 1 ∧ start_block q' = start_block q ∧ rep q' gs k y.
Proof.
  intros Hr. pose proof (rep_dims _ _ _ _ Hr) as Hd. pose proof (rep_range _ _ _ _ Hr) as (Hs & Hl & Hn & Hg & Hu).
  rewrite length_app in *. cbn in Hl, Hn. pose proof N_ge2.
  destruct (rep_active _ _ _ _ Hr) as (b & Hb & Ha).
  destruct (rep_granted _ _ _ _ Hr (length gs) k y) as (p & Hp & Hgp); [by apply list_lookup_middle|].
  replace (start_block q + Z.of_nat (length gs)) with (last_block q - 1) in * by lia.
  assert (Hne : index q (last_block q - 1) ≠ index q (last_block q)).
  { intros He. apply (index_inj q (last_block q - 1)) in He; [lia|done|lia|lia]. }
  unfold advance_get_index. rewrite decide_False by lia. unfold previous_sequence, checked_sub.
  rewrite decide_True by lia. cbn [mbind option_bind]. rewrite Hb. cbn [mbind option_bind].
  rewrite block_at_set_block, decide_False, Hp by done. cbn [mbind option_bind].
  eexists. split; [done|]. split; [done|]. split; [done|]. set (q' := set_last _ _).
  assert (Hat : ∀ sq, start_block q ≤ sq < start_block q + N → block_at q' sq =
     if decide (sq = last_block q - 1) then Some (takeover p)
     else if decide (sq = last_block q) then Some (reduce_generation b) else block_at q sq).
  { intros sq Hsq. change (block_at q' sq) with
      (block_at (set_block (set_block q (last_block q) (reduce_generation b)) (last_block q - 1) (takeover p)) sq).
    rewrite block_at_set_block by (by apply dims_set_block).
    change (index (set_block q (last_block q) (reduce_generation b))) with (index q).
    destruct (decide (sq = last_block q - 1)) as [->|H1]; [by rewrite decide_True|].
    rewrite decide_False by (intros He; apply H1; eapply (index_inj q (start_block q)); [done|lia|lia|done]).
    rewrite block_at_set_block by done.
    destruct (decide (sq = last_block q)) as [->|H2]; [by rewrite decide_True|].
    by rewrite decide_False by (intros He; apply H2; eapply (index_inj q (start_block q)); [done|lia|lia|done]). }
  assert (Hd' : dims q') by (destruct (dims_set_block _ (last_block q - 1) (takeover p)
    (dims_set_block _ (last_block q) (reduce_generation b) Hd)); by split).
  pose proof (gen_mono (last_block q - 1) (last_block q)).
  split; [done|cbn; split_and!; lia| | | |]; cbn.
  - intros j k' xs Hj. apply lookup_lt_Some in Hj as Hlt. rewrite Hat, !decide_False by lia.
    apply (rep_granted _ _ _ _ Hr). by apply lookup_app_l_Some.
  - exists (takeover p). rewrite Hat, decide_True by lia. split; [done|]. by apply takeover_granted.
  - intros sq Hsq. rewrite Hat, decide_False by lia. case_decide as Hsl.
    + subst sq. eexists. split; [done|]. by eapply reduce_active.
    + apply (rep_free _ _ _ _ Hr). lia.
  - intros i j ki xi kj xj Hij Hi Hx Hj. eapply (rep_order _ _ _ _ Hr i j); [done| |done|].
    + by apply lookup_app_l_Some.
    + by apply lookup_app_l_Some.
Qed.

Lemma pop_loop_spec fuel q gs ka x :
  rep q gs ka x → (length gs < fuel)%nat →
  ∃ q' gs' ka' x' o, pop_loop fuel q (last_block q) = Some (q', o) ∧ rep q' gs' ka' x'
    ∧ last_block q' ≤ last_block q
    ∧ match o with
      | Some v => concat (snd <$> gs) ++ x = (concat (snd <$> gs') ++ x') ++ [v]
      | None => concat (snd <$> gs) ++ x = [] ∧ concat (snd <$> gs') ++ x' = []
      end.
Proof.
  revert q gs ka x. induction fuel as [|fuel IH]; intros q gs ka x Hr Hf; [lia|]. cbn [pop_loop].
  destruct (rep_active _ _ _ _ Hr) as (b & Hb & Ha). rewrite Hb. cbn [mbind option_bind].
  destruct (last x) as [v|] eqn:Hx.
  - apply last_Some in Hx as [x' ->]. destruct (get_active_snoc _ _ _ _ _ Ha) as (b' & -> & Ha').
    cbn [mbind option_bind]. exists (set_block q (last_block q) b'), gs, ka, x', (Some v). split; [done|].
    split; [eapply rep_set_active; [done|done|intros; by eapply (active_order _ _ _ _ _ _ Hr)]|].
    split; [done|]. by rewrite app_assoc.
  - apply last_None in Hx as ->. rewrite (get_active_nil _ _ _ Ha). cbn [mbind option_bind].
    pose proof (rep_range _ _ _ _ Hr) as (Hs & Hl & _).
    destruct gs as [|[k y] gs _] using rev_ind.
    + exists q, [], ka, [], None. unfold advance_get_index. cbn in Hl. rewrite decide_True by lia.
      by split_and!.
    + destruct (rep_retreat _ _ _ _ _ Hr) as (q1 & -> & Hl1 & _ & Hr1). cbn [mbind option_bind].
      rewrite length_app in Hf. cbn in Hf. rewrite <-Hl1.
      destruct (IH q1 gs k y Hr1 ltac:(lia)) as (q2 & gs2 & k2 & x2 & o & -> & Hr2 & Hle & Ho).
      exists q2, gs2, k2, x2, o. split; [done|]. split; [done|]. split; [lia|].
      rewrite fmap_app, concat_app. cbn. by rewrite !app_nil_r.
Qed.

(** ** Steps of a thief *)

Lemma rep_steal q gs ka x j k v xs b' :
  rep q gs ka x → gs !! j = Some (k, v :: xs) → (∀ i ki xi, (i < j)%nat → gs !! i = Some (ki, xi) → xi = []) →
  granted (gen (start_block q + Z.of_nat j)) b' (k + 1) xs →
  rep (set_block q (start_block q + Z.of_nat j) b') (<[j := (k + 1, xs)]> gs) ka x.
Proof.
  intros Hr Hj Hpre Hb'. pose proof (rep_dims _ _ _ _ Hr) as Hd. pose proof (rep_range _ _ _ _ Hr) as (Hs & Hl & Hn & Hg & Hu).
  pose proof N_ge2. apply lookup_lt_Some in Hj as Hjlt. set (sq0 := start_block q + Z.of_nat j) in *.
  assert (Hne : ∀ sq, start_block q ≤ sq < start_block q + N → sq ≠ sq0 →
    block_at (set_block q sq0 b') sq = block_at q sq).
  { intros sq Hsq Hneq. rewrite block_at_set_block by done. rewrite decide_False; [done|].
    intros Heq. apply Hneq. eapply (index_inj q (start_block q)); [done|lia|lia|done]. }
  split; [by apply dims_set_block|cbn; by rewrite length_insert| | | |]; cbn.
  - intros i ki xi [(<- & [= <- <-] & _)|[Hij Hi]]%list_lookup_insert_Some.
    + exists b'. split; [|done]. rewrite block_at_set_block by done. by rewrite decide_True.
    + apply lookup_lt_Some in Hi as Hlt. rewrite Hne by lia. by apply (rep_granted _ _ _ _ Hr).
  - rewrite Hne by lia. apply (rep_active _ _ _ _ Hr).
  - intros sq Hsq. rewrite Hne by lia. by apply (rep_free _ _ _ _ Hr).
  - intros i i' ki xi ki' xi' Hii Hi Hx Hi'. rewrite <-insert_app_l in Hi' by done.
    apply list_lookup_insert_Some in Hi as [(<- & [= <- <-] & _)|[Hji Hi]];
    apply list_lookup_insert_Some in Hi' as [(<- & [= <- <-] & _)|[Hji' Hi']].
    + lia.
    + by eapply (rep_order _ _ _ _ Hr j i' k (v :: xs)).
    + exfalso. by apply Hx, (Hpre i ki).
    + by eapply (rep_order _ _ _ _ Hr i i').
Qed.

Lemma steal_loop_spec fuel q gs ka x j :
  rep q gs ka x → has_seq q → (j < length gs)%nat ∨ j = 0%nat ∧ gs = [] → (length gs < fuel + j)%nat → (0 < fuel)%nat →
  (∀ i ki xi, (i < j)%nat → gs !! i = Some (ki, xi) → xi = []) →
  ∃ q' gs' o, steal_loop fuel q (start_block q + Z.of_nat j) = Some (q', o) ∧ rep q' gs' ka x
    ∧ last_block q' = last_block q ∧ start_block q' = start_block q
    ∧ match o with
      | Some v => concat (snd <$> gs) = v :: concat (snd <$> gs')
      | None => concat (snd <$> gs) = [] ∧ q' = q ∧ gs' = gs
      end.
Proof.
  intros Hr Hseq. pose proof (rep_dims _ _ _ _ Hr) as Hd. pose proof (rep_range _ _ _ _ Hr) as (Hs & Hl & Hn & Hg & Hu).
  pose proof Hseq as [Hgen Hu']. pose proof N_ge2.
  assert (Hb56 : MAX_GENERATION < 2 ^ 56) by done.
  revert j. induction fuel as [|fuel IH]; intros j Hcase Hf Hf0 Hpre; [lia|]. cbn [steal_loop].
  rewrite gen_shift by done.
  pose proof (gen_nonneg (start_block q + Z.of_nat j) ltac:(lia)).
  pose proof (gen_mono (start_block q + Z.of_nat j) (last_block q) ltac:(destruct Hcase as [?|[-> ->]]; cbn in *; lia)).
  assert (Hnext : next_sequence q (start_block q + Z.of_nat j) = Some (start_block q + Z.of_nat (S j))).
  { replace (start_block q + Z.of_nat (S j)) with (start_block q + Z.of_nat j + 1) by lia.
    apply next_sequence_ok; [done|destruct Hcase as [?|[-> ->]]; cbn in *; lia|].
    etransitivity; [|exact Hgen]. apply gen_mono. destruct Hcase as [?|[-> ->]]; cbn in *; lia. }
  destruct Hcase as [Hlt|[-> ->]].
  - destruct (lookup_lt_is_Some_2 gs j Hlt) as [[k xs] Hj].
    destruct (rep_granted _ _ _ _ Hr j k xs Hj) as (b & Hb & Hgr). rewrite Hb. cbn [mbind option_bind].
    destruct xs as [|v xs].
    + rewrite (steal_granted_nil _ _ _ Hgr) by lia. cbn [mbind option_bind]. rewrite Hnext. cbn [mbind option_bind].
      case_decide as Hd'.
      * apply IH; [left; lia|lia|lia|]. intros i ki xi Hi Hi'. destruct (decide (i = j)) as [->|]; [congruence|].
        apply (Hpre i ki); [lia|done].
      * exists q, gs, None. split_and!; try done. apply concat_nil_Forall, Forall_forall.
        intros l [[ki xi] [-> [i Hi]%list_elem_of_lookup]]%list_elem_of_fmap. cbn.
        apply lookup_lt_Some in Hi as Hil. destruct (decide (i = j)) as [->|]; [congruence|].
        apply (Hpre i ki); [lia|done].
    + destruct (steal_granted_cons _ _ _ _ _ Hgr ltac:(lia)) as (b' & -> & Hgr'). cbn [mbind option_bind].
      exists (set_block q (start_block q + Z.of_nat j) b'), (<[j := (k + 1, xs)]> gs), (Some v).
      split; [done|]. split; [by eapply rep_steal|]. split; [done|]. split; [done|].
      rewrite <-(take_drop_middle gs j _ Hj) at 1. rewrite insert_take_drop by done.
      rewrite !fmap_app, !concat_app. cbn.
      assert (Hnil : concat (snd <$> take j gs) = []); [|by rewrite Hnil].
      apply concat_nil_Forall, Forall_forall.
      intros l [[ki xi] [-> [i Hi]%list_elem_of_lookup]]%list_elem_of_fmap. cbn.
      apply lookup_take_Some in Hi as [Hi ?]. by apply (Hpre i ki).
  - assert (Hls : last_block q = start_block q) by (cbn in Hl; lia). clear Hl.
    destruct (rep_active _ _ _ _ Hr) as (b & Hb & Ha).
    replace (start_block q + Z.of_nat 0) with (last_block q) in * by lia. rewrite Hb. cbn [mbind option_bind].
    rewrite (steal_active _ _ _ _ Ha) by lia. cbn [mbind option_bind]. rewrite Hnext. cbn [mbind option_bind].
    rewrite decide_False by lia. by exists q, [], None.
Qed.

(** ** The queue as a deque *)

Definition represents (q : LifoQueue) (xs : list T) : Prop :=
  ∃ gs ka x, rep q gs ka x ∧ xs = concat (snd <$> gs) ++ x.

Lemma queue_new_rep : ∃ q, queue_new (2 ^ sh) B = Some q ∧ rep q [] 0 [].
Proof.
  assert (HN : Z.of_nat (2 ^ sh) = N) by (by rewrite Nat2Z.inj_pow). pose proof N_ge2.
  unfold queue_new. rewrite decide_True.
  2: { split; [lia|]. apply bool_decide_eq_true. rewrite HN, Z.log2_pow2; lia. }
  rewrite decide_True by lia. rewrite decide_True by (change (Z.shiftl 1 SLOT_BITS) with 256; lia).
  destruct (reclaim_free 0 _ free_new) as (b0 & -> & Ha & _). cbn [mbind option_bind].
  eexists. split; [done|].
  assert (Hd : dims (mkQueue 0 0 (<[0%nat:=b0]> (replicate (2 ^ sh) (block_new B))) (Z.of_nat (2 ^ sh) - 1)
    (Z.log2 (Z.of_nat (2 ^ sh))))).
  { split; cbn; rewrite ?length_insert, ?length_replicate, ?HN; try done. apply Z.log2_pow2. lia. }
  split; [done| |done| | |done]; cbn.
  - unfold gen. rewrite Z.div_0_l by lia. split_and!; try done; lia.
  - exists b0. unfold block_at. rewrite index_mod by done. rewrite Z.mod_0_l by lia. split.
    + apply list_lookup_insert_eq. rewrite length_replicate. lia.
    + unfold gen. by rewrite Z.div_0_l by lia.
  - intros sq Hsq. exists (block_new B). unfold block_at. rewrite index_mod by done.
    rewrite Z.mod_small by lia. split.
    + cbn. rewrite list_lookup_insert_ne by lia. apply lookup_replicate_2. lia.
    + unfold gen. rewrite Z.div_small by lia. apply free_new.
Qed.

Lemma has_seq_mono q q' : last_block q' ≤ last_block q → has_seq q → has_seq q'.
Proof.
  intros Hle [Hg Hu]. split; [|lia]. pose proof (gen_mono (last_block q' + 1) (last_block q + 1)). lia.
Qed.

Lemma deque_ops q xs :
  represents q xs → has_seq q →
  (∀ v, (∃ q' p, push_back v q = Some (q', Some p) ∧ represents q' (xs ++ [v]))
        ∨ (push_back v q = Some (q, None) ∧ BZ * (N - 1) < Z.of_nat (length xs)))
  ∧ (∃ q' o, pop_back q = Some (q', o) ∧ has_seq q' ∧ match o with
       | Some v => ∃ xs', xs = xs' ++ [v] ∧ represents q' xs'
       | None => xs = [] ∧ represents q' [] end)
  ∧ (∃ q' o, steal_front q = Some (q', o) ∧ has_seq q' ∧ match o with
       | Some v => ∃ xs', xs = v :: xs' ∧ represents q' xs'
       | None => q' = q ∧ Z.of_nat (length xs) ≤ BZ end).
Proof.
  intros (gs & ka & x & Hr & ->) Hseq. pose proof (rep_dims _ _ _ _ Hr) as Hd. pose proof N_ge2.
  pose proof (rep_range _ _ _ _ Hr) as (Hs & Hl & Hn & _). pose proof (d_blocks _ Hd) as Hlen. split_and!.
  - intros v. destruct (push_back_spec q gs ka x v Hr Hseq) as [(q' & p & gs' & ka' & x' & ? & Hr' & Hc & _)|?];
      [left|by right]. exists q', p. split; [done|]. exists gs', ka', x'. by rewrite Hc.
  - destruct (pop_loop_spec (length (blocks q)) q gs ka x Hr) as (q' & gs' & ka' & x' & o & Hp & Hr' & Hle & Ho); [lia|].
    exists q', o. split; [done|]. split; [by eapply has_seq_mono|]. destruct o as [v|].
    + exists (concat (snd <$> gs') ++ x'). split; [done|]. by exists gs', ka', x'.
    + destruct Ho as [? Ho]. split; [done|]. exists gs', ka', x'. by rewrite Ho.
  - destruct (steal_loop_spec (length (blocks q)) q gs ka x 0 Hr Hseq) as (q' & gs' & o & Hp & Hr' & Hle & _ & Ho);
      [destruct gs; cbn; [auto|left; lia]|lia|lia|lia|].
    rewrite Z.add_0_r in Hp. exists q', o. split; [done|]. split; [eapply has_seq_mono; [|done]; lia|]. destruct o as [v|].
    + exists (concat (snd <$> gs') ++ x). rewrite Ho. split; [done|]. by exists gs', ka, x.
    + destruct Ho as (Ho & -> & _). split; [done|]. rewrite Ho. cbn.
      destruct (rep_active _ _ _ _ Hr) as (b & _ & Ha). rewrite (active_length _ _ _ _ Ha).
      pose proof (ac_tail _ _ _ _ Ha). pose proof (ac_k _ _ _ _ Ha). lia.
Qed.


(** C19 The work-stealing queue is a deque.  From a queue that represents the sequence
    [xs], and while block sequences last, every operation returns: [push_back]
    appends at the back, or refuses and changes nothing, and then more than
    [num_blocks - 1] full blocks are stored; [pop_back] removes the last element, or
    reports an empty queue exactly when it is empty; [steal_front] removes the first
    element, or reports none, and then nothing but part of the owner's current
    block is left. *)
Theorem bwos_refines_deque q xs :
  represents q xs → has_seq q →
  (∀ v, (∃ q' p, push_back v q = Some (q', Some p) ∧ represents q' (xs ++ [v]))
        ∨ (push_back v q = Some (q, None) ∧ BZ * (N - 1) < Z.of_nat (length xs)))
  ∧ (∃ q' o, pop_back q = Some (q', o) ∧ match o with
       | Some v => ∃ xs', xs = xs' ++ [v] ∧ represents q' xs'
       | None => xs = [] ∧ represents q' [] end)
  ∧ (∃ q' o, steal_front q = Some (q', o) ∧ match o with
       | Some v => ∃ xs', xs = v :: xs' ∧ represents q' xs'
       | None => q' = q ∧ Z.of_nat (length xs) ≤ BZ end).
Proof.
  intros Hr Hs. destruct (deque_ops q xs Hr Hs) as (Hpush & (q1 & o1 & Hp1 & _ & Ho1) & q2 & o2 & Hp2 & _ & Ho2).
  split_and!; [done|by exists q1, o1|by exists q2, o2].
Qed.

(** ** Dropping the queue *)

(** [Drop] of all blocks, in array order. *)
Definition dropped (q : LifoQueue) : list (option T) := concat (block_live <$> blocks q).

Lemma omap_lookup_seq {A} (l : list A) off :
  omap (λ i, l !! (i - off)%nat) (seq off (length l)) = l.
Proof.
  revert off. induction l as [|a l IH]; intros off; cbn; [done|]. rewrite Nat.sub_diag. cbn. f_equal.
  rewrite <-(IH (S off)) at 2. apply list_omap_ext, Forall_Forall2_diag, Forall_forall.
  intros i [Hi _]%elem_of_seq. by replace (i - off)%nat with (S (i - S off)) by lia.
Qed.

(** Every block is the block of exactly one sequence of the window. *)
Lemma blocks_window q s : dims q → blocks q ≡ₚ omap (block_at q) (seqZ s N).
Proof.
  intros Hd. pose proof (d_blocks _ Hd) as Hn. pose proof N_ge2.
  assert (Hidx : seq 0 (length (blocks q)) ≡ₚ index q <$> seqZ s N).
  { apply submseteq_length_Permutation.
    - apply NoDup_submseteq; [apply NoDup_seq|]. intros i [_ Hi]%elem_of_seq.
      apply list_elem_of_fmap. exists (s + (Z.of_nat i - s) mod N). pose proof (Z.mod_pos_bound (Z.of_nat i - s) N).
      split; [|apply elem_of_seqZ; lia]. rewrite index_mod by done. rewrite Z.add_mod_idemp_r by lia.
      replace (s + (Z.of_nat i - s)) with (Z.of_nat i) by lia. rewrite Z.mod_small; lia.
    - rewrite length_fmap, length_seqZ, length_seq. lia. }
  rewrite <-(omap_lookup_seq (blocks q) 0) at 1. rewrite Hidx.
  assert (Heq : omap (λ i, blocks q !! (i - 0)%nat) (index q <$> seqZ s N) = omap (block_at q) (seqZ s N)); [|by rewrite Heq].
  generalize (seqZ s N) as l. induction l as [|a l IH]; cbn; [done|]. rewrite Nat.sub_0_r.
  unfold block_at at 1. destruct (blocks q !! index q a); by rewrite IH.
Qed.

Lemma concat_omap {A C D} (f : A → option C) (g : C → list D) (l : list A) :
  concat (g <$> omap f l) = l ≫= λ a, from_option g [] (f a).
Proof. induction l as [|a l IH]; cbn; [done|]. destruct (f a); cbn; by rewrite IH. Qed.

Lemma bind_granted (F : Z → list (option T)) gs s :
  (∀ j k xs, gs !! j = Some (k, xs) → F (s + Z.of_nat j) = Some <$> xs) →
  seqZ s (Z.of_nat (length gs)) ≫= F = Some <$> concat ((snd : Z * list T → list T) <$> gs).
Proof.
  revert s. induction gs as [|[k xs] gs IH]; intros s HF; [done|].
  rewrite seqZ_cons by (cbn; lia). cbn -[seqZ]. rewrite fmap_app. f_equal.
  - rewrite <-(HF 0%nat k xs eq_refl). f_equal. lia.
  - replace (Z.pred (Z.of_nat (S (length gs)))) with (Z.of_nat (length gs)) by lia. apply IH.
    intros j k' xs' Hj. rewrite <-(HF (S j) k' xs' Hj). f_equal. lia.
Qed.

(** Dropping the queue drops every stored element exactly once and nothing else:
    the range [min(head, steal_tail) .. tail] covers the live slots of a block in
    every role, so no element is leaked and no stolen or popped slot is dropped
    again. *)
Theorem drop_exact q xs : represents q xs → dropped q ≡ₚ Some <$> xs.
Proof.
  intros (gs & ka & x & Hr & ->). pose proof (rep_dims _ _ _ _ Hr) as Hd. pose proof N_ge2.
  pose proof (rep_range _ _ _ _ Hr) as (Hs & Hl & Hn & _).
  unfold dropped. rewrite (blocks_window q (start_block q) Hd), concat_omap.
  set (F := λ a, from_option block_live [] (block_at q a)).
  replace N with (Z.of_nat (length gs) + (1 + (N - 1 - Z.of_nat (length gs)))) by lia.
  rewrite !seqZ_app, !bind_app by lia. rewrite fmap_app, (bind_granted F).
  2: { intros j k xs Hj. destruct (rep_granted _ _ _ _ Hr j k xs Hj) as (b & Hb & Hg). unfold F.
       rewrite Hb. cbn. by eapply granted_live. }
  rewrite <-Hl. f_equiv.
  assert (Hact : seqZ (last_block q) 1 ≫= F = Some <$> x).
  { destruct (rep_active _ _ _ _ Hr) as (b & Hb & Ha).
    rewrite seqZ_cons by lia. cbn. rewrite app_nil_r. unfold F. rewrite Hb. cbn. by eapply active_live. }
  assert (Hfree : ∀ l, (∀ sq, sq ∈ l → last_block q < sq < start_block q + N) → l ≫= F = []).
  { induction l as [|sq l IH]; intros Hin; cbn; [done|].
    destruct (rep_free _ _ _ _ Hr sq) as (b & Hb & Hfr); [apply Hin; left|]. unfold F at 1. rewrite Hb. cbn.
    rewrite (fr_empty _ _ Hfr). apply IH. intros. apply Hin. by right. }
  rewrite Hact, Hfree; [by rewrite app_nil_r|]. intros sq Hsq%elem_of_seqZ. lia.
Qed.

End roles.
End bwos.

(** ** The interface to the scheduler

    What a run queue promises its owner and its thieves; [dq_live] says that block
    sequences are not exhausted.  The pushed flag is [Granted]. *)
Class RunDeque (D : Type) (A : Type) : Type := {
  dq_rep : D → list A → Prop;
  dq_live : D → Prop;
  dq_new : option D;
  dq_push_back : A → D → option (D * option Pushed);
  dq_pop_back : D → option (D * option A);
  dq_steal_front : D → option (D * option A);
}.

Class RunDequeLaws (D A : Type) `{RunDeque D A} : Prop := {
  dq_new_spec : ∃ d, dq_new = Some d ∧ dq_rep d [];
  dq_push_spec d xs v : dq_rep d xs → dq_live d →
    (∃ d' p, dq_push_back v d = Some (d', Some p) ∧ dq_rep d' (xs ++ [v]))
    ∨ (dq_push_back v d = Some (d, None));
  dq_pop_spec d xs : dq_rep d xs → dq_live d →
    ∃ d' o, dq_pop_back d = Some (d', o) ∧ dq_live d' ∧ match o with
      | Some v => ∃ xs', xs = xs' ++ [v] ∧ dq_rep d' xs'
      | None => xs = [] ∧ dq_rep d' [] end;
  dq_steal_spec d xs : dq_rep d xs → dq_live d →
    ∃ d' o, dq_steal_front d = Some (d', o) ∧ dq_live d' ∧ match o with
      | Some v => ∃ xs', xs = v :: xs' ∧ dq_rep d' xs'
      | None => dq_rep d' xs end;
}.

(** The queue with the scheduler's dimensions: 64 blocks of 16 slots. *)
#[global] Instance bwos_deque {A} : RunDeque (LifoQueue (T := A)) A := {|
  dq_rep q xs := represents 16 6 q xs;
  dq_live q := has_seq 6 q;
  dq_new := queue_new NUM_BLOCKS BLOCK_SIZE;
  dq_push_back := push_back;
  dq_pop_back := pop_back;
  dq_steal_front := steal_front;
|}.

#[global] Instance bwos_deque_laws {A} : RunDequeLaws (LifoQueue (T := A)) A.
Proof.
  split.
  - destruct (queue_new_rep (T := A) 16 ltac:(lia) 6 ltac:(lia)) as (q & Hq & Hr).
    exists q. split; [exact Hq|]. by exists [], 0, [].
  - intros d xs v Hr Hl. destruct (deque_ops 16 ltac:(lia) 6 ltac:(lia) d xs Hr Hl) as (Hp & _ & _).
    destruct (Hp v) as [?|[? _]]; auto.
  - intros d xs Hr Hl. by destruct (deque_ops 16 ltac:(lia) 6 ltac:(lia) d xs Hr Hl) as (_ & Hp & _).
  - intros d xs Hr Hl. destruct (deque_ops 16 ltac:(lia) 6 ltac:(lia) d xs Hr Hl) as (_ & _ & q' & o & Hs & Hl' & Ho).
    exists q', o. split; [done|]. split; [done|]. destruct o; [done|]. by destruct Ho as [-> _].
Qed.

Lemma bwos_refines_deque_witness :
  ∃ q, queue_new (T := nat) NUM_BLOCKS BLOCK_SIZE = Some q
    ∧ (∃ q' p, push_back 7%nat q = Some (q', Some p) ∧ represents 16 6 q' [7%nat])
    ∧ (∃ q' o, pop_back q = Some (q', o) ∧ o = None).
Proof.
  destruct (queue_new_rep (T := nat) 16 ltac:(lia) 6 ltac:(lia)) as (q & Hq & Hr).
  exists q. split; [exact Hq|].
  assert (Hl : last_block q = 0) by (vm_compute in Hq; injection Hq as <-; reflexivity).
  destruct (bwos_refines_deque 16 ltac:(lia) 6 ltac:(lia) q []) as (Hpush & Hpop & _).
  - by exists [], 0, [].
  - unfold has_seq. rewrite Hl. vm_compute. by split.
  - split.
    + destruct (Hpush 7%nat) as [?|[_ Hlt]]; [done|]. vm_compute in Hlt. discriminate.
    + destruct Hpop as (q' & [v|] & Hp & Ho); [|by exists q', None].
      destruct Ho as ([|] & ? & _); discriminate.
Defined.

Lemma drop_exact_witness :
  ∃ q, queue_new (T := nat) NUM_BLOCKS BLOCK_SIZE = Some q ∧ dropped q ≡ₚ Some <$> [].
Proof.
  destruct (queue_new_rep (T := nat) 16 ltac:(lia) 6 ltac:(lia)) as (q & Hq & Hr).
  exists q. split; [exact Hq|]. apply (drop_exact 16 ltac:(lia) 6 ltac:(lia)). by exists [], 0, [].
Defined.

End Bwos.
