(* ===== verification/Scheduler.v ===== *)
(** * The scheduler

    Models [Scheduler], [WorkerSlot] of [rskynet-core/src/mq.rs] and [Handoff] of
    [rskynet-core/src/handoff.rs]: one run queue per worker (through the interface
    [RunDeque], which [Bwos.v] implements), the injector, the hand-over slot of each
    worker, the counters and the two bitmaps.  Each method is one step here;
    [SchedConc.v] interleaves them.  The calling thread is an argument: [Some id] is
    the thread bound to worker [id], [None] any other thread.  What a method does
    outside the scheduler is returned as a list of effects, in order. *)
From S2P Require Import Prelude Interfaces Bwos.
Import Bwos.

Module Scheduler.

Definition INJECT_INTERVAL : Z := 64.
Definition SPIN_ROUNDS : nat := 256.
Definition STEAL_ATTEMPTS : nat := 2.

(** ** Bitmaps: one 64-bit word per 64 workers *)

Definition bit_of (id : nat) : Z := Z.shiftl 1 (Z.of_nat (id mod 64)).

(** [words[id / 64].load() & bit != 0]; [None] is an index out of range. *)
Definition test_bit (id : nat) (words : list Z) : option bool :=
  w ← words !! (id / 64)%nat; Some (negb (Z.land w (bit_of id) =? 0)).

Definition fetch_or_bit (id : nat) (words : list Z) : option (list Z) :=
  w ← words !! (id / 64)%nat; Some (<[(id / 64)%nat := Z.lor w (bit_of id)]> words).

(** [fetch_and(!bit)]: the words and the old value of the bit. *)
Definition fetch_clear_bit (id : nat) (words : list Z) : option (list Z * bool) :=
  w ← words !! (id / 64)%nat;
  Some (<[(id / 64)%nat := Z.land w (u64_not (bit_of id))]> words, negb (Z.land w (bit_of id) =? 0)).

(** [u64::trailing_zeros] of a word that is not zero. *)
Fixpoint trailing_zeros (fuel : nat) (i x : Z) : Z :=
  match fuel with
  | O => i
  | S fuel => if Z.testbit x i then i else trailing_zeros fuel (i + 1) x
  end.

(** [claim_idle] without contention: the lowest bit of the first word with one. *)
Fixpoint claim_words (words : list Z) (index : nat) : list Z * option nat :=
  match words with
  | [] => ([], None)
  | bits :: words =>
      if decide (bits = 0) then
        let '(words, o) := claim_words words (S index) in (bits :: words, o)
      else
        let bit := trailing_zeros 64 0 bits in
        (Z.land bits (u64_not (Z.shiftl 1 bit)) :: words, Some (index * 64 + Z.to_nat bit)%nat)
  end.

Definition words_for (workers : nat) : nat := ((workers + 63) / 64)%nat.

Lemma words_for_enough n : (n ≤ 64 * words_for n)%nat.
Proof.
  unfold words_for. pose proof (Nat.div_mod_eq (n + 63) 64). pose proof (Nat.mod_upper_bound (n + 63) 64). lia.
Qed.

(** ** Bitmaps as sets of workers *)

Definition has_bit (words : list Z) (id : nat) : Prop :=
  ∃ w, words !! (id / 64)%nat = Some w ∧ Z.testbit w (Z.of_nat (id mod 64)) = true.

Definition words_ok (words : list Z) : Prop := ∀ w, w ∈ words → is_u64 w.

Lemma testbit_bit id j : 0 ≤ j → Z.testbit (bit_of id) j = bool_decide (j = Z.of_nat (id mod 64)).
Proof.
  intros Hj. unfold bit_of. rewrite Z.shiftl_1_l. destruct (decide (j = Z.of_nat (id mod 64))) as [->|Hne].
  - rewrite Z.pow2_bits_true by lia. by rewrite bool_decide_eq_true_2.
  - rewrite Z.pow2_bits_false by lia. by rewrite bool_decide_eq_false_2.
Qed.

Lemma bit_range id : 0 ≤ bit_of id < 2 ^ 64.
Proof.
  unfold bit_of. rewrite Z.shiftl_1_l. pose proof (Nat.mod_upper_bound id 64 ltac:(lia)).
  split; [apply Z.pow_nonneg; lia|]. apply Z.pow_lt_mono_r; lia.
Qed.

Lemma testbit_not x j : is_u64 x → 0 ≤ j < 64 → Z.testbit (u64_not x) j = negb (Z.testbit x j).
Proof.
  intros Hx Hj. unfold u64_not, U64_MAX. change (2 ^ 64 - 1) with (Z.ones 64).
  rewrite Z.sub_nocarry_ldiff.
  - rewrite Z.ldiff_spec, Z.ones_spec_low by lia. done.
  - apply Z.bits_inj'. intros n Hn. rewrite Z.ldiff_spec, Z.bits_0. destruct (decide (n < 64)).
    + rewrite Z.ones_spec_low by lia. by rewrite andb_false_r.
    + rewrite <-(Z.mod_small x (2 ^ 64)) by apply Hx. by rewrite Z.mod_pow2_bits_high by lia.
Qed.

Lemma test_land w id : negb (Z.land w (bit_of id) =? 0) = Z.testbit w (Z.of_nat (id mod 64)).
Proof.
  destruct (Z.testbit w (Z.of_nat (id mod 64))) eqn:E.
  - destruct (Z.eqb_spec (Z.land w (bit_of id)) 0) as [H0|]; [|done].
    apply (f_equal (λ x, Z.testbit x (Z.of_nat (id mod 64)))) in H0.
    rewrite Z.land_spec, testbit_bit, E, Z.bits_0, bool_decide_eq_true_2 in H0; [done|done|lia].
  - destruct (Z.eqb_spec (Z.land w (bit_of id)) 0) as [|Hne]; [done|]. destruct Hne.
    apply Z.bits_inj'. intros n Hn. rewrite Z.land_spec, testbit_bit, Z.bits_0 by done.
    case_bool_decide; [subst n; by rewrite E|by rewrite andb_false_r].
Qed.

Lemma test_bit_spec id words :
  (id / 64 < length words)%nat → ∃ b, test_bit id words = Some b ∧ (b = true ↔ has_bit words id).
Proof.
  intros Hlt. destruct (lookup_lt_is_Some_2 words _ Hlt) as [w Hw]. unfold test_bit, has_bit.
  rewrite Hw. cbn [mbind option_bind]. rewrite test_land. eexists. split; [done|]. naive_solver.
Qed.

Lemma id_split (a b : nat) : (a / 64 = b / 64)%nat → (a mod 64 = b mod 64)%nat → a = b.
Proof. intros. pose proof (Nat.div_mod_eq a 64). pose proof (Nat.div_mod_eq b 64). lia. Qed.

Lemma u64_land_not w x : is_u64 w → is_u64 (Z.land w (u64_not x)).
Proof.
  intros Hw. assert (Z.land w (u64_not x) = Z.land w (u64_not x) mod 2 ^ 64) as ->.
  { apply Z.bits_inj'. intros n Hn. destruct (decide (n < 64)).
    - by rewrite Z.mod_pow2_bits_low by lia.
    - rewrite Z.mod_pow2_bits_high by lia. rewrite Z.land_spec.
      rewrite <-(Z.mod_small w (2 ^ 64)) by apply Hw. by rewrite Z.mod_pow2_bits_high by lia. }
  apply Z.mod_pos_bound. lia.
Qed.

Lemma u64_lor a b : is_u64 a → is_u64 b → is_u64 (Z.lor a b).
Proof.
  intros Ha Hb. assert (Z.lor a b = Z.lor a b mod 2 ^ 64) as ->.
  { apply Z.bits_inj'. intros n Hn. destruct (decide (n < 64)).
    - by rewrite Z.mod_pow2_bits_low by lia.
    - rewrite Z.mod_pow2_bits_high, Z.lor_spec by lia.
      rewrite <-(Z.mod_small a (2 ^ 64)), <-(Z.mod_small b (2 ^ 64)) by done.
      by rewrite !Z.mod_pow2_bits_high by lia. }
  apply Z.mod_pos_bound. lia.
Qed.

Lemma words_ok_insert words i w : words_ok words → is_u64 w → words_ok (<[i := w]> words).
Proof. intros Hok Hw x [j [(_ & <- & _)|[_ Hj]]%list_lookup_insert_Some]%list_elem_of_lookup; [done|].
  apply Hok. by eapply list_elem_of_lookup_2. Qed.

Lemma fetch_or_spec id words :
  (id / 64 < length words)%nat → words_ok words →
  ∃ words', fetch_or_bit id words = Some words' ∧ length words' = length words ∧ words_ok words'
    ∧ ∀ j, has_bit words' j ↔ j = id ∨ has_bit words j.
Proof.
  intros Hlt Hok. destruct (lookup_lt_is_Some_2 words _ Hlt) as [w Hw]. unfold fetch_or_bit. rewrite Hw. cbn [mbind option_bind].
  eexists. split; [done|]. rewrite length_insert. split; [done|]. split.
  { apply words_ok_insert; [done|]. apply u64_lor; [|apply bit_range]. apply Hok. by eapply list_elem_of_lookup_2. }
  intros j. unfold has_bit. destruct (decide (j / 64 = id / 64)%nat) as [Hd|Hd].
  - rewrite Hd, list_lookup_insert_eq by done. split.
    + intros (w' & [= <-] & Hb). rewrite Z.lor_spec, orb_true_iff, testbit_bit in Hb by lia. destruct Hb as [Hb|Hb].
      * right. eauto.
      * left. apply id_split; [done|]. apply bool_decide_eq_true in Hb. lia.
    + intros Hor. eexists. split; [done|]. rewrite Z.lor_spec, orb_true_iff, testbit_bit, bool_decide_eq_true by lia.
      destruct Hor as [->|(w' & Hw' & Hb)]; [by right|left]. congruence.
  - rewrite list_lookup_insert_ne by congruence. split; [by right|]. intros [->|?]; done.
Qed.

Lemma clear_word_spec words k w b :
  words !! k = Some w → words_ok words → 0 ≤ b < 64 →
  let words' := <[k := Z.land w (u64_not (Z.shiftl 1 b))]> words in
  words_ok words' ∧ ∀ j, has_bit words' j ↔ j ≠ (k * 64 + Z.to_nat b)%nat ∧ has_bit words j.
Proof.
  intros Hw Hok Hb words'. assert (Hwu : is_u64 w) by (apply Hok; by eapply list_elem_of_lookup_2).
  assert (Hk : ((k * 64 + Z.to_nat b) / 64 = k)%nat ∧ ((k * 64 + Z.to_nat b) mod 64 = Z.to_nat b)%nat).
  { split; [rewrite Nat.div_add_l, Nat.div_small by lia; lia|].
    rewrite Nat.add_comm, Nat.Div0.mod_add. apply Nat.mod_small. lia. }
  destruct Hk as [Hkd Hkm].
  assert (Hbit : bit_of (k * 64 + Z.to_nat b) = Z.shiftl 1 b) by (unfold bit_of; rewrite Hkm; f_equal; lia).
  subst words'. rewrite <-Hbit.
  split; [apply words_ok_insert; [done|by apply u64_land_not]|]. intros j. unfold has_bit.
  apply lookup_lt_Some in Hw as Hlt. pose proof (Nat.mod_upper_bound j 64 ltac:(lia)).
  destruct (decide (j / 64 = k)%nat) as [Hd|Hd].
  - rewrite Hd, list_lookup_insert_eq by done. split.
    + intros (w' & [= <-] & Ht). rewrite Z.land_spec, andb_true_iff, testbit_not, testbit_bit in Ht
        by (lia || apply bit_range). destruct Ht as [Ht Hn]. split; [|eauto]. intros ->. rewrite Hkm in *.
      by rewrite bool_decide_eq_true_2 in Hn.
    + intros [Hne (w' & Hw' & Ht)]. eexists. split; [done|].
      rewrite Z.land_spec, andb_true_iff, testbit_not, testbit_bit by (lia || apply bit_range).
      split; [congruence|]. rewrite bool_decide_eq_false_2; [done|]. intros Heq. apply Hne.
      apply id_split; [lia|]. rewrite Hkm. lia.
  - rewrite list_lookup_insert_ne by congruence. split; [|by intros [_ ?]]. intros Hh. split; [|done].
    intros ->. by rewrite Hkd in Hd.
Qed.

Lemma fetch_clear_spec id words :
  (id / 64 < length words)%nat → words_ok words →
  ∃ words' b, fetch_clear_bit id words = Some (words', b) ∧ length words' = length words ∧ words_ok words'
    ∧ (b = true ↔ has_bit words id) ∧ ∀ j, has_bit words' j ↔ j ≠ id ∧ has_bit words j.
Proof.
  intros Hlt Hok. destruct (lookup_lt_is_Some_2 words _ Hlt) as [w Hw]. unfold fetch_clear_bit. rewrite Hw. cbn [mbind option_bind].
  eexists _, _. split; [done|]. rewrite length_insert. pose proof (Nat.mod_upper_bound id 64 ltac:(lia)).
  destruct (clear_word_spec words (id / 64) w (Z.of_nat (id mod 64)) Hw Hok ltac:(lia)) as [Hok' Hiff].
  split_and!; [done|exact Hok'| |].
  - rewrite test_land. unfold has_bit. rewrite Hw. naive_solver.
  - intros j. change (Z.shiftl 1 (Z.of_nat (id mod 64))) with (bit_of id) in Hiff. rewrite Hiff.
    rewrite Nat2Z.id, (Nat.mul_comm (id / 64) 64), <-Nat.div_mod_eq. done.
Qed.

(** [trailing_zeros] finds the lowest set bit. *)
Lemma trailing_zeros_spec fuel i x :
  0 ≤ i → (∃ j, i ≤ j < i + Z.of_nat fuel ∧ Z.testbit x j = true) →
  i ≤ trailing_zeros fuel i x < i + Z.of_nat fuel ∧ Z.testbit x (trailing_zeros fuel i x) = true
  ∧ ∀ j, i ≤ j < trailing_zeros fuel i x → Z.testbit x j = false.
Proof.
  revert i. induction fuel as [|fuel IH]; intros i Hi (j & Hj & Ht); [lia|]. cbn.
  destruct (Z.testbit x i) eqn:E; [split_and!; [lia|lia|done|intros; lia]|].
  destruct (IH (i + 1)) as (H1 & H2 & H3); [lia|exists j; split; [|done]; destruct (decide (i = j)); [congruence|lia]|].
  split_and!; [lia|lia|done|]. intros k Hk. destruct (decide (k = i)) as [->|]; [done|]. apply H3. lia.
Qed.

Lemma word_nonzero w : is_u64 w → w ≠ 0 → ∃ j, 0 ≤ j < 64 ∧ Z.testbit w j = true.
Proof.
  intros Hw Hne. exists (Z.log2 w). assert (0 < w) by (unfold is_u64 in Hw; lia). split.
  - split; [apply Z.log2_nonneg|]. apply Z.log2_lt_pow2; [done|apply Hw].
  - by apply Z.bit_log2.
Qed.

(** [claim_idle] takes the lowest registered worker and nothing else. *)
Lemma claim_words_spec words index :
  words_ok words →
  ∃ words' o, claim_words words index = (words', o) ∧ length words' = length words ∧ words_ok words'
    ∧ match o with
      | None => words' = words ∧ ∀ j, ¬ has_bit words j
      | Some id => ∃ i, id = (index * 64 + i)%nat ∧ has_bit words i ∧ (∀ j, (j < i)%nat → ¬ has_bit words j)
          ∧ ∀ j, has_bit words' j ↔ j ≠ i ∧ has_bit words j
      end.
Proof.
  revert index. induction words as [|w words IH]; intros index Hok; cbn [claim_words].
  { exists [], None. split; [done|]. split; [done|]. split; [done|]. split; [done|].
    intros j (w & Hw & _). by rewrite lookup_nil in Hw. }
  assert (Hw : is_u64 w) by (apply Hok; left). case_decide as H0.
  - subst w. destruct (IH (S index)) as (words' & o & -> & Hlen & Hok' & Ho).
    { intros w Hin. apply Hok. by right. }
    eexists _, _. split; [done|]. split; [cbn; lia|]. split.
    { intros w [->|Hin]%elem_of_cons; [done|by apply Hok']. }
    assert (Hshift : ∀ ws j, has_bit (0 :: ws) j ↔ (64 ≤ j)%nat ∧ has_bit ws (j - 64)).
    { intros ws j. unfold has_bit. destruct (decide (64 ≤ j)%nat) as [Hj|Hj].
      - assert (j / 64 = S ((j - 64) / 64) ∧ j mod 64 = (j - 64) mod 64)%nat as [-> ->].
        { replace j with ((j - 64) + 1 * 64)%nat at 1 3 by lia. rewrite Nat.div_add, Nat.Div0.mod_add by lia. lia. }
        cbn. naive_solver.
      - rewrite (Nat.div_small j 64) by lia. cbn. split; [|lia]. intros (w & [= <-] & Hb). by rewrite Z.bits_0 in Hb. }
    destruct o as [id|].
    + destruct Ho as (i & -> & Hi & Hlow & Hiff). exists (64 + i)%nat. split_and!; [lia| | |].
      * apply Hshift. split; [lia|]. by replace (64 + i - 64)%nat with i by lia.
      * intros j Hj [H64 Hb]%Hshift. apply (Hlow (j - 64)%nat); [lia|done].
      * intros j. rewrite !Hshift, Hiff. naive_solver lia.
    + destruct Ho as [-> Ho]. split; [done|]. intros j [_ Hb]%Hshift. by eapply Ho.
  - destruct (trailing_zeros_spec 64 0 w) as (H1 & H2 & H3); [lia|by apply word_nonzero|].
    set (b := trailing_zeros 64 0 w) in *.
    destruct (clear_word_spec (w :: words) 0 w b eq_refl Hok ltac:(lia)) as [Hok' Hiff].
    eexists _, _. split; [done|]. split; [done|]. split; [exact Hok'|].
    exists (Z.to_nat b). split_and!; [done| | |exact Hiff].
    + exists w. rewrite Nat.div_small, Nat.mod_small by lia. split; [done|]. by rewrite Z2Nat.id by lia.
    + intros j Hj (w' & Hw' & Hb). rewrite Nat.div_small, Nat.mod_small in * by lia. cbn in Hw'.
      injection Hw' as <-. rewrite H3 in Hb; [done|lia].
Qed.

Lemma replicate_words_ok n : words_ok (replicate n 0).
Proof. intros w [-> _]%elem_of_replicate. done. Qed.

Lemma replicate_no_bit n j : ¬ has_bit (replicate n 0) j.
Proof. intros (w & [-> _]%lookup_replicate & Hb). by rewrite Z.bits_0 in Hb. Qed.

Section scheduler.
Context {Q : Type → Type} `{FifoLaws Q} {A : Type} {D : Type} `{RunDequeLaws D A} (is_exclusive : A → bool).

(** ** Worker slots *)

Record WorkerSlot : Type := mkSlot {
  tick : Z;
  rng : Z;
  thread : bool;  (** a thread is registered *)
  handoff : option A;
}.

Definition slot_new (id : nat) : WorkerSlot :=
  mkSlot 0 (Z.lor (wrapping_mul (Z.of_nat id) 11400714819323198485) 1) false None.

Definition shl_u64 (x k : Z) : Z := wrap64 (Z.shiftl x k).

Definition next_random (sl : WorkerSlot) : WorkerSlot * Z :=
  let x := rng sl in
  let x := Z.lxor x (shl_u64 x 13) in
  let x := Z.lxor x (Z.shiftr x 7) in
  let x := Z.lxor x (shl_u64 x 17) in
  (mkSlot (tick sl) x (thread sl) (handoff sl), x).

(** [Handoff::offer_raw] behind [WorkerSlot::offer]: a taken slot hands the service
    back. *)
Definition offer (c : A) (sl : WorkerSlot) : WorkerSlot * option A :=
  match handoff sl with
  | None => (mkSlot (tick sl) (rng sl) (thread sl) (Some c), None)
  | Some _ => (sl, Some c)
  end.

(** [Handoff::take_raw] behind [WorkerSlot::take]. *)
Definition take_handoff (sl : WorkerSlot) : WorkerSlot * option A :=
  (mkSlot (tick sl) (rng sl) (thread sl) None, handoff sl).

(** ** The scheduler *)

Record Scheduler : Type := mkSched {
  locals : list D;
  slots : list WorkerSlot;
  injector : Q A;
  pending : Z;
  idle : list Z;
  searching : Z;
  max_searchers : Z;
  stealable : list Z;
  quit : bool;
}.

Inductive Effect : Type :=
  | MarkQueued (c : A)     (** [ctx.mailbox.mark_queued()] *)
  | MarkRunning (c : A)    (** [ctx.mailbox.mark_running()] *)
  | Unpark (id : nat)      (** [thread.unpark()] of the thread bound to the worker *)
  | Parked (id : nat).     (** the worker's [thread::park()] returned *)

Definition set_locals l (s : Scheduler) :=
  mkSched l (slots s) (injector s) (pending s) (idle s) (searching s) (max_searchers s) (stealable s) (quit s).
Definition set_slots l (s : Scheduler) :=
  mkSched (locals s) l (injector s) (pending s) (idle s) (searching s) (max_searchers s) (stealable s) (quit s).
Definition set_injector q (s : Scheduler) :=
  mkSched (locals s) (slots s) q (pending s) (idle s) (searching s) (max_searchers s) (stealable s) (quit s).
Definition set_pending n (s : Scheduler) :=
  mkSched (locals s) (slots s) (injector s) n (idle s) (searching s) (max_searchers s) (stealable s) (quit s).
Definition set_idle w (s : Scheduler) :=
  mkSched (locals s) (slots s) (injector s) (pending s) w (searching s) (max_searchers s) (stealable s) (quit s).
Definition set_searching n (s : Scheduler) :=
  mkSched (locals s) (slots s) (injector s) (pending s) (idle s) n (max_searchers s) (stealable s) (quit s).
Definition set_stealable w (s : Scheduler) :=
  mkSched (locals s) (slots s) (injector s) (pending s) (idle s) (searching s) (max_searchers s) w (quit s).
Definition set_quit_flag b (s : Scheduler) :=
  mkSched (locals s) (slots s) (injector s) (pending s) (idle s) (searching s) (max_searchers s) (stealable s) b.

Fixpoint new_locals (n : nat) : option (list D) :=
  match n with O => Some [] | S n => d ← dq_new; l ← new_locals n; Some (d :: l) end.


Definition new (workers : nat) : option Scheduler :=
  let workers := Nat.max workers 1 in
  ls ← new_locals workers;
  Some (mkSched ls (slot_new <$> seq 0 workers) fifo_new 0 (replicate (words_for workers) 0) 0
          (Z.max (Z.of_nat workers / 2) 1) (replicate (words_for workers) 0) false).

Definition register_worker (id : nat) (s : Scheduler) : option Scheduler :=
  if decide (id < length (locals s))%nat then
    sl ← slots s !! id;
    Some (set_slots (<[id := mkSlot (tick sl) (rng sl) true (handoff sl)]> (slots s)) s)
  else None.

Definition wake (id : nat) (s : Scheduler) : option (list Effect) :=
  sl ← slots s !! id; Some (if thread sl then [Unpark id] else []).

Definition is_stealable (id : nat) (s : Scheduler) : option bool := test_bit id (stealable s).
Definition mark_stealable (id : nat) (s : Scheduler) : option Scheduler :=
  w ← fetch_or_bit id (stealable s); Some (set_stealable w s).
Definition take_stealable (id : nat) (s : Scheduler) : option (Scheduler * bool) :=
  '(w, b) ← fetch_clear_bit id (stealable s); Some (set_stealable w s, b).
Definition clear_stealable (id : nat) (s : Scheduler) : option Scheduler :=
  '(w, _) ← fetch_clear_bit id (stealable s); Some (set_stealable w s).
Definition mark_idle (id : nat) (s : Scheduler) : option Scheduler :=
  w ← fetch_or_bit id (idle s); Some (set_idle w s).
Definition clear_idle (id : nat) (s : Scheduler) : option Scheduler :=
  '(w, _) ← fetch_clear_bit id (idle s); Some (set_idle w s).
Definition claim_idle (s : Scheduler) : Scheduler * option nat :=
  let '(w, o) := claim_words (idle s) 0 in (set_idle w s, o).

Definition place (me : option nat) (c : A) (s : Scheduler) : option Scheduler :=
  '(s, overflow) ←
    (match me with
     | Some id =>
         d ← locals s !! id;
         '(d, r) ← dq_push_back c d;
         let s := set_locals (<[id := d]> (locals s)) s in
         match r with
         | Some Granted => s ← mark_stealable id s; Some (s, None)
         | Some Local => Some (s, None)
         | None => Some (s, Some c)
         end
     | None => Some (s, Some c)
     end);
  match overflow with
  | Some c => Some (set_injector (fifo_push c (injector s)) s)
  | None => Some s
  end.

(** Wake an idle worker, if there is one. *)
Definition wake_idle (s : Scheduler) : option (Scheduler * list Effect) :=
  let '(s, o) := claim_idle s in
  match o with
  | Some id => e ← wake id s; Some (s, e)
  | None => Some (s, [])
  end.

Definition push (me : option nat) (c : A) (s : Scheduler) : option (Scheduler * list Effect) :=
  if is_exclusive c then None else
  let e0 := [MarkQueued c] in
  let s := set_pending (pending s + 1) s in
  if decide (0 < searching s) then
    let s := set_injector (fifo_push c (injector s)) s in
    if decide (searching s = 0) then '(s, e) ← wake_idle s; Some (s, e0 ++ e) else Some (s, e0)
  else
    let '(s, o) := claim_idle s in
    match o with
    | Some id =>
        sl ← slots s !! id;
        let '(sl, back) := offer c sl in
        let s := set_slots (<[id := sl]> (slots s)) s in
        s ← (match back with Some c => place me c s | None => Some s end);
        e ← wake id s;
        Some (s, e0 ++ e)
    | None =>
        let needs_wakeup_recheck := match me with None => true | Some _ => false end in
        s ← place me c s;
        if decide (needs_wakeup_recheck = true ∧ searching s = 0) then
          '(s, e) ← wake_idle s; Some (s, e0 ++ e)
        else Some (s, e0)
    end.

Definition pop_injector (s : Scheduler) : Scheduler * option A :=
  match fifo_pop (injector s) with
  | Some (c, q) => (set_pending (pending s - 1) (set_injector q s), Some c)
  | None => (s, None)
  end.

(** The [for offset in 0..count] loop of [steal]. *)
Fixpoint steal_victims (victims : list nat) (id attempts : nat) (s : Scheduler)
    : option (Scheduler * option A) :=
  match victims with
  | [] => Some (s, None)
  | victim :: victims =>
      b ← is_stealable victim s;
      if decide (victim = id ∨ b = false) then steal_victims victims id attempts s else
      '(s, b) ← take_stealable victim s;
      if negb b then steal_victims victims id attempts s else
      d ← locals s !! victim;
      '(d, r) ← dq_steal_front d;
      let s := set_locals (<[victim := d]> (locals s)) s in
      match r with
      | Some c =>
          s ← mark_stealable victim s;
          Some (set_pending (pending s - 1) s, Some c)
      | None =>
          if decide (STEAL_ATTEMPTS ≤ S attempts)%nat then Some (s, None)
          else steal_victims victims id (S attempts) s
      end
  end.

Definition steal (id : nat) (s : Scheduler) : option (Scheduler * option A) :=
  let count := length (locals s) in
  if decide (count < 2)%nat then Some (s, None) else
  sl ← slots s !! id;
  let '(sl, r) := next_random sl in
  let s := set_slots (<[id := sl]> (slots s)) s in
  let start := Z.to_nat (r mod Z.of_nat count) in
  steal_victims ((λ offset, (start + offset) mod count)%nat <$> seq 0 count) id 0 s.

Definition pop_runnable (me : option nat) (s : Scheduler) : option (Scheduler * option A) :=
  match me with
  | None => Some (pop_injector s)
  | Some id =>
      sl ← slots s !! id;
      let '(sl, o) := take_handoff sl in
      let s := set_slots (<[id := sl]> (slots s)) s in
      match o with
      | Some c => Some (set_pending (pending s - 1) s, Some c)
      | None =>
          if decide (pending s = 0) then Some (s, None) else
          let t := tick sl in
          let s := set_slots (<[id := mkSlot (t +w 1) (rng sl) (thread sl) None]> (slots s)) s in
          let '(s, first) := if decide (Z.land t (INJECT_INTERVAL - 1) = 0)
                             then pop_injector s else (s, None) in
          match first with
          | Some c => Some (s, Some c)
          | None =>
              d ← locals s !! id;
              '(d, r) ← dq_pop_back d;
              let s := set_locals (<[id := d]> (locals s)) s in
              match r with
              | Some c => Some (set_pending (pending s - 1) s, Some c)
              | None =>
                  let '(s, o) := pop_injector s in
                  match o with Some c => Some (s, Some c) | None => steal id s end
              end
          end
      end
  end.

Definition pop (me : option nat) (s : Scheduler) : option (Scheduler * option A * list Effect) :=
  '(s, o) ← pop_runnable me s;
  Some (s, o, match o with Some c => [MarkRunning c] | None => [] end).

Fixpoint flush_loop (fuel id : nat) (s : Scheduler) : option Scheduler :=
  match fuel with
  | O => None
  | S fuel =>
      d ← locals s !! id;
      '(d, r) ← dq_pop_back d;
      let s := set_locals (<[id := d]> (locals s)) s in
      match r with
      | Some c => flush_loop fuel id (set_injector (fifo_push c (injector s)) s)
      | None => Some s
      end
  end.

(** [fuel] bounds the number of services in the local queue. *)
Definition flush_local (fuel : nat) (me : option nat) (s : Scheduler) : option Scheduler :=
  match me with
  | None => Some s
  | Some id =>
      sl ← slots s !! id;
      let '(sl, o) := take_handoff sl in
      let s := set_slots (<[id := sl]> (slots s)) s in
      let s := match o with Some c => set_injector (fifo_push c (injector s)) s | None => s end in
      s ← flush_loop fuel id s;
      clear_stealable id s
  end.

(** The spinning rounds of [find_work_or_park]: [Some (s, Some r)] leaves early with
    the result [r]. *)
Fixpoint spin (rounds id : nat) (s : Scheduler) : option (Scheduler * option (option A) * list Effect) :=
  match rounds with
  | O => Some (s, None, [])
  | S rounds =>
      '(s, o, e) ← pop (Some id) s;
      match o with
      | Some c => Some (set_searching (searching s - 1) s, Some (Some c), e)
      | None =>
          if quit s then Some (set_searching (searching s - 1) s, Some None, e)
          else spin rounds id s
      end
  end.

Definition find_work_or_park (me : option nat) (s : Scheduler)
    : option (Scheduler * option A * list Effect) :=
  id ← me;
  let searchers := searching s in
  let s := set_searching (searching s + 1) s in
  let rounds := if decide (searchers < max_searchers s) then SPIN_ROUNDS else 0%nat in
  '(s, r, e) ← spin rounds id s;
  match r with
  | Some o => Some (s, o, e)
  | None =>
      s ← mark_idle id s;
      let s := set_searching (searching s - 1) s in
      '(s, o, e') ← pop (Some id) s;
      match o with
      | Some c => s ← clear_idle id s; Some (s, Some c, e ++ e')
      | None =>
          let e'' := if quit s then [] else [Parked id] in
          s ← clear_idle id s;
          Some (s, None, e ++ e' ++ e'')
      end
  end.

Definition poke (s : Scheduler) : option (Scheduler * list Effect) :=
  if decide (0 < pending s) then wake_idle s else Some (s, []).

Definition should_yield (s : Scheduler) : bool := bool_decide (0 < pending s) || quit s.

Definition set_quit (s : Scheduler) : Scheduler * list Effect :=
  (set_quit_flag true s,
   concat (imap (λ id sl, if thread sl then [Unpark id] else []) (slots s))).

(** ** The services in the run queues *)

(** [lcs] are the contents of the local queues. *)
Definition items (s : Scheduler) (lcs : list (list A)) : list A :=
  omap handoff (slots s) ++ fifo_list (injector s) ++ concat lcs.

(** [k] services are counted in [pending] and are in no queue. *)
Record inv_off (k : Z) (s : Scheduler) (lcs : list (list A)) : Prop := {
  inv_locals : Forall2 dq_rep (locals s) lcs;
  inv_slots : length (slots s) = length (locals s);
  inv_idle : (length (locals s) ≤ 64 * length (idle s))%nat ∧ words_ok (idle s);
  inv_idle_ids : ∀ j, has_bit (idle s) j → (j < length (locals s))%nat;
  inv_steal : (length (locals s) ≤ 64 * length (stealable s))%nat ∧ words_ok (stealable s);
  inv_pending : pending s = Z.of_nat (length (items s lcs)) + k;
}.

Definition inv := inv_off 0.

(** The deques of a running node have block sequences left. *)
Definition live (s : Scheduler) : Prop := ∀ d, d ∈ locals s → dq_live d.

Definition option_items (o : option A) : list A := match o with Some c => [c] | None => [] end.

Lemma omap_insert_perm {B} (f : B → option A) (l : list B) i a b :
  l !! i = Some a → omap f (<[i := b]> l) ++ option_items (f a) ≡ₚ omap f l ++ option_items (f b).
Proof.
  intros Hi. rewrite insert_take_drop by (by eapply lookup_lt_Some). rewrite <-(take_drop_middle l i a Hi) at 3.
  rewrite !omap_app. cbn. destruct (f a), (f b); cbn; rewrite ?app_nil_r; solve_Permutation.
Qed.

Lemma concat_insert_perm (l : list (list A)) i x y :
  l !! i = Some x → concat (<[i := y]> l) ++ x ≡ₚ concat l ++ y.
Proof.
  intros Hi. rewrite insert_take_drop by (by eapply lookup_lt_Some). rewrite <-(take_drop_middle l i x Hi) at 3.
  rewrite !concat_app. cbn. solve_Permutation.
Qed.

Lemma word_index (id n m : nat) : (id < n)%nat → (n ≤ 64 * m)%nat → (id / 64 < m)%nat.
Proof. intros. apply Nat.Div0.div_lt_upper_bound; lia. Qed.

(** Replacing one hand-over slot. *)
Lemma inv_set_slot k k' s lcs id sl sl' :
  inv_off k s lcs → slots s !! id = Some sl →
  k' + Z.of_nat (length (option_items (handoff sl'))) = k + Z.of_nat (length (option_items (handoff sl))) →
  inv_off k' (set_slots (<[id := sl']> (slots s)) s) lcs
  ∧ items (set_slots (<[id := sl']> (slots s)) s) lcs ++ option_items (handoff sl)
    ≡ₚ items s lcs ++ option_items (handoff sl').
Proof.
  intros Hi Hsl Hn. set (s' := set_slots _ _).
  assert (Hp : items s' lcs ++ option_items (handoff sl) ≡ₚ items s lcs ++ option_items (handoff sl')).
  { unfold items. cbn. pose proof (omap_insert_perm handoff (slots s) id sl sl' Hsl) as Hp.
    rewrite (Permutation_app_comm (_ ++ _ ++ _)), app_assoc, (Permutation_app_comm (option_items _)), Hp.
    solve_Permutation. }
  split; [|done]. pose proof (Permutation_length Hp) as Hlen. rewrite !length_app in Hlen.
  destruct Hi. split; try done; [cbn; by rewrite length_insert|].
  change (pending s = Z.of_nat (length (items s' lcs)) + k'). lia.
Qed.

(** Replacing one local queue. *)
Lemma inv_set_local k k' s lcs id xs d' xs' :
  inv_off k s lcs → lcs !! id = Some xs → dq_rep d' xs' →
  k' + Z.of_nat (length xs') = k + Z.of_nat (length xs) →
  inv_off k' (set_locals (<[id := d']> (locals s)) s) (<[id := xs']> lcs)
  ∧ items (set_locals (<[id := d']> (locals s)) s) (<[id := xs']> lcs) ++ xs ≡ₚ items s lcs ++ xs'.
Proof.
  intros Hi Hxs Hd' Hn. set (s' := set_locals _ _).
  assert (Hp : items s' (<[id := xs']> lcs) ++ xs ≡ₚ items s lcs ++ xs').
  { unfold items. cbn. rewrite <-!app_assoc. do 2 f_equiv. by apply concat_insert_perm. }
  split; [|done]. pose proof (Permutation_length Hp) as Hlen. rewrite !length_app in Hlen.
  destruct Hi. split; try done; cbn; rewrite ?length_insert; try done.
  - by apply Forall2_insert.
  - change (pending s = Z.of_nat (length (items s' (<[id := xs']> lcs))) + k'). lia.
Qed.

Lemma inv_set_injector k k' s lcs q :
  inv_off k s lcs → k' + Z.of_nat (length (fifo_list q)) = k + Z.of_nat (length (fifo_list (injector s))) →
  inv_off k' (set_injector q s) lcs
  ∧ items (set_injector q s) lcs ++ fifo_list (injector s) ≡ₚ items s lcs ++ fifo_list q.
Proof.
  intros Hi Hn. set (s' := set_injector _ _).
  assert (Hp : items s' lcs ++ fifo_list (injector s) ≡ₚ items s lcs ++ fifo_list q).
  { unfold items. cbn. solve_Permutation. }
  split; [|done]. pose proof (Permutation_length Hp) as Hlen. rewrite !length_app in Hlen.
  destruct Hi. split; try done. change (pending s = Z.of_nat (length (items s' lcs)) + k'). lia.
Qed.

Lemma inv_set_pending k k' n s lcs :
  inv_off k s lcs → n - k' = pending s - k → inv_off k' (set_pending n s) lcs.
Proof. intros [] Hn. split; try done. cbn. unfold items in *. cbn. lia. Qed.

Lemma inv_push_injector k s lcs c :
  inv_off (k + 1) s lcs →
  inv_off k (set_injector (fifo_push c (injector s)) s) lcs
  ∧ items (set_injector (fifo_push c (injector s)) s) lcs ≡ₚ c :: items s lcs.
Proof.
  intros Hi. destruct (inv_set_injector (k + 1) k s lcs (fifo_push c (injector s)) Hi) as [Hi' Hp].
  { rewrite fifo_list_push, length_app. cbn. lia. }
  split; [done|]. rewrite fifo_list_push, app_assoc in Hp.
  rewrite (Permutation_app_comm _ [c]) in Hp. cbn in Hp.
  eapply Permutation_app_inv_r. rewrite Hp. done.
Qed.

Lemma local_at k s lcs id :
  inv_off k s lcs → live s → (id < length (locals s))%nat →
  ∃ d xs, locals s !! id = Some d ∧ lcs !! id = Some xs ∧ dq_rep d xs ∧ dq_live d.
Proof.
  intros Hi Hl Hid. destruct (lookup_lt_is_Some_2 _ _ Hid) as [d Hd].
  destruct (Forall2_lookup_l _ _ _ _ _ (inv_locals _ _ _ Hi) Hd) as (xs & Hxs & Hr).
  exists d, xs. split_and!; try done. apply Hl. by eapply list_elem_of_lookup_2.
Qed.

Lemma slot_at k s lcs id : inv_off k s lcs → (id < length (locals s))%nat → ∃ sl, slots s !! id = Some sl.
Proof. intros Hi Hid. apply lookup_lt_is_Some_2. by rewrite (inv_slots _ _ _ Hi). Qed.

Lemma mark_stealable_spec k s lcs id :
  inv_off k s lcs → (id < length (locals s))%nat →
  ∃ w, mark_stealable id s = Some (set_stealable w s) ∧ inv_off k (set_stealable w s) lcs.
Proof.
  intros Hi Hid. destruct (inv_steal _ _ _ Hi) as [Hn Hok].
  destruct (fetch_or_spec id (stealable s)) as (w & Hw & Hlen & Hok' & _); [by eapply word_index|done|].
  unfold mark_stealable. rewrite Hw. exists w. split; [done|]. destruct Hi. split; try done. cbn. by rewrite Hlen.
Qed.

Lemma take_stealable_spec k s lcs id :
  inv_off k s lcs → (id < length (locals s))%nat →
  ∃ w b, take_stealable id s = Some (set_stealable w s, b) ∧ clear_stealable id s = Some (set_stealable w s)
    ∧ inv_off k (set_stealable w s) lcs.
Proof.
  intros Hi Hid. destruct (inv_steal _ _ _ Hi) as [Hn Hok].
  destruct (fetch_clear_spec id (stealable s)) as (w & b & Hw & Hlen & Hok' & _); [by eapply word_index|done|].
  unfold take_stealable, clear_stealable. rewrite Hw. exists w, b. split; [done|]. split; [done|].
  destruct Hi. split; try done. cbn. by rewrite Hlen.
Qed.

Lemma items_stealable w s lcs : items (set_stealable w s) lcs = items s lcs.
Proof. done. Qed.

(** The calling thread is a worker of this scheduler or none. *)
Definition caller_ok (me : option nat) (s : Scheduler) : Prop :=
  match me with Some id => (id < length (locals s))%nat | None => True end.

Lemma place_spec k me c s lcs :
  inv_off (k + 1) s lcs → live s → caller_ok me s →
  ∃ s' lcs', place me c s = Some s' ∧ inv_off k s' lcs' ∧ items s' lcs' ≡ₚ c :: items s lcs
    ∧ slots s' = slots s ∧ idle s' = idle s ∧ searching s' = searching s ∧ pending s' = pending s
    ∧ length (locals s') = length (locals s).
Proof.
  intros Hi Hl Hme. unfold place. destruct me as [id|]; cbn [mbind option_bind].
  2: { destruct (inv_push_injector k s lcs c Hi). eexists _, lcs. split; [done|]. by split_and!. }
  destruct (local_at _ _ _ _ Hi Hl Hme) as (d & xs & Hd & Hxs & Hr & Hlive). rewrite Hd. cbn [mbind option_bind].
  destruct (dq_push_spec d xs c Hr Hlive) as [(d' & p & Hp & Hr')|Hp]; rewrite Hp; cbn [mbind option_bind].
  - destruct (inv_set_local (k + 1) k s lcs id xs d' (xs ++ [c]) Hi Hxs Hr') as [Hi' Hperm].
    { rewrite length_app. cbn. lia. }
    assert (Hperm' : items (set_locals (<[id:=d']> (locals s)) s) (<[id:=xs ++ [c]]> lcs) ≡ₚ c :: items s lcs).
    { apply (Permutation_app_inv_r xs). rewrite Hperm. cbn. solve_Permutation. }
    destruct p; cbn [mbind option_bind].
    + eexists _, _. split; [done|]. split_and!; try done. cbn. by rewrite length_insert.
    + destruct (mark_stealable_spec k _ _ id Hi') as (w & Hm & Hi''); [cbn; by rewrite length_insert|].
      rewrite Hm. cbn [mbind option_bind]. eexists _, _. split; [done|]. split_and!; try done.
      cbn. by rewrite length_insert.
  - rewrite list_insert_id by done. replace (set_locals (locals s) s) with s by (by destruct s).
    destruct (inv_push_injector k s lcs c Hi). eexists _, lcs. split; [done|]. by split_and!.
Qed.

Definition idle_worker (s : Scheduler) (id : nat) : Prop := has_bit (idle s) id.

Lemma claim_idle_spec k s lcs :
  inv_off k s lcs →
  ∃ w o, claim_idle s = (set_idle w s, o) ∧ inv_off k (set_idle w s) lcs
    ∧ match o with
      | None => w = idle s ∧ ∀ j, ¬ idle_worker s j
      | Some id => (id < length (locals s))%nat ∧ idle_worker s id ∧ (∀ j, (j < id)%nat → ¬ idle_worker s j)
          ∧ ∀ j, has_bit w j ↔ j ≠ id ∧ idle_worker s j
      end.
Proof.
  intros Hi. destruct (inv_idle _ _ _ Hi) as [Hn Hok].
  destruct (claim_words_spec (idle s) 0 Hok) as (w & o & Hc & Hlen & Hok' & Ho).
  unfold claim_idle. rewrite Hc. exists w, o. split; [done|].
  assert (Hsub : ∀ j, has_bit w j → idle_worker s j).
  { destruct o as [id|]; [destruct Ho as (i & _ & _ & _ & Hiff); intros j; by intros [_ ?]%Hiff|].
    destruct Ho as [-> _]. done. }
  split; [destruct Hi; split; try done; cbn; [by rewrite Hlen|intros j Hj; by apply inv_idle_ids0, Hsub]|].
  destruct o as [id|]; [|done]. destruct Ho as (i & -> & Hb & Hlow & Hiff). cbn.
  split_and!; try done. by apply (inv_idle_ids _ _ _ Hi).
Qed.

Lemma wake_spec k s lcs id :
  inv_off k s lcs → (id < length (locals s))%nat → ∃ e, wake id s = Some e ∧ (e = [] ∨ e = [Unpark id]).
Proof.
  intros Hi Hid. destruct (slot_at _ _ _ _ Hi Hid) as [sl Hsl]. unfold wake. rewrite Hsl. cbn.
  destruct (thread sl); eauto.
Qed.

Lemma wake_idle_spec k s lcs :
  inv_off k s lcs →
  ∃ s' e, wake_idle s = Some (s', e) ∧ inv_off k s' lcs ∧ items s' lcs = items s lcs
    ∧ (∀ c, MarkRunning c ∉ e).
Proof.
  intros Hi. destruct (claim_idle_spec k s lcs Hi) as (w & o & Hc & Hi' & Ho). unfold wake_idle. rewrite Hc.
  destruct o as [id|].
  - destruct Ho as (Hid & _). destruct (wake_spec k (set_idle w s) lcs id Hi' Hid) as (e & -> & He). cbn.
    eexists _, _. split; [done|]. split_and!; try done. intros c. destruct He as [-> | ->]; set_solver.
  - eexists _, _. split; [done|]. split_and!; try done. intros c. apply not_elem_of_nil.
Qed.

(** The claimed worker gets the service in its slot; a taken slot sends it to the run
    queues. *)
Lemma hand_over_spec me c s lcs id sl sl' back :
  inv_off (0 + 1) s lcs → live s → caller_ok me s → slots s !! id = Some sl → offer c sl = (sl', back) →
  ∃ s' lcs', (match back with
        | Some c => place me c (set_slots (<[id := sl']> (slots s)) s)
        | None => Some (set_slots (<[id := sl']> (slots s)) s) end) = Some s'
    ∧ inv s' lcs' ∧ items s' lcs' ≡ₚ c :: items s lcs ∧ idle s' = idle s
    ∧ slots s' = <[id := sl']> (slots s) ∧ thread sl' = thread sl
    ∧ (handoff sl = None → handoff sl' = Some c).
Proof.
  intros Hi Hl Hme Hsl Hoff. unfold offer in Hoff. destruct (handoff sl) as [c0|] eqn:Hh; simplify_eq.
  - rewrite list_insert_id by done. replace (set_slots (slots s) s) with s by (by destruct s).
    destruct (place_spec 0 me c s lcs Hi Hl Hme) as (s' & lcs' & Hpl & Hi3 & Hp3 & Hs3 & Hid3 & _).
    exists s', lcs'. by rewrite Hpl.
  - eexists _, lcs.
    destruct (inv_set_slot 1 0 s lcs id sl (mkSlot (tick sl) (rng sl) (thread sl) (Some c)) Hi Hsl)
      as [Hi3 Hp3]; [rewrite Hh; cbn; lia|].
    split; [done|]. rewrite Hh in Hp3. cbn [option_items handoff] in Hp3. rewrite app_nil_r in Hp3.
    split_and!; try done. rewrite Hp3. symmetry. apply Permutation_cons_append.
Qed.

Lemma push_spec me c s lcs :
  inv s lcs → live s → caller_ok me s → is_exclusive c = false →
  ∃ s' e lcs', push me c s = Some (s', MarkQueued c :: e) ∧ inv s' lcs' ∧ items s' lcs' ≡ₚ c :: items s lcs
    ∧ (searching s = 0 → ∀ id, idle_worker s id → (∀ j, (j < id)%nat → ¬ idle_worker s j) →
        ¬ idle_worker s' id
        ∧ ∀ sl, slots s !! id = Some sl →
            (thread sl = true → Unpark id ∈ e)
            ∧ (handoff sl = None → ∃ sl', slots s' !! id = Some sl' ∧ handoff sl' = Some c)).
Proof.
  intros Hi Hl Hme Hex. unfold push. rewrite Hex.
  assert (Hi1 : inv_off (0 + 1) (set_pending (pending s + 1) s) lcs) by (apply (inv_set_pending 0); [done|lia]).
  set (s1 := set_pending (pending s + 1) s) in *. case_decide as Hsearch.
  { destruct (inv_push_injector 0 s1 lcs c Hi1) as [Hi2 Hp2]. cbn in Hsearch. case_decide as Hz; [cbn in Hz; lia|].
    eexists _, [], lcs. split; [done|]. split; [done|]. split; [done|]. intros Hz0. lia. }
  destruct (claim_idle_spec _ s1 lcs Hi1) as (w & o & Hc & Hi2 & Ho). rewrite Hc. destruct o as [id|].
  - destruct Ho as (Hid & Hidle & Hlow & Hiff).
    destruct (slot_at _ _ _ _ Hi2 Hid) as [sl Hsl]. rewrite Hsl. cbn [mbind option_bind]. cbn in Hsl.
    destruct (offer c sl) as [sl' back] eqn:Hoff.
    pose proof (hand_over_spec me c (set_idle w s1) lcs id sl sl' back Hi2 Hl Hme Hsl Hoff) as Hfin.
    destruct Hfin as (s3 & lcs' & -> & Hi3 & Hp3 & Hid3 & Hsl3 & Hth & Hho). cbn [mbind option_bind].
    assert (Hw3 : wake id s3 = Some (if thread sl then [Unpark id] else [])).
    { unfold wake. rewrite Hsl3, list_lookup_insert_eq by (by eapply lookup_lt_Some). cbn. by rewrite Hth. }
    rewrite Hw3. cbn [mbind option_bind]. eexists _, _, lcs'. split; [done|]. split; [done|]. split; [done|].
    intros _ id' Hid' Hlow'. assert (id' = id) as ->.
    { destruct (Nat.lt_trichotomy id' id) as [Hlt|[?|Hgt]]; [by destruct (Hlow _ Hlt)|done|by destruct (Hlow' _ Hgt)]. }
    split; [unfold idle_worker; rewrite Hid3; intros [? _]%Hiff; done|].
    intros sl0 Hsl0. assert (sl0 = sl) as -> by congruence. split.
    + intros ->. left.
    + intros Hh. exists sl'. rewrite Hsl3. split; [|auto]. apply list_lookup_insert_eq. by eapply lookup_lt_Some.
  - destruct Ho as [-> Hnone]. replace (set_idle (idle s1) s1) with s1 in * by (by destruct s).
    destruct (place_spec 0 me c s1 lcs Hi1 Hl Hme) as (s2 & lcs' & Hpl & Hi3 & Hp3 & Hsl3 & Hid3 & _).
    rewrite Hpl. cbn [mbind option_bind].
    assert (Hgoal : ∀ s' e, inv_off 0 s' lcs' → items s' lcs' = items s2 lcs' →
      ∃ s'0 e0 lcs'0, Some (s', [MarkQueued c] ++ e) = Some (s'0, MarkQueued c :: e0) ∧ inv s'0 lcs'0
        ∧ items s'0 lcs'0 ≡ₚ c :: items s lcs
        ∧ (searching s = 0 → ∀ id, idle_worker s id → (∀ j, (j < id)%nat → ¬ idle_worker s j) →
          ¬ idle_worker s'0 id ∧ ∀ sl, slots s !! id = Some sl → (thread sl = true → Unpark id ∈ e0)
            ∧ (handoff sl = None → ∃ sl', slots s'0 !! id = Some sl' ∧ handoff sl' = Some c))).
    { intros s' e Hi' Hit. eexists _, _, lcs'. split; [done|]. split; [done|]. split; [by rewrite Hit|].
      intros _ id Hid. by destruct (Hnone id). }
    case_decide; [|by apply (Hgoal s2 [])].
    destruct (wake_idle_spec 0 s2 lcs' Hi3) as (s4 & e & -> & Hi4 & Hit & _). cbn [mbind option_bind]. by apply Hgoal.
Qed.

Lemma pop_injector_spec s lcs :
  inv s lcs →
  ∃ s' o, pop_injector s = (s', o) ∧ inv s' lcs ∧ slots s' = slots s ∧ locals s' = locals s
    ∧ match o with
      | Some c => items s lcs ≡ₚ c :: items s' lcs
      | None => s' = s ∧ fifo_list (injector s) = []
      end.
Proof.
  intros Hi. unfold pop_injector. destruct (fifo_pop (injector s)) as [[c q]|] eqn:Hq.
  - apply fifo_pop_Some in Hq. eexists _, _. split; [done|].
    destruct (inv_set_injector 0 1 s lcs q Hi) as [Hi' Hp]; [rewrite Hq; cbn; lia|].
    split; [apply (inv_set_pending 1); [done|cbn; lia]|]. split_and!; try done.
    change (items (set_pending _ (set_injector q s)) lcs) with (items (set_injector q s) lcs).
    apply (Permutation_app_inv_r (fifo_list q)). rewrite <-Hp, Hq. cbn. rewrite <-Permutation_middle. done.
  - apply fifo_pop_None in Hq. by eexists _, _.
Qed.

Definition pop_post (s s' : Scheduler) (lcs lcs' : list (list A)) (o : option A) : Prop :=
  inv s' lcs' ∧ length (locals s') = length (locals s)
  ∧ match o with
    | Some c => items s lcs ≡ₚ c :: items s' lcs'
    | None => items s' lcs' ≡ₚ items s lcs
    end.

Lemma live_insert s id d : live s → dq_live d → live (set_locals (<[id := d]> (locals s)) s).
Proof.
  intros Hl Hd x [j [(_ & <- & _)|[_ Hj]]%list_lookup_insert_Some]%list_elem_of_lookup; [done|].
  apply Hl. by eapply list_elem_of_lookup_2.
Qed.

Lemma steal_victims_spec victims id attempts s lcs :
  inv s lcs → live s → Forall (λ v, v < length (locals s))%nat victims →
  ∃ s' o lcs', steal_victims victims id attempts s = Some (s', o) ∧ pop_post s s' lcs lcs' o ∧ slots s' = slots s.
Proof.
  intros Hi Hl Hv. revert attempts s lcs Hi Hl Hv. induction victims as [|v vs IH]; intros attempts s lcs Hi Hl Hv.
  { exists s, None, lcs. split; [done|]. split; [|done]. by split. }
  apply Forall_cons in Hv as [Hv Hvs]. cbn [steal_victims].
  destruct (inv_steal _ _ _ Hi) as [Hn Hok].
  destruct (test_bit_spec v (stealable s)) as (b & Hb & _); [by eapply word_index|].
  unfold is_stealable. rewrite Hb. cbn [mbind option_bind]. case_decide; [by apply IH|].
  destruct (take_stealable_spec _ _ _ _ Hi Hv) as (w & b' & -> & _ & Hi1). cbn [mbind option_bind].
  destruct b'; cbn [negb].
  2: { destruct (IH attempts _ _ Hi1 Hl Hvs) as (s' & o & lcs' & -> & Hp & Hsl). by exists s', o, lcs'. }
  destruct (local_at _ _ _ _ Hi1 Hl Hv) as (d & xs & Hd & Hxs & Hr & Hlive). rewrite Hd. cbn [mbind option_bind].
  destruct (dq_steal_spec d xs Hr Hlive) as (d' & r & -> & Hlive' & Hst). cbn [mbind option_bind].
  destruct r as [c|].
  - destruct Hst as (xs' & -> & Hr').
    destruct (inv_set_local 0 1 _ _ v _ d' xs' Hi1 Hxs Hr') as [Hi2 Hp2]; [cbn; lia|].
    destruct (mark_stealable_spec _ _ _ v Hi2) as (w' & -> & Hi3); [cbn; by rewrite length_insert|].
    cbn [mbind option_bind]. eexists _, _, _. split; [done|]. split; [|done].
    split; [apply (inv_set_pending 1); [done|cbn; lia]|]. split; [cbn; by rewrite length_insert|].
    change (items (set_pending ?n ?s) ?l) with (items s l). rewrite items_stealable in *.
    apply (Permutation_app_inv_r xs'). rewrite <-Hp2. cbn. rewrite <-Permutation_middle. done.
  - destruct (inv_set_local 0 0 _ _ v xs d' xs Hi1 Hxs Hst) as [Hi2 Hp2]; [lia|].
    apply Permutation_app_inv_r in Hp2. rewrite items_stealable in Hp2.
    set (s2 := set_locals _ _) in *. assert (Hlen : length (locals s2) = length (locals s)) by (cbn; by rewrite length_insert).
    case_decide.
    + eexists _, _, _. split; [done|]. split; [|done]. by split_and!.
    + destruct (IH (S attempts) s2 _ Hi2) as (s' & o & lcs' & -> & (Hi' & Hlen' & Ho) & Hsl).
      * by apply (live_insert (set_stealable w s)).
      * by rewrite Hlen.
      * exists s', o, lcs'. split; [done|]. split; [|done]. split; [done|]. split; [congruence|].
        destruct o; by rewrite <-Hp2.
Qed.

Lemma steal_spec id s lcs :
  inv s lcs → live s → (id < length (locals s))%nat →
  ∃ s' o lcs', steal id s = Some (s', o) ∧ pop_post s s' lcs lcs' o
    ∧ ∃ sl, slots s !! id = Some sl ∧ ∃ sl', slots s' !! id = Some sl' ∧ handoff sl' = handoff sl.
Proof.
  intros Hi Hl Hid. unfold steal. destruct (slot_at _ _ _ _ Hi Hid) as [sl Hsl]. case_decide.
  { exists s, None, lcs. split; [done|]. split; [by split|eauto]. }
  rewrite Hsl. cbn [mbind option_bind]. destruct (next_random sl) as [sl' r] eqn:Hr.
  assert (Hh : handoff sl' = handoff sl) by (unfold next_random in Hr; by injection Hr as <- _).
  destruct (inv_set_slot 0 0 s lcs id sl sl' Hi Hsl) as [Hi1 Hp1]; [rewrite Hh; lia|].
  rewrite Hh in Hp1. apply Permutation_app_inv_r in Hp1.
  destruct (steal_victims_spec ((λ offset, (Z.to_nat (r mod Z.of_nat (length (locals s))) + offset) mod length (locals s))%nat
      <$> seq 0 (length (locals s))) id 0 _ _ Hi1 Hl) as (s' & o & lcs' & -> & (Hi' & Hlen & Ho) & Hs').
  { apply Forall_fmap, Forall_forall. intros x _. cbn -[Nat.modulo]. apply Nat.mod_upper_bound. lia. }
  exists s', o, lcs'. split; [done|]. split.
  - split; [done|]. split; [done|]. destruct o; by rewrite <-Hp1.
  - exists sl. split; [done|]. exists sl'. rewrite Hs'. split; [|done]. cbn.
    apply list_lookup_insert_eq. by eapply lookup_lt_Some.
Qed.

(** What is left unseen when a worker finds nothing. *)
Definition exhausted (id : nat) (s : Scheduler) (lcs : list (list A)) : Prop :=
  (∃ sl, slots s !! id = Some sl ∧ handoff sl = None) ∧ lcs !! id = Some [] ∧ fifo_list (injector s) = [].

Lemma pop_tail_spec id s lcs :
  inv s lcs → live s → (id < length (locals s))%nat →
  (∃ sl, slots s !! id = Some sl ∧ handoff sl = None) →
  ∃ s' o lcs', (d ← locals s !! id;
      '(d, r) ← dq_pop_back d;
      let s := set_locals (<[id := d]> (locals s)) s in
      match r with
      | Some c => Some (set_pending (pending s - 1) s, Some c)
      | None =>
          let '(s, o) := pop_injector s in
          match o with Some c => Some (s, Some c) | None => steal id s end
      end) = Some (s', o) ∧ pop_post s s' lcs lcs' o ∧ (o = None → exhausted id s lcs).
Proof.
  intros Hi Hl Hid (sl & Hsl & Hh).
  destruct (local_at _ _ _ _ Hi Hl Hid) as (d & xs & Hd & Hxs & Hr & Hlive). rewrite Hd. cbn [mbind option_bind].
  destruct (dq_pop_spec d xs Hr Hlive) as (d' & r & -> & Hlive' & Hst). cbn [mbind option_bind]. destruct r as [c|].
  - destruct Hst as (xs' & -> & Hr').
    destruct (inv_set_local 0 1 _ _ id _ d' xs' Hi Hxs Hr') as [Hi2 Hp2]; [rewrite length_app; cbn; lia|].
    eexists _, _, _. split; [done|]. split; [|done].
    split; [apply (inv_set_pending 1); [done|cbn; lia]|]. split; [cbn; by rewrite length_insert|].
    change (items (set_pending ?n ?s) ?l) with (items s l).
    apply (Permutation_app_inv_r xs'). rewrite <-Hp2. solve_Permutation.
  - destruct Hst as [-> Hr']. destruct (inv_set_local 0 0 _ _ id [] d' [] Hi Hxs Hr') as [Hi2 Hp2]; [lia|].
    rewrite !app_nil_r in Hp2. rewrite (list_insert_id lcs) in Hi2, Hp2 by done.
    set (s2 := set_locals _ _) in *. assert (Hlen : length (locals s2) = length (locals s)) by (cbn; by rewrite length_insert).
    destruct (pop_injector_spec s2 lcs Hi2) as (s3 & o & -> & Hi3 & Hsl3 & Hlc3 & Ho). destruct o as [c|].
    + eexists _, _, _. split; [done|]. split; [|done]. split; [done|]. split; [congruence|]. by rewrite <-Hp2.
    + destruct Ho as [-> Hq]. destruct (steal_spec id s2 lcs Hi2) as (s' & o & lcs' & -> & (Hi' & Hlen' & Ho) & _).
      * by apply live_insert.
      * by rewrite Hlen.
      * exists s', o, lcs'. split; [done|]. split; [|intros _; split_and!; [by exists sl|done|done]].
        split; [done|]. split; [congruence|]. destruct o; by rewrite <-Hp2.
Qed.

Lemma pending_zero s lcs id :
  inv s lcs → pending s = 0 → (id < length (locals s))%nat →
  items s lcs = [] ∧ lcs !! id = Some [].
Proof.
  intros Hi Hz Hid. pose proof (inv_pending _ _ _ Hi) as Hp.
  destruct (items s lcs) as [|c l] eqn:E; [|cbn in Hp; lia]. split; [done|].
  assert (Hlen : length lcs = length (locals s)) by (symmetry; by eapply Forall2_length, Hi).
  destruct (lookup_lt_is_Some_2 lcs id) as [xs Hxs]; [lia|]. rewrite Hxs. f_equal.
  unfold items in E. apply app_eq_nil in E as [_ [_ E]%app_eq_nil].
  apply concat_nil_Forall in E. rewrite Forall_lookup in E. by eapply E.
Qed.

Lemma pop_runnable_spec me s lcs :
  inv s lcs → live s → caller_ok me s →
  ∃ s' o lcs', pop_runnable me s = Some (s', o) ∧ pop_post s s' lcs lcs' o
    ∧ match me with
      | Some id => o = None → exhausted id s lcs
      | None => o = None → fifo_list (injector s) = []
      end.
Proof.
  intros Hi Hl Hme. unfold pop_runnable. destruct me as [id|].
  2: { destruct (pop_injector_spec s lcs Hi) as (s' & o & -> & Hi' & _ & Hlc & Ho). exists s', o, lcs.
       split; [done|]. destruct o as [c|]; [split; [|done]; by split_and!; [|rewrite Hlc|]|].
       destruct Ho as [-> Hq]. by split. }
  destruct (slot_at _ _ _ _ Hi Hme) as [sl Hsl]. rewrite Hsl. cbn [mbind option_bind take_handoff].
  assert (Hlt : (id < length (slots s))%nat) by (by eapply lookup_lt_Some).
  set (sl0 := mkSlot (tick sl) (rng sl) (thread sl) None).
  destruct (handoff sl) as [c|] eqn:Hh.
  { destruct (inv_set_slot 0 1 s lcs id sl sl0 Hi Hsl) as [Hi1 Hp1]; [rewrite Hh; cbn; lia|].
    rewrite Hh in Hp1. cbn [option_items handoff sl0] in Hp1. rewrite app_nil_r in Hp1.
    eexists _, _, lcs. split; [done|]. split; [|done]. split; [apply (inv_set_pending 1); [done|cbn; lia]|].
    split; [done|]. rewrite <-Hp1. symmetry. apply Permutation_cons_append. }
  case_decide as Hz.
  { cbn in Hz. destruct (pending_zero s lcs id Hi Hz Hme) as [Hit Hxs].
    destruct (inv_set_slot 0 0 s lcs id sl sl0 Hi Hsl) as [Hi1 Hp1]; [rewrite Hh; done|].
    rewrite Hh in Hp1. rewrite !app_nil_r in Hp1. eexists _, _, lcs. split; [done|]. split; [by split_and!|].
    intros _. split_and!; [by exists sl|done|]. unfold items in Hit. by apply app_eq_nil in Hit as [_ [? _]%app_eq_nil]. }
  set (sl1 := mkSlot _ _ _ None). cbn [slots set_slots]. rewrite list_insert_insert_eq.
  destruct (inv_set_slot 0 0 s lcs id sl sl1 Hi Hsl) as [Hi1 Hp1]; [rewrite Hh; done|].
  rewrite Hh in Hp1. cbn [option_items handoff sl1] in Hp1. rewrite !app_nil_r in Hp1.
  change (set_slots ?a (set_slots ?b ?s)) with (set_slots a s). set (s1 := set_slots (<[id:=sl1]> (slots s)) s) in *.
  assert (Hsl1 : ∃ sl, slots s1 !! id = Some sl ∧ handoff sl = None)
    by (exists sl1; split; [by apply list_lookup_insert_eq|done]).
  assert (Htail : ∃ s' o lcs', (d ← locals s1 !! id; '(d, r) ← dq_pop_back d;
      let s := set_locals (<[id := d]> (locals s1)) s1 in
      match r with
      | Some c => Some (set_pending (pending s - 1) s, Some c)
      | None => let '(s, o) := pop_injector s in match o with Some c => Some (s, Some c) | None => steal id s end
      end) = Some (s', o) ∧ pop_post s s' lcs lcs' o ∧ (o = None → exhausted id s lcs)).
  { destruct (pop_tail_spec id s1 lcs Hi1 Hl Hme Hsl1) as (s' & o & lcs' & Heq & (Hi' & Hlen & Ho) & Hex).
    exists s', o, lcs'. split; [exact Heq|]. split.
    - split; [done|]. split; [done|]. destruct o; by rewrite <-Hp1.
    - intros Hn. destruct (Hex Hn) as (_ & ? & ?). split; [by exists sl|done]. }
  case_decide; [|exact Htail].
  destruct (pop_injector_spec s1 lcs Hi1) as (s2 & o & -> & Hi2 & Hs2 & Hlc & Ho). destruct o as [c|].
  - eexists _, _, lcs. split; [done|]. split; [|done]. split; [done|]. split; [by rewrite Hlc|]. by rewrite <-Hp1.
  - destruct Ho as [-> _]. exact Htail.
Qed.

Lemma flush_loop_spec fuel id s lcs xs :
  inv s lcs → live s → (id < length (locals s))%nat → lcs !! id = Some xs → (length xs < fuel)%nat →
  ∃ s', flush_loop fuel id s = Some s' ∧ inv s' (<[id := []]> lcs) ∧ items s' (<[id := []]> lcs) ≡ₚ items s lcs
    ∧ slots s' = slots s ∧ length (locals s') = length (locals s) ∧ pending s' = pending s.
Proof.
  revert s lcs xs. induction fuel as [|fuel IH]; intros s lcs xs Hi Hl Hid Hxs Hf; [lia|]. cbn [flush_loop].
  destruct (local_at _ _ _ _ Hi Hl Hid) as (d & xs0 & Hd & Hxs0 & Hr & Hlive). assert (xs0 = xs) as -> by congruence.
  rewrite Hd. cbn [mbind option_bind].
  destruct (dq_pop_spec d xs Hr Hlive) as (d' & r & -> & Hlive' & Hst). cbn [mbind option_bind]. destruct r as [c|].
  - destruct Hst as (xs' & -> & Hr'). rewrite length_app in Hf. cbn in Hf.
    destruct (inv_set_local 0 1 _ _ id _ d' xs' Hi Hxs Hr') as [Hi1 Hp1]; [rewrite length_app; cbn; lia|].
    set (s1 := set_locals _ _) in *.
    destruct (inv_push_injector 0 s1 _ c Hi1) as [Hi2 Hp2]. set (s2 := set_injector _ _) in *.
    apply lookup_lt_Some in Hxs as Hlt.
    destruct (IH s2 (<[id := xs']> lcs) xs' Hi2) as (s' & Hfl & Hi' & Hp' & Hsl & Hlen & Hpd).
    + by apply (live_insert s).
    + cbn. by rewrite length_insert.
    + by apply list_lookup_insert_eq.
    + lia.
    + rewrite list_insert_insert_eq in Hi', Hp'. exists s'. split; [exact Hfl|]. split; [done|]. split.
      * rewrite Hp', Hp2. apply (Permutation_app_inv_r xs'). rewrite <-Hp1. solve_Permutation.
      * split; [done|]. split; [|done]. rewrite Hlen. cbn. by rewrite length_insert.
  - destruct Hst as [-> Hr'].
    destruct (inv_set_local 0 0 _ _ id [] d' [] Hi Hxs Hr') as [Hi1 Hp1]; [lia|]. rewrite !app_nil_r in Hp1.
    eexists. split; [done|]. split; [done|]. split; [done|]. split_and!; try done. cbn. by rewrite length_insert.
Qed.

(** No service is lost or duplicated by the run queues.  In a scheduler whose
    [pending] counter is the number of services in the hand-over slots, the injector
    and the local queues: [push] adds exactly the pushed service, wherever it
    decides to put it; [pop] removes exactly the service it returns, and a worker
    that gets nothing has an empty hand-over slot, an empty local queue and saw an
    empty injector; [pending] stays exact; and nothing panics. *)
Theorem run_queues_conserve me c s lcs :
  inv s lcs → live s → caller_ok me s → is_exclusive c = false →
  (∃ s' e lcs', push me c s = Some (s', MarkQueued c :: e) ∧ inv s' lcs' ∧ items s' lcs' ≡ₚ c :: items s lcs)
  ∧ (∃ s' o e lcs', pop me s = Some (s', o, e) ∧ inv s' lcs'
      ∧ match o with
        | Some x => items s lcs ≡ₚ x :: items s' lcs' ∧ e = [MarkRunning x]
        | None => items s' lcs' ≡ₚ items s lcs ∧ e = []
            ∧ match me with Some id => exhausted id s lcs | None => fifo_list (injector s) = [] end
        end).
Proof.
  intros Hi Hl Hme Hex. split.
  - destruct (push_spec me c s lcs Hi Hl Hme Hex) as (s' & e & lcs' & ? & ? & ? & _). by exists s', e, lcs'.
  - destruct (pop_runnable_spec me s lcs Hi Hl Hme) as (s' & o & lcs' & Hp & (Hi' & _ & Ho) & Hno).
    unfold pop. rewrite Hp. cbn [mbind option_bind]. exists s', o. eexists _, lcs'. split; [done|]. split; [done|].
    destruct o; [done|]. split; [done|]. split; [done|]. destruct me; auto.
Qed.

(** A pushed service goes to a sleeping worker: when no worker is searching and some
    are registered idle, [push] picks the lowest of them, takes it off the idle
    bitmap, unparks its thread, and leaves the service in its hand-over slot if that
    is free, also with more than 64 workers and several bitmap words. *)
Theorem push_wakes_idle me c s lcs id sl :
  inv s lcs → live s → caller_ok me s → is_exclusive c = false →
  searching s = 0 → idle_worker s id → (∀ j, (j < id)%nat → ¬ idle_worker s j) →
  slots s !! id = Some sl → thread sl = true → handoff sl = None →
  ∃ s' e, push me c s = Some (s', MarkQueued c :: e) ∧ Unpark id ∈ e ∧ ¬ idle_worker s' id
    ∧ ∃ sl', slots s' !! id = Some sl' ∧ handoff sl' = Some c.
Proof.
  intros Hi Hl Hme Hex Hz Hid Hlow Hsl Hth Hh.
  destruct (push_spec me c s lcs Hi Hl Hme Hex) as (s' & e & lcs' & Hp & _ & _ & Hw).
  destruct (Hw Hz id Hid Hlow) as [Hn Hs]. destruct (Hs sl Hsl) as [Hu Ho]. exists s', e. split_and!; auto.
Qed.

(** A worker that leaves takes nothing with it: [flush_local] moves its hand-over slot
    and its whole local queue into the injector, where the thread that shuts the
    node down can reach them, and loses none. *)
Theorem flush_local_keeps_all fuel id s lcs xs :
  inv s lcs → live s → (id < length (locals s))%nat → lcs !! id = Some xs → (length xs < fuel)%nat →
  ∃ s' lcs', flush_local fuel (Some id) s = Some s' ∧ inv s' lcs' ∧ items s' lcs' ≡ₚ items s lcs
    ∧ lcs' !! id = Some [] ∧ (∃ sl, slots s' !! id = Some sl ∧ handoff sl = None).
Proof.
  intros Hi Hl Hid Hxs Hf. unfold flush_local. destruct (slot_at _ _ _ _ Hi Hid) as [sl Hsl]. rewrite Hsl.
  cbn [mbind option_bind take_handoff]. set (sl0 := mkSlot _ _ _ None). apply lookup_lt_Some in Hxs as Hlt.
  assert (Hmid : ∃ s1, match handoff sl with
        | Some c => set_injector (fifo_push c (injector (set_slots (<[id:=sl0]> (slots s)) s))) (set_slots (<[id:=sl0]> (slots s)) s)
        | None => set_slots (<[id:=sl0]> (slots s)) s end = s1
      ∧ inv s1 lcs ∧ items s1 lcs ≡ₚ items s lcs ∧ slots s1 = <[id:=sl0]> (slots s) ∧ locals s1 = locals s).
  { eexists. split; [done|]. destruct (handoff sl) as [c|] eqn:Hh.
    - destruct (inv_set_slot 0 1 s lcs id sl sl0 Hi Hsl) as [Hi1 Hp1]; [rewrite Hh; cbn; lia|].
      destruct (inv_push_injector 0 _ lcs c Hi1) as [Hi2 Hp2]. split; [done|]. split; [|done].
      rewrite Hp2. rewrite Hh in Hp1. cbn [option_items handoff sl0] in Hp1. rewrite app_nil_r in Hp1.
      rewrite <-Hp1. apply Permutation_cons_append.
    - destruct (inv_set_slot 0 0 s lcs id sl sl0 Hi Hsl) as [Hi1 Hp1]; [rewrite Hh; done|].
      rewrite Hh in Hp1. cbn [option_items handoff sl0] in Hp1. by rewrite !app_nil_r in Hp1. }
  destruct Hmid as (s1 & -> & Hi1 & Hp1 & Hs1 & Hlc1).
  assert (Hl1 : live s1) by (unfold live; by rewrite Hlc1).
  destruct (flush_loop_spec fuel id s1 lcs xs Hi1 Hl1) as (s2 & -> & Hi2 & Hp2 & Hs2 & Hlen & _); [by rewrite Hlc1|done|done|].
  cbn [mbind option_bind]. destruct (take_stealable_spec 0 s2 _ id Hi2) as (w & _ & _ & Hc & Hi3); [rewrite Hlen, Hlc1; done|].
  rewrite Hc. eexists _, _. split; [done|]. split; [done|]. split; [rewrite items_stealable; by rewrite Hp2|].
  split; [by apply list_lookup_insert_eq|]. exists sl0. split; [|done]. cbn. rewrite Hs2, Hs1.
  apply list_lookup_insert_eq. by eapply lookup_lt_Some.
Qed.

Lemma new_locals_rep n : ∃ ls, new_locals n = Some ls ∧ length ls = n ∧ Forall2 dq_rep ls (replicate n []).
Proof.
  induction n as [|n (ls & Hls & Hlen & Hr)]; [by exists []|]. destruct dq_new_spec as (d & Hd & Hrep).
  exists (d :: ls). cbn. rewrite Hd, Hls. cbn. split; [done|]. split; [by rewrite Hlen|]. by constructor.
Qed.

(** A new scheduler satisfies the invariant, with empty queues. *)
Lemma new_inv n : ∃ s, new n = Some s ∧ inv s (replicate (Nat.max n 1) []) ∧ length (locals s) = Nat.max n 1
    ∧ (∀ j, ¬ idle_worker s j) ∧ searching s = 0.
Proof.
  assert (Hnil : ∀ m, concat (replicate m ([] : list A)) = []) by (induction m; cbn; auto).
  unfold new. destruct (new_locals_rep (Nat.max n 1)) as (ls & -> & Hlen & Hr). cbn [mbind option_bind].
  eexists. split; [done|].
  assert (Hw : (length ls ≤ 64 * length (replicate (words_for (Nat.max n 1)) 0%Z))%nat).
  { rewrite length_replicate, Hlen. apply words_for_enough. }
  split; [|split_and!; try done; intros j; apply replicate_no_bit].
  assert (Hom : ∀ k m, omap handoff (slot_new <$> seq k m) = []) by (intros k m; revert k; induction m; cbn; auto).
  split; cbn; try done.
  - rewrite length_fmap, length_seq. done.
  - split; [done|apply replicate_words_ok].
  - intros j Hj. by apply replicate_no_bit in Hj.
  - split; [done|apply replicate_words_ok].
  - unfold items. cbn. rewrite Hom, fifo_list_new. cbn. by rewrite Hnil.
Qed.

End scheduler.

(** ** A scheduler of two workers, the second of them idle *)

Section witnesses.
Let T : Type := LifoQueue (T := nat).

Definition two_workers (q : T) : Scheduler (Q := list) (A := nat) (D := T) :=
  mkSched [q; q] [mkSlot 0 1 true None; mkSlot 0 1 true None] [] 0 [2] 0 1 [0] false.

Lemma two_workers_ok : ∃ q, dq_new = Some q ∧ inv (two_workers q) [[]; []] ∧ live (two_workers q).
Proof.
  destruct (dq_new_spec (D := T) (A := nat)) as (q & Hq & Hr). exists q. split; [done|]. split.
  - split; cbn; try done.
    + by repeat constructor.
    + split; [lia|]. intros w [->|[]%not_elem_of_nil]%elem_of_cons. done.
    + intros j (w & Hw & Hb). destruct (decide (j / 64 = 0)%nat) as [H0|Hne].
      * rewrite H0 in Hw. injection Hw as <-. destruct (decide (j < 2)%nat) as [|Hge]; [done|].
        apply Nat.div_small_iff in H0; [|done]. rewrite Nat.mod_small in Hb by done.
        rewrite Z.bits_above_log2 in Hb; [done|done|]. change (Z.log2 2) with 1. lia.
      * apply lookup_lt_Some in Hw. cbn -[Nat.div] in Hw. lia.
    + split; [lia|]. intros w [->|[]%not_elem_of_nil]%elem_of_cons. done.
  - intros d Hd. assert (d = q) as -> by set_solver. vm_compute in Hq. injection Hq as <-. vm_compute. by split.
Qed.

Lemma run_queues_conserve_witness :
  ∃ q s' e lcs', push (λ _, false) (Some 0%nat) 7%nat (two_workers q) = Some (s', MarkQueued 7%nat :: e)
    ∧ inv s' lcs' ∧ items s' lcs' ≡ₚ [7%nat].
Proof.
  destruct two_workers_ok as (q & Hq & Hi & Hl). exists q.
  exact (proj1 (run_queues_conserve (λ _, false) (Some 0%nat) 7%nat (two_workers q) [[]; []] Hi Hl
    ltac:(cbn; lia) eq_refl)).
Defined.

Lemma push_wakes_idle_witness :
  ∃ q s' e, push (λ _, false) (Some 0%nat) 7%nat (two_workers q) = Some (s', MarkQueued 7%nat :: e)
    ∧ Unpark 1%nat ∈ e ∧ ¬ idle_worker s' 1
    ∧ ∃ sl', slots s' !! 1%nat = Some sl' ∧ handoff sl' = Some 7%nat.
Proof.
  destruct two_workers_ok as (q & Hq & Hi & Hl). exists q.
  apply (push_wakes_idle (λ _, false) (Some 0%nat) 7%nat (two_workers q) [[]; []] 1%nat (mkSlot 0 1 true None) Hi Hl);
    try done; [cbn; lia|by exists 2|].
  intros j Hj (w & Hw & Hb). assert (j = 0%nat) as -> by lia. cbn in Hw. by injection Hw as <-.
Defined.

Lemma flush_local_keeps_all_witness :
  ∃ q s' lcs', flush_local 1 (Some 0%nat) (two_workers q) = Some s' ∧ inv s' lcs'
    ∧ items s' lcs' ≡ₚ [] ∧ lcs' !! 0%nat = Some []
    ∧ (∃ sl, slots s' !! 0%nat = Some sl ∧ handoff sl = None).
Proof.
  destruct two_workers_ok as (q & Hq & Hi & Hl). exists q.
  apply (flush_local_keeps_all 1 0 (two_workers q) [[]; []] [] Hi Hl); cbn; auto with lia.
Defined.

End witnesses.
End Scheduler.
