(* ===== verification/SchedConc.v ===== *)
(** * The scheduler under interleaving

    The methods of [Scheduler] in [rskynet-core/src/mq.rs] that decide whether a worker
    sleeps: [push], [place], [claim_idle], [poke] on one side and [pop],
    [find_work_or_park] on the other, split at every access to shared memory and run by
    any number of threads.  Thread [i] is worker [i] for [i < W]; the other threads
    (timer, exclusive services, the host) only push and poke.  Memory is sequentially
    consistent, which is what the [SeqCst] fences on both sides are there for;
    [unpark]/[park] is a token per worker, and [park] may return without one.

    The local run queues appear as lists with the freedom [RunDequeLaws] leaves: a
    push may be refused, a thief may miss.  Which victims a thief tries, and whether
    the tick of a worker is due, are free choices.  The model runs until shutdown:
    the quit flag stays down. *)
From S2P Require Import Prelude Interfaces Bwos Scheduler.
Import Scheduler.

Module SchedConc.

(** Why a worker is popping: from the dispatch loop, in a spinning round of
    [find_work_or_park] with [r] more to come, or for the last time before [park]. *)
Inductive Why : Type := KDisp | KScan (r : nat) | KFinal.

Inductive Stage : Type := SHand | SPend | STick | SLocal | SInj | SSteal.

Section conc.
Context {Q : Type → Type} `{FifoLaws Q} {A : Type} (W : nat).

Inductive PC : Type :=
  | Run                          (** runs a service, or outside the scheduler *)
  | PAdd (x : A)                 (** [push]: [pending.fetch_add] *)
  | PSearch (x : A)              (** [push]: first look at [searching] *)
  | PInj (x : A)                 (** [push]: [injector.push] for a searcher *)
  | PRe                          (** [push]: second look at [searching] *)
  | PClaimR (k : nat)            (** [claim_idle] just to wake, at word [k] *)
  | PClaim (k : nat) (x : A)     (** [claim_idle] to hand [x] over, at word [k] *)
  | POffer (w : nat) (x : A)     (** [slot.offer] to the claimed worker *)
  | PPlaceW (w : nat) (x : A)    (** [place] after a refused offer *)
  | PPlace (x : A)               (** [place], nobody idle *)
  | PWake (w : nat)              (** [slots[w].wake()] *)
  | PPoke                        (** [poke]: look at [pending] *)
  | Pop (k : Why) (st : Stage)   (** [pop_runnable] *)
  | Dec (k : Why) (x : A)        (** got [x]; [pending.fetch_sub] *)
  | FInc                         (** [find_work_or_park]: [searching.fetch_add] *)
  | FLeave                       (** found something spinning: [searching.fetch_sub] *)
  | FMark                        (** [mark_idle] *)
  | FDec                         (** [searching.fetch_sub] before the last pop *)
  | Park                         (** [thread::park] *)
  | FClear.                      (** [clear_idle] *)

Inductive Choice : Type :=
  | CPush (x : A) | CPoke | CPop | CFind   (** what a running thread does next *)
  | CFull                                  (** the local queue refuses *)
  | CTick                                  (** the tick is due: injector first *)
  | CSteal (v : nat)                       (** steal from [v] *)
  | CSpurious                              (** a weak CAS fails; [park] returns *)
  | CStep.

(** [pushed] and [taken] record the services that entered [push] and that a pop
    removed from a queue. *)
Record Sys : Type := mkSys {
  handoffs : list (option A);
  injector : Q A;
  locals : list (list A);
  pending : Z;
  idle : list Z;
  searching : Z;
  tokens : list bool;
  threads : list PC;
  pushed : list A;
  taken : list A;
}.

Definition goto (i : nat) (pc : PC) (s : Sys) : Sys :=
  mkSys (handoffs s) (injector s) (locals s) (pending s) (idle s) (searching s) (tokens s)
    (<[i := pc]> (threads s)) (pushed s) (taken s).
Definition set_handoff (w : nat) (o : option A) (s : Sys) : Sys :=
  mkSys (<[w := o]> (handoffs s)) (injector s) (locals s) (pending s) (idle s) (searching s)
    (tokens s) (threads s) (pushed s) (taken s).
Definition set_injector (q : Q A) (s : Sys) : Sys :=
  mkSys (handoffs s) q (locals s) (pending s) (idle s) (searching s) (tokens s) (threads s)
    (pushed s) (taken s).
Definition set_local (w : nat) (l : list A) (s : Sys) : Sys :=
  mkSys (handoffs s) (injector s) (<[w := l]> (locals s)) (pending s) (idle s) (searching s)
    (tokens s) (threads s) (pushed s) (taken s).
Definition set_pending (n : Z) (s : Sys) : Sys :=
  mkSys (handoffs s) (injector s) (locals s) n (idle s) (searching s) (tokens s) (threads s)
    (pushed s) (taken s).
Definition set_idle (ws : list Z) (s : Sys) : Sys :=
  mkSys (handoffs s) (injector s) (locals s) (pending s) ws (searching s) (tokens s) (threads s)
    (pushed s) (taken s).
Definition set_searching (n : Z) (s : Sys) : Sys :=
  mkSys (handoffs s) (injector s) (locals s) (pending s) (idle s) n (tokens s) (threads s)
    (pushed s) (taken s).
Definition set_token (w : nat) (b : bool) (s : Sys) : Sys :=
  mkSys (handoffs s) (injector s) (locals s) (pending s) (idle s) (searching s)
    (<[w := b]> (tokens s)) (threads s) (pushed s) (taken s).
Definition log_pushed (x : A) (s : Sys) : Sys :=
  mkSys (handoffs s) (injector s) (locals s) (pending s) (idle s) (searching s) (tokens s)
    (threads s) (pushed s ++ [x]) (taken s).
Definition log_taken (x : A) (s : Sys) : Sys :=
  mkSys (handoffs s) (injector s) (locals s) (pending s) (idle s) (searching s) (tokens s)
    (threads s) (pushed s) (taken s ++ [x]).

(** Where a pop goes on after a hit and after a miss. *)
Definition pop_ok (k : Why) : PC :=
  match k with KDisp => Run | KScan _ => FLeave | KFinal => FClear end.
Definition pop_fail (k : Why) : PC :=
  match k with
  | KDisp => Run
  | KScan (S r) => Pop (KScan r) SHand
  | KScan O => FMark
  | KFinal => Park
  end.

Definition max_searchers : Z := Z.max (Z.of_nat W / 2) 1.

(** One word of [claim_idle]: load and compare-exchange; a failed exchange looks at
    the word again. *)
Definition claim_step (i k : nat) (c : Choice) (next none : PC) (got : nat → PC) (s : Sys) : Sys :=
  match idle s !! k with
  | None => goto i none s
  | Some bits =>
      if decide (bits = 0) then goto i next s else
      match c with
      | CSpurious => s
      | _ =>
          let bit := trailing_zeros 64 0 bits in
          goto i (got (k * 64 + Z.to_nat bit)%nat)
            (set_idle (<[k := Z.land bits (u64_not (Z.shiftl 1 bit))]> (idle s)) s)
      end
  end.

Definition place_step (i : nat) (c : Choice) (x : A) (s : Sys) : option Sys :=
  if decide (i < W)%nat then
    match c with
    | CFull => Some (set_injector (fifo_push x (injector s)) s)
    | _ => l ← locals s !! i; Some (set_local i (l ++ [x]) s)
    end
  else Some (set_injector (fifo_push x (injector s)) s).

Definition pop_injector_step (i : nat) (k : Why) (miss : PC) (s : Sys) : Sys :=
  match fifo_pop (injector s) with
  | Some (x, q) => goto i (Dec k x) (log_taken x (set_injector q s))
  | None => goto i miss s
  end.

Definition exec_pop (i : nat) (c : Choice) (k : Why) (st : Stage) (s : Sys) : option Sys :=
  match st with
  | SHand =>
      o ← handoffs s !! i;
      match o with
      | Some x => Some (goto i (Dec k x) (log_taken x (set_handoff i None s)))
      | None => Some (goto i (Pop k SPend) s)
      end
  | SPend =>
      if decide (pending s = 0) then Some (goto i (pop_fail k) s)
      else Some (goto i (Pop k (match c with CTick => STick | _ => SLocal end)) s)
  | STick => Some (pop_injector_step i k (Pop k SLocal) s)
  | SLocal =>
      l ← locals s !! i;
      match last l with
      | Some x => Some (goto i (Dec k x) (log_taken x (set_local i (removelast l) s)))
      | None => Some (goto i (Pop k SInj) s)
      end
  | SInj => Some (pop_injector_step i k (Pop k SSteal) s)
  | SSteal =>
      match c with
      | CSteal v =>
          if decide (v = i) then None else
          l ← locals s !! v;
          match l with
          | x :: l => Some (goto i (Dec k x) (log_taken x (set_local v l s)))
          | [] => None
          end
      | _ => Some (goto i (pop_fail k) s)
      end
  end.

Definition exec (i : nat) (c : Choice) (s : Sys) : option Sys :=
  pc ← threads s !! i;
  match pc with
  | Run =>
      match c with
      | CPush x => Some (goto i (PAdd x) s)
      | CPoke => Some (goto i PPoke s)
      | CPop => if decide (i < W)%nat then Some (goto i (Pop KDisp SHand) s) else None
      | CFind => if decide (i < W)%nat then Some (goto i FInc s) else None
      | _ => None
      end
  | PAdd x => Some (goto i (PSearch x) (log_pushed x (set_pending (pending s + 1) s)))
  | PSearch x => Some (goto i (if decide (0 < searching s) then PInj x else PClaim 0 x) s)
  | PInj x => Some (goto i PRe (set_injector (fifo_push x (injector s)) s))
  | PRe => Some (goto i (if decide (searching s = 0) then PClaimR 0 else Run) s)
  | PClaimR k => Some (claim_step i k c (PClaimR (S k)) Run PWake s)
  | PClaim k x => Some (claim_step i k c (PClaim (S k) x) (PPlace x) (λ w, POffer w x) s)
  | POffer w x =>
      o ← handoffs s !! w;
      match o with
      | None => Some (goto i (PWake w) (set_handoff w (Some x) s))
      | Some _ => Some (goto i (PPlaceW w x) s)
      end
  | PPlaceW w x => s ← place_step i c x s; Some (goto i (PWake w) s)
  | PPlace x => s ← place_step i c x s; Some (goto i (if decide (i < W)%nat then Run else PRe) s)
  | PWake w => Some (goto i Run (set_token w true s))
  | PPoke => Some (goto i (if decide (0 < pending s) then PClaimR 0 else Run) s)
  | Pop k st => exec_pop i c k st s
  | Dec k _ => Some (goto i (pop_ok k) (set_pending (pending s - 1) s))
  | FInc =>
      let rounds := if decide (searching s < max_searchers) then SPIN_ROUNDS else 0%nat in
      Some (goto i (match rounds with O => FMark | S r => Pop (KScan r) SHand end)
              (set_searching (searching s + 1) s))
  | FLeave => Some (goto i Run (set_searching (searching s - 1) s))
  | FMark => ws ← fetch_or_bit i (idle s); Some (goto i FDec (set_idle ws s))
  | FDec => Some (goto i (Pop KFinal SHand) (set_searching (searching s - 1) s))
  | Park =>
      b ← tokens s !! i;
      match b, c with
      | true, _ => Some (goto i FClear (set_token i false s))
      | false, CSpurious => Some (goto i FClear s)
      | false, _ => None
      end
  | FClear => '(ws, _) ← fetch_clear_bit i (idle s); Some (goto i Run (set_idle ws s))
  end.

Definition step (s s' : Sys) : Prop := ∃ i c, exec i c s = Some s'.

(** [W] workers and [n] other threads. *)
Definition init (n : nat) : Sys :=
  mkSys (replicate W None) fifo_new (replicate W []) 0 (replicate (words_for W) 0) 0
    (replicate W false) (replicate (W + n) Run) [] [].

(** ** What a program counter stands for *)

(** How far a worker is on its way to sleep: 1 it has registered as idle, 2 it will
    not look at its hand-over slot again, 3 nor at its local queue, 4 nor at the
    injector. *)
Definition depth (pc : PC) : nat :=
  match pc with
  | FDec | Pop KFinal SHand => 1
  | Pop KFinal SPend | Pop KFinal STick | Pop KFinal SLocal => 2
  | Pop KFinal SInj => 3
  | Pop KFinal SSteal | Park => 4
  | _ => 0
  end.

(** Only workers get here. *)
Definition worker_pc (pc : PC) : bool :=
  match pc with Pop _ _ | Dec _ _ | FInc | FLeave | FMark | FDec | Park | FClear => true | _ => false end.

(** The worker this thread has taken off the bitmap and has to wake. *)
Definition claims (pc : PC) : option nat :=
  match pc with POffer w _ | PPlaceW w _ | PWake w => Some w | _ => None end.

(** Counted in [searching]. *)
Definition seeking (pc : PC) : nat :=
  match pc with Pop (KScan _) _ | Dec (KScan _) _ | FMark | FDec | FLeave => 1 | _ => 0 end.

(** The service in the hands of a thread inside [push]. *)
Definition carried (pc : PC) : list A :=
  match pc with
  | PSearch x | PInj x | PClaim _ x | POffer _ x | PPlaceW _ x | PPlace x => [x]
  | _ => []
  end.

(** Counted in [pending] and in no queue. *)
Definition counted (pc : PC) : nat :=
  match pc with Dec _ _ => 1 | _ => length (carried pc) end.

Definition items (s : Sys) : list A :=
  omap id (handoffs s) ++ fifo_list (injector s) ++ concat (locals s).

Definition claimed (w : nat) (s : Sys) : Prop :=
  ∃ i pc, threads s !! i = Some pc ∧ claims pc = Some w.

Definition token (w : nat) (s : Sys) : Prop := tokens s !! w = Some true.

(** Someone will look at the injector, or wake someone who will. *)
Definition covered (s : Sys) : Prop :=
  (∃ w pc, threads s !! w = Some pc ∧ (w < W)%nat ∧ ((depth pc < 4)%nat ∨ token w s))
  ∨ (∃ i, threads s !! i = Some PRe)
  ∨ (∃ i k w, threads s !! i = Some (PClaimR k) ∧ (k ≤ w / 64)%nat ∧ has_bit (idle s) w)
  ∨ (∃ w, claimed w s).

(** A worker that no longer looks at something knows it empty, or will be woken. *)
Record worker_ok (w : nat) (pc : PC) (s : Sys) : Prop := {
  ok_window : (1 ≤ depth pc)%nat → has_bit (idle s) w ∨ token w s ∨ claimed w s;
  ok_hand : (2 ≤ depth pc)%nat → ∀ x, handoffs s !! w = Some (Some x) → token w s ∨ claimed w s;
  ok_local : (3 ≤ depth pc)%nat → locals s !! w = Some [];
}.

Record inv (s : Sys) : Prop := {
  inv_len : length (handoffs s) = W ∧ length (locals s) = W ∧ length (tokens s) = W
    ∧ (W ≤ length (threads s))%nat;
  inv_idle : (W ≤ 64 * length (idle s))%nat ∧ words_ok (idle s) ∧ ∀ w, has_bit (idle s) w → (w < W)%nat;
  inv_ids : ∀ i pc, threads s !! i = Some pc →
    (worker_pc pc = true → (i < W)%nat) ∧ (∀ w, claims pc = Some w → (w < W)%nat);
  inv_pending : pending s = Z.of_nat (length (items s) + sum_list_with counted (threads s));
  inv_searching : searching s = Z.of_nat (sum_list_with seeking (threads s));
  inv_workers : ∀ w pc, threads s !! w = Some pc → worker_ok w pc s;
  inv_injector : fifo_list (injector s) ≠ [] → covered s;
  inv_conserve : pushed s ≡ₚ taken s ++ items s ++ (threads s ≫= carried);
}.

(** ** Preservation *)

(** The step of thread [i] from [old] to [pc] keeps what others rely on: an idle bit
    stays, or its worker comes awake or is claimed by [i]; a token stays, or its worker
    comes awake; a claimed worker stays claimed or has its token. *)
Record keeps (i : nat) (old pc : PC) (s s' : Sys) : Prop := {
  keep_old : threads s !! i = Some old;
  keep_threads : threads s' = <[i := pc]> (threads s);
  keep_bit w : has_bit (idle s) w →
    has_bit (idle s') w ∨ (w = i ∧ (i < W)%nat ∧ depth pc = 0%nat) ∨ claims pc = Some w;
  keep_token w : token w s → token w s' ∨ (w = i ∧ (i < W)%nat ∧ depth pc = 0%nat);
  keep_claim w : claims old = Some w → claims pc = Some w ∨ token w s';
}.

Lemma thread_new i old pc s s' : keeps i old pc s s' → threads s' !! i = Some pc.
Proof. intros []. rewrite keep_threads0. apply list_lookup_insert_eq. by eapply lookup_lt_Some. Qed.

Lemma thread_other i old pc s s' j : keeps i old pc s s' → j ≠ i → threads s' !! j = threads s !! j.
Proof. intros [] Hne. rewrite keep_threads0. by rewrite list_lookup_insert_ne. Qed.

Lemma claimed_keep i old pc s s' w : keeps i old pc s s' → claimed w s → claimed w s' ∨ token w s'.
Proof.
  intros Hk (j & pcj & Hj & Hc). destruct (decide (j = i)) as [->|Hne].
  - rewrite (keep_old _ _ _ _ _ Hk) in Hj. injection Hj as <-.
    destruct (keep_claim _ _ _ _ _ Hk w Hc); [left|by right]. exists i, pc. split; [by eapply thread_new|done].
  - left. exists j, pcj. by rewrite (thread_other _ _ _ _ _ j Hk).
Qed.

Lemma claimed_self i old pc s s' w : keeps i old pc s s' → claims pc = Some w → claimed w s'.
Proof. intros Hk Hc. exists i, pc. split; [by eapply thread_new|done]. Qed.

Lemma worker_thread s w : inv s → (w < W)%nat → ∃ pc, threads s !! w = Some pc.
Proof. intros Hi Hw. apply lookup_lt_is_Some_2. pose proof (inv_len _ Hi). lia. Qed.

Lemma covered_token i old pc s s' w : keeps i old pc s s' → inv s → (w < W)%nat → token w s' → covered s'.
Proof.
  intros Hk Hi Hw Ht. left. destruct (worker_thread s w Hi Hw) as [pcw Hpc]. destruct (decide (w = i)) as [->|Hne].
  - exists i, pc. split; [by eapply thread_new|]. auto.
  - exists w, pcw. rewrite (thread_other _ _ _ _ _ w Hk) by done. auto.
Qed.

Lemma covered_awake i old pc s s' : keeps i old pc s s' → (i < W)%nat → (depth pc < 4)%nat → covered s'.
Proof. intros Hk Hw Hd. left. exists i, pc. split; [by eapply thread_new|]. auto. Qed.

Lemma covered_bit i old pc s s' w :
  keeps i old pc s s' → has_bit (idle s) w → covered s' ∨ has_bit (idle s') w.
Proof.
  intros Hk Hb. destruct (keep_bit _ _ _ _ _ Hk w Hb) as [?|[(-> & ? & Hd)|Hc]]; [by right| |].
  - left. eapply covered_awake; [done|done|lia].
  - left. do 3 right. exists w. by eapply claimed_self.
Qed.

Lemma covered_frame i old pc s s' :
  keeps i old pc s s' → inv s → ((depth old < 4)%nat → (depth pc < 4)%nat) →
  old ≠ PRe → (∀ k, old ≠ PClaimR k) → covered s → covered s'.
Proof.
  intros Hk Hi Hd Hre Hcl [(w & pcw & Hw & HW & Ho)|[(j & Hj)|[(j & k & w & Hj & Hle & Hb)|(w & Hc)]]].
  - destruct Ho as [Ho|Ht].
    + left. destruct (decide (w = i)) as [->|Hne].
      * exists i, pc. split; [by eapply thread_new|]. split; [done|]. left. apply Hd.
        pose proof (keep_old _ _ _ _ _ Hk). congruence.
      * exists w, pcw. rewrite (thread_other _ _ _ _ _ w Hk) by done. auto.
    + destruct (keep_token _ _ _ _ _ Hk w Ht) as [?|(-> & ? & ?)]; [by eapply covered_token|].
      eapply covered_awake; [done|done|lia].
  - right; left. exists j. rewrite (thread_other _ _ _ _ _ j Hk); [done|]. intros ->.
    pose proof (keep_old _ _ _ _ _ Hk). congruence.
  - destruct (covered_bit _ _ _ _ _ w Hk Hb) as [?|Hb']; [done|]. right; right; left. exists j, k, w.
    rewrite (thread_other _ _ _ _ _ j Hk); [done|]. intros ->. pose proof (keep_old _ _ _ _ _ Hk). by apply (Hcl k); congruence.
  - destruct (claimed_keep _ _ _ _ _ w Hk Hc) as [?|Ht]; [by do 3 right; exists w|].
    eapply covered_token; [done|done| |done]. destruct Hc as (j & pcj & Hj & Hcj). by eapply (inv_ids _ Hi).
Qed.

Lemma worker_ok_0 w pc s : depth pc = 0%nat → worker_ok w pc s.
Proof. intros Hd. split; lia. Qed.

Lemma sched_move i old pc s s' :
  inv s → keeps i old pc s s' →
  length (handoffs s') = W ∧ length (locals s') = W ∧ length (tokens s') = W →
  ((W ≤ 64 * length (idle s'))%nat ∧ words_ok (idle s') ∧ ∀ w, has_bit (idle s') w → (w < W)%nat) →
  ((worker_pc pc = true → (i < W)%nat) ∧ ∀ w, claims pc = Some w → (w < W)%nat) →
  pending s' + Z.of_nat (counted old + length (items s)) = pending s + Z.of_nat (counted pc + length (items s')) →
  searching s' + Z.of_nat (seeking old) = searching s + Z.of_nat (seeking pc) →
  (∀ w x, w ≠ i → handoffs s' !! w = Some (Some x) → handoffs s !! w = Some (Some x) ∨ claims pc = Some w) →
  (∀ w, w ≠ i → locals s !! w = Some [] → locals s' !! w = Some []) →
  worker_ok i pc s' →
  (fifo_list (injector s') ≠ [] → covered s') →
  pushed s' ++ (taken s ++ items s ++ carried old) ≡ₚ pushed s ++ (taken s' ++ items s' ++ carried pc) →
  inv s'.
Proof.
  intros Hi Hk Hlen Hidle Hids Hpend Hsearch Hhand Hloc Hself Hcov Hcons.
  pose proof (keep_old _ _ _ _ _ Hk) as Hold. pose proof (keep_threads _ _ _ _ _ Hk) as Hth.
  assert (Hsum := λ f, sum_insert f (threads s) i old pc Hold).
  assert (Htc : ∀ w, token w s ∨ claimed w s → w ≠ i → token w s' ∨ claimed w s').
  { intros w [Ht|Hc] Hne.
    - destruct (keep_token _ _ _ _ _ Hk w Ht) as [?|(-> & _)]; [by left|done].
    - destruct (claimed_keep _ _ _ _ _ w Hk Hc); auto. }
  split; try done.
  - split_and!; try apply Hlen. rewrite Hth, length_insert. apply (inv_len _ Hi).
  - rewrite Hth. intros j pc' [(<- & <- & _)|[Hne Hj]]%list_lookup_insert_Some; [done|]. by apply (inv_ids _ Hi).
  - rewrite Hth. pose proof (Hsum counted). pose proof (inv_pending _ Hi). lia.
  - rewrite Hth. pose proof (Hsum seeking). pose proof (inv_searching _ Hi). lia.
  - rewrite Hth. intros w pc' [(<- & <- & _)|[Hne Hj]]%list_lookup_insert_Some; [done|].
    destruct (inv_workers _ Hi w pc' Hj) as [H1 H2 H3]. split.
    + intros Hd. destruct (H1 Hd) as [Hb|Ho].
      * destruct (keep_bit _ _ _ _ _ Hk w Hb) as [?|[(-> & _)|Hc]]; [by left|done|].
        right; right. by eapply claimed_self.
      * right. by apply Htc.
    + intros Hd x Hx. destruct (Hhand w x) as [Hx'|Hc]; [done..| |].
      * apply Htc; [by eapply H2|done].
      * right. by eapply claimed_self.
    + intros Hd. by apply Hloc, H3.
  - rewrite Hth. pose proof (bind_insert_perm carried (threads s) i old pc Hold) as Hb.
    pose proof (inv_conserve _ Hi) as Hc.
    apply (Permutation_app_inv_r (taken s ++ items s ++ carried old)). rewrite Hcons, Hc.
    apply (Permutation_app_inv_r (carried old)).
    transitivity ((taken s ++ items s) ++ (taken s' ++ items s' ++ carried old) ++ ((threads s ≫= carried) ++ carried pc));
      [solve_Permutation|]. rewrite <-Hb. solve_Permutation.
Qed.

(** A step that touches only the counters; the last premise is about the injector. *)
Lemma inv_counters i old pc s p n ps :
  inv s → threads s !! i = Some old → claims pc = claims old →
  (worker_pc pc = true → (i < W)%nat) →
  p + Z.of_nat (counted old) = pending s + Z.of_nat (counted pc) →
  n + Z.of_nat (seeking old) = searching s + Z.of_nat (seeking pc) →
  ps ++ carried old ≡ₚ pushed s ++ carried pc →
  (worker_ok i old s → worker_ok i pc s) →
  let s' := mkSys (handoffs s) (injector s) (locals s) p (idle s) n (tokens s) (<[i := pc]> (threads s)) ps (taken s) in
  (keeps i old pc s s' → fifo_list (injector s) ≠ [] → covered s → covered s') → inv s'.
Proof.
  intros Hi Hold Hc Hw Hp Hn Hps Hok s' Hcov.
  assert (Hk : keeps i old pc s s') by (split; try done; [by left|by left|intros w Hw'; left; congruence]).
  destruct (inv_len _ Hi) as (L1 & L2 & L3 & _).
  apply (sched_move i old pc s s' Hi Hk); try done.
  - apply (inv_idle _ Hi).
  - split; [done|]. rewrite Hc. by apply (inv_ids _ Hi i).
  - change (items s') with (items s). cbn. lia.
  - intros w x _ Hx. by left.
  - assert (Hcl : claimed i s → claimed i s').
    { intros (j & pcj & Hj & Hcj). destruct (decide (j = i)) as [->|Hne].
      - exists i, pc. split; [by eapply thread_new|]. congruence.
      - exists j, pcj. by rewrite (thread_other _ _ _ _ _ j Hk). }
    destruct (Hok (inv_workers _ Hi i old Hold)) as [O1 O2 O3]. split.
    + intros Hdd. destruct (O1 Hdd) as [?|[?|?]]; auto.
    + intros Hdd x Hx. destruct (O2 Hdd x Hx); auto.
    + done.
  - intros Hq. apply Hcov; [done|done|]. by apply (inv_injector _ Hi).
  - change (items s') with (items s). cbn.
    transitivity ((ps ++ carried old) ++ taken s ++ items s); [solve_Permutation|]. rewrite Hps. solve_Permutation.
Qed.

Lemma sched_quiet i old pc s p n ps :
  inv s → threads s !! i = Some old → claims pc = claims old →
  (worker_pc pc = true → (i < W)%nat) →
  p + Z.of_nat (counted old) = pending s + Z.of_nat (counted pc) →
  n + Z.of_nat (seeking old) = searching s + Z.of_nat (seeking pc) →
  ps ++ carried old ≡ₚ pushed s ++ carried pc →
  (worker_ok i old s → worker_ok i pc s) →
  (fifo_list (injector s) ≠ [] → (depth old < 4)%nat → (depth pc < 4)%nat) →
  old ≠ PRe → (∀ k, old ≠ PClaimR k) →
  inv (mkSys (handoffs s) (injector s) (locals s) p (idle s) n (tokens s) (<[i := pc]> (threads s)) ps (taken s)).
Proof.
  intros Hi Hold Hc Hw Hp Hn Hps Hok Hd H1 H2. apply (inv_counters i old); try done.
  intros Hk Hq. apply (covered_frame i old pc s _ Hk Hi); auto.
Qed.

Lemma worker_ok_depth w old pc s : (depth pc ≤ depth old)%nat → worker_ok w old s → worker_ok w pc s.
Proof. intros Hd [H1 H2 H3]. split; intros; [apply H1|eapply H2|apply H3]; eauto; lia. Qed.

(** Nothing pending means nothing queued. *)
Lemma sched_pending_zero s : inv s → pending s = 0 → items s = [].
Proof.
  intros Hi Hz. pose proof (inv_pending _ Hi). destruct (items s) eqn:E; [done|]. cbn in *. lia.
Qed.

Lemma items_nil s : inv s → items s = [] →
  fifo_list (injector s) = [] ∧ ∀ w, (w < W)%nat → handoffs s !! w = Some None ∧ locals s !! w = Some [].
Proof.
  intros Hi Hit. unfold items in Hit. apply app_eq_nil in Hit as [Hh [Hq Hl]%app_eq_nil]. split; [done|].
  intros w Hw. destruct (inv_len _ Hi) as (L1 & L2 & _).
  destruct (lookup_lt_is_Some_2 (handoffs s) w) as [o Ho]; [lia|].
  destruct (lookup_lt_is_Some_2 (locals s) w) as [l Hl']; [lia|]. split.
  - rewrite Ho. destruct o as [x|]; [|done]. exfalso.
    assert (Hin : x ∈ omap id (handoffs s)) by (apply list_elem_of_omap; exists (Some x); split; [by eapply list_elem_of_lookup_2|done]).
    rewrite Hh in Hin. by apply elem_of_nil in Hin.
  - rewrite Hl'. f_equal. apply concat_nil_Forall in Hl. rewrite Forall_lookup in Hl. by eapply Hl.
Qed.

(** A pop that found a service. *)
Lemma inv_take i k st x h q l s :
  inv s → threads s !! i = Some (Pop k st) →
  let s' := mkSys h q l (pending s) (idle s) (searching s) (tokens s) (<[i := Dec k x]> (threads s))
              (pushed s) (taken s ++ [x]) in
  length h = W → length l = W → items s ≡ₚ x :: items s' →
  (∀ w y, h !! w = Some (Some y) → handoffs s !! w = Some (Some y)) →
  (∀ w, locals s !! w = Some [] → l !! w = Some []) →
  (fifo_list q ≠ [] → fifo_list (injector s) ≠ []) → inv s'.
Proof.
  intros Hi Hold s' Hlh Hll Hit Hh Hl Hq.
  assert (Hk : keeps i (Pop k st) (Dec k x) s s') by (split; try done; by left).
  destruct (inv_len _ Hi) as (_ & _ & L3 & _). destruct (inv_ids _ Hi i _ Hold) as [Hw _].
  apply (sched_move i (Pop k st) (Dec k x) s s' Hi Hk); try done.
  - apply (inv_idle _ Hi).
  - rewrite (Permutation_length Hit). cbn. lia.
  - intros w y _ Hy. left. by apply Hh.
  - intros w _. apply Hl.
  - by apply worker_ok_0.
  - intros Hq'. eapply (covered_frame i _ _ s s' Hk Hi); try done; [cbn; lia|]. by apply (inv_injector _ Hi), Hq.
  - cbn [carried]. rewrite Hit. cbn. solve_Permutation.
Qed.

Lemma handoff_take_perm (h : list (option A)) w x :
  h !! w = Some (Some x) → omap id h ≡ₚ x :: omap id (<[w := None]> h).
Proof.
  intros Hx. pose proof (omap_insert_perm id h w (Some x) None Hx) as Hp. cbn in Hp.
  rewrite app_nil_r in Hp. rewrite <-Hp. symmetry. apply Permutation_cons_append.
Qed.

Lemma local_take_perm (l : list (list A)) w x xs xs' :
  l !! w = Some xs → xs ≡ₚ x :: xs' → concat l ≡ₚ x :: concat (<[w := xs']> l).
Proof.
  intros Hl Hp. pose proof (concat_insert_perm l w xs xs' Hl) as Hc.
  apply (Permutation_app_inv_r xs'). rewrite <-Hc, Hp. cbn. by rewrite <-Permutation_middle.
Qed.

Lemma pop_injector_inv i k st miss s :
  inv s → threads s !! i = Some (Pop k st) →
  (fifo_list (injector s) = [] → inv (goto i miss s)) → inv (pop_injector_step i k miss s).
Proof.
  intros Hi Hold Hmiss. unfold pop_injector_step. destruct (fifo_pop (injector s)) as [[x q]|] eqn:Hq.
  - apply fifo_pop_Some in Hq. destruct (inv_len _ Hi) as (L1 & L2 & _). apply (inv_take i k st x (handoffs s) q (locals s) s Hi Hold); try done.
    + unfold items. cbn. rewrite Hq. solve_Permutation.
    + by rewrite Hq.
  - by apply Hmiss, fifo_pop_None.
Qed.

(** A pop moves on without finding anything. *)
Lemma inv_miss i k st pc s :
  inv s → threads s !! i = Some (Pop k st) → claims pc = None → carried pc = [] → counted pc = 0%nat →
  seeking pc = seeking (Pop k st) →
  (depth pc ≤ depth (Pop k st))%nat ∨ (1 ≤ depth (Pop k st))%nat ∧
    (2 ≤ depth pc → 2 ≤ depth (Pop k st) ∨ handoffs s !! i = Some None)%nat ∧
    (3 ≤ depth pc → 3 ≤ depth (Pop k st) ∨ locals s !! i = Some [])%nat ∧
    (4 ≤ depth pc → 4 ≤ depth (Pop k st) ∨ fifo_list (injector s) = [])%nat →
  inv (goto i pc s).
Proof.
  intros Hi Hold Hc Hca Hcn Hse Hd. destruct (inv_ids _ Hi i _ Hold) as [Hw _].
  apply (sched_quiet i (Pop k st) pc s (pending s) (searching s) (pushed s) Hi Hold); try done.
  - intros _. by apply Hw.
  - rewrite Hcn. done.
  - by rewrite Hse.
  - by rewrite Hca.
  - destruct Hd as [Hd|(H1 & H2 & H3 & _)]; [by apply worker_ok_depth|]. intros [O1 O2 O3]. split.
    + intros _. by apply O1.
    + intros H2' x Hx. destruct (H2 H2') as [?|?]; [by eapply O2|congruence].
    + intros H3'. destruct (H3 H3') as [?|?]; [by eapply O3|done].
  - intros Hq Hlt. destruct Hd as [Hd|(_ & _ & _ & H4)]; [lia|].
    destruct (decide (4 ≤ depth pc)%nat) as [H4'|]; [|lia]. destruct (H4 H4'); [lia|done].
Qed.

Lemma pop_fail_inv i k st s :
  inv s → threads s !! i = Some (Pop k st) → (4 ≤ depth (Pop k st))%nat ∨ k ≠ KFinal ∨ pending s = 0 →
  inv (goto i (pop_fail k) s).
Proof.
  intros Hi Hold Hc. destruct (inv_ids _ Hi i _ Hold) as [Hw _]. specialize (Hw eq_refl).
  apply (inv_miss i k st); try done; try by destruct k as [| [|] |].
  destruct k as [| [|r] |]; [left; cbn; lia | left; cbn; lia | left; cbn; lia | right]. destruct Hc as [Hc|[?|Hz]]; [|done|].
  - split_and!; intros; try lia; left; lia.
  - destruct (items_nil s Hi (sched_pending_zero s Hi Hz)) as [Hq Hn]. destruct (Hn i Hw). split_and!; [destruct st; cbn; lia|auto..].
Qed.

Lemma exec_pop_inv i c k st s s' :
  inv s → threads s !! i = Some (Pop k st) → exec_pop i c k st s = Some s' → inv s'.
Proof.
  intros Hi Hold He. destruct (inv_len _ Hi) as (L1 & L2 & _).
  pose proof (λ pc, inv_miss i k st pc s Hi Hold) as Hmiss.
  destruct st; cbn [exec_pop] in He.
  - destruct (handoffs s !! i) as [[x|]|] eqn:Hh; cbn in He; simplify_eq.
    + apply (inv_take i k SHand x (<[i := None]> (handoffs s)) (injector s) (locals s) s Hi Hold); try done; cbn; rewrite ?length_insert; try done.
      * unfold items. cbn. rewrite (handoff_take_perm _ _ _ Hh). done.
      * intros w y [(_ & ? & _)|[_ ?]]%list_lookup_insert_Some; done.
    + apply Hmiss; try done. destruct k; [left; cbn; lia | left; cbn; lia | right]. cbn. split_and!; first [lia|auto].
  - case_decide as Hz; simplify_eq.
    + apply (pop_fail_inv i k SPend); auto.
    + apply Hmiss; try done. left. destruct c, k; cbn; lia.
  - simplify_eq. apply (pop_injector_inv i k STick); [done..|]. intros _. apply Hmiss; try done.
    left. by destruct k.
  - destruct (locals s !! i) as [l|] eqn:Hl; cbn in He; [|done]. destruct (last l) as [x|] eqn:Hx; simplify_eq.
    + apply last_Some in Hx as [l' ->]. rewrite removelast_last. apply (inv_take i k SLocal x (handoffs s) (injector s) (<[i := l']> (locals s)) s Hi Hold); try done; cbn; rewrite ?length_insert; try done.
      * unfold items. cbn. rewrite (local_take_perm _ _ x _ l' Hl) by (symmetry; apply Permutation_cons_append). solve_Permutation.
      * intros w Hw. destruct (decide (w = i)) as [->|]; [|by rewrite list_lookup_insert_ne].
        rewrite Hl in Hw. injection Hw as Hw. by destruct l'.
    + apply last_None in Hx as ->. apply Hmiss; try done. destruct k; [left; cbn; lia | left; cbn; lia | right]. cbn. split_and!; first [lia|auto].
  - simplify_eq. apply (pop_injector_inv i k SInj); [done..|]. intros Hq. apply Hmiss; try done.
    destruct k; [left; cbn; lia | left; cbn; lia | right]. cbn. split_and!; first [lia|auto].
  - assert (Hf : inv (goto i (pop_fail k) s)).
    { apply (pop_fail_inv i k SSteal); [done..|]. destruct k; [by right; left|by right; left|left; done]. }
    destruct c as [| | | | | |v| |]; simplify_eq; try done.
    case_decide; [done|]. destruct (locals s !! v) as [[|x l]|] eqn:Hl; cbn in He; simplify_eq.
    apply (inv_take i k SSteal x (handoffs s) (injector s) (<[v := l]> (locals s)) s Hi Hold); try done; cbn; rewrite ?length_insert; try done.
    + unfold items. cbn. rewrite (local_take_perm _ _ x _ l Hl) by done. solve_Permutation.
    + intros w Hw. destruct (decide (w = v)) as [->|]; [|by rewrite list_lookup_insert_ne]. congruence.
Qed.

(** Same, for a thread that is not on its way to sleep before or after. *)
Lemma inv_plain i old pc s p n ps :
  inv s → threads s !! i = Some old → claims pc = claims old →
  (worker_pc pc = true → (i < W)%nat) →
  p + Z.of_nat (counted old) = pending s + Z.of_nat (counted pc) →
  n + Z.of_nat (seeking old) = searching s + Z.of_nat (seeking pc) →
  ps ++ carried old ≡ₚ pushed s ++ carried pc → depth pc = 0%nat →
  old ≠ PRe → (∀ k, old ≠ PClaimR k) →
  inv (mkSys (handoffs s) (injector s) (locals s) p (idle s) n (tokens s) (<[i := pc]> (threads s)) ps (taken s)).
Proof.
  intros ???????? ??. eapply sched_quiet; try done; [intros _; by apply worker_ok_0|intros; lia].
Qed.

Lemma claim_hit i old pc k bits s :
  inv s → threads s !! i = Some old → idle s !! k = Some bits → bits ≠ 0 →
  claims old = None → depth pc = 0%nat → worker_pc pc = false →
  counted pc = counted old → carried pc = carried old → seeking pc = seeking old →
  claims pc = Some (k * 64 + Z.to_nat (trailing_zeros 64 0 bits))%nat →
  inv (goto i pc (set_idle (<[k := Z.land bits (u64_not (Z.shiftl 1 (trailing_zeros 64 0 bits)))]> (idle s)) s)).
Proof.
  intros Hi Hold Hw Hne Hc Hd Hwk Hcn Hca Hse Hpc. set (s' := goto _ _ _).
  destruct (inv_idle _ Hi) as (Hlen & Hok & Hlt). destruct (inv_len _ Hi) as (L1 & L2 & L3 & _).
  assert (Hu : is_u64 bits) by (apply Hok; by eapply list_elem_of_lookup_2).
  destruct (trailing_zeros_spec 64 0 bits) as (T1 & T2 & _); [lia|by apply word_nonzero|].
  set (b := trailing_zeros 64 0 bits) in *. set (w := (k * 64 + Z.to_nat b)%nat) in *.
  destruct (clear_word_spec (idle s) k bits b Hw Hok ltac:(lia)) as [Hok' Hiff]. fold w in Hiff.
  assert (Hb : has_bit (idle s) w).
  { exists bits. unfold w. rewrite Nat.div_add_l, Nat.div_small, Nat.add_0_r by lia. split; [done|].
    rewrite Nat.add_comm, Nat.Div0.mod_add, Nat.mod_small by lia. by rewrite Z2Nat.id by lia. }
  assert (Hk : keeps i old pc s s').
  { split; try done; [|by left|by rewrite Hc]. intros w' Hw'. destruct (decide (w' = w)) as [->|]; [by do 2 right|].
    left. by apply Hiff. }
  apply (sched_move i old pc s s' Hi Hk); try done.
  - split; [cbn; by rewrite length_insert|]. split; [done|]. intros w' Hw'. by apply Hlt, Hiff.
  - split; [by rewrite Hwk|]. intros w' Hw'. assert (w' = w) as -> by congruence. by apply Hlt.
  - change (items s') with (items s). rewrite Hcn. done.
  - by rewrite Hse.
  - intros w' x _ Hx. by left.
  - by apply worker_ok_0.
  - intros _. do 3 right. exists w. by eapply claimed_self.
  - change (items s') with (items s). rewrite Hca. done.
Qed.

(** A pusher that only wants to wake someone moves past an empty word, or gives up
    after the last one. *)
Lemma claim_pass i k pc s :
  inv s → threads s !! i = Some (PClaimR k) →
  (pc = PClaimR (S k) ∧ idle s !! k = Some 0) ∨ (pc = Run ∧ idle s !! k = None) → inv (goto i pc s).
Proof.
  intros Hi Hold Hpc. assert (Hz : claims pc = None ∧ worker_pc pc = false ∧ counted pc = 0%nat ∧ seeking pc = 0%nat
    ∧ carried pc = [] ∧ depth pc = 0%nat) by (destruct Hpc as [[-> _]|[-> _]]; done).
  destruct Hz as (Z1 & Z2 & Z3 & Z4 & Z5 & Z6).
  apply (inv_counters i (PClaimR k) pc s (pending s) (searching s) (pushed s) Hi Hold); try done.
  - by rewrite Z2.
  - by rewrite Z3.
  - by rewrite Z4.
  - by rewrite Z5.
  - intros _. by apply worker_ok_0.
  - intros Hk Hq Hcov. set (s' := mkSys _ _ _ _ _ _ _ _ _ _) in *.
    destruct Hcov as [(w & pcw & Hw & HW & Ho)|[(j & Hj)|[(j & k' & w & Hj & Hle & Hb)|(w & Hc)]]].
    + left. destruct (decide (w = i)) as [->|Hne].
      * exists i, pc. split; [by eapply thread_new|]. split; [done|]. left. lia.
      * exists w, pcw. rewrite (thread_other _ _ _ _ _ w Hk) by done. done.
    + right; left. exists j. rewrite (thread_other _ _ _ _ _ j Hk); [done|congruence].
    + right; right; left. destruct (decide (j = i)) as [->|Hne].
      * assert (k' = k) as -> by congruence. destruct Hb as (word & Hword & Hbit).
        destruct Hpc as [[-> Hzero]|[-> Hzero]].
        -- exists i, (S k), w. split; [by eapply thread_new|]. split; [|by exists word].
           destruct (decide (w / 64 = k)%nat) as [E|]; [|lia]. rewrite E, Hzero in Hword. injection Hword as <-. by rewrite Z.bits_0 in Hbit.
        -- apply lookup_lt_Some in Hword. apply lookup_ge_None in Hzero. lia.
      * exists j, k', w. by rewrite (thread_other _ _ _ _ _ j Hk).
    + destruct (claimed_keep _ _ _ _ _ w Hk Hc) as [?|Ht]; [by do 3 right; exists w|].
      eapply covered_token; [done|done| |done]. destruct Hc as (j & pcj & Hj & Hcj). by eapply (inv_ids _ Hi).
Qed.

Lemma claim_step_inv i c k old s :
  inv s → threads s !! i = Some old →
  (old = PClaimR k → inv (claim_step i k c (PClaimR (S k)) Run PWake s))
  ∧ (∀ x, old = PClaim k x → inv (claim_step i k c (PClaim (S k) x) (PPlace x) (λ w, POffer w x) s)).
Proof.
  intros Hi Hold. unfold claim_step. destruct (idle s !! k) as [bits|] eqn:Hw.
  - case_decide as Hzero.
    + split; [intros ->|intros x ->].
      * apply (claim_pass i k); [done..|]. left. by rewrite Hw, Hzero.
      * by apply (inv_plain i (PClaim k x) (PClaim (S k) x) s (pending s) (searching s) (pushed s)).
    + split; [intros ->|intros x ->]; destruct c; try done; eapply (claim_hit i _ _ k bits s Hi Hold); done.
  - split; [intros ->|intros x ->].
    + apply (claim_pass i k); [done..|]. by right.
    + by apply (inv_plain i (PClaim k x) (PPlace x) s (pending s) (searching s) (pushed s)).
Qed.

(** [push] puts its service into the injector. *)
Lemma inv_inject i old pc x s :
  inv s → threads s !! i = Some old → carried old = [x] → counted pc = 0%nat → carried pc = [] →
  seeking old = 0%nat → seeking pc = 0%nat → claims pc = claims old → depth pc = 0%nat → worker_pc pc = false →
  pc = PRe ∨ is_Some (claims pc) ∨ (i < W)%nat →
  inv (goto i pc (set_injector (fifo_push x (injector s)) s)).
Proof.
  intros Hi Hold Hca Hcn Hca' Hse Hse' Hcl Hd Hwk Hor. set (s' := goto _ _ _).
  assert (Hcn' : counted old = 1%nat) by (destruct old; try done; naive_solver).
  assert (Hit : items s' ≡ₚ x :: items s) by (unfold items; cbn; rewrite fifo_list_push; solve_Permutation).
  assert (Hk : keeps i old pc s s') by (split; try done; [by left|by left|intros w Hw'; left; congruence]).
  destruct (inv_len _ Hi) as (L1 & L2 & L3 & _).
  apply (sched_move i old pc s s' Hi Hk); try done.
  - apply (inv_idle _ Hi).
  - split; [by rewrite Hwk|]. rewrite Hcl. by apply (inv_ids _ Hi i).
  - rewrite (Permutation_length Hit), Hcn, Hcn'. cbn. lia.
  - rewrite Hse, Hse'. done.
  - intros w y _ Hy. by left.
  - by apply worker_ok_0.
  - intros _. destruct Hor as [->|[[w Hw]|Hw]].
    + right; left. exists i. by eapply thread_new.
    + do 3 right. exists w. by eapply claimed_self.
    + eapply covered_awake; [done|done|lia].
  - rewrite Hit, Hca, Hca'. cbn. solve_Permutation.
Qed.

(** [place] leaves the service in the caller's local queue. *)
Lemma inv_local_push i old pc x l s :
  inv s → threads s !! i = Some old → carried old = [x] → counted pc = 0%nat → carried pc = [] →
  seeking old = 0%nat → seeking pc = 0%nat → claims pc = claims old → depth pc = 0%nat → worker_pc pc = false →
  locals s !! i = Some l → old ≠ PRe → (∀ k, old ≠ PClaimR k) →
  inv (goto i pc (set_local i (l ++ [x]) s)).
Proof.
  intros Hi Hold Hca Hcn Hca' Hse Hse' Hcl Hd Hwk Hl Hre Hcr. set (s' := goto _ _ _).
  assert (Hcn' : counted old = 1%nat) by (destruct old; try done; naive_solver).
  assert (Hit : items s' ≡ₚ x :: items s).
  { unfold items. cbn. pose proof (concat_insert_perm (locals s) i l (l ++ [x]) Hl) as Hp.
    assert (Hp' : concat (<[i:=l ++ [x]]> (locals s)) ≡ₚ x :: concat (locals s)).
    { apply (Permutation_app_inv_r l). rewrite Hp. solve_Permutation. }
    rewrite Hp'. solve_Permutation. }
  assert (Hk : keeps i old pc s s') by (split; try done; [by left|by left|intros w Hw'; left; congruence]).
  destruct (inv_len _ Hi) as (L1 & L2 & L3 & _).
  apply (sched_move i old pc s s' Hi Hk); try done.
  - cbn. rewrite length_insert. done.
  - apply (inv_idle _ Hi).
  - split; [by rewrite Hwk|]. rewrite Hcl. by apply (inv_ids _ Hi i).
  - rewrite (Permutation_length Hit), Hcn, Hcn'. cbn. lia.
  - rewrite Hse, Hse'. done.
  - intros w y _ Hy. by left.
  - intros w Hne Hw. cbn. by rewrite list_lookup_insert_ne.
  - by apply worker_ok_0.
  - intros Hq. apply (covered_frame i old pc s s' Hk Hi); try done; [intros; lia|]. by apply (inv_injector _ Hi).
  - rewrite Hit, Hca, Hca'. cbn. solve_Permutation.
Qed.

Lemma place_step_inv i c x old pc s s' :
  inv s → threads s !! i = Some old → (old = PPlace x ∧ pc = (if decide (i < W)%nat then Run else PRe)) ∨
    (∃ w, old = PPlaceW w x ∧ pc = PWake w) →
  place_step i c x s = Some s' → inv (goto i pc s').
Proof.
  intros Hi Hold Hpc Hp. unfold place_step in Hp. destruct (decide (i < W)%nat) as [Hw|Hw].
  - assert (Hinj : inv (goto i pc (set_injector (fifo_push x (injector s)) s))).
    { apply (inv_inject i old); try done; destruct Hpc as [[-> ->]|(w & -> & ->)]; auto. }
    assert (Hloc : ∀ l, locals s !! i = Some l → inv (goto i pc (set_local i (l ++ [x]) s))).
    { intros l Hl. apply (inv_local_push i old); try done; destruct Hpc as [[-> ->]|(w & -> & ->)]; done. }
    destruct (locals s !! i) as [l|] eqn:Hl; cbn in Hp; destruct c; simplify_eq; try done; by apply Hloc.
  - simplify_eq. apply (inv_inject i old); try done; destruct Hpc as [[-> ->]|(w & -> & ->)]; try rewrite decide_False by done; try done; [by left|right; left; by exists w].
Qed.

Lemma offer_inv i w x s :
  inv s → threads s !! i = Some (POffer w x) → handoffs s !! w = Some None →
  inv (goto i (PWake w) (set_handoff w (Some x) s)).
Proof.
  intros Hi Hold Hh. set (s' := goto _ _ _).
  assert (Hit : items s' ≡ₚ x :: items s).
  { unfold items. cbn. pose proof (omap_insert_perm id (handoffs s) w None (Some x) Hh) as Hp. cbn in Hp.
    rewrite app_nil_r in Hp. rewrite Hp. solve_Permutation. }
  assert (Hk : keeps i (POffer w x) (PWake w) s s') by (split; try done; [by left|by left|by left]).
  destruct (inv_len _ Hi) as (L1 & L2 & L3 & _).
  apply (sched_move i (POffer w x) (PWake w) s s' Hi Hk); try done.
  - cbn. by rewrite length_insert.
  - apply (inv_idle _ Hi).
  - split; [done|]. apply (inv_ids _ Hi i (POffer w x) Hold).
  - rewrite (Permutation_length Hit). cbn. lia.
  - intros w' y _ [(<- & _ & _)|[_ ?]]%list_lookup_insert_Some; [by right|by left].
  - by apply worker_ok_0.
  - intros _. do 3 right. exists w. by eapply claimed_self.
  - rewrite Hit. cbn. solve_Permutation.
Qed.

(** [unpark] of the claimed worker. *)
Lemma wake_inv i w s : inv s → threads s !! i = Some (PWake w) → inv (goto i Run (set_token w true s)).
Proof.
  intros Hi Hold. set (s' := goto _ _ _). destruct (inv_len _ Hi) as (L1 & L2 & L3 & _).
  assert (Hw : (w < W)%nat) by (by apply (inv_ids _ Hi i (PWake w) Hold)).
  assert (Ht : token w s') by (unfold token; cbn; apply list_lookup_insert_eq; lia).
  assert (Hk : keeps i (PWake w) Run s s').
  { split; try done; [by left| |intros w' [= <-]; by right]. intros w' Hw'. left. destruct (decide (w' = w)) as [->|]; [done|].
    unfold token. cbn. by rewrite list_lookup_insert_ne. }
  apply (sched_move i (PWake w) Run s s' Hi Hk); try done.
  - cbn. by rewrite length_insert.
  - apply (inv_idle _ Hi).
  - intros w' y _ Hy. by left.
  - by apply worker_ok_0.
  - intros _. by eapply covered_token.
Qed.

(** [push] looks at [searching] a second time. *)
Lemma recheck_inv i s :
  (0 < W)%nat → inv s → threads s !! i = Some PRe →
  inv (goto i (if decide (searching s = 0) then PClaimR 0 else Run) s).
Proof.
  intros HW Hi Hold. set (pc := if decide _ then _ else _).
  assert (Hz : claims pc = None ∧ worker_pc pc = false ∧ counted pc = 0%nat ∧ seeking pc = 0%nat
    ∧ carried pc = [] ∧ depth pc = 0%nat) by (unfold pc; case_decide; done).
  destruct Hz as (Z1 & Z2 & Z3 & Z4 & Z5 & Z6).
  apply (inv_counters i PRe pc s (pending s) (searching s) (pushed s) Hi Hold); try done.
  - by rewrite Z2.
  - by rewrite Z3.
  - by rewrite Z4.
  - by rewrite Z5.
  - intros _. by apply worker_ok_0.
  - intros Hk Hq _. set (s' := mkSys _ _ _ _ _ _ _ _ _ _) in *.
    destruct (decide (searching s = 0)) as [Hs|Hs].
    + destruct (worker_thread s 0 Hi HW) as [pc0 Hpc0]. destruct (decide (depth pc0 < 4)%nat) as [Hd|Hd].
      * left. destruct (decide (0%nat = i)) as [<-|Hne].
        -- exists 0%nat, pc. split; [by eapply thread_new|]. split; [done|]. left. lia.
        -- exists 0%nat, pc0. rewrite (thread_other _ _ _ _ _ 0%nat Hk) by done. auto.
      * destruct (ok_window _ _ _ (inv_workers _ Hi 0%nat pc0 Hpc0) ltac:(lia)) as [Hb|[Ht|Hc]].
        -- right; right; left. exists i, 0%nat, 0%nat. split; [by eapply thread_new|]. split; [cbn; lia|done].
        -- by eapply covered_token.
        -- destruct (claimed_keep _ _ _ _ _ 0%nat Hk Hc) as [?|Ht]; [by do 3 right; exists 0%nat|by eapply covered_token].
    + pose proof (inv_searching _ Hi). destruct (sum_pos seeking (threads s)) as (j & pcj & Hj & Hsj); [lia|].
      assert (Hwj : (j < W)%nat) by (apply (proj1 (inv_ids _ Hi j pcj Hj)); destruct pcj; cbn in Hsj; try lia; done).
      left. exists j, pcj. assert (j ≠ i) by (intros ->; rewrite Hold in Hj; injection Hj as <-; cbn in Hsj; lia).
      rewrite (thread_other _ _ _ _ _ j Hk) by done. split; [done|]. split; [done|]. left.
      destruct pcj as [| | | | | | | | | | | |[] []| | | | | | |]; cbn in Hsj |- *; lia.
Qed.

Lemma word_at s w : inv s → (w < W)%nat → (w / 64 < length (idle s))%nat.
Proof. intros Hi Hw. destruct (inv_idle _ Hi) as (Hl & _). by eapply word_index. Qed.

(** [mark_idle] and [clear_idle]: the worker's own bit. *)
Lemma inv_own_bit i old pc ws s :
  inv s → threads s !! i = Some old → (old = FMark ∧ pc = FDec ∧ fetch_or_bit i (idle s) = Some ws) ∨
    (∃ b, old = FClear ∧ pc = Run ∧ fetch_clear_bit i (idle s) = Some (ws, b)) →
  inv (goto i pc (set_idle ws s)).
Proof.
  intros Hi Hold Hor. set (s' := goto _ _ _). destruct (inv_len _ Hi) as (L1 & L2 & L3 & _).
  assert (Hw : (i < W)%nat) by (apply (proj1 (inv_ids _ Hi i old Hold)); destruct Hor as [[-> _]|(? & -> & _)]; done).
  pose proof (word_at s i Hi Hw) as Hix. destruct (inv_idle _ Hi) as (Hl & Hok & Hlt).
  assert (Hb : length ws = length (idle s) ∧ words_ok ws ∧ (∀ w, has_bit ws w → w = i ∨ has_bit (idle s) w)
    ∧ (∀ w, has_bit (idle s) w → has_bit ws w ∨ (w = i ∧ (i < W)%nat ∧ depth pc = 0%nat))
    ∧ (depth pc = 0%nat ∨ depth pc = 1%nat ∧ has_bit ws i)).
  { destruct Hor as [(-> & -> & Hf)|(b & -> & -> & Hf)].
    - destruct (fetch_or_spec i (idle s) Hix Hok) as (ws' & Hf' & H1 & H2 & H3). rewrite Hf' in Hf. injection Hf as ->.
      split_and!; try done; [intros w; apply H3|intros w Hb; left; apply H3; by right|right; split; [done|apply H3; by left]].
    - destruct (fetch_clear_spec i (idle s) Hix Hok) as (ws' & b' & Hf' & H1 & H2 & _ & H3). rewrite Hf' in Hf. injection Hf as -> ->.
      split_and!; try done; [intros w ?; right; by apply H3| |by left].
      intros w Hb. destruct (decide (w = i)) as [->|]; [by right|left; by apply H3]. }
  destruct Hb as (B1 & B2 & B3 & B4 & B5).
  assert (Hcl : claims old = None ∧ claims pc = None ∧ counted old = 0%nat ∧ counted pc = 0%nat ∧ carried old = [] ∧ carried pc = []
    ∧ seeking old = seeking pc ∧ old ≠ PRe ∧ (∀ k, old ≠ PClaimR k)).
  { destruct Hor as [(-> & -> & Hf)|(b & -> & -> & Hf)]; done. }
  destruct Hcl as (C1 & C2 & C3 & C4 & C5 & C6 & C7 & C8 & C9).
  assert (Hk : keeps i old pc s s').
  { split; try done; [|by left|by rewrite C1]. intros w Hw'. destruct (B4 w Hw'); auto. }
  apply (sched_move i old pc s s' Hi Hk); try done.
  - cbn. rewrite B1. split_and!; [done|done|]. intros w [->|?]%B3; [done|by apply Hlt].
  - split; [done|]. by rewrite C2.
  - change (items s') with (items s). by rewrite C3, C4.
  - by rewrite C7.
  - intros w y _ Hy. by left.
  - destruct B5 as [?|[Hd ?]]; [by apply worker_ok_0|]. split; [by left|lia|lia].
  - intros Hq. apply (covered_frame i old pc s s' Hk Hi); try done; [destruct B5; lia|]. by apply (inv_injector _ Hi).
  - change (items s') with (items s). by rewrite C5, C6.
Qed.

(** [park] consumes the token. *)
Lemma park_inv i s : inv s → threads s !! i = Some Park → inv (goto i FClear (set_token i false s)).
Proof.
  intros Hi Hold. set (s' := goto _ _ _). destruct (inv_len _ Hi) as (L1 & L2 & L3 & _).
  destruct (inv_ids _ Hi i _ Hold) as [Hw _]. specialize (Hw eq_refl).
  assert (Hk : keeps i Park FClear s s').
  { split; try done; [by left|]. intros w Ht. destruct (decide (w = i)) as [->|]; [by right|left].
    unfold token. cbn. by rewrite list_lookup_insert_ne. }
  apply (sched_move i Park FClear s s' Hi Hk); try done.
  - cbn. by rewrite length_insert.
  - apply (inv_idle _ Hi).
  - intros w y _ Hy. by left.
  - by apply worker_ok_0.
  - intros Hq. eapply covered_awake; [done|done|cbn; lia].
Qed.

Lemma exec_inv i c s s' : (0 < W)%nat → inv s → exec i c s = Some s' → inv s'.
Proof.
  intros HW Hi He. unfold exec in He. destruct (threads s !! i) as [pc|] eqn:Hold; cbn [mbind option_bind] in He; [|done].
  assert (Hplain := λ pc', inv_plain i pc pc' s).
  assert (Hwk := proj1 (inv_ids _ Hi i pc Hold)).
  destruct pc as [|x|x|x| |k|k x|w x|w x|x|w| |k st|k x| | | | | |]; simplify_eq.
  - destruct c; try done; try case_decide; simplify_eq; by apply (Hplain _ (pending s) (searching s) (pushed s)).
  - apply (Hplain (PSearch x) (pending s + 1) (searching s) (pushed s ++ [x])); try done; cbn; [lia|]. by rewrite app_nil_r.
  - apply (Hplain _ (pending s) (searching s) (pushed s)); try done; by case_decide.
  - apply (inv_inject i (PInj x)); auto.
  - by apply recheck_inv.
  - by apply (claim_step_inv i c k _ s Hi Hold).
  - by apply (claim_step_inv i c k _ s Hi Hold).
  - destruct (handoffs s !! w) as [[y|]|] eqn:Hh; cbn in He; simplify_eq; [|by apply offer_inv].
    by apply (Hplain (PPlaceW w x) (pending s) (searching s) (pushed s)).
  - destruct (place_step i c x s) as [s1|] eqn:Hp; cbn in He; simplify_eq. eapply place_step_inv; eauto.
  - destruct (place_step i c x s) as [s1|] eqn:Hp; cbn in He; simplify_eq. eapply place_step_inv; eauto.
  - by apply wake_inv.
  - apply (Hplain _ (pending s) (searching s) (pushed s)); try done; by case_decide.
  - by eapply exec_pop_inv.
  - apply (Hplain (pop_ok k) (pending s - 1) (searching s) (pushed s)); try done; destruct k; cbn; first [done|lia|by auto].
  - apply (Hplain _ (pending s) (searching s + 1) (pushed s)); try done; case_decide; cbn; first [done|lia|by auto].
  - apply (Hplain Run (pending s) (searching s - 1) (pushed s)); try done. cbn. lia.
  - destruct (fetch_or_bit i (idle s)) as [ws|] eqn:Hf; cbn in He; simplify_eq. eapply (inv_own_bit i FMark); auto.
  - apply (sched_quiet i FDec (Pop KFinal SHand) s (pending s) (searching s - 1) (pushed s)); try done; cbn; [lia|].
    intros Hok. by apply (worker_ok_depth _ FDec).
  - destruct (tokens s !! i) as [[|]|] eqn:Ht; cbn in He; [injection He as <-; by apply park_inv| |done].
    destruct c; simplify_eq. by apply (Hplain FClear (pending s) (searching s) (pushed s)).
  - destruct (fetch_clear_bit i (idle s)) as [[ws b]|] eqn:Hf; cbn in He; simplify_eq. eapply (inv_own_bit i FClear); eauto.
Qed.

Lemma sched_init n : inv (init n).
Proof.
  assert (Hth : ∀ i pc, threads (init n) !! i = Some pc → pc = Run) by (intros i pc [? _]%lookup_replicate; done).
  assert (Hz : ∀ f, f Run = 0%nat → sum_list_with f (threads (init n)) = 0%nat).
  { intros f Hf. cbn. generalize (W + n)%nat. intros m. induction m as [|m IH]; cbn; [done|]. by rewrite Hf. }
  assert (Hit : items (init n) = []).
  { unfold items. cbn. rewrite fifo_list_new. assert (Hn1 : ∀ m, omap id (replicate m (@None A)) = []) by (induction m; done).
    assert (Hn2 : ∀ m, concat (replicate m (@nil A)) = []) by (induction m; done). by rewrite Hn1, Hn2. }
  split.
  - cbn. rewrite !length_replicate. split_and!; lia.
  - cbn [idle init]. rewrite length_replicate.
    split_and!; [apply words_for_enough|apply replicate_words_ok|intros w Hb; by apply replicate_no_bit in Hb].
  - intros i pc ->%Hth. done.
  - by rewrite Hit, Hz.
  - by rewrite Hz.
  - intros w pc ->%Hth. by apply worker_ok_0.
  - cbn. by rewrite fifo_list_new.
  - rewrite Hit. cbn. generalize (W + n)%nat. intros m. by induction m.
Qed.

Lemma inv_reachable n s : (0 < W)%nat → rtc step (init n) s → inv s.
Proof.
  intros HW. apply (rtc_ind_r (λ s, inv s)); [apply sched_init|]. intros s1 s2 _ (i & c & He) Hi. by eapply exec_inv.
Qed.

(** A worker asleep: in [park], and nobody has unparked it. *)
Definition asleep (w : nat) (s : Sys) : Prop := threads s !! w = Some Park ∧ ¬ token w s.

(** C3 No lost wake-up.  In every interleaving of pushing, poking and popping
    threads: if all workers are asleep and no thread is in the middle of [push] or
    [poke], then no service is left in a hand-over slot, in the injector or in a local
    queue.  So a queued service always finds a worker awake, or a thread on its way to
    wake one. *)
Theorem no_lost_wakeup n s :
  (0 < W)%nat → rtc step (init n) s →
  (∀ w, (w < W)%nat → asleep w s) → (∀ i pc, threads s !! i = Some pc → (W ≤ i)%nat → pc = Run) →
  items s = [] ∧ pending s = 0.
Proof.
  intros HW Hr Hsleep Hrest. pose proof (inv_reachable n s HW Hr) as Hi.
  assert (Hpc : ∀ i pc, threads s !! i = Some pc → pc = Run ∨ pc = Park).
  { intros i pc Hpc. destruct (decide (i < W)%nat) as [Hlt|]; [|left; apply (Hrest i); [done|lia]].
    destruct (Hsleep i Hlt). right. congruence. }
  assert (Hnc : ∀ w, ¬ claimed w s) by (intros w (j & pcj & [->| ->]%Hpc & Hc); done).
  assert (Hq : fifo_list (injector s) = []).
  { destruct (fifo_list (injector s)) eqn:Hq; [done|]. exfalso.
    destruct (inv_injector _ Hi) as [(w & pcw & Hw & HwW & Ho)|[(j & Hj)|[(j & k & w & Hj & _)|(w & Hc)]]]; [by rewrite Hq| | | |].
    - destruct (Hsleep w HwW) as [Hp Ht]. rewrite Hp in Hw. injection Hw as <-. cbn in Ho. destruct Ho; [lia|done].
    - by apply Hpc in Hj as [?|?].
    - by apply Hpc in Hj as [?|?].
    - by eapply Hnc. }
  destruct (inv_len _ Hi) as (L1 & L2 & _).
  assert (Hit : items s = []).
  { unfold items. rewrite Hq. cbn. apply app_nil. split.
    - destruct (omap id (handoffs s)) as [|x l] eqn:Ho; [done|]. exfalso.
      assert (Hx : x ∈ omap id (handoffs s)) by (rewrite Ho; left).
      apply list_elem_of_omap in Hx as (o & [w Hw]%list_elem_of_lookup & Ho'). cbn in Ho'. subst o.
      destruct (Hsleep w) as [Hp Ht]; [apply lookup_lt_Some in Hw; lia|].
      destruct (ok_hand _ _ _ (inv_workers _ Hi w Park Hp) ltac:(cbn; lia) x Hw) as [?|?]; [done|by eapply Hnc].
    - apply concat_nil_Forall, Forall_lookup. intros w l Hl.
      destruct (Hsleep w) as [Hp Ht]; [apply lookup_lt_Some in Hl; lia|].
      pose proof (ok_local _ _ _ (inv_workers _ Hi w Park Hp) ltac:(cbn; lia)). congruence. }
  split; [done|]. rewrite (inv_pending _ Hi), Hit. cbn.
  destruct (decide (0 < sum_list_with counted (threads s))%nat) as [Hp|]; [|lia].
  destruct (sum_pos counted (threads s) Hp) as (j & pcj & [->| ->]%Hpc & Hc); cbn in Hc; lia.
Qed.

(** C4 Every service that enters [push] leaves the run queues at most once, and is
    still there until it does: in every interleaving the services pushed are, as a
    multiset, those popped, those queued and those in the hands of a thread inside
    [push]; and [pending] counts the queued ones, the ones being pushed and the ones
    just popped. *)
Theorem pushed_popped_once n s :
  (0 < W)%nat → rtc step (init n) s →
  pushed s ≡ₚ taken s ++ items s ++ (threads s ≫= carried)
  ∧ pending s = Z.of_nat (length (items s) + sum_list_with counted (threads s))
  ∧ searching s = Z.of_nat (sum_list_with seeking (threads s)).
Proof.
  intros HW Hr. destruct (inv_reachable n s HW Hr). done.
Qed.

(** Running a given interleaving. *)
Fixpoint schedule (l : list (nat * Choice)) (s : Sys) : option Sys :=
  match l with
  | [] => Some s
  | (i, c) :: l => s ← exec i c s; schedule l s
  end.

Lemma sched_schedule_rtc l s s' : schedule l s = Some s' → rtc step s s'.
Proof.
  revert s. induction l as [|[i c] l IH]; intros s Hs; cbn in Hs; [by simplify_eq|].
  destruct (exec i c s) as [s1|] eqn:He; cbn in Hs; [|done]. eapply rtc_l; [by exists i, c|by apply IH].
Qed.

End conc.

(** One worker and one other thread: the worker falls asleep after its 256 rounds,
    thread 1 pushes service 7 and wakes it, and it falls asleep again. *)
Definition sleep_steps : list (nat * Choice (A := nat)) := (0%nat, CFind) :: replicate 517 (0%nat, CStep).

Definition wake_and_sleep : list (nat * Choice (A := nat)) :=
  sleep_steps ++ (1%nat, CPush 7%nat) :: replicate 5 (1%nat, CStep)
  ++ replicate 2 (0%nat, CStep) ++ (0%nat, CPop) :: replicate 2 (0%nat, CStep) ++ sleep_steps.

(** What the witnesses need to know of it. *)
Definition view (o : option (Sys (Q := list) (A := nat))) : option (list (bool * bool) * list nat) :=
  s ← o;
  Some (zip ((λ pc, match pc with Park => true | _ => false end) <$> threads s)
            ((λ pc, match pc with Run => true | _ => false end) <$> threads s),
        if decide (tokens s = [false]) then taken s else []).

Lemma slept_view : view (schedule 1 wake_and_sleep (init 1 1)) = Some ([(true, false); (false, true)], [7%nat]).
Proof. vm_compute. reflexivity. Qed.

Lemma slept_facts : ∃ s, rtc (step 1) (init 1 1) s ∧ threads s = [Park; Run] ∧ tokens s = [false] ∧ taken s = [7%nat].
Proof.
  pose proof slept_view as Hv. destruct (schedule 1 wake_and_sleep (init 1 1)) as [s|] eqn:Hs; [|done].
  exists s. split; [by eapply sched_schedule_rtc|]. cbn in Hv. clear Hs.
  destruct (threads s) as [|p1 [|p2 [|p3 l]]]; try done. case_decide as Ht; [|done].
  injection Hv as H1 H2 H3 H4 Htk. by destruct p1, p2.
Qed.

Lemma no_lost_wakeup_witness :
  ∃ s, rtc (step (Q := list) 1) (init 1 1) s ∧ taken s = [7%nat] ∧ items s = [] ∧ pending s = 0.
Proof.
  destruct slept_facts as (s & Hr & Ht & Hk & Htk). exists s. split; [done|]. split; [done|].
  apply (no_lost_wakeup 1 1 s); [lia|done| |].
  - intros w Hw. assert (w = 0%nat) as -> by lia. split; [by rewrite Ht|]. unfold token. by rewrite Hk.
  - intros [|[|i]] pc Hpc Hge; rewrite Ht in Hpc; cbn in Hpc; [lia|congruence|done].
Defined.

Lemma pushed_popped_once_witness :
  ∃ s, rtc (step (Q := list) (A := nat) 1) (init 1 1) s ∧ taken s = [7%nat] ∧ pushed s ≡ₚ taken s ++ items s ++ (threads s ≫= carried).
Proof.
  destruct slept_facts as (s & Hr & _ & _ & Htk). exists s. split; [done|]. split; [done|].
  apply (pushed_popped_once 1 1 s); [lia|done].
Defined.

End SchedConc.
