(* ===== verification/Server.v ===== *)
(** * Services and the node

    Models [ServiceContext] and [Node] of [rskynet-core/src/server.rs] and the
    operations of [Ctx] in [rskynet-core/src/context.rs], on top of the mailbox, the
    task set, the session table and the handle storage.  Each method is one step on
    the node's state; the interleavings of the mailbox and of the scheduler below it
    are the subject of [MailboxConc.v] and [SchedConc.v].  The run queues appear here
    as the list of queued services with an arbitrary policy [pick] for the next one.

    User code is a parameter: polling a future runs a finite program [Prog] of [Ctx]
    operations that may use their results.  [CURRENT_SERVICE] is the argument [me]:
    the service whose code the calling thread runs, if any. *)
From S2P Require Import Prelude Interfaces Message Session Task Mailbox Handle.
Import Task Mailbox.

Module Server.

Definition YIELD_INTERVAL : nat := 64.

(** [mod lifecycle]. *)
Inductive Lifecycle : Type := INITIALIZING | RUNNING | FAILED.

#[global] Instance Lifecycle_eq_dec : EqDecision Lifecycle.
Proof. solve_decision. Defined.

Section server.
Context {Q : Type → Type} `{FifoLaws Q} {S : Type → Type} `{SlabLaws S} {F : Type}.

(** ** User code *)

Abbreviation Table := (Session.SessionTable (W := TaskWaker)).

(** What a future does when it is polled: operations on its [Ctx], then the end of
    the poll, [Done] with the error of a failed [init], or [Pend]. *)
Inductive Prog : Type :=
  | Done (err : option string)
  | Pend (f : F)
  | Send (dest : Addr) (mt : MsgType.t) (p : Payload) (k : Result unit → Prog)
  | Call (dest : Addr) (mt : MsgType.t) (p : Payload) (k : Result Z → Prog)
  | PollCall (s : Z) (k : Session.Poll → Prog)
  | DropCall (s : Z) (cancel_timer : bool) (k : Prog)
  | Reply (request : Message) (p : Payload) (k : Result unit → Prog)
  | ReplyError (request : Message) (k : Result unit → Prog)
  | Spawn (f : F) (k : Prog)
  | Sleep (millis : Z) (k : Z → Prog)
  | Launch (kind args : string) (k : Result Z → Prog)
  | PollInit (h : Z) (k : option (Result unit) → Prog)
  | RegisterName (name : string) (k : bool → Prog)
  | QueryName (name : string) (k : option Z → Prog)
  | Exit (k : Prog)
  | Kill (dest : Addr) (k : bool → Prog)
  | AbortNode (k : Prog)
  | Log (text : string) (k : Prog).

(** A task is a future of the service, or the wrapper [new_service_inner] puts
    around its [init]. *)
Inductive Fut : Type := FUser (f : F) | FInit (f : F).

(** A registered module: how it runs, its [init] and its [dispatch]. *)
Record Instance : Type := mkInstance {
  is_excl : bool;
  init_fut : string → F;
  dispatch_fut : Message → F;
}.

Context (body : F → Prog) (calls : F → list (Z * bool)) (registry : string → option Instance)
  (pick : list Z → nat).

(** ** State *)

Record Svc : Type := mkSvc {
  kind : string;
  mailbox : Mailbox (Q := Q);
  sessions : Table;
  exclusive : bool;
  tasks : TaskSet (S := S) (F := Fut);
  lifecycle : Lifecycle;
  ticket : option (unit + string);
  ticket_waker : option (Z * TaskWaker);
  init_self_exit : bool;
  pending_messages : option (list Message);
  dead : bool;
  reserved : bool;
  destroyed : bool;
  endless : bool;
  message_count : Z;
  serve : Message → F;
}.

(** What leaves the node's own state, in order. *)
Inductive Out : Type :=
  | OSent (src dest : Z) (mt : MsgType.t) (s : Z) (ok : bool)  (** [send_raw] *)
  | ODispatch (h : Z) (m : Message)                            (** [Service::dispatch] *)
  | OInterrupt (h : Z)                                         (** the exclusive thread is woken *)
  | OTimeout (h s delay : Z) | OCancel (h s : Z)               (** [Timer] calls *)
  | OStderr (src : Z) (text : string).

Record Node : Type := mkNode {
  handles : Handle.HandleStorage (Ctx := Z);
  svcs : gmap Z Svc;
  runq : list Z;
  quit : bool;
  total : Z;
  booted : bool;
  logger : Z;
  outs : list Out;
}.

Definition grab (h : Z) (n : Node) : option Z := Handle.grab id h (handles n).

Definition set_handles hs (n : Node) :=
  mkNode hs (svcs n) (runq n) (quit n) (total n) (booted n) (logger n) (outs n).
Definition set_svcs m (n : Node) :=
  mkNode (handles n) m (runq n) (quit n) (total n) (booted n) (logger n) (outs n).
Definition set_runq q (n : Node) :=
  mkNode (handles n) (svcs n) q (quit n) (total n) (booted n) (logger n) (outs n).
Definition set_quit_flag b (n : Node) :=
  mkNode (handles n) (svcs n) (runq n) b (total n) (booted n) (logger n) (outs n).
Definition set_total t (n : Node) :=
  mkNode (handles n) (svcs n) (runq n) (quit n) t (booted n) (logger n) (outs n).
Definition set_booted b (n : Node) :=
  mkNode (handles n) (svcs n) (runq n) (quit n) (total n) b (logger n) (outs n).
Definition set_logger h (n : Node) :=
  mkNode (handles n) (svcs n) (runq n) (quit n) (total n) (booted n) h (outs n).
Definition emit (o : Out) (n : Node) :=
  mkNode (handles n) (svcs n) (runq n) (quit n) (total n) (booted n) (logger n) (outs n ++ [o]).

Definition upd (h : Z) (f : Svc → Svc) (n : Node) : Node := set_svcs (alter f h (svcs n)) n.

Definition set_mailbox m (v : Svc) :=
  mkSvc (kind v) m (sessions v) (exclusive v) (tasks v) (lifecycle v) (ticket v) (ticket_waker v)
    (init_self_exit v) (pending_messages v) (dead v) (reserved v) (destroyed v) (endless v)
    (message_count v) (serve v).
Definition set_sessions t (v : Svc) :=
  mkSvc (kind v) (mailbox v) t (exclusive v) (tasks v) (lifecycle v) (ticket v) (ticket_waker v)
    (init_self_exit v) (pending_messages v) (dead v) (reserved v) (destroyed v) (endless v)
    (message_count v) (serve v).
Definition set_tasks t (v : Svc) :=
  mkSvc (kind v) (mailbox v) (sessions v) (exclusive v) t (lifecycle v) (ticket v) (ticket_waker v)
    (init_self_exit v) (pending_messages v) (dead v) (reserved v) (destroyed v) (endless v)
    (message_count v) (serve v).
Definition set_lifecycle l (v : Svc) :=
  mkSvc (kind v) (mailbox v) (sessions v) (exclusive v) (tasks v) l (ticket v) (ticket_waker v)
    (init_self_exit v) (pending_messages v) (dead v) (reserved v) (destroyed v) (endless v)
    (message_count v) (serve v).
Definition set_ticket t w (v : Svc) :=
  mkSvc (kind v) (mailbox v) (sessions v) (exclusive v) (tasks v) (lifecycle v) t w
    (init_self_exit v) (pending_messages v) (dead v) (reserved v) (destroyed v) (endless v)
    (message_count v) (serve v).
Definition set_self_exit b (v : Svc) :=
  mkSvc (kind v) (mailbox v) (sessions v) (exclusive v) (tasks v) (lifecycle v) (ticket v) (ticket_waker v)
    b (pending_messages v) (dead v) (reserved v) (destroyed v) (endless v)
    (message_count v) (serve v).
Definition set_pending p (v : Svc) :=
  mkSvc (kind v) (mailbox v) (sessions v) (exclusive v) (tasks v) (lifecycle v) (ticket v) (ticket_waker v)
    (init_self_exit v) p (dead v) (reserved v) (destroyed v) (endless v)
    (message_count v) (serve v).
Definition mark_dead (v : Svc) :=
  mkSvc (kind v) (mailbox v) (sessions v) (exclusive v) (tasks v) (lifecycle v) (ticket v) (ticket_waker v)
    (init_self_exit v) (pending_messages v) true (reserved v) (destroyed v) (endless v)
    (message_count v) (serve v).
Definition mark_destroyed (v : Svc) :=
  mkSvc (kind v) (mailbox v) (sessions v) (exclusive v) (tasks v) (lifecycle v) (ticket v) (ticket_waker v)
    (init_self_exit v) (pending_messages v) (dead v) (reserved v) true (endless v)
    (message_count v) (serve v).
Definition set_endless b (v : Svc) :=
  mkSvc (kind v) (mailbox v) (sessions v) (exclusive v) (tasks v) (lifecycle v) (ticket v) (ticket_waker v)
    (init_self_exit v) (pending_messages v) (dead v) (reserved v) (destroyed v) b
    (message_count v) (serve v).
Definition count_message (v : Svc) :=
  mkSvc (kind v) (mailbox v) (sessions v) (exclusive v) (tasks v) (lifecycle v) (ticket v) (ticket_waker v)
    (init_self_exit v) (pending_messages v) (dead v) (reserved v) (destroyed v) (endless v)
    (message_count v +w 1) (serve v).

(** ** Handing a service to its executor *)

(** [Scheduler::push], with its [mark_queued]. *)
Definition sched_push (h : Z) (n : Node) : Node :=
  set_runq (runq n ++ [h]) (upd h (λ v, set_mailbox (mark_queued (mailbox v)) v) n).

(** [Scheduler::pop], with its [mark_running]. *)
Definition sched_pop (n : Node) : Node * option Z :=
  match runq n with
  | [] => (n, None)
  | q =>
      let i := (pick q mod length q)%nat in
      match q !! i with
      | Some h => (set_runq (delete i q) (upd h (λ v, set_mailbox (mark_running (mailbox v)) v) n), Some h)
      | None => (n, None)
      end
  end.

Definition should_yield (n : Node) : bool := negb (bool_decide (runq n = [])) || quit n.

Definition interrupt (h : Z) (n : Node) : Node :=
  match svcs n !! h with
  | Some v => if exclusive v then emit (OInterrupt h) n else n
  | None => n
  end.

Definition wake (h : Z) (queued : bool) (n : Node) : Node :=
  if negb queued then n else
  match svcs n !! h with
  | Some v => if exclusive v then interrupt h n else sched_push h n
  | None => n
  end.

(** A mailbox operation that may hand the service over. *)
Definition deliver (h : Z) (f : Mailbox → Mailbox * bool) (n : Node) : Node :=
  match svcs n !! h with
  | Some v => let '(m, queued) := f (mailbox v) in wake h queued (upd h (set_mailbox m) n)
  | None => n
  end.

Definition push (h : Z) (msg : Message) (n : Node) : Node := deliver h (push_message msg) n.
Definition wake_task (h : Z) (task : TaskId) (n : Node) : Node := deliver h (push_ready (RTask task)) n.

(** [TaskWaker::wake_by_ref] of a task of service [h]. *)
Definition wake_waker (h : Z) (w : TaskWaker) (n : Node) : Node :=
  match svcs n !! h with
  | Some v =>
      let '(t, o) := wake_by_ref w (tasks v) in
      let n := upd h (set_tasks t) n in
      match o with Some task => wake_task h task n | None => n end
  | None => n
  end.

Definition install_task (h : Z) (f : Fut) (req : option (Z * Z)) (src : Z) (n : Node) : Node :=
  match svcs n !! h with
  | Some v =>
      let '(t, task) := insert f req src (tasks v) in
      wake_task h task (upd h (set_tasks t) n)
  | None => n
  end.

(** ** Sending *)

Definition resolve (a : Addr) (n : Node) : Result Z :=
  match a with
  | AHandle h => inl h
  | AName name =>
      match Handle.find_name name (handles n) with
      | Some h => inl h
      | None => inr (NameNotFound name)
      end
  end.

Definition send_raw (src dest : Z) (mt : MsgType.t) (s : Z) (p : Payload) (n : Node) : Node * Result unit :=
  match grab dest n with
  | None => (emit (OSent src dest mt s false) n, inr (NoService dest))
  | Some c => (push c (mkMessage src s mt p) (emit (OSent src dest mt s true) n), inl tt)
  end.

Definition send_error (h : Z) (r : Z * Z) (n : Node) : Node :=
  (send_raw h r.1 MsgType.ERROR r.2 PNone n).1.

Definition text_bytes (t : string) : list Z := (λ c, Z.of_N (Ascii.N_of_ascii c)) <$> String.list_ascii_of_string t.

Definition log (src : Z) (text : string) (n : Node) : Node :=
  match (if decide (logger n = 0) then None else grab (logger n) n) with
  | Some c =>
      match svcs n !! c with
      | Some v => if dead v then emit (OStderr src text) n
                  else push c (mkMessage src 0 MsgType.TEXT (PBytes (text_bytes text))) n
      | None => n
      end
  | None => emit (OStderr src text) n
  end.

Definition timeout (h delay s : Z) (n : Node) : Node :=
  if decide (delay = 0) then (send_raw 0 h MsgType.RESPONSE s PNone n).1
  else emit (OTimeout h s delay) n.

(** ** Initialisation *)

(** [InitShared::complete]: the first result stays; the waiting launcher is woken. *)
Definition complete_init (h : Z) (r : unit + string) (n : Node) : Node :=
  match svcs n !! h with
  | Some v =>
      match ticket v with
      | Some _ => n
      | None =>
          let n := upd h (set_ticket (Some r) None) n in
          match ticket_waker v with Some (l, w) => wake_waker l w n | None => n end
      end
  | None => n
  end.

Definition killed_early : string := "terminated before init finished".
Definition exited_early : string := "exited before init finished".

Definition finish_init (h : Z) (r : unit + string) (n : Node) : Node :=
  match svcs n !! h with
  | Some v =>
      let r := match r with
               | inl _ => if dead v && negb (init_self_exit v) then inr killed_early else r
               | inr _ => r
               end in
      let l := match r with inl _ => RUNNING | inr _ => FAILED end in
      complete_init h r (upd h (set_lifecycle l) n)
  | None => n
  end.

(** [InitTicket::result]. *)
Definition ticket_result (v : Svc) : option (Result unit) :=
  match ticket v with
  | None => None
  | Some (inl _) => Some (inl tt)
  | Some (inr reason) => Some (inr (Init (kind v) reason))
  end.

(** [InitTicket::poll] by a task of [me]. *)
Definition poll_init (me h : Z) (w : TaskWaker) (n : Node) : Node * option (Result unit) :=
  match svcs n !! h with
  | Some v =>
      match ticket_result v with
      | Some r => (n, Some r)
      | None => (upd h (set_ticket None (Some (me, w))) n, None)
      end
  | None => (n, None)
  end.

(** ** Retiring *)

Definition fail_inflight (me : option Z) (h : Z) (n : Node) : Node :=
  if decide (me = Some h) then
    match svcs n !! h with
    | Some v =>
        let '(t, reqs) := take_requests (tasks v) in
        foldl (λ n r, send_error h r n) (upd h (set_tasks t) n) reqs
    | None => n
    end
  else n.

Definition retire (me : option Z) (h : Z) (n : Node) : Node * bool :=
  match Handle.retire id h (handles n) with
  | (_, None) => (n, false)
  | (hs, Some c) =>
      let n := fail_inflight me c (upd c mark_dead (set_handles hs n)) in
      (deliver c notify n, true)
  end.

Definition request_exit (me : option Z) (h : Z) (n : Node) : Node :=
  match svcs n !! h with
  | Some v =>
      let initializing_here := bool_decide (lifecycle v = INITIALIZING ∧ me = Some h) in
      let '(n, b) := retire me h n in
      if b && initializing_here then upd h (set_self_exit true) n else n
  | None => n
  end.

(** ** Lifecycle of the node *)

Definition set_quit_locked (n : Node) : Node * bool :=
  if quit n then (n, false) else (set_quit_flag true n, true).

Definition interrupt_all (n : Node) : Node :=
  foldl (λ n h, interrupt h n) n (Handle.contexts (handles n)).

Definition quit_node (n : Node) : Node :=
  let '(n, changed) := set_quit_locked n in if changed then interrupt_all n else n.

Definition mark_booted (n : Node) : Node :=
  let n := set_booted true n in
  if decide (total n = 0) then quit_node n else n.

(** One pass of [retire_all] over a snapshot of the handles: the node and the number
    of services it went for. *)
Fixpoint retire_pass (me : option Z) (hs : list Z) (n : Node) : Node * nat :=
  match hs with
  | [] => (n, 0%nat)
  | h :: hs =>
      let skip := match grab h n with
                  | Some c => match svcs n !! c with Some v => reserved v | None => false end
                  | None => false
                  end in
      if skip then retire_pass me hs n else
      let '(n, k) := retire_pass me hs (retire me h n).1 in (n, Datatypes.S k)
  end.

(** The passes repeat until one finds nothing; without other threads the second does. *)
Fixpoint retire_loop (fuel : nat) (me : option Z) (n : Node) : option Node :=
  match fuel with
  | O => None
  | Datatypes.S fuel =>
      let '(n, remaining) := retire_pass me (Handle.handles id (handles n)) n in
      if decide (remaining = 0%nat) then Some n else retire_loop fuel me n
  end.

Definition retire_all (me : option Z) (n : Node) : option Node := retire_loop 2 me n.

Definition abort (me : option Z) (n : Node) : option Node := retire_all me (quit_node n).

Definition retire_reserved (me : option Z) (keep_logger : bool) (n : Node) : Node :=
  let l := logger n in
  foldl (λ n h, if keep_logger && bool_decide (h = l) then n else (retire me h n).1) n
    (Handle.handles id (handles n)).

Definition shut_down_error : Error := Service "node is shutting down".

(** [new_service_inner].  [None] is the panic of an exhausted handle space. *)
Definition new_service (k args : string) (res : bool) (n : Node) : option (Node * Result Z) :=
  match registry k with
  | None => Some (n, inr (UnknownService k))
  | Some inst =>
      if quit n then Some (n, inr shut_down_error) else
      '(hs, h) ← Handle.register_with id (λ h, h) (handles n);
      let v := mkSvc k Mailbox.new Session.new (is_excl inst) Task.new INITIALIZING None None false (Some [])
                 false res false false 0 (dispatch_fut inst) in
      let n := set_svcs (<[h := v]> (svcs n)) (set_handles hs n) in
      let n := if res then n else set_total (total n + 1) n in
      let n := install_task h (FInit (init_fut inst args)) None 0 n in
      let n := if is_excl inst then n else sched_push h n in
      Some (log h ("LAUNCH " +:+ k +:+ " " +:+ args) n, inl h)
  end.

(** ** Running user code *)

Definition will_wake (a b : TaskWaker) : bool := bool_decide (a = b).

(** [Drop] of a [Call] that did not finish. *)
Definition drop_call (h s : Z) (cancel_timer : bool) (n : Node) : Node :=
  let n := upd h (λ v, set_sessions (Session.abandon s (sessions v)) v) n in
  if cancel_timer then emit (OCancel h s) n else n.

(** [self.inner.sessions.alloc()]. *)
Definition alloc_session (h : Z) (n : Node) : option (Node * Z) :=
  v ← svcs n !! h;
  '(s, t) ← Session.alloc (sessions v);
  Some (upd h (set_sessions t) n, s).

Definition send_addr (src : Z) (dest : Addr) (mt : MsgType.t) (s : Z) (p : Payload) (n : Node)
    : Node * Result unit :=
  match resolve dest n with
  | inl d => send_raw src d mt s p n
  | inr e => (n, inr e)
  end.

Definition bad_call_type : Error := Service "call with a reply type".

(** [Ctx::call] up to its first suspension: the session, or the error it returns. *)
Definition start_call (h : Z) (dest : Addr) (mt : MsgType.t) (p : Payload) (n : Node)
    : option (Node * Result Z) :=
  if MsgType.is_reply mt then Some (n, inr bad_call_type) else
  match resolve dest n with
  | inr e => Some (n, inr e)
  | inl d =>
      '(n, s) ← alloc_session h n;
      match send_raw h d mt s p n with
      | (n, inl _) => Some (n, inl s)
      | (n, inr e) => Some (drop_call h s false n, inr e)
      end
  end.

Definition reply_to (h : Z) (request : Message) (mt : MsgType.t) (p : Payload) (n : Node) : Node * Result unit :=
  if needs_reply request then send_raw h (Message.source request) mt (session request) p n else (n, inl tt).

(** One poll of a future of service [h] with waker [w]; the result is the end of the
    program. *)
Fixpoint interp (h : Z) (w : TaskWaker) (p : Prog) (n : Node) : option (Node * (option string + F)) :=
  match p with
  | Done err => Some (n, inl err)
  | Pend f => Some (n, inr f)
  | Send dest mt pl k => let '(n, r) := send_addr h dest mt 0 pl n in interp h w (k r) n
  | Call dest mt pl k => '(n, r) ← start_call h dest mt pl n; interp h w (k r) n
  | PollCall s k =>
      v ← svcs n !! h;
      let '(t, r) := Session.poll will_wake s w (sessions v) in
      interp h w (k r) (upd h (set_sessions t) n)
  | DropCall s c k => interp h w k (drop_call h s c n)
  | Reply request pl k =>
      let '(n, r) := reply_to h request MsgType.RESPONSE pl n in interp h w (k r) n
  | ReplyError request k =>
      let '(n, r) := reply_to h request MsgType.ERROR PNone n in interp h w (k r) n
  | Spawn f k => interp h w k (install_task h (FUser f) None 0 n)
  | Sleep millis k => '(n, s) ← alloc_session h n; interp h w (k s) (timeout h millis s n)
  | Launch kd args k => '(n, r) ← new_service kd args false n; interp h w (k r) n
  | PollInit d k => let '(n, r) := poll_init h d w n in interp h w (k r) n
  | RegisterName name k =>
      let '(hs, b) := Handle.register_name id h (AddrText.trim_dots name) (handles n) in
      interp h w (k b) (set_handles hs n)
  | QueryName name k => interp h w (k (Handle.find_name (AddrText.trim_dots name) (handles n))) n
  | Exit k => interp h w k (request_exit (Some h) h n)
  | Kill dest k =>
      match resolve dest n with
      | inl d => let '(n, b) := retire (Some h) d n in interp h w (k b) n
      | inr _ => interp h w (k false) n
      end
  | AbortNode k => n ← abort (Some h) n; interp h w k n
  | Log text k => interp h w k (log h text n)
  end.

(** Polling a task: a plain future, or [init] with what [new_service_inner] does when
    it ends. *)
Definition poll_fut (h : Z) (w : TaskWaker) (f : Fut) (n : Node) : option (Node * option Fut) :=
  match f with
  | FUser f =>
      '(n, r) ← interp h w (body f) n;
      Some (n, match r with inl _ => None | inr f => Some (FUser f) end)
  | FInit f =>
      '(n, r) ← interp h w (body f) n;
      match r with
      | inr f => Some (n, Some (FInit f))
      | inl None => Some (finish_init h (inl tt) n, None)
      | inl (Some err) =>
          Some (request_exit (Some h) h (finish_init h (inr err) (log h ("init failed: " +:+ err) n)), None)
      end
  end.

Definition poll_task (h : Z) (task : TaskId) (n : Node) : option Node :=
  v ← svcs n !! h;
  match take task (tasks v) with
  | (_, None) => Some n
  | (t, Some (f, w, _)) =>
      '(n, r) ← poll_fut h w f (upd h (set_tasks t) n);
      Some (upd h (λ v, set_tasks (match r with
                                   | None => remove task (tasks v)
                                   | Some f => restore task f (tasks v)
                                   end) v) n)
  end.

(** ** Handling a message *)

Definition complete_session (h s : Z) (r : Result Payload) (n : Node) : Node :=
  match svcs n !! h with
  | Some v =>
      let '(t, _, w) := Session.complete s r (sessions v) in
      let n := upd h (set_sessions t) n in
      match w with Some w => wake_waker h w n | None => n end
  | None => n
  end.

(** The request a task answers for, if its message is one. *)
Definition request_of (msg : Message) : option (Z * Z) :=
  if decide (session msg ≠ 0 ∧ Message.source msg ≠ 0) then Some (Message.source msg, session msg) else None.

(** [None] is the [expect] on the pending queue of a service that is not running. *)
Definition handle_message (h : Z) (msg : Message) (n : Node) : option Node :=
  v ← svcs n !! h;
  if MsgType.is_reply (mtype msg) && needs_reply msg then
    let n := upd h count_message n in
    let r := if decide (mtype msg = MsgType.ERROR) then inr (CallFailed (Message.source msg))
             else inl (payload msg) in
    Some (complete_session h (session msg) r n)
  else if decide (lifecycle v = RUNNING) then
    let n := emit (ODispatch h msg) (upd h count_message n) in
    Some (install_task h (FUser (serve v msg)) (request_of msg) (Message.source msg) n)
  else
    q ← pending_messages v;
    Some (upd h (set_pending (Some (q ++ [msg]))) n).

Definition run_work (h : Z) (w : Work) (n : Node) : option Node :=
  match w with
  | WReady (RTask task) => poll_task h task n
  | WMessage msg => handle_message h msg n
  end.

Definition take_pending (h : Z) (n : Node) : Node * option Message :=
  match svcs n !! h with
  | Some v =>
      match pending_messages v with
      | None => (n, None)
      | Some [] => (upd h (set_pending None) n, None)
      | Some (msg :: q) => (upd h (set_pending (Some q)) n, Some msg)
      end
  | None => (n, None)
  end.

(** [ctx.mailbox.take_work()] and the overload report that goes with a message. *)
Definition next_work (h : Z) (n : Node) : option (Node * option Work) :=
  v ← svcs n !! h;
  '(m, o) ← take_work (mailbox v);
  let n := upd h (set_mailbox m) n in
  Some (n, o).

Definition report_overload (h : Z) (n : Node) : Node :=
  match svcs n !! h with
  | Some v =>
      let '(m, overload) := take_overload (mailbox v) in
      let n := upd h (set_mailbox m) n in
      if decide (0 < overload) then log h "error: message queue may be overloaded" n else n
  | None => n
  end.

Definition is_dead (h : Z) (n : Node) : bool :=
  match svcs n !! h with Some v => dead v | None => false end.

Definition is_running (h : Z) (n : Node) : bool :=
  match svcs n !! h with Some v => bool_decide (lifecycle v = RUNNING) | None => false end.

(** [Ran], with the outcome of a loop that is cut off. *)
Inductive Ran : Type := Idle | Yielded | Dead | Unfinished.

(** What one turn of the loop in [run_service] did. *)
Inductive Turn : Type :=
  | TPending   (** a message kept from before the service ran *)
  | TWork      (** work from the mailbox *)
  | TIdle.     (** nothing: the mailbox is released *)

Definition turn (h : Z) (n : Node) : option (Node * Turn) :=
  let '(n, o) := if is_running h n then take_pending h n else (n, None) in
  match o with
  | Some msg => n ← run_work h (WMessage msg) n; Some (n, TPending)
  | None =>
      '(n, w) ← next_work h n;
      match w with
      | None => Some (n, TIdle)
      | Some w =>
          let n := match w with WMessage _ => report_overload h n | WReady _ => n end in
          n ← run_work h w n; Some (n, TWork)
      end
  end.

Fixpoint run_loop (fuel : nat) (preemptible : bool) (h : Z) (done : nat) (n : Node) : option (Node * Ran) :=
  match fuel with
  | O => Some (n, Unfinished)
  | Datatypes.S fuel =>
      '(n, t) ← turn h n;
      match t with
      | TIdle => Some (n, Idle)
      | _ =>
          if is_dead h n then Some (n, Dead) else
          let done := Datatypes.S done in
          if preemptible && bool_decide (YIELD_INTERVAL ≤ done)%nat then
            if should_yield n then Some (n, Yielded)
            else run_loop fuel preemptible h (match t with TPending => done | _ => 0%nat end) n
          else run_loop fuel preemptible h done n
      end
  end.

(** [fuel] bounds the work of one call: a service that keeps itself busy is cut off
    only by [should_yield]. *)
Definition run_service (fuel : nat) (h : Z) (preemptible : bool) (n : Node) : option (Node * Ran) :=
  if is_dead h n then Some (n, Dead) else run_loop fuel preemptible h 0 n.

Fixpoint drain_loop (budget : nat) (h : Z) (n : Node) : option Node :=
  match budget with
  | O => Some n
  | Datatypes.S budget =>
      if is_running h n then
        '(n, w) ← next_work h n;
        match w with
        | None => Some n
        | Some w => n ← run_work h w n; drain_loop budget h n
        end
      else Some n
  end.

Definition drain_service (h : Z) (n : Node) : option Node :=
  v ← svcs n !! h;
  drain_loop (Z.to_nat (saturating_add (saturating_add (saturating_mul (Mailbox.len (mailbox v)) 2)
                (saturating_mul (Z.of_nat (Task.len (tasks v))) 2)) 16)) h n.

(** ** Destroying *)

(** A waiting message whose sender has to be told. *)
Definition owes_error (msg : Message) : bool :=
  needs_reply msg && negb (Message.source msg =? 0) && negb (MsgType.is_reply (mtype msg)).

Definition fail_messages (h : Z) (ms : list Message) (n : Node) : Node :=
  foldl (λ n msg, if owes_error msg then send_error h (Message.source msg, session msg) n else n) n ms.

Definition drop_fut (h : Z) (f : Fut) (n : Node) : Node :=
  foldl (λ n sc, drop_call h sc.1 sc.2 n) n (calls (match f with FUser f | FInit f => f end)).

Definition drop_tasks (h : Z) (n : Node) : Node :=
  match svcs n !! h with
  | Some v =>
      let '(t, fs) := Task.drain (tasks v) in
      foldl (λ n f, drop_fut h f n) (upd h (set_tasks t) n) fs
  | None => n
  end.

Definition drain_mailbox (h : Z) (n : Node) : Node :=
  match svcs n !! h with
  | Some v =>
      let '(m, ms) := Mailbox.drain (mailbox v) in
      fail_messages h ms (upd h (set_mailbox m) n)
  | None => n
  end.

Definition drain_pending (h : Z) (n : Node) : Node :=
  match svcs n !! h with
  | Some v =>
      match pending_messages v with
      | Some ms => fail_messages h ms (upd h (set_pending None) n)
      | None => n
      end
  | None => n
  end.

(** One turn of the loop of [cleanup], up to [release]. *)
Definition cleanup_pass (h : Z) (n : Node) : Node :=
  let n := fail_inflight (Some h) h n in
  let n := drop_tasks h n in
  let n := upd h (λ v, set_sessions (Session.clear (sessions v)) v) n in
  let n := drain_mailbox h n in
  let n := drain_pending h n in
  match svcs n !! h with
  | Some v => if decide (lifecycle v = INITIALIZING) then finish_init h (inr exited_early) n else n
  | None => n
  end.

Fixpoint cleanup_loop (fuel : nat) (h : Z) (n : Node) : option Node :=
  match fuel with
  | O => None
  | Datatypes.S fuel =>
      let n := cleanup_pass h n in
      v ← svcs n !! h;
      '(m, released) ← release (mailbox v);
      let n := upd h (set_mailbox m) n in
      match released with true => Some n | false => cleanup_loop fuel h n end
  end.

(** A release that finds the mailbox notified makes it [RUNNING], so without other
    threads the second one succeeds. *)
Definition cleanup (h : Z) (n : Node) : option Node := cleanup_loop 2 h n.

Definition destroy (h : Z) (n : Node) : option Node :=
  n ← cleanup h n;
  v ← svcs n !! h;
  if destroyed v then Some n else
  let n := log h ("KILL " +:+ kind v) (upd h mark_destroyed n) in
  if reserved v then Some n else
  let previous := total n in
  let n := set_total (previous - 1) n in
  if decide (previous = 1 ∧ booted n = true) then Some (quit_node n) else Some n.

(** ** The worker's dispatch *)

Record DispatchStep : Type := mkStep { next : option Z; yielded : option Z }.

Definition dispatch_held (fuel : nat) (h : Z) (n : Node) : option (Node * DispatchStep) :=
  '(n, r) ← run_service fuel h true n;
  match r with
  | Dead =>
      n ← destroy h n;
      let '(n, o) := sched_pop n in Some (n, mkStep o None)
  | Idle =>
      v ← svcs n !! h;
      let n :=
        if dead v then
          let '(m, queued) := notify (mailbox v) in
          let n := upd h (set_mailbox m) n in
          if queued then sched_push h n else n
        else n in
      let '(n, o) := sched_pop n in Some (n, mkStep o None)
  | Yielded =>
      match sched_pop n with
      | (n, Some c) => Some (sched_push h n, mkStep (Some c) (Some h))
      | (n, None) => Some (n, mkStep (Some h) (Some h))
      end
  | Unfinished => Some (n, mkStep (Some h) None)
  end.

Definition dispatch_step (fuel : nat) (hold : option Z) (n : Node) : option (Node * DispatchStep) :=
  match hold with
  | Some h => dispatch_held fuel h n
  | None =>
      match sched_pop n with
      | (n, Some h) => dispatch_held fuel h n
      | (n, None) => Some (n, mkStep None None)
      end
  end.

(** ** Exclusive services *)

(** [exclusive_loop]: one round up to [idle], and the end of the thread. *)
Definition take_back (h : Z) (n : Node) : Node := upd h (λ v, set_mailbox (mark_running (mailbox v)) v) n.

Definition exclusive_round (fuel : nat) (h : Z) (n : Node) : option (Node * bool) :=
  '(n, r) ← run_service fuel h false (take_back h n);
  Some (n, match r with Dead => true | _ => is_dead h n end).

Definition exclusive_finish (h : Z) (n : Node) : option Node :=
  n ← drain_service h (take_back h n);
  destroy h (take_back h n).

Definition report_endless (src dest : Z) (n : Node) : Node :=
  let n := match grab dest n with Some c => upd c (set_endless true) n | None => n end in
  log 0 "error: a task may be in an endless loop" n.

Definition node_new : Node := mkNode Handle.new ∅ [] false 0 false 0 [].

(** ** What user code and the node itself may do to a service *)

(** Its identity, its deferred messages and its [destroyed] flag stay, it may die, and
    its queue only grows. *)
Record svc_le (v v' : Svc) : Prop := {
  le_kind : kind v' = kind v;
  le_exclusive : exclusive v' = exclusive v;
  le_reserved : reserved v' = reserved v;
  le_serve : serve v' = serve v;
  le_destroyed : destroyed v' = destroyed v;
  le_dead : dead v = true → dead v' = true;
  le_ticket : is_Some (ticket v) → ticket v' = ticket v;
  le_pending : pending_messages v' = pending_messages v;
  le_queue : ∃ l, fifo_list (queue (mailbox v')) = fifo_list (queue (mailbox v)) ++ l;
}.

#[global] Instance svc_le_preorder : PreOrder svc_le.
Proof.
  split.
  - intros v. split; try done. exists []. by rewrite app_nil_r.
  - intros v1 v2 v3 [? ? ? ? ? ? Ht ? (l1 & H7)] [? ? ? ? ? ? Ht' ? (l2 & H7')].
    split; try congruence; [by auto|intros Hs; rewrite <-(Ht Hs); apply Ht'; by rewrite Ht|].
    exists (l1 ++ l2). by rewrite H7', H7, app_assoc.
Qed.

(** The coarser view of the code that runs the service itself, which takes messages
    out of its queues. *)
Record svc_id (v v' : Svc) : Prop := {
  id_kind : kind v' = kind v;
  id_exclusive : exclusive v' = exclusive v;
  id_reserved : reserved v' = reserved v;
  id_serve : serve v' = serve v;
  id_destroyed : destroyed v = true → destroyed v' = true;
  id_dead : dead v = true → dead v' = true;
  id_ticket : is_Some (ticket v) → ticket v' = ticket v;
}.

#[global] Instance svc_id_preorder : PreOrder svc_id.
Proof.
  split; [intros v; by split|]. intros v1 v2 v3 [? ? ? ? ? ? Ht] [? ? ? ? ? ? Ht'].
  split; try congruence; auto. intros Hs. rewrite <-(Ht Hs). apply Ht'. by rewrite Ht.
Qed.

Lemma svc_le_id v v' : svc_le v v' → svc_id v v'.
Proof. intros []. split; try done. congruence. Qed.

Definition not_dispatch (o : Out) : Prop := match o with ODispatch _ _ => False | _ => True end.
Definition anything (o : Out) : Prop := True.

(** Services change only as [R] says and none disappears; the run queue, the quit flag
    and the trace only grow, the trace by events in [P]; and once the node has quit no
    handle is added. *)
Record evolves (R : Svc → Svc → Prop) (P : Out → Prop) (n n' : Node) : Prop := {
  ev_svcs : ∀ h v, svcs n !! h = Some v → ∃ v', svcs n' !! h = Some v' ∧ R v v';
  ev_runq : ∃ l, runq n' = runq n ++ l;
  ev_quit : quit n = true → quit n' = true;
  ev_booted : booted n' = booted n;
  ev_outs : ∃ l, outs n' = outs n ++ l ∧ Forall P l;
  ev_grab : quit n = true → ∀ h, is_Some (grab h n') → is_Some (grab h n);
}.

#[global] Instance evolves_preorder R P : PreOrder R → PreOrder (evolves R P).
Proof.
  intros HR. split.
  - intros n. split; try done; [intros h v Hv; exists v; by split|exists []; by rewrite app_nil_r..].
  - intros n1 n2 n3 [S1 [r1 R1] Q1 B1 (o1 & O1 & P1) G1] [S2 [r2 R2] Q2 B2 (o2 & O2 & P2) G2].
    split; [|exists (r1 ++ r2)|by auto|congruence|exists (o1 ++ o2)|by auto].
    + intros h v Hv. destruct (S1 h v Hv) as (v2 & Hv2 & L1). destruct (S2 h v2 Hv2) as (v3 & Hv3 & L2).
      exists v3. split; [done|]. by etrans.
    + by rewrite R2, R1, app_assoc.
    + split; [by rewrite O2, O1, app_assoc|by apply Forall_app].
Qed.

(** A step that leaves services, handles and run queue alone. *)
Lemma evolves_same R `{!PreOrder R} P n n' :
  svcs n' = svcs n → (∃ l, runq n' = runq n ++ l) → quit n' = quit n → booted n' = booted n → outs n' = outs n →
  handles n' = handles n → evolves R P n n'.
Proof.
  intros E1 E2 E3 E4 E5 E6. split; try done; [|congruence|exists []; by rewrite app_nil_r|unfold grab; by rewrite E6].
  intros h v Hv. exists v. by rewrite E1.
Qed.

(** ** The books of the node *)

Definition counts (v : Svc) : Prop := reserved v = false ∧ destroyed v = false.

#[global] Instance counts_dec v : Decision (counts v).
Proof. unfold counts. apply _. Defined.

(** The number of ordinary services not destroyed yet. *)
Definition ordinary (m : gmap Z Svc) : nat := size (filter (λ kv, counts kv.2) m).

(** [k] of them are still in [total]: destroyed services not yet taken off. *)
Record books_off (k : Z) (n : Node) : Prop := {
  bk_off : 0 ≤ k;
  bk_handles : Handle.inv id (handles n);
  bk_table : ∀ h, is_Some (grab h n) ↔ ∃ v, svcs n !! h = Some v ∧ dead v = false;
  bk_fresh : ∀ h, is_Some (svcs n !! h) → h < Handle.alloc (handles n);
  bk_total : total n = Z.of_nat (ordinary (svcs n)) + k;
  bk_destroyed : ∀ h v, svcs n !! h = Some v → destroyed v = true → dead v = true;
  bk_quit : booted n = true → total n = 0 → quit n = true;
}.

Definition books : Node → Prop := books_off 0.

(** A step keeps the books and lets the node evolve. *)
Definition keeps_by (R : Svc → Svc → Prop) (P : Out → Prop) (n n' : Node) : Prop :=
  ∀ k, books_off k n → evolves R P n n' ∧ books_off k n'.

Abbreviation keeps := (keeps_by svc_le not_dispatch).
Abbreviation runs := (keeps_by svc_id anything).

#[global] Instance keeps_by_preorder R P : PreOrder R → PreOrder (keeps_by R P).
Proof.
  intros HR. split; [intros n; by split|]. intros n1 n2 n3 K1 K2 k Hb. destruct (K1 k Hb) as [E1 B1], (K2 k B1) as [E2 B2].
  split; [by etrans|done].
Qed.

Lemma keeps_runs n n' : keeps n n' → runs n n'.
Proof.
  intros K k Hb. destruct (K k Hb) as [[E1 E2 E3 E4 (l & E5 & _) E6] B]. split; [|done].
  split; try done; [|by exists l; split; [|apply Forall_true]]. intros h v Hv. destruct (E1 h v Hv) as (v' & ? & ?).
  exists v'. split; [done|by apply svc_le_id].
Qed.

Lemma grab_id h c n : grab h n = Some c → c = h.
Proof. intros Hg. unfold grab, Handle.grab in Hg. by apply Handle.read_slot_Some in Hg as [_ ?]. Qed.

Lemma svcs_upd h f n : svcs (upd h f n) !! h = f <$> svcs n !! h.
Proof. cbn. apply lookup_alter_eq. Qed.

Lemma svcs_upd_ne h h' f n : h ≠ h' → svcs (upd h f n) !! h' = svcs n !! h'.
Proof. intros. cbn. by apply lookup_alter_ne. Qed.

(** Counting after one service changed. *)
Lemma ordinary_insert_new (m : gmap Z Svc) h v :
  m !! h = None → ordinary (<[h := v]> m) = ((if decide (counts v) then 1 else 0) + ordinary m)%nat.
Proof.
  intros Hn. unfold ordinary. case_decide as Hc.
  - rewrite map_filter_insert_True by done. rewrite map_size_insert_None; [done|].
    apply map_lookup_filter_None. by left.
  - by rewrite map_filter_insert_False, delete_id by done.
Qed.

Lemma ordinary_alter (m : gmap Z Svc) h f v :
  m !! h = Some v →
  (ordinary (alter f h m) + (if decide (counts v) then 1 else 0)
   = ordinary m + (if decide (counts (f v)) then 1 else 0))%nat.
Proof.
  intros Hv. rewrite <-(insert_delete_id m h v Hv) at 2.
  assert (Ha : alter f h m = <[h := f v]> (delete h m)).
  { rewrite insert_delete_eq. apply map_eq. intros j. destruct (decide (h = j)) as [->|Hne].
    - by rewrite lookup_alter_eq, lookup_insert_eq, Hv.
    - by rewrite lookup_alter_ne, lookup_insert_ne. }
  rewrite Ha, !ordinary_insert_new by apply lookup_delete_eq. lia.
Qed.

Lemma ordinary_alter_same (m : gmap Z Svc) h f :
  (∀ v, m !! h = Some v → counts (f v) ↔ counts v) → ordinary (alter f h m) = ordinary m.
Proof.
  intros Hf. destruct (m !! h) as [v|] eqn:Hv.
  - pose proof (ordinary_alter m h f v Hv) as Ho. specialize (Hf v eq_refl).
    destruct (decide (counts v)), (decide (counts (f v))); lia || naive_solver.
  - f_equal. apply map_eq. intros j. destruct (decide (h = j)) as [->|]; [by rewrite lookup_alter_eq, Hv|by rewrite lookup_alter_ne].
Qed.

(** A change to one service that the rest of the node does not see. *)
Lemma keeps_by_upd R `{!PreOrder R} P h f n :
  (∀ v, svcs n !! h = Some v → R v (f v) ∧ svc_id v (f v) ∧ dead (f v) = dead v ∧ destroyed (f v) = destroyed v) →
  keeps_by R P n (upd h f n).
Proof.
  intros Hf k [B0 B1 B2 B3 B4 B5 B6]. split.
  - split; try done; [|exists []; cbn; by rewrite app_nil_r..].
    intros j v Hv. destruct (decide (h = j)) as [<-|Hne].
    + exists (f v). rewrite svcs_upd, Hv. split; [done|]. by apply Hf.
    + exists v. rewrite svcs_upd_ne by done. by split.
  - split; try done.
    + intros j. rewrite (B2 j). destruct (decide (h = j)) as [<-|Hne]; [|by rewrite svcs_upd_ne].
      rewrite svcs_upd. destruct (svcs n !! h) as [v|] eqn:Hv; [|by split; intros (?&?&?)]. destruct (Hf v eq_refl) as (_ & _ & Hd & _).
      cbn. split; [intros (v' & [= <-] & ?); exists (f v); split; [done|congruence]|].
      intros (v' & [= <-] & ?). exists v. split; [done|congruence].
    + intros j. destruct (decide (h = j)) as [<-|Hne]; [|rewrite svcs_upd_ne by done; apply B3].
      rewrite svcs_upd. intros [v' Hv']. destruct (svcs n !! h) as [v|] eqn:Hv; [|done]. apply B3. by exists v.
    + cbn. rewrite B4. do 2 f_equal. symmetry. apply ordinary_alter_same. intros v Hv.
      destruct (Hf v Hv) as (_ & L & _ & Hds). unfold counts. by rewrite (id_reserved _ _ L), Hds.
    + intros j v Hv. destruct (decide (h = j)) as [<-|Hne]; [|rewrite svcs_upd_ne in Hv by done; by apply (B5 j)].
      rewrite svcs_upd in Hv. destruct (svcs n !! h) as [v0|] eqn:Hv0; [|done]. injection Hv as <-.
      destruct (Hf v0 eq_refl) as (_ & _ & Hd & Hds). rewrite Hds, Hd. by apply (B5 h).
Qed.

(** Same, for a function that leaves the flags and the queue of messages alone. *)
Lemma keeps_upd h f n :
  (∀ v, kind (f v) = kind v ∧ exclusive (f v) = exclusive v ∧ reserved (f v) = reserved v ∧ serve (f v) = serve v
     ∧ destroyed (f v) = destroyed v ∧ dead (f v) = dead v ∧ pending_messages (f v) = pending_messages v
     ∧ ticket (f v) = ticket v
     ∧ ∃ l, fifo_list (queue (mailbox (f v))) = fifo_list (queue (mailbox v)) ++ l) →
  keeps n (upd h f n).
Proof.
  intros Hf. apply keeps_by_upd; [apply _|]. intros v _. destruct (Hf v) as (K1 & K2 & K3 & K4 & K5 & K6 & K7 & Kt & K8).
  split_and!; try done; split; try done; congruence.
Qed.

(** Changes outside the mailbox. *)
Lemma keeps_upd_quiet h f n :
  (∀ v, kind (f v) = kind v ∧ exclusive (f v) = exclusive v ∧ reserved (f v) = reserved v ∧ serve (f v) = serve v
     ∧ destroyed (f v) = destroyed v ∧ dead (f v) = dead v ∧ pending_messages (f v) = pending_messages v
     ∧ ticket (f v) = ticket v
     ∧ mailbox (f v) = mailbox v) →
  keeps n (upd h f n).
Proof.
  intros Hf. apply keeps_upd. intros v. destruct (Hf v) as (K1 & K2 & K3 & K4 & K5 & K6 & K7 & Kt & K8).
  split_and!; try done. exists []. by rewrite K8, app_nil_r.
Qed.

Lemma keeps_emit R `{!PreOrder R} (P : Out → Prop) o n : P o → keeps_by R P n (emit o n).
Proof.
  intros Ho.  intros k Hb. split; [|by destruct Hb]. split; try done; [intros h v Hv; exists v; by split|exists []; by rewrite app_nil_r|exists [o]; split; [done|by constructor]].
Qed.

Lemma keeps_runq R `{!PreOrder R} P l n : keeps_by R P n (set_runq (runq n ++ l) n).
Proof.
  intros k Hb. split; [|by destruct Hb]. split; try done; [intros h v Hv; exists v; by split|by exists l|exists []; by rewrite app_nil_r].
Qed.

(** ** Every operation of user code keeps the books *)

Lemma keeps_sched_push h n : keeps n (sched_push h n).
Proof.
  unfold sched_push. set (n1 := upd _ _ _). change (runq n) with (runq n1).
  transitivity n1; [|apply keeps_runq; apply _]. apply keeps_upd. intros v.
  split_and!; try done. exists []. by rewrite app_nil_r.
Qed.

Lemma keeps_interrupt h n : keeps n (interrupt h n).
Proof. unfold interrupt. destruct (svcs n !! h) as [v|]; [|done]. destruct (exclusive v); [by apply keeps_emit; [apply _|]|done]. Qed.

Lemma keeps_wake h b n : keeps n (wake h b n).
Proof.
  unfold wake. destruct b; cbn [negb]; [|done]. destruct (svcs n !! h) as [v|]; [|done].
  destruct (exclusive v); [apply keeps_interrupt|apply keeps_sched_push].
Qed.

(** A mailbox operation that only adds to the queue of messages. *)
Definition adds (f : Mailbox (Q := Q) → Mailbox (Q := Q) * bool) : Prop :=
  ∀ m, ∃ l, fifo_list (queue (f m).1) = fifo_list (queue m) ++ l.

Lemma notify_queue (m : Mailbox (Q := Q)) : queue (notify m).1 = queue m.
Proof. unfold notify. by destruct (notify_next (state m)). Qed.

Lemma adds_notify : adds notify.
Proof. intros m. exists []. by rewrite notify_queue, app_nil_r. Qed.

Lemma adds_push_message msg : adds (push_message msg).
Proof. intros m. exists [msg]. unfold push_message. rewrite notify_queue. cbn. apply fifo_list_push. Qed.

Lemma adds_push_ready r : adds (push_ready r).
Proof. intros m. exists []. unfold push_ready. rewrite notify_queue. cbn. by rewrite app_nil_r. Qed.

Lemma keeps_deliver h f n : adds f → keeps n (deliver h f n).
Proof.
  intros Hf. unfold deliver. destruct (svcs n !! h) as [v|] eqn:Hv; [|done]. destruct (f (mailbox v)) as [m b] eqn:Hm.
  etrans; [|apply keeps_wake]. apply keeps_by_upd; [apply _|]. intros v' Hv'. assert (v' = v) as -> by congruence.
  destruct (Hf (mailbox v)) as [l Hl]. rewrite Hm in Hl. split_and!; try done. split; try done. by exists l.
Qed.

Lemma keeps_push h msg n : keeps n (push h msg n).
Proof. apply keeps_deliver, adds_push_message. Qed.

Lemma keeps_wake_task h t n : keeps n (wake_task h t n).
Proof. apply keeps_deliver, adds_push_ready. Qed.

Lemma keeps_set_tasks h t n : keeps n (upd h (set_tasks t) n).
Proof. by apply keeps_upd_quiet. Qed.

Lemma keeps_set_sessions h t n : keeps n (upd h (set_sessions t) n).
Proof. by apply keeps_upd_quiet. Qed.

Lemma keeps_wake_waker h w n : keeps n (wake_waker h w n).
Proof.
  unfold wake_waker. destruct (svcs n !! h) as [v|]; [|done]. destruct (wake_by_ref w (tasks v)) as [t [k|]].
  - etrans; [apply keeps_set_tasks|apply keeps_wake_task].
  - apply keeps_set_tasks.
Qed.

Lemma keeps_install_task h f req src n : keeps n (install_task h f req src n).
Proof.
  unfold install_task. destruct (svcs n !! h) as [v|]; [|done]. destruct (insert f req src (tasks v)) as [t k].
  etrans; [apply keeps_set_tasks|apply keeps_wake_task].
Qed.

Lemma keeps_send_raw src dest mt s p n : keeps n (send_raw src dest mt s p n).1.
Proof.
  unfold send_raw. destruct (grab dest n) as [c|]; cbn; [|by apply keeps_emit; [apply _|]].
  etrans; [|apply keeps_push]. by apply keeps_emit; [apply _|].
Qed.

Lemma keeps_send_error h r n : keeps n (send_error h r n).
Proof. apply keeps_send_raw. Qed.

Lemma keeps_foldl {B} R `{!PreOrder R} P (f : Node → B → Node) l n :
  (∀ n b, keeps_by R P n (f n b)) → keeps_by R P n (foldl f n l).
Proof. intros Hf. revert n. induction l as [|b l IH]; intros n; cbn; [done|]. etrans; [apply Hf|apply IH]. Qed.

Lemma keeps_log src text n : keeps n (log src text n).
Proof.
  unfold log. case_decide; [by apply keeps_emit; [apply _|]|]. destruct (grab (logger n) n) as [c|]; [|by apply keeps_emit; [apply _|]].
  destruct (svcs n !! c) as [v|]; [|done]. destruct (dead v); [by apply keeps_emit; [apply _|]|apply keeps_push].
Qed.

Lemma keeps_timeout h d s n : keeps n (timeout h d s n).
Proof. unfold timeout. case_decide; [apply keeps_send_raw|by apply keeps_emit; [apply _|]]. Qed.

(** A ticket is written while it is empty. *)
Lemma keeps_set_ticket h t w n v :
  svcs n !! h = Some v → ticket v = None → keeps n (upd h (set_ticket t w) n).
Proof.
  intros Hv Ht. apply keeps_by_upd; [apply _|]. intros v' Hv'. assert (v' = v) as -> by congruence.
  assert (Hn : is_Some (ticket v) → False) by (rewrite Ht; by intros []).
  split_and!; try done; split; try done; try (by intros ?%Hn). exists []. by rewrite app_nil_r.
Qed.

Lemma keeps_complete_init h r n : keeps n (complete_init h r n).
Proof.
  unfold complete_init. destruct (svcs n !! h) as [v|] eqn:Hv; [|done]. destruct (ticket v) eqn:Ht; [done|].
  etrans; [by eapply keeps_set_ticket|].
  destruct (ticket_waker v) as [[l w]|]; [apply keeps_wake_waker|done].
Qed.

Lemma keeps_finish_init h r n : keeps n (finish_init h r n).
Proof.
  unfold finish_init. destruct (svcs n !! h) as [v|]; [|done]. etrans; [|apply keeps_complete_init]. by apply keeps_upd_quiet.
Qed.

Lemma keeps_poll_init me h w n : keeps n (poll_init me h w n).1.
Proof.
  unfold poll_init. destruct (svcs n !! h) as [v|] eqn:Hv; [|done]. unfold ticket_result.
  destruct (ticket v) as [[]|] eqn:Ht; [done|done|]. by eapply keeps_set_ticket.
Qed.

Lemma keeps_fail_inflight me h n : keeps n (fail_inflight me h n).
Proof.
  unfold fail_inflight. case_decide; [|done]. destruct (svcs n !! h) as [v|]; [|done].
  destruct (take_requests (tasks v)) as [t reqs]. etrans; [apply keeps_set_tasks|].
  apply keeps_foldl; [apply _|]. intros. apply keeps_send_error.
Qed.

(** Taking a service off the handle table and marking it dead. *)
Lemma keeps_unregister h n :
  keeps n (match Handle.retire id h (handles n) with
           | (_, None) => n
           | (hs, Some c) => upd c mark_dead (set_handles hs n)
           end).
Proof.
  destruct (Handle.retire id h (handles n)) as [hs [c|]] eqn:Hr; [|done].
  assert (c = h) as ->.
  { unfold Handle.retire in Hr. destruct (Handle.read_slot id (Handle.slots (handles n)) h) eqn:Hs; [|done].
    apply Handle.read_slot_Some in Hs as [_ Hs]. cbn in Hs. congruence. }
  intros k [B0 B1 B2 B3 B4 B5 B6]. destruct (Handle.retire_spec id (handles n) h B1) as (R1 & R2 & R3 & _ & _ & R6).
  rewrite Hr in *. cbn in R1, R2, R3, R6. split.
  - split; try done; [|exists []; cbn; by rewrite app_nil_r..|].
    + intros j v Hv. destruct (decide (h = j)) as [<-|Hne].
      * exists (mark_dead v). rewrite svcs_upd. cbn. rewrite Hv. split; [done|]. split; try done. exists []. by rewrite app_nil_r.
      * exists v. rewrite svcs_upd_ne by done. cbn. by split.
    + intros _ j. unfold grab. cbn. rewrite R6. case_decide; [by intros [? ?]|done].
  - split; cbn; try done.
    + intros j. unfold grab. cbn. rewrite R6. case_decide as Hj.
      * subst j. rewrite lookup_alter_eq. split; [by intros [? ?]|]. intros (v & Hv & Hd).
        destruct (svcs n !! h); cbn in Hv; [|done]. by injection Hv as <-.
      * rewrite lookup_alter_ne by done. apply B2.
    + intros j Hj. rewrite R3. apply B3. destruct (decide (h = j)) as [<-|]; [|by rewrite lookup_alter_ne in Hj].
      rewrite lookup_alter_eq in Hj. by destruct (svcs n !! h).
    + rewrite B4. do 2 f_equal. symmetry. by apply ordinary_alter_same.
    + intros j v Hv Hd. destruct (decide (h = j)) as [<-|]; [|rewrite lookup_alter_ne in Hv by done; by apply (B5 j)].
      rewrite lookup_alter_eq in Hv. destruct (svcs n !! h); cbn in Hv; [|done]. by injection Hv as <-.
Qed.

Lemma keeps_retire me h n : keeps n (retire me h n).1.
Proof.
  unfold retire. pose proof (keeps_unregister h n) as Hu.
  destruct (Handle.retire id h (handles n)) as [hs [c|]]; [|done]. cbn.
  etrans; [exact Hu|]. etrans; [apply keeps_fail_inflight|]. apply keeps_deliver, adds_notify.
Qed.

Lemma keeps_request_exit me h n : keeps n (request_exit me h n).
Proof.
  unfold request_exit. destruct (svcs n !! h) as [v|]; [|done]. pose proof (keeps_retire me h n) as Hr.
  destruct (retire me h n) as [n' b]. cbn in Hr. etrans; [exact Hr|]. case_match; [|done]. by apply keeps_upd_quiet.
Qed.

Lemma keeps_set_quit n : keeps n (set_quit_flag true n).
Proof.
  intros k []. split; [|by split]. split; try done; [intros h v Hv; exists v; by split|exists []; by rewrite app_nil_r..].
Qed.

Lemma keeps_quit_node n : keeps n (quit_node n).
Proof.
  unfold quit_node, set_quit_locked. destruct (quit n); [done|]. etrans; [apply keeps_set_quit|].
  apply keeps_foldl; [apply _|]. intros. apply keeps_interrupt.
Qed.

Lemma keeps_retire_pass me hs n : keeps n (retire_pass me hs n).1.
Proof.
  revert n. induction hs as [|h hs IH]; intros n; cbn; [done|]. destruct (match grab h n with Some _ => _ | None => _ end); [apply IH|].
  specialize (IH (retire me h n).1). destruct (retire_pass me hs (retire me h n).1) as [n' k]. cbn in *.
  etrans; [apply keeps_retire|exact IH].
Qed.

Lemma keeps_retire_loop fuel me n n' : retire_loop fuel me n = Some n' → keeps n n'.
Proof.
  revert n. induction fuel as [|fuel IH]; intros n Hr; cbn in Hr; [done|].
  pose proof (keeps_retire_pass me (Handle.handles id (handles n)) n) as Hp.
  destruct (retire_pass me (Handle.handles id (handles n)) n) as [n1 k]. cbn in Hp. case_decide; simplify_eq; [done|].
  etrans; [exact Hp|by apply IH].
Qed.

Lemma keeps_abort me n n' : abort me n = Some n' → keeps n n'.
Proof. intros Ha. etrans; [apply keeps_quit_node|by eapply keeps_retire_loop]. Qed.

(** A new service on the table and in the count. *)
Lemma keeps_admit hs h v n :
  Handle.register_with id (λ h, h) (handles n) = Some (hs, h) → dead v = false → destroyed v = false → quit n = false →
  let n' := set_svcs (<[h := v]> (svcs n)) (set_handles hs n) in
  keeps n (if reserved v then n' else set_total (total n' + 1) n').
Proof.
  intros Hr Hd Hds Hq n' k [B0 B1 B2 B3 B4 B5 B6].
  destruct (Handle.register_with_some id (handles n) (λ h, h) hs h B1 (λ _, eq_refl) Hr) as (h' & <- & R1 & R2 & R3 & R4 & R5).
  assert (Hnone : svcs n !! h = None) by (destruct (svcs n !! h) eqn:E; [|done]; pose proof (B3 h ltac:(by eexists)); lia).
  split.
  { destruct (reserved v); (split; try done; [|exists []; cbn; by rewrite app_nil_r..|congruence]);
      intros j w Hw; exists w; cbn; rewrite lookup_insert_ne by congruence; by split. }
  assert (Hbase : ∀ t, t = Z.of_nat (ordinary (svcs n')) + k → books_off k (set_total t n')).
  { intros t Ht. split; cbn; try done.
    - intros j. unfold grab. cbn. rewrite R5. case_decide as Hj.
      + subst j. rewrite lookup_insert_eq. split; [intros _; by exists v|by eexists].
      + rewrite lookup_insert_ne by done. apply B2.
    - intros j. destruct (decide (j = h)) as [->|]; [lia|]. rewrite lookup_insert_ne by done. intros Hj%B3. lia.
    - intros j w. destruct (decide (j = h)) as [->|]; [rewrite lookup_insert_eq; intros [= <-]; congruence|].
      rewrite lookup_insert_ne by done. apply B5.
    - intros Hbt Hz. assert (quit n = true); [|congruence]. apply B6; [done|].
      rewrite B4. subst t. cbn in Hz. rewrite ordinary_insert_new in Hz by done. lia. }
  destruct (reserved v) eqn:Hrs.
  - replace n' with (set_total (total n') n') by (by destruct n). apply Hbase. cbn. rewrite ordinary_insert_new by done.
    rewrite decide_False by (unfold counts; naive_solver congruence). apply B4.
  - apply Hbase. cbn. rewrite ordinary_insert_new by done. rewrite decide_True by done. rewrite B4. lia.
Qed.

Lemma keeps_new_service k args res n n' r : new_service k args res n = Some (n', r) → keeps n n'.
Proof.
  unfold new_service. destruct (registry k) as [inst|]; [|by intros [= <- <-]]. destruct (quit n) eqn:Hq; [by intros [= <- <-]|].
  destruct (Handle.register_with id (λ h, h) (handles n)) as [[hs h]|] eqn:Hr; cbn [mbind option_bind]; [|done].
  set (v := mkSvc _ _ _ _ _ _ _ _ _ _ _ _ _ _ _ _). intros [= <- <-].
  pose proof (keeps_admit hs h v n Hr eq_refl eq_refl Hq) as Ha. change (reserved v) with res in Ha. cbn zeta in Ha.
  etrans; [|apply keeps_log]. etrans; [exact Ha|]. etrans; [apply keeps_install_task|].
  destruct (is_excl inst); [done|apply keeps_sched_push].
Qed.

Lemma keeps_drop_call h s c n : keeps n (drop_call h s c n).
Proof.
  unfold drop_call. set (n1 := upd _ _ _). assert (keeps n n1) by (by apply keeps_upd_quiet).
  destruct c; [|done]. etrans; [done|by apply keeps_emit; [apply _|]].
Qed.

Lemma keeps_alloc_session h n n' s : alloc_session h n = Some (n', s) → keeps n n'.
Proof.
  unfold alloc_session. destruct (svcs n !! h) as [v|]; cbn [mbind option_bind]; [|done]. destruct (Session.alloc (sessions v)) as [[s' t]|]; cbn [mbind option_bind]; [|done].
  intros [= <- <-]. apply keeps_set_sessions.
Qed.

Lemma keeps_send_addr src a mt s p n : keeps n (send_addr src a mt s p n).1.
Proof. unfold send_addr. destruct (resolve a n); [apply keeps_send_raw|done]. Qed.

Lemma keeps_start_call h a mt p n n' r : start_call h a mt p n = Some (n', r) → keeps n n'.
Proof.
  unfold start_call. destruct (MsgType.is_reply mt); [by intros [= <- <-]|]. destruct (resolve a n) as [d|e]; [|by intros [= <- <-]].
  destruct (alloc_session h n) as [[n1 s]|] eqn:Hal; cbn [mbind option_bind]; [|done]. apply keeps_alloc_session in Hal.
  pose proof (keeps_send_raw h d mt s p n1) as Hs. destruct (send_raw h d mt s p n1) as [n2 [u|e]]; cbn in Hs; intros [= <- <-].
  - by etrans.
  - etrans; [exact Hal|]. etrans; [exact Hs|apply (keeps_drop_call h s false n2)].
Qed.

Lemma keeps_reply_to h rq mt p n : keeps n (reply_to h rq mt p n).1.
Proof. unfold reply_to. destruct (needs_reply rq); [apply keeps_send_raw|done]. Qed.

Lemma keeps_register_name h name n :
  keeps n (set_handles (Handle.register_name id h name (handles n)).1 n).
Proof.
  intros k [B0 B1 B2 B3 B4 B5 B6]. destruct (Handle.register_name_spec id (handles n) h name B1) as (R1 & R2 & R3 & _).
  split.
  { split; try done; [intros j v Hv; exists v; by split|exists []; by rewrite app_nil_r..|].
    intros _ j. unfold grab, Handle.grab. cbn. by rewrite R3. }
  split; cbn; try done; [|by rewrite R2]. intros j. rewrite <-(B2 j). unfold grab, Handle.grab. cbn. by rewrite R3.
Qed.

(** Whatever a future does in a poll. *)
Lemma keeps_interp h w p n n' r : interp h w p n = Some (n', r) → keeps n n'.
Proof.
  revert n. induction p as [err|f|dest mt pl k IH|dest mt pl k IH|s k IH|s c k IH|rq pl k IH|rq k IH|f k IH|ms k IH
    |kd args k IH|d k IH|name k IH|name k IH|k IH|dest k IH|k IH|text k IH]; intros n Hi; cbn [interp] in Hi.
  - by simplify_eq.
  - by simplify_eq.
  - pose proof (keeps_send_addr h dest mt 0 pl n) as Hk. destruct (send_addr h dest mt 0 pl n). etrans; [exact Hk|by eapply IH].
  - destruct (start_call h dest mt pl n) as [[n1 r1]|] eqn:Hs; cbn in Hi; [|done]. etrans; [by eapply keeps_start_call|by eapply IH].
  - destruct (svcs n !! h) as [v|]; cbn in Hi; [|done]. destruct (Session.poll will_wake s w (sessions v)) as [t o].
    etrans; [apply keeps_set_sessions|by eapply IH].
  - etrans; [apply keeps_drop_call|by eapply IH].
  - pose proof (keeps_reply_to h rq MsgType.RESPONSE pl n) as Hk. destruct (reply_to h rq MsgType.RESPONSE pl n). etrans; [exact Hk|by eapply IH].
  - pose proof (keeps_reply_to h rq MsgType.ERROR PNone n) as Hk. destruct (reply_to h rq MsgType.ERROR PNone n). etrans; [exact Hk|by eapply IH].
  - etrans; [apply keeps_install_task|by eapply IH].
  - destruct (alloc_session h n) as [[n1 s]|] eqn:Hs; cbn in Hi; [|done]. etrans; [by eapply keeps_alloc_session|].
    etrans; [apply keeps_timeout|by eapply IH].
  - destruct (new_service kd args false n) as [[n1 r1]|] eqn:Hs; cbn in Hi; [|done]. etrans; [by eapply keeps_new_service|by eapply IH].
  - pose proof (keeps_poll_init h d w n) as Hk. destruct (poll_init h d w n). etrans; [exact Hk|by eapply IH].
  - pose proof (keeps_register_name h (AddrText.trim_dots name) n) as Hk.
    destruct (Handle.register_name id h (AddrText.trim_dots name) (handles n)). etrans; [exact Hk|by eapply IH].
  - by eapply IH.
  - etrans; [apply keeps_request_exit|by eapply IH].
  - destruct (resolve dest n) as [d|]; [|by eapply IH]. pose proof (keeps_retire (Some h) d n) as Hk.
    destruct (retire (Some h) d n). etrans; [exact Hk|by eapply IH].
  - destruct (abort (Some h) n) as [n1|] eqn:Ha; cbn in Hi; [|done]. etrans; [by eapply keeps_abort|by eapply IH].
  - etrans; [apply keeps_log|by eapply IH].
Qed.

Lemma keeps_poll_fut h w f n n' r : poll_fut h w f n = Some (n', r) → keeps n n'.
Proof.
  unfold poll_fut. destruct f as [f|f]; (destruct (interp h w (body f) n) as [[n1 r1]|] eqn:Hi; cbn [mbind option_bind]; [|done]);
    apply keeps_interp in Hi.
  - by intros [= <- <-].
  - destruct r1 as [[err|]|f']; intros [= <- <-]; (etrans; [exact Hi|]).
    + etrans; [apply keeps_log|]. etrans; [apply keeps_finish_init|apply keeps_request_exit].
    + apply keeps_finish_init.
    + done.
Qed.

Lemma keeps_poll_task h task n n' : poll_task h task n = Some n' → keeps n n'.
Proof.
  unfold poll_task. destruct (svcs n !! h) as [v|]; cbn [mbind option_bind]; [|done].
  destruct (take task (tasks v)) as [t [[[f w] src]|]]; [|by intros [= <-]].
  destruct (poll_fut h w f (upd h (set_tasks t) n)) as [[n1 r]|] eqn:Hp; cbn [mbind option_bind]; [|done].
  intros [= <-]. etrans; [apply keeps_set_tasks|]. etrans; [by eapply keeps_poll_fut|]. by apply keeps_upd_quiet.
Qed.

(** ** Running a service *)

Lemma runs_upd h f n :
  (∀ v, kind (f v) = kind v ∧ exclusive (f v) = exclusive v ∧ reserved (f v) = reserved v ∧ serve (f v) = serve v
     ∧ destroyed (f v) = destroyed v ∧ dead (f v) = dead v ∧ ticket (f v) = ticket v) → runs n (upd h f n).
Proof.
  intros Hf. apply keeps_by_upd; [apply _|]. intros v _. destruct (Hf v) as (K1 & K2 & K3 & K4 & K5 & K6 & Kt).
  split_and!; try done; split; try done; congruence.
Qed.

Lemma keeps_complete_session h s r n : keeps n (complete_session h s r n).
Proof.
  unfold complete_session. destruct (svcs n !! h) as [v|]; [|done]. destruct (Session.complete s r (sessions v)) as [[t b] [w|]].
  - etrans; [apply keeps_set_sessions|apply keeps_wake_waker].
  - apply keeps_set_sessions.
Qed.

Lemma runs_handle_message h msg n n' : handle_message h msg n = Some n' → runs n n'.
Proof.
  unfold handle_message. destruct (svcs n !! h) as [v|]; cbn [mbind option_bind]; [|done]. case_match.
  - intros [= <-]. apply keeps_runs. etrans; [|apply keeps_complete_session]. by apply keeps_upd_quiet.
  - case_decide.
    + intros [= <-]. etrans; [|apply keeps_runs, keeps_install_task]. etrans; [|by apply keeps_emit; [apply _|]].
      by apply runs_upd.
    + destruct (pending_messages v); cbn; [|done]. intros [= <-]. by apply runs_upd.
Qed.

Lemma runs_run_work h w n n' : run_work h w n = Some n' → runs n n'.
Proof. destruct w as [msg|[t]]; cbn; [apply runs_handle_message|]. intros. by eapply keeps_runs, keeps_poll_task. Qed.

Lemma runs_take_pending h n : runs n (take_pending h n).1.
Proof.
  unfold take_pending. destruct (svcs n !! h) as [v|]; [|done]. destruct (pending_messages v) as [[|msg q]|]; cbn; [by apply runs_upd..|done].
Qed.

Lemma runs_next_work h n n' w : next_work h n = Some (n', w) → runs n n'.
Proof.
  unfold next_work. destruct (svcs n !! h) as [v|]; cbn [mbind option_bind]; [|done].
  destruct (take_work (mailbox v)) as [[m o]|]; cbn [mbind option_bind]; [|done]. intros [= <- <-]. by apply runs_upd.
Qed.

Lemma runs_report_overload h n : runs n (report_overload h n).
Proof.
  unfold report_overload. destruct (svcs n !! h) as [v|]; [|done]. destruct (take_overload (mailbox v)) as [m o].
  set (n1 := upd _ _ _). assert (runs n n1) by (by apply runs_upd). case_decide; [|done]. etrans; [done|]. apply keeps_runs, keeps_log.
Qed.

Lemma runs_turn h n n' t : turn h n = Some (n', t) → runs n n'.
Proof.
  unfold turn. destruct (if is_running h n then take_pending h n else (n, None)) as [n1 o] eqn:Hp.
  assert (H1' : runs n n1).
  { destruct (is_running h n); [|by injection Hp as <- _]. pose proof (runs_take_pending h n) as Hr. by rewrite Hp in Hr. }
  destruct o as [msg|].
  - destruct (run_work h (WMessage msg) n1) as [n2|] eqn:Hw; cbn [mbind option_bind]; [|done]. intros [= <- <-].
    etrans; [done|by eapply runs_run_work].
  - destruct (next_work h n1) as [[n2 [w|]]|] eqn:Hw; cbn [mbind option_bind]; [| |done]; apply runs_next_work in Hw.
    + set (n3 := match w with WMessage _ => _ | WReady _ => _ end). assert (H3 : runs n2 n3) by (destruct w; [apply runs_report_overload|done]).
      destruct (run_work h w n3) as [n4|] eqn:Hw'; cbn [mbind option_bind]; [|done]. intros [= <- <-].
      etrans; [done|]. etrans; [done|]. etrans; [done|by eapply runs_run_work].
    + intros [= <- <-]. by etrans.
Qed.

Lemma runs_run_loop fuel p h d n n' r : run_loop fuel p h d n = Some (n', r) → runs n n'.
Proof.
  revert d n. induction fuel as [|fuel IH]; intros d n Hr; cbn [run_loop] in Hr; [by simplify_eq|].
  destruct (turn h n) as [[n1 t]|] eqn:Ht; cbn [mbind option_bind] in Hr; [|done]. apply runs_turn in Ht.
  assert (Hnext : ∀ d', run_loop fuel p h d' n1 = Some (n', r) → runs n n') by (intros d' Hd; etrans; [exact Ht|by eapply IH]).
  destruct t; [| |by simplify_eq]; (destruct (is_dead h n1); [by simplify_eq|]);
    (destruct (p && _); [destruct (should_yield n1); [by simplify_eq|]|]); by eapply Hnext.
Qed.

Lemma runs_run_service fuel h p n n' r : run_service fuel h p n = Some (n', r) → runs n n'.
Proof. unfold run_service. destruct (is_dead h n); [by intros [= <- <-]|apply runs_run_loop]. Qed.

Lemma runs_drain_loop b h n n' : drain_loop b h n = Some n' → runs n n'.
Proof.
  revert n. induction b as [|b IH]; intros n Hd; cbn [drain_loop] in Hd; [by simplify_eq|].
  destruct (is_running h n); [|by simplify_eq]. destruct (next_work h n) as [[n1 [w|]]|] eqn:Hw; cbn [mbind option_bind] in Hd; [| |done];
    apply runs_next_work in Hw; [|by simplify_eq].
  destruct (run_work h w n1) as [n2|] eqn:Hr; cbn [mbind option_bind] in Hd; [|done].
  etrans; [exact Hw|]. etrans; [by eapply runs_run_work|by apply IH].
Qed.

Lemma runs_drain_service h n n' : drain_service h n = Some n' → runs n n'.
Proof. unfold drain_service. destruct (svcs n !! h); cbn [mbind option_bind]; [apply runs_drain_loop|done]. Qed.

Lemma keeps_fail_messages h ms n : keeps n (fail_messages h ms n).
Proof. apply keeps_foldl; [apply _|]. intros n' msg. destruct (owes_error msg); [apply keeps_send_error|done]. Qed.

Lemma runs_cleanup_pass h n : runs n (cleanup_pass h n).
Proof.
  unfold cleanup_pass. set (n1 := fail_inflight _ _ _). set (n2 := drop_tasks h n1). set (n3 := upd h _ n2).
  set (n4 := drain_mailbox h n3). set (n5 := drain_pending h n4).
  assert (H1' : runs n n1) by apply keeps_runs, keeps_fail_inflight.
  assert (H2' : runs n1 n2).
  { unfold n2, drop_tasks. destruct (svcs n1 !! h) as [v|]; [|done]. destruct (Task.drain (tasks v)) as [t fs]. apply keeps_runs.
    etrans; [apply keeps_set_tasks|]. apply keeps_foldl; [apply _|]. intros n' f. apply keeps_foldl; [apply _|]. intros. apply keeps_drop_call. }
  assert (H3' : runs n2 n3) by (by apply runs_upd).
  assert (H4' : runs n3 n4).
  { unfold n4, drain_mailbox. destruct (svcs n3 !! h) as [v|]; [|done]. destruct (Mailbox.drain (mailbox v)) as [m ms].
    etrans; [|apply keeps_runs, keeps_fail_messages]. by apply runs_upd. }
  assert (H5' : runs n4 n5).
  { unfold n5, drain_pending. destruct (svcs n4 !! h) as [v|]; [|done]. destruct (pending_messages v) as [ms|]; [|done].
    etrans; [|apply keeps_runs, keeps_fail_messages]. by apply runs_upd. }
  etrans; [exact H1'|]. etrans; [exact H2'|]. etrans; [exact H3'|]. etrans; [exact H4'|]. etrans; [exact H5'|].
  destruct (svcs n5 !! h) as [v|]; [|done]. case_decide; [apply keeps_runs, keeps_finish_init|done].
Qed.

Lemma runs_cleanup_loop fuel h n n' : cleanup_loop fuel h n = Some n' → runs n n'.
Proof.
  revert n. induction fuel as [|fuel IH]; intros n Hc; cbn [cleanup_loop] in Hc; [done|].
  pose proof (runs_cleanup_pass h n) as Hp. set (n1 := cleanup_pass h n) in *.
  destruct (svcs n1 !! h) as [v|]; cbn [mbind option_bind] in Hc; [|done].
  destruct (release (mailbox v)) as [[m b]|]; cbn [mbind option_bind] in Hc; [|done].
  assert (H2' : runs n1 (upd h (set_mailbox m) n1)) by (by apply runs_upd).
  destruct b; [simplify_eq; by etrans|]. etrans; [exact Hp|]. etrans; [exact H2'|by apply IH].
Qed.

Lemma runs_cleanup h n n' : cleanup h n = Some n' → runs n n'.
Proof. apply runs_cleanup_loop. Qed.

(** ** The life of a node *)

Lemma books_sched_pop n : books n → books (sched_pop n).1.
Proof.
  intros Hb. unfold sched_pop. destruct (runq n) as [|q0 q]; [done|]. set (i := (_ mod _)%nat).
  destruct ((q0 :: q) !! i) as [h|]; [|done]. cbn [fst].
  assert (Hk : runs n (upd h (λ v, set_mailbox (mark_running (mailbox v)) v) n)) by (by apply runs_upd).
  destruct (Hk 0 Hb) as [_ []]. by split.
Qed.

Lemma runs_dead R n n' h : keeps_by svc_id R n n' → books n → is_dead h n = true → is_dead h n' = true.
Proof.
  intros Hk Hb. unfold is_dead. destruct (svcs n !! h) as [v|] eqn:Hv; [|done]. intros Hd.
  destruct (Hk 0 Hb) as [[E1 _ _ _ _ _] _]. destruct (E1 h v Hv) as (v' & -> & L). by apply (id_dead _ _ L).
Qed.

(** A service is taken off the count. *)
Lemma books_mark_destroyed h v n :
  books n → svcs n !! h = Some v → dead v = true → destroyed v = false →
  books_off (if reserved v then 0 else 1) (upd h mark_destroyed n).
Proof.
  intros [B0 B1 B2 B3 B4 B5 B6] Hv Hd Hds. pose proof (ordinary_alter (svcs n) h mark_destroyed v Hv) as Ho.
  rewrite (decide_False (P := counts (mark_destroyed v))) in Ho by (unfold counts; naive_solver).
  assert (Hc : (if decide (counts v) then 1 else 0)%nat = (if reserved v then 0 else 1)%nat).
  { case_decide as Hcv; unfold counts in Hcv; destruct (reserved v); naive_solver. }
  rewrite Hc in Ho. split; cbn; try done.
  - by destruct (reserved v).
  - intros j. change (grab j (upd h mark_destroyed n)) with (grab j n). rewrite (B2 j).
    destruct (decide (h = j)) as [<-|]; [|by rewrite lookup_alter_ne].
    rewrite lookup_alter_eq, Hv. cbn. split; intros (w & [= <-] & ?); [congruence|]. cbn in *. congruence.
  - intros j Hj. apply B3. destruct (decide (h = j)) as [<-|]; [by rewrite Hv|by rewrite lookup_alter_ne in Hj].
  - rewrite B4. destruct (reserved v); lia.
  - intros j w Hw. destruct (decide (h = j)) as [<-|]; [|rewrite lookup_alter_ne in Hw by done; by apply (B5 j)].
    rewrite lookup_alter_eq, Hv in Hw. by injection Hw as <-.
Qed.

Lemma books_destroy h n n' : books n → is_dead h n = true → destroy h n = Some n' → books n'.
Proof.
  intros Hb Hdead Hd. unfold destroy in Hd. destruct (cleanup h n) as [n1|] eqn:Hc; cbn [mbind option_bind] in Hd; [|done].
  apply runs_cleanup in Hc. pose proof (runs_dead _ _ _ h Hc Hb Hdead) as Hdead1. destruct (Hc 0 Hb) as [_ Hb1].
  unfold is_dead in Hdead1. destruct (svcs n1 !! h) as [v|] eqn:Hv; cbn [mbind option_bind] in Hd; [|done].
  destruct (destroyed v) eqn:Hds; [by injection Hd as <-|].
  pose proof (books_mark_destroyed h v n1 Hb1 Hv Hdead1 Hds) as Hm.
  set (n2 := log h ("KILL " +:+ kind v) (upd h mark_destroyed n1)) in *.
  assert (Hb2 : books_off (if reserved v then 0 else 1) n2) by (by apply (keeps_log h ("KILL " +:+ kind v) _ _ Hm)).
  destruct (reserved v); [by injection Hd as <-|]. set (n3 := set_total (total n2 - 1) n2) in *.
  destruct Hb2 as [B0 B1 B2 B3 B4 B5 B6]. case_decide as Hlast; injection Hd as <-.
  - assert (Hq : books (set_quit_flag true n3)) by (split; try done; cbn; lia).
    unfold quit_node, set_quit_locked. destruct (quit n3) eqn:Hqf.
    + by replace n3 with (set_quit_flag true n3) by (rewrite <-Hqf; by destruct n3).
    + assert (Hk : keeps (set_quit_flag true n3) (interrupt_all (set_quit_flag true n3)))
        by (apply keeps_foldl; [apply _|]; intros; apply keeps_interrupt).
      by apply (Hk 0 Hq).
  - split; try done; cbn; [lia|]. intros Hbt Hz. destruct Hlast. split; [lia|done].
Qed.

(** A turn of [run_service] that reports a dead service tells the truth. *)
Lemma run_loop_dead fuel p h d n n' : run_loop fuel p h d n = Some (n', Dead) → is_dead h n' = true.
Proof.
  revert d n. induction fuel as [|fuel IH]; intros d n Hr; cbn [run_loop] in Hr; [done|].
  destruct (turn h n) as [[n1 t]|]; cbn [mbind option_bind] in Hr; [|done].
  destruct t; [| |done]; (destruct (is_dead h n1) eqn:E; [by injection Hr as <-|]);
    (destruct (p && _); [destruct (should_yield n1); [done|]|]); by eapply IH.
Qed.

Lemma run_service_dead fuel p h n n' : run_service fuel h p n = Some (n', Dead) → is_dead h n' = true.
Proof. unfold run_service. destruct (is_dead h n) eqn:E; [by intros [= <-]|apply run_loop_dead]. Qed.

Lemma books_dispatch_held fuel h n n' st : books n → dispatch_held fuel h n = Some (n', st) → books n'.
Proof.
  intros Hb Hd. unfold dispatch_held in Hd. destruct (run_service fuel h true n) as [[n1 r]|] eqn:Hr; cbn [mbind option_bind] in Hd; [|done].
  assert (Hb1 : books n1) by (by apply (runs_run_service _ _ _ _ _ _ Hr 0)).
  destruct r.
  - destruct (svcs n1 !! h) as [v|]; cbn [mbind option_bind] in Hd; [|done]. set (n2 := if dead v then _ else _) in Hd.
    assert (Hb2 : books n2).
    { unfold n2. destruct (dead v); [|done]. destruct (notify (mailbox v)) as [m b].
      assert (Hk : runs n1 (upd h (set_mailbox m) n1)) by (by apply runs_upd). destruct (Hk 0 Hb1) as [_ Hb2].
      destruct b; [|done]. by apply (keeps_sched_push h _ 0 Hb2). }
    pose proof (books_sched_pop n2 Hb2) as Hp. destruct (sched_pop n2). by injection Hd as <- _.
  - pose proof (books_sched_pop n1 Hb1) as Hp. destruct (sched_pop n1) as [n2 [c|]]; injection Hd as <- _; cbn in Hp; [|done].
    by apply (keeps_sched_push h n2 0 Hp).
  - apply run_service_dead in Hr. destruct (destroy h n1) as [n2|] eqn:Hds; cbn [mbind option_bind] in Hd; [|done].
    pose proof (books_sched_pop n2 (books_destroy _ _ _ Hb1 Hr Hds)) as Hp. destruct (sched_pop n2). by injection Hd as <- _.
  - by injection Hd as <- _.
Qed.

(** Everything that happens to a node: calls from outside and the turns of its workers
    and exclusive threads. *)
Inductive NodeOp : Type :=
  | NLaunch (k args : string) (res : bool)
  | NSend (src dest : Z) (mt : MsgType.t) (s : Z) (p : Payload)
  | NKill (h : Z) | NQuit | NAbort | NBooted | NSetLogger (h : Z) | NRetireReserved (keep_logger : bool)
  | NDispatch (fuel : nat) (hold : option Z)
  | NExclusive (fuel : nat) (h : Z).

Definition node_step (o : NodeOp) (n : Node) : option Node :=
  match o with
  | NLaunch k args res => '(n, _) ← new_service k args res n; Some n
  | NSend src dest mt s p => Some (send_raw src dest mt s p n).1
  | NKill h => Some (retire None h n).1
  | NQuit => Some (quit_node n)
  | NAbort => abort None n
  | NBooted => Some (mark_booted n)
  | NSetLogger h => Some (set_logger h n)
  | NRetireReserved keep => Some (retire_reserved None keep n)
  | NDispatch fuel hold => '(n, _) ← dispatch_step fuel hold n; Some n
  | NExclusive fuel h =>
      '(n, b) ← exclusive_round fuel h n;
      match b with true => exclusive_finish h n | false => Some n end
  end.

Fixpoint node_run (os : list NodeOp) (n : Node) : option Node :=
  match os with
  | [] => Some n
  | o :: os => n ← node_step o n; node_run os n
  end.

Lemma books_new : books node_new.
Proof.
  split; cbn; try done.
  - apply Handle.storage_new_inv.
  - intros h. split; [|by intros (v & ? & _)]. intros [c Hc]. exfalso. unfold grab in Hc. apply Handle.read_slot_Some in Hc as [Hc _].
    cbn in Hc. apply list_elem_of_lookup_2 in Hc. set_solver.
  - intros h [v Hv]. done.
Qed.

Lemma books_mark_booted n : books n → books (mark_booted n).
Proof.
  intros [B0 B1 B2 B3 B4 B5 B6]. unfold mark_booted. case_decide as Hz; cbn in Hz.
  - unfold quit_node, set_quit_locked. cbn. destruct (quit n) eqn:Hq; [split; try done; by rewrite Hq|].
    assert (Hb : books (set_quit_flag true (set_booted true n))) by (split; done).
    assert (Hk : keeps (set_quit_flag true (set_booted true n)) (interrupt_all (set_quit_flag true (set_booted true n))))
      by (apply keeps_foldl; [apply _|]; intros; apply keeps_interrupt). by apply (Hk 0 Hb).
  - split; done.
Qed.

Lemma books_step o n n' : books n → node_step o n = Some n' → books n'.
Proof.
  intros Hb Hs. destruct o; cbn [node_step] in Hs.
  - destruct (new_service k args res n) as [[n1 r]|] eqn:E; cbn in Hs; simplify_eq. by apply (keeps_new_service _ _ _ _ _ _ E 0).
  - injection Hs as <-. by apply (keeps_send_raw src dest mt s p n 0).
  - injection Hs as <-. by apply (keeps_retire None h n 0).
  - injection Hs as <-. by apply (keeps_quit_node n 0).
  - by apply (keeps_abort _ _ _ Hs 0).
  - injection Hs as <-. by apply books_mark_booted.
  - injection Hs as <-. by destruct Hb.
  - injection Hs as <-. assert (Hk : keeps n (retire_reserved None keep_logger n)); [|by apply (Hk 0)].
    apply keeps_foldl; [apply _|]. intros n1 h. destruct (_ && _); [done|apply keeps_retire].
  - destruct (dispatch_step fuel hold n) as [[n1 st]|] eqn:E; cbn in Hs; simplify_eq. unfold dispatch_step in E.
    destruct hold as [h|]; [by eapply books_dispatch_held|]. pose proof (books_sched_pop n Hb) as Hp.
    destruct (sched_pop n) as [n1 [h|]]; [by eapply books_dispatch_held|by injection E as <- _].
  - destruct (exclusive_round fuel h n) as [[n1 b]|] eqn:E; cbn [mbind option_bind] in Hs; [|done]. unfold exclusive_round in E.
    assert (Hk0 : ∀ m, runs m (take_back h m)) by (intros; by apply runs_upd).
    destruct (run_service fuel h false (take_back h n)) as [[n2 r]|] eqn:Hr; cbn [mbind option_bind] in E; [|done].
    injection E as <- Hbb. pose proof (proj2 (Hk0 n 0 Hb)) as Hb0. pose proof (proj2 (runs_run_service _ _ _ _ _ _ Hr 0 Hb0)) as Hb2.
    destruct b; [|by injection Hs as <-].
    assert (Hdead : is_dead h n2 = true) by (destruct r; [done|done|by eapply run_service_dead|done]).
    unfold exclusive_finish in Hs. destruct (drain_service h (take_back h n2)) as [n3|] eqn:Hdr; cbn [mbind option_bind] in Hs; [|done].
    apply runs_drain_service in Hdr. assert (Hk2 : runs n2 (take_back h n3)) by (etrans; [apply Hk0|]; etrans; [exact Hdr|apply Hk0]).
    apply (books_destroy h _ _ (proj2 (Hk2 0 Hb2))) in Hs; [done|]. by eapply runs_dead.
Qed.

Lemma books_run os n n' : books n → node_run os n = Some n' → books n'.
Proof.
  revert n. induction os as [|o os IH]; intros n Hb Hr; cbn [node_run] in Hr; [by injection Hr as <-|].
  destruct (node_step o n) as [n1|] eqn:E; cbn [mbind option_bind] in Hr; [|done]. eapply IH; [|done]. by eapply books_step.
Qed.

(** C7 The node's books are exact.  Whatever sequence of launches, sends, kills, aborts,
    quits and turns of workers and exclusive threads a node goes through, with any
    user code: [total] is the number of ordinary services not yet destroyed, the handle
    table holds exactly the services not retired, only retired services are
    destroyed, and a booted node whose last ordinary service is gone has quit. *)
Theorem node_books_exact os n :
  node_run os node_new = Some n →
  total n = Z.of_nat (ordinary (svcs n))
  ∧ (∀ h, is_Some (grab h n) ↔ ∃ v, svcs n !! h = Some v ∧ dead v = false)
  ∧ (∀ h v, svcs n !! h = Some v → destroyed v = true → dead v = true)
  ∧ (booted n = true → ordinary (svcs n) = 0%nat → quit n = true).
Proof.
  intros Hr. destruct (books_run os node_new n books_new Hr) as [B0 B1 B2 B3 B4 B5 B6].
  split_and!; try done; [lia|]. intros Hbt Hz. apply B6; [done|lia].
Qed.

(** ** Shutting down *)

Lemma retire_unregisters me h n : books n → quit n = true → grab h (retire me h n).1 = None.
Proof.
  intros Hb Hq. unfold retire. pose proof (keeps_unregister h n 0 Hb) as Hu.
  pose proof (Handle.retire_spec id (handles n) h (bk_handles _ _ Hb)) as (_ & R2 & _ & _ & _ & R6).
  destruct (Handle.retire id h (handles n)) as [hs [c|]] eqn:Hr; cbn in R2, R6; [|done]. cbn [fst].
  set (n1 := upd c mark_dead (set_handles hs n)) in *. destruct Hu as [Hev Hb1].
  assert (Hk : keeps n1 (deliver c notify (fail_inflight me c n1)))
    by (etrans; [apply keeps_fail_inflight|apply keeps_deliver, adds_notify]).
  destruct (Hk 0 Hb1) as [Hev' _]. destruct (grab h (deliver _ _ _)) as [c'|] eqn:Hg; [|done]. exfalso.
  destruct (ev_grab _ _ _ _ Hev' Hq h) as [c1 Hc1]; [by exists c'|].
  unfold grab in Hc1. cbn in Hc1. rewrite R6, decide_True in Hc1; done.
Qed.

Lemma retire_pass_reserved me hs n :
  books n → quit n = true → ∀ h v, h ∈ hs → is_Some (grab h (retire_pass me hs n).1) →
  svcs (retire_pass me hs n).1 !! h = Some v → reserved v = true.
Proof.
  revert n. induction hs as [|h0 hs IH]; intros n Hb Hq h v Hin Hg Hv; [by apply elem_of_nil in Hin|]. cbn [retire_pass] in Hg, Hv.
  destruct (match grab h0 n with Some c => _ | None => _ end) eqn:Hskip.
  - destruct (decide (h ∈ hs)) as [?|Hn]; [by eapply IH|]. apply elem_of_cons in Hin as [->|?]; [|done].
    destruct (grab h0 n) as [c|] eqn:Hgc; [|done]. apply grab_id in Hgc as ->. destruct (svcs n !! h0) as [v0|] eqn:Hv0; [|done].
    destruct (keeps_retire_pass me hs n 0 Hb) as [[E1 _ _ _ _ _] _]. destruct (E1 h0 v0 Hv0) as (v' & Hv' & L).
    assert (v' = v) as -> by congruence. by rewrite (le_reserved _ _ L).
  - destruct (keeps_retire me h0 n 0 Hb) as [Hev Hb1]. pose proof (ev_quit _ _ _ _ Hev Hq) as Hq1.
    destruct (retire_pass me hs (retire me h0 n).1) as [n' k] eqn:Hp. cbn in Hg, Hv.
    specialize (IH (retire me h0 n).1 Hb1 Hq1). rewrite Hp in IH. cbn in IH.
    destruct (decide (h ∈ hs)) as [?|Hn]; [by eapply IH|]. apply elem_of_cons in Hin as [->|?]; [|done]. exfalso.
    pose proof (keeps_retire_pass me hs (retire me h0 n).1 0 Hb1) as [Hev' _]. rewrite Hp in Hev'.
    destruct (ev_grab _ _ _ _ Hev' Hq1 h0 Hg) as [c Hc]. by rewrite retire_unregisters in Hc.
Qed.

Lemma retire_pass_skips me hs n :
  (∀ h, h ∈ hs → ∃ v, grab h n = Some h ∧ svcs n !! h = Some v ∧ reserved v = true) → retire_pass me hs n = (n, 0%nat).
Proof.
  induction hs as [|h hs IH]; intros Hall; cbn [retire_pass]; [done|]. destruct (Hall h) as (v & -> & -> & ->); [left|].
  apply IH. intros. apply Hall. by right.
Qed.

Lemma registered_handles h n : books n → h ∈ Handle.handles id (handles n) ↔ is_Some (grab h n).
Proof.
  intros Hb. unfold Handle.handles. rewrite list_fmap_id, Handle.elem_of_contexts by apply Hb. unfold grab. split; [by eexists|].
  intros [c Hc]. pose proof (grab_id h c n Hc) as ->. done.
Qed.

Lemma quit_node_quits n : books n → quit (quit_node n) = true.
Proof.
  intros Hb. unfold quit_node, set_quit_locked. destruct (quit n) eqn:Hq; [done|].
  assert (Hk : keeps (set_quit_flag true n) (interrupt_all (set_quit_flag true n)))
    by (apply keeps_foldl; [apply _|]; intros; apply keeps_interrupt).
  destruct (Hk 0 (proj2 (keeps_set_quit n 0 Hb))) as [Hev _]. by apply (ev_quit _ _ _ _ Hev).
Qed.

(** After the node has quit, [retire_all] is over in two passes and leaves only
    reserved services registered. *)
Lemma retire_all_ends me n :
  books n → quit n = true →
  ∃ n', retire_all me n = Some n' ∧ keeps n n'
    ∧ ∀ h v, is_Some (grab h n') → svcs n' !! h = Some v → reserved v = true.
Proof.
  intros Hb Hq. unfold retire_all. cbn [retire_loop].
  pose proof (retire_pass_reserved me (Handle.handles id (handles n)) n Hb Hq) as Hres.
  pose proof (keeps_retire_pass me (Handle.handles id (handles n)) n) as Hk. destruct (Hk 0 Hb) as [Hev1 Hb1].
  destruct (retire_pass me (Handle.handles id (handles n)) n) as [n1 k] eqn:Hp. cbn in Hres, Hk, Hev1, Hb1.
  assert (Hall : ∀ h v, is_Some (grab h n1) → svcs n1 !! h = Some v → reserved v = true).
  { intros h v Hg. apply Hres; [|done]. apply registered_handles; [done|]. by apply (ev_grab _ _ _ _ Hev1 Hq). }
  assert (Hsecond : retire_pass me (Handle.handles id (handles n1)) n1 = (n1, 0%nat)).
  { apply retire_pass_skips. intros h Hh%registered_handles; [|done]. pose proof Hh as [v [Hv _]]%(bk_table _ _ Hb1).
    exists v. split_and!; [|done|by eapply Hall]. destruct Hh as [c Hc]. by rewrite (grab_id h c n1 Hc) in Hc. }
  exists n1. split; [case_decide; [done|by rewrite Hsecond]|done].
Qed.

(** C8 [abort] finishes and is final: it returns after at most two passes over the handle
    table, the node has then quit, every service still registered is a reserved one,
    and no launch is admitted any more. *)
Theorem abort_final me n :
  books n →
  ∃ n', abort me n = Some n' ∧ quit n' = true
    ∧ (∀ h v, is_Some (grab h n') → svcs n' !! h = Some v → reserved v = true)
    ∧ (∀ k args res inst, registry k = Some inst → new_service k args res n' = Some (n', inr shut_down_error)).
Proof.
  intros Hb. pose proof (quit_node_quits n Hb) as Hq. destruct (keeps_quit_node n 0 Hb) as [_ Hb0].
  destruct (retire_all_ends me (quit_node n) Hb0 Hq) as (n1 & Hr & Hk & Hall).
  pose proof (ev_quit _ _ _ _ (proj1 (Hk 0 Hb0)) Hq) as Hq1.
  exists n1. split_and!; [done..|]. intros k args res inst Hreg. unfold new_service. by rewrite Hreg, Hq1.
Qed.

(** ** Yielding *)

Lemma should_yield_mono R P n n' : evolves R P n n' → should_yield n = true → should_yield n' = true.
Proof.
  intros [_ [l Hl] Hq _ _ _]. unfold should_yield. rewrite Hl, !orb_true_iff, !negb_true_iff, !bool_decide_eq_false.
  intros [Hne|?]; [left|right; auto]. intros Hnil. apply Hne. by apply app_eq_nil in Hnil as [? _].
Qed.

Lemma run_loop_yields fuel h d n n' r :
  books n → should_yield n = true → (YIELD_INTERVAL ≤ fuel + d)%nat → (0 < fuel)%nat →
  run_loop fuel true h d n = Some (n', r) → r ≠ Unfinished.
Proof.
  revert d n. induction fuel as [|fuel IH]; intros d n Hb Hy Hle Hpos Hr; [lia|]. cbn [run_loop] in Hr.
  destruct (turn h n) as [[n1 t]|] eqn:Ht; cbn [mbind option_bind] in Hr; [|done].
  destruct (runs_turn _ _ _ _ Ht 0 Hb) as [Hev Hb1]. pose proof (should_yield_mono _ _ _ _ Hev Hy) as Hy1.
  destruct t; [| |by simplify_eq]; (destruct (is_dead h n1); [by simplify_eq|]); cbn [andb] in Hr;
    case_bool_decide; rewrite ?Hy1 in Hr; try by simplify_eq.
  - eapply (IH (Datatypes.S d)); try done; lia.
  - eapply (IH (Datatypes.S d)); try done; lia.
Qed.

(** C9 A worker gives way: while another service waits in the run queue, or the node has
    quit, [run_service] comes back to the dispatch loop after at most
    [YIELD_INTERVAL] pieces of work, also when the service's own tasks keep waking
    themselves and its mailbox never runs empty. *)
Theorem run_service_yields h n n' r :
  books n → should_yield n = true → run_service YIELD_INTERVAL h true n = Some (n', r) → r ≠ Unfinished.
Proof.
  intros Hb Hy. unfold run_service. destruct (is_dead h n); [by intros [= <- <-]|].
  apply run_loop_yields; try done; unfold YIELD_INTERVAL; lia.
Qed.

(** ** The order of dispatch *)

(** Answers to calls go to the session table; everything else is dispatched. *)
Definition is_answer (m : Message) : bool := MsgType.is_reply (mtype m) && needs_reply m.

(** The messages a service still has to dispatch, oldest first. *)
Definition backlog (v : Svc) : list Message :=
  filter (λ m, is_answer m = false) (default [] (pending_messages v) ++ fifo_list (queue (mailbox v))).

Definition dispatches (n : Node) : list (Z * Message) :=
  omap (λ o, match o with ODispatch h m => Some (h, m) | _ => None end) (outs n).

Lemma evolves_dispatches R n n' : evolves R not_dispatch n n' → dispatches n' = dispatches n.
Proof.
  intros [_ _ _ _ (l & Hl & HP) _]. unfold dispatches. rewrite Hl, omap_app.
  assert (omap (λ o, match o with ODispatch h m => Some (h, m) | _ => None end) l = []) as ->; [|by rewrite app_nil_r].
  clear Hl. induction HP as [|o l Ho HP IH]; [done|]. cbn. by destruct o.
Qed.

Lemma keeps_order n n' h v :
  keeps n n' → books n → svcs n !! h = Some v →
  dispatches n' = dispatches n ∧ ∃ v' l, svcs n' !! h = Some v' ∧ backlog v' = backlog v ++ l.
Proof.
  intros Hk Hb Hv. destruct (Hk 0 Hb) as [Hev _]. split; [by eapply evolves_dispatches|].
  destruct (ev_svcs _ _ _ _ Hev h v Hv) as (v' & Hv' & L). destruct (le_queue _ _ L) as [l Hl].
  exists v'. eexists. split; [done|]. unfold backlog. by rewrite (le_pending _ _ L), Hl, app_assoc, filter_app.
Qed.

(** [deliver] touches the mailbox of its service and nothing else. *)
Lemma svcs_deliver_ne h c f n : h ≠ c → svcs (deliver c f n) !! h = svcs n !! h.
Proof.
  intros Hne. unfold deliver. destruct (svcs n !! c) as [v|] eqn:Hv; [|done]. destruct (f (mailbox v)) as [m b].
  unfold wake. destruct b; cbn [negb]; [|by apply lookup_alter_ne]. cbn. rewrite lookup_alter_eq, Hv. cbn.
  destruct (exclusive v) eqn:He.
  - unfold interrupt. cbn. rewrite lookup_alter_eq, Hv. cbn. rewrite He. by apply lookup_alter_ne.
  - cbn. by rewrite !lookup_alter_ne.
Qed.

Lemma svcs_deliver c f n v :
  svcs n !! c = Some v →
  ∃ m, svcs (deliver c f n) !! c = Some (set_mailbox m v)
    ∧ queue m = queue (f (mailbox v)).1 ∧ ((f (mailbox v)).2 = false → m = (f (mailbox v)).1).
Proof.
  intros Hv. unfold deliver. rewrite Hv. destruct (f (mailbox v)) as [m b]. unfold wake. destruct b; cbn [negb].
  - cbn. rewrite lookup_alter_eq, Hv. cbn. destruct (exclusive v) eqn:He.
    + unfold interrupt. cbn. rewrite lookup_alter_eq, Hv. cbn. rewrite He. cbn. rewrite lookup_alter_eq, Hv. by exists m.
    + cbn. rewrite !lookup_alter_eq, Hv. cbn. eexists. split; [done|]. by split.
  - cbn. rewrite lookup_alter_eq, Hv. by exists m.
Qed.

Lemma log_lifecycle src text n h v :
  svcs n !! h = Some v → ∃ m, svcs (log src text n) !! h = Some (set_mailbox m v).
Proof.
  intros Hv. assert (Hs : ∃ m, svcs n !! h = Some (set_mailbox m v)) by (exists (mailbox v); rewrite Hv; by destruct v).
  unfold log. case_decide; [done|]. destruct (grab (logger n) n) as [c|]; [|done]. destruct (svcs n !! c) as [w|] eqn:Hw; [|done].
  destruct (dead w); [done|]. unfold push. destruct (decide (h = c)) as [->|Hne]; [|by rewrite svcs_deliver_ne].
  destruct (svcs_deliver c (push_message (mkMessage src 0 MsgType.TEXT (PBytes (text_bytes text)))) n v Hv) as (m & Hm & _). by exists m.
Qed.

Lemma handle_message_order h msg n n' v :
  books n → svcs n !! h = Some v → handle_message h msg n = Some n' →
  ∃ v' l, svcs n' !! h = Some v' ∧
    if is_answer msg then dispatches n' = dispatches n ∧ backlog v' = backlog v ++ l
    else if decide (lifecycle v = RUNNING) then dispatches n' = dispatches n ++ [(h, msg)] ∧ backlog v' = backlog v ++ l
    else dispatches n' = dispatches n ∧ ∃ q, pending_messages v = Some q ∧ pending_messages v' = Some (q ++ [msg])
      ∧ mailbox v' = mailbox v.
Proof.
  intros Hb Hv Hh. unfold handle_message in Hh. rewrite Hv in Hh. cbn [mbind option_bind] in Hh.
  change (MsgType.is_reply (mtype msg) && needs_reply msg) with (is_answer msg) in Hh. destruct (is_answer msg).
  - injection Hh as <-. set (r := if decide _ then _ else _).
    assert (Hk : keeps n (complete_session h (session msg) r (upd h count_message n)))
      by (etrans; [|apply keeps_complete_session]; by apply keeps_upd_quiet).
    destruct (keeps_order _ _ h v Hk Hb Hv) as [Hd (v' & l & Hv' & Hl)]. by exists v', l.
  - case_decide.
    + injection Hh as <-. set (n1 := emit (ODispatch h msg) (upd h count_message n)).
      assert (Hb1 : books n1).
      { assert (Hk : runs n n1) by (etrans; [|by apply keeps_emit; [apply _|]]; by apply runs_upd). by apply (Hk 0). }
      assert (Hv1 : svcs n1 !! h = Some (count_message v)) by (cbn; by rewrite lookup_alter_eq, Hv).
      destruct (keeps_order _ _ h _ (keeps_install_task h (FUser (serve v msg)) (request_of msg) (Message.source msg) n1) Hb1 Hv1)
        as [Hd (v' & l & Hv' & Hl)].
      exists v', l. split; [done|]. rewrite Hd. split; [|done].
      unfold dispatches. change (outs n1) with (outs n ++ [ODispatch h msg]). by rewrite omap_app.
    + destruct (pending_messages v) as [q|] eqn:Hp; cbn in Hh; [|done]. injection Hh as <-.
      exists (set_pending (Some (q ++ [msg])) v), []. cbn. rewrite lookup_alter_eq, Hv. split; [done|]. split; [done|]. by exists q.
Qed.

(** The report of an overload leaves the service as it was, but for its mailbox. *)
Lemma report_overload_order h n v :
  books n → svcs n !! h = Some v →
  ∃ m l, svcs (report_overload h n) !! h = Some (set_mailbox m v) ∧ books (report_overload h n)
    ∧ fifo_list (queue m) = fifo_list (queue (mailbox v)) ++ l ∧ dispatches (report_overload h n) = dispatches n.
Proof.
  intros Hb Hv. pose proof (proj2 (runs_report_overload h n 0 Hb)) as Hb'. unfold report_overload in *. rewrite Hv in *. cbn [take_overload] in *.
  set (m := set_overload 0 (mailbox v)) in *. set (n1 := upd h (set_mailbox m) n) in *.
  assert (Hv1 : svcs n1 !! h = Some (set_mailbox m v)) by (cbn; by rewrite lookup_alter_eq, Hv).
  case_decide; [|exists m, []; by rewrite app_nil_r].
  assert (Hk1 : keeps n n1).
  { apply keeps_by_upd; [apply _|]. intros w Hw. assert (w = v) as -> by congruence. split_and!; try done.
    split; try done. exists []. by rewrite app_nil_r. }
  assert (Hk : keeps n (log h "error: message queue may be overloaded" n1)) by (etrans; [exact Hk1|apply keeps_log]).
  destruct (log_lifecycle h "error: message queue may be overloaded" n1 h _ Hv1) as [m2 Hm2].
  destruct (Hk 0 Hb) as [Hev _]. destruct (ev_svcs _ _ _ _ Hev h v Hv) as (v' & Hv' & L).
  rewrite Hm2 in Hv'. injection Hv' as <-. destruct (le_queue _ _ L) as [l Hl].
  exists m2, l. split_and!; [by rewrite Hm2|done|done|by eapply evolves_dispatches].
Qed.

(** The part of a turn that takes work from the mailbox. *)
Definition mailbox_turn (h : Z) (n : Node) : option (Node * Turn) :=
  '(n, w) ← next_work h n;
  match w with
  | None => Some (n, TIdle)
  | Some w =>
      let n := match w with WMessage _ => report_overload h n | WReady _ => n end in
      n ← run_work h w n; Some (n, TWork)
  end.

Lemma mailbox_turn_order h n n' t v :
  books n → svcs n !! h = Some v → (lifecycle v = RUNNING → pending_messages v = None) → mailbox_turn h n = Some (n', t) →
  ∃ v' d l, svcs n' !! h = Some v' ∧ dispatches n' = dispatches n ++ (pair h <$> d) ∧ d ++ backlog v' = backlog v ++ l.
Proof.
  intros Hb Hv Hpend Ht. unfold mailbox_turn in Ht. destruct (next_work h n) as [[n1 o]|] eqn:Hw; cbn [mbind option_bind] in Ht; [|done].
  pose proof (proj2 (runs_next_work _ _ _ _ Hw 0 Hb)) as Hb1. unfold next_work in Hw. rewrite Hv in Hw. cbn [mbind option_bind] in Hw.
  destruct (take_work (mailbox v)) as [[m o']|] eqn:Htk; cbn [mbind option_bind] in Hw; [|done]. injection Hw as <- <-.
  apply take_work_queue in Htk. set (n1 := upd h (set_mailbox m) n) in *.
  assert (Hv1 : svcs n1 !! h = Some (set_mailbox m v)) by (cbn; by rewrite lookup_alter_eq, Hv).
  assert (Hd1 : dispatches n1 = dispatches n) by done.
  destruct o' as [[msg|[task]]|].
  - destruct (report_overload_order h n1 _ Hb1 Hv1) as (m2 & l2 & Hv2 & Hb2 & Hq2 & Hd2). cbn in Hv2, Hq2.
    set (n2 := report_overload h n1) in *. change (set_mailbox m2 (set_mailbox m v)) with (set_mailbox m2 v) in Hv2.
    destruct (run_work h (WMessage msg) n2) as [n3|] eqn:Hr; cbn [mbind option_bind] in Ht; [|done]. injection Ht as <- _.
    destruct (handle_message_order h msg n2 n3 _ Hb2 Hv2 Hr) as (v' & l & Hv' & Hcase). cbn [lifecycle set_mailbox] in Hcase.
    assert (Hbl : backlog (set_mailbox m2 v) = filter (λ m, is_answer m = false) (default [] (pending_messages v) ++ fifo_list (queue m))
      ++ filter (λ m, is_answer m = false) l2) by (unfold backlog; cbn; by rewrite Hq2, app_assoc, filter_app).
    destruct (is_answer msg) eqn:Ha.
    + destruct Hcase as [Hd Hbk]. exists v', [], (filter (λ m, is_answer m = false) l2 ++ l). split; [done|].
      split; [rewrite Hd, Hd2; by rewrite app_nil_r|]. cbn. rewrite Hbk, Hbl. unfold backlog. rewrite Htk, !filter_app.
      rewrite filter_cons_False by congruence. by rewrite <-!app_assoc.
    + case_decide as Hlc.
      * destruct Hcase as [Hd Hbk]. exists v', [msg], (filter (λ m, is_answer m = false) l2 ++ l). split; [done|].
        split; [by rewrite Hd, Hd2|]. rewrite Hbk, Hbl. unfold backlog. rewrite (Hpend Hlc), Htk. cbn [from_option app].
        rewrite filter_cons_True by done. cbn [app]. by rewrite <-app_assoc.
      * destruct Hcase as (Hd & q & Hq & Hq' & Hm'). cbn in Hq, Hm'. exists v', [], (filter (λ m, is_answer m = false) l2). split; [done|].
        split; [rewrite Hd, Hd2; by rewrite app_nil_r|]. unfold backlog. rewrite Hq', Hm', Hq, Htk. cbn.
        rewrite Hq2, <-filter_app. f_equal. by rewrite <-!app_assoc.
  - destruct (run_work h (WReady (RTask task)) n1) as [n2|] eqn:Hr; cbn [mbind option_bind] in Ht; [|done]. injection Ht as <- _.
    destruct (keeps_order n1 n2 h _ (keeps_poll_task _ _ _ _ Hr) Hb1 Hv1) as [Hd (v' & l & Hv' & Hl)].
    exists v', [], l. split; [done|]. split; [by rewrite Hd, app_nil_r|]. cbn. rewrite Hl. unfold backlog. cbn. by rewrite Htk.
  - injection Ht as <- _. exists (set_mailbox m v), [], []. split; [done|]. split; [by rewrite app_nil_r|]. unfold backlog. cbn.
    by rewrite Htk, app_nil_r.
Qed.

(** C10 Messages are dispatched in the order they arrived, also those that came while
    [init] was still running.  In every turn of [run_service], whatever user code runs
    in it: the messages dispatched in the turn followed by the backlog it leaves are
    the backlog it found followed by what arrived during the turn.  The backlog is the
    deferred messages, then the mailbox, answers to calls left out. *)
Theorem dispatch_in_order h n n' t v :
  books n → svcs n !! h = Some v → turn h n = Some (n', t) →
  ∃ v' d l, svcs n' !! h = Some v' ∧ dispatches n' = dispatches n ++ (pair h <$> d) ∧ d ++ backlog v' = backlog v ++ l.
Proof.
  intros Hb Hv Ht. unfold turn in Ht.
  assert (Hrun : is_running h n = bool_decide (lifecycle v = RUNNING)) by (unfold is_running; by rewrite Hv). rewrite Hrun in Ht.
  destruct (decide (lifecycle v = RUNNING)) as [Hl|Hl].
  2: { rewrite bool_decide_false in Ht by done. by apply (mailbox_turn_order h n n' t v). }
  rewrite bool_decide_true in Ht by done. pose proof (proj2 (runs_take_pending h n 0 Hb)) as Hb1.
  unfold take_pending in Ht, Hb1. rewrite Hv in Ht, Hb1. destruct (pending_messages v) as [[|msg q]|] eqn:Hp.
  - set (n1 := upd h (set_pending None) n) in *. assert (Hv1 : svcs n1 !! h = Some (set_pending None v)) by (cbn; by rewrite lookup_alter_eq, Hv).
    destruct (mailbox_turn_order h n1 n' t _ Hb1 Hv1 (λ _, eq_refl) Ht) as (v' & d & l & ? & Hd & Hbk).
    exists v', d, l. split_and!; [done|done|]. rewrite Hbk. unfold backlog. cbn. by rewrite Hp.
  - set (n1 := upd h (set_pending (Some q)) n) in *. assert (Hv1 : svcs n1 !! h = Some (set_pending (Some q) v)) by (cbn; by rewrite lookup_alter_eq, Hv).
    destruct (run_work h (WMessage msg) n1) as [n2|] eqn:Hr; cbn [mbind option_bind] in Ht; [|done]. injection Ht as <- _.
    destruct (handle_message_order h msg n1 n2 _ Hb1 Hv1 Hr) as (v' & l & Hv' & Hcase). cbn in Hcase.
    assert (Hb0 : backlog v = filter (λ m, is_answer m = false) [msg] ++ backlog (set_pending (Some q) v))
      by (unfold backlog; cbn [pending_messages set_pending mailbox]; rewrite Hp; by rewrite <-filter_app).
    destruct (is_answer msg) eqn:Ha.
    + destruct Hcase as [Hd Hbk]. exists v', [], l. split; [done|]. split; [by rewrite Hd, app_nil_r|]. cbn.
      rewrite Hbk, Hb0, filter_cons_False by congruence. done.
    + rewrite decide_True in Hcase by done. destruct Hcase as [Hd Hbk]. exists v', [msg], l. split; [done|].
      split; [by rewrite Hd|]. rewrite Hbk, Hb0, filter_cons_True by done. done.
  - by apply (mailbox_turn_order h n n' t v).
Qed.

(** ** Nobody is left waiting *)

(** The requests a service has on its books: of its tasks, of the messages in its
    mailbox, of the deferred ones. *)
Definition request_key (m : Message) : Z * Z := (Message.source m, session m).

Definition owed (v : Svc) : list (Z * Z) :=
  omap (λ kv, request kv.2) (slab_iter (slots (tasks v)))
  ++ (request_key <$> filter (λ m, owes_error m = true)
        (fifo_list (queue (mailbox v)) ++ default [] (pending_messages v))).

(** The messages that left through [send_raw], delivered or not. *)
Definition sents (n : Node) : list (Z * Z * MsgType.t * Z) :=
  omap (λ o, match o with OSent src dest mt s _ => Some (src, dest, mt, s) | _ => None end) (outs n).

Definition error_to (h : Z) (r : Z * Z) : Z * Z * MsgType.t * Z := (h, r.1, MsgType.ERROR, r.2).

(** Nothing sent, no handle changed. *)
Definition silent (n n' : Node) : Prop := sents n' = sents n ∧ handles n' = handles n.

#[global] Instance silent_preorder : PreOrder silent.
Proof. split; [by intros n|]. intros n1 n2 n3 [E1 E2] [E3 E4]. split; congruence. Qed.

Lemma silent_emit o n : match o with OSent _ _ _ _ _ => False | _ => True end → silent n (emit o n).
Proof. intros Ho. split; [|done]. unfold sents. cbn [outs emit]. rewrite omap_app. destruct o; cbn; by rewrite ?app_nil_r. Qed.

Lemma silent_wake h b n : silent n (wake h b n).
Proof.
  unfold wake. destruct b; cbn [negb]; [|done]. destruct (svcs n !! h) as [v|]; [|done]. destruct (exclusive v); [|done].
  unfold interrupt. destruct (svcs n !! h) as [w|]; [|done]. destruct (exclusive w); [by apply silent_emit|done].
Qed.

Lemma silent_deliver h f n : silent n (deliver h f n).
Proof.
  unfold deliver. destruct (svcs n !! h) as [v|]; [|done]. destruct (f (mailbox v)) as [m b].
  transitivity (upd h (set_mailbox m) n); [done|apply silent_wake].
Qed.

Lemma silent_wake_waker h w n : silent n (wake_waker h w n).
Proof.
  unfold wake_waker. destruct (svcs n !! h) as [v|]; [|done]. destruct (wake_by_ref w (tasks v)) as [t [k|]]; [|done].
  transitivity (upd h (set_tasks t) n); [done|apply silent_deliver].
Qed.

Lemma silent_finish_init h r n : silent n (finish_init h r n).
Proof.
  unfold finish_init. destruct (svcs n !! h) as [v|]; [|done]. set (r' := match r with inl _ => _ | inr _ => _ end).
  set (n1 := upd h _ n). transitivity n1; [done|]. unfold complete_init. destruct (svcs n1 !! h) as [v1|]; [|done].
  destruct (ticket v1); [done|]. set (n2 := upd h _ n1). transitivity n2; [done|].
  destruct (ticket_waker v1) as [[l w]|]; [apply silent_wake_waker|done].
Qed.

Lemma silent_foldl {B} (f : Node → B → Node) l n : (∀ n b, silent n (f n b)) → silent n (foldl f n l).
Proof. intros Hf. revert n. induction l as [|b l IH]; intros n; cbn; [done|]. etrans; [apply Hf|apply IH]. Qed.

(** Errors go out one per request, and do not reach the service itself once it is off
    the table. *)
Lemma send_errors_spec h rs n :
  grab h n = None →
  let n' := foldl (λ n r, send_error h r n) n rs in
  sents n' = sents n ++ (error_to h <$> rs) ∧ handles n' = handles n ∧ svcs n' !! h = svcs n !! h.
Proof.
  revert n. induction rs as [|r rs IH]; intros n Hg; cbn [foldl]; [by rewrite app_nil_r|].
  assert (Hone : sents (send_error h r n) = sents n ++ [error_to h r] ∧ handles (send_error h r n) = handles n
    ∧ svcs (send_error h r n) !! h = svcs n !! h).
  { unfold send_error, send_raw. assert (He : ∀ b, sents (emit (OSent h r.1 MsgType.ERROR r.2 b) n) = sents n ++ [error_to h r])
      by (intros b; unfold sents; cbn [outs emit]; by rewrite omap_app).
    destruct (grab r.1 n) as [c|] eqn:Hc; cbn [fst]; [|by rewrite He].
    unfold push. set (n1 := emit _ n). destruct (silent_deliver c (push_message (mkMessage h r.2 MsgType.ERROR PNone)) n1) as [E1 E2].
    rewrite E1, E2, svcs_deliver_ne; [split_and!; [apply He|done|done]|]. intros ->. pose proof (grab_id _ _ _ Hc) as Heq. rewrite <-Heq in Hc. congruence. }
  destruct Hone as (O1 & O2 & O3). destruct (IH (send_error h r n)) as (I1 & I2 & I3); [unfold grab; by rewrite O2|].
  cbn. split_and!; [by rewrite I1, O1, <-app_assoc|congruence|congruence].
Qed.

Lemma fail_messages_errors h ms n :
  fail_messages h ms n = foldl (λ n r, send_error h r n) n (request_key <$> filter (λ m, owes_error m = true) ms).
Proof.
  unfold fail_messages. revert n. induction ms as [|m ms IH]; intros n; cbn [foldl]; [done|].
  destruct (owes_error m) eqn:Ho.
  - rewrite filter_cons_True by done. apply IH.
  - rewrite filter_cons_False by congruence. apply IH.
Qed.

Lemma drop_tasks_spec h n v :
  svcs n !! h = Some v →
  silent n (drop_tasks h n) ∧ ∃ t, svcs (drop_tasks h n) !! h = Some (set_sessions t (set_tasks (Task.drain (tasks v)).1 v)).
Proof.
  intros Hv. unfold drop_tasks. rewrite Hv. destruct (Task.drain (tasks v)) as [t fs] eqn:Hd. cbn [fst].
  set (n1 := upd h (set_tasks t) n). assert (Hn1 : ∃ t', svcs n1 !! h = Some (set_sessions t' (set_tasks t v)))
    by (exists (sessions v); cbn; rewrite lookup_alter_eq, Hv; by destruct v).
  assert (Hcall : ∀ s c n, silent n (drop_call h s c n) ∧ ∀ w t', svcs n !! h = Some (set_sessions t' w) →
    ∃ t', svcs (drop_call h s c n) !! h = Some (set_sessions t' w)).
  { intros s c m. unfold drop_call. set (m1 := upd h _ m). assert (Hm : ∀ w t', svcs m !! h = Some (set_sessions t' w) →
      ∃ t', svcs m1 !! h = Some (set_sessions t' w)) by (intros w t' Hw; cbn; rewrite lookup_alter_eq, Hw; cbn; by eexists).
    destruct c; [|by split]. split; [|exact Hm]. transitivity m1; [done|by apply silent_emit]. }
  assert (Hfut : ∀ f n, silent n (drop_fut h f n) ∧ ∀ w t', svcs n !! h = Some (set_sessions t' w) →
    ∃ t', svcs (drop_fut h f n) !! h = Some (set_sessions t' w)).
  { intros f m. unfold drop_fut. split; [apply silent_foldl; intros; apply Hcall|]. intros w. revert m.
    induction (calls _) as [|sc l IH]; intros m t' Hw; cbn; [by exists t'|].
    destruct (proj2 (Hcall sc.1 sc.2 m) w t' Hw) as [t1 H1']. by eapply IH. }
  split; [transitivity n1; [done|apply silent_foldl; intros; apply Hfut]|].
  destruct Hn1 as [t0 Hn1]. clearbody n1. revert n1 t0 Hn1. clear Hd. induction fs as [|f fs IH]; intros n1 t0 Hn1; cbn; [by exists t0|].
  destruct (proj2 (Hfut f n1) _ t0 Hn1) as [t1 H1']. by eapply IH.
Qed.

Lemma slab_iter_new {B} : slab_iter (S := S) (A := B) slab_new = [].
Proof.
  destruct (slab_iter (S := S) (A := B) slab_new) as [|[k a] l] eqn:E; [done|].
  assert (Hin : (k, a) ∈ slab_iter (S := S) (A := B) slab_new) by (rewrite E; left).
  apply slab_iter_get in Hin. by rewrite slab_get_new in Hin.
Qed.

(** Waking a waiting launcher, itself perhaps: the service's own books do not change. *)
Lemma wake_waker_self h l w n v :
  svcs n !! h = Some v →
  ∃ v', svcs (wake_waker l w n) !! h = Some v' ∧ slots (tasks v') = slots (tasks v) ∧ queue (mailbox v') = queue (mailbox v)
    ∧ pending_messages v' = pending_messages v ∧ lifecycle v' = lifecycle v ∧ (held (mailbox v) → held (mailbox v')).
Proof.
  intros Hv. unfold wake_waker. destruct (svcs n !! l) as [vl|] eqn:Hvl; [|by exists v].
  destruct (wake_by_ref w (tasks vl)) as [t o] eqn:Hw. set (n1 := upd l (set_tasks t) n).
  assert (Ht : slots t = slots (tasks vl)).
  { unfold wake_by_ref in Hw. by destruct (signals (tasks vl) !! wk_signal w) as [[]|]; injection Hw as <- _. }
  destruct (decide (h = l)) as [->|Hne].
  - assert (vl = v) as -> by congruence. assert (Hv1 : svcs n1 !! l = Some (set_tasks t v)) by (cbn; by rewrite lookup_alter_eq, Hv).
    destruct o as [k|]; [|by exists (set_tasks t v)].
    destruct (svcs_deliver l (push_ready (RTask k)) n1 _ Hv1) as (m & Hm & Hq & Hst). exists (set_mailbox m (set_tasks t v)).
    cbn [mailbox set_mailbox set_tasks] in *. split_and!; try done.
    + rewrite Hq. unfold push_ready. by rewrite notify_queue.
    + unfold push_ready, notify in Hst. cbn in Hst. intros [Hs|Hs]; rewrite Hs in Hst; cbn in Hst; rewrite Hst by done; unfold held; cbn; auto.
  - exists v. assert (Hv1 : svcs n1 !! h = Some v) by (cbn; by rewrite lookup_alter_ne).
    destruct o as [k|]; [|done]. unfold wake_task. by rewrite svcs_deliver_ne.
Qed.

Lemma finish_init_failed h n v reason :
  svcs n !! h = Some v →
  ∃ v', svcs (finish_init h (inr reason) n) !! h = Some v' ∧ slots (tasks v') = slots (tasks v)
    ∧ queue (mailbox v') = queue (mailbox v) ∧ pending_messages v' = pending_messages v ∧ lifecycle v' = FAILED
    ∧ (held (mailbox v) → held (mailbox v')).
Proof.
  intros Hv. unfold finish_init. rewrite Hv. set (n1 := upd h (set_lifecycle FAILED) n).
  assert (Hv1 : svcs n1 !! h = Some (set_lifecycle FAILED v)) by (cbn; by rewrite lookup_alter_eq, Hv).
  unfold complete_init. rewrite Hv1. cbn [ticket set_lifecycle]. destruct (ticket v); [by eexists|].
  set (n2 := upd h _ n1). assert (Hv2 : svcs n2 !! h = Some (set_ticket (Some (inr reason)) None (set_lifecycle FAILED v)))
    by (unfold n2; by rewrite svcs_upd, Hv1).
  cbn [ticket_waker set_lifecycle]. destruct (ticket_waker v) as [[l w]|]; [|by eexists].
  destruct (wake_waker_self h l w n2 _ Hv2) as (v' & ? & ? & ? & ? & ? & ?). by exists v'.
Qed.

(** The stages of a pass: what each sends, and what it leaves of the service. *)
Lemma fail_inflight_spec h n v :
  grab h n = None → svcs n !! h = Some v →
  let n' := fail_inflight (Some h) h n in
  sents n' = sents n ++ (error_to h <$> omap (λ kv, request kv.2) (slab_iter (slots (tasks v))))
  ∧ handles n' = handles n ∧ ∃ t, svcs n' !! h = Some (set_tasks t v).
Proof.
  intros Hg Hv. unfold fail_inflight. rewrite decide_True by done. rewrite Hv. cbn [take_requests]. set (t := mkTaskSet _ _ _ _).
  destruct (send_errors_spec h (omap (λ kv, request kv.2) (slab_iter (slots (tasks v)))) (upd h (set_tasks t) n) Hg) as (A1 & A2 & A3).
  split_and!; [exact A1|exact A2|]. exists t. by rewrite A3, svcs_upd, Hv.
Qed.

Lemma drain_mailbox_spec h n v :
  grab h n = None → svcs n !! h = Some v →
  let n' := drain_mailbox h n in
  sents n' = sents n ++ (error_to h <$> (request_key <$> filter (λ m, owes_error m = true) (fifo_list (queue (mailbox v)))))
  ∧ handles n' = handles n
  ∧ ∃ m, svcs n' !! h = Some (set_mailbox m v) ∧ state m = state (mailbox v) ∧ fifo_list (queue m) = [].
Proof.
  intros Hg Hv. unfold drain_mailbox. rewrite Hv. destruct (drain_contents (mailbox v)) as (m & -> & D2 & D3 & _). rewrite fail_messages_errors.
  destruct (send_errors_spec h (request_key <$> filter (λ m, owes_error m = true) (fifo_list (queue (mailbox v)))) (upd h (set_mailbox m) n) Hg)
    as (A1 & A2 & A3).
  split_and!; [exact A1|exact A2|]. exists m. by rewrite A3, svcs_upd, Hv.
Qed.

Lemma drain_pending_spec h n v :
  grab h n = None → svcs n !! h = Some v →
  let n' := drain_pending h n in
  sents n' = sents n ++ (error_to h <$> (request_key <$> filter (λ m, owes_error m = true) (default [] (pending_messages v))))
  ∧ handles n' = handles n ∧ svcs n' !! h = Some (set_pending None v).
Proof.
  intros Hg Hv. unfold drain_pending. rewrite Hv. destruct (pending_messages v) as [ms|] eqn:Hp.
  - rewrite fail_messages_errors.
    destruct (send_errors_spec h (request_key <$> filter (λ m, owes_error m = true) ms) (upd h (set_pending None) n) Hg) as (A1 & A2 & A3).
    split_and!; [exact A1|exact A2|]. by rewrite A3, svcs_upd, Hv.
  - cbn. rewrite app_nil_r. split_and!; [done|done|]. rewrite Hv. f_equal. destruct v. cbn in *. by subst.
Qed.

(** One pass answers everybody on the books, and empties them. *)
Lemma cleanup_pass_spec h n v :
  grab h n = None → svcs n !! h = Some v →
  ∃ v', svcs (cleanup_pass h n) !! h = Some v' ∧ grab h (cleanup_pass h n) = None ∧ owed v' = []
    ∧ lifecycle v' ≠ INITIALIZING ∧ (held (mailbox v) → held (mailbox v'))
    ∧ (lifecycle v ≠ INITIALIZING → state (mailbox v') = state (mailbox v))
    ∧ sents (cleanup_pass h n) = sents n ++ (error_to h <$> owed v).
Proof.
  intros Hg Hv. unfold cleanup_pass. destruct (fail_inflight_spec h n v Hg Hv) as (A1 & A2 & t1 & A3).
  set (n1 := fail_inflight (Some h) h n) in *. clearbody n1.
  destruct (drop_tasks_spec h n1 _ A3) as [[B1 B2] [t2 B3]]. set (n2 := drop_tasks h n1) in *. clearbody n2. cbn [Task.drain fst tasks set_tasks] in B3.
  set (n3 := upd h (λ v, set_sessions (Session.clear (sessions v)) v) n2).
  set (v3 := set_sessions (Session.clear t2) (set_tasks (mkTaskSet slab_new (next_generation t1) 0 (signals t1)) v)).
  assert (C3 : svcs n3 !! h = Some v3) by (unfold n3; by rewrite svcs_upd, B3).
  assert (C1 : sents n3 = sents n2) by done. assert (C2 : handles n3 = handles n2) by done. clearbody n3.
  destruct (drain_mailbox_spec h n3 v3) as (D1 & D2 & m & D3 & D4 & D5); [unfold grab; by rewrite C2, B2, A2|done|].
  set (n4 := drain_mailbox h n3) in *. clearbody n4.
  destruct (drain_pending_spec h n4 (set_mailbox m v3)) as (E1 & E2 & E3); [unfold grab; by rewrite D2, C2, B2, A2|exact D3|].
  set (n5 := drain_pending h n4) in *. clearbody n5. rewrite E3.
  assert (Hs : sents n5 = sents n ++ (error_to h <$> owed v)).
  { rewrite E1, D1, C1, B1, A1. unfold owed. cbn. rewrite !fmap_app, filter_app, !fmap_app. by rewrite <-!app_assoc. }
  assert (Hh : grab h n5 = None) by (unfold grab; by rewrite E2, D2, C2, B2, A2).
  assert (Howed : ∀ v', slots (tasks v') = slab_new → fifo_list (queue (mailbox v')) = [] → pending_messages v' = None → owed v' = []).
  { intros v' O1 O2 O3. unfold owed. by rewrite O1, O2, O3, slab_iter_new. }
  set (v5 := set_pending None (set_mailbox m v3)) in *.
  assert (Hheld : held (mailbox v) → held (mailbox v5)) by (unfold held; cbn; by rewrite D4).
  change (lifecycle v5) with (lifecycle v). case_decide as Hl.
  - destruct (finish_init_failed h n5 v5 exited_early E3) as (v' & F1 & F2 & F3 & F4 & F5 & F6).
    destruct (silent_finish_init h (inr exited_early) n5) as [S1 S2]. exists v'. split; [done|].
    split; [unfold grab; rewrite S2; exact Hh|]. split; [apply Howed; [done|by rewrite F3|done]|]. split; [by rewrite F5|].
    split; [auto|]. split; [done|]. by rewrite S1.
  - exists v5. split_and!; try done. by apply Howed.
Qed.

Lemma cleanup_loop_step fuel h n v m b :
  svcs (cleanup_pass h n) !! h = Some v → release (mailbox v) = Some (m, b) →
  cleanup_loop (Datatypes.S fuel) h n =
    if b then Some (upd h (set_mailbox m) (cleanup_pass h n)) else cleanup_loop fuel h (upd h (set_mailbox m) (cleanup_pass h n)).
Proof. intros Hv Hr. cbn [cleanup_loop]. rewrite Hv. cbn [mbind option_bind]. rewrite Hr. by destruct b. Qed.

(** C6 Nobody waits for a service that is gone.  When the holder of a retired service
    cleans it up, [cleanup] comes to an end, the mailbox is released, and exactly one
    error has gone out for every request on the service's books, none for anything
    else: the requests its unfinished tasks answer for, those still in the mailbox and
    those deferred during [init]; and the books are empty afterwards. *)
Theorem cleanup_answers_all h n v :
  books n → svcs n !! h = Some v → dead v = true → held (mailbox v) →
  ∃ n' v', cleanup h n = Some n' ∧ sents n' = sents n ++ (error_to h <$> owed v)
    ∧ svcs n' !! h = Some v' ∧ owed v' = [] ∧ state (mailbox v') = IDLE.
Proof.
  intros Hb Hv Hd Hheld. assert (Hg : grab h n = None).
  { destruct (grab h n) as [c|] eqn:E; [|done]. assert (Hs : is_Some (grab h n)) by (by exists c).
    apply (bk_table _ _ Hb) in Hs as (v' & ? & ?). congruence. }
  destruct (cleanup_pass_spec h n v Hg Hv) as (v1 & A1 & A2 & A3 & A4 & A5 & _ & A7). specialize (A5 Hheld).
  unfold cleanup. destruct A5 as [Hs|Hs].
  - rewrite (cleanup_loop_step _ _ _ _ _ _ A1 ltac:(unfold release; by rewrite Hs)).
    eexists _, _. split; [done|]. split; [done|]. rewrite svcs_upd, A1. by split_and!.
  - rewrite (cleanup_loop_step _ _ _ _ _ _ A1 ltac:(unfold release; by rewrite Hs)).
    set (n1 := cleanup_pass h n) in *. clearbody n1. set (m := set_state Mailbox.RUNNING (mailbox v1)). set (n2 := upd h (set_mailbox m) n1).
    assert (Hv2 : svcs n2 !! h = Some (set_mailbox m v1)) by (unfold n2; by rewrite svcs_upd, A1).
    destruct (cleanup_pass_spec h n2 _ A2 Hv2) as (v3 & B1 & _ & B3 & _ & _ & B6 & B7). specialize (B6 A4). cbn in B6.
    rewrite (cleanup_loop_step _ _ _ _ _ _ B1 ltac:(unfold release; by rewrite B6)).
    assert (Ho : owed (set_mailbox m v1) = []) by (rewrite <-A3; done). rewrite Ho, app_nil_r in B7.
    eexists _, _. split; [done|]. split; [|rewrite svcs_upd, B1; by split_and!].
    change (sents (cleanup_pass h n2) = sents n ++ (error_to h <$> owed v)). by rewrite B7.
Qed.

End server.

(** ** A small node: services whose [init] succeeds at once and whose tasks never end *)

Section demo.

Definition demo_body (f : nat) : Prog (F := nat) := match f with O => Done None | _ => Pend f end.
Definition demo_registry (k : string) : option (Instance (F := nat)) :=
  if decide (k = "echo"%string) then Some (mkInstance false (λ _, 0%nat) (λ _, 1%nat)) else None.

Abbreviation demo_node := (Node (Q := list) (S := gmap nat) (F := nat)).

Abbreviation demo_run os := (node_run demo_body (λ _ : nat, []) demo_registry (λ _ : list Z, 0%nat) os node_new : option demo_node).

(** The node when a worker has just taken the next service. *)
Definition demo_held (os : list NodeOp) : option demo_node :=
  n ← demo_run os; Some (sched_pop (λ _, 0%nat) n).1.

Definition started : list NodeOp := [NLaunch "echo" "" false; NBooted; NDispatch 64 None].

(** Two requests from service 9: one in a task, one in the mailbox; then service 1 is
    killed while a worker holds it. *)
Definition asked : list NodeOp :=
  started ++ [NSend 9 1 MsgType.USER 5 PNone; NDispatch 64 None; NSend 9 1 MsgType.USER 6 PNone].

Definition killed : option demo_node := n ← demo_held asked; Some (retire None 1 n).1.

Lemma demo_books os n : demo_run os = Some n → books n.
Proof. apply books_run, books_new. Qed.

Lemma demo_held_books os n : demo_held os = Some n → books n.
Proof.
  unfold demo_held. destruct (demo_run os) as [n0|] eqn:E; cbn [mbind option_bind]; [|discriminate]. intros [= <-].
  by eapply books_sched_pop, demo_books.
Qed.

Lemma demo_started : ∃ n, demo_run started = Some n ∧ bool_decide (total n = 1 ∧ booted n = true) = true.
Proof. apply (some_view (λ n : demo_node, bool_decide (total n = 1 ∧ booted n = true))). vm_compute. reflexivity. Qed.

Lemma node_books_exact_witness :
  ∃ n, demo_run started = Some n ∧ total n = 1 ∧ total n = Z.of_nat (ordinary (svcs n)).
Proof.
  destruct demo_started as (n & E & Hd). apply bool_decide_eq_true in Hd as [Ht _].
  exists n. split; [exact E|]. split; [exact Ht|].
  exact (proj1 (node_books_exact demo_body (λ _, []) demo_registry (λ _, 0%nat) started n E)).
Defined.

Lemma abort_final_witness :
  ∃ n n', demo_run started = Some n ∧ abort None n = Some n' ∧ quit n' = true
    ∧ ∀ h v, is_Some (grab h n') → svcs n' !! h = Some v → reserved v = true.
Proof.
  destruct demo_started as (n & E & Hd).
  destruct (abort_final demo_registry None n (demo_books _ _ E)) as (n' & Ha & Hq & Hr & _).
  exists n, n'. exact (conj E (conj Ha (conj Hq Hr))).
Defined.

(** Two services launched, the first of them held. *)
Definition two_launched : option demo_node := demo_held [NLaunch "echo" "" false; NLaunch "echo" "" false].

Abbreviation ran_turn n := (run_service demo_body demo_registry YIELD_INTERVAL 1 true n : option (demo_node * Ran)).

Lemma demo_yield : ∃ n n' r, two_launched = Some n ∧ should_yield n = true ∧ ran_turn n = Some (n', r).
Proof.
  destruct (some_view (λ n, should_yield n && match ran_turn n with Some _ => true | None => false end) two_launched) as (n & E & Hd).
  { vm_compute. reflexivity. }
  apply andb_true_iff in Hd as [Hy Hr]. destruct (ran_turn n) as [[n' r]|] eqn:Er; [|discriminate].
  exists n, n', r. exact (conj E (conj Hy Er)).
Qed.

Lemma run_service_yields_witness :
  ∃ n n' r, two_launched = Some n ∧ ran_turn n = Some (n', r) ∧ r ≠ Unfinished.
Proof.
  destruct demo_yield as (n & n' & r & E & Hy & Er). exists n, n', r. split; [exact E|]. split; [exact Er|].
  exact (run_service_yields demo_body demo_registry 1 n n' r (demo_held_books _ _ E) Hy Er).
Defined.

(** A message that arrives before [init] has run, and the worker's first turn. *)
Definition early : option demo_node := demo_held [NLaunch "echo" "" false; NSend 9 1 MsgType.USER 5 PNone].

Abbreviation first_turn n := (turn demo_body demo_registry 1 n : option (demo_node * Turn)).

Lemma demo_early : ∃ n v n' t, early = Some n ∧ svcs n !! 1 = Some v ∧ first_turn n = Some (n', t).
Proof.
  destruct (some_view (λ n, match svcs n !! 1, first_turn n with Some _, Some _ => true | _, _ => false end) early) as (n & E & Hd).
  { vm_compute. reflexivity. }
  destruct (svcs n !! 1) as [v|] eqn:Hv; [|discriminate]. destruct (first_turn n) as [[n' t]|] eqn:Ht; [|discriminate].
  exists n, v, n', t. exact (conj E (conj Hv Ht)).
Qed.

Lemma dispatch_in_order_witness :
  ∃ n v n' t v' d l, early = Some n ∧ svcs n !! 1 = Some v ∧ first_turn n = Some (n', t)
    ∧ svcs n' !! 1 = Some v' ∧ dispatches n' = dispatches n ++ (pair 1 <$> d) ∧ d ++ backlog v' = backlog v ++ l.
Proof.
  destruct demo_early as (n & v & n' & t & E & Hv & Ht).
  destruct (dispatch_in_order demo_body demo_registry 1 n n' t v (demo_held_books _ _ E) Hv Ht) as (v' & d & l & H1 & H2 & H3).
  exists n, v, n', t, v', d, l. exact (conj E (conj Hv (conj Ht (conj H1 (conj H2 H3))))).
Defined.

Lemma demo_killed : ∃ n v, killed = Some n ∧ svcs n !! 1 = Some v
  ∧ dead v = true ∧ state (mailbox v) = NOTIFIED ∧ owed v = [(9, 5); (9, 6)].
Proof.
  destruct (some_view (λ n, match svcs n !! 1 with
    | Some v => bool_decide (dead v = true ∧ state (mailbox v) = NOTIFIED ∧ owed v = [(9, 5); (9, 6)])
    | None => false end) killed) as (n & E & Hd).
  { vm_compute. reflexivity. }
  destruct (svcs n !! 1) as [v|] eqn:Hv; [|discriminate]. apply bool_decide_eq_true in Hd. exists n, v. exact (conj E (conj Hv Hd)).
Qed.

Lemma killed_books n : killed = Some n → books n.
Proof.
  unfold killed. destruct (demo_held asked) as [n0|] eqn:E0; cbn [mbind option_bind]; [|discriminate]. intros [= <-].
  by apply (keeps_retire None 1 n0 0), (demo_held_books _ _ E0).
Qed.

Lemma cleanup_answers_all_witness :
  ∃ n n', killed = Some n ∧ cleanup (λ _, []) 1 n = Some n'
    ∧ sents n' = sents n ++ [(1, 9, MsgType.ERROR, 5); (1, 9, MsgType.ERROR, 6)].
Proof.
  destruct demo_killed as (n & v & E & Hv & Hdead & Hst & Ho).
  destruct (cleanup_answers_all (λ _, []) 1 n v (killed_books n E) Hv Hdead (or_intror Hst)) as (n' & v' & Hc & Hs & _).
  exists n, n'. split; [exact E|]. split; [exact Hc|]. rewrite Hs, Ho. reflexivity.
Defined.

End demo.
End Server.
