(* ===== verification/Monitor.v ===== *)
(** * The endless-loop monitor

    [rskynet-core/src/monitor.rs]: a worker brackets each poll with [begin] and
    [finish]; the monitor thread calls [check] every five seconds.  The two threads
    share five atomics, and a seqlock keeps the pair of handles consistent.  Each
    thread is a program counter and each step one access to shared memory; the steps
    interleave sequentially consistently.

    The theorems: a report names one poll, which had begun when the check before
    ended and was still running in the check that reports it (no false alarm, no
    mixed pair); a poll that does not return is reported by the second check; and
    the reader ends as soon as the writer is outside its write section. *)
From S2P Require Import Prelude.

Module Monitor.

(** The worker. *)
Inductive WPC : Type :=
  | Out                    (** between polls *)
  | BSeq (s d : Z)         (** [begin]: before the first [route_seq.fetch_add] *)
  | BSrc (s d : Z)         (** before the store of the source *)
  | BDst (s d : Z)         (** before the store of the destination *)
  | BEnd (s d : Z)         (** before the second [route_seq.fetch_add] *)
  | Polling (s d : Z)      (** inside the poll *)
  | FSrc | FDst | FEnd     (** [finish], inside the write section *)
  | FVer.                  (** before [version.fetch_add] *)

(** The monitor thread.  [b] is the version loaded first, [q] the sequence number. *)
Inductive MPC : Type :=
  | Rest
  | MSeq (b : Z)                    (** [read_route]: before the load of [route_seq] *)
  | MSrc (b q : Z)
  | MDst (b q s : Z)
  | MSeq2 (b q s d : Z)             (** before the second load of [route_seq] *)
  | MAfter (b s d : Z)              (** before the second load of [version] *)
  | MChecked (a s d : Z) (done : nat) (** before the load of [checked] *)
  | MStore (a : Z).                 (** before the store of [checked] *)

Record Monitor : Type := mkMonitor {
  version : Z;
  checked : Z;
  route_source : Z;
  route_destination : Z;
  route_seq : Z;
}.

Definition new : Monitor := mkMonitor 0 0 0 0 0.

Definition set_version x (m : Monitor) :=
  mkMonitor x (checked m) (route_source m) (route_destination m) (route_seq m).
Definition set_checked x (m : Monitor) :=
  mkMonitor (version m) x (route_source m) (route_destination m) (route_seq m).
Definition set_source x (m : Monitor) :=
  mkMonitor (version m) (checked m) x (route_destination m) (route_seq m).
Definition set_destination x (m : Monitor) :=
  mkMonitor (version m) (checked m) (route_source m) x (route_seq m).
Definition set_seq x (m : Monitor) :=
  mkMonitor (version m) (checked m) (route_source m) (route_destination m) x.

(** What [check] returned, with what was true around it: the polls finished when the
    version was loaded last, and the polls begun when the check before ended. *)
Record Report : Type := mkReport {
  r_source : Z;
  r_destination : Z;
  r_version : Z;
  r_done : nat;
  r_since : nat;
}.

(** The shared atomics, the two threads, and the history: the polls begun, how many
    have returned, how many had begun when the last check ended, and the reports. *)
Record Sys : Type := mkSys {
  mem : Monitor;
  worker : WPC;
  mon : MPC;
  polls : list (Z * Z);
  returned : nat;
  since : nat;
  reports : list Report;
}.

Definition init : Sys := mkSys new Out Rest [] 0 0 [].

Inductive WChoice : Type := WEnter (s d : Z) | WNext.

(** [Running::enter] starts [begin], its [Drop] runs [finish]. *)
Definition worker_step (c : WChoice) (s : Sys) : option Sys :=
  let m := mem s in
  let go m w := Some (mkSys m w (mon s) (polls s) (returned s) (since s) (reports s)) in
  match worker s, c with
  | Out, WEnter src dst =>
      Some (mkSys (set_version (version m +w 1) m) (BSeq src dst) (mon s) (polls s ++ [(src, dst)])
              (returned s) (since s) (reports s))
  | Out, WNext => None
  | _, WEnter _ _ => None
  | BSeq src dst, _ => go (set_seq (route_seq m +w 1) m) (BSrc src dst)
  | BSrc src dst, _ => go (set_source src m) (BDst src dst)
  | BDst src dst, _ => go (set_destination dst m) (BEnd src dst)
  | BEnd src dst, _ => go (set_seq (route_seq m +w 1) m) (Polling src dst)
  | Polling _ _, _ => go (set_seq (route_seq m +w 1) m) FSrc
  | FSrc, _ => go (set_source 0 m) FDst
  | FDst, _ => go (set_destination 0 m) FEnd
  | FEnd, _ => go (set_seq (route_seq m +w 1) m) FVer
  | FVer, _ =>
      Some (mkSys (set_version (version m +w 1) m) Out (mon s) (polls s) (S (returned s)) (since s) (reports s))
  end.

(** [check] with [read_route] inside it. *)
Definition monitor_step (s : Sys) : Sys :=
  let m := mem s in
  let go p := mkSys m (worker s) p (polls s) (returned s) (since s) (reports s) in
  let finish m rs := mkSys m (worker s) Rest (polls s) (returned s) (length (polls s)) (reports s ++ rs) in
  match mon s with
  | Rest => go (MSeq (version m))
  | MSeq b => if Z.testbit (route_seq m) 0 then go (MSeq b) else go (MSrc b (route_seq m))
  | MSrc b q => go (MDst b q (route_source m))
  | MDst b q x => go (MSeq2 b q x (route_destination m))
  | MSeq2 b q x y => if decide (q = route_seq m) then go (MAfter b x y) else go (MSeq b)
  | MAfter b x y =>
      if decide (b = version m) then go (MChecked (version m) x y (returned s)) else go (MStore (version m))
  | MChecked a x y k =>
      if decide (a = checked m) then
        finish m (if decide (y = 0) then [] else [mkReport x y a k (since s)])
      else go (MStore a)
  | MStore a => finish (set_checked a m) []
  end.

Inductive step : Sys → Sys → Prop :=
  | step_worker c s s' : worker_step c s = Some s' → step s s'
  | step_monitor s : step s (monitor_step s).

Definition reachable (s : Sys) : Prop := rtc step init s.

(** The sequence number advances by four per poll and the version by two; a run is
    short when neither has wrapped around. *)
Definition short (s : Sys) : Prop := 4 * Z.of_nat (length (polls s)) < 2 ^ 64.

(** ** The invariant *)

(** Program counter against the shared words, with [k] polls before the current one. *)
Record at_pc (m : Monitor) (ret k : nat) (ver off src dst : Z) : Prop := {
  at_version : version m = 2 * Z.of_nat k + ver;
  at_seq : route_seq m = 4 * Z.of_nat k + off;
  at_source : route_source m = src;
  at_destination : route_destination m = dst;
  at_returned : ret = k;
}.

Definition current (ps : list (Z * Z)) (k : nat) (src dst : Z) : Prop :=
  length ps = S k ∧ ps !! k = Some (src, dst).

Definition worker_inv (s : Sys) : Prop :=
  match worker s with
  | Out => at_pc (mem s) (returned s) (length (polls s)) 0 0 0 0
  | BSeq x y => ∃ k, current (polls s) k x y ∧ at_pc (mem s) (returned s) k 1 0 0 0
  | BSrc x y => ∃ k, current (polls s) k x y ∧ at_pc (mem s) (returned s) k 1 1 0 0
  | BDst x y => ∃ k, current (polls s) k x y ∧ at_pc (mem s) (returned s) k 1 1 x 0
  | BEnd x y => ∃ k, current (polls s) k x y ∧ at_pc (mem s) (returned s) k 1 1 x y
  | Polling x y => ∃ k, current (polls s) k x y ∧ at_pc (mem s) (returned s) k 1 2 x y
  | FSrc => ∃ k x y, current (polls s) k x y ∧ at_pc (mem s) (returned s) k 1 3 x y
  | FDst => ∃ k x y, current (polls s) k x y ∧ at_pc (mem s) (returned s) k 1 3 0 y
  | FEnd => ∃ k x y, current (polls s) k x y ∧ at_pc (mem s) (returned s) k 1 3 0 0
  | FVer => ∃ k x y, current (polls s) k x y ∧ at_pc (mem s) (returned s) k 1 4 0 0
  end.

(** The pair is no route, or that of the poll number [k] with version [b = 2k + 1]. *)
Definition route_of (ps : list (Z * Z)) (b x y : Z) : Prop :=
  y = 0 ∨ ∃ k, b = 2 * Z.of_nat k + 1 ∧ ps !! k = Some (x, y).

(** What the monitor holds is still true as long as the word it will compare again
    has not moved. *)
Definition mon_inv (s : Sys) : Prop :=
  let m := mem s in
  match mon s with
  | Rest => True
  | MSeq b => b ≤ version m
  | MSrc b q => b ≤ version m ∧ q ≤ route_seq m ∧ Z.even q = true
  | MDst b q x => b ≤ version m ∧ q ≤ route_seq m ∧ Z.even q = true ∧ (q = route_seq m → x = route_source m)
  | MSeq2 b q x y =>
      b ≤ version m ∧ q ≤ route_seq m ∧ Z.even q = true
      ∧ (q = route_seq m → x = route_source m ∧ y = route_destination m)
  | MAfter b x y => b ≤ version m ∧ (b = version m → route_of (polls s) b x y)
  | MChecked a x y k => a ≤ version m ∧ route_of (polls s) a x y ∧ Z.of_nat k = a / 2
  | MStore a => a ≤ version m
  end.

Definition good_report (ps : list (Z * Z)) (r : Report) : Prop :=
  ps !! r_done r = Some (r_source r, r_destination r)
  ∧ r_version r = 2 * Z.of_nat (r_done r) + 1
  ∧ (r_done r < r_since r)%nat ∧ r_destination r ≠ 0.

Record inv (s : Sys) : Prop := {
  inv_worker : worker_inv s;
  inv_mon : mon_inv s;
  inv_since : (since s ≤ length (polls s))%nat;
  inv_checked : checked (mem s) ≤ 2 * Z.of_nat (since s);
  inv_reports : Forall (good_report (polls s)) (reports s);
}.

Lemma good_report_mono ps ps' r : ps `prefix_of` ps' → good_report ps r → good_report ps' r.
Proof.
  intros Hp (Hl & Hv & Hs & Hd). split_and!; [by eapply prefix_lookup_Some|done..].
Qed.

Lemma route_of_mono ps ps' b x y : ps `prefix_of` ps' → route_of ps b x y → route_of ps' b x y.
Proof. intros Hp [?|(k & ? & ?)]; [by left|right]. exists k. split; [done|]. by eapply prefix_lookup_Some. Qed.

(** The version bounds the polls begun from both sides, and counts those returned. *)
Lemma version_bounds s :
  worker_inv s →
  2 * Z.of_nat (length (polls s)) - 1 ≤ version (mem s) ≤ 2 * Z.of_nat (length (polls s))
  ∧ Z.of_nat (returned s) = version (mem s) / 2.
Proof.
  unfold worker_inv, current. destruct (worker s); intros Hw; unpack;
    match goal with H : at_pc _ _ _ _ _ _ _ |- _ => destruct H end; split; try lia;
    rewrite at_version0; Z.to_euclidean_division_equations; lia.
Qed.

(** What a step of the worker does to the words the monitor reads: versions and
    sequence numbers only grow, and inside an even sequence number the route stays. *)
Record moves (s s' : Sys) : Prop := {
  mv_polls : polls s `prefix_of` polls s';
  mv_mon : mon s' = mon s;
  mv_since : since s' = since s;
  mv_reports : reports s' = reports s;
  mv_checked : checked (mem s') = checked (mem s);
  mv_version : version (mem s) ≤ version (mem s');
  mv_seq : route_seq (mem s) ≤ route_seq (mem s');
  mv_route : route_seq (mem s') = route_seq (mem s) → Z.even (route_seq (mem s)) = true →
    route_source (mem s') = route_source (mem s) ∧ route_destination (mem s') = route_destination (mem s);
}.

Lemma even_4k k o : Z.even (4 * k + o) = Z.even o.
Proof. by rewrite Z.even_add, Z.even_mul; destruct (Z.even o). Qed.

Lemma worker_step_inv c s s' :
  worker_step c s = Some s' → short s' → worker_inv s → worker_inv s' ∧ moves s s'.
Proof.
  destruct s as [[v ck rs rd q] w mo ps ret sn rp]. unfold worker_inv, worker_step, short, current.
  cbn [worker mem mon polls returned since reports version checked route_source route_destination route_seq].
  intros Hs Hshort Hw.
  destruct w, c; try discriminate Hs; injection Hs as <-; cbn [worker polls] in *; unpack;
    match goal with H : at_pc _ _ _ _ _ _ _ |- _ =>
      destruct H as [Hv Hq Hrs Hrd Hret]; cbn in Hv, Hq, Hrs, Hrd, Hret; subst end;
    rewrite ?length_app in *; cbn [length] in *.
  all: split; [try (repeat eexists; eauto; cbn [mem version checked route_source route_destination route_seq polls returned
      set_version set_seq set_source set_destination]; rewrite ?wrapping_add_small by lia; lia)|].
  all: try (split; cbn [mem version checked route_source route_destination route_seq polls mon since reports
      set_version set_seq set_source set_destination]; rewrite ?wrapping_add_small by lia;
      try done; try lia; rewrite ?even_4k; try (by intros; discriminate)).
  - exists (length ps). split; [split; [lia|by rewrite list_lookup_middle]|].
    split; cbn; rewrite ?wrapping_add_small by lia; lia.
  - by exists [(s, d)].
Qed.

Lemma mon_inv_moves s s' : moves s s' → mon_inv s → mon_inv s'.
Proof.
  intros [Hp Hm _ _ _ Hv Hq Hr]. unfold mon_inv. rewrite Hm. destruct (mon s); intros Hi; unpack.
  - done.
  - lia.
  - split_and!; [lia|lia|done].
  - split_and!; [lia|lia|done|]. intros Hq'. destruct Hr as [Hx Hy]; [lia|replace (route_seq (mem s)) with q by lia; done|]. rewrite Hx. auto with lia.
  - split_and!; [lia|lia|done|]. intros Hq'. destruct Hr as [Hx Hy]; [lia|replace (route_seq (mem s)) with q by lia; done|]. rewrite Hx, Hy. auto with lia.
  - split; [lia|]. intros ->. eapply route_of_mono; [done|]. auto with lia.
  - split_and!; [lia|by eapply route_of_mono|done].
  - lia.
Qed.

(** At an even sequence number the route is empty or that of the poll in progress. *)
Lemma even_route s :
  worker_inv s → Z.even (route_seq (mem s)) = true →
  route_of (polls s) (version (mem s)) (route_source (mem s)) (route_destination (mem s)).
Proof.
  unfold worker_inv, current, route_of. intros Hw He. destruct (worker s); unpack;
    match goal with H : at_pc _ _ _ _ _ _ _ |- _ => destruct H as [Hv Hq Hrs Hrd _] end;
    rewrite Hq, even_4k in He; try discriminate He; rewrite Hv, Hrs, Hrd; try (by left); right; eauto.
Qed.

Lemma odd_half k : (2 * k + 1) / 2 = k.
Proof. Z.to_euclidean_division_equations; lia. Qed.

Lemma worker_inv_checked a s mo sn rp :
  worker_inv s → worker_inv (mkSys (set_checked a (mem s)) (worker s) mo (polls s) (returned s) sn rp).
Proof.
  assert (Hat : ∀ ret k v o x y, at_pc (mem s) ret k v o x y → at_pc (set_checked a (mem s)) ret k v o x y)
    by (by intros * []; split).
  unfold worker_inv. destruct (worker s) eqn:Ew; cbn; rewrite ?Ew; naive_solver.
Qed.

Lemma monitor_step_inv s : inv s → inv (monitor_step s).
Proof.
  intros [Hw Hm Hs Hc Hr]. pose proof (version_bounds s Hw) as [Hvb Hret].
  assert (Hgo : ∀ p, mon_inv (mkSys (mem s) (worker s) p (polls s) (returned s) (since s) (reports s)) →
    inv (mkSys (mem s) (worker s) p (polls s) (returned s) (since s) (reports s))) by (by intros; split).
  unfold monitor_step. unfold mon_inv in Hm. destruct (mon s) as [|b|b q|b q x|b q x y|b x y|a x y k|a].
  - apply Hgo. cbn. lia.
  - destruct (Z.testbit _ 0) eqn:Hb; apply Hgo; cbn; [done|]. rewrite Z.bit0_odd in Hb.
    rewrite <-Z.negb_odd, Hb. split_and!; [done|lia|done].
  - apply Hgo. cbn. destruct Hm as (? & ? & ?). auto.
  - apply Hgo. cbn. destruct Hm as (? & ? & ? & ?). split_and!; auto.
  - destruct Hm as (Hb & _ & He & Hx). case_decide as Hq; apply Hgo; cbn; [|done]. split; [done|]. intros ->.
    destruct (Hx Hq) as [-> ->]. apply even_route; [done|by rewrite <-Hq].
  - destruct Hm as (_ & Hx). case_decide as Hb; apply Hgo; cbn; [|lia]. split_and!; [lia| |lia]. rewrite <-Hb. auto.
  - destruct Hm as (Ha & Hx & Hd). case_decide as Hk; [|apply Hgo; cbn; lia]. case_decide as Hy.
    + rewrite app_nil_r. split; [exact Hw|done|cbn; lia|cbn; lia|done].
    + split; [exact Hw|done|cbn; lia|cbn; lia|cbn]. apply Forall_app. split; [done|]. apply Forall_singleton.
      destruct Hx as [|(j & -> & Hj)]; [done|]. rewrite odd_half in Hd. assert (k = j) as -> by lia.
      split_and!; cbn; [done|lia|lia|done].
  - rewrite app_nil_r. split; [by apply worker_inv_checked|done|cbn; lia|cbn; lia|done].
Qed.

Lemma moves_inv s s' : worker_inv s' → moves s s' → inv s → inv s'.
Proof.
  intros Hw Hv [_ Hm Hs Hc Hr]. pose proof Hv as [Hp _ Es Er Ec _ _ _]. split; [done|by eapply mon_inv_moves| | |].
  - rewrite Es. apply prefix_length in Hp. lia.
  - by rewrite Ec, Es.
  - rewrite Er. eapply Forall_impl; [done|]. intros r. by apply good_report_mono.
Qed.

Lemma polls_grow s s' : step s s' → polls s `prefix_of` polls s'.
Proof.
  intros [c t t' Hs|t]; [|by unfold monitor_step; case_goal].
  unfold worker_step in Hs. destruct (worker t), c; simplify_eq/=; try done. by exists [(s0, d)].
Qed.

Lemma polls_grow_rtc s s' : rtc step s s' → polls s `prefix_of` polls s'.
Proof. induction 1 as [|s1 s2 s3 Hs _ IH]; [done|]. etrans; [by apply polls_grow|done]. Qed.

Lemma short_mono s s' : polls s `prefix_of` polls s' → short s' → short s.
Proof. intros Hp%prefix_length. unfold short. lia. Qed.

Lemma monitor_inv_reachable s : reachable s → short s → inv s.
Proof.
  intros Hr. refine (rtc_ind_r (λ s, short s → inv s) init _ _ s Hr).
  - intros _. by split.
  - intros s1 s2 _ Hs IH Hsh. pose proof (polls_grow _ _ Hs) as Hp. specialize (IH (short_mono _ _ Hp Hsh)).
    destruct Hs as [c t t' Ht|t]; [|by apply monitor_step_inv].
    destruct (worker_step_inv c t t' Ht Hsh (inv_worker _ IH)). by eapply moves_inv.
Qed.

(** No false alarm and no torn route: in every interleaving of the worker with the
    monitor thread, a report names one poll by both its handles; that poll had begun
    when the check before ended, and had not returned when the reporting check loaded
    the version for the last time. *)
Theorem reports_are_stuck_polls s r :
  reachable s → short s → r ∈ reports s →
  polls s !! r_done r = Some (r_source r, r_destination r)
  ∧ r_version r = 2 * Z.of_nat (r_done r) + 1
  ∧ (r_done r < r_since r)%nat.
Proof.
  intros Hr Hsh Hin. destruct (monitor_inv_reachable s Hr Hsh) as [_ _ _ _ Hf].
  apply (proj1 (Forall_forall _ _) Hf) in Hin. by destruct Hin as (? & ? & ? & _).
Qed.

(** ** A check with the worker at rest *)

Definition check_alone (n : nat) (s : Sys) : Sys := Nat.iter n monitor_step s.

Lemma check_alone_S n s : check_alone (S n) s = monitor_step (check_alone n s).
Proof. done. Qed.

Lemma check_alone_add n k s : check_alone (n + k) s = check_alone n (check_alone k s).
Proof. induction n as [|n IH]; [done|]. by rewrite Nat.add_succ_l, !check_alone_S, IH. Qed.

Definition set_mon (p : MPC) (s : Sys) : Sys :=
  mkSys (mem s) (worker s) p (polls s) (returned s) (since s) (reports s).

(** With the sequence number even, a check that starts reads the route in six loads;
    the seventh access compares with [checked], the eighth stores it. *)
Lemma check_loads s :
  mon s = Rest → Z.testbit (route_seq (mem s)) 0 = false →
  check_alone 6 s =
    set_mon (MChecked (version (mem s)) (route_source (mem s)) (route_destination (mem s)) (returned s)) s.
Proof.
  intros Hm Hq. rewrite !check_alone_S. change (check_alone 0 s) with s.
  set (b := version (mem s)). set (x := route_source (mem s)). set (y := route_destination (mem s)).
  replace (monitor_step s) with (set_mon (MSeq b) s) by (unfold monitor_step; by rewrite Hm).
  replace (monitor_step (set_mon (MSeq b) s)) with (set_mon (MSrc b (route_seq (mem s))) s)
    by (unfold monitor_step; cbn [mon mem set_mon]; by rewrite Hq).
  replace (monitor_step (set_mon (MSrc b (route_seq (mem s))) s))
    with (set_mon (MDst b (route_seq (mem s)) x) s) by done.
  replace (monitor_step (set_mon (MDst b (route_seq (mem s)) x) s))
    with (set_mon (MSeq2 b (route_seq (mem s)) x y) s) by done.
  replace (monitor_step (set_mon (MSeq2 b (route_seq (mem s)) x y) s))
    with (set_mon (MAfter b x y) s) by (unfold monitor_step; cbn; by rewrite decide_True).
  unfold monitor_step. cbn. by rewrite decide_True.
Qed.

Lemma check_again s :
  mon s = Rest → Z.testbit (route_seq (mem s)) 0 = false → version (mem s) = checked (mem s) →
  route_destination (mem s) ≠ 0 →
  check_alone 7 s =
    mkSys (mem s) (worker s) Rest (polls s) (returned s) (length (polls s))
      (reports s ++ [mkReport (route_source (mem s)) (route_destination (mem s)) (version (mem s)) (returned s) (since s)]).
Proof.
  intros Hm Hq Hv Hd. rewrite (check_alone_S 6), check_loads by done.
  unfold monitor_step. cbn [mon mem set_mon]. by rewrite decide_True, decide_False.
Qed.

Lemma check_first s :
  mon s = Rest → Z.testbit (route_seq (mem s)) 0 = false → version (mem s) ≠ checked (mem s) →
  check_alone 8 s =
    mkSys (set_checked (version (mem s)) (mem s)) (worker s) Rest (polls s) (returned s) (length (polls s)) (reports s).
Proof.
  intros Hm Hq Hv. rewrite (check_alone_S 7), (check_alone_S 6), check_loads by done.
  unfold monitor_step at 2. cbn [mon mem set_mon]. rewrite decide_False by done. unfold monitor_step. cbn [mon mem].
  by rewrite app_nil_r.
Qed.

(** A poll that does not return is reported: from any reachable state in which the
    worker is inside the poll of [dst] for [src], two checks of the monitor (fifteen of
    its steps, seven when it has seen this poll before) end and report exactly this
    poll. *)
Theorem stuck_poll_reported s src dst :
  reachable s → short s → worker s = Polling src dst → dst ≠ 0 → mon s = Rest →
  ∃ n r, (n ≤ 15)%nat ∧ mon (check_alone n s) = Rest ∧ reports (check_alone n s) = reports s ++ [r]
    ∧ r_source r = src ∧ r_destination r = dst ∧ r_version r = version (mem s).
Proof.
  intros Hr Hsh Hw Hd Hm. pose proof (inv_worker _ (monitor_inv_reachable s Hr Hsh)) as Hi.
  unfold worker_inv in Hi. rewrite Hw in Hi. destruct Hi as (k & _ & [Hv Hq Hs Ht _]).
  assert (Hb : Z.testbit (route_seq (mem s)) 0 = false).
  { rewrite Z.bit0_odd, <-Z.negb_even, Hq, even_4k. done. }
  destruct (decide (version (mem s) = checked (mem s))) as [He|He].
  - exists 7%nat, (mkReport src dst (version (mem s)) (returned s) (since s)). split; [lia|].
    rewrite check_again by (rewrite ?Ht; done). by rewrite Hs, Ht.
  - exists 15%nat, (mkReport src dst (version (mem s)) (returned s) (length (polls s))). split; [lia|].
    rewrite (check_alone_add 7 8), check_first by done.
    rewrite check_again by (cbn; rewrite ?Ht; done). cbn. by rewrite Hs, Ht.
Qed.

(** ** A poll of service 7 for service 3 that never returns *)

Section demo.

Definition stuck : Sys :=
  mkSys (mkMonitor 1 0 3 7 2) (Polling 3 7) Rest [(3, 7)] 0 0 [].

Lemma stuck_reachable : reachable stuck.
Proof.
  unfold reachable, init, new.
  eapply rtc_l; [eapply (step_worker (WEnter 3 7)); reflexivity|].
  do 4 (eapply rtc_l; [eapply (step_worker WNext); reflexivity|]). apply rtc_refl.
Qed.

Lemma monitor_reachable n s : reachable s → reachable (check_alone n s).
Proof.
  intros Hr. induction n as [|n IH]; [done|]. eapply rtc_r; [exact IH|]. constructor.
Qed.

Definition told : Sys :=
  mkSys (mkMonitor 1 1 3 7 2) (Polling 3 7) Rest [(3, 7)] 0 1 [mkReport 3 7 1 0 1].

Lemma told_reachable : reachable told.
Proof.
  replace told with (check_alone 15 stuck) by (vm_compute; reflexivity). apply monitor_reachable, stuck_reachable.
Qed.

Lemma reports_are_stuck_polls_witness :
  polls told !! 0%nat = Some (3, 7) ∧ 1 = 2 * Z.of_nat 0 + 1 ∧ (0 < 1)%nat.
Proof.
  exact (reports_are_stuck_polls told (mkReport 3 7 1 0 1) told_reachable eq_refl (list_elem_of_here _ _)).
Defined.

Lemma stuck_poll_reported_witness :
  ∃ n r, (n ≤ 15)%nat ∧ reports (check_alone n stuck) = [r] ∧ r_source r = 3 ∧ r_destination r = 7.
Proof.
  destruct (stuck_poll_reported stuck 3 7 stuck_reachable eq_refl eq_refl ltac:(discriminate) eq_refl)
    as (n & r & Hn & _ & Hr & Hs & Hd & _).
  exists n, r. exact (conj Hn (conj Hr (conj Hs Hd))).
Defined.

End demo.
End Monitor.
