(* ===== verification/Start.v ===== *)
(** * Starting and stopping a node

    [rskynet-core/src/start.rs]: the configuration checks, [boot], the end of
    [worker_loop], [drain] and [shutdown].  [boot] runs on the main thread while the
    workers already serve, so it is a program counter whose steps interleave with the
    steps of the node; [InitTicket::wait] is a step that is enabled once the ticket
    holds a result.  [drain] and [shutdown] run when the workers are gone; the joins
    of [shutdown] run the rest of the joined exclusive threads.

    The TOML values of the configuration are a parameter, with [is_table] and the
    deserialisation of a section's [name].  Texts are byte strings and [str::trim]
    removes ASCII white space. *)
From S2P Require Import Prelude Interfaces Message Session Task Mailbox Handle Server.
Import Server.

Module Start.

Definition LOGGER : string := "logger".
Definition SIGNAL : string := "signal".
Definition TIMER : string := "timer".
Definition BOOTSTRAP : string := "bootstrap".

(** ** The configuration *)

Section config.
Context {V : Type} (is_table : V → bool) (name_of : V → Result (option string)).

Record Config : Type := mkConfig { thread : Z; profile : bool; sections : gmap string V }.

Definition no_workers : Error := Message.Config "the number of worker threads must be positive".
Definition stray_key : Error := Message.Config "unknown configuration item outside a section".

Definition validate (c : Config) : Result unit :=
  if decide (thread c = 0) then inr no_workers else
  if forallb (λ kv, is_table kv.2) (map_to_list (sections c)) then inl tt else inr stray_key.

Definition has_section (name : string) (c : Config) : bool := bool_decide (is_Some (sections c !! name)).

Definition with_section (name : string) (v : V) (c : Config) : Config :=
  mkConfig (thread c) (profile c) (<[name := v]> (sections c)).

Definition system_kind (section fallback : string) (c : Config) : Result string :=
  match sections c !! section with
  | None => inl fallback
  | Some v => match name_of v with
              | inr e => inr e
              | inl o => inl (default fallback o)
              end
  end.

Definition is_space (c : Ascii.ascii) : bool :=
  let k := Ascii.nat_of_ascii c in Nat.eqb k 32 || (Nat.leb 9 k && Nat.leb k 13).

(** [kind.trim().is_empty()]. *)
Fixpoint blank (s : string) : bool :=
  match s with EmptyString => true | String c s => is_space c && blank s end.

(** One stanza of [boot]. *)
Record Stage : Type := mkStage {
  st_kind : Result string;
  st_args : string;
  st_system : bool;          (** skipped when the kind is blank *)
  st_reserved : bool;
  st_logger : bool;          (** becomes the node's logger *)
  st_name : option string;   (** the name it is bound to *)
  st_wait : bool;            (** [init.wait()] *)
}.

Definition reserved_stage (name : string) (is_logger : bool) (c : Config) : Stage :=
  mkStage (system_kind name name c) EmptyString true true is_logger (Some name) true.

Definition startup_stage (s : string * string) : Stage := mkStage (inl s.1) s.2 false false false None true.

Definition bootstrap_stage (c : Config) : Stage :=
  let k := system_kind BOOTSTRAP BOOTSTRAP c in
  mkStage k EmptyString true false false None (match k with inl k => bool_decide (k = BOOTSTRAP) | inr _ => true end).

Definition stages (c : Config) (startup_services : list (string * string)) : list Stage :=
  [reserved_stage LOGGER true c; reserved_stage SIGNAL false c; reserved_stage TIMER false c]
  ++ (startup_stage <$> startup_services) ++ [bootstrap_stage c].

End config.

Section start.
Context {Q : Type → Type} `{FifoLaws Q} {S : Type → Type} `{SlabLaws S} {F : Type}.
Context (body : F → Prog (F := F)) (calls : F → list (Z * bool)) (registry : string → option (Instance (F := F)))
  (pick : list Z → nat).

Abbreviation Node := (Server.Node (Q := Q) (S := S) (F := F)).
Abbreviation dispatch_step := (Server.dispatch_step body calls registry pick).
Abbreviation keeps := (Server.keeps_by (Q := Q) (S := S) (F := F) svc_le not_dispatch).
Abbreviation runs := (Server.keeps_by (Q := Q) (S := S) (F := F) svc_id anything).
Abbreviation node_step := (Server.node_step body calls registry pick).

(** ** Boot *)

(** [passed] are the services whose initialisation [boot] has waited for. *)
Inductive BootPC : Type :=
  | BNext (rest : list Stage)
  | BWait (h : Z) (st : Stage) (rest : list Stage)
  | BDone (r : Result unit).

Definition cannot_bind : Error := Service "cannot bind the name of a system service".

(** [bind_system_name]. *)
Definition bind_system_name (h : Z) (name : string) (n : Node) : Node * Result unit :=
  let '(hs, b) := Handle.register_name id h name (handles n) in
  let n := set_handles hs n in
  if b || bool_decide (Handle.find_name name (handles n) = Some h) then (n, inl tt) else (n, inr cannot_bind).

(** The end of a stanza, after the wait. *)
Definition finish_stage (h : Z) (st : Stage) (rest : list Stage) (n : Node) : Node * BootPC :=
  let n := if st_logger st then set_logger h n else n in
  match st_name st with
  | None => (n, BNext rest)
  | Some name =>
      match bind_system_name h name n with
      | (n, inl _) => (n, BNext rest)
      | (n, inr e) => (n, BDone (inr e))
      end
  end.

(** [None]: [boot] has returned, waits for an initialisation, or panicked. *)
Definition boot_step (pc : BootPC) (n : Node) : option (Node * BootPC) :=
  match pc with
  | BNext [] => Some (n, BDone (inl tt))
  | BNext (st :: rest) =>
      match st_kind st with
      | inr e => Some (n, BDone (inr e))
      | inl k =>
          if st_system st && blank k then Some (n, BNext rest) else
          '(n, r) ← new_service registry k (st_args st) (st_reserved st) n;
          Some (n, match r with inl h => BWait h st rest | inr e => BDone (inr e) end)
      end
  | BWait h st rest =>
      if st_wait st then
        v ← svcs n !! h;
        r ← ticket_result v;
        match r with
        | inl _ => Some (finish_stage h st rest n)
        | inr e => Some (n, BDone (inr e))
        end
      else Some (finish_stage h st rest n)
  | BDone _ => None
  end.

(** What [run] does with the result of [boot]. *)
Definition after_boot (r : Result unit) (n : Node) : Node :=
  match r with inl _ => mark_booted n | inr _ => quit_node n end.

(** ** Stopping *)

(** The end of [worker_loop]: the service in hand goes back to the run queue.
    [flush_local] of the scheduler moves the local queue, see [Scheduler.v]. *)
Definition worker_leave (hold : option Z) (n : Node) : Node :=
  match hold with Some h => sched_push h n | None => n end.

Definition DRAIN_BUDGET : Z := 4096.

Record Drain : Type := mkDrain { d_node : Node; d_hold : option Z; d_budgets : gmap Z Z }.

Definition drain_text : string := "error: forced out, the service does not come to rest".

(** One turn of [drain]; [run_service] needs no more than [YIELD_INTERVAL] pieces of
    work once the node has quit. *)
Definition drain_step (d : Drain) : option (Drain * option Z) :=
  '(n, step) ← dispatch_step YIELD_INTERVAL (d_hold d) (d_node d);
  match yielded step with
  | None => Some (mkDrain n (next step) (d_budgets d), None)
  | Some h =>
      let count := default 0 (d_budgets d !! h) + 1 in
      if decide (DRAIN_BUDGET ≤ count) then
        let n := match grab h n with
                 | Some _ => (retire None h (log 0 drain_text n)).1
                 | None => n
                 end in
        Some (mkDrain n (next step) (delete h (d_budgets d)), Some h)
      else Some (mkDrain n (next step) (<[h := count]> (d_budgets d)), Some h)
  end.

(** [rounds] turns at most; the flag says whether the loop was left. *)
Fixpoint drain_loop (rounds : nat) (d : Drain) : option (Drain * list Z * bool) :=
  match rounds with
  | O => Some (d, [], false)
  | Datatypes.S rounds =>
      '(d, y) ← drain_step d;
      match d_hold d with
      | None => Some (d, option_list y, true)
      | Some _ => '(d, ys, b) ← drain_loop rounds d; Some (d, option_list y ++ ys, b)
      end
  end.

Definition drain (rounds : nat) (n : Node) : option Node :=
  '(d, _, ended) ← drain_loop rounds (mkDrain n None ∅);
  match ended with true => Some (d_node d) | false => None end.

(** Joining an exclusive thread: it sees that its service is dead and finishes. *)
Definition join_exclusive (fuel : nat) (h : Z) (n : Node) : option Node :=
  '(n, b) ← exclusive_round body registry fuel h n;
  match b with true => exclusive_finish body calls registry h n | false => Some n end.

Fixpoint join_all (fuel : nat) (hs : list Z) (n : Node) : option Node :=
  match hs with
  | [] => Some n
  | h :: hs => n ← join_exclusive fuel h n; join_all fuel hs n
  end.

(** The exclusive services taken off the handle table and not finished yet. *)
Definition retired_exclusives (n : Node) : list Z :=
  (map_to_list (svcs n)).*1 ≫= λ h,
    match svcs n !! h with
    | Some v => if exclusive v && dead v && negb (destroyed v) then [h] else []
    | None => []
    end.

Definition join_retired_exclusives (fuel : nat) (n : Node) : option Node := join_all fuel (retired_exclusives n) n.

(** [fuel] bounds each drain and each joined thread. *)
Definition shutdown (fuel : nat) (n : Node) : option Node :=
  n ← drain fuel n;
  n ← retire_all None n;
  n ← drain fuel n;
  n ← join_retired_exclusives fuel n;
  let n := retire_reserved None true n in
  n ← drain fuel n;
  n ← join_retired_exclusives fuel n;
  let n := retire_reserved None false n in
  n ← drain fuel n;
  join_retired_exclusives fuel n.

(** ** How a stopping node changes *)

Record ages (n n' : Node) : Prop := {
  ag_svcs : ∀ h v, svcs n !! h = Some v → ∃ v', svcs n' !! h = Some v' ∧ svc_id v v';
  ag_quit : quit n = true → quit n' = true;
  ag_grab : quit n = true → ∀ h, is_Some (grab h n') → is_Some (grab h n);
}.

#[local] Instance ages_preorder : PreOrder ages.
Proof.
  split; [intros n; split; [intros h v Hv; by exists v|done..]|].
  intros n1 n2 n3 [S1 Q1 G1] [S2 Q2 G2]. split; [|by auto..].
  intros h v Hv. destruct (S1 h v Hv) as (v2 & Hv2 & L1). destruct (S2 h v2 Hv2) as (v3 & Hv3 & L2).
  exists v3. split; [done|by etrans].
Qed.

Lemma runs_ages k n n' : runs n n' → books_off k n → ages n n'.
Proof. intros Hk Hb. destruct (Hk k Hb) as [[E1 _ E3 _ _ E6] _]. by split. Qed.

Lemma keeps_ages k n n' : keeps n n' → books_off k n → ages n n'.
Proof. intros Hk%keeps_runs. by apply runs_ages. Qed.

(** Services and handles stay as they are. *)
Definition unmoved (n n' : Node) : Prop := svcs n' = svcs n ∧ handles n' = handles n ∧ (quit n = true → quit n' = true).

Lemma unmoved_ages n n' : unmoved n n' → ages n n'.
Proof.
  intros (E1 & E2 & E3). split; [|done|by unfold grab; rewrite E2]. intros h v Hv. exists v. by rewrite E1.
Qed.

Lemma unmoved_interrupt h (n : Node) : unmoved n (interrupt h n).
Proof. unfold interrupt, unmoved. destruct (svcs n !! h) as [v|]; [destruct (exclusive v)|]; done. Qed.

Lemma unmoved_quit_node (n : Node) : unmoved n (quit_node n).
Proof.
  unfold quit_node, set_quit_locked, interrupt_all. destruct (quit n) eqn:Hq; [done|].
  set (n0 := set_quit_flag true n). assert (H0' : unmoved n n0) by done. generalize (Handle.contexts (handles n0)).
  clearbody n0. intros hs. revert n0 H0'. induction hs as [|h hs IH]; intros n0 H0'; cbn; [done|].
  apply IH. destruct (unmoved_interrupt h n0) as (E1 & E2 & E3), H0' as (E1' & E2' & E3').
  split_and!; [congruence|congruence|auto].
Qed.

Lemma ages_upd_mailbox h f n : ages n (upd h (λ v, set_mailbox (f v) v) n).
Proof.
  split; [|done..]. intros j v Hv. destruct (decide (h = j)) as [<-|].
  - exists (set_mailbox (f v) v). by rewrite svcs_upd, Hv.
  - exists v. by rewrite svcs_upd_ne.
Qed.

Lemma ages_sched_pop n : ages n (sched_pop pick n).1.
Proof.
  unfold sched_pop. destruct (runq n) as [|q0 q]; [done|]. set (i := (_ mod _)%nat).
  destruct ((q0 :: q) !! i) as [h|]; [|done]. cbn [fst].
  etrans; [exact (ages_upd_mailbox h (λ v, Mailbox.mark_running (mailbox v)) n)|by apply unmoved_ages].
Qed.

Lemma ages_destroy h n n' : books n → is_dead h n = true → destroy calls h n = Some n' → ages n n'.
Proof.
  intros Hb Hdead Hd. unfold destroy in Hd.
  destruct (cleanup calls h n) as [n1|] eqn:Hc; cbn [mbind option_bind] in Hd; [|done].
  apply runs_cleanup in Hc. pose proof (runs_dead _ _ _ h Hc Hb Hdead) as Hdead1. destruct (Hc 0 Hb) as [_ Hb1].
  etrans; [by eapply runs_ages|]. unfold is_dead in Hdead1.
  destruct (svcs n1 !! h) as [v|] eqn:Hv; cbn [mbind option_bind] in Hd; [|done].
  destruct (destroyed v) eqn:Hds; [by injection Hd as <-|].
  pose proof (books_mark_destroyed h v n1 Hb1 Hv Hdead1 Hds) as Hm.
  assert (Ha : ages n1 (log h ("KILL " +:+ kind v) (upd h mark_destroyed n1))).
  { etrans; [|by eapply keeps_ages; [apply keeps_log|]]. split; [|done..]. intros j w Hw. destruct (decide (h = j)) as [<-|].
    - exists (mark_destroyed w). by rewrite svcs_upd, Hw.
    - exists w. by rewrite svcs_upd_ne. }
  etrans; [exact Ha|]. destruct (reserved v); [by injection Hd as <-|].
  case_decide; injection Hd as <-; [|by apply unmoved_ages]. etrans; [|apply unmoved_ages, unmoved_quit_node]. by apply unmoved_ages.
Qed.

Lemma ages_dead h n n' : ages n n' → is_dead h n = true → is_dead h n' = true.
Proof.
  intros [Ha _ _]. unfold is_dead. destruct (svcs n !! h) as [v|] eqn:Hv; [|done]. destruct (Ha h v Hv) as (v' & -> & L).
  apply (id_dead _ _ L).
Qed.

Lemma ages_sched_push h n : ages n (sched_push h n).
Proof. etrans; [exact (ages_upd_mailbox h (λ v, Mailbox.mark_queued (mailbox v)) n)|by apply unmoved_ages]. Qed.

Definition alive (h : Z) (n : Node) : Prop := ∃ v, svcs n !! h = Some v ∧ dead v = false.

Lemma turn_has h n n' t : turn body registry h n = Some (n', t) → is_Some (svcs n !! h).
Proof.
  unfold turn, is_running. intros Ht. destruct (svcs n !! h) as [v|] eqn:Hv; [done|]. unfold next_work in Ht. by rewrite Hv in Ht.
Qed.

Lemma run_loop_yielded fuel p h d n n' :
  books n → run_loop body registry fuel p h d n = Some (n', Yielded) → alive h n'.
Proof.
  revert d n. induction fuel as [|fuel IH]; intros d n Hb Hr; cbn [run_loop] in Hr; [done|].
  destruct (turn body registry h n) as [[n1 t]|] eqn:Ht; cbn [mbind option_bind] in Hr; [|done].
  pose proof (turn_has _ _ _ _ Ht) as [v Hv]. apply runs_turn in Ht. destruct (Ht 0 Hb) as [[E1 _ _ _ _ _] Hb1].
  assert (Hal : is_dead h n1 = false → alive h n1).
  { destruct (E1 h v Hv) as (v1 & Hv1 & _). unfold is_dead, alive. rewrite Hv1. eauto. }
  destruct t; [| |done]; (destruct (is_dead h n1) eqn:Hd; [done|]);
    (destruct (p && _); [destruct (should_yield n1); [injection Hr as <-; by apply Hal|]|]); by eapply IH.
Qed.

Lemma alive_ages n n' h : alive h n' → ages n n' → is_Some (svcs n !! h) → alive h n.
Proof.
  intros (v' & Hv' & Hd) [Ha _ _] [v Hv]. exists v. split; [done|]. destruct (Ha h v Hv) as (w & Hw & L).
  assert (w = v') as -> by congruence. destruct (dead v) eqn:Hdv; [|done]. by rewrite (id_dead _ _ L Hdv) in Hd.
Qed.

(** The run queue does not matter for who is alive. *)
Lemma alive_sched_pop h n : alive h n → alive h (sched_pop pick n).1.
Proof.
  intros (v & Hv & Hd). unfold sched_pop. destruct (runq n) as [|q0 q]; [by exists v|]. set (i := (_ mod _)%nat).
  destruct ((q0 :: q) !! i) as [c|]; [|by exists v]. cbn [fst]. unfold alive. cbn [svcs set_runq].
  destruct (decide (c = h)) as [->|]; [rewrite svcs_upd, Hv|rewrite svcs_upd_ne by done]; eauto.
Qed.

Lemma alive_sched_push h c n : alive h n → alive h (sched_push c n).
Proof.
  intros (v & Hv & Hd). unfold sched_push, alive. cbn [svcs set_runq].
  destruct (decide (c = h)) as [->|]; [rewrite svcs_upd, Hv|rewrite svcs_upd_ne by done]; eauto.
Qed.

Lemma dispatch_held_ages fuel h n n' st :
  books n → dispatch_held body calls registry pick fuel h n = Some (n', st) →
  ages n n' ∧ ∀ c, yielded st = Some c → c = h ∧ alive c n'.
Proof.
  intros Hb Hd. unfold dispatch_held in Hd.
  destruct (run_service body registry fuel h true n) as [[n1 r]|] eqn:Hr; cbn [mbind option_bind] in Hd; [|done].
  pose proof (runs_run_service _ _ _ _ _ _ _ _ Hr) as Hk. destruct (Hk 0 Hb) as [_ Hb1].
  pose proof (runs_ages 0 _ _ Hk Hb) as Ha. destruct r.
  - destruct (svcs n1 !! h) as [v|]; cbn [mbind option_bind] in Hd; [|done]. set (n2 := if dead v then _ else _) in Hd.
    assert (Ha2 : ages n1 n2).
    { unfold n2. destruct (dead v); [|done]. destruct (Mailbox.notify (mailbox v)) as [m b].
      etrans; [exact (ages_upd_mailbox h (λ _, m) n1)|]. destruct b; [apply ages_sched_push|done]. }
    pose proof (ages_sched_pop n2) as Hp. destruct (sched_pop pick n2). injection Hd as <- <-. split; [|done].
    etrans; [exact Ha|]. by etrans.
  - unfold run_service in Hr. destruct (is_dead h n); [done|]. pose proof (run_loop_yielded _ _ _ _ _ _ Hb Hr) as Hal.
    pose proof (ages_sched_pop n1) as Hp. pose proof (alive_sched_pop h n1 Hal) as Hal'.
    destruct (sched_pop pick n1) as [n2 [c|]]; injection Hd as <- <-; cbn in *; (split; [etrans; [exact Ha|]|intros c' [= <-]]).
    + etrans; [exact Hp|apply ages_sched_push].
    + split; [done|by apply alive_sched_push].
    + exact Hp.
    + by split.
  - apply run_service_dead in Hr. destruct (destroy calls h n1) as [n2|] eqn:Hds; cbn [mbind option_bind] in Hd; [|done].
    pose proof (ages_destroy _ _ _ Hb1 Hr Hds) as Ha2. pose proof (ages_sched_pop n2) as Hp. destruct (sched_pop pick n2).
    injection Hd as <- <-. split; [|done]. etrans; [exact Ha|]. by etrans.
  - injection Hd as <- <-. by split.
Qed.

Lemma dispatch_step_ages fuel hold n n' st :
  books n → dispatch_step fuel hold n = Some (n', st) →
  ages n n' ∧ books n' ∧ ∀ c, yielded st = Some c → alive c n'.
Proof.
  intros Hb Hd. destruct hold as [h|]; cbn in Hd.
  - destruct (dispatch_held_ages _ _ _ _ _ Hb Hd) as [? Hy]. split_and!; [done|by eapply books_dispatch_held|].
    intros c Hc. by destruct (Hy c Hc).
  - pose proof (ages_sched_pop n) as Hp. pose proof (books_sched_pop pick n Hb) as Hbp.
    destruct (sched_pop pick n) as [n1 [h|]]; [|by injection Hd as <- <-].
    destruct (dispatch_held_ages _ _ _ _ _ Hbp Hd) as [? Hy]. split_and!; [by etrans|by eapply books_dispatch_held|].
    intros c Hc. by destruct (Hy c Hc).
Qed.

(** A stopping node gains no service. *)
Lemma alive_back h n n' : ages n n' → books n → books n' → quit n = true → alive h n' → alive h n.
Proof.
  intros [_ _ Hg] Hb Hb' Hq Hal. apply (bk_table _ _ Hb). apply (Hg Hq). by apply (bk_table _ _ Hb').
Qed.

(** ** The budget of [drain] *)

Definition yields (h : Z) (ys : list Z) : Z := Z.of_nat (length (filter (λ c, c = h) ys)).

Lemma yields_app h ys zs : yields h (ys ++ zs) = yields h ys + yields h zs.
Proof. unfold yields. rewrite filter_app, length_app. lia. Qed.

Lemma yields_one h c : yields h [c] = if decide (c = h) then 1 else 0.
Proof. unfold yields. rewrite filter_cons, filter_nil. by case_decide. Qed.

(** [ys] are the services that have yielded so far. *)
Record drain_inv (d : Drain) (ys : list Z) : Prop := {
  di_books : books (d_node d);
  di_quit : quit (d_node d) = true;
  di_alive : ∀ h, alive h (d_node d) → yields h ys = default 0 (d_budgets d !! h) ∧ yields h ys < DRAIN_BUDGET;
  di_bound : ∀ h, yields h ys ≤ DRAIN_BUDGET;
}.

Lemma force_out_books h n :
  books n → quit n = true → alive h n →
  let n' := (retire None h (log 0 drain_text n)).1 in
  books n' ∧ quit n' = true ∧ ages n n' ∧ ¬ alive h n'.
Proof.
  intros Hb Hq Hal. cbn zeta. set (n1 := log 0 drain_text n).
  destruct (keeps_log 0 drain_text n 0 Hb) as [Hev1 Hb1]. pose proof (ev_quit _ _ _ _ Hev1 Hq) as Hq1.
  destruct (keeps_retire None h n1 0 Hb1) as [Hev2 Hb2]. split_and!; [done|by apply (ev_quit _ _ _ _ Hev2)| |].
  - etrans; [by eapply keeps_ages; [apply keeps_log|]|by eapply keeps_ages; [apply keeps_retire|]].
  - intros Hal2. apply (bk_table _ _ Hb2) in Hal2. rewrite retire_unregisters in Hal2 by done. by destruct Hal2.
Qed.

Lemma drain_step_inv d ys d' y :
  drain_inv d ys → drain_step d = Some (d', y) → drain_inv d' (ys ++ option_list y).
Proof.
  intros [Hb Hq Hal Hbd] Hs. unfold drain_step in Hs.
  destruct (dispatch_step _ (d_hold d) (d_node d)) as [[n st]|] eqn:Hd; cbn [mbind option_bind] in Hs; [|done].
  destruct (dispatch_step_ages _ _ _ _ _ Hb Hd) as (Ha & Hb1 & Hy). pose proof (ag_quit _ _ Ha Hq) as Hq1.
  assert (Hback : ∀ h, alive h n → alive h (d_node d)) by (intros h; by apply alive_back).
  destruct (yielded st) as [h|] eqn:Hyd; cycle 1.
  { injection Hs as <- <-. change (option_list (@None Z)) with (@nil Z). rewrite app_nil_r. split; cbn; [done|done| |done]. auto. }
  pose proof (Hy h eq_refl) as Halh. destruct (Hal h (Hback h Halh)) as [Hc Hlt]. case_decide as Hbud.
  - injection Hs as <- <-. change (option_list (Some h)) with [h].
    assert (Hg : is_Some (grab h n)) by (by apply (bk_table _ _ Hb1)). destruct Hg as [c ->].
    destruct (force_out_books h n Hb1 Hq1 Halh) as (Hb2 & Hq2 & Ha2 & Hna). split; cbn [d_node d_budgets]; [done|done| |].
    + intros j Hj. assert (h ≠ j) as Hne by (by intros ->). rewrite yields_app, yields_one, decide_False, lookup_delete_ne by done.
      rewrite Z.add_0_r. apply Hal, Hback. by eapply alive_back.
    + intros j. rewrite yields_app, yields_one. case_decide as E; [subst j; lia|]. rewrite Z.add_0_r. apply Hbd.
  - injection Hs as <- <-. change (option_list (Some h)) with [h]. split; cbn [d_node d_budgets]; [done|done| |].
    + intros j Hj. rewrite yields_app, yields_one. case_decide as E.
      * subst j. rewrite lookup_insert_eq. cbn. lia.
      * rewrite lookup_insert_ne, Z.add_0_r by done. auto.
    + intros j. rewrite yields_app, yields_one. case_decide as E; [subst j; lia|]. rewrite Z.add_0_r. apply Hbd.
Qed.

Lemma drain_loop_inv rounds d ys d' zs b :
  drain_inv d ys → drain_loop rounds d = Some (d', zs, b) → drain_inv d' (ys ++ zs).
Proof.
  revert d ys zs. induction rounds as [|rounds IH]; intros d ys zs Hi Hl; cbn [drain_loop] in Hl.
  { injection Hl as <- <- <-. by rewrite app_nil_r. }
  destruct (drain_step d) as [[d1 y]|] eqn:Hs; cbn [mbind option_bind] in Hl; [|done].
  pose proof (drain_step_inv _ _ _ _ Hi Hs) as Hi1. destruct (d_hold d1); [|by injection Hl as <- <- <-].
  destruct (drain_loop rounds d1) as [[[d2 ys2] b2]|] eqn:E; cbn [mbind option_bind] in Hl; [|done]. injection Hl as <- <- <-.
  rewrite app_assoc. by eapply IH.
Qed.

Lemma drain_inv_start n : books n → quit n = true → drain_inv (mkDrain n None ∅) [].
Proof. intros Hb Hq. split; cbn; try done. Qed.

(** [drain] gives every service its budget and no more: on a node that has quit,
    whatever the user code does and however many turns the loop takes, each service
    yields at most [DRAIN_BUDGET] times over the whole drain; after the last of them
    it is no longer registered. *)
Theorem drain_yields_bounded rounds n d ys ended :
  books n → quit n = true → drain_loop rounds (mkDrain n None ∅) = Some (d, ys, ended) →
  ∀ h, yields h ys ≤ DRAIN_BUDGET ∧ (yields h ys = DRAIN_BUDGET → grab h (d_node d) = None).
Proof.
  intros Hb Hq Hd h. destruct (drain_loop_inv _ _ [] _ _ _ (drain_inv_start n Hb Hq) Hd) as [Hb' _ Hal Hbd].
  split; [apply Hbd|]. intros He. destruct (grab h (d_node d)) as [c|] eqn:Hg; [|done]. exfalso.
  destruct (Hal h) as [_ Hlt]; [by apply (bk_table _ _ Hb'); exists c|]. cbn in Hlt. lia.
Qed.

(** ** The end of [shutdown] *)

Lemma drain_step_ages d ys d' y : drain_inv d ys → drain_step d = Some (d', y) → ages (d_node d) (d_node d').
Proof.
  intros [Hb Hq _ _] Hs. unfold drain_step in Hs.
  destruct (dispatch_step _ (d_hold d) (d_node d)) as [[n st]|] eqn:Hd; cbn [mbind option_bind] in Hs; [|done].
  destruct (dispatch_step_ages _ _ _ _ _ Hb Hd) as (Ha & Hb1 & Hy). pose proof (ag_quit _ _ Ha Hq) as Hq1.
  destruct (yielded st) as [h|]; [|by injection Hs as <- <-]. case_decide; injection Hs as <- <-; [|done]. cbn.
  destruct (grab h n); [|done]. etrans; [exact Ha|].
  by destruct (force_out_books h n Hb1 Hq1 (Hy h eq_refl)) as (_ & _ & ? & _).
Qed.

Lemma drain_loop_ages rounds d ys x : drain_inv d ys → drain_loop rounds d = Some x → ages (d_node d) (d_node x.1.1).
Proof.
  revert d ys x. induction rounds as [|k IH]; intros d ys x Hi Hd; cbn [drain_loop] in Hd; [by injection Hd as <-|].
  destruct (drain_step d) as [[d1 y]|] eqn:Hs; cbn [mbind option_bind] in Hd; [|done].
  pose proof (drain_step_inv _ _ _ _ Hi Hs) as Hi1. pose proof (drain_step_ages _ _ _ _ Hi Hs) as Ha1.
  destruct (d_hold d1); [|by injection Hd as <-].
  destruct (drain_loop k d1) as [[[d2 zs] b]|] eqn:E; cbn [mbind option_bind] in Hd; [|done]. injection Hd as <-.
  etrans; [exact Ha1|]. apply (IH _ _ _ Hi1 E).
Qed.

Lemma drain_ages rounds n n' : books n → quit n = true → drain rounds n = Some n' → ages n n' ∧ books n' ∧ quit n' = true.
Proof.
  intros Hb Hq Hd. unfold drain in Hd.
  destruct (drain_loop rounds (mkDrain n None ∅)) as [[[d ys] b]|] eqn:Hl; cbn [mbind option_bind] in Hd; [|done].
  destruct b; [|done]. injection Hd as <-. pose proof (drain_inv_start n Hb Hq) as Hi.
  destruct (drain_loop_inv _ _ [] _ _ _ Hi Hl) as [Hb' Hq' _ _]. split_and!; [exact (drain_loop_ages _ _ _ _ Hi Hl)|done..].
Qed.

Definition gone (h : Z) (n : Node) : Prop := ∃ v, svcs n !! h = Some v ∧ destroyed v = true.

Lemma gone_ages h n n' : ages n n' → gone h n → gone h n'.
Proof. intros [Ha _ _] (v & Hv & Hd). destruct (Ha h v Hv) as (v' & Hv' & L). exists v'. split; [done|by apply (id_destroyed _ _ L)]. Qed.

Lemma destroy_gone h n n' : books n → is_dead h n = true → destroy calls h n = Some n' → gone h n'.
Proof.
  intros Hb Hdead Hd. unfold destroy in Hd.
  destruct (cleanup calls h n) as [n1|] eqn:Hc; cbn [mbind option_bind] in Hd; [|done].
  apply runs_cleanup in Hc. pose proof (runs_dead _ _ _ h Hc Hb Hdead) as Hdead1. destruct (Hc 0 Hb) as [_ Hb1].
  unfold is_dead in Hdead1. destruct (svcs n1 !! h) as [v|] eqn:Hv; cbn [mbind option_bind] in Hd; [|done].
  destruct (destroyed v) eqn:Hds; [injection Hd as <-; by exists v|].
  pose proof (books_mark_destroyed h v n1 Hb1 Hv Hdead1 Hds) as Hm.
  assert (Hg : gone h (log h ("KILL " +:+ kind v) (upd h mark_destroyed n1))).
  { eapply gone_ages; [by eapply keeps_ages; [apply keeps_log|]|]. exists (mark_destroyed v). by rewrite svcs_upd, Hv. }
  destruct (reserved v); [by injection Hd as <-|]. case_decide; injection Hd as <-; [|done].
  eapply gone_ages; [apply unmoved_ages, unmoved_quit_node|done].
Qed.

Lemma join_exclusive_gone fuel h n n' :
  books n → is_dead h n = true → join_exclusive fuel h n = Some n' → ages n n' ∧ books n' ∧ gone h n'.
Proof.
  intros Hb Hdead Hj. unfold join_exclusive, exclusive_round, exclusive_finish in Hj.
  assert (Hk0 : ∀ m, runs m (take_back h m)) by (intros; by apply runs_upd).
  destruct (Hk0 n 0 Hb) as [_ Hb0]. pose proof (runs_dead _ _ _ h (Hk0 n) Hb Hdead) as Hd0.
  unfold run_service in Hj. rewrite Hd0 in Hj. cbn [mbind option_bind] in Hj. set (n0 := take_back h n) in *.
  destruct (drain_service body registry h (take_back h n0)) as [n1|] eqn:Hdr; cbn [mbind option_bind] in Hj; [|done].
  apply runs_drain_service in Hdr.
  assert (Hk : runs n (take_back h n1)).
  { etrans; [apply Hk0|]. etrans; [apply Hk0|]. etrans; [exact Hdr|apply Hk0]. }
  destruct (Hk 0 Hb) as [_ Hb2]. pose proof (runs_dead _ _ _ h Hk Hb Hdead) as Hd2. split_and!.
  - etrans; [by eapply runs_ages|by eapply ages_destroy].
  - by eapply books_destroy.
  - by eapply destroy_gone.
Qed.

Lemma join_all_gone fuel hs n n' :
  books n → (∀ h, h ∈ hs → is_dead h n = true) → join_all fuel hs n = Some n' →
  ages n n' ∧ books n' ∧ ∀ h, h ∈ hs → gone h n'.
Proof.
  revert n. induction hs as [|h hs IH]; intros n Hb Hd Hj; cbn [join_all] in Hj.
  { injection Hj as <-. split_and!; [done|done|]. intros h Hh. by apply elem_of_nil in Hh. }
  destruct (join_exclusive fuel h n) as [n1|] eqn:E; cbn [mbind option_bind] in Hj; [|done].
  destruct (join_exclusive_gone _ _ _ _ Hb (Hd h (list_elem_of_here _ _)) E) as (Ha1 & Hb1 & Hg1).
  destruct (IH n1 Hb1) as (Ha2 & Hb2 & Hg2); [|done|].
  { intros j Hj'. eapply ages_dead; [exact Ha1|]. apply Hd. by right. }
  split_and!; [by etrans|done|]. intros j [->|?]%elem_of_cons; [by eapply gone_ages|auto].
Qed.

Lemma retired_exclusives_spec h (n : Node) :
  h ∈ retired_exclusives n ↔ ∃ v, svcs n !! h = Some v ∧ exclusive v = true ∧ dead v = true ∧ destroyed v = false.
Proof.
  unfold retired_exclusives. rewrite list_elem_of_bind. split.
  - intros (j & Hj & _). destruct (svcs n !! j) as [v|] eqn:Hv; [|by apply elem_of_nil in Hj].
    destruct (exclusive v && dead v && negb (destroyed v)) eqn:E; [|by apply elem_of_nil in Hj].
    apply list_elem_of_singleton in Hj as ->. exists v. rewrite !andb_true_iff, negb_true_iff in E. by destruct E as [[]].
  - intros (v & Hv & He & Hd & Hn). exists h. rewrite Hv, He, Hd, Hn. cbn. split; [by apply list_elem_of_singleton|].
    apply list_elem_of_fmap. exists (h, v). split; [done|by apply elem_of_map_to_list].
Qed.

Lemma join_retired_spec fuel n n' :
  books n → join_retired_exclusives fuel n = Some n' → ages n n' ∧ books n' ∧ ∀ h, h ∈ retired_exclusives n → gone h n'.
Proof.
  intros Hb. apply join_all_gone; [done|]. intros h (v & Hv & _ & Hd & _)%retired_exclusives_spec. unfold is_dead. by rewrite Hv.
Qed.

Lemma keeps_retire_reserved me keep (n : Node) : keeps n (retire_reserved me keep n).
Proof. apply keeps_foldl; [apply _|]. intros n1 h. destruct (_ && _); [done|apply keeps_retire]. Qed.

(** Without a logger to keep, every registered service goes. *)
Lemma retire_reserved_all (n : Node) h : books n → quit n = true → grab h (retire_reserved None false n) = None.
Proof.
  intros Hb Hq. unfold retire_reserved. cbn [andb].
  assert (Hgen : ∀ hs (m : Node), books m → quit m = true → (is_Some (grab h m) → h ∈ hs) →
    grab h (foldl (λ n h, (retire None h n).1) m hs) = None).
  { induction hs as [|c hs IH]; intros m Hbm Hqm Hin; cbn [foldl].
    { destruct (grab h m) as [x|]; [|done]. exfalso. by eapply not_elem_of_nil, Hin. }
    destruct (keeps_retire None c m 0 Hbm) as [Hev Hb1]. apply IH; [done|by apply (ev_quit _ _ _ _ Hev)|].
    intros Hs. pose proof (ev_grab _ _ _ _ Hev Hqm h Hs) as Hm. apply Hin, elem_of_cons in Hm as [->|?]; [|done].
    rewrite retire_unregisters in Hs by done. by destruct Hs. }
  apply Hgen; [done|done|]. by apply registered_handles.
Qed.

(** What every stage of [shutdown] keeps. *)
Definition stopping (n n' : Node) : Prop := books n → quit n = true → ages n n' ∧ books n' ∧ quit n' = true.

#[local] Instance stopping_preorder : PreOrder stopping.
Proof.
  split; [by intros n|]. intros n1 n2 n3 S1 S2 Hb Hq. destruct (S1 Hb Hq) as (A1 & B1 & Q1), (S2 B1 Q1) as (A2 & B2 & Q2).
  split_and!; [by etrans|done..].
Qed.

Lemma stopping_drain rounds n n' : drain rounds n = Some n' → stopping n n'.
Proof. intros Hd Hb Hq. by eapply drain_ages. Qed.

Lemma stopping_join fuel n n' : join_retired_exclusives fuel n = Some n' → stopping n n'.
Proof.
  intros Hj Hb Hq. destruct (join_retired_spec _ _ _ Hb Hj) as (Ha & Hb' & _). split_and!; [done..|by apply (ag_quit _ _ Ha)].
Qed.

Lemma stopping_keeps n n' : keeps n n' → stopping n n'.
Proof. intros Hk Hb Hq. pose proof (keeps_ages _ _ _ Hk Hb) as Ha. split_and!; [done|by apply Hk|by apply (ag_quit _ _ Ha)]. Qed.

Create HintDb stop discriminated.
#[local] Hint Resolve stopping_drain stopping_join stopping_keeps keeps_retire_reserved : stop.

(** When [shutdown] returns, the node is empty: no handle is registered any more,
    and every exclusive service the node had, those of the system included, has been
    destroyed on its own thread. *)
Theorem shutdown_clears fuel n n' :
  books n → quit n = true → shutdown fuel n = Some n' →
  (∀ h, grab h n' = None) ∧ (∀ h v, svcs n !! h = Some v → exclusive v = true → gone h n').
Proof.
  intros Hb Hq Hs. unfold shutdown in Hs.
  destruct (drain fuel n) as [n1|] eqn:E1; cbn [mbind option_bind] in Hs; [|done].
  destruct (retire_all None n1) as [n2|] eqn:E2; cbn [mbind option_bind] in Hs; [|done].
  destruct (drain fuel n2) as [n3|] eqn:E3; cbn [mbind option_bind] in Hs; [|done].
  destruct (join_retired_exclusives fuel n3) as [n4|] eqn:E4; cbn [mbind option_bind] in Hs; [|done].
  destruct (drain fuel (retire_reserved None true n4)) as [n5|] eqn:E5; cbn [mbind option_bind] in Hs; [|done].
  destruct (join_retired_exclusives fuel n5) as [n6|] eqn:E6; cbn [mbind option_bind] in Hs; [|done].
  destruct (drain fuel (retire_reserved None false n6)) as [n7|] eqn:E7; cbn [mbind option_bind] in Hs; [|done].
  apply keeps_retire_loop in E2.
  assert (S6 : stopping n n6).
  { transitivity n1; [eauto with stop|]. transitivity n2; [eauto with stop|]. transitivity n3; [eauto with stop|].
    transitivity n4; [eauto with stop|]. transitivity (retire_reserved None true n4); [eauto with stop|].
    transitivity n5; eauto with stop. }
  destruct (S6 Hb Hq) as (A6 & B6 & Q6).
  pose proof (retire_reserved_all n6) as Hnone.
  destruct (stopping_keeps _ _ (keeps_retire_reserved None false n6) B6 Q6) as (A6' & B6' & Q6').
  destruct (stopping_drain _ _ _ E7 B6' Q6') as (A7 & B7 & Q7). destruct (join_retired_spec _ _ _ B7 Hs) as (A8 & B8 & Hg).
  assert (Hno7 : ∀ h, grab h n7 = None).
  { intros h. destruct (grab h n7) as [c|] eqn:G; [|done]. exfalso.
    destruct (ag_grab _ _ A7 Q6' h) as [c' Hc']; [by exists c|]. by rewrite Hnone in Hc'. }
  split.
  - intros h. destruct (grab h n') as [c|] eqn:G; [|done]. exfalso.
    destruct (ag_grab _ _ A8 Q7 h) as [c' Hc']; [by exists c|]. by rewrite Hno7 in Hc'.
  - intros h v Hv He. assert (A : ages n n7) by (etrans; [exact A6|]; by etrans). destruct (ag_svcs _ _ A h v Hv) as (v7 & Hv7 & L).
    assert (Hd7 : dead v7 = true).
    { destruct (dead v7) eqn:D; [done|]. exfalso. destruct (proj2 (bk_table _ _ B7 h)) as [c Hc]; [by exists v7|]. by rewrite Hno7 in Hc. }
    destruct (destroyed v7) eqn:D; [eapply gone_ages; [exact A8|by exists v7]|]. apply Hg, retired_exclusives_spec.
    exists v7. split_and!; [done|by rewrite (id_exclusive _ _ L)|done..].
Qed.

(** ** Boot among the other threads *)

Lemma ages_node_step o n n' : books n → node_step o n = Some n' → ages n n'.
Proof.
  intros Hb Hs. destruct o; cbn [Server.node_step] in Hs.
  - destruct (new_service registry k args res n) as [[n1 r]|] eqn:E; cbn in Hs; simplify_eq.
    by eapply keeps_ages; [eapply keeps_new_service|].
  - injection Hs as <-. by eapply keeps_ages; [apply keeps_send_raw|].
  - injection Hs as <-. by eapply keeps_ages; [apply keeps_retire|].
  - injection Hs as <-. apply unmoved_ages, unmoved_quit_node.
  - by eapply keeps_ages; [eapply keeps_abort|].
  - injection Hs as <-. unfold mark_booted. case_decide; [etrans; [|apply unmoved_ages, unmoved_quit_node]|]; by apply unmoved_ages.
  - injection Hs as <-. by apply unmoved_ages.
  - injection Hs as <-. by eapply keeps_ages; [apply keeps_retire_reserved|].
  - destruct (dispatch_step fuel hold n) as [[n1 st]|] eqn:E; cbn in Hs; simplify_eq.
    by destruct (dispatch_step_ages _ _ _ _ _ Hb E) as (? & _).
  - destruct (exclusive_round body registry fuel h n) as [[n1 b]|] eqn:E; cbn [mbind option_bind] in Hs; [|done].
    unfold exclusive_round in E. assert (Hk0 : ∀ m, runs m (take_back h m)) by (intros; by apply runs_upd).
    destruct (run_service body registry fuel h false (take_back h n)) as [[n2 r]|] eqn:Hr; cbn [mbind option_bind] in E; [|done].
    injection E as <- Hbb. assert (Hk2 : runs n n2) by (etrans; [apply Hk0|]; by eapply runs_run_service).
    destruct b; [|injection Hs as <-; by eapply runs_ages]. destruct (Hk2 0 Hb) as [_ Hb2].
    assert (Hdead : is_dead h n2 = true) by (destruct r; [done|done|by eapply run_service_dead|done]).
    unfold exclusive_finish in Hs. destruct (drain_service body registry h (take_back h n2)) as [n3|] eqn:Hdr; cbn [mbind option_bind] in Hs; [|done].
    apply runs_drain_service in Hdr. assert (Hk3 : runs n2 (take_back h n3)) by (etrans; [apply Hk0|]; etrans; [exact Hdr|apply Hk0]).
    etrans; [by eapply runs_ages|]. etrans; [by eapply runs_ages|]. eapply ages_destroy; [|by eapply runs_dead|done]. by apply Hk3.
Qed.

(** [launched] are the services [boot] has created, each with whether it waits for it. *)
Record Boot : Type := mkBoot { b_pc : BootPC; b_node : Node; launched : list (Z * bool) }.

Definition launches (pc : BootPC) : list (Z * bool) :=
  match pc with BWait h st _ => [(h, st_wait st)] | _ => [] end.

Inductive boot_run : Boot → Boot → Prop :=
  | run_boot pc n l n' pc' :
      boot_step pc n = Some (n', pc') →
      boot_run (mkBoot pc n l) (mkBoot pc' n' (l ++ launches pc'))
  | run_node o pc n l n' : node_step o n = Some n' → boot_run (mkBoot pc n l) (mkBoot pc n' l).

Definition init_ok (h : Z) (n : Node) : Prop := ∃ v, svcs n !! h = Some v ∧ ticket v = Some (inl tt).

Definition all_ok (l : list (Z * bool)) (n : Node) : Prop := ∀ h, (h, true) ∈ l → init_ok h n.

Record boot_inv (b : Boot) : Prop := {
  bi_books : books (b_node b);
  bi_ok : match b_pc b with
          | BNext _ | BDone (inl _) => all_ok (launched b) (b_node b)
          | BWait h st _ => ∃ l, launched b = l ++ [(h, st_wait st)] ∧ all_ok l (b_node b)
          | BDone (inr _) => ∃ l x, launched b = l ++ option_list x ∧ all_ok l (b_node b)
          end;
}.

Lemma init_ok_ages h n n' : ages n n' → init_ok h n → init_ok h n'.
Proof.
  intros [Ha _ _] (v & Hv & Ht). destruct (Ha h v Hv) as (v' & Hv' & L). exists v'. split; [done|].
  rewrite (id_ticket _ _ L); [done|by rewrite Ht].
Qed.

Lemma all_ok_ages l n n' : ages n n' → all_ok l n → all_ok l n'.
Proof. intros Ha Hl h Hh. eapply init_ok_ages; [done|auto]. Qed.

Lemma finish_stage_spec h st rest n n' pc :
  books n → finish_stage h st rest n = (n', pc) → ages n n' ∧ books n' ∧ (pc = BNext rest ∨ ∃ e, pc = BDone (inr e)).
Proof.
  intros Hb. unfold finish_stage, bind_system_name. set (n0 := if st_logger st then set_logger h n else n).
  assert (Ha0 : ages n n0) by (unfold n0; destruct (st_logger st); by apply unmoved_ages).
  assert (Hb0 : books n0) by (unfold n0; destruct (st_logger st); [by destruct Hb|done]).
  destruct (st_name st) as [name|]; [|intros [= <- <-]; eauto].
  pose proof (keeps_register_name h name n0) as Hk. destruct (Handle.register_name id h name (handles n0)) as [hs b].
  pose proof (keeps_ages _ _ _ Hk Hb0) as Ha1. destruct (Hk 0 Hb0) as [_ Hb1]. cbn [fst] in *.
  destruct (b || _); intros [= <- <-]; (split_and!; [by etrans|done|eauto]).
Qed.

Lemma boot_step_spec pc n n' pc' l :
  boot_inv (mkBoot pc n l) → boot_step pc n = Some (n', pc') → boot_inv (mkBoot pc' n' (l ++ launches pc')).
Proof.
  intros [Hb Hok] Hs. cbn in Hb, Hok. unfold boot_step in Hs. destruct pc as [[|st rest]|h st rest|r]; [| | |done].
  - injection Hs as <- <-. cbn [launches]. rewrite app_nil_r. by split.
  - destruct (st_kind st) as [k|e]; cycle 1.
    { injection Hs as <- <-. cbn [launches]. rewrite app_nil_r. split; [done|]. exists l, None. by rewrite app_nil_r. }
    destruct (st_system st && blank k); [injection Hs as <- <-; cbn [launches]; rewrite app_nil_r; by split|].
    destruct (new_service registry k (st_args st) (st_reserved st) n) as [[n1 r]|] eqn:E; cbn [mbind option_bind] in Hs; [|done].
    injection Hs as <- <-. apply keeps_new_service in E. pose proof (keeps_ages _ _ _ E Hb) as Ha. destruct (E 0 Hb) as [_ Hb1].
    pose proof (all_ok_ages _ _ _ Ha Hok) as Hok1. destruct r as [h|e]; cbn [launches]; (split; [done|]).
    + exists l. by split.
    + exists l, None. by rewrite !app_nil_r.
  - assert (Hfin : ∀ x, finish_stage h st rest n = x → (st_wait st = true → init_ok h n) →
      boot_inv (mkBoot x.2 x.1 (l ++ launches x.2))).
    { intros [n2 pc2] Hf Hh. destruct (finish_stage_spec _ _ _ _ _ _ Hb Hf) as (Ha & Hb2 & Hpc). destruct Hok as (l0 & -> & Hl).
      assert (Hall : all_ok (l0 ++ [(h, st_wait st)]) n2).
      { intros j [Hj|[= -> Hw]%list_elem_of_singleton]%elem_of_app; eapply init_ok_ages; eauto. }
      destruct Hpc as [->|[e ->]]; cbn [launches fst snd]; rewrite app_nil_r; (split; [done|]); [done|].
      exists (l0 ++ [(h, st_wait st)]), None. by rewrite app_nil_r. }
    destruct (st_wait st) eqn:Hw; [|injection Hs as Hs; apply Hfin in Hs; [done|by intros]].
    destruct (svcs n !! h) as [v|] eqn:Hv; cbn [mbind option_bind] in Hs; [|done]. unfold ticket_result in Hs.
    destruct (ticket v) as [[[]|e]|] eqn:Ht; cbn [mbind option_bind] in Hs; [| |done].
    + injection Hs as Hs. apply Hfin in Hs; [done|]. intros _. by exists v.
    + injection Hs as <- <-. destruct Hok as (l0 & -> & Hl). cbn [launches]. rewrite app_nil_r. split; [done|].
      by exists l0, (Some (h, true)).
Qed.

(** C11 [boot] takes its services in order: among the threads of a running node, when
    [boot] creates a service, every service it created before and has to wait for has
    finished its initialisation successfully; and when [boot] returns success, so have
    all of them. *)
Theorem boot_waits sts b :
  rtc boot_run (mkBoot (BNext sts) node_new []) b →
  (∀ i j h, launched b !! i = Some (h, true) → (i < j)%nat → is_Some (launched b !! j) → init_ok h (b_node b))
  ∧ (b_pc b = BDone (inl tt) → ∀ h, (h, true) ∈ launched b → init_ok h (b_node b)).
Proof.
  intros Hr. assert (Hi : boot_inv b).
  { refine (rtc_ind_r boot_inv _ _ _ b Hr).
    - split; [apply books_new|]. intros h Hh. by apply elem_of_nil in Hh.
    - intros b1 b2 _ Hs Hi. destruct Hs as [pc n l n' pc' Hs|o pc n l n' Hs]; [by eapply boot_step_spec|].
      destruct Hi as [Hb Hok]. cbn in Hb, Hok. pose proof (ages_node_step _ _ _ Hb Hs) as Ha.
      split; [by eapply books_step|]. cbn. destruct pc as [rest|h st rest|[[]|e]].
      + by eapply all_ok_ages.
      + destruct Hok as (l0 & ? & ?). exists l0. split; [done|by eapply all_ok_ages].
      + by eapply all_ok_ages.
      + destruct Hok as (l0 & x & ? & ?). exists l0, x. split; [done|by eapply all_ok_ages]. }
  destruct Hi as [_ Hok]. split; [|intros E; by rewrite E in Hok].
  intros i j h Hi Hij [x Hj]. assert (Hsplit : ∃ l y, launched b = l ++ option_list y ∧ all_ok l (b_node b)).
  { destruct (b_pc b) as [rest|c st rest|[[]|e]]; [exists (launched b), None; by rewrite app_nil_r| |
      exists (launched b), None; by rewrite app_nil_r|done]. destruct Hok as (l & Hl & ?). by exists l, (Some (c, st_wait st)). }
  destruct Hsplit as (l & y & Hl & Hall). apply Hall. apply list_elem_of_lookup. exists i.
  apply lookup_lt_Some in Hj. rewrite Hl in Hi, Hj. rewrite length_app in Hj.
  assert (length (option_list y) ≤ 1)%nat by (destruct y; cbn; lia). by rewrite lookup_app_l in Hi by lia.
Qed.

End start.

(** ** Two services that keep each other busy *)

Section pingpong.

(** Services 1 and 2 answer every message with a message to the other. *)
Definition hit (peer : Z) : Prog (F := nat) := Send (AHandle peer) MsgType.USER PNone (λ _, Done None).

Definition pp_body (f : nat) : Prog (F := nat) :=
  match f with 1%nat => hit 1 | 2%nat => hit 2 | _ => Done None end.

Definition pp_registry (k : string) : option (Instance (F := nat)) :=
  if decide (k = "ping"%string) then Some (mkInstance false (λ _, 0%nat) (λ _, 2%nat)) else
  if decide (k = "pong"%string) then Some (mkInstance false (λ _, 0%nat) (λ _, 1%nat)) else None.

Abbreviation pp_node := (Server.Node (Q := list) (S := gmap nat) (F := nat)).
Abbreviation pp_svc := (Server.Svc (Q := list) (S := gmap nat) (F := nat)).
Abbreviation pp_tasks := (Task.TaskSet (S := gmap nat) (F := Fut (F := nat))).

(** The mailbox of the player at rest, and of the one with the ball. *)
Definition resting : Mailbox.Mailbox (Q := list) := Mailbox.mkMailbox [] [] 0 Mailbox.IDLE 0 Mailbox.OVERLOAD_THRESHOLD 1.
Definition serving (from : Z) : Mailbox.Mailbox (Q := list) :=
  Mailbox.mkMailbox [mkMessage from 0 MsgType.USER PNone] [] 1 Mailbox.RUNNING 0 Mailbox.OVERLOAD_THRESHOLD 1.

(** A running service without tasks that plays against [peer]. *)
Record player (peer : Z) (v : pp_svc) : Prop := {
  pl_exclusive : exclusive v = false;
  pl_dead : dead v = false;
  pl_lifecycle : lifecycle v = RUNNING;
  pl_pending : pending_messages v = None;
  pl_serve : ∀ m, pp_body (serve v m) = hit peer;
  pl_slots : Task.slots (tasks v) = ∅;
}.

(** [a] holds the ball and the worker holds [a]. *)
Record rally (a b : Z) (n : pp_node) : Prop := {
  ra_a : ∃ v, svcs n !! a = Some v ∧ player b v ∧ mailbox v = serving b;
  ra_b : ∃ v, svcs n !! b = Some v ∧ player a v ∧ mailbox v = resting;
  ra_grab : grab a n = Some a ∧ grab b n = Some b;
  ra_runq : runq n = [];
}.

Lemma upd_at (h : Z) f (n : pp_node) v : svcs n !! h = Some v → upd h f n = set_svcs (<[h := f v]> (svcs n)) n.
Proof. intros Hv. unfold upd. f_equal. apply map_eq. intros j. destruct (decide (h = j)) as [<-|].
  - by rewrite lookup_alter_eq, lookup_insert_eq, Hv.
  - by rewrite lookup_alter_ne, lookup_insert_ne.
Qed.

(** The player takes the message: a task that will hit the ball. *)
Lemma rally_message a b n v :
  a ≠ b → svcs n !! a = Some v → player b v → mailbox v = serving b →
  ∃ n1 v1 t, turn pp_body pp_registry a n = Some (n1, TWork) ∧ svcs n1 = <[a := v1]> (svcs n) ∧ handles n1 = handles n ∧ runq n1 = runq n
    ∧ exclusive v1 = false ∧ dead v1 = false ∧ lifecycle v1 = RUNNING ∧ pending_messages v1 = None ∧ serve v1 = serve v
    ∧ mailbox v1 = Mailbox.mkMailbox [] [Mailbox.RTask t] 0 Mailbox.NOTIFIED 0 Mailbox.OVERLOAD_THRESHOLD 0
    ∧ ∃ sl, Task.slots (tasks v1) = {[Task.index t := sl]} ∧ Task.slot_generation sl = Task.generation t
        ∧ Task.future sl = Some (FUser (serve v (mkMessage b 0 MsgType.USER PNone))).
Proof.
  intros Hab Hv [Px Pd Pl Pp Ps Pt] Hm. unfold turn, is_running, take_pending. rewrite Hv, bool_decide_true by done. rewrite Pp.
  unfold next_work. rewrite Hv. cbn [mbind option_bind]. rewrite Hm.
  change (Mailbox.take_work (serving b)) with
    (Some (Mailbox.mkMailbox (Q := list) [] [] 0 Mailbox.RUNNING 0 Mailbox.OVERLOAD_THRESHOLD 0,
           Some (Mailbox.WMessage (mkMessage b 0 MsgType.USER PNone)))). cbn [mbind option_bind].
  set (m0 := Mailbox.mkMailbox [] [] 0 Mailbox.RUNNING 0 Mailbox.OVERLOAD_THRESHOLD 0). rewrite (upd_at a _ n v Hv).
  unfold report_overload. cbn [svcs set_svcs]. rewrite lookup_insert_eq. cbn [Mailbox.take_overload mailbox set_mailbox].
  change (Mailbox.set_overload 0 m0) with m0. change (Mailbox.overload m0) with 0. rewrite decide_False by lia.
  erewrite upd_at by (cbn [svcs set_svcs]; apply lookup_insert_eq). cbn [svcs set_svcs]. rewrite insert_insert_eq.
  unfold run_work, handle_message. cbn [svcs set_svcs]. rewrite lookup_insert_eq. cbn [mbind option_bind mtype].
  change (MsgType.is_reply MsgType.USER) with false. cbn [andb].
  rewrite (decide_True (P := lifecycle (set_mailbox m0 (set_mailbox m0 v)) = RUNNING)) by done.
  erewrite upd_at by (cbn [svcs set_svcs]; apply lookup_insert_eq).
  unfold install_task. cbn [svcs set_svcs emit]. rewrite lookup_insert_eq. unfold Task.insert.
  cbn [tasks count_message set_mailbox]. set (t := mkTaskId _ _). set (sl := Task.mkSlot _ _ _ _ _ _).
  erewrite upd_at by (cbn [svcs set_svcs emit]; apply lookup_insert_eq). unfold wake_task, deliver. cbn [svcs set_svcs emit].
  rewrite lookup_insert_eq. cbn [mailbox set_tasks count_message set_mailbox].
  change (Mailbox.push_ready (Mailbox.RTask t) m0) with
    (Mailbox.mkMailbox (Q := list) [] [Mailbox.RTask t] 0 Mailbox.NOTIFIED 0 Mailbox.OVERLOAD_THRESHOLD 0, false).
  cbn [wake negb]. erewrite upd_at by (cbn [svcs set_svcs emit]; apply lookup_insert_eq). cbn [mbind option_bind].
  eexists _, _, t. split; [reflexivity|]. cbn [svcs set_svcs emit handles runq]. rewrite !insert_insert_eq.
  split; [reflexivity|]. cbn. split_and!; try done. exists sl. by rewrite Pt.
Qed.

(** The task hits the ball: the other player is queued with it. *)
Lemma rally_hit a b n v w t sl f :
  a ≠ b → svcs n !! a = Some v → svcs n !! b = Some w → grab b n = Some b → runq n = [] →
  exclusive v = false → dead v = false → lifecycle v = RUNNING → pending_messages v = None →
  mailbox v = Mailbox.mkMailbox [] [Mailbox.RTask t] 0 Mailbox.NOTIFIED 0 Mailbox.OVERLOAD_THRESHOLD 0 →
  Task.slots (tasks v) = {[Task.index t := sl]} → Task.slot_generation sl = Task.generation t →
  Task.future sl = Some (FUser f) → pp_body f = hit b →
  exclusive w = false → mailbox w = resting →
  ∃ n1 v1, turn pp_body pp_registry a n = Some (n1, TWork)
    ∧ svcs n1 = <[b := set_mailbox (Mailbox.mark_queued (serving a)) w]> (<[a := v1]> (svcs n))
    ∧ handles n1 = handles n ∧ runq n1 = [b]
    ∧ exclusive v1 = false ∧ dead v1 = false ∧ lifecycle v1 = RUNNING ∧ pending_messages v1 = None ∧ serve v1 = serve v
    ∧ mailbox v1 = Mailbox.mkMailbox [] [] 0 Mailbox.NOTIFIED 0 Mailbox.OVERLOAD_THRESHOLD 1
    ∧ Task.slots (tasks v1) = ∅.
Proof.
  intros Hab Hv Hw Hg Hq Px Pd Pl Pp Hm Hsl Hgen Hf Hb Wx Wm. unfold turn, is_running, take_pending.
  rewrite Hv, bool_decide_true by done. rewrite Pp. unfold next_work. rewrite Hv. cbn [mbind option_bind]. rewrite Hm.
  change (Mailbox.take_work _) with
    (Some (Mailbox.mkMailbox (Q := list) [] [] 0 Mailbox.NOTIFIED 0 Mailbox.OVERLOAD_THRESHOLD 1,
           Some (Mailbox.WReady (Mailbox.RTask t)))). cbn [mbind option_bind].
  rewrite (upd_at a _ n v Hv). unfold run_work, poll_task. cbn [svcs set_svcs]. rewrite lookup_insert_eq. cbn [mbind option_bind].
  unfold Task.take. cbn [tasks set_mailbox]. rewrite Hsl. cbn [slab_get gmap_slab]. rewrite lookup_singleton_eq, decide_False by (by intros ?).
  rewrite Hf. erewrite upd_at by (cbn [svcs set_svcs]; apply lookup_insert_eq). unfold poll_fut. rewrite Hb. cbn [hit interp send_addr resolve].
  unfold send_raw. change (grab b (set_svcs _ _)) with (grab b n). rewrite Hg.
  unfold push, deliver. cbn [svcs set_svcs emit]. rewrite lookup_insert_ne, insert_insert_eq, lookup_insert_ne, Hw by done. rewrite Wm.
  change (Mailbox.push_message _ resting) with (Mailbox.mark_queued (serving a), true). cbv beta iota.
  erewrite upd_at by (cbn [svcs set_svcs emit]; rewrite lookup_insert_ne by done; exact Hw).
  unfold wake. cbn [negb svcs set_svcs emit]. rewrite lookup_insert_eq. cbn [exclusive set_mailbox]. rewrite Wx. unfold sched_push.
  erewrite upd_at by (cbn [svcs set_svcs emit]; apply lookup_insert_eq). cbn [svcs set_svcs emit runq set_runq interp mbind option_bind].
  erewrite upd_at by (cbn [svcs set_svcs emit set_runq]; rewrite lookup_insert_ne by done; rewrite lookup_insert_ne by done; apply lookup_insert_eq).
  eexists _, _. split; [reflexivity|]. cbn [svcs set_svcs emit handles runq set_runq].
  rewrite insert_insert_eq, (insert_insert_ne _ a b), insert_insert_eq by done. split; [reflexivity|].
  rewrite Hq. split_and!; try done. cbn [tasks set_tasks]. unfold Task.remove. cbn [Task.slots slab_get slab_put slab_remove gmap_slab].
  rewrite lookup_insert_eq, decide_True by done. cbn [Task.slots]. rewrite delete_insert_eq. by apply delete_singleton_eq.
Qed.

(** Nothing left: the player rests. *)
Lemma rally_rest a n v :
  svcs n !! a = Some v → lifecycle v = RUNNING → pending_messages v = None →
  mailbox v = Mailbox.mkMailbox [] [] 0 Mailbox.NOTIFIED 0 Mailbox.OVERLOAD_THRESHOLD 1 →
  turn pp_body pp_registry a n = Some (set_svcs (<[a := set_mailbox resting v]> (svcs n)) n, TIdle).
Proof.
  intros Hv Pl Pp Hm. unfold turn, is_running, take_pending. rewrite Hv, bool_decide_true by done. rewrite Pp.
  unfold next_work. rewrite Hv. cbn [mbind option_bind]. rewrite Hm.
  change (Mailbox.take_work _) with (Some (resting, @None Mailbox.Work)). cbn [mbind option_bind]. by rewrite (upd_at a _ n v Hv).
Qed.

Lemma run_loop_work fuel h d (n n1 : pp_node) :
  turn pp_body pp_registry h n = Some (n1, TWork) → is_dead h n1 = false → (Datatypes.S d < YIELD_INTERVAL)%nat →
  run_loop pp_body pp_registry (Datatypes.S fuel) true h d n = run_loop pp_body pp_registry fuel true h (Datatypes.S d) n1.
Proof. intros Ht Hd Hy. cbn [run_loop]. rewrite Ht. cbn [mbind option_bind]. by rewrite Hd, bool_decide_false by lia. Qed.

Lemma run_loop_idle fuel h d (n n1 : pp_node) :
  turn pp_body pp_registry h n = Some (n1, TIdle) →
  run_loop pp_body pp_registry (Datatypes.S fuel) true h d n = Some (n1, Idle).
Proof. intros Ht. cbn [run_loop]. by rewrite Ht. Qed.

(** One turn of the worker: the ball is on the other side, and nobody has yielded. *)
Lemma rally_dispatch a b pick n :
  a ≠ b → rally a b n →
  ∃ n', dispatch_held pp_body (λ _, []) pp_registry pick YIELD_INTERVAL a n = Some (n', mkStep (Some b) None) ∧ rally b a n'.
Proof.
  intros Hab [(v & Hv & Pv & Hm) (w & Hw & Pw & Wm) [Ga Gb] Hq].
  destruct (rally_message a b n v Hab Hv Pv Hm) as (n1 & v1 & t & T1 & S1 & H1 & R1 & X1 & D1 & L1 & P1 & E1 & M1 & sl & Z1 & G1 & F1).
  destruct (rally_hit a b n1 v1 w t sl (serve v (mkMessage b 0 MsgType.USER PNone))) as
    (n2 & v2 & T2 & S2 & H2 & R2 & X2 & D2 & L2 & P2 & E2 & M2 & Z2); try done.
  { by rewrite S1, lookup_insert_eq. } { by rewrite S1, lookup_insert_ne. } { unfold grab. by rewrite H1. } { by rewrite R1. }
  { apply Pv. } { apply Pw. }
  assert (V2 : svcs n2 !! a = Some v2) by (by rewrite S2, lookup_insert_ne, lookup_insert_eq by done).
  pose proof (rally_rest a n2 v2 V2 L2 P2 M2) as T3. set (n3 := set_svcs _ _) in T3.
  assert (Dn : is_dead a n = false) by (unfold is_dead; rewrite Hv; apply Pv).
  assert (Dn1 : is_dead a n1 = false) by (unfold is_dead; by rewrite S1, lookup_insert_eq).
  assert (Dn2 : is_dead a n2 = false) by (unfold is_dead; by rewrite V2).
  assert (Hrun : run_service pp_body pp_registry YIELD_INTERVAL a true n = Some (n3, Idle)).
  { unfold run_service. rewrite Dn. change YIELD_INTERVAL with (3 + 61)%nat. cbn [Nat.add].
    rewrite (run_loop_work _ _ _ _ _ T1 Dn1), (run_loop_work _ _ _ _ _ T2 Dn2) by (unfold YIELD_INTERVAL; lia).
    by apply run_loop_idle. }
  unfold dispatch_held. rewrite Hrun. cbn [mbind option_bind].
  assert (V3a : svcs n3 !! a = Some (set_mailbox resting v2)) by (unfold n3; cbn [svcs set_svcs]; apply lookup_insert_eq).
  rewrite V3a.
  cbn [mbind option_bind dead set_mailbox]. rewrite D2.
  assert (Q3 : runq n3 = [b]) by done. unfold sched_pop. rewrite Q3.
  replace ([b] !! (pick [b] mod length [b])%nat) with (Some b) by (cbn [length]; by rewrite Nat.mod_1_r).
  eexists. split; [reflexivity|].
  assert (V3 : svcs n3 !! b = Some (set_mailbox (Mailbox.mark_queued (serving a)) w))
    by (unfold n3; cbn [svcs set_svcs]; rewrite lookup_insert_ne, S2, lookup_insert_eq by done; done).
  rewrite (upd_at b _ n3 _ V3). destruct Pv as [? ? ? ? Sv ?], Pw as [? ? ? ? Sw ?]. split; cbn [svcs set_runq set_svcs runq].
  - rewrite lookup_insert_eq. eexists. split; [reflexivity|]. split; [|done]. by split.
  - rewrite lookup_insert_ne, V3a by done. eexists. split; [reflexivity|]. split; [|done].
    split; try done. intros m. cbn. rewrite E2, E1. apply Sv.
  - unfold grab. cbn [handles set_runq set_svcs]. unfold n3. cbn [handles set_svcs]. rewrite H2, H1. by split.
  - by rewrite Nat.mod_1_r.
Qed.

Abbreviation pp_drain := (drain_loop pp_body (λ _ : nat, []) pp_registry (λ _ : list Z, 0%nat)).

Lemma rally_drain rounds a b n bud :
  a ≠ b → rally a b n → ∃ d, pp_drain rounds (mkDrain n (Some a) bud) = Some (d, [], false).
Proof.
  revert a b n. induction rounds as [|rounds IH]; intros a b n Hab Hr; [by eexists|].
  destruct (rally_dispatch a b (λ _, 0%nat) n Hab Hr) as (n' & Hd & Hr').
  destruct (IH b a n' ltac:(done) Hr') as (d & IHd). exists d.
  cbn [drain_loop]. unfold drain_step. cbn [d_hold d_node dispatch_step]. rewrite Hd. cbn [mbind option_bind yielded next d_hold d_budgets].
  by rewrite IHd.
Qed.

(** Both players launched and initialised, the first ball thrown, then the node quits
    while they play. *)
Definition pp_start : list NodeOp :=
  [NLaunch "ping" "" false; NLaunch "pong" "" false; NBooted; NDispatch 64 None; NDispatch 64 (Some 2);
   NSend 2 1 MsgType.USER 0 PNone; NQuit].

Definition pp_begin : option pp_node := node_run pp_body (λ _, []) pp_registry (λ _, 0%nat) pp_start node_new.

Lemma pp_begin_rally :
  ∃ n n', pp_begin = Some n ∧ quit n = true ∧ sched_pop (λ _, 0%nat) n = (n', Some 1) ∧ rally 1 2 n'.
Proof.
  eexists _, _. split; [vm_compute; reflexivity|]. split; [reflexivity|]. split; [vm_compute; reflexivity|].
  split; [| |by split|done].
  - eexists. split; [vm_compute; reflexivity|]. by split.
  - eexists. split; [vm_compute; reflexivity|]. by split.
Qed.

(** The budget does not make [drain] end.  Two ordinary services that answer each
    message with a message to the other go idle after every exchange, so neither ever
    yields and neither is counted; on a node that has quit while they play, [drain]
    takes turn after turn without end, and [shutdown], which begins with it, never
    gets to retire them. *)
Theorem drain_may_not_end :
  ∃ n, pp_begin = Some n ∧ quit n = true
    ∧ ∀ rounds, ∃ d, pp_drain rounds (mkDrain n None ∅) = Some (d, [], false).
Proof.
  destruct pp_begin_rally as (n & n' & Hn & Hq & Hp & Hr). exists n. split; [exact Hn|]. split; [exact Hq|].
  intros [|rounds]; [by eexists|]. destruct (rally_dispatch 1 2 (λ _, 0%nat) n' ltac:(done) Hr) as (n2 & Hd & Hr').
  destruct (rally_drain rounds 2 1 n2 ∅ ltac:(done) Hr') as (d & IHd). exists d.
  cbn [drain_loop]. unfold drain_step. cbn [d_hold d_node dispatch_step]. rewrite Hp, Hd.
  cbn [mbind option_bind yielded next d_hold d_budgets]. by rewrite IHd.
Qed.

End pingpong.

(** ** Witnesses *)

Section demo.

(** Service types: [spin] never comes to rest, [logger] runs on its own thread. *)
Definition spin : Prog (F := nat) := Sleep 0 (λ s, PollCall s (λ _, Pend 1%nat)).

Definition st_body (f : nat) : Prog (F := nat) := match f with 1%nat => spin | _ => Done None end.

Definition st_registry (k : string) : option (Instance (F := nat)) :=
  if decide (k = "spin"%string) then Some (mkInstance false (λ _, 0%nat) (λ _, 1%nat)) else
  if decide (k = "logger"%string) then Some (mkInstance true (λ _, 0%nat) (λ _, 0%nat)) else None.

Abbreviation st_node := (Server.Node (Q := list) (S := gmap nat) (F := nat)).
Abbreviation st_run os := (node_run st_body (λ _ : nat, []) st_registry (λ _ : list Z, 0%nat) os node_new : option st_node).
Abbreviation st_drain := (drain_loop st_body (λ _ : nat, []) st_registry (λ _ : list Z, 0%nat)).
Abbreviation st_shutdown := (shutdown st_body (λ _ : nat, []) st_registry (λ _ : list Z, 0%nat)).

Lemma st_books os n : st_run os = Some n → books n.
Proof. apply books_run, books_new. Qed.

Definition spinning : list NodeOp :=
  [NLaunch "spin" "" false; NBooted; NDispatch 64 None; NSend 9 1 MsgType.USER 0 PNone; NQuit].

Lemma spinning_drain : ∃ n d ys, st_run spinning = Some n ∧ quit n = true ∧ st_drain 3 (mkDrain n None ∅) = Some (d, ys, false) ∧ yields 1 ys = 3.
Proof.
  destruct (some_view (λ n, quit n && match st_drain 3 (mkDrain n None ∅) with
    | Some (_, ys, b) => bool_decide (b = false ∧ yields 1 ys = 3) | None => false end) (st_run spinning)) as (n & E & Hd).
  { vm_compute. reflexivity. }
  apply andb_true_iff in Hd as [Hq Hd]. destruct (st_drain 3 (mkDrain n None ∅)) as [[[d ys] b]|] eqn:Ed; [|discriminate].
  apply bool_decide_eq_true in Hd as [-> Hy]. exists n, d, ys. exact (conj E (conj Hq (conj Ed Hy))).
Qed.

Lemma drain_yields_bounded_witness :
  ∃ n d ys, st_run spinning = Some n ∧ st_drain 3 (mkDrain n None ∅) = Some (d, ys, false)
    ∧ yields 1 ys = 3 ∧ yields 1 ys ≤ DRAIN_BUDGET.
Proof.
  destruct spinning_drain as (n & d & ys & E & Hq & Ed & Hy). exists n, d, ys.
  exact (conj E (conj Ed (conj Hy (proj1 (drain_yields_bounded st_body (λ _, []) st_registry (λ _, 0%nat) 3 n d ys false (st_books _ _ E) Hq Ed 1))))).
Defined.

(** A logger on its own thread and an ordinary service; then the node quits. *)
Definition two_kinds : list NodeOp :=
  [NLaunch "logger" "" true; NExclusive 64 1; NSetLogger 1; NLaunch "spin" "" false; NBooted; NDispatch 64 None; NQuit].

Lemma two_kinds_shutdown : ∃ n n' v, st_run two_kinds = Some n ∧ quit n = true ∧ st_shutdown 64 n = Some n'
  ∧ svcs n !! 1 = Some v ∧ exclusive v = true.
Proof.
  destruct (some_view (λ n, quit n && match st_shutdown 64 n, svcs n !! 1 with
    | Some _, Some v => exclusive v | _, _ => false end) (st_run two_kinds)) as (n & E & Hd).
  { vm_compute. reflexivity. }
  apply andb_true_iff in Hd as [Hq Hd]. destruct (st_shutdown 64 n) as [n'|] eqn:Es; [|discriminate].
  destruct (svcs n !! 1) as [v|] eqn:Ev; [|discriminate]. exists n, n', v. exact (conj E (conj Hq (conj Es (conj Ev Hd)))).
Qed.

Lemma shutdown_clears_witness :
  ∃ n n', st_run two_kinds = Some n ∧ st_shutdown 64 n = Some n' ∧ grab 1 n' = None ∧ grab 2 n' = None ∧ gone 1 n'.
Proof.
  destruct two_kinds_shutdown as (n & n' & v & E & Hq & Es & Ev & He).
  destruct (shutdown_clears st_body (λ _, []) st_registry (λ _, 0%nat) 64 n n' (st_books _ _ E) Hq Es) as [Hg Hx].
  exists n, n'. exact (conj E (conj Es (conj (Hg 1) (conj (Hg 2) (Hx 1 v Ev He))))).
Defined.

(** A configuration that leaves only the logger on. *)
Definition st_config : Config (V := string) :=
  mkConfig 1 true (<[SIGNAL := EmptyString]> (<[TIMER := EmptyString]> (<[BOOTSTRAP := EmptyString]> ∅))).

Definition st_stages : list Stage := stages (λ v : string, inl (Some v)) st_config [].

Abbreviation st_boot := (boot_run st_body (λ _ : nat, []) st_registry (λ _ : list Z, 0%nat)).

Lemma st_booted : ∃ b, rtc st_boot (mkBoot (BNext st_stages) node_new []) b ∧ b_pc b = BDone (inl tt) ∧ launched b = [(1, true)].
Proof.
  eexists. split; [|split; cycle 1].
  - eapply rtc_l; [apply run_boot; vm_compute; reflexivity|]. cbn [app launches st_wait].
    eapply rtc_l; [apply (run_node _ _ _ _ (NExclusive 64 1)); vm_compute; reflexivity|].
    eapply rtc_l; [apply run_boot; vm_compute; reflexivity|]. cbn [app launches].
    do 4 (eapply rtc_l; [apply run_boot; vm_compute; reflexivity|]; cbn [app launches]). apply rtc_refl.
  - reflexivity.
  - reflexivity.
Qed.

Lemma boot_waits_witness : ∃ b, launched b = [(1, true)] ∧ init_ok (Q := list) (S := gmap nat) (F := nat) 1 (b_node b).
Proof.
  destruct st_booted as (b & Hr & Hpc & Hl). exists b. split; [exact Hl|].
  apply (proj2 (boot_waits st_body (λ _, []) st_registry (λ _, 0%nat) st_stages b Hr) Hpc). rewrite Hl. apply list_elem_of_here.
Defined.

End demo.
End Start.
