(* ===== verification/Wire.v ===== *)
(** * The cluster protocol on the wire

    [rskynet-cluster/src/wire.rs]: envelopes, frames of a four-byte big-endian length
    and a body, and [drain], which cuts the received bytes into envelopes and keeps
    the rest.  The Protobuf codec of the envelope is the [prost] library's: a
    parameter, of which only the round trip is used.  A byte is a [Z].

    The theorems: a sequence of envelopes survives the stream however TCP cuts it into
    pieces, each piece yields the envelopes complete so far, and what [drain] refuses
    it leaves in the buffer. *)
From S2P Require Import Prelude Message.

Module Wire.

Definition PROTOCOL_VERSION : Z := 2.
Definition U32_MAX : Z := 2 ^ 32 - 1.

Inductive Target : Type := THandle (h : Z) | TName (name : string).

#[global] Instance Target_eq_dec : EqDecision Target.
Proof. solve_decision. Defined.

(** The [target] message of an envelope may be missing, and may be empty. *)
Record Envelope : Type := mkEnvelope {
  version : Z;
  kind : Z;
  source_node : Z;
  request_id : Z;
  type_id : Z;
  target : option (option Target);
  payload : list Z;
  error : string;
  advertise : string;
}.

Inductive Kind : Type := Hello | Send | Request | Response | Error.

#[global] Instance Kind_eq_dec : EqDecision Kind.
Proof. solve_decision. Defined.

(** [kind as i32] and [Kind::try_from]. *)
Definition kind_code (k : Kind) : Z :=
  match k with Hello => 0 | Send => 1 | Request => 2 | Response => 3 | Error => 4 end.

Definition kind_of (c : Z) : option Kind :=
  if decide (c = 0) then Some Hello else if decide (c = 1) then Some Send else
  if decide (c = 2) then Some Request else if decide (c = 3) then Some Response else
  if decide (c = 4) then Some Error else None.

(** [u32::to_be_bytes] and [u32::from_be_bytes]. *)
Definition to_be_bytes (z : Z) : list Z :=
  [z / 2 ^ 24 mod 256; z / 2 ^ 16 mod 256; z / 2 ^ 8 mod 256; z mod 256].

Definition from_be_bytes (bs : list Z) : option Z :=
  match bs with
  | [a; b; c; d] => Some (a * 2 ^ 24 + b * 2 ^ 16 + c * 2 ^ 8 + d)
  | _ => None
  end.

Definition too_long : string := "frame exceeds the length limit".
Definition bad_envelope : string := "invalid Protobuf envelope".

Section wire.
Context (encode_to_vec : Envelope → list Z) (decode : list Z → option Envelope).

Definition frame (e : Envelope) (max : Z) : list Z + string :=
  let body := encode_to_vec e in
  let n := Z.of_nat (length body) in
  if decide (max < n ∨ U32_MAX < n) then inr too_long else inl (to_be_bytes n ++ body).

(** The loop of [drain] from index [consumed] on: the envelopes and the index where it
    stopped.  [None] is an index out of bounds; every turn consumes four bytes or
    more. *)
Fixpoint drain_loop (fuel : nat) (buffer : list Z) (consumed : nat) (max : Z)
    : option (list Envelope * nat + string) :=
  match fuel with
  | O => None
  | S fuel =>
      if decide (4 ≤ length buffer - consumed)%nat then
        len ← from_be_bytes (take 4 (drop consumed buffer));
        if decide (max < len) then Some (inr too_long) else
        if decide (Z.of_nat (length buffer - consumed) < 4 + len) then Some (inl ([], consumed)) else
        let start := (consumed + 4)%nat in
        match decode (take (Z.to_nat len) (drop start buffer)) with
        | None => Some (inr bad_envelope)
        | Some e =>
            r ← drain_loop fuel buffer (start + Z.to_nat len) max;
            Some (match r with inl (es, k) => inl (e :: es, k) | inr err => inr err end)
        end
      else Some (inl ([], consumed))
  end.

(** The buffer afterwards and the result; an error leaves the buffer alone. *)
Definition drain (buffer : list Z) (max : Z) : option (list Z * (list Envelope + string)) :=
  r ← drain_loop (S (length buffer)) buffer 0 max;
  Some (match r with
        | inl (es, consumed) => (drop consumed buffer, inl es)
        | inr err => (buffer, inr err)
        end).

(** Data arriving in pieces, as [on_socket] feeds them. *)
Fixpoint feed (chunks : list (list Z)) (buffer : list Z) (max : Z) : option (list Z * (list Envelope + string)) :=
  match chunks with
  | [] => Some (buffer, inl [])
  | c :: chunks =>
      '(buffer, r) ← drain (buffer ++ c) max;
      match r with
      | inr err => Some (buffer, inr err)
      | inl es =>
          '(buffer, r) ← feed chunks buffer max;
          Some (buffer, match r with inl es' => inl (es ++ es') | inr err => inr err end)
      end
  end.

(** ** Frames and their bytes *)

Lemma be_round_trip z : 0 ≤ z ≤ U32_MAX → from_be_bytes (to_be_bytes z) = Some z.
Proof.
  intros Hz. cbn [to_be_bytes from_be_bytes]. f_equal. unfold U32_MAX in Hz.
  Z.to_euclidean_division_equations. lia.
Qed.

Definition bytes_of (e : Envelope) : list Z :=
  to_be_bytes (Z.of_nat (length (encode_to_vec e))) ++ encode_to_vec e.

Definition fits (max : Z) (e : Envelope) : Prop :=
  Z.of_nat (length (encode_to_vec e)) ≤ max ∧ Z.of_nat (length (encode_to_vec e)) ≤ U32_MAX.

Lemma frame_fits e max bs : frame e max = inl bs ↔ fits max e ∧ bs = bytes_of e.
Proof.
  unfold frame, fits, bytes_of. case_decide; split; [done|lia| |]; [intros [= <-]; split; [lia|done]|by intros [_ ->]].
Qed.

Lemma length_bytes_of e : length (bytes_of e) = (4 + length (encode_to_vec e))%nat.
Proof. by unfold bytes_of. Qed.

Section codec.
Hypothesis codec : ∀ e, decode (encode_to_vec e) = Some e.

(** From the front of a stream of frames, cut off anywhere, [drain] takes the complete
    ones and stops before the rest. *)
Lemma drain_loop_stream max es fuel pre buf future :
  Forall (fits max) es → buf ++ future = es ≫= bytes_of → (length buf < fuel)%nat →
  ∃ es1 es2, es = es1 ++ es2 ∧ (length (es1 ≫= bytes_of) ≤ length buf)%nat
    ∧ drain_loop fuel (pre ++ buf) (length pre) max = Some (inl (es1, length pre + length (es1 ≫= bytes_of))%nat)
    ∧ (future = [] → es2 = []).
Proof.
  revert fuel pre buf. induction es as [|e es IH]; intros fuel pre buf Hall Hbuf Hfuel.
  { destruct buf as [|x buf]; [|done]. destruct future; [|done]. exists [], []. split_and!; [done|cbn; lia| |done].
    destruct fuel as [|fuel]; [cbn in Hfuel; lia|]. cbn [drain_loop]. rewrite app_nil_r, decide_False by lia.
    cbn. by rewrite Nat.add_0_r. }
  apply Forall_cons in Hall as [[Hmax H32] Hall]. destruct fuel as [|fuel]; [lia|]. cbn [drain_loop].
  rewrite length_app, drop_app_length. replace (length pre + length buf - length pre)%nat with (length buf) by lia.
  rewrite bind_cons in Hbuf. case_decide as H4; cycle 1.
  { exists [], (e :: es). split_and!; [done|cbn; lia|by rewrite Nat.add_0_r|]. intros ->. rewrite app_nil_r in Hbuf.
    pose proof (f_equal length Hbuf) as Hl. rewrite length_app, length_bytes_of in Hl. lia. }
  set (body := encode_to_vec e) in *.
  assert (Hhd : take 4 buf = to_be_bytes (Z.of_nat (length body))).
  { rewrite <-(take_app_le buf future 4) by lia. rewrite Hbuf. unfold bytes_of. by rewrite <-app_assoc, take_app_length' by done. }
  rewrite Hhd, be_round_trip by (split; [lia|done]). cbn [mbind option_bind]. rewrite decide_False by lia.
  case_decide as Hshort.
  { exists [], (e :: es). split_and!; [done|cbn; lia|by rewrite Nat.add_0_r|]. intros ->. rewrite app_nil_r in Hbuf.
    pose proof (f_equal length Hbuf) as Hl. rewrite length_app, length_bytes_of in Hl. unfold body in *. lia. }
  rewrite Nat2Z.id. assert (Hlen : (length (bytes_of e) ≤ length buf)%nat) by (rewrite length_bytes_of; unfold body in *; lia).
  assert (Hsplit : buf = bytes_of e ++ drop (length (bytes_of e)) buf).
  { rewrite <-(take_drop (length (bytes_of e)) buf) at 1. f_equal. rewrite <-(take_app_le buf future) by done.
    rewrite Hbuf. apply take_app_length. }
  set (rest := drop (length (bytes_of e)) buf) in *.
  assert (Hrest : rest ++ future = es ≫= bytes_of).
  { rewrite Hsplit, <-app_assoc in Hbuf. by apply app_inv_head in Hbuf. }
  destruct (IH fuel (pre ++ bytes_of e) rest Hall Hrest) as (es1 & es2 & -> & Hle & Hd & Hf).
  { unfold rest. rewrite length_drop, length_bytes_of. lia. }
  assert (Hbody : take (length body) (drop (length pre + 4) (pre ++ buf)) = body).
  { rewrite drop_app_add, Hsplit. unfold bytes_of. rewrite <-app_assoc, drop_app_length' by done. apply take_app_length. }
  rewrite Hbody. unfold body at 1. rewrite codec. rewrite <-app_assoc, <-Hsplit in Hd.
  rewrite length_app, length_bytes_of in Hd. fold body in Hd. replace (length pre + 4 + length body)%nat with
    (length pre + (4 + length body))%nat by lia. rewrite Hd. cbn [mbind option_bind].
  exists (e :: es1), es2. split_and!; [done| | |done].
  - rewrite bind_cons, length_app. rewrite Hsplit, length_app. lia.
  - rewrite bind_cons, length_app, length_bytes_of. fold body. do 3 f_equal. lia.
Qed.

Lemma drain_stream max es buf future :
  Forall (fits max) es → buf ++ future = es ≫= bytes_of →
  ∃ es1 es2 buf', es = es1 ++ es2 ∧ drain buf max = Some (buf', inl es1) ∧ buf' ++ future = es2 ≫= bytes_of
    ∧ (future = [] → es2 = []).
Proof.
  intros Hall Hbuf. destruct (drain_loop_stream max es (S (length buf)) [] buf future) as (es1 & es2 & -> & Hle & Hd & Hf); [done|done|lia|].
  cbn [length app Nat.add] in Hd. exists es1, es2, (drop (length (es1 ≫= bytes_of)) buf). unfold drain. rewrite Hd. split_and!; [done|done| |done].
  rewrite bind_app in Hbuf. rewrite <-drop_app_le by done. rewrite Hbuf. apply drop_app_length.
Qed.

Lemma feed_stream max chunks : ∀ es buf,
  Forall (fits max) es → buf ++ concat chunks = es ≫= bytes_of → (chunks = [] → buf = [] ∧ es = []) →
  feed chunks buf max = Some ([], inl es).
Proof.
  induction chunks as [|c chunks IH]; intros es buf Hall Hcat Hnil; [by destruct (Hnil eq_refl) as [-> ->]|].
  cbn [concat] in Hcat. rewrite app_assoc in Hcat. destruct (drain_stream max es _ _ Hall Hcat) as (es1 & es2 & buf' & -> & Hd & Hr & Hf).
  cbn [feed]. rewrite Hd. cbn [mbind option_bind]. apply Forall_app in Hall as [_ Hall2].
  rewrite (IH es2 buf' Hall2 Hr); [done|]. intros ->. pose proof (Hf eq_refl) as ->. cbn in Hr. rewrite app_nil_r in Hr. by destruct buf'.
Qed.

(** C18 The stream does not matter: a sequence of envelopes, each within the limits,
    written as frames one after the other and received in pieces cut anywhere, comes
    out of [drain] piece by piece as exactly these envelopes in order, and nothing is
    left in the buffer. *)
Theorem stream_round_trip max es chunks :
  Forall (λ e, ∃ bs, frame e max = inl bs) es → concat chunks = es ≫= bytes_of → feed chunks [] max = Some ([], inl es).
Proof.
  intros Hall Hcat. apply feed_stream; [|done|].
  - eapply Forall_impl; [exact Hall|]. by intros e (bs & [? _]%frame_fits).
  - intros ->. cbn in Hcat. destruct es as [|e es]; [done|]. rewrite bind_cons in Hcat.
    pose proof (f_equal length Hcat) as Hl. rewrite length_app, length_bytes_of in Hl. cbn in Hl. lia.
Qed.
End codec.
End wire.

(** ** A codec *)

Section demo.

#[local] Instance Target_countable : Countable Target.
Proof.
  refine (inj_countable' (λ t, match t with THandle h => inl h | TName n => inr n end)
    (λ x, match x with inl h => THandle h | inr n => TName n end) _). by intros [].
Defined.

#[local] Instance Envelope_eq_dec : EqDecision Envelope.
Proof. solve_decision. Defined.

#[local] Instance Envelope_countable : Countable Envelope.
Proof.
  refine (inj_countable'
    (λ e, (version e, kind e, source_node e, request_id e, type_id e, target e, payload e, error e, advertise e))
    (λ '(a, b, c, d, e, f, g, h, i), mkEnvelope a b c d e f g h i) _). by intros [].
Defined.

(** The bits of a positive number, one to a byte. *)
Fixpoint bits (p : positive) : list Z :=
  match p with xH => [] | xO p => 0 :: bits p | xI p => 1 :: bits p end.

Fixpoint of_bits (bs : list Z) : positive :=
  match bs with [] => xH | b :: bs => if decide (b = 0) then xO (of_bits bs) else xI (of_bits bs) end.

Definition bit_encode (e : Envelope) : list Z := bits (encode e).
Definition bit_decode (bs : list Z) : option Envelope := countable.decode (of_bits bs).

Lemma of_bits_bits p : of_bits (bits p) = p.
Proof. induction p as [p IH|p IH|]; cbn; [by rewrite IH..|done]. Qed.

Lemma bit_codec e : bit_decode (bit_encode e) = Some e.
Proof. unfold bit_decode, bit_encode. rewrite of_bits_bits. apply decode_encode. Qed.

Definition ping : Envelope := mkEnvelope PROTOCOL_VERSION 1 7 0 3 (Some (Some (THandle 9))) [1; 2] EmptyString EmptyString.

(** Two frames, received as the first three bytes and the rest. *)
Lemma stream_round_trip_witness :
  let bs := bytes_of bit_encode ping ++ bytes_of bit_encode ping in
  feed bit_decode [take 3 bs; drop 3 bs] [] 1000 = Some ([], inl [ping; ping]).
Proof.
  cbv zeta. apply (stream_round_trip bit_encode bit_decode bit_codec 1000 [ping; ping]).
  - assert (Hf : ∃ bs, frame bit_encode ping 1000 = inl bs) by (eexists; vm_compute; reflexivity). by repeat constructor.
  - cbn [concat]. rewrite app_nil_r, take_drop, !bind_cons. change ([] ≫= bytes_of bit_encode) with (@nil Z). by rewrite app_nil_r.
Defined.

End demo.
End Wire.
