(* ===== verification/Cluster.v ===== *)
(** * The cluster service

    [rskynet-cluster/src/lib.rs]: node ids and addresses, the registry of handlers, the
    configuration, and [ClusterService], an ordinary service that keeps one TCP
    connection per peer node and matches requests with responses.

    A handler of the service that awaits ([net::connect], [net::start], a user's
    cluster handler) is suspended there: the rest of it is a [Task], resumed by an
    event, and other messages are handled in between.  Effects are collected in the
    order they happen.  [net_up] says whether the network service is registered:
    [net::send] and [net::shutdown] fail when it is not.  The texts of reasons stand
    for the originals. *)
From S2P Require Import Prelude Message Wire.
Import Wire.

Module Cluster.

Definition NodeId : Type := Z.

Inductive ClusterError : Type :=
  | InvalidNodeId
  | NodeUnavailable (node : Z)
  | TimedOut
  | Remote (reason : string)
  | Protocol (reason : string)
  | DuplicateHandler (target : string) (type_id : Z)
  | DuplicateTypeId (type_id : Z)
  | InvalidTypeId
  | AutoRegistration (location reason : string)
  | Local (e : Message.Error)
  | DecodeFailed.

(** [NodeId::new]. *)
Definition node_id_new (value : Z) : NodeId + ClusterError :=
  if decide (value ≠ 0) then inl value else inr InvalidNodeId.

Record ClusterAddr : Type := mkAddr { node : NodeId; service : Addr }.

Inductive ServiceKey : Type := KHandle (h : Z) | KName (name : string).

#[global] Instance ServiceKey_eq_dec : EqDecision ServiceKey.
Proof. solve_decision. Defined.

#[global] Instance ServiceKey_countable : Countable ServiceKey.
Proof.
  refine (inj_countable' (λ k, match k with KHandle h => inl h | KName n => inr n end)
    (λ x, match x with inl h => KHandle h | inr n => KName n end) _). by intros [].
Defined.

Definition from_addr (a : Addr) : ServiceKey :=
  match a with AHandle h => KHandle h | AName n => KName n end.

Definition from_target (t : option Target) : option ServiceKey :=
  match t with None => None | Some (THandle h) => Some (KHandle h) | Some (TName n) => Some (KName n) end.

Definition key_target (k : ServiceKey) : option Target :=
  Some (match k with KHandle h => THandle h | KName n => TName n end).

Definition display (k : ServiceKey) : string :=
  match k with KHandle h => AddrText.to_string (AHandle h) | KName n => AddrText.to_string (AName n) end.

(** ** The registry of handlers *)

Section registry.
(** [T] are the Rust types, [C] the code of handlers. *)
Context {T C : Type} `{EqDecision T}.

(** A message type: its stable number and the Rust type. *)
Record MsgTy : Type := mkTy { TYPE_ID : Z; rust_type : T }.

(** [decodes] and [encodes] are the types the closure [call] converts between. *)
Record Handler : Type := mkHandler {
  response_type : Z;
  decodes : T;
  encodes : option T;
  call : C;
}.

Record HandlerRegistry : Type := mkRegistry {
  handlers : gmap (ServiceKey * Z) Handler;
  message_types : gmap Z T;
}.

Definition registry_new : HandlerRegistry := mkRegistry ∅ ∅.

Definition check_type (m : MsgTy) (r : HandlerRegistry) : option ClusterError :=
  if decide (TYPE_ID m = 0) then Some InvalidTypeId else
  match message_types r !! TYPE_ID m with
  | Some existing => if decide (existing ≠ rust_type m) then Some (DuplicateTypeId (TYPE_ID m)) else None
  | None => None
  end.

Definition register (svc : Addr) (req resp : MsgTy) (c : C) (r : HandlerRegistry) : HandlerRegistry + ClusterError :=
  let key := (from_addr svc, TYPE_ID req) in
  match handlers r !! key with
  | Some _ => inr (DuplicateHandler (display key.1) (TYPE_ID req))
  | None =>
      match check_type req r with
      | Some e => inr e
      | None =>
          match check_type resp r with
          | Some e => inr e
          | None =>
              if decide (TYPE_ID req = TYPE_ID resp ∧ rust_type req ≠ rust_type resp)
              then inr (DuplicateTypeId (TYPE_ID req))
              else inl (mkRegistry
                          (<[key := mkHandler (TYPE_ID resp) (rust_type req) (Some (rust_type resp)) c]> (handlers r))
                          (<[TYPE_ID resp := rust_type resp]> (<[TYPE_ID req := rust_type req]> (message_types r))))
          end
      end
  end.

Definition register_send (svc : Addr) (m : MsgTy) (c : C) (r : HandlerRegistry) : HandlerRegistry + ClusterError :=
  let key := (from_addr svc, TYPE_ID m) in
  match handlers r !! key with
  | Some _ => inr (DuplicateHandler (display key.1) (TYPE_ID m))
  | None =>
      match check_type m r with
      | Some e => inr e
      | None =>
          inl (mkRegistry (<[key := mkHandler 0 (rust_type m) None c]> (handlers r))
                          (<[TYPE_ID m := rust_type m]> (message_types r)))
      end
  end.

(** What a program registers; a refused registration leaves the registry as it was. *)
Inductive Registration : Type :=
  | RReply (svc : Addr) (req resp : MsgTy) (c : C)
  | RSend (svc : Addr) (m : MsgTy) (c : C).

Definition apply_registration (x : Registration) (r : HandlerRegistry) : HandlerRegistry + ClusterError :=
  match x with RReply s q p c => register s q p c r | RSend s m c => register_send s m c r end.

Definition registered (xs : list Registration) : HandlerRegistry :=
  foldl (λ r x, match apply_registration x r with inl r' => r' | inr _ => r end) registry_new xs.

(** A number means one type, the same for everybody. *)
Record typed (r : HandlerRegistry) : Prop := {
  ty_nonzero : message_types r !! 0 = None;
  ty_request : ∀ k i h, handlers r !! (k, i) = Some h → message_types r !! i = Some (decodes h);
  ty_response : ∀ k i h, handlers r !! (k, i) = Some h →
    match encodes h with
    | Some t => message_types r !! response_type h = Some t
    | None => response_type h = 0
    end;
}.

Lemma check_type_ok m r : check_type m r = None → TYPE_ID m ≠ 0 ∧ (message_types r !! TYPE_ID m = None ∨ message_types r !! TYPE_ID m = Some (rust_type m)).
Proof.
  unfold check_type. case_decide; [done|]. destruct (message_types r !! TYPE_ID m) as [t|]; [|by eauto].
  case_decide as Ht; [done|]. rewrite Ht. eauto.
Qed.

(** Adding a type that passed the check changes no number already in use. *)
Lemma add_type_keeps m r i t :
  check_type m r = None → message_types r !! i = Some t → <[TYPE_ID m := rust_type m]> (message_types r) !! i = Some t.
Proof.
  intros [_ Hc]%check_type_ok Hi. destruct (decide (TYPE_ID m = i)) as [<-|]; [rewrite lookup_insert_eq|by rewrite lookup_insert_ne].
  destruct Hc; congruence.
Qed.

Lemma register_typed svc req resp c r r' : typed r → register svc req resp c r = inl r' → typed r'.
Proof.
  intros [T0 Tq Tp]. unfold register. destruct (handlers r !! _) eqn:Hnew; [done|].
  destruct (check_type req r) eqn:Cq; [done|]. destruct (check_type resp r) eqn:Cp; [done|].
  case_decide as Hsame; [done|]. intros [= <-].
  pose proof (check_type_ok _ _ Cq) as [Nq Oq]. pose proof (check_type_ok _ _ Cp) as [Np Op].
  set (M := <[TYPE_ID resp := rust_type resp]> (<[TYPE_ID req := rust_type req]> (message_types r))).
  assert (Keep : ∀ i t, message_types r !! i = Some t → M !! i = Some t).
  { intros i t Hi. unfold M. destruct (decide (TYPE_ID resp = i)) as [<-|].
    - rewrite lookup_insert_eq. destruct Op; congruence.
    - rewrite lookup_insert_ne by done. by apply add_type_keeps. }
  assert (Mq : M !! TYPE_ID req = Some (rust_type req)).
  { unfold M. destruct (decide (TYPE_ID resp = TYPE_ID req)) as [E|]; [|by rewrite lookup_insert_ne, lookup_insert_eq].
    rewrite E, lookup_insert_eq. f_equal. destruct (decide (rust_type req = rust_type resp)); [done|]. exfalso. by apply Hsame. }
  assert (Mp : M !! TYPE_ID resp = Some (rust_type resp)) by apply lookup_insert_eq.
  split; cbn [message_types handlers].
  - unfold M. by rewrite !lookup_insert_ne.
  - intros k i h Hh. destruct (decide ((from_addr svc, TYPE_ID req) = (k, i))) as [[= <- <-]|Hne].
    + rewrite lookup_insert_eq in Hh. by injection Hh as <-.
    + rewrite lookup_insert_ne in Hh by done. eauto.
  - intros k i h Hh. destruct (decide ((from_addr svc, TYPE_ID req) = (k, i))) as [[= <- <-]|Hne].
    + rewrite lookup_insert_eq in Hh. by injection Hh as <-.
    + rewrite lookup_insert_ne in Hh by done. specialize (Tp k i h Hh). destruct (encodes h); eauto.
Qed.

Lemma register_send_typed svc m c r r' : typed r → register_send svc m c r = inl r' → typed r'.
Proof.
  intros [T0 Tq Tp]. unfold register_send. destruct (handlers r !! _) eqn:Hnew; [done|].
  destruct (check_type m r) eqn:Cm; [done|]. intros [= <-]. pose proof (check_type_ok _ _ Cm) as [Nm Om].
  split; cbn [message_types handlers].
  - by rewrite lookup_insert_ne.
  - intros k i h Hh. destruct (decide ((from_addr svc, TYPE_ID m) = (k, i))) as [[= <- <-]|Hne].
    + rewrite lookup_insert_eq in Hh. injection Hh as <-. apply lookup_insert_eq.
    + rewrite lookup_insert_ne in Hh by done. apply add_type_keeps; eauto.
  - intros k i h Hh. destruct (decide ((from_addr svc, TYPE_ID m) = (k, i))) as [[= <- <-]|Hne].
    + rewrite lookup_insert_eq in Hh. by injection Hh as <-.
    + rewrite lookup_insert_ne in Hh by done. specialize (Tp k i h Hh). destruct (encodes h); [apply add_type_keeps|]; eauto.
Qed.

(** The registry is typed: whatever is registered in whatever order, refused
    registrations included, every handler decodes the one Rust type its message number
    stands for and encodes the one its response number stands for, and zero is no
    message number. *)
Theorem registry_typed xs : typed (registered xs).
Proof.
  unfold registered. assert (Hn : typed registry_new) by done. revert Hn. generalize registry_new.
  induction xs as [|x xs IH]; intros r Hr; [done|]. cbn [foldl]. apply IH. destruct x as [s q p c|s m c]; cbn [apply_registration].
  - destruct (register s q p c r) eqn:E; [by eapply register_typed|done].
  - destruct (register_send s m c r) eqn:E; [by eapply register_send_typed|done].
Qed.
End registry.

(** ** The configuration *)

Definition DEFAULT_MAX_FRAME_LEN : Z := 8 * 1024 * 1024.

Record Seed : Type := mkSeed { seed_id : Z; address : string }.

Record ClusterConfig : Type := mkConfig {
  node_id : Z;
  listen : string;
  advertised : option string;
  seeds : list Seed;
  request_timeout_ms : Z;
  max_frame_len : Z;
}.

Definition config_default : ClusterConfig := mkConfig 0 "127.0.0.1:0" None [] 5000 DEFAULT_MAX_FRAME_LEN.

Fixpoint validate_seeds (local : NodeId) (ids : gset Z) (ss : list Seed) : option ClusterError :=
  match ss with
  | [] => None
  | s :: ss =>
      match node_id_new (seed_id s) with
      | inr e => Some e
      | inl i =>
          if decide (i = local) then Some (Protocol "a seed is the node itself") else
          if decide (i ∈ ids) then Some (Protocol "duplicate seed") else validate_seeds local ({[i]} ∪ ids) ss
      end
  end.

Definition validate (c : ClusterConfig) : NodeId + ClusterError :=
  match node_id_new (node_id c) with
  | inr e => inr e
  | inl local =>
      if decide (request_timeout_ms c = 0) then inr (Protocol "request_timeout_ms must be positive") else
      if decide (max_frame_len c = 0 ∨ U32_MAX < max_frame_len c) then inr (Protocol "max_frame_len out of range") else
      match validate_seeds local ∅ (seeds c) with
      | Some e => inr e
      | None => inl local
      end
  end.

Lemma validate_seeds_ok local ids ss :
  validate_seeds local ids ss = None →
  NoDup (seed_id <$> ss) ∧ Forall (λ s, seed_id s ≠ 0 ∧ seed_id s ≠ local ∧ seed_id s ∉ ids) ss.
Proof.
  revert ids. induction ss as [|s ss IH]; intros ids Hv; cbn [validate_seeds] in Hv; [by split; constructor|].
  unfold node_id_new in Hv. case_decide as H0; [|done]. case_decide; [done|]. case_decide; [done|].
  destruct (IH _ Hv) as [Hnd Hall]. rewrite Forall_forall in Hall. split.
  - rewrite fmap_cons. constructor; [|done]. intros (x & He & Hx)%list_elem_of_fmap. destruct (Hall x Hx) as (_ & _ & Hn).
    apply Hn. rewrite He. set_solver.
  - constructor; [done|]. apply Forall_forall. intros x Hx. destruct (Hall x Hx) as (? & ? & ?). set_solver.
Qed.

(** ** State *)

Record Pending : Type := mkPending { p_source : Z; p_session : Z; p_node : NodeId; p_response_type : Z }.

Record Peer : Type := mkPeer { pe_node : option NodeId; pe_expected : option NodeId; pe_buffer : list Z }.

(** [Peer::claim] and [reconnect_node]. *)
Definition claim (n : NodeId) (p : Peer) : Peer * bool :=
  match pe_node p with
  | Some _ => (p, false)
  | None => (mkPeer (Some n) (pe_expected p) (pe_buffer p), true)
  end.

Definition reconnect_node (p : Peer) : option NodeId :=
  match pe_expected p with Some n => Some n | None => pe_node p end.

Record State : Type := mkState {
  next_request : Z;
  nodes : gmap NodeId Z;
  peers : gmap Z Peer;
  pending : gmap Z Pending;
}.

Definition state_default : State := mkState 0 ∅ ∅ ∅.

Definition set_next x (s : State) := mkState x (nodes s) (peers s) (pending s).
Definition set_nodes x (s : State) := mkState (next_request s) x (peers s) (pending s).
Definition set_peers x (s : State) := mkState (next_request s) (nodes s) x (pending s).
Definition set_pending x (s : State) := mkState (next_request s) (nodes s) (peers s) x.

Inductive Answer : Type := Done | APayload (bytes : list Z) | Failed (reason : string).

Inductive Command : Type :=
  | CSend (addr : ClusterAddr) (ty : Z) (bytes : list Z)
  | CRequest (addr : ClusterAddr) (ty resp_ty : Z) (bytes : list Z)
  | CTimeout (id : Z)
  | CConnect (n : NodeId) (addr : string).

Inductive SocketEvent : Type :=
  | Accept (id : Z)
  | Data (id : Z) (bytes : list Z)
  | Close (id : Z)
  | SocketError (id : Z)
  | OtherEvent.

(** What the service does to the rest of the node. *)
Inductive Out : Type :=
  | OFrame (socket : Z) (e : Envelope)               (** [net::send] of its frame *)
  | OShutdown (socket : Z)
  | OConnect (n : NodeId) (addr : string)            (** [net::connect], awaited *)
  | OStart (socket : Z)                              (** [net::start], awaited *)
  | OAnswer (dest session : Z) (a : Answer)          (** the answer to a local request *)
  | ORefuse (dest session : Z)                       (** [reply_error] *)
  | OTimer (id : Z)                                  (** sleep, then [Command::Timeout] *)
  | ORetry (n : NodeId) (addr : string)              (** sleep, then [Command::Connect] *)
  | OCall (source : NodeId) (req : option Z) (key : ServiceKey) (ty : Z) (bytes : list Z)  (** a cluster handler *)
  | OLog.

(** A suspended handler. *)
Inductive Task : Type :=
  | TConnect (expected : NodeId) (addr : string)
  | TStart (socket : Z)
  | TInvoke (socket : Z) (request : Z) (resp_ty : Z) (wants_reply : bool) (rest : list Envelope).

Record W : Type := mkW { st : State; outs : list Out }.

Definition on_st (f : State → State) (w : W) : W := mkW (f (st w)) (outs w).
Definition emit (o : Out) (w : W) : W := mkW (st w) (outs w ++ [o]).

Section service.
Context {T C : Type} (encode_to_vec : Envelope → list Z) (decode : list Z → option Envelope).
Context (registry : HandlerRegistry (T := T) (C := C)) (config : ClusterConfig) (local : NodeId).

Definition hello : Envelope :=
  mkEnvelope PROTOCOL_VERSION (kind_code Hello) local 0 0 None [] EmptyString (default EmptyString (advertised config)).

Definition transmit (net_up : bool) (socket : Z) (e : Envelope) (w : W) : W * option ClusterError :=
  match frame encode_to_vec e (max_frame_len config) with
  | inr reason => (w, Some (Protocol reason))
  | inl _ => if net_up then (emit (OFrame socket e) w, None)
             else (w, Some (Local (NameNotFound "net")))
  end.

Definition shutdown (net_up : bool) (socket : Z) (w : W) : W := if net_up then emit (OShutdown socket) w else w.

(** [ctx.reply]: only a request with a session gets one. *)
Definition reply (m : Message) (a : Answer) (w : W) : W :=
  if needs_reply m then emit (OAnswer (Message.source m) (Message.session m) a) w else w.

Definition reason_of (e : ClusterError) : string :=
  match e with
  | NodeUnavailable _ => "node not connected"
  | Protocol r => r
  | _ => "local error"
  end.

Definition fail (m : Message) (reason : string) (w : W) : W := reply m (Failed reason) w.

Definition timeout (id : Z) (w : W) : W :=
  match pending (st w) !! id with
  | Some p => emit (OAnswer (p_source p) (p_session p) (Failed "request timed out"))
                (on_st (set_pending (delete id (pending (st w)))) w)
  | None => w
  end.

Definition outbound (net_up : bool) (a : ClusterAddr) (ty id : Z) (k : Kind) (bytes : list Z) (w : W)
    : W * option ClusterError :=
  match nodes (st w) !! node a with
  | None => (w, Some (NodeUnavailable (node a)))
  | Some socket =>
      transmit net_up socket
        (mkEnvelope PROTOCOL_VERSION (kind_code k) local id ty (Some (key_target (from_addr (service a)))) bytes
           EmptyString EmptyString) w
  end.

(** The [Request] arm of [dispatch]. *)
Definition request (net_up : bool) (m : Message) (a : ClusterAddr) (ty resp_ty : Z) (bytes : list Z) (w : W) : W :=
  let id := Z.max 1 (next_request (st w) +w 1) in
  let p := mkPending (Message.source m) (Message.session m) (node a) resp_ty in
  let w := on_st (λ s, set_pending (<[id := p]> (pending s)) (set_next id s)) w in
  match outbound net_up a ty id Request bytes w with
  | (w, Some e) => fail m (reason_of e) (on_st (λ s, set_pending (delete id (pending s)) s) w)
  | (w, None) => emit (OTimer id) w
  end.

(** [connect] up to its await. *)
Definition connect (n : NodeId) (addr : string) (w : W) : W * option Task :=
  match nodes (st w) !! n with
  | Some _ => (w, None)
  | None => (emit (OConnect n addr) w, Some (TConnect n addr))
  end.

(** ... and after it. *)
Definition connected (net_up : bool) (n : NodeId) (addr : string) (r : option Z) (w : W) : W :=
  match r with
  | Some socket =>
      let w := on_st (λ s, set_peers (<[socket := mkPeer None (Some n) []]> (peers s)) s) w in
      match transmit net_up socket hello w with
      | (w, None) => w
      | (w, Some _) => shutdown net_up socket w
      end
  | None => emit (ORetry n addr) (emit OLog w)
  end.

Definition initiator (n : NodeId) (p : Peer) : NodeId := match pe_expected p with Some _ => local | None => n end.

Definition accept_hello (net_up : bool) (socket : Z) (n : NodeId) (w : W) : W :=
  if decide (n = local) then shutdown net_up socket w else
  match peers (st w) !! socket with
  | None => w
  | Some peer =>
      if is_some_and (λ e, bool_decide (e ≠ n)) (pe_expected peer) then shutdown net_up socket w else
      match claim n peer with
      | (_, false) => shutdown net_up socket w
      | (peer', true) =>
          let w := on_st (λ s, set_peers (<[socket := peer']> (peers s)) s) w in
          let new_initiator := initiator n peer in
          let lost :=
            match nodes (st w) !! n with
            | Some old =>
                let old_initiator := match peers (st w) !! old with Some op => initiator n op | None => n end in
                bool_decide (old_initiator ≤ new_initiator)
            | None => false
            end in
          if lost then shutdown net_up socket w else
          let before := nodes (st w) !! n in
          let w := on_st (λ s, set_nodes (<[n := socket]> (nodes s)) s) w in
          match before with
          | Some old =>
              if decide (old = socket) then w else
              shutdown net_up old (on_st (λ s, set_peers (delete old (peers s)) s) w)
          | None => w
          end
      end
  end.

(** [invoke] up to the handler's await; an unknown handler fails at once. *)
Definition respond (net_up : bool) (socket id resp_ty : Z) (wants_reply : bool) (r : list Z + string) (w : W) : W :=
  if wants_reply then
    let '(k, bytes, err) := match r with
                            | inl bytes => (Response, bytes, EmptyString)
                            | inr err => (Wire.Error, [], err)
                            end in
    (transmit net_up socket (mkEnvelope PROTOCOL_VERSION (kind_code k) local id resp_ty None bytes err EmptyString) w).1
  else w.

Definition invoke (net_up : bool) (socket : Z) (source : NodeId) (e : Envelope) (wants_reply : bool) (w : W)
    : W * option (Z * Z * bool) :=
  let target := match target e with Some t => from_target t | None => None end in
  match target with
  | Some key =>
      match handlers registry !! (key, type_id e) with
      | Some h =>
          (emit (OCall source (if wants_reply then Some (request_id e) else None) key (type_id e) (payload e)) w,
           Some (request_id e, response_type h, wants_reply))
      | None => (respond net_up socket (request_id e) 0 wants_reply (inr "no such cluster handler"%string) w, None)
      end
  | None => (respond net_up socket (request_id e) 0 wants_reply (inr "no such cluster handler"%string) w, None)
  end.

Definition complete (source : NodeId) (e : Envelope) (failed : bool) (w : W) : W :=
  match pending (st w) !! request_id e with
  | None => w
  | Some p =>
      let a := if decide (p_node p ≠ source) then Failed "answer from another node" else
               if failed then Failed (error e) else
               if decide (p_response_type p ≠ type_id e) then Failed "answer of another type" else
               APayload (payload e) in
      emit (OAnswer (p_source p) (p_session p) a) (on_st (set_pending (delete (request_id e) (pending (st w)))) w)
  end.

(** A handler that suspends returns what the rest of [invoke] needs. *)
Definition on_envelope (net_up : bool) (socket : Z) (e : Envelope) (w : W) : W * option (Z * Z * bool) :=
  if decide (version e ≠ PROTOCOL_VERSION) then (shutdown net_up socket w, None) else
  match node_id_new (source_node e) with
  | inr _ => (shutdown net_up socket w, None)
  | inl source =>
      match kind_of (kind e) with
      | None => (shutdown net_up socket w, None)
      | Some Hello => (accept_hello net_up socket source w, None)
      | Some k =>
          if decide ((p ← peers (st w) !! socket; pe_node p) ≠ Some source) then (shutdown net_up socket w, None) else
          match k with
          | Send => invoke net_up socket source e false w
          | Request => invoke net_up socket source e true w
          | Response => (complete source e false w, None)
          | Wire.Error => (complete source e true w, None)
          | Hello => (w, None)
          end
      end
  end.

(** The [for frame in frames] loop, up to a frame whose handler suspends. *)
Fixpoint run_frames (net_up : bool) (socket : Z) (frames : list Envelope) (w : W) : W * option Task :=
  match frames with
  | [] => (w, None)
  | e :: rest =>
      match on_envelope net_up socket e w with
      | (w, Some (id, resp_ty, wants)) => (w, Some (TInvoke socket id resp_ty wants rest))
      | (w, None) => run_frames net_up socket rest w
      end
  end.

(** [None] is a panic inside [wire::drain]. *)
Definition on_data (net_up : bool) (id : Z) (bytes : list Z) (w : W) : option (W * option Task) :=
  match peers (st w) !! id with
  | None => Some (w, None)
  | Some p =>
      '(buffer, r) ← drain decode (pe_buffer p ++ bytes) (max_frame_len config);
      let w := on_st (λ s, set_peers (<[id := mkPeer (pe_node p) (pe_expected p) buffer]> (peers s)) s) w in
      Some (match r with
            | inl frames => run_frames net_up id frames w
            | inr _ => (shutdown net_up id (emit OLog w), None)
            end)
  end.

(** The pending requests of a node, answered in some order. *)
Definition fail_pending (n : NodeId) (w : W) : W :=
  let ids := (map_to_list (pending (st w))).*1 in
  foldl (λ w id,
    match pending (st w) !! id with
    | Some p => if decide (p_node p = n) then
                  emit (OAnswer (p_source p) (p_session p) (Failed "connection lost"))
                    (on_st (set_pending (delete id (pending (st w)))) w)
                else w
    | None => w
    end) w ids.

Definition disconnected (socket : Z) (w : W) : W :=
  let peer := peers (st w) !! socket in
  let w := on_st (λ s, set_peers (delete socket (peers s)) s) w in
  match (p ← peer;
         n ← reconnect_node p;
         if is_some_and (λ active, bool_decide (active ≠ socket)) (nodes (st w) !! n) then None else Some n) with
  | None => w
  | Some n =>
      let w := if decide (nodes (st w) !! n = Some socket)
               then on_st (λ s, set_nodes (delete n (nodes s)) s) w else w in
      let w := fail_pending n w in
      match list_find (λ s, seed_id s = n) (seeds config) with
      | Some (_, s) => emit (ORetry n (address s)) w
      | None => w
      end
  end.

Definition on_socket (net_up : bool) (ev : SocketEvent) (w : W) : option (W * option Task) :=
  match ev with
  | Accept id =>
      let w := on_st (λ s, set_peers (<[id := mkPeer None None []]> (peers s)) s) w in
      Some (emit (OStart id) w, Some (TStart id))
  | Data id bytes => on_data net_up id bytes w
  | Close id | SocketError id => Some (disconnected id w, None)
  | OtherEvent => Some (w, None)
  end.

(** [dispatch]: the payload of a message is a socket event, a command, or neither. *)
Inductive Incoming : Type := ISocket (ev : SocketEvent) | ICommand (c : Command) | IOther.

Definition dispatch (net_up : bool) (m : Message) (i : Incoming) (w : W) : option (W * option Task) :=
  match i with
  | ISocket ev => on_socket net_up ev w
  | ICommand (CConnect n addr) => Some (connect n addr w)
  | ICommand (CTimeout id) => Some (timeout id w, None)
  | ICommand (CSend a ty bytes) =>
      Some (match outbound net_up a ty 0 Send bytes w with
            | (w, None) => reply m Done w
            | (w, Some e) => fail m (reason_of e) w
            end, None)
  | ICommand (CRequest a ty resp_ty bytes) => Some (request net_up m a ty resp_ty bytes w, None)
  | IOther => Some (if needs_reply m then emit (ORefuse (Message.source m) (Message.session m)) w else w, None)
  end.

(** What a suspended handler is resumed with. *)
Inductive Resumed : Type :=
  | RConnected (r : option Z)
  | RStarted (ok : bool)
  | RHandled (r : list Z + string).

Definition resume (net_up : bool) (t : Task) (r : Resumed) (w : W) : option (W * option Task) :=
  match t, r with
  | TConnect n addr, RConnected r => Some (connected net_up n addr r w, None)
  | TStart id, RStarted ok => Some (if ok then (transmit net_up id hello w).1 else w, None)
  | TInvoke socket id resp_ty wants rest, RHandled r =>
      Some (run_frames net_up socket rest (respond net_up socket id resp_ty wants r w))
  | _, _ => None
  end.


(** ** The service as a system of suspended handlers *)

(** A message is dispatched, or the [k]-th suspended handler is resumed. *)
Inductive Event : Type :=
  | EMsg (net_up : bool) (m : Message) (i : Incoming)
  | EResume (net_up : bool) (k : nat) (r : Resumed).

Record Sys : Type := mkSys { world : W; tasks : list Task }.

Definition sys_new : Sys := mkSys (mkW state_default []) [].

Definition step (ev : Event) (s : Sys) : option Sys :=
  match ev with
  | EMsg net m i =>
      '(w, t) ← dispatch net m i (world s);
      Some (mkSys w (tasks s ++ option_list t))
  | EResume net k r =>
      t ← tasks s !! k;
      '(w, t') ← resume net t r (world s);
      Some (mkSys w (delete k (tasks s) ++ option_list t'))
  end.

Fixpoint run (evs : list Event) (s : Sys) : option Sys :=
  match evs with
  | [] => Some s
  | ev :: evs => s ← step ev s; run evs s
  end.

Lemma run_app evs evs' s : run (evs ++ evs') s = run evs s ≫= run evs'.
Proof.
  revert s. induction evs as [|ev evs IH]; intros s; [done|]. cbn [run app].
  destruct (step ev s) as [s1|]; cbn [mbind option_bind]; [apply IH|done].
Qed.

Lemma run_snoc evs ev s s' :
  run (evs ++ [ev]) s = Some s' → ∃ s1, run evs s = Some s1 ∧ step ev s1 = Some s'.
Proof.
  rewrite run_app. intros (s1 & Hr & Hs)%bind_Some. exists s1. split; [done|].
  cbn [run] in Hs. by destruct (step ev s1).
Qed.

(** A property of the world that every dispatch and every resumption keeps holds of
    every reachable world. *)
Lemma run_invariant (P : list Event → W → Prop) :
  P [] (mkW state_default []) →
  (∀ evs w net m i w' t, P evs w → dispatch net m i w = Some (w', t) → P (evs ++ [EMsg net m i]) w') →
  (∀ evs w net k t r w' t', P evs w → resume net t r w = Some (w', t') → P (evs ++ [EResume net k r]) w') →
  ∀ evs s, run evs sys_new = Some s → P evs (world s).
Proof.
  intros H0 Hd Hr evs. induction evs as [|ev evs IH] using rev_ind; intros s Hs; [by injection Hs as <-|].
  apply run_snoc in Hs as (s1 & H1 & Hs). specialize (IH s1 H1). destruct ev as [net m i|net k r]; cbn [step] in Hs.
  - apply bind_Some in Hs as ([w t] & Hw & [= <-]). by eapply Hd.
  - apply bind_Some in Hs as (t & _ & Hs). apply bind_Some in Hs as ([w t'] & Hw & [= <-]). by eapply Hr.
Qed.

(** ** Every request is answered once *)

(** The local requests answered so far, and the ones waiting for a response. *)
Definition answers (os : list Out) : list (Z * Z) :=
  omap (λ o, match o with OAnswer d s _ => Some (d, s) | _ => None end) os.

Definition who (p : Pending) : Z * Z := (p_source p, p_session p).

Definition waiting (s : State) : list (Z * Z) := who <$> (map_to_list (pending s)).*2.

(** What an event asks the service for. *)
Definition asks (ev : Event) : list (Z * Z) :=
  match ev with
  | EMsg _ m (ICommand (CSend _ _ _)) | EMsg _ m (ICommand (CRequest _ _ _ _)) =>
      if needs_reply m then [(Message.source m, Message.session m)] else []
  | _ => []
  end.

Definition is_request (ev : Event) : bool :=
  match ev with EMsg _ _ (ICommand (CRequest _ _ _ _)) => true | _ => false end.

(** A request comes from [Ctx::request]: it has a session. *)
Definition well_asked (ev : Event) : Prop :=
  match ev with EMsg _ m (ICommand (CRequest _ _ _ _)) => needs_reply m = true | _ => True end.

Definition timers (os : list Out) : list Z := omap (λ o, match o with OTimer id => Some id | _ => None end) os.

(** The books of one step: [extra] is what was asked in it. *)
Definition balanced (extra : list (Z * Z)) (w w' : W) : Prop :=
  answers (outs w') ++ waiting (st w') ≡ₚ answers (outs w) ++ waiting (st w) ++ extra.

(** The numbers in use were given out, and each has its timer. *)
Record numbered (w : W) : Prop := {
  num_next : 0 ≤ next_request (st w);
  num_range : ∀ id, is_Some (pending (st w) !! id) → 1 ≤ id ≤ next_request (st w);
  num_timer : ∀ id, is_Some (pending (st w) !! id) → id ∈ timers (outs w);
}.

(** A step that asks nothing: the books balance and no number is given out. *)
Record settles (w w' : W) : Prop := {
  set_balanced : balanced [] w w';
  set_next_same : next_request (st w') = next_request (st w);
  set_pending_sub : pending (st w') ⊆ pending (st w);
  set_timers : timers (outs w) ⊆ timers (outs w');
}.

#[local] Instance settles_preorder : PreOrder settles.
Proof.
  split; [intros w; split; unfold balanced; rewrite ?app_nil_r; done|].
  intros w1 w2 w3 [B1 N1 P1 T1] [B2 N2 P2 T2]. split; [|congruence|by etrans|by etrans].
  unfold balanced in *. rewrite app_nil_r in *. by rewrite B2.
Qed.

Lemma emit_settles o w :
  (∀ d s a, o ≠ OAnswer d s a) → settles w (emit o w).
Proof.
  intros Ho. unfold emit. split; cbn; [|done|done|].
  - unfold balanced, answers. cbn. rewrite omap_app, app_nil_r. destruct o; try by rewrite app_nil_r. by destruct (Ho dest session a).
  - unfold timers. rewrite omap_app. set_solver.
Qed.

Lemma on_st_settles f w :
  (∀ s, pending (f s) = pending s ∧ next_request (f s) = next_request s) → settles w (on_st f w).
Proof.
  intros Hf. destruct (Hf (st w)) as [Hp Hn]. split; cbn; [|done|by rewrite Hp|done].
  unfold balanced, waiting. cbn. by rewrite Hp, app_nil_r.
Qed.

Lemma waiting_delete id p s :
  pending s !! id = Some p → waiting s ≡ₚ who p :: waiting (set_pending (delete id (pending s)) s).
Proof.
  intros Hp. unfold waiting. cbn. rewrite <-(insert_delete_id (pending s) id p Hp) at 1.
  rewrite map_to_list_insert by apply lookup_delete_eq. done.
Qed.

(** Answering a pending request and forgetting it. *)
Lemma answer_settles id p a w :
  pending (st w) !! id = Some p →
  settles w (emit (OAnswer (p_source p) (p_session p) a) (on_st (set_pending (delete id (pending (st w)))) w)).
Proof.
  intros Hp. split; cbn; [|done|apply delete_subseteq|].
  - unfold balanced, answers, emit. cbn. rewrite omap_app, app_nil_r. rewrite (waiting_delete id p (st w) Hp).
    cbn. rewrite <-app_assoc. done.
  - unfold timers. rewrite omap_app. set_solver.
Qed.

(** Peel the last effect off a chain of effects. *)
Ltac settle :=
  repeat match goal with
    | |- settles ?w ?w => reflexivity
    | |- settles _ (match ?x with _ => _ end) => destruct x eqn:?
    | |- settles _ (if ?x then _ else _) => destruct x eqn:?
    | |- settles _ (emit _ _) => etrans; [|apply emit_settles; discriminate]
    | |- settles _ (on_st _ _) => etrans; [|apply on_st_settles; intros ?; split; reflexivity]
    end.

Lemma transmit_settles net socket e w : settles w (transmit net socket e w).1.
Proof. unfold transmit. destruct (frame _ _ _); cbn [fst]; [destruct net; cbn [fst]|]; settle. Qed.

Lemma shutdown_settles net socket w : settles w (shutdown net socket w).
Proof. unfold shutdown. settle. Qed.

Lemma outbound_settles net a ty id k bytes w : settles w (outbound net a ty id k bytes w).1.
Proof. unfold outbound. destruct (nodes (st w) !! node a); [apply transmit_settles|reflexivity]. Qed.

Lemma timeout_settles id w : settles w (timeout id w).
Proof. unfold timeout. destruct (pending (st w) !! id) eqn:E; [by apply answer_settles|reflexivity]. Qed.

Lemma connect_settles n addr w : settles w (connect n addr w).1.
Proof. unfold connect. destruct (nodes (st w) !! n); cbn [fst]; settle. Qed.

Lemma connected_settles net n addr r w : settles w (connected net n addr r w).
Proof.
  unfold connected. destruct r as [socket|]; [|settle].
  pose proof (transmit_settles net socket hello (on_st (λ s, set_peers (<[socket:=mkPeer None (Some n) []]> (peers s)) s) w)) as Ht.
  destruct (transmit _ _ _ _) as [w1 [e|]]; cbn [fst] in Ht.
  - etrans; [|apply shutdown_settles]. etrans; [|apply Ht]. settle.
  - etrans; [|apply Ht]. settle.
Qed.

Lemma accept_hello_settles net socket n w : settles w (accept_hello net socket n w).
Proof.
  unfold accept_hello. case_decide; [apply shutdown_settles|]. destruct (peers (st w) !! socket) as [p|]; [|reflexivity].
  destruct (is_some_and _ _); [apply shutdown_settles|]. destruct (claim n p) as [p' []]; [|apply shutdown_settles].
  match goal with |- settles _ (if ?b then _ else _) => destruct b end; [etrans; [|apply shutdown_settles]; settle|].
  destruct (nodes _ !! n); [|settle]. case_decide; [settle|]. etrans; [|apply shutdown_settles]. settle.
Qed.

Lemma respond_settles net socket id ty wants r w : settles w (respond net socket id ty wants r w).
Proof. unfold respond. destruct wants; [|reflexivity]. destruct r; apply transmit_settles. Qed.

Lemma invoke_settles net socket src e wants w : settles w (invoke net socket src e wants w).1.
Proof.
  unfold invoke. destruct (match target e with Some t => from_target t | None => None end) as [k|]; [|apply respond_settles].
  destruct (handlers registry !! _); [cbn [fst]; settle|apply respond_settles].
Qed.

Lemma complete_settles src e failed w : settles w (complete src e failed w).
Proof. unfold complete. destruct (pending (st w) !! _) eqn:E; [by apply answer_settles|reflexivity]. Qed.

Lemma on_envelope_settles net socket e w : settles w (on_envelope net socket e w).1.
Proof.
  unfold on_envelope. case_decide; [apply shutdown_settles|]. destruct (node_id_new _); [|apply shutdown_settles].
  destruct (kind_of _) as [k|]; [|apply shutdown_settles].
  destruct k; try (case_decide; [apply shutdown_settles|]);
    first [apply accept_hello_settles | apply invoke_settles | apply complete_settles].
Qed.

Lemma run_frames_settles net socket es w : settles w (run_frames net socket es w).1.
Proof.
  revert w. induction es as [|e es IH]; intros w; cbn [run_frames]; [reflexivity|].
  pose proof (on_envelope_settles net socket e w) as He. destruct (on_envelope net socket e w) as [w1 [[[??]?]|]]; cbn [fst] in *; [done|].
  etrans; [exact He|apply IH].
Qed.

Lemma fail_pending_settles n w : settles w (fail_pending n w).
Proof.
  unfold fail_pending. generalize ((map_to_list (pending (st w))).*1). intros ids. revert w.
  induction ids as [|id ids IH]; intros w; cbn [foldl]; [reflexivity|]. etrans; [|apply IH].
  destruct (pending (st w) !! id) eqn:E; [|reflexivity]. case_decide; [by apply answer_settles|reflexivity].
Qed.

Lemma disconnected_settles socket w : settles w (disconnected socket w).
Proof.
  unfold disconnected. cbv zeta. match goal with |- settles _ (match ?x with _ => _ end) => destruct x as [n|] end; [|settle].
  assert (Hf : ∀ w1, settles w w1 → settles w (match list_find (λ s, seed_id s = n) (seeds config) with
      | Some (_, s) => emit (ORetry n (address s)) (fail_pending n w1) | None => fail_pending n w1 end)).
  { intros w1 H1. destruct (list_find _ _) as [[? s]|]; [etrans; [|apply emit_settles; discriminate]|];
      (etrans; [exact H1|apply fail_pending_settles]). }
  apply Hf. case_decide; settle.
Qed.

Lemma on_socket_settles net ev w w' t : on_socket net ev w = Some (w', t) → settles w w'.
Proof.
  destruct ev as [id|id bytes|id|id|]; cbn [on_socket].
  - intros [= <- <-]. settle.
  - unfold on_data. destruct (peers (st w) !! id) as [p|]; [|by intros [= <- <-]].
    intros ([buf r] & Hd & Hw)%bind_Some. injection Hw as Hw. destruct r as [frames|].
    + apply (f_equal fst) in Hw. cbn [fst] in Hw. rewrite <-Hw. etrans; [|apply run_frames_settles]. settle.
    + injection Hw as <- <-. etrans; [|apply shutdown_settles]. settle.
  - intros [= <- <-]. apply disconnected_settles.
  - intros [= <- <-]. apply disconnected_settles.
  - by intros [= <- <-].
Qed.

Lemma resume_settles net t r w w' t' : resume net t r w = Some (w', t') → settles w w'.
Proof.
  destruct t, r; cbn [resume]; try done.
  - intros [= <- <-]. apply connected_settles.
  - destruct ok; intros [= <- <-]; [apply transmit_settles|reflexivity].
  - intros [= Hw]. apply (f_equal fst) in Hw. cbn [fst] in Hw. rewrite <-Hw.
    etrans; [apply respond_settles|apply run_frames_settles].
Qed.

Lemma settles_numbered w w' : settles w w' → numbered w → numbered w'.
Proof.
  intros [_ Hn Hp Ht] [N0 NR NT]. split; rewrite ?Hn; [done|..]; intros id [p Hid]; pose proof (lookup_weaken _ _ _ _ Hid Hp); eauto.
Qed.

(** What the [Send] and [Request] arms and the others do to the books. *)
Record progresses (ev : Event) (w w' : W) : Prop := {
  pr_balanced : balanced (asks ev) w w';
  pr_numbered : numbered w';
  pr_next : next_request (st w') = next_request (st w) + Z.b2z (is_request ev);
}.

Lemma settles_progresses ev w w' : asks ev = [] → is_request ev = false → numbered w → settles w w' → progresses ev w w'.
Proof.
  intros Ha Hi Hn Hs. split; [rewrite Ha; apply Hs|by eapply settles_numbered|]. rewrite Hi. cbn. rewrite (set_next_same _ _ Hs). lia.
Qed.

Lemma reply_balanced m a w :
  balanced (if needs_reply m then [(Message.source m, Message.session m)] else []) w (reply m a w).
Proof.
  unfold reply, balanced. destruct (needs_reply m); [|by rewrite app_nil_r].
  unfold answers, emit. cbn. rewrite omap_app. cbn. rewrite <-app_assoc. apply Permutation_app_head, Permutation_app_comm.
Qed.

Lemma reply_numbered m a w : numbered w → numbered (reply m a w).
Proof.
  intros [N0 NR NT]. unfold reply. destruct (needs_reply m); [|done]. split; cbn; [done|done|].
  intros id Hid. unfold timers. rewrite omap_app. specialize (NT id Hid). set_solver.
Qed.

Lemma balanced_after extra w w1 w2 : settles w w1 → balanced extra w1 w2 → balanced extra w w2.
Proof. intros [B _ _ _]. unfold balanced in *. rewrite app_nil_r in B. intros ->. rewrite !app_assoc, B. done. Qed.

Lemma send_progresses net m a ty bytes w w' t :
  numbered w → dispatch net m (ICommand (CSend a ty bytes)) w = Some (w', t) →
  progresses (EMsg net m (ICommand (CSend a ty bytes))) w w'.
Proof.
  intros Hn. cbn [dispatch]. pose proof (outbound_settles net a ty 0 Send bytes w) as Ho.
  destruct (outbound net a ty 0 Send bytes w) as [w1 e]. cbn [fst] in Ho.
  assert (Hall : ∀ x, progresses (EMsg net m (ICommand (CSend a ty bytes))) w (reply m x w1)).
  { intros x. split; cbn [asks is_request].
    - eapply balanced_after; [exact Ho|apply reply_balanced].
    - by eapply reply_numbered, settles_numbered.
    - rewrite <-(set_next_same _ _ Ho). unfold reply. destruct (needs_reply m); cbn; lia. }
  destruct e; intros [= <- <-]; apply Hall.
Qed.

(** The state in which a request has been numbered. *)
Lemma ask_balanced id p w :
  pending (st w) !! id = None →
  balanced [who p] w (on_st (λ s, set_pending (<[id := p]> (pending s)) (set_next id s)) w).
Proof.
  intros Hid. unfold balanced, waiting. cbn. rewrite map_to_list_insert by done. cbn.
  apply Permutation_app_head. by rewrite Permutation_app_comm.
Qed.

Lemma outbound_st net a ty id k bytes w :
  st (outbound net a ty id k bytes w).1 = st w ∧ answers (outs (outbound net a ty id k bytes w).1) = answers (outs w)
  ∧ timers (outs w) ⊆ timers (outs (outbound net a ty id k bytes w).1)
  ∧ ((outbound net a ty id k bytes w).2 ≠ None → (outbound net a ty id k bytes w).1 = w).
Proof.
  unfold outbound, transmit. destruct (nodes (st w) !! node a); [|done]. destruct (frame _ _ _); [|done]. destruct net; [|done].
  cbn. unfold answers, timers. rewrite !omap_app. cbn. rewrite app_nil_r. split_and!; [done|done|set_solver|done].
Qed.

Lemma request_progresses net m a ty rty bytes w w' t :
  numbered w → needs_reply m = true → next_request (st w) < U64_MAX →
  dispatch net m (ICommand (CRequest a ty rty bytes)) w = Some (w', t) →
  progresses (EMsg net m (ICommand (CRequest a ty rty bytes))) w w'.
Proof.
  intros [N0 NR NT] Hm Hlt [= <- <-]. unfold request.
  replace (Z.max 1 (next_request (st w) +w 1)) with (next_request (st w) + 1).
  2:{ rewrite wrapping_add_small by (unfold U64_MAX in Hlt; lia). lia. }
  set (id := next_request (st w) + 1). set (p := mkPending _ _ _ _).
  assert (Hnew : pending (st w) !! id = None).
  { destruct (pending (st w) !! id) eqn:E; [|done]. assert (1 ≤ id ≤ next_request (st w)) by (apply NR; by eexists). lia. }
  set (w1 := on_st _ w). pose proof (outbound_st net a ty id Request bytes w1) as (Hst & Han & Hti & Her).
  destruct (outbound net a ty id Request bytes w1) as [w2 e]. cbn [fst snd] in *.
  destruct e as [e|]; cbn [asks is_request Z.b2z].
  - specialize (Her ltac:(done)). subst w2.
    set (w3 := on_st _ w1).
    assert (Hw3 : st w3 = set_next id (st w) ∧ outs w3 = outs w).
    { split; [|done]. unfold w3, w1. cbn. rewrite delete_insert_id by done. done. }
    destruct Hw3 as [Hs3 Ho3]. unfold fail. split.
    + cbn [asks]. pose proof (reply_balanced m (Failed (reason_of e)) w3) as Hb. unfold balanced in *.
      rewrite Ho3, Hs3 in Hb. exact Hb.
    + apply reply_numbered. split; rewrite ?Hs3, ?Ho3; cbn; [lia| |done]. intros i Hi. specialize (NR i Hi). lia.
    + unfold reply. destruct (needs_reply m); cbn [st emit]; rewrite Hs3; cbn; lia.
  - assert (Hst2 : st (emit (OTimer id) w2) = st w1) by exact Hst. split.
    + cbn [asks]. rewrite Hm. pose proof (ask_balanced id p w Hnew) as Hb. change (who p) with (Message.source m, Message.session m) in Hb.
      fold w1 in Hb. unfold balanced in *. rewrite Hst2. unfold emit, answers. cbn [outs]. rewrite omap_app. cbn [omap list_omap].
      rewrite app_nil_r. fold (answers (outs w2)). rewrite Han. exact Hb.
    + split; rewrite Hst2; cbn; [lia|..].
      * intros i Hi. destruct (decide (i = id)) as [->|]; [lia|]. rewrite lookup_insert_ne in Hi by done. specialize (NR i Hi). lia.
      * intros i Hi. unfold timers. rewrite omap_app. apply elem_of_app. destruct (decide (i = id)) as [->|]; [right; by left|].
        rewrite lookup_insert_ne in Hi by done. left. apply Hti, NT, Hi.
    + rewrite Hst2. cbn. lia.
Qed.

Lemma dispatch_progresses net m i w w' t :
  numbered w → well_asked (EMsg net m i) → next_request (st w) < U64_MAX →
  dispatch net m i w = Some (w', t) → progresses (EMsg net m i) w w'.
Proof.
  intros Hn Hw Hlt Hd. destruct i as [ev|[a ty bytes|a ty rty bytes|id|n addr]|].
  - by eapply settles_progresses, on_socket_settles.
  - by eapply send_progresses.
  - by eapply request_progresses.
  - injection Hd as <- <-. apply settles_progresses; [done..|apply timeout_settles].
  - cbn [dispatch] in Hd. apply settles_progresses; [done..|]. pose proof (connect_settles n addr w) as Hc.
    injection Hd as Hd. by rewrite Hd in Hc.
  - injection Hd as <- <-. apply settles_progresses; [done..|]. settle.
Qed.

Record books (evs : list Event) (w : W) : Prop := {
  bk_numbered : numbered w;
  bk_balance : answers (outs w) ++ waiting (st w) ≡ₚ evs ≫= asks;
  bk_next : next_request (st w) ≤ Z.of_nat (length evs);
}.

Lemma cluster_books_step ev evs w w' :
  books evs w → (numbered w → next_request (st w) < U64_MAX → progresses ev w w') →
  Z.of_nat (length evs) < U64_MAX → books (evs ++ [ev]) w'.
Proof.
  intros [Bn Bb Bx] Hp Hl. destruct Hp as [Pb Pn Px]; [done|lia|]. split; [done|..].
  - rewrite bind_app. cbn [mbind list_bind]. rewrite app_nil_r. unfold balanced in Pb. rewrite Pb, app_assoc, Bb. done.
  - rewrite Px, length_app. cbn. destruct (is_request ev); cbn; lia.
Qed.

Lemma run_books evs s :
  Forall well_asked evs → Z.of_nat (length evs) ≤ U64_MAX → run evs sys_new = Some s → books evs (world s).
Proof.
  intros Hw Hl Hr. pattern evs, (world s) in Hr. revert Hw Hl. revert evs s Hr.
  refine (run_invariant (λ evs w, Forall well_asked evs → Z.of_nat (length evs) ≤ U64_MAX → books evs w) _ _ _).
  - intros _ _. split; [|done|done]. split; [done|..]; intros id [p Hp]; cbn in Hp; by rewrite lookup_empty in Hp.
  - intros evs w net m i w' t IH Hd [Hw [Hm _]%Forall_cons]%Forall_app Hl. rewrite length_app in Hl. cbn in Hl.
    eapply cluster_books_step; [apply IH; [done|lia]| |lia]. intros Hn Hx. by eapply dispatch_progresses.
  - intros evs w net k t r w' t' IH Hd [Hw _]%Forall_app Hl. rewrite length_app in Hl. cbn in Hl.
    eapply cluster_books_step; [apply IH; [done|lia]| |lia]. intros Hn Hx. by eapply settles_progresses, resume_settles.
Qed.

(** The timeouts of a list of numbers, one after the other. *)
Definition timeout_events (net : bool) (m : Message) (ids : list Z) : list Event :=
  (λ id, EMsg net m (ICommand (CTimeout id))) <$> ids.

Lemma timeout_pending id w i : pending (st (timeout id w)) !! i = if decide (i = id) then None else pending (st w) !! i.
Proof.
  unfold timeout. destruct (pending (st w) !! id) eqn:E; cbn.
  - rewrite lookup_delete. repeat case_decide; congruence.
  - case_decide; congruence.
Qed.

Lemma timeouts_run net m ids s :
  ∃ s', run (timeout_events net m ids) s = Some s' ∧ settles (world s) (world s')
    ∧ ∀ i, i ∈ ids ∨ pending (st (world s)) !! i = None → pending (st (world s')) !! i = None.
Proof.
  revert s. induction ids as [|id ids IH]; intros s; [exists s; split; [done|]; split; [reflexivity|]; set_solver|].
  cbn. rewrite app_nil_r. destruct (IH (mkSys (timeout id (world s)) (tasks s))) as (s' & Hr & Hs & Hp). exists s'.
  split; [done|]. split; [etrans; [apply timeout_settles|exact Hs]|]. intros i Hi. apply Hp. cbn. rewrite timeout_pending.
  case_decide; [by right|]. set_solver.
Qed.

(** C12 Every request of a local service is answered exactly once: over any sequence of
    messages, socket events and resumptions, in any order and with any failures of the
    network, the answers given and the requests still pending are together exactly the
    ones that were asked; and once the timers that were started have fired, nothing is
    pending and each has had its one answer. *)
Theorem requests_answered_once evs s net m :
  Forall well_asked evs → Z.of_nat (length evs) ≤ U64_MAX → run evs sys_new = Some s →
  answers (outs (world s)) ++ waiting (st (world s)) ≡ₚ evs ≫= asks
  ∧ ∃ s', run (timeout_events net m (timers (outs (world s)))) s = Some s'
      ∧ pending (st (world s')) = ∅ ∧ answers (outs (world s')) ≡ₚ evs ≫= asks.
Proof.
  intros Hw Hl Hr. destruct (run_books evs s Hw Hl Hr) as [[_ _ Nt] Bb _]. split; [done|].
  destruct (timeouts_run net m (timers (outs (world s))) s) as (s' & Hr' & [Sb _ _ _] & Hp). exists s'. split; [done|].
  assert (He : pending (st (world s')) = ∅).
  { apply map_eq. intros i. rewrite lookup_empty. apply Hp. destruct (pending (st (world s)) !! i) eqn:E; [left|by right].
    apply Nt. by rewrite E. }
  split; [done|]. rewrite <-Bb. unfold balanced in Sb. rewrite app_nil_r in Sb. rewrite <-Sb. unfold waiting. rewrite He.
  by rewrite map_to_list_empty, app_nil_r.
Qed.

(** ** Connections and identities *)

(** The sockets an event brings in; the network service numbers them apart. *)
Definition opened (ev : Event) : list Z :=
  match ev with
  | EMsg _ _ (ISocket (Accept id)) => [id]
  | EResume _ _ (RConnected (Some id)) => [id]
  | _ => []
  end.

(** The connection of a node is one whose peer said it is that node, and was
    expected to be if this side opened it; the node is not the local one. *)
Record consistent (ids : list Z) (s : State) : Prop := {
  con_node : ∀ n k, nodes s !! n = Some k → ∃ p, peers s !! k = Some p ∧ pe_node p = Some n;
  con_remote : ∀ k p n, peers s !! k = Some p → pe_node p = Some n → n ≠ local;
  con_expected : ∀ k p n e, peers s !! k = Some p → pe_node p = Some n → pe_expected p = Some e → e = n;
  con_opened : ∀ k, is_Some (peers s !! k) → k ∈ ids;
}.

(** Steps that touch neither the connections nor the nodes. *)
Definition same_net (w w' : W) : Prop := nodes (st w') = nodes (st w) ∧ peers (st w') = peers (st w).

#[local] Instance same_net_preorder : PreOrder same_net.
Proof. split; [done|]. intros w1 w2 w3 [??] [??]. split; congruence. Qed.

Lemma consistent_same ids w w' : same_net w w' → consistent ids (st w) → consistent ids (st w').
Proof. intros [Hn Hp] [C1 C2 C3 C4]. split; rewrite ?Hn, ?Hp; done. Qed.

Lemma consistent_more ids ids' s : ids ⊆ ids' → consistent ids s → consistent ids' s.
Proof. intros Hi [C1 C2 C3 C4]. split; [done..|]. intros k Hk. by apply Hi, C4. Qed.

Lemma transmit_net net socket e w : same_net w (transmit net socket e w).1.
Proof. unfold transmit. destruct (frame _ _ _); [destruct net|]; done. Qed.

Lemma shutdown_net net socket w : same_net w (shutdown net socket w).
Proof. by destruct net. Qed.

Lemma respond_net net socket id ty wants r w : same_net w (respond net socket id ty wants r w).
Proof. unfold respond. destruct wants; [|done]. destruct r; apply transmit_net. Qed.

Lemma invoke_net net socket src e wants w : same_net w (invoke net socket src e wants w).1.
Proof.
  unfold invoke. destruct (match target e with Some t => from_target t | None => None end) as [k|]; [|apply respond_net].
  destruct (handlers registry !! _); [done|apply respond_net].
Qed.

Lemma complete_net src e failed w : same_net w (complete src e failed w).
Proof. unfold complete. by destruct (pending (st w) !! _). Qed.

Lemma timeout_net id w : same_net w (timeout id w).
Proof. unfold timeout. by destruct (pending (st w) !! _). Qed.

Lemma reply_net m a w : same_net w (reply m a w).
Proof. unfold reply. by destruct (needs_reply m). Qed.

Lemma outbound_net net a ty id k bytes w : same_net w (outbound net a ty id k bytes w).1.
Proof. unfold outbound. destruct (nodes (st w) !! node a); [apply transmit_net|done]. Qed.

Lemma fail_pending_net n w : same_net w (fail_pending n w).
Proof.
  unfold fail_pending. generalize ((map_to_list (pending (st w))).*1). intros ids. revert w.
  induction ids as [|id ids IH]; intros w; cbn [foldl]; [reflexivity|]. etrans; [|apply IH].
  destruct (pending (st w) !! id); [|done]. by case_decide.
Qed.

Lemma request_net net m a ty rty bytes w : same_net w (request net m a ty rty bytes w).
Proof.
  unfold request. cbv zeta. set (w1 := on_st _ w).
  pose proof (outbound_net net a ty (Z.max 1 (next_request (st w) +w 1)) Request bytes w1) as Ho.
  destruct (outbound _ _ _ _ _ _ _) as [w2 [e|]]; cbn [fst] in Ho; [etrans; [|apply reply_net]|]; done.
Qed.

(** A new connection, a peer that keeps its identity, one that is forgotten. *)
Lemma consistent_insert ids k e s :
  k ∉ ids → consistent ids s → consistent (k :: ids) (set_peers (<[k := mkPeer None e []]> (peers s)) s).
Proof.
  intros Hk [C1 C2 C3 C4].
  assert (Hfresh : peers s !! k = None) by (destruct (peers s !! k) eqn:E; [destruct Hk; apply C4; by eexists|done]).
  split; cbn.
  - intros n k' Hn. destruct (C1 n k' Hn) as (p & Hp & Hpn). exists p. split; [|done].
    rewrite lookup_insert_ne; [done|congruence].
  - intros k' p n. rewrite lookup_insert_Some. intros [[<- <-]|[_ Hp]]; [done|eauto].
  - intros k' p n e'. rewrite lookup_insert_Some. intros [[<- <-]|[_ Hp]]; [done|eauto].
  - intros k' Hp. destruct (decide (k' = k)) as [->|]; [by left|]. rewrite lookup_insert_ne in Hp by done. right. eauto.
Qed.

Lemma consistent_update ids k p p' s :
  peers s !! k = Some p → (pe_node p' = pe_node p ∨ pe_node p = None) → pe_expected p' = pe_expected p →
  (∀ n, pe_node p' = Some n → n ≠ local ∧ (∀ e, pe_expected p' = Some e → e = n)) →
  consistent ids s → consistent ids (set_peers (<[k := p']> (peers s)) s).
Proof.
  intros Hk Hn He Hid [C1 C2 C3 C4]. split; cbn.
  - intros n k' Hnk. destruct (C1 n k' Hnk) as (q & Hq & Hqn). destruct (decide (k' = k)) as [->|].
    + exists p'. rewrite lookup_insert_eq. split; [done|]. destruct Hn as [->|Hn]; congruence.
    + exists q. by rewrite lookup_insert_ne.
  - intros k' q n. rewrite lookup_insert_Some. intros [[<- <-]|[_ Hp]] Hqn; [by apply Hid|eauto].
  - intros k' q n e'. rewrite lookup_insert_Some. intros [[<- <-]|[_ Hp]] Hqn; [by apply Hid|eauto].
  - intros k' Hp. apply C4. destruct (decide (k' = k)) as [->|]; [by eexists|]. by rewrite lookup_insert_ne in Hp.
Qed.

Lemma consistent_forget ids k s :
  (∀ n, nodes s !! n ≠ Some k) → consistent ids s → consistent ids (set_peers (delete k (peers s)) s).
Proof.
  intros Hk [C1 C2 C3 C4]. split; cbn.
  - intros n k' Hn. destruct (C1 n k' Hn) as (p & Hp & Hpn). exists p. split; [|done].
    rewrite lookup_delete_ne; [done|]. intros ->. by destruct (Hk n).
  - intros k' p n [_ Hp]%lookup_delete_Some. eauto.
  - intros k' p n e [_ Hp]%lookup_delete_Some. eauto.
  - intros k' [p [_ Hp]%lookup_delete_Some]. apply C4. by eexists.
Qed.

Lemma consistent_point ids n k p s :
  peers s !! k = Some p → pe_node p = Some n → consistent ids s → consistent ids (set_nodes (<[n := k]> (nodes s)) s).
Proof.
  intros Hk Hn [C1 C2 C3 C4]. split; [|done..]. cbn. intros n' k' [[<- <-]|[_ Hn']]%lookup_insert_Some; [by exists p|eauto].
Qed.

Lemma consistent_unpoint ids n s : consistent ids s → consistent ids (set_nodes (delete n (nodes s)) s).
Proof. intros [C1 C2 C3 C4]. split; [|done..]. cbn. intros n' k' [_ Hn']%lookup_delete_Some. eauto. Qed.

(** Two nodes never share a connection. *)
Lemma nodes_injective ids s n1 n2 k : consistent ids s → nodes s !! n1 = Some k → nodes s !! n2 = Some k → n1 = n2.
Proof. intros [C1 _ _ _] (p1 & H1 & N1)%C1 (p2 & H2 & N2)%C1. congruence. Qed.

Lemma accept_hello_consistent ids net socket n w :
  consistent ids (st w) → consistent ids (st (accept_hello net socket n w)).
Proof.
  intros Hc. assert (Hs : ∀ k w', consistent ids (st w') → consistent ids (st (shutdown net k w'))) by (intros k w'; apply consistent_same, shutdown_net).
  unfold accept_hello. case_decide as Hloc; [by apply Hs|]. destruct (peers (st w) !! socket) as [p|] eqn:Hp; [|done].
  destruct (is_some_and _ _) eqn:He; [by apply Hs|]. unfold claim. destruct (pe_node p) as [m|] eqn:Hpn; [by apply Hs|].
  cbv zeta. set (p' := mkPeer (Some n) (pe_expected p) (pe_buffer p)). set (w1 := on_st _ w).
  assert (Hc1 : consistent ids (st w1)).
  { eapply (consistent_update ids socket p p'); [done|by right|done| |done]. intros n' [= <-]. split; [done|].
    intros e Hpe. cbn in Hpe. rewrite Hpe in He. cbn in He. apply bool_decide_eq_false in He. by apply dec_stable in He. }
  assert (Hp1 : peers (st w1) !! socket = Some p') by apply lookup_insert_eq.
  match goal with |- context [if ?b then _ else _] => destruct b end; [by apply Hs|].
  set (w2 := on_st _ w1). assert (Hc2 : consistent ids (st w2)) by (by eapply (consistent_point ids n socket p')).
  destruct (nodes (st w1) !! n) as [old|] eqn:Hold; [|done]. case_decide as Hne; [done|]. apply Hs.
  apply (consistent_forget ids old (st w2)); [|done]. cbn. intros n' [[<- Ho]|[Hn' Ho]]%lookup_insert_Some; [congruence|].
  apply Hn'. by eapply (nodes_injective ids (st w1)).
Qed.

Lemma on_envelope_consistent ids net socket e w :
  consistent ids (st w) → consistent ids (st (on_envelope net socket e w).1).
Proof.
  intros Hc. assert (Hs : ∀ w', same_net w w' → consistent ids (st w')) by (intros w' Hw; by apply (consistent_same ids w w')).
  unfold on_envelope. case_decide; [apply Hs, shutdown_net|]. destruct (node_id_new _); [|apply Hs, shutdown_net].
  destruct (kind_of _) as [k|]; [|apply Hs, shutdown_net].
  destruct k; try (case_decide; [apply Hs, shutdown_net|]); [by apply accept_hello_consistent|..]; apply Hs;
    first [apply invoke_net | apply complete_net].
Qed.

Lemma run_frames_consistent ids net socket es w :
  consistent ids (st w) → consistent ids (st (run_frames net socket es w).1).
Proof.
  revert w. induction es as [|e es IH]; intros w Hc; cbn [run_frames]; [done|].
  pose proof (on_envelope_consistent ids net socket e w Hc) as He.
  destruct (on_envelope net socket e w) as [w1 [[[??]?]|]]; cbn [fst] in *; [done|by apply IH].
Qed.

(** The connection of a node is found again from its peer record. *)
Lemma consistent_reconnect ids s n k p :
  consistent ids s → nodes s !! n = Some k → peers s !! k = Some p → reconnect_node p = Some n.
Proof.
  intros [C1 _ C3 _] Hn Hp. destruct (C1 n k Hn) as (q & Hq & Hqn). rewrite Hp in Hq. injection Hq as <-.
  unfold reconnect_node. destruct (pe_expected p) as [e|] eqn:He; [|done]. f_equal. eauto.
Qed.

Lemma disconnected_consistent ids socket w :
  consistent ids (st w) → consistent ids (st (disconnected socket w)).
Proof.
  intros Hc. unfold disconnected. cbv zeta. set (w1 := on_st _ w).
  assert (Hrest : ∀ n w2, consistent ids (st w2) → consistent ids (st (match list_find (λ s, seed_id s = n) (seeds config) with
      | Some (_, s) => emit (ORetry n (address s)) (fail_pending n w2) | None => fail_pending n w2 end))).
  { intros n w2 H2. assert (consistent ids (st (fail_pending n w2))) by (by eapply consistent_same; [apply fail_pending_net|]).
    by destruct (list_find _ _) as [[? s]|]. }
  destruct (peers (st w) !! socket) as [p|] eqn:Hp; cbn [mbind option_bind].
  2:{ apply (consistent_forget ids socket (st w)); [|done]. intros n (q & Hq & _)%(con_node ids _ Hc). congruence. }
  destruct (reconnect_node p) as [n|] eqn:Hr; cbn [mbind option_bind].
  2:{ apply (consistent_forget ids socket (st w)); [|done]. intros n Hn. pose proof (consistent_reconnect ids _ _ _ _ Hc Hn Hp). congruence. }
  destruct (is_some_and _ _) eqn:Ha.
  - apply (consistent_forget ids socket (st w)); [|done]. intros n' Hn. pose proof (consistent_reconnect ids _ _ _ _ Hc Hn Hp) as Hr'.
    rewrite Hr in Hr'. injection Hr' as <-. change (nodes (st w1)) with (nodes (st w)) in Ha. rewrite Hn in Ha. cbn in Ha.
    by apply bool_decide_eq_true in Ha.
  - apply Hrest. change (nodes (st w1)) with (nodes (st w)). case_decide as Hn.
    + change (consistent ids (set_peers (delete socket (peers (st w))) (set_nodes (delete n (nodes (st w))) (st w)))).
      apply (consistent_forget ids socket (set_nodes (delete n (nodes (st w))) (st w))); [|by apply consistent_unpoint].
      cbn. intros n' [Hne Hn']%lookup_delete_Some. apply Hne. by eapply (nodes_injective ids (st w)).
    + apply (consistent_forget ids socket (st w)); [|done]. intros n' Hn'. pose proof (consistent_reconnect ids _ _ _ _ Hc Hn' Hp). congruence.
Qed.

Lemma on_data_consistent ids net id bytes w w' t :
  on_data net id bytes w = Some (w', t) → consistent ids (st w) → consistent ids (st w').
Proof.
  unfold on_data. destruct (peers (st w) !! id) as [p|] eqn:Hp; [|by intros [= <- <-]].
  intros ([buf r] & Hd & Hw)%bind_Some Hc. injection Hw as Hw.
  assert (Hc1 : consistent ids (set_peers (<[id := mkPeer (pe_node p) (pe_expected p) buf]> (peers (st w))) (st w))).
  { eapply consistent_update; [exact Hp|by left|done| |done]. cbn. intros n Hn. split; [by eapply con_remote|].
    intros e He. by eapply con_expected. }
  destruct r as [frames|]; [apply (f_equal fst) in Hw; cbn [fst] in Hw; rewrite <-Hw; by apply run_frames_consistent|].
  injection Hw as <- <-. by eapply consistent_same; [apply shutdown_net|].
Qed.

Lemma dispatch_consistent ids net m i w w' t :
  NoDup (opened (EMsg net m i) ++ ids) → dispatch net m i w = Some (w', t) →
  consistent ids (st w) → consistent (opened (EMsg net m i) ++ ids) (st w').
Proof.
  intros Hnd Hd Hc. assert (Hs : ∀ w', same_net w w' → consistent ids (st w')) by (intros ? Hw; by eapply consistent_same).
  destruct i as [[id|id bytes|id|id|]|[a ty bytes|a ty rty bytes|id|n addr]|]; cbn [dispatch on_socket opened app] in *;
    try (injection Hd as <- <-).
  - apply NoDup_cons in Hnd as [Hnew _]. by apply (consistent_insert ids id None (st w)).
  - by eapply on_data_consistent.
  - by apply disconnected_consistent.
  - by apply disconnected_consistent.
  - done.
  - apply Hs. pose proof (outbound_net net a ty 0 Send bytes w) as Ho.
    destruct (outbound _ _ _ _ _ _ _) as [w1 [e|]]; (etrans; [exact Ho|apply reply_net]).
  - apply Hs, request_net.
  - apply Hs, timeout_net.
  - injection Hd as Hd. apply (f_equal fst) in Hd. cbn [fst] in Hd. rewrite <-Hd. apply Hs. unfold connect. by destruct (nodes (st w) !! n).
  - apply Hs. by destruct (needs_reply m).
Qed.

Lemma resume_consistent ids net k t r w w' t' :
  NoDup (opened (EResume net k r) ++ ids) → resume net t r w = Some (w', t') →
  consistent ids (st w) → consistent (opened (EResume net k r) ++ ids) (st w').
Proof.
  intros Hnd Hr Hc. assert (Hs : ∀ w', same_net w w' → consistent ids (st w')) by (intros ? Hw; by eapply consistent_same).
  destruct t, r as [o|ok|res]; cbn [resume] in Hr; try done.
  - injection Hr as <- <-. unfold connected. destruct o as [id|]; cbn [opened app] in *; [|by apply Hs].
    apply NoDup_cons in Hnd as [Hnew _]. pose proof (consistent_insert ids id (Some expected) (st w) Hnew Hc) as Hc1.
    set (w1 := on_st _ w). pose proof (transmit_net net id hello w1) as Ht. destruct (transmit net id hello w1) as [w2 [e|]]; cbn [fst] in Ht.
    + apply (consistent_same _ w1); [|exact Hc1]. etrans; [exact Ht|apply shutdown_net].
    + apply (consistent_same _ w1); [exact Ht|exact Hc1].
  - destruct ok; injection Hr as <- <-; [apply Hs, transmit_net|done].
  - injection Hr as Hr. apply (f_equal fst) in Hr. cbn [fst] in Hr. rewrite <-Hr. apply run_frames_consistent, Hs, respond_net.
Qed.

(** The table of connections tells the truth: in every reachable state, whatever peers
    send and in whatever order connections come and go, the connection filed under a
    node is open, its peer said hello as that node (and is the one this side meant to
    reach, if it opened the connection), the node is not the local one, and no two
    nodes share a connection. *)
Theorem connections_identified evs s :
  NoDup (evs ≫= opened) → run evs sys_new = Some s →
  (∀ n k, nodes (st (world s)) !! n = Some k →
     n ≠ local ∧ k ∈ evs ≫= opened
     ∧ ∃ p, peers (st (world s)) !! k = Some p ∧ pe_node p = Some n ∧ (pe_expected p = None ∨ pe_expected p = Some n))
  ∧ (∀ n1 n2 k, nodes (st (world s)) !! n1 = Some k → nodes (st (world s)) !! n2 = Some k → n1 = n2).
Proof.
  intros Hnd Hr. assert (Hc : consistent (evs ≫= opened) (st (world s))).
  { revert Hnd. pattern evs, (world s) in Hr |- *. revert evs s Hr.
    refine (run_invariant (λ evs w, NoDup (evs ≫= opened) → consistent (evs ≫= opened) (st w)) _ _ _).
    - intros _. split; cbn; [intros ??|intros ???|intros ????|intros ? [? Hp]; revert Hp]; by rewrite lookup_empty.
    - intros evs w net m i w' t IH Hd. rewrite bind_app, bind_cons, app_nil_r. intros Hnd.
      pose proof Hnd as (Hnd1 & _)%NoDup_app. rewrite Permutation_app_comm in Hnd.
      eapply consistent_more; [|eapply dispatch_consistent; [exact Hnd|exact Hd|by apply IH]]. set_solver.
    - intros evs w net k t r w' t' IH Hd. rewrite bind_app, bind_cons, app_nil_r. intros Hnd.
      pose proof Hnd as (Hnd1 & _)%NoDup_app. rewrite Permutation_app_comm in Hnd.
      eapply consistent_more; [|eapply resume_consistent; [exact Hnd|exact Hd|by apply IH]]. set_solver. }
  split; [|intros n1 n2 k; by eapply nodes_injective]. intros n k Hn. pose proof Hc as [C1 C2 C3 C4].
  destruct (C1 n k Hn) as (p & Hp & Hpn). split_and!; [by eapply C2|apply C4; by eexists|]. exists p. split_and!; [done..|].
  destruct (pe_expected p) as [e|] eqn:He; [right; f_equal; by eapply C3|by left].
Qed.
End service.

(** ** Both ends of two simultaneous connections *)

(** A connection to [n] before its hello: opened by this side if [mine]. *)
Definition opening (mine : bool) (n : NodeId) (p : Peer) : Prop :=
  pe_node p = None ∧ pe_expected p = if mine then Some n else None.

Lemma opening_accepts mine n p : opening mine n p → is_some_and (λ e, bool_decide (e ≠ n)) (pe_expected p) = false.
Proof. intros [_ ->]. destruct mine; [|done]. cbn. apply bool_decide_eq_false. by intros []. Qed.

Lemma opening_initiator local mine n p : opening mine n p → initiator local n p = if mine then local else n.
Proof. intros [_ He]. unfold initiator. rewrite He. by destruct mine. Qed.

Lemma opening_claim mine n p : opening mine n p → claim n p = (mkPeer (Some n) (pe_expected p) (pe_buffer p), true).
Proof. intros [Hn _]. unfold claim. by rewrite Hn. Qed.

(** The first hello of a node takes the place. *)
Lemma hello_first local net k n p mine w :
  n ≠ local → nodes (st w) !! n = None → peers (st w) !! k = Some p → opening mine n p →
  st (accept_hello local net k n w) =
    mkState (next_request (st w)) (<[n := k]> (nodes (st w)))
      (<[k := mkPeer (Some n) (pe_expected p) (pe_buffer p)]> (peers (st w))) (pending (st w))
  ∧ outs (accept_hello local net k n w) = outs w.
Proof.
  intros Hl Hn Hp Ho. unfold accept_hello. rewrite decide_False, Hp, (opening_accepts _ _ _ Ho), (opening_claim _ _ _ Ho) by done.
  cbn. by rewrite Hn.
Qed.

(** The second keeps it or takes it over, by the initiators' order. *)
Lemma hello_second local k1 k2 n p1 p2 mine w :
  n ≠ local → k1 ≠ k2 → nodes (st w) !! n = Some k1 → peers (st w) !! k1 = Some p1 →
  peers (st w) !! k2 = Some p2 → opening mine n p2 →
  let keep := bool_decide (initiator local n p1 ≤ if mine then local else n) in
  nodes (st (accept_hello local true k2 n w)) !! n = Some (if keep then k1 else k2)
  ∧ outs (accept_hello local true k2 n w) = outs w ++ [OShutdown (if keep then k2 else k1)].
Proof.
  intros Hl Hk Hn H1 H2 Ho. cbv zeta. unfold accept_hello.
  rewrite decide_False, H2, (opening_accepts _ _ _ Ho), (opening_claim _ _ _ Ho), (opening_initiator local _ _ _ Ho) by done.
  cbv zeta. cbn [st on_st nodes set_peers peers]. rewrite Hn. rewrite lookup_insert_ne by done. rewrite H1.
  destruct (bool_decide _); cbn; [by rewrite Hn|]. rewrite decide_False by done. cbn. by rewrite lookup_insert_eq.
Qed.

(** Both hellos at one end, [a_first] telling which comes first. *)
Definition both_hellos (local : NodeId) (a_first : bool) (ka kb : Z) (n : NodeId) (w : W) : W :=
  if a_first then accept_hello local true kb n (accept_hello local true ka n w)
  else accept_hello local true ka n (accept_hello local true kb n w).

(** One end: [ka] is the connection this side opened, [kb] the one it accepted. *)
Lemma one_end_converges local a_first ka kb n pa pb w :
  n ≠ local → ka ≠ kb → nodes (st w) !! n = None →
  peers (st w) !! ka = Some pa → opening true n pa → peers (st w) !! kb = Some pb → opening false n pb →
  let w' := both_hellos local a_first ka kb n w in
  let mine := bool_decide (local < n) in
  nodes (st w') !! n = Some (if mine then ka else kb) ∧ outs w' = outs w ++ [OShutdown (if mine then kb else ka)].
Proof.
  intros Hl Hk Hn Ha Oa Hb Ob. cbv zeta. unfold both_hellos. destruct a_first.
  - destruct (hello_first local true ka n pa true w) as [Hs Hout]; [done..|]. set (w1 := accept_hello local true ka n w) in *.
    destruct (hello_second local ka kb n (mkPeer (Some n) (pe_expected pa) (pe_buffer pa)) pb false w1) as [Hn2 Ho2];
      [done|done|rewrite Hs; apply lookup_insert_eq|rewrite Hs; apply lookup_insert_eq|rewrite Hs; cbn; by rewrite lookup_insert_ne|done|].
    rewrite Hn2, Ho2, Hout. unfold initiator. cbn [pe_expected]. destruct Oa as [_ ->].
    destruct (decide (local < n)); [rewrite !bool_decide_true by lia|rewrite !bool_decide_false by (unfold NodeId in *; lia)]; done.
  - destruct (hello_first local true kb n pb false w) as [Hs Hout]; [done..|]. set (w1 := accept_hello local true kb n w) in *.
    destruct (hello_second local kb ka n (mkPeer (Some n) (pe_expected pb) (pe_buffer pb)) pa true w1) as [Hn2 Ho2];
      [done|done|rewrite Hs; apply lookup_insert_eq|rewrite Hs; apply lookup_insert_eq|rewrite Hs; cbn; by rewrite lookup_insert_ne|done|].
    rewrite Hn2, Ho2, Hout. unfold initiator. cbn [pe_expected]. destruct Ob as [_ ->].
    destruct (decide (local < n)); [rewrite bool_decide_false, bool_decide_true by (unfold NodeId in *; lia)
      |rewrite bool_decide_true, bool_decide_false by (unfold NodeId in *; lia)]; done.
Qed.

(** Two nodes that connect to each other at the same time agree: connection X opened
    by [a] and connection Y opened by [b], each end taking the two hellos in its own
    order, both ends keep the connection opened by the smaller node and shut down
    the other one, so neither closes the one its peer chose. *)
Theorem simultaneous_connect_agrees a b ax ay bx bY pax pay pbx pby wa wb a_order b_order :
  a ≠ b → ax ≠ ay → bx ≠ bY →
  nodes (st wa) !! b = None → peers (st wa) !! ax = Some pax → opening true b pax → peers (st wa) !! ay = Some pay → opening false b pay →
  nodes (st wb) !! a = None → peers (st wb) !! bY = Some pby → opening true a pby → peers (st wb) !! bx = Some pbx → opening false a pbx →
  let wa' := both_hellos a a_order ax ay b wa in
  let wb' := both_hellos b b_order bY bx a wb in
  let x := bool_decide (a < b) in
  nodes (st wa') !! b = Some (if x then ax else ay) ∧ nodes (st wb') !! a = Some (if x then bx else bY)
  ∧ outs wa' = outs wa ++ [OShutdown (if x then ay else ax)] ∧ outs wb' = outs wb ++ [OShutdown (if x then bY else bx)].
Proof.
  intros Hab Hax Hb ?????????? wa' wb' x.
  destruct (one_end_converges a a_order ax ay b pax pay wa) as [Na Oa]; [done..|].
  destruct (one_end_converges b b_order bY bx a pby pbx wb) as [Nb Ob]; [done..|].
  fold wa' in Na, Oa. fold wb' in Nb, Ob. rewrite Na, Nb, Oa, Ob. unfold x, NodeId in *.
  destruct (decide (a < b)); [rewrite bool_decide_true, bool_decide_false by lia|rewrite bool_decide_false, bool_decide_true by lia]; done.
Qed.

(** *** Witnesses *)

Lemma simultaneous_connect_agrees_witness :
  let wa := mkW (mkState 0 ∅ {[ 10 := mkPeer None (Some 2) []; 11 := mkPeer None None [] ]} ∅) [] in
  let wb := mkW (mkState 0 ∅ {[ 20 := mkPeer None (Some 1) []; 21 := mkPeer None None [] ]} ∅) [] in
  nodes (st (both_hellos 1 true 10 11 2 wa)) !! 2 = Some 10 ∧ nodes (st (both_hellos 2 true 20 21 1 wb)) !! 1 = Some 21.
Proof.
  intros wa wb.
  destruct (simultaneous_connect_agrees 1 2 10 11 21 20 (mkPeer None (Some 2) []) (mkPeer None None [])
    (mkPeer None None []) (mkPeer None (Some 1) []) wa wb true true) as (Ha & Hb & _); try done.
Defined.
(** Node 1 accepts a connection on which node 2 says hello, service 8 asks node 2 and
    node 2 answers. *)
Definition demo_config : ClusterConfig := mkConfig 1 "127.0.0.1:0" None [] 5000 4096.
Definition demo_registry : HandlerRegistry (T := nat) (C := unit) := registry_new.
Definition from_net : Message := mkMessage 3 0 MsgType.SOCKET PNone.
Definition asker : Message := mkMessage 8 4 MsgType.USER PNone.
Definition hello_2 : Envelope := mkEnvelope PROTOCOL_VERSION (kind_code Hello) 2 0 0 None [] EmptyString EmptyString.
Definition answer_2 : Envelope := mkEnvelope PROTOCOL_VERSION (kind_code Response) 2 1 6 None [42] EmptyString EmptyString.

Definition demo_events : list Event := [
  EMsg true from_net (ISocket (Accept 5));
  EResume true 0 (RStarted true);
  EMsg true from_net (ISocket (Data 5 (bytes_of bit_encode hello_2)));
  EMsg true asker (ICommand (CRequest (mkAddr 2 (AName "db")) 3 6 [7]));
  EMsg true asker (ICommand (CRequest (mkAddr 9 (AName "db")) 3 6 [7]));
  EMsg true from_net (ISocket (Data 5 (bytes_of bit_encode answer_2)))].

Abbreviation demo_run := (run bit_encode bit_decode demo_registry demo_config 1 demo_events sys_new).

Lemma demo_run_ends : ∃ s, demo_run = Some s ∧
  bool_decide (answers (outs (world s)) = [(8, 4); (8, 4)] ∧ nodes (st (world s)) !! 2 = Some 5) = true.
Proof.
  apply (some_view (λ s, bool_decide (answers (outs (world s)) = [(8, 4); (8, 4)] ∧ nodes (st (world s)) !! 2 = Some 5))).
  vm_compute. reflexivity.
Qed.

Lemma requests_answered_once_witness :
  ∃ s, demo_run = Some s ∧ answers (outs (world s)) ++ waiting (st (world s)) ≡ₚ [(8, 4); (8, 4)].
Proof.
  destruct demo_run_ends as (s & Hr & _). exists s. split; [exact Hr|].
  refine (proj1 (requests_answered_once bit_encode bit_decode demo_registry demo_config 1 demo_events s true from_net _ _ Hr)).
  - by repeat constructor.
  - done.
Defined.

Lemma connections_identified_witness :
  ∃ s, demo_run = Some s ∧ nodes (st (world s)) !! 2 = Some 5
    ∧ ∃ p, peers (st (world s)) !! 5 = Some p ∧ pe_node p = Some 2.
Proof.
  destruct demo_run_ends as (s & Hr & Hb). exists s. split; [exact Hr|]. apply bool_decide_eq_true in Hb as [_ Hn].
  split; [exact Hn|].
  destruct (proj1 (connections_identified bit_encode bit_decode demo_registry demo_config 1 demo_events s
    ltac:(by apply NoDup_singleton) Hr) 2 5 Hn) as (_ & _ & p & Hp & Hpn & _). by exists p.
Defined.
End Cluster.
