(* ===== verification/ClusterCall.v ===== *)
(** * Calls across nodes

    [ClusterService::init], the public [send] and [request] of
    [rskynet-cluster/src/lib.rs], and a request followed from one node to the other
    and back: the two services, their streams and their frames together. *)
From S2P Require Import Prelude Message Wire Cluster.
Import Wire Cluster.

Module ClusterCall.

(** ** Start of the service *)

Inductive InitError : Type := BadSection | BadConfig (e : ClusterError) | NameTaken | ListenFailed | StartFailed.

(** The messages posted to the service itself; [None] is the error of a bad id. *)
Definition connect_commands (ss : list Seed) : option (list Command) :=
  mapM (λ s, match node_id_new (seed_id s) with inl n => Some (CConnect n (address s)) | inr _ => None end) ss.

(** [init]: [section] is what the configuration has under [cluster], [listened] and
    [started] the outcomes of [net::listen] and [net::start].  The result is the
    configuration and the id kept, and the commands posted. *)
Definition init (section : option (option ClusterConfig)) (name_free : bool) (listened : option Z) (started : bool)
    : (ClusterConfig * NodeId * list Command) + InitError :=
  match section with
  | None => inr BadSection
  | Some c =>
      let config := default config_default c in
      match validate config with
      | inr e => inr (BadConfig e)
      | inl n =>
          if negb name_free then inr NameTaken else
          match listened with
          | None => inr ListenFailed
          | Some _ =>
              if negb started then inr StartFailed else
              match connect_commands (seeds config) with
              | None => inr (BadConfig InvalidNodeId)
              | Some cs => inl (config, n, cs)
              end
          end
      end
  end.

(** A configuration that was accepted has usable seeds, so the second check of their
    ids never fails. *)
Lemma connect_commands_ok local ids ss :
  validate_seeds local ids ss = None → connect_commands ss = Some ((λ s, CConnect (seed_id s) (address s)) <$> ss).
Proof.
  intros [_ Hall]%validate_seeds_ok. induction ss as [|s ss IH]; [done|]. apply Forall_cons in Hall as [[H0 _] Hall].
  assert (Hi : node_id_new (seed_id s) = inl (seed_id s)) by (unfold node_id_new; by rewrite decide_True).
  change (connect_commands (s :: ss)) with (y ← match node_id_new (seed_id s) with inl n => Some (CConnect n (address s)) | inr _ => None end;
    k ← connect_commands ss; mret (y :: k)). rewrite Hi, (IH Hall). done.
Qed.

(** The service that starts does so with a sound configuration and dials every seed
    once, none of them itself. *)
Lemma init_sound section name_free listened started config n cs :
  init section name_free listened started = inl (config, n, cs) →
  n = node_id config ∧ n ≠ 0 ∧ 0 ≠ request_timeout_ms config ∧ max_frame_len config ≠ 0 ∧ max_frame_len config ≤ U32_MAX
  ∧ cs = (λ s, CConnect (seed_id s) (address s)) <$> seeds config
  ∧ NoDup (seed_id <$> seeds config) ∧ Forall (λ s, seed_id s ≠ 0 ∧ seed_id s ≠ n) (seeds config).
Proof.
  unfold init. destruct section as [c|]; [|done]. cbv zeta. set (cfg := default config_default c).
  destruct (validate cfg) as [m|] eqn:Hv; [|done]. destruct name_free; [|done]. cbn [negb].
  destruct listened; [|done]. destruct started; [|done]. cbn [negb]. unfold validate, node_id_new in Hv.
  case_decide as H0; [|done]. case_decide as Ht; [done|]. case_decide as Hm; [done|].
  destruct (validate_seeds _ _ _) eqn:Hs; [done|]. injection Hv as <-. rewrite (connect_commands_ok _ _ _ Hs). intros [= <- <- <-].
  destruct (validate_seeds_ok _ _ _ Hs) as [Hnd Hall]. split_and!; [done|done|lia|lia|lia|done|done|].
  eapply Forall_impl; [exact Hall|]. by intros s (? & ? & _).
Qed.

(** ** The public calls *)

Section api.
Context {Resp : Type}.

(** [send] and [request] after the call to the service: the payload of its reply is an
    [Answer], or the call failed. *)
Definition send (type_id : Z) (answer : Answer + Message.Error) : unit + ClusterError :=
  if decide (type_id = 0) then inr InvalidTypeId else
  match answer with
  | inr e => inr (Local e)
  | inl Done => inl ()
  | inl (Failed e) => inr (Remote e)
  | inl (APayload _) => inr (Protocol "unexpected payload")
  end.

Definition request_result (req_type resp_type : Z) (decode : list Z → option Resp) (answer : Answer + Message.Error)
    : Resp + ClusterError :=
  if decide (req_type = 0 ∨ resp_type = 0) then inr InvalidTypeId else
  match answer with
  | inr e => inr (Local e)
  | inl (APayload bytes) => match decode bytes with Some r => inl r | None => inr DecodeFailed end
  | inl (Failed e) => inr (Remote e)
  | inl Done => inr (Protocol "unexpected empty answer")
  end.
End api.

(** ** One request, there and back *)

Section round_trip.
Context (encode_to_vec : Envelope → list Z) (decode : list Z → option Envelope).
Context (codec : ∀ e, decode (encode_to_vec e) = Some e).

(** The data of one whole frame on a connection with nothing buffered. *)
Lemma drain_one max e : fits encode_to_vec max e → drain decode (bytes_of encode_to_vec e) max = Some ([], inl [e]).
Proof.
  intros Hf. destruct (drain_stream encode_to_vec decode codec max [e] (bytes_of encode_to_vec e) []) as (es1 & es2 & buf & He & Hd & Hb & Hn).
  - by constructor.
  - by rewrite bind_cons, !app_nil_r.
  - rewrite (Hn eq_refl) in *. rewrite !app_nil_r in *. cbn in Hb. by subst.
Qed.

Lemma transmit_fits config socket e w :
  fits encode_to_vec (max_frame_len config) e → transmit encode_to_vec config true socket e w = (emit (OFrame socket e) w, None).
Proof. intros Hf. unfold transmit. by rewrite (proj2 (frame_fits _ _ _ (bytes_of encode_to_vec e)) (conj Hf eq_refl)). Qed.

Lemma from_target_key k : from_target (key_target k) = Some k.
Proof. by destruct k. Qed.

(** The envelopes of a request and of its response. *)
Definition request_envelope (a : NodeId) (id ty : Z) (svc : Addr) (bytes : list Z) : Envelope :=
  mkEnvelope PROTOCOL_VERSION (kind_code Request) a id ty (Some (key_target (from_addr svc))) bytes EmptyString EmptyString.

Definition response_envelope (b : NodeId) (id rty : Z) (bytes : list Z) : Envelope :=
  mkEnvelope PROTOCOL_VERSION (kind_code Response) b id rty None bytes EmptyString EmptyString.

(** One frame arrives on a connection whose peer is known. *)
Lemma on_data_one {T C} (registry : HandlerRegistry (T := T) (C := C)) config local k n x e w :
  peers (st w) !! k = Some (mkPeer (Some n) x []) → fits encode_to_vec (max_frame_len config) e →
  on_data encode_to_vec decode registry config local true k (bytes_of encode_to_vec e) w =
  Some (run_frames encode_to_vec registry config local true k [e] w).
Proof.
  intros Hp Hf. unfold on_data. rewrite Hp. cbn [pe_buffer pe_node pe_expected app]. rewrite (drain_one _ _ Hf). cbn [mbind option_bind].
  do 2 f_equal. destruct w as [[nx ns ps pd] os]. unfold on_st, set_peers. cbn in *. by rewrite insert_id.
Qed.

Context {T C : Type} (rega regb : HandlerRegistry (T := T) (C := C)) (ca cb : ClusterConfig) (a b : NodeId).

Lemma request_goes_out m svc ty rty bytes ka w :
  nodes (st w) !! b = Some ka → 0 ≤ next_request (st w) < U64_MAX →
  let id := next_request (st w) + 1 in
  fits encode_to_vec (max_frame_len ca) (request_envelope a id ty svc bytes) →
  request encode_to_vec ca a true m (mkAddr b svc) ty rty bytes w =
    mkW (mkState id (nodes (st w)) (peers (st w))
          (<[id := mkPending (Message.source m) (Message.session m) b rty]> (pending (st w))))
      (outs w ++ [OFrame ka (request_envelope a id ty svc bytes); OTimer id]).
Proof.
  intros Hn Hx id Hf. unfold request. replace (Z.max 1 (next_request (st w) +w 1)) with id.
  2:{ rewrite wrapping_add_small by (unfold U64_MAX in Hx; lia). lia. }
  unfold outbound. cbn [st on_st nodes set_pending set_next node service]. rewrite Hn.
  fold (request_envelope a id ty svc bytes). rewrite (transmit_fits ca ka _ _ Hf). unfold emit, on_st. cbn. by rewrite <-app_assoc.
Qed.

Lemma request_comes_in svc id ty bytes kb x h w :
  a ≠ 0 → peers (st w) !! kb = Some (mkPeer (Some a) x []) → handlers regb !! (from_addr svc, ty) = Some h →
  run_frames encode_to_vec regb cb b true kb [request_envelope a id ty svc bytes] w =
  (emit (OCall a (Some id) (from_addr svc) ty bytes) w, Some (TInvoke kb id (response_type h) true [])).
Proof.
  intros Ha Hp Hh. unfold run_frames, on_envelope. cbn [version request_envelope source_node kind].
  rewrite decide_False by (by intros []). unfold node_id_new. rewrite decide_True by done.
  change (kind_of (kind_code Request)) with (Some Request). cbv iota beta. rewrite Hp. cbn [mbind option_bind pe_node].
  rewrite decide_False by (by intros []). unfold invoke. cbn [target request_envelope]. rewrite from_target_key. cbn [type_id request_envelope]. by rewrite Hh.
Qed.

Lemma response_comes_in id rty bytes ka x p w :
  b ≠ 0 → peers (st w) !! ka = Some (mkPeer (Some b) x []) → pending (st w) !! id = Some p → p_node p = b → p_response_type p = rty →
  run_frames encode_to_vec rega ca a true ka [response_envelope b id rty bytes] w =
  (emit (OAnswer (p_source p) (p_session p) (APayload bytes)) (on_st (set_pending (delete id (pending (st w)))) w), None).
Proof.
  intros Hb Hp Hpd Hpn Hpt. unfold run_frames, on_envelope. cbn [version response_envelope source_node kind].
  rewrite decide_False by (by intros []). unfold node_id_new. rewrite decide_True by done.
  change (kind_of (kind_code Response)) with (Some Response). cbv iota beta. rewrite Hp. cbn [mbind option_bind pe_node].
  rewrite decide_False by (by intros []). unfold complete. cbn [request_id type_id payload response_envelope].
  rewrite Hpd, Hpn, Hpt, decide_False by (by intros []). rewrite decide_False by (by intros []). done.
Qed.

(** C13 A request makes it there and back.  Node [a] has a connection to [b] and [b] one
    to [a]; a service on [a] asks a service of [b] for which a handler is registered.
    The bytes [a] writes make [b] call that handler with the same payload, on behalf
    of [a]; the bytes [b] writes when the handler returns make [a] give exactly that
    result to the service that asked, in its session, and forget the request. *)
Theorem request_round_trip m svc ty bytes result h ka kb xa xb wa wb :
  a ≠ 0 → b ≠ 0 →
  nodes (st wa) !! b = Some ka → peers (st wa) !! ka = Some (mkPeer (Some b) xa []) →
  peers (st wb) !! kb = Some (mkPeer (Some a) xb []) → handlers regb !! (from_addr svc, ty) = Some h →
  0 ≤ next_request (st wa) < U64_MAX →
  let id := next_request (st wa) + 1 in
  let out := request_envelope a id ty svc bytes in
  let back := response_envelope b id (response_type h) result in
  fits encode_to_vec (Z.min (max_frame_len ca) (max_frame_len cb)) out →
  fits encode_to_vec (Z.min (max_frame_len ca) (max_frame_len cb)) back →
  let wa1 := request encode_to_vec ca a true m (mkAddr b svc) ty (response_type h) bytes wa in
  ∃ wb1 wb2 wa2 t,
    outs wa1 = outs wa ++ [OFrame ka out; OTimer id]
    ∧ on_data encode_to_vec decode regb cb b true kb (bytes_of encode_to_vec out) wb = Some (wb1, Some t)
    ∧ outs wb1 = outs wb ++ [OCall a (Some id) (from_addr svc) ty bytes]
    ∧ resume encode_to_vec regb cb b true t (RHandled (inl result)) wb1 = Some (wb2, None)
    ∧ outs wb2 = outs wb1 ++ [OFrame kb back]
    ∧ on_data encode_to_vec decode rega ca a true ka (bytes_of encode_to_vec back) wa1 = Some (wa2, None)
    ∧ outs wa2 = outs wa1 ++ [OAnswer (Message.source m) (Message.session m) (APayload result)]
    ∧ pending (st wa2) = delete id (pending (st wa)).
Proof.
  intros Ha Hb Hna Hpa Hpb Hh Hx id out back [Ho1 Ho2] [Hb1 Hb2] wa1.
  assert (Hfo : ∀ c, c = ca ∨ c = cb → fits encode_to_vec (max_frame_len c) out) by (intros c [-> | ->]; split; lia).
  assert (Hfb : ∀ c, c = ca ∨ c = cb → fits encode_to_vec (max_frame_len c) back) by (intros c [-> | ->]; split; lia).
  assert (H1 : wa1 = _) by (apply request_goes_out; eauto). fold id out in H1.
  set (p := mkPending _ _ _ _) in H1.
  set (wb1 := emit (OCall a (Some id) (from_addr svc) ty bytes) wb).
  exists wb1, (emit (OFrame kb back) wb1),
    (emit (OAnswer (p_source p) (p_session p) (APayload result)) (on_st (set_pending (delete id (pending (st wa1)))) wa1)),
    (TInvoke kb id (response_type h) true []).
  split_and!.
  - by rewrite H1.
  - rewrite (on_data_one regb cb b kb a xb out wb Hpb) by eauto. f_equal. by eapply request_comes_in.
  - done.
  - cbn [resume run_frames]. unfold respond. fold (response_envelope b id (response_type h) result). fold back.
    by rewrite transmit_fits by eauto.
  - done.
  - rewrite (on_data_one rega ca a ka b xa back wa1) by (rewrite ?H1; eauto). f_equal.
    apply (response_comes_in id (response_type h) result ka xa p wa1); [done|by rewrite H1| |done|done]. rewrite H1. apply lookup_insert_eq.
  - done.
  - cbn. rewrite H1. cbn. apply delete_insert_eq.
Qed.
End round_trip.

(** Node 1 asks service [db] of node 2. *)
Lemma request_round_trip_witness :
  let cfg := mkConfig 1 "127.0.0.1:0" None [] 5000 4096 in
  let regb := mkRegistry (T := nat) {[ (KName "db", 3) := mkHandler 6 0%nat (Some 1%nat) () ]} ∅ in
  let wa := mkW (mkState 0 {[ 2 := 10 ]} {[ 10 := mkPeer (Some 2) (Some 2) [] ]} ∅) [] in
  let wb := mkW (mkState 0 {[ 1 := 20 ]} {[ 20 := mkPeer (Some 1) None [] ]} ∅) [] in
  ∃ wb1 t, on_data bit_encode bit_decode regb cfg 2 true 20
             (bytes_of bit_encode (request_envelope 1 1 3 (AName "db") [7])) wb = Some (wb1, Some t)
    ∧ outs wb1 = [OCall 1 (Some 1) (KName "db") 3 [7]] ∧ outs wa = [].
Proof.
  intros cfg regb wa wb.
  destruct (request_round_trip bit_encode bit_decode bit_codec regb regb cfg cfg 1 2 (mkMessage 8 4 MsgType.USER PNone)
    (AName "db") 3 [7] [42] (mkHandler 6 0%nat (Some 1%nat) ()) 10 20 (Some 2) None wa wb)
    as (wb1 & _ & _ & t & _ & Hd & Ho & _); try done.
  exists wb1, t. split; [exact Hd|]. split; [exact Ho|done].
Defined.
End ClusterCall.
