(* ===== verification/NetBuffer.v ===== *)
(** * Write and read buffers of a socket

    [rskynet-net/src/buffer.rs]: the two-priority write queue with its warning
    threshold, and the adaptive size of the read buffer.  Lengths are mathematical
    integers; [push_no_overflow] says when they stay inside a [usize]. *)
From S2P Require Import Prelude.

(** [std::net::SocketAddr]. *)
Inductive SocketAddr : Type := V4 (ip port : Z) | V6 (ip port flowinfo scope_id : Z).

#[global] Instance SocketAddr_eq_dec : EqDecision SocketAddr.
Proof. solve_decision. Defined.

Module NetBuffer.

Record Chunk : Type := mkChunk { data : list Z; offset : nat; to : option SocketAddr }.

Definition tcp (d : list Z) : Chunk := mkChunk d 0 None.
Definition udp (d : list Z) (a : SocketAddr) : Chunk := mkChunk d 0 (Some a).
Definition rest (c : Chunk) : list Z := drop (offset c) (data c).

Record WriteQueue : Type := mkQueue { high : list Chunk; low : list Chunk; size : Z; warn_at : Z }.

Definition queue_default : WriteQueue := mkQueue [] [] 0 0.

Definition is_empty (q : WriteQueue) : bool :=
  match high q, low q with [], [] => true | _, _ => false end.

Definition push (c : Chunk) (hi : bool) (threshold : Z) (q : WriteQueue) : option Z * WriteQueue :=
  let sz := size q + Z.of_nat (length (rest c)) in
  let '(h, l) := if hi then (high q ++ [c], low q) else (high q, low q ++ [c]) in
  if decide (sz < threshold ∨ sz < warn_at q) then (None, mkQueue h l sz (warn_at q)) else
  (Some (sz / 1024), mkQueue h l sz (if decide (warn_at q = 0) then threshold * 2 else warn_at q * 2)).

(** [next]: the chunk to write, after raising one from the low queue if need be. *)
Definition next (q : WriteQueue) : option Chunk * WriteQueue :=
  let q := match high q, low q with
           | [], c :: l => mkQueue [c] l (size q) (warn_at q)
           | _, _ => q
           end in
  (head (high q), q).

(** [consume]; [None] is the underflow panic of [size -= written]. *)
Definition consume (written : nat) (q : WriteQueue) : option WriteQueue :=
  sz ← checked_sub (size q) (Z.of_nat written);
  match high q with
  | [] => Some (mkQueue [] (low q) sz (warn_at q))
  | c :: h =>
      let c' := mkChunk (data c) (offset c + written) (to c) in
      let h' := if decide (length (data c) ≤ offset c + written)%nat then h else c' :: h in
      let q' := mkQueue h' (low q) sz (warn_at q) in
      Some (if is_empty q' then mkQueue h' (low q) sz 0 else q')
  end.

Record ReadSizer : Type := mkSizer { rsize : Z; floor : Z }.

Definition sizer_new (f : Z) : ReadSizer := mkSizer f f.

Definition observe (read : Z) (r : ReadSizer) : ReadSizer :=
  if decide (read = rsize r) then mkSizer (rsize r * 2) (floor r) else
  if decide (floor r < rsize r ∧ read * 2 < rsize r) then mkSizer (rsize r / 2) (floor r) else r.

(** ** The invariant of a queue *)

Definition owed (cs : list Chunk) : Z := Z.of_nat (sum_list_with (λ c, length (rest c)) cs).

(** Only the front of the high queue may be partly written, and nothing queued is
    written out. *)
Record wf (q : WriteQueue) : Prop := {
  wf_size : size q = owed (high q) + owed (low q);
  wf_front : ∀ c h, high q = c :: h → (offset c < length (data c))%nat;
  wf_tail : Forall (λ c, offset c = 0%nat ∧ data c ≠ []) (tail (high q));
  wf_low : Forall (λ c, offset c = 0%nat ∧ data c ≠ []) (low q);
}.

Lemma wf_default : wf queue_default.
Proof. split; cbn; [done|done|constructor|constructor]. Qed.

Lemma owed_app a b : owed (a ++ b) = owed a + owed b.
Proof. unfold owed. rewrite sum_list_with_app. lia. Qed.

Lemma owed_cons c cs : owed (c :: cs) = Z.of_nat (length (rest c)) + owed cs.
Proof. unfold owed. cbn. lia. Qed.

Lemma owed_nonneg cs : 0 ≤ owed cs.
Proof. unfold owed. lia. Qed.

Lemma owed_all_pos cs : Forall (λ c, offset c = 0%nat ∧ data c ≠ []) cs → cs ≠ [] → 0 < owed cs.
Proof.
  intros Hall Hne. destruct cs as [|c cs]; [done|]. apply Forall_cons in Hall as [[Ho Hd] _]. rewrite owed_cons.
  unfold rest. rewrite Ho, drop_0. destruct (data c); [done|]. cbn. pose proof (owed_nonneg cs). lia.
Qed.

(** A queue is empty exactly when no byte is owed. *)
Lemma wf_empty q : wf q → is_empty q = bool_decide (size q = 0).
Proof.
  intros [Hs Hf Ht Hl]. unfold is_empty. pose proof (owed_nonneg (high q)). pose proof (owed_nonneg (low q)).
  destruct (high q) as [|c h] eqn:Eh.
  - change (owed []) with 0 in *. destruct (low q) as [|l ls] eqn:El.
    + change (owed []) with 0 in *. by rewrite bool_decide_true by lia.
    + pose proof (owed_all_pos _ Hl ltac:(done)). by rewrite bool_decide_false by lia.
  - rewrite bool_decide_false; [done|]. rewrite owed_cons in Hs. unfold rest in Hs. rewrite length_drop in Hs.
    specialize (Hf c h eq_refl). pose proof (owed_nonneg h). lia.
Qed.

Lemma push_wf c hi t q : wf q → offset c = 0%nat → data c ≠ [] → wf (push c hi t q).2.
Proof.
  intros [Hs Hf Ht Hl] Ho Hd. unfold push.
  assert (Hc : Forall (λ c, offset c = 0%nat ∧ data c ≠ []) [c]) by (by repeat constructor).
  assert (Hall : ∀ h l w, (h, l) = (if hi then (high q ++ [c], low q) else (high q, low q ++ [c])) →
    wf (mkQueue h l (size q + Z.of_nat (length (rest c))) w)).
  { intros h l w E. destruct hi; injection E as -> ->; split; cbn.
    - rewrite owed_app, owed_cons. cbn. unfold owed in *; cbn; lia.
    - intros c' h' E. destruct (high q) as [|x xs] eqn:Eq; cbn in E; injection E as <- <-; [|by eapply Hf].
      rewrite Ho. destruct (data c); [done|cbn; lia].
    - destruct (high q) as [|x xs]; [constructor|]. cbn in *. by apply Forall_app.
    - done.
    - rewrite owed_app, owed_cons. cbn. unfold owed in *; cbn; lia.
    - exact Hf.
    - exact Ht.
    - by apply Forall_app. }
  destruct (if hi then _ else _) as [h l] eqn:E. case_decide; cbn [snd]; by apply Hall.
Qed.

Lemma push_size c hi t q : size (push c hi t q).2 = size q + Z.of_nat (length (rest c)).
Proof. unfold push. destruct hi; case_decide; done. Qed.

Lemma next_wf q c q' : wf q → next q = (c, q') → wf q' ∧ size q' = size q ∧ is_empty q' = is_empty q ∧ c = head (high q').
Proof.
  intros Hq. unfold next. intros [= <- <-]. destruct (high q) as [|x h] eqn:Eh; [|by rewrite Eh].
  destruct (low q) as [|y l] eqn:El; [by rewrite Eh|]. destruct Hq as [Hs Hf Ht Hl]. rewrite El in Hl. apply Forall_cons in Hl as [[Ho Hd] Hl].
  split; [|split_and!; [done| |done]; unfold is_empty; by rewrite Eh, El]. split; cbn; [|intros c h [= <- <-]|constructor|done].
  - rewrite Hs, Eh, El, !owed_cons. unfold owed; cbn; lia.
  - rewrite Ho. destruct (data y); [done|cbn; lia].
Qed.

(** What is written was owed: [consume] does not underflow. *)
Lemma consume_wf q c h n :
  wf q → high q = c :: h → (n ≤ length (rest c))%nat →
  ∃ q', consume n q = Some q' ∧ wf q' ∧ size q' = size q - Z.of_nat n
    ∧ low q' = low q ∧ (warn_at q' = warn_at q ∨ size q' = 0 ∧ warn_at q' = 0).
Proof.
  intros Hq Eh Hn. pose proof Hq as [Hs Hf Ht Hl]. rewrite Eh in *. rewrite owed_cons in Hs.
  pose proof (owed_nonneg h). pose proof (owed_nonneg (low q)).
  unfold consume, checked_sub. rewrite decide_True by lia. cbn [mbind option_bind]. rewrite Eh.
  set (c' := mkChunk (data c) (offset c + n) (to c)).
  set (h' := if decide _ then h else c' :: h).
  assert (Hw : ∀ w, wf (mkQueue h' (low q) (size q - Z.of_nat n) w)).
  { intros w. unfold h', rest in *. rewrite length_drop in *. cbn in Ht. case_decide as Hd; split; cbn [size high low warn_at]; try done.
    - lia.
    - intros c1 h1 ->. apply Forall_cons in Ht as [[-> Hx] _]. destruct (data c1); [done|cbn; lia].
    - by destruct h; [constructor|apply Forall_cons in Ht as [_ ?]].
    - rewrite owed_cons. unfold rest, c'. cbn [offset data]. rewrite length_drop. lia.
    - intros c1 h1 [= <- <-]. cbn. lia. }
  eexists. split; [reflexivity|]. destruct (is_empty _) eqn:E; split_and!; try done; try (apply Hw); try (left; done).
  right. split; [|done]. pose proof (wf_empty _ (Hw (warn_at q))) as He. rewrite E in He. cbn in He. symmetry in He. by apply bool_decide_eq_true in He.
Qed.

(** ** What comes out of a queue *)

(** [merged l1 l2 l]: [l] is [l1] and [l2] interleaved, each in its order. *)
Inductive merged {A} : list A → list A → list A → Prop :=
  | merged_nil : merged [] [] []
  | merged_left l1 l2 l x : merged l1 l2 l → merged (l1 ++ [x]) l2 (l ++ [x])
  | merged_right l1 l2 l x : merged l1 l2 l → merged l1 (l2 ++ [x]) (l ++ [x]).

(** A queue with its history: the chunks pushed to each priority and the bytes the
    system took. *)
Record Hist : Type := mkHist { queue : WriteQueue; highs : list (list Z); lows : list (list Z); written : list Z }.

Inductive QOp : Type :=
  | QPush (d : list Z) (hi : bool) (a : option SocketAddr)
  | QWrite (n : nat).

(** A write takes at least one byte and at most what it is given; the callers push no
    empty chunk. *)
Definition qstep (threshold : Z) (op : QOp) (s : Hist) : option Hist :=
  match op with
  | QPush d hi a =>
      if decide (d = []) then None else
      let q := (push (mkChunk d 0 a) hi threshold (queue s)).2 in
      Some (if hi then mkHist q (highs s ++ [d]) (lows s) (written s) else mkHist q (highs s) (lows s ++ [d]) (written s))
  | QWrite n =>
      match next (queue s) with
      | (Some c, q) =>
          if decide (0 < n ≤ length (rest c))%nat then
            q ← consume n q;
            Some (mkHist q (highs s) (lows s) (written s ++ take n (rest c)))
          else None
      | (None, _) => None
      end
  end.

Fixpoint qrun (threshold : Z) (ops : list QOp) (s : Hist) : option Hist :=
  match ops with
  | [] => Some s
  | op :: ops => s ← qstep threshold op s; qrun threshold ops s
  end.

(** The chunks whose turn has come, [done] ones first, are the high pushes and the low
    ones raised so far, interleaved; the bytes written and owed are theirs. *)
Definition tells (s : Hist) (done pulled : list (list Z)) : Prop :=
  merged (highs s) pulled (done ++ (data <$> high (queue s)))
  ∧ lows s = pulled ++ (data <$> low (queue s))
  ∧ written s ++ (high (queue s) ≫= rest) = concat (done ++ (data <$> high (queue s))).

Lemma push_queues c hi t q :
  high (push c hi t q).2 = (if hi then high q ++ [c] else high q) ∧ low (push c hi t q).2 = (if hi then low q else low q ++ [c]).
Proof. unfold push. destruct hi; case_decide; done. Qed.

Lemma tells_push t d hi a s done pulled :
  tells s done pulled →
  tells (mkHist (push (mkChunk d 0 a) hi t (queue s)).2 (if hi then highs s ++ [d] else highs s)
           (if hi then lows s else lows s ++ [d]) (written s)) done pulled.
Proof.
  intros (Hm & Hl & Hw). destruct (push_queues (mkChunk d 0 a) hi t (queue s)) as [Eh El]. unfold tells. cbn. rewrite Eh, El.
  destruct hi; split_and!.
  - rewrite fmap_app. cbn. rewrite app_assoc. by constructor.
  - done.
  - rewrite bind_app, app_assoc, Hw, fmap_app, (app_assoc done), (concat_app (done ++ _)). cbn. unfold rest. cbn. by rewrite !app_nil_r.
  - done.
  - by rewrite fmap_app, Hl, app_assoc.
  - done.
Qed.

(** Raising a low chunk commits it behind everything committed. *)
Lemma tells_next s done pulled c q :
  wf (queue s) → tells s done pulled → next (queue s) = (c, q) →
  ∃ pulled', tells (mkHist q (highs s) (lows s) (written s)) done pulled'.
Proof.
  intros Hq (Hm & Hl & Hw). unfold next. intros [= <- <-]. destruct (high (queue s)) as [|x h] eqn:Eh.
  - destruct (low (queue s)) as [|y l] eqn:El.
    + exists pulled. unfold tells. cbn. by rewrite Eh, El.
    + exists (pulled ++ [data y]). unfold tells. cbn in *. rewrite app_nil_r in Hm. pose proof (wf_low _ Hq) as Hlw.
      rewrite El in Hlw. apply Forall_cons in Hlw as [[Ho _] _].
      split_and!; [by constructor|by rewrite <-app_assoc|]. rewrite !app_nil_r in *. rewrite Hw, concat_app. cbn.
      unfold rest. by rewrite Ho, drop_0, app_nil_r.
  - exists pulled. unfold tells. cbn. by rewrite Eh.
Qed.

Lemma consume_high n q c h q' :
  high q = c :: h → consume n q = Some q' →
  low q' = low q ∧ high q' = if decide (length (data c) ≤ offset c + n)%nat then h else mkChunk (data c) (offset c + n) (to c) :: h.
Proof.
  intros Eh. unfold consume. rewrite Eh. intros (sz & _ & Hq)%bind_Some. injection Hq as <-. by destruct (is_empty _).
Qed.

Lemma tells_consume s done pulled n c h q' :
  tells s done pulled → high (queue s) = c :: h → (n ≤ length (rest c))%nat → consume n (queue s) = Some q' →
  ∃ done', tells (mkHist q' (highs s) (lows s) (written s ++ take n (rest c))) done' pulled.
Proof.
  intros (Hm & Hl & Hw) Eh Hn Hc. destruct (consume_high _ _ _ _ _ Eh Hc) as [El Eh']. rewrite Eh in *.
  rewrite fmap_cons in *. rewrite bind_cons in Hw. unfold tells. cbn [queue highs lows written]. rewrite El, Eh'.
  assert (Hsplit : take n (rest c) ++ drop (offset c + n) (data c) = rest c).
  { unfold rest. rewrite <-drop_drop. apply take_drop. }
  case_decide as Hd.
  - exists (done ++ [data c]). rewrite <-app_assoc. split_and!; [done|done|]. cbn. rewrite <-Hw.
    rewrite (drop_ge (data c)) in Hsplit by done. rewrite app_nil_r in Hsplit. by rewrite Hsplit, <-app_assoc.
  - exists done. rewrite fmap_cons, bind_cons. unfold rest at 2. cbn [data offset]. split_and!; [done|done|].
    rewrite <-Hw, <-app_assoc. f_equal. by rewrite app_assoc, Hsplit.
Qed.

Lemma qstep_tells t op s s' done pulled :
  wf (queue s) → tells s done pulled → qstep t op s = Some s' → wf (queue s') ∧ ∃ done' pulled', tells s' done' pulled'.
Proof.
  intros Hq Ht. destruct op as [d hi a|n]; cbn [qstep].
  - case_decide as Hd; [done|]. intros [= <-]. split.
    + destruct hi; cbn [queue]; by apply push_wf.
    + exists done, pulled. pose proof (tells_push t d hi a s done pulled Ht) as Hp. by destruct hi.
  - destruct (next (queue s)) as [[c|] q] eqn:En; [|done]. case_decide as Hn; [|done].
    intros (q' & Hc & [= <-])%bind_Some. destruct (next_wf _ _ _ Hq En) as (Hq1 & _ & _ & Hhd).
    destruct (high q) as [|c' h] eqn:Eh; [done|]. injection Hhd as ->.
    destruct (consume_wf q c' h n Hq1 Eh) as (q2 & Hc2 & Hw2 & _); [lia|]. rewrite Hc in Hc2. injection Hc2 as <-. split; [done|].
    destruct (tells_next s done pulled _ _ Hq Ht En) as (pulled' & Ht'). cbn in Ht'.
    destruct (tells_consume _ done pulled' n c' h q' Ht' Eh ltac:(lia) Hc) as (done' & Ht2). eauto.
Qed.

Lemma qrun_tells t ops s s' done pulled :
  wf (queue s) → tells s done pulled → qrun t ops s = Some s' → wf (queue s') ∧ ∃ done' pulled', tells s' done' pulled'.
Proof.
  revert s done pulled. induction ops as [|op ops IH]; intros s done pulled Hq Ht; cbn [qrun]; [intros [= <-]; eauto|].
  intros (s1 & Hs & Hr)%bind_Some. destruct (qstep_tells _ _ _ _ _ _ Hq Ht Hs) as (Hq1 & d1 & p1 & Ht1). eauto.
Qed.

Definition hist_new : Hist := mkHist queue_default [] [] [].

(** What a connection writes is what it was given.  After any sequence of pushes at
    either priority and writes of any length the bytes written and the bytes still
    owed are whole chunks one after the other, the high ones in the order they were
    pushed interleaved with the low ones raised so far in theirs; and when nothing is
    owed, every chunk pushed has been written, once and in one piece. *)
Theorem write_queue_stream threshold ops s :
  qrun threshold ops hist_new = Some s →
  (∃ order raised, merged (highs s) raised order ∧ raised `prefix_of` lows s
     ∧ written s ++ (high (queue s) ≫= rest) = concat order)
  ∧ size (queue s) = owed (high (queue s)) + owed (low (queue s))
  ∧ (size (queue s) = 0 → ∃ order, merged (highs s) (lows s) order ∧ written s = concat order).
Proof.
  intros Hr. destruct (qrun_tells threshold ops hist_new s [] []) as (Hq & fin & pulled & Hm & Hl & Hw); [apply wf_default|by split_and!; [apply merged_nil|..]|done|].
  split_and!; [|apply wf_size, Hq|].
  - exists (fin ++ (data <$> high (queue s))), pulled. split_and!; [done|by eexists|done].
  - intros Hz. pose proof (wf_empty _ Hq) as He. rewrite bool_decide_true in He by done. unfold is_empty in He.
    destruct (high (queue s)) eqn:Eh; [|done]. destruct (low (queue s)) eqn:El; [|done]. cbn in *. rewrite !app_nil_r in *. subst.
    by exists fin.
Qed.

(** A low chunk half written before a high one arrives is finished first. *)
Abbreviation demo_ops := [QPush [1; 2; 3] false None; QWrite 1; QPush [7; 8] true None; QPush [4] false None; QWrite 2; QWrite 2; QWrite 1].

Lemma demo_queue : ∃ s, qrun 1024 demo_ops hist_new = Some s ∧ bool_decide (written s = [1; 2; 3; 7; 8; 4] ∧ size (queue s) = 0) = true.
Proof. apply (some_view (λ s, bool_decide (written s = [1; 2; 3; 7; 8; 4] ∧ size (queue s) = 0))). vm_compute. reflexivity. Qed.

Lemma write_queue_stream_witness :
  ∃ s, qrun 1024 demo_ops hist_new = Some s ∧ written s = [1; 2; 3; 7; 8; 4]
    ∧ ∃ order, merged (highs s) (lows s) order ∧ written s = concat order.
Proof.
  destruct demo_queue as (s & Hs & Hb). apply bool_decide_eq_true in Hb as [Hw Hz]. exists s. split; [exact Hs|]. split; [exact Hw|].
  exact (proj2 (proj2 (write_queue_stream 1024 demo_ops s Hs)) Hz).
Defined.

(** ** Warnings and the read buffer *)

(** Warnings double: the threshold in force after [k] of them is [threshold * 2^k], and
    a warning is given only at or above it; nothing overflows while the queue is below
    half the address space. *)
Lemma push_warns c hi t q k :
  0 < t → 0 ≤ size q → (if decide (k = 0%nat) then warn_at q = 0 else warn_at q = t * 2 ^ Z.of_nat k) →
  match (push c hi t q).1 with
  | Some kb => t * 2 ^ Z.of_nat k ≤ size (push c hi t q).2 ∧ kb = size (push c hi t q).2 / 1024
      ∧ warn_at (push c hi t q).2 = t * 2 ^ Z.of_nat (S k)
  | None => warn_at (push c hi t q).2 = warn_at q
  end.
Proof.
  intros Ht Hs Hk. rewrite push_size. unfold push.
  assert (E : (if decide (warn_at q = 0) then t * 2 else warn_at q * 2) = t * 2 ^ Z.of_nat (S k)).
  { rewrite Nat2Z.inj_succ, Z.pow_succ_r by lia. destruct (decide (k = 0%nat)) as [->|]; [rewrite decide_True by done; lia|].
    rewrite decide_False by lia. lia. }
  assert (Hlow : ¬ (size q + Z.of_nat (length (rest c)) < t ∨ size q + Z.of_nat (length (rest c)) < warn_at q) →
    t * 2 ^ Z.of_nat k ≤ size q + Z.of_nat (length (rest c))).
  { intros Hd. destruct (decide (k = 0%nat)) as [->|]; [change (2 ^ Z.of_nat 0) with 1|]; lia. }
  destruct hi; (destruct (decide (size q + _ < t ∨ _)) as [Hd|Hd]; cbn [fst snd warn_at]; [done|split_and!; [by apply Hlow|done|done]]).
Qed.

Lemma push_no_overflow c hi t q :
  0 < t → size (push c hi t q).2 < 2 ^ 63 → is_Some (push c hi t q).1 → warn_at (push c hi t q).2 ≤ U64_MAX.
Proof.
  intros Ht. rewrite push_size. unfold push, U64_MAX. intros Hs.
  destruct hi; (case_decide as Hd; cbn [fst snd warn_at]; [by intros []|]; intros _; case_decide; lia).
Qed.

(** The read buffer is its floor doubled some number of times: it never falls below. *)
Definition sizer_ok (r : ReadSizer) : Prop := 0 < floor r ∧ ∃ k : nat, rsize r = floor r * 2 ^ Z.of_nat k.

Lemma sizer_new_ok f : 0 < f → sizer_ok (sizer_new f).
Proof. split; [done|]. exists 0%nat. cbn. lia. Qed.

Lemma sizer_floor r : sizer_ok r → floor r ≤ rsize r.
Proof. intros [Hf [k ->]]. pose proof (Z.pow_pos_nonneg 2 (Z.of_nat k)). nia. Qed.

Lemma observe_ok n r : sizer_ok r → sizer_ok (observe n r) ∧ floor (observe n r) = floor r.
Proof.
  intros [Hf [k Hk]]. unfold observe. repeat case_decide; (split; [|done]); (split; [done|]); cbn.
  - exists (S k). rewrite Nat2Z.inj_succ, Z.pow_succ_r by lia. lia.
  - destruct k as [|k]; [cbn in Hk; lia|]. exists k. rewrite Nat2Z.inj_succ, Z.pow_succ_r in Hk by lia.
    rewrite Hk. replace (floor r * (2 * 2 ^ Z.of_nat k)) with (floor r * 2 ^ Z.of_nat k * 2) by lia. by rewrite Z.div_mul by lia.
  - by exists k.
Qed.

End NetBuffer.
