(* ===== verification/NetSocket.v ===== *)
(** * Sockets and their table

    [rskynet-net/src/socket.rs]: the state machine of a socket, what it wants from the
    poll, and the table that numbers sockets and finds them by number or by token.  The
    operating system's objects are reduced to their kind.  A table in use is not
    empty ([NetConfig::validate]), so [%] by its length does not panic. *)
From S2P Require Import Prelude NetBuffer.
Import NetBuffer.

Module NetSocket.

Definition SocketId : Type := Z.

Inductive Kind : Type := Listener | Stream | Udp.

Inductive State : Type := PreListen | Listen | Connecting | PreAccept | Connected | HalfCloseRead | HalfCloseWrite.

#[global] Instance Kind_eq_dec : EqDecision Kind.
Proof. solve_decision. Defined.

#[global] Instance State_eq_dec : EqDecision State.
Proof. solve_decision. Defined.

Definition writable (s : State) : bool := match s with Connected | HalfCloseRead => true | _ => false end.

Record Pending : Type := mkPending { p_source : Z; p_session : Z }.

Definition is_silent (p : Pending) : bool := bool_decide (p_session p = 0).

Inductive Interest : Type := READABLE | WRITABLE | BOTH.

#[global] Instance Interest_eq_dec : EqDecision Interest.
Proof. solve_decision. Defined.

Record Stat : Type := mkStat {
  accept_count : Z;
  read_bytes : Z;
  write_bytes : Z;
  last_read_at_ms : option Z;
  last_write_at_ms : option Z;
}.

Definition stat_default : Stat := mkStat 0 0 0 None None.

Record Socket : Type := mkSocket {
  id : SocketId;
  slot : nat;
  owner : Z;
  kind : Kind;
  state : State;
  paused : bool;
  interest : option Interest;
  wb : WriteQueue;
  read : ReadSizer;
  udp_peer : option SocketAddr;
  pending : option Pending;
  send_waiters : list Pending;
  connect_fallbacks : list SocketAddr;
  connect_deadline_ms : option Z;
  stat : Stat;
}.

Definition socket_new (i : SocketId) (k : nat) (o : Z) (kd : Kind) (s : State) (f : Z) : Socket :=
  mkSocket i k o kd s false None queue_default (sizer_new f) None None [] [] None stat_default.

Definition set_owner x (s : Socket) := mkSocket (id s) (slot s) x (kind s) (state s) (paused s) (interest s) (wb s) (read s) (udp_peer s) (pending s) (send_waiters s) (connect_fallbacks s) (connect_deadline_ms s) (stat s).
Definition set_state x (s : Socket) := mkSocket (id s) (slot s) (owner s) (kind s) x (paused s) (interest s) (wb s) (read s) (udp_peer s) (pending s) (send_waiters s) (connect_fallbacks s) (connect_deadline_ms s) (stat s).
Definition set_paused x (s : Socket) := mkSocket (id s) (slot s) (owner s) (kind s) (state s) x (interest s) (wb s) (read s) (udp_peer s) (pending s) (send_waiters s) (connect_fallbacks s) (connect_deadline_ms s) (stat s).
Definition set_interest x (s : Socket) := mkSocket (id s) (slot s) (owner s) (kind s) (state s) (paused s) x (wb s) (read s) (udp_peer s) (pending s) (send_waiters s) (connect_fallbacks s) (connect_deadline_ms s) (stat s).
Definition set_wb x (s : Socket) := mkSocket (id s) (slot s) (owner s) (kind s) (state s) (paused s) (interest s) x (read s) (udp_peer s) (pending s) (send_waiters s) (connect_fallbacks s) (connect_deadline_ms s) (stat s).
Definition set_read x (s : Socket) := mkSocket (id s) (slot s) (owner s) (kind s) (state s) (paused s) (interest s) (wb s) x (udp_peer s) (pending s) (send_waiters s) (connect_fallbacks s) (connect_deadline_ms s) (stat s).
Definition set_peer x (s : Socket) := mkSocket (id s) (slot s) (owner s) (kind s) (state s) (paused s) (interest s) (wb s) (read s) x (pending s) (send_waiters s) (connect_fallbacks s) (connect_deadline_ms s) (stat s).
Definition set_pending x (s : Socket) := mkSocket (id s) (slot s) (owner s) (kind s) (state s) (paused s) (interest s) (wb s) (read s) (udp_peer s) x (send_waiters s) (connect_fallbacks s) (connect_deadline_ms s) (stat s).
Definition set_waiters x (s : Socket) := mkSocket (id s) (slot s) (owner s) (kind s) (state s) (paused s) (interest s) (wb s) (read s) (udp_peer s) (pending s) x (connect_fallbacks s) (connect_deadline_ms s) (stat s).
Definition set_fallbacks x (s : Socket) := mkSocket (id s) (slot s) (owner s) (kind s) (state s) (paused s) (interest s) (wb s) (read s) (udp_peer s) (pending s) (send_waiters s) x (connect_deadline_ms s) (stat s).
Definition set_deadline x (s : Socket) := mkSocket (id s) (slot s) (owner s) (kind s) (state s) (paused s) (interest s) (wb s) (read s) (udp_peer s) (pending s) (send_waiters s) (connect_fallbacks s) x (stat s).
Definition set_stat x (s : Socket) := mkSocket (id s) (slot s) (owner s) (kind s) (state s) (paused s) (interest s) (wb s) (read s) (udp_peer s) (pending s) (send_waiters s) (connect_fallbacks s) (connect_deadline_ms s) x.

(** [desired]: what the socket wants from the poll. *)
Definition desired (s : Socket) : option Interest :=
  match state s with
  | PreListen | PreAccept => None
  | Listen => Some READABLE
  | Connecting => Some WRITABLE
  | Connected => if is_empty (wb s) then Some READABLE else Some BOTH
  | HalfCloseRead | HalfCloseWrite => Some WRITABLE
  end.

(** [apply]: [ok] is the outcome of the call to the poll, if one is needed. *)
Definition apply_calls (s : Socket) : bool := bool_decide (desired s ≠ interest s).

Definition apply (ok : bool) (s : Socket) : Socket * bool :=
  if apply_calls s then (if ok then (set_interest (desired s) s, true) else (s, false))
  else (set_interest (desired s) s, true).

(** ** The table *)

Record Sockets : Type := mkSockets { slots : list (option Socket); next : Z; floor : Z }.

Definition sockets_new (capacity : nat) (f : Z) : Sockets := mkSockets (replicate capacity None) 1 f.

Definition capacity (t : Sockets) : Z := Z.of_nat (length (slots t)).

Definition slot_of (i : SocketId) (t : Sockets) : nat := Z.to_nat (i mod capacity t).

(** The next number, skipping 0. *)
Definition bump (i : Z) : Z := let i := (i + 1) mod 2 ^ 32 in if decide (i = 0) then 1 else i.

Fixpoint insert_loop (rounds : nat) (o : Z) (k : Kind) (st : State) (t : Sockets) : option Socket * Sockets :=
  match rounds with
  | O => (None, t)
  | S rounds =>
      let i := next t in
      let t := mkSockets (slots t) (bump i) (floor t) in
      let p := slot_of i t in
      match slots t !! p with
      | Some None =>
          let s := socket_new i p o k st (floor t) in
          (Some s, mkSockets (<[p := Some s]> (slots t)) (next t) (floor t))
      | _ => insert_loop rounds o k st t
      end
  end.

Definition insert (o : Z) (k : Kind) (st : State) (t : Sockets) : option Socket * Sockets :=
  insert_loop (length (slots t)) o k st t.

Definition get (i : SocketId) (t : Sockets) : option Socket :=
  match slots t !! slot_of i t with
  | Some (Some s) => if decide (id s = i) then Some s else None
  | _ => None
  end.

Definition by_token (k : nat) (t : Sockets) : option Socket := mjoin (slots t !! k).

Definition remove (i : SocketId) (t : Sockets) : option Socket * Sockets :=
  match get i t with
  | Some s => (Some s, mkSockets (<[slot_of i t := None]> (slots t)) (next t) (floor t))
  | None => (None, t)
  end.

(** A change through [get_mut]. *)
Definition put (s : Socket) (t : Sockets) : Sockets :=
  mkSockets (<[slot_of (id s) t := Some s]> (slots t)) (next t) (floor t).

(** The sockets in the table, slot by slot. *)
Definition live (t : Sockets) : list Socket := omap Datatypes.id (slots t).

(** ** The table is a map from numbers to sockets *)

Record wf (t : Sockets) : Prop := {
  wf_cap : slots t ≠ [];
  wf_next : 1 ≤ next t < 2 ^ 32;
  wf_slot : ∀ i s, slots t !! i = Some (Some s) → slot s = i ∧ slot_of (id s) t = i;
}.

Lemma slot_of_lt i t : slots t ≠ [] → (slot_of i t < length (slots t))%nat.
Proof.
  intros Hne. unfold slot_of, capacity. destruct (slots t) as [|x l]; [done|]. pose proof (Z.mod_pos_bound i (Z.of_nat (length (x :: l)))).
  cbn [length] in *. lia.
Qed.

Lemma sockets_new_wf c f : (0 < c)%nat → wf (sockets_new c f).
Proof.
  intros Hc. split; cbn; [by destruct c; [lia|]|lia|]. intros i s Hi. by apply lookup_replicate in Hi as [? _].
Qed.

Lemma get_Some i t s : get i t = Some s ↔ slots t !! slot_of i t = Some (Some s) ∧ id s = i.
Proof.
  unfold get. destruct (slots t !! slot_of i t) as [[x|]|]; [case_decide as Hd| |]; (split; [|intros [? ?]]); try congruence; try done.
  by intros [= <-].
Qed.

(** Only the length of the table decides where a number goes. *)
Lemma slot_of_same i t t' : length (slots t') = length (slots t) → slot_of i t' = slot_of i t.
Proof. intros E. unfold slot_of, capacity. by rewrite E. Qed.

(** Filling the slot of a number, with a socket of that number or with nothing. *)
Lemma get_fill t i (o : option Socket) nx f x :
  wf t → (∀ s, o = Some s → id s = i) → (slots t !! slot_of i t = Some None ∨ is_Some (get i t)) →
  get x (mkSockets (<[slot_of i t := o]> (slots t)) nx f) = if decide (x = i) then o else get x t.
Proof.
  intros [Hc _ Hs] Ho Hfree. pose proof (slot_of_lt i t Hc) as Hlt. unfold get at 1. cbn [slots].
  rewrite (slot_of_same x t) by (cbn; apply length_insert). destruct (decide (slot_of x t = slot_of i t)) as [E|E].
  - rewrite E, list_lookup_insert_eq by done. case_decide as Hx.
    + subst x. destruct o as [s|]; [|done]. by rewrite decide_True by auto.
    + assert (Hn : get x t = None).
      { destruct (get x t) as [s|] eqn:Eg; [|done]. apply get_Some in Eg as [Hsx <-]. rewrite E in Hsx.
        destruct Hfree as [Hf|[s' Hs']]; [congruence|]. apply get_Some in Hs' as [? <-]. congruence. }
      rewrite Hn. destruct o as [s|]; [|done]. rewrite decide_False; [done|]. rewrite (Ho s eq_refl). congruence.
  - rewrite list_lookup_insert_ne by done. rewrite decide_False by congruence. done.
Qed.

Lemma wf_fill t i (o : option Socket) nx f :
  wf t → 1 ≤ nx < 2 ^ 32 → (∀ s, o = Some s → id s = i ∧ slot s = slot_of i t) →
  wf (mkSockets (<[slot_of i t := o]> (slots t)) nx f).
Proof.
  intros [Hc Hn Hs] Hnx Ho. split; cbn [slots next]; [|done|].
  - intros E. apply (f_equal length) in E. rewrite length_insert in E. by destruct (slots t).
  - intros j s Hj. rewrite (slot_of_same _ t) by (cbn; apply length_insert). apply list_lookup_insert_Some in Hj as [(<- & -> & _)|[_ Hj]]; [|by apply Hs].
    destruct (Ho s eq_refl) as [-> ->]. done.
Qed.

Lemma bump_range i : 1 ≤ i < 2 ^ 32 → 1 ≤ bump i < 2 ^ 32.
Proof. intros Hi. unfold bump. pose proof (Z.mod_pos_bound (i + 1) (2 ^ 32) ltac:(lia)). case_decide; lia. Qed.

Lemma wf_bump t : wf t → wf (mkSockets (slots t) (bump (next t)) (floor t)).
Proof. intros [Hc Hn Hs]. split; [done|by apply bump_range|done]. Qed.

Lemma insert_loop_spec n o k st t r t' :
  wf t → insert_loop n o k st t = (r, t') →
  wf t' ∧ floor t' = floor t ∧ length (slots t') = length (slots t)
  ∧ match r with
    | Some s => s = socket_new (id s) (slot s) o k st (floor t) ∧ slots t !! slot s = Some None ∧ slot s = slot_of (id s) t
        ∧ 1 ≤ id s < 2 ^ 32 ∧ slots t' = <[slot s := Some s]> (slots t)
        ∧ get (id s) t = None ∧ ∀ x, get x t' = if decide (x = id s) then Some s else get x t
    | None => slots t' = slots t ∧ ∀ x, get x t' = get x t
    end.
Proof.
  revert t. induction n as [|n IH]; intros t Hw; cbn [insert_loop]; [by intros [= <- <-]|].
  pose proof (wf_bump t Hw) as Hw1. set (t1 := mkSockets _ _ _) in *. change (slots t1) with (slots t).
  change (slot_of (next t) t1) with (slot_of (next t) t).
  destruct (slots t !! slot_of (next t) t) as [[s|]|] eqn:Es.
  2:{ intros [= <- <-]. cbn [id slot socket_new].
    set (s := socket_new (next t) (slot_of (next t) t) o k st (floor t1)).
    split_and!; [apply (wf_fill t (next t) (Some s) (next t1) (floor t1) Hw); [apply Hw1|by intros ? [= <-]]|done|cbn; apply length_insert|done|done|done|by apply (wf_next t Hw)|by apply (wf_next t Hw)|done| |].
    - unfold get. by rewrite Es.
    - intros x. apply (get_fill t (next t) (Some s)); [done|by intros ? [= <-]|by left]. }
  all: intros Hr; destruct (IH t1 Hw1 Hr) as (? & ? & ? & Hres); split_and!; [done|done|done|]; exact Hres.
Qed.

(** C16 The socket table is a map from numbers to sockets.  [insert] gives a socket a
    number no socket has and enters it, or changes nothing; a removed number finds
    nobody, even after its slot is used again; [put] changes one socket; none of them
    disturbs another socket. *)
Theorem table_refines_map t :
  wf t →
  (∀ o k st r t', insert o k st t = (r, t') → wf t' ∧
     match r with
     | Some s => get (id s) t = None ∧ owner s = o ∧ kind s = k ∧ state s = st
         ∧ ∀ x, get x t' = if decide (x = id s) then Some s else get x t
     | None => ∀ x, get x t' = get x t
     end)
  ∧ (∀ i r t', remove i t = (r, t') → wf t' ∧ r = get i t ∧ ∀ x, get x t' = if decide (x = i) then None else get x t)
  ∧ (∀ s, is_Some (get (id s) t) → slot s = slot_of (id s) t →
       wf (put s t) ∧ ∀ x, get x (put s t) = if decide (x = id s) then Some s else get x t)
  ∧ (∀ i s, get i t = Some s → by_token (slot s) t = Some s).
Proof.
  intros Hw. split_and!.
  - intros o k st r t' Hi. destruct (insert_loop_spec _ _ _ _ _ _ _ Hw Hi) as (Hw' & _ & _ & Hr). split; [done|].
    destruct r as [s|]; [|by apply Hr]. destruct Hr as (Es & _ & _ & _ & _ & Hn & Hg). split_and!; [done|by rewrite Es..|done].
  - intros i r t'. unfold remove. destruct (get i t) as [s|] eqn:E; intros [= <- <-].
    + split; [apply wf_fill; [done|apply Hw|done]|]. split; [done|]. intros x. apply get_fill; [done|done|right; by rewrite E].
    + split; [done|]. split; [done|]. intros x. by case_decide; subst.
  - intros s Hs Hsl. split; [apply wf_fill; [done|apply Hw|by intros ? [= <-]]|]. intros x. apply get_fill; [done|by intros ? [= <-]|by right].
  - intros i s Hg. apply get_Some in Hg as [Hs <-]. destruct (wf_slot t Hw _ _ Hs) as [-> _]. unfold by_token. by rewrite Hs.
Qed.

(** Until the numbers wrap around, [insert] finds a free slot if there is one. *)
Lemma insert_loop_full n o k st t t' j :
  wf t → next t + Z.of_nat n ≤ 2 ^ 32 - 1 → insert_loop n o k st t = (None, t') → (j < n)%nat →
  slots t !! slot_of (next t + Z.of_nat j) t ≠ Some None.
Proof.
  revert t j. induction n as [|n IH]; intros t j Hw Hb; [lia|]. cbn [insert_loop].
  assert (Eb : bump (next t) = next t + 1).
  { pose proof (wf_next t Hw). unfold bump. rewrite Z.mod_small by lia. rewrite decide_False by lia. done. }
  pose proof (wf_bump t Hw) as Hw1. rewrite Eb in *. change (slot_of (next t) (mkSockets (slots t) (next t + 1) (floor t))) with (slot_of (next t) t).
  cbn [slots]. intros Hi Hj. destruct j as [|j]; [rewrite Z.add_0_r; intros E; by rewrite E in Hi|].
  replace (next t + Z.of_nat (S j)) with (next t + 1 + Z.of_nat j) by lia.
  specialize (IH (mkSockets (slots t) (next t + 1) (floor t)) j Hw1 ltac:(cbn; lia)). cbn [next slots] in IH.
  apply IH; [|lia]. destruct (slots t !! slot_of (next t) t) as [[s|]|]; done.
Qed.

Lemma insert_full o k st t t' :
  wf t → next t + capacity t ≤ 2 ^ 32 - 1 → insert o k st t = (None, t') → None ∉ slots t.
Proof.
  intros Hw Hb Hi (p & Hp)%list_elem_of_lookup. pose proof (lookup_lt_Some _ _ _ Hp) as Hlt. unfold capacity in Hb.
  set (c := capacity t). assert (Hc : 0 < c) by (unfold c, capacity; lia).
  set (j := Z.to_nat ((Z.of_nat p - next t) mod c)). pose proof (Z.mod_pos_bound (Z.of_nat p - next t) c Hc) as Hm.
  apply (insert_loop_full (length (slots t)) o k st t t' j Hw Hb Hi); [unfold j, c, capacity in *; lia|].
  replace (slot_of (next t + Z.of_nat j) t) with p; [done|]. unfold slot_of. fold c. unfold j. rewrite Z2Nat.id by lia.
  rewrite Zplus_mod_idemp_r. replace (next t + (Z.of_nat p - next t)) with (Z.of_nat p) by lia.
  rewrite Z.mod_small by (unfold c, capacity; lia). lia.
Qed.

(** At the wrap-around a round of [insert] misses a slot: with four slots, the numbers
    2^32-1, 1, 2, 3 visit the slots 3, 1, 2, 3, and slot 0 is free. *)
Lemma insert_misses_free_slot :
  let s i p := Some (socket_new i p 9 Listener PreListen 64) in
  let t := mkSockets [None; s 1 1%nat; s 2 2%nat; s 3 3%nat] (2 ^ 32 - 1) 64 in
  (insert 9 Listener PreListen t).1 = None ∧ None ∈ slots t.
Proof. split; [vm_compute; reflexivity|left]. Qed.

Lemma table_refines_map_witness :
  let t := sockets_new 4 64 in
  let '(r, t') := insert 9 Stream Connected t in
  ∃ s, r = Some s ∧ get (id s) t' = Some s ∧ wf t'.
Proof.
  intros t. destruct (insert 9 Stream Connected t) as [r t'] eqn:E.
  destruct (proj1 (table_refines_map t (sockets_new_wf 4 64 ltac:(lia))) 9 Stream Connected r t' E) as (Hw & Hr).
  destruct r as [s|]; [|discriminate E]. exists s. destruct Hr as (_ & _ & _ & _ & Hg). split; [done|]. split; [|exact Hw].
  rewrite Hg. by rewrite decide_True.
Defined.
End NetSocket.
