(* ===== verification/NetService.v ===== *)
(** * The network service

    [rskynet-net/src/service.rs]: events of the poll and commands of other services over
    the socket table.  The operating system answers from a script: each call takes the
    answer at its head if it is one for that call, and otherwise the call would block
    (a read, a write, an accept) or succeeds (a registration, a bind, a connect).  An
    address text is a literal or a host name; the resolver thread answers later.  The
    texts of reasons stand for the originals.  [panicked] is set where the code would
    panic. *)
From stdpp Require Import sorting.
From S2P Require Import Prelude Message NetBuffer NetSocket.
Import NetBuffer NetSocket.

Module NetService.

Definition MAX_UDP_PACKAGE : Z := 65535.

Record NetConfig : Type := mkConfig {
  events : Z;
  max_socket : Z;
  min_read_buffer : Z;
  warn_size : Z;
  write_high_water : Z;
  write_low_water : Z;
}.

Definition config_default : NetConfig := mkConfig 1024 65536 64 (1024 * 1024) (1024 * 1024) (512 * 1024).

(** [validate]: true when the configuration is accepted. *)
Definition validate (c : NetConfig) : bool :=
  negb (bool_decide (events c = 0)) && negb (bool_decide (max_socket c = 0)) && negb (bool_decide (min_read_buffer c = 0))
  && negb (bool_decide (write_low_water c = 0 ∨ write_high_water c ≤ write_low_water c)).

Inductive SocketEvent : Type :=
  | EAccept (i listen : SocketId) (peer : SocketAddr)
  | EData (i : SocketId) (bytes : list Z)
  | EUdp (i : SocketId) (from : SocketAddr) (bytes : list Z)
  | EClose (i : SocketId)
  | EError (i : SocketId) (reason : string)
  | EWarning (i : SocketId) (kilobytes : Z).

Definition event_id (e : SocketEvent) : SocketId :=
  match e with EAccept i _ _ | EData i _ | EUdp i _ _ | EClose i | EError i _ | EWarning i _ => i end.

Definition is_gone (e : SocketEvent) : bool := match e with EClose _ | EError _ _ => true | _ => false end.

Inductive Answer : Type := AId (i : SocketId) | AInfo (i : SocketId) | AInfos (ids : list SocketId) | ADone | AFailed (reason : string).

(** An address text: one that parses, or a name to resolve. *)
Inductive AddrText : Type := Literal (a : SocketAddr) | Host (name : string).

Inductive Command : Type :=
  | CListen (addr : AddrText)
  | CConnect (addr : AddrText)
  | CConnectWithTimeout (addr : AddrText) (timeout_ms : Z)
  | CStart (i : SocketId)
  | CPause (i : SocketId)
  | CSend (i : SocketId) (bytes : list Z) (hi : bool)
  | CSendWait (i : SocketId) (bytes : list Z) (hi : bool)
  | CClose (i : SocketId)
  | CShutdown (i : SocketId)
  | CNoDelay (i : SocketId) (on : bool)
  | CUdp (bind : option AddrText)
  | CUdpForPeer (addr : AddrText)
  | CUdpConnect (i : SocketId) (addr : AddrText)
  | CUdpSend (i : SocketId) (dest : option SocketAddr) (bytes : list Z)
  | CUdpSendWait (i : SocketId) (dest : option SocketAddr) (bytes : list Z)
  | CInfo (i : SocketId)
  | CNetstat
  | CConnectTimeoutElapsed (i : SocketId).

Inductive Farewell : Type := Silent | Closed | Failed (reason : string).

Inductive Deferred : Type :=
  | DListen
  | DConnect (deadline_ms : option Z)
  | DUdp
  | DUdpForPeer
  | DUdpConnect (i : SocketId).

(** Answers of the operating system. *)
Inductive WriteRes : Type := WWrote (n : nat) | WBlock | WIntr | WErr (reason : string).
Inductive ReadRes : Type := RData (bytes : list Z) | RBlock | RIntr | RErr (reason : string).
Inductive AcceptRes : Type := AConn (peer : SocketAddr) | ABlock | AIntr | AErr (reason : string).
Inductive RecvRes : Type := DGram (from : SocketAddr) (bytes : list Z) | DBlock | DIntr | DErr (reason : string).

Inductive Io : Type :=
  | IWrite (r : WriteRes)
  | IRead (r : ReadRes)
  | IAccept (r : AcceptRes)
  | IRecv (r : RecvRes)
  | IApply (ok : bool)
  | IBind (r : option string)        (** a bind: [None] is success *)
  | IProbe (r : option string)       (** connecting the probe of [UdpForPeer] *)
  | IConnect (r : option string)
  | IOutcome (r : option string)     (** [take_error] or [peer_addr] of a new connection *)
  | ITakeError (r : option string)
  | INoDelay (r : option string).

(** What the service does to the rest of the node and to the network. *)
Inductive Out : Type :=
  | OEvent (dest : Z) (e : SocketEvent)
  | OReply (p : Pending) (a : Answer)
  | ORefuse (p : Pending)                                     (** [reply_error] *)
  | OWrite (i : SocketId) (dest : option SocketAddr) (bytes : list Z)
  | OTimer (i : SocketId) (delay : Z)                         (** sleep, then [ConnectTimeoutElapsed] *)
  | OResolve (name : string)
  | OLog.

(** [jobs] are the commands waiting for the resolver. *)
Record Net : Type := mkNet {
  socks : Sockets;
  config : NetConfig;
  script : list Io;
  now : Z;
  jobs : list (Pending * Deferred);
  outs : list Out;
  panicked : bool;
}.

Definition set_socks x (n : Net) := mkNet x (config n) (script n) (now n) (jobs n) (outs n) (panicked n).
Definition set_script x (n : Net) := mkNet (socks n) (config n) x (now n) (jobs n) (outs n) (panicked n).
Definition set_jobs x (n : Net) := mkNet (socks n) (config n) (script n) (now n) x (outs n) (panicked n).
Definition panic (n : Net) := mkNet (socks n) (config n) (script n) (now n) (jobs n) (outs n) true.
Definition emit (o : Out) (n : Net) := mkNet (socks n) (config n) (script n) (now n) (jobs n) (outs n ++ [o]) (panicked n).

Definition sock (i : SocketId) (n : Net) : option Socket := get i (socks n).
Definition upd (s : Socket) (n : Net) : Net := set_socks (put s (socks n)) n.

(** The head of the script, if it answers this call. *)
Definition pop_apply (n : Net) : bool * Net :=
  match script n with IApply ok :: os => (ok, set_script os n) | _ => (true, n) end.
Definition pop_bind (n : Net) : option string * Net :=
  match script n with IBind r :: os => (r, set_script os n) | _ => (None, n) end.
Definition pop_probe (n : Net) : option string * Net :=
  match script n with IProbe r :: os => (r, set_script os n) | _ => (None, n) end.
Definition pop_connect (n : Net) : option string * Net :=
  match script n with IConnect r :: os => (r, set_script os n) | _ => (None, n) end.
Definition pop_outcome (n : Net) : option string * Net :=
  match script n with IOutcome r :: os => (r, set_script os n) | _ => (None, n) end.
Definition pop_error (n : Net) : option string * Net :=
  match script n with ITakeError r :: os => (r, set_script os n) | _ => (None, n) end.
Definition pop_nodelay (n : Net) : option string * Net :=
  match script n with INoDelay r :: os => (r, set_script os n) | _ => (None, n) end.

(** [socket.apply(&self.registry)]. *)
Definition apply_sock (s : Socket) (n : Net) : Net * bool :=
  if apply_calls s then
    let '(ok, n) := pop_apply n in
    let '(s, ok) := apply ok s in
    (upd s n, ok)
  else (upd (apply true s).1 n, true).

(** [reply]. *)
Definition reply (p : Pending) (a : Answer) (n : Net) : Net := if is_silent p then n else emit (OReply p a) n.

Definition replies (ps : list Pending) (a : Answer) (n : Net) : Net := foldl (λ n p, reply p a n) n ps.

Definition missing : Answer := AFailed "no such socket".

(** ** Closing *)

Definition close (i : SocketId) (f : Farewell) (n : Net) : Net :=
  match remove i (socks n) with
  | (None, _) => n
  | (Some s, t) =>
      let n := set_socks t n in
      let n := match pending s with
               | Some p => reply p (match f with Failed r => AFailed r | _ => ADone end) n
               | None => n
               end in
      let n := replies (send_waiters s) (AFailed (match f with Failed r => r | _ => "closed before it was sent" end)) n in
      match f with
      | Silent => n
      | Closed => emit (OEvent (owner s) (EClose i)) n
      | Failed r => emit (OEvent (owner s) (EError i r)) n
      end
  end.

Definition peer_closed (i : SocketId) (n : Net) : Net :=
  match sock i n with
  | None => n
  | Some s =>
      if is_empty (wb s) then close i Closed n
      else (apply_sock (set_state HalfCloseRead s) n).1
  end.

(** ** Writing *)

Definition release_send_waiters (i : SocketId) (n : Net) : Net :=
  match sock i n with
  | None => n
  | Some s =>
      if decide (write_low_water (config n) < size (wb s) ∨ send_waiters s = []) then n
      else replies (send_waiters s) ADone (upd (set_waiters [] s) n)
  end.

Definition note_write (m : nat) (s : Socket) (n : Net) : Socket :=
  set_stat (mkStat (accept_count (stat s)) (read_bytes (stat s)) (write_bytes (stat s) + Z.of_nat m) (last_read_at_ms (stat s)) (Some (now n))) s.

(** A write of which the system took [m] bytes. *)
Definition wrote (i : SocketId) (s : Socket) (c : Chunk) (m : nat) (n : Net) : Net :=
  match consume m (wb s) with
  | None => panic n
  | Some q => release_send_waiters i (emit (OWrite i (to c) (take m (rest c))) (upd (note_write m (set_wb q s) n) n))
  end.

(** The loop of [flush], on the script: the state, what is left of the script, and
    whether the queue ran empty. *)
Fixpoint flush_loop (os : list Io) (i : SocketId) (n : Net) : Net * bool :=
  match sock i n with
  | None => (set_script os n, false)
  | Some s =>
      let '(front, q) := NetBuffer.next (wb s) in
      let s := set_wb q s in
      let n := upd s n in
      match front with
      | None => (set_script os n, true)
      | Some c =>
          match kind s, to c with
          | Listener, _ => (set_script os n, false)
          | Udp, None => (close i (Failed "write error") (set_script os n), false)
          | _, _ =>
              match os with
              | IWrite (WWrote k) :: os =>
                  let m := Nat.min k (length (rest c)) in
                  if decide (m = 0%nat) then (close i (Failed "the peer takes no more data") (set_script os n), false)
                  else flush_loop os i (wrote i s c m n)
              | IWrite WIntr :: os => flush_loop os i (release_send_waiters i n)
              | IWrite (WErr r) :: os => (close i (Failed r) (set_script os n), false)
              | IWrite WBlock :: os => ((apply_sock s (set_script os n)).1, false)
              | os => ((apply_sock s (set_script os n)).1, false)
              end
          end
      end
  end.

(** What [flush] does once everything owed is written. *)
Definition flush_finish (i : SocketId) (n : Net) : Net :=
  match sock i n with
  | None => n
  | Some s =>
      match state s with
      | HalfCloseWrite | HalfCloseRead =>
          let n := close i Closed (upd (set_pending None s) n) in
          match pending s with Some p => reply p ADone n | None => n end
      | _ => (apply_sock s n).1
      end
  end.

Definition flush (i : SocketId) (n : Net) : Net :=
  let '(n, drained) := flush_loop (script n) i n in
  if drained then flush_finish i n else n.

(** ** Reading *)

Definition note_read (k : Z) (s : Socket) (n : Net) : Socket :=
  set_stat (mkStat (accept_count (stat s)) (read_bytes (stat s) + k) (write_bytes (stat s)) (Some (now n)) (last_write_at_ms (stat s))) s.

(** The loop of [on_readable]: it reads until the system would block. *)
Fixpoint on_readable_loop (os : list Io) (i : SocketId) (n : Net) : Net :=
  match sock i n with
  | None => set_script os n
  | Some s =>
      if paused s then set_script os n else
      match kind s with
      | Stream =>
          match os with
          | IRead (RData bytes) :: os =>
              let bytes := take (Z.to_nat (rsize (read s))) bytes in
              if decide (bytes = []) then peer_closed i (set_script os n) else
              let k := Z.of_nat (length bytes) in
              let n := upd (note_read k (set_read (observe k (read s)) s) n) n in
              on_readable_loop os i (emit (OEvent (owner s) (EData i bytes)) n)
          | IRead RIntr :: os => on_readable_loop os i n
          | IRead (RErr r) :: os => close i (Failed r) (set_script os n)
          | IRead RBlock :: os => set_script os n
          | os => set_script os n
          end
      | _ => set_script os n
      end
  end.

Definition on_readable (i : SocketId) (n : Net) : Net := on_readable_loop (script n) i n.

(** A datagram may be empty; it is cut to the size of the buffer. *)
Fixpoint on_udp_loop (os : list Io) (i : SocketId) (n : Net) : Net :=
  match sock i n with
  | None => set_script os n
  | Some s =>
      if paused s then set_script os n else
      match kind s with
      | Udp =>
          match os with
          | IRecv (DGram from bytes) :: os =>
              let bytes := take (Z.to_nat MAX_UDP_PACKAGE) bytes in
              let n := upd (note_read (Z.of_nat (length bytes)) s n) n in
              on_udp_loop os i (emit (OEvent (owner s) (EUdp i from bytes)) n)
          | IRecv DIntr :: os => on_udp_loop os i n
          | IRecv (DErr _) :: os => emit OLog (set_script os n)
          | IRecv DBlock :: os => set_script os n
          | os => set_script os n
          end
      | _ => set_script os n
      end
  end.

Definition on_udp (i : SocketId) (n : Net) : Net := on_udp_loop (script n) i n.

(** A new connection belongs to the owner of the listener and waits for [start]. *)
Definition accepted (listen : SocketId) (s : Socket) (peer : SocketAddr) (n : Net) : Net :=
  let s' := set_stat (mkStat (accept_count (stat s) + 1) (read_bytes (stat s)) (write_bytes (stat s)) (Some (now n)) (last_write_at_ms (stat s))) s in
  let n := upd s' n in
  match insert (owner s) Stream PreAccept (socks n) with
  | (Some c, t) => emit (OEvent (owner s) (EAccept (id c) listen peer)) (set_socks t n)
  | (None, t) => emit OLog (set_socks t n)
  end.

Fixpoint on_acceptable_loop (os : list Io) (i : SocketId) (n : Net) : Net :=
  match sock i n with
  | None => set_script os n
  | Some s =>
      if paused s then set_script os n else
      match kind s with
      | Listener =>
          match os with
          | IAccept (AConn peer) :: os => on_acceptable_loop os i (accepted i s peer n)
          | IAccept AIntr :: os => on_acceptable_loop os i n
          | IAccept (AErr _) :: os => emit OLog (set_script os n)
          | IAccept ABlock :: os => set_script os n
          | os => set_script os n
          end
      | _ => set_script os n
      end
  end.

Definition on_acceptable (i : SocketId) (n : Net) : Net := on_acceptable_loop (script n) i n.

Definition on_ready (k : Kind) (i : SocketId) (n : Net) : Net :=
  match k with Listener => on_acceptable i n | Stream => on_readable i n | Udp => on_udp i n end.

(** ** Connecting *)

Definition past (deadline : option Z) (n : Net) : bool := is_some_and (λ d, bool_decide (d ≤ now n)) deadline.

(** The loop of [do_connect_candidates]; [None] means the answer comes later. *)
Fixpoint connect_loop (addrs : list SocketAddr) (p : Pending) (deadline : option Z) (last : option string) (n : Net)
    : Net * option Answer :=
  match addrs with
  | [] => (n, Some (AFailed (default "nothing to connect to" last)))
  | _ :: rest =>
      match pop_connect n with
      | (Some e, n) => connect_loop rest p deadline (Some e) n
      | (None, n) =>
          match insert (p_source p) Stream Connecting (socks n) with
          | (None, t) => (set_socks t n, Some (AFailed "no free slot"))
          | (Some s, t) =>
              let s := set_deadline deadline (set_fallbacks rest (set_pending (Some p) s)) in
              match apply_sock s (set_socks t n) with
              | (n, true) =>
                  (match deadline with
                   | Some d => emit (OTimer (id s) (saturating_sub d (now n))) n
                   | None => n
                   end, None)
              | (n, false) => (close (id s) Silent n, Some (AFailed "registration failed"))
              end
          end
      end
  end.

Definition do_connect_candidates (addrs : list SocketAddr) (p : Pending) (deadline : option Z) (n : Net) : Net * option Answer :=
  if past deadline n then (n, Some (AFailed "connect timed out")) else connect_loop addrs p deadline None n.

Definition finish_connect (i : SocketId) (n : Net) : Net :=
  match sock i n with
  | None => n
  | Some s =>
      let '(failed, n) := match kind s with Stream => pop_outcome n | _ => (None, n) end in
      let waiting := pending s in
      let fallbacks := connect_fallbacks s in
      let s := set_fallbacks [] (set_pending None s) in
      let '(n, outcome) :=
        match failed with
        | Some e => (upd s n, Some (fallbacks, connect_deadline_ms s, e))
        | None =>
            match apply_sock (set_state Connected s) n with
            | (n, true) => (n, None)
            | (n, false) => (n, Some ([], None, "registration failed"%string))
            end
        end in
      match outcome with
      | None => match waiting with Some p => reply p (AId i) n | None => n end
      | Some (fallbacks, deadline, reason) =>
          let n := close i Silent n in
          match waiting with
          | None => n
          | Some p =>
              match fallbacks with
              | [] => reply p (AFailed reason) n
              | _ => match do_connect_candidates fallbacks p deadline n with
                     | (n, Some a) => reply p a n
                     | (n, None) => n
                     end
              end
          end
      end
  end.

Definition connect_timeout_elapsed (i : SocketId) (n : Net) : Net :=
  match sock i n with
  | None => n
  | Some s =>
      if decide (state s ≠ Connecting) then n else
      let n := close i Silent (upd (set_pending None s) n) in
      match pending s with Some p => reply p (AFailed "connect timed out") n | None => n end
  end.

Definition on_writable (i : SocketId) (n : Net) : Net :=
  if is_some_and (λ s, bool_decide (state s = Connecting)) (sock i n) then finish_connect i n else flush i n.

(** ** An event of the poll *)

Record PollEvent : Type := mkEvent { token : nat; ev_writable : bool; ev_readable : bool; ev_error : bool }.

(** The token of the waker is no slot, and finds no socket. *)
Definition on_event (e : PollEvent) (n : Net) : Net :=
  match by_token (token e) (socks n) with
  | None => n
  | Some s =>
      let i := id s in
      let n := if ev_writable e then on_writable i n else n in
      let n := if ev_readable e then on_ready (kind s) i n else n in
      if ev_error e then
        match sock i n with
        | None => n
        | Some _ => let '(r, n) := pop_error n in close i (Failed (default "socket error" r)) n
        end
      else n
  end.

(** ** Commands *)

Definition do_listen (o : Z) (n : Net) : Net * Answer :=
  match pop_bind n with
  | (Some e, n) => (n, AFailed e)
  | (None, n) =>
      match insert o Listener PreListen (socks n) with
      | (Some s, t) => (set_socks t n, AId (id s))
      | (None, t) => (set_socks t n, AFailed "no free slot")
      end
  end.

Definition do_udp_with_peer (peer : option SocketAddr) (o : Z) (n : Net) : Net * Answer :=
  match pop_bind n with
  | (Some e, n) => (n, AFailed e)
  | (None, n) =>
      match insert o Udp Connected (socks n) with
      | (None, t) => (set_socks t n, AFailed "no free slot")
      | (Some s, t) =>
          match apply_sock (set_peer peer s) (set_socks t n) with
          | (n, true) => (n, AId (id s))
          | (n, false) => (set_socks (remove (id s) (socks n)).2 n, AFailed "registration failed")
          end
      end
  end.

Definition do_udp_for_peer (peer : SocketAddr) (o : Z) (n : Net) : Net * Answer :=
  match pop_bind n with
  | (Some e, n) => (n, AFailed e)
  | (None, n) =>
      match pop_probe n with
      | (Some e, n) => (n, AFailed e)
      | (None, n) => do_udp_with_peer (Some peer) o n
      end
  end.

(** [first_successful_udp_candidate]. *)
Fixpoint udp_candidates (addrs : list SocketAddr) (o : Z) (last : option string) (n : Net) : Net * Answer :=
  match addrs with
  | [] => (n, AFailed (default "no address" last))
  | a :: addrs =>
      match do_udp_for_peer a o n with
      | (n, AFailed e) => udp_candidates addrs o (Some e) n
      | (n, a) => (n, a)
      end
  end.

Definition do_udp_connect (i : SocketId) (a : SocketAddr) (n : Net) : Net * Answer :=
  match sock i n with
  | None => (n, missing)
  | Some s => if decide (kind s ≠ Udp) then (n, AFailed "not a UDP socket") else (upd (set_peer (Some a) s) n, ADone)
  end.

Definition do_start (i : SocketId) (o : Z) (n : Net) : Net * Answer :=
  match sock i n with
  | None => (n, missing)
  | Some s =>
      let resumed := paused s in
      let s := set_paused false (set_owner o s) in
      let s := set_state (match state s with PreListen => Listen | PreAccept => Connected | keep => keep end) s in
      match apply_sock s n with
      | (n, true) => (if resumed then on_ready (kind s) i n else n, ADone)
      | (n, false) => (close i (Failed "registration failed") n, AFailed "registration failed")
      end
  end.

Definition do_pause (i : SocketId) (n : Net) : Net * Answer :=
  match sock i n with
  | None => (n, missing)
  | Some s =>
      match apply_sock (set_paused true s) n with
      | (n, true) => (n, ADone)
      | (n, false) => (n, AFailed "registration failed")
      end
  end.

Definition do_send (i : SocketId) (c : Chunk) (hi : bool) (n : Net) : Net * Answer :=
  if decide (rest c = []) then (n, match sock i n with Some _ => ADone | None => missing end) else
  match sock i n with
  | None => (n, missing)
  | Some s =>
      if negb (writable (state s)) then (n, AFailed "not writable now") else
      let '(warning, q) := push c hi (warn_size (config n)) (wb s) in
      let n := upd (set_wb q s) n in
      let n := match warning with Some kb => emit (OEvent (owner s) (EWarning i kb)) n | None => n end in
      (flush i n, ADone)
  end.

(** [None]: the caller waits for the queue to drop to the low water mark. *)
Definition do_send_wait (i : SocketId) (c : Chunk) (hi : bool) (p : Pending) (n : Net) : Net * option Answer :=
  match do_send i c hi n with
  | (n, ADone) =>
      match sock i n with
      | None => (n, Some (AFailed "closed while sending"))
      | Some s =>
          if decide (size (wb s) < write_high_water (config n)) then (n, Some ADone)
          else (upd (set_waiters (send_waiters s ++ [p]) s) n, None)
      end
  | (n, a) => (n, Some a)
  end.

(** The destination of a datagram, or the answer that refuses it. *)
Definition udp_dest (i : SocketId) (dest : option SocketAddr) (bytes : list Z) (n : Net) : SocketAddr + Answer :=
  if decide (MAX_UDP_PACKAGE < Z.of_nat (length bytes)) then inr (AFailed "datagram too long") else
  match sock i n with
  | None => inr missing
  | Some s =>
      match (match dest with Some a => Some a | None => udp_peer s end) with
      | Some a => inl a
      | None => inr (AFailed "no default peer")
      end
  end.

Definition do_udp_send (i : SocketId) (dest : option SocketAddr) (bytes : list Z) (n : Net) : Net * Answer :=
  match udp_dest i dest bytes n with
  | inr a => (n, a)
  | inl a => do_send i (udp bytes a) true n
  end.

Definition do_udp_send_wait (i : SocketId) (dest : option SocketAddr) (bytes : list Z) (p : Pending) (n : Net) : Net * option Answer :=
  match udp_dest i dest bytes n with
  | inr a => (n, Some a)
  | inl a => do_send_wait i (udp bytes a) true p n
  end.

(** [None]: the answer comes when everything owed is written. *)
Definition do_close (i : SocketId) (p : Pending) (n : Net) : Net * option Answer :=
  let n := flush i n in
  match sock i n with
  | None => (n, Some ADone)
  | Some s =>
      if is_empty (wb s) then (close i Closed n, Some ADone)
      else ((apply_sock (set_pending (Some p) (set_state HalfCloseWrite s)) n).1, None)
  end.

Definition do_nodelay (i : SocketId) (n : Net) : Net * Answer :=
  match sock i n with
  | None => (n, missing)
  | Some s =>
      if decide (kind s ≠ Stream) then (n, AFailed "not a TCP connection") else
      match pop_nodelay n with
      | (None, n) => (n, ADone)
      | (Some e, n) => (n, AFailed e)
      end
  end.

Definition defer (name : string) (p : Pending) (d : Deferred) (n : Net) : Net :=
  set_jobs (jobs n ++ [(p, d)]) (emit (OResolve name) n).

Definition some_answer (r : Net * Answer) : Net * option Answer := (r.1, Some r.2).

(** The answer of a command, or [None] when it comes later; a command with a host name
    waits for the resolver. *)
Definition perform (c : Command) (p : Pending) (n : Net) : Net * option Answer :=
  let later name d := (defer name p d n, None) in
  match c with
  | CListen (Literal _) => some_answer (do_listen (p_source p) n)
  | CListen (Host h) => later h DListen
  | CConnect (Literal a) => do_connect_candidates [a] p None n
  | CConnect (Host h) => later h (DConnect None)
  | CConnectWithTimeout (Literal a) ms => do_connect_candidates [a] p (Some (saturating_add (now n) ms)) n
  | CConnectWithTimeout (Host h) ms => later h (DConnect (Some (saturating_add (now n) ms)))
  | CUdp (Some (Host h)) => later h DUdp
  | CUdp _ => some_answer (do_udp_with_peer None (p_source p) n)
  | CUdpForPeer (Literal a) => some_answer (do_udp_for_peer a (p_source p) n)
  | CUdpForPeer (Host h) => later h DUdpForPeer
  | CUdpConnect i (Literal a) => some_answer (do_udp_connect i a n)
  | CUdpConnect i (Host h) => later h (DUdpConnect i)
  | CStart i => some_answer (do_start i (p_source p) n)
  | CPause i => some_answer (do_pause i n)
  | CSend i bytes hi => some_answer (do_send i (tcp bytes) hi n)
  | CSendWait i bytes hi => do_send_wait i (tcp bytes) hi p n
  | CUdpSend i dest bytes => some_answer (do_udp_send i dest bytes n)
  | CUdpSendWait i dest bytes => do_udp_send_wait i dest bytes p n
  | CClose i => do_close i p n
  | CShutdown i => (close i Closed n, Some ADone)
  | CNoDelay i _ => some_answer (do_nodelay i n)
  | CInfo i => (n, Some (match sock i n with Some _ => AInfo i | None => missing end))
  | CNetstat => (n, Some (AInfos (merge_sort Z.le (id <$> live (socks n)))))
  | CConnectTimeoutElapsed i => (connect_timeout_elapsed i n, None)
  end.

Definition after_resolve (d : Deferred) (addrs : list SocketAddr) (p : Pending) (n : Net) : Net * option Answer :=
  match addrs with
  | [] => (n, Some (AFailed "no address"))
  | a :: _ =>
      match d with
      | DListen => some_answer (do_listen (p_source p) n)
      | DConnect deadline => do_connect_candidates addrs p deadline n
      | DUdp => some_answer (do_udp_with_peer None (p_source p) n)
      | DUdpForPeer => some_answer (udp_candidates addrs (p_source p) None n)
      | DUdpConnect i => some_answer (do_udp_connect i a n)
      end
  end.

(** ** The service *)

(** [reply(..)] of an answer that is there. *)
Definition conclude (p : Pending) (r : Net * option Answer) : Net :=
  match r with (n, Some a) => reply p a n | (n, None) => n end.

(** A message with its payload, which is a command or not; the events of one poll; the
    answer of the resolver to the [k]-th command waiting for it. *)
Inductive Input : Type :=
  | IMessage (m : Message) (c : option Command)
  | IPoll (es : list PollEvent)
  | IResolved (k : nat) (r : list SocketAddr + string).

Definition refuse (m : Message) (n : Net) : Net :=
  if needs_reply m then emit (ORefuse (mkPending (source m) (session m))) n else n.

Definition dispatch (m : Message) (c : option Command) (n : Net) : Net :=
  if decide (mtype m ≠ MsgType.USER) then refuse m (emit OLog n) else
  let p := mkPending (source m) (session m) in
  match c with
  | Some c => conclude p (perform c p n)
  | None => refuse m (emit OLog n)
  end.

Definition resolved (k : nat) (r : list SocketAddr + string) (n : Net) : Net :=
  match jobs n !! k with
  | None => n
  | Some (p, d) =>
      let n := set_jobs (delete k (jobs n)) n in
      conclude p (match r with inl addrs => after_resolve d addrs p n | inr e => (n, Some (AFailed e)) end)
  end.

(** One input, with what the operating system answers during it and the clock. *)
Definition step (t : Z) (os : list Io) (i : Input) (n : Net) : Net :=
  let n := mkNet (socks n) (config n) os t (jobs n) (outs n) (panicked n) in
  match i with
  | IMessage m c => dispatch m c n
  | IPoll es => foldl (λ n e, on_event e n) n es
  | IResolved k r => resolved k r n
  end.

(** The service after [init] accepted its configuration. *)
Definition net_new (c : NetConfig) : Net :=
  mkNet (sockets_new (Z.to_nat (max_socket c)) (min_read_buffer c)) c [] 0 [] [] false.

Definition run (ins : list (Z * list Io * Input)) (n : Net) : Net :=
  foldl (λ n '(t, os, i), step t os i n) n ins.
End NetService.
