(* ===== verification/NetBooks.v ===== *)
(** * What the network service promises

    Invariants of the sockets and the books of the callers, over any sequence of
    messages, poll events and answers of the resolver and of the operating system. *)
From S2P Require Import Prelude Message NetBuffer NetSocket NetService.
Import NetBuffer NetSocket NetService.

Module NetBooks.

(** ** The books: who was answered and who waits *)

Definition due (ps : list Pending) : list Pending := filter (λ p, p_session p ≠ 0) ps.

Definition answered (os : list Out) : list Pending :=
  omap (λ o, match o with OReply p _ | ORefuse p => Some p | _ => None end) os.

Definition sock_waiting (s : Socket) : list Pending := option_list (pending s) ++ send_waiters s.

Definition slot_waiting (o : option Socket) : list Pending := match o with Some s => sock_waiting s | None => [] end.

Definition waiting (n : Net) : list Pending := (slots (socks n) ≫= slot_waiting) ++ (jobs n).*1.

Definition account (n : Net) : list Pending := answered (outs n) ++ due (waiting n).

(** [ps] are the callers a step takes on: each is answered in it or waits after it. *)
Definition flow (ps : list Pending) (n n' : Net) : Prop :=
  config n' = config n ∧ account n' ≡ₚ account n ++ due ps.

Lemma due_app a b : due (a ++ b) = due a ++ due b.
Proof. apply filter_app. Qed.

Lemma flow_refl n : flow [] n n.
Proof. split; [done|]. by rewrite app_nil_r. Qed.

Lemma flow_trans ps qs n1 n2 n3 : flow ps n1 n2 → flow qs n2 n3 → flow (ps ++ qs) n1 n3.
Proof. intros [C1 A1] [C2 A2]. split; [congruence|]. by rewrite A2, A1, due_app, app_assoc. Qed.

Lemma flow_then ps n1 n2 n3 : flow [] n1 n2 → flow ps n2 n3 → flow ps n1 n3.
Proof. apply (flow_trans [] ps). Qed.

Lemma flow_after ps n1 n2 n3 : flow ps n1 n2 → flow [] n2 n3 → flow ps n1 n3.
Proof. intros H1 H2. rewrite <-(app_nil_r ps). by eapply flow_trans. Qed.

(** Steps that change neither the books nor the configuration. *)
Lemma flow_same n n' :
  config n' = config n → answered (outs n') = answered (outs n) → waiting n' = waiting n → flow [] n n'.
Proof. intros Hc Ha Hw. split; [done|]. unfold account. by rewrite Ha, Hw, app_nil_r. Qed.

Lemma flow_emit o n : (match o with OReply _ _ | ORefuse _ => False | _ => True end) → flow [] n (emit o n).
Proof. intros Ho. apply flow_same; [done| |done]. unfold emit, answered. cbn. rewrite omap_app. destruct o; cbn; rewrite ?app_nil_r; done. Qed.

Lemma flow_script os n : flow [] n (set_script os n).
Proof. by apply flow_same. Qed.

Lemma flow_reply p a n : flow [p] n (reply p a n).
Proof.
  split; [by unfold reply; destruct (is_silent p)|]. unfold reply, is_silent, due, account. destruct (decide (p_session p = 0)) as [E|E].
  - rewrite bool_decide_true, filter_cons_False by (rewrite ?E; auto). by rewrite app_nil_r.
  - rewrite bool_decide_false by done. rewrite filter_cons_True by done. cbn. unfold answered. rewrite omap_app. cbn.
    rewrite <-!app_assoc. apply Permutation_app_head. by rewrite Permutation_app_comm.
Qed.

Lemma flow_replies ps a n : flow ps n (replies ps a n).
Proof.
  revert n. induction ps as [|p ps IH]; intros n; [apply flow_refl|]. change (p :: ps) with ([p] ++ ps).
  eapply flow_trans; [apply flow_reply|apply IH].
Qed.

Lemma flow_refuse m n : flow [mkPending (source m) (session m)] n (refuse m n).
Proof.
  unfold refuse, needs_reply. split; [by destruct (negb _)|]. unfold account, due. destruct (Z.eqb_spec (session m) 0) as [E|E]; cbn [negb].
  - rewrite filter_cons_False by (cbn; auto). by rewrite app_nil_r.
  - rewrite filter_cons_True by done. cbn [outs emit]. unfold answered. rewrite omap_app. cbn. rewrite <-!app_assoc. apply Permutation_app_head.
    by rewrite Permutation_app_comm.
Qed.

(** Filling a slot exchanges the callers waiting there. *)
Lemma waiting_fill n p old new nx f :
  slots (socks n) !! p = Some old →
  account (set_socks (mkSockets (<[p := new]> (slots (socks n))) nx f) n) ++ due (slot_waiting old)
  ≡ₚ account n ++ due (slot_waiting new).
Proof.
  intros Hp. unfold account, waiting. cbn [socks jobs outs set_socks slots]. rewrite !due_app, <-!app_assoc. apply Permutation_app_head.
  rewrite (Permutation_app_comm (due (jobs n).*1) (due (slot_waiting old))).
  rewrite (Permutation_app_comm (due (jobs n).*1) (due (slot_waiting new))).
  rewrite !app_assoc, <-!due_app. unfold due. by rewrite (bind_insert_perm slot_waiting _ _ _ new Hp).
Qed.

(** ** Changes of the table *)

Lemma sock_slot i n s : sock i n = Some s → slots (socks n) !! slot_of i (socks n) = Some (Some s) ∧ id s = i.
Proof. apply get_Some. Qed.

Lemma upd_spec i n s0 s :
  wf (socks n) → sock i n = Some s0 → id s = id s0 → slot s = slot s0 →
  wf (socks (upd s n)) ∧ (∀ x, sock x (upd s n) = if decide (x = i) then Some s else sock x n)
  ∧ account (upd s n) ++ due (sock_waiting s0) ≡ₚ account n ++ due (sock_waiting s).
Proof.
  intros Hw Hs Hi Hsl. pose proof (sock_slot _ _ _ Hs) as [Hp Hid]. pose proof (wf_slot _ Hw _ _ Hp) as [E1 E2].
  assert (Hids : id s = i) by congruence. unfold upd, put. rewrite Hids. split_and!.
  - apply wf_fill; [done|apply Hw|]. intros ? [= <-]. split; [done|]. congruence.
  - intros x. apply get_fill; [done|by intros ? [= <-]|right; unfold sock in Hs; by rewrite Hs].
  - by apply (waiting_fill n _ (Some s0) (Some s)).
Qed.

Lemma flow_upd i n s0 s :
  wf (socks n) → sock i n = Some s0 → id s = id s0 → slot s = slot s0 → sock_waiting s = sock_waiting s0 → flow [] n (upd s n).
Proof.
  intros Hw Hs Hi Hsl Hwt. destruct (upd_spec i n s0 s Hw Hs Hi Hsl) as (_ & _ & Ha). split; [done|]. rewrite Hwt in Ha.
  apply Permutation_app_inv_r in Ha. by rewrite app_nil_r.
Qed.

Lemma remove_spec i n :
  wf (socks n) →
  match remove i (socks n) with
  | (Some s, t) => sock i n = Some s ∧ wf t ∧ (∀ x, get x t = if decide (x = i) then None else sock x n)
      ∧ account (set_socks t n) ++ due (sock_waiting s) ≡ₚ account n
  | (None, t) => sock i n = None ∧ t = socks n
  end.
Proof.
  intros Hw. unfold remove. fold (sock i n). destruct (sock i n) as [s|] eqn:Hs; [|done]. pose proof (sock_slot _ _ _ Hs) as [Hp Hid].
  split_and!; [done|apply wf_fill; [done|apply Hw|done]| |].
  - intros x. apply get_fill; [done|done|right]. unfold sock in Hs. by rewrite Hs.
  - rewrite (waiting_fill n _ (Some s) None _ _ Hp). by rewrite app_nil_r.
Qed.

Lemma insert_spec o k st n :
  wf (socks n) →
  match insert o k st (socks n) with
  | (Some s, t) => s = socket_new (id s) (slot s) o k st (floor (socks n)) ∧ wf t ∧ sock (id s) n = None
      ∧ (∀ x, get x t = if decide (x = id s) then Some s else sock x n) ∧ account (set_socks t n) ≡ₚ account n
      ∧ slot s = slot_of (id s) t ∧ floor t = floor (socks n)
  | (None, t) => wf t ∧ (∀ x, get x t = sock x n) ∧ account (set_socks t n) ≡ₚ account n ∧ floor t = floor (socks n)
  end.
Proof.
  intros Hw. destruct (insert o k st (socks n)) as [r t] eqn:E. destruct (insert_loop_spec _ _ _ _ _ _ _ Hw E) as (Hw' & Hf & Hl & Hr).
  destruct r as [s|].
  - destruct Hr as (Es & Hp & Hsl & _ & Ht & Hn & Hg). split_and!; [done..| |by rewrite (slot_of_same _ (socks n))|done].
    assert (Hk : slots (socks n) !! slot s = Some None) by done.
    pose proof (waiting_fill n (slot s) None (Some s) (next t) (floor t) Hk) as Ha. rewrite <-Ht in Ha. cbn [slot_waiting] in Ha.
    destruct t as [sl nx fl]. cbn [next floor slots] in *. rewrite app_nil_r in Ha. rewrite Ha, Es. cbn. by rewrite app_nil_r.
  - destruct Hr as [Ht Hg]. split_and!; [done|done| |done]. unfold account, waiting. cbn. by rewrite Ht.
Qed.

(** ** The invariant *)

Section invariant.
(** [reg]: registrations with the poll do not fail; [fair]: nor does anybody close a
    socket that is already being closed for somebody. *)
Context (reg fair : bool) (fair_reg : fair = true → reg = true).

(** What always holds of a socket, in the middle of an operation too. *)
Record sock_mid (s : Socket) : Prop := {
  mid_wb : NetBuffer.wf (wb s);
  mid_pending : is_Some (pending s) → state s = Connecting ∨ state s = HalfCloseWrite ∨ state s = HalfCloseRead;
  mid_owed : is_empty (wb s) = false → state s = Connected ∨ state s = HalfCloseWrite ∨ state s = HalfCloseRead;
  mid_listener : kind s = Listener → state s = PreListen ∨ state s = Listen;
}.

Definition closing (s : Socket) : Prop := state s = HalfCloseWrite ∨ state s = HalfCloseRead → is_empty (wb s) = false.

Definition tidy (c : NetConfig) (s : Socket) : Prop := send_waiters s ≠ [] → write_low_water c < size (wb s).

(** Between operations: a socket being closed still owes bytes, callers of [send_wait]
    wait only above the low water mark, and the poll watches for what is wanted. *)
Record sock_ok (c : NetConfig) (s : Socket) : Prop := {
  ok_mid : sock_mid s;
  ok_closing : closing s;
  ok_tidy : tidy c s;
  ok_interest : reg = true → interest s = desired s;
}.

(** [x] is the socket an operation is at work on. *)
Record inv (x : option SocketId) (n : Net) : Prop := {
  inv_table : NetSocket.wf (socks n);
  inv_panic : panicked n = false;
  inv_water : 0 < write_low_water (config n) < write_high_water (config n);
  inv_script : reg = true → IApply false ∉ script n;
  inv_socks : ∀ j s, sock j n = Some s → if decide (x = Some j) then sock_mid s else sock_ok (config n) s;
}.

Lemma inv_mid x n j s : inv x n → sock j n = Some s → sock_mid s.
Proof. intros Hi Hs. pose proof (inv_socks x n Hi j s Hs) as H. case_decide; [done|by apply ok_mid in H]. Qed.

Lemma inv_ok n j s : inv None n → sock j n = Some s → sock_ok (config n) s.
Proof. intros Hi Hs. pose proof (inv_socks None n Hi j s Hs) as H. by rewrite decide_False in H. Qed.

Lemma inv_enter n i : inv None n → inv (Some i) n.
Proof. intros Hi. pose proof Hi as [H1 H2 H3 H4 _]. split; [done..|]. intros j s Hs. pose proof (inv_ok n j s Hi Hs) as Ho. case_decide; [by apply ok_mid in Ho|done]. Qed.

Lemma inv_leave n i : inv (Some i) n → (∀ s, sock i n = Some s → sock_ok (config n) s) → inv None n.
Proof.
  intros [H1 H2 H3 H4 H5] Hok. split; [done..|]. intros j s Hs. rewrite decide_False by done. specialize (H5 j s Hs). case_decide as E; [|done].
  injection E as ->. by apply Hok.
Qed.

Lemma inv_gone n i : inv (Some i) n → sock i n = None → inv None n.
Proof. intros Hi Hs. eapply inv_leave; [done|]. intros s. by rewrite Hs. Qed.

Lemma inv_emit x o n : inv x n → inv x (emit o n).
Proof. by intros [H1 H2 H3 H4 H5]; split. Qed.

Lemma inv_set_script x os n : inv x n → (reg = true → IApply false ∉ os) → inv x (set_script os n).
Proof. by intros [H1 H2 H3 H4 H5] Ho; split. Qed.

Lemma inv_reply x p a n : inv x n → inv x (reply p a n).
Proof. intros Hi. unfold reply. destruct (is_silent p); [done|by apply inv_emit]. Qed.

Lemma inv_replies x ps a n : inv x n → inv x (replies ps a n).
Proof. revert n. induction ps as [|p ps IH]; intros n Hi; [done|]. cbn. by apply IH, inv_reply. Qed.

Lemma sock_reply j p a n : sock j (reply p a n) = sock j n.
Proof. unfold reply. by destruct (is_silent p). Qed.

Lemma sock_replies j ps a n : sock j (replies ps a n) = sock j n.
Proof. revert n. induction ps as [|p ps IH]; intros n; [done|]. change (replies (p :: ps) a n) with (replies ps a (reply p a n)). rewrite IH. apply sock_reply. Qed.

(** Working on socket [i]. *)
Lemma inv_upd x i n s0 s :
  inv x n → x = None ∨ x = Some i → sock i n = Some s0 → id s = id s0 → slot s = slot s0 → sock_mid s → inv (Some i) (upd s n).
Proof.
  intros Hi Hx Hs Hk Hsl Hm. destruct (upd_spec i n s0 s (inv_table x n Hi) Hs Hk Hsl) as (Hw & Hg & _).
  pose proof Hi as [H1 H2 H3 H4 H5]. split; [done..|]. intros j s' Hj. rewrite Hg in Hj. destruct (decide (j = i)) as [->|Hne].
  - injection Hj as <-. by rewrite decide_True.
  - specialize (H5 j s' Hj). rewrite decide_False by congruence. rewrite decide_False in H5; [done|]. destruct Hx; congruence.
Qed.

Lemma inv_upd_ok x i n s0 s :
  inv x n → x = None ∨ x = Some i → sock i n = Some s0 → id s = id s0 → slot s = slot s0 → sock_ok (config n) s → inv None (upd s n).
Proof.
  intros Hi Hx Hs Hk Hsl Hok. eapply inv_leave; [eapply inv_upd; [done..|by apply ok_mid in Hok]|].
  destruct (upd_spec i n s0 s (inv_table x n Hi) Hs Hk Hsl) as (_ & Hg & _). intros s'. rewrite Hg, decide_True by done. by intros [= <-].
Qed.

Lemma pop_apply_spec x n ok n' :
  pop_apply n = (ok, n') → inv x n → inv x n' ∧ flow [] n n' ∧ socks n' = socks n ∧ (reg = true → ok = true).
Proof.
  unfold pop_apply. intros Hp Hi. destruct (script n) as [|[| | | |b| | | | | |] os] eqn:E;
    try (injection Hp as <- <-; split_and!; [done|apply flow_refl|done|done]).
  injection Hp as <- <-. pose proof (inv_script x n Hi) as Hs. rewrite E in Hs. split_and!; [|apply flow_script|done|].
  - apply inv_set_script; [done|]. intros Hr. specialize (Hs Hr). set_solver.
  - intros Hr. specialize (Hs Hr). destruct b; [done|set_solver].
Qed.

(** Applying the interest settles a socket that is otherwise in order. *)
Lemma apply_sock_spec x i n s0 s n' ok :
  inv x n → x = None ∨ x = Some i → sock i n = Some s0 → id s = id s0 → slot s = slot s0 →
  sock_mid s → closing s → tidy (config n) s → apply_sock s n = (n', ok) →
  inv None n' ∧ config n' = config n ∧ account n' ++ due (sock_waiting s0) ≡ₚ account n ++ due (sock_waiting s)
  ∧ (reg = true → ok = true) ∧ ∃ t, sock i n' = Some (set_interest t s).
Proof.
  intros Hi Hx Hs Hk Hsl Hm Hc Ht Ha. unfold apply_sock in Ha.
  assert (Hgo : ∀ n1 t, inv x n1 → flow [] n n1 → socks n1 = socks n → (reg = true → t = desired s) →
    inv None (upd (set_interest t s) n1) ∧ config (upd (set_interest t s) n1) = config n
    ∧ account (upd (set_interest t s) n1) ++ due (sock_waiting s0) ≡ₚ account n ++ due (sock_waiting s)
    ∧ ∃ t', sock i (upd (set_interest t s) n1) = Some (set_interest t' s)).
  { intros n1 t Hi1 [Hcf Hac] Hso Hint. rewrite app_nil_r in Hac. assert (Hs1 : sock i n1 = Some s0) by (unfold sock; by rewrite Hso).
    destruct (upd_spec i n1 s0 (set_interest t s) (inv_table _ _ Hi1) Hs1 Hk Hsl) as (_ & Hg & Hacc).
    split_and!; [|done|by rewrite Hacc, Hac|exists t; rewrite Hg; by rewrite decide_True].
    eapply inv_upd_ok; [done..|]. rewrite Hcf. destruct Hm as [M1 M2 M3 M4]. split; [by split|exact Hc|exact Ht|exact Hint]. }
  destruct (apply_calls s) eqn:Hcall.
  - destruct (pop_apply n) as [ok1 n1] eqn:Hp. destruct (pop_apply_spec x n ok1 n1 Hp Hi) as (Hi1 & Hf1 & Hs1 & Hr1).
    unfold apply in Ha. rewrite Hcall in Ha. destruct ok1.
    + injection Ha as <- <-. destruct (Hgo n1 (desired s) Hi1 Hf1 Hs1 ltac:(done)) as (?&?&?&?). by split_and!.
    + injection Ha as <- <-. assert (reg ≠ true) by (intros Hr; by specialize (Hr1 Hr)).
      destruct (Hgo n1 (interest s) Hi1 Hf1 Hs1 ltac:(done)) as (?&?&?&?). replace (set_interest (interest s) s) with s in * by (by destruct s). by split_and!.
  - unfold apply in Ha. rewrite Hcall in Ha. injection Ha as <- <-. destruct (Hgo n (desired s) Hi (flow_refl n) eq_refl ltac:(done)) as (?&?&?&?). by split_and!.
Qed.

Lemma apply_flow n n' s0 s : config n' = config n → account n' ++ due (sock_waiting s0) ≡ₚ account n ++ due (sock_waiting s) →
  sock_waiting s = sock_waiting s0 → flow [] n n'.
Proof. intros Hc Ha Hw. split; [done|]. rewrite Hw in Ha. apply Permutation_app_inv_r in Ha. by rewrite app_nil_r. Qed.

(** ** Closing and writing *)

Lemma close_spec x i f n :
  inv x n → x = None ∨ x = Some i →
  inv None (close i f n) ∧ flow [] n (close i f n) ∧ (∀ j, sock j (close i f n) = if decide (j = i) then None else sock j n).
Proof.
  intros Hi Hx. unfold close. pose proof (remove_spec i n (inv_table x n Hi)) as Hr. destruct (remove i (socks n)) as [[s|] t].
  2:{ destruct Hr as [Hs _]. split_and!; [|apply flow_refl|intros j; by case_decide; subst].
    destruct Hx as [-> | ->]; [done|by eapply inv_gone]. }
  destruct Hr as (Hs & Hw & Hg & Ha). set (n1 := set_socks t n).
  assert (Hi1 : inv None n1).
  { pose proof Hi as [H1 H2 H3 H4 H5]. split; [done..|]. intros j s' Hj. rewrite decide_False by done. unfold sock in Hj. cbn in Hj.
    rewrite Hg in Hj. case_decide; [done|]. specialize (H5 j s' Hj). rewrite decide_False in H5; [done|]. destruct Hx; congruence. }
  set (n2 := match pending s with Some p => _ | None => n1 end).
  assert (H2 : inv None n2 ∧ flow (option_list (pending s)) n1 n2 ∧ ∀ j, sock j n2 = sock j n1).
  { unfold n2. destruct (pending s); cbn; [split_and!; [by apply inv_reply|apply flow_reply|intros; apply sock_reply]|].
    split_and!; [done|apply flow_refl|done]. }
  destruct H2 as (Hi2 & Hf2 & Hs2). set (n3 := replies _ _ n2).
  assert (Hi3 : inv None n3) by (by apply inv_replies). pose proof (flow_trans _ _ _ _ _ Hf2 (flow_replies (send_waiters s) _ n2 : flow _ n2 n3)) as [Hc3 Ha3].
  assert (Hs3 : ∀ j, sock j n3 = if decide (j = i) then None else sock j n) by (intros j; unfold n3; rewrite sock_replies, Hs2; apply Hg).
  assert (Hf3 : flow [] n n3).
  { split; [done|]. fold (sock_waiting s) in Ha3. rewrite Ha3, app_nil_r. exact Ha. }
  destruct f; [done|..]; (split_and!; [by apply inv_emit|eapply flow_then; [exact Hf3|by apply flow_emit]|exact Hs3]).
Qed.

(** A socket whose caller was taken off: whoever answers the caller next balances the
    books. *)
Lemma take_pending_flow n n' s s1 n2 :
  config n' = config n → account n' ++ due (sock_waiting s) ≡ₚ account n ++ due (sock_waiting s1) →
  pending s1 = None → send_waiters s1 = send_waiters s → flow (option_list (pending s)) n' n2 → flow [] n n2.
Proof.
  intros Hc Ha Hp Hw [F1 F2]. split; [congruence|]. rewrite app_nil_r, F2. unfold sock_waiting in Ha. rewrite Hp, Hw in Ha.
  cbn [option_list app] in Ha. rewrite due_app, app_assoc in Ha. by apply Permutation_app_inv_r in Ha.
Qed.

Lemma take_pending_close x i f n s s1 :
  inv x n → x = None ∨ x = Some i → sock i n = Some s → id s1 = id s → slot s1 = slot s → sock_mid s1 →
  pending s1 = None → send_waiters s1 = send_waiters s →
  inv None (close i f (upd s1 n)) ∧ sock i (close i f (upd s1 n)) = None
  ∧ ∀ n', flow (option_list (pending s)) (close i f (upd s1 n)) n' → flow [] n n'.
Proof.
  intros Hi Hx Hs E1 E2 Hm Hp Hw. destruct (upd_spec i n s s1 (inv_table _ _ Hi) Hs E1 E2) as (_ & Hg & Ha).
  assert (H1 : inv (Some i) (upd s1 n)) by (by eapply inv_upd).
  destruct (close_spec (Some i) i f _ H1 (or_intror eq_refl)) as (C1 & [C2 C3] & C4). split_and!; [done|by rewrite C4, decide_True|].
  intros n' Hf. eapply (take_pending_flow n (close i f (upd s1 n)) s s1); [by rewrite C2| |done..]. rewrite app_nil_r in C3. by rewrite C3.
Qed.

Lemma mid_take_pending s s1 :
  sock_mid s → wb s1 = wb s → state s1 = state s → kind s1 = kind s → pending s1 = None → sock_mid s1.
Proof. intros [M1 M2 M3 M4] E1 E2 E3 E4. split; rewrite ?E1, ?E2, ?E3, ?E4; [done|by intros []|done|done]. Qed.

(** ... as [flush] and the connect timer do. *)
Lemma close_then_reply x i f a n s :
  inv x n → x = None ∨ x = Some i → sock i n = Some s →
  let n1 := close i f (upd (set_pending None s) n) in
  let n' := match pending s with Some p => reply p a n1 | None => n1 end in
  inv None n' ∧ flow [] n n' ∧ sock i n' = None.
Proof.
  intros Hi Hx Hs. cbv zeta. pose proof (inv_mid _ _ _ _ Hi Hs) as Hm.
  destruct (take_pending_close x i f n s (set_pending None s) Hi Hx Hs eq_refl eq_refl) as (T1 & T2 & T3); [by eapply mid_take_pending|done|done|].
  destruct (pending s) as [p|].
  - split_and!; [by apply inv_reply|apply T3, flow_reply|by rewrite sock_reply].
  - split_and!; [done|apply T3, flow_refl|done].
Qed.

Lemma release_spec i n :
  inv (Some i) n →
  inv (Some i) (release_send_waiters i n) ∧ flow [] n (release_send_waiters i n)
  ∧ ∀ s', sock i (release_send_waiters i n) = Some s' → tidy (config n) s' ∧
      ∃ s, sock i n = Some s ∧ s' = set_waiters (send_waiters s') s.
Proof.
  intros Hi. unfold release_send_waiters. destruct (sock i n) as [s|] eqn:Hs; [|split_and!; [done|apply flow_refl|congruence]].
  case_decide as Hd.
  - split_and!; [done|apply flow_refl|]. intros s'. rewrite Hs. intros [= <-]. split; [unfold tidy; destruct Hd; congruence|].
    exists s. split; [done|by destruct s].
  - destruct (upd_spec i n s (set_waiters [] s) (inv_table _ _ Hi) Hs eq_refl eq_refl) as (_ & Hg & Ha).
    pose proof (inv_mid _ _ _ _ Hi Hs) as [M1 M2 M3 M4]. split_and!.
    + apply inv_replies. by eapply inv_upd; [done|right| | | |].
    + pose proof (flow_replies (send_waiters s) ADone (upd (set_waiters [] s) n)) as [Hc Hf]. split; [done|]. rewrite Hf.
      unfold sock_waiting in Ha. cbn [pending send_waiters set_waiters] in Ha. rewrite !due_app, app_nil_r in Ha.
      rewrite (Permutation_app_comm (due (option_list _)) (due (send_waiters s))), app_assoc in Ha. apply Permutation_app_inv_r in Ha.
      by rewrite Ha, app_nil_r.
    + intros s'. rewrite sock_replies, Hg, decide_True by done. intros [= <-]. split; [by unfold tidy|]. exists s. done.
Qed.

(** The state and the callers of [i] as an operation found them. *)
Definition calm (i : SocketId) (n n' : Net) : Prop :=
  ∀ s', sock i n' = Some s' → ∃ s, sock i n = Some s ∧ state s' = state s ∧ pending s' = pending s ∧ kind s' = kind s.

Lemma calm_refl i n : calm i n n.
Proof. intros s Hs. eauto. Qed.

Lemma calm_trans i n1 n2 n3 : calm i n1 n2 → calm i n2 n3 → calm i n1 n3.
Proof. intros H1 H2 s3 (s2 & Hs2 & E1 & E2 & E3)%H2. destruct (H1 s2 Hs2) as (s1 & Hs1 & ? & ? & ?). exists s1. split_and!; congruence. Qed.

Lemma calm_gone i n n' : sock i n' = None → calm i n n'.
Proof. intros Hn s'. congruence. Qed.

(** Putting back the queue after [next]. *)
Lemma next_spec i n s c q :
  inv (Some i) n → sock i n = Some s → NetBuffer.next (wb s) = (c, q) →
  inv (Some i) (upd (set_wb q s) n) ∧ flow [] n (upd (set_wb q s) n) ∧ sock i (upd (set_wb q s) n) = Some (set_wb q s)
  ∧ sock_mid (set_wb q s) ∧ size q = size (wb s) ∧ is_empty q = is_empty (wb s) ∧ c = head (high q).
Proof.
  intros Hi Hs Hn. pose proof (inv_mid _ _ _ _ Hi Hs) as [M1 M2 M3 M4]. destruct (next_wf _ _ _ M1 Hn) as (Hq & Hsz & He & Hc).
  assert (Hm : sock_mid (set_wb q s)) by (split; cbn; [done|done|by rewrite He|done]).
  destruct (upd_spec i n s (set_wb q s) (inv_table _ _ Hi) Hs eq_refl eq_refl) as (_ & Hg & _).
  split_and!; [by eapply inv_upd; [done|right| | | |]|by eapply (flow_upd i n s); [apply (inv_table _ _ Hi)|..]| |done..].
  by rewrite Hg, decide_True.
Qed.

Lemma wrote_spec i n s c m :
  inv (Some i) n → sock i n = Some s → head (high (wb s)) = Some c → (m ≤ length (rest c))%nat →
  inv (Some i) (wrote i s c m n) ∧ flow [] n (wrote i s c m n)
  ∧ (∀ s', sock i (wrote i s c m n) = Some s' → tidy (config n) s') ∧ calm i n (wrote i s c m n).
Proof.
  intros Hi Hs Hc Hm. pose proof (inv_mid _ _ _ _ Hi Hs) as [M1 M2 M3 M4]. destruct (high (wb s)) as [|c' h] eqn:Eh; [done|]. injection Hc as ->.
  destruct (consume_wf (wb s) c h m M1 Eh Hm) as (q & Hq & Hwf & Hsz & Hlow & _). unfold wrote. rewrite Hq.
  assert (Howed : is_empty (wb s) = false) by (unfold is_empty; by rewrite Eh).
  set (s1 := note_write m (set_wb q s) n).
  assert (H1 : inv (Some i) (upd s1 n)).
  { eapply inv_upd; [done|by right|done|done|done|]. split; [done|done|cbn; intros _; by apply M3|done]. }
  destruct (upd_spec i n s s1 (inv_table _ _ Hi) Hs eq_refl eq_refl) as (_ & Hg & _).
  destruct (release_spec i (emit (OWrite i (to c) (take m (rest c))) (upd s1 n)) (inv_emit _ _ _ H1)) as (Hr1 & Hr2 & Hr3).
  split_and!; [done| | |].
  - eapply flow_then; [|exact Hr2]. eapply flow_then; [|by apply flow_emit]. by eapply (flow_upd i n s); [apply (inv_table _ _ Hi)|..].
  - intros s' Hs'. by destruct (Hr3 s' Hs').
  - intros s' Hs'. destruct (Hr3 s' Hs') as (_ & s2 & Hs2 & E). exists s. split; [done|].
    assert (Hs2' : s2 = s1). { change (sock i (upd s1 n) = Some s2) in Hs2. rewrite Hg, decide_True in Hs2 by done. congruence. }
    subst s2. rewrite E. done.
Qed.

(** The outcome of a round of writing: with everything written the socket is still to
    be settled, otherwise it is in order or gone. *)
Definition flushed (i : SocketId) (n n' : Net) (drained : bool) : Prop :=
  flow [] n n' ∧ calm i n n'
  ∧ if drained then inv (Some i) n' ∧ ∀ s, sock i n' = Some s → is_empty (wb s) = true ∧ send_waiters s = []
    else inv None n'.

Lemma flushed_then i n n1 n' d : flow [] n n1 → calm i n n1 → flushed i n1 n' d → flushed i n n' d.
Proof. intros Hf Hc (Hf1 & Hc1 & H1). split_and!; [by eapply flow_then|by eapply calm_trans|done]. Qed.

Lemma flushed_close i f n : inv (Some i) n → flushed i n (close i f n) false.
Proof.
  intros Hi. destruct (close_spec (Some i) i f n Hi (or_intror eq_refl)) as (H1 & H2 & H3). split_and!; [done| |done].
  apply calm_gone. rewrite H3. by rewrite decide_True.
Qed.

Lemma flushed_blocked i n s :
  inv (Some i) n → sock i n = Some s → is_empty (wb s) = false → tidy (config n) s → flushed i n (apply_sock s n).1 false.
Proof.
  intros Hi Hs He Ht. pose proof (inv_mid _ _ _ _ Hi Hs) as Hm. destruct (apply_sock s n) as [n' ok] eqn:Ha.
  destruct (apply_sock_spec (Some i) i n s s n' ok Hi (or_intror eq_refl) Hs eq_refl eq_refl Hm) as (H1 & H2 & H3 & _ & t & Hs'); [by intros ?|done|done|].
  cbn [fst]. split_and!; [by eapply apply_flow|intros s'; rewrite Hs'; intros [= <-]; by exists s|done].
Qed.

(** The queue as [next] left it, and an operation on it. *)
Record fronted (i : SocketId) (n n1 : Net) (s1 : Socket) (c : Chunk) : Prop := {
  fr_inv : inv (Some i) n1;
  fr_flow : flow [] n n1;
  fr_calm : calm i n n1;
  fr_sock : sock i n1 = Some s1;
  fr_owed : is_empty (wb s1) = false;
  fr_tidy : tidy (config n) s1;
  fr_head : head (high (wb s1)) = Some c;
  fr_kind : kind s1 ≠ Listener;
}.

Lemma next_fronted i n s front q :
  inv (Some i) n → sock i n = Some s → tidy (config n) s → NetBuffer.next (wb s) = (front, q) →
  match front with
  | Some c => fronted i n (upd (set_wb q s) n) (set_wb q s) c
  | None => flushed i n (upd (set_wb q s) n) true
  end.
Proof.
  intros Hi Hs Ht Hn. destruct (next_spec i n s front q Hi Hs Hn) as (Hi1 & Hf1 & Hs1 & Hm1 & Hsz & Hemp & Hfr).
  assert (Hc1 : calm i n (upd (set_wb q s) n)) by (intros s'; rewrite Hs1; intros [= <-]; by exists s).
  pose proof (inv_mid _ _ _ _ Hi Hs) as Hm. destruct front as [c|].
  - assert (Howed : is_empty q = false) by (unfold is_empty; by destruct (high q)).
    split; [done..|unfold tidy; cbn; rewrite Hsz; exact Ht|done|].
    intros Hk. pose proof (mid_listener _ Hm Hk) as Hl. rewrite Hemp in Howed. destruct (mid_owed _ Hm Howed) as [E|[E|E]]; destruct Hl; congruence.
  - split_and!; [done..|]. intros s'. rewrite Hs1. intros [= <-]. cbn.
    assert (Hq : is_empty q = true).
    { unfold NetBuffer.next in Hn. rewrite Hemp. unfold is_empty. destruct (high (wb s)) as [|x h] eqn:E1; [destruct (low (wb s)) eqn:E2; [done|discriminate]|].
      injection Hn as Hh _. by rewrite E1 in Hh. }
    split; [done|]. pose proof (mid_wb _ Hm1) as Hw. cbn in Hw. rewrite (wf_empty _ Hw) in Hq. apply bool_decide_eq_true in Hq.
    destruct (send_waiters s) eqn:E; [done|]. exfalso. pose proof (inv_water _ _ Hi). specialize (Ht ltac:(by rewrite E)). lia.
Qed.

(** The script changes nothing of this. *)
Lemma flushed_script i n n' d os :
  (reg = true → IApply false ∉ os) → flushed i n n' d → flushed i n (set_script os n') d.
Proof.
  intros Ho (Hf & Hc & Hd). split_and!; [eapply flow_after; [exact Hf|apply flow_script]|done|].
  destruct d; [destruct Hd as [Hd1 Hd2]; split; [by apply inv_set_script|done]|by apply inv_set_script].
Qed.

Lemma fronted_script i n n1 s1 c os : (reg = true → IApply false ∉ os) → fronted i n n1 s1 c → fronted i n (set_script os n1) s1 c.
Proof. intros Ho [F1 F2 F3 F4 F5 F6 F7 F8]. split; [by apply inv_set_script|eapply flow_after; [exact F2|apply flow_script]|done..]. Qed.

Lemma net_flush_loop_spec os i n :
  inv (Some i) n → (∀ s, sock i n = Some s → tidy (config n) s) → (reg = true → IApply false ∉ os) →
  flushed i n (flush_loop os i n).1 (flush_loop os i n).2.
Proof.
  assert (Hnone : ∀ os n, inv (Some i) n → (reg = true → IApply false ∉ os) → sock i n = None → flushed i n (set_script os n) false).
  { intros os' n' Hi Ho Hs. split_and!; [apply flow_script|by apply calm_gone|by eapply inv_gone; [apply inv_set_script|]]. }
  assert (Hclose : ∀ n n1 s1 c f, fronted i n n1 s1 c → flushed i n (close i f n1) false).
  { intros n0 n1 s1 c f [F1 F2 F3 F4 F5 F6 F7 F8]. by eapply flushed_then; [..|apply flushed_close]. }
  assert (Hblock : ∀ n n1 s1 c, fronted i n n1 s1 c → flushed i n (apply_sock s1 n1).1 false).
  { intros n0 n1 s1 c [F1 F2 F3 F4 F5 F6 F7 F8]. eapply flushed_then; [done..|]. apply flushed_blocked; [done..|]. by rewrite (proj1 F2). }
  revert n. induction os as [|o os IH]; intros n Hi Ht Hos; cbn [flush_loop]; destruct (sock i n) as [s|] eqn:Hs; try by apply Hnone.
  all: destruct (NetBuffer.next (wb s)) as [front q] eqn:Hn; pose proof (next_fronted i n s front q Hi Hs (Ht s eq_refl) Hn) as Hfr.
  all: destruct front as [c|]; [|by apply flushed_script].
  - pose proof (fronted_script i n _ _ c [] Hos Hfr) as Hfs. destruct (kind (set_wb q s)) eqn:Hk; [by destruct (fr_kind _ _ _ _ _ Hfr)|..]; [by eapply Hblock|].
    destruct (to c); [by eapply Hblock|by eapply Hclose].
  - assert (Hos1 : reg = true → IApply false ∉ os) by (intros Hr; specialize (Hos Hr); set_solver).
    pose proof (fronted_script i n _ _ c (o :: os) Hos Hfr) as Hfs. pose proof (fronted_script i n _ _ c os Hos1 Hfr) as Hfs1.
    assert (Hgo : let r := match o with
        | IWrite (WWrote k) => let m := Nat.min k (length (rest c)) in
            if decide (m = 0%nat) then (close i (Failed "the peer takes no more data") (set_script os (upd (set_wb q s) n)), false)
            else flush_loop os i (wrote i (set_wb q s) c m (upd (set_wb q s) n))
        | IWrite WIntr => flush_loop os i (release_send_waiters i (upd (set_wb q s) n))
        | IWrite (WErr r) => (close i (Failed r) (set_script os (upd (set_wb q s) n)), false)
        | IWrite WBlock => ((apply_sock (set_wb q s) (set_script os (upd (set_wb q s) n))).1, false)
        | _ => ((apply_sock (set_wb q s) (set_script (o :: os) (upd (set_wb q s) n))).1, false)
        end in flushed i n r.1 r.2).
    { pose proof Hfr as [F1 F2 F3 F4 F5 F6 F7 F8]. destruct o as [[k| | |r]| | | | | | | | | |]; try (by eapply Hblock).
      - cbv zeta. case_decide as Hm; [by eapply Hclose|].
        destruct (wrote_spec i _ _ c (Nat.min k (length (rest c))) F1 F4 F7 ltac:(lia)) as (W1 & W2 & W3 & W4).
        eapply flushed_then; [exact F2|exact F3|]. eapply flushed_then; [exact W2|exact W4|]. apply IH; [done| |done].
        rewrite (proj1 W2). exact W3.
      - destruct (release_spec i _ F1) as (R1 & R2 & R3). eapply flushed_then; [exact F2|exact F3|].
        eapply flushed_then; [exact R2| |apply IH; [done| |done]].
        + intros s' Hs'. destruct (R3 s' Hs') as (_ & s2 & Hs2 & E). exists s2. split; [done|]. by rewrite E.
        + intros s' Hs'. rewrite (proj1 R2). by apply R3.
      - by eapply Hclose. }
    destruct (kind (set_wb q s)) eqn:Hk; [by destruct (fr_kind _ _ _ _ _ Hfr)|exact Hgo|].
    destruct (to c); [exact Hgo|by eapply Hclose].
Qed.

Lemma flush_finish_spec i n :
  inv (Some i) n → (∀ s, sock i n = Some s → is_empty (wb s) = true ∧ send_waiters s = []) →
  inv None (flush_finish i n) ∧ flow [] n (flush_finish i n) ∧ calm i n (flush_finish i n).
Proof.
  intros Hi He. unfold flush_finish. destruct (sock i n) as [s|] eqn:Hs.
  2:{ split_and!; [by eapply inv_gone|apply flow_refl|by apply calm_gone]. }
  destruct (He s eq_refl) as [Hemp Hwt]. pose proof (inv_mid _ _ _ _ Hi Hs) as Hm.
  assert (Hclose : let n' := match pending s with Some p => reply p ADone (close i Closed (upd (set_pending None s) n)) | None => close i Closed (upd (set_pending None s) n) end in
    inv None n' ∧ flow [] n n' ∧ calm i n n').
  { destruct (close_then_reply (Some i) i Closed ADone n s Hi (or_intror eq_refl) Hs) as (C1 & C2 & C3). split_and!; [done|done|by apply calm_gone]. }
  assert (Happ : state s ≠ HalfCloseWrite → state s ≠ HalfCloseRead →
    inv None (apply_sock s n).1 ∧ flow [] n (apply_sock s n).1 ∧ calm i n (apply_sock s n).1).
  { intros N1 N2. destruct (apply_sock s n) as [n' ok] eqn:Ha.
    destruct (apply_sock_spec (Some i) i n s s n' ok Hi (or_intror eq_refl) Hs eq_refl eq_refl Hm) as (H1 & H2 & H3 & _ & t & Hs'); [by intros [|]|by unfold tidy; rewrite Hwt|done|].
    cbn [fst]. split_and!; [done|by eapply apply_flow|intros s'; rewrite Hs'; intros [= <-]; by exists s]. }
  destruct (state s); first [exact Hclose | by apply Happ].
Qed.

Lemma flush_spec i n :
  inv (Some i) n → (∀ s, sock i n = Some s → tidy (config n) s) →
  inv None (flush i n) ∧ flow [] n (flush i n) ∧ calm i n (flush i n).
Proof.
  intros Hi Ht. unfold flush. pose proof (net_flush_loop_spec (script n) i n Hi Ht (inv_script _ _ Hi)) as Hl.
  destruct (flush_loop (script n) i n) as [n1 []]; cbn [fst snd] in Hl; destruct Hl as (Hf & Hc & Hd).
  - destruct Hd as [Hd1 Hd2]. destruct (flush_finish_spec i n1 Hd1 Hd2) as (F1 & F2 & F3).
    split_and!; [done|by eapply flow_then|by eapply calm_trans].
  - done.
Qed.

(** On a service at rest. *)
Lemma flush_rest i n : inv None n → inv None (flush i n) ∧ flow [] n (flush i n) ∧ calm i n (flush i n).
Proof. intros Hi. apply flush_spec; [by apply inv_enter|]. intros s Hs. exact (ok_tidy _ _ (inv_ok _ _ _ Hi Hs)). Qed.

Lemma peer_closed_spec i n : inv None n → inv None (peer_closed i n) ∧ flow [] n (peer_closed i n).
Proof.
  intros Hi. unfold peer_closed. destruct (sock i n) as [s|] eqn:Hs; [|by split; [|apply flow_refl]].
  destruct (is_empty (wb s)) eqn:He; [by destruct (close_spec None i Closed n Hi (or_introl eq_refl)) as (? & ? & _)|].
  pose proof (inv_ok _ _ _ Hi Hs) as [[M1 M2 M3 M4] O2 O3 O4]. destruct (apply_sock _ n) as [n' ok] eqn:Ha.
  destruct (apply_sock_spec None i n s (set_state HalfCloseRead s) n' ok Hi (or_introl eq_refl) Hs eq_refl eq_refl) as (H1 & H2 & H3 & _); [|by intros ?|exact O3|done|].
  - split; cbn; [done|by right; right|by right; right|]. intros Hk. destruct (M4 Hk) as [E|E], (M3 He) as [E'|[E'|E']]; congruence.
  - cbn [fst]. split; [done|]. by eapply apply_flow.
Qed.

(** ** Reading and accepting *)

(** An operation on a service at rest: it is at rest again and, if all is
    fair, took [ps] on. *)
Definition keeps (ps : list Pending) (n n' : Net) : Prop := inv None n' ∧ (fair = true → flow ps n n').

Lemma keeps_intro ps n n' : inv None n' → flow ps n n' → keeps ps n n'.
Proof. done. Qed.

Lemma keeps_refl n : inv None n → keeps [] n n.
Proof. intros Hi. apply keeps_intro; [done|apply flow_refl]. Qed.

Lemma keeps_then ps n1 n2 n3 : keeps [] n1 n2 → (inv None n2 → keeps ps n2 n3) → keeps ps n1 n3.
Proof. intros [H1 F1] H2. destruct (H2 H1) as [H3 F2]. split; [done|]. intros Hr. eapply flow_then; [by apply F1|by apply F2]. Qed.

Lemma keeps_after ps n1 n2 n3 : keeps ps n1 n2 → (inv None n2 → keeps [] n2 n3) → keeps ps n1 n3.
Proof. intros [H1 F1] H2. destruct (H2 H1) as [H3 F2]. split; [done|]. intros Hr. eapply flow_after; [by apply F1|by apply F2]. Qed.

Lemma net_keeps_emit o n : inv None n → (match o with OReply _ _ | ORefuse _ => False | _ => True end) → keeps [] n (emit o n).
Proof. intros Hi Ho. apply keeps_intro; [by apply inv_emit|by apply flow_emit]. Qed.

Lemma keeps_script os n : inv None n → (reg = true → IApply false ∉ os) → keeps [] n (set_script os n).
Proof. intros Hi Ho. apply keeps_intro; [by apply inv_set_script|apply flow_script]. Qed.

Lemma keeps_close i f n : inv None n → keeps [] n (close i f n).
Proof. intros Hi. destruct (close_spec None i f n Hi (or_introl eq_refl)) as (? & ? & _). by split. Qed.

(** Changing what neither the invariant nor the books speak of. *)
Lemma net_keeps_upd i n s s' :
  inv None n → sock i n = Some s → id s' = id s → slot s' = slot s → kind s' = kind s → state s' = state s → wb s' = wb s →
  interest s' = interest s → pending s' = pending s → send_waiters s' = send_waiters s → keeps [] n (upd s' n).
Proof.
  intros Hi Hs E1 E2 E3 E4 E5 E6 E7 E8. apply keeps_intro.
  - eapply inv_upd_ok; [done|by left|done..|]. pose proof (inv_ok _ _ _ Hi Hs) as [[M1 M2 M3 M4] O2 O3 O4].
    split; [split|..]; unfold closing, tidy, desired in *; rewrite ?E3, ?E4, ?E5, ?E6, ?E7, ?E8; done.
  - eapply (flow_upd i n s); [apply (inv_table _ _ Hi)|done..|]. unfold sock_waiting. by rewrite E7, E8.
Qed.

Lemma on_readable_loop_spec os i n :
  inv None n → (reg = true → IApply false ∉ os) → keeps [] n (on_readable_loop os i n).
Proof.
  revert n. induction os as [|o os IH]; intros n Hi Ho; cbn [on_readable_loop]; destruct (sock i n) as [s|] eqn:Hs; try by apply keeps_script.
  all: destruct (paused s); [by apply keeps_script|]; destruct (kind s); try by apply keeps_script.
  assert (Ho1 : reg = true → IApply false ∉ os) by (intros Hr; specialize (Ho Hr); set_solver).
  destruct o as [|[bytes| | |r]| | | | | | | | |]; try by apply keeps_script.
  - case_decide as Hb.
    + eapply keeps_then; [by apply keeps_script|]. intros Hi1. destruct (peer_closed_spec i _ Hi1). by split.
    + eapply keeps_then; cycle 1; [intros Hi1; by apply IH|]. eapply keeps_then; cycle 1; [intros Hi1; by apply net_keeps_emit|]. by eapply net_keeps_upd.
  - by apply IH.
  - eapply keeps_then; [by apply keeps_script|]. intros Hi1. by apply keeps_close.
Qed.

Lemma on_udp_loop_spec os i n :
  inv None n → (reg = true → IApply false ∉ os) → keeps [] n (on_udp_loop os i n).
Proof.
  revert n. induction os as [|o os IH]; intros n Hi Ho; cbn [on_udp_loop]; destruct (sock i n) as [s|] eqn:Hs; try by apply keeps_script.
  all: destruct (paused s); [by apply keeps_script|]; destruct (kind s); try by apply keeps_script.
  assert (Ho1 : reg = true → IApply false ∉ os) by (intros Hr; specialize (Ho Hr); set_solver).
  destruct o as [| | |[from bytes| | |r]| | | | | | |]; try by apply keeps_script.
  - eapply keeps_then; cycle 1; [intros Hi1; by apply IH|]. eapply keeps_then; cycle 1; [intros Hi1; by apply net_keeps_emit|]. by eapply net_keeps_upd.
  - by apply IH.
  - eapply keeps_then; [by apply keeps_script|]. intros Hi1. by apply net_keeps_emit.
Qed.

(** A fresh socket, in the state it is born in. *)
Lemma net_insert_inv o k st n :
  inv None n → (k = Listener → st = PreListen) → st ≠ HalfCloseRead → st ≠ HalfCloseWrite →
  match insert o k st (socks n) with
  | (Some s, t) => inv (Some (id s)) (set_socks t n) ∧ flow [] n (set_socks t n) ∧ sock (id s) (set_socks t n) = Some s
      ∧ s = socket_new (id s) (slot s) o k st (floor (socks n)) ∧ sock_mid s
  | (None, t) => keeps [] n (set_socks t n)
  end.
Proof.
  intros Hi Hk N1 N2. pose proof (insert_spec o k st n (inv_table _ _ Hi)) as Hins. destruct (insert o k st (socks n)) as [[s|] t].
  - destruct Hins as (Es & Hw & Hn & Hg & Ha & _). pose proof Hi as [I1 I2 I3 I4 I5].
    assert (Hm : sock_mid s) by (rewrite Es; split; cbn; [apply wf_default|by intros []|done|by left; apply Hk]).
    split_and!; [|split; [done|by rewrite app_nil_r]|unfold sock; cbn; rewrite Hg; by rewrite decide_True|done|done].
    split; [done..|]. intros j s' Hj. unfold sock in Hj. cbn in Hj. rewrite Hg in Hj. destruct (decide (j = id s)) as [->|Hne].
    + injection Hj as <-. by rewrite decide_True.
    + rewrite decide_False by congruence. specialize (I5 j s' Hj). by rewrite decide_False in I5.
  - destruct Hins as (Hw & Hg & Ha & _). pose proof Hi as [I1 I2 I3 I4 I5]. apply keeps_intro; [|split; [done|by rewrite app_nil_r]].
    split; [done..|]. intros j s' Hj. unfold sock in Hj. cbn in Hj. rewrite Hg in Hj. by apply I5.
Qed.

(** A socket born outside the poll is in order at once. *)
Lemma insert_keeps o k st n :
  inv None n → (k = Listener ∧ st = PreListen ∨ k = Stream ∧ st = PreAccept) → keeps [] n (set_socks (insert o k st (socks n)).2 n).
Proof.
  intros Hi Hk. pose proof (net_insert_inv o k st n Hi) as Hins. destruct (insert o k st (socks n)) as [[s|] t].
  - destruct Hins as (H1 & H2 & H3 & H4 & H5); [by destruct Hk as [[??]|[??]]; congruence|by destruct Hk as [[??]|[??]]; subst|by destruct Hk as [[??]|[??]]; subst|].
    cbn [snd]. split; [|done]. eapply inv_leave; [done|]. intros s'. rewrite H3. intros [= <-]. split; [done|..]; rewrite H4;
      destruct Hk as [[-> ->]|[-> ->]]; unfold closing, tidy; cbn; try done; by intros [|].
  - apply Hins; destruct Hk as [[??]|[??]]; subst; done.
Qed.

Lemma accepted_spec l s peer n : inv None n → sock l n = Some s → keeps [] n (accepted l s peer n).
Proof.
  intros Hi Hs. unfold accepted. set (s' := set_stat _ s). assert (Hu : keeps [] n (upd s' n)) by (by eapply net_keeps_upd).
  eapply keeps_then; [exact Hu|]. intros Hi1. pose proof (insert_keeps (owner s) Stream PreAccept (upd s' n) Hi1 ltac:(auto)) as Hk.
  destruct (insert _ _ _ _) as [[c|] t]; cbn [snd] in Hk; (eapply keeps_after; [exact Hk|]; intros Hi2; by apply net_keeps_emit).
Qed.

Lemma on_acceptable_loop_spec os i n :
  inv None n → (reg = true → IApply false ∉ os) → keeps [] n (on_acceptable_loop os i n).
Proof.
  revert n. induction os as [|o os IH]; intros n Hi Ho; cbn [on_acceptable_loop]; destruct (sock i n) as [s|] eqn:Hs; try by apply keeps_script.
  all: destruct (paused s); [by apply keeps_script|]; destruct (kind s); try by apply keeps_script.
  assert (Ho1 : reg = true → IApply false ∉ os) by (intros Hr; specialize (Ho Hr); set_solver).
  destruct o as [| |[peer| | |r]| | | | | | | |]; try by apply keeps_script.
  - eapply keeps_then; cycle 1; [intros Hi1; by apply IH|]. by apply accepted_spec.
  - by apply IH.
  - eapply keeps_then; [by apply keeps_script|]. intros Hi1. by apply net_keeps_emit.
Qed.

Lemma on_ready_spec k i n : inv None n → keeps [] n (on_ready k i n).
Proof.
  intros Hi. pose proof (inv_script _ _ Hi). destruct k; [by apply on_acceptable_loop_spec|by apply on_readable_loop_spec|by apply on_udp_loop_spec].
Qed.

(** ** Connecting *)

(** Taking the head of the script, when it is not a registration. *)
Lemma keeps_pop {A} (pop : Net → A * Net) n r n' :
  (∀ n, (pop n).2 = n ∨ ∃ o, script n = o :: script (pop n).2 ∧ (pop n).2 = set_script (script (pop n).2) n) →
  inv None n → pop n = (r, n') → keeps [] n n'.
Proof.
  intros Hpop Hi Hp. destruct (Hpop n) as [E|(o & E1 & E2)]; rewrite Hp in *; cbn [snd] in *; [subst; by apply keeps_refl|].
  rewrite E2. apply keeps_script; [done|]. intros Hr. pose proof (inv_script _ _ Hi Hr) as Hn. rewrite E1 in Hn. set_solver.
Qed.

Lemma keeps_pop_connect n r n' : inv None n → pop_connect n = (r, n') → keeps [] n n'.
Proof. apply keeps_pop. intros m. unfold pop_connect. destruct (script m) as [|[] os] eqn:E; cbn; eauto. Qed.

Lemma keeps_pop_outcome n r n' : inv None n → pop_outcome n = (r, n') → keeps [] n n'.
Proof. apply keeps_pop. intros m. unfold pop_outcome. destruct (script m) as [|[] os] eqn:E; cbn; eauto. Qed.

Lemma keeps_pop_bind n r n' : inv None n → pop_bind n = (r, n') → keeps [] n n'.
Proof. apply keeps_pop. intros m. unfold pop_bind. destruct (script m) as [|[] os] eqn:E; cbn; eauto. Qed.

Lemma keeps_pop_probe n r n' : inv None n → pop_probe n = (r, n') → keeps [] n n'.
Proof. apply keeps_pop. intros m. unfold pop_probe. destruct (script m) as [|[] os] eqn:E; cbn; eauto. Qed.

Lemma keeps_pop_error n r n' : inv None n → pop_error n = (r, n') → keeps [] n n'.
Proof. apply keeps_pop. intros m. unfold pop_error. destruct (script m) as [|[] os] eqn:E; cbn; eauto. Qed.

Lemma keeps_pop_nodelay n r n' : inv None n → pop_nodelay n = (r, n') → keeps [] n n'.
Proof. apply keeps_pop. intros m. unfold pop_nodelay. destruct (script m) as [|[] os] eqn:E; cbn; eauto. Qed.

(** What a command that may answer later does with its caller. *)
Definition serves (p : Pending) (n : Net) (r : Net * option Answer) : Prop :=
  keeps (match r.2 with Some _ => [] | None => [p] end) n r.1.

Lemma serves_then p n n1 r : keeps [] n n1 → (inv None n1 → serves p n1 r) → serves p n r.
Proof. intros H1 H2. unfold serves in *. by eapply keeps_then. Qed.

Lemma connect_loop_spec addrs p deadline last n :
  inv None n → serves p n (connect_loop addrs p deadline last n).
Proof.
  revert last n. induction addrs as [|a addrs IH]; intros last n Hi; cbn [connect_loop]; [by apply keeps_refl|].
  destruct (pop_connect n) as [r n1] eqn:Hp. eapply serves_then; [exact (keeps_pop_connect _ _ _ Hi Hp)|]. intros Hi1.
  destruct r as [e|]; [by apply IH|].
  pose proof (net_insert_inv (p_source p) Stream Connecting n1 Hi1 ltac:(done) ltac:(done) ltac:(done)) as Hins.
  destruct (insert _ _ _ _) as [[s|] t]; [|exact Hins]. destruct Hins as (H1 & H2 & H3 & H4 & [M1 M2 M3 M4]).
  set (s1 := set_deadline _ _). destruct (apply_sock s1 (set_socks t n1)) as [n2 ok] eqn:Ha.
  destruct (apply_sock_spec (Some (id s)) (id s) (set_socks t n1) s s1 n2 ok H1 (or_intror eq_refl) H3 eq_refl eq_refl) as (A1 & A2 & A3 & A4 & x & A5);
    [split; [done|cbn; rewrite H4; by left|done|done]|unfold closing; cbn; rewrite H4; by intros [|]|unfold tidy; cbn; by rewrite H4|done|].
  assert (Hw : sock_waiting s = [] ∧ sock_waiting s1 = [p]) by (unfold sock_waiting; cbn; by rewrite H4).
  destruct Hw as [Hw0 Hw1]. rewrite Hw0, Hw1 in A3. change (due []) with (@nil Pending) in A3. rewrite app_nil_r in A3.
  assert (Hk : keeps [p] n1 n2) by (apply keeps_intro; [done|eapply flow_then; [exact H2|by split]]).
  destruct ok; unfold serves; cbn [fst snd].
  - destruct deadline; [|exact Hk]. eapply keeps_after; [exact Hk|]. intros Hi2. by apply net_keeps_emit.
  - split; [by apply keeps_close|]. intros Hr. by specialize (A4 (fair_reg Hr)).
Qed.

Lemma do_connect_candidates_spec addrs p deadline n :
  inv None n → serves p n (do_connect_candidates addrs p deadline n).
Proof. intros Hi. unfold do_connect_candidates. destruct (past deadline n); [by apply keeps_refl|by apply connect_loop_spec]. Qed.

Lemma keeps_conclude p n r : serves p n r → keeps [p] n (conclude p r).
Proof.
  destruct r as [n1 [a|]]; unfold serves, conclude; cbn [fst snd]; [|done]. intros Hk. eapply keeps_then; [exact Hk|]. intros Hi1.
  apply keeps_intro; [by apply inv_reply|apply flow_reply].
Qed.

Lemma connect_timeout_elapsed_spec i n : inv None n → keeps [] n (connect_timeout_elapsed i n).
Proof.
  intros Hi. unfold connect_timeout_elapsed. destruct (sock i n) as [s|] eqn:Hs; [|by apply keeps_refl]. case_decide; [by apply keeps_refl|].
  destruct (close_then_reply None i Silent (AFailed "connect timed out") n s Hi (or_introl eq_refl) Hs) as (C1 & C2 & _). by apply keeps_intro.
Qed.

Lemma finish_connect_spec i n :
  inv None n → (∀ s, sock i n = Some s → state s = Connecting) → keeps [] n (finish_connect i n).
Proof.
  intros Hi Hc. unfold finish_connect. destruct (sock i n) as [s|] eqn:Hs; [|by apply keeps_refl]. specialize (Hc s eq_refl).
  set (r := match kind s with Stream => pop_outcome n | _ => (None, n) end). destruct r as [failed n1] eqn:Hr.
  assert (Hk1 : keeps [] n n1 ∧ sock i n1 = Some s).
  { unfold r in Hr. unfold sock in *. destruct (kind s); try (injection Hr as <- <-; split; [by apply keeps_refl|done]).
    split; [by eapply keeps_pop_outcome|]. unfold pop_outcome in Hr. destruct (script n) as [|[] ?]; injection Hr as <- <-; done. }
  destruct Hk1 as [Hk1 Hs1]. eapply keeps_then; [exact Hk1|]. clear Hk1 Hr r. intros Hi1.
  set (s1 := set_fallbacks [] (set_pending None s)). pose proof (inv_ok _ _ _ Hi1 Hs1) as [Hm O2 O3 O4].
  assert (Hm1 : sock_mid s1) by (by eapply mid_take_pending).
  destruct failed as [e|].
  - destruct (take_pending_close None i Silent n1 s s1 Hi1 (or_introl eq_refl) Hs1 eq_refl eq_refl Hm1 eq_refl eq_refl) as (T1 & _ & T3).
    destruct (pending s) as [p|]; [|apply keeps_intro; [done|apply T3, flow_refl]].
    assert (Hgo : ∀ r, serves p (close i Silent (upd s1 n1)) r → keeps [] n1 (conclude p r)).
    { intros r [R1 R2]%keeps_conclude. split; [done|]. intros Hr. apply T3, R2, Hr. }
    destruct (connect_fallbacks s) as [|a l].
    + apply (Hgo (close i Silent (upd s1 n1), Some (AFailed e))). by apply keeps_refl.
    + apply Hgo, do_connect_candidates_spec, T1.
  - destruct (apply_sock (set_state Connected s1) n1) as [n2 ok] eqn:Ha.
    assert (He : is_empty (wb s) = true) by (destruct (is_empty (wb s)) eqn:E; [done|destruct (mid_owed _ Hm E) as [?|[?|?]]; congruence]).
    destruct (apply_sock_spec None i n1 s (set_state Connected s1) n2 ok Hi1 (or_introl eq_refl) Hs1 eq_refl eq_refl) as (A1 & A2 & A3 & A4 & _);
      [|by intros [|]|exact O3|done|].
    { destruct Hm1 as [M1 M2 M3 M4]. split; cbn; [done|by intros []|by left|]. intros Hk. destruct (M4 Hk); cbn in *; congruence. }
    destruct ok.
    + split; [destruct (pending s); [by apply inv_reply|done]|]. intros _.
      eapply (take_pending_flow n1 n2 s (set_state Connected s1)); [done|done|done|done|]. destruct (pending s); [apply flow_reply|apply flow_refl].
    + split; [|intros Hr; by specialize (A4 (fair_reg Hr))]. pose proof (proj1 (keeps_close i Silent n2 A1)) as Hcl. destruct (pending s); [by apply inv_reply|done].
Qed.

Lemma on_writable_spec i n : inv None n → keeps [] n (on_writable i n).
Proof.
  intros Hi. unfold on_writable. destruct (is_some_and _ _) eqn:E.
  - apply finish_connect_spec; [done|]. intros s Hs. rewrite Hs in E. cbn in E. by apply bool_decide_eq_true in E.
  - destruct (flush_rest i n Hi) as (F1 & F2 & _). by apply keeps_intro.
Qed.

Lemma on_event_spec e n : inv None n → keeps [] n (on_event e n).
Proof.
  intros Hi. unfold on_event. destruct (by_token (token e) (socks n)) as [s|]; [|by apply keeps_refl].
  set (n1 := if ev_writable e then _ else n).
  assert (K1 : keeps [] n n1) by (unfold n1; destruct (ev_writable e); [by apply on_writable_spec|by apply keeps_refl]).
  eapply keeps_then; [exact K1|]. intros Hi1. set (n2 := if ev_readable e then _ else n1).
  assert (K2 : keeps [] n1 n2) by (unfold n2; destruct (ev_readable e); [by apply on_ready_spec|by apply keeps_refl]).
  eapply keeps_then; [exact K2|]. intros Hi2. destruct (ev_error e); [|by apply keeps_refl]. destruct (sock (id s) n2); [|by apply keeps_refl].
  destruct (pop_error n2) as [r n3] eqn:Hp. eapply keeps_then; [by eapply keeps_pop_error|]. intros Hi3. by apply keeps_close.
Qed.

(** ** Commands *)

(** A socket that takes callers on. *)
Lemma take_on n n' s0 s ps :
  config n' = config n → account n' ++ due (sock_waiting s0) ≡ₚ account n ++ due (sock_waiting s) →
  sock_waiting s ≡ₚ sock_waiting s0 ++ ps → flow ps n n'.
Proof.
  intros Hc Ha Hw. split; [done|]. apply (Permutation_app_inv_r (due (sock_waiting s0))). rewrite Ha, <-app_assoc. apply Permutation_app_head.
  unfold due. by rewrite Hw, filter_app, Permutation_app_comm.
Qed.

Lemma serves_some p n r : keeps [] n r.1 → serves p n (some_answer r).
Proof. done. Qed.

Lemma do_listen_spec o n : inv None n → keeps [] n (do_listen o n).1.
Proof.
  intros Hi. unfold do_listen. destruct (pop_bind n) as [[e|] n1] eqn:Hp; (eapply keeps_then; [by eapply keeps_pop_bind|]); intros Hi1; [by apply keeps_refl|].
  pose proof (insert_keeps o Listener PreListen n1 Hi1 ltac:(auto)) as Hk. by destruct (insert _ _ _ _) as [[s|] t].
Qed.

(** A new UDP socket, registered or taken out again. *)
Lemma do_udp_with_peer_spec peer o n : inv None n → keeps [] n (do_udp_with_peer peer o n).1.
Proof.
  intros Hi. unfold do_udp_with_peer. destruct (pop_bind n) as [[e|] n1] eqn:Hp; (eapply keeps_then; [by eapply keeps_pop_bind|]); intros Hi1; [by apply keeps_refl|].
  pose proof (net_insert_inv o Udp Connected n1 Hi1 ltac:(done) ltac:(done) ltac:(done)) as Hins. destruct (insert _ _ _ _) as [[s|] t]; [|exact Hins].
  destruct Hins as (H1 & H2 & H3 & H4 & Hm). destruct (apply_sock (set_peer peer s) (set_socks t n1)) as [n2 ok] eqn:Ha.
  destruct (apply_sock_spec (Some (id s)) (id s) (set_socks t n1) s (set_peer peer s) n2 ok H1 (or_intror eq_refl) H3 eq_refl eq_refl) as (A1 & A2 & A3 & A4 & x & A5);
    [by destruct Hm|unfold closing; cbn; rewrite H4; by intros [|]|unfold tidy; cbn; by rewrite H4|done|].
  destruct ok; cbn [fst].
  - apply keeps_intro; [done|]. eapply flow_then; [exact H2|]. by eapply apply_flow.
  - split; [|intros Hr; by specialize (A4 (fair_reg Hr))]. pose proof (remove_spec (id s) n2 (inv_table _ _ A1)) as Hr.
    destruct (remove (id s) (socks n2)) as [[s2|] t2]; cbn [snd]; [destruct Hr as (R1 & R2 & R3 & _)|destruct Hr as [_ ->]; by destruct n2].
    pose proof A1 as [I1 I2 I3 I4 I5]. split; [done..|]. intros j s' Hj. unfold sock in Hj. cbn in Hj. rewrite R3 in Hj. case_decide; [done|]. by apply I5.
Qed.

Lemma do_udp_for_peer_spec peer o n : inv None n → keeps [] n (do_udp_for_peer peer o n).1.
Proof.
  intros Hi. unfold do_udp_for_peer. destruct (pop_bind n) as [[e|] n1] eqn:Hp; (eapply keeps_then; [by eapply keeps_pop_bind|]); intros Hi1; [by apply keeps_refl|].
  destruct (pop_probe n1) as [[e|] n2] eqn:Hp2; (eapply keeps_then; [by eapply keeps_pop_probe|]); intros Hi2; [by apply keeps_refl|].
  by apply do_udp_with_peer_spec.
Qed.

Lemma udp_candidates_spec addrs o last n : inv None n → keeps [] n (udp_candidates addrs o last n).1.
Proof.
  revert last n. induction addrs as [|a addrs IH]; intros last n Hi; cbn [udp_candidates]; [by apply keeps_refl|].
  pose proof (do_udp_for_peer_spec a o n Hi) as Hk. destruct (do_udp_for_peer a o n) as [n1 []]; cbn [fst] in *; try done.
  eapply keeps_then; [exact Hk|]. intros Hi1. by apply IH.
Qed.

Lemma do_udp_connect_spec i a n : inv None n → keeps [] n (do_udp_connect i a n).1.
Proof.
  intros Hi. unfold do_udp_connect. destruct (sock i n) as [s|] eqn:Hs; [|by apply keeps_refl]. case_decide; [by apply keeps_refl|].
  by eapply net_keeps_upd.
Qed.

Lemma do_start_spec i o n : inv None n → keeps [] n (do_start i o n).1.
Proof.
  intros Hi. unfold do_start. destruct (sock i n) as [s|] eqn:Hs; [|by apply keeps_refl]. cbv zeta.
  set (s1 := set_state _ _). pose proof (inv_ok _ _ _ Hi Hs) as [[M1 M2 M3 M4] O2 O3 O4].
  assert (Hm : sock_mid s1).
  { split; cbn in *; [done|intros Hp; destruct (M2 Hp) as [E|[E|E]]; rewrite E; auto|intros He; destruct (M3 He) as [E|[E|E]]; rewrite E; auto|].
    intros Hk. destruct (M4 Hk) as [E|E]; rewrite E; auto. }
  destruct (apply_sock s1 n) as [n1 ok] eqn:Ha.
  destruct (apply_sock_spec None i n s s1 n1 ok Hi (or_introl eq_refl) Hs eq_refl eq_refl Hm) as (A1 & A2 & A3 & A4 & _); [|exact O3|done|].
  { unfold closing in *. cbn. destruct (state s) eqn:E; cbn; intros [?|?]; try done; apply O2; auto. }
  assert (Hk : keeps [] n n1) by (apply keeps_intro; [done|by eapply apply_flow]).
  destruct ok; cbn [fst]; eapply keeps_then; try exact Hk; intros Hi1.
  - destruct (paused s); [by apply on_ready_spec|by apply keeps_refl].
  - by apply keeps_close.
Qed.

Lemma do_pause_spec i n : inv None n → keeps [] n (do_pause i n).1.
Proof.
  intros Hi. unfold do_pause. destruct (sock i n) as [s|] eqn:Hs; [|by apply keeps_refl].
  pose proof (inv_ok _ _ _ Hi Hs) as [[M1 M2 M3 M4] O2 O3 O4]. destruct (apply_sock (set_paused true s) n) as [n1 ok] eqn:Ha.
  destruct (apply_sock_spec None i n s (set_paused true s) n1 ok Hi (or_introl eq_refl) Hs eq_refl eq_refl) as (A1 & A2 & A3 & _); [by split|exact O2|exact O3|done|].
  assert (Hk : keeps [] n n1) by (apply keeps_intro; [done|by eapply apply_flow]). by destruct ok.
Qed.

Lemma do_send_spec i d hi a n : inv None n → keeps [] n (do_send i (mkChunk d 0 a) hi n).1.
Proof.
  intros Hi. unfold do_send. case_decide as Hd; [by apply keeps_refl|]. destruct (sock i n) as [s|] eqn:Hs; [|by apply keeps_refl].
  destruct (writable (state s)) eqn:Hwr; [|by apply keeps_refl]. cbn [negb].
  destruct (push _ _ _ _) as [warning q] eqn:Hp. pose proof (inv_ok _ _ _ Hi Hs) as [[M1 M2 M3 M4] O2 O3 O4].
  assert (Hq : NetBuffer.wf q ∧ size (wb s) ≤ size q).
  { pose proof (push_wf (mkChunk d 0 a) hi (warn_size (config n)) (wb s) M1 eq_refl Hd) as H1.
    pose proof (push_size (mkChunk d 0 a) hi (warn_size (config n)) (wb s)) as H2. rewrite Hp in H1, H2. cbn [snd] in *. split; [done|lia]. }
  destruct Hq as [Hq1 Hq2].
  assert (Hstate : state s = Connected ∨ state s = HalfCloseWrite ∨ state s = HalfCloseRead) by (destruct (state s); auto; done).
  assert (Hm1 : sock_mid (set_wb q s)) by (split; done).
  assert (H1 : inv (Some i) (upd (set_wb q s) n)) by (by eapply inv_upd; [done|left|..]).
  destruct (upd_spec i n s (set_wb q s) (inv_table _ _ Hi) Hs eq_refl eq_refl) as (_ & Hg & _).
  assert (Hf1 : flow [] n (upd (set_wb q s) n)) by (by eapply (flow_upd i n s); [apply (inv_table _ _ Hi)|..]).
  set (n2 := match warning with Some kb => _ | None => _ end).
  assert (H2 : inv (Some i) n2 ∧ flow [] n n2 ∧ sock i n2 = Some (set_wb q s)).
  { assert (Hsk : sock i (upd (set_wb q s) n) = Some (set_wb q s)) by (rewrite Hg; by rewrite decide_True).
    unfold n2. destruct warning; [|done]. split_and!; [by apply inv_emit|eapply flow_then; [exact Hf1|by apply flow_emit]|exact Hsk]. }
  destruct H2 as (Hi2 & Hf2 & Hs2). destruct (flush_spec i n2 Hi2) as (F1 & F2 & _).
  { intros s'. rewrite Hs2. intros [= <-]. unfold tidy in *. cbn. rewrite (proj1 Hf2). intros Hne. specialize (O3 Hne). lia. }
  cbn [fst]. apply keeps_intro; [done|by eapply flow_then].
Qed.

Lemma do_send_wait_spec i d hi a p n : inv None n → serves p n (do_send_wait i (mkChunk d 0 a) hi p n).
Proof.
  intros Hi. unfold do_send_wait. pose proof (do_send_spec i d hi a n Hi) as Hk. destruct (do_send i _ hi n) as [n1 ans]. cbn [fst] in Hk.
  destruct ans; try exact Hk. destruct (sock i n1) as [s|] eqn:Hs; [|exact Hk]. case_decide as Hw; [exact Hk|].
  unfold serves. cbn [fst snd]. eapply keeps_then; [exact Hk|]. intros Hi1. pose proof (inv_ok _ _ _ Hi1 Hs) as [[M1 M2 M3 M4] O2 O3 O4].
  pose proof (inv_water _ _ Hi1) as Hwat. set (s1 := set_waiters _ s).
  destruct (upd_spec i n1 s s1 (inv_table _ _ Hi1) Hs eq_refl eq_refl) as (_ & _ & Ha). apply keeps_intro.
  - eapply inv_upd_ok; [done|by left|done|done|done|]. split; [by split|exact O2|unfold tidy; cbn; lia|exact O4].
  - eapply take_on; [done|exact Ha|]. unfold sock_waiting, s1. cbn. by rewrite app_assoc.
Qed.

Lemma do_udp_send_spec i dest bytes n : inv None n → keeps [] n (do_udp_send i dest bytes n).1.
Proof. intros Hi. unfold do_udp_send. destruct (udp_dest i dest bytes n); [by apply do_send_spec|by apply keeps_refl]. Qed.

Lemma do_udp_send_wait_spec i dest bytes p n : inv None n → serves p n (do_udp_send_wait i dest bytes p n).
Proof. intros Hi. unfold do_udp_send_wait. destruct (udp_dest i dest bytes n); [by apply do_send_wait_spec|by apply keeps_refl]. Qed.

(** A socket that nobody is waiting to see closed. *)
Definition unclaimed (i : SocketId) (n : Net) : Prop := ∀ s, sock i n = Some s → pending s = None ∨ state s = Connecting.

Lemma do_close_spec i p n : inv None n → (fair = true → unclaimed i n) → serves p n (do_close i p n).
Proof.
  intros Hi Hu. unfold do_close. cbv zeta. destruct (flush_rest i n Hi) as (F1 & F2 & F3). set (n1 := flush i n) in *.
  assert (Hk : keeps [] n n1) by (by apply keeps_intro). destruct (sock i n1) as [s|] eqn:Hs; [|exact Hk].
  destruct (is_empty (wb s)) eqn:He; [eapply serves_then; [exact Hk|]; intros Hi1; by apply keeps_close|].
  pose proof (inv_ok _ _ _ F1 Hs) as [[M1 M2 M3 M4] O2 O3 O4]. set (s1 := set_pending _ _). destruct (apply_sock s1 n1) as [n2 ok] eqn:Ha.
  destruct (apply_sock_spec None i n1 s s1 n2 ok F1 (or_introl eq_refl) Hs eq_refl eq_refl) as (A1 & A2 & A3 & _); [|by intros ?|exact O3|done|].
  { split; cbn; [done|by right; left|by right; left|]. intros Hkd. destruct (M4 Hkd) as [E|E], (M3 He) as [E'|[E'|E']]; congruence. }
  unfold serves. cbn [fst snd]. split; [done|]. intros Hr. destruct (F3 s Hs) as (s0 & Hs0 & E1 & E2 & _).
  assert (Hp : pending s = None).
  { rewrite E2. destruct (Hu Hr s0 Hs0) as [->|E]; [done|]. destruct (M3 He) as [E'|[E'|E']]; congruence. }
  eapply flow_then; [exact F2|]. eapply take_on; [done|exact A3|]. unfold sock_waiting, s1. cbn. rewrite Hp. cbn. by rewrite Permutation_app_comm.
Qed.

Lemma do_nodelay_spec i n : inv None n → keeps [] n (do_nodelay i n).1.
Proof.
  intros Hi. unfold do_nodelay. destruct (sock i n); [|by apply keeps_refl]. case_decide; [by apply keeps_refl|].
  destruct (pop_nodelay n) as [[e|] n1] eqn:Hp; by eapply keeps_pop_nodelay.
Qed.

Lemma defer_spec name p d n : inv None n → serves p n (defer name p d n, None).
Proof.
  intros Hi. unfold serves, defer. cbn [fst snd]. apply keeps_intro; [destruct Hi; by split|]. split; [done|].
  unfold account, waiting, answered. cbn. rewrite omap_app, fmap_app. cbn. rewrite app_nil_r, !app_assoc, due_app. by rewrite app_assoc.
Qed.

(** A [close] of a socket that somebody is already waiting to see closed. *)
Definition polite (c : Command) (n : Net) : Prop := match c with CClose i => unclaimed i n | _ => True end.

Lemma perform_spec c p n :
  inv None n → (fair = true → polite c n) → (∀ i, c ≠ CConnectTimeoutElapsed i) → serves p n (perform c p n).
Proof.
  intros Hi Hp Hc.
  destruct c as [[]|[]|[]| | | | | | | |[[]|]|[]|? []| | | | |]; cbn [perform]; try (by apply defer_spec); try (apply serves_some).
  all: first
    [ by apply do_listen_spec | by apply do_connect_candidates_spec | by apply do_udp_with_peer_spec | by apply do_udp_for_peer_spec
    | by apply do_udp_connect_spec | by apply do_start_spec | by apply do_pause_spec | by apply do_send_spec | by apply do_send_wait_spec
    | by apply do_udp_send_spec | by apply do_udp_send_wait_spec | by apply do_nodelay_spec | by apply do_close_spec
    | by apply keeps_close | by apply keeps_refl | idtac ].
  by destruct (Hc i).
Qed.

Lemma after_resolve_spec d addrs p n : inv None n → serves p n (after_resolve d addrs p n).
Proof.
  intros Hi. unfold after_resolve. destruct addrs as [|a addrs]; [by apply keeps_refl|]. destruct d; try apply serves_some.
  all: first [ by apply do_listen_spec | by apply do_connect_candidates_spec | by apply do_udp_with_peer_spec | by apply udp_candidates_spec
    | by apply do_udp_connect_spec ].
Qed.

(** ** The service *)

(** Whom an input asks an answer for; the timer of a connection asks for none. *)
Definition asked (i : Input) : list Pending :=
  match i with
  | IMessage m c =>
      match c with
      | Some (CConnectTimeoutElapsed _) => if decide (mtype m ≠ MsgType.USER) then [mkPending (source m) (session m)] else []
      | _ => [mkPending (source m) (session m)]
      end
  | _ => []
  end.

Definition polite_input (i : Input) (n : Net) : Prop := match i with IMessage _ (Some c) => polite c n | _ => True end.

Lemma keeps_refuse m n : inv None n → keeps [mkPending (source m) (session m)] n (refuse m (emit OLog n)).
Proof.
  intros Hi. eapply keeps_then; [by apply (net_keeps_emit OLog)|]. intros Hi1. apply keeps_intro; [|apply flow_refuse].
  unfold refuse. destruct (needs_reply m); [by apply inv_emit|done].
Qed.

Lemma dispatch_spec m c n :
  inv None n → (fair = true → polite_input (IMessage m c) n) → keeps (asked (IMessage m c)) n (dispatch m c n).
Proof.
  intros Hi Hp. unfold dispatch. case_decide as Hm.
  - destruct c as [[]|]; cbn [asked]; try by apply keeps_refuse. rewrite decide_True by done. by apply keeps_refuse.
  - destruct c as [c|]; [|by apply keeps_refuse].
    assert (Hc : (∀ i, c ≠ CConnectTimeoutElapsed i) ∨ ∃ i, c = CConnectTimeoutElapsed i) by (destruct c; eauto; left; done).
    destruct Hc as [Hc|[i ->]].
    + replace (asked (IMessage m (Some c))) with [mkPending (source m) (session m)] by (destruct c; try done; by destruct (Hc i)).
      apply keeps_conclude. by apply perform_spec.
    + cbn [asked]. rewrite decide_False by (by intros []). by apply connect_timeout_elapsed_spec.
Qed.

Lemma resolved_spec k r n : inv None n → keeps [] n (resolved k r n).
Proof.
  intros Hi. unfold resolved. destruct (jobs n !! k) as [[p d]|] eqn:Hk; [|by apply keeps_refl]. set (n1 := set_jobs _ n).
  assert (Hi1 : inv None n1) by (destruct Hi; by split).
  assert (Ha : account n1 ++ due [p] ≡ₚ account n).
  { unfold account, waiting, n1. cbn [socks jobs outs set_jobs]. rewrite <-app_assoc, <-due_app. apply Permutation_app_head. unfold due.
    assert (Hj : (jobs n).*1 ≡ₚ (delete k (jobs n)).*1 ++ [p]).
    { rewrite (delete_Permutation (jobs n) k (p, d) Hk) at 1. rewrite fmap_cons. cbn [fst]. by rewrite Permutation_cons_append. }
    rewrite <-app_assoc. by rewrite Hj. }
  assert (Hs : serves p n1 (match r with inl addrs => after_resolve d addrs p n1 | inr e => (n1, Some (AFailed e)) end)).
  { destruct r; [by apply after_resolve_spec|by apply keeps_refl]. }
  destruct (keeps_conclude p n1 _ Hs) as [K1 K2]. split; [done|]. intros Hf. destruct (K2 Hf) as [K3 K4]. split; [done|]. by rewrite K4, Ha, app_nil_r.
Qed.

Lemma net_step_spec t os i n :
  inv None n → (reg = true → IApply false ∉ os) → (fair = true → polite_input i n) → keeps (asked i) n (step t os i n).
Proof.
  intros Hi Ho Hp. unfold step. set (n1 := mkNet _ _ os t _ _ _). assert (Hi1 : inv None n1) by (destruct Hi; by split).
  assert (K1 : keeps [] n n1) by (apply keeps_intro; [done|by apply flow_same]). eapply keeps_then; [exact K1|]. intros _.
  destruct i as [m c|es|k r]; [by apply dispatch_spec| |by apply resolved_spec]. cbn [asked]. clear K1 Hp Ho. revert Hi1. generalize n1. clear n1.
  induction es as [|e es IH]; intros n1 Hi1; cbn [foldl]; [by apply keeps_refl|].
  eapply keeps_then; cycle 1; [intros Hi2; by apply IH|]. by apply on_event_spec.
Qed.

(** Inputs one after the other, each with what the system answers during it. *)
Fixpoint orderly (ins : list (Z * list Io * Input)) (n : Net) : Prop :=
  match ins with
  | [] => True
  | (t, os, i) :: ins =>
      (reg = true → IApply false ∉ os) ∧ (fair = true → polite_input i n) ∧ orderly ins (step t os i n)
  end.

Lemma net_run_spec ins n : inv None n → orderly ins n → keeps (ins ≫= λ x, asked x.2) n (run ins n).
Proof.
  revert n. induction ins as [|[[t os] i] ins IH]; intros n Hi Ho; [by apply keeps_refl|]. destruct Ho as (H1 & H2 & H3).
  destruct (net_step_spec t os i n Hi H1 H2) as [K1 K2]. destruct (IH _ K1 H3) as [K3 K4]. split; [done|]. intros Hf. rewrite bind_cons.
  eapply flow_trans; [by apply K2|by apply K4].
Qed.

Lemma net_new_inv c : validate c = true → 0 ≤ max_socket c → 0 ≤ write_low_water c → inv None (net_new c).
Proof.
  unfold validate. intros Hv Hm Hl. apply andb_prop in Hv as [Hv H3%negb_true_iff%bool_decide_eq_false]. apply andb_prop in Hv as [Hv _].
  apply andb_prop in Hv as [_ H1%negb_true_iff%bool_decide_eq_false].
  split; cbn; [apply sockets_new_wf; lia|done|lia|set_solver|]. intros j s Hs. unfold sock, get in Hs. cbn in Hs.
  destruct (replicate _ _ !! _) as [o|] eqn:E; [|done]. by apply lookup_replicate in E as [-> _].
Qed.
End invariant.

Lemma orderly_any ins n : orderly false false ins n.
Proof. revert n. induction ins as [|[[t os] i] ins IH]; intros n; [done|]. by split_and!; [..|apply IH]. Qed.

Lemma orderly_registered ins n : Forall (λ x, IApply false ∉ x.1.2) ins → orderly true false ins n.
Proof. revert n. induction ins as [|[[t os] i] ins IH]; intros n Hf; [done|]. apply Forall_cons in Hf as [H1 H2]. split_and!; [done|done|by apply IH]. Qed.

(** C14 Every caller of the network service is answered exactly once: over any sequence of
    commands, poll events and resolver answers, with the system failing as it likes
    except to register a socket, and unless somebody closes a socket that is already
    being closed for somebody else, the callers answered and the callers waiting
    (for a connection, for bytes to be written, for a name) are together exactly the
    ones that asked. *)
Theorem callers_answered_once c ins :
  validate c = true → 0 ≤ max_socket c → 0 ≤ write_low_water c → orderly true true ins (net_new c) →
  let n := run ins (net_new c) in
  answered (outs n) ++ due (waiting n) ≡ₚ due (ins ≫= λ x, asked x.2).
Proof.
  intros Hv Hm Hl Ho. cbv zeta. destruct (net_run_spec true true ltac:(done) ins (net_new c) (net_new_inv true true ltac:(done) c Hv Hm Hl) Ho) as [_ Hf].
  destruct (Hf eq_refl) as [_ Ha]. unfold account in Ha. rewrite Ha. unfold waiting. cbn [outs net_new answered omap list_omap jobs socks slots sockets_new].
  assert (He : ∀ k, replicate k None ≫= slot_waiting = []) by (intros k; induction k as [|k IH]; [done|]; cbn; exact IH).
  by rewrite He.
Qed.

(** C15 Nobody waits in vain for the poll.  The service never panics; and as long as
    registrations succeed, whatever else happens, a socket that owes bytes, or for
    whose connection or closing somebody waits, is registered for being writable; one
    being closed still owes bytes; and a caller of [send_wait] is kept waiting only
    above the low water mark. *)
Theorem sockets_watched c ins :
  validate c = true → 0 ≤ max_socket c → 0 ≤ write_low_water c →
  let n := run ins (net_new c) in
  panicked n = false
  ∧ (Forall (λ x, IApply false ∉ x.1.2) ins → ∀ i s, sock i n = Some s →
       (is_empty (wb s) = false → interest s = Some WRITABLE ∨ interest s = Some BOTH)
       ∧ (is_Some (pending s) → interest s = Some WRITABLE)
       ∧ (state s = HalfCloseRead ∨ state s = HalfCloseWrite → is_empty (wb s) = false)
       ∧ (send_waiters s ≠ [] → write_low_water (config n) < size (wb s) ∧ is_empty (wb s) = false)).
Proof.
  intros Hv Hm Hl n. split.
  - destruct (net_run_spec false false ltac:(done) ins (net_new c) (net_new_inv false false ltac:(done) c Hv Hm Hl) (orderly_any ins _)) as [Hi _]. apply (inv_panic _ _ _ Hi).
  - intros Hf i s Hs. destruct (net_run_spec true false ltac:(done) ins (net_new c) (net_new_inv true false ltac:(done) c Hv Hm Hl) (orderly_registered ins _ Hf)) as [Hi _].
    fold n in Hi. pose proof (inv_ok _ _ _ _ Hi Hs) as [[M1 M2 M3 M4] O2 O3 O4]. pose proof (inv_water _ _ _ Hi) as Hw. specialize (O4 eq_refl).
    split_and!.
    + intros He. rewrite O4. unfold desired. rewrite He. destruct (M3 He) as [-> | [-> | ->]]; auto.
    + intros Hp. rewrite O4. unfold desired. destruct (M2 Hp) as [-> | [-> | ->]]; done.
    + intros Hc. apply O2. tauto.
    + intros Hne. specialize (O3 Hne). split; [done|]. rewrite (wf_empty _ M1). apply bool_decide_eq_false. lia.
Qed.

(** ** One connection, from the call to its end *)

Definition demo_config : NetConfig := mkConfig 16 4 64 1024 2048 1024.
Definition from (src ses : Z) : Message := mkMessage src ses MsgType.USER PNone.
Definition home : SocketAddr := V4 2130706433 8888.
Definition writable_1 : Input := IPoll [mkEvent 1 true false false].

(** Service 7 connects and sends; the system takes nothing at first; service 11 asks
    for the connection to be closed. *)
Definition until_close : list (Z * list Io * Input) := [
  (0, [IConnect None; IApply true], IMessage (from 7 1) (Some (CConnect (Literal home))));
  (1, [IOutcome None; IApply true], writable_1);
  (2, [IWrite WBlock], IMessage (from 7 0) (Some (CSend 1 [1; 2; 3] true)));
  (3, [], IMessage (from 11 5) (Some (CClose 1)))].

Definition written_out : Z * list Io * Input := (5, [IWrite (WWrote 3)], writable_1).

Lemma demo_orderly : orderly true true (until_close ++ [written_out]) (net_new demo_config).
Proof.
  repeat split; try (intros _; set_solver). intros _. unfold polite_input, polite, unclaimed. intros s Hs. left.
  vm_compute in Hs. by injection Hs as <-.
Qed.

Lemma callers_answered_once_witness :
  answered (outs (run (until_close ++ [written_out]) (net_new demo_config)))
    ++ due (waiting (run (until_close ++ [written_out]) (net_new demo_config))) ≡ₚ [mkPending 7 1; mkPending 11 5].
Proof. exact (callers_answered_once demo_config (until_close ++ [written_out]) eq_refl ltac:(done) ltac:(done) demo_orderly). Defined.

Lemma closing_view : ∃ s, sock 1 (run until_close (net_new demo_config)) = Some s ∧ bool_decide (is_Some (pending s)) = true.
Proof. apply (some_view (λ s, bool_decide (is_Some (pending s)))). vm_compute. reflexivity. Qed.

Lemma until_close_registers : Forall (λ x, IApply false ∉ x.1.2) until_close.
Proof. repeat constructor; set_solver. Qed.

Lemma sockets_watched_witness :
  ∃ s, sock 1 (run until_close (net_new demo_config)) = Some s ∧ interest s = Some WRITABLE.
Proof.
  destruct closing_view as (s & Hs & Hp). exists s. split; [exact Hs|].
  exact (proj1 (proj2 (proj2 (sockets_watched demo_config until_close eq_refl ltac:(done) ltac:(done)) until_close_registers 1 s Hs))
    (bool_decide_eq_true_1 _ Hp)).
Defined.

(** A second [close] of the same connection makes the service forget the first:
    with service 11 already waiting for the connection to be closed, service 12 asks
    too; the rest is written, the connection is gone, service 12 has its answer, and
    service 11 neither has one nor is waiting for one. *)
Theorem second_close_forgets_first :
  let ins := until_close ++ [(4, [], IMessage (from 12 6) (Some (CClose 1))); written_out] in
  let n := run ins (net_new demo_config) in
  mkPending 11 5 ∈ (ins ≫= λ x, asked x.2) ∧ sock 1 n = None ∧ answered (outs n) = [mkPending 7 1; mkPending 12 6] ∧ waiting n = [].
Proof. split_and!; [right; right; left|vm_compute; reflexivity..]. Qed.

(** A connection that cannot be registered with the poll answers its caller twice, and
    first that it is done. *)
Lemma failed_registration_answers_twice :
  outs (run [(0, [IConnect None; IApply false], IMessage (from 7 1) (Some (CConnect (Literal home))))] (net_new demo_config))
  = [OReply (mkPending 7 1) ADone; OReply (mkPending 7 1) (AFailed "registration failed")].
Proof. vm_compute. reflexivity. Qed.
End NetBooks.
