(* ===== verification/HttpHead.v ===== *)
(** * HTTP: configuration, origins and framing headers

    The parts of [rskynet-http/src/] a request goes through before a connection is
    chosen: [error.rs], [config.rs], [body.rs] ([BodySpec]) and, of [client.rs], [Origin]
    and [apply_body_headers].  The URI and the header map are values of the [http] crate:
    a URI is what its accessors return, a header map is the list of its fields with lower
    case names, in insertion order.  The [tls] feature is on. *)
From S2P Require Import Prelude Message.
From Stdlib Require Import Ascii.
From stdpp Require Import strings.
#[local] Open Scope Z_scope.

Module HttpHead.

Inductive HttpError : Type :=
  | Config (reason : string)
  | InvalidUri (reason : string)
  | UnsupportedScheme (scheme : string)
  | Protocol (reason : string)
  | Transport (reason : string)
  | Tls (reason : string)
  | Timeout (phase : string)
  | BodyLengthMismatch (expected actual : Z)
  | BodyClosed
  | RequestBodyRejected
  | BackpressureLimit (actual limit : Z)
  | Canceled
  | ServiceUnavailable (reason : string)
  | InvalidState (reason : string)
  | WebSocket (reason : string).

(** ** Configuration *)

Record HttpClientConfig : Type := mkClientConfig {
  connect_timeout_ms : Z;
  response_head_timeout_ms : Z;
  body_idle_timeout_ms : Z;
  continue_timeout_ms : Z;
  pool_idle_timeout_ms : Z;
  max_connections : Z;
  max_connections_per_origin : Z;
  max_idle_connections : Z;
  max_idle_connections_per_origin : Z;
  input_high_water : Z;
  input_low_water : Z;
  max_chunk_size : Z;
  max_header_size : Z;
}.

Definition client_default : HttpClientConfig :=
  mkClientConfig 10000 30000 30000 1000 60000 256 16 64 8 (256 * 1024) (128 * 1024) (64 * 1024) (64 * 1024).

Definition validate_common (low high chunk header : Z) : option HttpError :=
  if decide (low = 0 ∨ high ≤ low ∨ chunk = 0 ∨ header = 0) then Some (Config "watermarks") else None.

Definition validate (c : HttpClientConfig) : option HttpError :=
  match validate_common (input_low_water c) (input_high_water c) (max_chunk_size c) (max_header_size c) with
  | Some e => Some e
  | None =>
      if decide (connect_timeout_ms c = 0 ∨ response_head_timeout_ms c = 0 ∨ body_idle_timeout_ms c = 0
                 ∨ continue_timeout_ms c = 0 ∨ pool_idle_timeout_ms c = 0)
      then Some (Config "timeouts")
      else if decide (max_connections c = 0 ∨ max_connections_per_origin c = 0
                      ∨ max_connections_per_origin c > max_connections c)
      then Some (Config "connections")
      else if decide (max_idle_connections c > max_connections c
                      ∨ max_idle_connections_per_origin c > max_connections_per_origin c)
      then Some (Config "idle connections")
      else None
  end.

Record HttpServerConfig : Type := mkServerConfig {
  s_header_timeout_ms : Z;
  s_body_idle_timeout_ms : Z;
  s_input_high_water : Z;
  s_input_low_water : Z;
  s_max_chunk_size : Z;
  s_max_header_size : Z;
}.

Definition server_default : HttpServerConfig :=
  mkServerConfig 30000 30000 (256 * 1024) (128 * 1024) (64 * 1024) (64 * 1024).

Definition server_validate (c : HttpServerConfig) : option HttpError :=
  match validate_common (s_input_low_water c) (s_input_high_water c) (s_max_chunk_size c) (s_max_header_size c) with
  | Some e => Some e
  | None => if decide (s_header_timeout_ms c = 0 ∨ s_body_idle_timeout_ms c = 0)
            then Some (Config "timeouts") else None
  end.

(** ** Origins *)

Inductive Scheme : Type := Http | Https.

#[global] Instance Scheme_eq_dec : EqDecision Scheme.
Proof. solve_decision. Defined.

#[global] Instance Scheme_countable : Countable Scheme.
Proof.
  refine (inj_countable' (λ s, match s with Http => false | Https => true end) (λ b : bool, if b then Https else Http) _).
  by intros [].
Defined.

Record Uri : Type := mkUri { scheme_str : option string; host : option string; port_u16 : option Z }.

Record Origin : Type := mkOrigin { o_scheme : Scheme; o_host : string; o_port : Z }.

#[global] Instance Origin_eq_dec : EqDecision Origin.
Proof. solve_decision. Defined.

#[global] Instance Origin_countable : Countable Origin.
Proof.
  refine (inj_countable' (λ o, (o_scheme o, o_host o, o_port o)) (λ '(s, h, p), mkOrigin s h p) _). by intros [].
Defined.

(** [char::to_ascii_lowercase]. *)
Definition lower_char (c : ascii) : ascii :=
  let n := nat_of_ascii c in if decide (65 ≤ n ≤ 90)%nat then ascii_of_nat (n + 32) else c.

Fixpoint to_ascii_lowercase (s : string) : string :=
  match s with EmptyString => EmptyString | String c s => String (lower_char c) (to_ascii_lowercase s) end.

Definition from_uri (u : Uri) : Origin + HttpError :=
  match (match scheme_str u with
         | Some s => if decide (s = "http"%string) then inl Http
                     else if decide (s = "https"%string) then inl Https
                     else inr (UnsupportedScheme s)
         | None => inr (InvalidUri "no scheme")
         end) with
  | inr e => inr e
  | inl scheme =>
      match host u with
      | None => inr (InvalidUri "no host")
      | Some h => inl (mkOrigin scheme (to_ascii_lowercase h)
                         (default (if decide (scheme = Https) then 443 else 80) (port_u16 u)))
      end
  end.

Definition digit_char (d : Z) : ascii := ascii_of_nat (Z.to_nat (d + 48)).

(** Decimal digits, most significant first. *)
Fixpoint digits (fuel : nat) (z : Z) (acc : string) : string :=
  match fuel with
  | O => acc
  | S fuel =>
      let acc := String (digit_char (z mod 10)) acc in
      if decide (z / 10 = 0) then acc else digits fuel (z / 10) acc
  end.

(** The decimal form of a [u64]: twenty digits suffice. *)
Definition decimal (z : Z) : string := digits 20 z EmptyString.

Fixpoint contains (c : ascii) (s : string) : bool :=
  match s with EmptyString => false | String d s => bool_decide (c = d) || contains c s end.

Definition address (o : Origin) : string :=
  if contains ":" (o_host o) then "[" +:+ o_host o +:+ "]:" +:+ decimal (o_port o)
  else o_host o +:+ ":" +:+ decimal (o_port o).

(** ** Framing headers *)

Inductive BodySpec : Type := Empty | Fixed (size : Z) | Chunked.

#[global] Instance BodySpec_eq_dec : EqDecision BodySpec.
Proof. solve_decision. Defined.

Abbreviation HeaderMap := (list (string * string)) (only parsing).

Definition CONTENT_LENGTH : string := "content-length".
Definition TRANSFER_ENCODING : string := "transfer-encoding".

Definition contains_key (k : string) (h : HeaderMap) : bool := existsb (λ f, bool_decide (f.1 = k)) h.

(** The first value of a field. *)
Definition get (k : string) (h : HeaderMap) : option string := snd <$> head (filter (λ f, f.1 = k) h).

(** [HeaderMap::insert] drops the values a field had. *)
Definition insert_header (k v : string) (h : HeaderMap) : HeaderMap :=
  filter (λ f, f.1 ≠ k) h ++ [(k, v)].

(** [HeaderValue::to_str]: visible ASCII and tabs. *)
Definition visible (c : ascii) : bool :=
  let n := nat_of_ascii c in ((32 <=? n) && (n <? 127) || (n =? 9))%nat.

Fixpoint all_visible (s : string) : bool :=
  match s with EmptyString => true | String c s => visible c && all_visible s end.

Definition to_str (v : string) : option string := if all_visible v then Some v else None.

Definition digit_value (c : ascii) : option Z :=
  let n := Z.of_nat (nat_of_ascii c) in if decide (48 ≤ n ≤ 57) then Some (n - 48) else None.

(** The digit loop of [str::parse::<u64>], overflow checked. *)
Fixpoint parse_digits (acc : Z) (s : string) : option Z :=
  match s with
  | EmptyString => Some acc
  | String c rest => v ← digit_value c; acc ← checked_add (acc * 10) v; parse_digits acc rest
  end.

(** [str::parse::<u64>]: one leading [+] is accepted. *)
Definition parse_u64 (s : string) : option Z :=
  match s with
  | EmptyString => None
  | String c rest =>
      if decide (c = AddrText.plus_char) then match rest with EmptyString => None | _ => parse_digits 0 rest end
      else parse_digits 0 s
  end.

Definition eq_ignore_ascii_case (a b : string) : bool := bool_decide (to_ascii_lowercase a = to_ascii_lowercase b).

Definition apply_body_headers (h : HeaderMap) (spec : BodySpec) : HeaderMap + HttpError :=
  if contains_key CONTENT_LENGTH h && contains_key TRANSFER_ENCODING h then inr (Protocol "both framings") else
  match spec with
  | Empty =>
      if is_some_and (λ v, bool_decide (v ≠ "0"%string)) (get CONTENT_LENGTH h) || contains_key TRANSFER_ENCODING h
      then inr (Protocol "empty body with framing") else inl h
  | Fixed size =>
      match get CONTENT_LENGTH h with
      | Some v => if decide ((to_str v ≫= parse_u64) ≠ Some size) then inr (Protocol "other length") else inl h
      | None => inl (insert_header CONTENT_LENGTH (decimal size) h)
      end
  | Chunked =>
      if contains_key CONTENT_LENGTH h then inr (Protocol "chunked with length") else
      match get TRANSFER_ENCODING h with
      | Some v => if eq_ignore_ascii_case v "chunked" then inl h else inr (Protocol "other encoding")
      | None => inl (insert_header TRANSFER_ENCODING "chunked" h)
      end
  end.

(** ** What the framing headers say afterwards *)

Lemma digit_value_char d : 0 ≤ d < 10 → digit_value (digit_char d) = Some d.
Proof.
  intros Hd. unfold digit_value, digit_char. rewrite nat_ascii_embedding by lia. rewrite decide_True by lia. f_equal. lia.
Qed.

Lemma parse_digits_digits fuel z acc :
  0 ≤ z ≤ U64_MAX → z < 10 ^ Z.of_nat fuel → (0 < fuel)%nat →
  parse_digits 0 (digits fuel z acc) = parse_digits z acc.
Proof.
  revert z acc. induction fuel as [|fuel IH]; intros z acc Hz Hlt Hf; [lia|].
  cbn [digits]. pose proof (Z.mod_pos_bound z 10 ltac:(lia)) as Hmod. pose proof (Z.div_mod z 10 ltac:(lia)) as Hdm.
  assert (Hstep : parse_digits (z / 10) (String (digit_char (z mod 10)) acc) = parse_digits z acc).
  { cbn [parse_digits]. rewrite digit_value_char by lia. cbn. unfold checked_add. rewrite decide_True by lia. cbn. f_equal. lia. }
  case_decide as E; [by rewrite E in Hstep|]. rewrite IH; [exact Hstep| | |].
  - pose proof (Z.div_le_upper_bound z 10 z). lia.
  - rewrite Nat2Z.inj_succ, Z.pow_succ_r in Hlt by lia. apply Z.div_lt_upper_bound; lia.
  - destruct fuel; [|lia]. change (10 ^ Z.of_nat 1) with 10 in Hlt. rewrite Z.div_small in E by lia. congruence.
Qed.

(** Every character of a decimal number is a digit. *)
Fixpoint numeric (s : string) : Prop :=
  match s with EmptyString => True | String c s => (∃ d, c = digit_char d ∧ 0 ≤ d < 10) ∧ numeric s end.

Lemma digits_numeric fuel z acc : numeric acc → numeric (digits fuel z acc).
Proof.
  revert z acc. induction fuel as [|fuel IH]; intros z acc Hacc; [done|]. cbn [digits].
  assert (numeric (String (digit_char (z mod 10)) acc)).
  { split; [|done]. eexists. split; [done|]. apply Z.mod_pos_bound. lia. }
  case_decide; auto.
Qed.

Lemma digits_nonempty fuel z acc : (0 < fuel)%nat ∨ acc ≠ EmptyString → digits fuel z acc ≠ EmptyString.
Proof.
  revert z acc. induction fuel as [|fuel IH]; intros z acc Hf; cbn [digits]; [by destruct Hf; [lia|]|].
  case_decide; [done|]. apply IH. by right.
Qed.

Lemma numeric_visible s : numeric s → all_visible s = true.
Proof.
  induction s as [|c s IH]; [done|]. cbn. intros [(d & -> & Hd) Hs]. rewrite IH by done. unfold visible, digit_char.
  rewrite nat_ascii_embedding by lia. apply andb_true_iff. split; [|done]. apply orb_true_iff. left. apply andb_true_iff.
  split; [apply Nat.leb_le|apply Nat.ltb_lt]; lia.
Qed.

(** A length survives being written into a header and read back. *)
Lemma parse_decimal z : is_u64 z → (to_str (decimal z) ≫= parse_u64) = Some z.
Proof.
  intros Hz. pose proof (digits_numeric 20 z EmptyString I) as Hn. fold (decimal z) in Hn. unfold to_str.
  rewrite numeric_visible by done. cbn [mbind option_bind].
  assert (Hp : parse_digits 0 (decimal z) = Some z).
  { unfold decimal. rewrite parse_digits_digits; [done|u64| |lia]. unfold is_u64 in Hz.
    assert (2 ^ 64 < 10 ^ Z.of_nat 20) by reflexivity. lia. }
  pose proof (digits_nonempty 20 z EmptyString ltac:(left; lia)) as Hne. fold (decimal z) in Hne.
  destruct (decimal z) as [|c s]; [done|]. destruct Hn as [(d & -> & Hd) _]. cbn [parse_u64]. rewrite decide_False; [done|].
  intros Heq%(f_equal nat_of_ascii). unfold digit_char, AddrText.plus_char in Heq. rewrite !nat_ascii_embedding in Heq by lia. lia.
Qed.

Lemma contains_key_get k h : contains_key k h = false ↔ get k h = None.
Proof.
  unfold contains_key, get. induction h as [|f h IH]; [done|]. cbn. destruct (decide (f.1 = k)) as [E|E].
  - rewrite bool_decide_eq_true_2 by done. done.
  - rewrite bool_decide_eq_false_2 by done. exact IH.
Qed.

Lemma get_insert_header k v h : get k (insert_header k v h) = Some v.
Proof.
  unfold get, insert_header. rewrite filter_app. replace (filter _ (filter _ h)) with (@nil (string * string)).
  - cbn. by rewrite decide_True.
  - symmetry. apply elem_of_nil_inv. intros f. rewrite !list_elem_of_filter. tauto.
Qed.

Lemma get_insert_header_ne k k' v h : k ≠ k' → get k (insert_header k' v h) = get k h.
Proof.
  intros Hk. unfold get, insert_header. rewrite filter_app. cbn. rewrite decide_False by done. rewrite app_nil_r.
  f_equal. f_equal. rewrite list_filter_filter. apply list_filter_iff. intros f. split; [tauto|]. intros <-. done.
Qed.

(** The framing the headers announce. *)
Definition framing (h : HeaderMap) : option BodySpec :=
  match get CONTENT_LENGTH h, get TRANSFER_ENCODING h with
  | None, None => Some Empty
  | Some v, None => Fixed <$> (to_str v ≫= parse_u64)
  | None, Some v => if eq_ignore_ascii_case v "chunked" then Some Chunked else None
  | Some _, Some _ => None
  end.

(** An empty body may be announced as one of length zero. *)
Definition announces (h : HeaderMap) (spec : BodySpec) : Prop :=
  framing h = Some spec ∨ (spec = Empty ∧ framing h = Some (Fixed 0)).

Lemma key_names : CONTENT_LENGTH ≠ TRANSFER_ENCODING.
Proof. done. Qed.

Lemma both_keys h :
  contains_key CONTENT_LENGTH h && contains_key TRANSFER_ENCODING h = false ↔
  get CONTENT_LENGTH h = None ∨ get TRANSFER_ENCODING h = None.
Proof. rewrite andb_false_iff, !contains_key_get. done. Qed.

Lemma apply_empty h h' : apply_body_headers h Empty = inl h' → h' = h ∧ announces h Empty.
Proof.
  unfold apply_body_headers. destruct (_ && _) eqn:Eb; [done|].
  destruct (_ || _) eqn:E; [done|]. intros [= <-]. split; [done|]. apply orb_false_iff in E as [Ec Et%contains_key_get].
  unfold announces, framing. rewrite Et. destruct (get CONTENT_LENGTH h) as [v|]; [|by left]. right. split; [done|].
  cbn in Ec. apply bool_decide_eq_false in Ec. assert (v = "0"%string) as -> by (by destruct (decide (v = "0"%string))).
  by vm_compute.
Qed.

Lemma apply_fixed n h h' :
  is_u64 n → contains_key TRANSFER_ENCODING h = false →
  apply_body_headers h (Fixed n) = inl h' → announces h' (Fixed n).
Proof.
  intros Hn Ht%contains_key_get. unfold apply_body_headers. destruct (_ && _); [done|]. left. unfold framing.
  destruct (get CONTENT_LENGTH h) as [v|] eqn:Ec.
  - case_decide as E; simplify_eq. by rewrite Ec, Ht, E.
  - simplify_eq. rewrite get_insert_header, get_insert_header_ne, Ht, parse_decimal by done. done.
Qed.

Lemma apply_chunked h h' : apply_body_headers h Chunked = inl h' → announces h' Chunked.
Proof.
  unfold apply_body_headers. destruct (_ && _); [done|]. destruct (contains_key CONTENT_LENGTH h) eqn:Ec; [done|].
  apply contains_key_get in Ec. left. unfold framing. destruct (get TRANSFER_ENCODING h) as [v|] eqn:Et.
  - destruct (eq_ignore_ascii_case _ _) eqn:Ev; [|done]. simplify_eq. by rewrite Ec, Et, Ev.
  - simplify_eq. rewrite get_insert_header, get_insert_header_ne, Ec by done. done.
Qed.

(** Only the framing field that was missing is written. *)
Lemma apply_others h spec h' k :
  apply_body_headers h spec = inl h' → k ≠ CONTENT_LENGTH → k ≠ TRANSFER_ENCODING → get k h' = get k h.
Proof.
  intros H Hc Ht. unfold apply_body_headers in H.
  repeat case_match; simplify_eq; try done; by apply get_insert_header_ne.
Qed.

(** Applying the same body again changes nothing. *)
Lemma apply_again h spec h' :
  (∀ n, spec = Fixed n → is_u64 n ∧ contains_key TRANSFER_ENCODING h = false) →
  apply_body_headers h spec = inl h' → apply_body_headers h' spec = inl h'.
Proof.
  intros Hs H. destruct spec as [|n|].
  - by destruct (apply_empty _ _ H) as [-> _].
  - destruct (Hs n eq_refl) as [Hn Ht]. pose proof (apply_fixed n h h' Hn Ht H) as Ha. unfold announces, framing in Ha.
    unfold apply_body_headers. destruct (get CONTENT_LENGTH h') as [v|] eqn:Ec, (get TRANSFER_ENCODING h') as [t|] eqn:Et;
      try (destruct Ha as [Ha|[??]]; try destruct (eq_ignore_ascii_case _ _); done).
    rewrite (proj2 (both_keys h')) by auto. destruct Ha as [Ha|[??]]; [|done].
    rewrite decide_False; [done|]. intros Hv. apply Hv. destruct (to_str v ≫= parse_u64); cbn in Ha; congruence.
  - pose proof (apply_chunked h h' H) as Ha. unfold announces, framing in Ha. unfold apply_body_headers.
    destruct (get CONTENT_LENGTH h') as [v|] eqn:Ec, (get TRANSFER_ENCODING h') as [t|] eqn:Et;
      destruct Ha as [Ha|[??]]; try done; try (by destruct (to_str v ≫= parse_u64)).
    rewrite (proj2 (both_keys h')) by auto. rewrite (proj2 (contains_key_get _ h')) by done.
    by destruct (eq_ignore_ascii_case t "chunked").
Qed.

(** Framing: when [apply_body_headers] accepts a request, unless a [Fixed] body meets a
    [Transfer-Encoding] of the user, the headers announce exactly the body that will
    follow, no other field is touched, and a second application changes nothing. *)
Theorem framing_announced h spec h' :
  (∀ n, spec = Fixed n → is_u64 n ∧ contains_key TRANSFER_ENCODING h = false) →
  apply_body_headers h spec = inl h' →
  announces h' spec ∧ apply_body_headers h' spec = inl h'
  ∧ ∀ k, k ≠ CONTENT_LENGTH → k ≠ TRANSFER_ENCODING → get k h' = get k h.
Proof.
  intros Hs H. split; [|split; [by eapply apply_again|intros k; by eapply apply_others]].
  destruct spec as [|n|]; [by destruct (apply_empty _ _ H) as [-> ?]| |by eapply apply_chunked].
  destruct (Hs n eq_refl). by eapply apply_fixed.
Qed.

Lemma framing_announced_witness :
  let h := [("host", "example.test")] in
  announces (insert_header CONTENT_LENGTH (decimal 1234567) h) (Fixed 1234567)
  ∧ apply_body_headers (insert_header CONTENT_LENGTH (decimal 1234567) h) (Fixed 1234567)
    = inl (insert_header CONTENT_LENGTH (decimal 1234567) h)
  ∧ ∀ k, k ≠ CONTENT_LENGTH → k ≠ TRANSFER_ENCODING →
      get k (insert_header CONTENT_LENGTH (decimal 1234567) h) = get k h.
Proof.
  apply (framing_announced [("host", "example.test")] (Fixed 1234567)); [|by vm_compute].
  intros n [= <-]. split; [split; lia|by vm_compute].
Defined.

(** A [Fixed] body with a [Transfer-Encoding] set by the user is accepted, whatever the
    rest of the headers, and the request then carries both framing fields: the
    combination the function refuses when it finds it. *)
Theorem fixed_adds_second_framing h v n :
  is_u64 n → get TRANSFER_ENCODING h = Some v → get CONTENT_LENGTH h = None →
  ∃ h', apply_body_headers h (Fixed n) = inl h'
    ∧ get TRANSFER_ENCODING h' = Some v ∧ get CONTENT_LENGTH h' = Some (decimal n)
    ∧ apply_body_headers h' (Fixed n) = inr (Protocol "both framings").
Proof.
  intros Hn Ht Hc. exists (insert_header CONTENT_LENGTH (decimal n) h).
  rewrite get_insert_header, get_insert_header_ne by done. unfold apply_body_headers.
  rewrite (proj2 (both_keys h)) by auto. rewrite Hc. split_and!; [done..|].
  destruct (_ && _) eqn:E; [done|]. apply both_keys in E. rewrite get_insert_header, get_insert_header_ne in E by done.
  destruct E; congruence.
Qed.

Lemma fixed_adds_second_framing_witness :
  ∃ h', apply_body_headers [(TRANSFER_ENCODING, "chunked"%string)] (Fixed 5) = inl h'
    ∧ get TRANSFER_ENCODING h' = Some "chunked"%string ∧ get CONTENT_LENGTH h' = Some (decimal 5)
    ∧ apply_body_headers h' (Fixed 5) = inr (Protocol "both framings").
Proof. apply fixed_adds_second_framing; [split; lia|reflexivity|reflexivity]. Defined.

(** The host of a URI with an IPv6 literal is the literal in its brackets, and [address]
    adds a second pair: the text it hands to [connect] starts with two brackets, which no
    socket address does. *)
Theorem ipv6_address_brackets s rest p o :
  contains ":" rest = true →
  from_uri (mkUri s (Some (String "[" rest)) p) = inl o →
  ∃ tail, address o = String "[" (String "[" tail).
Proof.
  intros Hc. unfold from_uri. cbn [host scheme_str port_u16].
  destruct (match s with Some _ => _ | None => _ end) as [sch|]; [|done]. intros [= <-]. unfold address. cbn [o_host o_port to_ascii_lowercase].
  assert (Hl : ∀ r, contains ":" r = true → contains ":" (to_ascii_lowercase r) = true).
  { induction r as [|c r IH]; [done|]. cbn. rewrite !orb_true_iff, !bool_decide_eq_true. intros [<-|H]; [by left|right; auto]. }
  change (lower_char "[") with "["%char. cbn [contains]. rewrite (Hl rest Hc), orb_true_r. cbn. eauto.
Qed.

Lemma ipv6_address_brackets_witness :
  ∃ tail, address (mkOrigin Http "[::1]" 8080) = String "[" (String "[" tail).
Proof.
  apply (ipv6_address_brackets (Some "http"%string) "::1]" (Some 8080)); reflexivity.
Defined.
End HttpHead.
