(* ===== verification/HttpClient.v ===== *)
(** * The HTTP client service

    [HttpClientService] of [rskynet-http/src/client.rs] and [TransportId] of
    [transport.rs]: exchanges over pooled connections, with limits on the number of
    connections, a queue of requests that wait for one, and flow control of the bodies.

    The protocol engine is the [ureq_proto] crate: a class [Engine] of its call states
    and of the operations the service uses.  What [write] and [read] put into the output
    buffer is the list of bytes they return.

    A handler that awaits (a connection, [send_wait], [pause], [start]) is suspended
    there: the rest of it is a [Task], resumed with the result, and other messages are
    handled in between.  Messages the service sends to itself, at once or after a sleep,
    are collected in [posted].  The [Weak] of a start is its token; [gone] holds the
    tokens whose [Arc] has been dropped.  [stuck] is set where the code would panic or a
    loop would run out of fuel.  Texts stand for the originals. *)
From S2P Require Import Prelude Message HttpHead.
From stdpp Require Import strings.
#[local] Open Scope Z_scope.

Module HttpClient.
Import HttpHead.

(** ** Transports *)

Inductive TransportId : Type := Plain (id : Z) | OverTls (id : Z).

#[global] Instance TransportId_eq_dec : EqDecision TransportId.
Proof. solve_decision. Defined.

#[global] Instance TransportId_countable : Countable TransportId.
Proof.
  refine (inj_countable' (λ t, match t with Plain i => inl i | OverTls i => inr i end)
            (λ s, match s with inl i => Plain i | inr i => OverTls i end) _). by intros [].
Defined.

(** ** The protocol engine *)

Class Engine : Type := {
  Parts : Type;          (* method, path and version of a request *)
  Head : Type;           (* status and headers of a response *)
  CPrepare : Type; CSendRequest : Type; CSendBody : Type; CAwait100 : Type; CRecvResponse : Type; CRecvBody : Type;
  call_new : Parts → Uri → HeaderMap → CPrepare + string;
  prepare_proceed : CPrepare → CSendRequest;
  send_can_proceed : CSendRequest → bool;
  send_write : CSendRequest → Z → CSendRequest * (list Z + string);
  send_proceed : CSendRequest → option (CAwait100 + (CSendBody + CRecvResponse)) + string;
  body_write : CSendBody → list Z → Z → CSendBody * (Z * list Z + string);
  body_can_proceed : CSendBody → bool;
  body_proceed : CSendBody → option CRecvResponse;
  try_read_100 : CAwait100 → list Z → CAwait100 * (Z + string);
  can_keep_await_100 : CAwait100 → bool;
  await_proceed : CAwait100 → (CSendBody + CRecvResponse) + string;
  try_response : CRecvResponse → list Z → CRecvResponse * (Z * option Head + string);
  (* the next state, or [must_close_connection] of a message without body *)
  response_proceed : CRecvResponse → option (CRecvBody + bool);
  body_read : CRecvBody → list Z → Z → CRecvBody * (Z * list Z + string);
  read_can_proceed : CRecvBody → bool;
  close_delimited : CRecvBody → bool;
  read_proceed : CRecvBody → option bool;   (* [must_close_connection] *)
}.

(** What the service relies on: the engine consumes at most its input, produces body only
    from input, and can proceed when it says so. *)
Class EngineLaws `{Engine} : Prop := {
  try_read_100_used c input c' used : try_read_100 c input = (c', inl used) → 0 ≤ used ≤ Z.of_nat (length input);
  try_response_used c input c' used r : try_response c input = (c', inl (used, r)) → 0 ≤ used ≤ Z.of_nat (length input);
  body_read_used c input cap c' used bs :
    body_read c input cap = (c', inl (used, bs)) → 0 ≤ used ≤ Z.of_nat (length input) ∧ (used = 0 → bs = []);
  body_proceed_ready c : body_can_proceed c = true → is_Some (body_proceed c);
  response_proceed_ready c input c' used r : try_response c input = (c', inl (used, Some r)) → is_Some (response_proceed c');
  read_proceed_ready c : read_can_proceed c = true → is_Some (read_proceed c);
}.

Section client.
Context `{Engine}.
(** [ServerName::try_from]: the error, if the host is not a name TLS accepts. *)
Context (server_name_error : string → option string).
Context (config : HttpClientConfig).

Record Request : Type := mkRequest { r_parts : Parts; r_uri : Uri; r_headers : HeaderMap; r_body : BodySpec }.

Record Pending : Type := mkPending { p_source : Z; p_session : Z }.

Inductive Proto : Type :=
  | SendBody (c : CSendBody)
  | Await100 (c : CAwait100)
  | RecvResponse (c : CRecvResponse)
  | RecvBody (c : CRecvBody)
  | Done.

(** A waiting start: [(token, alive, pending, request)]. *)
Record Start : Type := mkStart { s_token : Z; s_pending : Pending; s_request : Request }.

Inductive Command : Type :=
  | CStart (token : Z) (request : Request)
  | CWrite (id : Z) (chunk : list Z)
  | CFinish (id : Z)
  | CResponse (id : Z)
  | CNext (id : Z)
  | CCancel (id : Z)
  | CCancelStart (token : Z)
  | CConfirmStart (token : Z)
  | CContinueTimeout (id : Z)
  | CWaitTimeout (id session : Z) (body : bool)
  | CIdleTimeout (t : TransportId) (generation : Z)
  | CResumeStart (s : Start).

(** A response carries the handle of its body: the exchange and the service that asked. *)
Inductive Answer : Type :=
  | AId (id : Z)
  | ADone
  | AResponse (head : Head) (id source : Z)
  | AChunk (chunk : option (list Z))
  | AFailed (e : HttpError).

Record Exchange : Type := mkExchange {
  transport : TransportId;
  origin : Origin;
  proto : option Proto;
  input : list Z;
  response : option Head;
  response_taken : bool;
  response_waiter : option Pending;
  write_waiter : option (Pending * list Z);
  chunks : list (list Z);
  body_waiter : option Pending;
  body_ended : bool;
  error : option string;
  paused : bool;
  request_finished : bool;
  request_expected : option Z;
  request_written : Z;
  reusable : option bool;
}.

Definition set_proto x (e : Exchange) := mkExchange (transport e) (origin e) x (input e) (response e) (response_taken e) (response_waiter e) (write_waiter e) (chunks e) (body_waiter e) (body_ended e) (error e) (paused e) (request_finished e) (request_expected e) (request_written e) (reusable e).
Definition set_input x (e : Exchange) := mkExchange (transport e) (origin e) (proto e) x (response e) (response_taken e) (response_waiter e) (write_waiter e) (chunks e) (body_waiter e) (body_ended e) (error e) (paused e) (request_finished e) (request_expected e) (request_written e) (reusable e).
Definition set_response x (e : Exchange) := mkExchange (transport e) (origin e) (proto e) (input e) x (response_taken e) (response_waiter e) (write_waiter e) (chunks e) (body_waiter e) (body_ended e) (error e) (paused e) (request_finished e) (request_expected e) (request_written e) (reusable e).
Definition set_taken x (e : Exchange) := mkExchange (transport e) (origin e) (proto e) (input e) (response e) x (response_waiter e) (write_waiter e) (chunks e) (body_waiter e) (body_ended e) (error e) (paused e) (request_finished e) (request_expected e) (request_written e) (reusable e).
Definition set_response_waiter x (e : Exchange) := mkExchange (transport e) (origin e) (proto e) (input e) (response e) (response_taken e) x (write_waiter e) (chunks e) (body_waiter e) (body_ended e) (error e) (paused e) (request_finished e) (request_expected e) (request_written e) (reusable e).
Definition set_write_waiter x (e : Exchange) := mkExchange (transport e) (origin e) (proto e) (input e) (response e) (response_taken e) (response_waiter e) x (chunks e) (body_waiter e) (body_ended e) (error e) (paused e) (request_finished e) (request_expected e) (request_written e) (reusable e).
Definition set_chunks x (e : Exchange) := mkExchange (transport e) (origin e) (proto e) (input e) (response e) (response_taken e) (response_waiter e) (write_waiter e) x (body_waiter e) (body_ended e) (error e) (paused e) (request_finished e) (request_expected e) (request_written e) (reusable e).
Definition set_body_waiter x (e : Exchange) := mkExchange (transport e) (origin e) (proto e) (input e) (response e) (response_taken e) (response_waiter e) (write_waiter e) (chunks e) x (body_ended e) (error e) (paused e) (request_finished e) (request_expected e) (request_written e) (reusable e).
Definition set_ended x (e : Exchange) := mkExchange (transport e) (origin e) (proto e) (input e) (response e) (response_taken e) (response_waiter e) (write_waiter e) (chunks e) (body_waiter e) x (error e) (paused e) (request_finished e) (request_expected e) (request_written e) (reusable e).
Definition set_error x (e : Exchange) := mkExchange (transport e) (origin e) (proto e) (input e) (response e) (response_taken e) (response_waiter e) (write_waiter e) (chunks e) (body_waiter e) (body_ended e) x (paused e) (request_finished e) (request_expected e) (request_written e) (reusable e).
Definition set_paused x (e : Exchange) := mkExchange (transport e) (origin e) (proto e) (input e) (response e) (response_taken e) (response_waiter e) (write_waiter e) (chunks e) (body_waiter e) (body_ended e) (error e) x (request_finished e) (request_expected e) (request_written e) (reusable e).
Definition set_finished x (e : Exchange) := mkExchange (transport e) (origin e) (proto e) (input e) (response e) (response_taken e) (response_waiter e) (write_waiter e) (chunks e) (body_waiter e) (body_ended e) (error e) (paused e) x (request_expected e) (request_written e) (reusable e).
Definition set_written x (e : Exchange) := mkExchange (transport e) (origin e) (proto e) (input e) (response e) (response_taken e) (response_waiter e) (write_waiter e) (chunks e) (body_waiter e) (body_ended e) (error e) (paused e) (request_finished e) (request_expected e) x (reusable e).
Definition set_reusable x (e : Exchange) := mkExchange (transport e) (origin e) (proto e) (input e) (response e) (response_taken e) (response_waiter e) (write_waiter e) (chunks e) (body_waiter e) (body_ended e) (error e) (paused e) (request_finished e) (request_expected e) (request_written e) x.

Record State : Type := mkState {
  next_id : Z;
  exchanges : gmap Z Exchange;
  active : gmap TransportId Z;
  origins : gmap TransportId Origin;
  idle : gmap Origin (list TransportId);
  pending_starts : list Start;
  start_tokens : gmap Z Z;
  connecting : gmap Origin Z;
  idle_generation : gmap TransportId Z;
  next_idle_generation : Z;
}.

Definition state_default : State := mkState 0 ∅ ∅ ∅ ∅ [] ∅ ∅ ∅ 0.

Definition set_next_id x (s : State) := mkState x (exchanges s) (active s) (origins s) (idle s) (pending_starts s) (start_tokens s) (connecting s) (idle_generation s) (next_idle_generation s).
Definition set_exchanges x (s : State) := mkState (next_id s) x (active s) (origins s) (idle s) (pending_starts s) (start_tokens s) (connecting s) (idle_generation s) (next_idle_generation s).
Definition set_active x (s : State) := mkState (next_id s) (exchanges s) x (origins s) (idle s) (pending_starts s) (start_tokens s) (connecting s) (idle_generation s) (next_idle_generation s).
Definition set_origins x (s : State) := mkState (next_id s) (exchanges s) (active s) x (idle s) (pending_starts s) (start_tokens s) (connecting s) (idle_generation s) (next_idle_generation s).
Definition set_idle x (s : State) := mkState (next_id s) (exchanges s) (active s) (origins s) x (pending_starts s) (start_tokens s) (connecting s) (idle_generation s) (next_idle_generation s).
Definition set_pending_starts x (s : State) := mkState (next_id s) (exchanges s) (active s) (origins s) (idle s) x (start_tokens s) (connecting s) (idle_generation s) (next_idle_generation s).
Definition set_start_tokens x (s : State) := mkState (next_id s) (exchanges s) (active s) (origins s) (idle s) (pending_starts s) x (connecting s) (idle_generation s) (next_idle_generation s).
Definition set_connecting x (s : State) := mkState (next_id s) (exchanges s) (active s) (origins s) (idle s) (pending_starts s) (start_tokens s) x (idle_generation s) (next_idle_generation s).
Definition set_idle_generation x (s : State) := mkState (next_id s) (exchanges s) (active s) (origins s) (idle s) (pending_starts s) (start_tokens s) (connecting s) x (next_idle_generation s).
Definition set_next_generation x (s : State) := mkState (next_id s) (exchanges s) (active s) (origins s) (idle s) (pending_starts s) (start_tokens s) (connecting s) (idle_generation s) x.

Inductive Out : Type :=
  | OReply (source session : Z) (a : Answer)
  | ORefuse (source session : Z)
  | OConnect (o : Origin) (addr : string)
  | OSend (t : TransportId) (data : list Z)
  | OPause (t : TransportId)
  | OResume (t : TransportId)
  | OShutdown (t : TransportId).

(** [posted]: messages to the service itself, [Some ms] after a sleep. *)
Record W : Type := mkW {
  st : State;
  gone : gset Z;
  posted : list (option Z * Command);
  outs : list Out;
  stuck : bool;
}.

Definition on_st (f : State → State) (w : W) := mkW (f (st w)) (gone w) (posted w) (outs w) (stuck w).
Definition emit (o : Out) (w : W) := mkW (st w) (gone w) (posted w) (outs w ++ [o]) (stuck w).
Definition post (ms : option Z) (c : Command) (w : W) := mkW (st w) (gone w) (posted w ++ [(ms, c)]) (outs w) (stuck w).
Definition panic (w : W) := mkW (st w) (gone w) (posted w) (outs w) true.

Definition put_exchange (id : Z) (e : Exchange) (w : W) : W := on_st (λ s, set_exchanges (<[id := e]> (exchanges s)) s) w.

(** The rest of a handler after its await. *)
Inductive Task : Type :=
  | TConnect (s : Start) (call : CPrepare) (o : Origin)
  | TStartSend (s : Start) (id : Z)
  | TWrite (p : Pending) (pause : option (Z * TransportId))
  | TFinish (p : Pending)
  | TPause (id : Z)
  | TResume (id : Z) (p : Pending) (answer : option Answer) (cleanup : option (TransportId * Origin * bool)).

Definition reply (p : Pending) (a : Answer) (w : W) : W :=
  if decide (p_session p = 0) then w else emit (OReply (p_source p) (p_session p) a) w.

Definition alive (token : Z) (w : W) : bool := bool_decide (token ∉ gone w).

(** ** The pool *)

Definition sum_values (m : gmap Origin Z) : Z := map_fold (λ _ v acc, v + acc) 0 m.

Definition has_idle (o : Origin) (s : State) : bool := match idle s !! o with Some (_ :: _) => true | _ => false end.

Definition total_connections (s : State) : Z := Z.of_nat (size (origins s)) + sum_values (connecting s).

Definition same_connections (o : Origin) (s : State) : Z :=
  Z.of_nat (size (filter (λ kv, kv.2 = o) (origins s))) + default 0 (connecting s !! o).

Definition should_queue (o : Origin) (s : State) : bool :=
  if has_idle o s then false else
  bool_decide (max_connections config ≤ total_connections s)
  || bool_decide (max_connections_per_origin config ≤ same_connections o s).

(** The closure of [wake_queued]: this start could go now. *)
Definition startable (s : State) (x : Start) : bool :=
  match from_uri (r_uri (s_request x)) with
  | inr _ => false
  | inl o =>
      if has_idle o s then true else
      bool_decide (total_connections s < max_connections config)
      && bool_decide (same_connections o s < max_connections_per_origin config)
  end.

Definition wake_queued (w : W) : W :=
  let queue := filter (λ x, alive (s_token x) w = true) (pending_starts (st w)) in
  let w := on_st (set_pending_starts queue) w in
  match list_find (λ x, startable (st w) x = true) queue with
  | Some (i, x) => post None (CResumeStart x) (on_st (set_pending_starts (delete i queue)) w)
  | None => w
  end.

Definition shutdown (t : TransportId) (w : W) : W := emit (OShutdown t) w.

Definition forget_transport (t : TransportId) (w : W) : W :=
  on_st (λ s,
    let s := set_origins (delete t (origins s)) s in
    let s := set_active (delete t (active s)) s in
    let s := set_idle_generation (delete t (idle_generation s)) s in
    set_idle (filter (λ x, x ≠ t) <$> idle s) s) w.

Definition cancel (id : Z) (w : W) : W :=
  match exchanges (st w) !! id with
  | None => w
  | Some e =>
      let w := on_st (λ s, set_exchanges (delete id (exchanges s)) s) w in
      let w := on_st (λ s, set_start_tokens (filter (λ kv, kv.2 ≠ id) (start_tokens s)) s) w in
      let w := forget_transport (transport e) (shutdown (transport e) w) in
      let canceled (p : option Pending) (w : W) :=
        match p with Some p => reply p (AFailed Canceled) w | None => w end in
      let w := canceled (response_waiter e) w in
      let w := canceled (body_waiter e) w in
      let w := canceled (fst <$> write_waiter e) w in
      wake_queued w
  end.

Definition recycle (t : TransportId) (o : Origin) (can_reuse : bool) (w : W) : W :=
  let w := on_st (λ s, set_active (delete t (active s)) s) w in
  if negb can_reuse then wake_queued (forget_transport t (shutdown t w)) else
  let total_idle := map_fold (λ _ l acc, Z.of_nat (length l) + acc) 0 (idle (st w)) in
  let same := Z.of_nat (length (default [] (idle (st w) !! o))) in
  if decide (max_idle_connections config ≤ total_idle ∨ max_idle_connections_per_origin config ≤ same) then
    wake_queued (forget_transport t (shutdown t w))
  else
    let w := on_st (λ s, set_idle (<[o := default [] (idle s !! o) ++ [t]]> (idle s)) s) w in
    let generation := Z.max 1 (next_idle_generation (st w) +w 1) in
    let w := on_st (λ s, set_idle_generation (<[t := generation]> (idle_generation s)) (set_next_generation generation s)) w in
    wake_queued (post (Some (pool_idle_timeout_ms config)) (CIdleTimeout t generation) w).

Definition idle_timeout (t : TransportId) (generation : Z) (w : W) : W :=
  if decide (idle_generation (st w) !! t ≠ Some generation) then w else
  let found := map_fold (λ _ l acc, bool_decide (t ∈ l) || acc) false (idle (st w)) in
  let w := on_st (λ s, set_idle (filter (λ x, x ≠ t) <$> idle s) s) w in
  if found then
    let w := on_st (λ s, set_idle_generation (delete t (idle_generation s)) s) w in
    wake_queued (forget_transport t (shutdown t w))
  else w.

(** ** Starting an exchange *)

(** [serialize_request]; [None] is out of fuel. *)
Fixpoint serialize_loop (fuel : nat) (c : CSendRequest) (all : list Z) (limit : Z)
    : option ((list Z * CSendRequest) + HttpError) :=
  if send_can_proceed c then Some (inl (all, c)) else
  match fuel with
  | O => None
  | S fuel =>
      match send_write c (Z.max 1 (saturating_sub limit (Z.of_nat (length all)))) with
      | (_, inr e) => Some (inr (Protocol e))
      | (c, inl bs) =>
          if decide (bs = []) then Some (inr (Protocol "no progress")) else
          let all := all ++ bs in
          if decide (Z.of_nat (length all) > limit) then Some (inr (BackpressureLimit (Z.of_nat (length all)) limit))
          else serialize_loop fuel c all limit
      end
  end.

Definition serialize_request (c : CSendRequest) (limit : Z) : option ((list Z * Proto) + HttpError) :=
  r ← serialize_loop (S (Z.to_nat limit)) c [] limit;
  Some (match r with
        | inr e => inr e
        | inl (all, c) =>
            match send_proceed c with
            | inr e => inr (Protocol e)
            | inl None => inr (Protocol "no next state")
            | inl (Some (inl a)) => inl (all, Await100 a)
            | inl (Some (inr (inl b))) => inl (all, SendBody b)
            | inl (Some (inr (inr r))) => inl (all, RecvResponse r)
            end
        end).

Definition new_exchange (t : TransportId) (o : Origin) (p : Proto) (spec : BodySpec) : Exchange :=
  mkExchange t o (Some p) [] None false None None [] None false None false
    (bool_decide (spec = Empty))
    (match spec with Fixed size => Some size | Empty => Some 0 | Chunked => None end)
    0 None.

(** [start_exchange] from the acquired transport to the await of [send_wait]. *)
Definition acquired (x : Start) (call : CPrepare) (o : Origin) (r : TransportId + HttpError) (w : W) : W * option Task :=
  match r with
  | inr e => (wake_queued (reply (s_pending x) (AFailed e) w), None)
  | inl t =>
      if negb (alive (s_token x) w) then (wake_queued (forget_transport t (shutdown t w)), None) else
      match serialize_request (prepare_proceed call) (max_header_size config) with
      | None => (panic w, None)
      | Some (inr e) => (wake_queued (reply (s_pending x) (AFailed e) (forget_transport t (shutdown t w))), None)
      | Some (inl (data, p)) =>
          let id := Z.max 1 (next_id (st w) +w 1) in
          let w := on_st (set_next_id id) w in
          let w := on_st (λ s, set_active (<[t := id]> (active s)) s) w in
          let w := on_st (λ s, set_start_tokens (<[s_token x := id]> (start_tokens s)) s) w in
          let w := put_exchange id (new_exchange t o p (r_body (s_request x))) w in
          (emit (OSend t data) w, Some (TStartSend x id))
      end
  end.

(** ... and after it. *)
Definition started (x : Start) (id : Z) (r : option HttpError) (w : W) : W :=
  match r with
  | Some e => reply (s_pending x) (AFailed e) (cancel id w)
  | None =>
      if negb (alive (s_token x) w) then cancel id w else
      let w := match exchanges (st w) !! id ≫= proto with
               | Some (Await100 _) => post (Some (continue_timeout_ms config)) (CContinueTimeout id) w
               | _ => w
               end in
      reply (s_pending x) (AId id) w
  end.

(** The books of [acquire] after the connection attempt. *)
Definition connect_done (o : Origin) (r : TransportId + HttpError) (w : W) : W :=
  let w := match connecting (st w) !! o with
           | None => w
           | Some count =>
               if decide (count = 0) then panic w else
               on_st (λ s, set_connecting (if decide (count - 1 = 0) then delete o (connecting s)
                                           else <[o := count - 1]> (connecting s)) s) w
           end in
  match r with
  | inl t => on_st (λ s, set_origins (<[t := o]> (origins s)) s) w
  | inr _ => w
  end.

(** [acquire]: an idle transport, or a new connection, which is awaited. *)
Definition acquire (x : Start) (call : CPrepare) (o : Origin) (w : W) : W * option Task :=
  match idle (st w) !! o with
  | Some (t :: rest) =>
      let w := on_st (λ s, set_idle (<[o := rest]> (idle s)) s) w in
      let w := on_st (λ s, set_idle_generation (delete t (idle_generation s)) s) w in
      acquired x call o (inl t) w
  | _ =>
      let w := on_st (λ s, set_connecting (<[o := default 0 (connecting s !! o) + 1]> (connecting s)) s) w in
      match o_scheme o, server_name_error (o_host o) with
      | Https, Some e => acquired x call o (inr (Tls e)) (connect_done o (inr (Tls e)) w)
      | _, _ => (emit (OConnect o (address o)) w, Some (TConnect x call o))
      end
  end.

Definition connected (x : Start) (call : CPrepare) (o : Origin) (r : TransportId + HttpError) (w : W) : W * option Task :=
  acquired x call o r (connect_done o r w).

Definition start_exchange (x : Start) (w : W) : W * option Task :=
  let refuse e := (wake_queued (reply (s_pending x) (AFailed e) w), None) in
  let request := s_request x in
  if negb (alive (s_token x) w) then (wake_queued w, None) else
  match from_uri (r_uri request) with
  | inr e => refuse e
  | inl o =>
      if should_queue o (st w) then (on_st (λ s, set_pending_starts (pending_starts s ++ [x]) s) w, None) else
      match apply_body_headers (r_headers request) (r_body request) with
      | inr e => refuse e
      | inl headers =>
          match call_new (r_parts request) (r_uri request) headers with
          | inr e => refuse (Protocol e)
          | inl call => acquire x call o w
          end
      end
  end.

Definition cancel_start (token : Z) (w : W) : W :=
  let id := start_tokens (st w) !! token in
  let w := on_st (λ s, set_pending_starts (filter (λ x, s_token x ≠ token) (pending_starts s)) s) w in
  let w := on_st (λ s, set_start_tokens (delete token (start_tokens s)) s) w in
  match id with Some id => cancel id w | None => wake_queued w end.

(** ** The request body *)

(** [write_request] up to [send_wait]: an answer, or what to send. *)
Definition write_request (id : Z) (chunk : list Z) (w : W) : W * (Answer + TransportId * list Z) :=
  if decide (chunk = []) then (w, inl ADone) else
  if decide (Z.of_nat (length chunk) > max_chunk_size config)
  then (w, inl (AFailed (BackpressureLimit (Z.of_nat (length chunk)) (max_chunk_size config)))) else
  match exchanges (st w) !! id with
  | None => (w, inl (AFailed BodyClosed))
  | Some e =>
      if request_finished e then (w, inl (AFailed BodyClosed)) else
      match proto e with
      | Some (SendBody c) =>
          let cap := Z.max 64 (saturating_add (Z.of_nat (length chunk)) 32) in
          match body_write c chunk cap with
          | (c, inl (used, bs)) =>
              if decide (used = Z.of_nat (length chunk)) then
                let e := set_proto (Some (SendBody c)) e in
                let e := set_written (saturating_add (request_written e) used) e in
                (put_exchange id e w, inr (transport e, bs))
              else (put_exchange id (set_proto (Some (SendBody c)) e) w, inl (AFailed (Protocol "body not encoded")))
          | (c, inr err) => (put_exchange id (set_proto (Some (SendBody c)) e) w, inl (AFailed (Protocol err)))
          end
      | _ => (w, inl (AFailed (match response e with Some _ => RequestBodyRejected | None => InvalidState "body not writable" end)))
      end
  end.

(** [write_request], the reply to [p], and then [pause] as the caller has it. *)
Definition pause_transport (pause : option (Z * TransportId)) (w : W) : W * option Task :=
  match pause with
  | Some (id, t) => (emit (OPause t) w, Some (TPause id))
  | None => (w, None)
  end.

Definition write_for (p : Pending) (id : Z) (chunk : list Z) (pause : option (Z * TransportId)) (w : W) : W * option Task :=
  match write_request id chunk w with
  | (w, inl a) => pause_transport pause (reply p a w)
  | (w, inr (t, data)) => (emit (OSend t data) w, Some (TWrite p pause))
  end.

Definition sent (r : option HttpError) : Answer := match r with None => ADone | Some e => AFailed e end.

Definition is_await100 (e : Exchange) : bool := match proto e with Some (Await100 _) => true | _ => false end.

(** [defer_continue_write] and the [Write] arm of [on_command]. *)
Definition write (p : Pending) (id : Z) (chunk : list Z) (w : W) : W * option Task :=
  match exchanges (st w) !! id with
  | Some e =>
      if decide (chunk = []) then write_for p id chunk None w else
      if negb (is_await100 e) then write_for p id chunk None w else
      match write_waiter e with
      | Some _ => (reply p (AFailed (InvalidState "a write is waiting")) w, None)
      | None => (put_exchange id (set_write_waiter (Some (p, chunk)) e) w, None)
      end
  | None => write_for p id chunk None w
  end.

Definition finish_request (p : Pending) (id : Z) (w : W) : W * option Task :=
  match exchanges (st w) !! id with
  | None => (reply p (AFailed BodyClosed) w, None)
  | Some e =>
      if request_finished e then (reply p ADone w, None) else
      match (expected ← request_expected e;
             if decide (request_written e ≠ expected) then Some expected else None) with
      | Some expected => (reply p (AFailed (BodyLengthMismatch expected (request_written e))) w, None)
      | None =>
          match proto e with
          | None => (reply p (AFailed (InvalidState "state lost")) w, None)
          | Some (SendBody c) =>
              match body_write c [] 64 with
              | (c, inl (_, bs)) =>
                  if body_can_proceed c then
                    match body_proceed c with
                    | Some r => (emit (OSend (transport e) bs)
                                   (put_exchange id (set_finished true (set_proto (Some (RecvResponse r)) e)) w), Some (TFinish p))
                    | None => (panic w, None)
                    end
                  else (reply p (AFailed (Protocol "body not finished"))
                          (put_exchange id (set_proto (Some (SendBody c)) e) w), None)
              | (c, inr err) => (reply p (AFailed (Protocol err)) (put_exchange id (set_proto (Some (SendBody c)) e) w), None)
              end
          | Some (Await100 c) => (reply p (AFailed (InvalidState "waiting for 100")) w, None)
          | Some _ => (reply p ADone (put_exchange id (set_finished true e) w), None)
          end
      end
  end.

(** ** The response *)

Definition arm_wait_timeout (id session : Z) (body : bool) (ms : Z) (w : W) : W :=
  post (Some ms) (CWaitTimeout id session body) w.

Definition wait_response (p : Pending) (id : Z) (w : W) : W :=
  match exchanges (st w) !! id with
  | None => reply p (AFailed BodyClosed) w
  | Some e =>
      if response_taken e then reply p (AFailed (InvalidState "response taken")) w else
      match error e with
      | Some reason => reply p (AFailed (Transport reason)) w
      | None =>
          match response e with
          | Some head => reply p (AResponse head id (p_source p)) (put_exchange id (set_taken true (set_response None e)) w)
          | None =>
              match response_waiter e with
              | Some _ => reply p (AFailed (InvalidState "response awaited")) w
              | None => arm_wait_timeout id (p_session p) false (response_head_timeout_ms config)
                          (put_exchange id (set_response_waiter (Some p) e) w)
              end
          end
      end
  end.

Definition buffered (e : Exchange) : Z := Z.of_nat (length (input e)) + Z.of_nat (length (concat (chunks e))).

(** The end of [next_body], after the await of [resume] if there was one. *)
Definition next_finish (id : Z) (p : Pending) (answer : option Answer) (cleanup : option (TransportId * Origin * bool)) (w : W) : W :=
  let w := match answer with Some a => reply p a w | None => w end in
  match cleanup with
  | Some (t, o, can_reuse) =>
      on_st (λ s, set_exchanges (delete id (exchanges s)) s) (recycle t o can_reuse w)
  | None => arm_wait_timeout id (p_session p) true (body_idle_timeout_ms config) w
  end.

(** What [next_body] answers, and the exchange afterwards. *)
Definition take_body (p : Pending) (e : Exchange) : option Answer * Exchange :=
  match chunks e with
  | c :: rest => (Some (AChunk (Some c)), set_chunks rest e)
  | [] =>
      match error e with
      | Some reason => (Some (AFailed (Transport reason)), e)
      | None =>
          if body_ended e then (Some (AChunk None), e) else
          match body_waiter e with
          | Some _ => (Some (AFailed (InvalidState "chunk awaited")), e)
          | None => (None, set_body_waiter (Some p) e)
          end
      end
  end.

Definition next_body (p : Pending) (id : Z) (w : W) : W * option Task :=
  match exchanges (st w) !! id with
  | None => (reply p (AFailed BodyClosed) w, None)
  | Some e =>
      let '(answer, e) := take_body p e in
      let unpause := paused e && bool_decide (buffered e ≤ input_low_water config) in
      let e := if unpause then set_paused false e else e in
      let '(cleanup, e) :=
        match answer with
        | Some (AChunk None) => ((λ r, (transport e, origin e, r)) <$> reusable e, set_reusable None e)
        | _ => (None, e)
        end in
      let w := put_exchange id e w in
      if unpause then (emit (OResume (transport e)) w, Some (TResume id p answer cleanup))
      else (next_finish id p answer cleanup w, None)
  end.

Definition resumed (id : Z) (p : Pending) (answer : option Answer) (cleanup : option (TransportId * Origin * bool))
    (r : option HttpError) (w : W) : W :=
  next_finish id p answer cleanup (match r with Some _ => cancel id w | None => w end).

Definition wait_timeout (id session : Z) (body : bool) (w : W) : W :=
  match exchanges (st w) !! id with
  | None => w
  | Some e =>
      let slot := if body then body_waiter e else response_waiter e in
      match slot with
      | Some p =>
          if decide (p_session p = session) then
            let e := if body then set_body_waiter None e else set_response_waiter None e in
            cancel id (reply p (AFailed (Timeout (if body then "body idle" else "response head"))) (put_exchange id e w))
          else w
      | None => w
      end
  end.

(** ** Incoming bytes *)

(** The exchange inside the loop of [drive_input], with the replies collected and the
    write that may go on. *)
Record Drive : Type := mkDrive {
  d_exchange : Exchange;
  d_replies : list (Pending * Answer);
  d_job : option (Pending * list Z);
}.

Definition with_exchange (f : Exchange → Exchange) (d : Drive) : Drive := mkDrive (f (d_exchange d)) (d_replies d) (d_job d).

Inductive Turn : Type := Break (d : Drive) | Continue (d : Drive) | Panic.

(** [exchange.input.drain(..used)]. *)
Definition drain_input (used : Z) (d : Drive) : option Drive :=
  if decide (used ≤ Z.of_nat (length (input (d_exchange d))))
  then Some (with_exchange (λ e, set_input (drop (Z.to_nat used) (input e)) e) d) else None.

Definition fail_exchange (reason : string) : Drive → Drive := with_exchange (set_error (Some reason)).

Definition drive_await (c : CAwait100) (d : Drive) : Turn :=
  match try_read_100 c (input (d_exchange d)) with
  | (_, inr err) => Break (fail_exchange err d)
  | (c, inl used) =>
      match drain_input used d with
      | None => Panic
      | Some d =>
          if can_keep_await_100 c then Break (with_exchange (set_proto (Some (Await100 c))) d) else
          match await_proceed c with
          | inl (inl b) =>
              let job := write_waiter (d_exchange d) in
              let e := set_write_waiter None (set_proto (Some (SendBody b)) (d_exchange d)) in
              Break (mkDrive e (d_replies d) job)
          | inl (inr r) =>
              let e := set_proto (Some (RecvResponse r)) (set_finished true (d_exchange d)) in
              let replies := match write_waiter e with
                             | Some (p, _) => [(p, AFailed RequestBodyRejected)]
                             | None => []
                             end in
              Continue (mkDrive (set_write_waiter None e) (d_replies d ++ replies) (d_job d))
          | inr err => Break (fail_exchange err d)
          end
      end
  end.

Definition ended (must_close : bool) (e : Exchange) : Exchange :=
  set_ended true (set_proto (Some Done) (set_reusable (Some (negb must_close)) e)).

Definition drive_response (id : Z) (c : CRecvResponse) (d : Drive) : Turn :=
  match try_response c (input (d_exchange d)) with
  | (_, inr err) => Break (fail_exchange err d)
  | (c, inl (used, Some head)) =>
      match drain_input used d with
      | None => Panic
      | Some d =>
          let d := with_exchange (set_response (Some head)) d in
          match response_proceed c with
          | None => Panic
          | Some next =>
              let e := match next with
                       | inl b => set_proto (Some (RecvBody b)) (d_exchange d)
                       | inr must_close => ended must_close (d_exchange d)
                       end in
              match response_waiter e with
              | Some p =>
                  let e := set_response None (set_taken true (set_response_waiter None e)) in
                  Continue (mkDrive e (d_replies d ++ [(p, AResponse head id (p_source p))]) (d_job d))
              | None => Continue (mkDrive e (d_replies d) (d_job d))
              end
          end
      end
  | (c, inl (_, None)) =>
      if decide (Z.of_nat (length (input (d_exchange d))) > max_header_size config)
      then Break (fail_exchange "response head too long" d)
      else Break (with_exchange (set_proto (Some (RecvResponse c))) d)
  end.

Definition drive_body (c : CRecvBody) (d : Drive) : Turn :=
  if decide (input (d_exchange d) = []) then Break (with_exchange (set_proto (Some (RecvBody c))) d) else
  match body_read c (input (d_exchange d)) (max_chunk_size config) with
  | (_, inr err) => Break (fail_exchange err d)
  | (c, inl (used, bs)) =>
      match drain_input used d with
      | None => Panic
      | Some d =>
          let d := if decide (bs = []) then d else with_exchange (λ e, set_chunks (chunks e ++ [bs]) e) d in
          let turn d := if decide (used = 0 ∧ bs = []) then Break d else Continue d in
          if read_can_proceed c && negb (close_delimited c) then
            match read_proceed c with
            | None => Panic
            | Some must_close => turn (with_exchange (ended must_close) d)
            end
          else turn (with_exchange (set_proto (Some (RecvBody c))) d)
      end
  end.

(** One turn; [exchange.proto.take()] comes first. *)
Definition drive_turn (id : Z) (d : Drive) : Turn :=
  let taken := with_exchange (set_proto None) d in
  match proto (d_exchange d) with
  | None => Break d
  | Some (Await100 c) => drive_await c taken
  | Some (RecvResponse c) => drive_response id c taken
  | Some (RecvBody c) => drive_body c taken
  | Some _ => Break d
  end.

(** [None] is a panic or out of fuel. *)
Fixpoint drive_loop (fuel : nat) (id : Z) (d : Drive) : option Drive :=
  match fuel with
  | O => None
  | S fuel =>
      match drive_turn id d with
      | Break d => Some d
      | Continue d => drive_loop fuel id d
      | Panic => None
      end
  end.

(** The waiting [next_chunk] after the loop. *)
Definition drive_waiter (d : Drive) : Drive :=
  let e := d_exchange d in
  match body_waiter e with
  | None => d
  | Some p =>
      let answered a e := mkDrive (set_body_waiter None e) (d_replies d ++ [(p, a)]) (d_job d) in
      match chunks e with
      | c :: rest => answered (AChunk (Some c)) (set_chunks rest e)
      | [] =>
          match error e with
          | Some reason => answered (AFailed (Transport reason)) e
          | None => if body_ended e then answered (AChunk None) e else d
          end
      end
  end.

Definition drive_failed (d : Drive) : Drive :=
  let e := d_exchange d in
  match error e, response_waiter e with
  | Some reason, Some p => mkDrive (set_response_waiter None e) (d_replies d ++ [(p, AFailed (Protocol reason))]) (d_job d)
  | _, _ => d
  end.

Definition replies (rs : list (Pending * Answer)) (w : W) : W := foldl (λ w r, reply r.1 r.2 w) w rs.

Definition drive_input (id : Z) (w : W) : W * option Task :=
  match exchanges (st w) !! id with
  | None => (w, None)
  | Some e =>
      match drive_loop (length (input e) + 4) id (mkDrive e [] None) with
      | None => (panic w, None)
      | Some d =>
          let d := drive_waiter d in
          let e := d_exchange d in
          let pausing := negb (body_ended e) && bool_decide (input_high_water config ≤ buffered e) && negb (paused e) in
          let d := if pausing then with_exchange (set_paused true) d else d in
          let d := drive_failed d in
          let pause := if pausing then Some (id, transport e) else None in
          let w := replies (d_replies d) (put_exchange id (d_exchange d) w) in
          match d_job d with
          | Some (p, chunk) => write_for p id chunk pause w
          | None => pause_transport pause w
          end
      end
  end.

Definition continue_timeout (id : Z) (w : W) : W * option Task :=
  match exchanges (st w) !! id with
  | None => (w, None)
  | Some e =>
      match proto e with
      | Some (Await100 c) =>
          let job := write_waiter e in
          let e := set_write_waiter None (set_proto None e) in
          let reject (w : W) := match job with Some (p, _) => reply p (AFailed RequestBodyRejected) w | None => w end in
          match await_proceed c with
          | inl (inl b) =>
              let w := put_exchange id (set_proto (Some (SendBody b)) e) w in
              match job with
              | Some (p, chunk) => write_for p id chunk None w
              | None => (w, None)
              end
          | inl (inr r) => drive_input id (reject (put_exchange id (set_proto (Some (RecvResponse r)) e) w))
          | inr err => (reject (put_exchange id (set_error (Some err) e) w), None)
          end
      | _ => (put_exchange id (set_proto None e) w, None)
      end
  end.

Definition on_data (t : TransportId) (data : list Z) (w : W) : W * option Task :=
  match active (st w) !! t with
  | None => (forget_transport t (shutdown t w), None)
  | Some id =>
      drive_input id (match exchanges (st w) !! id with
                      | Some e => put_exchange id (set_input (input e ++ data) e) w
                      | None => w
                      end)
  end.

Definition on_closed (t : TransportId) (failed : option string) (w : W) : W * option Task :=
  let id := active (st w) !! t in
  let w := on_st (λ s, set_active (delete t (active s)) s) w in
  let w := forget_transport t w in
  match id with
  | None => (wake_queued w, None)
  | Some id =>
      match exchanges (st w) !! id, failed with
      | Some e, None =>
          match proto e with
          | Some (RecvBody c) =>
              if close_delimited c then
                drive_input id (put_exchange id (set_reusable (Some false) (set_proto (Some Done) (set_ended true e))) w)
              else (cancel id w, None)
          | _ => (cancel id w, None)
          end
      | _, _ => (cancel id w, None)
      end
  end.

(** ** Messages *)

Definition on_command (p : Pending) (c : Command) (w : W) : W * option Task :=
  match c with
  | CStart token request => start_exchange (mkStart token p request) w
  | CWrite id chunk => write p id chunk w
  | CFinish id => finish_request p id w
  | CResponse id => (wait_response p id w, None)
  | CNext id => next_body p id w
  | CCancel id => (reply p ADone (cancel id w), None)
  | CCancelStart token => (cancel_start token w, None)
  | CConfirmStart token => (on_st (λ s, set_start_tokens (delete token (start_tokens s)) s) w, None)
  | CContinueTimeout id => continue_timeout id w
  | CWaitTimeout id session body => (wait_timeout id session body w, None)
  | CIdleTimeout t generation => (idle_timeout t generation w, None)
  | CResumeStart x => start_exchange x w
  end.

(** Socket and TLS events alike: the transport tells which. *)
Inductive TransportEvent : Type :=
  | Data (t : TransportId) (data : list Z)
  | Closed (t : TransportId)
  | Failure (t : TransportId) (reason : string)
  | OtherEvent.

Definition on_transport (ev : TransportEvent) (w : W) : W * option Task :=
  match ev with
  | Data t data => on_data t data w
  | Closed t => on_closed t None w
  | Failure t reason => on_closed t (Some reason) w
  | OtherEvent => (w, None)
  end.

Inductive Incoming : Type := IEvent (ev : TransportEvent) | ICommand (c : Command) | IOther.

Definition dispatch (p : Pending) (i : Incoming) (w : W) : W * option Task :=
  match i with
  | IEvent ev => on_transport ev w
  | ICommand c => on_command p c w
  | IOther => (if decide (p_session p = 0) then w else emit (ORefuse (p_source p) (p_session p)) w, None)
  end.

(** What an awaited operation returned. *)
Inductive Resumed : Type :=
  | RConnected (r : TransportId + HttpError)
  | RDone (r : option HttpError).

Definition resume (t : Task) (r : Resumed) (w : W) : option (W * option Task) :=
  match t, r with
  | TConnect x call o, RConnected r => Some (connected x call o r w)
  | TStartSend x id, RDone r => Some (started x id r w, None)
  | TWrite p pause, RDone r => Some (pause_transport pause (reply p (sent r) w))
  | TFinish p, RDone r => Some (reply p (sent r) w, None)
  | TPause id, RDone r => Some (match r with Some _ => cancel id w | None => w end, None)
  | TResume id p answer cleanup, RDone r => Some (resumed id p answer cleanup r w, None)
  | _, _ => None
  end.

(** [init]: the configuration in force, or why the service does not start. *)
Definition init (section : option HttpClientConfig) (name_free : bool) : HttpClientConfig + string :=
  let c := default client_default section in
  match validate c with
  | Some _ => inr "configuration"%string
  | None => if name_free then inl c else inr "name taken"%string
  end.

(** ** The service as a system of suspended handlers *)

(** A message from outside, the delivery of the [k]-th message to itself, the result of
    the [k]-th suspended handler, or the [Arc] of a start dropped by its caller. *)
Inductive Event : Type :=
  | EMsg (p : Pending) (i : Incoming)
  | EPosted (k : nat)
  | EResume (k : nat) (r : Resumed)
  | EDrop (token : Z).

Record Sys : Type := mkSys { world : W; tasks : list Task }.

Definition sys_new : Sys := mkSys (mkW state_default ∅ [] [] false) [].

Definition self : Pending := mkPending 0 0.

Definition step (ev : Event) (s : Sys) : option Sys :=
  match ev with
  | EMsg p i => let '(w, t) := dispatch p i (world s) in Some (mkSys w (tasks s ++ option_list t))
  | EPosted k =>
      '(_, c) ← posted (world s) !! k;
      let w := mkW (st (world s)) (gone (world s)) (delete k (posted (world s))) (outs (world s)) (stuck (world s)) in
      let '(w, t) := on_command self c w in
      Some (mkSys w (tasks s ++ option_list t))
  | EResume k r =>
      t ← tasks s !! k;
      '(w, t') ← resume t r (world s);
      Some (mkSys w (delete k (tasks s) ++ option_list t'))
  | EDrop token =>
      let w := world s in
      Some (mkSys (mkW (st w) ({[token]} ∪ gone w) (posted w) (outs w) (stuck w)) (tasks s))
  end.

Fixpoint run (evs : list Event) (s : Sys) : option Sys :=
  match evs with
  | [] => Some s
  | ev :: evs => s ← step ev s; run evs s
  end.

Lemma client_run_app evs evs' s : run (evs ++ evs') s = run evs s ≫= run evs'.
Proof.
  revert s. induction evs as [|ev evs IH]; intros s; [done|]. cbn [run app].
  destruct (step ev s) as [s1|]; cbn [mbind option_bind]; [apply IH|done].
Qed.

Lemma client_run_snoc evs ev s s' :
  run (evs ++ [ev]) s = Some s' → ∃ s1, run evs s = Some s1 ∧ step ev s1 = Some s'.
Proof.
  rewrite client_run_app. intros (s1 & Hr & Hs)%bind_Some. exists s1. split; [done|].
  cbn [run] in Hs. by destruct (step ev s1).
Qed.

(** Rule induction over a run, with the events so far in view. *)
Lemma client_run_invariant (P : list Event → Sys → Prop) :
  P [] sys_new → (∀ evs ev s s', run evs sys_new = Some s → P evs s → step ev s = Some s' → P (evs ++ [ev]) s') →
  ∀ evs s, run evs sys_new = Some s → P evs s.
Proof.
  intros H0 Hs evs. induction evs as [|ev evs IH] using rev_ind; intros s Hr; [by injection Hr as <-|].
  apply client_run_snoc in Hr as (s1 & H1 & Hr). eauto.
Qed.
End client.
End HttpClient.

(** ** An engine for a small protocol

    A request head is one byte, a body is sent as it is.  An answer starts with the byte
    100 ("continue") or with three bytes: a status, the length of the body (255: until
    the connection closes) and whether the connection must be closed (1). *)
Module ToyEngine.
Import HttpHead HttpClient.

Definition toy_response (input : list Z) : option (Z * Z) * (Z * option Z + string) :=
  match input with
  | 0 :: _ => (None, inr "bad status"%string)
  | status :: len :: close :: _ => (Some (len, close), inl (3, Some status))
  | _ => (None, inl (0, None))
  end.

Definition toy_read (c : Z * Z) (input : list Z) (cap : Z) : Z * Z :=
  let m := Z.min (Z.min c.1 cap) (Z.of_nat (length input)) in
  (Z.max 0 m, c.1 - Z.max 0 m).

#[global] Instance toy : Engine := {|
  Parts := bool; Head := Z;
  CPrepare := bool; CSendRequest := bool * bool; CSendBody := unit; CAwait100 := option bool;
  CRecvResponse := option (Z * Z); CRecvBody := Z * Z;
  call_new expect _ _ := inl expect;
  prepare_proceed expect := (expect, false);
  send_can_proceed c := c.2;
  send_write c _ := ((c.1, true), inl [1]);
  send_proceed c := inl (Some (if c.1 : bool then inl None else inr (inl tt)));
  body_write c chunk _ := (c, inl (Z.of_nat (length chunk), chunk));
  body_can_proceed _ := true;
  body_proceed _ := Some None;
  try_read_100 c input :=
    match input with
    | [] => (None, inl 0)
    | b :: _ => if b =? 100 then (Some true, inl 1) else if b =? 0 then (None, inr "bad status"%string) else (Some false, inl 0)
    end;
  can_keep_await_100 c := match c with None => true | _ => false end;
  await_proceed c := match c with Some false => inl (inr None) | _ => inl (inl tt) end;
  try_response _ input := toy_response input;
  response_proceed c :=
    match c with
    | None => None
    | Some (len, close) => Some (if len =? 0 then inr (close =? 1) else inl (len, close))
    end;
  body_read c input cap := let '(m, rest) := toy_read c input cap in ((rest, c.2), inl (m, take (Z.to_nat m) input));
  read_can_proceed c := c.1 =? 0;
  close_delimited c := 100 <? c.1;
  read_proceed c := Some (c.2 =? 1);
|}.

#[global] Instance toy_laws : EngineLaws (H := toy).
Proof.
  split; cbn.
  - intros c input c' used. destruct input as [|b input]; [intros [= _ <-]; lia|]. cbn [length].
    destruct (b =? 100); [intros [= _ <-]; lia|]. destruct (b =? 0); [done|intros [= _ <-]; lia].
  - intros c input c' used r. unfold toy_response. destruct input as [|[|b|b] [|l [|k input]]]; intros [=]; subst; cbn; lia.
  - intros c input cap c' used bs [= _ <- <-]. split; [lia|]. intros ->. done.
  - eauto.
  - intros c input c' used r. unfold toy_response. destruct input as [|[|b|b] [|l [|k input]]]; intros [=]; subst; eauto.
  - eauto.
Qed.
End ToyEngine.
