(* ===== verification/HttpPool.v ===== *)
(** * The connections of the HTTP client

    Over any sequence of commands, transport events, timers and results of awaited
    operations: the limits on connections are kept, and a connection serves one exchange
    at a time, of the origin it was opened for. *)
From S2P Require Import Prelude Message HttpHead HttpClient.
#[local] Open Scope Z_scope.

Module HttpPool.
Import HttpHead HttpClient.

Section pool.
Context `{Engine} (server_name_error : string → option string) (config : HttpClientConfig).

(** ** Steps that leave the pool alone *)

(** The end of the body was handed out: nothing brings [reusable] back. *)
Definition settled (e : Exchange) : Prop := reusable e = None ∧ (proto e = None ∨ proto e = Some Done).

(** The verdict on the connection comes with the end of the protocol. *)
Definition tidy (e : Exchange) : Prop := reusable e = None ∨ proto e = None ∨ proto e = Some Done.

(** What happens to an exchange while it lasts. *)
Definition evolves (e e' : Exchange) : Prop :=
  transport e' = transport e ∧ origin e' = origin e ∧ (settled e → settled e') ∧ (tidy e → tidy e').

#[local] Instance evolves_preorder : PreOrder evolves.
Proof. split; [done|]. intros e1 e2 e3 (?&?&?&?) (?&?&?&?). split_and!; [congruence..|auto|auto]. Qed.

Record same_pool (w w' : W) : Prop := {
  sp_origins : origins (st w') = origins (st w);
  sp_connecting : connecting (st w') = connecting (st w);
  sp_active : active (st w') = active (st w);
  sp_idle : idle (st w') = idle (st w);
  sp_next : next_id (st w') = next_id (st w);
  sp_exchanges : ∀ id, option_Forall2 evolves (exchanges (st w) !! id) (exchanges (st w') !! id);
  sp_shutdowns : ∀ t, OShutdown t ∈ outs w → OShutdown t ∈ outs w';
}.

#[local] Instance same_pool_preorder : PreOrder same_pool.
Proof.
  split; [done|]. intros w1 w2 w3 [O1 C1 A1 I1 N1 E1 S1] [O2 C2 A2 I2 N2 E2 S2]. split; [congruence..| |auto].
  intros id. etrans; [apply E1|apply E2].
Qed.

(** The pool is looked at through these fields only. *)
Lemma same_pool_st w w' :
  st w' = st w → (∀ t, OShutdown t ∈ outs w → OShutdown t ∈ outs w') → same_pool w w'.
Proof. intros Hs Ho. split; rewrite ?Hs; done. Qed.

Lemma emit_pool o w : same_pool w (emit o w).
Proof. apply same_pool_st; [done|]. cbn. set_solver. Qed.

Lemma post_pool ms c w : same_pool w (post ms c w).
Proof. by apply same_pool_st. Qed.

Lemma on_st_pool f w :
  (∀ s, origins (f s) = origins s ∧ connecting (f s) = connecting s ∧ active (f s) = active s ∧ idle (f s) = idle s
        ∧ next_id (f s) = next_id s ∧ exchanges (f s) = exchanges s) → same_pool w (on_st f w).
Proof. intros Hf. destruct (Hf (st w)) as (?&?&?&?&?&He). split; cbn; try done. by rewrite He. Qed.

Lemma put_exchange_pool id e e' w :
  exchanges (st w) !! id = Some e → evolves e e' → same_pool w (put_exchange id e' w).
Proof.
  intros He Hev. split; cbn; try done. intros i. destruct (decide (i = id)) as [->|].
  - rewrite lookup_insert_eq, He. by constructor.
  - by rewrite lookup_insert_ne.
Qed.

Lemma panic_pool w : same_pool w (panic w).
Proof. by apply same_pool_st. Qed.

Lemma reply_pool p a w : same_pool w (reply p a w).
Proof. unfold reply. case_decide; [done|apply emit_pool]. Qed.

Lemma replies_pool rs w : same_pool w (replies rs w).
Proof.
  revert w. induction rs as [|r rs IH]; intros w; [done|]. cbn. etrans; [apply reply_pool|apply IH].
Qed.

Lemma wake_queued_pool w : same_pool w (wake_queued config w).
Proof.
  unfold wake_queued. cbv zeta. destruct (list_find _ _) as [[i x]|]; [|by apply on_st_pool].
  etrans; [|apply post_pool]. etrans; by apply on_st_pool.
Qed.

(** Peel the last effect off a chain of effects. *)
Ltac pool_step :=
  match goal with
  | |- same_pool ?w ?w => reflexivity
  | |- same_pool _ (match ?x with _ => _ end) => destruct x eqn:?
  | |- same_pool _ (if ?x then _ else _) => destruct x eqn:?
  | |- same_pool _ (emit _ _) => etrans; [|apply emit_pool]
  | |- same_pool _ (post _ _ _) => etrans; [|apply post_pool]
  | |- same_pool _ (arm_wait_timeout _ _ _ _ _) => etrans; [|apply post_pool]
  | |- same_pool _ (panic _) => etrans; [|apply panic_pool]
  | |- same_pool _ (reply _ _ _) => etrans; [|apply reply_pool]
  | |- same_pool _ (replies _ _) => etrans; [|apply replies_pool]
  | |- same_pool _ (wake_queued _ _) => etrans; [|apply wake_queued_pool]
  | |- same_pool _ (put_exchange _ _ _) => eapply put_exchange_pool; [eassumption|]
  end.
Ltac pool := repeat pool_step.
Ltac evolve :=
  split_and!; [reflexivity|reflexivity|intros [? [?|?]]; split; cbn in *; (congruence || auto)
              |intros [?|[?|?]]; unfold tidy in *; cbn in *; (congruence || auto)].

Lemma pause_transport_pool pause w : same_pool w (pause_transport pause w).1.
Proof. unfold pause_transport. destruct pause as [[id t]|]; cbn [fst]; pool. Qed.

Lemma write_request_pool id chunk w : same_pool w (write_request config id chunk w).1.
Proof.
  unfold write_request. case_decide; [done|]. case_decide; [done|].
  destruct (exchanges (st w) !! id) as [e|] eqn:He; [|done]. destruct (request_finished e); [done|].
  destruct (proto e) as [[c|c|c|c|]|] eqn:Hp; try done.
  destruct (body_write c chunk _) as [c' [[used bs]|]]; [case_decide|]; cbn [fst]; pool; evolve.
Qed.

Lemma write_for_pool p id chunk pause w : same_pool w (write_for config p id chunk pause w).1.
Proof.
  unfold write_for. pose proof (write_request_pool id chunk w) as Hw.
  destruct (write_request config id chunk w) as [w1 [a|[t data]]]; cbn [fst] in *.
  - etrans; [|apply pause_transport_pool]. pool. done.
  - pool. done.
Qed.

Lemma write_pool p id chunk w : same_pool w (write config p id chunk w).1.
Proof.
  unfold write. destruct (exchanges (st w) !! id) as [e|] eqn:He; [|apply write_for_pool].
  case_decide; [apply write_for_pool|]. destruct (negb (is_await100 e)); [apply write_for_pool|].
  destruct (write_waiter e); cbn [fst]; pool. evolve.
Qed.

Lemma finish_request_pool p id w : same_pool w (finish_request p id w).1.
Proof.
  unfold finish_request. destruct (exchanges (st w) !! id) as [e|] eqn:He; [|cbn [fst]; pool].
  destruct (request_finished e); [cbn [fst]; pool|].
  match goal with |- context [match ?x with Some expected => _ | None => _ end] => destruct x end; [cbn [fst]; pool|].
  destruct (proto e) as [[c|c|c|c|]|] eqn:Hp; cbn [fst]; pool; try evolve.
  destruct (body_write c [] 64) as [c' [[used bs]|]]; [destruct (body_can_proceed c'); [destruct (body_proceed c')|]|];
    cbn [fst]; pool; evolve.
Qed.

Lemma wait_response_pool p id w : same_pool w (wait_response config p id w).
Proof. unfold wait_response. pool; evolve. Qed.

Lemma drain_input_exchange used d d' :
  drain_input used d = Some d' → ∃ x, d_exchange d' = set_input x (d_exchange d).
Proof. unfold drain_input. case_decide; [|done]. intros [= <-]. cbn. eauto. Qed.

Ltac same_exchange := cbn; split_and!; [reflexivity|reflexivity|auto].

Lemma drive_await_evolves c d d' :
  drive_await c d = Break d' ∨ drive_await c d = Continue d' →
  transport (d_exchange d') = transport (d_exchange d) ∧ origin (d_exchange d') = origin (d_exchange d)
  ∧ (reusable (d_exchange d') = reusable (d_exchange d) ∨ proto (d_exchange d') = Some Done).
Proof.
  unfold drive_await. destruct (try_read_100 c _) as [c' [used|]]; [|intros [[= <-]|[=]]; same_exchange].
  destruct (drain_input used d) as [d1|] eqn:Hd; [|intros [[=]|[=]]]. apply drain_input_exchange in Hd as [x Hx].
  destruct (can_keep_await_100 c'); [intros [[= <-]|[=]]; cbn; rewrite ?Hx; same_exchange|].
  destruct (await_proceed c') as [[b|r]|]; intros [[= <-]|[= <-]]; cbn; rewrite ?Hx; same_exchange.
Qed.

Lemma drive_response_evolves id c d d' :
  drive_response config id c d = Break d' ∨ drive_response config id c d = Continue d' →
  transport (d_exchange d') = transport (d_exchange d) ∧ origin (d_exchange d') = origin (d_exchange d)
  ∧ (reusable (d_exchange d') = reusable (d_exchange d) ∨ proto (d_exchange d') = Some Done).
Proof.
  unfold drive_response. destruct (try_response c _) as [c' [[used [h|]]|]]; [| |intros [[= <-]|[=]]; same_exchange].
  - destruct (drain_input used d) as [d1|] eqn:Hd; [|intros [[=]|[=]]]. apply drain_input_exchange in Hd as [x Hx].
    destruct (response_proceed c') as [[b|m]|]; [| |intros [[=]|[=]]]; cbn; rewrite ?Hx; cbn;
      destruct (response_waiter _); intros [[=]|[= <-]]; cbn; rewrite ?Hx; same_exchange.
  - case_decide; intros [[= <-]|[=]]; same_exchange.
Qed.

Lemma drive_body_evolves c d d' :
  drive_body config c d = Break d' ∨ drive_body config c d = Continue d' →
  transport (d_exchange d') = transport (d_exchange d) ∧ origin (d_exchange d') = origin (d_exchange d)
  ∧ (reusable (d_exchange d') = reusable (d_exchange d) ∨ proto (d_exchange d') = Some Done).
Proof.
  unfold drive_body. case_decide; [intros [[= <-]|[=]]; same_exchange|].
  destruct (body_read c _ _) as [c' [[used bs]|]]; [|intros [[= <-]|[=]]; same_exchange].
  destruct (drain_input used d) as [d1|] eqn:Hd; [|intros [[=]|[=]]]. apply drain_input_exchange in Hd as [x Hx].
  destruct (read_can_proceed c' && negb (close_delimited c')); [destruct (read_proceed c'); [|intros [[=]|[=]]]|];
    repeat case_decide; intros [[= <-]|[= <-]]; cbn; rewrite ?Hx; same_exchange.
Qed.

Lemma drive_turn_evolves id d d' :
  drive_turn config id d = Break d' ∨ drive_turn config id d = Continue d' → evolves (d_exchange d) (d_exchange d').
Proof.
  unfold drive_turn. destruct (proto (d_exchange d)) as [[c|c|c|c|]|] eqn:Hp; try (intros [[= <-]|[=]]; reflexivity).
  all: intros Ht; first [apply drive_await_evolves in Ht|apply drive_response_evolves in Ht|apply drive_body_evolves in Ht].
  all: destruct Ht as (Ht & Ho & Hr); split_and!; [done|done|intros [_ [Hn|Hn]]; rewrite Hp in Hn; done|].
  all: intros [Hn|[Hn|Hn]]; [|rewrite Hp in Hn; done..]; cbn in Hr; rewrite Hn in Hr; destruct Hr; [by left|by right; right].
Qed.

Lemma drive_loop_evolves fuel id d d' : drive_loop config fuel id d = Some d' → evolves (d_exchange d) (d_exchange d').
Proof.
  revert d. induction fuel as [|fuel IH]; intros d; [done|]. cbn [drive_loop].
  pose proof (drive_turn_evolves id d) as Ht. destruct (drive_turn config id d) as [d1|d1|]; [|intros Hl|done].
  - intros [= <-]. auto.
  - etrans; [by apply Ht; right|by apply IH].
Qed.

Lemma drive_waiter_evolves d : evolves (d_exchange d) (d_exchange (drive_waiter d)).
Proof.
  unfold drive_waiter. destruct (body_waiter _); [|done]. destruct (chunks _); [|done].
  destruct (error _); [done|]. by destruct (body_ended _).
Qed.

Lemma drive_failed_evolves d : evolves (d_exchange d) (d_exchange (drive_failed d)).
Proof. unfold drive_failed. destruct (error _); [|done]. by destruct (response_waiter _). Qed.

Lemma drive_input_pool id w : same_pool w (drive_input config id w).1.
Proof.
  unfold drive_input. destruct (exchanges (st w) !! id) as [e|] eqn:He; [|done].
  destruct (drive_loop _ _ _ _) as [d|] eqn:Hd; [|apply panic_pool]. apply drive_loop_evolves in Hd. cbn in Hd. cbv zeta.
  set (pausing := _ && _ && _). clearbody pausing.
  set (d1 := drive_failed (if pausing then with_exchange (set_paused true) (drive_waiter d) else drive_waiter d)).
  assert (Hd1 : evolves e (d_exchange d1)).
  { etrans; [exact Hd|]. unfold d1. etrans; [|apply drive_failed_evolves]. etrans; [apply drive_waiter_evolves|].
    by destruct pausing. }
  assert (Hw : same_pool w (replies (d_replies d1) (put_exchange id (d_exchange d1) w))) by (pool; done).
  clearbody d1. destruct (d_job d1) as [[p chunk]|]; (etrans; [exact Hw|]); [apply write_for_pool|apply pause_transport_pool].
Qed.

Lemma continue_timeout_pool id w : same_pool w (continue_timeout config id w).1.
Proof.
  unfold continue_timeout. destruct (exchanges (st w) !! id) as [e|] eqn:He; [|done].
  destruct (proto e) as [[c|c|c|c|]|] eqn:Hp; cbn [fst]; pool; try evolve.
  destruct (await_proceed c) as [[b|r]|].
  - destruct (write_waiter e) as [[p chunk]|]; cbn [fst]; [etrans; [|apply write_for_pool]|]; pool; evolve.
  - etrans; [|apply drive_input_pool]. destruct (write_waiter e) as [[p chunk]|]; pool; evolve.
  - destruct (write_waiter e) as [[p chunk]|]; cbn [fst]; pool; evolve.
Qed.

(** Tasks that hold neither a connection attempt nor a connection to put back. *)
Definition calm (t : option Task) : Prop :=
  match t with Some (TConnect _ _ _) | Some (TResume _ _ _ (Some _)) => False | _ => True end.

Lemma pause_transport_calm pause w : calm (pause_transport pause w).2.
Proof. by destruct pause as [[id t]|]. Qed.

Lemma write_for_calm p id chunk pause w : calm (write_for config p id chunk pause w).2.
Proof.
  unfold write_for. destruct (write_request _ _ _ _) as [w1 [a|[t data]]]; [apply pause_transport_calm|done].
Qed.

Lemma write_calm p id chunk w : calm (write config p id chunk w).2.
Proof.
  unfold write. destruct (exchanges (st w) !! id) as [e|]; [|apply write_for_calm].
  case_decide; [apply write_for_calm|]. destruct (negb _); [apply write_for_calm|]. by destruct (write_waiter e).
Qed.

Lemma finish_request_calm p id w : calm (finish_request p id w).2.
Proof. unfold finish_request. repeat case_match; done. Qed.

Lemma drive_input_calm id w : calm (drive_input config id w).2.
Proof.
  unfold drive_input. destruct (exchanges (st w) !! id); [|done]. destruct (drive_loop _ _ _ _) as [d|]; [|done]. cbv zeta.
  destruct (d_job _) as [[p chunk]|]; [apply write_for_calm|apply pause_transport_calm].
Qed.

Lemma continue_timeout_calm id w : calm (continue_timeout config id w).2.
Proof.
  unfold continue_timeout. destruct (exchanges (st w) !! id) as [e|]; [|done]. destruct (proto e) as [[]|]; try done.
  destruct (await_proceed c) as [[b|r]|]; [|apply drive_input_calm|done].
  destruct (write_waiter e) as [[p chunk]|]; [apply write_for_calm|done].
Qed.

Lemma on_data_calm t data w : calm (on_data config t data w).2.
Proof. unfold on_data. destruct (active (st w) !! t); [apply drive_input_calm|done]. Qed.

Lemma on_closed_calm t failed w : calm (on_closed config t failed w).2.
Proof.
  unfold on_closed. cbv zeta. destruct (active (st w) !! t) as [id|]; [|done].
  destruct (exchanges _ !! id) as [e|], failed; try done. destruct (proto e) as [[]|]; try done.
  destruct (close_delimited c); [apply drive_input_calm|done].
Qed.

(** ** Limits *)

Definition connects (ts : list Task) : list Origin :=
  omap (λ t, match t with TConnect _ _ o => Some o | _ => None end) ts.

Definition count (o : Origin) (cs : list Origin) : Z := Z.of_nat (length (filter (λ x, x = o) cs)).

(** [log] are the connections opened so far, [closed] the transports whose end was
    reported, [cs] the origins of the attempts under way. *)
Record limits (log closed : list TransportId) (w : W) (cs : list Origin) : Prop := {
  li_connecting : ∀ o, default 0 (connecting (st w) !! o) = count o cs;
  li_positive : ∀ o n, connecting (st w) !! o = Some n → 0 < n;
  li_sum : sum_values (connecting (st w)) = Z.of_nat (length cs);
  li_total : total_connections (st w) ≤ max_connections config;
  li_same : ∀ o, same_connections o (st w) ≤ max_connections_per_origin config;
  li_open : ∀ t, t ∈ log → OShutdown t ∉ outs w → t ∉ closed → is_Some (origins (st w) !! t);
}.

Record same_conns (w w' : W) : Prop := {
  sc_origins : origins (st w') = origins (st w);
  sc_connecting : connecting (st w') = connecting (st w);
  sc_shutdowns : ∀ t, OShutdown t ∈ outs w → OShutdown t ∈ outs w';
}.

Lemma same_pool_conns w w' : same_pool w w' → same_conns w w'.
Proof. intros []. by split. Qed.

Lemma limits_conns log closed w w' cs : same_conns w w' → limits log closed w cs → limits log closed w' cs.
Proof.
  intros [Ho Hc Hs] [L1 L2 L3 L4 L5 L6].
  assert (total_connections (st w') = total_connections (st w)) by (unfold total_connections; by rewrite Ho, Hc).
  assert (∀ o, same_connections o (st w') = same_connections o (st w)) by (intros o; unfold same_connections; by rewrite Ho, Hc).
  split; rewrite ?Ho, ?Hc; try done; [congruence|..].
  - intros o. rewrite H1. apply L5.
  - intros t Ht Hn Hcl. apply L6; auto.
Qed.

Lemma limits_pool log closed w w' cs : same_pool w w' → limits log closed w cs → limits log closed w' cs.
Proof. intros Hp. by apply limits_conns, same_pool_conns. Qed.

Lemma on_st_conns f w :
  (∀ s, origins (f s) = origins s ∧ connecting (f s) = connecting s) → same_conns w (on_st f w).
Proof. intros Hf. destruct (Hf (st w)). by split. Qed.

Lemma insert_size t o (m : gmap TransportId Origin) : (size (<[t := o]> m) ≤ S (size m))%nat.
Proof. rewrite map_size_insert. destruct (m !! t); unfold Datatypes.id; lia. Qed.

Lemma filter_delete_size (m : gmap TransportId Origin) t o :
  (size (filter (λ kv, kv.2 = o) (delete t m)) ≤ size (filter (λ kv, kv.2 = o) m))%nat.
Proof. apply map_subseteq_size, map_filter_subseteq_mono, delete_subseteq. Qed.

Lemma forget_limits log closed t w cs :
  OShutdown t ∈ outs w ∨ t ∈ closed → limits log closed w cs → limits log closed (forget_transport t w) cs.
Proof.
  intros Ht [L1 L2 L3 L4 L5 L6]. split; cbn; try done.
  - unfold total_connections in *. cbn. pose proof (map_subseteq_size _ _ (delete_subseteq (origins (st w)) t)). lia.
  - intros o. specialize (L5 o). unfold same_connections in *. cbn. pose proof (filter_delete_size (origins (st w)) t o). lia.
  - intros t' Ht' Hs Hc. rewrite lookup_delete_ne; [by apply L6|]. intros ->. destruct Ht; done.
Qed.

(** The pair of calls that closes a transport. *)
Lemma drop_limits log closed t w cs :
  limits log closed w cs → limits log closed (forget_transport t (shutdown t w)) cs.
Proof.
  intros Hl. apply forget_limits; [left; cbn; set_solver|]. eapply limits_conns, Hl. apply same_pool_conns, emit_pool.
Qed.

Lemma canceled_limits log closed p w cs :
  limits log closed w cs →
  limits log closed (match p with Some p => reply p (AFailed Canceled) w | None => w end) cs.
Proof. intros Hl. destruct p; [|done]. eapply limits_pool, Hl. apply reply_pool. Qed.

Lemma cancel_limits log closed id w cs : limits log closed w cs → limits log closed (cancel config id w) cs.
Proof.
  intros Hl. unfold cancel. destruct (exchanges (st w) !! id) as [e|]; [|done]. cbv zeta.
  eapply limits_pool; [apply wake_queued_pool|]. do 3 apply canceled_limits. apply drop_limits.
  eapply limits_conns; [by apply on_st_conns|]. eapply limits_conns, Hl. by apply on_st_conns.
Qed.

Lemma recycle_limits log closed t o b w cs : limits log closed w cs → limits log closed (recycle config t o b w) cs.
Proof.
  intros Hl. unfold recycle. cbv zeta.
  set (w1 := on_st (λ s, set_active (delete t (active s)) s) w).
  assert (H1 : limits log closed w1 cs) by (eapply limits_conns, Hl; by apply on_st_conns). clearbody w1.
  destruct (negb b); [eapply limits_pool; [apply wake_queued_pool|]; by apply drop_limits|].
  case_decide; [eapply limits_pool; [apply wake_queued_pool|]; by apply drop_limits|].
  eapply limits_pool; [apply wake_queued_pool|]. eapply limits_pool; [apply post_pool|].
  eapply limits_conns; [by apply on_st_conns|]. eapply limits_conns, H1. by apply on_st_conns.
Qed.

Lemma idle_timeout_limits log closed t g w cs : limits log closed w cs → limits log closed (idle_timeout config t g w) cs.
Proof.
  intros Hl. unfold idle_timeout. case_decide; [done|]. cbv zeta.
  set (w1 := on_st (λ s, set_idle (filter (λ x, x ≠ t) <$> idle s) s) w).
  assert (H1 : limits log closed w1 cs) by (eapply limits_conns, Hl; by apply on_st_conns). clearbody w1.
  destruct (map_fold _ _ _); [|done]. eapply limits_pool; [apply wake_queued_pool|]. apply drop_limits.
  eapply limits_conns, H1. by apply on_st_conns.
Qed.

(** ** Counting attempts *)

Lemma sum_values_insert o v m : sum_values (<[o := v]> m) = sum_values m - default 0 (m !! o) + v.
Proof.
  unfold sum_values. destruct (m !! o) as [n|] eqn:E.
  - rewrite <-(insert_delete_id m o n E) at 2. rewrite <-insert_delete_eq.
    rewrite !map_fold_insert_L by (try apply lookup_delete_eq; intros; lia). cbn. lia.
  - rewrite map_fold_insert_L by (try done; intros; lia). cbn. lia.
Qed.

Lemma sum_values_delete o m : sum_values (delete o m) = sum_values m - default 0 (m !! o).
Proof.
  unfold sum_values. destruct (m !! o) as [n|] eqn:E; [|rewrite delete_id by done; cbn; lia].
  rewrite <-(insert_delete_id m o n E) at 2. rewrite map_fold_insert_L by (try apply lookup_delete_eq; intros; lia). cbn. lia.
Qed.

Lemma count_app o cs cs' : count o (cs ++ cs') = count o cs + count o cs'.
Proof. unfold count. rewrite filter_app, length_app. lia. Qed.

Lemma count_one o o' : count o [o'] = if decide (o = o') then 1 else 0.
Proof. unfold count. cbn. repeat case_decide; try congruence; done. Qed.

(** An attempt begins: there is room for it. *)
Lemma attempt_limits log closed o w cs :
  should_queue config o (st w) = false → has_idle o (st w) = false → limits log closed w cs →
  limits log closed (on_st (λ s, set_connecting (<[o := default 0 (connecting s !! o) + 1]> (connecting s)) s) w) (cs ++ [o]).
Proof.
  unfold should_queue. intros Hq Hi [L1 L2 L3 L4 L5 L6]. rewrite Hi in Hq. apply orb_false_iff in Hq as [Ht%bool_decide_eq_false Hs%bool_decide_eq_false].
  split; cbn; try done.
  - intros o'. rewrite count_app, count_one. destruct (decide (o' = o)) as [->|].
    + rewrite lookup_insert_eq. cbn. by rewrite L1.
    + rewrite lookup_insert_ne by done. rewrite L1. lia.
  - intros o' n. destruct (decide (o' = o)) as [->|].
    + rewrite lookup_insert_eq. intros [= <-]. rewrite L1. unfold count. lia.
    + rewrite lookup_insert_ne by done. apply L2.
  - rewrite sum_values_insert, L3, length_app. cbn. lia.
  - unfold total_connections in *. cbn. rewrite sum_values_insert. lia.
  - intros o'. specialize (L5 o'). unfold same_connections in *. cbn. destruct (decide (o' = o)) as [->|].
    + rewrite lookup_insert_eq. cbn. lia.
    + by rewrite lookup_insert_ne.
Qed.

Lemma limits_perm log closed w cs cs' : cs ≡ₚ cs' → limits log closed w cs → limits log closed w cs'.
Proof.
  intros Hp [L1 L2 L3 L4 L5 L6]. split; try done; [|by rewrite <-Hp].
  intros o. rewrite L1. unfold count. by rewrite Hp.
Qed.

Lemma limits_more log log' closed closed' w cs :
  log' ⊆ log → closed ⊆ closed' → limits log closed w cs → limits log' closed' w cs.
Proof. intros Hl Hc [L1 L2 L3 L4 L5 L6]. split; try done. intros t Ht Hs Hn. apply L6; auto. Qed.

Definition opened (r : TransportId + HttpError) : list TransportId := match r with inl t => [t] | inr _ => [] end.

(** The counter of an origin after one of its attempts ended. *)
Definition counted (o : Origin) (w : W) : W :=
  on_st (λ s, set_connecting (if decide (default 0 (connecting s !! o) - 1 = 0) then delete o (connecting s)
                              else <[o := default 0 (connecting s !! o) - 1]> (connecting s)) s) w.

Lemma connect_done_eq log closed o r w cs :
  limits log closed w (o :: cs) →
  connect_done o r w = match r with
                       | inl t => on_st (λ s, set_origins (<[t := o]> (origins s)) s) (counted o w)
                       | inr _ => counted o w
                       end.
Proof.
  intros [L1 L2 _ _ _ _]. specialize (L1 o). unfold connect_done. change (o :: cs) with ([o] ++ cs) in L1.
  rewrite count_app, count_one, decide_True in L1 by done. unfold counted.
  destruct (connecting (st w) !! o) as [n|] eqn:E; cbn in L1; [|unfold count in L1; lia].
  rewrite decide_False by (specialize (L2 o n E); lia). unfold on_st. rewrite E. done.
Qed.

Lemma counted_sum o w :
  sum_values (connecting (st (counted o w))) = sum_values (connecting (st w)) - 1 ∨ default 0 (connecting (st w) !! o) = 0.
Proof.
  cbn. destruct (connecting (st w) !! o) as [n|] eqn:E; [|by right]. cbn. left.
  case_decide; [rewrite sum_values_delete|rewrite sum_values_insert]; rewrite E; cbn; lia.
Qed.

Lemma counted_lookup o w o' :
  default 0 (connecting (st (counted o w)) !! o') = default 0 (connecting (st w) !! o') - (if decide (o' = o) then 1 else 0)
  ∨ default 0 (connecting (st w) !! o) = 0.
Proof.
  destruct (decide (default 0 (connecting (st w) !! o) = 0)) as [|Hn]; [by right|left]. cbn.
  destruct (decide (o' = o)) as [->|]; case_decide.
  - rewrite lookup_delete_eq. cbn. lia.
  - by rewrite lookup_insert_eq.
  - rewrite lookup_delete_ne by done. lia.
  - rewrite lookup_insert_ne by done. lia.
Qed.

Lemma connect_done_limits log closed o r w cs :
  limits log closed w (o :: cs) → limits (opened r ++ log) closed (connect_done o r w) cs.
Proof.
  intros Hl. rewrite (connect_done_eq log closed o r w cs) by done. destruct Hl as [L1 L2 L3 L4 L5 L6].
  assert (Hpos : default 0 (connecting (st w) !! o) ≠ 0).
  { rewrite L1. change (o :: cs) with ([o] ++ cs). rewrite count_app, count_one, decide_True by done. unfold count. lia. }
  pose proof (counted_lookup o w) as Hlk. destruct (counted_sum o w) as [Hsum|]; [|done].
  assert (Hc : ∀ o', default 0 (connecting (st (counted o w)) !! o') = count o' cs).
  { intros o'. destruct (Hlk o') as [->|]; [|done]. rewrite L1. change (o :: cs) with ([o] ++ cs).
    rewrite count_app, count_one. repeat case_decide; lia. }
  assert (Hp : ∀ o' n, connecting (st (counted o w)) !! o' = Some n → 0 < n).
  { cbn. intros o' n. case_decide as E.
    - rewrite lookup_delete_Some. intros [_ ?]. by eapply L2.
    - rewrite lookup_insert_Some. intros [[<- <-]|[_ ?]]; [|by eapply L2]. rewrite L1 in *. unfold count in *. lia. }
  assert (Hl : sum_values (connecting (st (counted o w))) = Z.of_nat (length cs)) by (rewrite Hsum, L3; cbn; lia).
  assert (Hsame : ∀ o', default 0 (connecting (st w) !! o') = default 0 (connecting (st (counted o w)) !! o') + if decide (o' = o) then 1 else 0).
  { intros o'. destruct (Hlk o') as [->|]; [lia|done]. }
  unfold total_connections, same_connections in *.
  destruct r as [t|e]; split; unfold total_connections, same_connections; cbn [st on_st set_origins origins connecting] in *; try done.
  - pose proof (insert_size t o (origins (st w))). change (origins (st (counted o w))) with (origins (st w)). lia.
  - intros o'. specialize (L5 o'). specialize (Hsame o'). change (origins (st (counted o w))) with (origins (st w)).
    rewrite map_filter_insert. cbn [snd]. revert Hsame. destruct (decide (o' = o)) as [->|]; intros Hsame.
    + rewrite decide_True by done. pose proof (insert_size t o (filter (λ kv, kv.2 = o) (origins (st w)))). lia.
    + rewrite decide_False by done. pose proof (filter_delete_size (origins (st w)) t o'). lia.
  - intros x Hx Hs Hn. change (origins (st (counted o w))) with (origins (st w)).
    destruct (decide (x = t)) as [->|]; [rewrite lookup_insert_eq; by eexists|]. rewrite lookup_insert_ne by done.
    apply L6; [set_solver|done..].
  - change (origins (st (counted o w))) with (origins (st w)). lia.
  - intros o'. specialize (L5 o'). specialize (Hsame o'). change (origins (st (counted o w))) with (origins (st w)).
    destruct (decide (o' = o)); lia.
Qed.

Lemma acquired_limits log closed x call o r w cs :
  limits log closed w cs → limits log closed (acquired config x call o r w).1 cs.
Proof.
  intros Hl. unfold acquired. destruct r as [t|e].
  - destruct (negb _); [cbn [fst]; eapply limits_pool; [apply wake_queued_pool|]; by apply drop_limits|].
    destruct (serialize_request _ _) as [[[data p]|e]|]; cbn [fst].
    + cbv zeta. eapply limits_pool; [apply emit_pool|]. do 3 (eapply limits_conns; [by apply on_st_conns|]).
      eapply limits_conns, Hl. by apply on_st_conns.
    + eapply limits_pool; [apply wake_queued_pool|]. eapply limits_pool; [apply reply_pool|]. by apply drop_limits.
    + eapply limits_pool, Hl. apply panic_pool.
  - cbn [fst]. eapply limits_pool; [apply wake_queued_pool|]. eapply limits_pool, Hl. apply reply_pool.
Qed.

Lemma acquired_calm x call o r w : calm (acquired config x call o r w).2.
Proof. unfold acquired. repeat case_match; done. Qed.

(** A handler with its suspended rest. *)
Definition limits_after log closed (wt : W * option Task) cs : Prop :=
  limits log closed wt.1 (cs ++ connects (option_list wt.2)).

Lemma calm_connects t : calm t → connects (option_list t) = [].
Proof. by destruct t as [[]|]. Qed.

Lemma limits_calm log closed wt cs : calm wt.2 → limits log closed wt.1 cs → limits_after log closed wt cs.
Proof. intros Hc Hl. unfold limits_after. by rewrite calm_connects, app_nil_r. Qed.

Lemma acquire_limits log closed x call o w cs :
  should_queue config o (st w) = false → limits log closed w cs →
  limits_after log closed (acquire server_name_error config x call o w) cs.
Proof.
  intros Hq Hl. unfold acquire.
  assert (Hnew : has_idle o (st w) = false →
    limits_after log closed
      (let w := on_st (λ s, set_connecting (<[o := default 0 (connecting s !! o) + 1]> (connecting s)) s) w in
       match o_scheme o, server_name_error (o_host o) with
       | Https, Some e => acquired config x call o (inr (Tls e)) (connect_done o (inr (Tls e)) w)
       | _, _ => (emit (OConnect o (address o)) w, Some (TConnect x call o))
       end) cs).
  { intros Hi. pose proof (attempt_limits log closed o w cs Hq Hi Hl) as Ha. cbv zeta.
    set (w1 := on_st _ w) in *. clearbody w1.
    assert (Hc : limits_after log closed (emit (OConnect o (address o)) w1, Some (TConnect x call o)) cs).
    { unfold limits_after. cbn [fst snd option_list]. eapply limits_pool, Ha. apply emit_pool. }
    destruct (o_scheme o); [done|]. destruct (server_name_error (o_host o)) as [e|]; [|done].
    apply limits_calm; [apply acquired_calm|]. apply acquired_limits. apply (connect_done_limits log closed o (inr (Tls e))).
    eapply limits_perm, Ha. by rewrite Permutation_app_comm. }
  unfold has_idle in Hnew. destruct (idle (st w) !! o) as [[|t rest]|]; [by apply Hnew| |by apply Hnew].
  apply limits_calm; [apply acquired_calm|]. apply acquired_limits.
  eapply limits_conns; [by apply on_st_conns|]. eapply limits_conns, Hl. by apply on_st_conns.
Qed.

Lemma start_exchange_limits log closed x w cs :
  limits log closed w cs → limits_after log closed (start_exchange server_name_error config x w) cs.
Proof.
  intros Hl. unfold start_exchange. cbv zeta.
  assert (Hr : ∀ e, limits_after log closed (wake_queued config (reply (s_pending x) (AFailed e) w), None) cs).
  { intros e. apply limits_calm; [done|]. cbn [fst]. eapply limits_pool; [apply wake_queued_pool|]. eapply limits_pool, Hl. apply reply_pool. }
  destruct (negb _); [apply limits_calm; [done|]; cbn [fst]; eapply limits_pool, Hl; apply wake_queued_pool|].
  destruct (from_uri _) as [o|e]; [|apply Hr].
  destruct (should_queue config o (st w)) eqn:Hq.
  { apply limits_calm; [done|]. cbn [fst]. eapply limits_conns, Hl. by apply on_st_conns. }
  destruct (apply_body_headers _ _) as [h|e]; [|apply Hr]. destruct (call_new _ _ _); [|apply Hr]. by apply acquire_limits.
Qed.

Lemma next_finish_limits log closed id p answer cleanup w cs :
  limits log closed w cs → limits log closed (next_finish config id p answer cleanup w) cs.
Proof.
  intros Hl. unfold next_finish. set (w1 := match answer with Some a => reply p a w | None => w end).
  assert (H1 : limits log closed w1 cs).
  { unfold w1. destruct answer; [|done]. eapply limits_pool, Hl. apply reply_pool. }
  clearbody w1. destruct cleanup as [[[t o] b]|].
  - eapply limits_conns; [by apply on_st_conns|]. by apply recycle_limits.
  - eapply limits_pool, H1. apply post_pool.
Qed.

(** [next_body] as one change of the exchange followed by the rest. *)
Lemma next_body_shape p id w :
  exchanges (st w) !! id = None ∧ next_body config p id w = (reply p (AFailed BodyClosed) w, None)
  ∨ ∃ e e' answer cleanup, exchanges (st w) !! id = Some e ∧ evolves e e'
      ∧ (∀ t o b, cleanup = Some (t, o, b) → t = transport e ∧ o = origin e ∧ reusable e = Some b ∧ reusable e' = None ∧ proto e' = proto e ∧ body_ended e = true)
      ∧ (next_body config p id w = (emit (OResume (transport e)) (put_exchange id e' w), Some (TResume id p answer cleanup))
         ∨ next_body config p id w = (next_finish config id p answer cleanup (put_exchange id e' w), None)).
Proof.
  unfold next_body. destruct (exchanges (st w) !! id) as [e|] eqn:He; [|by left]. right.
  destruct (take_body p e) as [answer e1] eqn:Ht.
  assert (H1 : evolves e e1 ∧ reusable e1 = reusable e ∧ proto e1 = proto e ∧ body_ended e1 = body_ended e
               ∧ (answer = Some (AChunk None) → body_ended e = true)).
  { unfold take_body in Ht. destruct (chunks e); [|by injection Ht as <- <-]. destruct (error e); [by injection Ht as <- <-|].
    destruct (body_ended e) eqn:Hb; [by injection Ht as <- <-|]. destruct (body_waiter e); by injection Ht as <- <-. }
  destruct H1 as (H1 & Hr1 & Hp1 & Hb1 & Hn). set (unpause := paused e1 && _).
  set (e2 := if unpause then set_paused false e1 else e1).
  assert (H2 : evolves e e2 ∧ reusable e2 = reusable e ∧ proto e2 = proto e) by (unfold e2; by destruct unpause).
  destruct H2 as (H2 & Hr2 & Hp2). clearbody e2 unpause.
  assert (Hplain : ∃ e0 e' answer0 cleanup, Some e = Some e0 ∧ evolves e0 e'
      ∧ (∀ t o b, cleanup = Some (t, o, b) → t = transport e0 ∧ o = origin e0 ∧ reusable e0 = Some b ∧ reusable e' = None ∧ proto e' = proto e0 ∧ body_ended e0 = true)
      ∧ ((if unpause then (emit (OResume (transport e2)) (put_exchange id e2 w), Some (TResume id p answer None))
          else (next_finish config id p answer None (put_exchange id e2 w), None)) =
          (emit (OResume (transport e0)) (put_exchange id e' w), Some (TResume id p answer0 cleanup))
         ∨ (if unpause then (emit (OResume (transport e2)) (put_exchange id e2 w), Some (TResume id p answer None))
          else (next_finish config id p answer None (put_exchange id e2 w), None)) =
          (next_finish config id p answer0 cleanup (put_exchange id e' w), None))).
  { exists e, e2, answer, None. destruct H2 as (Ht2 & Ho2 & Hs2 & Hy2). split_and!; try done.
    destruct unpause; [left; by rewrite Ht2|by right]. }
  destruct answer as [[| | |[c|]|]|]; try exact Hplain. clear Hplain.
  exists e, (set_reusable None e2), (Some (AChunk None)), ((λ r, (transport e2, origin e2, r)) <$> reusable e2).
  destruct H2 as (Ht2 & Ho2 & Hs2 & _). split_and!; [done| |..].
  - split_and!; [done..| |by left]. intros [? ?]%Hs2. by split.
  - intros t o b. rewrite Hr2. destruct (reusable e) as [r|]; [|done]. intros [= <- <- <-]. split_and!; [done..|by apply Hn].
  - destruct unpause; [left|right]; cbn [transport set_reusable]; by rewrite ?Ht2.
Qed.

Lemma next_body_limits log closed p id w cs :
  limits log closed w cs → limits_after log closed (next_body config p id w) cs.
Proof.
  intros Hl. destruct (next_body_shape p id w) as [[_ ->]|(e & e' & a & cl & He & Hev & _ & [-> | ->])].
  - apply limits_calm; [done|]. cbn [fst]. eapply limits_pool, Hl. apply reply_pool.
  - unfold limits_after. cbn. rewrite app_nil_r. eapply limits_pool; [apply emit_pool|]. eapply limits_pool, Hl.
    by eapply put_exchange_pool.
  - apply limits_calm; [done|]. cbn [fst]. apply next_finish_limits. eapply limits_pool, Hl. by eapply put_exchange_pool.
Qed.

Lemma wait_timeout_limits log closed id session body w cs :
  limits log closed w cs → limits log closed (wait_timeout config id session body w) cs.
Proof.
  intros Hl. unfold wait_timeout. destruct (exchanges (st w) !! id) as [e|] eqn:He; [|done].
  destruct (if body then body_waiter e else response_waiter e) as [p|]; [|done]. case_decide; [|done].
  apply cancel_limits. eapply limits_pool; [apply reply_pool|]. eapply limits_pool, Hl.
  eapply put_exchange_pool; [done|]. by destruct body.
Qed.

Lemma cancel_start_limits log closed token w cs :
  limits log closed w cs → limits log closed (cancel_start config token w) cs.
Proof.
  intros Hl. unfold cancel_start. cbv zeta.
  match goal with |- limits _ _ (match _ with Some id => cancel _ id ?w1 | None => _ end) _ =>
    assert (H1 : limits log closed w1 cs); [|set (w2 := w1) in *; clearbody w2] end.
  { eapply limits_conns; [by apply on_st_conns|]. eapply limits_conns, Hl. by apply on_st_conns. }
  destruct (start_tokens (st w) !! token); [by apply cancel_limits|]. eapply limits_pool, H1. apply wake_queued_pool.
Qed.

Lemma on_command_limits log closed p c w cs :
  limits log closed w cs → limits_after log closed (on_command server_name_error config p c w) cs.
Proof.
  intros Hl. destruct c; cbn [on_command].
  - by apply start_exchange_limits.
  - apply limits_calm; [apply write_calm|]. eapply limits_pool, Hl. apply write_pool.
  - apply limits_calm; [apply finish_request_calm|]. eapply limits_pool, Hl. apply finish_request_pool.
  - apply limits_calm; [done|]. eapply limits_pool, Hl. apply wait_response_pool.
  - by apply next_body_limits.
  - apply limits_calm; [done|]. cbn [fst]. eapply limits_pool; [apply reply_pool|]. by apply cancel_limits.
  - apply limits_calm; [done|]. by apply cancel_start_limits.
  - apply limits_calm; [done|]. cbn [fst]. eapply limits_conns, Hl. by apply on_st_conns.
  - apply limits_calm; [apply continue_timeout_calm|]. eapply limits_pool, Hl. apply continue_timeout_pool.
  - apply limits_calm; [done|]. by apply wait_timeout_limits.
  - apply limits_calm; [done|]. by apply idle_timeout_limits.
  - by apply start_exchange_limits.
Qed.

(** The bytes of an event reach their exchange. *)
Lemma on_data_shape t data w :
  on_data config t data w = match active (st w) !! t with
    | None => (forget_transport t (shutdown t w), None)
    | Some id => match exchanges (st w) !! id with
                 | Some e => drive_input config id (put_exchange id (set_input (input e ++ data) e) w)
                 | None => (w, None)
                 end
    end.
Proof.
  unfold on_data. destruct (active (st w) !! t) as [id|]; [|done]. destruct (exchanges (st w) !! id) eqn:He; [done|].
  unfold drive_input. by rewrite He.
Qed.

Lemma on_data_limits log closed t data w cs :
  limits log closed w cs → limits_after log closed (on_data config t data w) cs.
Proof.
  intros Hl. apply limits_calm; [apply on_data_calm|]. rewrite on_data_shape.
  destruct (active (st w) !! t) as [id|]; cbn [fst]; [|by apply drop_limits].
  destruct (exchanges (st w) !! id) as [e|] eqn:He; [|done]. eapply limits_pool; [apply drive_input_pool|].
  eapply limits_pool, Hl. by eapply put_exchange_pool.
Qed.

Lemma on_closed_limits log closed t failed w cs :
  limits log closed w cs → limits_after log (t :: closed) (on_closed config t failed w) cs.
Proof.
  intros Hl. apply limits_calm; [apply on_closed_calm|]. unfold on_closed. cbv zeta.
  match goal with |- limits _ _ (match _ with Some id => match exchanges (st ?w1) !! id with _ => _ end | None => _ end).1 _ =>
    assert (H1 : limits log (t :: closed) w1 cs); [|set (w2 := w1) in *; clearbody w2] end.
  { apply forget_limits; [right; left|]. eapply limits_more; [done|by apply list_subseteq_cons|].
    eapply limits_conns, Hl. by apply on_st_conns. }
  destruct (active (st w) !! t) as [id|]; cbn [fst]; [|eapply limits_pool, H1; apply wake_queued_pool].
  destruct (exchanges (st w2) !! id) as [e|] eqn:He, failed; cbn [fst]; try by apply cancel_limits.
  destruct (proto e) as [[| | |c|]|] eqn:Hp; try by apply cancel_limits.
  destruct (close_delimited c); [|by apply cancel_limits].
  eapply limits_pool; [apply drive_input_pool|]. eapply limits_pool, H1. eapply put_exchange_pool; [done|]. evolve.
Qed.

(** ** Runs *)

(** The connection an event opens, and the origin it was opened for. *)
Definition opens (ev : Event) (s : Sys) : list (TransportId * Origin) :=
  match ev with
  | EResume k (RConnected (inl t)) => match tasks s !! k with Some (TConnect _ _ o) => [(t, o)] | _ => [] end
  | _ => []
  end.

Fixpoint connections (evs : list Event) (s : Sys) : list (TransportId * Origin) :=
  match evs with
  | [] => []
  | ev :: evs => opens ev s ++ match step server_name_error config ev s with Some s => connections evs s | None => [] end
  end.

(** The transports whose end an event reports. *)
Definition closes (ev : Event) : list TransportId :=
  match ev with EMsg _ (IEvent (Closed t)) | EMsg _ (IEvent (Failure t _)) => [t] | _ => [] end.

Lemma connections_snoc evs ev s s1 :
  run server_name_error config evs s = Some s1 →
  connections (evs ++ [ev]) s = connections evs s ++ opens ev s1.
Proof.
  revert s. induction evs as [|ev' evs IH]; intros s; cbn [run app connections].
  - intros [= <-]. destruct (step _ _ ev s); by rewrite app_nil_r.
  - destruct (step _ _ ev' s) as [s'|]; [|done]. cbn [mbind option_bind]. intros Hr. by rewrite (IH s' Hr), app_assoc.
Qed.

Lemma connects_app ts ts' : connects (ts ++ ts') = connects ts ++ connects ts'.
Proof. apply omap_app. Qed.

Lemma connects_delete k t ts :
  ts !! k = Some t → connects ts ≡ₚ connects (option_list (Some t)) ++ connects (delete k ts).
Proof.
  intros Hk. rewrite <-connects_app. unfold connects. apply delete_Permutation in Hk. by rewrite Hk at 1.
Qed.

(** Nothing about the pool depends on the messages under way or on dropped callers. *)
Lemma limits_meta log closed w cs g ps :
  limits log closed w cs → limits log closed (mkW (st w) g ps (outs w) (stuck w)) cs.
Proof. intros [L1 L2 L3 L4 L5 L6]. by split. Qed.

Lemma resume_limits log closed t r w w' t' cs :
  resume config t r w = Some (w', t') → limits log closed w (connects (option_list (Some t)) ++ cs) →
  limits (match t, r with TConnect _ _ _, RConnected (inl x) => [x] | _, _ => [] end ++ log) closed w'
    (cs ++ connects (option_list t')).
Proof.
  intros Hr Hl. destruct t, r as [r|r]; cbn [resume] in Hr; try done; apply (inj Some) in Hr; cbn [connects option_list omap list_omap app] in Hl.
  - apply (connect_done_limits log closed o r w cs) in Hl. unfold connected in Hr.
    pose proof (acquired_limits (opened r ++ log) closed s call o r _ cs Hl) as Ha.
    pose proof (acquired_calm s call o r (connect_done o r w)) as Hc. rewrite Hr in Ha, Hc. cbn in Ha, Hc.
    rewrite calm_connects, app_nil_r by done. by destruct r.
  - injection Hr as <- <-. rewrite app_nil_r. unfold started. destruct r as [e|].
    + eapply limits_pool; [apply reply_pool|]. by apply cancel_limits.
    + destruct (negb _); [by apply cancel_limits|]. eapply limits_pool; [apply reply_pool|]. eapply limits_pool, Hl.
      repeat case_match; try done; apply post_pool.
  - pose proof (pause_transport_pool pause (reply p (sent r) w)) as Hp. pose proof (pause_transport_calm pause (reply p (sent r) w)) as Hc.
    rewrite Hr in Hp, Hc. cbn in Hp, Hc. rewrite calm_connects, app_nil_r by done. eapply limits_pool, Hl. etrans; [apply reply_pool|done].
  - injection Hr as <- <-. rewrite app_nil_r. eapply limits_pool, Hl. apply reply_pool.
  - injection Hr as <- <-. rewrite app_nil_r. destruct r; [by apply cancel_limits|done].
  - injection Hr as <- <-. rewrite app_nil_r. unfold resumed. apply next_finish_limits. destruct r; [by apply cancel_limits|done].
Qed.

Lemma step_limits ev s s' log closed :
  step server_name_error config ev s = Some s' →
  limits log closed (world s) (connects (tasks s)) →
  limits ((opens ev s).*1 ++ log) (closes ev ++ closed) (world s') (connects (tasks s')).
Proof.
  intros Hs Hl. destruct ev as [p i|k|k r|token]; cbn [step] in Hs.
  - assert (Ha : limits_after log (closes (EMsg p i) ++ closed) (dispatch server_name_error config p i (world s)) (connects (tasks s))).
    { destruct i as [[t data|t|t reason|]|c|]; cbn [dispatch on_transport closes app].
      - by apply on_data_limits.
      - by apply on_closed_limits.
      - by apply on_closed_limits.
      - by apply limits_calm.
      - by apply on_command_limits.
      - apply limits_calm; [done|]. cbn [fst]. case_decide; [done|]. eapply limits_pool, Hl. apply emit_pool. }
    unfold limits_after in Ha. destruct (dispatch _ _ p i (world s)) as [w t]. injection Hs as <-. cbn. by rewrite connects_app.
  - apply bind_Some in Hs as ([ms c] & Hk & Hs).
    set (w0 := mkW _ _ _ _ _) in Hs. pose proof (on_command_limits log closed self c w0 (connects (tasks s))) as Ha.
    destruct (on_command _ _ self c w0) as [w t]. injection Hs as <-. cbn. rewrite connects_app. apply Ha. by apply limits_meta.
  - apply bind_Some in Hs as (t & Hk & Hs). apply bind_Some in Hs as ([w t'] & Hr & Hs). injection Hs as <-.
    cbn [world tasks closes app]. rewrite connects_app.
    eapply (resume_limits log closed t r (world s) w t' (connects (delete k (tasks s)))) in Hr.
    + unfold opens. rewrite Hk. destruct t, r as [[]|]; done.
    + eapply limits_perm, Hl. by apply connects_delete.
  - injection Hs as <-. cbn. by apply limits_meta.
Qed.

Definition sane : Prop := 0 ≤ max_connections config ∧ 0 ≤ max_connections_per_origin config.

Lemma run_limits evs s :
  sane → run server_name_error config evs sys_new = Some s →
  limits (connections evs sys_new).*1 (evs ≫= closes) (world s) (connects (tasks s)).
Proof.
  intros [Hm Hp] Hr. revert evs s Hr. apply client_run_invariant.
  - split; cbn; try done; set_solver.
  - intros evs ev s s' Hr Hl Hs. rewrite (connections_snoc _ _ _ _ Hr), fmap_app, bind_app. cbn [mbind list_bind]. rewrite app_nil_r.
    pose proof (step_limits ev s s' _ _ Hs Hl) as H'. eapply limits_more; [| |exact H']; set_solver.
Qed.

(** The client keeps its limits: over any sequence of commands, transport events, timers
    and results, the connections that are open (established, not shut down by the client
    and not reported closed) plus the attempts under way are at most
    [max_connections], and those of one origin at most [max_connections_per_origin]. *)
Theorem connections_bounded evs s :
  0 ≤ max_connections config → 0 ≤ max_connections_per_origin config →
  run server_name_error config evs sys_new = Some s →
  (∀ t, t ∈ (connections evs sys_new).*1 → OShutdown t ∉ outs (world s) → t ∉ evs ≫= closes →
        is_Some (origins (st (world s)) !! t))
  ∧ Z.of_nat (size (origins (st (world s)))) + Z.of_nat (length (connects (tasks s))) ≤ max_connections config
  ∧ ∀ o, Z.of_nat (size (filter (λ kv, kv.2 = o) (origins (st (world s))))) + count o (connects (tasks s))
         ≤ max_connections_per_origin config.
Proof.
  intros Hm Hp Hr. destruct (run_limits evs s (conj Hm Hp) Hr) as [L1 L2 L3 L4 L5 L6]. split_and!; [done|..].
  - unfold total_connections in L4. lia.
  - intros o. specialize (L5 o). specialize (L1 o). unfold same_connections in L5. lia.
Qed.

(** ** One exchange per connection *)

Definition idles (o : Origin) (w : W) : list TransportId := default [] (idle (st w) !! o).

(** The connections that suspended handlers will put back. *)
Definition cleanups (ts : list Task) : list (Z * (TransportId * Origin)) :=
  omap (λ t, match t with TResume id _ _ (Some (t, o, _)) => Some (id, (t, o)) | _ => None end) ts.

(** [log] are the connections opened so far, [n] bounds the numbers given out. *)
Record exclusive (n : Z) (log : list (TransportId * Origin)) (w : W) (cl : list (Z * (TransportId * Origin))) : Prop := {
  ex_next : 0 ≤ next_id (st w) ≤ n;
  ex_ids : ∀ id e, exchanges (st w) !! id = Some e → 1 ≤ id ≤ next_id (st w) ∧ (transport e, origin e) ∈ log ∧ tidy e;
  ex_idle_log : ∀ o t, t ∈ idles o w → (t, o) ∈ log;
  ex_cl_log : ∀ id t o, (id, (t, o)) ∈ cl → 1 ≤ id ≤ next_id (st w) ∧ (t, o) ∈ log;
  ex_active : ∀ t id, active (st w) !! t = Some id → ∃ e, exchanges (st w) !! id = Some e ∧ transport e = t;
  ex_inj : ∀ id id' e e', exchanges (st w) !! id = Some e → exchanges (st w) !! id' = Some e' →
    transport e = transport e' → id = id';
  ex_serving : ∀ id e o, exchanges (st w) !! id = Some e → transport e ∉ idles o w;
  ex_nodup : ∀ o, NoDup (idles o w);
  ex_cl_idle : ∀ id t o o', (id, (t, o)) ∈ cl → t ∉ idles o' w;
  ex_cl_x : ∀ id t o id' e, (id, (t, o)) ∈ cl → exchanges (st w) !! id' = Some e → transport e = t → id' = id;
  ex_cl_settled : ∀ id t o e, (id, (t, o)) ∈ cl → exchanges (st w) !! id = Some e → settled e ∧ transport e = t;
  ex_cl_nodup : NoDup cl.*2.*1;
}.

Lemma same_pool_back w w' id e' :
  same_pool w w' → exchanges (st w') !! id = Some e' → ∃ e, exchanges (st w) !! id = Some e ∧ evolves e e'.
Proof. intros Hp He. pose proof (sp_exchanges _ _ Hp id) as Hx. rewrite He in Hx. inversion Hx; subst. eauto. Qed.

Lemma exclusive_pool n log w w' cl : same_pool w w' → exclusive n log w cl → exclusive n log w' cl.
Proof.
  intros Hp [X1 X2 X3 X4 X5 X6 X7 X8 X9 X10 X11 X12].
  assert (Hi : ∀ o, idles o w' = idles o w) by (intros o; unfold idles; by rewrite (sp_idle _ _ Hp)).
  pose proof (sp_next _ _ Hp) as Hn. pose proof (sp_active _ _ Hp) as Ha. pose proof (same_pool_back w w') as Hb.
  split; rewrite ?Hn, ?Ha; try done.
  - intros id e' He'. destruct (Hb _ _ Hp He') as (e & He & -> & -> & _ & Hy). destruct (X2 id e He) as (?&?&?). auto.
  - intros o t. rewrite Hi. apply X3.
  - intros t id Ht. destruct (X5 t id Ht) as (e & He & Hte). pose proof (sp_exchanges _ _ Hp id) as Hx. rewrite He in Hx.
    inversion Hx as [? e' (Hev & _) |]; subst. exists e'. split; congruence.
  - intros id id' e1 e1' H1 H1' Ht. destruct (Hb _ _ Hp H1) as (e2 & H2 & E2 & _), (Hb _ _ Hp H1') as (e2' & H2' & E2' & _).
    eapply X6; [done..|congruence].
  - intros id e' o He'. destruct (Hb _ _ Hp He') as (e & He & -> & _). rewrite Hi. by eapply X7.
  - intros o. by rewrite Hi.
  - intros id t o o'. rewrite Hi. apply X9.
  - intros id t o id' e' Hc He'. destruct (Hb _ _ Hp He') as (e & He & -> & _). by eapply X10.
  - intros id t o e' Hc He'. destruct (Hb _ _ Hp He') as (e & He & -> & _ & Hs & _). destruct (X11 id t o e Hc He). auto.
Qed.

(** Exchanges, pool and suspended handlers only lose. *)
Lemma exclusive_shrink n log w w' cl cl' :
  next_id (st w') = next_id (st w) → exchanges (st w') ⊆ exchanges (st w) →
  (∀ o, sublist (idles o w') (idles o w)) →
  (∀ t id, active (st w') !! t = Some id → active (st w) !! t = Some id ∧ exchanges (st w') !! id = exchanges (st w) !! id) →
  cl' ⊆+ cl → exclusive n log w cl → exclusive n log w' cl'.
Proof.
  intros Hn Hx Hi Ha Hc [X1 X2 X3 X4 X5 X6 X7 X8 X9 X10 X11 X12].
  assert (Hl : ∀ id e, exchanges (st w') !! id = Some e → exchanges (st w) !! id = Some e) by (intros ???; by eapply lookup_weaken).
  assert (Hil : ∀ o t, t ∈ idles o w' → t ∈ idles o w) by (intros o t Ht; eapply elem_of_sublist; [exact Ht|apply Hi]).
  assert (Hcl : ∀ c, c ∈ cl' → c ∈ cl) by (intros c Hc'; by eapply elem_of_submseteq).
  split; rewrite ?Hn; try done.
  - intros id e He. apply X2; auto.
  - intros o t Ht. apply X3; auto.
  - intros id t o Hct. eapply X4; eauto.
  - intros t id Ht. destruct (Ha t id Ht) as [Ht' He]. rewrite He. by apply X5.
  - intros id id' e e' H1 H2. eapply X6; eauto.
  - intros id e o He Hin. eapply X7; eauto.
  - intros o. eapply sublist_NoDup; [apply X8|apply Hi].
  - intros id t o o' Hct Hin. eapply X9; eauto.
  - intros id t o id' e Hct He. eapply X10; eauto.
  - intros id t o e Hct He. eapply X11; eauto.
  - apply submseteq_Permutation in Hc as [r Hr]. rewrite Hr, !fmap_app in X12. by apply NoDup_app in X12 as [? _].
Qed.

Lemma idles_filter t o w : idles o (forget_transport t w) = filter (λ x, x ≠ t) (idles o w).
Proof. unfold idles. cbn. rewrite lookup_fmap. by destruct (idle (st w) !! o). Qed.

(** Closing a transport that no remaining exchange uses. *)
Lemma forget_exclusive n log t w cl : exclusive n log w cl → exclusive n log (forget_transport t w) cl.
Proof.
  intros He. eapply exclusive_shrink, He; cbn; try done.
  - intros o. rewrite idles_filter. apply sublist_filter.
  - intros t' id. rewrite lookup_delete_Some. tauto.
Qed.

Lemma drop_exclusive n log t w cl : exclusive n log w cl → exclusive n log (forget_transport t (shutdown t w)) cl.
Proof. intros He. apply forget_exclusive. eapply exclusive_pool, He. apply emit_pool. Qed.

(** An exchange ends and its transport is closed. *)
Lemma remove_exclusive n log id e w cl :
  exchanges (st w) !! id = Some e → exclusive n log w cl →
  exclusive n log (forget_transport (transport e) (shutdown (transport e) (on_st (λ s, set_exchanges (delete id (exchanges s)) s) w))) cl.
Proof.
  intros He Hx. eapply exclusive_shrink, Hx; cbn; try done.
  - apply delete_subseteq.
  - intros o. rewrite idles_filter. apply sublist_filter.
  - intros t id'. rewrite lookup_delete_Some. intros [Hne Ha]. split; [done|]. destruct (ex_active _ _ _ _ Hx t id' Ha) as (e' & He' & Ht).
    rewrite lookup_delete_ne; [done|]. intros ->. congruence.
Qed.

Lemma cancel_exclusive n log id w cl : exclusive n log w cl → exclusive n log (cancel config id w) cl.
Proof.
  intros Hx. unfold cancel. destruct (exchanges (st w) !! id) as [e|] eqn:He; [|done]. cbv zeta.
  eapply exclusive_pool; [apply wake_queued_pool|].
  eapply exclusive_pool; [|exact (remove_exclusive n log id e w cl He Hx)].
  assert (Hc : ∀ p w, same_pool w (match p with Some p => reply p (AFailed Canceled) w | None => w end)).
  { intros [p|] w'; [apply reply_pool|done]. }
  etrans; [|apply Hc]. etrans; [|apply Hc]. etrans; [|apply Hc]. by split.
Qed.

Lemma delete_exchange_pool id w w' :
  same_pool w w' →
  same_pool (on_st (λ s, set_exchanges (delete id (exchanges s)) s) w) (on_st (λ s, set_exchanges (delete id (exchanges s)) s) w').
Proof.
  intros [O C A I N E S]. split; cbn; try done. intros i. destruct (decide (i = id)) as [->|].
  - rewrite !lookup_delete_eq. constructor.
  - by rewrite !lookup_delete_ne.
Qed.

(** The exchange of a connection under clean-up, if it is still there, uses it. *)
Lemma cleaning_active n log w id t o cl t' id' :
  exclusive n log w ((id, (t, o)) :: cl) → t' ≠ t → active (st w) !! t' = Some id' → id' ≠ id.
Proof.
  intros Hx Hne Ha ->. destruct (ex_active _ _ _ _ Hx t' id Ha) as (e & He & Ht).
  destruct (ex_cl_settled _ _ _ _ Hx id t o e) as [_ ?]; [left|done|congruence].
Qed.

(** A connection goes back to the pool. *)
Lemma push_exclusive n log w w' id t o cl :
  next_id (st w') = next_id (st w) → exchanges (st w') = delete id (exchanges (st w)) →
  active (st w') = delete t (active (st w)) → (∀ o', idles o' w' = idles o' w ++ if decide (o' = o) then [t] else []) →
  exclusive n log w ((id, (t, o)) :: cl) → exclusive n log w' cl.
Proof.
  intros Hn Hd Ha Hi Hx. pose proof (λ t' id', cleaning_active n log w id t o cl t' id' Hx) as Hca.
  destruct Hx as [X1 X2 X3 X4 X5 X6 X7 X8 X9 X10 X11 X12].
  assert (Hin : ∀ o' x, x ∈ idles o' w' → x ∈ idles o' w ∨ (x = t ∧ o' = o)).
  { intros o' x. rewrite Hi, elem_of_app. case_decide; set_solver. }
  cbn in X12. apply NoDup_cons in X12 as [Hnt X12].
  assert (Hx' : ∀ i e, exchanges (st w') !! i = Some e → exchanges (st w) !! i = Some e ∧ transport e ≠ t).
  { rewrite Hd. intros i e [Hne He]%lookup_delete_Some. split; [done|]. intros Ht. apply Hne. symmetry. eapply X10; [left|done..]. }
  assert (Hcl : ∀ i t' o', (i, (t', o')) ∈ cl → t' ≠ t).
  { intros i t' o' Hc ->. apply Hnt. apply list_elem_of_fmap. exists (t, o'). split; [done|].
    apply list_elem_of_fmap. by exists (i, (t, o')). }
  split; rewrite ?Hn; try done.
  - intros i e [He _]%Hx'. by apply X2.
  - intros o' x [?|[-> ->]]%Hin; [by apply X3|]. by destruct (X4 id t o (list_elem_of_here _ _)).
  - intros i t' o' Hc. apply X4. by right.
  - rewrite Ha. intros t' i [Hne Ht]%lookup_delete_Some. destruct (X5 t' i Ht) as (e & He & Hte). exists e. split; [|done].
    rewrite Hd, lookup_delete_ne; [done|]. intros <-. by eapply Hca.
  - intros i i' e e' [He _]%Hx' [He' _]%Hx'. by eapply X6.
  - intros i e o' [He Hne]%Hx' [?|[? _]]%Hin; [by eapply X7|done].
  - intros o'. rewrite Hi. apply NoDup_app. split_and!; [done| |case_decide; repeat constructor; set_solver].
    intros x Hx1 Hx2. case_decide; [|set_solver]. apply list_elem_of_singleton in Hx2 as ->. by eapply X9; [left|].
  - intros i t' o1 o2 Hc [?|[? _]]%Hin; [eapply X9; [by right|done]|by eapply Hcl].
  - intros i t' o' i' e Hc [He _]%Hx'. eapply X10; [by right|done].
  - intros i t' o' e Hc [He _]%Hx'. eapply X11; [by right|done].
Qed.

Lemma recycled_exclusive n log w id t o b cl :
  exclusive n log w ((id, (t, o)) :: cl) →
  exclusive n log (on_st (λ s, set_exchanges (delete id (exchanges s)) s) (recycle config t o b w)) cl.
Proof.
  intros Hx. pose proof (λ t' id', cleaning_active n log w id t o cl t' id' Hx) as Hca. unfold recycle. cbv zeta.
  set (w1 := on_st (λ s, set_active (delete t (active s)) s) w).
  assert (Hdrop : exclusive n log (on_st (λ s, set_exchanges (delete id (exchanges s)) s)
                    (wake_queued config (forget_transport t (shutdown t w1)))) cl).
  { eapply exclusive_pool; [apply delete_exchange_pool, wake_queued_pool|]. eapply exclusive_shrink, Hx; cbn; try done.
    - apply delete_subseteq.
    - intros o'. pose proof (idles_filter t o' w1) as Hf. unfold idles in *. cbn in *. rewrite Hf. apply sublist_filter.
    - intros t' id'. rewrite delete_delete_eq, lookup_delete_Some. intros [Hne Ha]. split; [done|]. rewrite lookup_delete_ne; [done|].
      intros <-. by eapply Hca.
    - by apply submseteq_cons. }
  destruct (negb b); [exact Hdrop|]. case_decide; [exact Hdrop|].
  eapply exclusive_pool; [apply delete_exchange_pool, wake_queued_pool|].
  eapply push_exclusive, Hx; cbn; try done. intros o'. unfold idles. cbn. destruct (decide (o' = o)) as [->|].
  - by rewrite lookup_insert_eq.
  - by rewrite lookup_insert_ne, app_nil_r.
Qed.

Definition cleaning (id : Z) (cleanup : option (TransportId * Origin * bool)) : list (Z * (TransportId * Origin)) :=
  match cleanup with Some (t, o, _) => [(id, (t, o))] | None => [] end.

Lemma next_finish_exclusive n log w id p answer cleanup cl :
  exclusive n log w (cleaning id cleanup ++ cl) → exclusive n log (next_finish config id p answer cleanup w) cl.
Proof.
  intros Hx. unfold next_finish. set (w1 := match answer with Some a => reply p a w | None => w end).
  assert (H1 : exclusive n log w1 (cleaning id cleanup ++ cl)).
  { unfold w1. destruct answer; [|done]. eapply exclusive_pool, Hx. apply reply_pool. }
  clearbody w1. destruct cleanup as [[[t o] b]|]; [by apply recycled_exclusive|]. eapply exclusive_pool, H1. apply post_pool.
Qed.

(** The end of a body is handed out: its connection is to be put back, once. *)
Lemma settle_exclusive n log w id e e' b cl :
  exchanges (st w) !! id = Some e → evolves e e' → reusable e = Some b → reusable e' = None → proto e' = proto e →
  exclusive n log w cl → exclusive n log (put_exchange id e' w) ((id, (transport e, origin e)) :: cl).
Proof.
  intros He Hev Hr Hr' Hp' Hx. destruct (ex_ids _ _ _ _ Hx id e He) as (Hid & Hlog & Hty).
  assert (Hun : ¬ settled e) by (intros [? _]; congruence).
  assert (Hse : settled e').
  { split; [done|]. rewrite Hp'. destruct Hty as [?|?]; [congruence|done]. }
  assert (Hcl : ∀ i t o, (i, (t, o)) ∈ cl → t ≠ transport e).
  { intros i t o Hc ->. assert (id = i) as -> by (by eapply (ex_cl_x _ _ _ _ Hx)). apply Hun. by eapply (ex_cl_settled _ _ _ _ Hx). }
  destruct (exclusive_pool n log w (put_exchange id e' w) cl (put_exchange_pool id e e' w He Hev) Hx)
    as [X1 X2 X3 X4 X5 X6 X7 X8 X9 X10 X11 X12].
  assert (He' : exchanges (st (put_exchange id e' w)) !! id = Some e') by apply lookup_insert_eq.
  destruct Hev as (Ht & Ho & _). split; try done.
  - intros i t o [[= -> -> ->]|Hc]%elem_of_cons; [by cbn|by apply X4].
  - intros i t o o' [[= -> -> ->]|Hc]%elem_of_cons; [rewrite <-Ht; by eapply X7|by eapply X9].
  - intros i t o i' e1 [[= -> -> ->]|Hc]%elem_of_cons Hi Htr; [|by eapply X10]. eapply X6; [done..|congruence].
  - intros i t o e1 [[= -> -> ->]|Hc]%elem_of_cons Hi; [|by eapply X11]. rewrite He' in Hi. injection Hi as <-. done.
  - cbn. apply NoDup_cons. split; [|done]. intros ([t o] & Ht' & ([i ?] & [= <-] & Hc)%list_elem_of_fmap)%list_elem_of_fmap.
    by eapply Hcl.
Qed.

Lemma next_body_exclusive n log p id w cl :
  exclusive n log w cl → exclusive n log (next_body config p id w).1 (cl ++ cleanups (option_list (next_body config p id w).2)).
Proof.
  intros Hx. destruct (next_body_shape p id w) as [[_ ->]|(e & e' & a & cu & He & Hev & Hcu & Hnb)].
  - cbn. rewrite app_nil_r. eapply exclusive_pool, Hx. apply reply_pool.
  - assert (Hput : exclusive n log (put_exchange id e' w) (cleaning id cu ++ cl)).
    { destruct cu as [[[t o] b]|]; cbn.
      - destruct (Hcu t o b eq_refl) as (-> & -> & Hr & Hr' & Hp & _). by eapply settle_exclusive.
      - eapply exclusive_pool, Hx. by eapply put_exchange_pool. }
    destruct Hnb as [-> | ->]; cbn.
    + eapply exclusive_pool; [apply emit_pool|]. eapply exclusive_shrink, Hput; try done.
      rewrite Permutation_app_comm. destruct cu as [[[t o] b]|]; done.
    + rewrite app_nil_r. by apply next_finish_exclusive.
Qed.

Lemma idle_timeout_exclusive n log t g w cl : exclusive n log w cl → exclusive n log (idle_timeout config t g w) cl.
Proof.
  intros Hx. unfold idle_timeout. case_decide; [done|]. cbv zeta.
  set (w1 := on_st (λ s, set_idle (filter (λ x, x ≠ t) <$> idle s) s) w).
  assert (H1 : exclusive n log w1 cl).
  { eapply exclusive_shrink, Hx; cbn; try done. intros o. unfold idles. cbn. rewrite lookup_fmap.
    destruct (idle (st w) !! o); cbn; [apply sublist_filter|done]. }
  clearbody w1. destruct (map_fold _ _ _); [|done]. eapply exclusive_pool; [apply wake_queued_pool|]. apply drop_exclusive.
  by eapply exclusive_shrink, H1.
Qed.

(** A connection nobody holds. *)
Record spare (log : list (TransportId * Origin)) (t : TransportId) (o : Origin) (w : W) (cl : list (Z * (TransportId * Origin))) : Prop := {
  spa_log : (t, o) ∈ log;
  spa_idle : ∀ o', t ∉ idles o' w;
  spa_exchanges : ∀ id e, exchanges (st w) !! id = Some e → transport e ≠ t;
  spa_cleanups : ∀ id o', (id, (t, o')) ∉ cl;
}.

Lemma next_number n log w cl : exclusive n log w cl → n < U64_MAX → Z.max 1 (next_id (st w) +w 1) = next_id (st w) + 1.
Proof. intros Hx Hn. pose proof (ex_next _ _ _ _ Hx). rewrite wrapping_add_small by (unfold U64_MAX in Hn; lia). lia. Qed.

Lemma exclusive_mono n n' log w cl : n ≤ n' → exclusive n log w cl → exclusive n' log w cl.
Proof. intros Hle [X1 X2 X3 X4 X5 X6 X7 X8 X9 X10 X11 X12]. split; try done. lia. Qed.

(** A new exchange on a spare connection. *)
Lemma serve_exclusive n log w w' t o id e cl :
  exclusive n log w cl → spare log t o w cl → transport e = t → origin e = o → tidy e →
  id = next_id (st w) + 1 → next_id (st w') = id → exchanges (st w') = <[id := e]> (exchanges (st w)) →
  active (st w') = <[t := id]> (active (st w)) → idle (st w') = idle (st w) →
  exclusive (n + 1) log w' cl.
Proof.
  intros [X1 X2 X3 X4 X5 X6 X7 X8 X9 X10 X11 X12] [S1 S2 S3 S4] Ht Ho Hty Hid Hn Hex Ha Hi.
  assert (Hidl : ∀ o', idles o' w' = idles o' w) by (intros o'; unfold idles; by rewrite Hi).
  assert (Hnew : exchanges (st w) !! id = None).
  { destruct (exchanges (st w) !! id) as [e0|] eqn:E; [|done]. apply X2 in E as [? _]. lia. }
  assert (Hx' : ∀ i e1, exchanges (st w') !! i = Some e1 → (i = id ∧ e1 = e) ∨ (exchanges (st w) !! i = Some e1 ∧ i ≠ id)).
  { rewrite Hex. intros i e1 [[<- <-]|[? ?]]%lookup_insert_Some; auto. }
  split; rewrite ?Hn; try done.
  - lia.
  - intros i e1 [[-> ->]|[He _]]%Hx'; [split_and!; [lia|lia|congruence|done]|]. destruct (X2 i e1 He) as (?&?&?). split_and!; [lia|lia|done|done].
  - intros o' x. rewrite Hidl. apply X3.
  - intros i t' o' Hc. destruct (X4 i t' o' Hc). split; [lia|done].
  - rewrite Ha, Hex. intros x i [[<- <-]|[Hne Hx]]%lookup_insert_Some; [exists e; by rewrite lookup_insert_eq|].
    destruct (X5 x i Hx) as (e1 & He1 & ?). exists e1. rewrite lookup_insert_ne by congruence. done.
  - intros i i' e1 e2 [[-> ->]|[H1 H1']]%Hx' [[-> ->]|[H2 H2']]%Hx' Heq; [done|..|by eapply X6].
    + destruct (S3 i' e2 H2). congruence.
    + destruct (S3 i e1 H1). congruence.
  - intros i e1 o' [[-> ->]|[H1 _]]%Hx'; rewrite Hidl; [rewrite Ht; apply S2|by eapply X7].
  - intros o'. by rewrite Hidl.
  - intros i t' o1 o2. rewrite Hidl. apply X9.
  - intros i t' o' i' e1 Hc [[-> ->]|[H1 _]]%Hx' Htr; [|by eapply X10]. subst t'. rewrite Ht in Hc. by destruct (S4 i o').
  - intros i t' o' e1 Hc [[-> ->]|[H1 _]]%Hx'; [|by eapply X11]. destruct (X4 id t' o' Hc). lia.
Qed.

Lemma calm_cleanups t : calm t → cleanups (option_list t) = [].
Proof. by destruct t as [[| | | | |? ? ? []]|]. Qed.

Lemma acquired_exclusive n log x call o r w cl :
  n < U64_MAX → exclusive n log w cl → (∀ t, r = inl t → spare log t o w cl) →
  exclusive (n + 1) log (acquired config x call o r w).1 cl.
Proof.
  intros Hn Hx Hs.
  assert (Hm : ∀ w', exclusive n log w' cl → exclusive (n + 1) log w' cl) by (intros w'; apply exclusive_mono; lia).
  unfold acquired. destruct r as [t|e].
  - specialize (Hs t eq_refl). destruct (negb _).
    { cbn [fst]. apply Hm. eapply exclusive_pool; [apply wake_queued_pool|]. by apply drop_exclusive. }
    destruct (serialize_request _ _) as [[[data p]|e]|]; cbn [fst].
    + cbv zeta. eapply exclusive_pool; [apply emit_pool|]. rewrite (next_number n log w cl Hx Hn).
      eapply (serve_exclusive n log w _ t o (next_id (st w) + 1) (new_exchange t o p (r_body (s_request x)))); try done. by left.
    + apply Hm. eapply exclusive_pool; [apply wake_queued_pool|]. eapply exclusive_pool; [apply reply_pool|]. by apply drop_exclusive.
    + apply Hm. eapply exclusive_pool, Hx. apply panic_pool.
  - cbn [fst]. apply Hm. eapply exclusive_pool; [apply wake_queued_pool|]. eapply exclusive_pool, Hx. apply reply_pool.
Qed.

(** Only the counters of attempts change. *)
Lemma exclusive_counters n log w w' cl :
  next_id (st w') = next_id (st w) → exchanges (st w') = exchanges (st w) → active (st w') = active (st w) →
  idle (st w') = idle (st w) → exclusive n log w cl → exclusive n log w' cl.
Proof.
  intros Hn He Ha Hi. apply exclusive_shrink; [done|by rewrite He| | |done].
  - intros o. unfold idles. by rewrite Hi.
  - intros t id. by rewrite Ha, He.
Qed.

Lemma connect_done_exclusive n log o r w cl : exclusive n log w cl → exclusive n log (connect_done o r w) cl.
Proof.
  apply exclusive_counters; unfold connect_done; destruct (connecting (st w) !! o); destruct r; try case_decide; done.
Qed.

(** A connection is opened for one origin. *)
Lemma log_origin (log : list (TransportId * Origin)) t o o' : NoDup log.*1 → (t, o) ∈ log → (t, o') ∈ log → o = o'.
Proof.
  intros Hnd H1 H2. apply list_elem_of_lookup in H1 as [i Hi], H2 as [j Hj].
  assert (i = j) as <-; [|congruence]. eapply NoDup_lookup; [exact Hnd|..]; rewrite list_lookup_fmap; [rewrite Hi|rewrite Hj]; done.
Qed.

Lemma acquire_exclusive n log x call o w cl :
  n < U64_MAX → NoDup log.*1 → exclusive n log w cl →
  exclusive (n + 1) log (acquire server_name_error config x call o w).1 cl.
Proof.
  intros Hn Hlog Hx. unfold acquire.
  assert (Hnew : exclusive (n + 1) log
      (let w := on_st (λ s, set_connecting (<[o := default 0 (connecting s !! o) + 1]> (connecting s)) s) w in
       match o_scheme o, server_name_error (o_host o) with
       | Https, Some e => acquired config x call o (inr (Tls e)) (connect_done o (inr (Tls e)) w)
       | _, _ => (emit (OConnect o (address o)) w, Some (TConnect x call o))
       end).1 cl).
  { cbv zeta. set (w1 := on_st _ w). assert (H1 : exclusive n log w1 cl) by (by eapply exclusive_counters, Hx). clearbody w1.
    assert (Hc : exclusive (n + 1) log (emit (OConnect o (address o)) w1) cl).
    { eapply exclusive_mono; [|eapply exclusive_pool; [apply emit_pool|exact H1]]. lia. }
    destruct (o_scheme o); [done|]. destruct (server_name_error (o_host o)) as [e|]; [|done].
    apply acquired_exclusive; [done|by apply connect_done_exclusive|done]. }
  destruct (idle (st w) !! o) as [[|t rest]|] eqn:Hi; [exact Hnew| |exact Hnew].
  assert (Hidl : idles o w = t :: rest) by (unfold idles; by rewrite Hi).
  pose proof (ex_nodup _ _ _ _ Hx o) as Hnd. rewrite Hidl in Hnd. apply NoDup_cons in Hnd as [Hnt Hnd].
  assert (Htl : (t, o) ∈ log) by (apply (ex_idle_log _ _ _ _ Hx); rewrite Hidl; left).
  set (w2 := on_st _ (on_st _ w)).
  assert (Hi2 : ∀ o', idles o' w2 = if decide (o' = o) then rest else idles o' w).
  { intros o'. unfold idles, w2. cbn. case_decide; [subst; by rewrite lookup_insert_eq|by rewrite lookup_insert_ne]. }
  apply acquired_exclusive; [done| |].
  - eapply exclusive_shrink, Hx; cbn; try done. intros o'. rewrite Hi2. case_decide; [|done]. subst. rewrite Hidl. by constructor.
  - intros t' [= <-]. split; [done|..].
    + intros o'. rewrite Hi2. case_decide as E; [done|]. intros Hin%(ex_idle_log _ _ _ _ Hx). apply E. by eapply log_origin.
    + intros id e He <-. eapply (ex_serving _ _ _ _ Hx id e o He). rewrite Hidl. left.
    + intros id o' Hc. eapply (ex_cl_idle _ _ _ _ Hx id t o' o Hc). rewrite Hidl. left.
Qed.

Lemma start_exchange_exclusive n log x w cl :
  n < U64_MAX → NoDup log.*1 → exclusive n log w cl →
  exclusive (n + 1) log (start_exchange server_name_error config x w).1 cl.
Proof.
  intros Hn Hlog Hx. unfold start_exchange. cbv zeta.
  assert (Hm : ∀ w', same_pool w w' → exclusive (n + 1) log w' cl).
  { intros w' Hw. eapply exclusive_mono, exclusive_pool, Hx; [lia|done]. }
  assert (Hr : ∀ e, exclusive (n + 1) log (wake_queued config (reply (s_pending x) (AFailed e) w)) cl).
  { intros e. apply Hm. etrans; [apply reply_pool|apply wake_queued_pool]. }
  destruct (negb _); [apply Hm, wake_queued_pool|]. destruct (from_uri _) as [o|e]; [|apply Hr].
  destruct (should_queue config o (st w)); [by apply Hm, on_st_pool|].
  destruct (apply_body_headers _ _) as [h|e]; [|apply Hr]. destruct (call_new _ _ _); [by apply acquire_exclusive|apply Hr].
Qed.

Lemma start_exchange_cleanups x w : cleanups (option_list (start_exchange server_name_error config x w).2) = [].
Proof.
  assert (Ha : ∀ call o w, cleanups (option_list (acquire server_name_error config x call o w).2) = []).
  { intros call o w'. unfold acquire.
    destruct (idle (st w') !! o) as [[|t rest]|]; [| |]; try (apply calm_cleanups, acquired_calm);
      cbv zeta; destruct (o_scheme o), (server_name_error (o_host o)); try done; apply calm_cleanups, acquired_calm. }
  unfold start_exchange. cbv zeta. repeat case_match; try done; apply Ha.
Qed.

(** What a handler leaves behind, with its suspended rest. *)
Definition exclusive_after n log (wt : W * option Task) cl : Prop :=
  exclusive n log wt.1 (cl ++ cleanups (option_list wt.2)).

Lemma exclusive_calm n log wt cl : calm wt.2 → exclusive n log wt.1 cl → exclusive_after n log wt cl.
Proof. intros Hc Hl. unfold exclusive_after. by rewrite calm_cleanups, app_nil_r. Qed.

Lemma wait_timeout_exclusive n log id session body w cl :
  exclusive n log w cl → exclusive n log (wait_timeout config id session body w) cl.
Proof.
  intros Hl. unfold wait_timeout. destruct (exchanges (st w) !! id) as [e|] eqn:He; [|done].
  destruct (if body then body_waiter e else response_waiter e) as [p|]; [|done]. case_decide; [|done].
  apply cancel_exclusive. eapply exclusive_pool; [apply reply_pool|]. eapply exclusive_pool, Hl.
  eapply put_exchange_pool; [done|]. by destruct body.
Qed.

Lemma cancel_start_exclusive n log token w cl :
  exclusive n log w cl → exclusive n log (cancel_start config token w) cl.
Proof.
  intros Hl. unfold cancel_start. cbv zeta.
  match goal with |- exclusive _ _ (match _ with Some id => cancel _ id ?w1 | None => _ end) _ =>
    assert (H1 : exclusive n log w1 cl); [|set (w2 := w1) in *; clearbody w2] end.
  { by eapply exclusive_counters, Hl. }
  destruct (start_tokens (st w) !! token); [by apply cancel_exclusive|]. eapply exclusive_pool, H1. apply wake_queued_pool.
Qed.

Lemma on_command_exclusive n log p c w cl :
  n < U64_MAX → NoDup log.*1 → exclusive n log w cl →
  exclusive_after (n + 1) log (on_command server_name_error config p c w) cl.
Proof.
  intros Hn Hlog Hx.
  assert (Hm : ∀ wt, exclusive_after n log wt cl → exclusive_after (n + 1) log wt cl) by (intros wt; apply exclusive_mono; lia).
  assert (Hs : ∀ x, exclusive_after (n + 1) log (start_exchange server_name_error config x w) cl).
  { intros x. unfold exclusive_after. rewrite start_exchange_cleanups, app_nil_r. by apply start_exchange_exclusive. }
  destruct c; cbn [on_command]; try apply Hs; apply Hm.
  - apply exclusive_calm; [apply write_calm|]. eapply exclusive_pool, Hx. apply write_pool.
  - apply exclusive_calm; [apply finish_request_calm|]. eapply exclusive_pool, Hx. apply finish_request_pool.
  - apply exclusive_calm; [done|]. eapply exclusive_pool, Hx. apply wait_response_pool.
  - by apply next_body_exclusive.
  - apply exclusive_calm; [done|]. cbn [fst]. eapply exclusive_pool; [apply reply_pool|]. by apply cancel_exclusive.
  - apply exclusive_calm; [done|]. by apply cancel_start_exclusive.
  - apply exclusive_calm; [done|]. by eapply exclusive_counters, Hx.
  - apply exclusive_calm; [apply continue_timeout_calm|]. eapply exclusive_pool, Hx. apply continue_timeout_pool.
  - apply exclusive_calm; [done|]. by apply wait_timeout_exclusive.
  - apply exclusive_calm; [done|]. by apply idle_timeout_exclusive.
Qed.

Lemma on_data_exclusive n log t data w cl :
  exclusive n log w cl → exclusive_after n log (on_data config t data w) cl.
Proof.
  intros Hl. apply exclusive_calm; [apply on_data_calm|]. rewrite on_data_shape.
  destruct (active (st w) !! t) as [id|]; cbn [fst]; [|by apply drop_exclusive].
  destruct (exchanges (st w) !! id) as [e|] eqn:He; [|done]. eapply exclusive_pool; [apply drive_input_pool|].
  eapply exclusive_pool, Hl. by eapply put_exchange_pool.
Qed.

Lemma on_closed_exclusive n log t failed w cl :
  exclusive n log w cl → exclusive_after n log (on_closed config t failed w) cl.
Proof.
  intros Hl. apply exclusive_calm; [apply on_closed_calm|]. unfold on_closed. cbv zeta.
  match goal with |- exclusive _ _ (match _ with Some id => match exchanges (st ?w1) !! id with _ => _ end | None => _ end).1 _ =>
    assert (H1 : exclusive n log w1 cl); [|set (w2 := w1) in *; clearbody w2] end.
  { apply forget_exclusive. eapply exclusive_shrink, Hl; cbn; try done. intros t' id. rewrite lookup_delete_Some. tauto. }
  destruct (active (st w) !! t) as [id|]; cbn [fst]; [|eapply exclusive_pool, H1; apply wake_queued_pool].
  destruct (exchanges (st w2) !! id) as [e|] eqn:He, failed; cbn [fst]; try by apply cancel_exclusive.
  destruct (proto e) as [[| | |c|]|] eqn:Hp; try by apply cancel_exclusive.
  destruct (close_delimited c); [|by apply cancel_exclusive].
  eapply exclusive_pool; [apply drive_input_pool|]. eapply exclusive_pool, H1. eapply put_exchange_pool; [done|]. evolve.
Qed.

Lemma connected_exclusive n log x call o r w cl :
  n < U64_MAX → (∀ t, r = inl t → t ∉ log.*1) → exclusive n log w cl →
  exclusive (n + 1) (log ++ match r with inl t => [(t, o)] | inr _ => [] end) (connected config x call o r w).1 cl.
Proof.
  intros Hn Hf Hx. set (log' := log ++ _).
  assert (Hx' : exclusive n log' (connect_done o r w) cl).
  { apply connect_done_exclusive. destruct Hx as [X1 X2 X3 X4 X5 X6 X7 X8 X9 X10 X11 X12].
    split; try done; unfold log'; setoid_rewrite elem_of_app; naive_solver. }
  apply acquired_exclusive; [done..|]. intros t ->. specialize (Hf t eq_refl). unfold log' in *.
  assert (Hnl : ∀ o', (t, o') ∉ log) by (intros o' Hin; apply Hf, list_elem_of_fmap; by exists (t, o')).
  pose proof (connect_done_exclusive n log o (inl t) w cl Hx) as Hx0. split.
  - set_solver.
  - intros o' Hin%(ex_idle_log _ _ _ _ Hx0). by eapply Hnl.
  - intros id e He <-. destruct (ex_ids _ _ _ _ Hx0 id e He) as (_ & Hl & _). by eapply Hnl.
  - intros id o' Hc. destruct (ex_cl_log _ _ _ _ Hx0 id t o' Hc) as [_ Hl]. by eapply Hnl.
Qed.

Lemma connected_calm x call o r w : calm (connected config x call o r w).2.
Proof. apply acquired_calm. Qed.

Lemma resume_exclusive n log t r w w' t' cl :
  n < U64_MAX → resume config t r w = Some (w', t') →
  (∀ x call o y, t = TConnect x call o → r = RConnected (inl y) → y ∉ log.*1) →
  exclusive n log w (cleanups [t] ++ cl) →
  exclusive (n + 1) (log ++ match t, r with TConnect _ _ o, RConnected (inl y) => [(y, o)] | _, _ => [] end) w'
    (cl ++ cleanups (option_list t')).
Proof.
  intros Hn Hr Hf Hx.
  assert (Hm : ∀ w', exclusive n log w' cl → exclusive (n + 1) (log ++ []) w' (cl ++ [])).
  { intros w1. rewrite !app_nil_r. apply exclusive_mono. lia. }
  destruct t, r as [r|r]; cbn [resume] in Hr; try done; apply (inj Some) in Hr; cbn [cleanups omap list_omap app] in Hx.
  - pose proof (connected_exclusive n log s call o r w cl Hn ltac:(intros; subst; by eapply Hf) Hx) as Ha.
    pose proof (connected_calm s call o r w) as Hc. rewrite Hr in Ha, Hc. cbn in Ha, Hc.
    rewrite calm_cleanups, app_nil_r by done. by destruct r.
  - injection Hr as <- <-. apply Hm. unfold started. destruct r as [e|].
    + eapply exclusive_pool; [apply reply_pool|]. by apply cancel_exclusive.
    + destruct (negb _); [by apply cancel_exclusive|]. eapply exclusive_pool; [apply reply_pool|]. eapply exclusive_pool, Hx.
      repeat case_match; try done; apply post_pool.
  - pose proof (pause_transport_pool pause (reply p (sent r) w)) as Hp. pose proof (pause_transport_calm pause (reply p (sent r) w)) as Hc.
    rewrite Hr in Hp, Hc. cbn in Hp, Hc. rewrite calm_cleanups by done. apply Hm. eapply exclusive_pool, Hx. etrans; [apply reply_pool|done].
  - injection Hr as <- <-. apply Hm. eapply exclusive_pool, Hx. apply reply_pool.
  - injection Hr as <- <-. apply Hm. destruct r; [by apply cancel_exclusive|done].
  - injection Hr as <- <-. apply Hm. unfold resumed. apply next_finish_exclusive.
    assert (Hx' : exclusive n log w (cleaning id cleanup ++ cl)) by (by destruct cleanup as [[[? ?] ?]|]).
    destruct r; [by apply cancel_exclusive|done].
Qed.

Lemma exclusive_meta n log w cl g ps :
  exclusive n log w cl → exclusive n log (mkW (st w) g ps (outs w) (stuck w)) cl.
Proof. by apply exclusive_counters. Qed.

Lemma cleanups_app ts ts' : cleanups (ts ++ ts') = cleanups ts ++ cleanups ts'.
Proof. apply omap_app. Qed.

Lemma step_exclusive n log ev s s' :
  n < U64_MAX → NoDup (log ++ opens ev s).*1 → step server_name_error config ev s = Some s' →
  exclusive n log (world s) (cleanups (tasks s)) →
  exclusive (n + 1) (log ++ opens ev s) (world s') (cleanups (tasks s')).
Proof.
  intros Hn Hnd Hs Hx. assert (Hl : NoDup log.*1) by (rewrite fmap_app in Hnd; by apply NoDup_app in Hnd as [? _]).
  assert (Hm : ∀ wt cl, exclusive_after n log wt cl → exclusive_after (n + 1) log wt cl) by (intros wt cl; apply exclusive_mono; lia).
  destruct ev as [p i|k|k r|token]; cbn [step] in Hs.
  - assert (Ha : exclusive_after (n + 1) log (dispatch server_name_error config p i (world s)) (cleanups (tasks s))).
    { destruct i as [[t data|t|t reason|]|c|]; cbn [dispatch on_transport]; [| | | |by apply on_command_exclusive|]; apply Hm.
      - by apply on_data_exclusive.
      - by apply on_closed_exclusive.
      - by apply on_closed_exclusive.
      - by apply exclusive_calm.
      - apply exclusive_calm; [done|]. cbn [fst]. case_decide; [done|]. eapply exclusive_pool, Hx. apply emit_pool. }
    cbn [opens]. rewrite app_nil_r. unfold exclusive_after in Ha. destruct (dispatch _ _ p i (world s)) as [w t]. injection Hs as <-.
    cbn. by rewrite cleanups_app.
  - apply bind_Some in Hs as ([ms c] & Hk & Hs). cbn [opens]. rewrite app_nil_r.
    set (w0 := mkW _ _ _ _ _) in Hs. pose proof (on_command_exclusive n log self c w0 (cleanups (tasks s)) Hn Hl (exclusive_meta _ _ _ _ _ _ Hx)) as Ha.
    unfold exclusive_after in Ha. destruct (on_command _ _ self c w0) as [w t]. injection Hs as <-. cbn. by rewrite cleanups_app.
  - apply bind_Some in Hs as (t & Hk & Hs). apply bind_Some in Hs as ([w t'] & Hr & Hs). injection Hs as <-.
    cbn [world tasks]. rewrite cleanups_app.
    assert (Hop : opens (EResume k r) s = match t, r with TConnect _ _ o, RConnected (inl y) => [(y, o)] | _, _ => [] end).
    { unfold opens. rewrite Hk. by destruct t, r as [[]|]. }
    rewrite Hop in *. apply (resume_exclusive n log t r (world s) w t' (cleanups (delete k (tasks s)))); [done|done| |].
    + intros x call o y -> ->. rewrite fmap_app in Hnd. apply NoDup_app in Hnd as (_ & Hd & _). intros Hin. by apply (Hd y Hin); left.
    + eapply exclusive_shrink, Hx; try done. rewrite <-cleanups_app. cbn [app]. unfold cleanups.
      apply delete_Permutation in Hk. by rewrite Hk at 2.
  - injection Hs as <-. cbn [opens world tasks]. rewrite app_nil_r. eapply exclusive_mono, exclusive_meta, Hx. lia.
Qed.

Lemma run_exclusive evs s :
  NoDup (connections evs sys_new).*1 → Z.of_nat (length evs) ≤ U64_MAX →
  run server_name_error config evs sys_new = Some s →
  exclusive (Z.of_nat (length evs)) (connections evs sys_new) (world s) (cleanups (tasks s)).
Proof.
  intros Hnd Hl Hr. revert evs s Hr Hnd Hl. refine (client_run_invariant _ _ _ _ _).
  - intros _ _. split; cbn; try done; try set_solver; constructor.
  - intros evs ev s s' Hr IH Hs. rewrite (connections_snoc _ _ _ _ Hr), length_app. cbn. intros Hnd Hl.
    replace (Z.of_nat (length evs + 1)) with (Z.of_nat (length evs) + 1) by lia. apply step_exclusive; [lia|done|done|].
    apply IH; [|lia]. rewrite fmap_app in Hnd. by apply NoDup_app in Hnd as [? _].
Qed.

(** A connection serves one exchange at a time, of the origin it was opened for: in every
    reachable state no two exchanges use the same transport, the transport of an exchange
    was opened for the origin of its request, a transport that delivers to an
    exchange is that exchange's own, and a transport waiting in the pool is used by no
    exchange and waits there once, under its own origin.  The network numbers connections
    apart, and fewer than 2^64 things have happened. *)
Theorem transports_exclusive evs s :
  NoDup (connections evs sys_new).*1 → Z.of_nat (length evs) ≤ U64_MAX →
  run server_name_error config evs sys_new = Some s →
  (∀ id id' e e', exchanges (st (world s)) !! id = Some e → exchanges (st (world s)) !! id' = Some e' →
     transport e = transport e' → id = id')
  ∧ (∀ id e, exchanges (st (world s)) !! id = Some e → (transport e, origin e) ∈ connections evs sys_new)
  ∧ (∀ t id, active (st (world s)) !! t = Some id → ∃ e, exchanges (st (world s)) !! id = Some e ∧ transport e = t)
  ∧ ∀ o l, idle (st (world s)) !! o = Some l →
      NoDup l ∧ ∀ t, t ∈ l → (t, o) ∈ connections evs sys_new ∧ active (st (world s)) !! t = None
                     ∧ ∀ id e, exchanges (st (world s)) !! id = Some e → transport e ≠ t.
Proof.
  intros Hnd Hl Hr. destruct (run_exclusive evs s Hnd Hl Hr) as [X1 X2 X3 X4 X5 X6 X7 X8 X9 X10 X11 X12].
  split_and!; [done| |done|].
  - intros id e He. by destruct (X2 id e He) as (_ & ? & _).
  - intros o l Ho. assert (Hi : idles o (world s) = l) by (unfold idles; by rewrite Ho). subst l. split; [done|]. intros t Ht.
    assert (Hn : ∀ id e, exchanges (st (world s)) !! id = Some e → transport e ≠ t) by (intros id e He <-; by eapply X7).
    split_and!; [by apply X3| |done]. destruct (active (st (world s)) !! t) as [id|] eqn:Ha; [|done].
    destruct (X5 t id Ha) as (e & He & Ht'). by destruct (Hn id e He).
Qed.
End pool.

(** ** Two requests over one connection *)

Section demo.
Import ToyEngine.

Definition site : Uri := mkUri (Some "http"%string) (Some "Example.Test"%string) None.
Definition no_names (_ : string) : option string := None.
Definition plain_get (expect : bool) (spec : BodySpec) : Request := mkRequest expect site [] spec.
Definition from (session : Z) : Pending := mkPending 7 session.
Definition t1 : TransportId := Plain 11.

(** A start, a connection, a response with a body of two bytes that is read to the end;
    a second start then reuses the connection. *)
Definition demo_events : list (Event (H := toy)) :=
  [ EMsg (from 1) (ICommand (CStart 1 (plain_get false (Fixed 0))));
    EResume 0 (RConnected (inl t1));
    EResume 0 (RDone None);
    EMsg (from 2) (ICommand (CFinish 1));
    EResume 0 (RDone None);
    EMsg (from 3) (ICommand (CResponse 1));
    EMsg (mkPending 0 0) (IEvent (Data t1 [200; 2; 0; 65; 66]));
    EMsg (from 4) (ICommand (CNext 1));
    EMsg (from 5) (ICommand (CNext 1));
    EMsg (from 6) (ICommand (CStart 2 (plain_get false Empty)));
    EResume 0 (RDone None) ].

Definition demo_run := run no_names client_default demo_events sys_new.

Definition demo_check (s : Sys (H := toy)) : bool :=
  bool_decide (size (exchanges (st (world s))) = 1%nat ∧ active (st (world s)) !! t1 = Some 2 ∧ stuck (world s) = false
               ∧ connections no_names client_default demo_events sys_new = [(t1, mkOrigin Http "example.test" 80)]).

Lemma demo_view : ∃ s, demo_run = Some s ∧ demo_check s = true.
Proof. apply some_view. by vm_compute. Qed.

Lemma connections_bounded_witness :
  ∃ s, demo_run = Some s
  ∧ ((∀ t, t ∈ (connections no_names client_default demo_events sys_new).*1 → OShutdown t ∉ outs (world s) →
        t ∉ demo_events ≫= closes → is_Some (origins (st (world s)) !! t))
  ∧ Z.of_nat (size (origins (st (world s)))) + Z.of_nat (length (connects (tasks s))) ≤ max_connections client_default
  ∧ ∀ o, Z.of_nat (size (filter (λ kv, kv.2 = o) (origins (st (world s))))) + count o (connects (tasks s))
         ≤ max_connections_per_origin client_default).
Proof.
  destruct demo_view as (s & Hs & _). exists s. split; [exact Hs|].
  apply (connections_bounded no_names client_default demo_events s); [done|done|exact Hs].
Defined.

Lemma demo_fresh : NoDup (connections no_names client_default demo_events sys_new).*1.
Proof. apply (bool_decide_eq_true_1 _). by vm_compute. Qed.

Lemma transports_exclusive_witness :
  ∃ s, demo_run = Some s
  ∧ ((∀ id id' e e', exchanges (st (world s)) !! id = Some e → exchanges (st (world s)) !! id' = Some e' →
     transport e = transport e' → id = id')
  ∧ (∀ id e, exchanges (st (world s)) !! id = Some e → (transport e, origin e) ∈ connections no_names client_default demo_events sys_new)
  ∧ (∀ t id, active (st (world s)) !! t = Some id → ∃ e, exchanges (st (world s)) !! id = Some e ∧ transport e = t)
  ∧ ∀ o l, idle (st (world s)) !! o = Some l →
      NoDup l ∧ ∀ t, t ∈ l → (t, o) ∈ connections no_names client_default demo_events sys_new ∧ active (st (world s)) !! t = None
                     ∧ ∀ id e, exchanges (st (world s)) !! id = Some e → transport e ≠ t).
Proof.
  destruct demo_view as (s & Hs & _). exists s. split; [exact Hs|].
  apply (transports_exclusive no_names client_default demo_events s); [exact demo_fresh|done|exact Hs].
Defined.
End demo.
End HttpPool.
