(* ===== verification/HttpBooks.v ===== *)
(** * What the HTTP client promises to its callers

    Over any sequence of commands, transport events, timers and results of awaited
    operations: the service does not get stuck, every caller is answered once or is still
    waiting, the input of an exchange is held back above the high water mark; and two
    places where a caller loses a response it should get. *)
From S2P Require Import Prelude Message HttpHead HttpClient HttpPool.
#[local] Open Scope Z_scope.

Module HttpBooks.
Import HttpHead HttpClient HttpPool.

Section books.
Context `{Engine} (server_name_error : string → option string) (config : HttpClientConfig).

(** ** The state of an exchange *)

(** The head of the response has come. *)
Definition heard (e : Exchange) : Prop := response_waiter e = None ∧ (response e ≠ None ∨ response_taken e = true).

(** Inside the loop of [drive_input]. *)
Record x_mid (e : Exchange) : Prop := {
  xm_ended : body_ended e = true → heard e ∧ write_waiter e = None ∧ (proto e = None ∨ proto e = Some Done);
  xm_done : proto e = Some Done → body_ended e = true;
  xm_body : ∀ c, proto e = Some (RecvBody c) → heard e;
  xm_write : write_waiter e ≠ None → proto e = None ∨ ∃ c, proto e = Some (Await100 c);
}.

(** Between handlers.  The last clause is flow control: unless the body is complete,
    input is held back once the high water mark is reached. *)
Record x_ok (e : Exchange) : Prop := {
  xo_mid : x_mid e;
  xo_waiter : body_ended e = true → body_waiter e = None;
  xo_flow : body_ended e = true ∨ paused e = true ∨ buffered e < input_high_water config;
}.

(** ** Counting callers *)

Definition is_caller (x : Z * Z) (p : Pending) : Z := if decide ((p_source p, p_session p) = x) then 1 else 0.

Definition opt (x : Z * Z) (o : option Pending) : Z := match o with Some p => is_caller x p | None => 0 end.

Fixpoint tally (x : Z * Z) (l : list Pending) : Z :=
  match l with [] => 0 | p :: l => is_caller x p + tally x l end.

(** The callers an exchange keeps waiting. *)
Definition waits (x : Z * Z) (e : Exchange) : Z :=
  opt x (response_waiter e) + opt x (body_waiter e) + opt x (fst <$> write_waiter e).

Definition exchange_waits (x : Z * Z) (m : gmap Z Exchange) : Z := map_fold (λ _ e acc, waits x e + acc) 0 m.

(** Starts that wake_queued has sent on their way. *)
Definition resuming (x : Z * Z) (ps : list (option Z * Command)) : Z :=
  tally x (omap (λ m, match m.2 with CResumeStart y => Some (s_pending y) | _ => None end) ps).

Definition answered (x : Z * Z) (os : list Out) : Z :=
  tally x (omap (λ o, match o with OReply s n _ | ORefuse s n => Some (mkPending s n) | _ => None end) os).

(** Answered, or waiting in the state of the service. *)
Definition total (x : Z * Z) (w : W) : Z :=
  answered x (outs w) + tally x (s_pending <$> pending_starts (st w)) + resuming x (posted w)
  + exchange_waits x (exchanges (st w)).

Lemma tally_app x l l' : tally x (l ++ l') = tally x l + tally x l'.
Proof. induction l; cbn; lia. Qed.

Lemma tally_perm x l l' : l ≡ₚ l' → tally x l = tally x l'.
Proof. induction 1; cbn; lia. Qed.

Lemma exchange_waits_insert x id e m :
  exchange_waits x (<[id := e]> m) = exchange_waits x m - from_option (waits x) 0 (m !! id) + waits x e.
Proof.
  unfold exchange_waits. destruct (m !! id) as [e0|] eqn:E; cbn.
  - rewrite <-(insert_delete_id m id e0 E) at 2. rewrite <-insert_delete_eq.
    rewrite !map_fold_insert_L by (try apply lookup_delete_eq; intros; lia). lia.
  - rewrite map_fold_insert_L by (try done; intros; lia). lia.
Qed.

Lemma exchange_waits_delete x id m :
  exchange_waits x (delete id m) = exchange_waits x m - from_option (waits x) 0 (m !! id).
Proof.
  unfold exchange_waits. destruct (m !! id) as [e|] eqn:E; cbn; [|rewrite delete_id by done; lia].
  rewrite <-(insert_delete_id m id e E) at 2. rewrite map_fold_insert_L by (try apply lookup_delete_eq; intros; lia). lia.
Qed.

Lemma answered_app x os os' : answered x (os ++ os') = answered x os + answered x os'.
Proof. unfold answered. by rewrite omap_app, tally_app. Qed.

Lemma resuming_app x ps ps' : resuming x (ps ++ ps') = resuming x ps + resuming x ps'.
Proof. unfold resuming. by rewrite omap_app, tally_app. Qed.

(** ** What a piece of a handler does to the books *)

Record ok (D : gset Z) (w : W) : Prop := {
  ok_gone : gone w ⊆ D;
  ok_x : ∀ id e, exchanges (st w) !! id = Some e → x_ok e ∧ id ≤ next_id (st w);
}.

(** The commands the service posts to itself. *)
Definition own (c : Command) : Prop :=
  match c with CContinueTimeout _ | CWaitTimeout _ _ _ | CIdleTimeout _ _ | CResumeStart _ => True | _ => False end.

Definition own_posted (w : W) : Prop := Forall (λ m, own m.2) (posted w).

(** From [w] to [w']: [f] callers come in, and starts whose callers are gone are lost. *)
Record goes (D : gset Z) (f : Z * Z → Z) (w w' : W) : Prop := {
  go_gone : gone w' = gone w;
  go_stuck : stuck w' = stuck w;
  go_next : next_id (st w) ≤ next_id (st w');
  go_own : own_posted w → own_posted w';
  go_x : ∀ id e', exchanges (st w') !! id = Some e' → x_ok e' ∧
    ((∃ e, exchanges (st w) !! id = Some e ∧ (body_ended e = true → body_ended e' = true)) ∨ next_id (st w) < id ≤ next_id (st w'));
  go_tally : ∃ lost : list Start, Forall (λ y, s_token y ∈ D) lost ∧
    ∀ x, x.2 ≠ 0 → total x w' + tally x (s_pending <$> lost) = total x w + f x;
}.

Lemma goes_ok D f w w' : ok D w → goes D f w w' → ok D w'.
Proof.
  intros [O1 O2] [G1 G2 G3 _ G4 _]. split; [by rewrite G1|]. intros id e' He'. destruct (G4 id e' He') as [Hx [(e & He & _)|?]]; [|split; [done|lia]].
  destruct (O2 id e He). split; [done|lia].
Qed.

Lemma goes_refl D w : ok D w → goes D (λ _, 0) w w.
Proof.
  intros [O1 O2]. split; try done.
  - intros id e He. destruct (O2 id e He). split; [done|left; eauto].
  - exists []. split; [done|]. intros x _. cbn. lia.
Qed.

Lemma goes_trans D f g w w1 w2 : goes D f w w1 → goes D g w1 w2 → goes D (λ x, f x + g x) w w2.
Proof.
  intros [A1 A2 A3 A0 A4 (l & Hl & A5)] [B1 B2 B3 B0 B4 (l' & Hl' & B5)]. split; [congruence..|lia|auto| |].
  - intros id e2 He2. destruct (B4 id e2 He2) as [Hx [(e1 & He1 & Hm)|?]]; (split; [done|]).
    + destruct (A4 id e1 He1) as [_ [(e & He & Hm')|?]]; [left; eauto|right; lia].
    + right. lia.
  - exists (l ++ l'). split; [by apply Forall_app|]. intros x Hx. specialize (A5 x Hx). specialize (B5 x Hx).
    rewrite fmap_app, tally_app. lia.
Qed.

Lemma goes_ext D f g w w' : (∀ x, x.2 ≠ 0 → f x = g x) → goes D f w w' → goes D g w w'.
Proof.
  intros Hfg [A1 A2 A3 A0 A4 (l & Hl & A5)]. split; try done. exists l. split; [done|]. intros x Hx. rewrite <-Hfg by done. auto.
Qed.

(** One piece after another. *)
Lemma goes_step D f g h w w1 w2 :
  goes D f w w1 → (ok D w1 → goes D g w1 w2) → ok D w → (∀ x, x.2 ≠ 0 → f x + g x = h x) → goes D h w w2.
Proof. intros Hf Hg Hok Hh. eapply goes_ext; [exact Hh|]. eapply goes_trans; [done|]. by eapply Hg, goes_ok. Qed.

(** A change of the bookkeeping that counts nobody. *)
Lemma goes_st D w w' :
  ok D w → gone w' = gone w → stuck w' = stuck w → (own_posted w → own_posted w') → next_id (st w') = next_id (st w) → exchanges (st w') = exchanges (st w) →
  (∀ x, total x w' = total x w) → goes D (λ _, 0) w w'.
Proof.
  intros [O1 O2] Hg Hs Ho Hn He Ht. split; try done; [lia|..].
  - intros id e. rewrite He. intros Hid. destruct (O2 id e Hid). split; [done|left; eauto].
  - exists []. split; [done|]. intros x _. rewrite Ht. cbn. lia.
Qed.

Lemma on_st_goes D f w :
  (∀ s, next_id (f s) = next_id s ∧ exchanges (f s) = exchanges s ∧ pending_starts (f s) = pending_starts s) →
  ok D w → goes D (λ _, 0) w (on_st f w).
Proof.
  intros Hf Hok. destruct (Hf (st w)) as (Hn & He & Hp). apply goes_st; try done. intros x. unfold total. cbn. by rewrite He, Hp.
Qed.

Lemma emit_goes D o w :
  (match o with OReply _ _ _ | ORefuse _ _ => False | _ => True end) → ok D w → goes D (λ _, 0) w (emit o w).
Proof.
  intros Ho Hok. apply goes_st; try done. intros x. unfold total. cbn [emit st posted outs]. rewrite answered_app.
  destruct o; try done; unfold answered at 2; cbn; lia.
Qed.

Lemma post_goes D ms c w :
  own c → (match c with CResumeStart _ => False | _ => True end) → ok D w → goes D (λ _, 0) w (post ms c w).
Proof.
  intros Ho Hc Hok. apply goes_st; try done. { intros Hw. by apply Forall_app_2; [|constructor]. } intros x. unfold total. cbn [post st posted outs]. rewrite resuming_app. destruct c; try done; unfold resuming at 2; cbn; lia.
Qed.

Lemma reply_goes D p a w : ok D w → goes D (λ x, is_caller x p) w (reply p a w).
Proof.
  intros Hok. unfold reply. case_decide as E.
  - eapply goes_ext, goes_refl, Hok. intros x Hx. unfold is_caller. rewrite decide_False; [done|]. intros <-. done.
  - destruct Hok as [O1 O2]. split; try done.
    + intros id e He. destruct (O2 id e He). split; [done|left; eauto].
    + exists []. split; [done|]. intros x _. unfold total. cbn [emit st posted outs]. rewrite answered_app.
      change (answered x [OReply (p_source p) (p_session p) a]) with (is_caller x (mkPending (p_source p) (p_session p)) + 0).
      unfold is_caller. cbn. lia.
Qed.

(** An exchange changes: the difference of its waiting callers. *)
Lemma put_goes D id e e' w :
  exchanges (st w) !! id = Some e → x_ok e' → (body_ended e = true → body_ended e' = true) → ok D w →
  goes D (λ x, waits x e' - waits x e) w (put_exchange id e' w).
Proof.
  intros He Hx Hm [O1 O2]. split; try done.
  - cbn. intros i e1 [[<- <-]|[Hne H1]]%lookup_insert_Some; [split; [done|left; eauto]|].
    destruct (O2 i e1 H1). split; [done|left; eauto].
  - exists []. split; [done|]. intros x _. unfold total. cbn [put_exchange on_st st posted outs exchanges pending_starts set_exchanges]. rewrite exchange_waits_insert, He. cbn. lia.
Qed.

Lemma remove_goes D id e w :
  exchanges (st w) !! id = Some e → ok D w →
  goes D (λ x, - waits x e) w (on_st (λ s, set_exchanges (delete id (exchanges s)) s) w).
Proof.
  intros He [O1 O2]. split; try done.
  - cbn. intros i e1 [_ H1]%lookup_delete_Some. destruct (O2 i e1 H1). split; [done|left; eauto].
  - exists []. split; [done|]. intros x _. unfold total. cbn [put_exchange on_st st posted outs exchanges pending_starts set_exchanges]. rewrite exchange_waits_delete, He. cbn. lia.
Qed.

(** ** Peeling a chain of effects from its end *)

Lemma peel D h w w1 w2 : ok D w → (ok D w1 → goes D (λ _, 0) w1 w2) → goes D h w w1 → goes D h w w2.
Proof. intros Hok H2 H1. eapply goes_step; [exact H1|exact H2|done|]. intros x _. cbn. lia. Qed.

Lemma peel_reply D h p a w w1 : ok D w → goes D (λ x, h x - is_caller x p) w w1 → goes D h w (reply p a w1).
Proof. intros Hok H1. eapply goes_step; [exact H1|apply reply_goes|done|]. intros x _. cbn. lia. Qed.

Lemma peel_optional D h (o : option Pending) a w w1 :
  ok D w → goes D (λ x, h x - opt x o) w w1 → goes D h w (match o with Some p => reply p a w1 | None => w1 end).
Proof. intros Hok H1. destruct o; [by apply peel_reply|]. eapply goes_ext, H1. intros x _. cbn. lia. Qed.

Lemma stay D h w : ok D w → (∀ x, x.2 ≠ 0 → h x = 0) → goes D h w w.
Proof. intros Hok Hh. eapply goes_ext, goes_refl, Hok. intros x Hx. by rewrite Hh. Qed.

Lemma put_by D h id e e' w :
  ok D w → exchanges (st w) !! id = Some e → x_ok e' → (body_ended e = true → body_ended e' = true) →
  (∀ x, waits x e' - waits x e = h x) → goes D h w (put_exchange id e' w).
Proof. intros Hok He Hx Hm Hh. eapply goes_ext; [|by eapply put_goes]. intros x _. apply Hh. Qed.

Lemma tally_filter x (P : Start → Prop) `{!∀ y, Decision (P y)} l :
  tally x (s_pending <$> l) = tally x (s_pending <$> filter P l) + tally x (s_pending <$> filter (λ y, ¬ P y) l).
Proof.
  induction l as [|y l IH]; [done|]. rewrite !filter_cons. destruct (decide (P y)).
  - rewrite (decide_False (P := ¬ P y)) by tauto. cbn. lia.
  - rewrite (decide_True (P := ¬ P y)) by done. cbn. lia.
Qed.

(** Dropping queued starts whose callers are gone. *)
Lemma drop_starts_goes D (P : Start → Prop) `{!∀ y, Decision (P y)} w :
  (∀ y, ¬ P y → s_token y ∈ D) → ok D w →
  goes D (λ _, 0) w (on_st (set_pending_starts (filter P (pending_starts (st w)))) w).
Proof.
  intros HP [O1 O2]. split; try done.
  - intros id e He. destruct (O2 id e He). split; [done|left; eauto].
  - exists (filter (λ y, ¬ P y) (pending_starts (st w))). split.
    + apply Forall_forall. intros y [Hy _]%list_elem_of_filter. auto.
    + intros x _. unfold total. cbn [on_st st posted outs pending_starts set_pending_starts exchanges].
      rewrite (tally_filter x P (pending_starts (st w))). lia.
Qed.

Lemma wake_queued_goes D w : ok D w → goes D (λ _, 0) w (wake_queued config w).
Proof.
  intros Hok. unfold wake_queued. cbv zeta. set (queue := filter _ (pending_starts (st w))).
  assert (H1 : goes D (λ _, 0) w (on_st (set_pending_starts queue) w)).
  { apply drop_starts_goes; [|done]. intros y. unfold alive. intros Hy. destruct Hok as [O1 _]. apply O1.
    destruct (decide (s_token y ∈ gone w)); [done|]. rewrite bool_decide_eq_true_2 in Hy by done. done. }
  destruct (list_find _ queue) as [[i y]|] eqn:Hf; [|done]. apply list_find_Some in Hf as (Hi & _ & _).
  eapply peel; [done| |exact H1]. intros [O1 O2]. split; try done.
  - intros Hw. by apply Forall_app_2; [|constructor].
  - intros id e He. destruct (O2 id e He). split; [done|left; eauto].
  - exists []. split; [done|]. intros x _. unfold total. cbn [post on_st st posted outs pending_starts set_pending_starts exchanges].
    rewrite resuming_app. change (resuming x [(None, CResumeStart y)]) with (is_caller x (s_pending y) + 0).
    apply delete_Permutation in Hi. rewrite (tally_perm x (s_pending <$> queue) (s_pending <$> (y :: delete i queue))) by (by rewrite <-Hi).
    cbn. lia.
Qed.

Lemma forget_goes D t w : ok D w → goes D (λ _, 0) w (forget_transport t w).
Proof. by apply on_st_goes. Qed.

Ltac peels :=
  repeat match goal with
    | |- goes _ _ _ (wake_queued _ _) => eapply peel; [done|by apply wake_queued_goes|]
    | |- goes _ _ _ (forget_transport _ _) => eapply peel; [done|by apply forget_goes|]
    | |- goes _ _ _ (shutdown _ _) => eapply peel; [done|by apply emit_goes|]
    | |- goes _ _ _ (emit _ _) => eapply peel; [done|by apply emit_goes|]
    | |- goes _ _ _ (post _ _ _) => eapply peel; [done|by apply post_goes|]
    | |- goes _ _ _ (arm_wait_timeout _ _ _ _ _) => eapply peel; [done|by apply post_goes|]
    | |- goes _ _ _ (reply _ _ _) => apply peel_reply; [done|]
    | |- goes _ _ _ (match ?o with Some p => reply p _ _ | None => _ end) => apply peel_optional; [done|]
    | |- goes _ _ ?w ?w => apply stay; [done|]
    | |- goes _ _ _ (put_exchange _ _ _) => eapply put_by; [done|eassumption|..]
    end.

Lemma cancel_goes D id w : ok D w → goes D (λ _, 0) w (cancel config id w).
Proof.
  intros Hok. unfold cancel. destruct (exchanges (st w) !! id) as [e|] eqn:He; [|by apply goes_refl]. cbv zeta. peels.
  eapply peel; [done|by apply on_st_goes|]. eapply goes_ext; [|by apply remove_goes]. intros x _. cbn. unfold waits. lia.
Qed.

Lemma recycle_goes D t o b w : ok D w → goes D (λ _, 0) w (recycle config t o b w).
Proof.
  intros Hok. unfold recycle. cbv zeta.
  set (w1 := on_st (λ s, set_active (delete t (active s)) s) w).
  assert (H1 : goes D (λ _, 0) w w1) by (by apply on_st_goes). clearbody w1.
  destruct (negb b); [peels; exact H1|]. case_decide; [peels; exact H1|]. peels.
  eapply peel; [done|by apply on_st_goes|]. eapply peel; [done|by apply on_st_goes|]. exact H1.
Qed.

Lemma idle_timeout_goes D t g w : ok D w → goes D (λ _, 0) w (idle_timeout config t g w).
Proof.
  intros Hok. unfold idle_timeout. case_decide; [by apply goes_refl|]. cbv zeta.
  set (w1 := on_st (λ s, set_idle (filter (λ x, x ≠ t) <$> idle s) s) w).
  assert (H1 : goes D (λ _, 0) w w1) by (by apply on_st_goes). clearbody w1.
  destruct (map_fold _ _ _); [|done]. peels. eapply peel; [done|by apply on_st_goes|]. exact H1.
Qed.

(** ** Starting *)

(** The caller a suspended handler will answer. *)
Definition held (x : Z * Z) (t : option Task) : Z :=
  match t with
  | Some (TConnect y _ _) | Some (TStartSend y _) => is_caller x (s_pending y)
  | Some (TWrite p _) | Some (TFinish p) | Some (TResume _ p (Some _) _) => is_caller x p
  | _ => 0
  end.

(** What a handler does with the callers [f] it was given. *)
Definition handles (D : gset Z) (f : Z * Z → Z) (w : W) (wt : W * option Task) : Prop :=
  goes D (λ x, f x - held x wt.2) w wt.1.

Lemma handled D f w w' : goes D f w w' → handles D f w (w', None).
Proof. intros Hg. unfold handles. eapply goes_ext, Hg. intros x _. cbn. lia. Qed.

(** A start whose caller is gone is dropped. *)
Lemma lose D h y w w' :
  s_token y ∈ D → goes D (λ x, h x - is_caller x (s_pending y)) w w' → goes D h w w'.
Proof.
  intros Hy [A1 A2 A3 A0 A4 (l & Hl & A5)]. split; try done. exists (y :: l). split; [by constructor|].
  intros x Hx. specialize (A5 x Hx). cbn in *. lia.
Qed.

Lemma not_alive D token w : ok D w → negb (alive token w) = true → token ∈ D.
Proof.
  intros [O1 _]. unfold alive. rewrite negb_true_iff, bool_decide_eq_false. intros Hn. apply O1. by destruct (decide (token ∈ gone w)).
Qed.

(** Every turn writes a byte and the total is bounded: the fuel is enough. *)
Lemma serialize_loop_total fuel c all limit :
  limit < Z.of_nat fuel + Z.of_nat (length all) → Z.of_nat (length all) ≤ limit ∨ (0 < fuel)%nat →
  is_Some (serialize_loop fuel c all limit).
Proof.
  revert c all. induction fuel as [|fuel IH]; intros c all Hf Hl; cbn [serialize_loop].
  - lia.
  - destruct (send_can_proceed c); [eauto|]. destruct (send_write c _) as [c' [bs|]]; [|eauto].
    case_decide as Hb; [eauto|]. cbv zeta. case_decide; [eauto|]. rewrite length_app in *. destruct bs; [done|]. cbn [length] in *.
    apply IH; rewrite length_app; cbn [length]; lia.
Qed.

Lemma serialize_request_total c limit : is_Some (serialize_request c limit).
Proof.
  unfold serialize_request. destruct (serialize_loop_total (S (Z.to_nat limit)) c [] limit) as [r ->]; [cbn; lia|lia|]. cbn. eauto.
Qed.

Lemma serialize_request_proto c limit data p :
  serialize_request c limit = Some (inl (data, p)) → p ≠ Done ∧ ∀ b, p ≠ RecvBody b.
Proof.
  unfold serialize_request. destruct (serialize_loop _ _ _ _) as [[[all c']|]|]; cbn; try done.
  destruct (send_proceed c') as [[[a|[b|r]]|]|]; intros [= <- <-]; done.
Qed.

Context (Hhigh : 0 < input_high_water config).

Lemma new_exchange_ok t o p spec : p ≠ Done → (∀ b, p ≠ RecvBody b) → x_ok (new_exchange t o p spec).
Proof.
  intros Hd Hb. split; cbn; [split; cbn|done|right; right; by unfold buffered]; try done; try congruence.
Qed.

Lemma acquired_goes D y call o r w :
  ok D w → 0 ≤ next_id (st w) < U64_MAX →
  handles D (λ x, is_caller x (s_pending y)) w (acquired config y call o r w).
Proof.
  intros Hok Hn. unfold acquired. destruct r as [t|e]; [|apply handled; peels; intros x _; cbn; lia].
  destruct (negb _) eqn:Hal; [apply handled, (lose D _ y); [by eapply not_alive|]; peels; intros x _; cbn; lia|].
  destruct (serialize_request_total (prepare_proceed call) (max_header_size config)) as [[[data p]|e] Hser]; rewrite Hser;
    [|apply handled; peels; intros x _; cbn; lia].
  apply serialize_request_proto in Hser as [Hd Hb]. unfold handles. cbn [fst snd held].
  assert (Hid : Z.max 1 (next_id (st w) +w 1) = next_id (st w) + 1) by (rewrite wrapping_add_small by (unfold U64_MAX in *; lia); lia).
  rewrite Hid. peels. cbv zeta. destruct Hok as [O1 O2]. split; cbn; try done; [lia|..].
  - intros i e [[<- <-]|[Hne He]]%lookup_insert_Some.
    + split; [by apply new_exchange_ok|right; lia].
    + destruct (O2 i e He). split; [done|left; eauto].
  - exists []. split; [done|]. intros x _. unfold total. cbn [put_exchange on_st st posted outs exchanges pending_starts set_exchanges
      set_start_tokens set_active set_next_id].
    rewrite exchange_waits_insert. destruct (exchanges (st w) !! (next_id (st w) + 1)) as [e|] eqn:E; [destruct (O2 _ _ E); lia|].
    cbn. unfold waits. cbn. lia.
Qed.

Lemma started_goes D y id r w : ok D w → goes D (λ x, is_caller x (s_pending y)) w (started config y id r w).
Proof.
  intros Hok. unfold started.
  assert (Hc : goes D (λ _, 0) w (cancel config id w)) by (by apply cancel_goes).
  destruct r as [e|]; [peels; eapply goes_ext, Hc; intros x _; cbn; lia|].
  destruct (negb _) eqn:Hal.
  { apply (lose D _ y); [by eapply not_alive|]. eapply goes_ext, Hc. intros x _. cbn. lia. }
  peels. destruct (exchanges (st w) !! id ≫= proto) as [[]|]; peels; intros x _; cbn; lia.
Qed.

(** The books of the attempts do not matter here. *)
Lemma connect_done_goes D o r w :
  (∀ n, connecting (st w) !! o = Some n → n ≠ 0) → ok D w → goes D (λ _, 0) w (connect_done o r w).
Proof.
  intros Hpos Hok. unfold connect_done. destruct (connecting (st w) !! o) as [n|] eqn:E.
  - rewrite decide_False by (by apply Hpos). destruct r; [eapply peel; [done|by apply on_st_goes|]|]; by apply on_st_goes.
  - destruct r; [by apply on_st_goes|by apply goes_refl].
Qed.

Lemma connected_goes D y call o r w :
  ok D w → 0 ≤ next_id (st w) < U64_MAX → (∀ n, connecting (st w) !! o = Some n → n ≠ 0) →
  handles D (λ x, is_caller x (s_pending y)) w (connected config y call o r w).
Proof.
  intros Hok Hn Hpos. unfold connected. pose proof (connect_done_goes D o r w Hpos Hok) as Hc. set (w1 := connect_done o r w) in *.
  assert (Hn1 : next_id (st w1) = next_id (st w)).
  { unfold w1, connect_done. destruct (connecting (st w) !! o), r; try case_decide; done. }
  unfold handles. eapply goes_step; [exact Hc|intros H1; apply acquired_goes; [done|by rewrite Hn1]|done|]. intros x _. cbn. lia.
Qed.

Lemma acquire_goes D y call o w :
  ok D w → 0 ≤ next_id (st w) < U64_MAX → (∀ n, connecting (st w) !! o = Some n → 0 < n) →
  handles D (λ x, is_caller x (s_pending y)) w (acquire server_name_error config y call o w).
Proof.
  intros Hok Hn Hpos. unfold acquire.
  assert (Hnew : handles D (λ x, is_caller x (s_pending y)) w
      (let w := on_st (λ s, set_connecting (<[o := default 0 (connecting s !! o) + 1]> (connecting s)) s) w in
       match o_scheme o, server_name_error (o_host o) with
       | Https, Some e => acquired config y call o (inr (Tls e)) (connect_done o (inr (Tls e)) w)
       | _, _ => (emit (OConnect o (address o)) w, Some (TConnect y call o))
       end)).
  { cbv zeta. set (w1 := on_st _ w). assert (H1 : goes D (λ _, 0) w w1) by (by apply on_st_goes).
    assert (Hc : handles D (λ x, is_caller x (s_pending y)) w (emit (OConnect o (address o)) w1, Some (TConnect y call o))).
    { unfold handles. cbn [fst snd held]. peels. eapply goes_ext, H1. intros x _. cbn. lia. }
    destruct (o_scheme o); [done|]. destruct (server_name_error (o_host o)) as [e|]; [|done].
    unfold handles. eapply goes_step; [exact H1|intros Hok1; apply (connected_goes D y call o (inr (Tls e)))|done|]; [done|done| |intros x _; cbn; lia].
    intros n. cbn. rewrite lookup_insert_eq. intros [= <-]. destruct (connecting (st w) !! o) as [m|] eqn:E; cbn; [specialize (Hpos m eq_refl); lia|done]. }
  destruct (idle (st w) !! o) as [[|t rest]|] eqn:Hi; [exact Hnew| |exact Hnew].
  cbv zeta. match goal with |- handles _ _ _ (acquired _ _ _ _ _ ?w2) =>
    assert (H2 : goes D (λ _, 0) w w2) by (eapply peel; [done|by apply on_st_goes|by apply on_st_goes]) end.
  unfold handles. eapply goes_step; [exact H2|intros Hok2; by apply acquired_goes|done|]. intros x _. cbn. lia.
Qed.

Lemma start_exchange_goes D y w :
  ok D w → 0 ≤ next_id (st w) < U64_MAX → (∀ o n, connecting (st w) !! o = Some n → 0 < n) →
  handles D (λ x, is_caller x (s_pending y)) w (start_exchange server_name_error config y w).
Proof.
  intros Hok Hn Hpos. unfold start_exchange. cbv zeta.
  destruct (negb _) eqn:Hal; [apply handled, (lose D _ y); [by eapply not_alive|]; peels; intros x _; cbn; lia|].
  destruct (from_uri _) as [o|e]; [|apply handled; peels; intros x _; cbn; lia].
  destruct (should_queue config o (st w)).
  { apply handled. destruct Hok as [O1 O2]. split; try done.
    - intros id e He. destruct (O2 id e He). split; [done|left; eauto].
    - exists []. split; [done|]. intros x _. unfold total. cbn [on_st st posted outs pending_starts set_pending_starts exchanges].
      rewrite fmap_app, tally_app. cbn. lia. }
  destruct (apply_body_headers _ _) as [h|e]; [|apply handled; peels; intros x _; cbn; lia].
  destruct (call_new _ _ _); [|apply handled; peels; intros x _; cbn; lia]. apply acquire_goes; [done|done|]. intros n. apply Hpos.
Qed.

(** ** The request body *)

Lemma sending_ok e c : x_ok e → proto e = Some (SendBody c) → body_ended e = false ∧ write_waiter e = None.
Proof.
  intros [[M1 M2 M3 M4] X2 X3] Hp. split.
  - apply not_true_is_false. intros (_ & _ & [?|?])%M1; congruence.
  - destruct (write_waiter e) eqn:E; [|done]. destruct M4 as [?|[? ?]]; congruence.
Qed.

(** Another state of the engine, before the body of the response. *)
Lemma reproto_ok e p :
  x_ok e → body_ended e = false → write_waiter e = None → p ≠ Done → (∀ c, p ≠ RecvBody c) → x_ok (set_proto (Some p) e).
Proof.
  intros [[M1 M2 M3 M4] X2 X3] Hb Hw Hd Hr. split; [split|..]; cbn; try done; congruence.
Qed.

Lemma same_fields_ok e e' :
  x_ok e → proto e' = proto e → body_ended e' = body_ended e → write_waiter e' = write_waiter e → response e' = response e →
  response_taken e' = response_taken e → response_waiter e' = response_waiter e → body_waiter e' = body_waiter e →
  paused e' = paused e → buffered e' = buffered e → x_ok e'.
Proof.
  intros [[M1 M2 M3 M4] X2 X3] E5 E6 E7 E1 E2 E3 E4 E8 E9.
  assert (Hh : heard e → heard e') by (unfold heard; by rewrite E1, E2, E3).
  split; [split|..]; rewrite ?E5, ?E6, ?E7, ?E4, ?E8, ?E9; try done.
  - intros Hb. destruct (M1 Hb) as (? & ? & ?). auto.
  - intros c Hc. eauto.
Qed.

Lemma ok_exchange D w id e : ok D w → exchanges (st w) !! id = Some e → x_ok e.
Proof. intros [_ O2] He. by apply O2 in He as [? _]. Qed.

Lemma pause_transport_goes D f pause w w' : ok D w → goes D f w w' → handles D f w (pause_transport pause w').
Proof.
  intros Hok Hg. unfold pause_transport. destruct pause as [[id t]|]; [|by apply handled].
  unfold handles. cbn [fst snd held]. peels. eapply goes_ext, Hg. intros x _. cbn. lia.
Qed.

Ltac count := intros x; intros; unfold waits; cbn; lia.

Lemma write_request_goes D id chunk w : ok D w → goes D (λ _, 0) w (write_request config id chunk w).1.
Proof.
  intros Hok. unfold write_request. case_decide; [by apply goes_refl|]. case_decide; [by apply goes_refl|].
  destruct (exchanges (st w) !! id) as [e|] eqn:He; [|by apply goes_refl]. destruct (request_finished e); [by apply goes_refl|].
  destruct (proto e) as [[c|c|c|c|]|] eqn:Hp; try (by apply goes_refl). pose proof (ok_exchange D w id e Hok He) as Hx.
  destruct (sending_ok e c Hx Hp) as [Hb Hw].
  assert (Hs : ∀ c', x_ok (set_proto (Some (SendBody c')) e)) by (intros c'; by apply reproto_ok).
  destruct (body_write c chunk _) as [c' [[used bs]|err]]; [case_decide|]; cbn [fst]; peels; try done;
    try count.
  eapply same_fields_ok; [apply (Hs c')|done..].
Qed.

Lemma write_for_goes D p id chunk pause w :
  ok D w → handles D (λ x, is_caller x p) w (write_for config p id chunk pause w).
Proof.
  intros Hok. unfold write_for. pose proof (write_request_goes D id chunk w Hok) as Hw.
  destruct (write_request config id chunk w) as [w1 [a|[t data]]]; cbn [fst] in Hw.
  - apply pause_transport_goes; [done|]. peels. eapply goes_ext, Hw. intros x _. cbn. lia.
  - unfold handles. cbn [fst snd held]. peels. eapply goes_ext, Hw. intros x _. cbn. lia.
Qed.

Lemma is_await100_inv e : is_await100 e = true → ∃ c, proto e = Some (Await100 c).
Proof. unfold is_await100. destruct (proto e) as [[]|]; try done. eauto. Qed.

Lemma awaiting_ok e c : x_ok e → proto e = Some (Await100 c) → body_ended e = false.
Proof. intros [[M1 _ _ _] _ _] Hp. apply not_true_is_false. intros (_ & _ & [?|?])%M1; congruence. Qed.

Lemma write_goes D p id chunk w : ok D w → handles D (λ x, is_caller x p) w (write config p id chunk w).
Proof.
  intros Hok. unfold write. destruct (exchanges (st w) !! id) as [e|] eqn:He; [|by apply write_for_goes].
  case_decide; [by apply write_for_goes|]. destruct (is_await100 e) eqn:Ha; [|by apply write_for_goes]. cbn [negb].
  apply is_await100_inv in Ha as [c Hp]. pose proof (ok_exchange D w id e Hok He) as Hx.
  destruct (write_waiter e) eqn:Hw; apply handled; peels; try done; [intros x _; lia| |].
  - pose proof (awaiting_ok e c Hx Hp) as Hb. destruct Hx as [[M1 M2 M3 M4] X2 X3].
    split; [split|..]; cbn; try done; try congruence. intros _. right. by exists c.
  - intros x. unfold waits. cbn. rewrite Hw. cbn. lia.
Qed.

Lemma finish_request_goes `{!EngineLaws} D p id w : ok D w → handles D (λ x, is_caller x p) w (finish_request p id w).
Proof.
  intros Hok. unfold finish_request.
  destruct (exchanges (st w) !! id) as [e|] eqn:He; [|apply handled; peels; intros x _; lia].
  destruct (request_finished e); [apply handled; peels; intros x _; lia|].
  match goal with |- context [match ?x with Some expected => _ | None => _ end] => destruct x end; [apply handled; peels; intros x _; lia|].
  pose proof (ok_exchange D w id e Hok He) as Hx.
  assert (Hf : x_ok (set_finished true e)) by (by eapply same_fields_ok).
  destruct (proto e) as [[c|c|c|c|]|] eqn:Hp; try (apply handled; peels; try done; count).
  destruct (sending_ok e c Hx Hp) as [Hb Hw].
  assert (Hs : ∀ c', x_ok (set_proto (Some (SendBody c')) e)) by (intros c'; by apply reproto_ok).
  destruct (body_write c [] 64) as [c' [[used bs]|]]; [|apply handled; peels; try done; count].
  destruct (body_can_proceed c') eqn:Hc; [|apply handled; peels; try done; count].
  destruct (body_proceed_ready c' Hc) as [r ->]. unfold handles. cbn [fst snd held]. peels; try done; [|count].
  apply (same_fields_ok (set_proto (Some (RecvResponse r)) e)); try done. by apply reproto_ok.
Qed.

(** ** The response *)

Lemma wait_response_goes D p id w : ok D w → goes D (λ x, is_caller x p) w (wait_response config p id w).
Proof.
  intros Hok. unfold wait_response. destruct (exchanges (st w) !! id) as [e|] eqn:He; [|peels; intros x _; lia].
  destruct (response_taken e) eqn:Ht; [peels; intros x _; lia|]. destruct (error e); [peels; intros x _; lia|].
  pose proof (ok_exchange D w id e Hok He) as [[M1 M2 M3 M4] X2 X3].
  destruct (response e) as [h|] eqn:Hr.
  - peels; try done; [|count]. split; [split|..]; cbn; try done.
    + intros Hb. destruct (M1 Hb) as ((?&?)&?&?). split_and!; [split; [done|by right]|done|done].
    + intros c Hc. destruct (M3 c Hc). split; [done|by right].
  - destruct (response_waiter e) eqn:Hw; [peels; intros x _; lia|].
    assert (Hnh : ¬ heard e) by (intros [_ [?|?]]; congruence).
    assert (Hb : body_ended e = false) by (apply not_true_is_false; intros (? & _)%M1; done).
    peels; [|done|].
    + split; [split|..]; cbn; try done; try congruence. intros c Hc. by destruct Hnh; eapply M3.
    + intros x. unfold waits. cbn. rewrite Hw. cbn. lia.
Qed.

(** Removing an exchange that keeps nobody waiting. *)
Lemma remove_quiet D id w :
  ok D w → (∀ e, exchanges (st w) !! id = Some e → body_ended e = true) →
  goes D (λ _, 0) w (on_st (λ s, set_exchanges (delete id (exchanges s)) s) w).
Proof.
  intros Hok Hq. destruct (exchanges (st w) !! id) as [e|] eqn:He.
  - eapply goes_ext; [|by apply remove_goes]. intros x _. destruct (ok_exchange D w id e Hok He) as [[M1 _ _ _] X2 _].
    specialize (Hq e eq_refl). destruct (M1 Hq) as ((Hr & _) & Hw & _). unfold waits. rewrite Hr, Hw, X2 by done. cbn. lia.
  - apply goes_st; try done; cbn; rewrite ?delete_id by done; try done. intros x. unfold total. cbn. by rewrite delete_id.
Qed.

Lemma next_finish_goes D id p answer cleanup w :
  ok D w → (cleanup ≠ None → ∀ e, exchanges (st w) !! id = Some e → body_ended e = true) →
  goes D (λ x, match answer with Some _ => is_caller x p | None => 0 end) w (next_finish config id p answer cleanup w).
Proof.
  intros Hok Hcl. unfold next_finish. set (w1 := match answer with Some a => reply p a w | None => w end).
  assert (H1 : goes D (λ x, match answer with Some _ => is_caller x p | None => 0 end) w w1).
  { unfold w1. destruct answer; [by apply reply_goes|by apply goes_refl]. }
  assert (He1 : exchanges (st w1) = exchanges (st w)).
  { unfold w1. destruct answer; [|done]. unfold reply. by case_decide. }
  clearbody w1. destruct cleanup as [[[t o] b]|]; [|peels; exact H1].
  assert (Hx : exchanges (st (recycle config t o b w1)) = exchanges (st w1)).
  { assert (Hwk : ∀ w, exchanges (st (wake_queued config w)) = exchanges (st w)).
    { intros w'. unfold wake_queued. cbv zeta. by destruct (list_find _ _) as [[]|]. }
    unfold recycle. cbv zeta. destruct (negb b); [by rewrite Hwk|]. case_decide; by rewrite Hwk. }
  eapply peel; [done| |eapply peel; [done|by apply recycle_goes|exact H1]].
  intros Hok2. apply remove_quiet; [done|]. rewrite Hx, He1. by apply Hcl.
Qed.

Context (Hlow : input_low_water config < input_high_water config).

Lemma take_body_ok p e answer e1 :
  x_ok e → take_body p e = (answer, e1) →
  x_ok e1 ∧ body_ended e1 = body_ended e ∧ (answer = Some (AChunk None) → body_ended e = true)
  ∧ ∀ x, waits x e1 - waits x e = match answer with Some _ => 0 | None => is_caller x p end.
Proof.
  intros Hx Ht. unfold take_body in Ht. destruct (chunks e) as [|c rest] eqn:Hc.
  - destruct (error e); [injection Ht as <- <-; split_and!; [done|done|done|intros x; lia]|].
    destruct (body_ended e) eqn:Hb; [injection Ht as <- <-; split_and!; [done|done|done|intros x; lia]|].
    destruct (body_waiter e) eqn:Hw; injection Ht as <- <-; [split_and!; [done|done|done|intros x; lia]|].
    split_and!; [|done|done|intros x; unfold waits; cbn; rewrite Hw; cbn; lia].
    destruct Hx as [[M1 M2 M3 M4] X2 X3]. split; [by split|cbn; congruence|done].
  - injection Ht as <- <-. split_and!; [|done|done|intros x; unfold waits; cbn; lia].
    destruct Hx as [[M1 M2 M3 M4] X2 X3]. split; [by split|done|]. cbn. destruct X3 as [?|[?|Hbuf]]; [by left|by right; left|].
    right; right. unfold buffered in *. cbn. rewrite Hc in Hbuf. cbn in Hbuf. rewrite length_app in Hbuf. lia.
Qed.

Lemma next_body_goes D p id w :
  ok D w → handles D (λ x, is_caller x p) w (next_body config p id w)
  ∧ ∀ i q a c, (next_body config p id w).2 = Some (TResume i q a (Some c)) →
      i ≤ next_id (st w) ∧ ∀ e', exchanges (st (next_body config p id w).1) !! i = Some e' → body_ended e' = true.
Proof.
  intros Hok. unfold next_body. destruct (exchanges (st w) !! id) as [e|] eqn:He.
  2:{ split; [apply handled; peels; intros x _; lia|done]. }
  pose proof (ok_exchange D w id e Hok He) as Hx. destruct (take_body p e) as [answer e1] eqn:Ht.
  destruct (take_body_ok p e answer e1 Hx Ht) as (H1 & Hb1 & Hn & Hw1).
  set (unpause := paused e1 && _) in *. set (e2 := if unpause then set_paused false e1 else e1) in *.
  assert (H2 : x_ok e2 ∧ body_ended e2 = body_ended e ∧ ∀ x, waits x e2 = waits x e1).
  { unfold e2. destruct unpause eqn:Hu; [|done]. split_and!; [|done|done]. apply andb_true_iff in Hu as [_ Hl%bool_decide_eq_true].
    destruct H1 as [[M1 M2 M3 M4] X2 X3]. split; [by split|done|]. right; right. unfold buffered in *. cbn. lia. }
  destruct H2 as (H2 & Hb2 & Hw2). clearbody e2 unpause.
  set (pair := match answer with Some (AChunk None) => _ | _ => (None, e2) end).
  assert (Hp : x_ok pair.2 ∧ body_ended pair.2 = body_ended e ∧ (∀ x, waits x pair.2 = waits x e2)
               ∧ (pair.1 ≠ None → body_ended e = true)).
  { unfold pair. destruct answer as [[| | |[c|]|]|]; cbn; split_and!; try done.
    - by eapply same_fields_ok.
    - intros _. by apply Hn. }
  clearbody pair. destruct pair as [cleanup e3]. cbn in Hp. destruct Hp as (H3 & Hb3 & Hw3 & Hcl).
  assert (Hput : goes D (λ x, match answer with Some _ => 0 | None => is_caller x p end) w (put_exchange id e3 w)).
  { eapply put_by; [done|done|done|by rewrite Hb3|]. intros x. rewrite <-Hw1, Hw3, Hw2. lia. }
  assert (Hl : exchanges (st (put_exchange id e3 w)) !! id = Some e3) by apply lookup_insert_eq.
  assert (Hend : cleanup ≠ None → ∀ e', exchanges (st (put_exchange id e3 w)) !! id = Some e' → body_ended e' = true).
  { intros Hc e'. rewrite Hl. intros [= <-]. rewrite Hb3. by apply Hcl. }
  destruct unpause; cbn [fst snd].
  - split.
    + unfold handles. cbn [fst snd]. eapply peel; [done|by apply emit_goes|]. eapply goes_ext, Hput. intros x _. destruct answer; cbn; lia.
    + intros i q a c [= <- <- <- ->]. destruct Hok as [_ O2]. split; [by destruct (O2 id e He)|]. by apply Hend.
  - split; [|done]. apply handled. eapply goes_step; [exact Hput|intros Hok1; by apply next_finish_goes|done|].
    intros x _. destruct answer; cbn; lia.
Qed.

Lemma wait_timeout_goes D id session body w : ok D w → goes D (λ _, 0) w (wait_timeout config id session body w).
Proof.
  intros Hok. unfold wait_timeout. destruct (exchanges (st w) !! id) as [e|] eqn:He; [|by apply goes_refl].
  destruct (if body then body_waiter e else response_waiter e) as [p|] eqn:Hs; [|by apply goes_refl].
  case_decide; [|by apply goes_refl]. cbv zeta. eapply peel; [done|by apply cancel_goes|].
  pose proof (ok_exchange D w id e Hok He) as [[M1 M2 M3 M4] X2 X3]. unfold heard in *. peels.
  - destruct body; (split; [split|..]); cbn; try done; unfold heard; cbn; naive_solver.
  - by destruct body.
  - intros x. unfold waits. destruct body; cbn; rewrite Hs; cbn; lia.
Qed.

Lemma cancel_start_goes D token w : token ∈ D → ok D w → goes D (λ _, 0) w (cancel_start config token w).
Proof.
  intros Ht Hok. unfold cancel_start. cbv zeta.
  match goal with |- goes _ _ _ (match _ with Some id => cancel _ id ?w1 | None => _ end) =>
    assert (H1 : goes D (λ _, 0) w w1); [|set (w2 := w1) in *; clearbody w2] end.
  { eapply peel; [done|by apply on_st_goes|]. apply (drop_starts_goes D (λ x, s_token x ≠ token)); [|done].
    intros y Hy. destruct (decide (s_token y = token)) as [->|]; done. }
  destruct (start_tokens (st w) !! token); [eapply peel; [done|by apply cancel_goes|done]|]. peels. exact H1.
Qed.

(** ** Incoming bytes *)

Definition d_total (x : Z * Z) (d : Drive) : Z :=
  waits x (d_exchange d) + tally x (d_replies d).*1 + opt x (fst <$> d_job d).

(** What a turn of the loop keeps. *)
Record turns (d d' : Drive) : Prop := {
  tu_mid : x_mid (d_exchange d');
  tu_ended : body_ended (d_exchange d) = true → body_ended (d_exchange d') = true;
  tu_total : ∀ x, d_total x d' = d_total x d;
}.

Lemma drain_input_Some used d d' :
  drain_input used d = Some d' →
  ∃ rest, d' = with_exchange (set_input rest) d ∧ Z.of_nat (length rest) = Z.of_nat (length (input (d_exchange d))) - Z.max 0 used.
Proof.
  unfold drain_input. case_decide; [|done]. intros [= <-]. exists (drop (Z.to_nat used) (input (d_exchange d))). split; [done|].
  rewrite length_drop. lia.
Qed.

(** An exchange that has not heard from the server, with nothing or one thing changed. *)
Lemma quiet_mid e :
  body_ended e = false → proto e ≠ Some Done → (∀ c, proto e ≠ Some (RecvBody c)) →
  (write_waiter e = None ∨ proto e = None ∨ ∃ c, proto e = Some (Await100 c)) → x_mid e.
Proof.
  intros Hb Hd Hr Hw. split; try congruence.
  - destruct Hw; [congruence|done].
Qed.

Ltac quiet := apply quiet_mid; cbn; try done; try congruence; try (intros ?; congruence); eauto.

Lemma drive_await_turns c d d' :
  body_ended (d_exchange d) = false → proto (d_exchange d) = None → d_job d = None →
  (drive_await c d = Break d' → turns d d') ∧ (drive_await c d = Continue d' → turns d d' ∧ d_job d' = None).
Proof.
  intros Hb Hp Hj. unfold drive_await.
  assert (Hfail : ∀ err, turns d (fail_exchange err d)).
  { intros err. split; [|cbn; congruence|done]. quiet. }
  destruct (try_read_100 c _) as [c' [used|err]]; [|split; [intros [= <-]; apply Hfail|done]].
  destruct (drain_input used d) as [d1|] eqn:Hd; [|done]. apply drain_input_Some in Hd as (rest & -> & _).
  destruct (can_keep_await_100 c').
  { split; [intros [= <-]|done]. split; [|cbn; congruence|done]. quiet. }
  destruct (await_proceed c') as [[b|r]|err].
  - split; [intros [= <-]|done]. split; [|cbn; congruence|].
    + quiet.
    + intros x. unfold d_total, waits. cbn. rewrite Hj. cbn. lia.
  - split; [done|intros [= <-]]. split; [|done]. split; [|cbn; congruence|].
    + quiet.
    + intros x. unfold d_total, waits. cbn. rewrite fmap_app, tally_app. destruct (write_waiter (d_exchange d)) as [[p q]|]; cbn; lia.
  - split; [intros [= <-]|done]. split; [|cbn; congruence|done]. quiet.
Qed.

Lemma drive_response_turns id c d d' :
  body_ended (d_exchange d) = false → proto (d_exchange d) = None → write_waiter (d_exchange d) = None → d_job d = None →
  (drive_response config id c d = Break d' → turns d d') ∧ (drive_response config id c d = Continue d' → turns d d' ∧ d_job d' = None).
Proof.
  intros Hb Hp Hw Hj. unfold drive_response.
  assert (Hfail : ∀ err, turns d (fail_exchange err d)).
  { intros err. split; [|cbn; congruence|done]. quiet. }
  destruct (try_response c _) as [c' [[used [h|]]|err]]; [| |split; [intros [= <-]; apply Hfail|done]].
  - destruct (drain_input used d) as [d1|] eqn:Hd; [|done]. apply drain_input_Some in Hd as (rest & -> & _).
    destruct (response_proceed c') as [next|]; [|done]. cbv zeta. split.
    { destruct (response_waiter _); done. }
    set (e := match next with inl b => _ | inr m => _ end).
    assert (He : write_waiter e = None ∧ response e = Some h ∧ response_waiter e = response_waiter (d_exchange d)
      ∧ body_waiter e = body_waiter (d_exchange d)
      ∧ (body_ended e = true ∧ proto e = Some Done ∨ body_ended e = false ∧ ∃ b, proto e = Some (RecvBody b))).
    { unfold e. destruct next as [b|m]; cbn; rewrite ?Hb; eauto 10. }
    clearbody e. destruct He as (E1 & E2 & E3 & E4 & E5).
    assert (Hmid : ∀ e', heard e' → write_waiter e' = None → body_ended e' = body_ended e → proto e' = proto e → x_mid e').
    { intros e' Hh Hwe E6 E7. destruct E5 as [[Eb Ep]|(Eb & b & Ep)]; split; rewrite ?E6, ?E7, ?Eb, ?Ep, ?Hwe; try done; auto. }
    destruct (response_waiter e) as [p|] eqn:Er; intros [= <-]; (split; [|done]); split; cbn; try congruence.
    + apply Hmid; cbn; try done. split; cbn; auto.
    + intros x. unfold d_total, waits. cbn. rewrite fmap_app, tally_app, Hw, E1, E4, <-E3. cbn. lia.
    + apply Hmid; try done. split; [done|left; congruence].
    + intros x. unfold d_total, waits. cbn. rewrite Hw, E1, Er, E4, <-E3. done.
  - case_decide; (split; [|done]); intros [= <-]; [apply Hfail|]. split; [|cbn; congruence|done]. quiet.
Qed.

Lemma drive_body_turns c d d' :
  body_ended (d_exchange d) = false → proto (d_exchange d) = None → write_waiter (d_exchange d) = None → heard (d_exchange d) → d_job d = None →
  (drive_body config c d = Break d' → turns d d') ∧ (drive_body config c d = Continue d' → turns d d' ∧ d_job d' = None).
Proof.
  intros Hb Hp Hw Hh Hj. unfold drive_body.
  assert (Hkeep : ∀ e', response_waiter e' = response_waiter (d_exchange d) → response e' = response (d_exchange d) →
    response_taken e' = response_taken (d_exchange d) → body_waiter e' = body_waiter (d_exchange d) →
    write_waiter e' = None → (body_ended e' = true ∧ proto e' = Some Done ∨ body_ended e' = false ∧ proto e' ≠ Some Done) →
    turns d (mkDrive e' (d_replies d) (d_job d))).
  { intros e' E1 E2 E3 E4 E5 E6. assert (Hh' : heard e') by (destruct Hh; split; [congruence|by rewrite E2, E3]).
    split; cbn; [|congruence|intros x; unfold d_total, waits; cbn; by rewrite E1, E4, E5, Hw].
    destruct E6 as [[Eb Ep]|[Eb Ep]]; split; rewrite ?Eb, ?E5; try done; auto. }
  case_decide; [split; [intros [= <-]|done]; apply Hkeep; cbn; auto|].
  destruct (body_read c _ _) as [c' [[used bs]|err]]; [|split; [intros [= <-]|done]; apply Hkeep; cbn; try done; right; split; [done|congruence]].
  destruct (drain_input used d) as [d1|] eqn:Hd; [|done]. apply drain_input_Some in Hd as (rest & -> & _). cbv zeta.
  destruct (read_can_proceed c' && negb (close_delimited c')); [destruct (read_proceed c'); [|done]|];
    repeat case_decide; split; try done; intros [= <-]; try (split; [|done]); apply Hkeep; cbn; auto; done.
Qed.

Lemma turns_refl d : x_mid (d_exchange d) → turns d d.
Proof. by split. Qed.

Lemma drive_turn_turns id d d' :
  x_mid (d_exchange d) → d_job d = None →
  (drive_turn config id d = Break d' → turns d d') ∧ (drive_turn config id d = Continue d' → turns d d' ∧ d_job d' = None).
Proof.
  intros Hm Hj. pose proof Hm as [M1 M2 M3 M4]. set (taken := with_exchange (set_proto None) d).
  assert (Hback : ∀ d', turns taken d' → turns d d') by (intros d1 [T1 T2 T3]; by split).
  assert (Hlive : ∀ p, proto (d_exchange d) = Some p → p ≠ Done → body_ended (d_exchange d) = false).
  { intros p Hp Hd. apply not_true_is_false. intros (_ & _ & [?|?])%M1; congruence. }
  assert (Hnow : ∀ p, proto (d_exchange d) = Some p → (∀ c, p ≠ Await100 c) → write_waiter (d_exchange d) = None).
  { intros p Hp Ha. destruct (write_waiter (d_exchange d)) eqn:E; [|done]. destruct M4 as [?|[c ?]]; [done|congruence|].
    by destruct (Ha c); congruence. }
  unfold drive_turn. fold taken. destruct (proto (d_exchange d)) as [[c|c|c|c|]|] eqn:Hp;
    try (split; [intros [= <-]; by apply turns_refl|done]).
  - destruct (drive_await_turns c taken d') as [Hbr Hco]; [by apply (Hlive (Await100 c))|done|done|]. naive_solver.
  - destruct (drive_response_turns id c taken d') as [Hbr Hco];
      [by apply (Hlive (RecvResponse c))|done|by apply (Hnow (RecvResponse c))|done|]. naive_solver.
  - destruct (drive_body_turns c taken d') as [Hbr Hco];
      [by apply (Hlive (RecvBody c))|done|by apply (Hnow (RecvBody c))|by apply (M3 c)|done|]. naive_solver.
Qed.

Lemma drive_loop_turns fuel id d d' :
  x_mid (d_exchange d) → d_job d = None → drive_loop config fuel id d = Some d' → turns d d'.
Proof.
  revert d. induction fuel as [|fuel IH]; intros d Hm Hj; [done|]. cbn [drive_loop].
  destruct (drive_turn config id d) as [d1|d1|] eqn:Ht; [intros [= <-]|intros Hl|done];
    destruct (drive_turn_turns id d d1 Hm Hj) as [Hb Hc]; [by apply Hb|].
  destruct (Hc Ht) as [[T1 T2 T3] Hj1]. destruct (IH d1 T1 Hj1 Hl) as [U1 U2 U3]. split; [done|auto|]. intros x. by rewrite U3.
Qed.

(** The loop ends: the engine moves forward or consumes input. *)
Definition rank (e : Exchange) : nat :=
  match proto e with
  | Some (Await100 _) => length (input e) + 3
  | Some (RecvResponse _) => length (input e) + 2
  | Some (RecvBody _) => length (input e) + 1
  | _ => 0
  end.

Lemma drain_input_fits used d :
  0 ≤ used ≤ Z.of_nat (length (input (d_exchange d))) → ∃ rest, drain_input used d = Some (with_exchange (set_input rest) d)
    ∧ Z.of_nat (length rest) = Z.of_nat (length (input (d_exchange d))) - used.
Proof.
  intros Hu. unfold drain_input. rewrite decide_True by lia. eexists. split; [reflexivity|]. rewrite length_drop. lia.
Qed.

Definition descends (d : Drive) (t : Turn) (bound : nat) : Prop :=
  match t with Panic => False | Break _ => True | Continue d' => (rank (d_exchange d') < bound)%nat end.

Lemma drive_await_descends `{!EngineLaws} c d : descends d (drive_await c d) (length (input (d_exchange d)) + 3).
Proof.
  unfold drive_await. destruct (try_read_100 c _) as [c' [used|err]] eqn:Ht; [|done]. apply try_read_100_used in Ht.
  destruct (drain_input_fits used d Ht) as (rest & -> & Hl). destruct (can_keep_await_100 c'); [done|].
  destruct (await_proceed c') as [[b|r]|err]; try done. cbn. lia.
Qed.

Lemma drive_response_descends `{!EngineLaws} id c d :
  descends d (drive_response config id c d) (length (input (d_exchange d)) + 2).
Proof.
  unfold drive_response. destruct (try_response c _) as [c' [[used [h|]]|err]] eqn:Ht; [| |done].
  - pose proof (response_proceed_ready _ _ _ _ _ Ht) as [next Hn]. apply try_response_used in Ht.
    destruct (drain_input_fits used d Ht) as (rest & -> & Hl). rewrite Hn. cbv zeta.
    destruct next as [b|m]; cbn; destruct (response_waiter (d_exchange d)); cbn; lia.
  - by case_decide.
Qed.

Lemma drive_body_descends `{!EngineLaws} c d : descends d (drive_body config c d) (length (input (d_exchange d)) + 1).
Proof.
  unfold drive_body. case_decide; [done|]. destruct (body_read c _ _) as [c' [[used bs]|err]] eqn:Ht; [|done].
  apply body_read_used in Ht as [Hu Hz]. destruct (drain_input_fits used d Hu) as (rest & -> & Hl). cbv zeta.
  assert (Hne : ¬ (used = 0 ∧ bs = []) → used ≠ 0) by naive_solver.
  destruct (read_can_proceed c') eqn:Hc; [destruct (close_delimited c')|]; cbn [andb negb];
    [|destruct (read_proceed_ready c' Hc) as [m ->]|];
    repeat case_decide; try done; cbn; first [lia|specialize (Hne ltac:(done)); lia].
Qed.

Lemma drive_loop_total `{!EngineLaws} fuel id d : (rank (d_exchange d) < fuel)%nat → is_Some (drive_loop config fuel id d).
Proof.
  revert d. induction fuel as [|fuel IH]; intros d Hf; [lia|]. cbn [drive_loop].
  assert (Hd : descends d (drive_turn config id d) (rank (d_exchange d))).
  { unfold drive_turn, rank. destruct (proto (d_exchange d)) as [[c|c|c|c|]|]; try done.
    - apply (drive_await_descends c (with_exchange (set_proto None) d)).
    - apply (drive_response_descends id c (with_exchange (set_proto None) d)).
    - apply (drive_body_descends c (with_exchange (set_proto None) d)). }
  destruct (drive_turn config id d) as [d1|d1|]; cbn in Hd; [eauto|apply IH; lia|done].
Qed.

Lemma drive_waiter_turns d :
  x_mid (d_exchange d) →
  x_mid (d_exchange (drive_waiter d)) ∧ (body_ended (d_exchange (drive_waiter d)) = true → body_waiter (d_exchange (drive_waiter d)) = None)
  ∧ body_ended (d_exchange (drive_waiter d)) = body_ended (d_exchange d) ∧ ∀ x, d_total x (drive_waiter d) = d_total x d.
Proof.
  intros Hm. unfold drive_waiter. destruct (body_waiter (d_exchange d)) as [p|] eqn:Hw; [|done].
  assert (Htot : ∀ a e x, waits x e = waits x (d_exchange d) → body_waiter e = Some p →
    d_total x (mkDrive (set_body_waiter None e) (d_replies d ++ [(p, a)]) (d_job d)) = d_total x d).
  { intros a e x He Hp. unfold d_total. rewrite <-He. cbn. rewrite fmap_app, tally_app. unfold waits. cbn. rewrite Hp. cbn. lia. }
  destruct (chunks (d_exchange d)) as [|c rest].
  - destruct (error (d_exchange d)); [split_and!; [by destruct Hm; split|done|done|intros x; by apply Htot]|].
    destruct (body_ended (d_exchange d)) eqn:Hb; [|split_and!; [done|congruence|done|done]].
    split_and!; [by destruct Hm; split|done|done|intros x; by apply Htot].
  - split_and!; [by destruct Hm; split|done|done|intros x; by apply Htot].
Qed.

Lemma drive_failed_turns d :
  x_ok (d_exchange d) → x_ok (d_exchange (drive_failed d)) ∧ body_ended (d_exchange (drive_failed d)) = body_ended (d_exchange d)
  ∧ ∀ x, d_total x (drive_failed d) = d_total x d.
Proof.
  intros [[M1 M2 M3 M4] X2 X3]. unfold drive_failed. destruct (error (d_exchange d)); [|done].
  destruct (response_waiter (d_exchange d)) as [p|] eqn:Hw; [|done]. split_and!; [|done|].
  - split; [split|..]; cbn; try done; unfold heard in *; cbn; naive_solver.
  - intros x. unfold d_total, waits. cbn. rewrite fmap_app, tally_app, Hw. cbn. lia.
Qed.

Lemma replies_goes D rs w : ok D w → goes D (λ x, tally x rs.*1) w (replies rs w).
Proof.
  revert w. induction rs as [|r rs IH]; intros w Hok; [by apply goes_refl|]. cbn.
  eapply goes_step; [by apply reply_goes|by apply IH|done|]. intros x _. cbn. lia.
Qed.

Lemma put_exchange_twice id e e' w : put_exchange id e (put_exchange id e' w) = put_exchange id e w.
Proof. unfold put_exchange, on_st, set_exchanges. cbn. by rewrite insert_insert_eq. Qed.

Lemma put_exchange_same id e w : exchanges (st w) !! id = Some e → put_exchange id e w = w.
Proof.
  intros He. unfold put_exchange, on_st, set_exchanges. cbn. rewrite insert_id by done. by destruct w as [[]].
Qed.

(** [drive_input] on an exchange that was just changed to [e0]. *)
Lemma drive_from `{!EngineLaws} D id e e0 w :
  ok D w → exchanges (st w) !! id = Some e → x_mid e0 → (body_ended e = true → body_ended e0 = true) →
  (∀ x, waits x e0 = waits x e) → handles D (λ _, 0) w (drive_input config id (put_exchange id e0 w)).
Proof.
  intros Hok He Hm Hb Hw. unfold drive_input. cbn [st put_exchange on_st exchanges set_exchanges]. rewrite lookup_insert_eq.
  destruct (drive_loop_total (length (input e0) + 4) id (mkDrive e0 [] None)) as [d Hd].
  { cbn. unfold rank. destruct (proto e0) as [[]|]; lia. }
  rewrite Hd. apply drive_loop_turns in Hd as [T1 T2 T3]; [|done|done]. cbn in T2. cbv zeta.
  destruct (drive_waiter_turns d T1) as (U1 & U2 & U3 & U4). set (dw := drive_waiter d) in *. clearbody dw.
  set (pausing := _ && _ && _).
  set (dp := if pausing then with_exchange (set_paused true) dw else dw).
  assert (Hp : x_ok (d_exchange dp) ∧ body_ended (d_exchange dp) = body_ended (d_exchange dw) ∧ ∀ x, d_total x dp = d_total x dw).
  { unfold dp. destruct pausing eqn:E; unfold pausing in E.
    - split_and!; [|done|done]. destruct U1 as [M1 M2 M3 M4]. split; [by split|done|]. right; by left.
    - split_and!; [|done|done]. split; [done|done|]. destruct (body_ended (d_exchange dw)); [by left|right].
      destruct (paused (d_exchange dw)); [by left|right]. cbn in E. rewrite andb_true_r in E. apply bool_decide_eq_false in E. lia. }
  destruct Hp as (P1 & P2 & P3). clearbody dp.
  destruct (drive_failed_turns dp P1) as (F1 & F2 & F3). set (df := drive_failed dp) in *. clearbody df.
  rewrite put_exchange_twice.
  assert (Hgo : goes D (λ x, - opt x (fst <$> d_job df)) w (replies (d_replies df) (put_exchange id (d_exchange df) w))).
  { eapply goes_step; [eapply put_goes; [exact He|done| |done]|intros Hok1; by apply replies_goes|done|].
    - intros Hbe. rewrite F2, P2, U3. auto.
    - intros x _. specialize (F3 x). specialize (P3 x). specialize (U4 x). specialize (T3 x). specialize (Hw x).
      unfold d_total in *. cbn in *. lia. }
  generalize (if pausing then Some (id, transport (d_exchange dw)) else None). intros pause.
  destruct (d_job df) as [[p chunk]|]; cbn in Hgo.
  - unfold handles. eapply goes_step; [exact Hgo|intros Hok1; by apply write_for_goes|done|]. intros x _. cbn. lia.
  - apply pause_transport_goes; [done|]. eapply goes_ext, Hgo. intros x _. cbn. lia.
Qed.

Lemma drive_input_goes `{!EngineLaws} D id w : ok D w → handles D (λ _, 0) w (drive_input config id w).
Proof.
  intros Hok. destruct (exchanges (st w) !! id) as [e|] eqn:He.
  - pose proof (drive_from D id e e w Hok He) as Hd. rewrite put_exchange_same in Hd by done. apply Hd; try done.
    by destruct (ok_exchange D w id e Hok He).
  - unfold drive_input. rewrite He. by apply handled, goes_refl.
Qed.

Lemma continue_timeout_goes `{!EngineLaws} D id w : ok D w → handles D (λ _, 0) w (continue_timeout config id w).
Proof.
  intros Hok. unfold continue_timeout. destruct (exchanges (st w) !! id) as [e|] eqn:He; [|by apply handled, goes_refl].
  pose proof (ok_exchange D w id e Hok He) as Hx.
  assert (Hlost : proto e ≠ None → (∀ c, proto e ≠ Some (Await100 c)) → handles D (λ _, 0) w (put_exchange id (set_proto None e) w, None)).
  { intros Hn Ha. apply handled. peels; [|done|count]. destruct Hx as [[M1 M2 M3 M4] X2 X3].
    split; [split|..]; cbn; try done; auto. intros Hb. destruct (M1 Hb) as (?&?&?). auto. }
  destruct (proto e) as [[c|c|c|c|]|] eqn:Hp; try (by apply Hlost).
  - cbv zeta. pose proof (awaiting_ok e c Hx Hp) as Hb.
    assert (Hbase : ∀ p, p ≠ Some Done → (∀ b, p ≠ Some (RecvBody b)) → x_ok (set_proto p (set_write_waiter None (set_proto None e)))).
    { intros p Hd Hr. destruct Hx as [[M1 M2 M3 M4] X2 X3]. split; [|done|done]. by apply quiet_mid; cbn; auto. }
    assert (Hput : ∀ e', x_ok e' → body_ended e' = body_ended e → (∀ x, waits x e' = waits x e - opt x (fst <$> write_waiter e)) →
      goes D (λ x, - opt x (fst <$> write_waiter e)) w (put_exchange id e' w)).
    { intros e' Hxe Hbe Hwe. peels; [done|by rewrite Hbe|]. intros x. rewrite Hwe. lia. }
    destruct (await_proceed c) as [[b|r]|err].
    + pose proof (Hput (set_proto (Some (SendBody b)) (set_write_waiter None (set_proto None e))) ltac:(by apply Hbase) eq_refl
        ltac:(intros x; unfold waits; cbn; lia)) as Hg.
      destruct (write_waiter e) as [[p chunk]|]; cbn in Hg.
      * unfold handles. eapply goes_step; [exact Hg|intros Hok1; by apply write_for_goes|done|]. intros x _. cbn. lia.
      * apply handled. eapply goes_ext, Hg. intros x _. cbn. lia.
    + pose proof (Hput (set_proto (Some (RecvResponse r)) (set_write_waiter None (set_proto None e))) ltac:(by apply Hbase) eq_refl
        ltac:(intros x; unfold waits; cbn; lia)) as Hg.
      match type of Hg with goes _ _ _ ?w0 => set (w1 := w0) in * end. clearbody w1.
      assert (Hr : goes D (λ _, 0) w (match write_waiter e with Some (p, _) => reply p (AFailed RequestBodyRejected) w1 | None => w1 end)).
      { destruct (write_waiter e) as [[p q]|]; cbn in Hg; [apply peel_reply; [done|]|]; eapply goes_ext, Hg; intros x _; cbn; lia. }
      unfold handles. eapply goes_step; [exact Hr|intros Hok1; by apply drive_input_goes|done|]. intros x _. cbn. lia.
    + assert (Hxe : x_ok (set_error (Some err) (set_write_waiter None (set_proto None e)))).
      { apply (same_fields_ok (set_proto None (set_write_waiter None (set_proto None e)))); try done. by apply Hbase. }
      pose proof (Hput _ Hxe eq_refl ltac:(intros x; unfold waits; cbn; lia)) as Hg. apply handled.
      destruct (write_waiter e) as [[p q]|]; cbn in Hg; [apply peel_reply; [done|]|]; eapply goes_ext, Hg; intros x _; cbn; lia.
  - apply handled. rewrite put_exchange_same; [by apply goes_refl|]. rewrite He. f_equal. rewrite <-Hp. by destruct e.
Qed.

Lemma on_data_goes `{!EngineLaws} D t data w : ok D w → handles D (λ _, 0) w (on_data config t data w).
Proof.
  intros Hok. rewrite on_data_shape. destruct (active (st w) !! t) as [id|]; [|apply handled; peels; intros x _; lia].
  destruct (exchanges (st w) !! id) as [e|] eqn:He; [|by apply handled, goes_refl].
  apply (drive_from D id e); try done. destruct (ok_exchange D w id e Hok He) as [[M1 M2 M3 M4] _ _]. by split.
Qed.

Lemma on_closed_goes `{!EngineLaws} D t failed w : ok D w → handles D (λ _, 0) w (on_closed config t failed w).
Proof.
  intros Hok. unfold on_closed. cbv zeta.
  match goal with |- handles _ _ _ (match _ with Some id => match exchanges (st ?w1) !! id with _ => _ end | None => _ end) =>
    assert (H1 : goes D (λ _, 0) w w1); [|set (w2 := w1) in *; clearbody w2] end.
  { peels. by apply on_st_goes. }
  assert (Hcan : ∀ id, handles D (λ _, 0) w (cancel config id w2, None)).
  { intros id. apply handled. eapply peel; [done|by apply cancel_goes|done]. }
  destruct (active (st w) !! t) as [id|]; [|apply handled; peels; exact H1].
  destruct (exchanges (st w2) !! id) as [e|] eqn:He, failed; try apply Hcan.
  destruct (proto e) as [[| | |c|]|] eqn:Hp; try apply Hcan. destruct (close_delimited c); [|apply Hcan].
  unfold handles. eapply goes_step; [exact H1|intros Hok2|done|intros x _; cbn; reflexivity].
  eapply goes_ext; [|eapply (drive_from D id e); try done].
  - intros x _. cbn. lia.
  - destruct (ok_exchange D w2 id e Hok2 He) as [[M1 M2 M3 M4] _ _]. specialize (M3 c Hp). split; cbn; try done.
    + intros _. split_and!; [done| |by right]. destruct (write_waiter e); [|done]. destruct M4 as [?|[? ?]]; congruence.
    + intros Hw. destruct (M4 Hw) as [?|[? ?]]; congruence.
Qed.

(** ** Messages *)

(** The caller a command brings. *)
Definition brings (p : Pending) (c : Command) (x : Z * Z) : Z :=
  match c with
  | CStart _ _ | CWrite _ _ | CFinish _ | CResponse _ | CNext _ | CCancel _ => is_caller x p
  | CResumeStart y => is_caller x (s_pending y)
  | _ => 0
  end.

Definition cancels (c : Command) : list Z := match c with CCancelStart token => [token] | _ => [] end.

(** Handlers that will put a connection back know that their body has ended. *)
Definition closing (w : W) (ts : list Task) : Prop :=
  ∀ id p a c, TResume id p a (Some c) ∈ ts →
    id ≤ next_id (st w) ∧ ∀ e, exchanges (st w) !! id = Some e → body_ended e = true.

Lemma goes_closing D f w w' ts : goes D f w w' → closing w ts → closing w' ts.
Proof.
  intros [G1 G2 G3 _ G4 _] Hc id p a c Ht. destruct (Hc id p a c Ht) as [Hid He]. split; [lia|]. intros e' He'.
  destruct (G4 id e' He') as [_ [(e & Hle & Hm)|?]]; [|lia]. auto.
Qed.

Lemma calm_closing w t : calm t → closing w (option_list t).
Proof. intros Hc id p a c Ht. destruct t as [[]|]; set_solver. Qed.

Lemma on_command_goes `{!EngineLaws} D p c w :
  ok D w → 0 ≤ next_id (st w) < U64_MAX → (∀ o n, connecting (st w) !! o = Some n → 0 < n) →
  Forall (.∈ D) (cancels c) →
  handles D (brings p c) w (on_command server_name_error config p c w)
  ∧ closing (on_command server_name_error config p c w).1 (option_list (on_command server_name_error config p c w).2).
Proof.
  intros Hok Hn Hpos HD.
  assert (Hs : ∀ y, handles D (λ x, is_caller x (s_pending y)) w (start_exchange server_name_error config y w)
    ∧ closing (start_exchange server_name_error config y w).1 (option_list (start_exchange server_name_error config y w).2)).
  { intros y. split; [by apply start_exchange_goes|]. intros id q a cu Ht.
    assert (Hcl : (id, (cu.1.1, cu.1.2)) ∈ cleanups (option_list (start_exchange server_name_error config y w).2)).
    { apply list_elem_of_omap. eexists. split; [exact Ht|]. by destruct cu as [[? ?] ?]. }
    rewrite start_exchange_cleanups in Hcl. set_solver. }
  destruct c; cbn [on_command brings].
  - apply (Hs (mkStart token p request)).
  - split; [by apply write_goes|apply calm_closing, write_calm].
  - split; [by apply finish_request_goes|apply calm_closing, finish_request_calm].
  - split; [by apply handled, wait_response_goes|by apply calm_closing].
  - destruct (next_body_goes D p id w Hok) as [Hg Hc]. split; [done|]. intros i q a cu Ht.
    assert (Ht' : (next_body config p id w).2 = Some (TResume i q a (Some cu))).
    { destruct (next_body config p id w).2; cbn in Ht; [|set_solver]. apply list_elem_of_singleton in Ht. congruence. }
    destruct (Hc i q a cu Ht'). split; [|done]. pose proof (go_next _ _ _ _ Hg). lia.
  - split; [|by apply calm_closing]. apply handled. peels. eapply goes_ext; [|by apply cancel_goes]. intros x _. cbn. lia.
  - split; [|by apply calm_closing]. apply handled, cancel_start_goes; [|done]. cbn in HD. by inversion HD.
  - split; [|by apply calm_closing]. by apply handled, on_st_goes.
  - split; [by apply continue_timeout_goes|apply calm_closing, continue_timeout_calm].
  - split; [|by apply calm_closing]. by apply handled, wait_timeout_goes.
  - split; [|by apply calm_closing]. by apply handled, idle_timeout_goes.
  - apply (Hs s).
Qed.

Lemma resume_goes `{!EngineLaws} D t r w w' t' :
  ok D w → 0 ≤ next_id (st w) < U64_MAX → (∀ o n, connecting (st w) !! o = Some n → 0 < n) → closing w [t] →
  resume config t r w = Some (w', t') →
  goes D (λ x, held x (Some t) - held x t') w w' ∧ closing w' (option_list t').
Proof.
  intros Hok Hn Hpos Hc Hr. destruct t, r as [r|r]; cbn [resume] in Hr; try done; apply (inj Some) in Hr.
  - pose proof (connected_goes D s call o r w Hok Hn) as Hg. pose proof (connected_calm config s call o r w) as Hca.
    rewrite Hr in Hg, Hca. split; [apply Hg|by apply calm_closing]. intros n Hi. specialize (Hpos o n Hi). lia.
  - injection Hr as <- <-. split; [|by apply calm_closing]. eapply goes_ext; [|by apply started_goes]. intros x _. cbn. lia.
  - pose proof (pause_transport_goes D (λ x, is_caller x p) pause w (reply p (sent r) w) Hok (reply_goes D p (sent r) w Hok)) as Hg.
    pose proof (pause_transport_calm pause (reply p (sent r) w)) as Hca. rewrite Hr in Hg, Hca. split; [apply Hg|by apply calm_closing].
  - injection Hr as <- <-. split; [|by apply calm_closing]. eapply goes_ext; [|by apply reply_goes]. intros x _. cbn. lia.
  - injection Hr as <- <-. split; [|by apply calm_closing]. destruct r; [by apply cancel_goes|by apply goes_refl].
  - injection Hr as <- <-. split; [|by apply calm_closing]. unfold resumed.
    set (w1 := match r with Some _ => cancel config id w | None => w end).
    assert (H1 : goes D (λ _, 0) w w1) by (unfold w1; destruct r; [by apply cancel_goes|by apply goes_refl]).
    eapply goes_step; [exact H1|intros Hok1; apply next_finish_goes; [done|]|done|intros x _; destruct answer; cbn; lia].
    intros Hcl e He. destruct cleanup as [cu|]; [|done]. pose proof (goes_closing D _ w w1 _ H1 Hc) as Hc1.
    destruct (Hc1 id p answer cu) as [_ Hend]; [left|]. by apply Hend.
Qed.

(** ** Runs *)

(** Starts given up by their callers. *)
Definition drops (ev : Event) : list Z :=
  match ev with EDrop token | EMsg _ (ICommand (CCancelStart token)) => [token] | _ => [] end.

(** Commands are private to the client: from outside come the calls of its API. *)
Definition from_api (ev : Event) : Prop :=
  match ev with EMsg _ (ICommand c) => ¬ own c | _ => True end.

Definition asks (x : Z * Z) (ev : Event) : Z :=
  match ev with EMsg p (ICommand c) => brings p c x | EMsg p IOther => is_caller x p | _ => 0 end.

Fixpoint asked (x : Z * Z) (evs : list Event) : Z :=
  match evs with [] => 0 | ev :: evs => asks x ev + asked x evs end.

Fixpoint helds (x : Z * Z) (ts : list Task) : Z :=
  match ts with [] => 0 | t :: ts => held x (Some t) + helds x ts end.

(** The callers that wait for the service. *)
Definition waiting (x : Z * Z) (s : Sys) : Z :=
  tally x (s_pending <$> pending_starts (st (world s))) + resuming x (posted (world s))
  + exchange_waits x (exchanges (st (world s))) + helds x (tasks s).

Record books (D : gset Z) (evs : list Event) (s : Sys) : Prop := {
  bo_ok : ok D (world s);
  bo_stuck : stuck (world s) = false;
  bo_own : own_posted (world s);
  bo_closing : closing (world s) (tasks s);
  bo_tally : ∃ lost : list Start, Forall (λ y, s_token y ∈ D) lost ∧
    ∀ x, x.2 ≠ 0 → answered x (outs (world s)) + waiting x s + tally x (s_pending <$> lost) = asked x evs;
}.

Lemma asked_app x evs evs' : asked x (evs ++ evs') = asked x evs + asked x evs'.
Proof. induction evs; cbn; lia. Qed.

Lemma helds_app x ts ts' : helds x (ts ++ ts') = helds x ts + helds x ts'.
Proof. induction ts; cbn; lia. Qed.

Lemma helds_delete x ts k t : ts !! k = Some t → helds x ts = held x (Some t) + helds x (delete k ts).
Proof.
  revert k. induction ts as [|t0 ts IH]; intros [|k] Hk; try done; [by injection Hk as ->|].
  change (delete (S k) (t0 :: ts)) with (t0 :: delete k ts). cbn [helds]. rewrite (IH k Hk). lia.
Qed.

Lemma held_option x t : helds x (option_list t) = held x t.
Proof. destruct t; cbn; lia. Qed.

(** A handler run from [w], which is the world of [s] up to a message taken out of
    [posted], with [f] callers brought and the suspended handler [t0] taken. *)
Lemma http_books_step D evs ev s w w' t' ts f :
  books D evs s → ok D w → own_posted w → closing w ts →
  gone w = gone (world s) → stuck w = false →
  handles D f w (w', t') → closing w' (option_list t') →
  (∀ x, x.2 ≠ 0 → total x w + f x + helds x ts = answered x (outs (world s)) + waiting x s + asks x ev) →
  books D (evs ++ [ev]) (mkSys w' (ts ++ option_list t')).
Proof.
  intros [B1 B2 B3 B4 (lost & Bl & B5)] Hok Ho Hc Hg Hs Hh Hct Hf. unfold handles in Hh. cbn in Hh. split; cbn [world tasks].
  - by eapply goes_ok.
  - rewrite (go_stuck _ _ _ _ Hh). done.
  - by apply (go_own _ _ _ _ Hh).
  - intros id p a c [Ht|Ht]%elem_of_app; [by eapply goes_closing|by eapply Hct].
  - destruct (go_tally _ _ _ _ Hh) as (l & Hl & Ht). exists (lost ++ l). split; [by apply Forall_app|]. intros x Hx.
    specialize (B5 x Hx). specialize (Ht x Hx). specialize (Hf x Hx). rewrite fmap_app, tally_app, asked_app. cbn [asked].
    unfold waiting in *. unfold total in *. cbn [world tasks]. rewrite helds_app, held_option. lia.
Qed.

Lemma closing_sub w ts ts' : (∀ t, t ∈ ts' → t ∈ ts) → closing w ts → closing w ts'.
Proof. intros Hs Hc id p a c Ht. eapply Hc, Hs, Ht. Qed.

Lemma own_cancels c : own c → cancels c = [].
Proof. by destruct c. Qed.

Lemma dispatch_goes `{!EngineLaws} D p i w :
  ok D w → 0 ≤ next_id (st w) < U64_MAX → (∀ o n, connecting (st w) !! o = Some n → 0 < n) →
  Forall (.∈ D) (drops (EMsg p i)) →
  handles D (λ x, asks x (EMsg p i)) w (dispatch server_name_error config p i w)
  ∧ closing (dispatch server_name_error config p i w).1 (option_list (dispatch server_name_error config p i w).2).
Proof.
  intros Hok Hn Hpos HD. destruct i as [[t data|t|t reason|]|c|]; cbn [dispatch on_transport].
  - split; [by apply on_data_goes|apply calm_closing, on_data_calm].
  - split; [by apply on_closed_goes|apply calm_closing, on_closed_calm].
  - split; [by apply on_closed_goes|apply calm_closing, on_closed_calm].
  - split; [by apply handled, goes_refl|by apply calm_closing].
  - by apply on_command_goes.
  - split; [|by apply calm_closing]. apply handled. cbn. case_decide as E.
    + apply stay; [done|]. intros x Hx. unfold is_caller. rewrite decide_False; [done|]. intros <-. done.
    + destruct Hok as [O1 O2]. split; try done.
      * intros id e He. destruct (O2 id e He). split; [done|left; eauto].
      * exists []. split; [done|]. intros x _. unfold total. cbn [emit st posted outs]. rewrite answered_app.
        change (answered x [ORefuse (p_source p) (p_session p)]) with (is_caller x (mkPending (p_source p) (p_session p)) + 0).
        unfold is_caller. cbn. lia.
Qed.

Lemma step_books `{!EngineLaws} D evs ev s s' :
  0 ≤ next_id (st (world s)) < U64_MAX → (∀ o n, connecting (st (world s)) !! o = Some n → 0 < n) →
  from_api ev → Forall (.∈ D) (drops ev) → books D evs s → step server_name_error config ev s = Some s' → books D (evs ++ [ev]) s'.
Proof.
  intros Hn Hpos Hapi HD Hb Hs. pose proof Hb as [B1 B2 B3 B4 _]. destruct ev as [p i|k|k r|token]; cbn [step] in Hs.
  - destruct (dispatch_goes D p i (world s) B1 Hn Hpos HD) as [Hh Hc].
    destruct (dispatch server_name_error config p i (world s)) as [w' t']. injection Hs as <-.
    eapply (http_books_step D evs _ s (world s)); try done. intros x _. unfold total, waiting. lia.
  - apply bind_Some in Hs as ([ms c] & Hk & Hs). set (w0 := mkW _ _ _ _ _) in Hs.
    assert (Hc0 : own c) by (by apply (Forall_lookup_1 _ _ _ _ B3 Hk)).
    assert (Hok0 : ok D w0) by (destruct B1; by split).
    destruct (on_command_goes D self c w0 Hok0 Hn Hpos) as [Hh Hc]; [by rewrite own_cancels|].
    destruct (on_command server_name_error config self c w0) as [w' t']. injection Hs as <-.
    eapply (http_books_step D evs (EPosted k) s w0); try done; [by apply Forall_delete|].
    intros x Hx. unfold total, waiting. cbn [w0 outs st posted asks].
    assert (Hr : resuming x (posted (world s)) = resuming x [(ms, c)] + resuming x (delete k (posted (world s)))).
    { rewrite <-resuming_app. unfold resuming. apply tally_perm. apply delete_Permutation in Hk. by rewrite Hk at 1. }
    assert (Hbr : brings self c x = resuming x [(ms, c)]).
    { destruct c; try done; cbn; lia. }
    rewrite Hr, Hbr. lia.
  - apply bind_Some in Hs as (t & Hk & Hs). apply bind_Some in Hs as ([w' t'] & Hr & Hs). injection Hs as <-.
    assert (Hct : closing (world s) [t]).
    { eapply closing_sub, B4. intros t0 ->%list_elem_of_singleton. by eapply list_elem_of_lookup_2. }
    destruct (resume_goes D t r (world s) w' t' B1 Hn Hpos Hct Hr) as [Hg Hc].
    eapply (http_books_step D evs _ s (world s) w' t' (delete k (tasks s)) (λ x, held x (Some t))); try done.
    + eapply closing_sub, B4. intros t0 Ht0. eapply elem_of_submseteq; [exact Ht0|]. apply sublist_submseteq, sublist_delete.
    + intros x _. cbn [asks]. unfold total, waiting. rewrite (helds_delete x (tasks s) k t Hk). lia.
  - injection Hs as <-. destruct Hb as [_ _ _ _ (lost & Hl & Ht)]. split; cbn [world tasks]; try done.
    + destruct B1 as [O1 O2]. split; [|done]. cbn. cbn in HD. inversion HD; subst. set_solver.
    + exists lost. split; [done|]. intros x Hx. rewrite asked_app. cbn [asked asks]. rewrite <-(Ht x Hx). unfold waiting. cbn [world tasks st posted outs]. lia.
Qed.

Lemma http_run_books `{!EngineLaws} evs s :
  sane config → Forall from_api evs → NoDup (connections server_name_error config evs sys_new).*1 →
  Z.of_nat (length evs) ≤ U64_MAX → run server_name_error config evs sys_new = Some s →
  ∀ D : gset Z, Forall (.∈ D) (evs ≫= drops) → books D evs s.
Proof.
  intros Hsane Hapi Hnd Hl Hr. revert evs s Hr Hapi Hnd Hl. refine (client_run_invariant _ _ _ _ _).
  - intros _ _ _ D _. split; cbn; try done.
    + constructor.
    + intros id p a c Ht. set_solver.
    + exists []. split; [done|]. intros x _. done.
  - intros evs ev s s' Hr IH Hs Hapi Hnd Hl D HD. rewrite bind_app in HD. cbn in HD. rewrite app_nil_r in HD.
    apply Forall_app in HD as [HD1 HD2]. apply Forall_app in Hapi as [Hapi1 Hapi2]. rewrite length_app in Hl. cbn in Hl.
    rewrite (connections_snoc _ _ _ _ _ _ Hr), fmap_app in Hnd. apply NoDup_app in Hnd as [Hnd _].
    pose proof (run_exclusive _ _ evs s Hnd ltac:(lia) Hr) as Hx. pose proof (run_limits _ _ evs s Hsane Hr) as Hli.
    pose proof (ex_next _ _ _ _ Hx) as Hn.
    apply (step_books D evs ev s s'); [lia|exact (li_positive _ _ _ _ _ Hli)|by inversion Hapi2|done|apply IH; [done|done|lia|done]|done].
Qed.

(** C22 Every caller of the HTTP client is answered at most once and none is forgotten: over any
    sequence of calls, transport events, timers and results, in any order, the service does
    not panic, its loops end, and the answers a caller got, the places where it still waits
    and the starts it gave up itself are together exactly the calls it made. *)
Theorem exchanges_answered_once `{!EngineLaws} evs s :
  sane config → Forall from_api evs → NoDup (connections server_name_error config evs sys_new).*1 →
  Z.of_nat (length evs) ≤ U64_MAX → run server_name_error config evs sys_new = Some s →
  stuck (world s) = false ∧
  ∃ lost : list Start, Forall (λ y, s_token y ∈ evs ≫= drops) lost ∧
    ∀ x, x.2 ≠ 0 → answered x (outs (world s)) + waiting x s + tally x (s_pending <$> lost) = asked x evs.
Proof.
  intros Hsane Hapi Hnd Hl Hr.
  destruct (http_run_books evs s Hsane Hapi Hnd Hl Hr (list_to_set (evs ≫= drops))) as [_ Hst _ _ (lost & Hlo & Ht)].
  { apply Forall_forall. intros t. by rewrite elem_of_list_to_set. }
  split; [done|]. exists lost. split; [|done]. eapply Forall_impl; [exact Hlo|]. intros y. by rewrite elem_of_list_to_set.
Qed.

(** Flow control: between handlers an exchange whose body is not complete either has its
    transport paused or holds less than [input_high_water] bytes, and callers of
    [next_chunk] and [response] wait only while there is nothing to give them. *)
Theorem input_held_back `{!EngineLaws} evs s id e :
  sane config → Forall from_api evs → NoDup (connections server_name_error config evs sys_new).*1 →
  Z.of_nat (length evs) ≤ U64_MAX → run server_name_error config evs sys_new = Some s →
  exchanges (st (world s)) !! id = Some e →
  (body_ended e = true ∨ paused e = true ∨ buffered e < input_high_water config)
  ∧ (body_ended e = true → body_waiter e = None ∧ response_waiter e = None ∧ write_waiter e = None)
  ∧ ∀ c, proto e = Some (RecvBody c) → response_waiter e = None.
Proof.
  intros Hsane Hapi Hnd Hl Hr He.
  destruct (http_run_books evs s Hsane Hapi Hnd Hl Hr (list_to_set (evs ≫= drops))) as [[_ Hok] _ _ _ _].
  { apply Forall_forall. intros t. by rewrite elem_of_list_to_set. }
  destruct (Hok id e He) as [[[M1 M2 M3 M4] X2 X3] _]. split_and!; [done| |].
  - intros Hb. destruct (M1 Hb) as ((?&_)&?&_). auto.
  - intros c Hc. by destruct (M3 c Hc).
Qed.
End books.

(** ** Where a caller loses its response *)

Section lost.
Context `{Engine} (server_name_error : string → option string) (config : HttpClientConfig).

(** An exchange without protocol state that waits for its response. *)
Record deaf (id : Z) (e : Exchange) (w : W) (e' : Exchange) : Prop := {
  de_lookup : exchanges (st w) !! id = Some e';
  de_active : active (st w) !! transport e = Some id;
  de_proto : proto e' = None;
  de_ended : body_ended e' = false;
  de_error : error e' = None;
  de_chunks : chunks e' = [];
  de_transport : transport e' = transport e;
  de_response : response_waiter e' = response_waiter e;
  de_body : body_waiter e' = body_waiter e;
}.

Definition reply_free (w w' : W) : Prop := ∀ s n a, OReply s n a ∈ outs w' → OReply s n a ∈ outs w.

Lemma deaf_data id e w e' data :
  deaf id e w e' →
  (∃ e2, deaf id e (on_data config (transport e) data w).1 e2) ∧ reply_free w (on_data config (transport e) data w).1.
Proof.
  intros [D1 D2 D3 D4 D5 D6 D7 D8 D9]. unfold on_data. rewrite D2, D1. set (e1 := set_input (input e' ++ data) e').
  unfold drive_input. cbn [st put_exchange on_st exchanges set_exchanges]. rewrite lookup_insert_eq.
  assert (Hl : drive_loop config (length (input e1) + 4) id (mkDrive e1 [] None) = Some (mkDrive e1 [] None)).
  { replace (length (input e1) + 4)%nat with (S (length (input e1) + 3)) by lia. cbn [drive_loop]. unfold drive_turn.
    cbn [d_exchange]. change (proto e1) with (proto e'). by rewrite D3. }
  rewrite Hl. clear Hl.
  assert (Hw : drive_waiter (mkDrive e1 [] None) = mkDrive e1 [] None).
  { unfold drive_waiter. cbn. rewrite D6, D5, D4. by destruct (body_waiter e'). }
  rewrite Hw. cbv zeta. cbn [d_exchange]. set (pausing := _ && _ && _). clearbody pausing.
  assert (Hf : ∀ d, d_replies d = [] → d_job d = None → error (d_exchange d) = None → drive_failed d = d).
  { intros d _ _ He. unfold drive_failed. by rewrite He. }
  rewrite Hf by (by destruct pausing).
  set (e2 := d_exchange (if pausing then with_exchange (set_paused true) (mkDrive e1 [] None) else mkDrive e1 [] None)).
  assert (Hj : d_job (if pausing then with_exchange (set_paused true) (mkDrive e1 [] None) else mkDrive e1 [] None) = None) by (by destruct pausing).
  assert (Hr : d_replies (if pausing then with_exchange (set_paused true) (mkDrive e1 [] None) else mkDrive e1 [] None) = []) by (by destruct pausing).
  rewrite Hj, Hr. cbn [replies foldl]. unfold pause_transport.
  assert (Hd : ∀ w', st w' = st (put_exchange id e2 (put_exchange id e1 w)) → deaf id e w' e2).
  { intros w' Hs. split; rewrite ?Hs; cbn; rewrite ?lookup_insert_eq; try done; unfold e2; by destruct pausing. }
  destruct pausing; (split; [exists e2; by apply Hd|]); intros s n a; cbn; [|done].
  rewrite elem_of_app. intros [?|Ho%list_elem_of_singleton]; done.
Qed.

(** The timer of [Expect: 100-continue] destroys an exchange that has moved on.  When it
    fires and the exchange is no longer waiting for the 100 (the server said 100, the body
    went out, the response is awaited), the protocol state is taken out and not put back:
    whatever bytes the server sends from then on, no caller gets an answer, and the
    response ends in a timeout. *)
Theorem continue_timeout_loses_exchange id w e datas :
  exchanges (st w) !! id = Some e → active (st w) !! transport e = Some id →
  is_await100 e = false → body_ended e = false → error e = None → chunks e = [] →
  let w1 := (on_command server_name_error config self (CContinueTimeout id) w).1 in
  let w2 := foldl (λ w data, (on_data config (transport e) data w).1) w1 datas in
  (∃ e2, exchanges (st w2) !! id = Some e2 ∧ proto e2 = None ∧ response_waiter e2 = response_waiter e
         ∧ body_waiter e2 = body_waiter e)
  ∧ ∀ s n a, OReply s n a ∈ outs w2 → OReply s n a ∈ outs w.
Proof.
  intros He Ha Hw Hb Her Hch w1 w2.
  assert (H1 : deaf id e w1 (set_proto None e) ∧ reply_free w w1).
  { unfold w1. cbn [on_command]. unfold continue_timeout. rewrite He. unfold is_await100 in Hw. destruct (proto e) as [[]|]; try done; cbn [fst];
      (split; [split; cbn; rewrite ?lookup_insert_eq; done|by intros s n a]). }
  destruct H1 as [H1 Hf]. clearbody w1. unfold w2. clear w2.
  assert (Hall : ∀ ds w e', deaf id e w e' →
    (∃ e2, deaf id e (foldl (λ w data, (on_data config (transport e) data w).1) w ds) e2)
    ∧ reply_free w (foldl (λ w data, (on_data config (transport e) data w).1) w ds)).
  { induction ds as [|data ds IH]; intros w' e' Hd; [cbn; split; [eauto|by intros s n a]|]. cbn.
    destruct (deaf_data id e w' e' data Hd) as [(e2 & Hd2) Hf2]. destruct (IH _ _ Hd2) as [Hx Hf3]. split; [done|].
    intros s n a Hin. by apply Hf2, Hf3. }
  destruct (Hall datas w1 _ H1) as [(e2 & [D1 D2 D3 D4 D5 D6 D7 D8 D9]) Hf2]. split; [exists e2; auto|].
  intros s n a Hin. by apply Hf, Hf2.
Qed.

(** A server that closes the connection after a complete response takes the response back:
    the close of a connection whose exchange is complete removes the exchange with the
    chunks nobody has read yet, and the next call of the reader is refused. *)
Theorem close_discards_body t id e w p :
  active (st w) !! t = Some id → exchanges (st w) !! id = Some e → proto e = Some Done → p_session p ≠ 0 →
  let w1 := (dispatch server_name_error config self (IEvent (Closed t)) w).1 in
  exchanges (st w1) !! id = None
  ∧ OReply (p_source p) (p_session p) (AFailed BodyClosed) ∈ outs (next_body config p id w1).1.
Proof.
  intros Ha He Hp Hs w1. assert (Hn : exchanges (st w1) !! id = None).
  { unfold w1. cbn [dispatch on_transport]. unfold on_closed. rewrite Ha. cbv zeta.
    cbn [st on_st exchanges forget_transport set_active set_origins set_idle_generation set_idle]. rewrite He, Hp. cbn [fst].
    unfold cancel. cbn [st on_st exchanges forget_transport set_active set_origins set_idle_generation set_idle]. rewrite He. cbv zeta.
    assert (Hwk : ∀ w, exchanges (st (wake_queued config w)) = exchanges (st w)).
    { intros w'. unfold wake_queued. cbv zeta. by destruct (list_find _ _) as [[]|]. }
    assert (Hre : ∀ o a w, exchanges (st (match o with Some p => reply p a w | None => w end)) = exchanges (st w)).
    { intros [q|] a w'; [|done]. unfold reply. by case_decide. }
    rewrite Hwk, !Hre. cbn. apply lookup_delete_eq. }
  split; [done|]. unfold next_body. rewrite Hn. cbn [fst]. unfold reply. rewrite decide_False by done. cbn. set_solver.
Qed.
End lost.

(** ** Concrete runs *)

Section demo.
Import ToyEngine.

Lemma demo_api : Forall from_api demo_events.
Proof. repeat constructor; cbn; tauto. Qed.

Lemma default_water : 0 < input_high_water client_default ∧ input_low_water client_default < input_high_water client_default.
Proof. by vm_compute. Qed.

Lemma demo_short : Z.of_nat (length demo_events) ≤ U64_MAX.
Proof. by vm_compute. Qed.

Lemma demo_sane : sane client_default.
Proof. by vm_compute. Qed.

Lemma exchanges_answered_once_witness :
  ∃ s, demo_run = Some s ∧ (stuck (world s) = false ∧
  ∃ lost : list Start, Forall (λ y, s_token y ∈ demo_events ≫= drops) lost ∧
    ∀ x, x.2 ≠ 0 → answered x (outs (world s)) + waiting x s + tally x (s_pending <$> lost) = asked x demo_events).
Proof.
  destruct demo_view as (s & Hs & _). exists s. split; [exact Hs|].
  exact (exchanges_answered_once no_names client_default (proj1 default_water) (proj2 default_water) demo_events s
           demo_sane demo_api demo_fresh demo_short Hs).
Defined.

Lemma input_held_back_witness :
  ∃ s e, demo_run = Some s ∧ exchanges (st (world s)) !! 2 = Some e ∧
  ((body_ended e = true ∨ paused e = true ∨ buffered e < input_high_water client_default)
  ∧ (body_ended e = true → body_waiter e = None ∧ response_waiter e = None ∧ write_waiter e = None)
  ∧ ∀ c, proto e = Some (RecvBody c) → response_waiter e = None).
Proof.
  assert (Hv : ∃ s, demo_run = Some s ∧ bool_decide (is_Some (exchanges (st (world s)) !! 2)) = true) by (apply some_view; by vm_compute).
  destruct Hv as (s & Hs & [e He]%bool_decide_eq_true). exists s, e. split; [exact Hs|]. split; [exact He|].
  exact (input_held_back no_names client_default (proj1 default_water) (proj2 default_water) demo_events s 2 e
           demo_sane demo_api demo_fresh demo_short Hs He).
Defined.

(** A request with [Expect: 100-continue]: the server says 100, the body goes out, and the
    caller waits for the response. *)
Definition expect_events : list (Event (H := toy)) :=
  [ EMsg (from 1) (ICommand (CStart 1 (plain_get true (Fixed 2))));
    EResume 0 (RConnected (inl t1));
    EResume 0 (RDone None);
    EMsg self (IEvent (Data t1 [100]));
    EMsg (from 2) (ICommand (CWrite 1 [1; 2]));
    EResume 0 (RDone None);
    EMsg (from 3) (ICommand (CFinish 1));
    EResume 0 (RDone None);
    EMsg (from 4) (ICommand (CResponse 1)) ].

Definition awaiting_response (s : Sys (H := toy)) : bool :=
  match exchanges (st (world s)) !! 1 with
  | Some e => bool_decide (active (st (world s)) !! t1 = Some 1) && bool_decide (transport e = t1) && negb (is_await100 e)
              && negb (body_ended e) && match error e with None => true | _ => false end
              && match chunks e with [] => true | _ => false end
              && match response_waiter e with Some p => bool_decide (p_session p = 4) | _ => false end
  | None => false
  end.

Lemma expect_view : ∃ s, run no_names client_default expect_events sys_new = Some s ∧ awaiting_response s = true.
Proof. apply some_view. by vm_compute. Qed.

Lemma awaiting_response_inv s :
  awaiting_response s = true → ∃ e, exchanges (st (world s)) !! 1 = Some e ∧ active (st (world s)) !! transport e = Some 1
    ∧ is_await100 e = false ∧ body_ended e = false ∧ error e = None ∧ chunks e = [].
Proof.
  unfold awaiting_response. destruct (exchanges (st (world s)) !! 1) as [e|]; [|done].
  rewrite !andb_true_iff, !negb_true_iff, !bool_decide_eq_true. intros ((((((Ha & Ht) & Hw) & Hb) & He) & Hc) & _).
  exists e. rewrite Ht. destruct (error e); [done|]. by destruct (chunks e).
Qed.

Lemma continue_timeout_loses_exchange_witness :
  ∃ s e, run no_names client_default expect_events sys_new = Some s ∧ exchanges (st (world s)) !! 1 = Some e ∧
  let w1 := (on_command no_names client_default self (CContinueTimeout 1) (world s)).1 in
  let w2 := foldl (λ w data, (on_data client_default (transport e) data w).1) w1 [[200; 2; 0; 65; 66]] in
  (∃ e2, exchanges (st w2) !! 1 = Some e2 ∧ proto e2 = None ∧ response_waiter e2 = response_waiter e
         ∧ body_waiter e2 = body_waiter e)
  ∧ ∀ s' n a, OReply s' n a ∈ outs w2 → OReply s' n a ∈ outs (world s).
Proof.
  destruct expect_view as (s & Hs & Hv). destruct (awaiting_response_inv s Hv) as (e & He & Ha & Hw & Hb & Her & Hc).
  exists s, e. split; [exact Hs|]. split; [exact He|].
  apply (continue_timeout_loses_exchange no_names client_default 1 (world s) e [[200; 2; 0; 65; 66]] He Ha Hw Hb Her Hc).
Defined.

(** A complete response of two bytes that the caller has not read yet. *)
Definition unread (s : Sys (H := toy)) : bool :=
  match exchanges (st (world s)) !! 1 with
  | Some e => bool_decide (active (st (world s)) !! t1 = Some 1) && bool_decide (chunks e = [[65; 66]])
              && match proto e with Some Done => true | _ => false end
  | None => false
  end.

Lemma unread_view : ∃ s, run no_names client_default (take 7 demo_events) sys_new = Some s ∧ unread s = true.
Proof. apply some_view. by vm_compute. Qed.

Lemma unread_inv s :
  unread s = true → ∃ e, exchanges (st (world s)) !! 1 = Some e ∧ active (st (world s)) !! t1 = Some 1
    ∧ proto e = Some Done ∧ chunks e = [[65; 66]].
Proof.
  unfold unread. destruct (exchanges (st (world s)) !! 1) as [e|]; [|done]. rewrite !andb_true_iff, !bool_decide_eq_true.
  intros [[Ha Hc] Hp]. exists e. destruct (proto e) as [[]|]; done.
Qed.

Lemma close_discards_body_witness :
  ∃ s e, run no_names client_default (take 7 demo_events) sys_new = Some s ∧ exchanges (st (world s)) !! 1 = Some e
  ∧ chunks e = [[65; 66]] ∧
  let w1 := (dispatch no_names client_default self (IEvent (Closed t1)) (world s)).1 in
  exchanges (st w1) !! 1 = None
  ∧ OReply (p_source (from 4)) (p_session (from 4)) (AFailed BodyClosed) ∈ outs (next_body client_default (from 4) 1 w1).1.
Proof.
  destruct unread_view as (s & Hs & Hv). destruct (unread_inv s Hv) as (e & He & Ha & Hp & Hc).
  exists s, e. split; [exact Hs|]. split; [exact He|]. split; [exact Hc|].
  apply (close_discards_body no_names client_default t1 1 e (world s) (from 4) Ha He Hp). cbn. lia.
Defined.

(** ** A queued start that is left behind *)

Definition small_config : HttpClientConfig := mkClientConfig 1 1 1 1 1 3 2 3 2 100 50 64 64.

Definition get_from (host : string) : Request := mkRequest (H := toy) false (mkUri (Some "http"%string) (Some host) None) [] Empty.

(** Three connections are open, one to [a] and two to [x]; two starts for [a] and one for
    [b] are queued.  Both connections to [x] close, the two starts for [a] are woken, and
    only one of them may connect. *)
Definition left_events : list (Event (H := toy)) :=
  [ EMsg (from 1) (ICommand (CStart 1 (get_from "a"))); EResume 0 (RConnected (inl (Plain 1))); EResume 0 (RDone None);
    EMsg (from 2) (ICommand (CStart 2 (get_from "x"))); EResume 0 (RConnected (inl (Plain 2))); EResume 0 (RDone None);
    EMsg (from 3) (ICommand (CStart 3 (get_from "x"))); EResume 0 (RConnected (inl (Plain 3))); EResume 0 (RDone None);
    EMsg (from 4) (ICommand (CStart 4 (get_from "a")));
    EMsg (from 5) (ICommand (CStart 5 (get_from "a")));
    EMsg (from 6) (ICommand (CStart 6 (get_from "b")));
    EMsg self (IEvent (Closed (Plain 2))); EMsg self (IEvent (Closed (Plain 3)));
    EPosted 0; EPosted 0 ].

Definition left_behind (s : Sys (H := toy)) : bool :=
  match pending_starts (st (world s)), posted (world s) with
  | x :: _, [] => bool_decide (s_token x = 6) && alive (s_token x) (world s) && startable small_config (st (world s)) x
  | _, _ => false
  end.

(** A start can be left in the queue although a connection is free for it: a start that is
    woken, finds its origin full again and queues up once more does not wake the next one, so
    the start for another origin waits with nothing under way to wake it. *)
Theorem queued_start_left_behind :
  validate small_config = None ∧
  ∃ s x, run no_names small_config left_events sys_new = Some s
    ∧ x ∈ pending_starts (st (world s)) ∧ alive (s_token x) (world s) = true
    ∧ startable small_config (st (world s)) x = true ∧ posted (world s) = [].
Proof.
  split; [done|]. assert (Hv : ∃ s, run no_names small_config left_events sys_new = Some s ∧ left_behind s = true) by (apply some_view; by vm_compute).
  destruct Hv as (s & Hs & Hl). unfold left_behind in Hl. destruct (pending_starts (st (world s))) as [|x rest] eqn:Hp; [done|].
  destruct (posted (world s)) eqn:Ho; [|done]. apply andb_true_iff in Hl as [Hl Hst]. apply andb_true_iff in Hl as [_ Hal].
  exists s, x. rewrite Hp. split_and!; [done|left|done|done|done].
Qed.
End demo.
End HttpBooks.
