(* ===== verification/WsSocket.v ===== *)
(** * WebSocket connections

    [EventIo], the configurations, [SharedSocket], [WebSocket] and [WebSocketSender] of
    [rskynet-http/src/websocket.rs].  The frame codec is the [tungstenite] crate: a class
    [WsEngine] of its socket states.  A read takes bytes off the input of the [EventIo]
    and may write to its output; what it leaves and what it writes are returned.

    A socket lives in a _host_ (the HTTP server or the WebSocket client), which keeps it
    in a map by transport; the closure [cleanup] takes it out of there and is the class
    [Host].  A handler that awaits is suspended: the rest of it is a [SockTask].  A waker
    is the number of the call it wakes; [woken] are the calls that have been woken. *)
From S2P Require Import Prelude HttpHead HttpClient.
From stdpp Require Import strings.
#[local] Open Scope Z_scope.

Module WsSocket.
Import HttpHead.
Import HttpClient(TransportId, Plain, OverTls, TransportId_eq_dec, TransportId_countable).

(** ** The stream under a socket *)

Record EventIo : Type := mkIo { io_input : list Z; io_output : list Z }.

Definition io_default : EventIo := mkIo [] [].

Definition push_input (data : list Z) (io : EventIo) : EventIo := mkIo (io_input io ++ data) (io_output io).

Definition take_output (io : EventIo) : EventIo * list Z := (mkIo (io_input io) [], io_output io).

(** [Read::read] into a buffer of [cap] bytes; [None] is [WouldBlock]. *)
Definition io_read (cap : Z) (io : EventIo) : EventIo * option (list Z) :=
  if decide (io_input io = []) then (io, None) else
  let used := Z.to_nat (Z.min cap (Z.of_nat (length (io_input io)))) in
  (mkIo (drop used (io_input io)) (io_output io), Some (take used (io_input io))).

(** [Write::write]: all of it, at once. *)
Definition io_write (data : list Z) (io : EventIo) : EventIo * Z :=
  (mkIo (io_input io) (io_output io ++ data), Z.of_nat (length data)).

(** Reads with buffers of the given sizes. *)
Fixpoint io_reads (caps : list Z) (io : EventIo) : EventIo * list Z :=
  match caps with
  | [] => (io, [])
  | cap :: caps =>
      let '(io, got) := io_read cap io in
      let '(io, rest) := io_reads caps io in
      (io, default [] got ++ rest)
  end.

(** Whatever the sizes of the buffers, the bytes come out as they went in. *)
Lemma io_reads_stream caps io io' bs : io_reads caps io = (io', bs) → io_input io = bs ++ io_input io' ∧ io_output io' = io_output io.
Proof.
  revert io io' bs. induction caps as [|cap caps IH]; intros io io' bs; cbn; [by intros [= <- <-]|].
  unfold io_read. case_decide as E.
  - destruct (io_reads caps io) as [io1 rest] eqn:Hr. intros [= <- <-]. by apply IH in Hr.
  - cbn. destruct (io_reads caps _) as [io1 rest] eqn:Hr. intros [= <- <-]. apply IH in Hr as [Hi Ho]. cbn in Hi, Ho. split; [|done].
    by rewrite <- app_assoc, <- Hi, take_drop.
Qed.

(** ** Configuration *)

Record WebSocketConfig : Type := mkWsConfig {
  read_buffer_size : Z; write_buffer_size : Z; max_write_buffer_size : Z;
  max_frame_size : option Z; max_message_size : option Z }.

Definition default_protocol_config : WebSocketConfig :=
  mkWsConfig (8 * 1024) 0 (1024 * 1024) (Some (2 * 1024 * 1024)) (Some (8 * 1024 * 1024)).

Record WebSocketUpgradeOptions : Type := mkUpgrade {
  u_websocket : WebSocketConfig;
  u_input_high_water : Z;
  u_input_low_water : Z;
  u_close_timeout_ms : Z;
  u_protocol : option string }.

Definition upgrade_default : WebSocketUpgradeOptions :=
  mkUpgrade default_protocol_config (256 * 1024) (128 * 1024) 5000 None.

Definition with_protocol (p : string) (o : WebSocketUpgradeOptions) : WebSocketUpgradeOptions :=
  mkUpgrade (u_websocket o) (u_input_high_water o) (u_input_low_water o) (u_close_timeout_ms o) (Some p).

Definition upgrade_validate (o : WebSocketUpgradeOptions) : option HttpError :=
  if decide (u_input_low_water o = 0 ∨ u_input_high_water o ≤ u_input_low_water o ∨ u_close_timeout_ms o = 0)
  then Some (Config "websocket") else None.

Record WebSocketClientConfig : Type := mkWsClientConfig {
  wc_connect_timeout_ms : Z;
  wc_handshake_timeout_ms : Z;
  wc_close_timeout_ms : Z;
  wc_input_high_water : Z;
  wc_input_low_water : Z;
  wc_websocket : WebSocketConfig }.

Definition ws_client_default : WebSocketClientConfig :=
  mkWsClientConfig 10000 30000 5000 (256 * 1024) (128 * 1024) default_protocol_config.

Definition ws_client_validate (c : WebSocketClientConfig) : option HttpError :=
  if decide (wc_connect_timeout_ms c = 0 ∨ wc_handshake_timeout_ms c = 0 ∨ wc_close_timeout_ms c = 0
             ∨ wc_input_low_water c = 0 ∨ wc_input_high_water c ≤ wc_input_low_water c)
  then Some (Config "websocket client") else None.

(** ** The frame codec *)

Inductive WsError : Type := WouldBlock | ConnectionClosed | OtherError (reason : string).

Class WsEngine : Type := {
  WsSock : Type; WsMessage : Type; CloseFrame : Type;
  message_len : WsMessage → Z;
  from_partially_read : list Z → bool → WebSocketConfig → WsSock;   (* [true]: the server's role *)
  ws_read : WsSock → list Z → WsSock * list Z * list Z * (WsMessage + WsError);
  ws_send : WsSock → WsMessage → WsSock * list Z * option string;
  ws_close : WsSock → option CloseFrame → WsSock * list Z * option string;
  ws_flush : WsSock → WsSock * list Z * option string;
  (* bytes read from the stream and not yet part of a message *)
  ws_backlog : WsSock → nat;
}.

(** A message takes bytes, and a read blocks only when the stream is empty. *)
Class WsLaws `{WsEngine} : Prop := {
  read_progress s i s' r o m : ws_read s i = (s', r, o, inl m) → (ws_backlog s' + length r < ws_backlog s + length i)%nat;
  read_blocks s i s' r o : ws_read s i = (s', r, o, inr WouldBlock) → r = [];
  message_len_pos m : 0 ≤ message_len m;
}.

(** What a host does when a socket is done with. *)
Class Host (St : Type) : Type := clean : TransportId → St → St.

(** ** Sockets *)

Section socket.
Context `{WsEngine} {St : Type} `{Host St}.

Record Shared : Type := mkShared {
  owner : Z;
  transport : TransportId;
  protocol : option string;
  high : Z;
  low : Z;
  close_timeout : Z;
  socket : WsSock;
  io : EventIo;
  messages : list WsMessage;
  queued_bytes : Z;
  recv_waker : option Z;
  ended : bool;
  error : option HttpError;
  paused : bool;
}.

Definition set_socket x y (s : Shared) := mkShared (owner s) (transport s) (protocol s) (high s) (low s) (close_timeout s) x y (messages s) (queued_bytes s) (recv_waker s) (ended s) (error s) (paused s).
Definition set_queue x y (s : Shared) := mkShared (owner s) (transport s) (protocol s) (high s) (low s) (close_timeout s) (socket s) (io s) x y (recv_waker s) (ended s) (error s) (paused s).
Definition set_waker x (s : Shared) := mkShared (owner s) (transport s) (protocol s) (high s) (low s) (close_timeout s) (socket s) (io s) (messages s) (queued_bytes s) x (ended s) (error s) (paused s).
Definition set_ended x (s : Shared) := mkShared (owner s) (transport s) (protocol s) (high s) (low s) (close_timeout s) (socket s) (io s) (messages s) (queued_bytes s) (recv_waker s) x (error s) (paused s).
Definition set_error x (s : Shared) := mkShared (owner s) (transport s) (protocol s) (high s) (low s) (close_timeout s) (socket s) (io s) (messages s) (queued_bytes s) (recv_waker s) (ended s) x (paused s).
Definition set_paused x (s : Shared) := mkShared (owner s) (transport s) (protocol s) (high s) (low s) (close_timeout s) (socket s) (io s) (messages s) (queued_bytes s) (recv_waker s) (ended s) (error s) x.

Inductive Eff : Type :=
  | Send (t : TransportId) (data : list Z)
  | Pause (t : TransportId)
  | Resume (t : TransportId)
  | Shutdown (t : TransportId).

(** [handles]: the [WebSocket] values that are not borrowed by a call, with their
    [active].  [up]: whether the service of the transport has its name. *)
Record W : Type := mkW {
  host : St;
  sockets : gmap Z Shared;
  handles : gmap Z bool;
  effects : list Eff;
  woken : gset Z;
  now : Z;
  up : TransportId → bool;
  stuck : bool;
}.

Definition on_host (f : St → St) (w : W) := mkW (f (host w)) (sockets w) (handles w) (effects w) (woken w) (now w) (up w) (stuck w).
Definition put (id : Z) (s : Shared) (w : W) := mkW (host w) (<[id := s]> (sockets w)) (handles w) (effects w) (woken w) (now w) (up w) (stuck w).
Definition set_handles x (w : W) := mkW (host w) (sockets w) x (effects w) (woken w) (now w) (up w) (stuck w).
Definition emit (e : Eff) (w : W) := mkW (host w) (sockets w) (handles w) (effects w ++ [e]) (woken w) (now w) (up w) (stuck w).
Definition wake_call (c : Z) (w : W) := mkW (host w) (sockets w) (handles w) (effects w) ({[c]} ∪ woken w) (now w) (up w) (stuck w).
Definition unwake (c : Z) (w : W) := mkW (host w) (sockets w) (handles w) (effects w) (woken w ∖ {[c]}) (now w) (up w) (stuck w).
Definition set_now x (w : W) := mkW (host w) (sockets w) (handles w) (effects w) (woken w) x (up w) (stuck w).
Definition set_up x (w : W) := mkW (host w) (sockets w) (handles w) (effects w) (woken w) (now w) x (stuck w).
Definition panic (w : W) := mkW (host w) (sockets w) (handles w) (effects w) (woken w) (now w) (up w) true.

Definition wake (c : option Z) (w : W) : W := match c with Some c => wake_call c w | None => w end.

Definition shutdown (t : TransportId) (w : W) : W := emit (Shutdown t) w.

Definition cleanup (s : Shared) (w : W) : W := on_host (clean (transport s)) w.

(** The rest of a suspended operation. *)
Inductive SockTask : Type :=
  | DataSent (id : Z) (pause : bool) (waker : option Z) (down : bool)
  | DataPaused (id : Z) (waker : option Z) (down : bool)
  | Receiving (id : Z)
  | RecvResumed (id : Z) (answer : option WsMessage + HttpError)
  | Sending
  | CloseSent (id : Z)
  | CloseSleep (id : Z) (started : Z).

Inductive SockRet : Type :=
  | SockDone (r : option HttpError)
  | SockMessage (r : option WsMessage + HttpError).

(** [SharedSocket::from_socket]; it fails when the transport service has no name. *)
Definition from_socket (me id : Z) (t : TransportId) (socket : WsSock) (io : EventIo) (protocol : option string)
    (high low close_timeout : Z) (w : W) : W * option HttpError :=
  if up w t then (put id (mkShared me t protocol high low close_timeout socket io [] 0 None false None false) w, None)
  else (w, Some (InvalidState "transport service not started")).

(** [SharedSocket::server]. *)
Definition server (me id : Z) (t : TransportId) (tail : list Z) (o : WebSocketUpgradeOptions) (w : W) : W * option HttpError :=
  from_socket me id t (from_partially_read tail true (u_websocket o)) io_default
    (u_protocol o) (u_input_high_water o) (u_input_low_water o) (u_close_timeout_ms o) w.

Definition check_owner (h : Z) (s : Shared) : option HttpError :=
  if decide (owner s = h) then None else Some (InvalidState "not the owner").

(** An operation of [tungstenite] on the socket and its stream. *)
Definition after (sock : WsSock) (rest out : list Z) (s : Shared) : Shared :=
  set_socket sock (mkIo rest (io_output (io s) ++ out)) s.

(** The loop of [on_data]; [None] is out of fuel.  The flag is [shutdown]. *)
Fixpoint pump (fuel : nat) (s : Shared) : option (Shared * bool) :=
  match fuel with
  | O => None
  | S fuel =>
      let '(sock, rest, out, r) := ws_read (socket s) (io_input (io s)) in
      let s := after sock rest out s in
      match r with
      | inl m => pump fuel (set_queue (messages s ++ [m]) (saturating_add (queued_bytes s) (message_len m)) s)
      | inr WouldBlock => Some (s, false)
      | inr ConnectionClosed => Some (set_ended true s, true)
      | inr (OtherError e) => Some (set_ended true (set_error (Some (WebSocket e)) s), true)
      end
  end.

Definition pump_fuel (s : Shared) : nat := S (ws_backlog (socket s) + length (io_input (io s))).

Definition take_socket_output (s : Shared) : Shared * list Z :=
  let '(io, out) := take_output (io s) in (set_socket (socket s) io s, out).

(** The end of [on_data]: wake the reader, and shut down. *)
Definition data_end (id : Z) (waker : option Z) (down : bool) (w : W) : W * (SockTask + SockRet) :=
  let w := wake waker w in
  match sockets w !! id with
  | None => (panic w, inr (SockDone None))
  | Some s => (if down then shutdown (transport s) (cleanup s w) else w, inr (SockDone None))
  end.

Definition data_pause (id : Z) (pause : bool) (waker : option Z) (down : bool) (w : W) : W * (SockTask + SockRet) :=
  match sockets w !! id with
  | None => (panic w, inr (SockDone None))
  | Some s =>
      if pause then (emit (Pause (transport s)) w, inl (DataPaused id waker down)) else data_end id waker down w
  end.

Definition on_data (h id : Z) (data : list Z) (w : W) : W * (SockTask + SockRet) :=
  match sockets w !! id with
  | None => (panic w, inr (SockDone None))
  | Some s =>
      match check_owner h s with
      | Some e => (w, inr (SockDone (Some e)))
      | None =>
          if ended s then (w, inr (SockDone None)) else
          let s := set_socket (socket s) (push_input data (io s)) s in
          match pump (pump_fuel s) s with
          | None => (panic w, inr (SockDone None))
          | Some (s, down) =>
              let '(s, output) := take_socket_output s in
              let pause := negb (paused s) && bool_decide (high s ≤ queued_bytes s) in
              let s := if pause then set_paused true s else s in
              let waker := recv_waker s in
              let w := put id (set_waker None s) w in
              if decide (output = []) then data_pause id pause waker down w
              else (emit (Send (transport s) output) w, inl (DataSent id pause waker down))
          end
      end
  end.

Definition on_closed (id : Z) (reason : option string) (w : W) : W :=
  match sockets w !! id with
  | None => panic w
  | Some s =>
      let waker := recv_waker s in
      let s := set_ended true s in
      let s := match reason with Some r => set_error (Some (Transport r)) s | None => s end in
      cleanup s (wake waker (put id (set_waker None s) w))
  end.

(** [AbortTransport::abort] sends [Shutdown] to the transport service. *)
Definition abort (id : Z) (w : W) : W :=
  match sockets w !! id with
  | None => panic w
  | Some s => on_closed id None (shutdown (transport s) w)
  end.

(** One poll of [recv] by the call [c]; the answer and whether to resume the transport. *)
Definition recv_poll (c : Z) (s : Shared) : Shared * option ((option WsMessage + HttpError) * bool) :=
  match messages s with
  | m :: rest =>
      let s := set_queue rest (saturating_sub (queued_bytes s) (message_len m)) s in
      let resume := paused s && bool_decide (queued_bytes s ≤ low s) in
      (if resume then set_paused false s else s, Some (inl (Some m), resume))
  | [] =>
      match error s with
      | Some e => (set_error None s, Some (inr e, false))
      | None => if ended s then (s, Some (inl None, false)) else (set_waker (Some c) s, None)
      end
  end.

Definition receive (c id : Z) (w : W) : W * (SockTask + SockRet) :=
  match sockets w !! id with
  | None => (panic w, inr (SockDone None))
  | Some s =>
      match recv_poll c s with
      | (s, None) => (put id s w, inl (Receiving id))
      | (s, Some (answer, true)) => (emit (Resume (transport s)) (put id s w), inl (RecvResumed id answer))
      | (s, Some (answer, false)) => (put id s w, inr (SockMessage answer))
      end
  end.

Definition recv (h c id : Z) (w : W) : W * (SockTask + SockRet) :=
  match sockets w !! id ≫= check_owner h with
  | Some e => (w, inr (SockMessage (inr e)))
  | None => receive c id w
  end.

Definition send (h id : Z) (m : WsMessage) (w : W) : W * (SockTask + SockRet) :=
  match sockets w !! id with
  | None => (panic w, inr (SockDone None))
  | Some s =>
      match check_owner h s with
      | Some e => (w, inr (SockDone (Some e)))
      | None =>
          if ended s then (w, inr (SockDone (Some BodyClosed))) else
          let '(sock, out, err) := ws_send (socket s) m in
          let s := after sock (io_input (io s)) out s in
          match err with
          | Some e => (put id s w, inr (SockDone (Some (WebSocket e))))
          | None =>
              let '(s, output) := take_socket_output s in
              if decide (output = []) then (put id s w, inr (SockDone None))
              else (emit (Send (transport s) output) (put id s w), inl Sending)
          end
      end
  end.

(** One turn of the loop at the end of [close]. *)
Definition close_wait (id started : Z) (w : W) : W * (SockTask + SockRet) :=
  match sockets w !! id with
  | None => (panic w, inr (SockDone None))
  | Some s =>
      if ended s then (w, inr (SockDone None)) else
      if decide (close_timeout s ≤ saturating_sub (now w) started) then
        (on_closed id None (shutdown (transport s) w), inr (SockDone None))
      else (w, inl (CloseSleep id started))
  end.

Definition close (h id : Z) (frame : option CloseFrame) (w : W) : W * (SockTask + SockRet) :=
  match sockets w !! id with
  | None => (panic w, inr (SockDone None))
  | Some s =>
      match check_owner h s with
      | Some e => (w, inr (SockDone (Some e)))
      | None =>
          if ended s then (w, inr (SockDone None)) else
          let '(sock, out, err) := ws_close (socket s) frame in
          let s := after sock (io_input (io s)) out s in
          match err with
          | Some e => (put id s w, inr (SockDone (Some (WebSocket e))))
          | None =>
              let '(sock, out, err) := ws_flush (socket s) in
              let s := after sock (io_input (io s)) out s in
              match err with
              | Some e => (put id s w, inr (SockDone (Some (WebSocket e))))
              | None =>
                  let '(s, output) := take_socket_output s in
                  let w := put id s w in
                  if decide (output = []) then close_wait id (now w) w
                  else (emit (Send (transport s) output) w, inl (CloseSent id))
              end
          end
      end
  end.

(** ** Suspended operations *)

(** An awaited operation returned, or a poll or the end of a sleep. *)
Inductive Resumed : Type := RDone (r : option HttpError) | RAgain.

(** The rest of the operation that the call [c] is suspended in.  A poll uses up the
    wake-up that led to it. *)
Definition sock_resume (c : Z) (t : SockTask) (r : Resumed) (w : W) : option (W * (SockTask + SockRet)) :=
  match t, r with
  | DataSent id pause waker down, RDone None => Some (data_pause id pause waker down w)
  | DataSent _ _ _ _, RDone (Some e) => Some (w, inr (SockDone (Some e)))
  | DataPaused id waker down, RDone None => Some (data_end id waker down w)
  | DataPaused _ _ _, RDone (Some e) => Some (w, inr (SockDone (Some e)))
  | Receiving id, RAgain => Some (receive c id (unwake c w))
  | RecvResumed id answer, RDone None => Some (w, inr (SockMessage answer))
  | RecvResumed id _, RDone (Some e) => Some (w, inr (SockMessage (inr e)))
  | Sending, RDone r => Some (w, inr (SockDone r))
  | CloseSent id, RDone None => Some (close_wait id (now w) w)
  | CloseSent _, RDone (Some e) => Some (w, inr (SockDone (Some e)))
  | CloseSleep id started, RAgain => Some (close_wait id started w)
  | _, _ => None
  end.

(** ** The values given to the application *)

(** A [WebSocket] receives and closes by [&mut self]; sending, and closing through a
    [WebSocketSender], share. *)
Inductive WsCall : Type :=
  | CallRecv (id : Z)
  | CallSend (id : Z) (m : WsMessage)
  | CallClose (id : Z) (frame : option CloseFrame)
  | CallSenderClose (id : Z) (frame : option CloseFrame).

Definition call_id (x : WsCall) : Z :=
  match x with CallRecv id | CallSend id _ | CallClose id _ | CallSenderClose id _ => id end.

(** The [WebSocket] a call borrows. *)
Definition borrows (x : WsCall) : option Z :=
  match x with CallRecv id | CallClose id _ => Some id | _ => None end.

Definition ws_call (h c : Z) (x : WsCall) (w : W) : W * (SockTask + SockRet) :=
  match x with
  | CallRecv id => recv h c id w
  | CallSend id m => send h id m w
  | CallClose id frame | CallSenderClose id frame => close h id frame w
  end.

(** [WebSocket::new]. *)
Definition new_handle (id : Z) (w : W) : W := set_handles (<[id := true]> (handles w)) w.

(** What [recv] and [close] of [WebSocket] do to [active] when they return. *)
Definition active_after (x : WsCall) (r : SockRet) (active : bool) : bool :=
  match x, r with
  | CallRecv _, SockMessage (inl None) => false
  | CallClose _ _, SockDone None => false
  | _, _ => active
  end.

(** [WebSocket::drop]. *)
Definition drop_handle (id : Z) (w : W) : W :=
  match handles w !! id with
  | Some active =>
      let w := set_handles (delete id (handles w)) w in
      if (active : bool) then abort id w else w
  | None => w
  end.
End socket.
End WsSocket.
