(* ===== verification/WsBooks.v ===== *)
(** * What a WebSocket promises to its reader

    Sockets of [WsSocket.v] as a system of calls: the host opens them, hands them bytes
    and closes them; the application receives, sends and closes; suspended calls go on in
    any order.  A reader is woken when there is something for it, messages come in the
    order they were read, [close] ends in time; and what happens when sending fails. *)
From S2P Require Import Prelude HttpHead HttpClient WsSocket.
From stdpp Require Import strings.
#[local] Open Scope Z_scope.

Module WsBooks.
Import HttpHead WsSocket.

Section system.
Context `{WsEngine} {St : Type} `{Host St}.

(** Who made a call: the host with bytes, or the application, with the [active] of the
    [WebSocket] the call borrows. *)
Inductive Caller : Type := ByHost | ByApp (x : WsCall) (active : option bool).

Inductive Event : Type :=
  | EOpen (id : Z) (s : Shared)
  | EData (h c id : Z) (data : list Z)
  | EClosed (id : Z) (reason : option string)
  | EAbort (id : Z)
  | ECall (h c : Z) (x : WsCall)
  | EResume (c : Z) (r : Resumed)
  | EDrop (id : Z)
  | ENow (n : Z)
  | EHost (f : St → St).

Record Sys : Type := mkSys { world : W (St := St); calls : gmap Z (Caller * SockTask); rets : list (WsCall * SockRet) }.

Definition sys_new (h : St) (u : HttpClient.TransportId → bool) : Sys := mkSys (mkW h ∅ ∅ [] ∅ 0 u false) ∅ [].

(** A call returns, or is suspended. *)
Definition settle (c : Z) (by_ : Caller) (r : W (St := St) * (SockTask + SockRet)) (s : Sys) : Sys :=
  match r with
  | (w, inl t) => mkSys w (<[c := (by_, t)]> (calls s)) (rets s)
  | (w, inr ret) =>
      match by_ with
      | ByHost => mkSys w (calls s) (rets s)
      | ByApp x active =>
          let w := match borrows x, active with
                   | Some id, Some a => set_handles (<[id := active_after x ret a]> (handles w)) w
                   | _, _ => w
                   end in
          mkSys w (calls s) (rets s ++ [(x, ret)])
      end
  end.

(** A new socket: nothing queued, nobody waiting. *)
Definition fresh (s : Shared) : bool :=
  match messages s, recv_waker s, error s with
  | [], None, None => bool_decide (queued_bytes s = 0) && bool_decide (0 < low s < high s) && negb (ended s) && negb (paused s)
  | _, _, _ => false
  end.

Definition step (ev : Event) (s : Sys) : option Sys :=
  let w := world s in
  match ev with
  | EOpen id sh =>
      if decide (sockets w !! id = None ∧ fresh sh = true) then
        Some (mkSys (new_handle id (put id sh w)) (calls s) (rets s)) else None
  | EData h c id data =>
      if decide (calls s !! c = None ∧ is_Some (sockets w !! id)) then Some (settle c ByHost (on_data h id data w) s) else None
  | EClosed id reason => if decide (is_Some (sockets w !! id)) then Some (mkSys (on_closed id reason w) (calls s) (rets s)) else None
  | EAbort id => if decide (is_Some (sockets w !! id)) then Some (mkSys (abort id w) (calls s) (rets s)) else None
  | ECall h c x =>
      if decide (calls s !! c = None ∧ c ∉ woken w) then
        match borrows x with
        | Some id =>
            a ← handles w !! id;
            Some (settle c (ByApp x (Some a)) (ws_call h c x (set_handles (delete id (handles w)) w)) s)
        | None =>
            match x with
            | CallSend id _ | CallSenderClose id _ =>
                if decide (is_Some (sockets w !! id)) then Some (settle c (ByApp x None) (ws_call h c x w) s) else None
            | _ => None
            end
        end
      else None
  | EResume c r =>
      '(by_, t) ← calls s !! c;
      r ← sock_resume c t r w;
      Some (settle c by_ r (mkSys w (delete c (calls s)) (rets s)))
  | EDrop id => if decide (is_Some (handles w !! id)) then Some (mkSys (drop_handle id w) (calls s) (rets s)) else None
  | ENow n => Some (mkSys (set_now (Z.max n (now w)) w) (calls s) (rets s))
  | EHost f => Some (mkSys (on_host f w) (calls s) (rets s))
  end.

Fixpoint run (evs : list Event) (s : Sys) : option Sys :=
  match evs with
  | [] => Some s
  | ev :: evs => s ← step ev s; run evs s
  end.

(** ** The loop of [on_data] *)

(** What reading keeps. *)
Definition same_socket (s s' : Shared) : Prop :=
  owner s' = owner s ∧ transport s' = transport s ∧ high s' = high s ∧ low s' = low s
  ∧ recv_waker s' = recv_waker s ∧ paused s' = paused s.

Lemma pump_spec fuel s s' down :
  pump fuel s = Some (s', down) →
  same_socket s s' ∧ (∃ new, messages s' = messages s ++ new)
  ∧ (down = false → ended s' = ended s ∧ error s' = error s) ∧ (down = true → ended s' = true).
Proof.
  revert s. induction fuel as [|fuel IH]; intros s; [done|]. cbn [pump].
  destruct (ws_read _ _) as [[[sock rest] out] r]. destruct r as [m|[| |e]].
  - intros Hp. apply IH in Hp as ((?&?&?&?&?&?) & (new & Hn) & Hd). cbn in *.
    split; [done|]. split; [|done]. exists ([m] ++ new). rewrite Hn. by rewrite app_assoc.
  - intros [= <- <-]. cbn. split; [done|]. split; [exists []; by rewrite app_nil_r|done].
  - intros [= <- <-]. cbn. split; [done|]. split; [exists []; by rewrite app_nil_r|done].
  - intros [= <- <-]. cbn. split; [done|]. split; [exists []; by rewrite app_nil_r|done].
Qed.

(** Every message takes bytes: the fuel of [on_data] is enough. *)
Lemma pump_total `{!WsLaws} fuel s : (ws_backlog (socket s) + length (io_input (io s)) < fuel)%nat → is_Some (pump fuel s).
Proof.
  revert s. induction fuel as [|fuel IH]; intros s Hf; [lia|]. cbn [pump].
  destruct (ws_read _ _) as [[[sock rest] out] r] eqn:Hr. destruct r as [m|[| |e]]; [|by eexists..].
  apply IH. cbn. apply read_progress in Hr. lia.
Qed.

(** The messages that bytes handed to a socket bring. *)
Definition pumped_of (h : Z) (data : list Z) (sh : Shared) : list WsMessage :=
  match check_owner h sh, ended sh with
  | None, false =>
      let s1 := set_socket (socket sh) (push_input data (io sh)) sh in
      match pump (pump_fuel s1) s1 with
      | Some (s2, _) => drop (length (messages sh)) (messages s2)
      | None => []
      end
  | _, _ => []
  end.

(** ** What an operation does to the sockets *)

(** Only the socket [id] changes. *)
Definition changed (id : Z) (sh' : Shared) (w w' : W (St := St)) : Prop :=
  sockets w' = <[id := sh']> (sockets w) ∧ handles w' = handles w ∧ stuck w' = stuck w.

Definition carries (t : SockTask) : option Z :=
  match t with DataSent _ _ c _ | DataPaused _ c _ => c | _ => None end.

Definition task_id (t : SockTask) : option Z :=
  match t with
  | DataSent id _ _ _ | DataPaused id _ _ | Receiving id | RecvResumed id _ | CloseSent id | CloseSleep id _ => Some id
  | Sending => None
  end.

(** Above the high water mark a socket is marked as paused. *)
Definition flow_ok (sh : Shared) : Prop := paused sh = true ∨ queued_bytes sh < high sh.

(** A socket from which nobody is to be woken. *)
Definition silent (sh : Shared) : Prop := messages sh = [] ∧ error sh = None ∧ ended sh = false.

(** The waker of a socket is used, or handed on in the suspended rest of [on_data]. *)
Definition waker_used (c : option Z) (w : W (St := St)) (r : W (St := St) * (SockTask + SockRet)) : Prop :=
  (∃ t, r.2 = inl t ∧ carries t = c ∧ (∃ i p d, t = DataSent i p c d ∨ t = DataPaused i c d) ∧ woken r.1 = woken w)
  ∨ ((∃ e, r.2 = inr (SockDone e)) ∧ woken r.1 = match c with Some c => {[c]} ∪ woken w | None => woken w end).

Lemma data_end_spec id waker down w sh :
  sockets w !! id = Some sh →
  let r := data_end id waker down w in
  sockets r.1 = sockets w ∧ handles r.1 = handles w ∧ stuck r.1 = stuck w ∧ r.2 = inr (SockDone None)
  ∧ woken r.1 = match waker with Some c => {[c]} ∪ woken w | None => woken w end.
Proof. intros Hs. unfold data_end. destruct waker as [c|]; cbn; rewrite Hs; by destruct down. Qed.

Lemma data_pause_spec id pause waker down w sh :
  sockets w !! id = Some sh →
  let r := data_pause id pause waker down w in
  sockets r.1 = sockets w ∧ handles r.1 = handles w ∧ stuck r.1 = stuck w
  ∧ (∀ t, r.2 = inl t → task_id t = Some id) ∧ waker_used waker w r.
Proof.
  intros Hs. unfold data_pause. rewrite Hs. destruct pause; cbn.
  - split_and!; try done; [by intros t [= <-]|]. left. cbn. eexists. split; [done|]. split_and!; try done. exists id, true, down. auto.
  - destruct (data_end_spec id waker down w sh Hs) as (?&?&?&Hr&?). split_and!; try done; [by intros t; rewrite Hr|].
    right. eauto.
Qed.

Lemma on_data_spec `{!WsLaws} h id data w sh :
  sockets w !! id = Some sh →
  let r := on_data h id data w in
  (r.1 = w ∧ (∃ e, r.2 = inr (SockDone e)) ∧ pumped_of h data sh = [])
  ∨ ∃ sh', changed id sh' w r.1 ∧ messages sh' = messages sh ++ pumped_of h data sh ∧ recv_waker sh' = None
      ∧ high sh' = high sh ∧ low sh' = low sh ∧ flow_ok sh' ∧ (∀ t, r.2 = inl t → task_id t = Some id) ∧ waker_used (recv_waker sh) w r.
Proof.
  intros Hs. unfold on_data, pumped_of. rewrite Hs. destruct (check_owner h sh) as [e|]; [left; cbn; eauto|].
  destruct (ended sh); [left; cbn; eauto|]. right. cbv zeta.
  set (s1 := set_socket _ _ _). destruct (pump_total (pump_fuel s1) s1) as [[s2 down] Hp]; [unfold pump_fuel; lia|].
  rewrite Hp. destruct (pump_spec _ _ _ _ Hp) as ((_ & Ht & Hh & Hlo & Hw & Hpa) & (new & Hn) & _).
  change (messages s1) with (messages sh) in Hn. change (recv_waker s1) with (recv_waker sh) in Hw.
  change (high s1) with (high sh) in Hh. change (low s1) with (low sh) in Hlo.
  unfold take_socket_output, take_output. cbn beta iota. set (s3 := set_socket _ _ s2).
  set (pause := negb (paused s3) && bool_decide (high s3 ≤ queued_bytes s3)).
  set (s4 := if pause then set_paused true s3 else s3).
  assert (H4 : recv_waker s4 = recv_waker sh ∧ messages s4 = messages s2 ∧ high s4 = high sh ∧ low s4 = low sh ∧ flow_ok s4).
  { unfold s4, flow_ok, pause. destruct (paused s3) eqn:E; cbn; [split_and!; [done..|left; exact E]|].
    case_bool_decide; cbn; (split_and!; [done..|]); [by left|right; cbn; lia]. }
  destruct H4 as (Hw4 & Hm4 & Hh4 & Hl4 & Hf4). rewrite Hw4. exists (set_waker None s4).
  assert (Hlook : sockets (put id (set_waker None s4) w) !! id = Some (set_waker None s4)) by (cbn; by rewrite lookup_insert_eq).
  assert (Hm : messages (set_waker None s4) = messages sh ++ drop (length (messages sh)) (messages s2)).
  { cbn. rewrite Hm4, Hn, drop_app_length. done. }
  case_decide.
  - destruct (data_pause_spec id pause (recv_waker sh) down _ _ Hlook) as (?&?&?&?&Hu). unfold changed.
    split_and!; try done; try congruence.
  - unfold changed. split_and!; try done; [by intros t [= <-]|]. left. cbn. eexists. split; [done|]. split_and!; try done. exists id, pause, down. auto.
Qed.

Definition waked (c : option Z) (k : gset Z) : gset Z := match c with Some c => {[c]} ∪ k | None => k end.

(** An operation that leaves the queue of messages alone: it keeps what the reader waits
    for, or ends the socket and wakes the reader. *)
Definition mild (id : Z) (sh : Shared) (w w' : W (St := St)) : Prop :=
  ∃ sh', changed id sh' w w' ∧ messages sh' = messages sh
    ∧ queued_bytes sh' = queued_bytes sh ∧ paused sh' = paused sh ∧ high sh' = high sh ∧ low sh' = low sh
    ∧ ((recv_waker sh' = recv_waker sh ∧ ended sh' = ended sh ∧ error sh' = error sh ∧ woken w' = woken w)
       ∨ (recv_waker sh' = None ∧ woken w' = waked (recv_waker sh) (woken w))).

Lemma mild_refl id sh w : sockets w !! id = Some sh → mild id sh w w.
Proof. intros Hs. exists sh. unfold changed. rewrite insert_id by done. auto 20. Qed.

(** The socket after an operation of the codec. *)
Lemma mild_put id sh sock io' w :
  sockets w !! id = Some sh → mild id sh w (put id (set_socket sock io' sh) w).
Proof. intros Hs. eexists. unfold changed. cbn. split_and!; try done. by left. Qed.

Lemma on_closed_mild id reason w sh : sockets w !! id = Some sh → mild id sh w (on_closed id reason w).
Proof.
  intros Hs. unfold on_closed. rewrite Hs. cbv zeta. set (s1 := match reason with Some _ => _ | None => _ end).
  exists (set_waker None s1). unfold changed. unfold s1.
  destruct (recv_waker sh) eqn:E; destruct reason; cbn; (split_and!; try done; right; cbn; by rewrite ?E).
Qed.

Lemma mild_emit id sh w w' e : mild id sh w w' → mild id sh w (emit e w').
Proof. intros (sh' & Hc & Hr). exists sh'. exact (conj Hc Hr). Qed.

Lemma mild_trans id sh sh1 w w1 w2 :
  sockets w1 !! id = Some sh1 → mild id sh w w1 → recv_waker sh1 = recv_waker sh → ended sh1 = ended sh → error sh1 = error sh →
  woken w1 = woken w → mild id sh1 w1 w2 → mild id sh w w2.
Proof.
  intros H1 (sh1' & (Hc1 & Hh1 & Hst1) & Hm1 & Hq1 & Hp1 & Hi1 & Hl1 & _) Hw He Her Hk (sh2 & (Hc2 & Hh2 & Hst2) & Hm2 & Hq2 & Hp2 & Hi2 & Hl2 & Hd).
  rewrite Hc1, lookup_insert_eq in H1. injection H1 as ->. exists sh2. unfold changed.
  rewrite Hc2, Hc1, insert_insert_eq. split_and!; try congruence; by rewrite <- Hw, <- He, <- Her, <- Hk.
Qed.

Lemma abort_mild id w sh : sockets w !! id = Some sh → mild id sh w (abort id w).
Proof. intros Hs. unfold abort. rewrite Hs. exact (on_closed_mild id None (shutdown (transport sh) w) sh Hs). Qed.

(** What an operation of the application may leave behind. *)
Definition plain_task (id : Z) (r : SockTask + SockRet) : Prop :=
  match r with
  | inl t => t = Sending ∨ t = CloseSent id ∨ ∃ n, t = CloseSleep id n
  | inr r => ∃ e, r = SockDone e
  end.

Lemma close_wait_spec id started w sh :
  sockets w !! id = Some sh → let r := close_wait id started w in mild id sh w r.1 ∧ plain_task id r.2.
Proof.
  intros Hs. unfold close_wait. rewrite Hs. destruct (ended sh); [cbn; eauto using mild_refl|].
  case_decide; cbn; [|split; [by apply mild_refl|eauto]]. split; [|eauto]. exact (on_closed_mild id None (shutdown (transport sh) w) sh Hs).
Qed.

Lemma send_spec h id m w sh :
  sockets w !! id = Some sh → let r := send h id m w in mild id sh w r.1 ∧ plain_task id r.2.
Proof.
  intros Hs. unfold send. rewrite Hs. destruct (check_owner h sh); [cbn; eauto using mild_refl|].
  destruct (ended sh); [cbn; eauto using mild_refl|]. destruct (ws_send _ _) as [[sock out] err].
  destruct err; [split; [by apply mild_put|cbn; eauto]|]. unfold take_socket_output, take_output. cbn beta iota.
  case_decide; (split; [|cbn; eauto]).
  - exact (mild_put id sh _ _ w Hs).
  - apply mild_emit. exact (mild_put id sh _ _ w Hs).
Qed.

Lemma ws_close_spec h id frame w sh :
  sockets w !! id = Some sh → let r := close h id frame w in mild id sh w r.1 ∧ plain_task id r.2.
Proof.
  intros Hs. unfold close. rewrite Hs. destruct (check_owner h sh); [cbn; eauto using mild_refl|].
  destruct (ended sh); [cbn; eauto using mild_refl|]. destruct (ws_close _ _) as [[sock out] err].
  destruct err; [split; [by apply mild_put|cbn; eauto]|]. destruct (ws_flush _) as [[sock' out'] err'].
  destruct err'; [split; [exact (mild_put id sh _ _ w Hs)|cbn; eauto]|]. unfold take_socket_output, take_output. cbn beta iota zeta.
  set (w1 := put id _ w). assert (Hm : mild id sh w w1) by exact (mild_put id sh _ _ w Hs).
  case_decide; [|split; [by apply mild_emit|cbn; auto]].
  assert (Hl1 : ∃ sh1, sockets w1 !! id = Some sh1 ∧ recv_waker sh1 = recv_waker sh ∧ ended sh1 = ended sh ∧ error sh1 = error sh)
    by (eexists; cbn; rewrite lookup_insert_eq; done).
  destruct Hl1 as (sh1 & Hl1 & Ha & Hb & Hc). destruct (close_wait_spec id (now w1) w1 sh1 Hl1) as [Hm2 Ht].
  split; [|exact Ht]. by apply (mild_trans id sh sh1 w w1).
Qed.

(** A poll of [recv]. *)
Lemma receive_spec c id w sh :
  sockets w !! id = Some sh →
  let r := receive c id w in
  woken r.1 = woken w ∧
  ∃ sh', changed id sh' w r.1 ∧ high sh' = high sh ∧ low sh' = low sh ∧
    ((∃ m rest, messages sh = m :: rest ∧ messages sh' = rest ∧ recv_waker sh' = recv_waker sh
        ∧ queued_bytes sh' = saturating_sub (queued_bytes sh) (message_len m)
        ∧ (paused sh' = paused sh ∨ queued_bytes sh' ≤ low sh)
        ∧ (r.2 = inl (RecvResumed id (inl (Some m))) ∨ r.2 = inr (SockMessage (inl (Some m)))))
     ∨ (messages sh = [] ∧ messages sh' = [] ∧ queued_bytes sh' = queued_bytes sh ∧ paused sh' = paused sh
        ∧ ((silent sh ∧ silent sh' ∧ recv_waker sh' = Some c ∧ r.2 = inl (Receiving id))
           ∨ (recv_waker sh' = recv_waker sh ∧ ∃ a, r.2 = inr (SockMessage a) ∧ ∀ m, a ≠ inl (Some m))))).
Proof.
  intros Hs. unfold receive, recv_poll, silent, changed. rewrite Hs.
  destruct (messages sh) as [|m rest] eqn:Hm; cbn beta iota zeta.
  - destruct (error sh) as [e|] eqn:He; [|destruct (ended sh) eqn:Hd]; cbn beta iota.
    + split; [done|]. refine (ex_intro _ _ (conj (conj eq_refl (conj eq_refl eq_refl)) _)). cbn. rewrite Hm. split_and!; try done. right. split_and!; try done. right. eauto.
    + split; [done|]. refine (ex_intro _ _ (conj (conj eq_refl (conj eq_refl eq_refl)) _)). cbn. split_and!; try done. right. rewrite Hm. split_and!; try done. right. eauto.
    + split; [done|]. refine (ex_intro _ _ (conj (conj eq_refl (conj eq_refl eq_refl)) _)). cbn. rewrite Hm. split_and!; try done. right. split_and!; try done. left. cbn. auto 10.
  - destruct (paused _ && bool_decide _) eqn:Hr; cbn beta iota.
    + split; [done|]. refine (ex_intro _ _ (conj (conj eq_refl (conj eq_refl eq_refl)) _)). cbn. split_and!; try done. left. eexists _, _. split_and!; try done; [|auto].
      right. apply andb_true_iff in Hr as [_ Hr%bool_decide_eq_true]. exact Hr.
    + split; [done|]. refine (ex_intro _ _ (conj (conj eq_refl (conj eq_refl eq_refl)) _)). cbn. split_and!; try done. left. eexists _, _. split_and!; try done; auto.
Qed.

(** ** Control: who waits for what *)

(** The [WebSocket] a suspended call has borrowed. *)
Definition lends (by_ : Caller) : option Z := match by_ with ByApp x (Some _) => borrows x | _ => None end.

Definition call_ok (by_ : Caller) (t : SockTask) : Prop :=
  match t with
  | Receiving id | RecvResumed id _ => ∃ a, by_ = ByApp (CallRecv id) (Some a)
  | DataSent _ _ _ _ | DataPaused _ _ _ => by_ = ByHost
  | _ => True
  end.

(** A reader has been woken, will be by a suspended [on_data], or waits at a socket that
    has nothing for it. *)
Definition attended (cs : gmap Z (Caller * SockTask)) (w : W (St := St)) (c id : Z) : Prop :=
  c ∈ woken w ∨ (∃ c' by_ t, cs !! c' = Some (by_, t) ∧ carries t = Some c)
  ∨ ∃ sh, sockets w !! id = Some sh ∧ recv_waker sh = Some c ∧ silent sh.

Record ctl (s : Sys) : Prop := {
  ct_stuck : stuck (world s) = false;
  ct_handle : ∀ id a, handles (world s) !! id = Some a → is_Some (sockets (world s) !! id);
  ct_call : ∀ c by_ t, calls s !! c = Some (by_, t) → call_ok by_ t
    ∧ (∀ id, task_id t = Some id → is_Some (sockets (world s) !! id))
    ∧ (∀ id, lends by_ = Some id → handles (world s) !! id = None ∧ is_Some (sockets (world s) !! id));
  ct_excl : ∀ c c' by_ by' t t' id, calls s !! c = Some (by_, t) → calls s !! c' = Some (by', t') →
    lends by_ = Some id → lends by' = Some id → c = c';
  ct_flow : ∀ id sh, sockets (world s) !! id = Some sh → 0 < low sh < high sh ∧ flow_ok sh;
  ct_reader : ∀ c by_ id, calls s !! c = Some (by_, Receiving id) → attended (calls s) (world s) c id;
}.

Definition unlent (s : Sys) (id : Z) : Prop := ∀ c by_ t, calls s !! c = Some (by_, t) → lends by_ ≠ Some id.

Lemma ctl_unlent s id a : ctl s → handles (world s) !! id = Some a → unlent s id.
Proof. intros HI Ha c by_ t Hc Hl. destruct (ct_call s HI c by_ t Hc) as (_&_&Hb). destruct (Hb id Hl) as [Hn _]. congruence. Qed.

(** The world moves under the calls. *)
Lemma ctl_move s w' rs :
  ctl s → stuck w' = false →
  (∀ id a, handles w' !! id = Some a → is_Some (sockets w' !! id) ∧ (is_Some (handles (world s) !! id) ∨ unlent s id)) →
  (∀ id, is_Some (sockets (world s) !! id) → is_Some (sockets w' !! id)) →
  (∀ id sh, sockets w' !! id = Some sh → 0 < low sh < high sh ∧ flow_ok sh) →
  (∀ c by_ id, calls s !! c = Some (by_, Receiving id) → attended (calls s) w' c id) →
  ctl (mkSys w' (calls s) rs).
Proof.
  intros HI Hst Hh Hs Hf Hr. split; cbn; try done.
  - intros id a Ha. by apply (Hh id a).
  - intros c by_ t Hc. destruct (ct_call s HI c by_ t Hc) as (Hk & Ht & Hl). split_and!; [done|by eauto|].
    intros id Hid. destruct (Hl id Hid) as [Hn Hso]. split; [|by apply Hs].
    destruct (handles w' !! id) as [a|] eqn:Ha; [|done]. exfalso. destruct (Hh id a Ha) as [_ [[? E]|Hu]]; [congruence|].
    by apply (Hu c by_ t Hc).
  - apply (ct_excl s HI).
Qed.

Lemma changed_some id sh' w w' i : changed id sh' w w' → is_Some (sockets w !! i) → is_Some (sockets w' !! i).
Proof. intros (-> & _) Hi. destruct (decide (i = id)) as [->|]; [by rewrite lookup_insert_eq|by rewrite lookup_insert_ne]. Qed.

(** One socket changes; its reader keeps what it had, or is woken. *)
Lemma ctl_change s id sh sh' w' rs :
  ctl s → sockets (world s) !! id = Some sh → changed id sh' (world s) w' → woken (world s) ⊆ woken w' →
  0 < low sh' < high sh' ∧ flow_ok sh' →
  (∀ c by_, calls s !! c = Some (by_, Receiving id) → recv_waker sh = Some c → silent sh → attended (calls s) w' c id) →
  ctl (mkSys w' (calls s) rs).
Proof.
  intros HI Hsh Hc Hw Hf Hr. pose proof Hc as (Hso & Hha & Hst). apply ctl_move; [done| | | | |].
  - rewrite Hst. apply (ct_stuck s HI).
  - intros i a Ha. rewrite Hha in Ha. split; [|by left; eauto]. eapply changed_some; [exact Hc|]. by apply (ct_handle s HI i a).
  - intros i. by apply (changed_some _ _ _ _ _ Hc).
  - intros i x Hx. rewrite Hso in Hx. destruct (decide (i = id)) as [->|]; [rewrite lookup_insert_eq in Hx; by injection Hx as <-|].
    rewrite lookup_insert_ne in Hx by done. by apply (ct_flow s HI i).
  - intros c by_ i Hi. destruct (ct_reader s HI c by_ i Hi) as [Hk|[Hk|(x & Hx & Hwk & Hsi)]]; [left; set_solver|right; by left|].
    destruct (decide (i = id)) as [->|]; [|right; right; exists x; rewrite Hso; by rewrite lookup_insert_ne].
    rewrite Hsh in Hx. injection Hx as <-. by apply (Hr c by_).
Qed.

Lemma ctl_mild s id sh w' rs : ctl s → sockets (world s) !! id = Some sh → mild id sh (world s) w' → ctl (mkSys w' (calls s) rs).
Proof.
  intros HI Hsh (sh' & Hc & Hm & Hq & Hp & Hh & Hl & Hd). apply (ctl_change s id sh sh'); try done.
  - destruct Hd as [(_&_&_&->)|[_ ->]]; [done|]. unfold waked. destruct (recv_waker sh); set_solver.
  - rewrite Hh, Hl. destruct (ct_flow s HI id sh Hsh) as [? Hf]. split; [done|]. unfold flow_ok in *. by rewrite Hp, Hq, Hh.
  - intros c by_ _ Hwk Hsi. destruct Hd as [(E1&E2&E3&_)|[_ Hw]].
    + right. right. exists sh'. destruct Hc as (-> & _). rewrite lookup_insert_eq. split_and!; try done; [congruence|].
      unfold silent in *. by rewrite E2, E3, Hm.
    + left. rewrite Hw, Hwk. set_solver.
Qed.

(** A call is suspended. *)
Lemma ctl_insert s c by_ t :
  ctl s → calls s !! c = None → call_ok by_ t → (∀ id, task_id t = Some id → is_Some (sockets (world s) !! id)) →
  (∀ id, lends by_ = Some id → handles (world s) !! id = None ∧ is_Some (sockets (world s) !! id) ∧ unlent s id) →
  (∀ id, t = Receiving id → attended (calls s) (world s) c id) →
  ctl (mkSys (world s) (<[c := (by_, t)]> (calls s)) (rets s)).
Proof.
  intros HI Hn Hk Ht Hl Hr.
  assert (Hatt : ∀ k i, attended (calls s) (world s) k i → attended (<[c := (by_, t)]> (calls s)) (world s) k i).
  { intros k i [?|[(c' & b & t' & Hc' & ?)|?]]; [by left| |by right; right]. right. left. exists c', b, t'.
    rewrite lookup_insert_ne; [done|congruence]. }
  split; cbn; [apply HI|apply HI| | |apply HI|].
  - intros k b u [[-> [= <- <-]]|[? Hu]]%lookup_insert_Some; [|by apply (ct_call s HI k)].
    split_and!; [done|done|]. intros id Hid. destruct (Hl id Hid) as (?&?&_). done.
  - intros k k' b b' u u' id [[<- [= <- <-]]|[? Hu]]%lookup_insert_Some [[<- [= <- <-]]|[? Hu']]%lookup_insert_Some Hx1 Hx2; [done| | |].
    + destruct (Hl id Hx1) as (_&_&Hun). by destruct (Hun k' b' u' Hu').
    + destruct (Hl id Hx2) as (_&_&Hun). by destruct (Hun k b u Hu).
    + by apply (ct_excl s HI k k' b b' u u' id).
  - intros k b i [[-> [= <- ->]]|[? Hu]]%lookup_insert_Some; apply Hatt; [by apply Hr|by apply (ct_reader s HI k b)].
Qed.

(** A suspended call goes away; what it carried has been woken or goes on in [t']. *)
Lemma ctl_delete s c by_ t :
  ctl s → calls s !! c = Some (by_, t) → (∀ k, carries t = Some k → k ∈ woken (world s)) →
  ctl (mkSys (world s) (delete c (calls s)) (rets s)).
Proof.
  intros HI Hc Hk. split; cbn; [apply HI|apply HI| | |apply HI|].
  - intros k b u [_ Hu]%lookup_delete_Some. by apply (ct_call s HI k).
  - intros k k' b b' u u' id [_ Hx1]%lookup_delete_Some [_ Hx2]%lookup_delete_Some. by apply (ct_excl s HI k k' b b' u u' id).
  - intros k b i [_ Hu]%lookup_delete_Some. destruct (ct_reader s HI k b i Hu) as [?|[(c' & b' & t' & Hc' & Ht')|?]]; [by left| |by right; right].
    destruct (decide (c' = c)) as [->|]; [left; apply Hk; congruence|]. right. left. exists c', b', t'. by rewrite lookup_delete_ne.
Qed.

Lemma ctl_replace s c by_ t t' :
  ctl s → calls s !! c = Some (by_, t) → carries t' = carries t → call_ok by_ t' → (∀ id, t' ≠ Receiving id) →
  (∀ id, task_id t' = Some id → is_Some (sockets (world s) !! id)) →
  ctl (mkSys (world s) (<[c := (by_, t')]> (calls s)) (rets s)).
Proof.
  intros HI Hc Hk Hok Hnr Ht. split; cbn; [apply HI|apply HI| | |apply HI|].
  - intros k b u [[-> [= <- <-]]|[? Hu]]%lookup_insert_Some; [|by apply (ct_call s HI k)].
    destruct (ct_call s HI k by_ t Hc) as (_ & _ & Hl). done.
  - intros k k' b b' u u' id [[<- [= <- <-]]|[? Hu]]%lookup_insert_Some [[<- [= <- <-]]|[? Hu']]%lookup_insert_Some Hx1 Hx2;
      [done| | |]; by eapply (ct_excl s HI).
  - intros k b i [[-> [= <- ->]]|[? Hu]]%lookup_insert_Some; [by destruct (Hnr i)|].
    destruct (ct_reader s HI k b i Hu) as [?|[(c' & b' & u & Hc' & Hu')|?]]; [by left| |by right; right].
    right. left. destruct (decide (c' = c)) as [->|]; [exists c, by_, t'; rewrite lookup_insert_eq; split; [done|congruence]|].
    exists c', b', u. by rewrite lookup_insert_ne.
Qed.

(** The [WebSocket] comes back with the result of the call. *)
Lemma ctl_return s id a rs :
  ctl s → unlent s id → is_Some (sockets (world s) !! id) →
  ctl (mkSys (set_handles (<[id := a]> (handles (world s))) (world s)) (calls s) rs).
Proof.
  intros HI Hu Hs. apply ctl_move; try done; try apply HI.
  - intros i b. cbn. intros [[<- _]|[_ Hb]]%lookup_insert_Some; [by auto|].
    split; [by apply (ct_handle s HI i b)|left; eauto].
Qed.

(** The end of a call whose world is already in order. *)
Lemma ctl_settle s c by_ w r :
  ctl (mkSys w (calls s) (rets s)) → calls s !! c = None →
  (∀ id, lends by_ = Some id → handles w !! id = None ∧ is_Some (sockets w !! id) ∧ unlent s id) →
  (∀ t, r = inl t → call_ok by_ t ∧ (∀ id, task_id t = Some id → is_Some (sockets w !! id))
     ∧ (∀ id, t = Receiving id → attended (calls s) w c id)) →
  ctl (settle c by_ (w, r) s).
Proof.
  intros HI Hn Hl Ht. unfold settle. destruct r as [t|ret].
  - destruct (Ht t eq_refl) as (?&?&?). by apply (ctl_insert (mkSys w (calls s) (rets s)) c by_ t).
  - destruct by_ as [|x [a|]]; [done| |].
    + cbn in Hl. destruct (borrows x) as [id|]; [|exact (ctl_move _ w _ HI (ct_stuck _ HI) (λ i b Hb, conj (ct_handle _ HI i b Hb) (or_introl (mk_is_Some _ _ Hb))) (λ _ Hi, Hi) (ct_flow _ HI) (ct_reader _ HI))].
      destruct (Hl id eq_refl) as (_&Hs&Hu). exact (ctl_return _ id _ _ HI Hu Hs).
    + destruct (borrows x); exact (ctl_move _ w _ HI (ct_stuck _ HI) (λ i b Hb, conj (ct_handle _ HI i b Hb) (or_introl (mk_is_Some _ _ Hb))) (λ _ Hi, Hi) (ct_flow _ HI) (ct_reader _ HI)).
Qed.

(** ** Failures of what [on_data] and [recv] await *)

Definition fails (ev : Event) (s : Sys) : bool :=
  match ev with
  | EResume c (RDone (Some _)) =>
      match calls s !! c with
      | Some (_, (DataSent _ _ _ _ | DataPaused _ _ _ | RecvResumed _ _)) => true
      | _ => false
      end
  | _ => false
  end.

Fixpoint no_failures (evs : list Event) (s : Sys) : bool :=
  match evs with
  | [] => true
  | ev :: evs => negb (fails ev s) && match step ev s with Some s' => no_failures evs s' | None => true end
  end.

(** ** Every step keeps control *)

Lemma ctl_open s id sh : ctl s → sockets (world s) !! id = None → fresh sh = true →
  ctl (mkSys (new_handle id (put id sh (world s))) (calls s) (rets s)).
Proof.
  intros HI Hn Hf. unfold fresh in Hf. destruct (messages sh), (recv_waker sh), (error sh); try done.
  rewrite !andb_true_iff, !bool_decide_eq_true in Hf. destruct Hf as [[[Hq Hlo] _] _].
  assert (Hu : unlent s id).
  { intros c by_ t Hc Hl. destruct (ct_call s HI c by_ t Hc) as (_&_&Hb). destruct (Hb id Hl) as [_ [? E]]. congruence. }
  apply ctl_move; try done; cbn.
  - apply HI.
  - intros i a [[<- _]|[? Ha]]%lookup_insert_Some; [rewrite lookup_insert_eq; auto|]. rewrite lookup_insert_ne by done.
    split; [by apply (ct_handle s HI i a)|left; eauto].
  - intros i [x Hx]. destruct (decide (i = id)) as [->|]; [by rewrite lookup_insert_eq|rewrite lookup_insert_ne by done; eauto].
  - intros i x [[<- <-]|[? Hx]]%lookup_insert_Some; [|by apply (ct_flow s HI i)]. split; [done|]. right. lia.
  - intros c by_ i Hc. destruct (ct_reader s HI c by_ i Hc) as [?|[?|(x & Hx & Hr)]]; [by left|right; by left|].
    right. right. exists x. cbn. rewrite lookup_insert_ne by congruence. done.
Qed.

Lemma ctl_data `{!WsLaws} s h c id data sh :
  ctl s → calls s !! c = None → sockets (world s) !! id = Some sh → ctl (settle c ByHost (on_data h id data (world s)) s).
Proof.
  intros HI Hn Hsh.
  destruct (on_data_spec h id data (world s) sh Hsh) as [(Hw & [e He] & _)|(sh' & Hc & Hm & Hwk & Hh & Hl & Hf & Ht & Hu)].
  - destruct (on_data _ _ _ _) as [w r]. cbn in *. subst. by destruct s.
  - destruct (on_data h id data (world s)) as [w r]. unfold waker_used in Hu. cbn [fst snd] in *.
    assert (Hlh : 0 < low sh' < high sh' ∧ flow_ok sh') by (rewrite Hh, Hl; split; [by apply (ct_flow s HI id)|done]).
    destruct Hu as [(t & -> & Hcar & Hform & Hk)|([e ->] & Hk)]; cbn in *.
    + assert (HI' : ctl (mkSys (world s) (<[c := (ByHost, t)]> (calls s)) (rets s))).
      { destruct Hform as (i & p & d & Hform). apply ctl_insert; try done.
        - by destruct Hform as [->| ->].
        - intros j Hj. rewrite (Ht t eq_refl) in Hj. injection Hj as <-. eauto.
        - intros j ->. by destruct Hform. }
      apply (ctl_change _ id sh sh' w (rets s) HI'); try done; cbn; [by rewrite Hk|].
      intros k by_ _ Hr _. right. left. exists c, ByHost, t. rewrite lookup_insert_eq. split; [done|congruence].
    + apply (ctl_change s id sh sh'); try done; [rewrite Hk; destruct (recv_waker sh); set_solver|].
      intros k by_ _ Hr _. left. rewrite Hk, Hr. set_solver.
Qed.

Lemma no_reader s id c by_ : ctl s → unlent s id → calls s !! c = Some (by_, Receiving id) → False.
Proof. intros HI Hu Hc. destruct (ct_call s HI c by_ _ Hc) as ([a ->] & _). by apply (Hu _ _ _ Hc). Qed.

Lemma ctl_receive `{!WsLaws} s c id a sh :
  ctl s → calls s !! c = None → handles (world s) !! id = None → unlent s id → sockets (world s) !! id = Some sh →
  ctl (settle c (ByApp (CallRecv id) (Some a)) (receive c id (world s)) s).
Proof.
  intros HI Hn Hh Hu Hsh. destruct (receive_spec c id (world s) sh Hsh) as (Hk & sh' & Hc & Hhi & Hlo & Hd).
  destruct (ct_flow s HI id sh Hsh) as [Hlh Hf].
  assert (HI' : ctl (mkSys (receive c id (world s)).1 (calls s) (rets s))).
  { apply (ctl_change s id sh sh'); try done; [by rewrite Hk| |intros k b Hb; exfalso; by eapply no_reader].
    rewrite Hhi, Hlo. split; [done|]. unfold flow_ok in *. rewrite Hhi.
    destruct Hd as [(m & rest & _ & _ & _ & Hq & Hp & _)|(_ & _ & Hq & Hp & _)]; [|by rewrite Hp, Hq].
    destruct Hp as [Hp|?]; [|right; lia]. rewrite Hp, Hq. unfold saturating_sub. pose proof (message_len_pos m).
    destruct Hf; [by left|right; lia]. }
  destruct Hc as (Hso & Hha & _). destruct (receive c id (world s)) as [w r]. cbn [fst snd] in *. apply ctl_settle; try done.
  - intros i [= <-]. rewrite Hha, Hso, lookup_insert_eq. eauto.
  - assert (Hs : is_Some (sockets w !! id)) by (rewrite Hso, lookup_insert_eq; eauto).
    intros t ->. destruct Hd as [(m & rest & _ & _ & _ & _ & _ & [[= ->]|?])|(_ & _ & _ & _ & [(_ & Hsi & Hwk & [= ->])|(_ & ? & ? & _)])]; try done.
    + split_and!; [cbn; eauto|by intros i [= <-]|done].
    + split_and!; [cbn; eauto|by intros i [= <-]|]. intros i [= <-]. right. right. exists sh'. by rewrite Hso, lookup_insert_eq.
Qed.

(** Calls that leave the queue alone. *)
Lemma ctl_plain s c by_ id sh w r :
  ctl s → calls s !! c = None → sockets (world s) !! id = Some sh → mild id sh (world s) w → plain_task id r →
  (∀ i, lends by_ = Some i → handles (world s) !! i = None ∧ is_Some (sockets (world s) !! i) ∧ unlent s i) →
  ctl (settle c by_ (w, r) s).
Proof.
  intros HI Hn Hsh Hm Hp Hl. pose proof Hm as (sh' & Hc & _). pose proof Hc as (Hso & Hha & _).
  apply ctl_settle; [by apply (ctl_mild s id sh)|done| |].
  - intros i Hi. destruct (Hl i Hi) as (?&?&?). rewrite Hha. split_and!; [done|by eapply changed_some|done].
  - intros t ->. assert (is_Some (sockets w !! id)) by (rewrite Hso, lookup_insert_eq; eauto).
    destruct Hp as [->|[->|[n ->]]]; (split_and!; [done| |done]); by intros i [= <-].
Qed.

Lemma ctl_lend s id : ctl s → ctl (mkSys (set_handles (delete id (handles (world s))) (world s)) (calls s) (rets s)).
Proof.
  intros HI. apply ctl_move; try done; try apply HI. cbn. intros i a [_ Ha]%lookup_delete_Some.
  split; [by apply (ct_handle s HI i a)|left; eauto].
Qed.

Lemma ctl_call `{!WsLaws} s h c x s' : ctl s → step (ECall h c x) s = Some s' → ctl s'.
Proof.
  intros HI. cbn [step]. case_decide as Hc; [|done]. destruct Hc as [Hc _].
  set (lent id := mkSys (set_handles (delete id (handles (world s))) (world s)) (calls s) (rets s)).
  assert (Hlent : ∀ id a, handles (world s) !! id = Some a →
            ctl (lent id) ∧ handles (world (lent id)) !! id = None ∧ unlent (lent id) id ∧ ∃ sh, sockets (world (lent id)) !! id = Some sh).
  { intros id a Ha. split_and!; [by apply ctl_lend|cbn; by rewrite lookup_delete_eq|exact (ctl_unlent s id a HI Ha)|].
    by destruct (ct_handle s HI id a Ha) as [sh Hsh]; exists sh. }
  destruct x as [id|id m|id frame|id frame]; cbn [borrows ws_call].
  - destruct (handles (world s) !! id) as [a|] eqn:Ha; [|done]. intros [= <-]. destruct (Hlent id a Ha) as (HI' & Hh & Hu & sh & Hsh).
    unfold recv. change (sockets (set_handles _ _) !! id) with (sockets (world (lent id)) !! id). rewrite Hsh. cbn [mbind option_bind].
    destruct (check_owner h sh) as [e|]; [|exact (ctl_receive (lent id) c id a sh HI' Hc Hh Hu Hsh)].
    refine (ctl_settle (lent id) c (ByApp (CallRecv id) (Some a)) (world (lent id)) (inr (SockMessage (inr e))) HI' Hc _ _); [|done].
    intros i [= <-]. eauto.
  - case_decide as Hs; [|done]. intros [= <-]. destruct Hs as [sh Hsh]. destruct (send_spec h id m (world s) sh Hsh) as [Hm Hp].
    destruct (send _ _ _ _) as [w r]. by apply (ctl_plain s c _ id sh).
  - destruct (handles (world s) !! id) as [a|] eqn:Ha; [|done]. intros [= <-]. destruct (Hlent id a Ha) as (HI' & Hh & Hu & sh & Hsh).
    destruct (ws_close_spec h id frame (world (lent id)) sh Hsh) as [Hm Hp]. change (set_handles _ _) with (world (lent id)).
    destruct (close _ _ _ _) as [w r]. refine (ctl_plain (lent id) c (ByApp (CallClose id frame) (Some a)) id sh w r HI' Hc Hsh Hm Hp _).
    intros i [= <-]. eauto.
  - case_decide as Hs; [|done]. intros [= <-]. destruct Hs as [sh Hsh]. destruct (ws_close_spec h id frame (world s) sh Hsh) as [Hm Hp].
    destruct (close _ _ _ _) as [w r]. by apply (ctl_plain s c _ id sh).
Qed.

Definition without (c : Z) (s : Sys) : Sys := mkSys (world s) (delete c (calls s)) (rets s).

(** The [WebSocket] of a call that goes on is lent to nobody else. *)
Lemma without_lent s c by_ t i :
  ctl s → calls s !! c = Some (by_, t) → lends by_ = Some i →
  handles (world (without c s)) !! i = None ∧ is_Some (sockets (world (without c s)) !! i) ∧ unlent (without c s) i.
Proof.
  intros HI Hc Hl. destruct (ct_call s HI c by_ t Hc) as (_ & _ & Hb). destruct (Hb i Hl) as [Hh Hs]. split_and!; [done|done|].
  intros k b u. cbn. intros [Hne Hu]%lookup_delete_Some Hl'. apply Hne. by apply (ct_excl s HI c k by_ b t u i).
Qed.

(** The rest of [on_data] leaves the sockets alone and passes the waker on, or uses it. *)
Lemma ctl_data_rest s c t w r :
  ctl s → calls s !! c = Some (ByHost, t) → sockets w = sockets (world s) → handles w = handles (world s) → stuck w = stuck (world s) →
  (∀ u, r = inl u → task_id u = task_id t) → waker_used (carries t) (world s) (w, r) → ctl (settle c ByHost (w, r) (without c s)).
Proof.
  intros HI Hc Hso Hha Hst Ht Hu.
  assert (Hmove : ∀ s1, ctl s1 → world s1 = world s → woken (world s) ⊆ woken w → ctl (mkSys w (calls s1) (rets s1))).
  { intros s1 HI1 E Hk. apply ctl_move; [done| | | | |]; rewrite ?Hst, ?Hso, ?Hha.
    - rewrite <- E. apply HI1.
    - intros i a Ha. split; [by apply (ct_handle s HI i a)|left; rewrite E; eauto].
    - by rewrite E.
    - apply HI.
    - intros k b i Hk'. destruct (ct_reader s1 HI1 k b i Hk') as [Hin|[?|(x & Hx & ?)]]; [left; rewrite E in Hin; set_solver|right; by left|].
      right. right. exists x. rewrite Hso, <- E. done. }
  unfold waker_used in Hu. cbn [fst snd] in Hu. destruct Hu as [(t' & -> & Hcar & Hform & Hk)|([e ->] & Hk)]; cbn [settle without world calls rets].
  - rewrite insert_delete_eq. refine (Hmove (mkSys (world s) (<[c := (ByHost, t')]> (calls s)) (rets s)) _ eq_refl _); [|by rewrite Hk].
    destruct Hform as (i & p & d & Hform). apply (ctl_replace s c ByHost t t'); try done.
    + by destruct Hform as [->| ->].
    + intros j ->. by destruct Hform.
    + intros j Hj. rewrite (Ht t' eq_refl) in Hj. destruct (ct_call s HI c ByHost t Hc) as (_ & Hs & _). by apply Hs.
  - apply (ctl_delete (mkSys w (calls s) (rets s)) c ByHost t); [|done|].
    + apply Hmove; [done|done|]. rewrite Hk. destruct (carries t); set_solver.
    + intros k Hk'. cbn. rewrite Hk, Hk'. set_solver.
Qed.

Lemma ctl_unwake s c : ctl s → calls s !! c = None → ctl (mkSys (unwake c (world s)) (calls s) (rets s)).
Proof.
  intros HI Hn. apply ctl_move; try done; try apply HI.
  - intros i a Ha. split; [by apply (ct_handle s HI i a)|left; eauto].
  - intros k b i Hk. destruct (ct_reader s HI k b i Hk) as [Hin|[?|(x & ? & ?)]]; [|right; by left|right; right; by exists x].
    left. cbn. assert (k ≠ c) by congruence. set_solver.
Qed.

Lemma ctl_resume `{!WsLaws} s c r s' : ctl s → fails (EResume c r) s = false → step (EResume c r) s = Some s' → ctl s'.
Proof.
  intros HI Hfail. cbn [step fails] in *. destruct (calls s !! c) as [[by_ t]|] eqn:Hc; [|done]. cbn [mbind option_bind].
  fold (without c s). pose proof (ct_call s HI c by_ t Hc) as (Hok & Hids & _).
  pose proof (λ i, without_lent s c by_ t i HI Hc) as Hlent.
  assert (Hn : calls (without c s) !! c = None) by (cbn; by rewrite lookup_delete_eq).
  assert (HI0 : carries t = None → ctl (without c s)) by (intros E; apply (ctl_delete s c by_ t HI Hc); by rewrite E).
  assert (Hret : carries t = None → ∀ ret, ctl (settle c by_ (world s, inr ret) (without c s))).
  { intros E ret. apply (ctl_settle (without c s) c by_ (world s) (inr ret)); [by apply HI0|done|exact Hlent|done]. }
  assert (Hwait : ∀ id n, task_id t = Some id → carries t = None → ctl (settle c by_ (close_wait id n (world s)) (without c s))).
  { intros id n Hid E. destruct (Hids id Hid) as [sh Hsh]. destruct (close_wait_spec id n (world s) sh Hsh) as [Hm Hp].
    destruct (close_wait _ _ _) as [w u]. by apply (ctl_plain (without c s) c by_ id sh w u (HI0 E)). }
  destruct t as [id pause waker down|id waker down|id|id answer| |id|id n]; cbn [call_ok] in Hok; cbn [sock_resume carries task_id] in *.
  - destruct r as [[e|]|]; [done| |done]. cbn. intros [= <-]. subst by_. destruct (Hids id eq_refl) as [sh Hsh].
    destruct (data_pause_spec id pause waker down (world s) sh Hsh) as (?&?&?&Ht&Hu). destruct (data_pause _ _ _ _ _) as [w u].
    by apply (ctl_data_rest s c (DataSent id pause waker down)).
  - destruct r as [[e|]|]; [done| |done]. cbn. intros [= <-]. subst by_. destruct (Hids id eq_refl) as [sh Hsh].
    destruct (data_end_spec id waker down (world s) sh Hsh) as (?&?&?&Hr&Hk). destruct (data_end _ _ _ _) as [w u]. cbn in Hr, Hk. subst u.
    apply (ctl_data_rest s c (DataPaused id waker down)); try done. right. cbn. eauto.
  - destruct r as [|]; [done|]. cbn. intros [= <-]. destruct Hok as [a ->]. destruct (Hids id eq_refl) as [sh Hsh].
    destruct (Hlent id eq_refl) as (Hh & _ & Hu). set (s1 := mkSys (unwake c (world s)) (calls (without c s)) (rets s)).
    assert (HI1 : ctl s1) by (apply (ctl_unwake (without c s)); [by apply HI0|done]).
    exact (ctl_receive s1 c id a sh HI1 Hn Hh Hu Hsh).
  - destruct r as [[e|]|]; [done| |done]. cbn. intros [= <-]. by apply Hret.
  - destruct r as [e|]; [|done]. cbn. intros [= <-]. by apply Hret.
  - destruct r as [[e|]|]; cbn; [| |done]; intros [= <-]; [by apply Hret|by apply Hwait].
  - destruct r as [|]; [done|]. cbn. intros [= <-]. by apply Hwait.
Qed.

Lemma ctl_step `{!WsLaws} ev s s' : ctl s → fails ev s = false → step ev s = Some s' → ctl s'.
Proof.
  intros HI Hf Hs. destruct ev as [id sh|h c id data|id reason|id|h c x|c r|id|n|f].
  - cbn in Hs. case_decide as E; [|done]. injection Hs as <-. destruct E. by apply ctl_open.
  - cbn in Hs. case_decide as E; [|done]. injection Hs as <-. destruct E as [? [sh ?]]. by apply (ctl_data s h c id data sh).
  - cbn in Hs. case_decide as E; [|done]. injection Hs as <-. destruct E as [sh Hsh]. apply (ctl_mild s id sh); [done..|by apply on_closed_mild].
  - cbn in Hs. case_decide as E; [|done]. injection Hs as <-. destruct E as [sh Hsh]. apply (ctl_mild s id sh); [done..|by apply abort_mild].
  - exact (ctl_call s h c x s' HI Hs).
  - exact (ctl_resume s c r s' HI Hf Hs).
  - cbn in Hs. case_decide as E; [|done]. injection Hs as <-. destruct E as [a Ha]. unfold drop_handle. rewrite Ha.
    pose proof (ctl_lend s id HI) as HI'. destruct a; [|done]. destruct (ct_handle s HI id true Ha) as [sh Hsh].
    apply (ctl_mild _ id sh _ (rets s) HI'); [done|]. by apply abort_mild.
  - injection Hs as <-. apply ctl_move; try done; try apply HI. intros i a Ha. split; [by apply (ct_handle s HI i a)|left; eauto].
  - injection Hs as <-. apply ctl_move; try done; try apply HI. intros i a Ha. split; [by apply (ct_handle s HI i a)|left; eauto].
Qed.

(** ** The order of messages *)

(** The message a call of [recv] returned. *)
Definition got (id : Z) (x : WsCall) (r : SockRet) : list WsMessage :=
  match x, r with
  | CallRecv i, SockMessage (inl (Some m)) => if decide (i = id) then [m] else []
  | _, _ => []
  end.

Definition received (id : Z) (rs : list (WsCall * SockRet)) : list WsMessage := rs ≫= λ r, got id r.1 r.2.

Definition queue (id : Z) (w : W (St := St)) : list WsMessage := default [] (messages <$> sockets w !! id).

(** A message taken by [recv], which awaits [resume]. *)
Definition flying (cs : gmap Z (Caller * SockTask)) (c id : Z) (m : WsMessage) : Prop :=
  ∃ by_, cs !! c = Some (by_, RecvResumed id (inl (Some m))).

Definition in_flight (cs : gmap Z (Caller * SockTask)) (id : Z) (mid : list WsMessage) : Prop :=
  (mid = [] ∧ ∀ c m, ¬ flying cs c id m) ∨ ∃ m c, mid = [m] ∧ flying cs c id m.

Definition fifo (s : Sys) (made : Z → list WsMessage) : Prop :=
  ∀ id, ∃ mid, made id = received id (rets s) ++ mid ++ queue id (world s) ∧ in_flight (calls s) id mid.

Definition pumped (id : Z) (ev : Event) (s : Sys) : list WsMessage :=
  match ev with
  | EData h _ i data =>
      if decide (i = id) then match sockets (world s) !! id with Some sh => pumped_of h data sh | None => [] end else []
  | _ => []
  end.

(** The messages read for a socket over a run. *)
Fixpoint produced (id : Z) (evs : list Event) (s : Sys) : list WsMessage :=
  match evs with
  | [] => []
  | ev :: evs => pumped id ev s ++ match step ev s with Some s' => produced id evs s' | None => [] end
  end.

Lemma received_snoc id rs x r : received id (rs ++ [(x, r)]) = received id rs ++ got id x r.
Proof. unfold received. rewrite bind_app. cbn. by rewrite app_nil_r. Qed.

Lemma queue_changed id sh' w w' i : changed id sh' w w' → queue i w' = if decide (i = id) then messages sh' else queue i w.
Proof. intros (Hso & _). unfold queue. rewrite Hso. case_decide; [subst; by rewrite lookup_insert_eq|by rewrite lookup_insert_ne]. Qed.

Lemma queue_mild id sh w w' i : sockets w !! id = Some sh → mild id sh w w' → queue i w' = queue i w.
Proof.
  intros Hsh (sh' & Hc & Hm & _). rewrite (queue_changed _ _ _ _ _ Hc). case_decide; [|done]. subst. unfold queue. by rewrite Hsh.
Qed.

(** The queue grows at its end, nothing else. *)
Lemma fifo_grow s s' made new :
  fifo s made → (∀ id, queue id (world s') = queue id (world s) ++ new id) →
  (∀ id, received id (rets s') = received id (rets s)) → (∀ c id m, flying (calls s') c id m ↔ flying (calls s) c id m) →
  fifo s' (λ id, made id ++ new id).
Proof.
  intros HF Hq Hr Hfl id. destruct (HF id) as (mid & Hm & Hfly). exists mid. split; [rewrite Hm, Hr, Hq; by rewrite !app_assoc|].
  destruct Hfly as [[-> Hno]|(m & c & -> & Hc)]; [left|right].
  - split; [done|]. intros c m. rewrite Hfl. apply Hno.
  - exists m, c. by rewrite Hfl.
Qed.

Lemma fifo_keep s s' made :
  fifo s made → (∀ id, queue id (world s') = queue id (world s)) → (∀ id, received id (rets s') = received id (rets s)) →
  (∀ c id m, flying (calls s') c id m ↔ flying (calls s) c id m) → fifo s' (λ id, made id ++ []).
Proof. intros HF Hq Hr Hfl. apply (fifo_grow s s' made (λ _, [])); [done| |done|done]. intros id. by rewrite Hq, app_nil_r. Qed.

(** A suspended call that holds no message comes, goes or changes. *)
Lemma flying_other (cs : gmap Z (Caller * SockTask)) c o k id m :
  (∀ m', ¬ flying cs c id m') → (∀ by_ m', o ≠ Some (by_, RecvResumed id (inl (Some m')))) →
  flying (partial_alter (λ _, o) c cs) k id m ↔ flying cs k id m.
Proof.
  intros Hn Ho. unfold flying. destruct (decide (k = c)) as [->|Hne].
  - rewrite lookup_partial_alter_eq. split; intros [b Hb]; exfalso; [by eapply Ho|by eapply Hn; exists b].
  - by rewrite lookup_partial_alter_ne.
Qed.

Lemma flying_insert (cs : gmap Z (Caller * SockTask)) c by_ t k id m :
  cs !! c = None → (∀ m', t ≠ RecvResumed id (inl (Some m'))) → flying (<[c := (by_, t)]> cs) k id m ↔ flying cs k id m.
Proof. intros Hn Ht. apply flying_other; [intros m' [b Hb]; congruence|intros b m' [= -> ->]; by eapply Ht]. Qed.

Lemma flying_delete (cs : gmap Z (Caller * SockTask)) c k id m :
  (∀ m', ¬ flying cs c id m') → flying (delete c cs) k id m ↔ flying cs k id m.
Proof. intros Hn. by apply flying_other. Qed.

(** The end of a call that neither takes a message nor returns one. *)
Definition dry (r : SockTask + SockRet) : Prop :=
  match r with
  | inl t => ∀ id m, t ≠ RecvResumed id (inl (Some m))
  | inr r => ∀ m, r ≠ SockMessage (inl (Some m))
  end.

Lemma plain_dry id r : plain_task id r → dry r.
Proof. destruct r as [t|r]; [intros [->|[->|[n ->]]]; done|intros [e ->]; done]. Qed.

Lemma got_dry id x r : dry (inr r) → got id x r = [].
Proof. intros Hd. unfold got. destruct x; try done. destruct r as [|[[m|]|]]; try done. by destruct (Hd m). Qed.

Lemma settle_dry c by_ w r s :
  calls s !! c = None → dry r →
  (∀ id, queue id (world (settle c by_ (w, r) s)) = queue id w)
  ∧ (∀ id, received id (rets (settle c by_ (w, r) s)) = received id (rets s))
  ∧ (∀ k id m, flying (calls (settle c by_ (w, r) s)) k id m ↔ flying (calls s) k id m).
Proof.
  intros Hn Hd. destruct r as [t|ret]; cbn [settle].
  - split_and!; [done|done|]. intros k id m. apply flying_insert; [done|]. intros m'. apply Hd.
  - destruct by_ as [|x active]; [done|]. split_and!; [|intros id; cbn [rets]; by rewrite received_snoc, got_dry, app_nil_r|done].
    intros id. cbn. by destruct (borrows x), active.
Qed.

Lemma waker_used_dry c w r : waker_used c w r → dry r.2.
Proof. intros [(t & -> & _ & (i & p & d & [->| ->]) & _)|([e ->] & _)]; done. Qed.

Lemma no_flying s id c m : ctl s → unlent s id → ¬ flying (calls s) c id m.
Proof. intros HI Hu [by_ Hc]. destruct (ct_call s HI c by_ _ Hc) as ([a ->] & _). by apply (Hu _ _ _ Hc). Qed.

Lemma fifo_receive s c id a sh made :
  ctl s → calls s !! c = None → unlent s id → sockets (world s) !! id = Some sh → fifo s made →
  fifo (settle c (ByApp (CallRecv id) (Some a)) (receive c id (world s)) s) (λ i, made i ++ []).
Proof.
  intros HI Hn Hu Hsh HF. destruct (receive_spec c id (world s) sh Hsh) as (_ & sh' & Hc & _ & _ & Hd).
  destruct (receive c id (world s)) as [w r]. cbn [fst snd] in *.
  destruct Hd as [(m & rest & Hm & Hm' & _ & _ & _ & Hr)|(Hm & Hm' & _ & _ & Hr)].
  - assert (Hq : ∀ i, queue i (world s) = (if decide (i = id) then [m] else []) ++ queue i w).
    { intros i. rewrite (queue_changed _ _ _ _ _ Hc). case_decide; [|done]. subst i. unfold queue. by rewrite Hsh, Hm'. }
    intros i. destruct (HF i) as (mid & Hmade & Hfl). rewrite app_nil_r. destruct Hr as [-> | ->]; cbn [settle world calls rets borrows].
    + destruct (decide (i = id)) as [->|Hne].
      * exists [m]. destruct Hfl as [[-> _]|(m' & c' & _ & Hc')]; [|by destruct (no_flying s id c' m' HI Hu)].
        split; [rewrite Hmade, Hq; by rewrite decide_True|]. right. exists m, c. split; [done|]. eexists. by rewrite lookup_insert_eq.
      * exists mid. rewrite Hq, decide_False in Hmade by done. split; [done|].
        assert (Hi : ∀ k m', flying (<[c := (ByApp (CallRecv id) (Some a), RecvResumed id (inl (Some m)))]> (calls s)) k i m' ↔ flying (calls s) k i m')
          by (intros k m'; apply flying_insert; [done|congruence]).
        destruct Hfl as [[-> Hno]|(m' & c' & -> & Hc')]; [left; split; [done|]; intros k m'; by rewrite Hi|right; exists m', c'; by rewrite Hi].
    + exists mid. split; [|done]. rewrite Hmade, Hq, received_snoc. cbn [got].
      change (queue i (set_handles _ w)) with (queue i w). case_decide as E1; case_decide; try congruence; [|by rewrite app_nil_r].
      subst i. destruct Hfl as [[-> _]|(m' & c' & _ & Hc')]; [cbn; by rewrite <- app_assoc|by destruct (no_flying s id c' m' HI Hu)].
  - assert (Hdry : dry r) by (destruct Hr as [(_ & _ & _ & ->)|(_ & b & -> & Hb)]; [done|intros m [= ->]; by apply (Hb m)]).
    destruct (settle_dry c (ByApp (CallRecv id) (Some a)) w r s Hn Hdry) as (Hq & Hre & Hfl). apply (fifo_keep s); try done.
    intros i. rewrite Hq, (queue_changed _ _ _ _ _ Hc). case_decide; [|done]. subst i. unfold queue. by rewrite Hsh; cbn; rewrite Hm, Hm'.
Qed.

(** Calls that neither take nor return a message. *)
Lemma fifo_dry s s0 c by_ w r made :
  fifo s made → calls s0 !! c = None → rets s0 = rets s → (∀ k id m, flying (calls s0) k id m ↔ flying (calls s) k id m) →
  (∀ id, queue id w = queue id (world s)) → dry r → fifo (settle c by_ (w, r) s0) (λ i, made i ++ []).
Proof.
  intros HF Hn Hre Hfl Hq Hd. destruct (settle_dry c by_ w r s0 Hn Hd) as (H1 & H2 & H3). apply (fifo_keep s); [done| | |].
  - intros i. by rewrite H1.
  - intros i. by rewrite H2, Hre.
  - intros k i m. by rewrite H3.
Qed.

Lemma fifo_call s h c x s' made : ctl s → fifo s made → step (ECall h c x) s = Some s' → fifo s' (λ i, made i ++ []).
Proof.
  intros HI HF. cbn [step]. case_decide as Hc; [|done]. destruct Hc as [Hc _].
  destruct x as [id|id m|id frame|id frame]; cbn [borrows ws_call].
  - destruct (handles (world s) !! id) as [a|] eqn:Ha; [|done]. intros [= <-]. destruct (ct_handle s HI id a Ha) as [sh Hsh].
    set (s0 := mkSys (set_handles (delete id (handles (world s))) (world s)) (calls s) (rets s)).
    unfold recv. change (sockets (set_handles _ _) !! id) with (sockets (world s) !! id). rewrite Hsh. cbn [mbind option_bind].
    destruct (check_owner h sh) as [e|]; [by apply (fifo_dry s s)|].
    exact (fifo_receive s0 c id a sh made (ctl_lend s id HI) Hc (ctl_unlent s id a HI Ha) Hsh HF).
  - case_decide as Hs; [|done]. intros [= <-]. destruct Hs as [sh Hsh]. destruct (send_spec h id m (world s) sh Hsh) as [Hm Hp].
    destruct (send _ _ _ _) as [w r]. apply (fifo_dry s s); try done; [|by eapply plain_dry]. intros i. by apply (queue_mild id sh).
  - destruct (handles (world s) !! id) as [a|] eqn:Ha; [|done]. intros [= <-]. destruct (ct_handle s HI id a Ha) as [sh Hsh].
    destruct (ws_close_spec h id frame (set_handles (delete id (handles (world s))) (world s)) sh Hsh) as [Hm Hp].
    destruct (close _ _ _ _) as [w r]. apply (fifo_dry s s); try done; [|by eapply plain_dry]. intros i.
    exact (queue_mild id sh (set_handles (delete id (handles (world s))) (world s)) w i Hsh Hm).
  - case_decide as Hs; [|done]. intros [= <-]. destruct Hs as [sh Hsh]. destruct (ws_close_spec h id frame (world s) sh Hsh) as [Hm Hp].
    destruct (close _ _ _ _) as [w r]. apply (fifo_dry s s); try done; [|by eapply plain_dry]. intros i. by apply (queue_mild id sh).
Qed.

Lemma fifo_resume s c r s' made :
  ctl s → fails (EResume c r) s = false → fifo s made → step (EResume c r) s = Some s' → fifo s' (λ i, made i ++ []).
Proof.
  intros HI Hfail HF. cbn [step fails] in *. destruct (calls s !! c) as [[by_ t]|] eqn:Hc; [|done]. cbn [mbind option_bind].
  fold (without c s). pose proof (ct_call s HI c by_ t Hc) as (Hok & Hids & _).
  assert (Hn : calls (without c s) !! c = None) by (cbn; by rewrite lookup_delete_eq).
  assert (Hdry : (∀ id m, t ≠ RecvResumed id (inl (Some m))) → ∀ w u, (∀ i, queue i w = queue i (world s)) → dry u →
            fifo (settle c by_ (w, u) (without c s)) (λ i, made i ++ [])).
  { intros Ht w u Hq Hu. apply (fifo_dry s (without c s)); try done. intros k id m. apply flying_delete.
    intros m' [b Hb]. rewrite Hc in Hb. injection Hb as _ Hb. by eapply Ht. }
  assert (Hwait : ∀ id n, task_id t = Some id → (∀ id m, t ≠ RecvResumed id (inl (Some m))) →
            fifo (settle c by_ (close_wait id n (world s)) (without c s)) (λ i, made i ++ [])).
  { intros id n Hid E. destruct (Hids id Hid) as [sh Hsh]. destruct (close_wait_spec id n (world s) sh Hsh) as [Hm Hp].
    destruct (close_wait _ _ _) as [w u]. apply Hdry; [done|intros i; by apply (queue_mild id sh)|by eapply plain_dry]. }
  destruct t as [id pause waker down|id waker down|id|id answer| |id|id n]; cbn [call_ok] in Hok; cbn [sock_resume task_id] in *.
  - destruct r as [[e|]|]; [done| |done]. cbn. intros [= <-]. destruct (Hids id eq_refl) as [sh Hsh].
    destruct (data_pause_spec id pause waker down (world s) sh Hsh) as (Hso&_&_&_&Hu). apply waker_used_dry in Hu.
    destruct (data_pause _ _ _ _ _) as [w u]. apply Hdry; [done| |done]. intros i. unfold queue. cbn in Hso. by rewrite Hso.
  - destruct r as [[e|]|]; [done| |done]. cbn. intros [= <-]. destruct (Hids id eq_refl) as [sh Hsh].
    destruct (data_end_spec id waker down (world s) sh Hsh) as (Hso&_&_&Hr&_). destruct (data_end _ _ _ _) as [w u].
    cbn in Hr, Hso. subst u. apply Hdry; [done| |done]. intros i. unfold queue. by rewrite Hso.
  - destruct r as [|]; [done|]. cbn. intros [= <-]. destruct Hok as [a ->]. destruct (Hids id eq_refl) as [sh Hsh].
    destruct (without_lent s c _ _ id HI Hc eq_refl) as (Hh & _ & Hu). set (s1 := mkSys (unwake c (world s)) (calls (without c s)) (rets s)).
    assert (HI1 : ctl s1) by (apply (ctl_unwake (without c s)); [by apply (ctl_delete s c _ _ HI Hc)|done]).
    assert (HF1 : fifo s1 made).
    { intros i. destruct (HF i) as (mid & Hm & Hfl). exists mid. split; [exact Hm|].
      assert (Hd : ∀ k m, flying (calls s1) k i m ↔ flying (calls s) k i m)
        by (intros k m; apply flying_delete; intros m' [b Hb]; congruence).
      destruct Hfl as [[-> Hno]|(m & k & -> & Hk)]; [left; split; [done|]; intros k m; by rewrite Hd|right; exists m, k; by rewrite Hd]. }
    exact (fifo_receive s1 c id a sh made HI1 Hn Hu Hsh HF1).
  - destruct r as [[e|]|]; [done| |done]. cbn [mbind option_bind]. intros [= <-]. destruct Hok as [a ->].
    destruct answer as [[m|]|e];
      [|by refine (Hdry _ (world s) (inr (SockMessage (inl None))) _ _)|by refine (Hdry _ (world s) (inr (SockMessage (inr e))) _ _)].
    destruct (without_lent s c _ _ id HI Hc eq_refl) as (_ & _ & Hu).
    assert (HI0 : ctl (without c s)) by (by apply (ctl_delete s c _ _ HI Hc)).
    intros i. destruct (HF i) as (mid & Hm & Hfl). rewrite app_nil_r. cbn [settle world calls rets borrows without].
    change (queue i (set_handles _ _)) with (queue i (world s)). rewrite received_snoc. cbn [got]. destruct (decide (id = i)) as [<-|Hne].
    + exists []. assert (mid = [m]) as ->.
      { destruct Hfl as [[_ Hno]|(m' & k & -> & [b Hk])]; [destruct (Hno c m); by eexists|].
        destruct (decide (k = c)) as [->|]; [rewrite Hc in Hk; by injection Hk as _ ->|].
        destruct (no_flying (without c s) id k m' HI0 Hu). exists b. cbn. by rewrite lookup_delete_ne. }
      split; [rewrite Hm; cbn; by rewrite <- app_assoc|]. left. split; [done|]. intros k m'. exact (no_flying (without c s) id k m' HI0 Hu).
    + exists mid. rewrite app_nil_r. split; [done|].
      assert (Hd : ∀ k m', flying (delete c (calls s)) k i m' ↔ flying (calls s) k i m')
        by (intros k m'; apply flying_delete; intros m'' [b Hb]; congruence).
      destruct Hfl as [[-> Hno]|(m' & k & -> & Hk)]; [left; split; [done|]; intros k m'; by rewrite Hd|right; exists m', k; by rewrite Hd].
  - destruct r as [e|]; [|done]. cbn [mbind option_bind]. intros [= <-]. by refine (Hdry _ (world s) (inr (SockDone e)) _ _).
  - destruct r as [[e|]|]; cbn [mbind option_bind]; [| |done]; intros [= <-]; [by refine (Hdry _ (world s) (inr (SockDone (Some e))) _ _)|by apply Hwait].
  - destruct r as [|]; [done|]. cbn [mbind option_bind]. intros [= <-]. by apply Hwait.
Qed.

Lemma fifo_step `{!WsLaws} ev s s' made :
  ctl s → fails ev s = false → fifo s made → step ev s = Some s' → fifo s' (λ i, made i ++ pumped i ev s).
Proof.
  intros HI Hf HF Hs. destruct ev as [id sh|h c id data|id reason|id|h c x|c r|id|n|f].
  - cbn in Hs. case_decide as E; [|done]. injection Hs as <-. destruct E as [Hno Hfr]. apply (fifo_keep s); try done.
    intros i. unfold queue. cbn. destruct (decide (i = id)) as [->|]; [|by rewrite lookup_insert_ne].
    rewrite lookup_insert_eq, Hno. cbn. unfold fresh in Hfr. by destruct (messages sh).
  - cbn in Hs. case_decide as E; [|done]. injection Hs as <-. destruct E as [Hn [sh Hsh]].
    destruct (on_data_spec h id data (world s) sh Hsh) as [(Hw & [e He] & Hp)|(sh' & Hc & Hm & _ & _ & _ & _ & _ & Hu)].
    + destruct (on_data _ _ _ _) as [w r]. cbn in Hw, He. subst. apply (fifo_grow s); try done. intros i. cbn [pumped].
      case_decide; [|by rewrite app_nil_r]. subst. by rewrite Hsh, Hp, app_nil_r.
    + apply waker_used_dry in Hu. destruct (on_data h id data (world s)) as [w r]. cbn [fst snd] in *.
      destruct (settle_dry c ByHost w r s Hn Hu) as (Hq & Hre & Hfl). apply (fifo_grow s); try done. intros i. cbn [pumped].
      rewrite Hq, (queue_changed _ _ _ _ _ Hc). destruct (decide (i = id)) as [->|]; [|rewrite decide_False by done; by rewrite app_nil_r].
      rewrite decide_True by done. unfold queue. by rewrite Hsh, Hm.
  - cbn in Hs. case_decide as E; [|done]. injection Hs as <-. destruct E as [sh Hsh]. apply (fifo_keep s); try done.
    intros i. apply (queue_mild id sh); [done|by apply on_closed_mild].
  - cbn in Hs. case_decide as E; [|done]. injection Hs as <-. destruct E as [sh Hsh]. apply (fifo_keep s); try done.
    intros i. apply (queue_mild id sh); [done|by apply abort_mild].
  - by apply (fifo_call s h c x).
  - by apply (fifo_resume s c r).
  - cbn in Hs. case_decide as E; [|done]. injection Hs as <-. destruct E as [a Ha]. apply (fifo_keep s); try done. intros i. cbn.
    unfold drop_handle. rewrite Ha. destruct a; [|done]. destruct (ct_handle s HI id true Ha) as [sh Hsh].
    set (w0 := set_handles (delete id (handles (world s))) (world s)).
    exact (queue_mild id sh w0 (abort id w0) i Hsh (abort_mild id w0 sh Hsh)).
  - injection Hs as <-. by apply (fifo_keep s).
  - injection Hs as <-. by apply (fifo_keep s).
Qed.

Lemma ws_run_books `{!WsLaws} evs s made s' :
  ctl s → fifo s made → no_failures evs s = true → run evs s = Some s' → ctl s' ∧ fifo s' (λ i, made i ++ produced i evs s).
Proof.
  revert s made. induction evs as [|ev evs IH]; intros s made HI HF; cbn [no_failures run produced].
  - intros _ [= <-]. split; [done|]. intros i. destruct (HF i) as (mid & Hm & ?). exists mid. by rewrite app_nil_r.
  - intros [Hf%negb_true_iff Hno]%andb_true_iff. destruct (step ev s) as [s1|] eqn:Hs; [|done]. cbn. intros Hr.
    destruct (IH s1 (λ i, made i ++ pumped i ev s)) as [Hc HF']; [by eapply ctl_step|by eapply fifo_step|done|done|].
    split; [done|]. intros i. destruct (HF' i) as (mid & Hm & ?). exists mid. by rewrite app_assoc.
Qed.

Lemma ws_start h u : ctl (sys_new h u) ∧ fifo (sys_new h u) (λ _, []).
Proof. split; [by split|]. intros i. exists []. split; [done|]. left. split; [done|]. by intros c m [b Hb]. Qed.


(** Under the same condition the messages the reader got, the one it is being given, and
    those in the queue are, in this order, the messages read from the connection; and a
    socket with more than [input_high_water] bytes queued is marked as paused. *)
Theorem messages_in_order `{!WsLaws} h u evs s id :
  no_failures evs (sys_new h u) = true → run evs (sys_new h u) = Some s →
  (∃ mid, produced id evs (sys_new h u) = received id (rets s) ++ mid ++ queue id (world s) ∧ in_flight (calls s) id mid)
  ∧ ∀ sh, sockets (world s) !! id = Some sh → paused sh = true ∨ queued_bytes sh < high sh.
Proof.
  intros Hno Hr. destruct (ws_start h u) as [HI HF]. destruct (ws_run_books evs _ _ s HI HF Hno Hr) as [HI' HF'].
  split; [apply HF'|]. intros sh Hsh. by apply (ct_flow s HI' id sh).
Qed.

(** ** A reader nobody will wake *)

Record stranded (c id : Z) (s : Sys) : Prop := {
  sd_call : ∃ by_, calls s !! c = Some (by_, Receiving id);
  sd_woken : c ∉ woken (world s);
  sd_carried : ∀ c' by_ t, calls s !! c' = Some (by_, t) → carries t ≠ Some c;
  sd_waker : ∀ i sh, sockets (world s) !! i = Some sh → recv_waker sh ≠ Some c;
  sd_ids : ∀ c' by_ t i, calls s !! c' = Some (by_, t) → task_id t = Some i ∨ lends by_ = Some i → is_Some (sockets (world s) !! i);
  sd_ok : ∀ c' by_ t, calls s !! c' = Some (by_, t) → call_ok by_ t;
  sd_handles : ∀ i a, handles (world s) !! i = Some a → is_Some (sockets (world s) !! i);
}.

(** A world in which nothing for [c] has turned up. *)
Record deaf_world (c : Z) (w w' : W (St := St)) : Prop := {
  dw_woken : c ∉ woken w';
  dw_waker : ∀ i sh, sockets w' !! i = Some sh → recv_waker sh ≠ Some c;
  dw_some : ∀ i, is_Some (sockets w !! i) → is_Some (sockets w' !! i);
  dw_handles : ∀ i a, handles w' !! i = Some a → is_Some (handles w !! i) ∨ is_Some (sockets w' !! i);
}.

Lemma deaf_change c id sh' w w' :
  (∀ i sh, sockets w !! i = Some sh → recv_waker sh ≠ Some c) → changed id sh' w w' → recv_waker sh' ≠ Some c → c ∉ woken w' → deaf_world c w w'.
Proof.
  intros Hw Hc Hn Hk. pose proof Hc as (Hso & Hha & _). split; [done| | |].
  - intros i x Hx. rewrite Hso in Hx. apply lookup_insert_Some in Hx as [[_ <-]|[_ Hx]]; [done|by eapply Hw].
  - intros i. by eapply changed_some.
  - intros i a Ha. rewrite Hha in Ha. left. eauto.
Qed.

Lemma deaf_mild c id sh w w' :
  (∀ i sh, sockets w !! i = Some sh → recv_waker sh ≠ Some c) → c ∉ woken w → sockets w !! id = Some sh → mild id sh w w' → deaf_world c w w'.
Proof.
  intros Hw Hk Hsh (sh' & Hc & _ & _ & _ & _ & _ & Hd). pose proof (Hw id sh Hsh) as Hn.
  destruct Hd as [(E & _ & _ & Ew)|[E Ew]]; apply (deaf_change c id sh' w w'); try done; rewrite ?E, ?Ew; try done.
  unfold waked. destruct (recv_waker sh); set_solver.
Qed.

Lemma stranded_settle c id s c' by_ w r :
  stranded c id s → c' ≠ c → deaf_world c (world s) w →
  (∀ t, r = inl t → carries t ≠ Some c ∧ call_ok by_ t ∧ ∀ i, task_id t = Some i → is_Some (sockets w !! i)) →
  (∀ i, lends by_ = Some i → is_Some (sockets w !! i)) →
  stranded c id (settle c' by_ (w, r) s).
Proof.
  intros [[b Hb] H2 H3 H4 H5 H7 H6] Hne [D1 D2 D3 D4] Ht Hl.
  assert (Hh : ∀ i a, handles w !! i = Some a → is_Some (sockets w !! i)).
  { intros i a Ha. destruct (D4 i a Ha) as [[a' Ha']|]; [|done]. by apply D3, (H6 i a'). }
  destruct r as [t|ret]; cbn.
  - destruct (Ht t eq_refl) as (Hc & Hok & Hi). split; cbn; try done.
    + exists b. by rewrite lookup_insert_ne.
    + intros k b' u [[_ [= _ <-]]|[_ Hu]]%lookup_insert_Some; [done|by eapply H3].
    + intros k b' u i [[_ [= <- <-]]|[_ Hu]]%lookup_insert_Some; [intros []; auto|]. intros Hi'. by apply D3, (H5 k b' u).
    + intros k b' u [[_ [= <- <-]]|[_ Hu]]%lookup_insert_Some; [done|by eapply H7].
  - assert (Hgo : ∀ w' rs, woken w' = woken w → sockets w' = sockets w → (∀ i a, handles w' !! i = Some a → is_Some (sockets w !! i)) →
              stranded c id (mkSys w' (calls s) rs)).
    { intros w' rs Ek Es Eh. split; cbn; rewrite ?Ek, ?Es; try done; [by exists b|intros k b' u i Hu Hi; by apply D3, (H5 k b' u)]. }
    destruct by_ as [|x active]; [by apply Hgo|]. apply Hgo; destruct (borrows x) as [i|] eqn:Eb, active; try done.
    intros j a. cbn. intros [[<- _]|[_ Ha]]%lookup_insert_Some; [by apply Hl|by eapply Hh].
Qed.

Lemma waker_used_deaf c k w r : waker_used k w r → k ≠ Some c → c ∉ woken w → (c ∉ woken r.1) ∧ (∀ t, r.2 = inl t → carries t ≠ Some c).
Proof.
  intros [(t & Hr & Hc & _ & Hk)|([e Hr] & Hk)] Hn Hw; rewrite Hk, Hr; (split; [|intros u; try congruence]); [done|].
  destruct k; set_solver.
Qed.

Lemma stranded_move c id s w' :
  stranded c id s → deaf_world c (world s) w' → stranded c id (mkSys w' (calls s) (rets s)).
Proof.
  intros [H1 H2 H3 H4 H5 H7 H6] [D1 D2 D3 D4]. split; cbn; try done; [by eauto|].
  intros i a Ha. destruct (D4 i a Ha) as [[a' Ha']|]; [|done]. by apply D3, (H6 i a').
Qed.

Lemma stranded_receive c id s k i a sh :
  stranded c id s → k ≠ c → sockets (world s) !! i = Some sh →
  stranded c id (settle k (ByApp (CallRecv i) (Some a)) (receive k i (world s)) s).
Proof.
  intros Hs Hne Hsh. destruct (receive_spec k i (world s) sh Hsh) as (Hk & sh' & Hc & _ & _ & Hd).
  destruct (receive k i (world s)) as [w r]. cbn [fst snd] in *. pose proof Hc as (Hso & _).
  assert (Hi : is_Some (sockets w !! i)) by (rewrite Hso, lookup_insert_eq; eauto).
  apply stranded_settle; [done|done| | |].
  - apply (deaf_change c i sh'); [apply Hs|done| |rewrite Hk; apply Hs]. pose proof (sd_waker c id s Hs i sh Hsh).
    destruct Hd as [(? & ? & _ & _ & -> & _)|(_ & _ & _ & _ & [(_ & _ & -> & _)|(-> & _)])]; [done|congruence|done].
  - intros t ->. destruct Hd as [(m & rest & _ & _ & _ & _ & _ & [[= ->]|?])|(_ & _ & _ & _ & [(_ & _ & _ & [= ->])|(_ & ? & ? & _)])]; try done;
      (split_and!; [done|cbn; eauto|]); by intros j [= <-].
  - by intros j [= <-].
Qed.

Lemma plain_stranded c id s k by_ i sh w r :
  stranded c id s → k ≠ c → sockets (world s) !! i = Some sh → mild i sh (world s) w → plain_task i r →
  (∀ j, lends by_ = Some j → is_Some (sockets (world s) !! j)) → stranded c id (settle k by_ (w, r) s).
Proof.
  intros Hs Hne Hsh Hm Hp Hl. pose proof Hm as (sh' & Hch & _). pose proof Hch as (Hso & _).
  assert (Hi : is_Some (sockets w !! i)) by (rewrite Hso, lookup_insert_eq; eauto). apply stranded_settle; try done.
  - by apply (deaf_mild c i sh); [apply Hs|apply Hs|..].
  - intros t ->. destruct Hp as [->|[->|[n ->]]]; (split_and!; [done|done|]); by intros j [= <-].
  - intros j Hj. apply (changed_some _ _ _ _ _ Hch). by apply Hl.
Qed.

Lemma stranded_call c id s h k x s' : stranded c id s → step (ECall h k x) s = Some s' → stranded c id s'.
Proof.
  intros Hs. cbn [step]. case_decide as Hc; [|done]. destruct Hc as [Hc _].
  assert (Hne : k ≠ c) by (destruct (sd_call c id s Hs) as [b Hb]; congruence).
  set (lent i := mkSys (set_handles (delete i (handles (world s))) (world s)) (calls s) (rets s)).
  assert (Hlent : ∀ i, stranded c id (lent i)).
  { intros i. apply (stranded_move c id s); [done|]. split; cbn; [apply Hs|apply Hs|done|].
    intros j a [_ Ha]%lookup_delete_Some. left. eauto. }
  destruct x as [i|i m|i frame|i frame]; cbn [borrows ws_call].
  - destruct (handles (world s) !! i) as [a|] eqn:Ha; [|done]. intros [= <-]. destruct (sd_handles c id s Hs i a Ha) as [sh Hsh].
    unfold recv. change (sockets (set_handles _ _) !! i) with (sockets (world s) !! i). rewrite Hsh. cbn [mbind option_bind].
    destruct (check_owner h sh) as [e|]; [|exact (stranded_receive c id (lent i) k i a sh (Hlent i) Hne Hsh)].
    refine (stranded_settle c id (lent i) k (ByApp (CallRecv i) (Some a)) (world (lent i)) (inr (SockMessage (inr e))) (Hlent i) Hne _ _ _); [|done|].
    + destruct (Hlent i) as [_ ? _ ? _ _ ?]. split; eauto.
    + intros j [= <-]. eauto.
  - case_decide as Hi; [|done]. intros [= <-]. destruct Hi as [sh Hsh]. destruct (send_spec h i m (world s) sh Hsh) as [Hm Hp].
    destruct (send _ _ _ _) as [w r]. by apply (plain_stranded c id s k _ i sh).
  - destruct (handles (world s) !! i) as [a|] eqn:Ha; [|done]. intros [= <-]. destruct (sd_handles c id s Hs i a Ha) as [sh Hsh].
    destruct (ws_close_spec h i frame (world (lent i)) sh Hsh) as [Hm Hp]. change (set_handles _ _) with (world (lent i)).
    destruct (close _ _ _ _) as [w r]. refine (plain_stranded c id (lent i) k (ByApp (CallClose i frame) (Some a)) i sh w r (Hlent i) Hne Hsh Hm Hp _).
    intros j [= <-]. eauto.
  - case_decide as Hi; [|done]. intros [= <-]. destruct Hi as [sh Hsh]. destruct (ws_close_spec h i frame (world s) sh Hsh) as [Hm Hp].
    destruct (close _ _ _ _) as [w r]. by apply (plain_stranded c id s k _ i sh).
Qed.

Lemma stranded_without c id s k : stranded c id s → k ≠ c → stranded c id (without k s).
Proof.
  intros [[b Hb] H2 H3 H4 H5 H7 H6] Hne. split; cbn; try done.
  - exists b. by rewrite lookup_delete_ne.
  - intros c' b' t [_ Hc]%lookup_delete_Some. by eapply H3.
  - intros c' b' t i [_ Hc]%lookup_delete_Some. by eapply H5.
  - intros c' b' t [_ Hc]%lookup_delete_Some. by eapply H7.
Qed.

Lemma same_deaf c id s w : stranded c id s → sockets w = sockets (world s) → handles w = handles (world s) → c ∉ woken w → deaf_world c (world s) w.
Proof. intros Hs Hso Hha Hk. split; rewrite ?Hso, ?Hha; [done|apply Hs|done|eauto]. Qed.

Lemma stranded_resume c id s k r s' : stranded c id s → k ≠ c → step (EResume k r) s = Some s' → stranded c id s'.
Proof.
  intros Hs Hne. cbn [step]. destruct (calls s !! k) as [[by_ t]|] eqn:Hc; [|done]. cbn [mbind option_bind]. fold (without k s).
  pose proof (stranded_without c id s k Hs Hne) as Hs0. pose proof (sd_ok c id s Hs k by_ t Hc) as Hok.
  pose proof (λ i, sd_ids c id s Hs k by_ t i Hc) as Hids. pose proof (sd_carried c id s Hs k by_ t Hc) as Hcar.
  assert (Hret : ∀ ret, stranded c id (settle k by_ (world s, inr ret) (without k s))).
  { intros ret. refine (stranded_settle c id (without k s) k by_ (world s) (inr ret) Hs0 Hne _ _ _); [|done|auto].
    apply (same_deaf c id (without k s)); try done. apply Hs. }
  assert (Hdata : ∀ w u, by_ = ByHost → sockets w = sockets (world s) → handles w = handles (world s) →
            (∀ v, u = inl v → task_id v = task_id t) → waker_used (carries t) (world s) (w, u) → stranded c id (settle k by_ (w, u) (without k s))).
  { intros w u -> Hso Hha Hv Hu. destruct (waker_used_deaf c _ _ _ Hu Hcar (sd_woken c id s Hs)) as [Hw Hc'].
    refine (stranded_settle c id (without k s) k ByHost w u Hs0 Hne _ _ _); [by apply (same_deaf c id (without k s))| |done].
    intros v ->. split_and!; [by apply Hc'| |intros i Hi; rewrite Hso; apply Hids; left; by rewrite <- (Hv v eq_refl)].
    destruct Hu as [(v' & [= <-] & _ & (? & ? & ? & [->| ->]) & _)|([e ?] & _)]; done. }
  assert (Hwait : ∀ i n, task_id t = Some i → stranded c id (settle k by_ (close_wait i n (world s)) (without k s))).
  { intros i n Hi. destruct (Hids i (or_introl Hi)) as [sh Hsh]. destruct (close_wait_spec i n (world s) sh Hsh) as [Hm Hp].
    destruct (close_wait _ _ _) as [w u]. exact (plain_stranded c id (without k s) k by_ i sh w u Hs0 Hne Hsh Hm Hp (λ j Hj, Hids j (or_intror Hj))). }
  destruct t as [i pause waker down|i waker down|i|i answer| |i|i n]; cbn [call_ok] in Hok; cbn [sock_resume task_id carries] in *.
  - destruct r as [[e|]|]; [| |done]; cbn [mbind option_bind]; intros [= <-]; [by refine (Hret (SockDone (Some e)))|].
    destruct (Hids i (or_introl eq_refl)) as [sh Hsh]. destruct (data_pause_spec i pause waker down (world s) sh Hsh) as (?&?&?&Ht&Hu).
    destruct (data_pause _ _ _ _ _) as [w u]. by apply Hdata.
  - destruct r as [[e|]|]; [| |done]; cbn [mbind option_bind]; intros [= <-]; [by refine (Hret (SockDone (Some e)))|].
    destruct (Hids i (or_introl eq_refl)) as [sh Hsh]. destruct (data_end_spec i waker down (world s) sh Hsh) as (?&?&?&Hr&Hk).
    destruct (data_end _ _ _ _) as [w u]. cbn in Hr, Hk. subst u. apply Hdata; try done. right. cbn. eauto.
  - destruct r as [|]; [done|]. cbn [mbind option_bind]. intros [= <-]. destruct Hok as [a ->].
    destruct (Hids i (or_introl eq_refl)) as [sh Hsh].
    set (s1 := mkSys (unwake k (world s)) (calls (without k s)) (rets s)).
    assert (Hs1 : stranded c id s1).
    { refine (stranded_move c id (without k s) (unwake k (world s)) Hs0 _). apply (same_deaf c id (without k s)); try done.
      cbn. pose proof (sd_woken c id s Hs). set_solver. }
    exact (stranded_receive c id s1 k i a sh Hs1 Hne Hsh).
  - destruct r as [[e|]|]; [| |done]; cbn [mbind option_bind]; intros [= <-];
      [by refine (Hret (SockMessage (inr e)))|by refine (Hret (SockMessage answer))].
  - destruct r as [e|]; [|done]. cbn [mbind option_bind]. intros [= <-]. by refine (Hret (SockDone e)).
  - destruct r as [[e|]|]; cbn [mbind option_bind]; [| |done]; intros [= <-]; [by refine (Hret (SockDone (Some e)))|]. by apply Hwait.
  - destruct r as [|]; [done|]. cbn [mbind option_bind]. intros [= <-]. by apply Hwait.
Qed.

Lemma stranded_step `{!WsLaws} c id ev s s' :
  stranded c id s → ev ≠ EResume c RAgain → step ev s = Some s' → stranded c id s'.
Proof.
  intros Hs Hne Hst. pose proof (sd_call c id s Hs) as [b Hb]. destruct ev as [i sh|h k i data|i reason|i|h k x|k r|i|n|f].
  - cbn in Hst. case_decide as E; [|done]. injection Hst as <-. destruct E as [Hno Hfr]. apply (stranded_move c id s); [done|]. split; cbn.
    + apply Hs.
    + intros j x [[_ <-]|[_ Hx]]%lookup_insert_Some; [|by eapply (sd_waker c id s Hs)]. unfold fresh in Hfr.
      by destruct (messages sh), (recv_waker sh).
    + intros j Hj. destruct (decide (j = i)) as [->|]; [by rewrite lookup_insert_eq|by rewrite lookup_insert_ne].
    + intros j a [[<- _]|[_ Ha]]%lookup_insert_Some; [right; by rewrite lookup_insert_eq|left; eauto].
  - cbn in Hst. case_decide as E; [|done]. injection Hst as <-. destruct E as [Hn [sh Hsh]]. assert (Hk : k ≠ c) by congruence.
    destruct (on_data_spec h i data (world s) sh Hsh) as [(Hw & [e He] & _)|(sh' & Hc & _ & Hwk & _ & _ & _ & Ht & Hu)].
    + destruct (on_data _ _ _ _) as [w u]. cbn in Hw, He. subst. by destruct s.
    + destruct (waker_used_deaf c _ _ _ Hu (sd_waker c id s Hs i sh Hsh) (sd_woken c id s Hs)) as [Hw Hca].
      destruct (on_data h i data (world s)) as [w u]. cbn [fst snd] in *. apply stranded_settle; try done.
      * apply (deaf_change c i sh'); [apply Hs|done|by rewrite Hwk|done].
      * intros t ->. split_and!; [by apply Hca| |]; [|intros j Hj; rewrite (Ht t eq_refl) in Hj; injection Hj as <-; destruct Hc as (-> & _); by rewrite lookup_insert_eq].
        destruct Hu as [(v & [= <-] & _ & (? & ? & ? & [->| ->]) & _)|([e ?] & _)]; done.
  - cbn in Hst. case_decide as E; [|done]. injection Hst as <-. destruct E as [sh Hsh]. apply (stranded_move c id s); [done|].
    apply (deaf_mild c i sh); [apply Hs|apply Hs|done|by apply on_closed_mild].
  - cbn in Hst. case_decide as E; [|done]. injection Hst as <-. destruct E as [sh Hsh]. apply (stranded_move c id s); [done|].
    apply (deaf_mild c i sh); [apply Hs|apply Hs|done|by apply abort_mild].
  - exact (stranded_call c id s h k x s' Hs Hst).
  - destruct (decide (k = c)) as [->|Hk]; [|exact (stranded_resume c id s k r s' Hs Hk Hst)]. destruct r as [r|]; [|done].
    cbn [step] in Hst. rewrite Hb in Hst. done.
  - cbn in Hst. case_decide as E; [|done]. injection Hst as <-. destruct E as [a Ha]. apply (stranded_move c id s); [done|].
    destruct (sd_handles c id s Hs i a Ha) as [sh Hsh]. unfold drop_handle. rewrite Ha.
    set (w0 := set_handles (delete i (handles (world s))) (world s)).
    assert (Hh : ∀ j b', handles w0 !! j = Some b' → is_Some (handles (world s) !! j)) by (intros j b'; cbn; intros [_ ?]%lookup_delete_Some; eauto).
    destruct a; [|split; cbn; [apply Hs|apply Hs|done|intros j b' Hj; left; by eapply Hh]].
    destruct (deaf_mild c i sh w0 (abort i w0)) as [D1 D2 D3 D4]; [apply Hs|apply Hs|done|by apply abort_mild|].
    split; [done|done|done|]. intros j b' Hj. destruct (D4 j b' Hj) as [[b'' Hj']|]; [left; by eapply Hh|by right].
  - injection Hst as <-. apply (stranded_move c id s); [done|]. apply (same_deaf c id s); try done. apply Hs.
  - injection Hst as <-. apply (stranded_move c id s); [done|]. apply (same_deaf c id s); try done. apply Hs.
Qed.

(** A [close] that is polled after [close_timeout_ms] returns, and the socket has ended. *)
Lemma close_returns_in_time s c by_ id started sh s' :
  calls s !! c = Some (by_, CloseSleep id started) → sockets (world s) !! id = Some sh → 0 ≤ started →
  started + close_timeout sh ≤ now (world s) → step (EResume c RAgain) s = Some s' →
  calls s' !! c = None ∧ ∃ sh', sockets (world s') !! id = Some sh' ∧ ended sh' = true.
Proof.
  intros Hc Hsh H0' Hlate. cbn [step]. rewrite Hc. cbn [mbind option_bind sock_resume]. unfold close_wait. rewrite Hsh.
  assert (Hout : ∀ w, (∃ sh', sockets w !! id = Some sh' ∧ ended sh' = true) →
    let t := settle c by_ (w, inr (SockDone None)) (mkSys (world s) (delete c (calls s)) (rets s)) in
    calls t !! c = None ∧ ∃ sh', sockets (world t) !! id = Some sh' ∧ ended sh' = true).
  { intros w Hw. destruct by_ as [|x active]; cbn; rewrite lookup_delete_eq; [done|]. split; [done|].
    by destruct (borrows x), active. }
  destruct (ended sh) eqn:He; [intros [= <-]; apply Hout; eauto|]. unfold saturating_sub. rewrite decide_True by lia. intros [= <-].
  apply Hout. unfold on_closed. cbn [sockets shutdown emit]. rewrite Hsh. cbv zeta.
  destruct (recv_waker sh); cbn; rewrite lookup_insert_eq; eauto.
Qed.

(** A send that fails inside [on_data] takes the waker of the reader with it: whatever
    happens afterwards, the close of the connection included, the reader is never woken
    and its [recv] does not return. *)
Theorem failed_send_strands_reader `{!WsLaws} h u evs0 s c by_ id c' p d e s1 evs s2 :
  no_failures evs0 (sys_new h u) = true → run evs0 (sys_new h u) = Some s →
  calls s !! c = Some (by_, Receiving id) → c ∉ woken (world s) →
  calls s !! c' = Some (ByHost, DataSent id p (Some c) d) →
  (∀ k b t, k ≠ c' → calls s !! k = Some (b, t) → carries t ≠ Some c) →
  (∀ i sh, sockets (world s) !! i = Some sh → recv_waker sh ≠ Some c) →
  step (EResume c' (RDone (Some e))) s = Some s1 → EResume c RAgain ∉ evs → run evs s1 = Some s2 →
  (∃ b, calls s2 !! c = Some (b, Receiving id)) ∧ c ∉ woken (world s2).
Proof.
  intros Hno Hr Hc Hw Hc' Hcar Hwk Hst Hev Hrun. destruct (ws_start h u) as [HI HF].
  destruct (ws_run_books evs0 _ _ s HI HF Hno Hr) as [HIs _].
  assert (Hs1 : stranded c id s1).
  { cbn [step] in Hst. rewrite Hc' in Hst. injection Hst as <-. split; cbn; try done.
    - exists by_. rewrite lookup_delete_ne; [done|congruence].
    - intros k b t [Hk Hu]%lookup_delete_Some. by eapply Hcar.
    - intros k b t i [Hk Hu]%lookup_delete_Some. destruct (ct_call s HIs k b t Hu) as (_ & Ht & Hl). intros [Hi|Hi]; [by apply Ht|by apply Hl].
    - intros k b t [Hk Hu]%lookup_delete_Some. by apply (ct_call s HIs k b t Hu).
    - apply (ct_handle s HIs). }
  clear Hst. revert s1 Hs1 Hrun. induction evs as [|ev evs IH]; intros s1 Hs1; cbn [run].
  - intros [= <-]. split; apply Hs1.
  - apply not_elem_of_cons in Hev as [Hne Hev]. destruct (step ev s1) as [s1'|] eqn:Hst; [|done]. cbn.
    apply (IH Hev). by eapply stranded_step.
Qed.
End system.

(** ** A codec of one-byte frames

    0 closes the connection, 255 is an error, 9 is a ping, answered by 10. *)
Section toy.

Definition toy_frame (b : Z) : list Z * (Z + WsError) :=
  if b =? 0 then ([], inr ConnectionClosed) else if b =? 255 then ([], inr (OtherError "frame"))
  else if b =? 9 then ([10], inl 9) else ([], inl b).

#[global] Instance toy_ws : WsEngine := {|
  WsSock := list Z; WsMessage := Z; CloseFrame := unit;
  message_len _ := 4;
  from_partially_read tail _ _ := tail;
  ws_read s i :=
    match s, i with
    | b :: s, i => let '(out, r) := toy_frame b in (s, i, out, r)
    | [], b :: i => let '(out, r) := toy_frame b in ([], i, out, r)
    | [], [] => ([], [], [], inr WouldBlock)
    end;
  ws_send s m := (s, [m], None);
  ws_close s _ := (s, [0], None);
  ws_flush s := (s, [], None);
  ws_backlog s := length s;
|}.

#[global] Instance toy_ws_laws : WsLaws (H := toy_ws).
Proof.
  split; cbn; [| |lia].
  - intros s i s' r o m. destruct s as [|b s]; [destruct i as [|b i]; [done|]|]; destruct (toy_frame b) as [out x];
      intros [= <- <- <- ->]; cbn; lia.
  - intros s i s' r o. unfold toy_frame. destruct s as [|b s]; [destruct i as [|b i]; [by intros [= _ <-]|]|];
      (destruct (b =? 0); [done|]; destruct (b =? 255); [done|]; by destruct (b =? 9)).
Qed.

#[global] Instance unit_host : Host unit := λ _ h, h.

Definition all_up : HttpClient.TransportId → bool := λ _, true.

Definition plain_socket : Shared :=
  mkShared 1 (HttpClient.Plain 7) None 8 4 5000 [] io_default [] 0 None false None false.

(** A reader waits; a ping comes, whose answer is being sent. *)
Definition ping_events : list (Event (St := unit)) :=
  [ EOpen 1 plain_socket; ECall 1 10 (CallRecv 1); EData 1 11 1 [9] ].

Definition ping_run := run ping_events (sys_new tt all_up).

Definition ping_check (s : Sys (St := unit)) : bool :=
  match calls s !! 10, calls s !! 11 with
  | Some (_, Receiving i), Some (ByHost, DataSent j p w d) => bool_decide (i = 1 ∧ (j, p, w, d) = (1, false, Some 10, false))
  | _, _ => false
  end
  && bool_decide ((10 ∉ woken (world s)) ∧ map_Forall (λ k bt, k ≠ 11 → carries bt.2 ≠ Some 10) (calls s)
                  ∧ map_Forall (λ _ sh, recv_waker sh ≠ Some 10) (sockets (world s))).

Lemma ping_view : ∃ s, ping_run = Some s ∧ ping_check s = true.
Proof. apply some_view. by vm_compute. Qed.


Lemma messages_in_order_witness :
  ∃ s, ping_run = Some s
  ∧ (∃ mid, produced 1 ping_events (sys_new tt all_up) = received 1 (rets s) ++ mid ++ queue 1 (world s) ∧ in_flight (calls s) 1 mid)
  ∧ ∀ sh, sockets (world s) !! 1 = Some sh → paused sh = true ∨ queued_bytes sh < high sh.
Proof.
  destruct ping_view as (s & Hs & _). exists s. split; [exact Hs|].
  apply (messages_in_order tt all_up ping_events s 1); [reflexivity|exact Hs].
Defined.

(** The send fails, the connection is closed. *)
Definition lost_events : list (Event (St := unit)) := [ EClosed 1 (Some "reset"%string); EData 1 12 1 [5]; EAbort 1 ].

Lemma ping_facts s :
  ping_check s = true →
  (∃ by_, calls s !! 10 = Some (by_, Receiving 1)) ∧ (10 ∉ woken (world s)) ∧ calls s !! 11 = Some (ByHost, DataSent 1 false (Some 10) false)
  ∧ (∀ k b t, k ≠ 11 → calls s !! k = Some (b, t) → carries t ≠ Some 10)
  ∧ (∀ i sh, sockets (world s) !! i = Some sh → recv_waker sh ≠ Some 10).
Proof.
  intros [Hc (Hw & Hk & Hso)%bool_decide_eq_true]%andb_true_iff.
  destruct (calls s !! 10) as [[by_ [| |i| | | |]]|]; try done. destruct (calls s !! 11) as [[[|] [j p w d| | | | | |]]|]; try done.
  apply bool_decide_eq_true in Hc as [-> [= -> -> -> ->]]. split_and!; [by eexists|done|done| |done].
  intros k b t Hne Hb. by apply (Hk k (b, t)).
Qed.

Lemma lost_view :
  ∃ s s1 s2, ping_run = Some s ∧ ping_check s = true ∧ step (EResume 11 (RDone (Some Canceled))) s = Some s1 ∧ run lost_events s1 = Some s2
    ∧ ended <$> (sockets (world s2) !! 1) = Some true.
Proof.
  assert (Hv : ∃ s, ping_run = Some s ∧
    (ping_check s && match step (EResume 11 (RDone (Some Canceled))) s ≫= run lost_events with
                     | Some s2 => bool_decide (ended <$> (sockets (world s2) !! 1) = Some true) | None => false end) = true)
    by (apply some_view; by vm_compute).
  destruct Hv as (s & Hs & [Hc Hl]%andb_true_iff). destruct (step _ s) as [s1|] eqn:H1; [|done]. cbn [mbind option_bind] in Hl.
  destruct (run lost_events s1) as [s2|] eqn:H2; [|done]. apply bool_decide_eq_true in Hl. by exists s, s1, s2.
Qed.

Lemma failed_send_strands_reader_witness :
  ∃ s2, ended <$> (sockets (world s2) !! 1) = Some true
  ∧ (∃ b, calls s2 !! 10 = Some (b, Receiving 1)) ∧ 10 ∉ woken (world (St := unit) s2).
Proof.
  destruct lost_view as (s & s1 & s2 & Hs & Hc & H1 & H2 & He). exists s2. split; [exact He|].
  destruct (ping_facts s Hc) as ((by_ & Hcall) & Hw & Hc' & Hcar & Hso).
  apply (failed_send_strands_reader tt all_up ping_events s 10 by_ 1 11 false false Canceled s1 lost_events s2); try assumption;
    [reflexivity|]. intros Hin. unfold lost_events in Hin. repeat (apply elem_of_cons in Hin as [Hin|Hin]; [discriminate Hin|]). by apply elem_of_nil in Hin.
Defined.

(** ** A pause that comes late *)

(** The answer to a ping is being sent when the reader empties the queue. *)
Definition late_events : list (Event (St := unit)) :=
  [ EOpen 1 plain_socket; EData 1 11 1 [9; 1; 2];
    ECall 1 12 (CallRecv 1); ECall 1 13 (CallRecv 1); EResume 13 (RDone None); ECall 1 14 (CallRecv 1);
    EResume 11 (RDone None); EResume 11 (RDone None); ECall 1 15 (CallRecv 1) ].

Definition late_check (s : Sys (St := unit)) : bool :=
  match sockets (world s) !! 1, map_to_list (calls s), effects (world s) with
  | Some sh, [(c, (_, Receiving i))], [Send _ _; Resume t; Pause t'] =>
      bool_decide (paused sh = false ∧ recv_waker sh = Some 15 ∧ messages sh = [] ∧ ended sh = false ∧ c = 15 ∧ i = 1
                   ∧ t = transport sh ∧ t' = transport sh)
  | _, _, _ => false
  end.

Definition stalled (s : Sys (St := unit)) : Prop :=
  ∃ sh out, sockets (world s) !! 1 = Some sh
    ∧ effects (world s) = [out; Resume (transport sh); Pause (transport sh)]
    ∧ paused sh = false ∧ messages sh = [] ∧ ended sh = false ∧ recv_waker sh = Some 15
    ∧ ∀ c by_ t, calls s !! c = Some (by_, t) → t = Receiving 1.

Lemma late_facts s : late_check s = true → stalled s.
Proof.
  unfold late_check. intros Hc. destruct (sockets (world s) !! 1) as [sh|] eqn:Hsh; [|done].
  destruct (map_to_list (calls s)) as [|[c [b t]] [|]] eqn:Hl; try done; destruct t as [| |i| | | |]; try done.
  destruct (effects (world s)) as [|[] [|[] [|[] []]]] eqn:He; try done.
  apply bool_decide_eq_true in Hc as (?&?&?&?&->&->&->&->). exists sh. eexists. split_and!; [done|done|done|done|done|done|].
  intros k b' u Hk. apply elem_of_map_to_list in Hk. rewrite Hl in Hk. apply list_elem_of_singleton in Hk. by injection Hk as _ _ ->.
Qed.

(** [on_data] marks the socket as paused before it sends and pauses the transport
    afterwards.  A reader that empties the queue in between resumes the transport first:
    in the end the transport is paused, the socket is not marked so, no call is left that
    would resume it, and the reader waits for messages that cannot come. *)
Theorem late_pause_stalls_reader :
  no_failures late_events (sys_new tt all_up) = true ∧ ∃ s, run late_events (sys_new tt all_up) = Some s ∧ stalled s.
Proof.
  split; [reflexivity|].
  assert (Hv : ∃ s, run late_events (sys_new tt all_up) = Some s ∧ late_check s = true) by (apply some_view; by vm_compute).
  destruct Hv as (s & Hs & Hc). exists s. split; [exact Hs|exact (late_facts s Hc)].
Qed.
End toy.
End WsBooks.
