(* ===== verification/HttpServer.v ===== *)
(** * The HTTP server

    [HttpServer], [ServerCore], [ServerBodyHandle] and [ServerResponder] of
    [rskynet-http/src/server.rs], with [IncomingBody] and [OutgoingBody] of [body.rs].
    The server lives inside a service, which hands it the socket events and gets requests
    back; a request carries a reader for its body and a responder.

    The protocol engine is the server half of [ureq_proto]: a class [ServerEngine].
    Values the application owns (requests, bodies, responders) are [Obj]s; a call that
    takes one by value consumes it, one that takes [&mut] borrows it until it returns, and
    dropping one runs its [Drop].  A call that awaits is suspended; the rest of it is a
    [Task].  Futures are not dropped half-way. *)
From S2P Require Import Prelude HttpHead HttpClient WsSocket.
From Stdlib Require Import Ascii.
From stdpp Require Import strings.
#[local] Open Scope Z_scope.

Module HttpServer.
Import HttpHead.
Import HttpClient(TransportId, Plain, OverTls, TransportId_eq_dec, TransportId_countable).
Import WsSocket(WsEngine, WsMessage, CloseFrame, Host, clean, Eff, W, mkW, host, sockets, handles, effects, now, up, stuck, on_host, emit, set_handles, set_now, set_up, panic, Send, Pause, Resume, Shutdown, WebSocketUpgradeOptions, u_protocol, upgrade_validate, Resumed, RDone, RAgain).

(** ** The protocol engine *)

Class ServerEngine : Type := {
  ReqHead : Type;        (* method, path, version and headers of a request *)
  RespHead : Type;       (* status and version of a response *)
  SRecvRequest : Type; SSend100 : Type; SRecvBody : Type; SProvide : Type; SSendResponse : Type; SSendBody : Type;
  req_headers : ReqHead → HeaderMap;
  reply_new : SRecvRequest + string;
  try_request : SRecvRequest → list Z → SRecvRequest * (Z * option ReqHead + string);
  recv_proceed : SRecvRequest → option (SSend100 + (SRecvBody + SProvide));
  accept100 : SSend100 → Z → (list Z * SRecvBody) + string;
  reject100 : SSend100 → SProvide;
  s_body_read : SRecvBody → list Z → Z → SRecvBody * (Z * list Z + string);
  is_ended : SRecvBody → bool;
  s_body_proceed : SRecvBody → SProvide + string;
  provide : SProvide → RespHead → HeaderMap → SSendResponse + string;
  s_finished : SSendResponse → bool;
  s_write : SSendResponse → Z → SSendResponse * (list Z + string);
  (* the body, or [must_close_connection] of a response without one *)
  s_proceed : SSendResponse → SSendBody + bool;
  s_body_write : SSendBody → list Z → Z → SSendBody * (Z * list Z + string);
  s_body_finished : SSendBody → bool;
  s_must_close : SSendBody → bool;
  (* [tungstenite::handshake::server::create_response] *)
  create_response : ReqHead → (RespHead * HeaderMap) + string;
}.

(** The engine consumes at most its input, produces body only from input, and a request
    that was parsed leads on. *)
Class ServerLaws `{ServerEngine} : Prop := {
  try_request_used c input c' used r : try_request c input = (c', inl (used, r)) → 0 ≤ used ≤ Z.of_nat (length input);
  recv_proceed_ready c input c' used r : try_request c input = (c', inl (used, Some r)) → is_Some (recv_proceed c');
  s_body_read_used c input cap c' used bs :
    s_body_read c input cap = (c', inl (used, bs)) → 0 ≤ used ≤ Z.of_nat (length input) ∧ (used = 0 → bs = []);
}.

Section server.
Context `{ServerEngine} `{WsEngine}.
Context (config : HttpServerConfig).
(** The handle of the service the server lives in. *)
Context (me : Z).

(** ** State *)

Inductive ServerProto : Type :=
  | RecvRequest (c : SRecvRequest)
  | Await100 (c : SSend100)
  | RecvBody (c : SRecvBody)
  | Provide (c : SProvide)
  | SendBody (c : SSendBody)
  | Responding
  | Upgraded (id : Z).

Record Connection : Type := mkConnection {
  listener : Z;
  peer : string;
  over_tls : bool;
  proto : option ServerProto;
  input : list Z;
  chunks : list (list Z);
  body_ended : bool;
  error : option string;
  paused : bool;
  response_expected : option Z;
  response_written : Z;
  header_generation : Z;
}.

Definition set_proto x (c : Connection) := mkConnection (listener c) (peer c) (over_tls c) x (input c) (chunks c) (body_ended c) (error c) (paused c) (response_expected c) (response_written c) (header_generation c).
Definition set_input x (c : Connection) := mkConnection (listener c) (peer c) (over_tls c) (proto c) x (chunks c) (body_ended c) (error c) (paused c) (response_expected c) (response_written c) (header_generation c).
Definition set_chunks x (c : Connection) := mkConnection (listener c) (peer c) (over_tls c) (proto c) (input c) x (body_ended c) (error c) (paused c) (response_expected c) (response_written c) (header_generation c).
Definition set_ended x (c : Connection) := mkConnection (listener c) (peer c) (over_tls c) (proto c) (input c) (chunks c) x (error c) (paused c) (response_expected c) (response_written c) (header_generation c).
Definition set_error x (c : Connection) := mkConnection (listener c) (peer c) (over_tls c) (proto c) (input c) (chunks c) (body_ended c) x (paused c) (response_expected c) (response_written c) (header_generation c).
Definition set_paused x (c : Connection) := mkConnection (listener c) (peer c) (over_tls c) (proto c) (input c) (chunks c) (body_ended c) (error c) x (response_expected c) (response_written c) (header_generation c).
Definition set_response e n (c : Connection) := mkConnection (listener c) (peer c) (over_tls c) (proto c) (input c) (chunks c) (body_ended c) (error c) (paused c) e n (header_generation c).
Definition set_generation x (c : Connection) := mkConnection (listener c) (peer c) (over_tls c) (proto c) (input c) (chunks c) (body_ended c) (error c) (paused c) (response_expected c) (response_written c) x.

Record ServerState : Type := mkState {
  next_listener : Z;
  next_websocket : Z;
  listeners : gmap TransportId Z;
  connections : gmap TransportId Connection;
  (* header timers under way, and messages to the service itself: empty [Data] events *)
  timers : list (TransportId * Z);
  posted : list TransportId;
}.

Definition state_default : ServerState := mkState 0 0 ∅ ∅ [] [].

Definition set_listeners n x (s : ServerState) := mkState n (next_websocket s) x (connections s) (timers s) (posted s).
Definition set_next_websocket x (s : ServerState) := mkState (next_listener s) x (listeners s) (connections s) (timers s) (posted s).
Definition set_connections x (s : ServerState) := mkState (next_listener s) (next_websocket s) (listeners s) x (timers s) (posted s).
Definition set_timers x (s : ServerState) := mkState (next_listener s) (next_websocket s) (listeners s) (connections s) x (posted s).
Definition set_posted x (s : ServerState) := mkState (next_listener s) (next_websocket s) (listeners s) (connections s) (timers s) x.

(** The cleanup of a WebSocket: [remove_connection]. *)
#[local] Instance server_host : Host ServerState := λ t s, set_connections (delete t (connections s)) s.

Abbreviation World := (W (St := ServerState)).

Definition conn (t : TransportId) (w : World) : option Connection := connections (host w) !! t.

Definition put_conn (t : TransportId) (c : Connection) (w : World) : World :=
  on_host (λ s, set_connections (<[t := c]> (connections s)) s) w.

Definition remove_connection (t : TransportId) (w : World) : World := on_host (clean t) w.

Definition shutdown (t : TransportId) (w : World) : World := emit (Shutdown t) w.

(** What the service gets: the head, and where the rest of the request is. *)
Record ServerRequest : Type := mkRequest {
  q_head : ReqHead; q_peer : string; q_tls : bool; q_listener : Z; q_transport : TransportId }.

(** ** Values the application owns *)

Inductive Obj : Type :=
  | ORequest (q : ServerRequest)
  | OIncoming (t : TransportId) (active : bool)
  | OResponder (t : TransportId)
  | OOutgoing (t : option TransportId).

(** [ServerBodyHandle::abort]. *)
Definition abort (t : TransportId) (w : World) : World :=
  match conn t w with
  | Some _ => shutdown t (remove_connection t w)
  | None => w
  end.

Definition abort_incoming (t : TransportId) (w : World) : World :=
  match conn t w with
  | Some c =>
      match proto c with
      | Some (Await100 _ | RecvBody _) => if body_ended c then w else abort t w
      | _ => w
      end
  | None => w
  end.

Definition drop_incoming (t : TransportId) (active : bool) (w : World) : World := if active then abort_incoming t w else w.

(** A request is dropped field by field: the body, then the responder. *)
Definition drop_request (q : ServerRequest) (w : World) : World :=
  abort (q_transport q) (drop_incoming (q_transport q) true w).

Definition drop_requests (qs : list ServerRequest) (w : World) : World := foldl (λ w q, drop_request q w) w qs.

Definition drop_obj (o : Obj) (w : World) : World :=
  match o with
  | ORequest q => drop_request q w
  | OIncoming t active => drop_incoming t active w
  | OResponder t => abort t w
  | OOutgoing (Some t) => abort t w
  | OOutgoing None => w
  end.

(** ** Listeners *)

Definition insert_listener (t : TransportId) (w : World) : World * Z :=
  let id := Z.max 1 (next_listener (host w) +w 1) in
  (on_host (λ s, set_listeners id (<[t := id]> (listeners s)) s) w, id).

(** [bind_http] and [bind_https] after [start] returned. *)
Definition bound (t : TransportId) (id : Z) (r : option HttpError) (w : World) : World * (Z + HttpError) :=
  match r with
  | None => (w, inl id)
  | Some e => (shutdown t (on_host (λ s, set_listeners (next_listener s) (delete t (listeners s)) s) w), inr e)
  end.

(** [local_addr] up to the await of [info]. *)
Definition listening (id : Z) (w : World) : TransportId + HttpError :=
  match list_find (λ kv, kv.2 = id) (map_to_list (listeners (host w))) with
  | Some (_, (t, _)) => inl t
  | None => inr (InvalidState "no such listener")
  end.

Inductive NetEvent : Type :=
  | Accept (id listen : TransportId) (from : string)         (* plain sockets *)
  | Connected (id : TransportId) (listen : option TransportId) (from : string)   (* TLS *)
  | Data (t : TransportId) (data : list Z)
  | Close (t : TransportId)
  | Error (t : TransportId) (reason : string)
  | Udp (t : TransportId)
  | OtherEvent (t : TransportId).

Definition known (t : TransportId) (w : World) : bool :=
  bool_decide (is_Some (listeners (host w) !! t)) || bool_decide (is_Some (conn t w)).

(** [handles_socket] and [handles_tls]. *)
Definition handles_event (ev : NetEvent) (w : World) : bool :=
  match ev with
  | Accept id listen _ => bool_decide (is_Some (listeners (host w) !! listen)) || bool_decide (is_Some (conn id w))
  | Connected id listen _ =>
      is_some_and (λ l, bool_decide (is_Some (listeners (host w) !! l))) listen || bool_decide (is_Some (conn id w))
  | Udp _ => false
  | Data t _ | Close t | Error t _ | OtherEvent t => known t w
  end.

(** ** Connections *)

Definition arm_header_timeout (t : TransportId) (generation : Z) (w : World) : World :=
  on_host (λ s, set_timers (timers s ++ [(t, generation)]) s) w.

(** The end of the spawned timer. *)
Definition header_timeout (t : TransportId) (generation : Z) (w : World) : World :=
  match conn t w with
  | Some c =>
      match proto c with
      | Some (RecvRequest _) =>
          if decide (header_generation c = generation) then remove_connection t (shutdown t w) else w
      | _ => w
      end
  | None => w
  end.

Definition insert_connection (t : TransportId) (lis : Z) (from : string) (tls : bool) (w : World) : World * option HttpError :=
  match reply_new with
  | inr e => (w, Some (Protocol e))
  | inl reply =>
      if up w t then
        (arm_header_timeout t 1
           (put_conn t (mkConnection lis from tls (Some (RecvRequest reply)) [] [] false None false None 0 1) w), None)
      else (w, Some (InvalidState "transport service not started"))
  end.

(** ** Incoming bytes *)

(** The connection inside the loop of [process], and the requests found. *)
Inductive Turn : Type :=
  | Break (c : Connection) (qs : list ServerRequest)
  | Continue (c : Connection) (qs : list ServerRequest)
  | Fail (c : Connection) (qs : list ServerRequest) (e : HttpError)
  | Panic.

Definition drain_input (used : Z) (c : Connection) : option Connection :=
  if decide (used ≤ Z.of_nat (length (input c))) then Some (set_input (drop (Z.to_nat used) (input c)) c) else None.

Definition recv_request (t : TransportId) (call : SRecvRequest) (c : Connection) (qs : list ServerRequest) : Turn :=
  match try_request call (input c) with
  | (_, inr e) => Fail c qs (Protocol e)
  | (call, inl (used, Some head)) =>
      match drain_input used c, recv_proceed call with
      | Some c, Some next =>
          let c := set_ended false c in
          let c := match next with
                   | inl v => set_proto (Some (Await100 v)) c
                   | inr (inl v) => set_proto (Some (RecvBody v)) c
                   | inr (inr v) => set_proto (Some (Provide v)) (set_ended true c)
                   end in
          Continue c (qs ++ [mkRequest head (peer c) (over_tls c) (listener c) t])
      | _, _ => Panic
      end
  | (call, inl (_, None)) =>
      if decide (s_max_header_size config < Z.of_nat (length (input c)))
      then Fail c qs (BackpressureLimit (Z.of_nat (length (input c))) (s_max_header_size config))
      else Break (set_proto (Some (RecvRequest call)) c) qs
  end.

Definition recv_body (call : SRecvBody) (c : Connection) (qs : list ServerRequest) : Turn :=
  if decide (input c = []) then Break (set_proto (Some (RecvBody call)) c) qs else
  match s_body_read call (input c) (s_max_chunk_size config) with
  | (_, inr e) => Fail c qs (Protocol e)
  | (call, inl (used, bs)) =>
      match drain_input used c with
      | None => Panic
      | Some c =>
          let c := if decide (bs = []) then c else set_chunks (chunks c ++ [bs]) c in
          let turn c := if decide (used = 0 ∧ bs = []) then Break c qs else Continue c qs in
          if is_ended call then
            match s_body_proceed call with
            | inr e => Fail c qs (Protocol e)
            | inl v => turn (set_ended true (set_proto (Some (Provide v)) c))
            end
          else turn (set_proto (Some (RecvBody call)) c)
      end
  end.

(** One turn; [connection.proto.take()] comes first. *)
Definition process_turn (t : TransportId) (c : Connection) (qs : list ServerRequest) : Turn :=
  match proto c with
  | None => Break c qs
  | Some (RecvRequest call) => recv_request t call (set_proto None c) qs
  | Some (RecvBody call) => recv_body call (set_proto None c) qs
  | Some _ => Break c qs
  end.

(** [None] is a panic or out of fuel. *)
Fixpoint process_loop (fuel : nat) (t : TransportId) (c : Connection) (qs : list ServerRequest)
    : option (Connection * list ServerRequest * option HttpError) :=
  match fuel with
  | O => None
  | S fuel =>
      match process_turn t c qs with
      | Break c qs => Some (c, qs, None)
      | Continue c qs => process_loop fuel t c qs
      | Fail c qs e => Some (c, qs, Some e)
      | Panic => None
      end
  end.

Definition process (t : TransportId) (w : World) : World * (list ServerRequest + HttpError) :=
  match conn t w with
  | None => (w, inl [])
  | Some c =>
      match process_loop (length (input c) + 3) t c [] with
      | None => (panic w, inl [])
      | Some (c, qs, None) => (put_conn t c w, inl qs)
      | Some (c, qs, Some e) => (drop_requests qs (put_conn t c w), inr e)
      end
  end.

Definition buffered (c : Connection) : Z := Z.of_nat (length (input c)) + Z.of_nat (length (concat (chunks c))).

(** [data] up to the await of [pause]: the requests, and whether to pause. *)
Definition data (t : TransportId) (bytes : list Z) (w : World) : World * (list ServerRequest * bool + HttpError) :=
  match conn t w with
  | None => (w, inl ([], false))
  | Some c =>
      match process t (put_conn t (set_input (input c ++ bytes) c) w) with
      | (w, inr e) => (remove_connection t (shutdown t w), inr e)
      | (w, inl qs) =>
          match conn t w with
          | None => (w, inl (qs, false))
          | Some c =>
              if negb (body_ended c) && bool_decide (s_input_high_water config ≤ buffered c) && negb (paused c)
              then (emit (Pause t) (put_conn t (set_paused true c) w), inl (qs, true))
              else (w, inl (qs, false))
          end
      end
  end.

(** The WebSocket a connection has become. *)
Definition upgraded (t : TransportId) (w : World) : option Z :=
  match conn t w ≫= proto with Some (Upgraded id) => Some id | _ => None end.

Definition closed (t : TransportId) (reason : option string) (w : World) : World :=
  match listeners (host w) !! t with
  | Some _ => on_host (λ s, set_listeners (next_listener s) (delete t (listeners s)) s) w
  | None =>
      match upgraded t w with
      | Some id => WsSocket.on_closed id reason (remove_connection t w)
      | None =>
          match conn t w with
          | Some c =>
              match proto c with
              | Some (RecvRequest _) => remove_connection t w
              | _ => put_conn t (set_ended true (set_error (Some (default "closed"%string reason)) c)) w
              end
          | None => w
          end
      end
  end.

Definition finish_response (t : TransportId) (must_close : bool) (w : World) : World :=
  let w' := remove_connection t (shutdown t w) in
  if must_close then w' else
  match reply_new with
  | inr _ => w'
  | inl next =>
      match conn t w with
      | None => w
      | Some c =>
          let generation := Z.max 1 (header_generation c +w 1) in
          let c := set_generation generation (set_response None 0 (set_error None (set_chunks []
                     (set_ended false (set_proto (Some (RecvRequest next)) c))))) in
          let w := arm_header_timeout t generation (put_conn t c w) in
          if decide (input c = []) then w else on_host (λ s, set_posted (posted s ++ [t]) s) w
      end
  end.

(** ** Responses *)

(** The loops that serialize a head; [None] is out of fuel. *)
Fixpoint head_loop (fuel : nat) (c : SSendResponse) (all : list Z) (limit : Z) : option ((list Z * SSendResponse) + HttpError) :=
  if s_finished c then Some (inl (all, c)) else
  match fuel with
  | O => None
  | S fuel =>
      match s_write c (Z.max 1 (saturating_sub limit (Z.of_nat (length all)))) with
      | (_, inr e) => Some (inr (Protocol e))
      | (c, inl bs) =>
          if decide (bs = []) then Some (inr (Protocol "no progress")) else
          let all := all ++ bs in
          if decide (Z.of_nat (length all) > limit) then Some (inr (BackpressureLimit (Z.of_nat (length all)) limit))
          else head_loop fuel c all limit
      end
  end.

Definition serialize_head (c : SSendResponse) : option ((list Z * SSendResponse) + HttpError) :=
  head_loop (S (Z.to_nat (s_max_header_size config))) c [] (s_max_header_size config).

Definition expected (spec : BodySpec) : option Z :=
  match spec with Fixed size => Some size | Empty => Some 0 | Chunked => None end.

(** [ServerBodyHandle::respond] up to [send_wait]: whether a body follows, and whether to
    close.  On an error the state taken out of the connection is lost. *)
Definition respond (t : TransportId) (head : RespHead) (headers : HeaderMap) (spec : BodySpec) (w : World)
    : World * ((bool * bool) + HttpError) :=
  match apply_body_headers headers spec with
  | inr e => (w, inr e)
  | inl headers =>
      match conn t w with
      | None => (w, inr BodyClosed)
      | Some c =>
          let start (v : SProvide) :=
            match provide v head headers with
            | inr e => (put_conn t (set_proto None c) w, inr (Protocol e))
            | inl send =>
                match serialize_head send with
                | None => (panic w, inr BodyClosed)
                | Some (inr e) => (put_conn t (set_proto None c) w, inr e)
                | Some (inl (bytes, send)) =>
                    match s_proceed send with
                    | inl v => (emit (Send t bytes) (put_conn t (set_proto (Some (SendBody v)) (set_response (expected spec) 0 c)) w), inl (true, false))
                    | inr must_close => (emit (Send t bytes) (put_conn t (set_proto (Some Responding) c) w), inl (false, must_close))
                    end
                end
            end in
          match proto c with
          | None => (w, inr (InvalidState "state lost"))
          | Some (Await100 v) => start (reject100 v)
          | Some (Provide v) => start v
          | Some _ => (w, inr (InvalidState "request body not consumed"))
          end
      end
  end.

(** [ServerBodyHandle::write_chunk] up to [send_wait]. *)
Definition write_chunk (t : TransportId) (chunk : list Z) (w : World) : World * (bool + HttpError) :=
  if decide (chunk = []) then (w, inl false) else
  if decide (Z.of_nat (length chunk) > s_max_chunk_size config)
  then (w, inr (BackpressureLimit (Z.of_nat (length chunk)) (s_max_chunk_size config))) else
  match conn t w with
  | None => (w, inr BodyClosed)
  | Some c =>
      match proto c with
      | Some (SendBody call) =>
          match s_body_write call chunk (Z.max 64 (saturating_add (Z.of_nat (length chunk)) 32)) with
          | (_, inr e) => (put_conn t (set_proto None c) w, inr (Protocol e))
          | (call, inl (used, bs)) =>
              if decide (used = Z.of_nat (length chunk)) then
                (emit (Send t bs) (put_conn t (set_proto (Some (SendBody call))
                   (set_response (response_expected c) (saturating_add (response_written c) used) c)) w), inl true)
              else (put_conn t (set_proto (Some (SendBody call)) c) w, inr (Protocol "body not encoded"))
          end
      | _ => (put_conn t (set_proto None c) w, inr BodyClosed)
      end
  end.

(** [ServerBodyHandle::finish] up to [send_wait]: whether to close. *)
Definition finish (t : TransportId) (w : World) : World * (bool + HttpError) :=
  match conn t w with
  | None => (w, inr BodyClosed)
  | Some c =>
      match proto c with
      | Some (SendBody call) =>
          match (n ← response_expected c; if decide (response_written c ≠ n) then Some n else None) with
          | Some n => (w, inr (BodyLengthMismatch n (response_written c)))
          | None =>
              match s_body_write call [] 64 with
              | (_, inr e) => (put_conn t (set_proto None c) w, inr (Protocol e))
              | (call, inl (_, bs)) =>
                  if s_body_finished call then
                    (emit (Send t bs) (put_conn t (set_proto (Some Responding) c) w), inl (s_must_close call))
                  else (put_conn t (set_proto (Some (SendBody call)) c) w, inr (Protocol "body not finished"))
              end
          end
      | _ => (put_conn t (set_proto None c) w, inr BodyClosed)
      end
  end.

(** ** Request bodies *)

(** [ensure_continue] up to [send_wait]: whether a 100 is being sent. *)
Definition ensure_continue (t : TransportId) (w : World) : World * (bool + HttpError) :=
  match conn t w with
  | None => (w, inr BodyClosed)
  | Some c =>
      match proto c with
      | Some (Await100 call) =>
          match accept100 call 128 with
          | inr e => (put_conn t (set_proto None c) w, inr (Protocol e))
          | inl (output, recv) => (emit (Send t output) (put_conn t (set_proto (Some (RecvBody recv)) c) w), inl true)
          end
      | _ => (w, inl false)
      end
  end.

(** ... and after it: the bytes that came early are processed, the result is dropped. *)
Definition continued (t : TransportId) (w : World) : World * option HttpError :=
  match process t w with
  | (w, inr e) => (w, Some e)
  | (w, inl qs) => (drop_requests qs w, None)
  end.

(** The state part of one turn of [next_chunk]: an answer, whether to resume the
    transport, whether to remove the connection. *)
Definition take_chunk (t : TransportId) (w : World)
    : World * (option (option (list Z) + HttpError) * bool * bool + HttpError) :=
  match conn t w with
  | None => (w, inr BodyClosed)
  | Some c =>
      let '(answer, remove, c) :=
        match chunks c with
        | chunk :: rest => (Some (inl (Some chunk)), false, set_chunks rest c)
        | [] =>
            match error c with
            | Some reason => (Some (inr (Transport reason)), true, c)
            | None => (if body_ended c then Some (inl None) else None, false, c)
            end
        end in
      let resume := paused c && bool_decide (buffered c ≤ s_input_low_water config) in
      let c := if resume then set_paused false c else c in
      (put_conn t c w, inl (answer, resume, remove))
  end.

(** [next_chunk], [discard] or [collect]. *)
Inductive Mode : Type := MNext | MDiscard | MCollect (limit : Z) (all : list Z).

(** A body being read: the [IncomingBody], out of the hands of the application. *)
Record Reader : Type := mkReader { rd_obj : Z; rd_transport : TransportId; rd_active : bool; rd_mode : Mode }.

Inductive Ret : Type :=
  | RetRequests (r : list Z + HttpError)
  | RetUnit (r : option HttpError)
  | RetChunk (r : option (list Z) + HttpError)
  | RetBytes (r : list Z + HttpError)
  | RetOutgoing (r : Z + HttpError)
  | RetListener (r : Z + HttpError)
  | RetAddr (r : option HttpError)
  | RetSocket (r : Z + HttpError)
  | RetWs (r : WsSocket.SockRet).

(** What follows a chunk: [discard] and [collect] go on; at the end the body goes back to
    the application, is done with, or is dropped. *)
Inductive After : Type :=
  | Again (r : Reader)
  | Back (ret : Ret) (active : bool)
  | Gone (ret : Ret)
  | Dropped (ret : Ret) (active : bool).

Definition after_chunk (r : Reader) (res : option (list Z) + HttpError) : After :=
  let active := match res with inl None => false | _ => rd_active r end in
  match rd_mode r with
  | MNext => Back (RetChunk res) active
  | MDiscard =>
      match res with
      | inl (Some _) => Again r
      | inl None => Gone (RetUnit None)
      | inr e => Dropped (RetUnit (Some e)) active
      end
  | MCollect limit all =>
      match res with
      | inl (Some chunk) =>
          if decide (saturating_add (Z.of_nat (length all)) (Z.of_nat (length chunk)) > limit)
          then Dropped (RetBytes (inr (BackpressureLimit (Z.of_nat (length all) + Z.of_nat (length chunk)) limit))) active
          else Again (mkReader (rd_obj r) (rd_transport r) (rd_active r) (MCollect limit (all ++ chunk)))
      | inl None => Gone (RetBytes (inl all))
      | inr e => Dropped (RetBytes (inr e)) active
      end
  end.

(** ** Calls *)

(** What a suspended operation on a WebSocket belongs to. *)
Inductive SockFor : Type :=
  | ForData
  | ForUpgrade (t : TransportId) (id : Z)
  | ForCall (x : WsSocket.WsCall) (active : option bool).

(** The rest of a suspended call. *)
Inductive Task : Type :=
  | TListen (tls : bool)
  | TListenStart (t : TransportId) (id : Z)
  | TInfo
  | TAccept (t : TransportId)
  | TPause (qs : list ServerRequest)
  | TContinue (r : Reader)
  | TResume (r : Reader) (started : Z) (answer : option (option (list Z) + HttpError)) (remove : bool)
  | TSleep (r : Reader) (started : Z)
  | TRespond (t : TransportId) (has_body must_close : bool)
  | TWrite (n : Z) (t : TransportId)
  | TFinish (t : TransportId) (must_close : bool)
  | TUpgrade (t : TransportId) (id : Z)
  | TSock (k : SockFor) (s : WsSocket.SockTask).

Record Sys : Type := mkSys {
  world : World;
  objects : gmap Z Obj;
  next_obj : Z;
  tasks : gmap Z Task;
  rets : list (Z * Ret);
}.

Definition sys_new (u : TransportId → bool) : Sys := mkSys (mkW state_default ∅ ∅ [] ∅ 0 u false) ∅ 0 ∅ [].

Definition on_world (f : World → World) (s : Sys) := mkSys (f (world s)) (objects s) (next_obj s) (tasks s) (rets s).
Definition set_objects x (s : Sys) := mkSys (world s) x (next_obj s) (tasks s) (rets s).
Definition set_tasks x (s : Sys) := mkSys (world s) (objects s) (next_obj s) x (rets s).
Definition give (o : Obj) (s : Sys) : Sys * Z :=
  (mkSys (world s) (<[next_obj s := o]> (objects s)) (next_obj s + 1) (tasks s) (rets s), next_obj s).
Definition put_obj (n : Z) (o : Obj) (s : Sys) : Sys := set_objects (<[n := o]> (objects s)) s.

Definition suspend (c : Z) (t : Task) (s : Sys) : Sys := set_tasks (<[c := t]> (tasks s)) s.
Definition return_ (c : Z) (r : Ret) (s : Sys) : Sys := mkSys (world s) (objects s) (next_obj s) (tasks s) (rets s ++ [(c, r)]).

Fixpoint give_requests (qs : list ServerRequest) (s : Sys) : Sys * list Z :=
  match qs with
  | [] => (s, [])
  | q :: qs => let '(s, n) := give (ORequest q) s in let '(s, ns) := give_requests qs s in (s, n :: ns)
  end.

Definition return_requests (c : Z) (qs : list ServerRequest) (s : Sys) : Sys :=
  let '(s, ns) := give_requests qs s in return_ c (RetRequests (inl ns)) s.

(** *** Reading a body *)

Section read.
Context (again : Reader → Sys → Sys) (c : Z).

Definition answered (r : Reader) (res : option (list Z) + HttpError) (s : Sys) : Sys :=
  match after_chunk r res with
  | Again r => again r s
  | Back ret active => return_ c ret (put_obj (rd_obj r) (OIncoming (rd_transport r) active) s)
  | Gone ret => return_ c ret s
  | Dropped ret active => return_ c ret (on_world (drop_incoming (rd_transport r) active) s)
  end.

(** The turn after the resume, if there was one. *)
Definition turn_end (r : Reader) (started : Z) (answer : option (option (list Z) + HttpError)) (remove : bool) (s : Sys) : Sys :=
  let s := if remove then on_world (remove_connection (rd_transport r)) s else s in
  match answer with
  | Some res => answered r res s
  | None =>
      if decide (s_body_idle_timeout_ms config ≤ saturating_sub (now (world s)) started) then
        answered r (inr (Timeout "server body idle"))
          (on_world (λ w, remove_connection (rd_transport r) (shutdown (rd_transport r) w)) s)
      else suspend c (TSleep r started) s
  end.

Definition read_turn (r : Reader) (started : Z) (s : Sys) : Sys :=
  match take_chunk (rd_transport r) (world s) with
  | (w, inr e) => answered r (inr e) (on_world (λ _, w) s)
  | (w, inl (answer, resume, remove)) =>
      let s := on_world (λ _, w) s in
      if resume then suspend c (TResume r started answer remove) (on_world (emit (Resume (rd_transport r))) s)
      else turn_end r started answer remove s
  end.
End read.

(** [handle.next_chunk], over and over for [discard] and [collect]; each turn that does
    not suspend takes a chunk. *)
Fixpoint read (fuel : nat) (c : Z) (r : Reader) (s : Sys) : Sys :=
  match fuel with
  | O => on_world panic s
  | S fuel =>
      match ensure_continue (rd_transport r) (world s) with
      | (w, inr e) => answered (read fuel c) c r (inr e) (on_world (λ _, w) s)
      | (w, inl true) => suspend c (TContinue r) (on_world (λ _, w) s)
      | (w, inl false) => read_turn (read fuel c) c r (now w) (on_world (λ _, w) s)
      end
  end.

Definition read_fuel (t : TransportId) (s : Sys) : nat :=
  S (S (match conn t (world s) with Some c => length (chunks c) | None => O end)).

Definition read_on (c : Z) (s0 : Sys) (r : Reader) (s : Sys) : Sys := read (read_fuel (rd_transport r) s0) c r s.

(** *** WebSockets *)

Definition sock_done (c : Z) (k : SockFor) (r : WsSocket.SockRet) (s : Sys) : Sys :=
  match k with
  | ForData =>
      return_ c (RetRequests (match r with WsSocket.SockDone (Some e) => inr e | _ => inl [] end)) s
  | ForUpgrade t id =>
      match r with
      | WsSocket.SockDone (Some e) => return_ c (RetSocket (inr e)) (on_world (abort t) s)
      | _ => return_ c (RetSocket (inl id)) (on_world (WsSocket.new_handle id) s)
      end
  | ForCall x active =>
      let s := match WsSocket.borrows x, active with
               | Some id, Some a => on_world (λ w, set_handles (<[id := WsSocket.active_after x r a]> (handles w)) w) s
               | _, _ => s
               end in
      return_ c (RetWs r) s
  end.

Definition sock_out (c : Z) (k : SockFor) (r : World * (WsSocket.SockTask + WsSocket.SockRet)) (s : Sys) : Sys :=
  let s := on_world (λ _, r.1) s in
  match r.2 with
  | inl t => suspend c (TSock k t) s
  | inr ret => sock_done c k ret s
  end.

Fixpoint split_comma (s : string) : string * list string :=
  match s with
  | EmptyString => (EmptyString, [])
  | String b s =>
      let '(h, t) := split_comma s in
      if decide (b = ","%char) then (EmptyString, h :: t) else (String b h, t)
  end.

Definition blank (b : ascii) : bool := bool_decide (b = " "%char) || bool_decide (b = "009"%char).

Fixpoint trim_start (s : string) : string :=
  match s with String b r => if blank b then trim_start r else s | EmptyString => EmptyString end.

Definition trim (s : string) : string := String.rev (trim_start (String.rev (trim_start s))).

(** The protocols a client offers. *)
Definition offered (h : HeaderMap) (p : string) : bool :=
  existsb (λ f, match to_str f.2 with
                | Some v => let '(x, xs) := split_comma v in existsb (λ x, bool_decide (trim x = p)) (x :: xs)
                | None => false
                end) (filter (λ f, f.1 = "sec-websocket-protocol"%string) h).

(** [ServerBodyHandle::upgrade_websocket] up to [send_wait]: the number of the socket. *)
Definition upgrade_connection (t : TransportId) (head : RespHead) (headers : HeaderMap) (o : WebSocketUpgradeOptions) (w : World)
    : World * (Z + HttpError) :=
  let id := Z.max 1 (next_websocket (host w) +w 1) in
  let w := on_host (set_next_websocket id) w in
  match conn t w with
  | None => (w, inr BodyClosed)
  | Some c =>
      match proto c with
      | None => (w, inr (InvalidState "state lost"))
      | Some (Provide v) =>
          let lost e := (put_conn t (set_proto None c) w, inr e) in
          match provide v head headers with
          | inr e => lost (Protocol e)
          | inl send =>
              match serialize_head send with
              | None => (panic w, inr BodyClosed)
              | Some (inr e) => lost e
              | Some (inl (bytes, send)) =>
                  match s_proceed send with
                  | inl _ => lost (Protocol "101 with a body")
                  | inr _ =>
                      match WsSocket.server me id t (input c) o (put_conn t (set_proto None (set_input [] c)) w) with
                      | (w, Some e) => (w, inr e)
                      | (w, None) =>
                          let c := set_chunks [] (set_ended true (set_proto (Some (Upgraded id)) (set_input [] c))) in
                          (emit (Send t bytes) (put_conn t c w), inl id)
                      end
                  end
              end
          end
      | Some _ => (w, inr (InvalidState "request body not ended"))
      end
  end.

(** [ServerRequest::upgrade_websocket]. *)
Definition upgrade (c : Z) (q : ServerRequest) (o : WebSocketUpgradeOptions) (s : Sys) : Sys :=
  let t := q_transport q in
  match upgrade_validate o with
  | Some e => return_ c (RetSocket (inr e)) (on_world (drop_request q) s)
  | None =>
      let s := on_world (drop_incoming t true) s in
      let refuse e s := return_ c (RetSocket (inr e)) (on_world (abort t) s) in
      if is_some_and (λ p, negb (offered (req_headers (q_head q)) p)) (u_protocol o)
      then refuse (Protocol "protocol not offered") s else
      match create_response (q_head q) with
      | inr e => refuse (WebSocket e) s
      | inl (head, headers) =>
          match (match u_protocol o with
                 | Some p => if all_visible p then Some (insert_header "sec-websocket-protocol" p headers) else None
                 | None => Some headers
                 end) with
          | None => refuse (Protocol "bad protocol") s
          | Some headers =>
              match upgrade_connection t head headers o (world s) with
              | (w, inr e) => refuse e (on_world (λ _, w) s)
              | (w, inl id) => suspend c (TUpgrade t id) (on_world (λ _, w) s)
              end
          end
      end
  end.

(** *** Events of the network *)

(** [on_socket] and [on_tls]. *)
Definition on_event (c : Z) (ev : NetEvent) (s : Sys) : Sys :=
  let none := return_requests c [] in
  match ev with
  | Accept id listen from =>
      match listeners (host (world s)) !! listen with
      | None => none s
      | Some l =>
          match insert_connection id l from false (world s) with
          | (w, Some e) => return_ c (RetRequests (inr e)) (on_world (λ _, w) s)
          | (w, None) => suspend c (TAccept id) (on_world (λ _, emit (Resume id) w) s)
          end
      end
  | Connected id (Some listen) from =>
      match listeners (host (world s)) !! listen with
      | None => none s
      | Some l =>
          match insert_connection id l from true (world s) with
          | (w, Some e) => return_ c (RetRequests (inr e)) (on_world (λ _, w) s)
          | (w, None) => none (on_world (λ _, w) s)
          end
      end
  | Data t bytes =>
      match upgraded t (world s) with
      | Some id => sock_out c ForData (WsSocket.on_data me id bytes (world s)) s
      | None =>
          match data t bytes (world s) with
          | (w, inr e) => return_ c (RetRequests (inr e)) (on_world (λ _, w) s)
          | (w, inl (qs, true)) => suspend c (TPause qs) (on_world (λ _, w) s)
          | (w, inl (qs, false)) => return_requests c qs (on_world (λ _, w) s)
          end
      end
  | Close t => none (on_world (closed t None) s)
  | Error t reason => none (on_world (closed t (Some reason)) s)
  | _ => none s
  end.

(** *** Calls of the application *)

Inductive Call : Type :=
  | CBind (tls : bool)
  | CLocalAddr (id : Z)
  | CEvent (ev : NetEvent)
  | CNextChunk (n : Z)
  | CDiscard (n : Z)
  | CCollect (n limit : Z)
  | CRespond (n : Z) (head : RespHead) (headers : HeaderMap) (spec : BodySpec)
  | CWriteChunk (n : Z) (chunk : list Z)
  | CFinish (n : Z)
  | CUpgrade (n : Z) (o : WebSocketUpgradeOptions)
  | CWs (x : WsSocket.WsCall).

Definition take_obj (n : Z) (s : Sys) : option (Obj * Sys) :=
  o ← objects s !! n; Some (o, set_objects (delete n (objects s)) s).

Definition start_read (c n : Z) (mode : Mode) (s : Sys) : option Sys :=
  match take_obj n s with
  | Some (OIncoming t active, s) => Some (read (read_fuel t s) c (mkReader n t active mode) s)
  | _ => None
  end.

Definition call (c : Z) (x : Call) (s : Sys) : option Sys :=
  match x with
  | CBind tls => Some (suspend c (TListen tls) s)
  | CLocalAddr id =>
      Some (match listening id (world s) with
            | inr e => return_ c (RetAddr (Some e)) s
            | inl _ => suspend c TInfo s
            end)
  | CEvent ev => Some (on_event c ev s)
  | CNextChunk n => start_read c n MNext s
  | CDiscard n => start_read c n MDiscard s
  | CCollect n limit => start_read c n (MCollect limit []) s
  | CRespond n head headers spec =>
      match take_obj n s with
      | Some (OResponder t, s) =>
          Some (match respond t head headers spec (world s) with
                | (w, inr e) => return_ c (RetOutgoing (inr e)) (on_world (λ _, abort t w) s)
                | (w, inl (has_body, must_close)) => suspend c (TRespond t has_body must_close) (on_world (λ _, w) s)
                end)
      | _ => None
      end
  | CWriteChunk n chunk =>
      match take_obj n s with
      | Some (OOutgoing None, s) => Some (return_ c (RetUnit (Some BodyClosed)) (put_obj n (OOutgoing None) s))
      | Some (OOutgoing (Some t), s) =>
          Some (match write_chunk t chunk (world s) with
                | (w, inr e) => return_ c (RetUnit (Some e)) (put_obj n (OOutgoing (Some t)) (on_world (λ _, w) s))
                | (w, inl false) => return_ c (RetUnit None) (put_obj n (OOutgoing (Some t)) (on_world (λ _, w) s))
                | (w, inl true) => suspend c (TWrite n t) (on_world (λ _, w) s)
                end)
      | _ => None
      end
  | CFinish n =>
      match take_obj n s with
      | Some (OOutgoing None, s) => Some (return_ c (RetUnit None) s)
      | Some (OOutgoing (Some t), s) =>
          Some (match finish t (world s) with
                | (w, inr e) => return_ c (RetUnit (Some e)) (on_world (λ _, abort t w) s)
                | (w, inl must_close) => suspend c (TFinish t must_close) (on_world (λ _, w) s)
                end)
      | _ => None
      end
  | CUpgrade n o =>
      match take_obj n s with
      | Some (ORequest q, s) => Some (upgrade c q o s)
      | _ => None
      end
  | CWs x =>
      match WsSocket.borrows x with
      | Some id =>
          a ← handles (world s) !! id;
          let w := set_handles (delete id (handles (world s))) (world s) in
          Some (sock_out c (ForCall x (Some a)) (WsSocket.ws_call me c x w) s)
      | None => if decide (is_Some (sockets (world s) !! WsSocket.call_id x)) then Some (sock_out c (ForCall x None) (WsSocket.ws_call me c x (world s)) s) else None
      end
  end.

(** *** Suspended calls *)

(** What a suspended call gets: the transport of a new listener, or a result, or a poll
    or the end of a sleep. *)
Inductive Outcome : Type := OListen (r : TransportId + HttpError) | ODone (r : Resumed).

Definition resume (c : Z) (t : Task) (o : Outcome) (s : Sys) : option Sys :=
  match t, o with
  | TListen tls, OListen (inl t) =>
      let '(w, id) := insert_listener t (world s) in
      Some (suspend c (TListenStart t id) (on_world (λ _, emit (Resume t) w) s))
  | TListen _, OListen (inr e) => Some (return_ c (RetListener (inr e)) s)
  | TListenStart t id, ODone (RDone r) =>
      let '(w, r) := bound t id r (world s) in Some (return_ c (RetListener r) (on_world (λ _, w) s))
  | TInfo, ODone (RDone r) => Some (return_ c (RetAddr r) s)
  | TAccept t, ODone (RDone (Some e)) => Some (return_ c (RetRequests (inr e)) (on_world (remove_connection t) s))
  | TAccept t, ODone (RDone None) => Some (return_requests c [] s)
  | TPause qs, ODone (RDone (Some e)) => Some (return_ c (RetRequests (inr e)) (on_world (drop_requests qs) s))
  | TPause qs, ODone (RDone None) => Some (return_requests c qs s)
  | TContinue r, ODone (RDone (Some e)) => Some (answered (read_on c s) c r (inr e) s)
  | TContinue r, ODone (RDone None) =>
      let '(w, e) := continued (rd_transport r) (world s) in
      let s := on_world (λ _, w) s in
      Some (match e with
            | Some e => answered (read_on c s) c r (inr e) s
            | None => read_turn (read_on c s) c r (now w) s
            end)
  | TResume r started answer remove, ODone (RDone (Some e)) => Some (answered (read_on c s) c r (inr e) s)
  | TResume r started answer remove, ODone (RDone None) => Some (turn_end (read_on c s) c r started answer remove s)
  | TSleep r started, ODone RAgain => Some (read_turn (read_on c s) c r started s)
  | TRespond t _ _, ODone (RDone (Some e)) => Some (return_ c (RetOutgoing (inr e)) (on_world (abort t) s))
  | TRespond t true _, ODone (RDone None) => let '(s, n) := give (OOutgoing (Some t)) s in Some (return_ c (RetOutgoing (inl n)) s)
  | TRespond t false must_close, ODone (RDone None) =>
      let '(s, n) := give (OOutgoing None) (on_world (finish_response t must_close) s) in Some (return_ c (RetOutgoing (inl n)) s)
  | TWrite n t, ODone (RDone r) => Some (return_ c (RetUnit r) (put_obj n (OOutgoing (Some t)) s))
  | TFinish t must_close, ODone (RDone (Some e)) => Some (return_ c (RetUnit (Some e)) (on_world (abort t) s))
  | TFinish t must_close, ODone (RDone None) => Some (return_ c (RetUnit None) (on_world (finish_response t must_close) s))
  | TUpgrade t id, ODone (RDone (Some e)) =>
      Some (return_ c (RetSocket (inr e)) (on_world (λ w, abort t (remove_connection t (WsSocket.abort id w))) s))
  | TUpgrade t id, ODone (RDone None) => Some (sock_out c (ForUpgrade t id) (WsSocket.on_data me id [] (world s)) s)
  | TSock k t, ODone r => x ← WsSocket.sock_resume c t r (world s); Some (sock_out c k x s)
  | _, _ => None
  end.

(** ** The server as a system *)

(** A call, the result of what a call awaits, a request taken apart into its body and its
    responder, a value dropped, the end of a header timer, the delivery of a message to
    the service itself, the clock, and the names of the transport services. *)
Inductive Event : Type :=
  | ECall (c : Z) (x : Call)
  | EResume (c : Z) (o : Outcome)
  | ESplit (n : Z)
  | EDrop (n : Z)
  | EDropSocket (id : Z)
  | ETimer (k : nat)
  | EPosted (k : nat) (c : Z)
  | ENow (n : Z)
  | EUp (u : TransportId → bool).

Definition step (ev : Event) (s : Sys) : option Sys :=
  match ev with
  | ECall c x => if decide (tasks s !! c = None) then call c x s else None
  | EResume c o => t ← tasks s !! c; resume c t o (set_tasks (delete c (tasks s)) s)
  | ESplit n =>
      match take_obj n s with
      | Some (ORequest q, s) => Some (fst (give (OResponder (q_transport q)) (put_obj n (OIncoming (q_transport q) true) s)))
      | _ => None
      end
  | EDrop n => '(o, s) ← take_obj n s; Some (on_world (drop_obj o) s)
  | EDropSocket id => Some (on_world (WsSocket.drop_handle id) s)
  | ETimer k =>
      '(t, generation) ← timers (host (world s)) !! k;
      Some (on_world (λ w, header_timeout t generation (on_host (λ st, set_timers (delete k (timers st)) st) w)) s)
  | EPosted k c =>
      t ← posted (host (world s)) !! k;
      if decide (tasks s !! c = None) then
        Some (on_event c (Data t []) (on_world (on_host (λ st, set_posted (delete k (posted st)) st)) s))
      else None
  | ENow n => Some (on_world (λ w, set_now (Z.max n (now w)) w) s)
  | EUp u => Some (on_world (set_up u) s)
  end.

Fixpoint run (evs : list Event) (s : Sys) : option Sys :=
  match evs with
  | [] => Some s
  | ev :: evs => s ← step ev s; run evs s
  end.
End server.
End HttpServer.
