(* ===== verification/HttpServerBooks.v ===== *)
(** * What the HTTP server promises

    Over any sequence of socket events, calls of the application and results of what they
    await: the server does not get stuck, a connection that is not idle is in the hands of
    exactly one owner, an idle one has its header timer running, and requests of a
    connection are handed out one at a time.  And where the code falls short. *)
From S2P Require Import Prelude HttpHead HttpClient WsSocket WsBooks HttpServer.
From stdpp Require Import strings.
#[local] Open Scope Z_scope.

Module HttpServerBooks.
Import HttpHead.
Import HttpClient(TransportId, Plain, OverTls, TransportId_eq_dec, TransportId_countable).
Import WsSocket(WsEngine, WsLaws, W, host, sockets, handles, effects, stuck, now, Resumed, RDone, RAgain).
Import HttpServer.

Section books.
Context `{SE : ServerEngine} `{WE : WsEngine} (config : HttpServerConfig) (me : Z).
#[local] Existing Instance server_host.
Abbreviation World := (W (St := ServerState)).

(** ** Phases of a connection *)

Inductive Phase : Type := PIdle (g : Z) | PRequest | PBody | PDone | PWs (id : Z) | PLost.

#[global] Instance Phase_eq_dec : EqDecision Phase.
Proof. solve_decision. Defined.

Definition phase (c : Connection) : Phase :=
  match proto c with
  | Some (RecvRequest _) => PIdle (header_generation c)
  | Some (Await100 _ | RecvBody _ | Provide _) => PRequest
  | Some (SendBody _) => PBody
  | Some Responding => PDone
  | Some (Upgraded id) => PWs id
  | None => PLost
  end.

(** What [process] makes of a connection: the requests and the error found. *)
Definition processed (t : TransportId) (c c' : Connection) (qs : list ServerRequest) (e : option HttpError) : Prop :=
  match e with
  | None => (qs = [] ∧ phase c' = phase c) ∨ ∃ g q, phase c = PIdle g ∧ qs = [q] ∧ q_transport q = t ∧ phase c' = PRequest
  | Some _ => phase c' = PLost ∧ ((∃ g, phase c = PIdle g) ∨ phase c = PRequest) ∧ (qs = [] ∨ ∃ q, qs = [q] ∧ q_transport q = t)
  end.

(** Reading a body: the phase stays, or the state is lost. *)
Definition body_turn (qs : list ServerRequest) (r : Turn) (n : nat) : Prop :=
  match r with
  | Break c qs' => qs' = qs ∧ phase c = PRequest
  | Continue c qs' => qs' = qs ∧ phase c = PRequest ∧ (length (input c) < n)%nat
  | Fail c qs' _ => qs' = qs ∧ phase c = PLost
  | Panic => False
  end.

Lemma drain_ok used (c : Connection) : 0 ≤ used ≤ Z.of_nat (length (input c)) →
  drain_input used c = Some (set_input (drop (Z.to_nat used) (input c)) c).
Proof. intros Hu. unfold drain_input. by rewrite decide_True by lia. Qed.

Lemma recv_body_spec `{SL : !ServerLaws} call c qs :
  proto c = None → body_turn qs (recv_body config call c qs) (length (input c)).
Proof.
  intros Hp. unfold recv_body. case_decide as He; [done|]. destruct (s_body_read call (input c) _) as [call' [[used bs]|e]] eqn:Hr; [|by cbn; unfold phase; rewrite Hp].
  destruct (s_body_read_used _ _ _ _ _ _ Hr) as [Hu Hz]. rewrite drain_ok by done.
  set (c1 := if decide (bs = []) then _ else _).
  assert (H1 : input c1 = drop (Z.to_nat used) (input c) ∧ proto c1 = None) by (unfold c1; by case_decide).
  destruct H1 as [Hi Hp1]. assert (Hlt : ¬ (used = 0 ∧ bs = []) → (length (input c1) < length (input c))%nat).
  { intros Hn. rewrite Hi, length_drop. assert (used ≠ 0) by (intros E; apply Hn; split; [done|by apply Hz]).
    destruct (input c); [done|]. cbn in *. lia. }
  destruct (is_ended call').
  - destruct (s_body_proceed call') as [v|e]; [|by cbn; unfold phase; rewrite Hp1]. case_decide; cbn; [done|]. split_and!; try done. by apply Hlt.
  - case_decide; cbn; [done|]. split_and!; try done. by apply Hlt.
Qed.

(** Enough fuel: every turn of a body takes input. *)
Lemma body_loop `{SL : !ServerLaws} fuel t c qs :
  phase c = PRequest → (length (input c) + 2 ≤ fuel)%nat →
  ∃ c' e, process_loop config fuel t c qs = Some (c', qs, e) ∧ match e with None => phase c' = PRequest | Some _ => phase c' = PLost end.
Proof.
  revert c. induction fuel as [|fuel IH]; intros c Hph Hf; [lia|]. cbn [process_loop]. unfold process_turn.
  unfold phase in Hph. destruct (proto c) as [[]|] eqn:Hp; try done.
  - exists c, None. split; [done|]. unfold phase. by rewrite Hp.
  - pose proof (recv_body_spec c0 (set_proto None c) qs eq_refl) as Hb. unfold body_turn in Hb. cbn [input set_proto] in Hb.
    destruct (recv_body _ _ _ _) as [c1 qs1|c1 qs1|c1 qs1 e|]; [..|done].
    + destruct Hb as [-> Hb]. by exists c1, None.
    + destruct Hb as (-> & Hb & Hlt). apply IH; [done|lia].
    + destruct Hb as [-> Hb]. by exists c1, (Some e).
  - exists c, None. split; [done|]. unfold phase. by rewrite Hp.
Qed.

Lemma process_loop_spec `{SL : !ServerLaws} t c :
  ∃ c' qs e, process_loop config (length (input c) + 3) t c [] = Some (c', qs, e) ∧ processed t c c' qs e.
Proof.
  destruct (phase c) as [g| | | | |] eqn:Hph.
  - replace (length (input c) + 3)%nat with (S (length (input c) + 2)) by lia. cbn [process_loop]. unfold process_turn.
    unfold phase in Hph. destruct (proto c) as [[call| | | | | |]|] eqn:Hp; try done. unfold recv_request. cbn [input set_proto].
    assert (Hg : ∃ g, phase c = PIdle g) by (unfold phase; rewrite Hp; eauto).
    destruct (try_request call (input c)) as [call' [[used [head|]]|e]] eqn:Hr.
    + pose proof (try_request_used _ _ _ _ _ Hr) as Hu. destruct (recv_proceed_ready _ _ _ _ _ Hr) as [next Hn].
      rewrite drain_ok by done. rewrite Hn.
      set (c1 := match next with inl _ => _ | inr _ => _ end).
      assert (H1 : phase c1 = PRequest ∧ input c1 = drop (Z.to_nat used) (input c)) by (unfold c1; by destruct next as [|[|]]).
      destruct H1 as [Hph1 Hi]. destruct (body_loop (length (input c) + 2) t c1 ([] ++ [mkRequest head (peer c1) (over_tls c1) (listener c1) t])) as (c2 & e & -> & He);
        [done|rewrite Hi, length_drop; lia|]. eexists _, _, _. split; [done|]. unfold processed. destruct e; cbn; [eauto 10|].
      right. destruct Hg as [g' Hg]. eauto 10.
    + case_decide.
      * eexists _, _, _. split; [done|]. cbn. split_and!; [done|by left|by left].
      * eexists _, _, _. split; [done|]. cbn. left. split; [done|]. unfold phase. cbn. by rewrite Hp.
    + eexists _, _, _. split; [done|]. cbn. split_and!; [done|by left|by left].
  - destruct (body_loop (length (input c) + 3) t c [] Hph) as (c' & e & -> & He); [lia|]. eexists _, _, _. split; [done|].
    unfold processed. destruct e; [|left; by rewrite Hph]. split_and!; [done|by right|by left].
  - exists c, [], None. split; [|by left]. rewrite Nat.add_comm. cbn. unfold process_turn. unfold phase in Hph. by destruct (proto c) as [[]|].
  - exists c, [], None. split; [|by left]. rewrite Nat.add_comm. cbn. unfold process_turn. unfold phase in Hph. by destruct (proto c) as [[]|].
  - exists c, [], None. split; [|by left]. rewrite Nat.add_comm. cbn. unfold process_turn. unfold phase in Hph. by destruct (proto c) as [[]|].
  - exists c, [], None. split; [|by left]. rewrite Nat.add_comm. cbn. unfold process_turn. unfold phase in Hph. by destruct (proto c) as [[]|].
Qed.

(** ** What connections keep *)

(** Connections at most disappear; timers, handles of sockets and sockets stay. *)
Record calm (w w' : World) : Prop := {
  ca_conn : ∀ t, conn t w' = conn t w ∨ conn t w' = None;
  ca_timers : timers (host w') = timers (host w);
  ca_sockets : ∀ id, is_Some (sockets w !! id) → is_Some (sockets w' !! id);
  ca_handles : handles w' = handles w;
  ca_stuck : stuck w' = stuck w;
}.

Lemma srv_calm_refl w : calm w w.
Proof. split; auto. Qed.

Lemma srv_calm_trans w1 w2 w3 : calm w1 w2 → calm w2 w3 → calm w1 w3.
Proof.
  intros [A1 A2 A3 A4 A5] [B1 B2 B3 B4 B5]. split; [|congruence|auto|congruence|congruence].
  intros t. destruct (B1 t) as [->|]; [apply A1|by right].
Qed.

Lemma calm_emit e w : calm w (WsSocket.emit e w).
Proof. by split; auto. Qed.

Lemma conn_remove t t' w : conn t' (remove_connection t w) = if decide (t' = t) then None else conn t' w.
Proof. unfold conn. cbn. case_decide; [subst; by rewrite lookup_delete_eq|by rewrite lookup_delete_ne]. Qed.

Lemma calm_remove t w : calm w (remove_connection t w).
Proof. split; try done. intros t'. rewrite conn_remove. case_decide; auto. Qed.

Lemma calm_abort t w : calm w (abort t w).
Proof.
  unfold abort. destruct (conn t w); [|apply srv_calm_refl]. eapply srv_calm_trans; [apply (calm_remove t)|apply calm_emit].
Qed.

Lemma calm_abort_incoming t w : calm w (abort_incoming t w).
Proof.
  unfold abort_incoming. destruct (conn t w) as [c|]; [|apply srv_calm_refl].
  destruct (proto c) as [[]|]; try apply srv_calm_refl; destruct (body_ended c); try apply srv_calm_refl; apply calm_abort.
Qed.

Lemma calm_drop_incoming t a w : calm w (drop_incoming t a w).
Proof. destruct a; [apply calm_abort_incoming|apply srv_calm_refl]. Qed.

Lemma calm_drop_request q w : calm w (drop_request q w).
Proof. eapply srv_calm_trans; [apply calm_drop_incoming|apply calm_abort]. Qed.

Lemma calm_drop_requests qs w : calm w (drop_requests qs w).
Proof.
  unfold drop_requests. revert w. induction qs as [|q qs IH]; intros w; [apply srv_calm_refl|].
  cbn. eapply srv_calm_trans; [apply calm_drop_request|apply IH].
Qed.

Lemma calm_drop_obj o w : calm w (drop_obj o w).
Proof. destruct o as [q|t a|t|[t|]]; [apply calm_drop_request|apply calm_drop_incoming|apply calm_abort|apply calm_abort|apply srv_calm_refl]. Qed.

Lemma abort_gone t w : conn t (abort t w) = None.
Proof. unfold abort. destruct (conn t w) eqn:E; [|done]. change (conn t (remove_connection t w) = None). rewrite conn_remove. by rewrite decide_True. Qed.

(** ** Sockets *)

(** An operation on a socket leaves the host alone or takes one connection out. *)
Definition hosted (w w' : World) : Prop := host w' = host w ∨ ∃ t, host w' = WsSocket.clean t (host w).

Lemma hosted_calm id sh' w w' : hosted w w' → WsBooks.changed id sh' w w' → calm w w'.
Proof.
  intros Hh Hc. pose proof Hc as (Hso & Hha & Hst). split; [| | |done|done].
  - intros t. unfold conn. destruct Hh as [->|[t' ->]]; [by left|]. cbn. destruct (decide (t = t')) as [->|].
    + right. by rewrite lookup_delete_eq.
    + left. by rewrite lookup_delete_ne.
  - by destruct Hh as [->|[t' ->]].
  - intros i. by apply (WsBooks.changed_some _ _ _ _ _ Hc).
Qed.

Lemma same_calm (w w' : World) : hosted w w' → sockets w' = sockets w → handles w' = handles w → stuck w' = stuck w → calm w w'.
Proof.
  intros Hh Hso Hha Hst. split; [| | |done|done].
  - intros t. unfold conn. destruct Hh as [->|[t' ->]]; [by left|]. cbn. destruct (decide (t = t')) as [->|].
    + right. by rewrite lookup_delete_eq.
    + left. by rewrite lookup_delete_ne.
  - by destruct Hh as [->|[t' ->]].
  - by rewrite Hso.
Qed.

Lemma data_end_hosted id k down w : hosted w (WsSocket.data_end id k down w).1.
Proof.
  unfold WsSocket.data_end. destruct k as [k|]; cbn [WsSocket.wake]; destruct (sockets _ !! id); cbn; try (by left); destruct down; cbn;
    try (by left); right; by eexists.
Qed.

Lemma data_pause_hosted id p k down w : hosted w (WsSocket.data_pause id p k down w).1.
Proof. unfold WsSocket.data_pause. destruct (sockets w !! id); [|by left]. destruct p; [by left|]. apply data_end_hosted. Qed.

Lemma on_data_hosted h id bs w : hosted w (WsSocket.on_data h id bs w).1.
Proof.
  unfold WsSocket.on_data. destruct (sockets w !! id) as [sh|]; [|by left]. destruct (WsSocket.check_owner h sh); [by left|].
  destruct (WsSocket.ended sh); [by left|]. destruct (WsSocket.pump _ _) as [[s2 down]|]; [|by left].
  destruct (WsSocket.take_socket_output s2) as [s3 out]. cbv zeta. case_decide; [|by left].
  match goal with |- hosted _ (WsSocket.data_pause _ ?p ?k _ ?w').1 => exact (data_pause_hosted id p k down w') end.
Qed.

Lemma on_closed_hosted id r w : hosted w (WsSocket.on_closed id r w).
Proof.
  unfold WsSocket.on_closed. destruct (sockets w !! id) as [sh|]; [|by left]. right.
  destruct (WsSocket.recv_waker sh), r; by eexists.
Qed.

Lemma ws_abort_hosted id w : hosted w (WsSocket.abort id w).
Proof. unfold WsSocket.abort. destruct (sockets w !! id) as [sh|]; [|by left]. exact (on_closed_hosted id None (shutdown (WsSocket.transport sh) w)). Qed.

Lemma close_wait_hosted id n w : hosted w (WsSocket.close_wait id n w).1.
Proof.
  unfold WsSocket.close_wait. destruct (sockets w !! id) as [sh|]; [|by left]. destruct (WsSocket.ended sh); [by left|].
  case_decide; [|by left]. exact (on_closed_hosted id None (shutdown (WsSocket.transport sh) w)).
Qed.

Lemma receive_hosted c id w : hosted w (WsSocket.receive c id w).1.
Proof. unfold WsSocket.receive. destruct (sockets w !! id) as [sh|]; [|by left]. destruct (WsSocket.recv_poll c sh) as [s' [[a []]|]]; by left. Qed.

Lemma ws_call_hosted h c x w : hosted w (WsSocket.ws_call h c x w).1.
Proof.
  assert (Hcl : ∀ id frame, hosted w (WsSocket.close h id frame w).1).
  { intros id frame. unfold WsSocket.close. destruct (sockets w !! id) as [sh|]; [|by left]. destruct (WsSocket.check_owner h sh); [by left|].
    destruct (WsSocket.ended sh); [by left|]. destruct (WsSocket.ws_close _ _) as [[a b] []]; [by left|].
    destruct (WsSocket.ws_flush _) as [[a' b'] []]; [by left|]. destruct (WsSocket.take_socket_output _) as [s3 out].
    case_decide; [|by left]. exact (close_wait_hosted id (now w) (WsSocket.put id s3 w)). }
  destruct x as [id|id m|id frame|id frame]; cbn; [| |apply Hcl|apply Hcl].
  - unfold WsSocket.recv. destruct (sockets w !! id ≫= _); [by left|]. apply receive_hosted.
  - unfold WsSocket.send. destruct (sockets w !! id) as [sh|]; [|by left]. destruct (WsSocket.check_owner h sh); [by left|].
    destruct (WsSocket.ended sh); [by left|]. destruct (WsSocket.ws_send _ _) as [[a b] []]; [by left|].
    destruct (WsSocket.take_socket_output _) as [s3 out]. case_decide; by left.
Qed.

(** The outcome of an operation on a socket: what is left of it refers to a socket. *)
Definition sock_fine (w : World) (r : World * (WsSocket.SockTask + WsSocket.SockRet)) : Prop :=
  calm w r.1 ∧ ∀ t i, r.2 = inl t → WsBooks.task_id t = Some i → is_Some (sockets r.1 !! i).

Lemma srv_closed_calm id r w : is_Some (sockets w !! id) → calm w (WsSocket.on_closed id r w).
Proof.
  intros [sh Hsh]. destruct (WsBooks.on_closed_mild id r w sh Hsh) as (sh' & Hc & _).
  eapply hosted_calm; [apply on_closed_hosted|done].
Qed.

Lemma ws_abort_calm id w : is_Some (sockets w !! id) → calm w (WsSocket.abort id w).
Proof.
  intros [sh Hsh]. destruct (WsBooks.abort_mild id w sh Hsh) as (sh' & Hc & _). eapply hosted_calm; [apply ws_abort_hosted|done].
Qed.

Lemma mild_fine id sh w r :
  hosted w r.1 → WsBooks.mild id sh w r.1 → WsBooks.plain_task id r.2 → sock_fine w r.
Proof.
  intros Hh (sh' & Hc & _) Hp. split; [by eapply hosted_calm|]. intros t i Hr Hi. rewrite Hr in Hp.
  destruct Hp as [->|[->|[n ->]]]; [done| |]; injection Hi as <-; destruct Hc as (-> & _); by rewrite lookup_insert_eq.
Qed.

Lemma on_data_fine `{WL : !WsLaws} h id bs w : is_Some (sockets w !! id) → sock_fine w (WsSocket.on_data h id bs w).
Proof.
  intros [sh Hsh]. destruct (WsBooks.on_data_spec h id bs w sh Hsh) as [(Hw & [e He] & _)|(sh' & Hc & _ & _ & _ & _ & _ & Ht & _)].
  - unfold sock_fine. rewrite Hw, He. split; [apply srv_calm_refl|done].
  - split; [eapply hosted_calm; [apply on_data_hosted|done]|]. intros t i Hr Hi. rewrite (Ht t Hr) in Hi. injection Hi as <-.
    destruct Hc as (-> & _). by rewrite lookup_insert_eq.
Qed.

Lemma receive_fine c id w : is_Some (sockets w !! id) → sock_fine w (WsSocket.receive c id w).
Proof.
  intros [sh Hsh]. destruct (WsBooks.receive_spec c id w sh Hsh) as (_ & sh' & Hc & _ & _ & Hd).
  split; [eapply hosted_calm; [apply receive_hosted|done]|]. destruct Hc as (Hso & _). intros t i Hr Hi. rewrite Hso.
  assert (i = id) as ->; [|by rewrite lookup_insert_eq].
  destruct Hd as [(m & rest & _ & _ & _ & _ & _ & [Hd|Hd])|(_ & _ & _ & _ & [(_ & _ & _ & Hd)|(_ & a & Hd & _)])];
    rewrite Hd in Hr; simplify_eq; by injection Hi as <-.
Qed.

Lemma ws_call_fine h c x w : is_Some (sockets w !! WsSocket.call_id x) → sock_fine w (WsSocket.ws_call h c x w).
Proof.
  intros [sh Hsh]. pose proof (ws_call_hosted h c x w) as Hh. destruct x as [id|id m|id f|id f]; cbn in *.
  - unfold WsSocket.recv in *. rewrite Hsh in *. cbn in *. destruct (WsSocket.check_owner h sh); [split; [apply srv_calm_refl|done]|].
    apply receive_fine. eauto.
  - destruct (WsBooks.send_spec h id m w sh Hsh). by apply (mild_fine id sh).
  - destruct (WsBooks.ws_close_spec h id f w sh Hsh). by apply (mild_fine id sh).
  - destruct (WsBooks.ws_close_spec h id f w sh Hsh). by apply (mild_fine id sh).
Qed.

Lemma sock_resume_fine c t r w x :
  (∀ i, WsBooks.task_id t = Some i → is_Some (sockets w !! i)) → WsSocket.sock_resume c t r w = Some x → sock_fine w x.
Proof.
  intros Ht. assert (Hret : ∀ ret, sock_fine w (w, inr ret)) by (intros ret; split; [apply srv_calm_refl|done]).
  assert (Hwait : ∀ id n, WsBooks.task_id t = Some id → sock_fine w (WsSocket.close_wait id n w)).
  { intros id n Hid. destruct (Ht id Hid) as [sh Hsh]. destruct (WsBooks.close_wait_spec id n w sh Hsh). apply (mild_fine id sh); [apply close_wait_hosted|done|done]. }
  destruct t as [id p k d|id k d|id|id a| |id|id n]; cbn; destruct r as [[e|]|]; try done; intros [= <-]; auto.
  - destruct (Ht id eq_refl) as [sh Hsh]. destruct (WsBooks.data_pause_spec id p k d w sh Hsh) as (Hso&Hha&Hst&Hi&_).
    split; [apply same_calm; [apply data_pause_hosted|done|done|done]|]. intros t i Hr. rewrite (Hi t Hr), Hso. intros [= <-]. eauto.
  - destruct (Ht id eq_refl) as [sh Hsh]. destruct (WsBooks.data_end_spec id k d w sh Hsh) as (Hso&Hha&Hst&Hr&_).
    split; [apply same_calm; [apply data_end_hosted|done|done|done]|]. intros t i. by rewrite Hr.
  - destruct (receive_fine c id (WsSocket.unwake c w) (Ht id eq_refl)) as [[C1 C2 C3 C4 C5] Hf]. split; [|exact Hf]. by split.
Qed.

(** ** Ownership *)

(** What an owner is about to do with its connection: answer the request, write the body
    of the response, complete the response, become a WebSocket. *)
Inductive Kind : Type := HRequest | HBody | HDone | HWs.

(** Where an owner is: with the application, in a suspended call, or in the hands of the
    code that runs. *)
Inductive Place : Type := InObj (n : Z) | InTask (c : Z) | InHand.

#[global] Instance Place_eq_dec : EqDecision Place.
Proof. solve_decision. Defined.

Definition obj_holds (o : Obj) : option (TransportId * Kind) :=
  match o with
  | ORequest q => Some (q_transport q, HRequest)
  | OResponder t => Some (t, HRequest)
  | OOutgoing (Some t) => Some (t, HBody)
  | _ => None
  end.

Definition task_holds (x : Task) : option (TransportId * Kind) :=
  match x with
  | TPause [q] => Some (q_transport q, HRequest)
  | TRespond t true _ | TWrite _ t => Some (t, HBody)
  | TRespond t false _ | TFinish t _ => Some (t, HDone)
  | TUpgrade t _ | TSock (ForUpgrade t _) _ => Some (t, HWs)
  | _ => None
  end.

Definition held (hand : option (TransportId * Kind)) (s : Sys) (p : Place) : option (TransportId * Kind) :=
  match p with
  | InObj n => objects s !! n ≫= obj_holds
  | InTask c => tasks s !! c ≫= task_holds
  | InHand => hand
  end.

(** An idle connection has no owner and its timer is running; one that waits for
    something has one. *)
Definition phase_ok (h : option (Place * Kind)) (tm : list (TransportId * Z)) (so : gmap Z WsSocket.Shared)
    (t : TransportId) (ph : Phase) : Prop :=
  match ph with
  | PIdle g => h = None ∧ (t, g) ∈ tm
  | PRequest => ∃ p, h = Some (p, HRequest)
  | PBody => ∃ p, h = Some (p, HBody)
  | PDone => ∃ p, h = Some (p, HDone)
  | PWs id => is_Some (so !! id) ∧ ∀ p k, h = Some (p, k) → k = HWs
  | PLost => ∃ p k, h = Some (p, k) ∧ k ≠ HWs
  end.

(** The number a suspended call will put its value back under. *)
Definition borrowed (x : Task) : option Z :=
  match x with
  | TWrite n _ => Some n
  | TContinue r | TResume r _ _ _ | TSleep r _ => match rd_mode r with MNext => Some (rd_obj r) | _ => None end
  | _ => None
  end.

(** The sockets a suspended call refers to. *)
Definition task_socks (x : Task) : list Z :=
  match x with
  | TUpgrade _ i => [i]
  | TSock k st =>
      option_list (WsBooks.task_id st)
      ++ match k with
         | ForUpgrade _ i => [i]
         | ForCall y (Some _) => option_list (WsSocket.borrows y)
         | _ => []
         end
  | _ => []
  end.

(** Values and calls are numbered properly; what calls refer to exists. *)
Record side (s : Sys) : Prop := {
  si_obj : ∀ n, is_Some (objects s !! n) → n < next_obj s;
  si_borrow : ∀ c x n, tasks s !! c = Some x → borrowed x = Some n →
    objects s !! n = None ∧ n < next_obj s ∧ ∀ c' x', tasks s !! c' = Some x' → borrowed x' = Some n → c' = c;
  si_pause : ∀ c qs, tasks s !! c = Some (TPause qs) → (length qs ≤ 1)%nat;
  si_task : ∀ c x i, tasks s !! c = Some x → i ∈ task_socks x → is_Some (sockets (world s) !! i);
}.

Record own (A : list TransportId) (H : gmap TransportId (Place * Kind)) (hand : option (TransportId * Kind)) (s : Sys) : Prop := {
  ow_stuck : stuck (world s) = false;
  ow_repr : ∀ p t k, held hand s p = Some (t, k) ↔ H !! t = Some (p, k);
  ow_conn : ∀ t c, conn t (world s) = Some c → phase_ok (H !! t) (timers (host (world s))) (sockets (world s)) t (phase c);
  ow_known : ∀ t, is_Some (H !! t) ∨ is_Some (conn t (world s)) → t ∈ A;
  ow_side : side s;
  ow_handle : ∀ i a, handles (world s) !! i = Some a → is_Some (sockets (world s) !! i);
}.

Definition owned A hand s : Prop := ∃ H, own A H hand s.

(** ** The world moves *)

(** Only the connection [t] changes, others may disappear. *)
Record moves (t : TransportId) (w w' : World) : Prop := {
  mv_conn : ∀ t', t' ≠ t → conn t' w' = conn t' w ∨ conn t' w' = None;
  mv_timers : timers (host w) ⊆ timers (host w');
  mv_sockets : ∀ id, is_Some (sockets w !! id) → is_Some (sockets w' !! id);
  mv_handles : ∀ i a, handles w' !! i = Some a → is_Some (handles w !! i) ∨ is_Some (sockets w' !! i);
  mv_stuck : stuck w' = stuck w;
}.

Lemma calm_moves t w w' : calm w w' → moves t w w'.
Proof. intros [C1 C2 C3 C4 C5]. split; [by auto|by rewrite C2|done|rewrite C4; eauto|done]. Qed.

Lemma moves_trans t w1 w2 w3 : moves t w1 w2 → moves t w2 w3 → moves t w1 w3.
Proof.
  intros [A1 A2 A3 A4 A5] [B1 B2 B3 B4 B5]. split; [|set_solver|auto| |congruence].
  - intros t' Hne. destruct (B1 t' Hne) as [->|]; [by apply A1|by right].
  - intros i a Ha. destruct (B4 i a Ha) as [[b Hb]|]; [|by right]. destruct (A4 i b Hb); auto.
Qed.

Lemma phase_mono h tm tm' so so' t ph :
  tm ⊆ tm' → (∀ id, is_Some (so !! id) → is_Some (so' !! id)) → phase_ok h tm so t ph → phase_ok h tm' so' t ph.
Proof. intros Ht Hs. destruct ph; cbn; try done; [intros [? ?]; split; [done|set_solver]|intros [? ?]; auto]. Qed.

(** The owner in the hand before and after is of [t]; [h] is the owner of [t] after. *)
Lemma own_set A H hand hand' t h s w' :
  own A H hand s → moves t (world s) w' →
  (hand = None ∨ ∃ k, hand = Some (t, k)) → (hand' = None ∨ ∃ k, hand' = Some (t, k)) →
  match hand', hand with
  | Some (_, k), Some _ => h = Some (InHand, k)
  | Some (_, k), None => H !! t = None ∧ h = Some (InHand, k)
  | None, Some _ => h = None
  | None, None => h = H !! t
  end →
  (∀ c, conn t w' = Some c → phase_ok h (timers (host w')) (sockets w') t (phase c)) →
  (is_Some h ∨ is_Some (conn t w') → t ∈ A) →
  own A (partial_alter (λ _, h) t H) hand' (on_world (λ _, w') s).
Proof.
  intros HI [M1 M2 M3 M4 M5] Hh Hh' Hcase Hconn HA.
  assert (Hin : ∀ k, hand = Some (t, k) → H !! t = Some (InHand, k)) by (intros k ->; by apply (ow_repr A H _ s HI InHand t k)).
  split; cbn [world on_world objects tasks next_obj].
  - rewrite M5. apply HI.
  - intros p u k. destruct (decide (u = t)) as [->|Hne].
    + rewrite lookup_partial_alter_eq.
      assert (Hp : p = InHand ∨ (p ≠ InHand ∧ held hand' (on_world (λ _, w') s) p = held hand s p)) by (destruct p; auto).
      destruct Hp as [->|[Hp ->]].
      * cbn [held]. destruct hand' as [[t' k']|].
        -- assert (h = Some (InHand, k')) as -> by (destruct hand as [[]|]; [done|by destruct Hcase]).
           destruct Hh' as [|[k0 [= -> <-]]]; [done|]. split; by intros [= ->].
        -- destruct hand as [[t'' k'']|]; [subst h; done|]. rewrite Hcase. rewrite <- (ow_repr A H None s HI InHand t k). done.
      * rewrite (ow_repr A H hand s HI p t k). destruct hand as [[t'' k'']|].
        -- destruct Hh as [|[k0 [= -> <-]]]; [done|]. rewrite (Hin _ eq_refl).
           destruct hand' as [[t' k']|]; rewrite Hcase; split; (done || by intros [=]).
        -- destruct hand' as [[t' k']|]; [|by rewrite Hcase]. destruct Hcase as [-> ->]. split; [done|by intros [=]].
    + rewrite lookup_partial_alter_ne by done. rewrite <- (ow_repr A H hand s HI p u k). destruct p as [n|c|]; [done|done|].
      cbn. split; intros ->; exfalso; [destruct Hh' as [?|[k' ?]]|destruct Hh as [?|[k' ?]]]; congruence.
  - intros u c Hu. destruct (decide (u = t)) as [->|Hne]; [rewrite lookup_partial_alter_eq; by apply Hconn|].
    rewrite lookup_partial_alter_ne by done. destruct (M1 u Hne) as [E|E]; [|congruence]. rewrite E in Hu.
    eapply phase_mono; [done|done|by apply HI].
  - intros u. destruct (decide (u = t)) as [->|Hne]; [by rewrite lookup_partial_alter_eq|]. rewrite lookup_partial_alter_ne by done.
    intros [Hu|[c Hu]]; apply (ow_known A H hand s HI); [by left|]. right. destruct (M1 u Hne) as [E|E]; [|congruence]. rewrite <- E. eauto.
  - destruct (ow_side A H hand s HI) as [S1 S2 S3 S4]. split; cbn; try done. intros c x i Hc Hi. apply M3. by eapply S4.
  - intros i b Hb. destruct (M4 i b Hb) as [[b' Hb']|]; [|done]. apply M3. by eapply (ow_handle A H hand s HI).
Qed.

Lemma own_calm A H hand s w' : own A H hand s → calm (world s) w' → own A H hand (on_world (λ _, w') s).
Proof.
  intros HI [C1 C2 C3 C4 C5]. destruct (ow_side A H hand s HI) as [S1 S2 S3 S4]. split; cbn [world on_world].
  - rewrite C5. apply HI.
  - apply (ow_repr A H hand s HI).
  - intros t c Hc. destruct (C1 t) as [E|E]; [|congruence]. rewrite E in Hc. rewrite C2. eapply phase_mono; [done|done|by apply HI].
  - intros t [Ht|[c Hc]]; apply (ow_known A H hand s HI); [by left|right]. destruct (C1 t) as [E|E]; [|congruence]. rewrite <- E. eauto.
  - split; cbn; try done. intros c x i Hc Hi. apply C3. by eapply S4.
  - intros i a. rewrite C4. intros Ha. apply C3. by eapply (ow_handle A H hand s HI).
Qed.

Lemma owned_calm A hand s w' : owned A hand s → calm (world s) w' → owned A hand (on_world (λ _, w') s).
Proof. intros [H HI] Hc. exists H. by apply own_calm. Qed.

(** ** Owners move *)

Lemma own_relocate A H hand hand' s s' p p' :
  own A H hand s → world s' = world s → side s' → p ≠ p' →
  held hand s p = held hand' s' p' → held hand s p' = None → held hand' s' p = None →
  (∀ q, q ≠ p → q ≠ p' → held hand' s' q = held hand s q) → owned A hand' s'.
Proof.
  intros HI Hw Hside Hne Hx Hp' Hp Hq. pose proof (ow_repr A H hand s HI) as Hr.
  exists (match held hand s p with Some (t, k) => <[t := (p', k)]> H | None => H end). split; rewrite ?Hw; [apply HI| | | |done|apply HI].
  - intros q u k. destruct (held hand s p) as [[t k0]|] eqn:E.
    + apply Hr in E as E'. destruct (decide (u = t)) as [->|Hu].
      * rewrite lookup_insert_eq. split.
        -- intros Hh. destruct (decide (q = p)) as [->|Hd]; [congruence|]. destruct (decide (q = p')) as [->|Hd'].
           ++ rewrite <- Hx in Hh. by injection Hh as <-.
           ++ rewrite (Hq q Hd Hd') in Hh. apply Hr in Hh. congruence.
        -- intros [= <- <-]. done.
      * rewrite lookup_insert_ne by done. rewrite <- (Hr q u k). destruct (decide (q = p)) as [->|Hd]; [rewrite Hp, E; split; [done|congruence]|].
        destruct (decide (q = p')) as [->|Hd']; [rewrite <- Hx, Hp'; split; [congruence|done]|]. by rewrite Hq.
    + rewrite <- (Hr q u k). destruct (decide (q = p)) as [->|Hd]; [by rewrite Hp, E|].
      destruct (decide (q = p')) as [->|Hd']; [by rewrite <- Hx, Hp'|]. by rewrite Hq.
  - intros t c Hc. pose proof (ow_conn A H hand s HI t c Hc) as Hok. destruct (held hand s p) as [[u k]|] eqn:E; [|done].
    apply Hr in E. destruct (decide (t = u)) as [->|]; [|by rewrite lookup_insert_ne]. rewrite lookup_insert_eq. rewrite E in Hok.
    destruct (phase c); cbn in *; try (destruct Hok as [? ?]; simplify_eq; by eauto).
    + split; [by apply Hok|]. intros q k' [= _ <-]. by eapply Hok.
    + destruct Hok as (? & ? & [= _ <-] & ?). eauto.
  - intros t Ht. apply (ow_known A H hand s HI). destruct Ht as [Ht|]; [left|by right]. destruct (held hand s p) as [[u k]|] eqn:E; [|done].
    apply Hr in E. destruct (decide (t = u)) as [->|]; [eauto|by rewrite lookup_insert_ne in Ht].
Qed.

Definition unborrowed (s : Sys) (n : Z) : Prop := ∀ c x, tasks s !! c = Some x → borrowed x ≠ Some n.

(** The number [n] is free for a value that was taken from there. *)
Definition vacant (s : Sys) (n : Z) : Prop := objects s !! n = None ∧ n < next_obj s ∧ unborrowed s n.

Lemma owned_return A hand s c r : owned A hand s → owned A hand (return_ c r s).
Proof. intros [H [H1 H2 H3 H4 [S1 S2 S3 S4] H6]]. exists H. by split. Qed.

Lemma owned_take_obj A s n o s1 :
  owned A None s → take_obj n s = Some (o, s1) →
  owned A (obj_holds o) s1 ∧ vacant s1 n ∧ world s1 = world s ∧ tasks s1 = tasks s.
Proof.
  intros [H HI]. unfold take_obj. destruct (objects s !! n) as [o'|] eqn:Ho; [|done]. cbn. intros [= -> <-].
  destruct (ow_side A H None s HI) as [S1 S2 S3 S4].
  assert (Hu : unborrowed s n) by (intros c x Hc Hb; destruct (S2 c x n Hc Hb) as [E _]; congruence).
  split_and!; [|split_and!; cbn; [by rewrite lookup_delete_eq|apply S1; eauto|done]|done|done].
  apply (own_relocate A H None _ s _ (InObj n) InHand); try done; cbn.
  - split; cbn; try done.
    + intros m [y [_ Hy]%lookup_delete_Some]. apply S1. eauto.
    + intros c x m Hc Hb. destruct (S2 c x m Hc Hb) as (E & ? & ?). split_and!; try done. by apply lookup_delete_None; right.
  - by rewrite Ho.
  - by rewrite lookup_delete_eq.
  - intros [m|c|] Hq Hq'; cbn; [|done|done]. rewrite lookup_delete_ne; [done|congruence].
Qed.

Lemma owned_take_task A s c x :
  owned A None s → tasks s !! c = Some x →
  let s1 := set_tasks (delete c (tasks s)) s in
  owned A (task_holds x) s1 ∧ tasks s1 !! c = None
  ∧ (∀ n, borrowed x = Some n → vacant s1 n) ∧ (∀ i, i ∈ task_socks x → is_Some (sockets (world s1) !! i))
  ∧ ∀ qs, x = TPause qs → (length qs ≤ 1)%nat.
Proof.
  intros [H HI] Hc s1. destruct (ow_side A H None s HI) as [S1 S2 S3 S4].
  split_and!; [|cbn; by rewrite lookup_delete_eq| |by intros i; eapply S4|intros qs ->; by eapply S3].
  - apply (own_relocate A H None _ s _ (InTask c) InHand); try done; cbn.
    + split; cbn; try done.
      * intros k y n [_ Hk]%lookup_delete_Some Hb. destruct (S2 k y n Hk Hb) as (E & ? & Hu). split_and!; try done.
        intros k' y' [_ Hk']%lookup_delete_Some. by apply Hu.
      * intros k qs [_ Hk]%lookup_delete_Some. by eapply S3.
      * intros k y i [_ Hk]%lookup_delete_Some. by eapply S4.
    + by rewrite Hc.
    + by rewrite lookup_delete_eq.
    + intros [m|k|] Hq Hq'; cbn; [done| |done]. rewrite lookup_delete_ne; [done|congruence].
  - intros n Hb. destruct (S2 c x n Hc Hb) as (E & ? & Hu). split_and!; try done.
    intros k y. cbn. intros [Hne Hk]%lookup_delete_Some Hy. apply Hne. symmetry. by apply (Hu k y).
Qed.

(** The hand suspends its call. *)
Lemma owned_suspend A hand s c x :
  owned A hand s → tasks s !! c = None → task_holds x = hand → (∀ n, borrowed x = Some n → vacant s n) →
  (∀ i, i ∈ task_socks x → is_Some (sockets (world s) !! i)) → (∀ qs, x = TPause qs → (length qs ≤ 1)%nat) →
  owned A None (suspend c x s).
Proof.
  intros [H HI] Hc <- Hb Hs Hq. destruct (ow_side A H _ s HI) as [S1 S2 S3 S4].
  apply (own_relocate A H (task_holds x) _ s _ InHand (InTask c)); try done; cbn.
  - split; cbn; try done.
    + intros k y n [[<- <-]|[Hne Hk]]%lookup_insert_Some Hn.
      * destruct (Hb n Hn) as (? & ? & Hu). split_and!; try done.
        intros k y' [[<- _]|[_ Hk]]%lookup_insert_Some Hy; [done|]. by destruct (Hu k y').
      * destruct (S2 k y n Hk Hn) as (? & ? & Hu). split_and!; try done.
        intros k' y' [[<- <-]|[_ Hk']]%lookup_insert_Some Hy; [|by eapply Hu]. destruct (Hb n Hy) as (_ & _ & Hun). by destruct (Hun k y).
    + intros k qs [[_ Hk]|[_ Hk]]%lookup_insert_Some; [by apply Hq|by eapply S3].
    + intros k y i [[_ <-]|[_ Hk]]%lookup_insert_Some; [by apply Hs|by eapply S4].
  - by rewrite lookup_insert_eq.
  - by rewrite Hc.
  - intros [m|k|] Hq0 Hq'; cbn; [done| |done]. rewrite lookup_insert_ne; [done|congruence].
Qed.

(** The hand gives its value to the application. *)
Lemma owned_put A s n o nx :
  owned A (obj_holds o) s → objects s !! n = None → unborrowed s n → n < nx → next_obj s ≤ nx →
  owned A None (mkSys (world s) (<[n := o]> (objects s)) nx (tasks s) (rets s)).
Proof.
  intros [H HI] Hn Hu Hlt Hle. destruct (ow_side A H _ s HI) as [S1 S2 S3 S4].
  apply (own_relocate A H (obj_holds o) _ s _ InHand (InObj n)); try done; cbn.
  - split; cbn; try done.
    + intros m [y [[<- _]|[_ Hy]]%lookup_insert_Some]; [done|]. specialize (S1 m ltac:(eauto)). lia.
    + intros c x m Hc Hb. destruct (S2 c x m Hc Hb) as (E & ? & ?). split_and!; [|lia|done]. rewrite lookup_insert_ne; [done|].
      intros ->. by apply (Hu c x Hc).
  - by rewrite lookup_insert_eq.
  - by rewrite Hn.
  - intros [m|k|] Hq0 Hq'; cbn; [|done|done]. rewrite lookup_insert_ne; [done|congruence].
Qed.

Lemma owned_put_obj A s n o : owned A (obj_holds o) s → vacant s n → owned A None (put_obj n o s).
Proof. intros HI (Hn & Hlt & Hu). by apply (owned_put A s n o). Qed.

Lemma owned_give A s o : owned A (obj_holds o) s → owned A None (give o s).1.
Proof.
  intros HI. pose proof HI as [H HO]. destruct (ow_side A H _ s HO) as [S1 S2 S3 S4]. apply (owned_put A s (next_obj s) o); [done| | |lia|lia].
  - destruct (objects s !! next_obj s) eqn:E; [|done]. specialize (S1 (next_obj s) ltac:(eauto)). lia.
  - intros c x Hc Hb. destruct (S2 c x _ Hc Hb) as (_ & ? & _). lia.
Qed.

(** ** Steps of an owner *)

Definition fits (k : Kind) (so : gmap Z WsSocket.Shared) (ph : Phase) : Prop :=
  match ph with
  | PIdle _ => False
  | PRequest => k = HRequest
  | PBody => k = HBody
  | PDone => k = HDone
  | PWs id => k = HWs ∧ is_Some (so !! id)
  | PLost => k ≠ HWs
  end.

(** What an owner elsewhere does not notice. *)
Definition unnoticed (ph ph' : Phase) : Prop :=
  ph' = ph ∨ (ph' = PLost ∧ match ph with PIdle _ | PWs _ => False | _ => True end).

Lemma owned_mono A A' hand s : A ⊆ A' → owned A hand s → owned A' hand s.
Proof. intros Ha [H [H1 H2 H3 H4 H5 H6]]. exists H. split; try done. intros t Ht. by apply Ha, H4. Qed.

Definition unseen (t : TransportId) (w w' : World) : Prop :=
  ∀ c', conn t w' = Some c' → ∃ c, conn t w = Some c ∧ unnoticed (phase c) (phase c').

Lemma owned_keep A t s w' :
  owned A None s → moves t (world s) w' → unseen t (world s) w' →
  owned A None (on_world (λ _, w') s).
Proof.
  intros [H HI] Hm Hc. eexists. apply (own_set A H None None t (H !! t)); try done; [by left|by left| |].
  - intros c' Hc'. destruct (Hc c' Hc') as (c & Hcc & Hu). pose proof (ow_conn A H None s HI t c Hcc) as Hok.
    destruct Hu as [->|[-> Hu]]; [eapply phase_mono; [apply Hm|apply Hm|done]|]. destruct (phase c); cbn in *; try done;
      destruct Hok as [? ->]; by eexists _, _.
  - intros [Ht|[c' Hc']]; apply (ow_known A H None s HI); [by left|]. right. destruct (Hc c' Hc') as (c & -> & _). eauto.
Qed.

(** The owner in the hand takes its connection to another phase. *)
Lemma owned_shift A t k k' s w' :
  owned A (Some (t, k)) s → moves t (world s) w' → (∀ c, conn t w' = Some c → fits k' (sockets w') (phase c)) →
  owned A (Some (t, k')) (on_world (λ _, w') s).
Proof.
  intros [H HI] Hm Hc. eexists. apply (own_set A H (Some (t, k)) (Some (t, k')) t (Some (InHand, k'))); eauto; [|].
  - intros c Hcc. specialize (Hc c Hcc). destruct (phase c); cbn in *; try done; subst; eauto. destruct Hc as [-> ?]. split; [done|]. by intros p k0 [= _ <-].
  - intros _. apply (ow_known A H _ s HI). left. rewrite (proj1 (ow_repr A H _ s HI InHand t k) eq_refl). eauto.
Qed.

(** The owner is done: the connection is gone, idle again, or a WebSocket. *)
Lemma owned_finish A t k s w' :
  owned A (Some (t, k)) s → moves t (world s) w' →
  (∀ c, conn t w' = Some c → match phase c with PIdle g => (t, g) ∈ timers (host w') | PWs id => is_Some (sockets w' !! id) | _ => False end) →
  owned A None (on_world (λ _, w') s).
Proof.
  intros [H HI] Hm Hc. eexists. apply (own_set A H (Some (t, k)) None t None); eauto.
  - intros c Hcc. specialize (Hc c Hcc). destruct (phase c); cbn in *; done.
  - intros _. apply (ow_known A H _ s HI). left. rewrite (proj1 (ow_repr A H _ s HI InHand t k) eq_refl). eauto.
Qed.

(** A request is found on an idle connection. *)
Lemma owned_new A t s w' c g :
  owned A None s → moves t (world s) w' → conn t (world s) = Some c → phase c = PIdle g →
  (∀ c', conn t w' = Some c' → phase c' = PRequest ∨ phase c' = PLost) → owned A (Some (t, HRequest)) (on_world (λ _, w') s).
Proof.
  intros [H HI] Hm Hcc Hg Hc. pose proof (ow_conn A H None s HI t c Hcc) as Hok. rewrite Hg in Hok. destruct Hok as [Hn _].
  eexists. apply (own_set A H None (Some (t, HRequest)) t (Some (InHand, HRequest))); eauto.
  - intros c' Hc'. destruct (Hc c' Hc') as [-> | ->]; cbn; eauto.
  - intros _. apply (ow_known A H None s HI). right. eauto.
Qed.

(** A connection is accepted. *)
Lemma owned_accept A t s w' :
  owned A None s → t ∉ A → moves t (world s) w' →
  (∀ c, conn t w' = Some c → ∃ g, phase c = PIdle g ∧ (t, g) ∈ timers (host w')) → owned (t :: A) None (on_world (λ _, w') s).
Proof.
  intros HI Ht Hm Hc. assert (Hn : ∀ H, own A H None s → H !! t = None).
  { intros H HO. destruct (H !! t) eqn:E; [|done]. destruct Ht. apply (ow_known A H None s HO). left. eauto. }
  destruct HI as [H HI]. specialize (Hn H HI). eexists (partial_alter (λ _, H !! t) t H).
  assert (HI' : own (t :: A) H None s) by (destruct HI as [H1 H2 H3 H4 H5 H6]; split; try done; intros u Hu; right; by apply H4).
  apply (own_set (t :: A) H None None t (H !! t)); eauto; [|by left].
  intros c Hcc. destruct (Hc c Hcc) as (g & -> & Hg). done.
Qed.

(** The hand aborts, and lets go. *)
Lemma owned_abort A t k s : owned A (Some (t, k)) s → owned A None (on_world (abort t) s).
Proof.
  intros HI. apply (owned_finish A t k s (abort t (world s)) HI); [apply calm_moves, calm_abort|]. intros c. by rewrite abort_gone.
Qed.

(** ** The operations *)

Lemma conn_put t t' c w : conn t' (put_conn t c w) = if decide (t' = t) then Some c else conn t' w.
Proof. unfold conn. cbn. case_decide; [subst; by rewrite lookup_insert_eq|by rewrite lookup_insert_ne]. Qed.

Lemma moves_refl t w : moves t w w.
Proof. apply calm_moves, srv_calm_refl. Qed.

Lemma moves_put t c w : moves t w (put_conn t c w).
Proof. split; try done; [|eauto]. intros t' Hne. left. rewrite conn_put. by rewrite decide_False. Qed.

Lemma moves_emit t e w w' : moves t w w' → moves t w (WsSocket.emit e w').
Proof. intros Hm. eapply moves_trans; [exact Hm|apply calm_moves, calm_emit]. Qed.

(** Outcomes of [process] on the connection [t]: nothing new, or one request. *)
Definition nothing_new (t : TransportId) (w w' : World) : Prop :=
  ∀ c', conn t w' = Some c' → ∃ c, conn t w = Some c ∧ phase c' = phase c.

Definition new_request (t : TransportId) (w w' : World) (qs : list ServerRequest) : Prop :=
  ∃ c g q, conn t w = Some c ∧ phase c = PIdle g ∧ qs = [q] ∧ q_transport q = t
    ∧ ∀ c', conn t w' = Some c' → phase c' = PRequest.

Lemma process_spec `{SL : !ServerLaws} t w :
  let r := process config t w in
  moves t w r.1 ∧ match r.2 with
  | inl qs => (qs = [] ∧ nothing_new t w r.1) ∨ new_request t w r.1 qs
  | inr _ => ∀ c', conn t r.1 = Some c' → ∃ c, conn t w = Some c ∧ phase c' = PLost ∧ ((∃ g, phase c = PIdle g) ∨ phase c = PRequest)
  end.
Proof.
  unfold process. destruct (conn t w) as [c|] eqn:Hc; [|split; [apply moves_refl|left; split; [done|]; intros c' Hc'; cbn in Hc'; congruence]].
  destruct (process_loop_spec t c) as (c' & qs & e & -> & Hp). destruct e as [e|]; cbn [fst snd].
  - destruct Hp as (Hl & Hph & _). split; [eapply moves_trans; [apply moves_put|apply calm_moves, calm_drop_requests]|].
    intros c2 Hc2. exists c. split; [done|]. destruct (ca_conn _ _ (calm_drop_requests qs (put_conn t c' w)) t) as [E|E]; [|congruence].
    rewrite E, conn_put, decide_True in Hc2 by done. by injection Hc2 as <-.
  - split; [apply moves_put|]. destruct Hp as [[-> Hph]|(g & q & Hg & -> & Hq & Hph)]; [left|right].
    + split; [done|]. intros c2. rewrite conn_put, decide_True by done. intros [= <-]. eauto.
    + exists c, g, q. split_and!; try done. intros c2. rewrite conn_put, decide_True by done. by intros [= <-].
Qed.

Lemma moves_gone t w w' : moves t w w' → moves t w (remove_connection t (shutdown t w')) ∧ conn t (remove_connection t (shutdown t w')) = None.
Proof.
  intros Hm. split; [|rewrite conn_remove; by rewrite decide_True].
  eapply moves_trans; [exact Hm|]. eapply moves_trans; [apply calm_moves, calm_emit|apply calm_moves, calm_remove].
Qed.

Lemma data_spec `{SL : !ServerLaws} t bytes w :
  let r := data config t bytes w in
  moves t w r.1 ∧ match r.2 with
  | inl (qs, _) => (qs = [] ∧ nothing_new t w r.1) ∨ new_request t w r.1 qs
  | inr _ => conn t r.1 = None
  end.
Proof.
  unfold data. destruct (conn t w) as [c|] eqn:Hc; [|split; [apply moves_refl|left; split; [done|]; intros c' Hc'; cbn in Hc'; congruence]].
  set (w0 := put_conn t _ w). pose proof (process_spec t w0) as Hp.
  assert (H0 : conn t w0 = Some (set_input (input c ++ bytes) c)) by (unfold w0; by rewrite conn_put, decide_True).
  destruct (process config t w0) as [w1 [qs|e]]; cbn [fst snd] in Hp; destruct Hp as [Hm Hp].
  - assert (Hm1 : moves t w w1) by (eapply moves_trans; [apply moves_put|exact Hm]).
    assert (Hres : ∀ w2, moves t w w2 → (∀ c2, conn t w2 = Some c2 → ∃ c1, conn t w1 = Some c1 ∧ phase c2 = phase c1) →
              (qs = [] ∧ nothing_new t w w2) ∨ new_request t w w2 qs).
    { intros w2 _ H2. destruct Hp as [[-> Hn]|(c0 & g & q & Hc0 & Hg & -> & Hq & Hn)]; [left; split; [done|]|right].
      - intros c2 Hc2. destruct (H2 c2 Hc2) as (c1 & H1 & ->). destruct (Hn c1 H1) as (c3 & H3 & ->). rewrite H0 in H3. injection H3 as <-. eauto.
      - rewrite H0 in Hc0. injection Hc0 as <-. exists c, g, q. split_and!; try done. intros c2 Hc2. destruct (H2 c2 Hc2) as (c1 & H1 & ->). by apply Hn. }
    destruct (conn t w1) as [c1|] eqn:H1; cbn [fst snd]; [|split; [done|apply Hres; [done|intros c2; congruence]]].
    destruct (_ && _); cbn [fst snd].
    + assert (Hm2 : moves t w (WsSocket.emit (WsSocket.Pause t) (put_conn t (set_paused true c1) w1)))
        by (apply moves_emit; eapply moves_trans; [exact Hm1|apply moves_put]).
      split; [done|]. apply Hres; [done|]. intros c2 Hc2. change (conn t (put_conn t (set_paused true c1) w1) = Some c2) in Hc2.
      rewrite conn_put, decide_True in Hc2 by done. injection Hc2 as <-. exists c1. split; [done|]. done.
    + split; [done|]. apply Hres; [done|]. intros c2 Hc2. exists c1. split; [done|congruence].
  - cbn [fst snd]. apply moves_gone. eapply moves_trans; [apply moves_put|exact Hm].
Qed.

Lemma closed_spec t reason w :
  (∀ id, upgraded t w = Some id → is_Some (sockets w !! id)) → moves t w (closed t reason w)
  ∧ (∀ c', conn t (closed t reason w) = Some c' → ∃ c, conn t w = Some c ∧ phase c' = phase c).
Proof.
  intros Hup. unfold closed. destruct (listeners (host w) !! t).
  { split; [|intros c'; change (conn t w = Some c' → ∃ c, conn t w = Some c ∧ phase c' = phase c); eauto]. by split; eauto. }
  destruct (upgraded t w) as [id|] eqn:Hu.
  - pose proof (srv_closed_calm id reason (remove_connection t w) (Hup id eq_refl)) as Hc.
    split; [eapply moves_trans; [apply calm_moves, calm_remove|by apply calm_moves]|]. intros c' Hc'.
    destruct (ca_conn _ _ Hc t) as [E|E]; [|congruence]. rewrite E, conn_remove, decide_True in Hc' by done. done.
  - destruct (conn t w) as [c|] eqn:Hc; [|split; [apply moves_refl|intros c' Hc'; congruence]].
    assert (Hput : ∀ x, let w' := put_conn t (set_ended true (set_error x c)) w in moves t w w'
              ∧ (∀ c', conn t w' = Some c' → ∃ c0, Some c = Some c0 ∧ phase c' = phase c0)).
    { intros x w'. split; [apply moves_put|]. intros c'. unfold w'. rewrite conn_put, decide_True by done. intros [= <-]. by exists c. }
    destruct (proto c) as [[]|]; try apply Hput. split; [apply calm_moves, calm_remove|]. intros c'.
    rewrite conn_remove, decide_True by done. done.
Qed.

(** Every turn of a serialization adds bytes. *)
Lemma head_loop_total fuel c all limit :
  (S (Z.to_nat limit) - length all ≤ fuel)%nat → Z.of_nat (length all) ≤ Z.max 0 limit → is_Some (head_loop fuel c all limit).
Proof.
  revert c all. induction fuel as [|fuel IH]; intros c all Hf Hl; cbn [head_loop]; destruct (s_finished c); try by eexists.
  - exfalso. lia.
  - destruct (s_write c _) as [c' [bs|e]]; [|by eexists]. case_decide as Hb; [by eexists|]. case_decide; [by eexists|].
    assert (0 < length bs)%nat by (destruct bs; [done|cbn; lia]). apply IH; rewrite length_app in *; lia.
Qed.

Lemma serialize_head_total c : is_Some (serialize_head config c).
Proof. apply head_loop_total; cbn; lia. Qed.

(** What the phase of a connection is when an operation of its owner is through. *)
Definition all_phase (t : TransportId) (w : World) (P : Phase → Prop) : Prop := ∀ c, conn t w = Some c → P (phase c).

Lemma all_put t c w P : P (phase c) → all_phase t (put_conn t c w) P.
Proof. intros Hp c'. rewrite conn_put, decide_True by done. by intros [= <-]. Qed.

Lemma respond_spec t head headers spec w :
  let r := respond config t head headers spec w in
  moves t w r.1 ∧ match r.2 with
  | inl (has_body, _) => all_phase t r.1 (λ ph, ph = if has_body : bool then PBody else PDone)
  | inr _ => True
  end.
Proof.
  unfold respond. destruct (apply_body_headers headers spec) as [hs|e]; [|split; [apply moves_refl|done]].
  destruct (conn t w) as [c|]; [|split; [apply moves_refl|done]].
  destruct (proto c) as [[]|]; try (split; [apply moves_refl|done]); cbv beta zeta.
  all: destruct (provide _ head hs) as [send|e]; [|split; [apply moves_put|done]].
  all: destruct (serialize_head_total send) as [[[bytes send']|e] ->]; [|split; [apply moves_put|done]].
  all: destruct (s_proceed send') as [b|mc]; cbn [fst snd]; (split; [apply moves_emit, moves_put|]).
  all: by apply (all_put t _ w).
Qed.

Lemma write_chunk_spec t chunk w :
  all_phase t w (λ ph, ph = PBody ∨ ph = PLost) →
  let r := write_chunk config t chunk w in moves t w r.1 ∧ all_phase t r.1 (λ ph, ph = PBody ∨ ph = PLost).
Proof.
  intros Hb. unfold write_chunk. case_decide; [split; [apply moves_refl|done]|]. case_decide; [split; [apply moves_refl|done]|].
  destruct (conn t w) as [c|] eqn:Hc; [|split; [apply moves_refl|done]].
  assert (Hlost : moves t w (put_conn t (set_proto None c) w) ∧ all_phase t (put_conn t (set_proto None c) w) (λ ph, ph = PBody ∨ ph = PLost))
    by (split; [apply moves_put|apply all_put; by right]).
  destruct (proto c) as [[]|]; try apply Hlost. destruct (s_body_write _ _ _) as [call [[used bs]|e]]; [|apply Hlost].
  case_decide; cbn [fst snd]; (split; [try apply moves_emit; apply moves_put|]); [apply (all_put t _ w)|apply (all_put t _ w)]; by left.
Qed.

Lemma finish_spec t w :
  let r := finish t w in moves t w r.1 ∧ match r.2 with inl _ => all_phase t r.1 (λ ph, ph = PDone) | inr _ => True end.
Proof.
  unfold finish. destruct (conn t w) as [c|]; [|split; [apply moves_refl|done]].
  assert (Hput : ∀ x, moves t w (put_conn t x w) ∧ True) by (intros x; split; [apply moves_put|done]).
  destruct (proto c) as [[]|]; try apply Hput. destruct (n ← _; _); [split; [apply moves_refl|done]|].
  destruct (s_body_write _ _ _) as [call [[used bs]|e]]; [|apply Hput]. destruct (s_body_finished call); [|apply Hput].
  split; [apply moves_emit, moves_put|]. by apply (all_put t _ w).
Qed.

Lemma finish_response_spec t mc w :
  moves t w (finish_response t mc w)
  ∧ all_phase t (finish_response t mc w) (λ ph, ∃ g, ph = PIdle g ∧ (t, g) ∈ timers (host (finish_response t mc w))).
Proof.
  assert (Hg : moves t w (remove_connection t (shutdown t w)) ∧ ∀ P, all_phase t (remove_connection t (shutdown t w)) P).
  { destruct (moves_gone t w w (moves_refl t w)) as [Hm Hn]. split; [done|]. intros P c. by rewrite Hn. }
  unfold finish_response. destruct mc; [split; apply Hg|]. destruct reply_new as [next|e]; [|split; apply Hg].
  destruct (conn t w) as [c|] eqn:Hc; [|split; [apply moves_refl|intros c' Hc'; congruence]].
  set (g := Z.max 1 _). set (c1 := set_generation _ _). set (w1 := arm_header_timeout t g (put_conn t c1 w)).
  assert (H1 : moves t w w1 ∧ all_phase t w1 (λ ph, ∃ g, ph = PIdle g ∧ (t, g) ∈ timers (host w1))).
  { split; [eapply moves_trans; [apply moves_put|]|].
    - split; try done; [by left|cbn; set_solver|eauto].
    - intros c2 Hc2. change (conn t (put_conn t c1 w) = Some c2) in Hc2. rewrite conn_put, decide_True in Hc2 by done. injection Hc2 as <-.
      exists g. split; [done|]. cbn. apply elem_of_app. right. by apply list_elem_of_singleton. }
  case_decide; [done|]. destruct H1 as [[M1 M2 M3 M4 M5] Hp]. split; [by split|exact Hp].
Qed.

Lemma ensure_continue_spec t w :
  let r := ensure_continue t w in
  moves t w r.1 ∧ unseen t w r.1.
Proof.
  assert (Hsame : moves t w w ∧ unseen t w w)
    by (split; [apply moves_refl|intros c' Hc'; exists c'; split; [done|by left]]).
  unfold ensure_continue. destruct (conn t w) as [c|] eqn:Hc; [|exact Hsame].
  assert (Hph : ∀ call, proto c = Some (Await100 call) → phase c = PRequest) by (intros call E; unfold phase; by rewrite E).
  destruct (proto c) as [[]|] eqn:Hp; try exact Hsame. specialize (Hph _ eq_refl).
  destruct (accept100 _ _) as [[out recv]|e]; cbn [fst snd]; (split; [try apply moves_emit; apply moves_put|]); intros c' Hc'; exists c; (split; [done|]).
  - change (conn t (put_conn t (set_proto (Some (RecvBody recv)) c) w) = Some c') in Hc'. rewrite conn_put, decide_True in Hc' by done.
    injection Hc' as <-. left. by rewrite Hph.
  - rewrite conn_put, decide_True in Hc' by done. injection Hc' as <-. right. by rewrite Hph.
Qed.

Lemma take_chunk_spec t w :
  let r := take_chunk config t w in
  moves t w r.1 ∧ unseen t w r.1.
Proof.
  unfold take_chunk. destruct (conn t w) as [c|] eqn:Hc; [|split; [apply moves_refl|intros c' Hc'; cbn in Hc'; congruence]].
  assert (Hput : ∀ c1, phase c1 = phase c → moves t w (put_conn t c1 w) ∧ unseen t w (put_conn t c1 w)).
  { intros c1 E. split; [apply moves_put|]. intros c'. rewrite conn_put, decide_True by done. intros [= <-]. exists c. split; [done|by left]. }
  destruct (chunks c) as [|ch rest]; [destruct (error c)|]; cbn [fst snd]; apply Hput; by destruct (_ && _).
Qed.

Lemma upgrade_spec t head headers o w :
  let r := upgrade_connection config me t head headers o w in
  moves t w r.1 ∧ match r.2 with
  | inl id => all_phase t r.1 (λ ph, ph = PWs id) ∧ is_Some (sockets r.1 !! id)
  | inr _ => True
  end.
Proof.
  unfold upgrade_connection. set (id := Z.max 1 _). set (w0 := WsSocket.on_host _ w). cbv zeta.
  assert (H0 : moves t w w0) by (split; [by left|done|done|eauto|done]).
  destruct (conn t w0) as [c|] eqn:Hc; [|split; done].
  assert (Hlost : ∀ x, moves t w (put_conn t x w0)) by (intros x; eapply moves_trans; [exact H0|apply moves_put]).
  destruct (proto c) as [[]|]; try (split; done). destruct (provide _ _ _) as [send|e]; [|split; [apply Hlost|done]].
  destruct (serialize_head_total send) as [[[bytes send']|e] ->]; [|split; [apply Hlost|done]].
  destruct (s_proceed send') as [b|mc]; [split; [apply Hlost|done]|].
  unfold WsSocket.server, WsSocket.from_socket. destruct (WsSocket.up _ t); [|split; [apply Hlost|done]]. cbn [fst snd]. split_and!.
  - apply moves_emit. eapply moves_trans; [|apply moves_put]. eapply moves_trans; [apply (Hlost (set_proto None (set_input [] c)))|].
    split; [by left|done| |eauto|done]. intros i Hi. cbn. destruct (decide (i = id)) as [->|]; [by rewrite lookup_insert_eq|by rewrite lookup_insert_ne].
  - by apply (all_put t).
  - cbn. by rewrite lookup_insert_eq.
Qed.

(** ** Reading *)

Definition chunk_count (t : TransportId) (w : World) : nat := match conn t w with Some c => length (chunks c) | None => O end.

(** The call is not suspended, and the body can go back where it was. *)
Definition reader_ok (c : Z) (r : Reader) (s : Sys) : Prop :=
  tasks s !! c = None ∧ (rd_mode r = MNext → vacant s (rd_obj r)).

(** Going on is fine while fewer than [n] chunks are left. *)
Definition good_again (A : list TransportId) (c : Z) (t : TransportId) (n : nat) (again : Reader → Sys → Sys) : Prop :=
  ∀ r s, rd_transport r = t → reader_ok c r s → (chunk_count (rd_transport r) (world s) < n)%nat → owned A None s → owned A None (again r s).

Lemma after_again r res r' : after_chunk r res = Again r' →
  rd_transport r' = rd_transport r ∧ rd_mode r' ≠ MNext ∧ ∃ chunk, res = inl (Some chunk).
Proof.
  unfold after_chunk. destruct (rd_mode r) eqn:Hm; [done| |].
  - destruct res as [[chunk|]|e]; [|done..]. intros [= <-]. rewrite Hm. eauto.
  - destruct res as [[chunk|]|e]; [|done..]. case_decide; [done|]. intros [= <-]. cbn. eauto.
Qed.

Lemma answered_owned A c n again r res s :
  good_again A c (rd_transport r) n again → reader_ok c r s → owned A None s →
  ((∃ chunk, res = inl (Some chunk)) → (chunk_count (rd_transport r) (world s) < n)%nat) →
  owned A None (answered again c r res s).
Proof.
  intros Hg [Hc Hv] HI Hn. unfold answered. destruct (after_chunk r res) as [r'|ret a|ret|ret a] eqn:Ha.
  - destruct (after_again r res r' Ha) as (Ht & Hm & Hx). apply Hg; [done|split; [done|by intros E]|rewrite Ht; by apply Hn|done].
  - apply owned_return, (owned_put_obj A s (rd_obj r) (OIncoming (rd_transport r) a)); [done|]. apply Hv. unfold after_chunk in Ha.
    destruct (rd_mode r); [done| |]; destruct res as [[chunk|]|e]; try done; by case_decide.
  - by apply owned_return.
  - apply owned_return. apply (owned_calm A None s (drop_incoming (rd_transport r) a (world s))); [done|apply calm_drop_incoming].
Qed.

Lemma reader_task_side r s x n :
  reader_ok n r s → x = TContinue r ∨ (∃ a b d, x = TResume r a b d) ∨ (∃ a, x = TSleep r a) →
  task_holds x = None ∧ (∀ k, borrowed x = Some k → vacant s k) ∧ task_socks x = [] ∧ (∀ qs, x ≠ TPause qs).
Proof.
  intros [_ Hv] Hx. assert (borrowed x = match rd_mode r with MNext => Some (rd_obj r) | _ => None end) as E
    by (destruct Hx as [->|[(? & ? & ? & ->)|[? ->]]]; done).
  split_and!; try (by destruct Hx as [->|[(? & ? & ? & ->)|[? ->]]]). intros k. rewrite E. destruct (rd_mode r); [|done..]. intros [= <-]. auto.
Qed.

Lemma suspend_reader A c r s x :
  owned A None s → reader_ok c r s → x = TContinue r ∨ (∃ a b d, x = TResume r a b d) ∨ (∃ a, x = TSleep r a) → owned A None (suspend c x s).
Proof.
  intros HI Hr Hx. destruct (reader_task_side r s x c Hr Hx) as (H1 & H2 & H3 & H4). apply (owned_suspend A None); try done.
  - apply Hr.
  - intros i. rewrite H3. by intros ?%elem_of_nil.
  - intros qs ->. by destruct (H4 qs).
Qed.

Lemma turn_end_owned A c n again r started answer remove s :
  good_again A c (rd_transport r) n again → reader_ok c r s → owned A None s →
  ((∃ chunk, answer = Some (inl (Some chunk))) → (chunk_count (rd_transport r) (world s) < n)%nat) →
  owned A None (turn_end config again c r started answer remove s).
Proof.
  intros Hg Hr HI Hn. unfold turn_end. set (s1 := if remove then _ else s).
  assert (H1 : owned A None s1 ∧ reader_ok c r s1 ∧ (chunk_count (rd_transport r) (world s1) ≤ chunk_count (rd_transport r) (world s))%nat).
  { unfold s1. destruct remove; [|done]. split_and!; [by apply (owned_calm A None s); [|apply calm_remove]|done|].
    unfold chunk_count in *. cbn [world on_world]. rewrite conn_remove, decide_True by done. lia. }
  destruct H1 as (HI1 & Hr1 & Hn1). destruct answer as [res|].
  { eapply answered_owned; [done..|]. intros [chunk ->]. specialize (Hn ltac:(eauto)). lia. } case_decide; [|by eapply suspend_reader; eauto].
  eapply answered_owned; [done|done| |by intros [? ?]].
  apply (owned_calm A None s1); [done|]. eapply srv_calm_trans; [apply calm_emit|apply calm_remove].
Qed.

Lemma take_chunk_count t w w' answer resume remove :
  take_chunk config t w = (w', inl (answer, resume, remove)) →
  (chunk_count t w' ≤ chunk_count t w)%nat
  ∧ ((∃ chunk, answer = Some (inl (Some chunk))) → (chunk_count t w' < chunk_count t w)%nat).
Proof.
  unfold take_chunk, chunk_count. destruct (conn t w) as [c|] eqn:Hc; [|done].
  assert (Hput : ∀ c1, conn t (put_conn t c1 w) = Some c1) by (intros c1; by rewrite conn_put, decide_True).
  destruct (chunks c) as [|ch rest] eqn:Hch; [destruct (error c)|]; intros [= <- <- _ _]; rewrite Hput.
  - destruct (_ && _); cbn; rewrite Hch; (split; [done|by intros [? ?]]).
  - destruct (_ && _); cbn; rewrite Hch; (split; [done|intros [? E]; by destruct (body_ended c)]).
  - destruct (_ && _); cbn; (split; [lia|intros _; lia]).
Qed.

Lemma read_turn_owned A c n again r started s :
  good_again A c (rd_transport r) n again → reader_ok c r s → owned A None s → (chunk_count (rd_transport r) (world s) ≤ n)%nat →
  owned A None (read_turn config again c r started s).
Proof.
  intros Hg Hr HI Hn. unfold read_turn. pose proof (take_chunk_spec (rd_transport r) (world s)) as [Hm Hu].
  destruct (take_chunk config (rd_transport r) (world s)) as [w [[[answer resume] remove]|e]] eqn:Ht; cbn [fst] in Hm, Hu.
  - assert (HI1 : owned A None (on_world (λ _, w) s)) by (by apply (owned_keep A (rd_transport r))).
    destruct (take_chunk_count _ _ _ _ _ _ Ht) as [Hle Hlt]. destruct resume.
    + eapply suspend_reader; [apply (owned_calm A None _ _ HI1), calm_emit|exact Hr|]. right. left. eauto.
    + eapply turn_end_owned; [done|done|done|]. intros Hx. specialize (Hlt Hx). cbn. lia.
  - eapply answered_owned; [done|done| |by intros [? ?]]. by apply (owned_keep A (rd_transport r)).
Qed.

Lemma continue_count t w w' r : ensure_continue t w = (w', r) → (chunk_count t w' = chunk_count t w)%nat.
Proof.
  unfold ensure_continue, chunk_count. destruct (conn t w) as [c|] eqn:Hc; [|intros [= <- _]; by rewrite Hc].
  assert (Hput : ∀ c1, conn t (put_conn t c1 w) = Some c1) by (intros c1; by rewrite conn_put, decide_True).
  destruct (proto c) as [[]|]; try (intros [= <- _]; by rewrite Hc).
  destruct (accept100 _ _) as [[out recv]|e]; intros [= <- _]; [change (conn t (WsSocket.emit _ ?x)) with (conn t x)|]; by rewrite Hput.
Qed.

(** Enough fuel: a turn that goes on at once has taken a chunk. *)
Lemma read_owned A c t fuel : good_again A c t fuel (read config fuel c).
Proof.
  induction fuel as [|fuel IH]; intros r s <- Hr Hn HI; [lia|]. cbn [read].
  pose proof (ensure_continue_spec (rd_transport r) (world s)) as [Hm Hu].
  destruct (ensure_continue (rd_transport r) (world s)) as [w res] eqn:He. cbn [fst] in Hm, Hu. apply continue_count in He.
  assert (HI1 : owned A None (on_world (λ _, w) s)) by (by apply (owned_keep A (rd_transport r))).
  destruct res as [[]|e].
  - eapply suspend_reader; [done|done|by left].
  - eapply read_turn_owned; [done|done|done|]. cbn. lia.
  - eapply answered_owned; [done|done|done|by intros [? ?]].
Qed.

Lemma start_read_owned A c n m s s' : owned A None s → tasks s !! c = None → start_read config c n m s = Some s' → owned A None s'.
Proof.
  intros HI Hc. unfold start_read. destruct (take_obj n s) as [[o s1]|] eqn:Ho; [|done].
  destruct (owned_take_obj A s n o s1 HI Ho) as (HI1 & Hv & Hw & Ht). destruct o as [|t a| |]; try done. intros Hs.
  replace s' with (read config (read_fuel t s1) c (mkReader n t a m) s1) by congruence.
  refine (read_owned A c t (read_fuel t s1) (mkReader n t a m) s1 eq_refl _ _ HI1); [split; [by rewrite Ht|done]|]. unfold read_fuel, chunk_count. cbn [rd_transport]. destruct (conn t (world s1)); lia.
Qed.

(** ** Calls *)

Lemma hand_fits A t k s c : owned A (Some (t, k)) s → conn t (world s) = Some c → fits k (sockets (world s)) (phase c).
Proof.
  intros [H HI] Hc. pose proof (proj1 (ow_repr A H _ s HI InHand t k) eq_refl) as Ht. pose proof (ow_conn A H _ s HI t c Hc) as Hok.
  rewrite Ht in Hok. destruct (phase c); cbn in *; try (destruct Hok; simplify_eq; done).
  - destruct Hok as [? Hk]. split; [by eapply Hk|done].
  - destruct Hok as (? & ? & [= _ <-] & ?). done.
Qed.

Definition sock_hand (k : SockFor) : option (TransportId * Kind) := match k with ForUpgrade t _ => Some (t, HWs) | _ => None end.

Lemma sock_done_owned A c k r s :
  owned A (sock_hand k) s → (∀ i, i ∈ task_socks (TSock k WsSocket.Sending) → is_Some (sockets (world s) !! i)) →
  owned A None (sock_done c k r s).
Proof.
  intros HI Hs. destruct k as [|t id|x active]; cbn [sock_done sock_hand] in *.
  - by apply owned_return.
  - assert (Hno : owned A None (on_world (WsSocket.new_handle id) s)).
    { apply (owned_finish A t HWs s (WsSocket.new_handle id (world s)) HI).
      - split; [by left|done|done| |done]. intros i a. cbn. intros [[<- _]|[_ Ha]]%lookup_insert_Some; [right|left; eauto]. apply (Hs id). set_solver.
      - intros c' Hc'. pose proof (hand_fits A t HWs s c' HI Hc') as Hf. destruct (phase c'); cbn in *; try done. by destruct Hf. }
    destruct r as [[e|]|r]; apply owned_return; [by apply (owned_abort A t HWs)|done|done].
  - apply owned_return. destruct (WsSocket.borrows x) as [id|] eqn:Eb; [|done]. destruct active as [a|]; [|done].
    assert (Hid : is_Some (sockets (world s) !! id)) by (apply (Hs id); cbn; rewrite Eb; set_solver).
    destruct HI as [H HI]. destruct (ow_side A H None s HI) as [S1 S2 S3 S4]. exists H. split; try apply HI; cbn; [by split|].
    intros i b [[<- _]|[_ Hb]]%lookup_insert_Some; [done|by eapply (ow_handle A H None s HI)].
Qed.

Lemma sock_out_owned A c k r s :
  owned A (sock_hand k) s → tasks s !! c = None → sock_fine (world s) r →
  (∀ i, i ∈ task_socks (TSock k WsSocket.Sending) → is_Some (sockets (world s) !! i)) → owned A None (sock_out c k r s).
Proof.
  intros HI Hc [Hcalm Hfine] Hs. unfold sock_out. pose proof (owned_calm A _ s _ HI Hcalm) as HI1.
  assert (Hs1 : ∀ i, i ∈ task_socks (TSock k WsSocket.Sending) → is_Some (sockets r.1 !! i)) by (intros i Hi; by apply (ca_sockets _ _ Hcalm), Hs).
  destruct r.2 as [t|ret] eqn:Hr; [|by apply sock_done_owned]. apply (owned_suspend A (sock_hand k)); try done.
  intros i. cbn. rewrite elem_of_app. intros [Hi|Hi].
  - destruct (WsBooks.task_id t) as [j|] eqn:Ej; [|by apply elem_of_nil in Hi]. apply list_elem_of_singleton in Hi as ->. by eapply Hfine.
  - apply Hs1. cbn. done.
Qed.

(** The owner of the requests a call found. *)
Definition found (qs : list ServerRequest) : option (TransportId * Kind) :=
  match qs with [q] => Some (q_transport q, HRequest) | _ => None end.

Lemma return_requests_owned A c qs s : (length qs ≤ 1)%nat → owned A (found qs) s → owned A None (return_requests c qs s).
Proof.
  intros Hl HI. unfold return_requests. destruct qs as [|q [|]]; [by apply owned_return| |cbn in Hl; lia].
  cbn. apply owned_return. exact (owned_give A s (ORequest q) HI).
Qed.

Lemma new_found A t s w qs :
  owned A None s → moves t (world s) w → (qs = [] ∧ nothing_new t (world s) w) ∨ new_request t (world s) w qs →
  owned A (found qs) (on_world (λ _, w) s) ∧ (length qs ≤ 1)%nat.
Proof.
  intros HI Hm [[-> Hn]|(c & g & q & Hc & Hg & -> & <- & Hn)].
  - split; [|cbn; lia]. apply (owned_keep A t); [done|done|]. intros c' Hc'. destruct (Hn c' Hc') as (c & ? & ?). exists c. split; [done|by left].
  - split; [|cbn; lia]. apply (owned_new A (q_transport q) s w c g); try done. intros c' Hc'. left. by apply Hn.
Qed.

(** The transports a call brings in. *)
Definition accepted (ev : NetEvent) : list TransportId :=
  match ev with Accept id _ _ | Connected id (Some _) _ => [id] | _ => [] end.

Lemma insert_connection_owned A id l from tls s :
  owned A None s → id ∉ A → let r := insert_connection id l from tls (world s) in
  owned (id :: A) None (on_world (λ _, r.1) s).
Proof.
  intros HI Hn. unfold insert_connection. assert (Hmono : owned (id :: A) None s) by (eapply owned_mono; [|done]; set_solver).
  assert (Hsame : owned (id :: A) None (on_world (λ _, world s) s)) by (by destruct s).
  destruct reply_new as [reply|e]; [|exact Hsame]. destruct (WsSocket.up (world s) id); [|exact Hsame].
  set (c1 := mkConnection _ _ _ _ _ _ _ _ _ _ _ _).
  apply (owned_accept A id s (arm_header_timeout id 1 (put_conn id c1 (world s)))); [done|done| |].
  - eapply moves_trans; [apply moves_put|]. split; [by left|cbn; set_solver|done|eauto|done].
  - intros c' Hc'. change (conn id (put_conn id c1 (world s)) = Some c') in Hc'. rewrite conn_put, decide_True in Hc' by done. injection Hc' as <-.
    exists 1. split; [done|]. cbn. apply elem_of_app. right. by apply list_elem_of_singleton.
Qed.

Lemma upgraded_some A s t id : owned A None s → upgraded t (world s) = Some id → is_Some (sockets (world s) !! id).
Proof.
  intros [H HI]. unfold upgraded. destruct (conn t (world s)) as [c|] eqn:Hc; [|done]. cbn. pose proof (ow_conn A H None s HI t c Hc) as Hok.
  destruct (proto c) as [[]|] eqn:Hp; try done. intros [= <-]. unfold phase in Hok. rewrite Hp in Hok. apply Hok.
Qed.

Lemma on_event_owned `{SL : !ServerLaws} `{WL : !WsLaws} A c ev s :
  owned A None s → tasks s !! c = None → (∀ t, t ∈ accepted ev → t ∉ A) → owned (accepted ev ++ A) None (on_event config me c ev s).
Proof.
  intros HI Hc Hacc. assert (Hnone : ∀ A' s', owned A' None s' → owned A' None (return_requests c [] s')) by (intros A' s' HI'; by apply owned_return).
  assert (Hmono : owned (accepted ev ++ A) None s) by (eapply owned_mono; [|done]; set_solver).
  destruct ev as [id listen from|id [listen|] from|t bytes|t|t reason|t|t]; cbn [on_event accepted app] in *; try by apply Hnone.
  - destruct (listeners _ !! listen) as [l|]; [|by apply Hnone].
    pose proof (insert_connection_owned A id l from false s HI ltac:(apply Hacc; set_solver)) as Hi.
    destruct (insert_connection id l from false (world s)) as [w [e|]]; cbn [fst] in Hi; [by apply owned_return|].
    apply (owned_suspend _ None); try done; [|by intros i ?%elem_of_nil].
    exact (owned_calm _ None _ _ Hi (calm_emit (WsSocket.Resume id) w)).
  - destruct (listeners _ !! listen) as [l|]; [|by apply Hnone].
    pose proof (insert_connection_owned A id l from true s HI ltac:(apply Hacc; set_solver)) as Hi.
    destruct (insert_connection id l from true (world s)) as [w [e|]]; cbn [fst] in Hi; [by apply owned_return|by apply Hnone].
  - destruct (upgraded t (world s)) as [id|] eqn:Hu.
    + apply (upgraded_some A s t id HI) in Hu as Hso. apply (sock_out_owned A c ForData); try done; [by apply on_data_fine|by intros i ?%elem_of_nil].
    + pose proof (data_spec t bytes (world s)) as [Hm Hd]. destruct (data config t bytes (world s)) as [w [[qs p]|e]]; cbn [fst snd] in Hm, Hd.
      * destruct (new_found A t s w qs HI Hm Hd) as [HI1 Hl]. destruct p; [|by apply return_requests_owned].
        apply (owned_suspend A (found qs)); try done; [by intros i ?%elem_of_nil|by intros ? [= <-]].
      * apply owned_return, (owned_keep A t); [done|done|]. intros c' Hc'. congruence.
  - apply Hnone. destruct (closed_spec t None (world s)) as [Hm Hk]; [intros id; by apply (upgraded_some A s t id HI)|].
    apply (owned_keep A t s (closed t None (world s)) HI Hm). intros c' Hc'. destruct (Hk c' Hc') as (c0 & ? & ?). exists c0. split; [done|by left].
  - apply Hnone. destruct (closed_spec t (Some reason) (world s)) as [Hm Hk]; [intros id; by apply (upgraded_some A s t id HI)|].
    apply (owned_keep A t s (closed t (Some reason) (world s)) HI Hm). intros c' Hc'. destruct (Hk c' Hc') as (c0 & ? & ?). exists c0. split; [done|by left].
Qed.

(** Suspending a call that refers to nothing. *)
Lemma suspend_plain A hand s c x :
  owned A hand s → tasks s !! c = None → task_holds x = hand → borrowed x = None → task_socks x = [] → (∀ qs, x ≠ TPause qs) →
  owned A None (suspend c x s).
Proof.
  intros HI Hc Hh Hb Hs Hq. apply (owned_suspend A hand); try done; [by rewrite Hb|rewrite Hs; by intros i ?%elem_of_nil|].
  intros qs ->. by destruct (Hq qs).
Qed.

(** The hand gives up: the operation failed, the connection is aborted. *)
Lemma owned_fail A t k s w : owned A (Some (t, k)) s → moves t (world s) w → owned A None (on_world (λ _, abort t w) s).
Proof.
  intros HI Hm. apply (owned_finish A t k s (abort t w) HI).
  - eapply moves_trans; [exact Hm|apply calm_moves, calm_abort].
  - intros c. by rewrite abort_gone.
Qed.

Lemma respond_owned A c t head headers spec s :
  owned A (Some (t, HRequest)) s → tasks s !! c = None →
  owned A None (match respond config t head headers spec (world s) with
                | (w, inr e) => return_ c (RetOutgoing (inr e)) (on_world (λ _, abort t w) s)
                | (w, inl (has_body, must_close)) => suspend c (TRespond t has_body must_close) (on_world (λ _, w) s)
                end).
Proof.
  intros HI Hc. pose proof (respond_spec t head headers spec (world s)) as [Hm Hp].
  destruct (respond config t head headers spec (world s)) as [w [[hb mc]|e]]; cbn [fst snd] in Hm, Hp.
  - apply (suspend_plain A (Some (t, if hb then HBody else HDone))); try done; [|by destruct hb].
    apply (owned_shift A t HRequest _ s w HI Hm). intros c' Hc'. rewrite (Hp c' Hc'). by destruct hb.
  - apply owned_return. by apply (owned_fail A t HRequest).
Qed.

Lemma body_fits so ph : fits HBody so ph → ph = PBody ∨ ph = PLost.
Proof. destruct ph; cbn; intros; try done; auto. by destruct H. Qed.

Lemma write_owned A c n t chunk s :
  owned A (Some (t, HBody)) s → tasks s !! c = None → vacant s n →
  owned A None (match write_chunk config t chunk (world s) with
                | (w, inr e) => return_ c (RetUnit (Some e)) (put_obj n (OOutgoing (Some t)) (on_world (λ _, w) s))
                | (w, inl false) => return_ c (RetUnit None) (put_obj n (OOutgoing (Some t)) (on_world (λ _, w) s))
                | (w, inl true) => suspend c (TWrite n t) (on_world (λ _, w) s)
                end).
Proof.
  intros HI Hc Hv. destruct (write_chunk_spec t chunk (world s)) as [Hm Hp].
  { intros c' Hc'. eapply body_fits. by apply (hand_fits A t HBody s). }
  destruct (write_chunk config t chunk (world s)) as [w r]. cbn [fst] in Hm, Hp.
  assert (HI1 : owned A (Some (t, HBody)) (on_world (λ _, w) s)).
  { apply (owned_shift A t HBody HBody s w HI Hm). intros c' Hc'. by destruct (Hp c' Hc') as [-> | ->]. }
  assert (Hput : owned A None (put_obj n (OOutgoing (Some t)) (on_world (λ _, w) s))) by (by apply owned_put_obj).
  destruct r as [[]|e]; [|by apply owned_return..]. apply (owned_suspend A (Some (t, HBody))); try done; [by intros m [= <-]|by intros i ?%elem_of_nil].
Qed.

Lemma finish_owned A c t s :
  owned A (Some (t, HBody)) s → tasks s !! c = None →
  owned A None (match finish t (world s) with
                | (w, inr e) => return_ c (RetUnit (Some e)) (on_world (λ _, abort t w) s)
                | (w, inl must_close) => suspend c (TFinish t must_close) (on_world (λ _, w) s)
                end).
Proof.
  intros HI Hc. pose proof (finish_spec t (world s)) as [Hm Hp]. destruct (finish t (world s)) as [w [mc|e]]; cbn [fst snd] in Hm, Hp.
  - apply (suspend_plain A (Some (t, HDone))); try done. apply (owned_shift A t HBody _ s w HI Hm). intros c' Hc'. by rewrite (Hp c' Hc').
  - apply owned_return. by apply (owned_fail A t HBody).
Qed.

Lemma upgrade_owned A c q o s :
  owned A (Some (q_transport q, HRequest)) s → tasks s !! c = None → owned A None (upgrade config me c q o s).
Proof.
  intros HI Hc. unfold upgrade. set (t := q_transport q) in *. destruct (WsSocket.upgrade_validate o).
  { apply owned_return. unfold drop_request. fold t. refine (owned_abort A t HRequest (on_world (drop_incoming t true) s) _).
    apply (owned_calm A _ s); [done|apply calm_drop_incoming]. }
  set (s1 := on_world (drop_incoming t true) s).
  assert (HI1 : owned A (Some (t, HRequest)) s1) by (apply (owned_calm A _ s); [done|apply calm_drop_incoming]).
  assert (Href : ∀ e s', owned A (Some (t, HRequest)) s' → owned A None (return_ c (RetSocket (inr e)) (on_world (abort t) s')))
    by (intros e s' HI'; apply owned_return; by apply (owned_abort A t HRequest)).
  destruct (is_some_and _ _); [by apply Href|]. destruct (create_response (q_head q)) as [[head headers]|e]; [|by apply Href].
  destruct (match WsSocket.u_protocol o with Some _ => _ | None => _ end) as [hs|]; [|by apply Href].
  pose proof (upgrade_spec t head hs o (world s1)) as [Hm Hp].
  destruct (upgrade_connection config me t head hs o (world s1)) as [w [id|e]]; cbn [fst snd] in Hm, Hp.
  - destruct Hp as [Hp Hso]. apply (owned_suspend A (Some (t, HWs))); try done.
    + apply (owned_shift A t HRequest _ s1 w HI1 Hm). intros c' Hc'. rewrite (Hp c' Hc'). done.
    + intros i Hi. by apply list_elem_of_singleton in Hi as ->.
  - apply owned_return. exact (owned_fail A t HRequest s1 w HI1 Hm).
Qed.

Definition call_accepts (x : Call) : list TransportId := match x with CEvent ev => accepted ev | _ => [] end.

Lemma lend_owned A s id : owned A None s → owned A None (on_world (WsSocket.set_handles (delete id (handles (world s)))) s).
Proof.
  intros [H HI]. destruct (ow_side A H None s HI) as [S1 S2 S3 S4]. exists H. split; try apply HI; cbn; [by split|].
  intros i b [_ Hb]%lookup_delete_Some. by eapply (ow_handle A H None s HI).
Qed.

Lemma call_owned `{SL : !ServerLaws} `{WL : !WsLaws} A c x s s' :
  owned A None s → tasks s !! c = None → (∀ t, t ∈ call_accepts x → t ∉ A) → call config me c x s = Some s' →
  owned (call_accepts x ++ A) None s'.
Proof.
  intros HI Hc Hacc. destruct x as [tls|id|ev|n|n|n limit|n head headers spec|n chunk|n|n o|x]; cbn [call call_accepts app] in *.
  - intros [= <-]. by apply (suspend_plain A None).
  - intros [= <-]. destruct (listening id (world s)); [by apply (suspend_plain A None)|by apply owned_return].
  - intros [= <-]. by apply on_event_owned.
  - by apply start_read_owned.
  - by apply start_read_owned.
  - by apply start_read_owned.
  - destruct (take_obj n s) as [[o s1]|] eqn:Ho; [|done]. destruct (owned_take_obj A s n o s1 HI Ho) as (HI1 & Hv & Hw & Ht).
    destruct o as [| |t|]; try done. intros [= <-]. apply respond_owned; [done|by rewrite Ht].
  - destruct (take_obj n s) as [[o s1]|] eqn:Ho; [|done]. destruct (owned_take_obj A s n o s1 HI Ho) as (HI1 & Hv & Hw & Ht).
    destruct o as [| | |[t|]]; try done; intros [= <-]; [apply write_owned; [done|by rewrite Ht|done]|].
    apply owned_return. by apply owned_put_obj.
  - destruct (take_obj n s) as [[o s1]|] eqn:Ho; [|done]. destruct (owned_take_obj A s n o s1 HI Ho) as (HI1 & Hv & Hw & Ht).
    destruct o as [| | |[t|]]; try done; intros [= <-]; [apply finish_owned; [done|by rewrite Ht]|by apply owned_return].
  - destruct (take_obj n s) as [[o' s1]|] eqn:Ho; [|done]. destruct (owned_take_obj A s n o' s1 HI Ho) as (HI1 & Hv & Hw & Ht).
    destruct o' as [q| | |]; try done. intros [= <-]. apply upgrade_owned; [done|by rewrite Ht].
  - destruct (WsSocket.borrows x) as [id|] eqn:Hb.
    + destruct (handles (world s) !! id) as [a|] eqn:Ha; [|done]. cbn [mbind option_bind]. intros [= <-].
      pose proof (lend_owned A s id HI) as HI1. assert (Hid : is_Some (sockets (world s) !! id)).
      { destruct HI as [H HI]. by eapply (ow_handle A H None s HI). }
      assert (Hx : WsSocket.call_id x = id) by (destruct x; cbn in *; congruence).
      set (s1 := on_world (WsSocket.set_handles (delete id (handles (world s)))) s) in *.
      refine (sock_out_owned A c (ForCall x (Some a)) _ s1 HI1 Hc _ _).
      * apply ws_call_fine. by rewrite Hx.
      * intros i. cbn. rewrite Hb. cbn. intros ->%list_elem_of_singleton. done.
    + case_decide as Hs; [|done]. intros [= <-]. apply (sock_out_owned A c (ForCall x None)); try done; [by apply ws_call_fine|].
      intros i. cbn. by intros ?%elem_of_nil.
Qed.

(** ** Suspended calls *)

(** The 100 of a reader has been sent, and the connection is idle again. *)
Definition late_continue (ev : Event) (s : Sys) : bool :=
  match ev with
  | EResume c (ODone (RDone None)) =>
      match tasks s !! c with
      | Some (TContinue r) =>
          match conn (rd_transport r) (world s) with
          | Some x => match proto x with Some (RecvRequest _) => true | _ => false end
          | None => false
          end
      | _ => false
      end
  | _ => false
  end.

Lemma continued_spec `{SL : !ServerLaws} t w :
  all_phase t w (λ ph, ∀ g, ph ≠ PIdle g) → let r := continued config t w in moves t w r.1 ∧ unseen t w r.1.
Proof.
  intros Hid. unfold continued. pose proof (process_spec t w) as [Hm Hp]. destruct (process config t w) as [w1 [qs|e]]; cbn [fst snd] in *.
  - destruct Hp as [[-> Hn]|(c & g & q & Hc & Hg & _)]; [|by destruct (Hid c Hc g)]. split; [exact Hm|].
    intros c' Hc'. destruct (Hn c' Hc') as (c & ? & ?). exists c. split; [done|by left].
  - split; [done|]. intros c' Hc'. destruct (Hp c' Hc') as (c & Hc & Hl & [[g Hg]|Hr]); [by destruct (Hid c Hc g)|].
    exists c. split; [done|]. right. by rewrite Hr.
Qed.

Lemma read_on_good A c s t : good_again A c t (read_fuel t s) (read_on config c s).
Proof. intros r s' Ht Hr Hn HI. unfold read_on. rewrite Ht. by apply (read_owned A c t). Qed.

Lemma read_fuel_gt t s : (chunk_count t (world s) < read_fuel t s)%nat.
Proof. unfold read_fuel, chunk_count. destruct (conn t (world s)); lia. Qed.

Lemma resume_owned `{SL : !ServerLaws} `{WL : !WsLaws} A c x o s s' :
  owned A (task_holds x) s → tasks s !! c = None → (∀ n, borrowed x = Some n → vacant s n) →
  (∀ i, i ∈ task_socks x → is_Some (sockets (world s) !! i)) → (∀ qs, x = TPause qs → (length qs ≤ 1)%nat) →
  (∀ r, x = TContinue r → o = ODone (RDone None) → all_phase (rd_transport r) (world s) (λ ph, ∀ g, ph ≠ PIdle g)) →
  resume config me c x o s = Some s' → owned A None s'.
Proof.
  intros HI Hc Hb Hso Hq Hlate Hs.
  assert (Hrd : ∀ r, borrowed x = match rd_mode r with MNext => Some (rd_obj r) | _ => None end → reader_ok c r s).
  { intros r E. split; [done|]. intros Em. apply Hb. by rewrite E, Em. }
  destruct x as [tls|t id| |t|qs|r|r n a rm|r n|t hb mc|n t|t mc|t id|k st]; destruct o as [r0|[r0|]]; cbn [resume task_holds] in *; try done;
    try (by destruct hb).
  - destruct r0 as [t|e]; injection Hs as <-; [|by apply owned_return].
    apply (suspend_plain A None); try done. apply (owned_keep A t s); [done| |].
    + split; [by left|done|done|eauto|done].
    + intros c' Hc'. exists c'. split; [done|by left].
  - unfold bound in Hs. destruct r0 as [e|]; injection Hs as <-; apply owned_return.
    + apply (owned_keep A t s); [done|by split; [left|..]; eauto|]. intros c' Hc'. exists c'. split; [done|by left].
    + by destruct s.
  - injection Hs as <-. by apply owned_return.
  - destruct r0 as [e|]; injection Hs as <-; [|by apply owned_return]. apply owned_return.
    apply (owned_calm A None s (remove_connection t (world s))); [done|apply calm_remove].
  - specialize (Hq qs eq_refl). destruct r0 as [e|]; injection Hs as <-; [|by apply return_requests_owned; [|destruct qs as [|? []]]].
    apply owned_return. destruct qs as [|q [|]]; [by destruct s| |cbn in Hq; lia]. cbn.
    refine (owned_abort A (q_transport q) HRequest (on_world (drop_incoming (q_transport q) true) s) _).
    apply (owned_calm A _ s); [done|apply calm_drop_incoming].
  - specialize (Hrd r eq_refl). destruct r0 as [e|].
    + injection Hs as <-. eapply answered_owned; [apply read_on_good|done|done|by intros [? ?]].
    + pose proof (continued_spec (rd_transport r) (world s) (Hlate r eq_refl eq_refl)) as [Hm Hu].
      destruct (continued config (rd_transport r) (world s)) as [w e]. cbn [fst] in Hm, Hu. injection Hs as <-.
      assert (HI1 : owned A None (on_world (λ _, w) s)) by (by apply (owned_keep A (rd_transport r))). destruct e as [e|].
      * eapply answered_owned; [apply read_on_good|done|done|by intros [? ?]].
      * eapply read_turn_owned; [apply read_on_good|done|done|]. apply Nat.lt_le_incl, read_fuel_gt.
  - specialize (Hrd r eq_refl). destruct r0 as [e|]; injection Hs as <-.
    + eapply answered_owned; [apply read_on_good|done|done|by intros [? ?]].
    + eapply turn_end_owned; [apply read_on_good|done|done|]. intros _. apply read_fuel_gt.
  - specialize (Hrd r eq_refl). injection Hs as <-. eapply read_turn_owned; [apply read_on_good|done|done|]. apply Nat.lt_le_incl, read_fuel_gt.
  - destruct hb, r0 as [e|]; injection Hs as <-; apply owned_return; [by eapply owned_abort| |by eapply owned_abort|].
    + exact (owned_give A s (OOutgoing (Some t)) HI).
    + refine (owned_give A (on_world (finish_response t mc) s) (OOutgoing None) _). destruct (finish_response_spec t mc (world s)) as [Hm Hp].
      apply (owned_finish A t HDone s (finish_response t mc (world s)) HI Hm). intros c' Hc'. by destruct (Hp c' Hc') as (g & -> & ?).
  - injection Hs as <-. apply owned_return. apply (owned_put_obj A s n (OOutgoing (Some t))); [done|by apply Hb].
  - destruct r0 as [e|]; injection Hs as <-; apply owned_return; [by eapply owned_abort|].
    destruct (finish_response_spec t mc (world s)) as [Hm Hp].
    apply (owned_finish A t HDone s (finish_response t mc (world s)) HI Hm). intros c' Hc'. by destruct (Hp c' Hc') as (g & -> & ?).
  - assert (Hid : is_Some (sockets (world s) !! id)) by (apply (Hso id); set_solver). destruct r0 as [e|]; injection Hs as <-.
    + apply owned_return. refine (owned_abort A t HWs (on_world (λ w, remove_connection t (WsSocket.abort id w)) s) _).
      apply (owned_calm A _ s); [done|]. eapply srv_calm_trans; [by apply ws_abort_calm|apply calm_remove].
    + apply (sock_out_owned A c (ForUpgrade t id)); try done. by apply on_data_fine.
  - destruct (WsSocket.sock_resume c st (RDone r0) (world s)) as [y|] eqn:Hy; [|done]. injection Hs as <-.
    apply (sock_out_owned A c k); try done.
    + eapply sock_resume_fine; [|exact Hy]. intros i Hi. apply Hso. cbn. rewrite Hi. set_solver.
    + intros i Hi. apply Hso. cbn in *. set_solver.
  - destruct (WsSocket.sock_resume c st RAgain (world s)) as [y|] eqn:Hy; [|done]. injection Hs as <-.
    apply (sock_out_owned A c k); try done.
    + eapply sock_resume_fine; [|exact Hy]. intros i Hi. apply Hso. cbn. rewrite Hi. set_solver.
    + intros i Hi. apply Hso. cbn in *. set_solver.
Qed.

(** ** Every step *)

Definition event_accepts (ev : Event) : list TransportId := match ev with ECall _ x => call_accepts x | _ => [] end.

Lemma timer_owned A k t g s :
  owned A None s → timers (host (world s)) !! k = Some (t, g) →
  owned A None (on_world (λ w, header_timeout t g (WsSocket.on_host (λ st, set_timers (delete k (timers st)) st) w)) s).
Proof.
  intros [H HI] Hk. set (w0 := WsSocket.on_host (λ st, set_timers (delete k (timers st)) st) (world s)).
  change (owned A None (on_world (λ _, header_timeout t g w0) s)). destruct (ow_side A H None s HI) as [S1 S2 S3 S4].
  assert (Hin : ∀ x, x ∈ timers (host (world s)) → x = (t, g) ∨ x ∈ timers (host w0)).
  { intros x Hx. cbn. rewrite <- (take_drop_middle _ _ _ Hk) in Hx. rewrite delete_take_drop. set_solver. }
  assert (Hcalm : calm w0 (header_timeout t g w0)).
  { unfold header_timeout. destruct (conn t w0) as [c|]; [|apply srv_calm_refl]. destruct (proto c) as [[]|]; try apply srv_calm_refl.
    case_decide; [|apply srv_calm_refl]. eapply srv_calm_trans; [apply calm_emit|apply calm_remove]. }
  assert (Hgone : ∀ c, conn t (header_timeout t g w0) = Some c → phase c ≠ PIdle g).
  { intros c Hc Hph. destruct (ca_conn _ _ Hcalm t) as [E|E]; [|congruence]. rewrite E in Hc. unfold phase in Hph.
    unfold header_timeout in E. rewrite Hc in E. destruct (proto c) as [[]|]; try done. injection Hph as Hph.
    rewrite decide_True in E by done. change (conn t (remove_connection t (shutdown t w0)) = Some c) in E. rewrite conn_remove, decide_True in E by done. done. }
  exists H. split; cbn [world on_world].
  - rewrite (ca_stuck _ _ Hcalm). apply HI.
  - apply (ow_repr A H None s HI).
  - intros u c Hc. destruct (ca_conn _ _ Hcalm u) as [E|E]; [|congruence].
    pose proof (ow_conn A H None s HI u c ltac:(rewrite E in Hc; exact Hc)) as Hok.
    rewrite (ca_timers _ _ Hcalm). destruct (phase c) eqn:Hph; cbn in *; try done.
    + destruct Hok as [Hn Ht]. split; [done|]. destruct (Hin _ Ht) as [[= -> ->]|]; [|done]. by destruct (Hgone c Hc).
    + split; [by apply (ca_sockets _ _ Hcalm), Hok|apply Hok].
  - intros u [Hu|[c Hc]]; apply (ow_known A H None s HI); [by left|right]. destruct (ca_conn _ _ Hcalm u) as [E|E]; [|congruence].
    rewrite E in Hc. by exists c.
  - split; cbn; try done. intros c x i Hc Hi. apply (ca_sockets _ _ Hcalm). by eapply S4.
  - intros i a. rewrite (ca_handles _ _ Hcalm). intros Ha. apply (ca_sockets _ _ Hcalm). by eapply (ow_handle A H None s HI).
Qed.

Lemma drop_owned A o s : owned A (obj_holds o) s → owned A None (on_world (drop_obj o) s).
Proof.
  intros HI. destruct o as [q|t a|t|[t|]]; cbn [obj_holds drop_obj] in *.
  - refine (owned_abort A (q_transport q) HRequest (on_world (drop_incoming (q_transport q) true) s) _).
    apply (owned_calm A _ s); [done|apply calm_drop_incoming].
  - apply (owned_calm A None s); [done|apply calm_drop_incoming].
  - by apply (owned_abort A t HRequest).
  - by apply (owned_abort A t HBody).
  - by destruct s.
Qed.

Lemma split_owned A n q s : owned A (Some (q_transport q, HRequest)) s → vacant s n →
  owned A None (fst (give (OResponder (q_transport q)) (put_obj n (OIncoming (q_transport q) true) s))).
Proof.
  intros HI (Hn & Hlt & Hu). pose proof (owned_give A s (OResponder (q_transport q)) HI) as HI1.
  pose proof (owned_put_obj A _ n (OIncoming (q_transport q) true) HI1) as HI2. unfold put_obj, set_objects, give in *. cbn in *.
  rewrite insert_insert_ne by lia. apply HI2. split_and!; cbn; [by rewrite lookup_insert_ne by lia|lia|done].
Qed.

Lemma step_owned `{SL : !ServerLaws} `{WL : !WsLaws} A ev s s' :
  owned A None s → late_continue ev s = false → (∀ t, t ∈ event_accepts ev → t ∉ A) → step config me ev s = Some s' →
  owned (event_accepts ev ++ A) None s'.
Proof.
  intros HI Hl Hacc Hs. destruct ev as [c x|c o|n|n|id|k|k c|n|u]; cbn [step event_accepts app] in *.
  - case_decide as Hc; [|done]. by apply (call_owned A c x s).
  - destruct (tasks s !! c) as [x|] eqn:Hc; [|done]. cbn [mbind option_bind] in Hs.
    destruct (owned_take_task A s c x HI Hc) as (HI1 & Hn & Hb & Hso & Hq).
    refine (resume_owned A c x o _ s' HI1 Hn Hb Hso Hq _ Hs). intros r -> -> c' Hc' g Hg. unfold late_continue in Hl. rewrite Hc in Hl.
    change (conn (rd_transport r) (world s) = Some c') in Hc'. rewrite Hc' in Hl. unfold phase in Hg. by destruct (proto c') as [[]|].
  - destruct (take_obj n s) as [[o s1]|] eqn:Ho; [|done]. destruct (owned_take_obj A s n o s1 HI Ho) as (HI1 & Hv & _).
    destruct o as [q| | |]; try done. injection Hs as <-. by apply split_owned.
  - destruct (take_obj n s) as [[o s1]|] eqn:Ho; [|done]. destruct (owned_take_obj A s n o s1 HI Ho) as (HI1 & _).
    injection Hs as <-. by apply drop_owned.
  - injection Hs as <-. unfold WsSocket.drop_handle. cbn. destruct (handles (world s) !! id) as [a|] eqn:Ha; [|unfold on_world; rewrite Ha; by destruct s].
    pose proof (lend_owned A s id HI) as HI1. unfold on_world in *. rewrite Ha. destruct a; [|done].
    refine (owned_calm A None _ _ HI1 (ws_abort_calm id _ _)). cbn. destruct HI as [H HI]. by eapply (ow_handle A H None s HI).
  - destruct (timers _ !! k) as [[t g]|] eqn:Hk; [|done]. injection Hs as <-. by apply timer_owned.
  - destruct (posted _ !! k) as [t|]; [|done]. cbn [mbind option_bind] in Hs. case_decide as Hc; [|done].
    set (s1 := on_world (WsSocket.on_host (λ st, set_posted (delete k (posted st)) st)) s) in Hs.
    replace s' with (on_event config me c (Data t []) s1) by congruence.
    refine (on_event_owned A c (Data t []) s1 _ Hc _); [|by intros ? ?%elem_of_nil].
    apply (owned_calm A None s (WsSocket.on_host (λ st, set_posted (delete k (posted st)) st) (world s))); [done|]. by split; auto.
  - injection Hs as <-. apply (owned_calm A None s (WsSocket.set_now (Z.max n (now (world s))) (world s))); [done|]. by split; auto.
  - injection Hs as <-. apply (owned_calm A None s (WsSocket.set_up u (world s))); [done|]. by split; auto.
Qed.

Fixpoint no_late (evs : list Event) (s : Sys) : bool :=
  match evs with
  | [] => true
  | ev :: evs => negb (late_continue ev s) && match step config me ev s with Some s' => no_late evs s' | None => true end
  end.

Lemma run_owned `{SL : !ServerLaws} `{WL : !WsLaws} A evs s s' :
  owned A None s → NoDup (evs ≫= event_accepts) → (∀ t, t ∈ evs ≫= event_accepts → t ∉ A) → no_late evs s = true →
  run config me evs s = Some s' → ∃ A', owned A' None s'.
Proof.
  revert A s. induction evs as [|ev evs IH]; intros A s HI Hnd Hacc; cbn [no_late run].
  - intros _ [= <-]. eauto.
  - intros [Hl%negb_true_iff Hno]%andb_true_iff. cbn in Hnd, Hacc. apply NoDup_app in Hnd as (_ & Hdis & Hnd).
    destruct (step config me ev s) as [s1|] eqn:Hs; [|done]. cbn. apply (IH (event_accepts ev ++ A)); [|done| |done].
    + apply (step_owned A ev s); [done|done|set_solver|done].
    + intros t Ht. rewrite elem_of_app. intros [Ht'|Ht']; [by eapply Hdis|]. eapply Hacc; [|exact Ht']. set_solver.
Qed.

Lemma owned_start u : owned [] None (sys_new u).
Proof. exists ∅. split; try done; [by intros [n|c|] t k; cbn|by intros t [[? ?]|[? ?]]|]. split; try done. by intros n [? ?]. Qed.

(** Who owns the connection [t] in the phase [ph]. *)
Definition owner_ok (s : Sys) (t : TransportId) (ph : Phase) : Prop :=
  match ph with
  | PIdle g => (∀ p k, held None s p ≠ Some (t, k)) ∧ (t, g) ∈ timers (host (world s))
  | PRequest => ∃ p, held None s p = Some (t, HRequest)
  | PBody => ∃ p, held None s p = Some (t, HBody)
  | PDone => ∃ p, held None s p = Some (t, HDone)
  | PWs id => is_Some (sockets (world s) !! id)
  | PLost => ∃ p k, held None s p = Some (t, k)
  end.

(** C23 Over any sequence of events with distinct new transports, in which no 100 is sent so
    late that its connection is idle again: the server never panics and its loops end; no
    connection has two owners; one that waits for a request has none and its header timer
    is running; one that has handed out a request, writes a response or completes one is
    owned by exactly the value or suspended call that will do so, or that aborts it when
    dropped.  So requests are handed out one at a time and no connection is forgotten. *)
Theorem connections_owned `{SL : !ServerLaws} `{WL : !WsLaws} u evs s :
  NoDup (evs ≫= event_accepts) → no_late evs (sys_new u) = true → run config me evs (sys_new u) = Some s →
  stuck (world s) = false
  ∧ (∀ t c, conn t (world s) = Some c → owner_ok s t (phase c))
  ∧ ∀ p p' t k k', held None s p = Some (t, k) → held None s p' = Some (t, k') → p = p'.
Proof.
  intros Hnd Hno Hr. destruct (run_owned [] evs _ s (owned_start u) Hnd ltac:(by intros t _ ?%elem_of_nil) Hno Hr) as (A & H & HI).
  pose proof (ow_repr A H None s HI) as Hre. split_and!; [apply HI| |].
  - intros t c Hc. pose proof (ow_conn A H None s HI t c Hc) as Hok. destruct (phase c); cbn in *.
    + destruct Hok as [Hn Ht]. split; [|done]. intros p k Hp%Hre. congruence.
    + destruct Hok as [p Hp]. exists p. by apply Hre.
    + destruct Hok as [p Hp]. exists p. by apply Hre.
    + destruct Hok as [p Hp]. exists p. by apply Hre.
    + apply Hok.
    + destruct Hok as (p & k & Hp & _). exists p, k. by apply Hre.
  - intros p p' t k k' H1%Hre H2%Hre. congruence.
Qed.

(** ** No back pressure while a response is under way *)

Definition answering (c : Connection) : bool :=
  match proto c with Some (Provide _ | SendBody _ | Responding) => body_ended c | _ => false end.

Lemma data_answering t bytes w c :
  conn t w = Some c → answering c = true →
  conn t (data config t bytes w).1 = Some (set_input (input c ++ bytes) c) ∧ effects (data config t bytes w).1 = effects w.
Proof.
  intros Hc Ha. unfold data. rewrite Hc. unfold process. rewrite conn_put, decide_True by done. cbn [input set_input].
  rewrite length_app, Nat.add_comm. cbn [Nat.add process_loop].
  set (c1 := set_input (input c ++ bytes) c).
  assert (Ht : process_turn config t c1 [] = Break c1 []) by (unfold process_turn, answering in *; cbn; by destruct (proto c) as [[]|]).
  rewrite Ht. cbn [fst snd]. rewrite conn_put, decide_True by done.
  assert (He : body_ended c1 = true) by (unfold answering in Ha; cbn; by destruct (proto c) as [[]|]).
  rewrite He. cbn. split; [|done]. unfold c1. fold (put_conn t c1 (put_conn t c1 w)). change (conn t (put_conn t c1 (put_conn t c1 w)) = Some c1).
  by rewrite conn_put, decide_True.
Qed.

(** While a response is awaited or written, all a client sends is kept, however much,
    and the transport is never paused: the high water mark holds for request bodies only. *)
Theorem pipelined_input_unbounded t c w datas :
  conn t w = Some c → answering c = true →
  let w' := foldl (λ w bytes, (data config t bytes w).1) w datas in
  conn t w' = Some (set_input (input c ++ concat datas) c) ∧ effects w' = effects w.
Proof.
  revert c w. induction datas as [|bytes datas IH]; intros c w Hc Ha; cbn [foldl concat].
  - rewrite app_nil_r. by destruct c.
  - destruct (data_answering t bytes w c Hc Ha) as [H1 H2]. destruct (IH _ _ H1 Ha) as [H3 H4]. cbn in *.
    rewrite H3, H4, H2. by rewrite <- app_assoc.
Qed.
End books.

(** ** An engine for a small protocol

    A request is two bytes, the kind (1 without a body, 2 with one, 3 with one after a 100)
    and the length of the body; a response is one byte, and its body as it is. *)
Section toy.

#[global] Instance toy_server : ServerEngine := {|
  ReqHead := Z * Z; RespHead := Z;
  SRecvRequest := option (Z * Z); SSend100 := Z; SRecvBody := Z; SProvide := unit; SSendResponse := Z * bool * bool; SSendBody := unit;
  req_headers _ := [];
  reply_new := inl None;
  try_request c input :=
    match input with
    | k :: n :: _ => if k =? 0 then (c, inr "bad request"%string) else (Some (k, n), inl (2, Some (k, n)))
    | _ => (c, inl (0, None))
    end;
  recv_proceed c :=
    match c with
    | None => None
    | Some (k, n) => Some (if k =? 3 then inl n else if (k =? 2) && (0 <? n) then inr (inl n) else inr (inr tt))
    end;
  accept100 n _ := inl ([100], n);
  reject100 _ := tt;
  s_body_read n input cap :=
    let m := Z.max 0 (Z.min (Z.min n cap) (Z.of_nat (length input))) in (n - m, inl (m, take (Z.to_nat m) input));
  is_ended n := n <=? 0;
  s_body_proceed _ := inl tt;
  provide _ head headers := inl (head, match headers with [] => false | _ => true end, false);
  s_finished c := c.2;
  s_write c _ := ((c.1, true), inl [c.1.1]);
  s_proceed c := if c.1.2 : bool then inl tt else inr false;
  s_body_write c chunk _ := (c, inl (Z.of_nat (length chunk), chunk));
  s_body_finished _ := true;
  s_must_close _ := false;
  create_response _ := inl (101, []);
|}.

#[global] Instance toy_server_laws : ServerLaws (H := toy_server).
Proof.
  split; cbn.
  - intros c input c' used r. destruct input as [|k [|n input]]; [by intros [= _ <- _]..|]. destruct (k =? 0); [done|].
    intros [= _ <- _]. cbn. lia.
  - intros c input c' used r. destruct input as [|k [|n input]]; [done..|]. destruct (k =? 0); [done|]. intros [= <- _ _]. eauto.
  - intros c input cap c' used bs [= _ <- <-]. split; [lia|]. by intros ->.
Qed.

(** The high water mark is 8 bytes, the low one 4. *)
Definition small : HttpServerConfig := mkServerConfig 30000 30000 8 4 64 64.

Definition site : TransportId := Plain 1.
Definition client : TransportId := Plain 2.

Definition done_ : Outcome := ODone (RDone None).

(** A listener, a connection. *)
Definition opening : list Event :=
  [ ECall 1 (CBind false); EResume 1 (OListen (inl site)); EResume 1 done_;
    ECall 2 (CEvent (Accept client site "peer"%string)); EResume 2 done_ ].

Definition got (c : Z) (bytes : list Z) : Event := ECall c (CEvent (Data client bytes)).

Definition served (evs : list Event) : option Sys := run small 9 (opening ++ evs) (sys_new WsBooks.all_up).

(** Two requests on one connection; the body of the second is being read. *)
Definition two_requests : list Event :=
  [ got 3 [2; 1; 7]; ESplit 0; ECall 4 (CRespond 1 200 [] Empty); EResume 4 done_;
    got 5 [2; 2; 8]; ESplit 3 ].

Definition two_run : option Sys := served two_requests.

Lemma two_view : ∃ s, two_run = Some s ∧ bool_decide (is_Some (conn client (world s))) = true.
Proof. apply some_view. by vm_compute. Qed.

Lemma connections_owned_witness :
  ∃ s, two_run = Some s
  ∧ stuck (world s) = false
  ∧ (∀ t c, conn t (world s) = Some c → owner_ok s t (phase c))
  ∧ ∀ p p' t k k', held None s p = Some (t, k) → held None s p' = Some (t, k') → p = p'.
Proof.
  destruct two_view as (s & Hs & _). exists s. split; [exact Hs|].
  apply (connections_owned small 9 WsBooks.all_up (opening ++ two_requests) s); [|reflexivity|exact Hs].
  apply (bool_decide_eq_true_1 _). reflexivity.
Defined.

Definition asked : Connection := mkConnection 1 "peer" false (Some (Provide tt)) [] [] true None false None 0 1.

Lemma pipelined_input_unbounded_witness :
  let w := put_conn client asked (world (sys_new WsBooks.all_up)) in
  let w' := foldl (λ w bytes, (data small client bytes w).1) w [repeat 1 10; repeat 2 10] in
  conn client w' = Some (set_input (repeat 1 10 ++ repeat 2 10) asked) ∧ effects w' = [].
Proof.
  intros w. refine (pipelined_input_unbounded small client asked w [repeat 1 10; repeat 2 10] _ _); [|reflexivity].
  unfold w. rewrite conn_put. reflexivity.
Defined.

(** *** A body that outlives its request *)

(** What the call [c] returned. *)
Definition returned (c : Z) (s : Sys) : option Ret := snd <$> list_find (λ r, r.1 = c) (rets s) ≫= λ x, Some x.2.

Definition chunk_of (r : option Ret) : option (option (list Z)) := match r with Some (RetChunk (inl x)) => Some x | _ => None end.

(** The rest of the second body arrives; the first request's reader takes it. *)
Definition crossed : list Event := two_requests ++ [ got 6 [9]; ECall 7 (CNextChunk 0); ECall 8 (CNextChunk 0); ECall 9 (CNextChunk 3) ].

(** The first request's reader is dropped. *)
Definition crossed_drop : list Event := two_requests ++ [ EDrop 0 ].

Definition crossed_check (s : Sys) : bool :=
  bool_decide (chunk_of (returned 7 s) = Some (Some [8]) ∧ chunk_of (returned 8 s) = Some (Some [9]) ∧ chunk_of (returned 9 s) = Some None).

Definition drop_check (s : Sys) : bool :=
  bool_decide (conn client (world s) = None) && match last (effects (world s)) with Some (WsSocket.Shutdown t) => bool_decide (t = client) | _ => false end.

(** The handle of a body names the connection, not the request.  A reader kept from a
    request that has been answered takes the body of the next request on the connection,
    whose own reader finds it empty; and dropping it aborts that next request. *)
Theorem stale_body_crosses_requests :
  (∃ s, served crossed = Some s ∧ chunk_of (returned 7 s) = Some (Some [8]) ∧ chunk_of (returned 8 s) = Some (Some [9])
        ∧ chunk_of (returned 9 s) = Some None)
  ∧ ∃ s, served crossed_drop = Some s ∧ conn client (world s) = None ∧ last (effects (world s)) = Some (WsSocket.Shutdown client).
Proof.
  split.
  - assert (Hv : ∃ s, served crossed = Some s ∧ crossed_check s = true) by (apply some_view; by vm_compute).
    destruct Hv as (s & Hs & Hc%bool_decide_eq_true). exists s. split; [exact Hs|exact Hc].
  - assert (Hv : ∃ s, served crossed_drop = Some s ∧ drop_check s = true) by (apply some_view; by vm_compute).
    destruct Hv as (s & Hs & [H1%bool_decide_eq_true H2]%andb_true_iff). exists s. split_and!; [exact Hs|exact H1|].
    destruct (last (effects (world s))) as [[]|]; try discriminate H2. by apply bool_decide_eq_true in H2 as ->.
Qed.

(** *** A connection that stays paused *)

(** A body over the high water mark is paused; its end was on its way already.  The
    service answers without reading it. *)
Definition unread : list Event :=
  [ got 3 ([2; 12] ++ repeat 5 8); EResume 3 done_; got 4 (repeat 6 4); ESplit 0; EDrop 0;
    ECall 5 (CRespond 1 200 [] Empty); EResume 5 done_ ].

Definition is_flow (e : WsSocket.Eff) : bool := match e with WsSocket.Pause _ | WsSocket.Resume _ => true | _ => false end.

Definition left_paused (s : Sys) : bool :=
  match conn client (world s) with
  | Some c => bool_decide (phase c = PIdle 2 ∧ paused c = true ∧ tasks s = ∅) && bool_decide (input c = [])
  | None => false
  end
  && match last (filter (λ e, is_flow e = true) (effects (world s))) with Some (WsSocket.Pause t) => bool_decide (t = client) | _ => false end.

(** A connection paused for a body whose end had already been read stays paused when the
    response is complete: it is idle, nobody is left who would resume it, the last order
    to its transport is to pause, and the next request cannot arrive. *)
Theorem keep_alive_left_paused :
  ∃ s c, served unread = Some s ∧ conn client (world s) = Some c ∧ phase c = PIdle 2 ∧ paused c = true ∧ tasks s = ∅
    ∧ last (filter (λ e, is_flow e = true) (effects (world s))) = Some (WsSocket.Pause client).
Proof.
  assert (Hv : ∃ s, served unread = Some s ∧ left_paused s = true) by (apply some_view; by vm_compute).
  destruct Hv as (s & Hs & [H1 H2]%andb_true_iff). exists s. destruct (conn client (world s)) as [c|]; [|discriminate H1].
  apply andb_true_iff in H1 as [(Hp & Hpa & Ht)%bool_decide_eq_true _]. exists c. split_and!; [exact Hs|done|done|done|exact Ht|].
  destruct (last _) as [[]|]; try discriminate H2. by apply bool_decide_eq_true in H2 as ->.
Qed.

(** *** A request that is dropped *)

(** The 100 for the first body is still being sent when body, response and the next
    request are through. *)
Definition late : list Event :=
  [ got 3 [3; 1]; ESplit 0; ECall 4 (CNextChunk 0); got 5 [7; 1; 0];
    ECall 6 (CRespond 1 200 [] Empty); EResume 6 done_; EResume 4 done_ ].

Definition late_check (s : Sys) : bool :=
  bool_decide (conn client (world s) = None)
  && match last (effects (world s)) with Some (WsSocket.Shutdown t) => bool_decide (t = client) | _ => false end
  && match returned 6 s, returned 4 s with Some (RetOutgoing (inl _)), Some (RetChunk (inr BodyClosed)) => true | _, _ => false end
  && negb (no_late small 9 (opening ++ late) (sys_new WsBooks.all_up)).

(** When the 100 of a reader is sent so late that its request has been answered and the
    next one has come in, [ensure_continue] takes that next request out of the input and
    drops it, which aborts the connection; the responses were all successful. *)
Theorem late_continue_drops_request :
  ∃ s n, served late = Some s ∧ returned 6 s = Some (RetOutgoing (inl n)) ∧ conn client (world s) = None
    ∧ last (effects (world s)) = Some (WsSocket.Shutdown client).
Proof.
  assert (Hv : ∃ s, served late = Some s ∧ late_check s = true) by (apply some_view; by vm_compute).
  destruct Hv as (s & Hs & Hc). exists s. unfold late_check in Hc. rewrite !andb_true_iff in Hc. destruct Hc as [[[H1%bool_decide_eq_true H2] H3] _].
  destruct (returned 6 s) as [[]|]; try discriminate H3. destruct r as [n|]; [|discriminate H3]. exists n. split_and!; [exact Hs|done|exact H1|].
  destruct (last _) as [[]|]; try discriminate H2. by apply bool_decide_eq_true in H2 as ->.
Qed.
End toy.
End HttpServerBooks.
