(* ===== verification/WsClient.v ===== *)
(** * The WebSocket client

    [WebSocketClient] of [rskynet-http/src/websocket.rs]: it dials, runs the opening
    handshake over the events of the service it lives in, and hands out sockets of
    [WsSocket.v].  The handshake is [ClientHandshake] of [tungstenite]: a class
    [WsHandshake].  At the end of the file: a suspended [connect] is always attended to;
    and a frame that arrives together with the answer to the handshake is left lying. *)
From S2P Require Import Prelude HttpHead HttpClient WsSocket WsBooks.
From Stdlib Require Import Ascii.
From stdpp Require Import strings.
#[local] Open Scope Z_scope.

Module WsClient.
Import HttpHead.
Import HttpClient(TransportId, Plain, OverTls, TransportId_eq_dec, TransportId_countable).
Import WsSocket.

(** The end of a round of the handshake: more input is needed, it failed, or there is a
    socket, with the headers of the response. *)
Inductive HsResult (Hs Sock : Type) : Type :=
  | HsInterrupted (h : Hs)
  | HsFailure (reason : string)
  | HsOk (s : Sock) (headers : HeaderMap).
Arguments HsInterrupted {_ _}.
Arguments HsFailure {_ _}.
Arguments HsOk {_ _}.

Class WsHandshake `{WsEngine} : Type := {
  WsArg : Type;
  WsRequest : Type;
  into_client_request : WsArg → WsRequest + string;
  Hs : Type;
  ws_uri : WsRequest → Uri;
  hs_start : WsRequest → WebSocketConfig → Hs + string;
  (* what is left of the input, what is written, and the result *)
  hs_run : Hs → list Z → list Z * list Z * HsResult Hs WsSock;
}.

(** The first round has nothing to read: it cannot be complete. *)
Class WsHandshakeLaws `{WsHandshake} : Prop := {
  hs_empty h rest out s headers : hs_run h [] ≠ (rest, out, HsOk s headers);
}.

Section client.
Context `{WsHandshake}.
(** [ServerName::try_from]: whether TLS accepts the host. *)
Context (server_name : string → bool).
Context (config : WebSocketClientConfig).

Record PendingHandshake : Type := mkPending {
  handshake : option (Hs * EventIo);
  result : option ((Z * HeaderMap) + HttpError);
  waiter : option Z;
  generation : Z;
}.

Definition set_handshake x (p : PendingHandshake) := mkPending x (result p) (waiter p) (generation p).
Definition set_result x (p : PendingHandshake) := mkPending (handshake p) x (waiter p) (generation p).
Definition set_waiter x (p : PendingHandshake) := mkPending (handshake p) (result p) x (generation p).

Record ClientState : Type := mkClient {
  owner : option Z;
  next_id : Z;
  next_generation : Z;
  pending : gmap TransportId PendingHandshake;
  connected : gmap TransportId Z;
  (* handshake timers under way *)
  timers : list (TransportId * Z);
}.

Definition client_default : ClientState := mkClient None 0 0 ∅ ∅ [].

Definition set_owner x (s : ClientState) := mkClient x (next_id s) (next_generation s) (pending s) (connected s) (timers s).
Definition set_next_id x (s : ClientState) := mkClient (owner s) x (next_generation s) (pending s) (connected s) (timers s).
Definition set_next_generation x (s : ClientState) := mkClient (owner s) (next_id s) x (pending s) (connected s) (timers s).
Definition set_pending x (s : ClientState) := mkClient (owner s) (next_id s) (next_generation s) x (connected s) (timers s).
Definition set_connected x (s : ClientState) := mkClient (owner s) (next_id s) (next_generation s) (pending s) x (timers s).
Definition set_timers x (s : ClientState) := mkClient (owner s) (next_id s) (next_generation s) (pending s) (connected s) x.

(** The cleanup of a socket takes it out of [connected]. *)
#[local] Instance client_host : Host ClientState := λ t s, set_connected (delete t (connected s)) s.

Abbreviation World := (W (St := ClientState)).

Definition put_pending (t : TransportId) (p : PendingHandshake) (w : World) : World :=
  on_host (λ s, set_pending (<[t := p]> (pending s)) s) w.

Definition remove_pending (t : TransportId) (w : World) : World := on_host (λ s, set_pending (delete t (pending s)) s) w.

Definition claim_owner (h : Z) (w : World) : World * option HttpError :=
  match owner (host w) with
  | Some o => if decide (o = h) then (w, None) else (w, Some (InvalidState "not the owner"))
  | None => (on_host (set_owner (Some h)) w, None)
  end.

(** ** Connecting *)

Inductive Ret : Type :=
  | RetConnect (r : (Z * HeaderMap) + HttpError)
  | RetUnit (r : option HttpError)
  | RetWs (r : SockRet).

(** What [connect] dials: the address and whether over TLS. *)
Definition target (u : Uri) : (string * bool) + HttpError :=
  match HttpHead.host u with
  | None => inr (InvalidUri "no host")
  | Some h =>
      match scheme_str u with
      | None => inr (InvalidUri "no scheme")
      | Some scheme =>
          match (if decide (scheme = "ws"%string) then inl (80, false)
                 else if decide (scheme = "wss"%string) then inl (443, true)
                 else inr (UnsupportedScheme scheme)) with
          | inr e => inr e
          | inl (port, tls) =>
              let port := default port (port_u16 u) in
              let address := if contains ":"%char h then "[" +:+ h +:+ "]:" +:+ decimal port else h +:+ ":" +:+ decimal port in
              if (tls : bool) && negb (server_name h) then inr (InvalidUri "server name") else inl (address, tls)
          end
      end
  end.

(** [connect] from the open connection to the await of [send_wait]. *)
Definition dialed (t : TransportId) (r : WsRequest) (w : World) : World * (Z + HttpError) :=
  match hs_start r (wc_websocket config) with
  | inr e => (w, inr (WebSocket e))
  | inl h =>
      match hs_run h [] with
      | (_, _, HsFailure e) => (emit (Shutdown t) w, inr (WebSocket e))
      | (_, _, HsOk _ _) => (panic w, inr Canceled)
      | (rest, out, HsInterrupted h) =>
          let g := Z.max 1 (next_generation (host w) +w 1) in
          let w := on_host (set_next_generation g) w in
          let w := put_pending t (mkPending (Some (h, mkIo rest [])) None None g) w in
          (emit (Send t out) w, inl g)
      end
  end.

(** One poll of the wait for the handshake by the call [c]. *)
Definition wait_poll (c : Z) (t : TransportId) (w : World) : World * option ((Z * HeaderMap) + HttpError) :=
  match pending (host w) !! t with
  | None => (w, Some (inr Canceled))
  | Some p =>
      match result p with
      | Some r => (remove_pending t w, Some r)
      | None => (put_pending t (set_waiter (Some c) p) w, None)
      end
  end.

(** The rest of a suspended call. *)
Inductive SockFor : Type := ForData | ForCall (x : WsCall) (active : option bool).

Inductive Task : Type :=
  | TDial (r : WsRequest)
  | TGreet (t : TransportId) (generation : Z)
  | TWait (t : TransportId)
  | TAnswer
  | TSock (k : SockFor) (s : SockTask).

Record Sys : Type := mkSys { world : World; tasks : gmap Z Task; rets : list (Z * Ret) }.

Definition sys_new (u : TransportId → bool) : Sys := mkSys (mkW client_default ∅ ∅ [] ∅ 0 u false) ∅ [].

Definition on_world (f : World → World) (s : Sys) := mkSys (f (world s)) (tasks s) (rets s).
Definition suspend (c : Z) (t : Task) (s : Sys) : Sys := mkSys (world s) (<[c := t]> (tasks s)) (rets s).
Definition return_ (c : Z) (r : Ret) (s : Sys) : Sys := mkSys (world s) (tasks s) (rets s ++ [(c, r)]).

(** The wait, and the end of [connect]. *)
Definition wait (c : Z) (t : TransportId) (s : Sys) : Sys :=
  match wait_poll c t (world s) with
  | (w, None) => suspend c (TWait t) (on_world (λ _, w) s)
  | (w, Some (inl (id, headers))) => return_ c (RetConnect (inl (id, headers))) (on_world (λ _, new_handle id w) s)
  | (w, Some (inr e)) => return_ c (RetConnect (inr e)) (on_world (λ _, emit (Shutdown t) w) s)
  end.

(** The end of the spawned timer. *)
Definition handshake_timeout (t : TransportId) (g : Z) (w : World) : World :=
  match pending (host w) !! t with
  | None => w
  | Some p =>
      if decide (generation p ≠ g) then w else
      match result p with
      | Some _ => w
      | None =>
          wake (waiter p) (emit (Shutdown t) (put_pending t (set_waiter None (set_result (Some (inr (Timeout "websocket handshake"))) p)) w))
      end
  end.

(** ** Events *)

Definition finish_handshake (t : TransportId) (r : (Z * HeaderMap) + HttpError) (w : World) : World :=
  match pending (host w) !! t with
  | None => w
  | Some p => wake (waiter p) (put_pending t (set_waiter None (set_result (Some r) p)) w)
  end.

(** The socket of a handshake that is through. *)
Definition established (me : Z) (t : TransportId) (sock : WsSock) (io : EventIo) (headers : HeaderMap) (w : World) : World :=
  if contains_key "sec-websocket-extensions" headers then
    finish_handshake t (inr (Protocol "unsupported extension")) w
  else
    let id := Z.max 1 (next_id (host w) +w 1) in
    let w := on_host (set_next_id id) w in
    match from_socket me id t sock io (get "sec-websocket-protocol" headers ≫= to_str)
            (wc_input_high_water config) (wc_input_low_water config) (wc_close_timeout_ms config) w with
    | (w, Some e) => finish_handshake t (inr e) w
    | (w, None) =>
        finish_handshake t (inl (id, headers)) (on_host (λ s, set_connected (<[t := id]> (connected s)) s) w)
    end.

(** [on_data] for a connection that is in its handshake: an error, or whether an answer
    is being sent. *)
Definition handshake_data (me : Z) (t : TransportId) (data : list Z) (w : World) : World * (bool + HttpError) :=
  match pending (host w) !! t with
  | None => (w, inr (InvalidState "no such connection"))
  | Some p =>
      match handshake p with
      | None => (w, inr (InvalidState "handshake lost"))
      | Some (h, io) =>
          let io := push_input data io in
          let w := put_pending t (set_handshake None p) w in
          match hs_run h (io_input io) with
          | (rest, out, HsInterrupted h) =>
              let w := put_pending t (set_handshake (Some (h, mkIo rest [])) p) w in
              let out := io_output io ++ out in
              if decide (out = []) then (w, inl false) else (emit (Send t out) w, inl true)
          | (_, _, HsFailure e) => (finish_handshake t (inr (WebSocket e)) w, inl false)
          | (rest, out, HsOk sock headers) => (established me t sock (mkIo rest (io_output io ++ out)) headers w, inl false)
          end
      end
  end.

Definition on_closed (t : TransportId) (reason : option string) (w : World) : World :=
  let shared := connected (host w) !! t in
  let w := on_host (λ s, set_connected (delete t (connected s)) s) w in
  let '(waker, w) :=
    match pending (host w) !! t with
    | Some p => (waiter p, put_pending t (set_waiter None (set_result (Some (inr (Transport (default "closed"%string reason)))) p)) w)
    | None => (None, w)
    end in
  let w := match shared with Some id => WsSocket.on_closed id reason w | None => w end in
  wake waker w.

Inductive NetEvent : Type :=
  | Data (t : TransportId) (data : list Z)
  | Close (t : TransportId)
  | Error (t : TransportId) (reason : string)
  | OtherEvent.

(** [handles_socket], [handles_tls]. *)
Definition handles_transport (t : TransportId) (w : World) : bool :=
  bool_decide (is_Some (pending (host w) !! t)) || bool_decide (is_Some (connected (host w) !! t)).

Definition sock_done (c : Z) (k : SockFor) (r : SockRet) (s : Sys) : Sys :=
  match k with
  | ForData => return_ c (RetUnit (match r with SockDone e => e | SockMessage _ => None end)) s
  | ForCall x active =>
      let s := match borrows x, active with
               | Some id, Some a => on_world (λ w, set_handles (<[id := active_after x r a]> (handles w)) w) s
               | _, _ => s
               end in
      return_ c (RetWs r) s
  end.

Definition sock_out (c : Z) (k : SockFor) (r : World * (SockTask + SockRet)) (s : Sys) : Sys :=
  let s := on_world (λ _, r.1) s in
  match r.2 with
  | inl t => suspend c (TSock k t) s
  | inr ret => sock_done c k ret s
  end.

Definition on_event (h c : Z) (ev : NetEvent) (s : Sys) : Sys :=
  match claim_owner h (world s) with
  | (w, Some e) => return_ c (RetUnit (Some e)) (on_world (λ _, w) s)
  | (w, None) =>
      let s := on_world (λ _, w) s in
      match ev with
      | Data t data =>
          match connected (host w) !! t with
          | Some id => sock_out c ForData (WsSocket.on_data h id data w) s
          | None =>
              match handshake_data h t data w with
              | (w, inr e) => return_ c (RetUnit (Some e)) (on_world (λ _, w) s)
              | (w, inl true) => suspend c TAnswer (on_world (λ _, w) s)
              | (w, inl false) => return_ c (RetUnit None) (on_world (λ _, w) s)
              end
          end
      | Close t => return_ c (RetUnit None) (on_world (on_closed t None) s)
      | Error t reason => return_ c (RetUnit None) (on_world (on_closed t (Some reason)) s)
      | OtherEvent => return_ c (RetUnit None) s
      end
  end.

(** ** The client as a system *)

Inductive Event : Type :=
  | EConnect (h c : Z) (a : WsArg)
  | EDialed (c : Z) (r : TransportId + HttpError)
  | EEvent (h c : Z) (ev : NetEvent)
  | ECall (h c : Z) (x : WsCall)
  | EResume (c : Z) (r : Resumed)
  | EDrop (id : Z)
  | ETimer (k : nat)
  | ENow (n : Z).

Definition step (ev : Event) (s : Sys) : option Sys :=
  match ev with
  | EConnect h c a =>
      if decide (tasks s !! c = None ∧ c ∉ woken (world s)) then
        Some (match claim_owner h (world s) with
              | (w, Some e) => return_ c (RetConnect (inr e)) (on_world (λ _, w) s)
              | (w, None) =>
                  let s := on_world (λ _, w) s in
                  match into_client_request a with
                  | inr e => return_ c (RetConnect (inr (WebSocket e))) s
                  | inl r =>
                      match target (ws_uri r) with
                      | inr e => return_ c (RetConnect (inr e)) s
                      | inl _ => suspend c (TDial r) s
                      end
                  end
              end)
      else None
  | EDialed c r =>
      match tasks s !! c with
      | Some (TDial req) =>
          let s := mkSys (world s) (delete c (tasks s)) (rets s) in
          Some (match r with
                | inr e => return_ c (RetConnect (inr e)) s
                | inl t =>
                    match dialed t req (world s) with
                    | (w, inr e) => return_ c (RetConnect (inr e)) (on_world (λ _, w) s)
                    | (w, inl g) => suspend c (TGreet t g) (on_world (λ _, w) s)
                    end
                end)
      | _ => None
      end
  | EEvent h c ev => if decide (tasks s !! c = None) then Some (on_event h c ev s) else None
  | ECall h c x =>
      if decide (tasks s !! c = None ∧ c ∉ woken (world s)) then
        match borrows x with
        | Some id =>
            a ← handles (world s) !! id;
            Some (sock_out c (ForCall x (Some a)) (ws_call h c x (set_handles (delete id (handles (world s))) (world s))) s)
        | None => if decide (is_Some (sockets (world s) !! call_id x)) then Some (sock_out c (ForCall x None) (ws_call h c x (world s)) s) else None
        end
      else None
  | EResume c r =>
      x ← tasks s !! c;
      let s := mkSys (world s) (delete c (tasks s)) (rets s) in
      match x, r with
      | TGreet t g, RDone (Some e) => Some (return_ c (RetConnect (inr e)) (on_world (λ w, emit (Shutdown t) (remove_pending t w)) s))
      | TGreet t g, RDone None => Some (wait c t (on_world (on_host (λ st, set_timers (timers st ++ [(t, g)]) st)) s))
      | TWait t, RAgain => Some (wait c t (on_world (unwake c) s))
      | TAnswer, RDone r => Some (return_ c (RetUnit r) s)
      | TSock k t, r => y ← sock_resume c t r (world s); Some (sock_out c k y s)
      | _, _ => None
      end
  | EDrop id => Some (on_world (drop_handle id) s)
  | ETimer k =>
      '(t, g) ← timers (host (world s)) !! k;
      Some (on_world (λ w, handshake_timeout t g (on_host (λ st, set_timers (delete k (timers st)) st) w)) s)
  | ENow n => Some (on_world (λ w, set_now (Z.max n (now w)) w) s)
  end.

Fixpoint run (evs : list Event) (s : Sys) : option Sys :=
  match evs with
  | [] => Some s
  | ev :: evs => s ← step ev s; run evs s
  end.

(** ** What an operation on a socket leaves alone *)

(** The handshakes and their timers, and every wake-up so far. *)
Definition kept (w w' : World) : Prop :=
  pending (host w') = pending (host w) ∧ timers (host w') = timers (host w) ∧ woken w ⊆ woken w'.

Lemma kept_refl w : kept w w.
Proof. by split_and!. Qed.

Lemma kept_trans w1 w2 w3 : kept w1 w2 → kept w2 w3 → kept w1 w3.
Proof. intros (?&?&?) (?&?&?). split_and!; [congruence|congruence|set_solver]. Qed.

Lemma wake_kept k w : kept w (wake k w).
Proof. destruct k; split_and!; cbn; set_solver. Qed.

Lemma data_end_kept id k down w : kept w (data_end id k down w).1.
Proof.
  unfold data_end. apply (kept_trans _ _ _ (wake_kept k w)). destruct (sockets (wake k w) !! id); [|by split_and!].
  destruct down; by split_and!.
Qed.

Lemma data_pause_kept id p k down w : kept w (data_pause id p k down w).1.
Proof. unfold data_pause. destruct (sockets w !! id); [|by split_and!]. destruct p; [by split_and!|apply data_end_kept]. Qed.

Lemma on_data_kept h id bs w : kept w (WsSocket.on_data h id bs w).1.
Proof.
  unfold WsSocket.on_data. destruct (sockets w !! id) as [sh|]; [|by split_and!]. destruct (check_owner h sh); [by split_and!|].
  destruct (ended sh); [by split_and!|]. destruct (pump _ _) as [[s2 down]|]; [|by split_and!].
  destruct (take_socket_output s2) as [s3 out]. cbv zeta. case_decide; [|by split_and!].
  match goal with |- kept _ (data_pause _ ?p ?k _ ?w').1 => exact (data_pause_kept id p k down w') end.
Qed.

Lemma on_closed_kept id r w : kept w (WsSocket.on_closed id r w).
Proof.
  unfold WsSocket.on_closed. destruct (sockets w !! id) as [sh|]; [|by split_and!].
  apply (kept_trans _ (wake (recv_waker sh) w)); [apply wake_kept|]. destruct (recv_waker sh), r; by split_and!.
Qed.

Lemma abort_kept id w : kept w (abort id w).
Proof. unfold abort. destruct (sockets w !! id) as [sh|]; [|by split_and!]. exact (on_closed_kept id None (shutdown (transport sh) w)). Qed.

Lemma close_wait_kept id n w : kept w (close_wait id n w).1.
Proof.
  unfold close_wait. destruct (sockets w !! id) as [sh|]; [|by split_and!]. destruct (ended sh); [by split_and!|].
  case_decide; [|by split_and!]. exact (on_closed_kept id None (shutdown (transport sh) w)).
Qed.

Lemma receive_kept c id w : kept w (receive c id w).1.
Proof. unfold receive. destruct (sockets w !! id) as [sh|]; [|by split_and!]. destruct (recv_poll c sh) as [s' [[a []]|]]; by split_and!. Qed.

Lemma close_kept h id frame w : kept w (close h id frame w).1.
Proof.
  unfold close. destruct (sockets w !! id) as [sh|]; [|by split_and!]. destruct (check_owner h sh); [by split_and!|].
  destruct (ended sh); [by split_and!|]. destruct (ws_close _ _) as [[a b] []]; [by split_and!|].
  destruct (ws_flush _) as [[a' b'] []]; [by split_and!|]. destruct (take_socket_output _) as [s3 out].
  case_decide; [|by split_and!]. exact (close_wait_kept id (now w) (put id s3 w)).
Qed.

Lemma ws_call_kept h c x w : kept w (ws_call h c x w).1.
Proof.
  destruct x as [id|id m|id frame|id frame]; cbn; [| |apply close_kept|apply close_kept].
  - unfold recv. destruct (sockets w !! id ≫= _); [by split_and!|]. apply receive_kept.
  - unfold send. destruct (sockets w !! id) as [sh|]; [|by split_and!]. destruct (check_owner h sh); [by split_and!|].
    destruct (ended sh); [by split_and!|]. destruct (ws_send _ _) as [[a b] []]; [by split_and!|].
    destruct (take_socket_output _) as [s3 out]. case_decide; by split_and!.
Qed.

Lemma sock_resume_kept c t r w x : sock_resume c t r w = Some x → kept (unwake c w) x.1.
Proof.
  assert (Hu : kept (unwake c w) w) by (split_and!; cbn; set_solver).
  destruct t; cbn; destruct r as [[e|]|]; try done; intros [= <-]; try exact Hu; try (by apply receive_kept);
    (eapply kept_trans; [exact Hu|]); auto using data_pause_kept, data_end_kept, close_wait_kept.
Qed.

(** ** Suspended connects *)

(** The connection whose handshake a suspended call waits for. *)
Definition holds (x : Task) : option TransportId :=
  match x with TGreet t _ | TWait t => Some t | _ => None end.

(** Its handshake has a result and it is woken; or it is waiting and its timer is under
    way. *)
Definition waited (c : Z) (t : TransportId) (p : PendingHandshake) (w : World) : Prop :=
  (is_Some (result p) ∧ c ∈ woken w)
  ∨ (result p = None ∧ waiter p = Some c ∧ (t, generation p) ∈ timers (host w)).

Definition served (c : Z) (x : Task) (w : World) : Prop :=
  match x with
  | TGreet t g => ∃ p, pending (host w) !! t = Some p ∧ generation p = g
  | TWait t => ∃ p, pending (host w) !! t = Some p ∧ waited c t p w
  | _ => True
  end.

Record books (s : Sys) : Prop := {
  books_served c x : tasks s !! c = Some x → served c x (world s);
  books_one c c' x x' t : tasks s !! c = Some x → tasks s !! c' = Some x' → holds x = Some t → holds x' = Some t → c = c';
}.

(** Handshakes go on, and whoever waits for one keeps its place or is woken. *)
Definition advanced (w w' : World) : Prop :=
  ∀ t p, pending (host w) !! t = Some p →
  ∃ p', pending (host w') !! t = Some p' ∧ generation p' = generation p ∧ ∀ c, waited c t p w → waited c t p' w'.

Lemma advanced_trans w1 w2 w3 : advanced w1 w2 → advanced w2 w3 → advanced w1 w3.
Proof.
  intros H1 H2 t p Hp. destruct (H1 t p Hp) as (p2 & Hp2 & Hg & Hw). destruct (H2 t p2 Hp2) as (p3 & Hp3 & Hg3 & Hw3).
  exists p3. split_and!; [done|congruence|auto].
Qed.

Lemma kept_advanced w w' : kept w w' → advanced w w'.
Proof.
  intros (Hp & Ht & Hw) t p Hpt. exists p. rewrite Hp. split_and!; [done|done|]. intros c [[? ?]|(?&?&?)]; [left; set_solver|right].
  by rewrite Ht.
Qed.

(** One handshake goes on: no place of a waiting call is lost without a wake-up. *)
Lemma put_advanced t p p' w w' :
  pending (host w) !! t = Some p → pending (host w') = <[t := p']> (pending (host w)) → timers (host w') = timers (host w) →
  woken w ⊆ woken w' → generation p' = generation p → (is_Some (result p) → is_Some (result p')) →
  (result p = None → (result p' = None ∧ waiter p' = waiter p) ∨ (is_Some (result p') ∧ ∀ c, waiter p = Some c → c ∈ woken w')) →
  advanced w w'.
Proof.
  intros Hp Hi Ht Hw Hg Hr Hn t' q Hq. destruct (decide (t = t')) as [<-|Hne].
  - assert (q = p) as -> by congruence. exists p'. rewrite Hi, lookup_insert_eq. split_and!; [done|done|].
    intros c [[Hs Hc]|(Hs & Hc & Hin)]; [left; set_solver|]. destruct (Hn Hs) as [[? ?]|[? ?]]; [right|left; auto].
    rewrite Ht, Hg. split_and!; congruence.
  - exists q. rewrite Hi, lookup_insert_ne by done. split_and!; [done|done|]. intros c [[? ?]|(?&?&?)]; [left; set_solver|right].
    by rewrite Ht.
Qed.

Lemma finish_handshake_advanced t r w : advanced w (finish_handshake t r w).
Proof.
  unfold finish_handshake. destruct (pending (host w) !! t) as [p|] eqn:Hp; [|by apply kept_advanced, kept_refl].
  eapply (put_advanced t p); [done|..]; destruct (waiter p); cbn; try done; try set_solver; intros _; right; split; try done; set_solver.
Qed.

Lemma established_advanced me t sock io headers w : advanced w (established me t sock io headers w).
Proof.
  unfold established. destruct (contains_key _ _); [apply finish_handshake_advanced|]. unfold from_socket.
  cbv zeta. destruct (up _ t); (eapply advanced_trans; [|apply finish_handshake_advanced]); by apply kept_advanced.
Qed.

Lemma handshake_data_advanced me t bs w : advanced w (handshake_data me t bs w).1.
Proof.
  unfold handshake_data. destruct (pending (host w) !! t) as [p|] eqn:Hp; [|by apply kept_advanced, kept_refl].
  destruct (handshake p) as [[h io]|] eqn:Hh; [|by apply kept_advanced, kept_refl].
  assert (Hput : ∀ x, advanced w (put_pending t (set_handshake x p) w)).
  { intros x. eapply (put_advanced t p); try done; cbn; auto. }
  cbv zeta. destruct (hs_run _ _) as [[rest out] [h'|e|sock headers]].
  - case_decide; cbn; (eapply advanced_trans; [apply (Hput None)|]);
      (eapply (put_advanced t (set_handshake None p)); [apply lookup_insert_eq|..]; cbn; try done; auto).
  - eapply advanced_trans; [apply (Hput None)|apply finish_handshake_advanced].
  - eapply advanced_trans; [apply (Hput None)|apply established_advanced].
Qed.

Lemma on_closed_advanced t r w : advanced w (on_closed t r w).
Proof.
  unfold on_closed. set (w1 := on_host (λ s, set_connected (delete t (connected s)) s) w).
  set (sh := connected (host w) !! t). set (err := Transport (default "closed"%string r)).
  assert (H1 : advanced w w1) by by apply kept_advanced.
  assert (Hsh : ∀ w, kept w (match sh with Some id => WsSocket.on_closed id r w | None => w end)).
  { intros w0. destruct sh; [apply on_closed_kept|apply kept_refl]. }
  destruct (pending (host w1) !! t) as [p|] eqn:Hp.
  - eapply advanced_trans; [exact H1|]. set (w2 := put_pending t _ w1). destruct (Hsh w2) as (Hk1 & Hk2 & Hk3).
    apply (put_advanced t p (set_waiter None (set_result (Some (inr err)) p))); [done|..]; destruct (waiter p) as [c|]; try done;
      [set_solver| |]; intros _; right; (split; [done|]); [|done]; intros c' [= <-]; cbn; set_solver.
  - eapply advanced_trans; [exact H1|]. by apply kept_advanced, Hsh.
Qed.

Lemma handshake_timeout_advanced k t g w :
  timers (host w) !! k = Some (t, g) →
  advanced w (handshake_timeout t g (on_host (λ st, set_timers (delete k (timers st)) st) w)).
Proof.
  intros Hk t' p Hp. set (w1 := on_host _ w).
  assert (Hkeep : ∀ c q, (t', generation q) ≠ (t, g) → waited c t' q w → waited c t' q w1).
  { intros c q Hne [?|(?&?&Hin)]; [by left|]. right. split_and!; [done..|]. cbn.
    rewrite <-(take_drop_middle _ _ _ Hk) in Hin. rewrite delete_take_drop. set_solver. }
  unfold handshake_timeout. change (pending (host w1)) with (pending (host w)).
  destruct (pending (host w) !! t) as [q|] eqn:Hq.
  2:{ exists p. split_and!; [done|done|]. intros c. apply Hkeep. intros [= ->]. congruence. }
  case_decide as Hg.
  { exists p. split_and!; [done|done|]. intros c. apply Hkeep. intros [= -> ?]. congruence. }
  destruct (result q) as [r|] eqn:Hr.
  - exists p. split_and!; [done|done|]. intros c. destruct (decide (t' = t)) as [->|]; [|apply Hkeep; congruence].
    assert (q = p) as -> by congruence. intros [?|(?&_)]; [by left|congruence].
  - destruct (decide (t' = t)) as [->|Hne].
    + assert (q = p) as -> by congruence. eexists. split_and!.
      * destruct (waiter p); cbn; by rewrite lookup_insert_eq.
      * done.
      * intros c [[[? ?] _]|(_ & -> & _)]; [congruence|]. left. split; [done|]. set_solver.
    + exists p. split_and!; [|done|].
      * destruct (waiter q); cbn; by rewrite lookup_insert_ne.
      * intros c Hc. destruct (Hkeep c p) as [[? ?]|(?&?&?)]; [congruence|done|left|right]; destruct (waiter q); set_solver.
Qed.

Lemma served_advanced c x w w' : advanced w w' → served c x w → served c x w'.
Proof.
  intros Ha. destruct x; cbn; try done; intros (p & Hp & Hx); destruct (Ha _ p Hp) as (p' & Hp' & Hg & Hw); exists p'; split; auto.
  congruence.
Qed.

Lemma books_advanced s w' rs : advanced (world s) w' → books s → books (mkSys w' (tasks s) rs).
Proof. intros Hk [Hs Ho]. split; cbn; [|exact Ho]. intros c x Hx. eapply served_advanced; [done|]. by apply Hs. Qed.

Definition unheld (t : TransportId) (s : Sys) : Prop := ∀ c x, tasks s !! c = Some x → holds x ≠ Some t.

Lemma books_remove s t : unheld t s → books s → books (on_world (remove_pending t) s).
Proof.
  intros Hu [Hs Ho]. split; cbn; [|exact Ho]. intros c x Hx. specialize (Hs c x Hx). specialize (Hu c x Hx).
  destruct x; cbn in *; try done; by rewrite lookup_delete_ne by congruence.
Qed.

Lemma books_suspend s c x :
  books s → tasks s !! c = None → served c x (world s) → (∀ t, holds x = Some t → unheld t s) → books (suspend c x s).
Proof.
  intros [Hs Ho] Hc Hx Hu. split; cbn.
  - intros c' x'. rewrite lookup_insert_Some. intros [[<- <-]|[_ Hx']]; [done|by apply Hs].
  - intros c1 c2 x1 x2 t. rewrite !lookup_insert_Some. intros [[<- <-]|[_ H1]] [[<- <-]|[_ H2]] Ht1 Ht2; [done| | |by eapply Ho].
    + by destruct (Hu t Ht1 _ _ H2).
    + by destruct (Hu t Ht2 _ _ H1).
Qed.

Lemma books_without s c : books s → books (mkSys (world s) (delete c (tasks s)) (rets s)).
Proof.
  intros [Hs Ho]. split; cbn.
  - intros c' x. rewrite lookup_delete_Some. intros [_ ?]. by apply Hs.
  - intros c1 c2 x1 x2 t. rewrite !lookup_delete_Some. intros [_ ?] [_ ?]. by eapply Ho.
Qed.

Lemma without_unheld s c x t : books s → tasks s !! c = Some x → holds x = Some t → unheld t (mkSys (world s) (delete c (tasks s)) (rets s)).
Proof. intros [_ Ho] Hx Ht c' x'. cbn. rewrite lookup_delete_Some. intros [Hne Hx'] Ht'. apply Hne. by eapply Ho. Qed.

Lemma books_unwake s c : tasks s !! c = None → books s → books (on_world (unwake c) s).
Proof.
  intros Hc [Hs Ho]. split; cbn; [|exact Ho]. intros c' x Hx. specialize (Hs c' x Hx). destruct x; cbn in *; try done.
  destruct Hs as (p & Hp & Hw). exists p. split; [done|]. destruct Hw as [[? ?]|?]; [left|by right]. split; [done|].
  assert (c' ≠ c) by congruence. set_solver.
Qed.

Lemma books_return s c r : books s → books (return_ c r s).
Proof. by intros [Hs Ho]; split. Qed.

Lemma wait_books s c t p :
  books s → tasks s !! c = None → unheld t s → pending (host (world s)) !! t = Some p →
  is_Some (result p) ∨ (t, generation p) ∈ timers (host (world s)) → books (wait c t s).
Proof.
  intros Hb Hc Hu Hp Ht. unfold wait, wait_poll. rewrite Hp. destruct (result p) as [[[id hs]|e]|] eqn:Hr.
  - apply books_return, (books_advanced (on_world (remove_pending t) s)); [by apply kept_advanced|by apply books_remove].
  - apply books_return, (books_advanced (on_world (remove_pending t) s)); [by apply kept_advanced|by apply books_remove].
  - destruct Ht as [[? ?]|Ht]; [done|]. set (w1 := put_pending _ _ _).
    assert (Hb1 : books (on_world (λ _, w1) s)).
    { destruct Hb as [Hs Ho]. split; cbn; [|exact Ho]. intros c' x Hx. specialize (Hs c' x Hx). specialize (Hu c' x Hx).
      destruct x; cbn in *; try done; by rewrite lookup_insert_ne by congruence. }
    apply books_suspend; [done|done| |intros t' [= <-]; exact Hu].
    exists (set_waiter (Some c) p). split; [apply lookup_insert_eq|]. by right.
Qed.

Lemma sock_out_books s c k r :
  books s → tasks s !! c = None → advanced (world s) r.1 → books (sock_out c k r s).
Proof.
  intros Hb Hc Ha. pose proof (books_advanced s r.1 (rets s) Ha Hb) as Hb1. unfold sock_out. destruct r.2 as [t|ret].
  - by apply books_suspend.
  - unfold sock_done. destruct k as [|x a]; [by apply books_return|]. apply books_return.
    destruct (borrows x), a; try exact Hb1. refine (books_advanced _ _ _ _ Hb1). by apply kept_advanced.
Qed.

Lemma claim_owner_kept h w : kept w (claim_owner h w).1.
Proof. unfold claim_owner. destruct (owner (host w)); [case_decide|]; by split_and!. Qed.

Lemma on_event_books s h c ev : books s → tasks s !! c = None → books (on_event h c ev s).
Proof.
  intros Hb Hc. unfold on_event. pose proof (claim_owner_kept h (world s)) as Hk. destruct (claim_owner h (world s)) as [w [e|]]; cbn in Hk.
  all: pose proof (books_advanced s w (rets s) (kept_advanced _ _ Hk) Hb) as Hb1.
  { by apply books_return. }
  destruct ev as [t bs|t|t reason|]; [|by apply books_return, (books_advanced _ _ _ (on_closed_advanced _ _ _) Hb1)..|by apply books_return].
  destruct (connected (host w) !! t) as [id|].
  - apply sock_out_books; [exact Hb1|done|]. apply kept_advanced, on_data_kept.
  - pose proof (handshake_data_advanced h t bs w) as Ha. destruct (handshake_data h t bs w) as [w2 [b|e]]; cbn in Ha.
    all: pose proof (books_advanced (mkSys w (tasks s) (rets s)) w2 (rets s) Ha Hb1) as Hb2.
    + destruct b; [by apply books_suspend|by apply books_return].
    + by apply books_return.
Qed.

Lemma dialed_advanced t r w w' g :
  pending (host w) !! t = None → dialed t r w = (w', inl g) → advanced w w' ∧ ∃ p, pending (host w') !! t = Some p ∧ generation p = g.
Proof.
  intros Hn. unfold dialed. destruct (hs_start _ _) as [h|e]; [|done]. destruct (hs_run _ _) as [[rest out] [h'|e|? ?]]; [|done|done].
  cbv zeta. intros Hd. assert (Hg : Z.max 1 (next_generation (host w) +w 1) = g) by congruence. rewrite Hg in Hd.
  replace w' with (emit (Send t out) (put_pending t (mkPending (Some (h', mkIo rest [])) None None g) (on_host (set_next_generation g) w)))
    by congruence. cbn. split; [|by rewrite lookup_insert_eq; eauto].
  intros t' p Hp. exists p. cbn. rewrite lookup_insert_ne by congruence. split_and!; [done|done|]. by intros c.
Qed.

Lemma dialed_stuck `{!WsHandshakeLaws} t r w : stuck (dialed t r w).1 = stuck w.
Proof.
  unfold dialed. destruct (hs_start _ _) as [h|e]; [|done]. destruct (hs_run h []) as [[rest out] [h'|e|sock headers]] eqn:Hr; [done|done|].
  by apply hs_empty in Hr.
Qed.

Lemma dialed_failed t r w w' e : dialed t r w = (w', inr e) → kept w w'.
Proof.
  unfold dialed. destruct (hs_start _ _) as [h|e']; [|intros [= <- _]; by split_and!].
  destruct (hs_run _ _) as [[rest out] [h'|e'|? ?]]; [done| |]; intros [= <- _]; by split_and!.
Qed.

(** A new connection has a number that no handshake under way has. *)
Definition fresh_dial (ev : Event) (s : Sys) : bool :=
  match ev with
  | EDialed _ (inl t) => bool_decide (pending (host (world s)) !! t = None)
  | _ => true
  end.

Fixpoint fresh_dials (evs : list Event) (s : Sys) : bool :=
  match evs with
  | [] => true
  | ev :: evs => fresh_dial ev s && match step ev s with Some s => fresh_dials evs s | None => true end
  end.

Lemma books_unheld s t : books s → pending (host (world s)) !! t = None → unheld t s.
Proof.
  intros [Hs _] Hn c x Hx Ht. specialize (Hs c x Hx). destruct x; cbn in Ht, Hs; simplify_eq; destruct Hs as (p & Hp & _); congruence.
Qed.

Lemma resume_books s c r s' : books s → step (EResume c r) s = Some s' → books s'.
Proof.
  intros Hb. cbn. destruct (tasks s !! c) as [x|] eqn:Hx; cbn; [|done].
  pose proof (books_without s c Hb) as Hb1. pose proof (books_served s Hb c x Hx) as Hx1.
  pose proof (without_unheld s c x) as Hu. set (s1 := mkSys _ _ _) in *.
  assert (Hc1 : tasks s1 !! c = None) by apply lookup_delete_eq.
  assert (Hsock : ∀ k st r, (y ← sock_resume c st r (world s1); Some (sock_out c k y s1)) = Some s' → books s').
  { intros k st r'. destruct (sock_resume c st r' (world s1)) as [y|] eqn:Hy; [|done]. cbn. intros [= <-].
    apply (sock_out_books (on_world (unwake c) s1)); [by apply books_unwake|done|]. by apply kept_advanced, (sock_resume_kept _ _ _ _ _ Hy). }
  destruct x as [req|t g|t| |k st]; destruct r as [[e|]|]; try done.
  - intros [= <-]. apply books_return. apply (books_advanced (on_world (remove_pending t) s1)); [by apply kept_advanced|].
    apply books_remove; [by apply (Hu t)|done].
  - intros [= <-]. destruct Hx1 as (p & Hp & Hg). apply (wait_books _ c t p); cbn; [|done|by apply (Hu t)|done|right; set_solver].
    apply (books_advanced s1); [|done]. intros t' q Hq. exists q. split_and!; [done|done|].
    intros c' [?|(?&?&?)]; [by left|right; cbn; set_solver].
  - intros [= <-]. destruct Hx1 as (p & Hp & Hw). apply (wait_books _ c t p); cbn; [by apply books_unwake|done|by apply (Hu t)|done|].
    destruct Hw as [[? _]|(_&_&?)]; auto.
  - intros [= <-]. by apply books_return.
  - intros [= <-]. by apply books_return.
  - by apply Hsock.
  - by apply Hsock.
  - by apply Hsock.
Qed.

Lemma drop_handle_kept id w : kept w (drop_handle id w).
Proof.
  unfold drop_handle. destruct (handles w !! id) as [[]|]; [|by split_and!..]. exact (abort_kept id (set_handles (delete id (handles w)) w)).
Qed.

Lemma client_step_books ev s s' : books s → fresh_dial ev s = true → step ev s = Some s' → books s'.
Proof.
  intros Hb Hf. destruct ev as [h c a|c r|h c ev|h c x|c r|id|k|n]; [| | | |by apply resume_books|..]; cbn.
  - case_decide as Hc; [|done]. destruct Hc as [Hc _]. intros [= <-]. pose proof (claim_owner_kept h (world s)) as Hk.
    destruct (claim_owner h (world s)) as [w [e|]]; cbn in Hk;
      pose proof (books_advanced s w (rets s) (kept_advanced _ _ Hk) Hb) as Hb1; [by apply books_return|].
    destruct (into_client_request a) as [q|]; [|by apply books_return]. destruct (target _) as [|]; [|by apply books_return].
    by apply books_suspend.
  - destruct (tasks s !! c) as [[req| | | |]|] eqn:Hx; try done. pose proof (books_without s c Hb) as Hb1.
    intros [= <-]. destruct r as [t|e]; [|by apply books_return]. cbn in Hf. apply bool_decide_eq_true in Hf.
    destruct (dialed t req (world s)) as [w [g|e]] eqn:Hd; cbn [world].
    + destruct (dialed_advanced _ _ _ _ _ Hf Hd) as [Ha Hp]. apply books_suspend; [exact (books_advanced (mkSys (world s) _ _) _ _ Ha Hb1)|apply lookup_delete_eq|done|].
      intros t' [= <-] c' x'. exact (books_unheld _ t Hb1 Hf c' x').
    + apply books_return. exact (books_advanced (mkSys (world s) _ _) _ _ (kept_advanced _ _ (dialed_failed _ _ _ _ _ Hd)) Hb1).
  - case_decide; [|done]. intros [= <-]. by apply on_event_books.
  - case_decide as Hc; [|done]. destruct Hc as [Hc _]. destruct (borrows x) as [id|].
    + destruct (handles (world s) !! id) as [b|]; [|done]. cbn. intros [= <-]. apply sock_out_books; [done|done|].
      apply kept_advanced. exact (ws_call_kept h c x (set_handles (delete id (handles (world s))) (world s))).
    + case_decide; [|done]. intros [= <-]. apply sock_out_books; [done|done|]. apply kept_advanced, ws_call_kept.
  - intros [= <-]. apply (books_advanced s); [|done]. apply kept_advanced, drop_handle_kept.
  - destruct (timers (host (world s)) !! k) as [[t g]|] eqn:Hk; [|done]. cbn. intros [= <-]. apply (books_advanced s); [|done].
    by apply handshake_timeout_advanced.
  - intros [= <-]. apply (books_advanced s); [|done]. by apply kept_advanced.
Qed.

Lemma client_run_books evs s s' : books s → fresh_dials evs s = true → run evs s = Some s' → books s'.
Proof.
  revert s. induction evs as [|ev evs IH]; intros s Hb Hf Hr; cbn in *; [by injection Hr as <-|].
  apply andb_prop in Hf as [Hf Hfs]. destruct (step ev s) as [s1|] eqn:Hs; [|done]. cbn in Hr.
  eapply IH; [|done|done]. by eapply client_step_books.
Qed.

Lemma client_books u : books (sys_new u).
Proof. by split. Qed.

(** A poll of the suspended [connect] of the call [c] returns [r]. *)
Definition polled (c : Z) (s : Sys) (r : (Z * HeaderMap) + HttpError) : Prop :=
  ∃ s', step (EResume c RAgain) s = Some s' ∧ tasks s' !! c = None ∧ rets s' = rets s ++ [(c, RetConnect r)].

Lemma result_polled c t s p r :
  tasks s !! c = Some (TWait t) → pending (host (world s)) !! t = Some p → result p = Some r → polled c s r.
Proof.
  intros Hx Hp Hr. unfold polled. cbn [step]. rewrite Hx. cbn. eexists. split; [done|].
  unfold wait, wait_poll. cbn. rewrite Hp, Hr. destruct r as [[id hs]|e]; cbn; (split; [apply lookup_delete_eq|done]).
Qed.

Lemma timer_times_out s k t p c :
  pending (host (world s)) !! t = Some p → result p = None → waiter p = Some c →
  timers (host (world s)) !! k = Some (t, generation p) → tasks s !! c = Some (TWait t) →
  ∃ s', step (ETimer k) s = Some s' ∧ c ∈ woken (world s') ∧ polled c s' (inr (Timeout "websocket handshake")).
Proof.
  intros Hp Hr Hw Hk Hx. cbn [step]. rewrite Hk. cbn. eexists. split; [done|].
  set (w1 := on_host (λ st, set_timers (delete k (timers st)) st) (world s)). assert (Hto : handshake_timeout t (generation p) w1 = wake_call c (emit (Shutdown t)
    (put_pending t (set_waiter None (set_result (Some (inr (Timeout "websocket handshake"))) p)) w1))).
  { unfold handshake_timeout. change (pending (host w1)) with (pending (host (world s))). rewrite Hp, decide_False by auto. by rewrite Hr, Hw. }
  unfold on_world. fold w1. rewrite Hto. split; [cbn; set_solver|]. eapply result_polled; [done|apply lookup_insert_eq|done].
Qed.

(** [WebSocketClient::connect] is attended to until it returns: in every run in which a
    new connection has a number that no handshake under way has, a [connect] that waits for
    its handshake either has been woken with the result there, which its next poll returns,
    or has its waker in place and its own timer under way, and when that timer fires it is
    woken and its next poll returns the time-out. *)
Theorem connect_attended u evs s c t :
  fresh_dials evs (sys_new u) = true → run evs (sys_new u) = Some s → tasks s !! c = Some (TWait t) →
  (c ∈ woken (world s) ∧ ∃ r, polled c s r)
  ∨ ∃ k s', step (ETimer k) s = Some s' ∧ c ∈ woken (world s') ∧ polled c s' (inr (Timeout "websocket handshake")).
Proof.
  intros Hf Hr Hx. pose proof (client_run_books evs _ s (client_books u) Hf Hr) as [Hs _].
  destruct (Hs c _ Hx) as (p & Hp & [[[r Hres] Hw]|(Hres & Hw & Hin)]).
  - left. split; [done|]. exists r. by eapply result_polled.
  - right. apply list_elem_of_lookup in Hin as [k Hk]. exists k. by eapply timer_times_out.
Qed.

(** ** The end of the handshake *)

Lemma recv_new (w : World) me c id sh :
  sockets w !! id = Some sh → WsSocket.owner sh = me → messages sh = [] → error sh = None → ended sh = false →
  (recv me c id w).2 = inl (Receiving id) ∧ sockets (recv me c id w).1 !! id ≫= recv_waker = Some c.
Proof.
  intros Hs Ho Hm He Hd. unfold recv, receive, check_owner. rewrite Hs. cbn. rewrite decide_True by done.
  unfold recv_poll. rewrite Hm, He, Hd. cbn. by rewrite lookup_insert_eq.
Qed.

Lemma finish_handshake_done t r w p :
  pending (host w) !! t = Some p →
  sockets (finish_handshake t r w) = sockets w ∧ connected (host (finish_handshake t r w)) = connected (host w)
  ∧ ∃ p', pending (host (finish_handshake t r w)) !! t = Some p' ∧ result p' = Some r.
Proof.
  intros Hp. unfold finish_handshake. rewrite Hp. destruct (waiter p); cbn; (split_and!; [done|done|]); eexists; by rewrite lookup_insert_eq.
Qed.

(** The bytes that come with the answer to the handshake are not looked at: the
    handshake is through, the socket it gave has a message to read, and yet the first [recv]
    on the [WebSocket] suspends, to be woken by the next bytes or by the end of the
    connection.  (The server drives the socket after an upgrade; the client does not.) *)
Theorem first_frame_left_lying me c t data (w : World) p h io rest out sock headers m :
  pending (host w) !! t = Some p → handshake p = Some (h, io) → up w t = true →
  hs_run h (io_input io ++ data) = (rest, out, HsOk sock headers) → contains_key "sec-websocket-extensions" headers = false →
  (ws_read sock rest).2 = inl m →
  let id := Z.max 1 (next_id (host w) +w 1) in
  let '(w1, r) := handshake_data me t data w in
  r = inl false ∧ connected (host w1) !! t = Some id
  ∧ (∃ p', pending (host w1) !! t = Some p' ∧ result p' = Some (inl (id, headers)))
  ∧ (recv me c id w1).2 = inl (Receiving id) ∧ sockets (recv me c id w1).1 !! id ≫= recv_waker = Some c.
Proof.
  intros Hp Hh Hu Hrun Hext Hm id. unfold handshake_data. rewrite Hp, Hh. cbn [io_input push_input]. rewrite Hrun.
  unfold established, from_socket. rewrite Hext. cbn [up on_host put_pending]. rewrite Hu. fold id.
  match goal with |- context [finish_handshake t ?r ?w] => destruct (finish_handshake_done t r w (set_handshake None p)) as (Hs & Hc & Hres) end.
  { apply lookup_insert_eq. }
  split_and!; [done|by rewrite Hc; apply lookup_insert_eq|done|..];
    (eapply recv_new; [rewrite Hs; apply lookup_insert_eq|done..]).
Qed.
End client.

(** ** A small handshake *)

Section toy.

(** The client says 71; the answer is the byte 101, and what follows it is the start of
    the stream of frames. *)
#[local] Instance toy_handshake : WsHandshake (H := WsBooks.toy_ws) := {|
  WsArg := Uri;
  WsRequest := Uri;
  into_client_request u := inl u;
  Hs := unit;
  ws_uri u := u;
  hs_start _ _ := inl tt;
  hs_run h i :=
    match i with
    | [] => ([], [71], HsInterrupted tt)
    | b :: tail => if b =? 101 then ([], [], HsOk (tail : list Z) []) else (tail, [], HsFailure "status")
    end;
|}.

#[local] Instance toy_handshake_laws : WsHandshakeLaws.
Proof. by split. Qed.

Definition toy_uri : Uri := mkUri (Some "ws"%string) (Some "example"%string) None.

Definition any_name (_ : string) : bool := true.

Definition dial_events : list (Event (H0 := toy_handshake)) :=
  [ EConnect 1 10 toy_uri; EDialed 10 (inl (Plain 7)); EResume 10 (RDone None) ].

Definition dial_run := run any_name ws_client_default dial_events (sys_new WsBooks.all_up).

Definition dial_check (s : Sys (H0 := toy_handshake)) : bool :=
  match tasks s !! 10 with Some (TWait t) => bool_decide (t = Plain 7) | _ => false end
  && match pending (host (world s)) !! Plain 7 with
     | Some p => match handshake p with Some (tt, io) => bool_decide (io_input io = [] ∧ io_output io = []) | None => false end
     | None => false
     end
  && up (world s) (Plain 7) && bool_decide (next_id (host (world s)) = 0).

Lemma dial_view : ∃ s, dial_run = Some s ∧ dial_check s = true.
Proof. apply some_view. by vm_compute. Qed.

Lemma dial_facts s : dial_check s = true →
  tasks s !! 10 = Some (TWait (Plain 7)) ∧ up (world s) (Plain 7) = true ∧ next_id (host (world s)) = 0
  ∧ ∃ p, pending (host (world s)) !! Plain 7 = Some p ∧ handshake p = Some (tt, mkIo [] []).
Proof.
  unfold dial_check. destruct (tasks s !! 10) as [[| |t| |]|]; try done. destruct (pending (host (world s)) !! Plain 7) as [p|]; [|by destruct (bool_decide _)].
  destruct (handshake p) as [[[] io]|] eqn:Hh; [|by destruct (bool_decide _)]. rewrite !andb_true_iff, !bool_decide_eq_true.
  destruct io as [i o]. cbn. intros [[[-> [-> ->]] ?] ?]. eauto 10.
Qed.

Lemma connect_attended_witness :
  ∃ s, dial_run = Some s
  ∧ ((10 ∈ woken (world s) ∧ ∃ r, polled any_name ws_client_default 10 s r)
     ∨ ∃ k s', step any_name ws_client_default (ETimer k) s = Some s' ∧ 10 ∈ woken (world s')
               ∧ polled any_name ws_client_default 10 s' (inr (Timeout "websocket handshake"))).
Proof.
  destruct dial_view as (s & Hs & Hc). exists s. split; [exact Hs|]. destruct (dial_facts s Hc) as (Hx & _).
  apply (connect_attended any_name ws_client_default WsBooks.all_up dial_events s 10 (Plain 7)); [vm_compute; reflexivity|exact Hs|exact Hx].
Defined.

Lemma first_frame_left_lying_witness :
  ∃ s, dial_run = Some s
  ∧ let '(w1, r) := handshake_data ws_client_default 1 (Plain 7) [101; 5] (world s) in
    r = inl false ∧ connected (host w1) !! Plain 7 = Some 1
    ∧ (∃ p', pending (host w1) !! Plain 7 = Some p' ∧ result p' = Some (inl (1, [])))
    ∧ (recv 1 11 1 w1).2 = inl (Receiving 1) ∧ sockets (recv 1 11 1 w1).1 !! 1 ≫= recv_waker = Some 11.
Proof.
  destruct dial_view as (s & Hs & Hc). exists s. split; [exact Hs|]. destruct (dial_facts s Hc) as (_ & Hu & Hn & p & Hp & Hh).
  pose proof (first_frame_left_lying ws_client_default 1 11 (Plain 7) [101; 5] (world s) p tt (mkIo [] []) [] [] [5] [] 5
    Hp Hh Hu eq_refl eq_refl eq_refl) as Hf.
  rewrite Hn in Hf. exact Hf.
Defined.
End toy.
End WsClient.
