(* ===== verification/TlsService.v ===== *)
(** * The TLS service

    [rskynet-tls/src/service.rs], with [config.rs], [command.rs] and [event.rs]: a service
    that speaks TLS over sockets of the network service and hands plaintext to the owners
    of its connections.  The record layer is [rustls]: a class [TlsEngine].  A handler
    that awaits the network service is suspended; the rest of it is a [Task].

    The state is a [SvcCell]: a second borrow while a guard is alive panics.  A guard that
    ends with its statement or block is not shown, since nothing runs under it; one that
    lives on, that of an [if let] over a borrow, is the flag [borrowed].  A panic of a
    handler is not caught: the system stops. *)
From S2P Require Import Prelude Message NetBuffer NetSocket NetService.
From stdpp Require Import strings.
#[local] Open Scope Z_scope.

Module TlsService.
Import NetSocket(SocketId, Pending, mkPending, p_source, p_session).

(** ** Configuration *)

Record TlsConfig : Type := mkTlsConfig {
  handshake_timeout_ms : Z;
  buffer_limit : Z;
  max_connections : Z;
  max_handshakes : Z;
}.

Definition tls_config_default : TlsConfig := mkTlsConfig 10000 (256 * 1024) 65536 4096.

Definition validate (c : TlsConfig) : option string :=
  if decide (handshake_timeout_ms c = 0) then Some "handshake_timeout_ms"%string else
  if decide (buffer_limit c = 0) then Some "buffer_limit"%string else
  if decide (max_connections c = 0) then Some "max_connections"%string else
  if decide (max_handshakes c = 0 ∨ max_connections c < max_handshakes c) then Some "max_handshakes"%string else
  None.

(** [init]: the configuration in force, or why the service does not start. *)
Definition init (section : option TlsConfig) (name_free : bool) : TlsConfig + string :=
  let c := default tls_config_default section in
  match validate c with
  | Some e => inr e
  | None => if name_free then inl c else inr "name taken"%string
  end.

(** ** The record layer *)

Inductive ProtocolVersion : Type := TLSv1_2 | TLSv1_3 | OtherVersion.

Definition version_name (v : option ProtocolVersion) : option string :=
  match v with
  | Some TLSv1_2 => Some "TLSv1.2"%string
  | Some TLSv1_3 => Some "TLSv1.3"%string
  | Some OtherVersion => Some "unknown"%string
  | None => None
  end.

Inductive ReadError : Type := WouldBlock | ReadFailed (reason : string).

Class TlsEngine : Type := {
  TConn : Type; ClientTlsConfig : Type; ServerTlsConfig : Type; ServerName : Type;
  client_new : ClientTlsConfig → ServerName → TConn + string;
  server_new : ServerTlsConfig → TConn + string;
  set_buffer_limit : Z → TConn → TConn;
  is_handshaking : TConn → bool;
  protocol_version : TConn → option ProtocolVersion;
  negotiated_cipher_suite : TConn → option string;
  alpn_protocol : TConn → option (list Z);
  send_close_notify : TConn → TConn;
  wants_write : TConn → bool;
  write_tls : TConn → TConn * (list Z + string);
  (* [writer().write], [read_tls]: how many of the bytes were taken *)
  write_plain : TConn → list Z → TConn * (Z + string);
  read_tls : TConn → list Z → TConn * (Z + string);
  (* [process_new_packets]: whether the peer has closed *)
  process_new_packets : TConn → TConn * (bool + string);
  read_plain : TConn → Z → TConn * (list Z + ReadError);
  (* bytes of ciphertext to be written, bytes of plaintext to be read *)
  tls_pending : TConn → nat;
  plain_pending : TConn → nat;
}.

(** Writing ciphertext and reading plaintext use up what is there; no operation takes more
    than it is given. *)
Class TlsLaws `{TlsEngine} : Prop := {
  write_tls_progress c c' bs : wants_write c = true → write_tls c = (c', inl bs) → (tls_pending c' < tls_pending c)%nat;
  write_plain_used c data c' n : write_plain c data = (c', inl n) → 0 ≤ n ≤ Z.of_nat (length data);
  read_tls_used c data c' n : read_tls c data = (c', inl n) → 0 ≤ n ≤ Z.of_nat (length data);
  read_plain_progress c cap c' bs : read_plain c cap = (c', inl bs) → bs ≠ [] → (plain_pending c' < plain_pending c)%nat;
}.

Section tls.
Context `{TlsEngine}.

(** ** State *)

Record Listener : Type := mkListener {
  l_socket : SocketId; l_owner : Z; l_local : option SocketAddr; l_config : ServerTlsConfig; l_started : bool }.

Record TlsConnection : Type := mkConnection {
  socket : SocketId;
  owner : Z;
  connection : TConn;
  listen_id : option Z;
  local : option SocketAddr;
  peer : SocketAddr;
  announced : bool;
  closing : bool;
  peer_close_notify : bool;
  connect_pending : option Pending;
  close_pending : option Pending;
  paused : bool;
  timeout_ms : Z;
}.

Definition set_connection x (c : TlsConnection) := mkConnection (socket c) (owner c) x (listen_id c) (local c) (peer c) (announced c) (closing c) (peer_close_notify c) (connect_pending c) (close_pending c) (paused c) (timeout_ms c).
Definition set_announced (c : TlsConnection) := mkConnection (socket c) (owner c) (connection c) (listen_id c) (local c) (peer c) true (closing c) (peer_close_notify c) None (close_pending c) (paused c) (timeout_ms c).
Definition set_closing p (c : TlsConnection) := mkConnection (socket c) (owner c) (connection c) (listen_id c) (local c) (peer c) (announced c) true (peer_close_notify c) (connect_pending c) (Some p) (paused c) (timeout_ms c).
Definition set_peer_close_notify x (c : TlsConnection) := mkConnection (socket c) (owner c) (connection c) (listen_id c) (local c) (peer c) (announced c) (closing c) x (connect_pending c) (close_pending c) (paused c) (timeout_ms c).
Definition set_paused x (c : TlsConnection) := mkConnection (socket c) (owner c) (connection c) (listen_id c) (local c) (peer c) (announced c) (closing c) (peer_close_notify c) (connect_pending c) (close_pending c) x (timeout_ms c).

Record TlsInfo : Type := mkInfo {
  i_id : Z; i_owner : Z; i_kind : string; i_state : string; i_paused : bool; i_local : option SocketAddr; i_peer : option SocketAddr;
  i_version : option string; i_cipher_suite : option string; i_alpn : option (list Z) }.

Definition connection_info (id : Z) (c : TlsConnection) : TlsInfo :=
  mkInfo id (owner c)
    (match listen_id c with Some _ => "server" | None => "client" end)
    (if closing c then "closing" else if is_handshaking (connection c) then "handshaking" else "connected")
    (paused c) (local c) (Some (peer c))
    (version_name (protocol_version (connection c))) (negotiated_cipher_suite (connection c)) (alpn_protocol (connection c)).

Record State : Type := mkState {
  next_id : Z;
  listeners : gmap Z Listener;
  listener_sockets : gmap SocketId Z;
  connections : gmap Z TlsConnection;
  connection_sockets : gmap SocketId Z;
  handshakes : Z;
}.

Definition state_default : State := mkState 0 ∅ ∅ ∅ ∅ 0.

Definition set_next_id x (s : State) := mkState x (listeners s) (listener_sockets s) (connections s) (connection_sockets s) (handshakes s).
Definition set_listeners x (s : State) := mkState (next_id s) x (listener_sockets s) (connections s) (connection_sockets s) (handshakes s).
Definition set_connections x (s : State) := mkState (next_id s) (listeners s) (listener_sockets s) x (connection_sockets s) (handshakes s).
Definition set_handshakes x (s : State) := mkState (next_id s) (listeners s) (listener_sockets s) (connections s) (connection_sockets s) x.

Definition len (s : State) : Z := Z.of_nat (size (listeners s)) + Z.of_nat (size (connections s)).

(** [allocate]; [None] is out of fuel. *)
Fixpoint allocate_loop (fuel : nat) (s : State) : option (Z * State) :=
  match fuel with
  | O => None
  | S fuel =>
      let id := Z.max 1 ((next_id s + 1) mod 2 ^ 32) in
      let s := set_next_id id s in
      if decide (listeners s !! id = None ∧ connections s !! id = None) then Some (id, s) else allocate_loop fuel s
  end.

Definition allocate (s : State) : option (Z * State) := allocate_loop (S (size (listeners s) + size (connections s))) s.

(** ** Commands, answers, events *)

Record ClientOptions : Type := mkClientOptions {
  co_address : string; co_server_name : ServerName; co_config : ClientTlsConfig;
  co_connect_timeout_ms : option Z; co_handshake_timeout_ms : option Z }.

Inductive Command : Type :=
  | Connect (o : ClientOptions)
  | Listen (address : string) (config : ServerTlsConfig)
  | Start (id : Z)
  | Pause (id : Z)
  | Send (id : Z) (data : list Z) (high : bool)
  | SendWait (id : Z) (data : list Z) (high : bool)
  | Close (id : Z)
  | Shutdown (id : Z)
  | Info (id : Z)
  | HandshakeTimeout (id : Z)
  | CloseFailed (id : Z) (reason : string).

Inductive Answer : Type := AId (id : Z) | AInfo (i : TlsInfo) | ADone | AFailed (reason : string).

Inductive TlsEvent : Type :=
  | Connected (id : Z) (listen : option Z) (peer : SocketAddr) (version cipher_suite : option string) (alpn : option (list Z))
  | Data (id : Z) (data : list Z)
  | Closed (id : Z)
  | Error (id : Z) (reason : string)
  | Warning (id : Z) (kilobytes : Z).

Definition event_id (e : TlsEvent) : Z :=
  match e with Connected id _ _ _ _ _ | Data id _ | Closed id | Error id _ | Warning id _ => id end.

Definition missing (id : Z) : Answer := AFailed "no such connection".
Definition denied (id : Z) : Answer := AFailed "not the owner".

(** What the service does: replies, [reply_error], events for owners, and commands sent to
    the network service without waiting. *)
Inductive Out : Type :=
  | OReply (p : Pending) (a : Answer)
  | ORefuse (p : Pending)
  | OEmit (owner : Z) (e : TlsEvent)
  | OTell (c : NetService.Command).

(** [net_up]: whether the network service has its name.  [timers]: handshake timers under
    way; [closes]: closes of sockets under way; [posted]: messages to the service itself. *)
Record W : Type := mkW {
  st : State;
  borrowed : bool;
  config : TlsConfig;
  net_up : bool;
  outs : list Out;
  timers : list Z;
  closes : list (Z * SocketId);
  posted : list Command;
  panicked : bool;
}.

Definition on_st (f : State → State) (w : W) := mkW (f (st w)) (borrowed w) (config w) (net_up w) (outs w) (timers w) (closes w) (posted w) (panicked w).
Definition set_borrowed x (w : W) := mkW (st w) x (config w) (net_up w) (outs w) (timers w) (closes w) (posted w) (panicked w).
Definition set_net_up x (w : W) := mkW (st w) (borrowed w) (config w) x (outs w) (timers w) (closes w) (posted w) (panicked w).
Definition out (o : Out) (w : W) := mkW (st w) (borrowed w) (config w) (net_up w) (outs w ++ [o]) (timers w) (closes w) (posted w) (panicked w).
Definition set_timers x (w : W) := mkW (st w) (borrowed w) (config w) (net_up w) (outs w) x (closes w) (posted w) (panicked w).
Definition set_closes x (w : W) := mkW (st w) (borrowed w) (config w) (net_up w) (outs w) (timers w) x (posted w) (panicked w).
Definition set_posted x (w : W) := mkW (st w) (borrowed w) (config w) (net_up w) (outs w) (timers w) (closes w) x (panicked w).
Definition panic (w : W) := mkW (st w) (borrowed w) (config w) (net_up w) (outs w) (timers w) (closes w) (posted w) true.

Definition emit (to : Z) (e : TlsEvent) (w : W) : W := out (OEmit to e) w.

Definition reply (p : Pending) (a : Answer) (w : W) : W := if decide (p_session p = 0) then w else out (OReply p a) w.

(** [net::send], [net::send_low], [net::shutdown]: they fail when there is no network
    service. *)
Definition tell (c : NetService.Command) (w : W) : W * option string :=
  if net_up w then (out (OTell c) w, None) else (w, Some "no network service"%string).

Definition net_shutdown (k : SocketId) (w : W) : W := (tell (NetService.CShutdown k) w).1.

Definition put (id : Z) (c : TlsConnection) (w : W) : W := on_st (λ s, set_connections (<[id := c]> (connections s)) s) w.

(** ** Tables *)

Definition capacity_error (handshake : bool) (w : W) : option string :=
  if decide (max_connections (config w) ≤ len (st w)) then Some "too many connections"%string else
  if decide (handshake = true ∧ max_handshakes (config w) ≤ handshakes (st w)) then Some "too many handshakes"%string else
  None.

(** [remove_listener]; [None] is the panic of [borrow_mut]. *)
Definition remove_listener (id : Z) (w : W) : option W :=
  if borrowed w then None else
  Some (match listeners (st w) !! id with
        | None => w
        | Some l =>
            on_st (λ s, mkState (next_id s) (delete id (listeners s)) (delete (l_socket l) (listener_sockets s))
                          (connections s) (connection_sockets s) (handshakes s)) w
        end).

Definition remove_connection (id : Z) (w : W) : W * option TlsConnection :=
  match connections (st w) !! id with
  | None => (w, None)
  | Some c =>
      (on_st (λ s, mkState (next_id s) (listeners s) (listener_sockets s) (delete id (connections s))
                     (delete (socket c) (connection_sockets s))
                     (if announced c then handshakes s else saturating_sub (handshakes s) 1)) w, Some c)
  end.

(** A new connection; [None] when [allocate] does not end. *)
Definition insert_connection (k : SocketId) (o : Z) (c : TConn) (lis : option Z) (loc : option SocketAddr) (from : SocketAddr)
    (p : option Pending) (hto : Z) (w : W) : option (Z * W) :=
  '(id, s) ← allocate (st w);
  let c := mkConnection k o c lis loc from false false false p None false hto in
  Some (id, on_st (λ _, mkState (next_id s) (listeners s) (listener_sockets s) (<[id := c]> (connections s))
                          (<[k := id]> (connection_sockets s)) (handshakes s + 1)) w).

Definition fail (id : Z) (reason : string) (w : W) : W :=
  match remove_connection id w with
  | (w, None) => w
  | (w, Some c) =>
      let w := net_shutdown (socket c) w in
      let w := match connect_pending c with
               | Some p => reply p (AFailed reason) w
               | None => if announced c then emit (owner c) (Error id reason) w else w
               end in
      match close_pending c with
      | Some p => reply p (AFailed "close failed") w
      | None => w
      end
  end.

Definition handshake_timeout (id : Z) (w : W) : W :=
  if is_some_and (λ c, negb (announced c)) (connections (st w) !! id) then fail id "handshake timeout" w else w.

Definition close_failed (id : Z) (reason : string) (w : W) : W :=
  if decide (is_Some (connections (st w) !! id)) then fail id reason w else w.

Definition arm_timeout (id : Z) (w : W) : W := set_timers (timers w ++ [id]) w.

(** ** Records *)

(** [while wants_write { write_tls }]; [None] is out of fuel. *)
Fixpoint write_out (fuel : nat) (c : TConn) (acc : list Z) : option (TConn * (list Z + string)) :=
  if wants_write c then
    match fuel with
    | O => None
    | S fuel =>
        match write_tls c with
        | (c, inl bs) => write_out fuel c (acc ++ bs)
        | (c, inr e) => Some (c, inr e)
        end
    end
  else Some (c, inl acc).

Definition drain_tls (c : TConn) (acc : list Z) : option (TConn * (list Z + string)) := write_out (S (tls_pending c)) c acc.

Definition flush_tls (id : Z) (high : bool) (w : W) : W * option string :=
  match connections (st w) !! id with
  | None => (w, Some "gone"%string)
  | Some c =>
      match drain_tls (connection c) [] with
      | None => (panic w, None)
      | Some (t, inr e) => (put id (set_connection t c) w, Some e)
      | Some (t, inl encrypted) =>
          let w := put id (set_connection t c) w in
          if decide (encrypted = []) then (w, None) else tell (NetService.CSend (socket c) encrypted high) w
      end
  end.

(** The loop of [encrypt_plaintext]. *)
Fixpoint encrypt_loop (fuel : nat) (c : TConn) (data acc : list Z) : option (TConn * (list Z + string)) :=
  match data with
  | [] => Some (c, inl acc)
  | _ =>
      match fuel with
      | O => None
      | S fuel =>
          match write_plain c data with
          | (c, inr e) => Some (c, inr e)
          | (c, inl n) =>
              if decide (n = 0) then Some (c, inr "buffer_limit"%string) else
              match drain_tls c acc with
              | None => None
              | Some (c, inr e) => Some (c, inr e)
              | Some (c, inl acc) => encrypt_loop fuel c (drop (Z.to_nat n) data) acc
              end
          end
      end
  end.

Definition encrypt_plaintext (id source : Z) (data : list Z) (w : W) : W * ((SocketId * list Z) + string) :=
  match connections (st w) !! id with
  | None => (w, inr "no such connection"%string)
  | Some c =>
      if decide (owner c ≠ source) then (w, inr "not the owner"%string) else
      if negb (announced c) || closing c then (w, inr "cannot send"%string) else
      match encrypt_loop (length data) (connection c) data [] with
      | None => (panic w, inr ""%string)
      | Some (t, inr e) => (put id (set_connection t c) w, inr e)
      | Some (t, inl encrypted) => (put id (set_connection t c) w, inl (socket c, encrypted))
      end
  end.

Definition send_plaintext (id source : Z) (data : list Z) (high : bool) (w : W) : W * Answer :=
  match encrypt_plaintext id source data w with
  | (w, inr e) => (w, AFailed e)
  | (w, inl (k, encrypted)) =>
      if decide (encrypted = []) then (w, ADone) else
      match tell (NetService.CSend k encrypted high) w with
      | (w, None) => (w, ADone)
      | (w, Some e) => (fail id e w, AFailed e)
      end
  end.

(** The inner loop of [receive_tls]: what was read, and an error. *)
Fixpoint read_loop (fuel : nat) (c : TConn) (acc : list Z) : option (TConn * list Z * option string) :=
  match fuel with
  | O => None
  | S fuel =>
      match read_plain c (16 * 1024) with
      | (c, inl []) => Some (c, acc, None)
      | (c, inl bs) => read_loop fuel c (acc ++ bs)
      | (c, inr WouldBlock) => Some (c, acc, None)
      | (c, inr (ReadFailed e)) => Some (c, acc, Some e)
      end
  end.

(** The outer loop; the flag is [peer_close_notify]. *)
Fixpoint decrypt_loop (fuel : nat) (c : TConn) (closed : bool) (data acc : list Z) : option (TConn * bool * (list Z + string)) :=
  match data with
  | [] => Some (c, closed, inl acc)
  | _ =>
      match fuel with
      | O => None
      | S fuel =>
          match read_tls c data with
          | (c, inr e) => Some (c, closed, inr e)
          | (c, inl n) =>
              if decide (n = 0) then Some (c, closed, inr "no progress"%string) else
              match process_new_packets c with
              | (c, inr e) => Some (c, closed, inr e)
              | (c, inl gone) =>
                  let closed := closed || gone in
                  match read_loop (S (plain_pending c)) c acc with
                  | None => None
                  | Some (c, _, Some e) => Some (c, closed, inr e)
                  | Some (c, acc, None) => decrypt_loop fuel c closed (drop (Z.to_nat n) data) acc
                  end
              end
          end
      end
  end.

(** ** Events of sockets *)

Definition announce_if_ready (id : Z) (w : W) : W :=
  match connections (st w) !! id with
  | None => w
  | Some c =>
      if announced c || is_handshaking (connection c) then w else
      let w := on_st (λ s, set_handshakes (saturating_sub (handshakes s) 1) (set_connections (<[id := set_announced c]> (connections s)) s)) w in
      let w := match connect_pending c with Some p => reply p (AId id) w | None => w end in
      emit (owner c)
        (Connected id (listen_id c) (peer c) (version_name (protocol_version (connection c)))
           (negotiated_cipher_suite (connection c)) (alpn_protocol (connection c))) w
  end.

(** The end of [receive_tls]: the plaintext goes to the owner, and a peer that closed is
    closed. *)
Definition deliver (id : Z) (plaintext : list Z) (w : W) : W :=
  match connections (st w) !! id with
  | None => w
  | Some c =>
      let w := if negb (bool_decide (plaintext = [])) && announced c then emit (owner c) (Data id plaintext) w else w in
      if peer_close_notify c then net_shutdown (socket c) w else w
  end.

Definition receive_tls (k : SocketId) (data : list Z) (w : W) : W :=
  match connection_sockets (st w) !! k with
  | None => w
  | Some id =>
      match connections (st w) !! id with
      | None => w
      | Some c =>
          match decrypt_loop (length data) (connection c) (peer_close_notify c) data [] with
          | None => panic w
          | Some (t, closed, r) =>
              let w := put id (set_peer_close_notify closed (set_connection t c)) w in
              match r with
              | inr e => fail id e (flush_tls id true w).1
              | inl plaintext =>
                  match flush_tls id true w with
                  | (w, Some e) => fail id e w
                  | (w, None) => deliver id plaintext (announce_if_ready id w)
                  end
              end
          end
      end
  end.

(** [socket_closed]: in the first [if let] the guard of the scrutinee is alive while
    [remove_listener] borrows. *)
Definition socket_closed (k : SocketId) (err : option string) (w : W) : W :=
  match listener_sockets (st w) !! k with
  | Some id =>
      match remove_listener id (set_borrowed true w) with
      | None => panic w
      | Some w => set_borrowed false w
      end
  | None =>
      match connection_sockets (st w) !! k with
      | None => w
      | Some id =>
          match remove_connection id w with
          | (w, None) => w
          | (w, Some c) =>
              let w := match close_pending c with
                       | Some p => reply p (match err with Some e => AFailed e | None => ADone end) w
                       | None => w
                       end in
              match connect_pending c with
              | Some p => reply p (AFailed (default "closed during the handshake"%string err)) w
              | None =>
                  if negb (announced c) then w else
                  emit (owner c)
                    (match err with
                     | Some e => Error id e
                     | None => if peer_close_notify c || closing c then Closed id else Error id "no close_notify"
                     end) w
              end
          end
      end
  end.

Definition warn (k : SocketId) (kilobytes : Z) (w : W) : W :=
  match connection_sockets (st w) !! k with
  | None => w
  | Some id =>
      match connections (st w) !! id with
      | Some c => if announced c then emit (owner c) (Warning id kilobytes) w else w
      | None => w
      end
  end.

(** ** Suspended handlers *)

(** Handlers that wait for the network service: [connect] for the connection and for its
    addresses, [listen] likewise, [start], [close] of a listener, [pause], [send_wait], and
    the start of an accepted connection. *)
Inductive Task : Type :=
  | TConnect (c : TConn) (hto : option Z) (p : Pending)
  | TConnectInfo (c : TConn) (hto : option Z) (p : Pending) (k : SocketId)
  | TListen (config : ServerTlsConfig) (p : Pending)
  | TListenInfo (config : ServerTlsConfig) (p : Pending) (k : SocketId)
  | TStart (id : Z) (p : Pending)
  | TStartListener (id : Z) (p : Pending)
  | TCloseListener (p : Pending)
  | TPause (id : Z) (p : Pending)
  | TSendWait (id : Z) (p : Pending)
  | TAccept (id : Z).

(** What the network service answers. *)
Inductive NetResult : Type :=
  | RSocket (r : SocketId + string)
  | RInfo (r : option (option SocketAddr * option SocketAddr))    (* the peer and the local address *)
  | RDone (r : option string).

Definition accept (k lis : SocketId) (from : SocketAddr) (w : W) : W * option Task :=
  match listener_sockets (st w) !! lis ≫= λ id, pair id <$> listeners (st w) !! id with
  | None => (net_shutdown k w, None)
  | Some (id, l) =>
      match capacity_error true w, server_new (l_config l) with
      | Some _, _ | None, inr _ => (net_shutdown k w, None)
      | None, inl t =>
          match insert_connection k (l_owner l) (set_buffer_limit (buffer_limit (config w)) t) (Some id) (l_local l) from None
                  (handshake_timeout_ms (config w)) w with
          | None => (panic w, None)
          | Some (id, w) => (w, Some (TAccept id))
          end
      end
  end.

Definition on_socket (e : NetService.SocketEvent) (w : W) : W * option Task :=
  match e with
  | NetService.EAccept k lis from => accept k lis from w
  | NetService.EData k bytes => (receive_tls k bytes w, None)
  | NetService.EClose k => (socket_closed k None w, None)
  | NetService.EError k reason => (socket_closed k (Some reason) w, None)
  | NetService.EWarning k kilobytes => (warn k kilobytes w, None)
  | NetService.EUdp _ _ _ => (w, None)
  end.

(** ** Commands *)

Definition connect (o : ClientOptions) (p : Pending) (w : W) : W * option Task :=
  match capacity_error true w with
  | Some e => (reply p (AFailed e) w, None)
  | None =>
      match client_new (co_config o) (co_server_name o) with
      | inr e => (reply p (AFailed e) w, None)
      | inl c => (w, Some (TConnect c (co_handshake_timeout_ms o) p))
      end
  end.

(** [connect] after [net::connect]. *)
Definition dialed (c : TConn) (hto : option Z) (p : Pending) (r : SocketId + string) (w : W) : W * option Task :=
  match r with
  | inr e => (reply p (AFailed e) w, None)
  | inl k =>
      match capacity_error true w with
      | Some e => (reply p (AFailed e) (net_shutdown k w), None)
      | None => (w, Some (TConnectInfo c hto p k))
      end
  end.

(** [connect] after [net::info]. *)
Definition connected (c : TConn) (hto : option Z) (p : Pending) (k : SocketId) (info : option (option SocketAddr * option SocketAddr)) (w : W) : W :=
  let from := default (V4 0 0) (info ≫= fst) in
  let loc := info ≫= snd in
  match insert_connection k (p_source p) (set_buffer_limit (buffer_limit (config w)) c) None loc from (Some p)
          (default (handshake_timeout_ms (config w)) hto) w with
  | None => panic w
  | Some (id, w) =>
      match flush_tls id true w with
      | (w, Some e) => fail id e w
      | (w, None) => arm_timeout id w
      end
  end.

Definition listen (config : ServerTlsConfig) (p : Pending) (w : W) : W * option Task :=
  match capacity_error false w with
  | Some e => (reply p (AFailed e) w, None)
  | None => (w, Some (TListen config p))
  end.

Definition listening (config : ServerTlsConfig) (p : Pending) (k : SocketId) (loc : option SocketAddr) (w : W) : W :=
  match allocate (st w) with
  | None => panic w
  | Some (id, s) =>
      reply p (AId id)
        (on_st (λ _, mkState (next_id s) (<[id := mkListener k (p_source p) loc config false]> (listeners s))
                       (<[k := id]> (listener_sockets s)) (connections s) (connection_sockets s) (handshakes s)) w)
  end.

Definition start (id : Z) (p : Pending) (w : W) : W * option Task :=
  match connections (st w) !! id with
  | Some c => if decide (owner c ≠ p_source p) then (reply p (denied id) w, None) else (w, Some (TStart id p))
  | None =>
      match listeners (st w) !! id with
      | None => (reply p (missing id) w, None)
      | Some l => if decide (l_owner l ≠ p_source p) then (reply p (denied id) w, None) else (w, Some (TStartListener id p))
      end
  end.

Definition update_connection (id : Z) (f : TlsConnection → TlsConnection) (w : W) : W :=
  match connections (st w) !! id with Some c => put id (f c) w | None => w end.

Definition set_started (id : Z) (w : W) : W :=
  match listeners (st w) !! id with
  | Some l => on_st (λ s, set_listeners (<[id := mkListener (l_socket l) (l_owner l) (l_local l) (l_config l) true]> (listeners s)) s) w
  | None => w
  end.

Definition pause (id : Z) (p : Pending) (w : W) : W * option Task :=
  match connections (st w) !! id with
  | None => (reply p (missing id) w, None)
  | Some c => if decide (owner c ≠ p_source p) then (reply p (denied id) w, None) else (w, Some (TPause id p))
  end.

Definition send_plaintext_wait (id : Z) (data : list Z) (high : bool) (p : Pending) (w : W) : W * option Task :=
  match encrypt_plaintext id (p_source p) data w with
  | (w, inr e) => (reply p (AFailed e) w, None)
  | (w, inl (k, encrypted)) =>
      if decide (encrypted = []) then (reply p ADone w, None) else
      ((tell (NetService.CSendWait k encrypted high) w).1, Some (TSendWait id p))
  end.

Definition close (id : Z) (p : Pending) (w : W) : W * option Task :=
  match listeners (st w) !! id with
  | Some l =>
      if decide (l_owner l ≠ p_source p) then (reply p (denied id) w, None) else
      match remove_listener id w with
      | None => (panic w, None)
      | Some w => (w, Some (TCloseListener p))
      end
  | None =>
      match connections (st w) !! id with
      | None => (reply p (missing id) w, None)
      | Some c =>
          if decide (owner c ≠ p_source p) then (reply p (denied id) w, None) else
          if closing c then (reply p (AFailed "already closing") w, None) else
          let w := put id (set_connection (send_close_notify (connection c)) (set_closing p c)) w in
          match flush_tls id true w with
          | (w, Some e) => (fail id e w, None)
          | (w, None) => (set_closes (closes w ++ [(id, socket c)]) w, None)
          end
      end
  end.

(** [shutdown]: the guard of the [if let] is alive while [remove_listener] borrows. *)
Definition shutdown (id source : Z) (w : W) : W * Answer :=
  match listeners (st w) !! id with
  | Some l =>
      if decide (l_owner l ≠ source) then (w, denied id) else
      match remove_listener id (set_borrowed true w) with
      | None => (panic w, ADone)
      | Some w => (set_borrowed false (net_shutdown (l_socket l) w), ADone)
      end
  | None =>
      match connections (st w) !! id with
      | None => (w, missing id)
      | Some c =>
          if decide (owner c ≠ source) then (w, denied id) else
          match remove_connection id w with
          | (w, None) => (w, ADone)
          | (w, Some c) =>
              let w := net_shutdown (socket c) w in
              (if announced c then emit (owner c) (Closed id) w else w, ADone)
          end
      end
  end.

Definition info (id source : Z) (w : W) : Answer :=
  match listeners (st w) !! id with
  | Some l =>
      if decide (l_owner l ≠ source) then denied id else
      AInfo (mkInfo id (l_owner l) "listener" (if l_started l then "listen" else "prelisten") false (l_local l) None None None None)
  | None =>
      match connections (st w) !! id with
      | Some c => if decide (owner c = source) then AInfo (connection_info id c) else denied id
      | None => missing id
      end
  end.

Definition on_command (p : Pending) (c : Command) (w : W) : W * option Task :=
  match c with
  | Connect o => connect o p w
  | Listen _ config => listen config p w
  | Start id => start id p w
  | Pause id => pause id p w
  | Send id data high => let '(w, a) := send_plaintext id (p_source p) data high w in (reply p a w, None)
  | SendWait id data high => send_plaintext_wait id data high p w
  | Close id => close id p w
  | Shutdown id => let '(w, a) := shutdown id (p_source p) w in (if panicked w then w else reply p a w, None)
  | Info id => (reply p (info id (p_source p) w) w, None)
  | HandshakeTimeout id => (handshake_timeout id w, None)
  | CloseFailed id reason => (close_failed id reason w, None)
  end.

(** The payload of a message, as far as it can be read. *)
Inductive Body : Type := BSocket (e : NetService.SocketEvent) | BCommand (c : Command) | BOther.

Definition refuse (m : Message) (w : W) : W :=
  if needs_reply m then out (ORefuse (mkPending (source m) (session m))) w else w.

Definition dispatch (m : Message) (b : Body) (w : W) : W * option Task :=
  if decide (mtype m = MsgType.SOCKET) then
    match b with BSocket e => on_socket e w | _ => (w, None) end
  else if decide (mtype m ≠ MsgType.USER) then (refuse m w, None)
  else
    match b with
    | BCommand c => on_command (mkPending (source m) (session m)) c w
    | _ => (refuse m w, None)
    end.

(** The rest of a handler. *)
Definition resume (t : Task) (r : NetResult) (w : W) : option (W * option Task) :=
  match t, r with
  | TConnect c hto p, RSocket r => Some (dialed c hto p r w)
  | TConnectInfo c hto p k, RInfo i => Some (connected c hto p k i w, None)
  | TListen config p, RSocket (inl k) => Some (w, Some (TListenInfo config p k))
  | TListen _ p, RSocket (inr e) => Some (reply p (AFailed e) w, None)
  | TListenInfo config p k, RInfo i => Some (listening config p k (i ≫= snd) w, None)
  | TStart id p, RDone None => Some (reply p ADone (update_connection id (set_paused false) w), None)
  | TStart _ p, RDone (Some e) => Some (reply p (AFailed e) w, None)
  | TStartListener id p, RDone None => Some (reply p ADone (set_started id w), None)
  | TStartListener _ p, RDone (Some e) => Some (reply p (AFailed e) w, None)
  | TCloseListener p, RDone None => Some (reply p ADone w, None)
  | TCloseListener p, RDone (Some e) => Some (reply p (AFailed e) w, None)
  | TPause id p, RDone None => Some (reply p ADone (update_connection id (set_paused true) w), None)
  | TPause _ p, RDone (Some e) => Some (reply p (AFailed e) w, None)
  | TSendWait _ p, RDone None => Some (reply p ADone w, None)
  | TSendWait id p, RDone (Some e) => Some (reply p (AFailed e) (fail id e w), None)
  | TAccept id, RDone None => Some (arm_timeout id w, None)
  | TAccept id, RDone (Some e) => Some (fail id e w, None)
  | _, _ => None
  end.

(** ** The service as a system *)

Record Sys : Type := mkSys { world : W; tasks : gmap Z Task }.

Definition sys_new (c : TlsConfig) (up : bool) : Sys := mkSys (mkW state_default false c up [] [] [] [] false) ∅.

Definition settle (c : Z) (r : W * option Task) (s : Sys) : Sys :=
  match r with
  | (w, None) => mkSys w (tasks s)
  | (w, Some t) => mkSys w (<[c := t]> (tasks s))
  end.

(** A message handled as the call [c]; the answer a call waits for; the end of a handshake
    timer; the end of the close of a socket; the delivery of a message to the service
    itself; the network service gets or loses its name. *)
Inductive Event : Type :=
  | EMessage (c : Z) (m : Message) (b : Body)
  | EResume (c : Z) (r : NetResult)
  | ETimer (k : nat)
  | EClosed (k : nat) (r : option string)
  | EPosted (k : nat)
  | ENet (up : bool).

Definition step (ev : Event) (s : Sys) : option Sys :=
  let w := world s in
  if panicked w then None else
  match ev with
  | EMessage c m b => if decide (tasks s !! c = None) then Some (settle c (dispatch m b w) s) else None
  | EResume c r => t ← tasks s !! c; x ← resume t r w; Some (settle c x (mkSys w (delete c (tasks s))))
  | ETimer k =>
      id ← timers w !! k;
      Some (mkSys (set_posted (posted w ++ [HandshakeTimeout id]) (set_timers (delete k (timers w)) w)) (tasks s))
  | EClosed k r =>
      '(id, _) ← closes w !! k;
      let w := set_closes (delete k (closes w)) w in
      Some (mkSys (match r with Some e => set_posted (posted w ++ [CloseFailed id e]) w | None => w end) (tasks s))
  | EPosted k =>
      c ← posted w !! k;
      Some (mkSys (on_command (mkPending 0 0) c (set_posted (delete k (posted w)) w)).1 (tasks s))
  | ENet up => Some (mkSys (set_net_up up w) (tasks s))
  end.

Fixpoint run (evs : list Event) (s : Sys) : option Sys :=
  match evs with
  | [] => Some s
  | ev :: evs => s ← step ev s; run evs s
  end.
End tls.
End TlsService.
