(* ===== verification/TlsBooks.v ===== *)
(** * What the TLS service promises

    Over any run of [TlsService.v]: its loops end; its tables agree with each other and
    its count of handshakes is exact; what it has told the owners of connections is, at
    every moment, which connections are theirs; every caller is answered once or waiting;
    a handshake is watched by a timer.  And where it falls short: a listener that is shut
    down takes the node with it, a shutdown forgets a caller of close, connects under way
    together pass the limits, and records sent with two priorities overtake each other. *)
From S2P Require Import Prelude Message NetBuffer NetSocket NetService TlsService.
From stdpp Require Import strings.
#[local] Open Scope Z_scope.

Module TlsBooks.
Import NetSocket(SocketId, Pending, mkPending, p_source, p_session).
Import TlsService.

Section books.
Context `{TlsEngine} `{!TlsLaws}.

(** ** The loops end *)

Lemma write_out_total fuel c acc : (tls_pending c < fuel)%nat → is_Some (write_out fuel c acc).
Proof.
  revert c acc. induction fuel as [|fuel IH]; intros c acc Hf; [lia|]. cbn.
  destruct (wants_write c) eqn:Hw; [|done]. destruct (write_tls c) as [c' [bs|e]] eqn:Hr; [|done].
  apply IH. pose proof (write_tls_progress c c' bs Hw Hr). lia.
Qed.

Lemma drain_tls_total c acc : is_Some (drain_tls c acc).
Proof. apply write_out_total. lia. Qed.

Lemma drop_shorter (data : list Z) n : 0 ≤ n ≤ Z.of_nat (length data) → n ≠ 0 → (length (drop (Z.to_nat n) data) < length data)%nat.
Proof. intros. rewrite length_drop. lia. Qed.

Lemma encrypt_loop_total fuel c data acc : (length data ≤ fuel)%nat → is_Some (encrypt_loop fuel c data acc).
Proof.
  revert c data acc. induction fuel as [|fuel IH]; intros c [|b data] acc Hf; cbn in Hf; try done; [lia|]. cbn [encrypt_loop].
  destruct (write_plain c (b :: data)) as [c' [n|e]] eqn:Hw; [|done]. case_decide as Hn; [done|].
  destruct (drain_tls_total c' acc) as [[c2 [acc2|e]] ->]; [|done]. apply IH.
  pose proof (drop_shorter (b :: data) n (write_plain_used _ _ _ _ Hw) Hn). cbn [length] in *. lia.
Qed.

Lemma read_loop_total fuel c acc : (plain_pending c < fuel)%nat → is_Some (read_loop fuel c acc).
Proof.
  revert c acc. induction fuel as [|fuel IH]; intros c acc Hf; [lia|]. cbn.
  destruct (read_plain c (16 * 1024)) as [c' [[|b bs]|[|e]]] eqn:Hr; [done| |done|done].
  apply IH. pose proof (read_plain_progress _ _ _ _ Hr ltac:(done)). lia.
Qed.

Lemma decrypt_loop_total fuel c closed data acc : (length data ≤ fuel)%nat → is_Some (decrypt_loop fuel c closed data acc).
Proof.
  revert c closed data acc. induction fuel as [|fuel IH]; intros c closed [|b data] acc Hf; cbn in Hf; try done; [lia|]. cbn [decrypt_loop].
  destruct (read_tls c (b :: data)) as [c' [n|e]] eqn:Hr; [|done]. case_decide as Hn; [done|].
  destruct (process_new_packets c') as [c2 [gone|e]]; [|done].
  destruct (read_loop_total (S (plain_pending c2)) c2 acc ltac:(lia)) as [[[c3 acc3] [e|]] ->]; [done|]. apply IH.
  pose proof (drop_shorter (b :: data) n (read_tls_used _ _ _ _ Hr) Hn). cbn [length] in *. lia.
Qed.

(** The numbers [allocate] tries: [1 .. 2^32 - 1], round and round. *)
Definition top : Z := 2 ^ 32 - 1.

Definition candidate (n k : Z) : Z := 1 + (n + k - 1) mod top.

Lemma candidate_first n : 0 ≤ n < 2 ^ 32 → Z.max 1 ((n + 1) mod 2 ^ 32) = candidate n 1.
Proof.
  intros Hn. unfold candidate, top. replace (n + 1 - 1) with n by lia.
  destruct (decide (n = 2 ^ 32 - 1)) as [->|]; [done|]. rewrite !Z.mod_small by lia. lia.
Qed.

Lemma candidate_bounds n k : 1 ≤ candidate n k ≤ top.
Proof. unfold candidate. pose proof (Z.mod_pos_bound (n + k - 1) top ltac:(unfold top; lia)). lia. Qed.

Lemma candidate_next n k : candidate (candidate n 1) k = candidate n (k + 1).
Proof.
  unfold candidate. replace (1 + (n + 1 - 1) mod top + k - 1) with (k + n mod top) by (replace (n + 1 - 1) with n by lia; lia).
  rewrite Zplus_mod_idemp_r. do 2 f_equal. lia.
Qed.

Lemma candidate_differs n j k : 1 ≤ j ≤ top → 1 ≤ k ≤ top → candidate n j = candidate n k → j = k.
Proof.
  intros Hj Hk Heq. unfold candidate in Heq. assert (Hd : (j - k) mod top = 0).
  { replace (j - k) with ((n + j - 1) - (n + k - 1)) by lia. rewrite Zminus_mod.
    replace ((n + j - 1) mod top) with ((n + k - 1) mod top) by lia. by rewrite Z.sub_diag. }
  apply Z.mod_divide in Hd as [q Hq]; [|unfold top; lia]. assert (q = 0) by (unfold top in *; nia). lia.
Qed.

Definition taken (s : State) (id : Z) : Prop := is_Some (listeners s !! id) ∨ is_Some (connections s !! id).

Lemma allocate_loop_spec fuel s :
  0 ≤ next_id s < 2 ^ 32 →
  match allocate_loop fuel s with
  | Some (id, s') => 1 ≤ id < 2 ^ 32 ∧ s' = set_next_id id s ∧ ¬ taken s id
  | None => ∀ k, 1 ≤ k ≤ Z.of_nat fuel → taken s (candidate (next_id s) k)
  end.
Proof.
  revert s. induction fuel as [|fuel IH]; intros s Hs; cbn [allocate_loop]; [lia|]. rewrite candidate_first by done.
  pose proof (candidate_bounds (next_id s) 1) as Hb. unfold top in Hb. case_decide as Hfree.
  - split_and!; [lia|lia|done|]. intros [[? Hx]|[? Hx]]; cbn in Hfree; destruct Hfree; congruence.
  - assert (Ht : taken s (candidate (next_id s) 1)).
    { unfold taken. cbn in Hfree. destruct (listeners s !! _), (connections s !! _); eauto. by destruct Hfree. }
    specialize (IH (set_next_id (candidate (next_id s) 1) s) ltac:(cbn; lia)). destruct (allocate_loop _ _) as [[id s']|].
    + exact IH.
    + intros k Hk. destruct (decide (k = 1)) as [->|]; [done|]. specialize (IH (k - 1) ltac:(lia)). cbn in IH.
      rewrite candidate_next in IH. by replace (k - 1 + 1) with k in IH by lia.
Qed.

Definition used (s : State) : nat := size (listeners s) + size (connections s).

(** A number is free among one more than there are entries. *)
Lemma allocate_total s :
  0 ≤ next_id s < 2 ^ 32 → Z.of_nat (used s) < top →
  ∃ id, allocate s = Some (id, set_next_id id s) ∧ 1 ≤ id < 2 ^ 32 ∧ listeners s !! id = None ∧ connections s !! id = None.
Proof.
  intros Hn Hu. unfold allocate. pose proof (allocate_loop_spec (S (used s)) s Hn) as Hspec. unfold used in *.
  destruct (allocate_loop _ s) as [[id s']|].
  { destruct Hspec as (? & -> & Hf). exists id. unfold taken in Hf. split_and!; [done|lia|lia|..]; apply eq_None_not_Some; tauto. }
  exfalso. set (l := candidate (next_id s) <$> seqZ 1 (Z.of_nat (S (used s)))).
  assert (Hnd : NoDup l).
  { apply NoDup_fmap_2_strong; [|apply NoDup_seqZ]. intros j k Hj Hk. rewrite !elem_of_seqZ in *. apply candidate_differs; unfold used in *; lia. }
  assert (Hsub : list_to_set l ⊆ (dom (listeners s) ∪ dom (connections s) : gset Z)).
  { intros x Hx. apply elem_of_list_to_set, list_elem_of_fmap in Hx as (k & -> & Hk). rewrite elem_of_seqZ in Hk.
    rewrite elem_of_union, !elem_of_dom. apply Hspec. unfold used in *. lia. }
  apply subseteq_size in Hsub. rewrite size_list_to_set in Hsub by done. pose proof (size_union_alt (dom (listeners s) : gset Z) (dom (connections s))) as Hal.
  assert (size (dom (connections s) ∖ dom (listeners s) : gset Z) ≤ size (connections s))%nat.
  { rewrite <-size_dom. apply subseteq_size. set_solver. }
  rewrite Hal, size_dom in Hsub. subst l. rewrite length_fmap, length_seqZ in Hsub. unfold used in *. lia.
Qed.

(** ** The books *)

Definition unready (c : TlsConnection) : Z := if announced c then 0 else 1.

(** The tables agree, numbers are used once, the count of handshakes is exact. *)
Record base (w : W) : Prop := {
  b_free : borrowed w = false;
  b_next : 0 ≤ next_id (st w) < 2 ^ 32;
  b_ids id : listeners (st w) !! id = None ∨ connections (st w) !! id = None;
  b_count : handshakes (st w) = map_sum unready (connections (st w));
  b_pend id c : connections (st w) !! id = Some c → announced c = true → connect_pending c = None;
  b_cs k id : connection_sockets (st w) !! k = Some id ↔ ∃ c, connections (st w) !! id = Some c ∧ socket c = k;
  b_ls k id : listener_sockets (st w) !! k = Some id ↔ ∃ l, listeners (st w) !! id = Some l ∧ l_socket l = k;
  b_close id c : connections (st w) !! id = Some c → closing c = false → close_pending c = None;
}.

(** What owners know: a connection is theirs from [Connected] to [Close] or [Error], and
    they hear of it only in between. *)
Definition track (m : gmap Z Z) (o : Out) : option (gmap Z Z) :=
  match o with
  | OEmit to (Connected id _ _ _ _ _) => if decide (m !! id = None) then Some (<[id := to]> m) else None
  | OEmit to (Data id _ | Warning id _) => if decide (m !! id = Some to) then Some m else None
  | OEmit to (Closed id | Error id _) => if decide (m !! id = Some to) then Some (delete id m) else None
  | _ => Some m
  end.

Fixpoint tracks (m : gmap Z Z) (os : list Out) : option (gmap Z Z) :=
  match os with
  | [] => Some m
  | o :: os => m ← track m o; tracks m os
  end.

Definition told (cs : gmap Z TlsConnection) : gmap Z Z := omap (λ c, if announced c then Some (owner c) else None) cs.

(** Callers. *)
Definition is_caller (x : Z * Z) (p : Pending) : Z := if decide ((p_source p, p_session p) = x) then 1 else 0.

Definition opt (x : Z * Z) (o : option Pending) : Z := from_option (is_caller x) 0 o.

Definition answers (x : Z * Z) (o : Out) : Z := match o with OReply p _ | ORefuse p => is_caller x p | _ => 0 end.

Definition answered (x : Z * Z) (os : list Out) : Z := foldr (λ o acc, answers x o + acc) 0 os.

#[local] Arguments answered : simpl never.
#[local] Arguments map_sum : simpl never.

Definition waits (x : Z * Z) (c : TlsConnection) : Z := opt x (connect_pending c) + opt x (close_pending c).

Definition total (x : Z * Z) (w : W) : Z := answered x (outs w) + map_sum (waits x) (connections (st w)).

Definition known_socket (w : W) (k : SocketId) : Prop := is_Some (connection_sockets (st w) !! k) ∨ is_Some (listener_sockets (st w) !! k).

(** A piece of a handler: it keeps the tables in order, takes what owners know from [m] to
    [m'], and changes the account of the caller [x] by [h x].  New connections are in [N],
    new sockets in [K]. *)
Record goes (N : gset Z) (K : gset SocketId) (m m' : gmap Z Z) (h : Z * Z → Z) (w w' : W) : Prop := {
  g_base : base w → base w';
  g_told m0 : tracks m0 (outs w) = Some m → tracks m0 (outs w') = Some m';
  g_total x : x.2 ≠ 0 → total x w' = total x w + h x;
  g_panic : panicked w' = panicked w;
  g_new id c' : connections (st w') !! id = Some c' → announced c' = false →
    id ∈ N ∨ ∃ c, connections (st w) !! id = Some c ∧ announced c = false;
  g_timers : ∃ l, timers w' = timers w ++ l;
  g_posted : posted w' = posted w;
  g_used : (used (st w') ≤ used (st w) + size K)%nat;
  g_socks k : known_socket w' k → k ∈ K ∨ known_socket w k;
}.

Abbreviation keeps := (goes ∅ ∅).

Lemma tls_keeps_refl m w : keeps m m (λ _, 0) w w.
Proof. split; [done|done|lia|done|eauto|by exists []; rewrite app_nil_r|done|lia|auto]. Qed.

Lemma tls_goes_trans N K m1 m2 m3 h1 h2 w1 w2 w3 :
  goes N K m1 m2 h1 w1 w2 → keeps m2 m3 h2 w2 w3 → goes N K m1 m3 (λ x, h1 x + h2 x) w1 w3.
Proof.
  intros [A1 A2 A3 A4 A5 A6 A7 A8 A9] [B1 B2 B3 B4 B5 B6 B7 B8 B9]. split; [auto|auto| |congruence| | |congruence| |].
  - intros x Hx. rewrite (B3 x Hx), (A3 x Hx). lia.
  - intros id c' Hc Ha. destruct (B5 id c' Hc Ha) as [?|(c & Hc2 & Ha2)]; [set_solver|eauto].
  - destruct A6 as [l Hl], B6 as [l' Hl']. exists (l ++ l'). by rewrite Hl', Hl, app_assoc.
  - rewrite size_empty in B8. lia.
  - intros k Hk. destruct (B9 k Hk) as [?|?]; [set_solver|auto].
Qed.

Lemma tls_goes_ext N K m m' h h' w w' : (∀ x, x.2 ≠ 0 → h x = h' x) → goes N K m m' h w w' → goes N K m m' h' w w'.
Proof. intros Hh [A1 A2 A3 A4 A5 A6 A7 A8 A9]. split; try done. intros x Hx. rewrite <-(Hh x Hx). auto. Qed.

Lemma tracks_app m os os' : tracks m (os ++ os') = m ← tracks m os; tracks m os'.
Proof. revert m. induction os as [|o os IH]; intros m; cbn; [done|]. destruct (track m o); cbn; auto. Qed.

Lemma tls_answered_app x os os' : answered x (os ++ os') = answered x os + answered x os'.
Proof. unfold answered. induction os as [|o os IH]; cbn; lia. Qed.

Lemma out_goes o m m' w : track m o = Some m' → keeps m m' (λ x, answers x o) w (out o w).
Proof.
  intros Ht. split; cbn; try done; eauto; [by intros [????? ? ??]| | |exists []; by rewrite app_nil_r|lia].
  - intros m0 Hm. rewrite tracks_app, Hm. cbn. by rewrite Ht.
  - intros x _. unfold total. cbn. rewrite tls_answered_app. unfold answered at 2. cbn. lia.
Qed.

Lemma tls_reply_goes p a m w : keeps m m (λ x, is_caller x p) w (reply p a w).
Proof.
  unfold reply. case_decide as Hz; [|by apply (out_goes (OReply p a))].
  eapply tls_goes_ext; [|apply tls_keeps_refl]. intros x Hx. unfold is_caller. case_decide as Hp; [|done]. subst x. cbn in Hx. congruence.
Qed.

Lemma tell_goes c m w : keeps m m (λ _, 0) w (tell c w).1.
Proof. unfold tell. destruct (net_up w); [by apply (out_goes (OTell c))|apply tls_keeps_refl]. Qed.

Lemma shutdown_goes k m w : keeps m m (λ _, 0) w (net_shutdown k w).
Proof. apply tell_goes. Qed.

(** A step that only touches fields the books do not mention. *)
Lemma idle_goes m w w' :
  st w' = st w → borrowed w' = borrowed w → outs w' = outs w → panicked w' = panicked w → posted w' = posted w →
  (∃ l, timers w' = timers w ++ l) → keeps m m (λ _, 0) w w'.
Proof.
  intros Hs Hb Ho Hp Hq Ht. split; try done; rewrite ?Ho, ?Hs; try done; eauto; [|by intros x _; unfold total; rewrite Ho, Hs; lia|lia|].
  - intros [B1 B2 B3 B4 B5 B6 B7 B8]. split; rewrite ?Hs, ?Hb; done.
  - unfold known_socket. rewrite Hs. auto.
Qed.

(** ** Changes of the tables *)

Lemma told_insert id c cs : told (<[id := c]> cs) = if announced c then <[id := owner c]> (told cs) else delete id (told cs).
Proof. unfold told. destruct (announced c) eqn:Ha; [by erewrite omap_insert_Some by by rewrite Ha|by rewrite omap_insert_None by by rewrite Ha]. Qed.

Lemma told_delete id cs : told (delete id cs) = delete id (told cs).
Proof. apply omap_delete. Qed.

Lemma told_lookup id cs : told cs !! id = (c ← cs !! id; if announced c then Some (owner c) else None).
Proof. apply lookup_omap. Qed.

(** The same connection, with its owner and socket. *)
Record same (c c' : TlsConnection) : Prop := {
  s_announced : announced c' = announced c;
  s_owner : owner c' = owner c;
  s_socket : socket c' = socket c;
  s_pend : announced c = true → connect_pending c = None → connect_pending c' = None;
  s_close : (closing c = false → close_pending c = None) → closing c' = false → close_pending c' = None;
}.

Lemma tls_put_goes id c c' m w :
  connections (st w) !! id = Some c → same c c' → keeps m m (λ x, waits x c' - waits x c) w (put id c' w).
Proof.
  intros Hc [Ha Ho Hs Hp Hcl]. split; cbn; try done; eauto.
  - intros [B1 B2 B3 B4 B5 B6 B7 B8]. split; cbn; try done.
    + intros j. destruct (B3 j) as [?|?]; [by left|right]. rewrite lookup_insert_ne; [done|]. intros ->. congruence.
    + rewrite map_sum_insert, Hc, B4. cbn. unfold unready. rewrite Ha. lia.
    + intros j d. rewrite lookup_insert_Some. intros [[<- <-]|[_ Hd]]; [|by apply (B5 j)]. rewrite Ha. intros Ht. apply Hp; [done|]. by apply (B5 id).
    + intros k j. rewrite B6. split.
      * intros (d & Hd & <-). destruct (decide (j = id)) as [->|]; [|exists d; by rewrite lookup_insert_ne].
        exists c'. rewrite lookup_insert_eq. split; [done|]. congruence.
      * intros (d & Hd & <-). revert Hd. rewrite lookup_insert_Some. intros [[<- <-]|[_ Hd]]; [|eauto]. exists c. by rewrite Hs.
    + intros j d. rewrite lookup_insert_Some. intros [[<- <-]|[_ Hd]]; [|by apply (B8 j)]. apply Hcl. by apply (B8 id).
  - intros x _. unfold total. cbn. rewrite map_sum_insert, Hc. cbn. lia.
  - intros j d. rewrite lookup_insert_Some. intros [[<- <-]|[_ Hd]] Hf; [|eauto]. right. exists c. split; [done|]. congruence.
  - exists []. by rewrite app_nil_r.
  - unfold used. cbn. rewrite map_size_insert_Some by eauto. lia.
Qed.

Lemma told_same id c c' cs : cs !! id = Some c → same c c' → told (<[id := c']> cs) = told cs.
Proof.
  intros Hc [Ha Ho _ _ _]. rewrite told_insert, Ha, Ho. destruct (announced c) eqn:E.
  - apply insert_id. rewrite told_lookup, Hc. cbn. by rewrite E.
  - apply delete_id. rewrite told_lookup, Hc. cbn. by rewrite E.
Qed.

Lemma unready_nonneg c : 0 ≤ unready c.
Proof. unfold unready. destruct (announced c); lia. Qed.

(** A connection that is removed is still known to its owner, if it was announced. *)
Lemma tls_remove_goes id c w m :
  connections (st w) !! id = Some c → keeps m m (λ x, - waits x c) w (remove_connection id w).1.
Proof.
  intros Hc. unfold remove_connection. rewrite Hc. cbn. split; cbn; try done; eauto.
  - intros [B1 B2 B3 B4 B5 B6 B7 B8]. split; cbn; try done.
    + intros j. destruct (B3 j) as [?|?]; [by left|right]. by apply lookup_delete_None; right.
    + rewrite map_sum_delete, Hc, <-B4. cbn. pose proof (map_sum_ge unready _ id c unready_nonneg Hc). unfold unready in *.
      destruct (announced c); unfold saturating_sub; lia.
    + intros j d. rewrite lookup_delete_Some. intros [_ Hd]. by apply (B5 j).
    + intros k j. rewrite lookup_delete_Some, B6. split.
      * intros (Hk & d & Hd & <-). exists d. rewrite lookup_delete_Some. split_and!; try done. intros <-. congruence.
      * intros (d & Hd & <-). revert Hd. rewrite lookup_delete_Some. intros [Hne Hd]. split; [|by exists d]. intros Heq.
        apply Hne. assert (H1 : connection_sockets (st w) !! socket c = Some id) by (apply B6; eauto).
        assert (H2 : connection_sockets (st w) !! socket d = Some j) by (apply B6; eauto). congruence.
    + intros j d. rewrite lookup_delete_Some. intros [_ Hd]. by apply (B8 j).
  - intros x _. unfold total. cbn. rewrite map_sum_delete, Hc. cbn. lia.
  - intros j d. rewrite lookup_delete_Some. intros [_ Hd]. eauto.
  - exists []. by rewrite app_nil_r.
  - unfold used. cbn. rewrite map_size_delete_Some by eauto. lia.
  - intros k [[j Hj]|Hk]; [|right; by right]. revert Hj. cbn. rewrite lookup_delete_Some. intros [_ Hj]. right. left. eauto.
Qed.

(** ** Pieces of handlers *)

Abbreviation seen w := (told (connections (st w))).

Lemma st_reply p a w : st (reply p a w) = st w.
Proof. unfold reply. by case_decide. Qed.

Lemma st_tell c w : st (tell c w).1 = st w.
Proof. unfold tell. by destruct (net_up w). Qed.

Lemma st_shutdown k w : st (net_shutdown k w) = st w.
Proof. apply st_tell. Qed.

Lemma keeps_step m1 m2 m3 h h1 w w1 w2 :
  keeps m1 m2 h1 w w1 → keeps m2 m3 (λ x, h x - h1 x) w1 w2 → keeps m1 m3 h w w2.
Proof. intros H1 H2. eapply tls_goes_ext; [|eapply tls_goes_trans; [exact H1|exact H2]]. intros x _. cbn. lia. Qed.

Lemma keeps_done m h w : (∀ x, x.2 ≠ 0 → h x = 0) → keeps m m h w w.
Proof. intros Hh. eapply tls_goes_ext; [|apply tls_keeps_refl]. intros x Hx. by rewrite Hh. Qed.

Lemma same_set_connection t c : same c (set_connection t c).
Proof. by split. Qed.

Lemma update_goes id c c' m w :
  connections (st w) !! id = Some c → same c c' → (∀ x, waits x c' = waits x c) → keeps m m (λ _, 0) w (put id c' w).
Proof. intros Hc Hs Hw. eapply tls_goes_ext; [|by eapply tls_put_goes]. intros x _. cbn. rewrite Hw. lia. Qed.

Lemma flush_goes id high w :
  (∀ m, keeps m m (λ _, 0) w (flush_tls id high w).1)
  ∧ ∀ c, connections (st w) !! id = Some c →
      ∃ t, connections (st (flush_tls id high w).1) = <[id := set_connection t c]> (connections (st w)).
Proof.
  unfold flush_tls. destruct (connections (st w) !! id) as [c|] eqn:Hc; [|split; [intros; apply tls_keeps_refl|done]].
  destruct (drain_tls_total (connection c) []) as [[t [bs|e]] ->]; cbn.
  - assert (Hp : ∀ m, keeps m m (λ _, 0) w (put id (set_connection t c) w)) by (intros; by eapply update_goes).
    case_decide; [split; [done|intros ? [= <-]; by eexists]|]. rewrite st_tell. split; [|intros ? [= <-]; by eexists].
    intros m. eapply keeps_step; [apply Hp|]. eapply tls_goes_ext; [|apply tell_goes]. done.
  - split; [intros; by eapply update_goes|intros ? [= <-]; by eexists].
Qed.

Lemma flush_seen id high w : seen (flush_tls id high w).1 = seen w.
Proof.
  destruct (connections (st w) !! id) as [c|] eqn:Hc.
  - destruct (flush_goes id high w) as [_ Hf]. destruct (Hf c Hc) as [t ->]. by eapply told_same.
  - unfold flush_tls. by rewrite Hc.
Qed.

Lemma told_none id cs c : cs !! id = Some c → announced c = false → told cs !! id = None.
Proof. intros Hc Ha. rewrite told_lookup, Hc. cbn. by rewrite Ha. Qed.

Lemma told_some id cs c : cs !! id = Some c → announced c = true → told cs !! id = Some (owner c).
Proof. intros Hc Ha. rewrite told_lookup, Hc. cbn. by rewrite Ha. Qed.

Lemma optional_reply_goes (o : option Pending) a m w :
  keeps m m (λ x, opt x o) w (match o with Some p => reply p a w | None => w end).
Proof. destruct o as [p|]; cbn; [apply tls_reply_goes|apply tls_keeps_refl]. Qed.

(** The owner of a connection that is removed is told, if it knew of it. *)
Lemma farewell_goes id c cs e w :
  cs !! id = Some c → match e with Closed i | Error i _ => i = id | _ => False end →
  keeps (told cs) (told (delete id cs)) (λ _, 0) w (if announced c then emit (owner c) e w else w).
Proof.
  intros Hc He. rewrite told_delete. destruct (announced c) eqn:Ha.
  - eapply tls_goes_ext; [|apply (out_goes (OEmit (owner c) e))]; [done|]. pose proof (told_some _ _ _ Hc Ha) as Ht.
    destruct e; try done; subst; cbn; by rewrite decide_True.
  - rewrite delete_id by by eapply told_none. apply tls_keeps_refl.
Qed.

Lemma fail_goes id e w : base w → keeps (seen w) (seen (fail id e w)) (λ _, 0) w (fail id e w).
Proof.
  intros Hb. unfold fail. destruct (connections (st w) !! id) as [c|] eqn:Hc.
  2:{ unfold remove_connection. rewrite Hc. apply tls_keeps_refl. }
  pose proof (tls_remove_goes id c w (seen w) Hc) as Hr. unfold remove_connection in *. rewrite Hc in *. cbn [fst] in Hr.
  set (w1 := on_st _ w) in *. cbv zeta. set (w2 := net_shutdown (socket c) w1).
  set (w3 := match connect_pending c with Some p => reply p (AFailed e) w2 | None => _ end).
  assert (Hst : st w3 = st w1).
  { unfold w3, w2. destruct (connect_pending c); [by rewrite st_reply, st_shutdown|]. destruct (announced c); cbn; by rewrite st_shutdown. }
  assert (H3 : keeps (seen w) (seen w1) (λ x, - opt x (close_pending c)) w w3).
  { eapply keeps_step; [exact Hr|]. eapply keeps_step; [apply shutdown_goes|]. unfold w3. fold w2. destruct (connect_pending c) as [p|] eqn:Hp.
    - assert (Ha : announced c = false) by (destruct (announced c) eqn:Ha; [|done]; rewrite (b_pend w Hb id c Hc Ha) in Hp; done).
      cbn. rewrite told_delete, delete_id by by eapply told_none. eapply tls_goes_ext; [|apply tls_reply_goes].
      intros x _. unfold waits. rewrite Hp. cbn. lia.
    - eapply tls_goes_ext; [|by apply farewell_goes]. intros x _. unfold waits. rewrite Hp. cbn. lia. }
  eapply keeps_step; [exact H3|]. replace (st (match close_pending c with Some p => _ | None => w3 end)) with (st w3)
    by (destruct (close_pending c); by rewrite ?st_reply).
  rewrite Hst. eapply tls_goes_ext; [|apply (optional_reply_goes (close_pending c))]. intros x _. cbn. lia.
Qed.

Lemma fail_conns id e w : connections (st (fail id e w)) = delete id (connections (st w)).
Proof.
  unfold fail, remove_connection. destruct (connections (st w) !! id) as [d|] eqn:Hd; [|by rewrite delete_id]. cbv zeta.
  destruct (connect_pending d), (close_pending d), (announced d); cbn; rewrite ?st_reply; cbn; rewrite ?st_reply, ?st_shutdown; done.
Qed.

Lemma socket_closed_goes k err w :
  base w → listener_sockets (st w) !! k = None → keeps (seen w) (seen (socket_closed k err w)) (λ _, 0) w (socket_closed k err w).
Proof.
  intros Hb Hl. unfold socket_closed. rewrite Hl. destruct (connection_sockets (st w) !! k) as [id|]; [|apply tls_keeps_refl].
  destruct (connections (st w) !! id) as [c|] eqn:Hc.
  2:{ unfold remove_connection. rewrite Hc. apply tls_keeps_refl. }
  pose proof (tls_remove_goes id c w (seen w) Hc) as Hr. unfold remove_connection in *. rewrite Hc in *. cbn [fst] in Hr.
  set (w1 := on_st _ w) in *. cbv zeta.
  set (w2 := match close_pending c with Some p => reply p _ w1 | None => w1 end).
  assert (Hst : st w2 = st w1) by (unfold w2; destruct (close_pending c); by rewrite ?st_reply).
  assert (H2 : keeps (seen w) (seen w) (λ x, - opt x (connect_pending c)) w w2).
  { eapply keeps_step; [exact Hr|]. unfold w2. eapply tls_goes_ext; [|apply (optional_reply_goes (close_pending c))]. intros x _. unfold waits. lia. }
  destruct (connect_pending c) as [p|] eqn:Hp.
  - assert (Ha : announced c = false) by (destruct (announced c) eqn:Ha; [|done]; rewrite (b_pend w Hb id c Hc Ha) in Hp; done).
    rewrite st_reply, Hst. eapply keeps_step; [exact H2|]. cbn. rewrite told_delete, delete_id by by eapply told_none.
    eapply tls_goes_ext; [|apply tls_reply_goes]. intros x _. cbn. lia.
  - set (e := match err with Some e => _ | None => _ end). pose proof (farewell_goes id c (connections (st w)) e w2 Hc) as Hf.
    eapply keeps_step; [exact H2|]. destruct (announced c) eqn:Ha; cbn; rewrite ?Hst; (eapply tls_goes_ext; [|apply Hf]); try done;
      unfold e; destruct err; try done; by destruct (peer_close_notify c || closing c).
Qed.

Lemma announce_goes id w : base w → keeps (seen w) (seen (announce_if_ready id w)) (λ _, 0) w (announce_if_ready id w).
Proof.
  intros Hb. unfold announce_if_ready. destruct (connections (st w) !! id) as [c|] eqn:Hc; [|apply tls_keeps_refl].
  destruct (announced c) eqn:Ha; [apply tls_keeps_refl|]. destruct (is_handshaking _); [apply tls_keeps_refl|]. cbn [orb]. cbv zeta.
  set (w1 := on_st _ w). set (w2 := match connect_pending c with Some p => reply p (AId id) w1 | None => w1 end).
  assert (Hst : st w2 = st w1) by (unfold w2; destruct (connect_pending c); by rewrite ?st_reply).
  assert (H1 : keeps (seen w) (seen w) (λ x, - opt x (connect_pending c)) w w1).
  { split; cbn; try done; eauto.
    - intros [B1 B2 B3 B4 B5 B6 B7 B8]. split; cbn; try done.
      + intros j. destruct (B3 j) as [?|?]; [by left|right]. rewrite lookup_insert_ne; [done|]. intros ->. congruence.
      + pose proof (map_sum_ge unready _ id c unready_nonneg Hc). rewrite map_sum_insert, Hc, <-B4 in *. cbn. unfold unready in *.
        rewrite Ha in *. cbn. unfold saturating_sub. lia.
      + intros j d. rewrite lookup_insert_Some. intros [[<- <-]|[_ Hd]]; [done|by apply (B5 j)].
      + intros k j. rewrite B6. split.
        * intros (d & Hd & <-). destruct (decide (j = id)) as [->|]; [|exists d; by rewrite lookup_insert_ne].
          exists (set_announced c). rewrite lookup_insert_eq. split; [done|]. by assert (d = c) as -> by congruence.
        * intros (d & Hd & <-). revert Hd. rewrite lookup_insert_Some. intros [[<- <-]|[_ Hd]]; [|eauto]. by exists c.
      + intros j d. rewrite lookup_insert_Some. intros [[<- <-]|[_ Hd]]; [exact (B8 id c Hc)|by apply (B8 j)].
    - intros x _. unfold total. cbn. rewrite map_sum_insert, Hc. cbn [from_option].
      assert (waits x (set_announced c) = waits x c - opt x (connect_pending c)) by (unfold waits; cbn [set_announced connect_pending close_pending]; change (opt x None) with 0; lia). lia.
    - intros j d. rewrite lookup_insert_Some. intros [[<- <-]|[_ Hd]] Hf; [done|eauto].
    - exists []. by rewrite app_nil_r.
    - unfold used. cbn. rewrite map_size_insert_Some by eauto. lia. }
  cbn. rewrite Hst. cbn. rewrite told_insert. cbn. eapply keeps_step; [exact H1|]. eapply keeps_step; [apply optional_reply_goes|].
  eapply tls_goes_ext; [|apply (out_goes (OEmit (owner c) _))]; [intros x _; cbn; lia|]. cbn. by rewrite decide_True by by eapply told_none.
Qed.

Lemma deliver_goes id bs w : keeps (seen w) (seen (deliver id bs w)) (λ _, 0) w (deliver id bs w).
Proof.
  unfold deliver. destruct (connections (st w) !! id) as [c|] eqn:Hc; [|apply tls_keeps_refl]. cbv zeta.
  set (w1 := if _ && announced c then _ else w). assert (Hst : st w1 = st w) by (unfold w1; by destruct (_ && announced c)).
  assert (H1 : keeps (seen w) (seen w) (λ _, 0) w w1).
  { unfold w1. destruct (_ && announced c) eqn:Hb; [|apply tls_keeps_refl]. apply andb_prop in Hb as [_ Ha].
    apply (out_goes (OEmit (owner c) (Data id bs))). cbn. by rewrite decide_True by by apply told_some. }
  destruct (peer_close_notify c); rewrite ?st_shutdown, Hst; [|done]. eapply keeps_step; [exact H1|apply shutdown_goes].
Qed.

Lemma warn_goes k n w : keeps (seen w) (seen (warn k n w)) (λ _, 0) w (warn k n w).
Proof.
  unfold warn. destruct (connection_sockets (st w) !! k) as [id|]; [|apply tls_keeps_refl].
  destruct (connections (st w) !! id) as [c|] eqn:Hc; [|apply tls_keeps_refl]. destruct (announced c) eqn:Ha; [|apply tls_keeps_refl].
  apply (out_goes (OEmit (owner c) (Warning id n))). cbn. by rewrite decide_True by by apply told_some.
Qed.

Lemma receive_goes k bs w : base w → keeps (seen w) (seen (receive_tls k bs w)) (λ _, 0) w (receive_tls k bs w).
Proof.
  intros Hb. unfold receive_tls. destruct (connection_sockets (st w) !! k) as [id|]; [|apply tls_keeps_refl].
  destruct (connections (st w) !! id) as [c|] eqn:Hc; [|apply tls_keeps_refl].
  destruct (decrypt_loop_total (length bs) (connection c) (peer_close_notify c) bs [] ltac:(lia)) as [[[t closed] r] ->]. cbv zeta.
  set (c1 := set_peer_close_notify closed (set_connection t c)). set (w1 := put id c1 w).
  assert (Hs : same c c1) by by split. assert (H1 : ∀ m, keeps m m (λ _, 0) w w1) by (intros m; by apply (update_goes id c c1)).
  assert (Hseen : seen w1 = seen w) by by apply (told_same id c). destruct (flush_goes id true w1) as [Hf _].
  pose proof (flush_seen id true w1) as Hfs. destruct (flush_tls id true w1) as [w2 e]. cbn [fst] in *.
  assert (H2 : ∀ m, keeps m m (λ _, 0) w w2) by (intros m; eapply keeps_step; [apply H1|apply Hf]).
  assert (Hb2 : base w2) by by apply (g_base _ _ _ _ _ _ _ (H2 ∅)). rewrite Hseen in Hfs.
  assert (Hfail : ∀ e, keeps (seen w) (seen (fail id e w2)) (λ _, 0) w (fail id e w2)).
  { intros e'. eapply keeps_step; [apply H2|]. rewrite <-Hfs. by apply fail_goes. }
  destruct r as [plain|e']; [|apply Hfail]. destruct e as [e|]; [apply Hfail|].
  eapply keeps_step; [apply H2|]. rewrite <-Hfs. pose proof (announce_goes id w2 Hb2) as Ha.
  eapply keeps_step; [exact Ha|]. apply deliver_goes.
Qed.

(** ** Handlers *)

Definition task_caller (t : Task) : option Pending :=
  match t with
  | TConnect _ _ p | TConnectInfo _ _ p _ | TListen _ p | TListenInfo _ p _ | TStart _ p | TStartListener _ p | TCloseListener p
  | TPause _ p | TSendWait _ p => Some p
  | TAccept _ => None
  end.

Definition held (x : Z * Z) (t : Task) : Z := opt x (task_caller t).

Definition held_opt (x : Z * Z) (t : option Task) : Z := from_option (held x) 0 t.

(** A handler that runs to its end or to its next await: a new connection has a timer, or
    the handler goes on with it, or it is gone again. *)
Definition handled (K : gset SocketId) (f : Z * Z → Z) (w : W) (r : W * option Task) : Prop :=
  ∃ N, goes N K (seen w) (seen r.1) (λ x, f x - held_opt x r.2) w r.1
     ∧ ∀ id, id ∈ N → connections (st r.1) !! id = None ∨ id ∈ timers r.1 ∨ r.2 = Some (TAccept id).

Lemma keeps_handled K f w w' t : keeps (seen w) (seen w') (λ x, f x - held_opt x t) w w' → handled K f w (w', t).
Proof.
  intros [A1 A2 A3 A4 A5 A6 A7 A8 A9]. exists ∅. split; [|set_solver]. split; try done; cbn.
  - rewrite size_empty in A8. lia.
  - intros k Hk. destruct (A9 k Hk); [set_solver|auto].
Qed.

Lemma handled_reply K p a w : handled K (λ x, is_caller x p) w (reply p a w, None).
Proof. apply keeps_handled. rewrite st_reply. eapply tls_goes_ext; [|apply tls_reply_goes]. intros x _. cbn. lia. Qed.

Lemma handled_wait K p t w : task_caller t = Some p → handled K (λ x, is_caller x p) w (w, Some t).
Proof. intros Ht. apply keeps_handled, keeps_done. intros x _. cbn. unfold held. rewrite Ht. cbn. lia. Qed.

Lemma insert_goes k o t lis loc from p hto w :
  base w → Z.of_nat (used (st w)) < top → ¬ known_socket w k →
  ∃ id w', insert_connection k o t lis loc from p hto w = Some (id, w')
    ∧ goes {[id]} {[k]} (seen w) (seen w) (λ x, opt x p) w w' ∧ seen w' = seen w
    ∧ is_Some (connections (st w') !! id).
Proof.
  intros Hb Hu Hk. destruct (allocate_total (st w) (b_next w Hb) Hu) as (id & Ha & Hid & Hl & Hc).
  unfold insert_connection. rewrite Ha. cbn. eexists _, _. split; [done|].
  assert (Hseen : told (<[id := mkConnection k o t lis loc from false false false p None false hto]> (connections (st w))) = seen w).
  { rewrite told_insert. cbn. apply delete_id. by rewrite told_lookup, Hc. }
  split_and!; [|done|cbn; rewrite lookup_insert_eq; eauto].
  assert (Hks : connection_sockets (st w) !! k = None) by (apply eq_None_not_Some; intros ?; apply Hk; by left).
  split; cbn; try done; eauto.
  - intros [B1 B2 B3 B4 B5 B6 B7 B8]. split; cbn; try done; [lia| | | | |].
    + intros j. destruct (decide (j = id)) as [->|]; [by left|]. rewrite lookup_insert_ne by done. apply B3.
    + rewrite map_sum_insert, Hc, B4. cbn. lia.
    + intros j d. rewrite lookup_insert_Some. intros [[<- <-]|[_ Hd]]; [done|by apply (B5 j)].
    + intros k' j. rewrite lookup_insert_Some, B6. split.
      * intros [[<- <-]|(Hne & d & Hd & <-)]; [eexists; by rewrite lookup_insert_eq|]. exists d. rewrite lookup_insert_ne; [done|].
        intros <-. congruence.
      * intros (d & Hd & <-). revert Hd. rewrite lookup_insert_Some. intros [[<- <-]|[Hne Hd]]; [by left|right]. split; [|eauto].
        intros ->. assert (connection_sockets (st w) !! socket d = Some j) by (apply B6; eauto). congruence.
    + intros j d. rewrite lookup_insert_Some. intros [[<- <-]|[_ Hd]]; [done|by apply (B8 j)].
  - intros x _. unfold total. cbn. rewrite map_sum_insert, Hc. cbn [from_option]. unfold waits at 2. cbn [connect_pending close_pending].
    change (opt x None) with 0. lia.
  - intros j d. rewrite lookup_insert_Some. intros [[<- <-]|[_ Hd]] Hf; [left; set_solver|eauto].
  - exists []. by rewrite app_nil_r.
  - unfold used. cbn. rewrite map_size_insert_None by done. rewrite size_singleton. lia.
  - intros j [[i Hi]|Hj]; [|right; by right]. revert Hi. cbn. rewrite lookup_insert_Some. intros [[<- _]|[_ Hi]]; [set_solver|right; left; eauto].
Qed.

Lemma accept_handled k lis from w :
  base w → Z.of_nat (used (st w)) < top → ¬ known_socket w k → handled {[k]} (λ _, 0) w (accept k lis from w).
Proof.
  intros Hb Hu Hk. assert (Hno : handled {[k]} (λ _, 0) w (net_shutdown k w, None)).
  { apply keeps_handled. rewrite st_shutdown. eapply tls_goes_ext; [|apply shutdown_goes]. done. }
  unfold accept. destruct (_ ≫= _) as [[lid l]|]; [|done]. destruct (capacity_error true w); [done|]. destruct (server_new _) as [t|]; [|done].
  destruct (insert_goes k (l_owner l) (set_buffer_limit (buffer_limit (config w)) t) (Some lid) (l_local l) from None
    (handshake_timeout_ms (config w)) w Hb Hu Hk) as (id & w' & -> & Hg & Hs & _).
  exists {[id]}. cbn. rewrite Hs. split; [by eapply tls_goes_ext; [|exact Hg]|]. set_solver.
Qed.

Lemma connected_handled c hto p k i w :
  base w → Z.of_nat (used (st w)) < top → ¬ known_socket w k → handled {[k]} (λ x, is_caller x p) w (connected c hto p k i w, None).
Proof.
  intros Hb Hu Hk. unfold connected. cbv zeta.
  destruct (insert_goes k (p_source p) (set_buffer_limit (buffer_limit (config w)) c) None (i ≫= snd) (default (V4 0 0) (i ≫= fst))
    (Some p) (default (handshake_timeout_ms (config w)) hto) w Hb Hu Hk) as (id & w1 & -> & Hg & Hs & Hin).
  destruct (flush_goes id true w1) as [Hf _]. pose proof (flush_seen id true w1) as Hfs.
  destruct (flush_tls id true w1) as [w2 [e|]]; cbn [fst] in *.
  - pose proof (tls_goes_trans _ _ _ _ _ _ _ _ _ _ Hg (Hf _)) as H2. assert (Hb2 : base w2) by by apply H2.
    exists {[id]}. cbn. split.
    + eapply tls_goes_ext; [|eapply tls_goes_trans; [exact H2|]]; [|rewrite <-Hs, <-Hfs; by apply fail_goes]. intros x _. cbn. lia.
    + intros j ->%elem_of_singleton. left. rewrite fail_conns. apply lookup_delete_eq.
  - exists {[id]}. cbn. rewrite Hfs, Hs. split; [|set_solver]. eapply tls_goes_ext; [|eapply tls_goes_trans; [exact Hg|]].
    2:{ eapply tls_goes_trans; [apply Hf|]. apply (idle_goes (seen w) w2 (arm_timeout id w2)); by eauto. }
    intros x _. cbn. lia.
Qed.

Lemma listening_handled config p k loc w :
  base w → Z.of_nat (used (st w)) < top → ¬ known_socket w k → handled {[k]} (λ x, is_caller x p) w (listening config p k loc w, None).
Proof.
  intros Hb Hu Hk. destruct (allocate_total (st w) (b_next w Hb) Hu) as (id & Ha & Hid & Hl & Hc).
  unfold listening. rewrite Ha. cbn. set (w1 := on_st _ w). exists ∅. cbn. rewrite st_reply. split; [|set_solver].
  assert (Hks : listener_sockets (st w) !! k = None) by (apply eq_None_not_Some; intros ?; apply Hk; by right).
  assert (H1 : goes ∅ {[k]} (seen w) (seen w) (λ _, 0) w w1).
  { split; cbn; try done; eauto.
    - intros [B1 B2 B3 B4 B5 B6 B7 B8]. split; cbn; try done; [lia| |].
      + intros j. destruct (decide (j = id)) as [->|]; [by right|]. rewrite lookup_insert_ne by done. apply B3.
      + intros k' j. rewrite lookup_insert_Some, B7. split.
        * intros [[<- <-]|(Hne & d & Hd & <-)]; [eexists; by rewrite lookup_insert_eq|]. exists d. rewrite lookup_insert_ne; [done|]. intros <-. congruence.
        * intros (d & Hd & <-). revert Hd. rewrite lookup_insert_Some. intros [[<- <-]|[Hne Hd]]; [by left|right]. split; [|eauto].
          intros ->. assert (listener_sockets (st w) !! l_socket d = Some j) by (apply B7; eauto). congruence.
    - intros x _. unfold total. cbn. lia.
    - exists []. by rewrite app_nil_r.
    - unfold used. cbn. rewrite map_size_insert_None by done. rewrite size_singleton. lia.
    - intros j [Hj|[i Hi]]; [right; by left|]. revert Hi. cbn. rewrite lookup_insert_Some. intros [[<- _]|[_ Hi]]; [set_solver|right; right; eauto]. }
  eapply tls_goes_ext; [|eapply tls_goes_trans; [exact H1|apply tls_reply_goes]]. intros x _. cbn. lia.
Qed.

Lemma remove_listener_goes id w :
  base w → ∃ w', remove_listener id w = Some w' ∧ keeps (seen w) (seen w) (λ _, 0) w w' ∧ seen w' = seen w.
Proof.
  intros Hb. unfold remove_listener. rewrite (b_free w Hb). eexists. split; [done|].
  destruct (listeners (st w) !! id) as [l|] eqn:Hl; [|split; [apply tls_keeps_refl|done]]. split; [|done]. split; cbn; try done; eauto.
  - intros [B1 B2 B3 B4 B5 B6 B7 B8]. split; cbn; try done.
    + intros j. destruct (B3 j) as [?|?]; [left|by right]. by apply lookup_delete_None; right.
    + intros k j. rewrite lookup_delete_Some, B7. split.
      * intros (Hne & d & Hd & <-). exists d. rewrite lookup_delete_Some. split_and!; try done. intros <-. congruence.
      * intros (d & Hd & <-). revert Hd. rewrite lookup_delete_Some. intros [Hne Hd]. split; [|by exists d]. intros Heq. apply Hne.
        assert (listener_sockets (st w) !! l_socket l = Some id) by (apply B7; eauto).
        assert (listener_sockets (st w) !! l_socket d = Some j) by (apply B7; eauto). congruence.
  - intros x _. unfold total. cbn. lia.
  - exists []. by rewrite app_nil_r.
  - unfold used. cbn. rewrite map_size_delete_Some by eauto. lia.
  - intros k [Hk|[j Hj]]; [right; by left|]. revert Hj. cbn. rewrite lookup_delete_Some. intros [_ Hj]. right. right. eauto.
Qed.

Lemma encrypt_goes id source bs w :
  (∀ m, keeps m m (λ _, 0) w (encrypt_plaintext id source bs w).1) ∧ seen (encrypt_plaintext id source bs w).1 = seen w.
Proof.
  unfold encrypt_plaintext. destruct (connections (st w) !! id) as [c|] eqn:Hc; [|split; [intros; apply tls_keeps_refl|done]].
  case_decide; [split; [intros; apply tls_keeps_refl|done]|]. destruct (negb (announced c) || closing c); [split; [intros; apply tls_keeps_refl|done]|].
  destruct (encrypt_loop_total (length bs) (connection c) bs [] ltac:(lia)) as [[t [enc|e]] ->]; cbn [fst].
  - split; [intros m; by eapply update_goes|]. by apply (told_same id c).
  - split; [intros m; by eapply update_goes|]. by apply (told_same id c).
Qed.

Lemma keeps_base m m' h w w' : keeps m m' h w w' → base w → base w'.
Proof. by intros [A _ _ _ _ _ _ _ _]. Qed.

Lemma send_goes id source bs high w :
  base w → keeps (seen w) (seen (send_plaintext id source bs high w).1) (λ _, 0) w (send_plaintext id source bs high w).1.
Proof.
  intros Hb. unfold send_plaintext. destruct (encrypt_goes id source bs w) as [He Hs]. destruct (encrypt_plaintext id source bs w) as [w1 [[k enc]|e]];
    cbn [fst] in *; [|by rewrite Hs; apply He]. case_decide; [by cbn; rewrite Hs; apply He|].
  pose proof (tell_goes (NetService.CSend k enc high) (seen w) w1) as Ht. pose proof (st_tell (NetService.CSend k enc high) w1) as Hst.
  destruct (tell _ w1) as [w2 [e|]]; cbn [fst] in *.
  - assert (H2 : keeps (seen w) (seen w) (λ _, 0) w w2) by (eapply keeps_step; [apply He|exact Ht]).
    eapply keeps_step; [exact H2|]. rewrite <-Hs, <-Hst. apply fail_goes. by eapply keeps_base.
  - rewrite Hst, Hs. eapply keeps_step; [apply He|exact Ht].
Qed.

(** The callers a [Shutdown] forgets. *)
Definition forgotten (x : Z * Z) (id source : Z) (w : W) : Z :=
  match listeners (st w) !! id, connections (st w) !! id with
  | None, Some c => if decide (owner c = source) then waits x c else 0
  | _, _ => 0
  end.

(** A [Shutdown] that hits a listener. *)
Definition shuts_listener (id source : Z) (w : W) : bool := is_some_and (λ l, bool_decide (l_owner l = source)) (listeners (st w) !! id).

Lemma shutdown_command_goes id source w :
  base w → shuts_listener id source w = false →
  keeps (seen w) (seen (shutdown id source w).1) (λ x, - forgotten x id source w) w (shutdown id source w).1.
Proof.
  intros Hb Hl. unfold shutdown, forgotten, shuts_listener in *. destruct (listeners (st w) !! id) as [l|].
  - cbn in Hl. apply bool_decide_eq_false in Hl. rewrite decide_True by done. by apply keeps_done.
  - destruct (connections (st w) !! id) as [c|] eqn:Hc; [|by apply keeps_done]. destruct (decide (owner c = source)) as [<-|Hne].
    2:{ rewrite decide_True by done. by apply keeps_done. }
    rewrite decide_False by auto. pose proof (tls_remove_goes id c w (seen w) Hc) as Hr. unfold remove_connection in *. rewrite Hc in *. cbn [fst] in *.
    set (w1 := on_st _ w) in *. cbv zeta. set (w2 := net_shutdown (socket c) w1).
    replace (st (if announced c then emit (owner c) (Closed id) w2 else w2)) with (st w1) by (unfold w2; destruct (announced c); cbn; by rewrite st_shutdown).
    eapply keeps_step; [exact Hr|]. eapply keeps_step; [apply shutdown_goes|]. fold w2. eapply tls_goes_ext; [|by apply farewell_goes].
    intros x _. cbn. lia.
Qed.

Lemma panicked_keeps m m' h w w' : keeps m m' h w w' → panicked w' = panicked w.
Proof. by intros [_ _ _ A _ _ _ _ _]. Qed.

Lemma close_handled id p w : base w → handled ∅ (λ x, is_caller x p) w (close id p w).
Proof.
  intros Hb. unfold close. destruct (listeners (st w) !! id) as [l|].
  - case_decide; [apply handled_reply|]. destruct (remove_listener_goes id w Hb) as (w' & -> & Hg & Hs). apply keeps_handled.
    rewrite Hs. eapply tls_goes_ext; [|exact Hg]. intros x _. cbn. lia.
  - destruct (connections (st w) !! id) as [c|] eqn:Hc; [|apply handled_reply]. case_decide; [apply handled_reply|].
    destruct (closing c) eqn:Hcl; [apply handled_reply|]. cbv zeta. set (c1 := set_connection _ _). set (w1 := put id c1 w).
    assert (Hput : ∀ m, keeps m m (λ x, is_caller x p) w w1).
    { intros m. eapply tls_goes_ext; [|apply (tls_put_goes id c c1 m w Hc)]; [|by split].
      intros x _. cbv beta. change (waits x c1) with (opt x (connect_pending c) + is_caller x p). unfold waits.
      rewrite (b_close w Hb id c Hc Hcl). change (opt x None) with 0. lia. }
    assert (Hseen : seen w1 = seen w) by (apply (told_same id c); [done|by split]).
    destruct (flush_goes id true w1) as [Hf _]. pose proof (flush_seen id true w1) as Hfs.
    destruct (flush_tls id true w1) as [w2 [e|]]; cbn [fst] in *; apply keeps_handled; rewrite Hseen in Hfs.
    + eapply keeps_step; [apply Hput|]. eapply keeps_step; [apply Hf|]. rewrite <-Hfs. eapply tls_goes_ext; [|apply fail_goes].
      * intros x _. cbn. lia.
      * eapply keeps_base; [apply (Hf ∅)|]. by eapply keeps_base; [apply (Hput ∅)|].
    + cbn. rewrite Hfs. eapply keeps_step; [apply Hput|]. eapply keeps_step; [apply Hf|]. eapply tls_goes_ext; [|apply idle_goes]; try done.
      * intros x _. cbn. lia.
      * exists []. by rewrite app_nil_r.
Qed.

Lemma handled_ext K f g w r : (∀ x, x.2 ≠ 0 → f x = g x) → handled K f w r → handled K g w r.
Proof. intros Hfg (N & Hg & HN). exists N. split; [|done]. eapply tls_goes_ext; [|exact Hg]. intros x Hx. cbn. by rewrite Hfg. Qed.

(** A change of what the service knows about one connection, then a reply. *)
Lemma handled_update K p a id f w :
  (∀ c, same c (f c)) → (∀ x c, waits x (f c) = waits x c) → handled K (λ x, is_caller x p) w (reply p a (update_connection id f w), None).
Proof.
  intros Hs Hw. apply keeps_handled. rewrite st_reply. unfold update_connection. destruct (connections (st w) !! id) as [c|] eqn:Hc.
  - cbn. rewrite (told_same id c) by done. eapply keeps_step; [by eapply update_goes|]. eapply tls_goes_ext; [|apply tls_reply_goes]. intros x _. cbn. lia.
  - eapply tls_goes_ext; [|apply tls_reply_goes]. intros x _. cbn. lia.
Qed.

Lemma handled_started K p a id w : handled K (λ x, is_caller x p) w (reply p a (set_started id w), None).
Proof.
  apply keeps_handled. rewrite st_reply. unfold set_started. destruct (listeners (st w) !! id) as [l|] eqn:Hl.
  2:{ eapply tls_goes_ext; [|apply tls_reply_goes]. intros x _. cbn. lia. }
  eapply keeps_step; [|eapply tls_goes_ext; [|apply tls_reply_goes]; intros x _; cbn; instantiate (1 := λ _, 0); cbn; lia].
  split; cbn; try done; eauto.
  - intros [B1 B2 B3 B4 B5 B6 B7 B8]. split; cbn; try done.
    + intros j. destruct (B3 j) as [?|?]; [left|by right]. rewrite lookup_insert_ne; [done|]. intros ->. congruence.
    + intros k j. rewrite B7. split.
      * intros (d & Hd & <-). destruct (decide (j = id)) as [->|]; [|exists d; by rewrite lookup_insert_ne].
        eexists. rewrite lookup_insert_eq. split; [done|]. cbn. congruence.
      * intros (d & Hd & <-). revert Hd. rewrite lookup_insert_Some. intros [[<- <-]|[_ Hd]]; [by exists l|eauto].
  - intros x _. unfold total. cbn. lia.
  - exists []. by rewrite app_nil_r.
  - unfold used. cbn. rewrite map_size_insert_Some by eauto. lia.
Qed.

Definition internal (c : Command) : bool := match c with HandshakeTimeout _ | CloseFailed _ _ => true | _ => false end.

Definition forgets (x : Z * Z) (p : Pending) (c : Command) (w : W) : Z :=
  match c with Shutdown id => forgotten x id (p_source p) w | _ => 0 end.

Definition ends_listener (p : Pending) (c : Command) (w : W) : bool :=
  match c with Shutdown id => shuts_listener id (p_source p) w | _ => false end.

Lemma handshake_timeout_goes id w : base w → keeps (seen w) (seen (handshake_timeout id w)) (λ _, 0) w (handshake_timeout id w).
Proof. intros Hb. unfold handshake_timeout. destruct (is_some_and _ _); [by apply fail_goes|apply tls_keeps_refl]. Qed.

Lemma close_failed_goes id e w : base w → keeps (seen w) (seen (close_failed id e w)) (λ _, 0) w (close_failed id e w).
Proof. intros Hb. unfold close_failed. case_decide; [by apply fail_goes|apply tls_keeps_refl]. Qed.

Lemma on_command_handled p c w :
  base w → panicked w = false → ends_listener p c w = false →
  handled ∅ (λ x, (if internal c then 0 else is_caller x p) - forgets x p c w) w (on_command p c w).
Proof.
  intros Hb Hpn He. assert (Hz : ∀ f r, handled ∅ f w r → handled ∅ (λ x, f x - 0) w r).
  { intros f r. apply handled_ext. intros; lia. }
  destruct c as [o|a config|id|id|id bs hi|id bs hi|id|id|id|id|id e]; cbn [on_command internal forgets]; try apply Hz.
  - unfold connect. destruct (capacity_error true w); [apply handled_reply|]. destruct (client_new _ _); [by apply handled_wait|apply handled_reply].
  - unfold listen. destruct (capacity_error false w); [apply handled_reply|by apply handled_wait].
  - unfold start. destruct (connections (st w) !! id); [case_decide; [apply handled_reply|by apply handled_wait]|].
    destruct (listeners (st w) !! id); [case_decide; [apply handled_reply|by apply handled_wait]|apply handled_reply].
  - unfold pause. destruct (connections (st w) !! id); [|apply handled_reply]. case_decide; [apply handled_reply|by apply handled_wait].
  - pose proof (send_goes id (p_source p) bs hi w Hb) as Hg. destruct (send_plaintext _ _ _ _ _) as [w1 a]. cbn [fst] in Hg.
    apply keeps_handled. rewrite st_reply. eapply keeps_step; [exact Hg|]. eapply tls_goes_ext; [|apply tls_reply_goes]. intros x _. cbn. lia.
  - unfold send_plaintext_wait. destruct (encrypt_goes id (p_source p) bs w) as [He1 Hs]. destruct (encrypt_plaintext _ _ _ _) as [w1 [[k enc]|e]]; cbn [fst] in *.
    + case_decide; apply keeps_handled.
      * rewrite st_reply, Hs. eapply keeps_step; [apply He1|]. eapply tls_goes_ext; [|apply tls_reply_goes]. intros x _. cbn. lia.
      * rewrite st_tell, Hs. eapply keeps_step; [apply He1|]. eapply tls_goes_ext; [|apply tell_goes]. intros x _. cbn. unfold held. cbn. lia.
    + apply keeps_handled. rewrite st_reply, Hs. eapply keeps_step; [apply He1|]. eapply tls_goes_ext; [|apply tls_reply_goes]. intros x _. cbn. lia.
  - by apply close_handled.
  - pose proof (shutdown_command_goes id (p_source p) w Hb He) as Hg. pose proof (panicked_keeps _ _ _ _ _ Hg) as Hp1.
    destruct (shutdown id (p_source p) w) as [w1 a]. cbn [fst] in *. rewrite Hp1, Hpn. apply keeps_handled. rewrite st_reply.
    eapply keeps_step; [exact Hg|]. eapply tls_goes_ext; [|apply tls_reply_goes]. intros x _. cbn. lia.
  - apply handled_reply.
  - apply keeps_handled. eapply tls_goes_ext; [|by apply handshake_timeout_goes]. intros x _. cbn. lia.
  - apply keeps_handled. eapply tls_goes_ext; [|by apply close_failed_goes]. intros x _. cbn. lia.
Qed.

(** The sockets an event brings. *)
Definition brings (e : NetService.SocketEvent) : gset SocketId := match e with NetService.EAccept k _ _ => {[k]} | _ => ∅ end.

Definition listener_gone (e : NetService.SocketEvent) (w : W) : bool :=
  match e with NetService.EClose k | NetService.EError k _ => bool_decide (is_Some (listener_sockets (st w) !! k)) | _ => false end.

Lemma on_socket_handled e w :
  base w → Z.of_nat (used (st w)) < top → (∀ k, k ∈ brings e → ¬ known_socket w k) → listener_gone e w = false →
  handled (brings e) (λ _, 0) w (on_socket e w).
Proof.
  intros Hb Hu Hk Hl. assert (Hq : ∀ w', keeps (seen w) (seen w') (λ _, 0) w w' → handled ∅ (λ _, 0) w (w', None)).
  { intros w' Hg. apply keeps_handled. by eapply tls_goes_ext; [|exact Hg]. }
  destruct e as [k lis from|k bs|k from bs|k|k e|k n]; cbn [on_socket brings] in *; [|apply Hq..].
  - apply accept_handled; [done|done|]. apply Hk. set_solver.
  - by apply receive_goes.
  - apply tls_keeps_refl.
  - apply socket_closed_goes; [done|]. apply eq_None_not_Some. by apply bool_decide_eq_false in Hl.
  - apply socket_closed_goes; [done|]. apply eq_None_not_Some. by apply bool_decide_eq_false in Hl.
  - apply warn_goes.
Qed.

Definition task_socket (t : Task) : gset SocketId := match t with TConnectInfo _ _ _ k | TListenInfo _ _ k => {[k]} | _ => ∅ end.

Lemma resume_handled t r w y :
  base w → Z.of_nat (used (st w)) < top → (∀ k, k ∈ task_socket t → ¬ known_socket w k) →
  resume t r w = Some y → handled (task_socket t) (λ x, held x t) w y.
Proof.
  intros Hb Hu Hk. assert (Hf : ∀ K p a id e, handled K (λ x, is_caller x p) w (reply p a (fail id e w), None)).
  { intros K p a id e. apply keeps_handled. rewrite st_reply. eapply keeps_step; [by apply fail_goes|]. eapply tls_goes_ext; [|apply tls_reply_goes]. intros x _. cbn. lia. }
  destruct t as [c hto p|c hto p k|config p|config p k|id p|id p|p|id p|id p|id]; destruct r as [[k'|e]|i|[e|]]; try done; intros [= <-];
    cbn [task_socket] in *; unfold held; cbn [task_caller opt from_option].
  - unfold dialed. destruct (capacity_error true w); [|by apply handled_wait]. apply keeps_handled. rewrite st_reply, st_shutdown.
    eapply keeps_step; [apply shutdown_goes|]. eapply tls_goes_ext; [|apply tls_reply_goes]. intros x _. cbn. lia.
  - apply handled_reply.
  - apply connected_handled; [done|done|]. apply Hk. set_solver.
  - by apply handled_wait.
  - apply handled_reply.
  - apply listening_handled; [done|done|]. apply Hk. set_solver.
  - apply handled_reply.
  - by apply handled_update.
  - apply handled_reply.
  - apply handled_started.
  - apply handled_reply.
  - apply handled_reply.
  - apply handled_reply.
  - by apply handled_update.
  - apply Hf.
  - apply handled_reply.
  - apply keeps_handled. eapply tls_goes_ext; [|by apply fail_goes]. done.
  - apply keeps_handled. eapply tls_goes_ext; [|apply idle_goes]; try done. eauto.
Qed.

(** ** Messages *)

Definition message_brings (m : Message) (b : Body) : gset SocketId :=
  if decide (mtype m = MsgType.SOCKET) then match b with BSocket e => brings e | _ => ∅ end else ∅.

Definition message_asks (x : Z * Z) (m : Message) (b : Body) : Z :=
  if decide (mtype m = MsgType.SOCKET) then 0 else
  match b with
  | BCommand c => if decide (mtype m = MsgType.USER ∧ internal c = true) then 0 else is_caller x (mkPending (source m) (session m))
  | _ => is_caller x (mkPending (source m) (session m))
  end.

Definition message_forgets (x : Z * Z) (m : Message) (b : Body) (w : W) : Z :=
  if decide (mtype m = MsgType.USER) then
    match b with BCommand c => forgets x (mkPending (source m) (session m)) c w | _ => 0 end
  else 0.

(** A message that ends a listener. *)
Definition message_ends (m : Message) (b : Body) (w : W) : bool :=
  if decide (mtype m = MsgType.SOCKET) then match b with BSocket e => listener_gone e w | _ => false end
  else if decide (mtype m = MsgType.USER) then
    match b with BCommand c => ends_listener (mkPending (source m) (session m)) c w | _ => false end
  else false.

Lemma refuse_handled K m w : handled K (λ x, is_caller x (mkPending (source m) (session m)) - 0) w (refuse m w, None).
Proof.
  apply keeps_handled. unfold refuse, needs_reply. destruct (Z.eqb_spec (session m) 0) as [Hz|Hz]; cbn [negb].
  - apply keeps_done. intros x Hx. unfold is_caller. cbn. case_decide as Hp; [|done]. subst x. done.
  - eapply tls_goes_ext; [|by apply (out_goes (ORefuse (mkPending (source m) (session m))))]. intros x _. cbn. lia.
Qed.

Lemma dispatch_handled m b w :
  base w → panicked w = false → Z.of_nat (used (st w)) < top → (∀ k, k ∈ message_brings m b → ¬ known_socket w k) → message_ends m b w = false →
  handled (message_brings m b) (λ x, message_asks x m b - message_forgets x m b w) w (dispatch m b w).
Proof.
  intros Hb Hp Hu. unfold dispatch, message_brings, message_asks, message_forgets, message_ends.
  destruct (decide (mtype m = MsgType.SOCKET)) as [Hm|Hm].
  - assert (Hno : handled ∅ (λ _, 0) w (w, None)) by by apply keeps_handled, keeps_done.
    intros Hk He. eapply handled_ext with (f := λ _, 0); [intros x _; rewrite decide_False by (by rewrite Hm); lia|].
    destruct b as [e|c|]; [by apply on_socket_handled|done|done].
  - intros _ He. destruct (decide (mtype m = MsgType.USER)) as [Hu'|Hu'].
    + rewrite decide_False by auto. destruct b as [e|c|]; [apply refuse_handled| |apply refuse_handled].
      eapply handled_ext; [|by apply on_command_handled]. intros x _. cbn. destruct (internal c) eqn:Hi.
      * by rewrite decide_True.
      * rewrite decide_False by naive_solver. done.
    + rewrite decide_True by done. destruct b as [e|c|]; [apply refuse_handled| |apply refuse_handled].
      eapply handled_ext; [|apply refuse_handled]. intros x _. cbn. by rewrite decide_False by naive_solver.
Qed.

(** ** Runs *)

Definition flies (k : SocketId) (ts : gmap Z Task) : Prop := ∃ c t, ts !! c = Some t ∧ k ∈ task_socket t.

(** The service between two events; the handshakes of the connections in [E] may have lost
    their watch. *)
Record good (E : gset Z) (n : nat) (a : Z * Z → Z) (s : Sys) : Prop := {
  sg_base : base (world s);
  sg_panic : panicked (world s) = false;
  sg_told : tracks ∅ (outs (world s)) = Some (seen (world s));
  sg_total x : x.2 ≠ 0 → total x (world s) + map_sum (held x) (tasks s) = a x;
  sg_watch id c : connections (st (world s)) !! id = Some c → announced c = false →
    id ∈ E ∨ id ∈ timers (world s) ∨ HandshakeTimeout id ∈ posted (world s) ∨ ∃ k, tasks s !! k = Some (TAccept id);
  sg_posted : Forall (λ c, internal c = true) (posted (world s));
  sg_fly k : flies k (tasks s) → ¬ known_socket (world s) k;
  sg_one c c' t t' k : tasks s !! c = Some t → tasks s !! c' = Some t' → k ∈ task_socket t → k ∈ task_socket t' → c = c';
  sg_used : (used (st (world s)) ≤ n)%nat;
}.

Lemma good_handled E n a f K s c r :
  good E n a s → tasks s !! c = None → handled K f (world s) r →
  (∀ k, k ∈ K → ¬ flies k (tasks s)) →
  (∀ t k, r.2 = Some t → k ∈ task_socket t → ¬ known_socket r.1 k ∧ ¬ flies k (tasks s)) →
  (∀ id d, id ∈ E → connections (st r.1) !! id = Some d → announced d = false → id ∈ timers r.1) →
  good ∅ (n + size K) (λ x, a x + f x) (settle c r s).
Proof.
  intros [G1 G2 G3 G4 G5 G6 G7 G8 G9] Hc (N & [A1 A2 A3 A4 A5 A6 A7 A8 A9] & HN) HK Hr HE. destruct r as [w' t]. cbn [fst snd] in *.
  assert (Hfly : ∀ k, flies k (tasks s) → ¬ known_socket w' k).
  { intros k Hk Hkn. destruct (A9 k Hkn) as [?|?]; [by eapply HK|by eapply G7]. }
  assert (Hwatch : ∀ id d, connections (st w') !! id = Some d → announced d = false →
    id ∈ timers w' ∨ HandshakeTimeout id ∈ posted w' ∨ (∃ k, tasks s !! k = Some (TAccept id)) ∨ t = Some (TAccept id)).
  { intros id d Hd Had. rewrite A7. destruct A6 as [l Hl]. destruct (A5 id d Hd Had) as [Hn|(d0 & Hd0 & Had0)].
    - destruct (HN id Hn) as [?|[?|?]]; [congruence|auto|auto].
    - destruct (G5 id d0 Hd0 Had0) as [Hi|[Hi|[Hi|Hi]]]; [left; by eapply HE| |auto|auto]. left. rewrite Hl. set_solver. }
  destruct t as [t|]; cbn.
  - split; cbn; try done; auto; [congruence| | |by rewrite A7| | |lia].
    + intros x Hx. rewrite (A3 x Hx), map_sum_insert, Hc. cbn. specialize (G4 x Hx). lia.
    + intros id d Hd Had. right. destruct (Hwatch id d Hd Had) as [?|[?|[[k Hk]|[= ->]]]]; [auto|auto| |].
      * right. right. exists k. rewrite lookup_insert_ne; [done|]. intros ->. congruence.
      * right. right. exists c. apply lookup_insert_eq.
    + intros k (c' & t' & Ht' & Hk). revert Ht'. rewrite lookup_insert_Some. intros [[<- <-]|[_ Ht']]; [by apply (Hr t)|apply Hfly; by eexists _, _].
    + intros c1 c2 t1 t2 k. rewrite !lookup_insert_Some. intros [[<- <-]|[_ H1]] [[<- <-]|[_ H2]] Hk1 Hk2; [done| | |by eapply G8].
      * destruct (Hr t k eq_refl Hk1) as [_ []]. by eexists _, _.
      * destruct (Hr t k eq_refl Hk2) as [_ []]. by eexists _, _.
  - split; cbn; try done; auto; [congruence| | |by rewrite A7|lia].
    + intros x Hx. rewrite (A3 x Hx). cbn. specialize (G4 x Hx). lia.
    + intros id d Hd Had. right. destruct (Hwatch id d Hd Had) as [?|[?|[?|?]]]; auto; done.
Qed.

(** The number of a new socket is in use nowhere. *)
Definition unused (k : SocketId) (s : Sys) : Prop :=
  connection_sockets (st (world s)) !! k = None ∧ listener_sockets (st (world s)) !! k = None ∧ map_Forall (λ _ t, k ∉ task_socket t) (tasks s).

#[local] Instance unused_dec k s : Decision (unused k s).
Proof. apply _. Defined.

Definition fresh (ev : Event) (s : Sys) : bool :=
  match ev with
  | EMessage _ m b => bool_decide (set_Forall (λ k, unused k s) (message_brings m b))
  | EResume _ (RSocket (inl k)) => bool_decide (unused k s)
  | _ => true
  end.

(** An event that ends a listener. *)
Definition ends (ev : Event) (s : Sys) : bool := match ev with EMessage _ m b => message_ends m b (world s) | _ => false end.

(** Every new socket has a number that is not in use, and no listener is ended by its owner
    or by the network service. *)
Fixpoint orderly (evs : list Event) (s : Sys) : bool :=
  match evs with
  | [] => true
  | ev :: evs => fresh ev s && negb (ends ev s) && match step ev s with Some s => orderly evs s | None => true end
  end.

Definition asks (x : Z * Z) (ev : Event) : Z := match ev with EMessage _ m b => message_asks x m b | _ => 0 end.

Fixpoint asked (x : Z * Z) (evs : list Event) : Z := match evs with [] => 0 | ev :: evs => asks x ev + asked x evs end.

Definition loses (x : Z * Z) (ev : Event) (s : Sys) : Z := match ev with EMessage _ m b => message_forgets x m b (world s) | _ => 0 end.

(** The callers that a [Shutdown] forgets in a run. *)
Fixpoint lost (x : Z * Z) (evs : list Event) (s : Sys) : Z :=
  match evs with
  | [] => 0
  | ev :: evs => loses x ev s + match step ev s with Some s => lost x evs s | None => 0 end
  end.

Lemma unused_spec k s : unused k s → ¬ known_socket (world s) k ∧ ¬ flies k (tasks s).
Proof.
  intros (H1 & H2 & H3). split; [intros [[? ?]|[? ?]]; congruence|]. intros (c & t & Ht & Hk). by apply (H3 c t Ht).
Qed.

Lemma dispatch_socketless m b w w' t : dispatch m b w = (w', Some t) → task_socket t = ∅.
Proof.
  unfold dispatch. destruct (decide (mtype m = MsgType.SOCKET)).
  - destruct b as [[]| |]; try done. cbn. unfold accept. repeat case_match; intros; simplify_eq; done.
  - case_decide; [done|]. destruct b as [|c|]; try done. unfold on_command, connect, listen, start, pause, send_plaintext_wait, close.
    repeat case_match; intros; simplify_eq; done.
Qed.

Lemma resume_sockets t r w w' t' k : resume t r w = Some (w', Some t') → k ∈ task_socket t' → r = RSocket (inl k) ∧ w' = w.
Proof.
  destruct t, r as [[k'|e]|i|[e|]]; cbn; try done; unfold dialed; repeat case_match; intros; simplify_eq; cbn in *; try set_solver.
Qed.

Lemma good_more E n n' a a' s : (n ≤ n')%nat → (∀ x, x.2 ≠ 0 → a x = a' x) → good E n a s → good E n' a' s.
Proof. intros Hn Ha [G1 G2 G3 G4 G5 G6 G7 G8 G9]. split; try done; [intros x Hx; rewrite <-Ha by done; auto|lia]. Qed.

Lemma brings_size m b : (size (message_brings m b) ≤ 1)%nat.
Proof.
  unfold message_brings. case_decide; [|rewrite size_empty; lia]. destruct b as [[]| |]; cbn; rewrite ?size_empty, ?size_singleton; lia.
Qed.

Lemma message_good n a c m b s :
  good ∅ n a s → Z.of_nat n < top → fresh (EMessage c m b) s = true → message_ends m b (world s) = false → tasks s !! c = None →
  good ∅ (S n) (λ x, a x + (message_asks x m b - message_forgets x m b (world s))) (settle c (dispatch m b (world s)) s).
Proof.
  intros HG Hn Hf He Hc. cbn in Hf. apply bool_decide_eq_true in Hf.
  assert (Hu : ∀ k, k ∈ message_brings m b → ¬ known_socket (world s) k ∧ ¬ flies k (tasks s)) by (intros k Hk; apply unused_spec, Hf, Hk).
  eapply good_more; [|done|eapply good_handled; [exact HG|done|apply dispatch_handled| | |]].
  - pose proof (brings_size m b). lia.
  - apply HG.
  - apply HG.
  - pose proof (sg_used _ _ _ _ HG). lia.
  - intros k Hk. by apply Hu.
  - done.
  - intros k Hk. by apply Hu.
  - intros t k Ht Hk. destruct (dispatch m b (world s)) as [w' t'] eqn:Hd. cbn in Ht. subst t'. by rewrite (dispatch_socketless _ _ _ _ _ Hd) in Hk.
  - set_solver.
Qed.

Lemma fail_unready id e w d : connections (st (fail id e w)) !! id = Some d → False.
Proof. by rewrite fail_conns, lookup_delete_eq. Qed.

Lemma without_good n a s c t :
  good ∅ n a s → tasks s !! c = Some t →
  good (match t with TAccept id => {[id]} | _ => ∅ end) n (λ x, a x - held x t) (mkSys (world s) (delete c (tasks s))).
Proof.
  intros [G1 G2 G3 G4 G5 G6 G7 G8 G9] Hc. split; cbn; try done.
  - intros x Hx. rewrite map_sum_delete, Hc. cbn. rewrite <-(G4 x Hx). lia.
  - intros id d Hd Ha. destruct (G5 id d Hd Ha) as [?|[?|[?|[k Hk]]]]; [set_solver|auto|auto|]. destruct (decide (k = c)) as [->|].
    + assert (t = TAccept id) as -> by congruence. left. set_solver.
    + right. right. right. exists k. by rewrite lookup_delete_ne.
  - intros k (c' & t' & Ht' & Hk). revert Ht'. rewrite lookup_delete_Some. intros [_ Ht']. apply G7. by eexists _, _.
  - intros c1 c2 t1 t2 k. rewrite !lookup_delete_Some. intros [_ H1] [_ H2]. by eapply G8.
Qed.

Lemma resume_good n a c r t y s :
  good ∅ n a s → Z.of_nat n < top → fresh (EResume c r) s = true → tasks s !! c = Some t → resume t r (world s) = Some y →
  good ∅ (S n) a (settle c y (mkSys (world s) (delete c (tasks s)))).
Proof.
  intros HG Hn Hf Hc Hr. pose proof (without_good n a s c t HG Hc) as HG1. set (s1 := mkSys _ _) in *.
  assert (Hown : ∀ k, k ∈ task_socket t → ¬ known_socket (world s) k) by (intros k Hk; apply (sg_fly _ _ _ _ HG); by exists c, t).
  pose proof (resume_handled t r (world s) y (sg_base _ _ _ _ HG) ltac:(pose proof (sg_used _ _ _ _ HG); lia) Hown Hr) as Hh.
  eapply good_more; [| |eapply good_handled; [exact HG1|apply lookup_delete_eq|exact Hh|..]].
  - assert (size (task_socket t) ≤ 1)%nat by (destruct t; cbn; rewrite ?size_empty, ?size_singleton; lia). lia.
  - intros x _. cbn. lia.
  - intros k Hk (c' & t' & Ht' & Hk'). revert Ht'. cbn. rewrite lookup_delete_Some. intros [Hne Ht']. apply Hne. by eapply (sg_one _ _ _ _ HG).
  - destruct y as [w' t2]. intros t' k Ht' Hk. cbn in Ht'. subst t2. destruct (resume_sockets _ _ _ _ _ _ Hr Hk) as [-> ->].
    cbn in Hf. apply bool_decide_eq_true, unused_spec in Hf as [H1 H2]. split; [done|]. intros (c' & d & Hd & Hk'). apply H2.
    revert Hd. cbn. rewrite lookup_delete_Some. intros [_ Hd]. by exists c', d.
  - intros id d Hid Hd Ha. destruct t; try set_solver. apply elem_of_singleton in Hid as ->. destruct r as [|i|[e|]]; try done; cbn in Hr; injection Hr as <-.
    + by apply fail_unready in Hd.
    + cbn. set_solver.
Qed.

Lemma handshake_timeout_ready id w d : connections (st (handshake_timeout id w)) !! id = Some d → announced d = true.
Proof.
  unfold handshake_timeout. destruct (connections (st w) !! id) as [c|] eqn:Hc; cbn; [|congruence].
  destruct (announced c) eqn:Ha; cbn; [congruence|]. by intros ?%fail_unready.
Qed.

Lemma posted_good n a k c s :
  good ∅ n a s → posted (world s) !! k = Some c →
  good ∅ n a (mkSys (on_command (mkPending 0 0) c (set_posted (delete k (posted (world s))) (world s))).1 (tasks s)).
Proof.
  intros HG Hk. set (w1 := set_posted _ _). assert (Hint : internal c = true).
  { pose proof (sg_posted _ _ _ _ HG) as Hp. rewrite Forall_lookup in Hp. by eapply Hp. }
  assert (Hmem : ∀ c', c' ∈ posted (world s) → c' = c ∨ c' ∈ delete k (posted (world s))).
  { intros c' Hc'. rewrite <-(take_drop_middle _ _ _ Hk) in Hc'. rewrite delete_take_drop. set_solver. }
  assert (HG1 : good (match c with HandshakeTimeout id => {[id]} | _ => ∅ end) n a (mkSys w1 (tasks s))).
  { destruct HG as [G1 G2 G3 G4 G5 G6 G7 G8 G9]. split; cbn; try done.
    - by destruct G1; split.
    - intros id d Hd Ha. destruct (G5 id d Hd Ha) as [?|[?|[Hi|?]]]; [set_solver|auto| |auto].
      destruct (Hmem _ Hi) as [<-|?]; [left; set_solver|auto].
    - apply Forall_forall. intros c' Hc'. rewrite Forall_forall in G6. apply G6. rewrite delete_take_drop in Hc'.
      rewrite <-(take_drop_middle _ _ _ Hk). set_solver. }
  assert (He : ends_listener (mkPending 0 0) c w1 = false) by by destruct c.
  pose proof (on_command_handled (mkPending 0 0) c w1 (sg_base _ _ _ _ HG1) (sg_panic _ _ _ _ HG1) He) as Hh.
  assert (Hnone : (on_command (mkPending 0 0) c w1).2 = None) by by destruct c.
  destruct (on_command (mkPending 0 0) c w1) as [w2 t2] eqn:Hon. cbn in Hnone. subst t2. cbn [fst].
  pose proof (is_fresh (dom (tasks s) : gset Z)) as Hfr. apply not_elem_of_dom in Hfr.
  eapply good_more; [| |eapply (good_handled _ n a _ ∅ (mkSys w1 (tasks s)) _ (w2, None) HG1 Hfr Hh)].
  - rewrite size_empty. lia.
  - intros x _. cbn. rewrite Hint. destruct c; cbn; try done; lia.
  - set_solver.
  - done.
  - intros id d Hid Hd Ha. destruct c; try set_solver. apply elem_of_singleton in Hid as ->. cbn in Hon, Hd. injection Hon as <-.
    apply handshake_timeout_ready in Hd. congruence.
Qed.

Lemma timer_good n a k id s :
  good ∅ n a s → timers (world s) !! k = Some id →
  good ∅ n a (mkSys (set_posted (posted (world s) ++ [HandshakeTimeout id]) (set_timers (delete k (timers (world s))) (world s))) (tasks s)).
Proof.
  intros [G1 G2 G3 G4 G5 G6 G7 G8 G9] Hk. split; cbn; try done.
  - by destruct G1; split.
  - intros j d Hd Ha. right. destruct (G5 j d Hd Ha) as [?|[Hi|[Hi|?]]]; [set_solver| |set_solver|auto].
    rewrite <-(take_drop_middle _ _ _ Hk) in Hi. rewrite delete_take_drop. set_solver.
  - apply Forall_app. split; [done|]. by constructor.
Qed.

Lemma closed_good n a k r s :
  good ∅ n a s →
  let w := set_closes (delete k (closes (world s))) (world s) in
  ∀ id, good ∅ n a (mkSys (match r with Some e => set_posted (posted w ++ [CloseFailed id e]) w | None => w end) (tasks s)).
Proof.
  intros [G1 G2 G3 G4 G5 G6 G7 G8 G9] w id. destruct r as [e|]; split; cbn; try done; try (by destruct G1; split).
  - intros j d Hd Ha. destruct (G5 j d Hd Ha) as [?|[?|[?|?]]]; auto. right. right. left. set_solver.
  - apply Forall_app. split; [done|]. by constructor.
Qed.

Lemma step_good n a ev s s' :
  good ∅ n a s → Z.of_nat n < top → fresh ev s = true → ends ev s = false → step ev s = Some s' →
  good ∅ (S n) (λ x, a x + (asks x ev - loses x ev s)) s'.
Proof.
  intros HG Hn Hf He. unfold step. rewrite (sg_panic _ _ _ _ HG). destruct ev as [c m b|c r|k|k r|k|up]; cbn [asks loses].
  - case_decide; [|done]. intros [= <-]. by apply message_good.
  - destruct (tasks s !! c) as [t|] eqn:Hc; [|done]. cbn. destruct (resume t r (world s)) as [y|] eqn:Hr; [|done]. cbn. intros [= <-].
    eapply good_more; [done| |by eapply resume_good]. intros; cbn; lia.
  - destruct (timers (world s) !! k) as [id|] eqn:Hk; [|done]. cbn. intros [= <-]. eapply good_more; [| |by apply timer_good]; [lia|intros; cbn; lia].
  - destruct (closes (world s) !! k) as [[id j]|] eqn:Hk; [|done]. cbn. intros [= <-]. eapply good_more; [| |by apply (closed_good n a k r s HG id)]; [lia|intros; cbn; lia].
  - destruct (posted (world s) !! k) as [c|] eqn:Hk; [|done]. cbn. intros [= <-]. eapply good_more; [| |by apply posted_good]; [lia|intros; cbn; lia].
  - intros [= <-]. destruct HG as [G1 G2 G3 G4 G5 G6 G7 G8 G9]. split; cbn; try done; [by destruct G1; split| |lia].
    intros x Hx. rewrite <-(G4 x Hx). unfold total. cbn. lia.
Qed.

Lemma run_good evs n a s s' :
  good ∅ n a s → Z.of_nat (n + length evs) ≤ top → orderly evs s = true → run evs s = Some s' →
  good ∅ (n + length evs) (λ x, a x + (asked x evs - lost x evs s)) s'.
Proof.
  revert n a s. induction evs as [|ev evs IH]; intros n a s HG Hn Ho Hr; cbn [run length] in *.
  { injection Hr as <-. eapply good_more; [| |exact HG]; [lia|intros; cbn; lia]. }
  cbn in Ho. apply andb_prop in Ho as [[Hf He]%andb_prop Ho]. apply negb_true_iff in He.
  destruct (step ev s) as [s1|] eqn:Hs; [|done]. cbn in Hr.
  pose proof (step_good n a ev s s1 HG ltac:(lia) Hf He Hs) as HG1. pose proof (IH (S n) _ s1 HG1 ltac:(lia) Ho Hr) as HG2.
  eapply good_more; [| |exact HG2]; [lia|]. intros x _. cbn. rewrite Hs. lia.
Qed.

Lemma new_good c up : good ∅ 0 (λ _, 0) (sys_new c up).
Proof. split; cbn; try done; [|by intros k (? & ? & ? & ?)]. split; cbn; try done; [by left| |]; intros k id; split; try done; by intros (? & ? & _). Qed.

(** Over any run in which new sockets have numbers that are not in use and no listener is
    ended, of fewer than 2^32 events: the service never panics and its loops end; its four
    tables agree (a socket leads to the connection that has it and to no other, likewise
    for listeners, and no number stands for both a listener and a connection); and the
    count of handshakes is exactly the number of connections not announced yet. *)
Theorem tls_tables_agree c up evs s :
  Z.of_nat (length evs) < 2 ^ 32 → orderly evs (sys_new c up) = true → run evs (sys_new c up) = Some s →
  panicked (world s) = false ∧ base (world s).
Proof.
  intros Hn Ho Hr. destruct (run_good evs 0 _ _ s (new_good c up) ltac:(unfold top; lia) Ho Hr) as [G1 G2 _ _ _ _ _ _ _]. done.
Qed.

(** C26 What the owners have been told is the truth, as long as new sockets have numbers that
    are not in use and no listener is ended, which makes the service panic: replaying the events sent so far
    ([Connected] opens a connection that was not open; [Data] and [Warning] come for an open
    one; [Close] or [Error] ends it; each goes to its owner) succeeds, and the connections
    it leaves open, with their owners, are the announced connections of the service. *)
Theorem owners_told_truth c up evs s :
  Z.of_nat (length evs) < 2 ^ 32 → orderly evs (sys_new c up) = true → run evs (sys_new c up) = Some s →
  tracks ∅ (outs (world s)) = Some (told (connections (st (world s)))).
Proof.
  intros Hn Ho Hr. destruct (run_good evs 0 _ _ s (new_good c up) ltac:(unfold top; lia) Ho Hr) as [_ _ G3 _ _ _ _ _ _]. done.
Qed.

(** No handshake goes on for ever: a connection that has not been announced is being
    started, or has its timer under way, or the message of that timer is in the mailbox; and
    once that message has been handled the connection is announced or gone. *)
Theorem handshakes_watched c up evs s id d :
  Z.of_nat (length evs) < 2 ^ 32 → orderly evs (sys_new c up) = true → run evs (sys_new c up) = Some s →
  connections (st (world s)) !! id = Some d → announced d = false →
  ((∃ k, tasks s !! k = Some (TAccept id)) ∨ (∃ k, timers (world s) !! k = Some id) ∨ ∃ k, posted (world s) !! k = Some (HandshakeTimeout id))
  ∧ ∀ s1 k s2 d2, posted (world s1) !! k = Some (HandshakeTimeout id) → step (EPosted k) s1 = Some s2 →
      connections (st (world s2)) !! id = Some d2 → announced d2 = true.
Proof.
  intros Hn Ho Hr Hd Ha. destruct (run_good evs 0 _ _ s (new_good c up) ltac:(unfold top; lia) Ho Hr) as [_ _ _ _ G5 _ _ _ _]. split.
  - destruct (G5 id d Hd Ha) as [?|[Hi|[Hi|?]]]; [set_solver| | |auto]; apply list_elem_of_lookup in Hi; auto.
  - intros s1 k s2 d2 Hk. unfold step. destruct (panicked (world s1)); [done|]. rewrite Hk. cbn. intros [= <-]. apply handshake_timeout_ready.
Qed.

(** Ending a listener brings the node down: when its owner shuts it down, or its socket
    is closed or fails, the handler borrows the state while the borrow of its [if let] is
    still alive, and panics; nothing is handled after that. *)
Theorem listener_end_panics ev (s : Sys) :
  panicked (world s) = false → ends ev s = true → match ev with EMessage c _ _ => tasks s !! c = None | _ => True end →
  ∃ s', step ev s = Some s' ∧ panicked (world s') = true ∧ ∀ ev', step ev' s' = None.
Proof.
  intros Hp He Hc. destruct ev as [c m b| | | | |]; try done. cbn in He. unfold step at 1. rewrite Hp, decide_True by done.
  eexists. split; [done|]. assert (Hpan : panicked (dispatch m b (world s)).1 = true).
  { unfold message_ends in He. unfold dispatch. destruct (decide (mtype m = MsgType.SOCKET)) as [Hm|Hm].
    - destruct b as [e| |]; try done. destruct e as [| | |k|k e|]; try done; cbn in He; apply bool_decide_eq_true in He as [id Hid];
        cbn; unfold socket_closed; by rewrite Hid.
    - destruct (decide (mtype m = MsgType.USER)) as [Hu|]; [|done]. rewrite decide_False by auto. destruct b as [|cmd|]; try done.
      destruct cmd; try done. cbn in He. unfold shuts_listener in He. destruct (listeners (st (world s)) !! id) as [l|] eqn:Hl; [|done]. cbn in He.
      apply bool_decide_eq_true in He. cbn. unfold shutdown. rewrite Hl, decide_False by auto. done. }
  destruct (dispatch m b (world s)) as [w [t|]]; cbn in *; (split; [done|]); intros ev'; unfold step; cbn; by rewrite Hpan.
Qed.

(** Every new socket has a number that is not in use. *)
Fixpoint new_numbers (evs : list Event) (s : Sys) : bool :=
  match evs with [] => true | ev :: evs => fresh ev s && match step ev s with Some s => new_numbers evs s | None => true end end.

(** As long as the service has not panicked, no listener has been ended. *)
Lemma unpanicked_orderly evs s s' : new_numbers evs s = true → run evs s = Some s' → panicked (world s') = false → orderly evs s = true.
Proof.
  revert s. induction evs as [|ev evs IH]; intros s; cbn [new_numbers orderly run]; [done|]. intros [-> Hn]%andb_true_iff Hr Hp. destruct (step ev s) as [s1|] eqn:Hs; [|done]. cbn in Hr.
  rewrite (IH s1 Hn Hr Hp), andb_true_r. cbn. apply negb_true_iff. destruct (ends ev s) eqn:He; [|done]. exfalso.
  destruct (listener_end_panics ev s) as (s2 & Hs2 & Hp2 & Hnone); [unfold step in Hs; by destruct (panicked (world s))|done|destruct ev; try done; unfold step in Hs; by repeat case_match|].
  assert (s2 = s1) as -> by congruence. destruct evs as [|ev' evs]; cbn in Hr; [congruence|by rewrite Hnone in Hr].
Qed.

(** C25 Every caller is answered once, as long as new sockets have numbers that are not in use
    and the service has not panicked, which it does when a listener is ended
    ([listener_end_panics]): the answers a caller has got, the connections and the suspended
    handlers that keep it waiting, and the [Shutdown]s that forgot it are exactly as many as
    the requests it made. *)
Theorem tls_callers_answered c up evs s x :
  Z.of_nat (length evs) < 2 ^ 32 → new_numbers evs (sys_new c up) = true → run evs (sys_new c up) = Some s → panicked (world s) = false → x.2 ≠ 0 →
  answered x (outs (world s)) + map_sum (waits x) (connections (st (world s))) + map_sum (held x) (tasks s)
    + lost x evs (sys_new c up) = asked x evs.
Proof.
  intros Hn Hf Hr Hp Hx. pose proof (unpanicked_orderly _ _ _ Hf Hr Hp) as Ho.
  destruct (run_good evs 0 _ _ s (new_good c up) ltac:(unfold top; lia) Ho Hr) as [_ _ _ G4 _ _ _ _ _]. specialize (G4 x Hx). unfold total in G4. lia.
Qed.

(** ** Where it falls short *)

(** [Shutdown] forgets the caller of a [Close] that is under way: the connection that
    kept it waiting is removed, and it gets no answer. *)
Theorem shutdown_forgets_closer id src w c p :
  base w → connections (st w) !! id = Some c → owner c = src → close_pending c = Some p → p_session p ≠ 0 →
  let x := (p_source p, p_session p) in
  let w' := (shutdown id src w).1 in
  answered x (outs w') = answered x (outs w) ∧ 1 ≤ waits x c
  ∧ map_sum (waits x) (connections (st w')) = map_sum (waits x) (connections (st w)) - waits x c.
Proof.
  intros Hb Hc Ho Hp Hs x w'. assert (Hl : listeners (st w) !! id = None) by (destruct (b_ids w Hb id); congruence).
  assert (Hone : 1 ≤ waits x c).
  { unfold waits. rewrite Hp. assert (opt x (Some p) = 1) by (cbn; unfold is_caller; by rewrite decide_True).
    assert (0 ≤ opt x (connect_pending c)) by (unfold opt, is_caller; destruct (connect_pending c); cbn; [case_decide|]; lia). lia. }
  unfold w', shutdown. rewrite Hl, Hc, decide_False by auto. unfold remove_connection. rewrite Hc. cbv zeta.
  set (w1 := on_st _ w).
  assert (Ht : answered x (outs (net_shutdown (socket c) w1)) = answered x (outs w)).
  { unfold net_shutdown, tell. destruct (net_up w1); [|done]. cbn. rewrite tls_answered_app. unfold answered at 2. cbn. lia. }
  destruct (announced c); cbn; rewrite st_shutdown; cbn; rewrite map_sum_delete, Hc; cbn [from_option]; (split_and!; [|done|done]); [|done].
  rewrite tls_answered_app. unfold answered at 2. cbn. lia.
Qed.

Lemma encrypt_fields id src bs w : outs (encrypt_plaintext id src bs w).1 = outs w ∧ net_up (encrypt_plaintext id src bs w).1 = net_up w.
Proof. unfold encrypt_plaintext. repeat case_match; done. Qed.

Lemma encrypt_socket id src bs w w' k e :
  encrypt_plaintext id src bs w = (w', inl (k, e)) → socket <$> connections (st w) !! id = Some k ∧ socket <$> connections (st w') !! id = Some k.
Proof.
  unfold encrypt_plaintext. destruct (connections (st w) !! id) as [c|] eqn:Hc; [|done]. repeat case_match; try done.
  intros [= <- <- <-]. cbn. by rewrite lookup_insert_eq.
Qed.

(** A send that went through. *)
Lemma send_told id src bs high w w1 k e :
  net_up w = true → encrypt_plaintext id src bs w = (w1, inl (k, e)) → e ≠ [] →
  send_plaintext id src bs high w = (out (OTell (NetService.CSend k e high)) w1, ADone)
  ∧ outs w1 = outs w ∧ net_up w1 = true.
Proof.
  intros Hu He Hne. unfold send_plaintext. rewrite He. rewrite decide_False by done. destruct (encrypt_fields id src bs w) as [Ho Hn]. rewrite He in *. cbn in *.
  unfold tell. by rewrite Hn, Hu.
Qed.

Lemma high_first e1 e2 t :
  let q := (NetBuffer.push (NetBuffer.tcp e2) true t (NetBuffer.push (NetBuffer.tcp e1) false t NetBuffer.queue_default).2).2 in
  ∃ q1 q2, NetBuffer.next q = (Some (NetBuffer.tcp e2), q1) ∧ NetBuffer.consume (length e2) q1 = Some q2
         ∧ (NetBuffer.next q2).1 = Some (NetBuffer.tcp e1).
Proof.
  intros q. assert (Hq : ∃ k, q = NetBuffer.mkQueue [NetBuffer.tcp e2] [NetBuffer.tcp e1] (0 + Z.of_nat (length e1) + Z.of_nat (length e2)) k).
  { unfold q, NetBuffer.push. cbn. repeat (case_decide; cbn); by eexists. }
  destruct Hq as [k ->]. eexists _, _. split; [done|]. unfold NetBuffer.consume. cbn. unfold checked_sub. rewrite decide_True by lia. cbn.
  rewrite decide_True by lia. by split.
Qed.

(** Records sent with different priorities overtake each other.  A plaintext sent with
    low priority and then one with high priority are encrypted in this order and handed to
    the network service in this order; but its write queue, as long as neither has been
    written, writes the second record first.  TLS records have a sequence. *)
Theorem low_record_overtaken id src d1 d2 w w1 w2 k k2 e1 e2 threshold :
  net_up w = true →
  encrypt_plaintext id src d1 w = (w1, inl (k, e1)) → e1 ≠ [] →
  encrypt_plaintext id src d2 (send_plaintext id src d1 false w).1 = (w2, inl (k2, e2)) → e2 ≠ [] →
  outs (send_plaintext id src d2 true (send_plaintext id src d1 false w).1).1
    = outs w ++ [OTell (NetService.CSend k e1 false); OTell (NetService.CSend k e2 true)]
  ∧ let q := (NetBuffer.push (NetBuffer.tcp e2) true threshold (NetBuffer.push (NetBuffer.tcp e1) false threshold NetBuffer.queue_default).2).2 in
    ∃ q1 q2, NetBuffer.next q = (Some (NetBuffer.tcp e2), q1) ∧ NetBuffer.consume (length e2) q1 = Some q2
           ∧ (NetBuffer.next q2).1 = Some (NetBuffer.tcp e1).
Proof.
  intros Hu He1 Hn1 He2 Hn2. destruct (send_told _ _ _ false _ _ _ _ Hu He1 Hn1) as (Hs1 & Ho1 & Hu1). rewrite Hs1 in *. cbn [fst] in *.
  destruct (send_told id src d2 true (out (OTell (NetService.CSend k e1 false)) w1) _ _ _ Hu1 He2 Hn2) as (Hs2 & Ho2 & _).
  assert (k2 = k) as ->.
  { apply encrypt_socket in He1 as [_ He1]. apply encrypt_socket in He2 as [He2 _]. cbn in He2. congruence. }
  split; [rewrite Hs2; cbn; rewrite Ho2; cbn; rewrite Ho1; by rewrite <-app_assoc|].
  apply high_first.
Qed.
End books.

(** ** A small record layer *)

Section toy.

(** A record is a sequence number and a byte; 255 closes.  The client opens with 200, the
    server answers 201. *)
Record ToyConn : Type := mkToy { t_shaking : bool; t_out : list Z; t_seq : Z; t_in : list Z; t_expect : Z; t_plain : list Z; t_closed : bool }.

Fixpoint toy_records (expect : Z) (bs : list Z) : option (Z * list Z * list Z * bool) :=
  match bs with
  | q :: b :: bs =>
      if q =? expect then
        '(e, plain, rest, closed) ← toy_records (expect + 1) bs;
        Some (e, if b =? 255 then plain else b :: plain, rest, closed || (b =? 255))
      else None
  | rest => Some (expect, [], rest, false)
  end.

Fixpoint toy_seal (seq : Z) (bs : list Z) : list Z := match bs with [] => [] | b :: bs => seq :: b :: toy_seal (seq + 1) bs end.

Definition toy_write (bs : list Z) (c : ToyConn) : ToyConn :=
  mkToy (t_shaking c) (t_out c ++ toy_seal (t_seq c) bs) (t_seq c + Z.of_nat (length bs)) (t_in c) (t_expect c) (t_plain c) (t_closed c).

Definition toy_process (c : ToyConn) : ToyConn * (bool + string) :=
  match (if t_shaking c then
           match t_in c with
           | 200 :: bs => Some (false, t_out c ++ [201], bs)
           | 201 :: bs => Some (false, t_out c, bs)
           | [] => Some (true, t_out c, [])
           | _ => None
           end
         else Some (false, t_out c, t_in c)) with
  | None => (c, inr "handshake"%string)
  | Some (shaking, out, bs) =>
      match toy_records (t_expect c) bs with
      | None => (c, inr "record"%string)
      | Some (e, plain, rest, closed) =>
          (mkToy shaking out (t_seq c) rest e (t_plain c ++ plain) (t_closed c || closed), inl (t_closed c || closed))
      end
  end.

#[local] Instance toy_tls : TlsEngine := {|
  TConn := ToyConn; ClientTlsConfig := unit; ServerTlsConfig := unit; ServerName := unit;
  client_new _ _ := inl (mkToy true [200] 0 [] 0 [] false);
  server_new _ := inl (mkToy true [] 0 [] 0 [] false);
  set_buffer_limit _ c := c;
  is_handshaking := t_shaking;
  protocol_version c := if t_shaking c then None else Some TLSv1_3;
  negotiated_cipher_suite _ := None;
  alpn_protocol _ := None;
  send_close_notify := toy_write [255];
  wants_write c := negb (bool_decide (t_out c = []));
  write_tls c := (mkToy (t_shaking c) [] (t_seq c) (t_in c) (t_expect c) (t_plain c) (t_closed c), inl (t_out c));
  write_plain c bs := (toy_write bs c, inl (Z.of_nat (length bs)));
  read_tls c bs := (mkToy (t_shaking c) (t_out c) (t_seq c) (t_in c ++ bs) (t_expect c) (t_plain c) (t_closed c), inl (Z.of_nat (length bs)));
  process_new_packets := toy_process;
  read_plain c _ :=
    (mkToy (t_shaking c) (t_out c) (t_seq c) (t_in c) (t_expect c) [] (t_closed c),
     if decide (t_plain c = []) then inr WouldBlock else inl (t_plain c));
  tls_pending c := length (t_out c);
  plain_pending c := length (t_plain c);
|}.

#[local] Instance toy_tls_laws : TlsLaws.
Proof.
  split; cbn.
  - intros c c' bs Hw [= <- _]. cbn. destruct (t_out c); [done|cbn; lia].
  - intros c bs c' n [= _ <-]. lia.
  - intros c bs c' n [= _ <-]. lia.
  - intros c cap c' bs. case_decide as Hp; [done|]. intros [= <- _] _. cbn. destruct (t_plain c); [done|cbn; lia].
Qed.

Definition cmd (c src sess : Z) (x : Command) : Event := EMessage c (mkMessage src sess MsgType.USER PNone) (BCommand x).

Definition net_event (c : Z) (e : NetService.SocketEvent) : Event := EMessage c (mkMessage 2 0 MsgType.SOCKET PNone) (BSocket e).

Definition dial (c src sess k : Z) : list Event :=
  [ cmd c src sess (Connect (mkClientOptions "example:443" tt tt None None)); EResume c (RSocket (inl k)); EResume c (RInfo None) ].

(** A connection in its handshake; then announced, asked to close, and a listener. *)
Definition dial_events : list Event := dial 1 9 5 50.

Definition talk_events : list Event := dial_events ++ [ net_event 2 (NetService.EData 50 [201]) ].

Definition full_events : list Event :=
  talk_events ++ [ cmd 3 9 6 (Close 1); cmd 4 8 7 (Listen "0.0.0.0:443" tt); EResume 4 (RSocket (inl 60)); EResume 4 (RInfo None) ].

Definition tls_start : Sys := sys_new tls_config_default true.

Definition dial_check (s : Sys) : bool :=
  match connections (st (world s)) !! 1 with Some d => negb (announced d) | None => false end.

Definition talk_check (s : Sys) : bool :=
  net_up (world s) && match connections (st (world s)) !! 1 with Some d => announced d && bool_decide (owner d = 9) | None => false end.

Definition full_check (s : Sys) : bool :=
  negb (panicked (world s)) && bool_decide (tasks s !! 5 = None)
  && match connections (st (world s)) !! 1 with
     | Some d => bool_decide (owner d = 9) && match close_pending d with Some p => bool_decide ((p_source p, p_session p) = (9, 6)) | None => false end
     | None => false
     end
  && ends (cmd 5 8 0 (Shutdown 2)) s.

Lemma tls_dial_view : ∃ s, run dial_events tls_start = Some s ∧ dial_check s = true.
Proof. apply some_view. by vm_compute. Qed.

Lemma talk_view : ∃ s, run talk_events tls_start = Some s ∧ talk_check s = true.
Proof. apply some_view. by vm_compute. Qed.

Lemma full_view : ∃ s, run full_events tls_start = Some s ∧ full_check s = true.
Proof. apply some_view. by vm_compute. Qed.

Lemma tls_dial_facts s : dial_check s = true → ∃ d, connections (st (world s)) !! 1 = Some d ∧ announced d = false.
Proof. unfold dial_check. destruct (connections (st (world s)) !! 1) as [d|]; [|done]. intros ?%negb_true_iff. eauto. Qed.

Lemma full_facts s : full_check s = true →
  panicked (world s) = false ∧ tasks s !! 5 = None ∧ ends (cmd 5 8 0 (Shutdown 2)) s = true
  ∧ ∃ d, connections (st (world s)) !! 1 = Some d ∧ owner d = 9 ∧ close_pending d = Some (mkPending 9 6).
Proof.
  unfold full_check. destruct (connections (st (world s)) !! 1) as [d|]; [|by rewrite andb_false_r]. rewrite !andb_true_iff, negb_true_iff, !bool_decide_eq_true.
  intros [[[Hp Ht] [Ho Hc]] He]. split_and!; [done|done|done|]. exists d. destruct (close_pending d) as [[a b]|]; [|done]. apply bool_decide_eq_true in Hc. cbn in Hc.
  split_and!; [done|done|congruence].
Qed.

Lemma full_orderly : orderly full_events tls_start = true.
Proof. by vm_compute. Qed.

Lemma dial_orderly : orderly dial_events tls_start = true.
Proof. by vm_compute. Qed.

Lemma tls_tables_agree_witness : ∃ s, run full_events tls_start = Some s ∧ panicked (world s) = false ∧ base (world s).
Proof.
  destruct full_view as (s & Hs & _). exists s. split; [exact Hs|].
  apply (tls_tables_agree tls_config_default true full_events s); [vm_compute; reflexivity|exact full_orderly|exact Hs].
Defined.

Lemma owners_told_truth_witness : ∃ s, run full_events tls_start = Some s ∧ tracks ∅ (outs (world s)) = Some (told (connections (st (world s)))).
Proof.
  destruct full_view as (s & Hs & _). exists s. split; [exact Hs|].
  apply (owners_told_truth tls_config_default true full_events s); [vm_compute; reflexivity|exact full_orderly|exact Hs].
Defined.

Lemma tls_callers_answered_witness :
  ∃ s, run full_events tls_start = Some s
  ∧ answered (9, 6) (outs (world s)) + map_sum (waits (9, 6)) (connections (st (world s))) + map_sum (held (9, 6)) (tasks s)
      + lost (9, 6) full_events tls_start = asked (9, 6) full_events.
Proof.
  destruct full_view as (s & Hs & Hc). destruct (full_facts s Hc) as [Hp _]. exists s. split; [exact Hs|].
  apply (tls_callers_answered tls_config_default true full_events s (9, 6)); [vm_compute; reflexivity|vm_compute; reflexivity|exact Hs|exact Hp|discriminate].
Defined.

Lemma handshakes_watched_witness :
  ∃ s, run dial_events tls_start = Some s
  ∧ ((∃ k, tasks s !! k = Some (TAccept 1)) ∨ (∃ k, timers (world s) !! k = Some 1) ∨ ∃ k, posted (world s) !! k = Some (HandshakeTimeout 1))
  ∧ ∀ s1 k s2 d2, posted (world s1) !! k = Some (HandshakeTimeout 1) → step (EPosted k) s1 = Some s2 →
      connections (st (world s2)) !! 1 = Some d2 → announced d2 = true.
Proof.
  destruct tls_dial_view as (s & Hs & Hc). exists s. split; [exact Hs|]. destruct (tls_dial_facts s Hc) as (d & Hd & Ha).
  apply (handshakes_watched tls_config_default true dial_events s 1 d); [vm_compute; reflexivity|exact dial_orderly|exact Hs|exact Hd|exact Ha].
Defined.

Lemma listener_end_panics_witness :
  ∃ s s', run full_events tls_start = Some s ∧ step (cmd 5 8 0 (Shutdown 2)) s = Some s' ∧ panicked (world s') = true ∧ ∀ ev', step ev' s' = None.
Proof.
  destruct full_view as (s & Hs & Hc). destruct (full_facts s Hc) as (Hp & Ht & He & _).
  destruct (listener_end_panics (cmd 5 8 0 (Shutdown 2)) s Hp He Ht) as (s' & H1 & H2 & H3). exists s, s'. split; [exact Hs|]. split; [exact H1|]. split; [exact H2|exact H3].
Defined.

Lemma full_base s : run full_events tls_start = Some s → base (world s).
Proof.
  intros Hs. destruct (run_good full_events 0 _ _ s (new_good tls_config_default true) ltac:(vm_compute; discriminate) full_orderly Hs) as [G1 _ _ _ _ _ _ _ _]. exact G1.
Qed.

Lemma shutdown_forgets_closer_witness :
  ∃ s d, run full_events tls_start = Some s ∧ connections (st (world s)) !! 1 = Some d
  ∧ answered (9, 6) (outs (shutdown 1 9 (world s)).1) = answered (9, 6) (outs (world s)) ∧ 1 ≤ waits (9, 6) d
  ∧ map_sum (waits (9, 6)) (connections (st (shutdown 1 9 (world s)).1)) = map_sum (waits (9, 6)) (connections (st (world s))) - waits (9, 6) d.
Proof.
  destruct full_view as (s & Hs & Hc). destruct (full_facts s Hc) as (_ & _ & _ & d & Hd & Ho & Hp). exists s, d. split; [exact Hs|]. split; [exact Hd|].
  apply (shutdown_forgets_closer 1 9 (world s) d (mkPending 9 6)); [exact (full_base s Hs)|exact Hd|exact Ho|exact Hp|discriminate].
Defined.

Definition two_sends (s : Sys) : bool :=
  net_up (world s)
  && match (encrypt_plaintext 1 9 [1; 2] (world s)).2, (encrypt_plaintext 1 9 [3] (send_plaintext 1 9 [1; 2] false (world s)).1).2 with
     | inl (k1, e1), inl (k2, e2) => bool_decide ((k1, e1) = (50, [0; 1; 1; 2]) ∧ (k2, e2) = (50, [2; 3]))
     | _, _ => false
     end.

Lemma two_sends_view : ∃ s, run talk_events tls_start = Some s ∧ two_sends s = true.
Proof. apply some_view. by vm_compute. Qed.

Lemma two_sends_facts s : two_sends s = true →
  net_up (world s) = true ∧ ∃ w1 w2, encrypt_plaintext 1 9 [1; 2] (world s) = (w1, inl (50, [0; 1; 1; 2]))
  ∧ encrypt_plaintext 1 9 [3] (send_plaintext 1 9 [1; 2] false (world s)).1 = (w2, inl (50, [2; 3])).
Proof.
  unfold two_sends. destruct (encrypt_plaintext 1 9 [1; 2] (world s)) as [w1 [[k1 e1]|]]; [|by rewrite andb_false_r].
  destruct (encrypt_plaintext 1 9 [3] (send_plaintext 1 9 [1; 2] false (world s)).1) as [w2 [[k2 e2]|]]; [|by rewrite andb_false_r]. cbn [snd].
  rewrite andb_true_iff, bool_decide_eq_true. intros (Hu & E1 & E2). split; [done|]. exists w1, w2. rewrite E1, E2. done.
Qed.

Lemma low_record_overtaken_witness :
  ∃ s, run talk_events tls_start = Some s
  ∧ outs (send_plaintext 1 9 [3] true (send_plaintext 1 9 [1; 2] false (world s)).1).1
      = outs (world s) ++ [OTell (NetService.CSend 50 [0; 1; 1; 2] false); OTell (NetService.CSend 50 [2; 3] true)]
  ∧ let q := (NetBuffer.push (NetBuffer.tcp [2; 3]) true 1024 (NetBuffer.push (NetBuffer.tcp [0; 1; 1; 2]) false 1024 NetBuffer.queue_default).2).2 in
    ∃ q1 q2, NetBuffer.next q = (Some (NetBuffer.tcp [2; 3]), q1) ∧ NetBuffer.consume 2 q1 = Some q2
           ∧ (NetBuffer.next q2).1 = Some (NetBuffer.tcp [0; 1; 1; 2]).
Proof.
  destruct two_sends_view as (s & Hs & Hc). destruct (two_sends_facts s Hc) as (Hu & w1 & w2 & E1 & E2). exists s. split; [exact Hs|].
  apply (low_record_overtaken 1 9 [1; 2] [3] (world s) w1 w2 50 50 [0; 1; 1; 2] [2; 3] 1024 Hu E1); [discriminate|exact E2|discriminate].
Defined.

(** The peer takes the records in their order and refuses them in the order written. *)
Lemma overtaken_record_refused :
  let c := mkToy false [] 0 [] 0 [] false in
  (∃ c', decrypt_loop 6 c false ([0; 1; 1; 2] ++ [2; 3]) [] = Some (c', false, inl [1; 2; 3]))
  ∧ ∃ c' e, decrypt_loop 6 c false ([2; 3] ++ [0; 1; 1; 2]) [] = Some (c', false, inr e).
Proof. split; [eexists|eexists _, _]; by vm_compute. Qed.

Definition tight : TlsConfig := mkTlsConfig 10000 65536 1 1.

(** Two connects that wait for the network service together. *)
Definition together : list Event :=
  match dial 1 9 5 50, dial 2 9 6 51 with
  | [a1; a2; a3], [b1; b2; b3] => [a1; b1; a2; b2; a3; b3]
  | _, _ => []
  end.

(** The limits on connections and handshakes are checked before an await and not after
    it: two connects under way together both pass a limit of one. *)
Theorem limits_overrun :
  validate tight = None
  ∧ ∃ s, run together (sys_new tight true) = Some s
       ∧ size (connections (st (world s))) = 2%nat ∧ handshakes (st (world s)) = 2 ∧ max_connections tight = 1 ∧ max_handshakes tight = 1.
Proof.
  split; [reflexivity|].
  assert (Hv : ∃ s, run together (sys_new tight true) = Some s
    ∧ bool_decide (size (connections (st (world s))) = 2%nat ∧ handshakes (st (world s)) = 2) = true) by (apply some_view; by vm_compute).
  destruct Hv as (s & Hs & [H1 H2]%bool_decide_eq_true). exists s. split_and!; [exact Hs|exact H1|exact H2|reflexivity|reflexivity].
Qed.
End toy.
End TlsBooks.
