(* ===== verification/QuicService.v ===== *)
(** * The QUIC service

    [rskynet-quic/src/service.rs], with [config.rs], [command.rs] and [event.rs]: a service
    that drives the state machines of [quinn_proto] over UDP sockets of the network service.
    The protocol is the class [QuicEngine]: [quinn_proto] does no I/O, so each of its calls is
    a function of the endpoint or connection.  What a handler has to send is gathered in a
    [DriveOutput]; [emit] waits for the network service after every packet, and the rest of
    the handler is a [Task].

    Instants are microseconds; a handler reads the clock once.  A loop of the code that is
    not bounded by its data has fuel from the class, and is [None] when out of it; [None] is
    also the panic of [packet].  Where the code goes through a [HashMap], the order is that
    of [map_to_list]. *)
From S2P Require Import Prelude Message NetBuffer NetSocket NetService.
From stdpp Require Import strings sorting.
#[local] Open Scope Z_scope.

Module QuicService.
Import NetSocket(SocketId, Pending, mkPending, p_source, p_session).

(** ** Configuration *)

Record QuicConfig : Type := mkQuicConfig {
  max_connections : Z;
  max_handshakes : Z;
  write_high_water : Z;
  write_low_water : Z;
  max_chunk_size : Z;
  handshake_timeout_ms : Z;
}.

Definition quic_config_default : QuicConfig := mkQuicConfig 65536 4096 (4 * 1024 * 1024) (2 * 1024 * 1024) (64 * 1024) 10000.

Definition validate (c : QuicConfig) : option string :=
  if decide (max_connections c = 0 ∨ max_handshakes c = 0 ∨ max_connections c < max_handshakes c) then Some "limits"%string else
  if decide (write_low_water c = 0 ∨ write_high_water c ≤ write_low_water c) then Some "water marks"%string else
  if decide (max_chunk_size c = 0 ∨ handshake_timeout_ms c = 0) then Some "max_chunk_size, handshake_timeout_ms"%string else
  None.

(** [init]: the configuration in force, or why the service does not start. *)
Definition init (section : option QuicConfig) (name_free : bool) : QuicConfig + string :=
  let c := default quic_config_default section in
  match validate c with
  | Some e => inr e
  | None => if name_free then inl c else inr "name taken"%string
  end.

Record QuicTransportOptions : Type := mkTransportOptions {
  max_idle_timeout_ms : Z;
  max_concurrent_bidi_streams : Z;
  max_concurrent_uni_streams : Z;
  stream_receive_window : Z;
  receive_window : Z;
  datagrams : bool;
  datagram_receive_buffer_size : Z;
  datagram_send_buffer_size : Z;
}.

Definition transport_default : QuicTransportOptions := mkTransportOptions 30000 100 100 (1024 * 1024) (8 * 1024 * 1024) true (1024 * 1024) (1024 * 1024).

(** The [TransportConfig] that [build] makes. *)
Record TransportConfig : Type := mkTransportConfig {
  tc_idle_ms : Z; tc_bidi : Z; tc_uni : Z; tc_stream_window : Z; tc_window : Z; tc_datagram_receive : option Z; tc_datagram_send : Z }.

(** ** The protocol *)

Inductive Dir : Type := Bi | Uni.
Inductive StreamDirection : Type := Bidirectional | Unidirectional.

Definition direction (d : Dir) : StreamDirection := match d with Bi => Bidirectional | Uni => Unidirectional end.

Inductive WriteError : Type := WBlocked | WFailed (reason : string).
Inductive ReadError : Type := RBlocked | RReset (code : Z).
Inductive ConnectionError : Type := ApplicationClosed (code : Z) (reason : list Z) | OtherError (reason : string).

Inductive StreamEvent : Type :=
  | Opened (d : Dir) | Readable (s : Z) | Writable (s : Z) | Finished (s : Z) | Stopped (s code : Z) | Available (d : Dir).

Inductive PEvent : Type :=
  | HandshakeDataReady | PConnected | ConnectionLost (e : ConnectionError) | PStream (e : StreamEvent) | DatagramReceived | DatagramsUnblocked.

Record Transmit : Type := mkTransmit { destination : SocketAddr; tx_size : Z }.

Class QuicEngine : Type := {
  QConn : Type; QEndpoint : Type; Incoming : Type; ConnectionEvent : Type; EndpointEvent : Type;
  ClientTlsConfig : Type; ServerTlsConfig : Type; ClientCrypto : Type; ServerCrypto : Type;
  (* [VarInt::from_u64], [IdleTimeout::try_from], the conversions of TLS configurations *)
  varint_from_u64 : Z → option Z;
  idle_timeout_ok : Z → bool;
  client_crypto : ClientTlsConfig → ClientCrypto + string;
  server_crypto : ServerTlsConfig → ServerCrypto + string;
  (* the endpoint; a buffer is given and returned *)
  endpoint_new : option (ServerCrypto * TransportConfig) → QEndpoint;
  endpoint_connect : QEndpoint → Z → ClientCrypto * TransportConfig → SocketAddr → string → QEndpoint * (Z * QConn + string);
  endpoint_handle : QEndpoint → Z → SocketAddr → list Z → QEndpoint * list Z * option (Z * ConnectionEvent + (Incoming + Transmit));
  endpoint_accept : QEndpoint → Incoming → Z → list Z → QEndpoint * list Z * (Z * QConn + option Transmit);
  endpoint_refuse : QEndpoint → Incoming → list Z → QEndpoint * list Z * Transmit;
  endpoint_handle_event : QEndpoint → Z → EndpointEvent → QEndpoint * option ConnectionEvent;
  (* the connection *)
  handle_event : QConn → ConnectionEvent → QConn;
  handle_timeout : QConn → Z → QConn;
  poll_timeout : QConn → option Z;
  poll_endpoint_events : QConn → QConn * option EndpointEvent;
  poll : QConn → QConn * option PEvent;
  poll_transmit : QConn → Z → list Z → QConn * list Z * option Transmit;
  conn_close : QConn → Z → Z → list Z → QConn;
  is_closed : QConn → bool;
  is_handshaking : QConn → bool;
  is_drained : QConn → bool;
  remote_address : QConn → SocketAddr;
  handshake_protocol : QConn → option (list Z);
  path_rtt : QConn → Z;
  path_cwnd : QConn → Z;
  send_streams : QConn → Z;
  (* streams and datagrams; [read_chunk] is [read], [next], [finalize], and [None] is a
     stream that cannot be read *)
  stream_open : QConn → Dir → QConn * option Z;
  stream_accept : QConn → Dir → QConn * option Z;
  stream_write : QConn → Z → list Z → QConn * (Z + WriteError);
  stream_finish : QConn → Z → QConn * option string;
  stream_reset : QConn → Z → Z → QConn * option string;
  stream_stop : QConn → Z → Z → QConn * option string;
  read_chunk : QConn → Z → Z → QConn * option (option (list Z) + ReadError);
  datagram_send : QConn → list Z → QConn * option string;
  datagram_recv : QConn → QConn * option (list Z);
  error_text : ConnectionError → string;
  (* what there is to poll: endpoint events; events, streams, chunks and datagrams; packets *)
  endpoint_work : QConn → nat;
  app_work : QConn → nat;
  tx_work : QConn → nat;
}.

(** A call of [quinn_proto] that changes a connection. *)
Inductive moves `{QuicEngine} (q : QConn) : QConn → Prop :=
  | m_event e : moves q (handle_event q e)
  | m_timeout now : moves q (handle_timeout q now)
  | m_endpoint : moves q (poll_endpoint_events q).1
  | m_poll : moves q (poll q).1
  | m_transmit now buffer : moves q (poll_transmit q now buffer).1.1
  | m_close now code reason : moves q (conn_close q now code reason)
  | m_open d : moves q (stream_open q d).1
  | m_accept d : moves q (stream_accept q d).1
  | m_write s data : moves q (stream_write q s data).1
  | m_finish s : moves q (stream_finish q s).1
  | m_reset s code : moves q (stream_reset q s code).1
  | m_stop s code : moves q (stream_stop q s code).1
  | m_read s chunk : moves q (read_chunk q s chunk).1
  | m_send data : moves q (datagram_send q data).1
  | m_recv : moves q (datagram_recv q).1.

(** What the service relies on: polling uses up what there is to poll, and serving the
    streams makes no more of it; a buffer holds the packet it is said to; a write takes no
    more than it is given; a handshake is done once. *)
Class QuicLaws `{QuicEngine} : Prop := {
  poll_endpoint_work q q' r : poll_endpoint_events q = (q', r) → (endpoint_work q' + from_option (λ _, 1) 0 r ≤ endpoint_work q)%nat;
  response_work e h ev e' r q : endpoint_handle_event e h ev = (e', Some r) → (endpoint_work (handle_event q r) ≤ endpoint_work q)%nat;
  poll_work q q' r : poll q = (q', r) → (app_work q' + from_option (λ _, 1) 0 r ≤ app_work q)%nat;
  accept_work q d q' r : stream_accept q d = (q', r) → (app_work q' + from_option (λ _, 1) 0 r ≤ app_work q)%nat;
  recv_work q q' r : datagram_recv q = (q', r) → (app_work q' + from_option (λ _, 1) 0 r ≤ app_work q)%nat;
  read_work q s chunk q' r : read_chunk q s chunk = (q', r) →
    (app_work q' + match r with Some (inl (Some _)) => 1 | _ => 0 end ≤ app_work q)%nat;
  write_work q s data : (app_work (stream_write q s data).1 ≤ app_work q)%nat;
  finish_work q s : (app_work (stream_finish q s).1 ≤ app_work q)%nat;
  transmit_work q now buffer q' b t : poll_transmit q now buffer = (q', b, Some t) → (tx_work q' < tx_work q)%nat ∧ tx_size t ≤ Z.of_nat (length b);
  handle_size e now from data e' b t : endpoint_handle e now from data = (e', b, Some (inr (inr t))) → tx_size t ≤ Z.of_nat (length b);
  accept_size e inc now buffer e' b t : endpoint_accept e inc now buffer = (e', b, inr (Some t)) → tx_size t ≤ Z.of_nat (length b);
  refuse_size e inc buffer e' b t : endpoint_refuse e inc buffer = (e', b, t) → tx_size t ≤ Z.of_nat (length b);
  write_taken q s data q' n : stream_write q s data = (q', inl n) → 0 ≤ n ≤ Z.of_nat (length data);
  handshake_once q q' : moves q q' → is_handshaking q' = true → is_handshaking q = true;
}.

Section quic.
Context `{QuicEngine}.

(** [QuicTransportOptions::build]. *)
Definition build (o : QuicTransportOptions) : TransportConfig + string :=
  if decide (max_idle_timeout_ms o = 0 ∨ stream_receive_window o = 0 ∨ receive_window o = 0) then inr "transport"%string else
  if negb (idle_timeout_ok (max_idle_timeout_ms o)) then inr "idle timeout"%string else
  inl (mkTransportConfig (max_idle_timeout_ms o) (max_concurrent_bidi_streams o) (max_concurrent_uni_streams o)
         (stream_receive_window o) (receive_window o)
         (if datagrams o then Some (datagram_receive_buffer_size o) else None)
         (if datagrams o then datagram_send_buffer_size o else 0)).

Record QuicClientOptions : Type := mkClientOptions {
  co_address : NetService.AddrText; co_bind : option NetService.AddrText; co_server_name : string; co_tls : ClientTlsConfig;
  co_transport : QuicTransportOptions; co_connect_timeout_ms : option Z }.

Record QuicServerOptions : Type := mkServerOptions {
  so_address : NetService.AddrText; so_tls : ServerTlsConfig; so_transport : QuicTransportOptions }.

Definition client_proto_config (o : QuicClientOptions) : ClientCrypto * TransportConfig + string :=
  match client_crypto (co_tls o) with
  | inr e => inr e
  | inl c => match build (co_transport o) with inr e => inr e | inl t => inl (c, t) end
  end.

Definition server_proto_config (o : QuicServerOptions) : ServerCrypto * TransportConfig + string :=
  match server_crypto (so_tls o) with
  | inr e => inr e
  | inl c => match build (so_transport o) with inr e => inr e | inl t => inl (c, t) end
  end.

(** ** Commands, answers, events *)

Record QuicInfo : Type := mkInfo {
  i_id : Z; i_owner : Z; i_listener : option Z; i_state : string; i_started : bool; i_local : option SocketAddr; i_peer : SocketAddr;
  i_alpn : option (list Z); i_rtt_micros : Z; i_congestion_window : Z; i_open_send_streams : Z; i_buffered_bytes : Z }.

Inductive Command : Type :=
  | Listen (o : QuicServerOptions)
  | ListenerLocalAddr (id : Z)
  | CloseListener (id : Z)
  | Connect (o : QuicClientOptions)
  | Start (id : Z)
  | OpenBi (id : Z)
  | OpenUni (id : Z)
  | Send (id stream : Z) (data : list Z) (wait : bool)
  | Finish (id stream : Z)
  | Reset (id stream error_code : Z)
  | Stop (id stream error_code : Z)
  | SendDatagram (id : Z) (data : list Z)
  | Close (id error_code : Z) (reason : list Z)
  | Shutdown (id : Z)
  | Info (id : Z)
  | Netstat
  | Tick (socket : SocketId) (generation : Z)
  | ConnectTimeout (id : Z).

Inductive Answer : Type :=
  | AListener (id : Z)
  | ALocalAddr (a : SocketAddr)
  | AConnection (id : Z)
  | AStream (id : Z)
  | AInfo (i : QuicInfo)
  | AInfos (l : list QuicInfo)
  | ADone
  | AFailed (reason : string).

Inductive QuicEvent : Type :=
  | Connected (id : Z) (listener : option Z) (peer : SocketAddr) (alpn : option (list Z))
  | StreamOpened (id stream : Z) (direction : StreamDirection)
  | StreamData (id stream : Z) (data : list Z)
  | SendFinished (id stream : Z)
  | ReceiveFinished (id stream : Z)
  | StreamReset (id stream error_code : Z)
  | StreamStopped (id stream error_code : Z)
  | Datagram (id : Z) (data : list Z)
  | Closed (id : Z) (error_code : option Z) (reason : list Z)
  | Error (id : Z) (reason : string)
  | Warning (id buffered_bytes : Z).

Definition event_id (e : QuicEvent) : Z :=
  match e with
  | Connected id _ _ _ | StreamOpened id _ _ | StreamData id _ _ | SendFinished id _ | ReceiveFinished id _ | StreamReset id _ _
  | StreamStopped id _ _ | Datagram id _ | Closed id _ _ | Error id _ | Warning id _ => id
  end.

(** ** State *)

Record Listener : Type := mkListener { l_id : Z; l_owner : Z }.

Record EndpointState : Type := mkEndpoint {
  e_local : option SocketAddr;
  endpoint : QEndpoint;
  e_listener : option Listener;
  e_connections : gmap Z Z;
  timer_generation : Z;
  timer_deadline : option Z;
}.

Definition set_endpoint x (e : EndpointState) := mkEndpoint (e_local e) x (e_listener e) (e_connections e) (timer_generation e) (timer_deadline e).
Definition set_listener x (e : EndpointState) := mkEndpoint (e_local e) (endpoint e) x (e_connections e) (timer_generation e) (timer_deadline e).
Definition set_handles x (e : EndpointState) := mkEndpoint (e_local e) (endpoint e) (e_listener e) x (timer_generation e) (timer_deadline e).
Definition set_timer g d (e : EndpointState) := mkEndpoint (e_local e) (endpoint e) (e_listener e) (e_connections e) g d.

Record QueuedWrite : Type := mkWrite { qw_data : list Z; qw_offset : Z; qw_pending : option Pending }.

Record QuicConnection : Type := mkConnection {
  c_id : Z;
  endpoint_socket : SocketId;
  connection : QConn;
  owner : Z;
  listener : option Z;
  local : option SocketAddr;
  started : bool;
  announced : bool;
  alpn : option (list Z);
  connect_pending : option Pending;
  queued_events : list QuicEvent;
  writes : gmap Z (list QueuedWrite);
  finishes : gmap Z Pending;
  buffered_bytes : Z;
  warned : bool;
}.

Definition set_connection x (c : QuicConnection) := mkConnection (c_id c) (endpoint_socket c) x (owner c) (listener c) (local c) (started c) (announced c) (alpn c) (connect_pending c) (queued_events c) (writes c) (finishes c) (buffered_bytes c) (warned c).
Definition set_started o (c : QuicConnection) := mkConnection (c_id c) (endpoint_socket c) (connection c) o (listener c) (local c) true (announced c) (alpn c) (connect_pending c) [] (writes c) (finishes c) (buffered_bytes c) (warned c).
Definition set_announced (c : QuicConnection) := mkConnection (c_id c) (endpoint_socket c) (connection c) (owner c) (listener c) (local c) (started c) true (alpn c) None (queued_events c) (writes c) (finishes c) (buffered_bytes c) (warned c).
Definition set_alpn x (c : QuicConnection) := mkConnection (c_id c) (endpoint_socket c) (connection c) (owner c) (listener c) (local c) (started c) (announced c) x (connect_pending c) (queued_events c) (writes c) (finishes c) (buffered_bytes c) (warned c).
Definition set_connect_pending x (c : QuicConnection) := mkConnection (c_id c) (endpoint_socket c) (connection c) (owner c) (listener c) (local c) (started c) (announced c) (alpn c) x (queued_events c) (writes c) (finishes c) (buffered_bytes c) (warned c).
Definition set_queued x (c : QuicConnection) := mkConnection (c_id c) (endpoint_socket c) (connection c) (owner c) (listener c) (local c) (started c) (announced c) (alpn c) (connect_pending c) x (writes c) (finishes c) (buffered_bytes c) (warned c).
Definition set_writes x (c : QuicConnection) := mkConnection (c_id c) (endpoint_socket c) (connection c) (owner c) (listener c) (local c) (started c) (announced c) (alpn c) (connect_pending c) (queued_events c) x (finishes c) (buffered_bytes c) (warned c).
Definition set_finishes x (c : QuicConnection) := mkConnection (c_id c) (endpoint_socket c) (connection c) (owner c) (listener c) (local c) (started c) (announced c) (alpn c) (connect_pending c) (queued_events c) (writes c) x (buffered_bytes c) (warned c).
Definition set_buffered x (c : QuicConnection) := mkConnection (c_id c) (endpoint_socket c) (connection c) (owner c) (listener c) (local c) (started c) (announced c) (alpn c) (connect_pending c) (queued_events c) (writes c) (finishes c) x (warned c).
Definition set_warned x (c : QuicConnection) := mkConnection (c_id c) (endpoint_socket c) (connection c) (owner c) (listener c) (local c) (started c) (announced c) (alpn c) (connect_pending c) (queued_events c) (writes c) (finishes c) (buffered_bytes c) x.

(** [QuicConnection::info]. *)
Definition connection_info (c : QuicConnection) : QuicInfo :=
  mkInfo (c_id c) (owner c) (listener c)
    (if is_closed (connection c) then "closed" else if is_handshaking (connection c) then "handshaking" else "connected")
    (started c) (local c) (remote_address (connection c)) (alpn c) (Z.min (path_rtt (connection c)) (2 ^ 64 - 1))
    (path_cwnd (connection c)) (send_streams (connection c)) (buffered_bytes c).

Record State : Type := mkState {
  next_listener : Z;
  next_connection : Z;
  endpoints : gmap SocketId EndpointState;
  connections : gmap Z QuicConnection;
  reserved_connections : Z;
  reserved_handshakes : Z;
}.

Definition state_default : State := mkState 0 0 ∅ ∅ 0 0.

Definition set_endpoints x (s : State) := mkState (next_listener s) (next_connection s) x (connections s) (reserved_connections s) (reserved_handshakes s).
Definition set_connections x (s : State) := mkState (next_listener s) (next_connection s) (endpoints s) x (reserved_connections s) (reserved_handshakes s).
Definition set_reserved x y (s : State) := mkState (next_listener s) (next_connection s) (endpoints s) (connections s) x y.
Definition put (id : Z) (c : QuicConnection) (s : State) : State := set_connections (<[id := c]> (connections s)) s.
Definition put_endpoint (k : SocketId) (e : EndpointState) (s : State) : State := set_endpoints (<[k := e]> (endpoints s)) s.

Definition listener_id (s : State) : Z * State :=
  let n := Z.max 1 ((next_listener s + 1) mod 2 ^ 32) in
  (n, mkState n (next_connection s) (endpoints s) (connections s) (reserved_connections s) (reserved_handshakes s)).

Definition connection_id (s : State) : Z * State :=
  let n := Z.max 1 ((next_connection s + 1) mod 2 ^ 64) in
  (n, mkState (next_listener s) n (endpoints s) (connections s) (reserved_connections s) (reserved_handshakes s)).

Definition handshaking (s : State) : gmap Z QuicConnection := filter (λ kv, is_handshaking (connection kv.2) = true) (connections s).

Definition handshake_count (s : State) : Z := Z.of_nat (size (handshaking s)) + reserved_handshakes s.

Definition has_connection_capacity (cf : QuicConfig) (s : State) : bool :=
  bool_decide (Z.of_nat (size (connections s)) + reserved_connections s < max_connections cf)
  && bool_decide (handshake_count s < max_handshakes cf).

(** [reserve_connect]; [None] when there is no room. *)
Definition reserve_connect (cf : QuicConfig) (s : State) : option State :=
  if has_connection_capacity cf s then Some (set_reserved (reserved_connections s + 1) (reserved_handshakes s + 1) s) else None.

Definition release_connect (s : State) : State :=
  set_reserved (saturating_sub (reserved_connections s) 1) (saturating_sub (reserved_handshakes s) 1) s.

(** ** What a handler has to send *)

Record OutboundPacket : Type := mkPacket { pk_socket : SocketId; pk_destination : SocketAddr; pk_data : list Z }.
Record OwnedEvent : Type := mkOwned { oe_owner : Z; oe_event : QuicEvent }.
Record TimerArm : Type := mkArm { ta_socket : SocketId; ta_generation : Z; ta_delay_ms : Z }.

Record DriveOutput : Type := mkOutput {
  packets : list OutboundPacket;
  close_sockets : list SocketId;
  events : list OwnedEvent;
  replies : list (Pending * Answer);
  timer : option TimerArm;
}.

Definition output_default : DriveOutput := mkOutput [] [] [] [] None.

Definition set_packets x (o : DriveOutput) := mkOutput x (close_sockets o) (events o) (replies o) (timer o).
Definition push_packet p (o : DriveOutput) := mkOutput (packets o ++ [p]) (close_sockets o) (events o) (replies o) (timer o).
Definition push_close k (o : DriveOutput) := mkOutput (packets o) (close_sockets o ++ [k]) (events o) (replies o) (timer o).
Definition push_event to e (o : DriveOutput) := mkOutput (packets o) (close_sockets o) (events o ++ [mkOwned to e]) (replies o) (timer o).
Definition push_reply p a (o : DriveOutput) := mkOutput (packets o) (close_sockets o) (events o) (replies o ++ [(p, a)]) (timer o).
Definition set_arm x (o : DriveOutput) := mkOutput (packets o) (close_sockets o) (events o) (replies o) x.

(** [DriveOutput::extend]. *)
Definition extend (o o' : DriveOutput) : DriveOutput :=
  mkOutput (packets o ++ packets o') (close_sockets o ++ close_sockets o') (events o ++ events o') (replies o ++ replies o')
    (match timer o' with Some t => Some t | None => timer o end).

Definition packet (k : SocketId) (t : Transmit) (buffer : list Z) : option OutboundPacket :=
  if decide (tx_size t ≤ Z.of_nat (length buffer)) then Some (mkPacket k (destination t) (take (Z.to_nat (tx_size t)) buffer)) else None.

Definition duration_ceil_ms (micros : Z) : Z := Z.min (Z.max ((micros + 999) / 1000) 1) (2 ^ 64 - 1).

(** ** Streams *)

Abbreviation CO := (QuicConnection * DriveOutput)%type.

Definition queue_event (e : QuicEvent) (co : CO) : CO :=
  let '(c, o) := co in
  if started c then (c, push_event (owner c) e o) else (set_queued (queued_events c ++ [e]) c, o).

Definition on_conn (q : QConn) (co : CO) : CO := (set_connection q co.1, co.2).

(** The loop of [read_stream]. *)
Fixpoint read_loop (fuel : nat) (chunk stream : Z) (co : CO) : option CO :=
  match fuel with
  | O => None
  | S fuel =>
      let id := c_id co.1 in
      match read_chunk (connection co.1) stream chunk with
      | (q, None) | (q, Some (inr RBlocked)) => Some (on_conn q co)
      | (q, Some (inl (Some bytes))) => read_loop fuel chunk stream (queue_event (StreamData id stream bytes) (on_conn q co))
      | (q, Some (inl None)) => Some (queue_event (ReceiveFinished id stream) (on_conn q co))
      | (q, Some (inr (RReset code))) => Some (queue_event (StreamReset id stream code) (on_conn q co))
      end
  end.

Definition read_stream (chunk stream : Z) (co : CO) : option CO := read_loop (S (app_work (connection co.1))) chunk stream co.

(** The loop of [flush_stream_writes], with what stays in the queue. *)
Fixpoint flush_queue (stream : Z) (q : list QueuedWrite) (co : CO) : list QueuedWrite * CO :=
  match q with
  | [] => ([], co)
  | wr :: q =>
      let '(c, o) := co in
      match stream_write (connection c) stream (drop (Z.to_nat (qw_offset wr)) (qw_data wr)) with
      | (t, inl n) =>
          let c := set_buffered (saturating_sub (buffered_bytes c) n) (set_connection t c) in
          let wr := mkWrite (qw_data wr) (qw_offset wr + n) (qw_pending wr) in
          if decide (qw_offset wr = Z.of_nat (length (qw_data wr))) then
            flush_queue stream q (c, match qw_pending wr with Some p => push_reply p ADone o | None => o end)
          else (wr :: q, (c, o))
      | (t, inr WBlocked) => (wr :: q, (set_connection t c, o))
      | (t, inr (WFailed e)) =>
          let c := set_buffered (saturating_sub (buffered_bytes c) (Z.of_nat (length (qw_data wr)) - qw_offset wr)) (set_connection t c) in
          flush_queue stream q (c, match qw_pending wr with Some p => push_reply p (AFailed e) o | None => o end)
      end
  end.

Definition finish_answer (r : option string) : Answer := match r with None => ADone | Some e => AFailed e end.

(** The end of [flush_stream_writes]: a finish that waited for the queue. *)
Definition flush_finish (stream : Z) (co : CO) : CO :=
  let '(c, o) := co in
  match writes c !! stream, finishes c !! stream with
  | None, Some p =>
      let '(t, r) := stream_finish (connection c) stream in
      (set_connection t (set_finishes (delete stream (finishes c)) c), push_reply p (finish_answer r) o)
  | _, _ => (c, o)
  end.

Definition flush_stream_writes (low stream : Z) (co : CO) : CO :=
  let '(q, (c, o)) := flush_queue stream (default [] (writes co.1 !! stream)) co in
  let c := set_writes (if decide (q = []) then delete stream (writes c) else <[stream := q]> (writes c)) c in
  let '(c, o) := flush_finish stream (c, o) in
  (if decide (buffered_bytes c ≤ low) then set_warned false c else c, o).

Definition flush_writes (low : Z) (co : CO) : CO := fold_left (λ co stream, flush_stream_writes low stream co) (map_to_list (writes co.1)).*1 co.

Definition fail_writes (reason : string) (q : list QueuedWrite) (o : DriveOutput) : DriveOutput :=
  fold_left (λ o wr, match qw_pending wr with Some p => push_reply p (AFailed reason) o | None => o end) q o.

Definition fail_pending_writes (reason : string) (co : CO) : CO :=
  let '(c, o) := co in
  let o := fold_left (λ o kq, fail_writes reason kq.2 o) (map_to_list (writes c)) o in
  let o := fold_left (λ o kp, push_reply kp.2 (AFailed reason) o) (map_to_list (finishes c)) o in
  (set_warned false (set_buffered 0 (set_finishes ∅ (set_writes ∅ c))), o).

(** ** What the protocol tells *)

(** [while let Some(stream) = accept(dir)]. *)
Fixpoint accept_loop (fuel : nat) (chunk : Z) (d : Dir) (co : CO) : option CO :=
  match fuel with
  | O => None
  | S fuel =>
      match stream_accept (connection co.1) d with
      | (q, None) => Some (on_conn q co)
      | (q, Some stream) =>
          co ← read_stream chunk stream (queue_event (StreamOpened (c_id co.1) stream (direction d)) (on_conn q co));
          accept_loop fuel chunk d co
      end
  end.

(** [while let Some(data) = datagrams().recv()]. *)
Fixpoint datagram_loop (fuel : nat) (co : CO) : option CO :=
  match fuel with
  | O => None
  | S fuel =>
      match datagram_recv (connection co.1) with
      | (q, None) => Some (on_conn q co)
      | (q, Some data) => datagram_loop fuel (queue_event (Datagram (c_id co.1) data) (on_conn q co))
      end
  end.

Definition on_connected (co : CO) : CO :=
  let '(c, o) := co in
  let o := match connect_pending c with Some p => push_reply p (AConnection (c_id c)) o | None => o end in
  (set_announced c, push_event (owner c) (Connected (c_id c) (listener c) (remote_address (connection c)) (alpn c)) o).

Definition lost_event (id : Z) (e : ConnectionError) : QuicEvent :=
  match e with ApplicationClosed code reason => Closed id (Some code) reason | OtherError reason => Error id (error_text e) end.

Definition on_lost (e : ConnectionError) (co : CO) : CO :=
  let '(c, o) := co in
  let o := match connect_pending c with Some p => push_reply p (AFailed (error_text e)) o | None => o end in
  let o := if announced c then push_event (owner c) (lost_event (c_id c) e) o else o in
  fail_pending_writes "connection closed" (set_connect_pending None c, o).

(** One event of [poll_application]. *)
Definition on_event (cf : QuicConfig) (e : PEvent) (co : CO) : option CO :=
  let id := c_id co.1 in
  let work := S (app_work (connection co.1)) in
  match e with
  | HandshakeDataReady => Some (set_alpn (handshake_protocol (connection co.1)) co.1, co.2)
  | PConnected => Some (on_connected co)
  | ConnectionLost e => Some (on_lost e co)
  | PStream (Opened d) => accept_loop work (max_chunk_size cf) d co
  | PStream (Readable s) => read_stream (max_chunk_size cf) s co
  | PStream (Writable s) => Some (flush_stream_writes (write_low_water cf) s co)
  | PStream (Finished s) => Some (queue_event (SendFinished id s) co)
  | PStream (Stopped s code) => Some (queue_event (StreamStopped id s code) co)
  | PStream (Available _) | DatagramsUnblocked => Some co
  | DatagramReceived => datagram_loop work co
  end.

Fixpoint poll_loop (fuel : nat) (cf : QuicConfig) (co : CO) : option CO :=
  match fuel with
  | O => None
  | S fuel =>
      match poll (connection co.1) with
      | (q, None) => Some (on_conn q co)
      | (q, Some e) => co ← on_event cf e (on_conn q co); poll_loop fuel cf co
      end
  end.

Definition poll_application (cf : QuicConfig) (co : CO) : option CO := poll_loop (S (app_work (connection co.1))) cf co.

(** [while let Some(transmit) = poll_transmit]. *)
Fixpoint transmit_loop (fuel : nat) (k : SocketId) (now : Z) (co : CO) : option CO :=
  match fuel with
  | O => None
  | S fuel =>
      match poll_transmit (connection co.1) now [] with
      | (q, _, None) => Some (on_conn q co)
      | (q, buffer, Some t) => p ← packet k t buffer; transmit_loop fuel k now (set_connection q co.1, push_packet p co.2)
      end
  end.

(** The work of [drive] on one connection. *)
Definition drive_connection (cf : QuicConfig) (k : SocketId) (now : Z) (co : CO) : option CO :=
  co ← poll_application cf co;
  let co := flush_writes (write_low_water cf) co in
  transmit_loop (S (tx_work (connection co.1))) k now co.

(** ** Driving an endpoint *)

(** [while let Some(event) = poll_endpoint_events()]. *)
Fixpoint endpoint_events_loop (fuel : nat) (q : QConn) : option (QConn * list EndpointEvent) :=
  match fuel with
  | O => None
  | S fuel =>
      match poll_endpoint_events q with
      | (q, None) => Some (q, [])
      | (q, Some e) => '(q, es) ← endpoint_events_loop fuel q; Some (q, e :: es)
      end
  end.

Fixpoint collect_events (handles : list (Z * Z)) (s : State) : option (State * list (Z * EndpointEvent)) :=
  match handles with
  | [] => Some (s, [])
  | (h, id) :: handles =>
      match connections s !! id with
      | None => collect_events handles s
      | Some c =>
          '(q, es) ← endpoint_events_loop (S (endpoint_work (connection c))) (connection c);
          '(s, rest) ← collect_events handles (put id (set_connection q c) s);
          Some (s, (pair h <$> es) ++ rest)
      end
  end.

(** One event for the endpoint; its answer goes to the connection of the handle. *)
Definition endpoint_event (k : SocketId) (he : Z * EndpointEvent) (s : State) : State :=
  match endpoints s !! k with
  | None => s
  | Some ep =>
      let '(e, response) := endpoint_handle_event (endpoint ep) he.1 he.2 in
      let s := put_endpoint k (set_endpoint e ep) s in
      match response, e_connections ep !! he.1 ≫= λ id, pair id <$> connections s !! id with
      | Some r, Some (id, c) => put id (set_connection (handle_event (connection c) r) c) s
      | _, _ => s
      end
  end.

(** The first [loop] of [drive]. *)
Fixpoint endpoint_loop (fuel : nat) (k : SocketId) (handles : list (Z * Z)) (s : State) : option State :=
  match fuel with
  | O => None
  | S fuel =>
      '(s, es) ← collect_events handles s;
      if decide (length es = 0%nat) then Some s else
      endpoint_loop fuel k handles (fold_left (λ s he, endpoint_event k he s) es s)
  end.

Definition endpoint_works (handles : list (Z * Z)) (s : State) : nat :=
  sum_list_with (λ hi : Z * Z, from_option (λ c, endpoint_work (connection c)) 0%nat (connections s !! hi.2)) handles.

(** [for (_, id) in &handles]: every connection is driven. *)
Fixpoint drive_connections (cf : QuicConfig) (k : SocketId) (now : Z) (handles : list (Z * Z)) (so : State * DriveOutput) : option (State * DriveOutput) :=
  match handles with
  | [] => Some so
  | (_, id) :: handles =>
      match connections so.1 !! id with
      | None => drive_connections cf k now handles so
      | Some c =>
          '(c, o) ← drive_connection cf k now (c, so.2);
          drive_connections cf k now handles (put id c so.1, o)
      end
  end.

Definition min_deadline (a b : option Z) : option Z :=
  match a, b with Some x, Some y => Some (Z.min x y) | Some x, None => Some x | None, _ => b end.

(** The connections that are drained, and the first deadline of the others. *)
Definition drained (handles : list (Z * Z)) (s : State) : list (Z * Z) :=
  filter (λ hi : Z * Z, is_some_and (λ c, is_drained (connection c)) (connections s !! hi.2) = true) handles.

Definition deadline (handles : list (Z * Z)) (s : State) : option Z :=
  fold_left (λ acc hi, match connections s !! hi.2 with
                       | Some c => if is_drained (connection c) then acc else min_deadline acc (poll_timeout (connection c))
                       | None => acc
                       end) handles None.

Definition remove_drained (k : SocketId) (s : State) (hi : Z * Z) : State :=
  let s := match endpoints s !! k with
           | Some ep => put_endpoint k (set_handles (delete hi.1 (e_connections ep)) ep) s
           | None => s
           end in
  set_connections (delete hi.2 (connections s)) s.

(** A new deadline gets a new timer. *)
Definition arm_timer (k : SocketId) (now : Z) (d : option Z) (so : State * DriveOutput) : State * DriveOutput :=
  let '(s, o) := so in
  match endpoints s !! k with
  | None => so
  | Some ep =>
      if decide (timer_deadline ep = d) then so else
      let g := Z.max 1 ((timer_generation ep + 1) mod 2 ^ 64) in
      (put_endpoint k (set_timer g d ep) s,
       match d with Some at_ => set_arm (Some (mkArm k g (duration_ceil_ms (saturating_sub at_ now)))) o | None => o end)
  end.

(** An endpoint with neither a listener nor connections goes. *)
Definition retire_endpoint (k : SocketId) (so : State * DriveOutput) : State * DriveOutput :=
  let '(s, o) := so in
  match endpoints s !! k with
  | Some ep =>
      if decide (e_listener ep = None ∧ e_connections ep = ∅) then
        (set_endpoints (delete k (endpoints s)) s, set_arm None (push_close k o))
      else so
  | None => so
  end.

Definition drive (cf : QuicConfig) (k : SocketId) (now : Z) (s : State) : option (State * DriveOutput) :=
  match endpoints s !! k with
  | None => Some (s, output_default)
  | Some ep =>
      let handles := map_to_list (e_connections ep) in
      s ← endpoint_loop (S (endpoint_works handles s)) k handles s;
      '(s, o) ← drive_connections cf k now handles (s, output_default);
      let d := deadline handles s in
      let s := fold_left (remove_drained k) (drained handles s) s in
      Some (retire_endpoint k (arm_timer k now d (s, o)))
  end.

(** ** Commands on a connection *)

Definition owned_connection (id source : Z) (s : State) : QuicConnection + string :=
  match connections s !! id with
  | None => inr "no such connection"%string
  | Some c =>
      if decide (owner c ≠ source) then inr "not the owner"%string else
      if negb (started c) then inr "not started"%string else inl c
  end.

Definition checked_error_code (code : Z) : Z + string := match varint_from_u64 code with Some c => inl c | None => inr "error code"%string end.
Definition proto_stream_id (stream : Z) : Z + string := match varint_from_u64 stream with Some s => inl s | None => inr "stream id"%string end.

Definition socket_of (id : Z) (s : State) : option SocketId := endpoint_socket <$> connections s !! id.

(** [operate_send_stream], and the same of [Stop] on the receiving side. *)
Definition operate_stream (id source stream : Z) (op : QConn → Z → QConn * option string) (s : State) : State * Answer :=
  match owned_connection id source s, proto_stream_id stream with
  | inl c, inl ps => let '(t, r) := op (connection c) ps in (put id (set_connection t c) s, finish_answer r)
  | inr e, _ | inl _, inr e => (s, AFailed e)
  end.

Abbreviation SO := (State * DriveOutput * option SocketId)%type.

Definition fail_if (wait : bool) (p : Pending) (e : string) (o : DriveOutput) : DriveOutput := if wait then push_reply p (AFailed e) o else o.

Definition perform_start (p : Pending) (id : Z) (s : State) (o : DriveOutput) : SO :=
  match connections s !! id with
  | None => (s, push_reply p (AFailed "no such connection") o, None)
  | Some c =>
      let o := fold_left (λ o e, push_event (p_source p) e o) (queued_events c) o in
      (put id (set_started (p_source p) c) s, push_reply p ADone o, Some (endpoint_socket c))
  end.

Definition is_listener (id source : Z) (ep : EndpointState) : bool :=
  is_some_and (λ l, bool_decide (l_id l = id ∧ l_owner l = source)) (e_listener ep).

Definition find_listener (id source : Z) (s : State) : option (SocketId * EndpointState) :=
  snd <$> list_find (λ ke, is_listener id source ke.2 = true) (map_to_list (endpoints s)).

Definition perform_local_addr (p : Pending) (id : Z) (s : State) (o : DriveOutput) : SO :=
  (s, push_reply p (match find_listener id (p_source p) s ≫= λ ke, e_local ke.2 with
                    | Some a => ALocalAddr a
                    | None => AFailed "no such listener, or no local address"
                    end) o, None).

Definition perform_close_listener (p : Pending) (id : Z) (s : State) (o : DriveOutput) : SO :=
  match find_listener id (p_source p) s with
  | Some (k, ep) =>
      if decide (e_connections ep = ∅) then (set_endpoints (delete k (endpoints s)) s, push_reply p ADone (push_close k o), None)
      else (put_endpoint k (set_listener None ep) s, push_reply p ADone o, None)
  | None => (s, push_reply p (AFailed "no such listener, or not the owner") o, None)
  end.

Definition perform_open (p : Pending) (d : Dir) (id : Z) (s : State) (o : DriveOutput) : SO :=
  let '(s, a) := match owned_connection id (p_source p) s with
                 | inl c =>
                     let '(t, r) := stream_open (connection c) d in
                     (put id (set_connection t c) s, match r with Some x => AStream x | None => AFailed "no more streams" end)
                 | inr e => (s, AFailed e)
                 end in
  (s, push_reply p a o, socket_of id s).

(** The part of [Send] after the write: what was not taken is queued. *)
Definition enqueue_write (cf : QuicConfig) (p : Pending) (id stream : Z) (data : list Z) (wait : bool) (n : Z) (co : CO) : CO :=
  let '(c, o) := co in
  if decide (n = Z.of_nat (length data)) then (c, if wait then push_reply p ADone o else o) else
  let c := set_buffered (buffered_bytes c + (Z.of_nat (length data) - n)) c in
  let c := set_writes (<[stream := default [] (writes c !! stream) ++ [mkWrite data n (if wait then Some p else None)]]> (writes c)) c in
  if decide (write_high_water cf ≤ buffered_bytes c ∧ warned c = false) then
    queue_event (Warning id (buffered_bytes c)) (set_warned true c, o)
  else (c, o).

Definition send_on (cf : QuicConfig) (p : Pending) (id stream : Z) (data : list Z) (wait : bool) (co : CO) : CO :=
  match stream_write (connection co.1) stream data with
  | (t, inl n) => enqueue_write cf p id stream data wait n (on_conn t co)
  | (t, inr WBlocked) => enqueue_write cf p id stream data wait 0 (on_conn t co)
  | (t, inr (WFailed e)) => (set_connection t co.1, fail_if wait p e co.2)
  end.

Definition perform_send (cf : QuicConfig) (p : Pending) (id stream : Z) (data : list Z) (wait : bool) (s : State) (o : DriveOutput) : SO :=
  if decide (max_chunk_size cf < Z.of_nat (length data)) then (s, fail_if wait p "too long" o, None) else
  match owned_connection id (p_source p) s with
  | inr _ => (s, fail_if wait p "no such connection, or not the owner" o, None)
  | inl c =>
      match proto_stream_id stream with
      | inr e => (s, fail_if wait p e o, None)
      | inl ps =>
          if decide (is_Some (finishes c !! ps)) then (s, fail_if wait p "finishing" o, Some (endpoint_socket c)) else
          let '(c, o) := send_on cf p id ps data wait (c, o) in
          (put id c s, o, Some (endpoint_socket c))
      end
  end.

Definition perform_finish (p : Pending) (id stream : Z) (s : State) (o : DriveOutput) : SO :=
  match owned_connection id (p_source p) s with
  | inr e => (s, push_reply p (AFailed e) o, None)
  | inl c =>
      match proto_stream_id stream with
      | inr e => (s, push_reply p (AFailed e) o, Some (endpoint_socket c))
      | inl ps =>
          if decide (is_Some (finishes c !! ps)) then (s, push_reply p (AFailed "finishing") o, Some (endpoint_socket c)) else
          match writes c !! ps with
          | Some (_ :: _) => (put id (set_finishes (<[ps := p]> (finishes c)) c) s, o, Some (endpoint_socket c))
          | _ =>
              let '(t, r) := stream_finish (connection c) ps in
              (put id (set_connection t c) s, push_reply p (finish_answer r) o, Some (endpoint_socket c))
          end
      end
  end.

(** [Reset] and [Stop]. *)
Definition perform_stream (p : Pending) (id stream code : Z) (op : QConn → Z → Z → QConn * option string) (s : State) (o : DriveOutput) : SO :=
  match checked_error_code code with
  | inr e => (s, push_reply p (AFailed e) o, None)
  | inl code =>
      let '(s, a) := operate_stream id (p_source p) stream (λ q ps, op q ps code) s in
      (s, push_reply p a o, socket_of id s)
  end.

Definition perform_datagram (p : Pending) (id : Z) (data : list Z) (s : State) (o : DriveOutput) : SO :=
  let '(s, a) := match owned_connection id (p_source p) s with
                 | inl c => let '(t, r) := datagram_send (connection c) data in (put id (set_connection t c) s, finish_answer r)
                 | inr e => (s, AFailed e)
                 end in
  (s, push_reply p a o, socket_of id s).

Definition perform_close (p : Pending) (now id code : Z) (reason : list Z) (s : State) (o : DriveOutput) : SO :=
  match checked_error_code code with
  | inr e => (s, push_reply p (AFailed e) o, None)
  | inl code =>
      let '(s, a) := match owned_connection id (p_source p) s with
                     | inl c => (put id (set_connection (conn_close (connection c) now code reason) c) s, ADone)
                     | inr e => (s, AFailed e)
                     end in
      (s, push_reply p a o, socket_of id s)
  end.

Definition perform_shutdown (p : Pending) (now id : Z) (s : State) (o : DriveOutput) : SO :=
  match owned_connection id (p_source p) s with
  | inl c => (put id (set_connection (conn_close (connection c) now 0 []) c) s, o, Some (endpoint_socket c))
  | inr _ => (s, o, None)
  end.

Definition info_le (a b : QuicInfo) : Prop := i_id a ≤ i_id b.

#[global] Instance info_le_dec a b : Decision (info_le a b).
Proof. unfold info_le. apply _. Defined.

(** [perform]; [None] for the commands that [on_command] keeps, which are [unreachable!]. *)
Definition perform (cf : QuicConfig) (p : Pending) (c : Command) (now : Z) (s : State) (o : DriveOutput) : option SO :=
  match c with
  | Start id => Some (perform_start p id s o)
  | ListenerLocalAddr id => Some (perform_local_addr p id s o)
  | CloseListener id => Some (perform_close_listener p id s o)
  | OpenBi id => Some (perform_open p Bi id s o)
  | OpenUni id => Some (perform_open p Uni id s o)
  | Send id stream data wait => Some (perform_send cf p id stream data wait s o)
  | Finish id stream => Some (perform_finish p id stream s o)
  | Reset id stream code => Some (perform_stream p id stream code stream_reset s o)
  | Stop id stream code => Some (perform_stream p id stream code stream_stop s o)
  | SendDatagram id data => Some (perform_datagram p id data s o)
  | Close id code reason => Some (perform_close p now id code reason s o)
  | Shutdown id => Some (perform_shutdown p now id s o)
  | Info id =>
      Some (s, push_reply p (match connections s !! id with Some c => AInfo (connection_info c) | None => AFailed "no such connection" end) o, None)
  | Netstat =>
      Some (s, push_reply p (AInfos (merge_sort info_le (connection_info <$> (map_to_list (connections s)).*2))) o, None)
  | Listen _ | Connect _ | Tick _ _ | ConnectTimeout _ => None
  end.

(** ** The world *)

(** What the service does: replies, [reply_error], events for owners, and commands sent to
    the network service. *)
Inductive Out : Type :=
  | OReply (p : Pending) (a : Answer)
  | ORefuse (p : Pending)
  | OEmit (owner : Z) (e : QuicEvent)
  | OTell (c : NetService.Command).

(** [timers]: the commands that sleeping tasks will send; [posted]: messages to the service
    itself; [panicked]: a handler has panicked or does not end. *)
Record W : Type := mkW {
  st : State;
  config : QuicConfig;
  net_up : bool;
  outs : list Out;
  timers : list Command;
  posted : list Command;
  panicked : bool;
}.

Definition on_st (f : State → State) (w : W) := mkW (f (st w)) (config w) (net_up w) (outs w) (timers w) (posted w) (panicked w).
Definition set_st x (w : W) := mkW x (config w) (net_up w) (outs w) (timers w) (posted w) (panicked w).
Definition set_net_up x (w : W) := mkW (st w) (config w) x (outs w) (timers w) (posted w) (panicked w).
Definition out (o : Out) (w : W) := mkW (st w) (config w) (net_up w) (outs w ++ [o]) (timers w) (posted w) (panicked w).
Definition set_timers x (w : W) := mkW (st w) (config w) (net_up w) (outs w) x (posted w) (panicked w).
Definition set_posted x (w : W) := mkW (st w) (config w) (net_up w) (outs w) (timers w) x (panicked w).
Definition panic (w : W) := mkW (st w) (config w) (net_up w) (outs w) (timers w) (posted w) true.

Definition reply (p : Pending) (a : Answer) (w : W) : W := if decide (p_session p = 0) then w else out (OReply p a) w.

(** A command to the network service: it fails when the service has no name. *)
Definition tell (c : NetService.Command) (w : W) : W := if net_up w then out (OTell c) w else w.

Definition net_shutdown (k : SocketId) (w : W) : W := tell (NetService.CShutdown k) w.

(** ** Handlers *)

(** Handlers that wait for the network service: [listen] for its socket and its address,
    [connect] for its socket, for the peer of a bound socket and for its addresses, and
    [emit] for a packet to be sent. *)
Inductive Task : Type :=
  | TListen (sc : ServerCrypto * TransportConfig) (p : Pending)
  | TListenInfo (sc : ServerCrypto * TransportConfig) (p : Pending) (k : SocketId)
  | TConnect (cc : ClientCrypto * TransportConfig) (o : QuicClientOptions) (p : Pending)
  | TConnectPeer (cc : ClientCrypto * TransportConfig) (o : QuicClientOptions) (p : Pending) (k : SocketId)
  | TConnectInfo (cc : ClientCrypto * TransportConfig) (o : QuicClientOptions) (p : Pending) (k : SocketId)
  | TEmit (o : DriveOutput).

(** What the network service answers; [RInfo] has the peer and the local address. *)
Inductive NetResult : Type :=
  | RSocket (r : SocketId + string)
  | RInfo (r : (option SocketAddr * option SocketAddr) + string)
  | RDone (r : option string).

(** [emit] after the last packet. *)
Definition emit_rest (o : DriveOutput) (w : W) : W :=
  let w := fold_left (λ w k, net_shutdown k w) (close_sockets o) w in
  let w := fold_left (λ w e, out (OEmit (oe_owner e) (oe_event e)) w) (events o) w in
  let w := fold_left (λ w pa, reply pa.1 pa.2 w) (replies o) w in
  match timer o with
  | Some t => set_timers (timers w ++ [Tick (ta_socket t) (ta_generation t)]) w
  | None => w
  end.

Definition emit (o : DriveOutput) (w : W) : W * option Task :=
  match packets o with
  | [] => (emit_rest o w, None)
  | p :: ps => (tell (NetService.CUdpSendWait (pk_socket p) (Some (pk_destination p)) (pk_data p)) w, Some (TEmit (set_packets ps o)))
  end.

(** How a handler goes on from a point: it ends; it waits; it sends what it has; or it drives
    an endpoint and sends that too. *)
Inductive Next : Type := NDone | NWait (t : Task) | NEmit (o : DriveOutput) | NDrive (direct : DriveOutput) (k : SocketId).

Definition follow (now : Z) (wn : W * Next) : W * option Task :=
  let '(w, n) := wn in
  match n with
  | NDone => (w, None)
  | NWait t => (w, Some t)
  | NEmit o => emit o w
  | NDrive direct k =>
      match drive (config w) k now (st w) with
      | None => (panic w, None)
      | Some (s, o) => emit (extend direct o) (set_st s w)
      end
  end.

Definition is_unspecified (a : SocketAddr) : bool := match a with V4 ip _ | V6 ip _ _ _ => bool_decide (ip = 0) end.

Definition listen (p : Pending) (o : QuicServerOptions) (w : W) : W * Next :=
  match server_proto_config o with
  | inr e => (reply p (AFailed e) w, NDone)
  | inl sc => (tell (NetService.CUdp (Some (so_address o))) w, NWait (TListen sc p))
  end.

(** [listen] once the socket and its address are known. *)
Definition listening (sc : ServerCrypto * TransportConfig) (p : Pending) (k : SocketId) (loc : option SocketAddr) (w : W) : W :=
  if is_some_and is_unspecified loc then reply p (AFailed "wildcard") (net_shutdown k w) else
  let '(id, s) := listener_id (st w) in
  reply p (AListener id)
    (set_st (put_endpoint k (mkEndpoint loc (endpoint_new (Some sc)) (Some (mkListener id (p_source p))) ∅ 0 None) s) w).

Definition connect (p : Pending) (o : QuicClientOptions) (w : W) : W * Next :=
  match client_proto_config o with
  | inr e => (reply p (AFailed e) w, NDone)
  | inl cc =>
      match reserve_connect (config w) (st w) with
      | None => (reply p (AFailed "no capacity") w, NDone)
      | Some s =>
          (tell (match co_bind o with Some b => NetService.CUdp (Some b) | None => NetService.CUdpForPeer (co_address o) end) (set_st s w),
           NWait (TConnect cc o p))
      end
  end.

(** An error of [connect] after the reservation. *)
Definition connect_failed (p : Pending) (k : option SocketId) (e : string) (w : W) : W :=
  let w := on_st release_connect w in
  reply p (AFailed e) (match k with Some k => net_shutdown k w | None => w end).

(** A connection as [connect] and the acceptance of one make it. *)
Definition new_connection (id : Z) (k : SocketId) (q : QConn) (o : Z) (lis : option Z) (loc : option SocketAddr) (st : bool) (p : option Pending) : QuicConnection :=
  mkConnection id k q o lis loc st false None p [] ∅ ∅ 0 false.

(** [connect] once the socket has its peer. *)
Definition connected (cc : ClientCrypto * TransportConfig) (o : QuicClientOptions) (p : Pending) (k : SocketId) (loc : option SocketAddr)
    (peer : SocketAddr) (now : Z) (w : W) : W * Next :=
  match endpoint_connect (endpoint_new None) now cc peer (co_server_name o) with
  | (_, inr e) => (connect_failed p (Some k) e w, NDone)
  | (ep, inl (h, q)) =>
      let '(id, s) := connection_id (release_connect (st w)) in
      let s := put_endpoint k (mkEndpoint loc ep None {[h := id]} 0 None) s in
      let s := put id (new_connection id k q (p_source p) None loc true (Some p)) s in
      (set_timers (timers w ++ [ConnectTimeout id]) (set_st s w), NDrive output_default k)
  end.

(** [b"connect timeout"]. *)
Definition connect_timeout_reason : list Z := [99; 111; 110; 110; 101; 99; 116; 32; 116; 105; 109; 101; 111; 117; 116].

Definition connect_timeout (id now : Z) (w : W) : W * Next :=
  match connections (st w) !! id with
  | Some c =>
      match connect_pending c with
      | Some p =>
          if negb (is_handshaking (connection c)) then (w, NDone) else
          let c := set_connect_pending None (set_connection (conn_close (connection c) now 0 connect_timeout_reason) c) in
          (reply p (AFailed "timeout") (on_st (put id c) w), NDrive output_default (endpoint_socket c))
      | None => (w, NDone)
      end
  | None => (w, NDone)
  end.

(** [Tick]: the timeouts that are due. *)
Definition handle_timeouts (k : SocketId) (now : Z) (s : State) : State :=
  set_connections
    ((λ c, if decide (endpoint_socket c = k ∧ is_some_and (λ at_, bool_decide (at_ ≤ now)) (poll_timeout (connection c)) = true)
           then set_connection (handle_timeout (connection c) now) c else c) <$> connections s) s.

Definition tick (k : SocketId) (g now : Z) (w : W) : W * Next :=
  match endpoints (st w) !! k with
  | Some ep =>
      if decide (timer_generation ep = g) then
        (on_st (λ s, handle_timeouts k now (put_endpoint k (set_timer (timer_generation ep) None ep) s)) w, NDrive output_default k)
      else (w, NDone)
  | None => (w, NDone)
  end.

Definition on_command (p : Pending) (c : Command) (now : Z) (w : W) : W * Next :=
  match c with
  | Listen o => listen p o w
  | Connect o => connect p o w
  | Tick k g => tick k g now w
  | ConnectTimeout id => connect_timeout id now w
  | _ =>
      match perform (config w) p c now (st w) output_default with
      | None => (panic w, NDone)
      | Some (s, o, Some k) => (set_st s w, NDrive o k)
      | Some (s, o, None) => (set_st s w, NEmit o)
      end
  end.

(** ** Events of sockets *)

(** A packet of the peer of no connection: it is accepted, or refused. *)
Definition on_incoming (k : SocketId) (ep : EndpointState) (inc : Incoming) (buffer : list Z) (now : Z) (w : W) : option (EndpointState * State * DriveOutput) :=
  match e_listener ep with
  | Some l =>
      if has_connection_capacity (config w) (st w) then
        match endpoint_accept (endpoint ep) inc now buffer with
        | (e, _, inl (h, q)) =>
            let '(id, s) := connection_id (st w) in
            Some (set_endpoint e (set_handles (<[h := id]> (e_connections ep)) ep),
                  put id (new_connection id k q (l_owner l) (Some (l_id l)) (e_local ep) false None) s, output_default)
        | (e, _, inr None) => Some (set_endpoint e ep, st w, output_default)
        | (e, buffer, inr (Some t)) => p ← packet k t buffer; Some (set_endpoint e ep, st w, push_packet p output_default)
        end
      else
        let '(e, buffer, t) := endpoint_refuse (endpoint ep) inc buffer in
        p ← packet k t buffer; Some (set_endpoint e ep, st w, push_packet p output_default)
  | None =>
      let '(e, buffer, t) := endpoint_refuse (endpoint ep) inc buffer in
      p ← packet k t buffer; Some (set_endpoint e ep, st w, push_packet p output_default)
  end.

Definition on_datagram (k : SocketId) (ep : EndpointState) (from : SocketAddr) (data : list Z) (now : Z) (w : W) : option (EndpointState * State * DriveOutput) :=
  match endpoint_handle (endpoint ep) now from data with
  | (e, _, Some (inl (h, ev))) =>
      Some (set_endpoint e ep,
            match e_connections ep !! h ≫= λ id, pair id <$> connections (st w) !! id with
            | Some (id, c) => put id (set_connection (handle_event (connection c) ev) c) (st w)
            | None => st w
            end, output_default)
  | (e, buffer, Some (inr (inl inc))) => on_incoming k (set_endpoint e ep) inc buffer now w
  | (e, buffer, Some (inr (inr t))) => p ← packet k t buffer; Some (set_endpoint e ep, st w, push_packet p output_default)
  | (e, _, None) => Some (set_endpoint e ep, st w, output_default)
  end.

(** One connection of an endpoint whose socket is gone. *)
Definition fail_connection (reason : string) (so : State * DriveOutput) (id : Z) : State * DriveOutput :=
  let '(s, o) := so in
  match connections s !! id with
  | None => so
  | Some c =>
      let o := match connect_pending c with Some p => push_reply p (AFailed reason) o | None => o end in
      let o := if announced c then push_event (owner c) (Error id reason) o else o in
      (set_connections (delete id (connections s)) s, (fail_pending_writes reason (c, o)).2)
  end.

Definition endpoint_failed (k : SocketId) (reason : string) (w : W) : W * Next :=
  let ids := match endpoints (st w) !! k with Some ep => (map_to_list (e_connections ep)).*2 | None => [] end in
  let '(s, o) := fold_left (fail_connection reason) ids (set_endpoints (delete k (endpoints (st w))) (st w), output_default) in
  (set_st s w, NEmit o).

Definition on_socket (e : NetService.SocketEvent) (now : Z) (w : W) : W * Next :=
  match e with
  | NetService.EUdp k from data =>
      match endpoints (st w) !! k with
      | None => (w, NDone)
      | Some ep =>
          match on_datagram k ep from data now w with
          | None => (panic w, NDone)
          | Some (ep, s, direct) => (set_st (put_endpoint k ep s) w, NDrive direct k)
          end
      end
  | _ => if NetService.is_gone e then endpoint_failed (NetService.event_id e) "UDP socket closed" w else (w, NDone)
  end.

(** The payload of a message, as far as it can be read. *)
Inductive Body : Type := BSocket (e : NetService.SocketEvent) | BCommand (c : Command) | BOther.

Definition refuse (m : Message) (w : W) : W :=
  if needs_reply m then out (ORefuse (mkPending (source m) (session m))) w else w.

Definition dispatch (m : Message) (b : Body) (now : Z) (w : W) : W * Next :=
  if decide (mtype m = MsgType.SOCKET) then
    match b with BSocket e => on_socket e now w | _ => (w, NDone) end
  else if decide (mtype m ≠ MsgType.USER) then (refuse m w, NDone)
  else
    match b with
    | BCommand c => on_command (mkPending (source m) (session m)) c now w
    | _ => (refuse m w, NDone)
    end.

(** The rest of a handler. *)
Definition resume (t : Task) (r : NetResult) (now : Z) (w : W) : option (W * Next) :=
  match t, r with
  | TListen sc p, RSocket (inl k) => Some (tell (NetService.CInfo k) w, NWait (TListenInfo sc p k))
  | TListen _ p, RSocket (inr e) => Some (reply p (AFailed e) w, NDone)
  | TListenInfo sc p k, RInfo i => Some (listening sc p k (match i with inl (_, loc) => loc | inr _ => None end) w, NDone)
  | TConnect cc o p, RSocket (inl k) =>
      Some (match co_bind o with
            | Some _ => (tell (NetService.CUdpConnect k (co_address o)) w, NWait (TConnectPeer cc o p k))
            | None => (tell (NetService.CInfo k) w, NWait (TConnectInfo cc o p k))
            end)
  | TConnect _ _ p, RSocket (inr e) => Some (connect_failed p None e w, NDone)
  | TConnectPeer cc o p k, RDone None => Some (tell (NetService.CInfo k) w, NWait (TConnectInfo cc o p k))
  | TConnectPeer _ _ p k, RDone (Some e) => Some (connect_failed p (Some k) e w, NDone)
  | TConnectInfo cc o p k, RInfo (inl (Some peer, loc)) => Some (connected cc o p k loc peer now w)
  | TConnectInfo _ _ p k, RInfo (inl (None, _)) => Some (connect_failed p (Some k) "no peer" w, NDone)
  | TConnectInfo _ _ p k, RInfo (inr e) => Some (connect_failed p (Some k) e w, NDone)
  | TEmit o, RDone _ => Some (w, NEmit o)
  | _, _ => None
  end.

(** ** The service as a system *)

Record Sys : Type := mkSys { world : W; tasks : gmap Z Task }.

Definition sys_new (c : QuicConfig) (up : bool) : Sys := mkSys (mkW state_default c up [] [] [] false) ∅.

Definition settle (c : Z) (r : W * option Task) (s : Sys) : Sys :=
  match r with
  | (w, None) => mkSys w (tasks s)
  | (w, Some t) => mkSys w (<[c := t]> (tasks s))
  end.

(** A message handled as the call [c]; the answer a call waits for; the end of a sleep; the
    delivery of a message to the service itself, handled as [c]; the network service gets or
    loses its name. *)
Inductive Event : Type :=
  | EMessage (c : Z) (m : Message) (b : Body) (now : Z)
  | EResume (c : Z) (r : NetResult) (now : Z)
  | ETimer (k : nat)
  | EPosted (c : Z) (k : nat) (now : Z)
  | ENet (up : bool).

Definition step (ev : Event) (s : Sys) : option Sys :=
  let w := world s in
  if panicked w then None else
  match ev with
  | EMessage c m b now => if decide (tasks s !! c = None) then Some (settle c (follow now (dispatch m b now w)) s) else None
  | EResume c r now => t ← tasks s !! c; x ← resume t r now w; Some (settle c (follow now x) (mkSys w (delete c (tasks s))))
  | ETimer k => c ← timers w !! k; Some (mkSys (set_posted (posted w ++ [c]) (set_timers (delete k (timers w)) w)) (tasks s))
  | EPosted c k now =>
      if decide (tasks s !! c = None) then
        x ← posted w !! k;
        Some (settle c (follow now (on_command (mkPending 0 0) x now (set_posted (delete k (posted w)) w))) s)
      else None
  | ENet up => Some (mkSys (set_net_up up w) (tasks s))
  end.

Fixpoint run (evs : list Event) (s : Sys) : option Sys :=
  match evs with
  | [] => Some s
  | ev :: evs => s ← step ev s; run evs s
  end.
End quic.
End QuicService.
