(* ===== verification/QuicBooks.v ===== *)
(** * What the QUIC service promises

    Over any run of [QuicService.v]: its loops end and it does not panic; its two limits
    hold, reservations included; its tables agree; every caller is answered once or waiting,
    but for those whose connection is drained under them; the bytes it counts as buffered
    are those that are; and every timeout of a connection is awaited by a timer. *)
From S2P Require Import Prelude Message NetBuffer NetSocket NetService QuicService.
From stdpp Require Import strings.
#[local] Open Scope Z_scope.

Module QuicBooks.
Import NetSocket(SocketId, Pending, mkPending, p_source, p_session).
Import QuicService.

Section books.
Context `{QuicEngine} `{!QuicLaws}.

Abbreviation CO := (QuicConnection * DriveOutput)%type.

(** ** Accounts *)

Definition is_caller (x : Z * Z) (p : Pending) : Z := if decide ((p_source p, p_session p) = x) then 1 else 0.

Definition opt (x : Z * Z) (o : option Pending) : Z := from_option (is_caller x) 0 o.

(** The callers of the writes of a queue, and the bytes left of them. *)
Definition queue_waits (x : Z * Z) (q : list QueuedWrite) : Z := foldr (λ wr n, opt x (qw_pending wr) + n) 0 q.

Definition unsent (wr : QueuedWrite) : Z := Z.of_nat (length (qw_data wr)) - qw_offset wr.

Definition queue_bytes (q : list QueuedWrite) : Z := foldr (λ wr n, unsent wr + n) 0 q.

Definition write_ok (wr : QueuedWrite) : Prop := 0 ≤ qw_offset wr ≤ Z.of_nat (length (qw_data wr)).

Definition waits (x : Z * Z) (c : QuicConnection) : Z :=
  opt x (connect_pending c) + map_sum (queue_waits x) (writes c) + map_sum (is_caller x) (finishes c).

Definition replied (x : Z * Z) (l : list (Pending * Answer)) : Z := foldr (λ pa n, is_caller x pa.1 + n) 0 l.

Lemma queue_waits_cons x wr q : queue_waits x (wr :: q) = opt x (qw_pending wr) + queue_waits x q.
Proof. done. Qed.

Lemma queue_bytes_cons wr q : queue_bytes (wr :: q) = unsent wr + queue_bytes q.
Proof. done. Qed.

#[local] Arguments map_sum : simpl never.
#[local] Arguments opt : simpl never.
#[local] Arguments queue_waits : simpl never.
#[local] Arguments queue_bytes : simpl never.
#[local] Arguments replied : simpl never.

(** [buffered_bytes] is exact. *)
Definition exact (c : QuicConnection) : Prop :=
  buffered_bytes c = map_sum queue_bytes (writes c) ∧ map_Forall (λ _ q, Forall write_ok q) (writes c).

(** Before [start] events are queued, afterwards there are none. *)
Definition handed (c : QuicConnection) : Prop := started c = true → queued_events c = [].

(** A piece of a handler that works on one connection. *)
Record carries (co co' : CO) : Prop := {
  cr_id : c_id co'.1 = c_id co.1;
  cr_socket : endpoint_socket co'.1 = endpoint_socket co.1;
  cr_moves : rtc moves (connection co.1) (connection co'.1);
  cr_waits x : waits x co'.1 + replied x (replies co'.2) = waits x co.1 + replied x (replies co.2);
  cr_exact : exact co.1 → exact co'.1;
  cr_handed : handed co.1 → handed co'.1;
  cr_closes : close_sockets co'.2 = close_sockets co.2;
  cr_timer : timer co'.2 = timer co.2;
}.

#[global] Instance carries_preorder : PreOrder carries.
Proof.
  split; [by intros []; split|]. intros co1 co2 co3 [A1 A2 A3 A4 A5 A6 A7 A8] [B1 B2 B3 B4 B5 B6 B7 B8].
  split; [congruence|congruence|by etrans|intros x; rewrite B4, A4; lia|auto|auto|congruence|congruence].
Qed.

Lemma replied_app x l l' : replied x (l ++ l') = replied x l + replied x l'.
Proof. unfold replied. induction l as [|a l IH]; cbn; lia. Qed.

Lemma replied_push x p a o : replied x (replies (push_reply p a o)) = replied x (replies o) + is_caller x p.
Proof. cbn. rewrite replied_app. unfold replied. cbn. lia. Qed.

Lemma replied_push_opt x (p : option Pending) (a : Answer) o :
  replied x (replies (match p with Some p => push_reply p a o | None => o end)) = replied x (replies o) + opt x p.
Proof. destruct p; [apply replied_push|unfold opt; cbn; lia]. Qed.

Lemma move_carries q co : moves (connection co.1) q → carries co (on_conn q co).
Proof. intros Hm. split; cbn; try done. by apply rtc_once. Qed.

Lemma queue_event_carries e co : carries co (queue_event e co).
Proof. destruct co as [c o]. unfold queue_event. destruct (started c) eqn:Hs; split; cbn; try done. unfold handed. cbn. congruence. Qed.

Lemma on_conn_1 q co : connection (on_conn q co).1 = q.
Proof. done. Qed.

Lemma queue_event_conn e co : connection (queue_event e co).1 = connection co.1.
Proof. destruct co as [c o]. unfold queue_event. by destruct (started c). Qed.

(** ** The loops over a connection *)

(** A loop ends, carries, and makes no more work. *)
Definition serves (co : CO) (r : option CO) : Prop :=
  ∃ co', r = Some co' ∧ carries co co' ∧ (app_work (connection co'.1) ≤ app_work (connection co.1))%nat.

Lemma serves_now co co' : carries co co' → (app_work (connection co'.1) ≤ app_work (connection co.1))%nat → serves co (Some co').
Proof. by exists co'. Qed.

Lemma serves_after co co1 r : carries co co1 → (app_work (connection co1.1) ≤ app_work (connection co.1))%nat → serves co1 r → serves co r.
Proof. intros Hc Hw (co' & -> & Hc' & Hw'). exists co'. split_and!; [done|by etrans|lia]. Qed.

Lemma serves_bind co r f : serves co r → (∀ co1, carries co co1 → (app_work (connection co1.1) ≤ app_work (connection co.1))%nat → serves co1 (f co1)) → serves co (r ≫= f).
Proof. intros (co1 & -> & Hc & Hw) Hf. cbn. eapply serves_after; eauto. Qed.

Lemma read_loop_serves fuel chunk stream co : (app_work (connection co.1) < fuel)%nat → serves co (read_loop fuel chunk stream co).
Proof.
  revert co. induction fuel as [|fuel IH]; intros co Hf; [lia|]. cbn [read_loop].
  destruct (read_chunk (connection co.1) stream chunk) as [q r] eqn:Hr. pose proof (read_work _ _ _ _ _ Hr) as Hw.
  assert (Hm : carries co (on_conn q co)).
  { apply move_carries. replace q with (read_chunk (connection co.1) stream chunk).1 by by rewrite Hr. constructor. }
  destruct r as [[[bytes|]|[|code]]|]; cbn in Hw.
  - eapply serves_after; [etrans; [exact Hm|apply queue_event_carries]| |apply IH]; rewrite queue_event_conn, on_conn_1; lia.
  - apply serves_now; [etrans; [exact Hm|apply queue_event_carries]|]. rewrite queue_event_conn, on_conn_1. lia.
  - apply serves_now; [done|]. cbn. lia.
  - apply serves_now; [etrans; [exact Hm|apply queue_event_carries]|]. rewrite queue_event_conn, on_conn_1. lia.
  - apply serves_now; [done|]. cbn. lia.
Qed.

Lemma read_stream_serves chunk stream co : serves co (read_stream chunk stream co).
Proof. apply read_loop_serves. lia. Qed.

Lemma accept_loop_serves fuel chunk d co : (app_work (connection co.1) < fuel)%nat → serves co (accept_loop fuel chunk d co).
Proof.
  revert co. induction fuel as [|fuel IH]; intros co Hf; [lia|]. cbn [accept_loop].
  destruct (stream_accept (connection co.1) d) as [q r] eqn:Hr. pose proof (accept_work _ _ _ _ Hr) as Hw.
  assert (Hm : carries co (on_conn q co)).
  { apply move_carries. replace q with (stream_accept (connection co.1) d).1 by by rewrite Hr. constructor. }
  destruct r as [stream|]; cbn in Hw; [|apply serves_now; [done|cbn; lia]].
  eapply serves_after; [etrans; [exact Hm|apply queue_event_carries]| |]; [rewrite queue_event_conn, on_conn_1; lia|].
  apply serves_bind; [apply read_stream_serves|]. intros co1 _ H1. apply IH. rewrite queue_event_conn, on_conn_1 in H1. lia.
Qed.

Lemma datagram_loop_serves fuel co : (app_work (connection co.1) < fuel)%nat → serves co (datagram_loop fuel co).
Proof.
  revert co. induction fuel as [|fuel IH]; intros co Hf; [lia|]. cbn [datagram_loop].
  destruct (datagram_recv (connection co.1)) as [q r] eqn:Hr. pose proof (recv_work _ _ _ Hr) as Hw.
  assert (Hm : carries co (on_conn q co)).
  { apply move_carries. replace q with (datagram_recv (connection co.1)).1 by by rewrite Hr. constructor. }
  destruct r as [data|]; cbn in Hw; [|apply serves_now; [done|cbn; lia]].
  eapply serves_after; [etrans; [exact Hm|apply queue_event_carries]| |apply IH]; rewrite queue_event_conn, on_conn_1; lia.
Qed.

(** ** Writing *)

(** What [flush_queue] leaves: the queue, the accounts and the count of bytes in step. *)
Record flushed (q q' : list QueuedWrite) (co co' : CO) : Prop := {
  f_same : ∃ t b, co'.1 = set_buffered b (set_connection t co.1);
  f_moves : rtc moves (connection co.1) (connection co'.1);
  f_waits x : queue_waits x q' + replied x (replies co'.2) = queue_waits x q + replied x (replies co.2);
  f_bytes : Forall write_ok q → queue_bytes q ≤ buffered_bytes co.1 →
    Forall write_ok q' ∧ buffered_bytes co'.1 - queue_bytes q' = buffered_bytes co.1 - queue_bytes q;
  f_closes : close_sockets co'.2 = close_sockets co.2;
  f_timer : timer co'.2 = timer co.2;
  f_work : (app_work (connection co'.1) ≤ app_work (connection co.1))%nat;
}.

Lemma queue_bytes_nonneg q : Forall write_ok q → 0 ≤ queue_bytes q.
Proof. induction 1 as [|wr q Hw _ IH]; [done|]. rewrite queue_bytes_cons. unfold write_ok, unsent in *. lia. Qed.

Lemma opt_push_closes (p : option Pending) a o :
  close_sockets (match p with Some p => push_reply p a o | None => o end) = close_sockets o ∧
  timer (match p with Some p => push_reply p a o | None => o end) = timer o.
Proof. by destruct p. Qed.

Lemma write_move q s data q' r : stream_write q s data = (q', r) → moves q q' ∧ (app_work q' ≤ app_work q)%nat.
Proof.
  intros Hw. assert (q' = (stream_write q s data).1) as -> by by rewrite Hw. split; [constructor|apply write_work].
Qed.

Lemma flush_queue_flushed s q co : flushed q (flush_queue s q co).1 co (flush_queue s q co).2.
Proof.
  revert co. induction q as [|wr q IH]; intros [c o].
  { cbn. split; try done. exists (connection c), (buffered_bytes c). by destruct c. }
  cbn [flush_queue]. destruct (stream_write _ s _) as [t [n|[|e]]] eqn:Hw; destruct (write_move _ _ _ _ _ Hw) as [Hm Hwk].
  - pose proof (write_taken _ _ _ _ _ Hw) as Hn. rewrite length_drop in Hn. case_decide as Hd.
    + cbn [qw_pending]. match goal with |- context [flush_queue s q ?y] => set (co1 := y) end. destruct (IH co1) as [(t1 & b1 & F1) F2 F3 F4 F5 F6 F7]. cbn [fst snd].
      destruct (opt_push_closes (qw_pending wr) ADone o) as [Hc1 Hc2]. split.
      * exists t1, b1. by rewrite F1.
      * cbn [connection fst]. eapply rtc_l; [exact Hm|exact F2].
      * intros x. rewrite F3. unfold co1. cbn [snd]. rewrite replied_push_opt, queue_waits_cons. cbn. lia.
      * rewrite Forall_cons. intros [Hwr Hq] Hb. pose proof (queue_bytes_nonneg q Hq). cbn in Hd. rewrite queue_bytes_cons in Hb |- *. cbn in Hb. unfold write_ok, unsent in Hwr, Hb.
        destruct F4 as [F4 F4']; [done|cbn; unfold saturating_sub; lia|]. split; [done|]. rewrite F4'. cbn. unfold unsent, saturating_sub. lia.
      * rewrite F5. exact Hc1.
      * rewrite F6. exact Hc2.
      * etrans; [exact F7|]. exact Hwk.
    + split; cbn; try done; [eauto|by apply rtc_once|].
      rewrite !Forall_cons. intros [Hwr Hq] Hb. pose proof (queue_bytes_nonneg q Hq). rewrite queue_bytes_cons in Hb. rewrite !queue_bytes_cons. unfold write_ok, unsent, saturating_sub in *. cbn in *. split; [split; [lia|done]|lia].
  - split; cbn; try done; [|by apply rtc_once]. exists t, (buffered_bytes c). by destruct c.
  - match goal with |- context [flush_queue s q ?y] => set (co1 := y) end. destruct (IH co1) as [(t1 & b1 & F1) F2 F3 F4 F5 F6 F7]. cbn [fst snd].
    destruct (opt_push_closes (qw_pending wr) (AFailed e) o) as [Hc1 Hc2]. split.
    + exists t1, b1. by rewrite F1.
    + eapply rtc_l; [exact Hm|exact F2].
    + intros x. rewrite F3. unfold co1. cbn [snd]. rewrite replied_push_opt, queue_waits_cons. cbn. lia.
    + rewrite Forall_cons. intros [Hwr Hq] Hb. pose proof (queue_bytes_nonneg q Hq). rewrite queue_bytes_cons in Hb |- *. cbn in Hb. unfold write_ok, unsent in Hwr, Hb.
      destruct F4 as [F4 F4']; [done|cbn; unfold saturating_sub; lia|]. split; [done|]. rewrite F4'. cbn. unfold unsent, saturating_sub. lia.
    + rewrite F5. exact Hc1.
    + rewrite F6. exact Hc2.
    + etrans; [exact F7|]. exact Hwk.
Qed.

(** A queue put back: emptied queues go. *)
Definition requeue (s : Z) (q : list QueuedWrite) (m : gmap Z (list QueuedWrite)) : gmap Z (list QueuedWrite) :=
  if decide (q = []) then delete s m else <[s := q]> m.

Lemma map_sum_requeue (f : list QueuedWrite → Z) s q m :
  f [] = 0 → map_sum f (requeue s q m) = map_sum f m - f (default [] (m !! s)) + f q.
Proof.
  intros Hf. unfold requeue. case_decide as Hq; [rewrite map_sum_delete|rewrite map_sum_insert]; destruct (m !! s); cbn; subst; lia.
Qed.

Lemma requeue_ok s q m : map_Forall (λ _ q, Forall write_ok q) m → Forall write_ok q → map_Forall (λ _ q, Forall write_ok q) (requeue s q m).
Proof. intros Hm Hq. unfold requeue. case_decide; [by apply map_Forall_delete|by apply map_Forall_insert_2]. Qed.

Lemma exact_queue c s : exact c → Forall write_ok (default [] (writes c !! s)).
Proof. intros [_ Hm]. destruct (writes c !! s) as [q|] eqn:Hq; [by apply (Hm s)|by constructor]. Qed.

Lemma map_bytes_nonneg m : map_Forall (λ _ q, Forall write_ok q) m → 0 ≤ map_sum queue_bytes m.
Proof.
  unfold map_sum. induction m as [|i q m Hi Hf IH] using map_first_key_ind; [done|].
  intros [Hq Hm]%map_Forall_insert; [|done]. rewrite map_fold_insert_L by (done || (intros; lia)).
  pose proof (queue_bytes_nonneg q Hq). specialize (IH Hm). lia.
Qed.

Lemma exact_fits c s : exact c → queue_bytes (default [] (writes c !! s)) ≤ buffered_bytes c.
Proof.
  intros [-> Hm]. destruct (writes c !! s) as [q|] eqn:Hq; cbn; [|by apply map_bytes_nonneg].
  rewrite <-(insert_delete_id _ _ _ Hq), map_sum_insert, lookup_delete_eq. cbn.
  apply (map_Forall_delete _ _ s), map_bytes_nonneg in Hm. lia.
Qed.

(** The queue of one stream replaced by what [flush_queue] leaves. *)
Lemma requeue_carries s q' c o co' :
  flushed (default [] (writes c !! s)) q' (c, o) co' → carries (c, o) (set_writes (requeue s q' (writes co'.1)) co'.1, co'.2).
Proof.
  intros [(t & b & F1) F2 F3 F4 F5 F6 F7]. destruct co' as [c' o']. cbn [fst snd] in *. subst c'. split; cbn; try done.
  - intros x. specialize (F3 x). unfold waits. cbn in F3 |- *. rewrite map_sum_requeue by done. lia.
  - intros He. destruct (F4 (exact_queue c s He) (exact_fits c s He)) as [G1 G2]. destruct He as [E1 E2]. cbn in G2.
    split; cbn; [rewrite map_sum_requeue by done; lia|by apply requeue_ok].
Qed.

Lemma flush_finish_carries s co : carries co (flush_finish s co).
Proof.
  destruct co as [c o]. unfold flush_finish. destruct (writes c !! s); [done|]. destruct (finishes c !! s) as [p|] eqn:Hf; [|done].
  destruct (stream_finish (connection c) s) as [t r] eqn:Hr. split; cbn; try done.
  - apply rtc_once. replace t with (stream_finish (connection c) s).1 by by rewrite Hr. constructor.
  - intros x. unfold waits. cbn. rewrite map_sum_delete, Hf, replied_app. unfold replied at 2. cbn. lia.
Qed.

Lemma flush_finish_work s co : (app_work (connection (flush_finish s co).1) ≤ app_work (connection co.1))%nat.
Proof.
  destruct co as [c o]. unfold flush_finish. destruct (writes c !! s); [done|]. destruct (finishes c !! s); [|done].
  pose proof (finish_work (connection c) s). by destruct (stream_finish (connection c) s).
Qed.

Lemma unwarn_carries low co : carries co (if decide (buffered_bytes co.1 ≤ low) then set_warned false co.1 else co.1, co.2).
Proof. destruct co as [c o]. by cbn; case_decide; split. Qed.

(** [flush_stream_writes], piece by piece. *)
Lemma flush_stream_writes_eq low s co :
  flush_stream_writes low s co =
  let r := flush_queue s (default [] (writes co.1 !! s)) co in
  let co2 := flush_finish s (set_writes (requeue s r.1 (writes r.2.1)) r.2.1, r.2.2) in
  (if decide (buffered_bytes co2.1 ≤ low) then set_warned false co2.1 else co2.1, co2.2).
Proof.
  unfold flush_stream_writes. destruct (flush_queue s _ co) as [q [c o]]. cbn [fst snd]. unfold requeue.
  by destruct (flush_finish s _) as [c' o'].
Qed.

Lemma flush_stream_writes_carries low s co : carries co (flush_stream_writes low s co).
Proof.
  rewrite flush_stream_writes_eq. cbn zeta. set (r := flush_queue s _ co). etrans; [|apply unwarn_carries]. etrans; [|apply flush_finish_carries].
  destruct co as [c o]. apply requeue_carries, flush_queue_flushed.
Qed.

Lemma flush_stream_writes_work low s co : (app_work (connection (flush_stream_writes low s co).1) ≤ app_work (connection co.1))%nat.
Proof.
  rewrite flush_stream_writes_eq. cbn zeta. set (r := flush_queue s _ co). cbn [fst]. 
  assert (∀ c, connection (if decide (buffered_bytes c ≤ low) then set_warned false c else c) = connection c) as -> by (intros c; by case_decide).
  etrans; [apply flush_finish_work|]. cbn. apply (f_work _ _ _ _ (flush_queue_flushed s _ co)).
Qed.

Lemma flush_writes_carries low co : carries co (flush_writes low co).
Proof.
  unfold flush_writes. generalize ((map_to_list (writes co.1)).*1) as l. intros l. revert co.
  induction l as [|s l IH]; intros co; cbn; [done|]. etrans; [apply flush_stream_writes_carries|apply IH].
Qed.

(** A list of callers answered one after the other. *)
Lemma fail_writes_replied x e q o :
  replied x (replies (fail_writes e q o)) = replied x (replies o) + queue_waits x q ∧
  close_sockets (fail_writes e q o) = close_sockets o ∧ timer (fail_writes e q o) = timer o.
Proof.
  unfold fail_writes. revert o. induction q as [|wr q IH]; intros o; [cbn; rewrite Z.add_0_r; done|]. cbn [fold_left]. rewrite queue_waits_cons.
  destruct (IH (match qw_pending wr with Some p => push_reply p (AFailed e) o | None => o end)) as (-> & -> & ->). rewrite replied_push_opt.
  destruct (opt_push_closes (qw_pending wr) (AFailed e) o) as [-> ->]. split; [lia|done].
Qed.

(** The sum over a map, along its list. *)
Lemma map_sum_list {A} (f : A → Z) (m : gmap Z A) : map_sum f m = foldr (λ ka n, f ka.2 + n) 0 (map_to_list m).
Proof. unfold map_sum. rewrite map_fold_foldr. induction (map_to_list m) as [|[k a] l IH]; cbn; congruence. Qed.

Lemma fail_all_replied x e (l : list (Z * list QueuedWrite)) o :
  let o' := fold_left (λ o kq, fail_writes e kq.2 o) l o in
  replied x (replies o') = replied x (replies o) + foldr (λ kq n, queue_waits x kq.2 + n) 0 l ∧ close_sockets o' = close_sockets o ∧ timer o' = timer o.
Proof.
  cbn zeta. revert o. induction l as [|[k q] l IH]; intros o; cbn [fold_left foldr snd]; [rewrite Z.add_0_r; done|]. destruct (IH (fail_writes e q o)) as (-> & -> & ->).
  destruct (fail_writes_replied x e q o) as (-> & -> & ->). split; [lia|done].
Qed.

Lemma fail_finishes_replied x e (l : list (Z * Pending)) o :
  let o' := fold_left (λ o kp, push_reply kp.2 (AFailed e) o) l o in
  replied x (replies o') = replied x (replies o) + foldr (λ kp n, is_caller x kp.2 + n) 0 l ∧ close_sockets o' = close_sockets o ∧ timer o' = timer o.
Proof.
  cbn zeta. revert o. induction l as [|[k q] l IH]; intros o; cbn [fold_left foldr snd]; [rewrite Z.add_0_r; done|].
  destruct (IH (push_reply q (AFailed e) o)) as (-> & -> & ->). rewrite replied_push. cbn. split; [lia|done].
Qed.

Lemma map_sum_empty {A} (f : A → Z) : map_sum f (∅ : gmap Z A) = 0.
Proof. done. Qed.

Lemma fail_pending_writes_carries e co : carries co (fail_pending_writes e co).
Proof.
  destruct co as [c o]. unfold fail_pending_writes.
  set (o1 := fold_left _ (map_to_list (writes c)) o). set (o2 := fold_left _ (map_to_list (finishes c)) o1).
  assert (Ha : ∀ x, replied x (replies o2) = replied x (replies o) + map_sum (queue_waits x) (writes c) + map_sum (is_caller x) (finishes c)
      ∧ close_sockets o2 = close_sockets o ∧ timer o2 = timer o).
  { intros x. destruct (fail_all_replied x e (map_to_list (writes c)) o) as (H1 & H2 & H3).
    destruct (fail_finishes_replied x e (map_to_list (finishes c)) o1) as (G1 & G2 & G3). rewrite !map_sum_list. unfold o2, o1 in *.
    split; [|split; congruence]. rewrite G1, H1. lia. }
  split; cbn; try done; [|by apply (Ha (0, 0))|by apply (Ha (0, 0))].
  - intros x. destruct (Ha x) as [-> _]. unfold waits. cbn. rewrite !map_sum_empty. lia.
Qed.

(** ** A connection driven *)

Lemma on_connected_carries co : carries co (on_connected co).
Proof.
  destruct co as [c o]. split; try done.
  - intros x. cbn. rewrite (replied_push_opt x (connect_pending c) (AConnection (c_id c)) o). unfold waits. cbn. change (opt x None) with 0. lia.
  - apply (opt_push_closes (connect_pending c) (AConnection (c_id c)) o).
  - apply (opt_push_closes (connect_pending c) (AConnection (c_id c)) o).
Qed.

Lemma on_lost_carries e co : carries co (on_lost e co).
Proof.
  destruct co as [c o]. unfold on_lost. etrans; [|apply fail_pending_writes_carries].
  set (o1 := match connect_pending c with Some p => _ | None => _ end).
  assert (Ho : carries (c, o) (set_connect_pending None c, o1)).
  { split; try done; [|apply (opt_push_closes (connect_pending c) (AFailed (error_text e)) o)..].
    intros x. cbn. unfold o1. rewrite replied_push_opt. unfold waits. cbn. change (opt x None) with 0. lia. }
  etrans; [exact Ho|]. destruct (announced c); [by split|done].
Qed.

Lemma on_connected_conn co : connection (on_connected co).1 = connection co.1.
Proof. by destruct co. Qed.

Lemma on_lost_conn e co : connection (on_lost e co).1 = connection co.1.
Proof. by destruct co. Qed.

Lemma on_event_serves cf e co : serves co (on_event cf e co).
Proof.
  destruct e as [| |e|[d|s|s|s|s code|d]| |]; cbn [on_event].
  - apply serves_now; [by split|done].
  - apply serves_now; [apply on_connected_carries|by rewrite on_connected_conn].
  - apply serves_now; [apply on_lost_carries|by rewrite on_lost_conn].
  - apply accept_loop_serves. lia.
  - apply read_stream_serves.
  - apply serves_now; [apply flush_stream_writes_carries|apply flush_stream_writes_work].
  - apply serves_now; [apply queue_event_carries|by rewrite queue_event_conn].
  - apply serves_now; [apply queue_event_carries|by rewrite queue_event_conn].
  - by apply serves_now.
  - apply datagram_loop_serves. lia.
  - by apply serves_now.
Qed.

Lemma poll_loop_serves fuel cf co : (app_work (connection co.1) < fuel)%nat → serves co (poll_loop fuel cf co).
Proof.
  revert co. induction fuel as [|fuel IH]; intros co Hf; [lia|]. cbn [poll_loop].
  destruct (poll (connection co.1)) as [q r] eqn:Hr. pose proof (poll_work _ _ _ Hr) as Hw.
  assert (Hm : carries co (on_conn q co)).
  { apply move_carries. replace q with (poll (connection co.1)).1 by by rewrite Hr. constructor. }
  destruct r as [e|]; cbn in Hw; [|apply serves_now; [done|cbn; lia]].
  eapply serves_after; [exact Hm|cbn; lia|]. apply serves_bind; [apply on_event_serves|]. intros co1 _ H1. apply IH. cbn in H1. lia.
Qed.

Lemma packet_total k t b : tx_size t ≤ Z.of_nat (length b) → ∃ p, packet k t b = Some p.
Proof. intros Ht. unfold packet. rewrite decide_True by done. eauto. Qed.

Lemma transmit_loop_carries fuel k now co :
  (tx_work (connection co.1) < fuel)%nat → ∃ co', transmit_loop fuel k now co = Some co' ∧ carries co co'.
Proof.
  revert co. induction fuel as [|fuel IH]; intros co Hf; [lia|]. cbn [transmit_loop].
  destruct (poll_transmit (connection co.1) now []) as [[q b] r] eqn:Hr.
  assert (Hm : moves (connection co.1) q).
  { replace q with (poll_transmit (connection co.1) now []).1.1 by by rewrite Hr. constructor. }
  destruct r as [t|]; [|eexists; split; [done|by apply move_carries]].
  destruct (transmit_work _ _ _ _ _ _ Hr) as [Hw Hs]. destruct (packet_total k t b Hs) as [p ->]. cbn.
  destruct (IH (set_connection q co.1, push_packet p co.2)) as (co' & -> & Hc); [cbn; lia|]. exists co'. split; [done|].
  etrans; [|exact Hc]. etrans; [apply (move_carries q co Hm)|]. by split.
Qed.

Lemma drive_connection_carries cf k now co : ∃ co', drive_connection cf k now co = Some co' ∧ carries co co'.
Proof.
  unfold drive_connection. destruct (poll_loop_serves (S (app_work (connection co.1))) cf co ltac:(lia)) as (co1 & H1 & Hc1 & _).
  unfold poll_application. rewrite H1. cbn. pose proof (flush_writes_carries (write_low_water cf) co1) as Hc2.
  destruct (transmit_loop_carries (S (tx_work (connection (flush_writes (write_low_water cf) co1).1))) k now (flush_writes (write_low_water cf) co1) ltac:(lia)) as (co3 & H3 & Hc3).
  exists co3. split; [exact H3|]. by etrans; [|etrans].
Qed.

(** ** Parts of [drive] *)

Record conn_step (c c' : QuicConnection) : Prop := {
  cs_id : c_id c' = c_id c;
  cs_socket : endpoint_socket c' = endpoint_socket c;
  cs_moves : rtc moves (connection c) (connection c');
  cs_exact : exact c → exact c';
  cs_handed : handed c → handed c';
}.

#[global] Instance conn_step_preorder : PreOrder conn_step.
Proof.
  split; [done|]. intros c1 c2 c3 [A1 A2 A3 A4 A5] [B1 B2 B3 B4 B5]. split; [congruence|congruence|by etrans|auto|auto].
Qed.

Lemma carries_step co co' : carries co co' → conn_step co.1 co'.1.
Proof. by intros []. Qed.

(** The same entries, related. *)
Definition matches {A} (R : A → A → Prop) (m m' : gmap Z A) : Prop := ∀ k, option_relation R (λ _, False) (λ _, False) (m !! k) (m' !! k).

Lemma matches_refl {A} (R : A → A → Prop) m : (∀ a, R a a) → matches R m m.
Proof. intros HR k. destruct (m !! k); cbn; auto. Qed.

Lemma matches_trans {A} (R : A → A → Prop) m1 m2 m3 : Transitive R → matches R m1 m2 → matches R m2 m3 → matches R m1 m3.
Proof.
  intros HR H1 H2 k. specialize (H1 k). specialize (H2 k). destruct (m1 !! k), (m2 !! k), (m3 !! k); cbn in *; try done. by etrans.
Qed.

Lemma matches_insert {A} (R : A → A → Prop) m k a a' : (∀ a, R a a) → m !! k = Some a → R a a' → matches R m (<[k := a']> m).
Proof.
  intros Hr Hk HR j. destruct (decide (j = k)) as [->|]; [by rewrite lookup_insert_eq, Hk|]. rewrite lookup_insert_ne by done.
  destruct (m !! j); cbn; auto.
Qed.

Lemma matches_Some {A} (R : A → A → Prop) m m' k a : matches R m m' → m !! k = Some a → ∃ a', m' !! k = Some a' ∧ R a a'.
Proof. intros Hm Hk. specialize (Hm k). rewrite Hk in Hm. destruct (m' !! k); cbn in Hm; [eauto|done]. Qed.

Lemma matches_Some' {A} (R : A → A → Prop) m m' k a' : matches R m m' → m' !! k = Some a' → ∃ a, m !! k = Some a ∧ R a a'.
Proof. intros Hm Hk. specialize (Hm k). rewrite Hk in Hm. destruct (m !! k); cbn in Hm; [eauto|done]. Qed.

Lemma matches_None {A} (R : A → A → Prop) m m' k : matches R m m' → m !! k = None ↔ m' !! k = None.
Proof. intros Hm. specialize (Hm k). by destruct (m !! k), (m' !! k). Qed.

Lemma matches_size {A} (R : A → A → Prop) m m' : matches R m m' → size m' = size m.
Proof.
  intros Hm. rewrite <-!size_dom. f_equal. apply leibniz_equiv. intros k. rewrite !elem_of_dom, <-!not_eq_None_Some.
  by rewrite (matches_None _ _ _ k Hm).
Qed.

(** An endpoint as the protocol moves it. *)
Definition same_endpoint (e e' : EndpointState) : Prop := e' = set_endpoint (endpoint e') e.

#[global] Instance same_endpoint_preorder : PreOrder same_endpoint.
Proof. split; [by intros []|]. unfold same_endpoint. intros e1 e2 e3 -> ->. done. Qed.

Definition account (x : Z * Z) (so : State * DriveOutput) : Z := map_sum (waits x) (connections so.1) + replied x (replies so.2).

(** Only connections in [I] are touched. *)
Record drives (I : Z → Prop) (so so' : State * DriveOutput) : Prop := {
  d_other id : ¬ I id → connections so'.1 !! id = connections so.1 !! id;
  d_next : next_connection so'.1 = next_connection so.1;
  d_conns : matches conn_step (connections so.1) (connections so'.1);
  d_eps : matches same_endpoint (endpoints so.1) (endpoints so'.1);
  d_res : reserved_connections so'.1 = reserved_connections so.1 ∧ reserved_handshakes so'.1 = reserved_handshakes so.1;
  d_account x : account x so' = account x so;
  d_closes : close_sockets so'.2 = close_sockets so.2;
  d_timer : timer so'.2 = timer so.2;
}.

#[global] Instance drives_preorder I : PreOrder (drives I).
Proof.
  split.
  - intros so. split; try done; apply matches_refl; done.
  - intros s1 s2 s3 [A0 A1 A2 A3 [A4 A4'] A5 A6 A7] [B0 B1 B2 B3 [B4 B4'] B5 B6 B7].
    split; [intros id Hi; rewrite B0, A0; done|congruence| | |split; congruence|congruence|congruence|congruence]; eapply matches_trans; eauto; apply _.
Qed.

(** A connection worked on, in its place. *)
Lemma put_drives (I : Z → Prop) id c s o co' :
  I id → connections s !! id = Some c → carries (c, o) co' → drives I (s, o) (put id co'.1 s, co'.2).
Proof.
  intros HI Hc Hr. pose proof (carries_step _ _ Hr) as Hs. destruct Hr as [_ _ _ Hw _ _ Hcl Ht]. split; cbn in *; try done.
  - intros j Hj. rewrite lookup_insert_ne; [done|]. by intros ->.
  - by apply matches_insert with c.
  - by apply matches_refl.
  - intros x. unfold account. cbn. rewrite map_sum_insert, Hc. cbn. specialize (Hw x). lia.
Qed.

Lemma endpoint_events_total fuel q :
  (endpoint_work q < fuel)%nat →
  ∃ q' es, endpoint_events_loop fuel q = Some (q', es) ∧ rtc moves q q' ∧ (endpoint_work q' + length es ≤ endpoint_work q)%nat.
Proof.
  revert q. induction fuel as [|fuel IH]; intros q Hf; [lia|]. cbn. destruct (poll_endpoint_events q) as [q1 r] eqn:Hr.
  pose proof (poll_endpoint_work _ _ _ Hr) as Hw. assert (Hm : moves q q1) by (replace q1 with (poll_endpoint_events q).1 by (by rewrite Hr); constructor).
  destruct r as [e|]; cbn in Hw; [|exists q1, []; cbn; split_and!; [done|by apply rtc_once|lia]].
  destruct (IH q1) as (q2 & es & -> & Hm2 & Hw2); [lia|]. exists q2, (e :: es). cbn. split_and!; [done|by eapply rtc_l|lia].
Qed.

Lemma work_put handles id c c' s :
  connections s !! id = Some c → (endpoint_work (connection c') ≤ endpoint_work (connection c))%nat →
  (endpoint_works handles (put id c' s) ≤ endpoint_works handles s)%nat.
Proof.
  intros Hc Hw. unfold endpoint_works. induction handles as [|[h j] l IH]; [done|]. cbn in IH |- *.
  destruct (decide (j = id)) as [->|]; [rewrite lookup_insert_eq, Hc|rewrite lookup_insert_ne by done]; cbn; lia.
Qed.

Lemma collect_events_drives (I : Z → Prop) handles s o :
  Forall (λ hi, I hi.2) handles →
  ∃ s' es, collect_events handles s = Some (s', es) ∧ drives I (s, o) (s', o) ∧
    (endpoint_works handles s' + length es ≤ endpoint_works handles s)%nat ∧ (∀ l, endpoint_works l s' ≤ endpoint_works l s)%nat.
Proof.
  intros HI. revert s. induction HI as [|[h id] l Hi HI IH]; intros s; cbn [collect_events].
  { exists s, []. cbn. split_and!; [done|done|lia|done]. }
  destruct (connections s !! id) as [c|] eqn:Hc.
  - destruct (endpoint_events_total (S (endpoint_work (connection c))) (connection c) ltac:(lia)) as (q & es & Hq & Hm & Hw). rewrite Hq. cbn.
    set (s1 := put id _ s). destruct (IH s1) as (s2 & es2 & H2 & Hd2 & Hw2 & Hl2). rewrite H2. cbn. eexists _, _. split; [done|].
    assert (Hl1 : ∀ l, (endpoint_works l s1 ≤ endpoint_works l s)%nat) by (intros l'; apply (work_put l' id c); [done|cbn; lia]).
    split_and!.
    + etrans; [|exact Hd2]. apply (put_drives I id c s o (set_connection q c, o) Hi Hc). by split.
    + assert (Hid : ∃ c2, connections s2 !! id = Some c2 ∧ (endpoint_work (connection c2) ≤ endpoint_work q)%nat).
      { destruct (matches_Some _ _ _ id (set_connection q c) (d_conns _ _ _ Hd2)) as (c2 & Hc2 & _); [apply lookup_insert_eq|].
        cbn [fst] in Hc2. exists c2. split; [done|]. specialize (Hl2 [(h, id)]). unfold endpoint_works in Hl2. cbn in Hl2. rewrite Hc2, lookup_insert_eq in Hl2. cbn in Hl2. lia. }
      destruct Hid as (c2 & Hc2 & Hw3). unfold endpoint_works in *. cbn. rewrite length_app, length_fmap, Hc, Hc2. cbn.
      specialize (Hl1 l). lia.
    + intros l'. specialize (Hl1 l'). specialize (Hl2 l'). lia.
  - destruct (IH s) as (s2 & es2 & -> & Hd2 & Hw2 & Hl2). eexists _, _. split_and!; [done|done| |done].
    unfold endpoint_works in *. cbn. assert (connections s2 !! id = None) as -> by by rewrite <-(matches_None _ _ _ id (d_conns _ _ _ Hd2)).
    rewrite Hc. cbn. lia.
Qed.

(** The handles of the endpoint [k] are of connections in [I]. *)
Definition reaches (I : Z → Prop) (k : SocketId) (s : State) : Prop :=
  ∀ ep h id, endpoints s !! k = Some ep → e_connections ep !! h = Some id → I id.

Lemma drives_reaches I J k s o s' o' : drives J (s, o) (s', o') → reaches I k s → reaches I k s'.
Proof.
  intros Hd Hr ep h id Hk Hh. destruct (matches_Some' _ _ _ _ _ (d_eps _ _ _ Hd) Hk) as (ep0 & Hk0 & He). cbn in Hk0.
  apply (Hr ep0 h id Hk0). rewrite He in Hh. exact Hh.
Qed.

Lemma endpoint_event_drives I k he s o :
  reaches I k s →
  drives I (s, o) (endpoint_event k he s, o) ∧ ∀ l, (endpoint_works l (endpoint_event k he s) ≤ endpoint_works l s)%nat.
Proof.
  intros HI. unfold endpoint_event. destruct (endpoints s !! k) as [ep|] eqn:Hk; [|done].
  destruct (endpoint_handle_event (endpoint ep) he.1 he.2) as [e r] eqn:Hr. set (s1 := put_endpoint k _ s).
  assert (Hd1 : drives I (s, o) (s1, o)).
  { split; try done; [by apply matches_refl|by apply matches_insert with ep]. }
  destruct r as [r|]; [|done]. destruct (e_connections ep !! he.1) as [id|] eqn:Hh; [|done]. cbn [mbind option_bind].
  destruct (connections s1 !! id) as [c|] eqn:Hc; [|done]. cbn [fmap option_fmap option_map]. split.
  - etrans; [exact Hd1|]. apply (put_drives I id c s1 o (set_connection (handle_event (connection c) r) c, o) (HI ep _ id Hk Hh) Hc).
    apply (move_carries _ (c, o)). constructor.
  - intros l. change (endpoint_works l s) with (endpoint_works l s1). apply (work_put l id c); [exact Hc|]. cbn. by eapply response_work.
Qed.

Lemma endpoint_events_fold I k es s o :
  reaches I k s →
  let s' := fold_left (λ s he, endpoint_event k he s) es s in
  drives I (s, o) (s', o) ∧ ∀ l, (endpoint_works l s' ≤ endpoint_works l s)%nat.
Proof.
  intros HI. cbn zeta. revert s HI. induction es as [|he es IH]; intros s HI; cbn [fold_left]; [done|].
  destruct (endpoint_event_drives I k he s o HI) as [H1 W1]. destruct (IH (endpoint_event k he s)) as [H2 W2]; [by eapply drives_reaches|]. split; [by etrans|].
  intros l. etrans; eauto.
Qed.

Lemma endpoint_loop_drives I fuel k handles s o :
  reaches I k s → Forall (λ hi, I hi.2) handles → (endpoint_works handles s < fuel)%nat →
  ∃ s', endpoint_loop fuel k handles s = Some s' ∧ drives I (s, o) (s', o).
Proof.
  intros HI Hh. revert s HI. induction fuel as [|fuel IH]; intros s HI Hf; [lia|]. cbn [endpoint_loop].
  destruct (collect_events_drives I handles s o Hh) as (s1 & es & -> & Hd & Hw & _). cbn. case_decide as He; [by exists s1|].
  pose proof (drives_reaches _ _ k _ _ _ _ Hd HI) as HI1. destruct (endpoint_events_fold I k es s1 o HI1) as [Hd2 Hw2]. specialize (Hw2 handles). set (s2 := fold_left _ es s1) in *.
  destruct (IH s2) as (s3 & -> & Hd3); [by eapply drives_reaches|lia|]. exists s3. split; [done|]. by etrans; [|etrans].
Qed.

Lemma drive_connections_drives (I : Z → Prop) cf k now handles so :
  Forall (λ hi, I hi.2) handles → ∃ so', drive_connections cf k now handles so = Some so' ∧ drives I so so'.
Proof.
  intros HI. revert so. induction HI as [|[h id] l Hi HI IH]; intros [s o]; cbn [drive_connections]; [by eexists|].
  cbn [fst snd]. destruct (connections s !! id) as [c|] eqn:Hc; [|apply IH].
  destruct (drive_connection_carries cf k now (c, o)) as ([c1 o1] & -> & Hr). cbn.
  destruct (IH (put id c1 s, o1)) as (so' & -> & Hd). exists so'. split; [done|]. etrans; [|exact Hd]. by apply (put_drives I id c s o (c1, o1)).
Qed.

(** ** The tables *)

(** [id] is a connection of the endpoint [k]. *)
Definition of_endpoint (k : SocketId) (s : State) (id : Z) : Prop := ∃ ep h, endpoints s !! k = Some ep ∧ e_connections ep !! h = Some id.

(** Connections and the handles of endpoints are the same, once each. *)
Record sane (s : State) : Prop := {
  sn_next : 0 ≤ next_connection s;
  sn_conn id c : connections s !! id = Some c → c_id c = id ∧ 1 ≤ id ≤ next_connection s ∧ of_endpoint (endpoint_socket c) s id;
  sn_handle k ep h id : endpoints s !! k = Some ep → e_connections ep !! h = Some id → ∃ c, connections s !! id = Some c ∧ endpoint_socket c = k;
  sn_once k ep h h' id : endpoints s !! k = Some ep → e_connections ep !! h = Some id → e_connections ep !! h' = Some id → h = h';
}.

(** Every endpoint listens or has connections. *)
Definition busy (s : State) : Prop := map_Forall (λ _ ep, e_listener ep ≠ None ∨ e_connections ep ≠ ∅) (endpoints s).

Lemma matches_sane s s' :
  next_connection s' = next_connection s → matches conn_step (connections s) (connections s') → matches same_endpoint (endpoints s) (endpoints s') →
  sane s → sane s'.
Proof.
  intros D1 D2 D3 [S1 S2 S3 S4]. split.
  - lia.
  - intros id c' Hc'. destruct (matches_Some' _ _ _ _ _ D2 Hc') as (c & Hc & Hs). destruct (S2 id c Hc) as (G1 & G2 & ep & h & G3 & G4).
    rewrite (cs_id _ _ Hs), (cs_socket _ _ Hs). split_and!; [done|lia|lia|]. destruct (matches_Some _ _ _ _ _ D3 G3) as (ep' & Hk' & He).
    exists ep', h. split; [done|]. by rewrite He.
  - intros k ep' h id Hk Hh. destruct (matches_Some' _ _ _ _ _ D3 Hk) as (ep & Hk0 & He). rewrite He in Hh.
    destruct (S3 k ep h id Hk0 Hh) as (c & Hc & Hs). destruct (matches_Some _ _ _ _ _ D2 Hc) as (c' & Hc' & Hst). exists c'. split; [done|].
    rewrite (cs_socket _ _ Hst). done.
  - intros k ep' h h' id Hk. destruct (matches_Some' _ _ _ _ _ D3 Hk) as (ep & Hk0 & He). rewrite He. cbn. by apply S4 with k.
Qed.

Lemma drives_sane I s o s' o' : drives I (s, o) (s', o') → sane s → sane s'.
Proof. intros [_ D1 D2 D3 _ _ _ _]. by apply matches_sane. Qed.

(** An endpoint replaced by one with the same handles. *)
Lemma put_endpoint_sane k ep ep' s : endpoints s !! k = Some ep → e_connections ep' = e_connections ep → sane s → sane (put_endpoint k ep' s).
Proof.
  intros Hk He [S1 S2 S3 S4].
  assert (Hl : ∀ j e, endpoints (put_endpoint k ep' s) !! j = Some e → ∃ e0, endpoints s !! j = Some e0 ∧ e_connections e = e_connections e0).
  { intros j e. cbn. rewrite lookup_insert_Some. intros [[<- <-]|[_ Hj]]; [by exists ep|by exists e]. }
  split; cbn.
  - done.
  - intros id c Hc. destruct (S2 id c Hc) as (G1 & G2 & e & h & G3 & G4). split_and!; [done|lia|lia|].
    destruct (decide (endpoint_socket c = k)) as [Hek|Hne]; [rewrite Hek in G3 |- *|].
    + exists ep', h. cbn. rewrite lookup_insert_eq, He. split; [done|]. congruence.
    + exists e, h. cbn. by rewrite lookup_insert_ne.
  - intros j e h id Hj Hh. destruct (Hl j e Hj) as (e0 & Hj0 & Heq). rewrite Heq in Hh. by apply (S3 j e0 h).
  - intros j e h h' id Hj. destruct (Hl j e Hj) as (e0 & Hj0 & ->). by apply S4 with j.
Qed.

Lemma remove_one_sane k s ep h id :
  sane s → endpoints s !! k = Some ep → e_connections ep !! h = Some id → sane (remove_drained k s (h, id)).
Proof.
  intros [S1 S2 S3 S4] Hk Hh. unfold remove_drained. cbn [fst snd]. rewrite Hk. destruct (S3 k ep h id Hk Hh) as (c0 & Hc0 & Hs0).
  assert (Hl : ∀ j e i d, endpoints (put_endpoint k (set_handles (delete h (e_connections ep)) ep) s) !! j = Some e → e_connections e !! i = Some d →
      ∃ e0, endpoints s !! j = Some e0 ∧ e_connections e0 !! i = Some d ∧ (j = k → i ≠ h)).
  { intros j e i d. cbn. rewrite lookup_insert_Some. intros [[<- <-]|[Hne Hj]]; cbn; [|intros; exists e; by split_and!].
    rewrite lookup_delete_Some. intros [? ?]. exists ep. by split_and!. }
  split; cbn.
  - done.
  - intros j c. rewrite lookup_delete_Some. intros [Hne Hc]. destruct (S2 j c Hc) as (G1 & G2 & e & i & G3 & G4). split_and!; [done|lia|lia|].
    destruct (decide (endpoint_socket c = k)) as [Hek|Hne']; [rewrite Hek in G3 |- *|].
    + eexists _, i. cbn. rewrite lookup_insert_eq. split; [done|]. assert (e = ep) as -> by congruence. cbn. rewrite lookup_delete_ne; [done|]. intros ->. congruence.
    + exists e, i. cbn. by rewrite lookup_insert_ne.
  - intros j e i d Hj Hi. destruct (Hl j e i d Hj Hi) as (e0 & Hj0 & Hi0 & Hx). destruct (S3 j e0 i d Hj0 Hi0) as (c & Hc & Hs).
    exists c. rewrite lookup_delete_ne; [done|]. intros <-. assert (j = k) as -> by congruence. apply Hx; [done|].
    rewrite Hk in Hj0. injection Hj0 as <-. by apply (S4 k ep i h id).
  - intros j e i i' d Hj Hi Hi'. destruct (Hl j e i d Hj Hi) as (e0 & Hj0 & Hi0 & _). destruct (Hl j e i' d Hj Hi') as (e1 & Hj1 & Hi1 & _).
    apply (S4 j e0 i i' d); congruence.
Qed.

(** The callers of connections removed. *)
Definition lost_waits (x : Z * Z) (l : list (Z * Z)) (s : State) : Z :=
  foldr (λ hi n, from_option (waits x) 0 (connections s !! hi.2) + n) 0 l.

(** Connections removed one after the other. *)
Lemma remove_all k l s ep :
  sane s → endpoints s !! k = Some ep → NoDup l → Forall (λ hi, e_connections ep !! hi.1 = Some hi.2) l →
  let s' := fold_left (remove_drained k) l s in
  sane s' ∧ next_connection s' = next_connection s ∧
  reserved_connections s' = reserved_connections s ∧ reserved_handshakes s' = reserved_handshakes s ∧
  (∀ id, connections s' !! id = if decide (id ∈ l.*2) then None else connections s !! id) ∧
  (∃ m, m ⊆ e_connections ep ∧ endpoints s' = <[k := set_handles m ep]> (endpoints s)) ∧
  (∀ x, map_sum (waits x) (connections s') = map_sum (waits x) (connections s) - lost_waits x l s).
Proof.
  cbn zeta. revert s ep. induction l as [|[h id] l IH]; intros s ep Hs Hk Hnd Hf; cbn [fold_left].
  { split_and!; try done; [exists (e_connections ep); split; [done|]; rewrite insert_id; [done|by destruct ep]|cbn; lia]. }
  apply NoDup_cons in Hnd as [Hni Hnd]. apply Forall_cons in Hf as [Hh Hf]. cbn in Hh.
  pose proof (remove_one_sane k s ep h id Hs Hk Hh) as Hs1. set (s1 := remove_drained k s (h, id)) in *.
  assert (He1 : endpoints s1 = <[k := set_handles (delete h (e_connections ep)) ep]> (endpoints s)) by (unfold s1, remove_drained; cbn; by rewrite Hk).
  assert (Hc1 : connections s1 = delete id (connections s)) by (unfold s1, remove_drained; cbn; by rewrite Hk).
  assert (Hn1 : next_connection s1 = next_connection s ∧ reserved_connections s1 = reserved_connections s ∧ reserved_handshakes s1 = reserved_handshakes s)
    by (unfold s1, remove_drained; cbn; by rewrite Hk). destruct Hn1 as (N1 & N2 & N3). clearbody s1.
  assert (Hid : id ∉ l.*2).
  { intros ([h' d] & Hd & Hin)%list_elem_of_fmap. cbn in Hd. subst d. rewrite Forall_forall in Hf. pose proof (Hf _ Hin) as Hh'. cbn in Hh'.
    assert (h' = h) as -> by by apply (sn_once s Hs k ep h' h id). done. }
  destruct (IH s1 (set_handles (delete h (e_connections ep)) ep)) as (I1 & I2 & I3 & I4 & I5 & (m & I6 & I7) & I8).
  - done.
  - rewrite He1. apply lookup_insert_eq.
  - done.
  - rewrite Forall_forall in Hf |- *. intros [h' d] Hin. cbn. pose proof (Hf _ Hin) as Hh'. cbn in Hh'. rewrite lookup_delete_ne; [done|].
    intros ->. apply Hni. rewrite Hh in Hh'. by injection Hh' as <-.
  - split_and!; try congruence; try done.
    + intros j. rewrite I5, Hc1, fmap_cons. cbn [snd]. destruct (decide (j = id)) as [->|Hne].
      * rewrite decide_False, lookup_delete_eq, decide_True by (done || set_solver). done.
      * rewrite lookup_delete_ne by done. destruct (decide (j ∈ l.*2)); [rewrite decide_True by set_solver|rewrite decide_False by set_solver]; done.
    + exists m. split; [cbn in I6; etrans; [exact I6|apply delete_subseteq]|]. rewrite I7, He1, insert_insert_eq. done.
    + intros x. rewrite I8, Hc1, map_sum_delete. cbn [lost_waits foldr snd]. assert (lost_waits x l s1 = lost_waits x l s) as ->; [|unfold lost_waits; cbn; lia].
      unfold lost_waits. clear -Hid Hc1. induction l as [|[h' d] l IH]; cbn; [done|]. rewrite fmap_cons in Hid. cbn in Hid.
      rewrite IH by set_solver. rewrite Hc1, lookup_delete_ne by set_solver. done.
Qed.

(** ** [drive] *)

(** The state in which [drive] looks for drained connections, and those it finds. *)
Definition driven (cf : QuicConfig) (k : SocketId) (now : Z) (s : State) : option (State * list (Z * Z)) :=
  ep ← endpoints s !! k;
  let handles := map_to_list (e_connections ep) in
  s ← endpoint_loop (S (endpoint_works handles s)) k handles s;
  '(s, _) ← drive_connections cf k now handles (s, output_default);
  Some (s, drained handles s).

(** The callers that [drive] forgets: those of drained connections. *)
Definition drive_forgets (x : Z * Z) (cf : QuicConfig) (k : SocketId) (now : Z) (s : State) : Z :=
  match driven cf k now s with Some (s1, l) => lost_waits x l s1 | None => 0 end.

Record drive_ok (cf : QuicConfig) (k : SocketId) (now : Z) (s s' : State) (o' : DriveOutput) : Prop := {
  do_sane : sane s';
  do_busy : busy s → busy s';
  do_next : next_connection s' = next_connection s;
  do_res : reserved_connections s' = reserved_connections s ∧ reserved_handshakes s' = reserved_handshakes s;
  do_conn id c' : connections s' !! id = Some c' → ∃ c, connections s !! id = Some c ∧ conn_step c c';
  do_other id : ¬ of_endpoint k s id → connections s' !! id = connections s !! id;
  do_eps j : j ≠ k → option_relation same_endpoint (λ _, False) (λ _, False) (endpoints s !! j) (endpoints s' !! j);
  do_k ep' : endpoints s' !! k = Some ep' → ∃ ep, endpoints s !! k = Some ep ∧ e_listener ep' = e_listener ep ∧ e_connections ep' ⊆ e_connections ep ∧
    (timer_deadline ep' = timer_deadline ep ∧ timer_generation ep' = timer_generation ep ∨
     ∀ d, timer_deadline ep' = Some d → ∃ ms, timer o' = Some (mkArm k (timer_generation ep') ms));
  do_deadline ep' h id c t : endpoints s' !! k = Some ep' → e_connections ep' !! h = Some id → connections s' !! id = Some c →
    poll_timeout (connection c) = Some t → ∃ d, timer_deadline ep' = Some d ∧ d ≤ t;
  do_account x : map_sum (waits x) (connections s') + replied x (replies o') = map_sum (waits x) (connections s) - drive_forgets x cf k now s;
}.

Lemma deadline_fold handles s acc :
  let f := λ acc (hi : Z * Z), match connections s !! hi.2 with
    | Some c => if is_drained (connection c) then acc else min_deadline acc (poll_timeout (connection c)) | None => acc end in
  (∀ a, acc = Some a → ∃ d, fold_left f handles acc = Some d ∧ d ≤ a) ∧
  (∀ hi c t, hi ∈ handles → connections s !! hi.2 = Some c → is_drained (connection c) = false → poll_timeout (connection c) = Some t →
     ∃ d, fold_left f handles acc = Some d ∧ d ≤ t).
Proof.
  cbn zeta. revert acc. induction handles as [|[h id] l IH]; intros acc; cbn [fold_left snd].
  { split; [intros a ->; by exists a|]. intros hi c t Hin. by apply not_elem_of_nil in Hin. }
  match goal with |- context [fold_left _ l ?a] => set (acc' := a); destruct (IH acc') as [I1 I2] end.
  assert (Hle : ∀ a, acc = Some a → ∃ a', acc' = Some a' ∧ a' ≤ a).
  { intros a ->. unfold acc'. destruct (connections s !! id) as [c|]; [|by exists a]. destruct (is_drained _); [by exists a|].
    destruct (poll_timeout _); cbn; eexists; (split; [done|lia]). }
  split.
  - intros a Ha. destruct (Hle a Ha) as (a' & Ha' & ?). destruct (I1 a' Ha') as (d & -> & ?). exists d. split; [done|lia].
  - intros hi c t [->|Hin]%elem_of_cons Hc Hdr Ht; [|by eapply I2]. cbn in Hc. unfold acc' in *. rewrite Hc, Hdr, Ht in I1.
    destruct acc as [a|]; cbn in I1; edestruct I1 as (d & Hd & ?); [done| |done|]; rewrite Hc, Hdr, Ht; cbn; rewrite Hd; exists d; (split; [done|lia]).
Qed.

Lemma arm_timer_conns k now d so : connections (arm_timer k now d so).1 = connections so.1 ∧ replies (arm_timer k now d so).2 = replies so.2.
Proof. destruct so as [s o]. unfold arm_timer. destruct (endpoints s !! k); [|done]. case_decide; [done|]. by destruct d. Qed.

Lemma retire_conns k so : connections (retire_endpoint k so).1 = connections so.1 ∧ replies (retire_endpoint k so).2 = replies so.2.
Proof. destruct so as [s o]. unfold retire_endpoint. destruct (endpoints s !! k); [|done]. by case_decide. Qed.

Lemma retire_sane k ep s : sane s → endpoints s !! k = Some ep → e_connections ep = ∅ → sane (set_endpoints (delete k (endpoints s)) s).
Proof.
  intros [S1 S2 S3 S4] Hk He. split; cbn; try done.
  - intros id c Hc. destruct (S2 id c Hc) as (G1 & G2 & e & h & G3 & G4). split_and!; [done|lia|lia|]. exists e, h. cbn.
    rewrite lookup_delete_ne; [done|]. intros Heq. rewrite <-Heq, Hk in G3. injection G3 as <-. by rewrite He, lookup_empty in G4.
  - intros j e h id. rewrite lookup_delete_Some. intros [_ Hj]. by apply (S3 j e h id).
  - intros j e h h' id. rewrite lookup_delete_Some. intros [_ Hj]. by apply (S4 j e).
Qed.

(** The end of [drive], on an endpoint that is there. *)
Lemma arm_retire k now d s o ep s' o' :
  sane s → endpoints s !! k = Some ep → retire_endpoint k (arm_timer k now d (s, o)) = (s', o') →
  sane s' ∧ connections s' = connections s ∧ replies o' = replies o ∧ next_connection s' = next_connection s ∧
  (reserved_connections s' = reserved_connections s ∧ reserved_handshakes s' = reserved_handshakes s) ∧
  (∀ j, j ≠ k → endpoints s' !! j = endpoints s !! j) ∧
  (∀ ep', endpoints s' !! k = Some ep' → (e_listener ep' ≠ None ∨ e_connections ep' ≠ ∅) ∧ e_listener ep' = e_listener ep ∧
     e_connections ep' = e_connections ep ∧ timer_deadline ep' = d ∧
     (timer_deadline ep' = timer_deadline ep ∧ timer_generation ep' = timer_generation ep ∨
      ∀ t, d = Some t → ∃ ms, timer o' = Some (mkArm k (timer_generation ep') ms))).
Proof.
  intros Hs Hk. unfold arm_timer. rewrite Hk. set (g := Z.max 1 _).
  destruct (decide (timer_deadline ep = d)) as [Hd|Hd].
  - unfold retire_endpoint. rewrite Hk. case_decide as He.
    + intros [= <- <-]. split_and!; try done; cbn.
      * apply (retire_sane k ep s Hs Hk). apply He.
      * intros j Hj. by rewrite lookup_delete_ne.
      * intros ep'. by rewrite lookup_delete_eq.
    + intros [= <- <-]. split_and!; try done. intros ep' Hk'. rewrite Hk in Hk'. injection Hk' as <-. split_and!; try done; [|by left].
      destruct (e_listener ep); [by left|]. right. intros Hc. by apply He.
  - set (ep1 := set_timer g d ep). assert (Hs1 : sane (put_endpoint k ep1 s)) by by apply (put_endpoint_sane k ep).
    unfold retire_endpoint. cbn [endpoints put_endpoint set_endpoints]. rewrite lookup_insert_eq. case_decide as He.
    + intros [= <- <-]. split_and!; try done; cbn.
      * apply (retire_sane k ep1 _ Hs1); [apply lookup_insert_eq|apply He].
      * by destruct d.
      * intros j Hj. by rewrite lookup_delete_ne, lookup_insert_ne by done.
      * intros ep'. by rewrite lookup_delete_eq.
    + intros [= <- <-]. split_and!; try done.
      * by destruct d.
      * intros j Hj. cbn. by rewrite lookup_insert_ne.
      * cbn. intros ep'. rewrite lookup_insert_eq. intros [= <-]. split_and!; try done.
        -- unfold ep1 in *. cbn in *. destruct (e_listener ep); [by left|]. right. intros Hc. by apply He.
        -- right. intros t ->. by eexists.
Qed.

Lemma drained_pairs handles s : NoDup handles → NoDup (drained handles s) ∧ drained handles s ⊆ handles.
Proof. intros Hn. unfold drained. split; [by apply NoDup_filter|]. intros x Hx. by apply list_elem_of_filter in Hx as [_ ?]. Qed.

Lemma handles_of k s ep : endpoints s !! k = Some ep → Forall (λ hi : Z * Z, of_endpoint k s hi.2) (map_to_list (e_connections ep)).
Proof. intros Hk. apply Forall_forall. intros [h id] Hin%elem_of_map_to_list. by exists ep, h. Qed.

Lemma account_start x s : account x (s, output_default) = map_sum (waits x) (connections s).
Proof. unfold account. cbn. unfold replied. cbn. lia. Qed.

(** [drive] ends, whatever the endpoint has to do. *)
Lemma drive_drives cf k now s : sane s → ∃ s' o', drive cf k now s = Some (s', o') ∧ drive_ok cf k now s s' o'.
Proof.
  intros Hs. unfold drive. destruct (endpoints s !! k) as [ep|] eqn:Hk.
  2:{ exists s, output_default. split; [done|]. split; try done.
      - intros id c' Hc. by exists c'.
      - intros j _. destruct (endpoints s !! j); cbn; done.
      - intros ep'. by rewrite Hk.
      - intros ep' h id c t Hk'. by rewrite Hk in Hk'.
      - intros x. unfold drive_forgets, driven. rewrite Hk. cbn. unfold replied. cbn. lia. }
  set (handles := map_to_list (e_connections ep)). pose proof (handles_of k s ep Hk) as Hh.
  assert (Hre : reaches (of_endpoint k s) k s) by (intros e h id He Hi; by exists e, h).
  destruct (endpoint_loop_drives (of_endpoint k s) (S (endpoint_works handles s)) k handles s output_default Hre Hh ltac:(lia)) as (s1 & H1 & Hd1).
  destruct (drive_connections_drives (of_endpoint k s) cf k now handles (s1, output_default) Hh) as ([s2 o2] & H2 & Hd2).
  assert (Hd : drives (of_endpoint k s) (s, output_default) (s2, o2)) by by etrans. pose proof (drives_sane _ _ _ _ _ Hd Hs) as Hs2.
  rewrite H1. cbn [mbind option_bind]. rewrite H2. cbn [mbind option_bind].
  assert (Hf : ∀ x, drive_forgets x cf k now s = lost_waits x (drained handles s2) s2).
  { intros x. unfold drive_forgets, driven. rewrite Hk. cbn [mbind option_bind]. unfold handles in *. rewrite H1. cbn [mbind option_bind]. by rewrite H2. }
  set (d := deadline handles s2). set (l := drained handles s2) in *.
  destruct (matches_Some _ _ _ _ _ (d_eps _ _ _ Hd) Hk) as (ep2 & Hk2 & He2). cbn in Hk2.
  destruct (drained_pairs handles s2 (NoDup_map_to_list _)) as [Hnd Hsub]. fold l in Hnd, Hsub.
  assert (Hl : Forall (λ hi : Z * Z, e_connections ep2 !! hi.1 = Some hi.2) l).
  { apply Forall_forall. intros [h id] Hin. apply Hsub, elem_of_map_to_list in Hin. rewrite He2. exact Hin. }
  destruct (remove_all k l s2 ep2 Hs2 Hk2 Hnd Hl) as (R1 & R2 & R3 & R4 & R5 & (m & R6 & R7) & R8). set (s3 := fold_left _ l s2) in *.
  assert (Hk3 : endpoints s3 !! k = Some (set_handles m ep2)) by (rewrite R7; apply lookup_insert_eq).
  destruct (retire_endpoint k (arm_timer k now d (s3, o2))) as [s4 o4] eqn:Hr.
  destruct (arm_retire k now d s3 o2 _ s4 o4 R1 Hk3 Hr) as (A1 & A2 & A3 & A4 & [A5 A5'] & A6 & A7).
  exists s4, o4. split; [done|]. assert (Hldef : l = drained handles s2) by done. clearbody s3 l. destruct Hd as [D0 D1 D2 D3 [D4 D4'] D5 D6 D7]. cbn in *. split; try done; try congruence.
  - intros Hb j e Hj. destruct (decide (j = k)) as [->|Hne]; [by apply A7|]. rewrite A6, R7, lookup_insert_ne in Hj by done.
    destruct (matches_Some' _ _ _ _ _ D3 Hj) as (e0 & Hj0 & He). rewrite He. by apply (Hb j e0).
  - split; congruence.
  - intros id c'. rewrite A2, R5. case_decide; [done|]. intros Hc'. by apply (matches_Some' _ _ _ _ _ D2).
  - intros id Hid. rewrite A2, R5, D0 by done. case_decide as Hin; [|done]. exfalso. apply Hid.
    apply list_elem_of_fmap in Hin as ([h d'] & -> & Hin). rewrite Forall_forall in Hh. by apply Hh, Hsub.
  - intros j Hj. rewrite A6, R7, lookup_insert_ne by done. apply D3.
  - intros ep' Hk'. destruct (A7 ep' Hk') as (_ & B2 & B3 & B4 & B5). exists ep. rewrite B2, B3. cbn. rewrite He2 in R6, B5 |- *. cbn in *.
    split_and!; try done. destruct B5 as [[B5 B5']|B5]; [left; done|right]. intros t Ht. apply (B5 t). congruence.
  - intros ep' h id c t Hk' Hi Hc Ht. destruct (A7 ep' Hk') as (_ & _ & B3 & B4 & _). rewrite B3 in Hi. cbn in Hi. rewrite A2, R5 in Hc.
    case_decide as Hin; [done|]. rewrite B4. assert (Hhi : (h, id) ∈ handles).
    { apply elem_of_map_to_list. apply (lookup_weaken _ _ _ _ Hi) in R6. by rewrite He2 in R6. }
    apply (deadline_fold handles s2 None) with (hi := (h, id)) (c := c); try done. cbn. destruct (is_drained (connection c)) eqn:Hdr; [|done].
    exfalso. apply Hin. apply list_elem_of_fmap. exists (h, id). split; [done|]. rewrite Hldef. apply list_elem_of_filter. cbn. rewrite Hc. done.
  - intros x. rewrite A2, A3, R8, Hf. specialize (D5 x). rewrite account_start in D5. unfold account in D5. cbn in D5. lia.
Qed.
End books.
End QuicBooks.
