(* ===== verification/QuicRun.v ===== *)
(** * Runs of the QUIC service

    The handlers of [QuicService.v] against the books of [QuicBooks.v], and what holds of
    every run. *)
From S2P Require Import Prelude Message NetBuffer NetSocket NetService QuicService QuicBooks.
From stdpp Require Import strings.
#[local] Open Scope Z_scope.

Module QuicRun.
Import NetSocket(SocketId, Pending, mkPending, p_source, p_session).
Import QuicService QuicBooks.

Section runs.
Context `{QuicEngine} `{!QuicLaws}.

#[local] Arguments map_sum : simpl never.
#[local] Arguments opt : simpl never.
#[local] Arguments queue_waits : simpl never.
#[local] Arguments queue_bytes : simpl never.
#[local] Arguments replied : simpl never.
#[local] Arguments waits : simpl never.

(** ** Changes of the state *)

(** Every timeout of a connection is covered by the deadline of its endpoint, but for the
    endpoints in [E]. *)
Definition timely (E : gset SocketId) (s : State) : Prop :=
  ∀ k ep h id c t, k ∉ E → endpoints s !! k = Some ep → e_connections ep !! h = Some id → connections s !! id = Some c →
    poll_timeout (connection c) = Some t → ∃ d, timer_deadline ep = Some d ∧ d ≤ t.

Definition conn_ok (c : QuicConnection) : Prop := exact c ∧ handed c.

Definition upright (s : State) : Prop := sane s ∧ busy s ∧ map_Forall (λ _, conn_ok) (connections s).

Definition one (k : option SocketId) : gset SocketId := match k with Some k => {[k]} | None => ∅ end.

(** A change of the state by a handler, before the endpoint [k] is driven: [K] are new
    endpoints, [N] the number of new connections, [r] that of reservations, [h] the change
    of the accounts of callers. *)
Record sphase (k : option SocketId) (K : gset SocketId) (N r : Z) (h : Z * Z → Z) (s s' : State) : Prop := {
  sp_up : upright s';
  sp_size : Z.of_nat (size (connections s')) ≤ Z.of_nat (size (connections s)) + N;
  sp_shakes : Z.of_nat (size (handshaking s')) ≤ Z.of_nat (size (handshaking s)) + N;
  sp_next : next_connection s' = next_connection s + N;
  sp_res : reserved_connections s' = reserved_connections s + r ∧ reserved_handshakes s' = reserved_handshakes s + r;
  sp_timely : timely ∅ s → timely (one k) s';
  sp_watch j ep' d : endpoints s' !! j = Some ep' → timer_deadline ep' = Some d →
    ∃ ep, endpoints s !! j = Some ep ∧ timer_deadline ep = Some d ∧ timer_generation ep' = timer_generation ep;
  sp_eps j : is_Some (endpoints s' !! j) → j ∈ K ∨ is_Some (endpoints s !! j);
  sp_waits x : map_sum (waits x) (connections s') = map_sum (waits x) (connections s) + h x;
}.

Lemma rtc_handshaking q q' : rtc moves q q' → is_handshaking q' = true → is_handshaking q = true.
Proof. induction 1; eauto using handshake_once. Qed.

(** Fewer connections, moved on. *)
Lemma shakes_le s s' :
  (∀ id c', connections s' !! id = Some c' → ∃ c, connections s !! id = Some c ∧ rtc moves (connection c) (connection c')) →
  (size (connections s') ≤ size (connections s))%nat ∧ (size (handshaking s') ≤ size (handshaking s))%nat.
Proof.
  intros Hs. rewrite <-!size_dom. split; apply subseteq_size; intros id; rewrite !elem_of_dom.
  - intros [c' Hc']. destruct (Hs id c' Hc') as (c & Hc & _). eauto.
  - intros [c' Hc']. unfold handshaking in *. apply map_lookup_filter_Some in Hc' as [Hc' Hh]. destruct (Hs id c' Hc') as (c & Hc & Hm).
    exists c. apply map_lookup_filter_Some. cbn in *. split; [done|]. by eapply rtc_handshaking.
Qed.

Lemma shakes_insert id c s :
  (size (connections (put id c s)) ≤ S (size (connections s)))%nat ∧ (size (handshaking (put id c s)) ≤ S (size (handshaking s)))%nat.
Proof.
  assert (Hi : ∀ m : gmap Z QuicConnection, (size (<[id := c]> m) ≤ S (size m))%nat).
  { intros m. destruct (m !! id) as [d|] eqn:Hd; [rewrite map_size_insert_Some by eauto|rewrite map_size_insert_None by done]; lia. }
  split; [apply Hi|]. unfold handshaking. cbn [put connections set_connections]. rewrite map_filter_insert. case_decide; [apply Hi|].
  apply le_S, map_subseteq_size, map_filter_subseteq_mono, delete_subseteq.
Qed.

(** Nothing changed. *)
Lemma sphase_same k s : upright s → sphase k ∅ 0 0 (λ _, 0) s s.
Proof.
  intros Hu. split; try done; try lia; eauto. intros Ht k' ep h id c t _. by apply Ht.
Qed.

(** One connection moved on. *)
Lemma sphase_put id c c' s :
  upright s → connections s !! id = Some c → conn_step c c' →
  sphase (Some (endpoint_socket c)) ∅ 0 0 (λ x, waits x c' - waits x c) s (put id c' s).
Proof.
  intros (Hs & Hb & Hg) Hc Hst. pose proof (Hg id c Hc) as [Hex Hha].
  assert (Hm : ∀ j d', connections (put id c' s) !! j = Some d' → ∃ d, connections s !! j = Some d ∧ rtc moves (connection d) (connection d')).
  { intros j d'. cbn. rewrite lookup_insert_Some. intros [[<- <-]|[_ Hd]]; [|by exists d']. exists c. split; [done|]. apply Hst. }
  destruct (shakes_le s (put id c' s) Hm) as [Hsz Hsh]. cbn in Hsz.
  split; try done; cbn; try lia; try (split; lia); eauto.
  - split_and!; [|done|].
    + apply (matches_sane s); try done; [by apply matches_insert with c|by apply matches_refl].
    + apply map_Forall_insert_2; [|done]. split; [by apply Hst|by apply Hst].
  - intros Ht j ep h i d t Hj Hk Hh. cbn. rewrite lookup_insert_Some. intros [[<- <-]|[_ Hd]] Hp; [|by eapply Ht].
    exfalso. destruct (sn_handle s Hs j ep h id Hk Hh) as (c0 & Hc0 & Hs0). cbn in Hj. set_solver.
  - intros x. rewrite map_sum_insert, Hc. cbn. lia.
Qed.

(** ** Commands *)

(** Who waits for an answer to a command. *)
Definition asks (x : Z * Z) (p : Pending) (c : Command) : Z :=
  match c with
  | Send _ _ _ false | Shutdown _ | Tick _ _ | ConnectTimeout _ => 0
  | _ => is_caller x p
  end.

(** A command changes at most one connection, and answers its caller or makes it wait. *)
Definition performed (p : Pending) (c : Command) (s : State) (r : State * DriveOutput * option SocketId) : Prop :=
  ∃ h, sphase r.2 ∅ 0 0 h s r.1.1 ∧ (∀ x, h x + replied x (replies r.1.2) = asks x p c) ∧ timer r.1.2 = None.

Lemma replied_one x p a : replied x (replies (push_reply p a output_default)) = is_caller x p.
Proof. unfold replied. cbn. lia. Qed.

Lemma replied_default x : replied x (replies output_default) = 0.
Proof. done. Qed.

Lemma replied_fail_if x (w : bool) p e : replied x (replies (fail_if w p e output_default)) = if w then is_caller x p else 0.
Proof. destruct w; [apply replied_one|done]. Qed.

Lemma performed_same p c s a k : upright s → (∀ x, asks x p c = is_caller x p) → performed p c s (s, push_reply p a output_default, k).
Proof. intros Hu Ha. eexists. split; [by apply sphase_same|]. split; [|done]. intros x. rewrite Ha. cbn [fst snd]. rewrite replied_one. lia. Qed.

Lemma owned_inv id o s c : owned_connection id o s = inl c → connections s !! id = Some c ∧ started c = true.
Proof.
  unfold owned_connection. destruct (connections s !! id) as [d|]; [|done]. case_decide; [done|]. destruct (started d) eqn:Hs; [|done].
  by intros [= <-].
Qed.

(** One call of the protocol on an owned connection, with its answer. *)
Lemma performed_call p c id d q a s :
  upright s → connections s !! id = Some d → moves (connection d) q → (∀ x, asks x p c = is_caller x p) →
  performed p c s (put id (set_connection q d) s, push_reply p a output_default, Some (endpoint_socket d)).
Proof.
  intros Hu Hd Hm Ha. eexists. split; [apply (sphase_put id d _ s Hu Hd)|split; [|done]].
  - apply (carries_step (d, output_default) (on_conn q (d, output_default))). by apply move_carries.
  - intros x. rewrite Ha. cbn [fst snd]. rewrite replied_one. unfold waits. cbn. lia.
Qed.

Lemma socket_of_put id d d' s : endpoint_socket d' = endpoint_socket d → socket_of id (put id d' s) = Some (endpoint_socket d).
Proof. intros Hs. unfold socket_of. cbn. rewrite lookup_insert_eq. cbn. by rewrite Hs. Qed.

Lemma fold_push_events l o (e : list QuicEvent) : fold_left (λ o e, push_event l e o) e o = mkOutput (packets o) (close_sockets o) (events o ++ (mkOwned l <$> e)) (replies o) (timer o).
Proof.
  revert o. induction e as [|x e IH]; intros o; cbn; [rewrite app_nil_r; by destruct o|]. rewrite IH. cbn. by rewrite <-app_assoc.
Qed.

Lemma start_performed p id s : upright s → performed p (Start id) s (perform_start p id s output_default).
Proof.
  intros Hu. unfold perform_start. destruct (connections s !! id) as [d|] eqn:Hd; [|by apply performed_same].
  rewrite fold_push_events. eexists. split; [apply (sphase_put id d _ s Hu Hd)|split; [|done]].
  - split; cbn; try done.
  - intros x. cbn. unfold replied, waits. cbn. lia.
Qed.

Lemma open_performed p (b : bool) id s :
  upright s → performed p (if b then OpenBi id else OpenUni id) s (perform_open p (if b then Bi else Uni) id s output_default).
Proof.
  intros Hu. unfold perform_open. assert (Ha : ∀ x, asks x p (if b then OpenBi id else OpenUni id) = is_caller x p) by by destruct b.
  destruct (owned_connection id (p_source p) s) as [d|e0] eqn:Ho; [|by apply performed_same].
  apply owned_inv in Ho as [Hd _]. destruct (stream_open (connection d) _) as [q r] eqn:Hr.
  rewrite (socket_of_put id d) by done. apply performed_call; try done. replace q with (stream_open (connection d) (if b then Bi else Uni)).1 by by rewrite Hr.
  constructor.
Qed.

Lemma stream_performed p id stream code (op : QConn → Z → Z → QConn * option string) c s :
  upright s → (∀ x, asks x p c = is_caller x p) → (∀ q ps code, moves q (op q ps code).1) →
  performed p c s (perform_stream p id stream code op s output_default).
Proof.
  intros Hu Ha Hop. unfold perform_stream, operate_stream. destruct (checked_error_code code) as [n|e]; [|by apply performed_same].
  destruct (owned_connection id (p_source p) s) as [d|e0] eqn:Ho; [|by apply performed_same].
  destruct (proto_stream_id stream) as [ps|e]; [|by apply performed_same]. apply owned_inv in Ho as [Hd _].
  pose proof (Hop (connection d) ps n) as Hm. destruct (op (connection d) ps n) as [q r]. rewrite (socket_of_put id d) by done. by apply performed_call.
Qed.

Lemma datagram_performed p id data s : upright s → performed p (SendDatagram id data) s (perform_datagram p id data s output_default).
Proof.
  intros Hu. unfold perform_datagram. destruct (owned_connection id (p_source p) s) as [d|e0] eqn:Ho; [|by apply performed_same].
  apply owned_inv in Ho as [Hd _]. pose proof (m_send (connection d) data) as Hm. destruct (datagram_send (connection d) data) as [q r].
  rewrite (socket_of_put id d) by done. by apply performed_call.
Qed.

Lemma close_performed p now id code reason s : upright s → performed p (Close id code reason) s (perform_close p now id code reason s output_default).
Proof.
  intros Hu. unfold perform_close. destruct (checked_error_code code) as [n|e]; [|by apply performed_same].
  destruct (owned_connection id (p_source p) s) as [d|e0] eqn:Ho; [|by apply performed_same].
  apply owned_inv in Ho as [Hd _]. rewrite (socket_of_put id d) by done. apply performed_call; try done. constructor.
Qed.

Lemma shutdown_performed p now id s : upright s → performed p (Shutdown id) s (perform_shutdown p now id s output_default).
Proof.
  intros Hu. unfold perform_shutdown. destruct (owned_connection id (p_source p) s) as [d|e0] eqn:Ho.
  - apply owned_inv in Ho as [Hd _]. eexists. split; [apply (sphase_put id d _ s Hu Hd)|split; [|done]].
    + apply (carries_step (d, output_default) (on_conn _ (d, output_default))). apply move_carries. constructor.
    + intros x. cbn. unfold waits. cbn. rewrite replied_default. lia.
  - eexists. split; [by apply sphase_same|]. by split.
Qed.

Lemma finish_performed p id stream s : upright s → performed p (Finish id stream) s (perform_finish p id stream s output_default).
Proof.
  intros Hu. unfold perform_finish. destruct (owned_connection id (p_source p) s) as [d|e0] eqn:Ho; [|by apply performed_same].
  destruct (proto_stream_id stream) as [ps|e]; [|by apply performed_same]. case_decide as Hf; [by apply performed_same|].
  apply owned_inv in Ho as [Hd _]. assert (Hn : finishes d !! ps = None) by by apply eq_None_not_Some.
  assert (Hcall : performed p (Finish id stream) s
    (let '(t, r) := stream_finish (connection d) ps in (put id (set_connection t d) s, push_reply p (finish_answer r) output_default, Some (endpoint_socket d)))).
  { pose proof (m_finish (connection d) ps) as Hm. destruct (stream_finish (connection d) ps) as [q r]. by apply performed_call. }
  destruct (writes d !! ps) as [[|wr q]|]; [exact Hcall| |exact Hcall].
  eexists. split; [apply (sphase_put id d _ s Hu Hd)|split; [|done]].
  - by split.
  - intros x. cbn. unfold waits. cbn. rewrite map_sum_insert, Hn, replied_default. cbn. lia.
Qed.

Lemma queue_waits_snoc x q wr : queue_waits x (q ++ [wr]) = queue_waits x q + opt x (qw_pending wr).
Proof. unfold queue_waits. induction q as [|a q IH]; cbn; lia. Qed.

Lemma queue_bytes_snoc q wr : queue_bytes (q ++ [wr]) = queue_bytes q + unsent wr.
Proof. unfold queue_bytes. induction q as [|a q IH]; cbn; lia. Qed.

(** A connection that takes in the command of a caller. *)
Record takes (f : Z * Z → Z) (co co' : QuicConnection * DriveOutput) : Prop := {
  t_step : conn_step co.1 co'.1;
  t_waits x : waits x co'.1 + replied x (replies co'.2) = waits x co.1 + replied x (replies co.2) + f x;
  t_timer : timer co'.2 = timer co.2;
}.

Lemma takes_carries f co co1 co2 : carries co co1 → takes f co1 co2 → takes f co co2.
Proof.
  intros Hc [T1 T2 T3]. pose proof (carries_step _ _ Hc) as Hs. destruct Hc as [_ _ _ Hw _ _ _ Ht].
  split; [by etrans|intros x; rewrite T2, Hw; lia|congruence].
Qed.

Lemma carries_takes f co co1 co2 : takes f co co1 → carries co1 co2 → takes f co co2.
Proof.
  intros [T1 T2 T3] Hc. pose proof (carries_step _ _ Hc) as Hs. destruct Hc as [_ _ _ Hw _ _ _ Ht].
  split; [by etrans|intros x; rewrite Hw, T2; lia|congruence].
Qed.

Lemma enqueue_takes cf p id stream data (wait : bool) n co :
  0 ≤ n ≤ Z.of_nat (length data) → takes (λ x, if wait then is_caller x p else 0) co (enqueue_write cf p id stream data wait n co).
Proof.
  destruct co as [c o]. intros Hn. unfold enqueue_write. case_decide as Hd.
  { split; [done| |by destruct wait]. intros x. destruct wait; cbn [fst snd]; [rewrite replied_push|]; lia. }
  set (wr := mkWrite data n (if wait then Some p else None)). set (q := default [] (writes (set_buffered _ c) !! stream)).
  set (c1 := set_writes _ _). assert (Ht : takes (λ x, if wait then is_caller x p else 0) (c, o) (c1, o)).
  { unfold c1, q. split; cbn; try done; [split; cbn; try done|].
    - intros He. pose proof (exact_queue c stream He) as Hq. destruct He as [E1 E2]. split; cbn.
      + rewrite map_sum_insert, queue_bytes_snoc, E1. unfold wr, unsent. cbn. destruct (writes c !! stream); cbn; try change (queue_bytes []) with 0; lia.
      + apply map_Forall_insert_2; [|done]. apply Forall_app. split; [done|]. apply Forall_singleton. exact Hn.
    - intros x. unfold waits. cbn. rewrite map_sum_insert, queue_waits_snoc. unfold wr. cbn.
      assert (opt x (if wait then Some p else None) = if wait then is_caller x p else 0) as -> by by destruct wait.
      destruct (writes c !! stream); cbn; try change (queue_waits x []) with 0; lia. }
  case_decide as Hw; [|exact Ht]. eapply carries_takes; [exact Ht|]. etrans; [|apply queue_event_carries]. by split.
Qed.

Lemma send_on_takes cf p id stream data (wait : bool) co :
  takes (λ x, if wait then is_caller x p else 0) co (send_on cf p id stream data wait co).
Proof.
  unfold send_on. destruct (stream_write (connection co.1) stream data) as [t r] eqn:Hw. destruct (write_move _ _ _ _ _ Hw) as [Hm _].
  destruct r as [n|[|e]].
  - eapply takes_carries; [by apply move_carries|]. apply enqueue_takes. by eapply write_taken.
  - eapply takes_carries; [by apply move_carries|]. apply enqueue_takes. lia.
  - eapply takes_carries; [by apply (move_carries t)|]. split; [done| |by destruct wait].
    intros x. unfold fail_if. destruct wait; cbn [fst snd on_conn]; [rewrite replied_push|]; lia.
Qed.

Lemma send_performed cf p id stream data wait s :
  upright s → performed p (Send id stream data wait) s (perform_send cf p id stream data wait s output_default).
Proof.
  intros Hu. unfold perform_send.
  assert (Hsame : ∀ e k, performed p (Send id stream data wait) s (s, fail_if wait p e output_default, k)).
  { intros e k. eexists. split; [by apply sphase_same|]. cbn [fst snd]. split; [|by destruct wait]. intros x. rewrite replied_fail_if. by destruct wait. }
  case_decide; [apply Hsame|]. destruct (owned_connection id (p_source p) s) as [d|e] eqn:Ho; [|apply Hsame].
  destruct (proto_stream_id stream) as [ps|e]; [|apply Hsame]. case_decide as Hf; [apply Hsame|].
  apply owned_inv in Ho as [Hd _]. pose proof (send_on_takes cf p id ps data wait (d, output_default)) as [T1 T2 T3].
  destruct (send_on cf p id ps data wait (d, output_default)) as [c1 o1]. cbn [fst snd] in *. rewrite (cs_socket _ _ T1).
  eexists. split; [apply (sphase_put id d _ s Hu Hd T1)|split; [|done]]. intros x. specialize (T2 x). cbn [fst snd]. rewrite replied_default in T2.
  destruct wait; cbn; lia.
Qed.

(** An endpoint that only stops to listen. *)
Lemma sphase_listener k ep ep' s :
  upright s → endpoints s !! k = Some ep → e_connections ep' = e_connections ep → e_connections ep ≠ ∅ →
  timer_deadline ep' = timer_deadline ep → timer_generation ep' = timer_generation ep →
  sphase None ∅ 0 0 (λ _, 0) s (put_endpoint k ep' s).
Proof.
  intros (Hs & Hb & Hg) Hk He Hne Hd Hgen. split; cbn; try done; try lia; eauto.
  - split_and!; [by apply (put_endpoint_sane k ep)| |done]. apply map_Forall_insert_2; [|done]. right. by rewrite He.
  - unfold handshaking. cbn. lia.
  - intros Ht j e h id c t _. cbn. rewrite lookup_insert_Some. intros [[<- <-]|[_ Hj]]; [|by eapply Ht].
    rewrite He, Hd. intros. by eapply (Ht k ep).
  - intros j e d. rewrite lookup_insert_Some. intros [[<- <-]|[_ Hj]]; [|eauto]. rewrite Hd, Hgen. eauto.
  - intros j [e Hj]. right. destruct (decide (j = k)) as [->|]; [eauto|]. rewrite lookup_insert_ne in Hj by done. eauto.
Qed.

Lemma sphase_retire k ep s :
  upright s → endpoints s !! k = Some ep → e_connections ep = ∅ → sphase None ∅ 0 0 (λ _, 0) s (set_endpoints (delete k (endpoints s)) s).
Proof.
  intros (Hs & Hb & Hg) Hk He. split; cbn; try done; try lia; eauto.
  - split_and!; [by apply (retire_sane k ep)|by apply map_Forall_delete|done].
  - unfold handshaking. cbn. lia.
  - intros Ht j e h id c t _. cbn. rewrite lookup_delete_Some. intros [_ Hj]. by eapply Ht.
  - intros j e d. rewrite lookup_delete_Some. intros [_ Hj]. eauto.
  - intros j [e Hj]. right. apply lookup_delete_Some in Hj as [_ Hj]. eauto.
Qed.

Lemma find_listener_inv id o s k ep : find_listener id o s = Some (k, ep) → endpoints s !! k = Some ep.
Proof.
  unfold find_listener. intros Hf. apply fmap_Some in Hf as ([i ke] & Hf & Heq). cbn in Heq. subst ke.
  apply list_find_Some in Hf as (Hi & _ & _). apply elem_of_list_lookup_2 in Hi || apply list_elem_of_lookup_2 in Hi. by apply elem_of_map_to_list in Hi.
Qed.

Lemma close_listener_performed p id s : upright s → performed p (CloseListener id) s (perform_close_listener p id s output_default).
Proof.
  intros Hu. unfold perform_close_listener. destruct (find_listener id (p_source p) s) as [[k ep]|] eqn:Hf; [|by apply performed_same].
  apply find_listener_inv in Hf. case_decide as He.
  - eexists. split; [by apply (sphase_retire k ep)|]. split; [|done]. intros x. cbn. unfold replied. cbn. lia.
  - eexists. split; [by apply (sphase_listener k ep)|]. split; [|done]. intros x. cbn. unfold replied. cbn. lia.
Qed.

Lemma perform_performed cf p c now s r : upright s → perform cf p c now s output_default = Some r → performed p c s r.
Proof.
  intros Hu. destruct c; cbn [perform]; try done; intros [= <-].
  - by apply performed_same.
  - by apply close_listener_performed.
  - by apply start_performed.
  - by apply (open_performed p true).
  - by apply (open_performed p false).
  - by apply send_performed.
  - by apply finish_performed.
  - apply stream_performed; try done. intros. constructor.
  - apply stream_performed; try done. intros. constructor.
  - by apply datagram_performed.
  - by apply close_performed.
  - by apply shutdown_performed.
  - by apply performed_same.
  - by apply performed_same.
Qed.

(** ** Other changes *)

(** The protocol side of an endpoint moves, besides. *)
Lemma sphase_endpoint k K N r h s s' j ep ep' :
  sphase k K N r h s s' → endpoints s' !! j = Some ep → same_endpoint ep ep' → sphase k K N r h s (put_endpoint j ep' s').
Proof.
  intros [(P1 & P1' & P1'') P2 P3 P4 P5 P6 P7 P8 P9] Hj He.
  assert (Hl : ∀ i e, endpoints (put_endpoint j ep' s') !! i = Some e → ∃ e0, endpoints s' !! i = Some e0 ∧ same_endpoint e0 e).
  { intros i e. cbn. rewrite lookup_insert_Some. intros [[<- <-]|[_ Hi]]; eauto. by exists e. }
  split; try done.
  - split_and!; [|intros i e Hi; destruct (Hl i e Hi) as (e0 & Hi0 & ->); by apply (P1' i e0)|done].
    apply (put_endpoint_sane j ep); [done| |done]. by rewrite He.
  - intros Ht i e hh id c t Hi Hk. destruct (Hl i e Hk) as (e0 & Hi0 & ->). cbn. by apply (P6 Ht i e0).
  - intros i e d Hi. destruct (Hl i e Hi) as (e0 & Hi0 & ->). cbn. by apply P7.
  - intros i [e Hi]. destruct (Hl i e Hi) as (e0 & Hi0 & _). apply P8. eauto.
Qed.

(** A listener of its own. *)
Lemma sphase_listening k ep s s' :
  upright s → endpoints s !! k = None → endpoints s' = <[k := ep]> (endpoints s) → connections s' = connections s →
  next_connection s' = next_connection s → reserved_connections s' = reserved_connections s → reserved_handshakes s' = reserved_handshakes s →
  e_connections ep = ∅ → timer_deadline ep = None → e_listener ep ≠ None →
  sphase None {[k]} 0 0 (λ _, 0) s s'.
Proof.
  intros (Hs & Hb & Hg) Hk He Hc Hn Hr Hr' Hne Hd Hl. split; rewrite ?Hc, ?Hn, ?Hr, ?Hr'; try done; try lia.
  - split_and!; [|by unfold busy; rewrite He; apply map_Forall_insert_2; [left|]|by rewrite Hc]. destruct Hs as [S1 S2 S3 S4].
    split; rewrite ?Hc, ?Hn, ?He; try done.
    + intros id c Hid. destruct (S2 id c Hid) as (G1 & G2 & e & i & G3 & G4). split_and!; [done|lia|lia|]. exists e, i. rewrite He.
      rewrite lookup_insert_ne; [done|]. congruence.
    + intros j e i id. rewrite lookup_insert_Some. intros [[<- <-]|[_ Hj]]; [by rewrite Hne, lookup_empty|]. by apply S3.
    + intros j e i i' id. rewrite lookup_insert_Some. intros [[<- <-]|[_ Hj]]; [by rewrite Hne, lookup_empty|]. by apply (S4 j).
  - unfold handshaking. rewrite Hc. lia.
  - intros Ht j e i id c t _. rewrite He, Hc, lookup_insert_Some. intros [[<- <-]|[_ Hj]]; [by rewrite Hne, lookup_empty|]. by apply (Ht j e).
  - intros j e d. rewrite He, lookup_insert_Some. intros [[<- <-]|[_ Hj]]; [congruence|eauto].
  - intros j [e Hj]. rewrite He in Hj. apply lookup_insert_Some in Hj as [[<- _]|[_ Hj]]; [left; set_solver|eauto].
Qed.

(** Only the reservations change. *)
Lemma sphase_reserve r s : upright s → sphase None ∅ 0 r (λ _, 0) s (set_reserved (reserved_connections s + r) (reserved_handshakes s + r) s).
Proof.
  intros (Hs & Hb & Hg). split; cbn; try done; try lia; eauto.
  - split_and!; try done. by destruct Hs; split.
  - unfold handshaking. cbn. lia.
Qed.

(** A connection of its own, at an endpoint that is there or new. *)
Lemma sphase_add k ep' h id c r s s' :
  upright s → id = next_connection s + 1 → next_connection s' = id →
  default ∅ (e_connections <$> endpoints s !! k) !! h = None →
  e_connections ep' = <[h := id]> (default ∅ (e_connections <$> endpoints s !! k)) →
  (∀ d, timer_deadline ep' = Some d → ∃ ep, endpoints s !! k = Some ep ∧ timer_deadline ep = Some d ∧ timer_generation ep' = timer_generation ep) →
  endpoints s' = <[k := ep']> (endpoints s) → connections s' = <[id := c]> (connections s) →
  reserved_connections s' = reserved_connections s + r → reserved_handshakes s' = reserved_handshakes s + r →
  c_id c = id → endpoint_socket c = k → conn_ok c →
  sphase (Some k) {[k]} 1 r (λ x, waits x c) s s'.
Proof.
  intros (Hs & Hb & Hg) Hid Hn Hh Hec Htd He Hc Hr Hr' Hcid Hcs Hok.
  assert (Hnew : connections s !! id = None).
  { destruct (connections s !! id) as [d|] eqn:Hd; [|done]. destruct (sn_conn s Hs id d Hd) as (_ & ? & _). lia. }
  assert (Hold : ∀ j e i d, endpoints s !! j = Some e → e_connections e !! i = Some d → d ≠ id).
  { intros j e i d Hj Hi ->. destruct (sn_handle s Hs j e i id Hj Hi) as (? & ? & _). congruence. }
  assert (Hk0 : ∀ i d, e_connections ep' !! i = Some d → (i = h ∧ d = id) ∨ ∃ ep, endpoints s !! k = Some ep ∧ e_connections ep !! i = Some d ∧ i ≠ h).
  { intros i d. rewrite Hec, lookup_insert_Some. intros [[<- <-]|[Hne Hi]]; [by left|]. right. destruct (endpoints s !! k) as [ep|]; cbn in Hi; [|done]. eauto. }
  destruct (shakes_insert id c s) as [Hz1 Hz2].
  split; rewrite ?Hc, ?Hr, ?Hr'; try done; try lia.
  - split_and!; [|unfold busy; rewrite He; apply map_Forall_insert_2; [right; rewrite Hec; apply insert_non_empty|done]|by rewrite Hc; apply map_Forall_insert_2].
    destruct Hs as [S1 S2 S3 S4]. split; rewrite ?Hn, ?He, ?Hc.
    + lia.
    + intros j d. rewrite lookup_insert_Some. intros [[<- <-]|[Hne Hd]].
      * split_and!; [done|lia|lia|]. rewrite Hcs. exists ep', h. by rewrite He, Hec, !lookup_insert_eq.
      * destruct (S2 j d Hd) as (G1 & G2 & e & i & G3 & G4). split_and!; [done|lia|lia|]. destruct (decide (endpoint_socket d = k)) as [Hek|].
        -- rewrite Hek in G3 |- *. exists ep', i. rewrite He, lookup_insert_eq. split; [done|]. rewrite Hec, G3. cbn. rewrite lookup_insert_ne; [done|].
           intros ->. rewrite G3 in Hh. cbn in Hh. congruence.
        -- exists e, i. by rewrite He, lookup_insert_ne.
    + intros j e i d. rewrite lookup_insert_Some. intros [[<- <-]|[Hne Hj]] Hi.
      * destruct (Hk0 i d Hi) as [[-> ->]|(ep & Hk & Hi' & _)]; [exists c; by rewrite lookup_insert_eq|].
        destruct (S3 k ep i d Hk Hi') as (c0 & ? & ?). exists c0. rewrite lookup_insert_ne; [done|]. apply not_eq_sym. by eapply Hold.
      * destruct (S3 j e i d Hj Hi) as (c0 & ? & ?). exists c0. rewrite lookup_insert_ne; [done|]. apply not_eq_sym. by eapply Hold.
    + intros j e i i' d. rewrite lookup_insert_Some. intros [[<- <-]|[Hne Hj]] Hi Hi'; [|by apply (S4 j e i i' d)].
      destruct (Hk0 i d Hi) as [[-> ->]|(ep & Hk & Hi2 & _)], (Hk0 i' _ Hi') as [[-> Heq]|(ep2 & Hk2 & Hi2' & _)]; try done.
      * exfalso. by eapply Hold.
      * exfalso. subst d. by eapply Hold.
      * apply (S4 k ep i i' d); congruence.
  - cbn in Hz1. lia.
  - unfold handshaking in *. rewrite Hc. cbn in Hz2. lia.
  - intros Ht j e i d c0 t Hj. rewrite He, Hc, lookup_insert_Some. intros [[<- <-]|[Hne Hk]]; [cbn in Hj; set_solver|]. intros Hi.
    rewrite lookup_insert_ne by (apply not_eq_sym; by eapply Hold). by apply (Ht j e i).
  - intros j e d. rewrite He, lookup_insert_Some. intros [[<- <-]|[_ Hj]]; [apply Htd|eauto].
  - intros j [e Hj]. rewrite He in Hj. apply lookup_insert_Some in Hj as [[<- _]|[_ Hj]]; [left; set_solver|eauto].
  - intros x. rewrite map_sum_insert, Hnew. cbn. lia.
Qed.

(** The timeouts of an endpoint. *)
Lemma sphase_tick k now ep s :
  upright s → endpoints s !! k = Some ep →
  sphase (Some k) ∅ 0 0 (λ _, 0) s (handle_timeouts k now (put_endpoint k (set_timer (timer_generation ep) None ep) s)).
Proof.
  intros (Hs & Hb & Hg) Hk. set (s1 := put_endpoint k _ s). set (s' := handle_timeouts k now s1).
  assert (Hs1 : sane s1) by by apply (put_endpoint_sane k ep).
  assert (Hstep : ∀ id c, connections s !! id = Some c → ∃ c', connections s' !! id = Some c' ∧ conn_step c c' ∧ conn_ok c' ∧
      (endpoint_socket c ≠ k → c' = c) ∧ ∀ x, waits x c' = waits x c).
  { intros id c Hc. cbn. rewrite lookup_fmap, Hc. eexists. split; [done|]. pose proof (Hg id c Hc) as [G1 G2].
    case_decide as Hd; [|by split_and!]. split; [|split; [by split|split; [intros Hn; by destruct Hd|done]]].
    apply (carries_step (c, output_default) (on_conn _ (c, output_default))), move_carries. constructor. }
  assert (Hm : matches conn_step (connections s) (connections s')).
  { intros id. destruct (connections s !! id) as [c|] eqn:Hc; [destruct (Hstep id c Hc) as (c' & -> & ? & _); done|].
    cbn. by rewrite lookup_fmap, Hc. }
  assert (Hback : ∀ id c', connections s' !! id = Some c' → ∃ c, connections s !! id = Some c ∧ conn_step c c' ∧ conn_ok c' ∧ (endpoint_socket c ≠ k → c' = c)).
  { intros id c' Hc'. destruct (matches_Some' _ _ _ _ _ Hm Hc') as (c & Hc & _). destruct (Hstep id c Hc) as (c2 & Hc2 & ? & ? & ? & _).
    exists c. rewrite Hc' in Hc2. injection Hc2 as <-. by split_and!. }
  destruct (shakes_le s s') as [Hz1 Hz2]. { intros id c' Hc'. destruct (Hback id c' Hc') as (c & Hc & Hst & _). exists c. split; [done|apply Hst]. }
  split; try done; try lia.
  - split_and!.
    + apply (matches_sane s1); [done|exact Hm|by apply matches_refl|done].
    + cbn. apply map_Forall_insert_2; [|done]. by apply (Hb k ep).
    + intros id c' Hc'. by destruct (Hback id c' Hc') as (c & _ & _ & ? & _).
  - cbn. lia.
  - cbn. lia.
  - intros Ht j e i id c' t Hj. assert (Hne : j ≠ k) by (cbn in Hj; set_solver). cbn [s' handle_timeouts set_connections endpoints s1 put_endpoint set_endpoints].
    rewrite lookup_insert_ne by done. intros He Hi Hc'. destruct (Hback id c' Hc') as (c & Hc & _ & _ & Hsame).
    destruct (sn_handle s Hs j e i id He Hi) as (c0 & Hc0 & Hs0). assert (c0 = c) as -> by congruence. rewrite Hsame by congruence.
    by apply (Ht j e i id).
  - intros j e d. cbn. rewrite lookup_insert_Some. intros [[<- <-]|[_ Hj]]; [done|eauto].
  - intros j [e Hj]. cbn in Hj. apply lookup_insert_Some in Hj as [[<- _]|[_ Hj]]; eauto.
  - intros x. cbn. rewrite Z.add_0_r, !map_sum_list, map_to_list_fmap. 
    assert (∀ l : list (Z * QuicConnection), foldr (λ ka n, waits x ka.2 + n) 0 (prod_map id (λ c, if decide (endpoint_socket c = k ∧ is_some_and (λ at_, bool_decide (at_ ≤ now)) (poll_timeout (connection c)) = true) then set_connection (handle_timeout (connection c) now) c else c) <$> l) = foldr (λ ka n, waits x ka.2 + n) 0 l) as Hw; [|apply Hw].
    induction l as [|[j c] l IH]; cbn; [done|]. rewrite IH. by case_decide.
Qed.

(** The connections of an endpoint that is gone. *)
Lemma fail_connections e ids s o :
  let '(s', o') := fold_left (fail_connection e) ids (s, o) in
  (∀ id, connections s' !! id = if decide (id ∈ ids) then None else connections s !! id) ∧
  endpoints s' = endpoints s ∧ next_connection s' = next_connection s ∧
  reserved_connections s' = reserved_connections s ∧ reserved_handshakes s' = reserved_handshakes s ∧
  timer o' = timer o ∧ ∀ x, account x (s', o') = account x (s, o).
Proof.
  revert s o. induction ids as [|id ids IH]; intros s o; cbn [fold_left].
  { by split_and!. }
  destruct (fail_connection e (s, o) id) as [s1 o1] eqn:H1.
  assert (Hf : connections s1 = delete id (connections s) ∧ endpoints s1 = endpoints s ∧ next_connection s1 = next_connection s ∧
    reserved_connections s1 = reserved_connections s ∧ reserved_handshakes s1 = reserved_handshakes s ∧ timer o1 = timer o ∧ ∀ x, account x (s1, o1) = account x (s, o)).
  { unfold fail_connection in H1. destruct (connections s !! id) as [c|] eqn:Hc.
    2:{ injection H1 as <- <-. by rewrite delete_id. }
    set (o2 := match connect_pending c with Some p => _ | None => o end) in H1. set (o3 := if announced c then _ else o2) in H1.
    assert (Ho3 : ∀ x, replied x (replies o3) = replied x (replies o) + opt x (connect_pending c) ∧ timer o3 = timer o).
    { intros x. assert (replies o3 = replies o2 ∧ timer o3 = timer o2) as [-> ->] by (unfold o3; by destruct (announced c)). unfold o2.
      rewrite replied_push_opt. split; [done|]. apply (opt_push_closes (connect_pending c) (AFailed e) o). }
    pose proof (fail_pending_writes_carries e (c, o3)) as [_ _ _ Hw _ _ _ Ht].
    assert (Hz : ∀ x, waits x (fail_pending_writes e (c, o3)).1 = 0 + opt x (connect_pending c)) by (intros x; unfold waits; cbn; rewrite !map_sum_empty; lia).
    destruct (fail_pending_writes e (c, o3)) as [c4 o4]. apply pair_equal_spec in H1 as [<- <-]. cbn [fst snd] in *.
    split_and!; try done; [rewrite Ht; by apply (Ho3 (0, 0))|]. intros x. unfold account. cbn [fst snd set_connections connections].
    rewrite map_sum_delete, Hc. cbn [from_option]. specialize (Hw x). destruct (Ho3 x) as [Hr _]. rewrite Hr in Hw.
    specialize (Hz x). lia. }
  destruct Hf as (F1 & F2 & F3 & F4 & F5 & F6 & F7). specialize (IH s1 o1). destruct (fold_left (fail_connection e) ids (s1, o1)) as [s' o'].
  destruct IH as (I1 & I2 & I3 & I4 & I5 & I6 & I7). split_and!; try congruence.
  intros j. rewrite I1, F1. destruct (decide (j = id)) as [->|Hne].
  - rewrite lookup_delete_eq, (decide_True (P := id ∈ id :: ids)) by set_solver. by case_decide.
  - rewrite lookup_delete_ne by done. destruct (decide (j ∈ ids)); [rewrite decide_True by set_solver|rewrite decide_False by set_solver]; done.
Qed.

Lemma sphase_failed k e s s' o' :
  upright s →
  fold_left (fail_connection e) (match endpoints s !! k with Some ep => (map_to_list (e_connections ep)).*2 | None => [] end)
    (set_endpoints (delete k (endpoints s)) s, output_default) = (s', o') →
  ∃ h, sphase None ∅ 0 0 h s s' ∧ (∀ x, h x + replied x (replies o') = 0) ∧ timer o' = None.
Proof.
  intros (Hs & Hb & Hg) Hf. set (ids := match endpoints s !! k with Some ep => _ | None => _ end) in Hf.
  assert (Hids : ∀ id, id ∈ ids ↔ of_endpoint k s id).
  { intros id. unfold ids, of_endpoint. destruct (endpoints s !! k) as [ep|] eqn:Hk.
    - rewrite list_elem_of_fmap. split.
      + intros ([h d] & -> & Hin%elem_of_map_to_list). by exists ep, h.
      + intros (ep2 & h & [= <-] & Hh). exists (h, id). split; [done|]. by apply elem_of_map_to_list.
    - split; [by intros ?%not_elem_of_nil|]. by intros (? & ? & ? & _). }
  pose proof (fail_connections e ids (set_endpoints (delete k (endpoints s)) s) output_default) as Hx. rewrite Hf in Hx. cbn in Hx.
  destruct Hx as (X1 & X2 & X3 & X4 & X5 & X6 & X7).
  assert (Hkeep : ∀ id c, connections s' !! id = Some c → connections s !! id = Some c ∧ endpoint_socket c ≠ k).
  { intros id c. rewrite X1. case_decide as Hi; [done|]. intros Hc. split; [done|]. intros Heq. apply Hi, Hids.
    destruct (sn_conn s Hs id c Hc) as (_ & _ & Ho). by rewrite Heq in Ho. }
  destruct (shakes_le s s') as [Hz1 Hz2]. { intros id c Hc. exists c. split; [by apply Hkeep|done]. }
  exists (λ x, map_sum (waits x) (connections s') - map_sum (waits x) (connections s)). split_and!; [|..|done].
  2:{ intros x. specialize (X7 x). rewrite account_start in X7. unfold account in X7. cbn in X7. lia. }
  split; rewrite ?X2, ?X3, ?X4, ?X5; try done; try lia.
  - split_and!; [|unfold busy; rewrite X2; by apply map_Forall_delete|intros id c Hc; by apply (Hg id), Hkeep]. destruct Hs as [S1 S2 S3 S4].
    split; rewrite ?X2, ?X3; try done.
    + intros id c Hc. destruct (Hkeep id c Hc) as [Hc' Hne]. destruct (S2 id c Hc') as (G1 & G2 & ep & i & G3 & G4). split_and!; [done|lia|lia|].
      exists ep, i. rewrite X2. by rewrite lookup_delete_ne by congruence.
    + intros j ep i id. rewrite lookup_delete_Some. intros [Hne Hj] Hi. destruct (S3 j ep i id Hj Hi) as (c & Hc & Hsk). exists c. split; [|done].
      rewrite X1, decide_False; [done|]. rewrite Hids. intros (ep2 & i2 & H2 & Hi2). destruct (S3 k ep2 i2 id H2 Hi2) as (c2 & ? & ?). congruence.
    + intros j ep i i' id. rewrite lookup_delete_Some. intros [_ Hj]. by apply (S4 j ep).
  - intros Ht j ep i id c t _. rewrite X2, lookup_delete_Some. intros [_ Hj] Hi Hc. destruct (Hkeep id c Hc) as [Hc' _]. by apply (Ht j ep i id).
  - intros j ep d. rewrite lookup_delete_Some. intros [_ Hj]. eauto.
  - intros j [ep Hj]. apply lookup_delete_Some in Hj as [_ Hj]. eauto.
Qed.

(** ** The books of the system *)

Context (cf : QuicConfig).

Definition answers (x : Z * Z) (o : Out) : Z := match o with OReply p _ | ORefuse p => is_caller x p | _ => 0 end.

Definition answered (x : Z * Z) (os : list Out) : Z := foldr (λ o acc, answers x o + acc) 0 os.

#[local] Arguments answered : simpl never.

Definition task_waits (x : Z * Z) (t : Task) : Z :=
  match t with
  | TListen _ p | TListenInfo _ p _ | TConnect _ _ p | TConnectPeer _ _ p _ | TConnectInfo _ _ p _ => is_caller x p
  | TEmit o => replied x (replies o)
  end.

(** The tasks that hold a reservation. *)
Definition conn_task (t : Task) : Z := match t with TConnect _ _ _ | TConnectPeer _ _ _ _ | TConnectInfo _ _ _ _ => 1 | _ => 0 end.

Definition task_socket (t : Task) : gset SocketId :=
  match t with TListenInfo _ _ k | TConnectPeer _ _ _ k | TConnectInfo _ _ _ k => {[k]} | _ => ∅ end.

Definition arm_of (t : option TimerArm) : option (SocketId * Z) := (λ a, (ta_socket a, ta_generation a)) <$> t.

Definition task_timer (t : Task) : option (SocketId * Z) := match t with TEmit o => arm_of (timer o) | _ => None end.

Definition next_waits (x : Z * Z) (n : Next) : Z :=
  match n with NDone => 0 | NWait t => task_waits x t | NEmit o | NDrive o _ => replied x (replies o) end.

Definition next_conn (n : Next) : Z := match n with NWait t => conn_task t | _ => 0 end.
Definition next_socket (n : Next) : gset SocketId := match n with NWait t => task_socket t | _ => ∅ end.
Definition next_timer (n : Next) : option (SocketId * Z) := match n with NWait t => task_timer t | NEmit o => arm_of (timer o) | _ => None end.
Definition next_driven (n : Next) : gset SocketId := match n with NDrive _ k => {[k]} | _ => ∅ end.

(** A tick of the generation [g] of [k] is on its way. *)
Definition watched (X : option (SocketId * Z)) (w : W) (nx : Next) (ts : gmap Z Task) (k : SocketId) (g : Z) : Prop :=
  X = Some (k, g) ∨ Tick k g ∈ timers w ∨ Tick k g ∈ posted w ∨ next_timer nx = Some (k, g) ∨ ∃ c t, ts !! c = Some t ∧ task_timer t = Some (k, g).

(** The invariant of the service between two steps of a handler: [n] bounds the numbers of
    connections, [a] is what callers have been promised, [X] a tick being handled, [nx] how
    the handler goes on, [ts] the others. *)
Record good (n : Z) (a : Z * Z → Z) (X : option (SocketId * Z)) (w : W) (nx : Next) (ts : gmap Z Task) : Prop := {
  g_up : upright (st w);
  g_next : next_connection (st w) ≤ n;
  g_account x : x.2 ≠ 0 → answered x (outs w) + map_sum (waits x) (connections (st w)) + map_sum (task_waits x) ts + next_waits x nx = a x;
  g_res : reserved_connections (st w) = map_sum conn_task ts + next_conn nx ∧ reserved_handshakes (st w) = map_sum conn_task ts + next_conn nx;
  g_limit : Z.of_nat (size (connections (st w))) + reserved_connections (st w) ≤ max_connections (config w) ∧ handshake_count (st w) ≤ max_handshakes (config w);
  g_panic : panicked w = false;
  g_timely : timely (next_driven nx) (st w);
  g_watch k ep d : endpoints (st w) !! k = Some ep → timer_deadline ep = Some d → watched X w nx ts k (timer_generation ep);
  g_fly c t k : ts !! c = Some t → k ∈ task_socket t → endpoints (st w) !! k = None ∧ k ∉ next_socket nx;
  g_one c c' t t' k : ts !! c = Some t → ts !! c' = Some t' → k ∈ task_socket t → k ∈ task_socket t' → c = c';
  g_mine k : k ∈ next_socket nx → endpoints (st w) !! k = None;
  g_config : config w = cf;
}.

Lemma quic_answered_app x os os' : answered x (os ++ os') = answered x os + answered x os'.
Proof. unfold answered. induction os as [|o os IH]; cbn; lia. Qed.

Lemma conn_task_nonneg t : 0 ≤ conn_task t.
Proof. destruct t; cbn; lia. Qed.

Lemma map_sum_nonneg {A} (f : A → Z) (m : gmap Z A) : (∀ a, 0 ≤ f a) → 0 ≤ map_sum f m.
Proof.
  intros Hf. unfold map_sum. apply (map_fold_weak_ind (λ r _, 0 ≤ r)); [done|]. intros _ b _ r _ Hr. specialize (Hf b). lia.
Qed.

(** A step of a handler up to the next point. *)
Lemma good_phase n a X w nx ts ko K N r h g ask w' nx' :
  good n a X w nx ts → sphase ko K N r h (st w) (st w') →
  config w' = config w → panicked w' = panicked w → timers w ⊆ timers w' → posted w' = posted w →
  (∀ x, x.2 ≠ 0 → answered x (outs w') = answered x (outs w) + g x) →
  (∀ x, x.2 ≠ 0 → h x + g x + next_waits x nx' = next_waits x nx + ask x) →
  next_driven nx = ∅ → one ko ⊆ next_driven nx' → next_timer nx = None → next_conn nx' = next_conn nx + r →
  0 ≤ N ≤ 1 → N + r ≤ 0 ∨ has_connection_capacity (config w) (st w) = true ∧ N + r ≤ 1 →
  (∀ k, k ∈ K → is_Some (endpoints (st w) !! k) ∨ k ∈ next_socket nx) →
  (∀ k, k ∈ next_socket nx' → endpoints (st w') !! k = None ∧ ∀ c t, ts !! c = Some t → k ∉ task_socket t) →
  good (n + 1) (λ x, a x + ask x) X w' nx' ts.
Proof.
  intros [G1 G2 G3 [G4 G4'] [G5 G5'] G6 G7 G8 G9 G10 G11 G12] [P1 P2 P3 P4 [P5 P5'] P6 P7 P8 P9] Hcf Hp Ht Hq Hout Hask Hdr Hko Hnt Hnc HN Hcap HK Hns.
  assert (HNr : N + r ≤ 0 ∨ (Z.of_nat (size (connections (st w))) + reserved_connections (st w) + (N + r) ≤ max_connections (config w)
    ∧ handshake_count (st w) + (N + r) ≤ max_handshakes (config w))).
  { destruct Hcap as [?|[Hc ?]]; [by left|right]. unfold has_connection_capacity in Hc. apply andb_true_iff in Hc as [Hc1 Hc2].
    apply bool_decide_eq_true in Hc1, Hc2. lia. }
  unfold handshake_count in *. split; rewrite ?Hcf, ?Hp; try done.
  - lia.
  - intros x Hx. rewrite (Hout x Hx), P9. specialize (G3 x Hx). specialize (Hask x Hx). lia.
  - lia.
  - unfold handshake_count. lia.
  - intros k ep hh id c t Hk. apply P6; [|set_solver]. intros k' ep' h' id' c' t' _. apply G7. rewrite Hdr. set_solver.
  - intros k ep' d Hk Hd. destruct (P7 k ep' d Hk Hd) as (ep & Hk0 & Hd0 & ->). destruct (G8 k ep d Hk0 Hd0) as [?|[?|[?|[?|?]]]].
    + by left.
    + right. left. by apply Ht.
    + right. right. left. by rewrite Hq.
    + congruence.
    + by repeat right.
  - intros c t k Hc Hk. destruct (G9 c t k Hc Hk) as [Hn1 Hn2]. split.
    + apply eq_None_not_Some. intros Hs. destruct (P8 k Hs) as [Hi|Hi]; [|by rewrite Hn1 in Hi; apply is_Some_None in Hi].
      destruct (HK k Hi) as [Hi'|?]; [by rewrite Hn1 in Hi'; apply is_Some_None in Hi'|done].
    + intros Hi. destruct (Hns k Hi) as [_ Hf]. by apply (Hf c t).
  - intros k Hk. by apply Hns.
Qed.

(** The tick being handled need not be awaited. *)
Lemma good_ticked n a k g w nx ts :
  good n a (Some (k, g)) w nx ts →
  (∀ ep d, endpoints (st w) !! k = Some ep → timer_deadline ep = Some d → timer_generation ep ≠ g) → good n a None w nx ts.
Proof.
  intros [G1 G2 G3 G4 G5 G6 G7 G8 G9 G10 G11 G12] Hx. split; try done. intros j ep d Hj Hd. destruct (G8 j ep d Hj Hd) as [[= <- Hg]|?]; [|by right].
  by destruct (Hx ep d Hj Hd).
Qed.

(** ** Driving *)

Lemma good_drive n a X w direct k ts now :
  good n a X w (NDrive direct k) ts → timer direct = None →
  ∃ s' o', drive (config w) k now (st w) = Some (s', o') ∧
    good n (λ x, a x - drive_forgets x (config w) k now (st w)) X (set_st s' w) (NEmit (extend direct o')) ts.
Proof.
  intros [G1 G2 G3 [G4 G4'] [G5 G5'] G6 G7 G8 G9 G10 G11 G12] Htd. destruct G1 as (Hs & Hb & Hg).
  destruct (drive_drives (config w) k now (st w) Hs) as (s' & o' & Hd & [D1 D2 D3 [D4 D4'] D5 D6 D7 D8 D9 D10]).
  exists s', o'. split; [done|]. destruct (shakes_le (st w) s') as [Hz1 Hz2].
  { intros id c' Hc'. destruct (D5 id c' Hc') as (c & Hc & Hst). exists c. split; [done|apply Hst]. }
  assert (Hep : ∀ j ep', endpoints s' !! j = Some ep' → ∃ ep, endpoints (st w) !! j = Some ep).
  { intros j ep' Hj. destruct (decide (j = k)) as [->|Hne]; [destruct (D8 ep' Hj) as (ep & ? & _); eauto|].
    specialize (D7 j Hne). rewrite Hj in D7. destruct (endpoints (st w) !! j); [eauto|done]. }
  unfold handshake_count in *. cbn in *. split; cbn; try done.
  - split_and!; [done|by apply D2|]. intros id c' Hc'. destruct (D5 id c' Hc') as (c & Hc & Hst). destruct (Hg id c Hc). split; by apply Hst.
  - lia.
  - intros x Hx. rewrite replied_app. specialize (G3 x Hx). specialize (D10 x). lia.
  - rewrite D4, D4'. done.
  - unfold handshake_count. cbn. lia.
  - intros j ep' i id c t _ Hj Hi Hc Ht. destruct (decide (j = k)) as [->|Hne]; [by eapply D9|].
    specialize (D7 j Hne). rewrite Hj in D7. destruct (endpoints (st w) !! j) as [ep|] eqn:Hj0; cbn in D7; [|done]. rewrite D7 in Hi |- *. cbn in *.
    apply (G7 j ep i id c t); try done; [set_solver|]. rewrite <-Hc. symmetry. apply D6. intros (ep2 & i2 & Hk2 & Hi2).
    destruct (sn_handle _ Hs k ep2 i2 id Hk2 Hi2) as (c2 & ? & ?). destruct (sn_handle _ Hs j ep i id Hj0 Hi) as (c3 & ? & ?). congruence.
  - intros j ep' d Hj Hdl. unfold watched. cbn. destruct (decide (j = k)) as [->|Hne].
    + destruct (D8 ep' Hj) as (ep & Hk0 & _ & _ & [[Hd1 Hg1]|Hnew]).
      * rewrite Hg1. destruct (G8 k ep d Hk0 ltac:(congruence)) as [?|[?|[?|[?|?]]]]; [by left|by right; left|by right; right; left|done|by repeat right].
      * destruct (Hnew d Hdl) as (ms & ->). right. right. right. left. done.
    + specialize (D7 j Hne). rewrite Hj in D7. destruct (endpoints (st w) !! j) as [ep|] eqn:Hj0; cbn in D7; [|done]. rewrite D7 in Hdl |- *. cbn in *.
      destruct (G8 j ep d Hj0 Hdl) as [?|[?|[?|[?|?]]]]; [by left|by right; left|by right; right; left|done|by repeat right].
  - intros c t j Hc Hj. destruct (G9 c t j Hc Hj) as [Hn _]. split; [|set_solver]. apply eq_None_not_Some. intros [ep' Hj']. destruct (Hep j ep' Hj'). congruence.
Qed.

(** ** Sending *)

Lemma tell_outs c w x : answered x (outs (tell c w)) = answered x (outs w).
Proof. unfold tell. destruct (net_up w); [|done]. cbn. rewrite quic_answered_app. unfold answered at 2. cbn. lia. Qed.

Lemma reply_outs p a w x : x.2 ≠ 0 → answered x (outs (reply p a w)) = answered x (outs w) + is_caller x p.
Proof.
  intros Hx. unfold reply. case_decide as Hz.
  - assert (is_caller x p = 0) as ->; [|lia]. unfold is_caller. case_decide as Hp; [|done]. subst x. cbn in Hx. congruence.
  - cbn. rewrite quic_answered_app. unfold answered at 2. cbn. lia.
Qed.

(** The world but for what is sent. *)
Definition quiet (w w' : W) : Prop :=
  st w' = st w ∧ config w' = config w ∧ net_up w' = net_up w ∧ timers w' = timers w ∧ posted w' = posted w ∧ panicked w' = panicked w.

Lemma tell_quiet c w : quiet w (tell c w).
Proof. unfold tell. by destruct (net_up w). Qed.

Lemma reply_quiet p a w : quiet w (reply p a w).
Proof. unfold reply. by case_decide. Qed.

Lemma quiet_trans w1 w2 w3 : quiet w1 w2 → quiet w2 w3 → quiet w1 w3.
Proof. intros (?&?&?&?&?&?) (?&?&?&?&?&?). split_and!; congruence. Qed.

Lemma shutdowns_quiet ks w : quiet w (fold_left (λ w k, net_shutdown k w) ks w) ∧ ∀ x, answered x (outs (fold_left (λ w k, net_shutdown k w) ks w)) = answered x (outs w).
Proof.
  revert w. induction ks as [|k ks IH]; intros w; cbn [fold_left]; [done|]. destruct (IH (net_shutdown k w)) as [I1 I2].
  split; [eapply quiet_trans; [apply tell_quiet|exact I1]|]. intros x. rewrite I2. apply tell_outs.
Qed.

Lemma events_quiet es w :
  quiet w (fold_left (λ w e, out (OEmit (oe_owner e) (oe_event e)) w) es w) ∧
  ∀ x, answered x (outs (fold_left (λ w e, out (OEmit (oe_owner e) (oe_event e)) w) es w)) = answered x (outs w).
Proof.
  revert w. induction es as [|e es IH]; intros w; cbn [fold_left]; [done|]. destruct (IH (out (OEmit (oe_owner e) (oe_event e)) w)) as [I1 I2].
  split; [eapply quiet_trans; [|exact I1]; done|]. intros x. rewrite I2. cbn. rewrite quic_answered_app. unfold answered at 2. cbn. lia.
Qed.

Lemma replies_quiet rs w :
  quiet w (fold_left (λ w pa, reply pa.1 pa.2 w) rs w) ∧
  ∀ x, x.2 ≠ 0 → answered x (outs (fold_left (λ w pa, reply pa.1 pa.2 w) rs w)) = answered x (outs w) + replied x rs.
Proof.
  revert w. induction rs as [|[p a] rs IH]; intros w; cbn [fold_left fst snd]; [split; [done|]; intros x _; unfold replied; cbn; lia|].
  destruct (IH (reply p a w)) as [I1 I2]. split; [eapply quiet_trans; [apply reply_quiet|exact I1]|].
  intros x Hx. rewrite I2, reply_outs by done. unfold replied. cbn. lia.
Qed.

Lemma emit_rest_effect o w :
  let w' := emit_rest o w in
  st w' = st w ∧ config w' = config w ∧ posted w' = posted w ∧ panicked w' = panicked w ∧
  timers w' = timers w ++ from_option (λ t, [Tick (ta_socket t) (ta_generation t)]) [] (timer o) ∧
  ∀ x, x.2 ≠ 0 → answered x (outs w') = answered x (outs w) + replied x (replies o).
Proof.
  cbn zeta. unfold emit_rest. destruct (shutdowns_quiet (close_sockets o) w) as [(A1&A2&A3&A4&A5&A6) A7]. set (w1 := fold_left _ (close_sockets o) w) in *.
  destruct (events_quiet (events o) w1) as [(B1&B2&B3&B4&B5&B6) B7]. set (w2 := fold_left _ (events o) w1) in *.
  destruct (replies_quiet (replies o) w2) as [(C1&C2&C3&C4&C5&C6) C7]. set (w3 := fold_left _ (replies o) w2) in *. clearbody w1 w2 w3.
  destruct (timer o) as [t|]; cbn [from_option st config posted panicked timers outs set_timers]; rewrite ?app_nil_r;
    (split_and!; try congruence; intros x Hx; rewrite C7, B7, A7 by done; done).
Qed.

Lemma good_emit n a X w o ts c :
  good n a X w (NEmit o) ts → ts !! c = None →
  let s' := settle c (emit o w) (mkSys w ts) in good n a X (world s') NDone (tasks s').
Proof.
  intros [G1 G2 G3 [G4 G4'] G5 G6 G7 G8 G9 G10 G11 G12] Hc. unfold emit. destruct (packets o) as [|pk pks].
  - cbn [settle world tasks]. destruct (emit_rest_effect o w) as (E1&E2&E3&E4&E5&E6). cbn in *. split; rewrite ?E1, ?E2; try done.
    + intros x Hx. rewrite E6 by done. specialize (G3 x Hx). cbn. lia.
    + congruence.
    + intros k ep d Hk Hd. unfold watched. rewrite E5, E3. destruct (G8 k ep d Hk Hd) as [?|[?|[?|[Ht|?]]]].
      * by left.
      * right. left. set_solver.
      * by right; right; left.
      * right. left. cbn in Ht. destruct (timer o) as [t|]; [|done]. cbn in Ht. injection Ht as <- <-. cbn. set_solver.
      * by repeat right.
  - cbn [settle world tasks]. destruct (tell_quiet (NetService.CUdpSendWait (pk_socket pk) (Some (pk_destination pk)) (pk_data pk)) w) as (E1&E2&E3&E4&E5&E6).
    split; rewrite ?E1, ?E2, ?E6; try done.
    + intros x Hx. rewrite tell_outs, map_sum_insert, Hc. specialize (G3 x Hx). cbn in *. lia.
    + rewrite map_sum_insert, Hc. cbn in *. lia.
    + intros k ep d Hk Hd. unfold watched. rewrite E4, E5. destruct (G8 k ep d Hk Hd) as [?|[?|[?|[Ht|(c' & t & Ht & Hti)]]]].
      * by left.
      * by right; left.
      * by right; right; left.
      * right. right. right. right. exists c. eexists. by rewrite lookup_insert_eq.
      * right. right. right. right. exists c', t. rewrite lookup_insert_ne by congruence. done.
    + intros c' t k. rewrite lookup_insert_Some. intros [[<- <-]|[Hne Ht]] Hk; [set_solver|]. split; [by apply (G9 c' t k)|set_solver].
    + intros c1 c2 t1 t2 k. rewrite !lookup_insert_Some. intros [[<- <-]|[_ Ht1]] [[<- <-]|[_ Ht2]]; set_solver.
Qed.

Definition sys_good (n : Z) (a : Z * Z → Z) (s : Sys) : Prop := good n a None (world s) NDone (tasks s).

Lemma good_wait n a w t ts c :
  good n a None w (NWait t) ts → ts !! c = None → good n a None w NDone (<[c := t]> ts).
Proof.
  intros [G1 G2 G3 [G4 G4'] G5 G6 G7 G8 G9 G10 G11 G12] Hc. split; try done.
  - intros x Hx. rewrite map_sum_insert, Hc. specialize (G3 x Hx). cbn in *. lia.
  - rewrite map_sum_insert, Hc. cbn in *. lia.
  - intros k ep d Hk Hd. destruct (G8 k ep d Hk Hd) as [?|[?|[?|[Ht|(c' & t' & Ht & Hti)]]]].
    + by left.
    + by right; left.
    + by right; right; left.
    + right. right. right. right. exists c, t. by rewrite lookup_insert_eq.
    + right. right. right. right. exists c', t'. rewrite lookup_insert_ne by congruence. done.
  - intros c' t' k. rewrite lookup_insert_Some. intros [[<- <-]|[Hne Ht]] Hk; (split; [|set_solver]); [by apply G11|by apply (G9 c' t' k)].
  - intros c1 c2 t1 t2 k. rewrite !lookup_insert_Some. intros [[<- <-]|[_ Ht1]] [[<- <-]|[_ Ht2]] Hk1 Hk2; try done.
    + by destruct (G9 _ _ _ Ht2 Hk2).
    + by destruct (G9 _ _ _ Ht1 Hk1).
    + by eapply G10.
Qed.

(** What a handler forgets when it goes on. *)
Definition next_forgets (x : Z * Z) (now : Z) (wn : W * Next) : Z :=
  match wn.2 with NDrive _ k => drive_forgets x (config wn.1) k now (st wn.1) | _ => 0 end.

Definition plain (nx : Next) : Prop := match nx with NDrive direct _ => timer direct = None | _ => True end.

Lemma good_ext n n' a a' X w nx ts : n ≤ n' → (∀ x, x.2 ≠ 0 → a x = a' x) → good n a X w nx ts → good n' a' X w nx ts.
Proof. intros Hn Ha [G1 G2 G3 G4 G5 G6 G7 G8 G9 G10 G11 G12]. split; try done; [lia|]. intros x Hx. rewrite <-Ha by done. auto. Qed.

Lemma good_follow n a w nx ts c now :
  good n a None w nx ts → plain nx → ts !! c = None →
  sys_good n (λ x, a x - next_forgets x now (w, nx)) (settle c (follow now (w, nx)) (mkSys w ts)).
Proof.
  intros HG Hp Hc. unfold sys_good. destruct nx as [|t|o|direct k]; cbn [follow].
  - eapply good_ext; [done| |exact HG]. intros x _. cbn. lia.
  - eapply good_ext; [done| |exact (good_wait _ _ _ _ _ c HG Hc)]. intros x _. cbn. lia.
  - eapply good_ext; [done| |exact (good_emit _ _ _ _ _ _ c HG Hc)]. intros x _. cbn. lia.
  - destruct (good_drive n a None w direct k ts now HG Hp) as (s' & o' & Hd & HG'). rewrite Hd. cbn [next_forgets fst snd].
    exact (good_emit _ _ _ _ _ _ c HG' Hc).
Qed.

(** ** Handlers *)

Lemma one_none : one None = ∅.
Proof. done. Qed.

(** A handler that leaves the state alone. *)
Lemma good_same n a X w nx ts g ask w' nx' :
  good n a X w nx ts → quiet w w' → (∀ x, x.2 ≠ 0 → answered x (outs w') = answered x (outs w) + g x) →
  (∀ x, x.2 ≠ 0 → g x + next_waits x nx' = next_waits x nx + ask x) →
  next_driven nx = ∅ → next_timer nx = None → next_conn nx' = next_conn nx →
  (∀ k, k ∈ next_socket nx' → endpoints (st w') !! k = None ∧ ∀ c t, ts !! c = Some t → k ∉ task_socket t) →
  good (n + 1) (λ x, a x + ask x) X w' nx' ts.
Proof.
  intros HG (Q1 & Q2 & Q3 & Q4 & Q5 & Q6) Ho Ha Hd Ht Hc Hs.
  eapply (good_phase n a X w nx ts None ∅ 0 0 (λ _, 0) g); try done; rewrite ?Q1, ?Q2, ?Q4; try done; try lia.
  apply sphase_same, HG.
Qed.

Lemma good_reply n a X w nx ts p r ask w' :
  good n a X w nx ts → quiet w w' → (∀ x, answered x (outs w') = answered x (outs w)) →
  (∀ x, x.2 ≠ 0 → is_caller x p = next_waits x nx + ask x) → next_driven nx = ∅ → next_timer nx = None → next_conn nx = 0 →
  good (n + 1) (λ x, a x + ask x) X (reply p r w') NDone ts.
Proof.
  intros HG Hq Ho Ha Hd Ht Hc. eapply (good_same n a X w nx ts (λ x, is_caller x p)); try done.
  - eapply quiet_trans; [exact Hq|apply reply_quiet].
  - intros x Hx. rewrite reply_outs, Ho by done. done.
  - intros x Hx. cbn. rewrite Ha by done. lia.
Qed.

(** A handler that goes on to wait. *)
Lemma good_tell n a X w nx ts c t ask :
  good n a X w nx ts → (∀ x, x.2 ≠ 0 → task_waits x t = next_waits x nx + ask x) →
  next_driven nx = ∅ → next_timer nx = None → conn_task t = next_conn nx →
  (∀ k, k ∈ task_socket t → endpoints (st w) !! k = None ∧ ∀ c t, ts !! c = Some t → k ∉ task_socket t) →
  good (n + 1) (λ x, a x + ask x) X (tell c w) (NWait t) ts.
Proof.
  intros HG Ha Hd Ht Hc Hs. destruct (tell_quiet c w) as (Q1 & Q). eapply (good_same n a X w nx ts (λ _, 0)); try done.
  - intros x _. rewrite tell_outs. lia.
  - intros k Hk. rewrite Q1. by apply Hs.
Qed.

Lemma listen_good n a X w ts p o :
  good n a X w NDone ts → good (n + 1) (λ x, a x + is_caller x p) X (listen p o w).1 (listen p o w).2 ts.
Proof.
  intros HG. unfold listen. destruct (server_proto_config o) as [sc|e]; cbn [fst snd].
  - by apply (good_tell n a X w NDone ts).
  - by apply (good_reply n a X w NDone ts).
Qed.

Lemma connect_good n a X w ts p o :
  good n a X w NDone ts → good (n + 1) (λ x, a x + is_caller x p) X (connect p o w).1 (connect p o w).2 ts.
Proof.
  intros HG. unfold connect. destruct (client_proto_config o) as [cc|e]; [|by apply (good_reply n a X w NDone ts)].
  unfold reserve_connect. destruct (has_connection_capacity (config w) (st w)) eqn:Hcap; [|by apply (good_reply n a X w NDone ts)].
  cbn [fst snd]. match goal with |- context [tell ?cmd ?v] => set (c := cmd); set (w1 := v) end.
  destruct (tell_quiet c w1) as (Q1 & Q2 & Q3 & Q4 & Q5 & Q6).
  eapply (good_phase n a X w NDone ts None ∅ 0 1 (λ _, 0) (λ _, 0)); rewrite ?Q1, ?Q2, ?Q4, ?Q5, ?Q6; try done; try lia.
  - apply sphase_reserve, HG.
  - intros x _. rewrite tell_outs. cbn. lia.
  - by right.
Qed.

Lemma release_eq n a X w nx ts : good n a X w nx ts → next_conn nx = 1 → release_connect (st w) = set_reserved (reserved_connections (st w) + -1) (reserved_handshakes (st w) + -1) (st w).
Proof.
  intros HG Hn. destruct (g_res _ _ _ _ _ _ HG) as [H1 H2]. pose proof (map_sum_nonneg conn_task ts conn_task_nonneg).
  unfold release_connect, saturating_sub. f_equal; lia.
Qed.

Lemma connect_failed_good n a X w nx ts p k e ask :
  good n a X w nx ts → next_conn nx = 1 → next_driven nx = ∅ → next_timer nx = None → (∀ x, x.2 ≠ 0 → is_caller x p = next_waits x nx + ask x) →
  good (n + 1) (λ x, a x + ask x) X (connect_failed p k e w) NDone ts.
Proof.
  intros HG Hn Hd Ht Ha. pose proof (release_eq _ _ _ _ _ _ HG Hn) as Hrel. unfold connect_failed. set (w1 := on_st release_connect w).
  assert (Hq : quiet w1 (reply p (AFailed e) (match k with Some k => net_shutdown k w1 | None => w1 end)) ∧
    ∀ x, x.2 ≠ 0 → answered x (outs (reply p (AFailed e) (match k with Some k => net_shutdown k w1 | None => w1 end))) = answered x (outs w1) + is_caller x p).
  { split; [eapply quiet_trans; [|apply reply_quiet]; destruct k; [apply tell_quiet|done]|].
    intros x Hx. rewrite reply_outs by done. destruct k; [|done]. unfold net_shutdown. by rewrite tell_outs. }
  destruct Hq as [(Q1 & Q2 & Q3 & Q4 & Q5 & Q6) Ho].
  eapply (good_phase n a X w nx ts None ∅ 0 (-1) (λ _, 0) (λ x, is_caller x p)); rewrite ?Q1, ?Q2, ?Q4, ?Q5, ?Q6; try done; try lia.
  - cbn. rewrite Hrel. apply sphase_reserve, HG.
  - intros x Hx. cbn. rewrite Ha by done. lia.
  - cbn. lia.
Qed.

Lemma connection_id_eq s : 0 ≤ next_connection s → next_connection s + 1 < 2 ^ 64 →
  connection_id s = (next_connection s + 1, mkState (next_listener s) (next_connection s + 1) (endpoints s) (connections s) (reserved_connections s) (reserved_handshakes s)).
Proof. intros H1 H2. unfold connection_id. rewrite Z.mod_small by lia. rewrite Z.max_r by lia. done. Qed.

Lemma new_connection_ok id k q o lis loc st p : conn_ok (new_connection id k q o lis loc st p).
Proof. split; [split; cbn; [by rewrite map_sum_empty|apply map_Forall_empty]|done]. Qed.

Lemma new_connection_waits x id k q o lis loc st p : waits x (new_connection id k q o lis loc st p) = opt x p.
Proof. unfold waits. cbn. rewrite !map_sum_empty. lia. Qed.

Lemma connected_good n a X w ts cc o p k loc peer now :
  good n a X w (NWait (TConnectInfo cc o p k)) ts → n + 1 < 2 ^ 64 →
  let r := connected cc o p k loc peer now w in good (n + 1) (λ x, a x + 0) X r.1 r.2 ts ∧ plain r.2.
Proof.
  intros HG Hn. cbn zeta. unfold connected. destruct (endpoint_connect _ _ _ _ _) as [ep [[h q]|e]].
  2:{ cbn [fst snd]. split; [|done]. eapply connect_failed_good; try done. intros x Hx. cbn. lia. }
  pose proof (release_eq _ _ _ _ _ _ HG eq_refl) as Hrel. pose proof (sn_next _ (proj1 (g_up _ _ _ _ _ _ HG))) as Hp. pose proof (g_next _ _ _ _ _ _ HG) as Hb.
  rewrite Hrel, connection_id_eq by (cbn; lia). cbn [fst snd]. split; [|done].
  pose proof (g_mine _ _ _ _ _ _ HG k ltac:(cbn; set_solver)) as Hk.
  match goal with |- context [set_st ?v w] => set (s' := v) end. set (c := new_connection (next_connection (st w) + 1) k q (p_source p) None loc true (Some p)).
  eapply (good_phase n a X w (NWait (TConnectInfo cc o p k)) ts (Some k) {[k]} 1 (-1) (λ x, waits x c) (λ _, 0)); try exact HG; try done; try lia.
  - eapply (sphase_add k _ h (next_connection (st w) + 1) c); try done; [apply HG|by rewrite Hk|by rewrite Hk|].
    intros d [=].
  - cbn. set_solver.
  - intros x _. cbn. lia.
  - intros x _. unfold c. rewrite new_connection_waits. cbn. unfold replied, opt. cbn. lia.
  - intros j Hj. by right.
Qed.

Lemma connect_timeout_good n a X w ts id now :
  good n a X w NDone ts →
  let r := connect_timeout id now w in good (n + 1) (λ x, a x + 0) X r.1 r.2 ts ∧ plain r.2.
Proof.
  intros HG. cbn zeta. unfold connect_timeout.
  assert (Hnone : good (n + 1) (λ x, a x + 0) X w NDone ts) by (eapply good_ext; [| |exact HG]; [lia|intros; lia]).
  destruct (connections (st w) !! id) as [c|] eqn:Hc; [|done]. destruct (connect_pending c) as [p|] eqn:Hp; [|done].
  destruct (negb _); [done|]. cbn [fst snd]. split; [|done]. set (q := conn_close _ _ _ _). set (c' := set_connect_pending None _).
  assert (Hst : conn_step c c') by (split; try done; apply rtc_once; constructor).
  assert (Hw : ∀ x, waits x c' = waits x c - is_caller x p) by (intros x; unfold waits; cbn; rewrite Hp; unfold opt; cbn; lia). clearbody c'.
  destruct (reply_quiet p (AFailed "timeout") (on_st (put id c') w)) as (Q1 & Q2 & Q3 & Q4 & Q5 & Q6). rewrite (cs_socket _ _ Hst).
  eapply (good_phase n a X w NDone ts (Some (endpoint_socket c)) ∅ 0 0 (λ x, waits x c' - waits x c) (λ x, is_caller x p));
    rewrite ?Q1, ?Q2, ?Q4, ?Q5, ?Q6; try done; try lia.
  - apply sphase_put; [apply HG|done|done].
  - intros x Hx. rewrite reply_outs by done. done.
  - intros x _. rewrite Hw. cbn. unfold replied. cbn. lia.
Qed.

Lemma tick_good n a X w ts k g now :
  good n a X w NDone ts →
  let r := tick k g now w in good (n + 1) (λ x, a x + 0) X r.1 r.2 ts ∧ plain r.2 ∧
    ∀ ep d, endpoints (st r.1) !! k = Some ep → timer_deadline ep = Some d → timer_generation ep ≠ g.
Proof.
  intros HG. cbn zeta. unfold tick.
  assert (Hnone : good (n + 1) (λ x, a x + 0) X w NDone ts) by (eapply good_ext; [| |exact HG]; [lia|intros; lia]).
  destruct (endpoints (st w) !! k) as [ep|] eqn:Hk; [|by split_and!; cbn; try done; intros ep d; rewrite Hk].
  case_decide as Hg; [|split_and!; try done; cbn; intros ep2 d; rewrite Hk; by intros [= <-]].
  cbn [fst snd]. split_and!; [|done|].
  - eapply (good_phase n a X w NDone ts (Some k) ∅ 0 0 (λ _, 0) (λ _, 0)); try done; try lia.
    + apply sphase_tick; [apply HG|done].
    + intros x _. cbn. lia.
  - cbn. intros ep2 d. rewrite lookup_insert_eq. by intros [= <-].
Qed.

Definition internal (c : Command) : bool := match c with Tick _ _ | ConnectTimeout _ => true | _ => false end.

Lemma on_command_good n a X w ts p c now :
  good n a X w NDone ts →
  let r := on_command p c now w in good (n + 1) (λ x, a x + asks x p c) X r.1 r.2 ts ∧ plain r.2.
Proof.
  intros HG. cbn zeta.
  assert (Hother : ∀ r, perform (config w) p c now (st w) output_default = Some r →
    let v := match r with (s, o, Some k) => (set_st s w, NDrive o k) | (s, o, None) => (set_st s w, NEmit o) end in
    good (n + 1) (λ x, a x + asks x p c) X v.1 v.2 ts ∧ plain v.2).
  { intros [[s o] ko] Hr. pose proof (perform_performed _ _ _ _ _ _ (g_up _ _ _ _ _ _ HG) Hr) as (h & Hs & Ha & Ht). cbn [fst snd] in *.
    destruct ko as [k|]; cbn zeta iota; cbn [fst snd]; (split; [|done]).
    - eapply (good_phase n a X w NDone ts (Some k) ∅ 0 0 h (λ _, 0)); try done; try lia; [intros x _; cbn; lia|].
      intros x _. rewrite <-Ha. cbn. lia.
    - eapply (good_phase n a X w NDone ts None ∅ 0 0 h (λ _, 0)); try done; try lia; [intros x _; cbn; lia|].
      intros x _. rewrite <-Ha. cbn. lia. }
  destruct c; try (cbn [on_command]; destruct (perform (config w) p _ now (st w) output_default) as [[[s o] ko]|] eqn:Hr; [|done];
    specialize (Hother _ eq_refl); by destruct ko).
  - split; [by apply listen_good|]. cbn. unfold listen. by destruct (server_proto_config o).
  - split; [by apply connect_good|]. cbn. unfold connect. destruct (client_proto_config o); [|done]. by destruct (reserve_connect _ _).
  - destruct (tick_good n a X w ts socket generation now HG) as (? & ? & _). done.
  - by apply connect_timeout_good.
Qed.

(** ** Socket events *)

(** The handle of a connection to be accepted is not in use. *)
Definition handle_free (k : SocketId) (from : SocketAddr) (data : list Z) (now : Z) (s : State) : bool :=
  match endpoints s !! k with
  | None => true
  | Some ep =>
      match endpoint_handle (endpoint ep) now from data with
      | (e, buffer, Some (inr (inl inc))) =>
          match endpoint_accept e inc now buffer with
          | (_, _, inl (h, _)) => bool_decide (e_connections ep !! h = None)
          | _ => true
          end
      | _ => true
      end
  end.

Lemma endpoint_moves k ep e s : endpoints s !! k = Some ep → upright s → sphase (Some k) ∅ 0 0 (λ _, 0) s (put_endpoint k (set_endpoint e ep) s).
Proof. intros Hk Hu. eapply sphase_endpoint; [by apply sphase_same|exact Hk|done]. Qed.

Lemma on_datagram_good n a X w ts k from data now ep :
  good n a X w NDone ts → n + 1 < 2 ^ 64 → endpoints (st w) !! k = Some ep → handle_free k from data now (st w) = true →
  ∃ ep' s direct, on_datagram k ep from data now w = Some (ep', s, direct) ∧
    good (n + 1) (λ x, a x + 0) X (set_st (put_endpoint k ep' s) w) (NDrive direct k) ts ∧ timer direct = None.
Proof.
  intros HG Hn Hk Hfree. pose proof (g_up _ _ _ _ _ _ HG) as Hu.
  assert (Hmove : ∀ e direct, replies direct = [] → good (n + 1) (λ x, a x + 0) X (set_st (put_endpoint k (set_endpoint e ep) (st w)) w) (NDrive direct k) ts).
  { intros e direct Hd. eapply (good_phase n a X w NDone ts (Some k) ∅ 0 0 (λ _, 0) (λ _, 0)); try done; try lia.
    - by apply endpoint_moves.
    - intros x _. cbn. lia.
    - intros x _. cbn. by rewrite Hd. }
  unfold handle_free in Hfree. rewrite Hk in Hfree. unfold on_datagram.
  destruct (endpoint_handle (endpoint ep) now from data) as [[e b] [[[h ev]|[inc|t]]|]] eqn:Hh.
  - destruct (e_connections ep !! h) as [id|] eqn:Hid; cbn [mbind option_bind]; [|eexists _, _, _; split_and!; [done|by apply Hmove|done]].
    destruct (connections (st w) !! id) as [c|] eqn:Hc; cbn [fmap option_fmap option_map]; [|eexists _, _, _; split_and!; [done|by apply Hmove|done]].
    eexists _, _, _. split_and!; [done| |done]. destruct (sn_handle _ (proj1 Hu) k ep h id Hk Hid) as (c0 & Hc0 & Hs0). assert (c0 = c) as -> by congruence.
    eapply (good_phase n a X w NDone ts (Some k) ∅ 0 0 _ (λ _, 0)); try exact HG; try done; try lia.
    + eapply sphase_endpoint; [rewrite <-Hs0; apply (sphase_put id c); [done|done|]|exact Hk|done].
      apply (carries_step (c, output_default) (on_conn (handle_event (connection c) ev) (c, output_default))), move_carries. constructor.
    + intros x _. cbn. lia.
    + intros x _. cbn. unfold waits, replied. cbn. lia.
  - unfold on_incoming. cbn [e_listener set_endpoint endpoint].
    assert (Href : ∃ ep' s direct, (let '(e0, buffer, t) := endpoint_refuse e inc b in
        p ← packet k t buffer; Some (set_endpoint e0 (set_endpoint e ep), st w, push_packet p output_default)) = Some (ep', s, direct) ∧
      good (n + 1) (λ x, a x + 0) X (set_st (put_endpoint k ep' s) w) (NDrive direct k) ts ∧ timer direct = None).
    { destruct (endpoint_refuse e inc b) as [[e2 b2] t2] eqn:Hr. destruct (packet_total k t2 b2) as [pk ->]; [by eapply refuse_size|].
      cbn. eexists _, _, _. split_and!; [done|by apply (Hmove e2)|done]. }
    destruct (e_listener ep) as [l|]; [|exact Href]. destruct (has_connection_capacity (config w) (st w)) eqn:Hcap; [|exact Href].
    destruct (endpoint_accept e inc now b) as [[e2 b2] [[h q]|[t|]]] eqn:Ha.
    + pose proof (sn_next _ (proj1 Hu)) as Hp. pose proof (g_next _ _ _ _ _ _ HG) as Hb. rewrite connection_id_eq by lia.
      eexists _, _, _. split_and!; [done| |done]. apply bool_decide_eq_true in Hfree.
      match goal with |- context [put (next_connection (st w) + 1) ?v _] => set (c := v) end.
      eapply (good_phase n a X w NDone ts (Some k) {[k]} 1 0 (λ x, waits x c) (λ _, 0)); try exact HG; try done; try lia.
      * eapply (sphase_add k _ h (next_connection (st w) + 1) c); try done; cbn; rewrite ?Hk; try done; try lia.
        -- intros d Hd. eauto.
      * intros x _. cbn. lia.
      * by right.
      * intros j Hj. left. apply elem_of_singleton in Hj as ->. eauto.
    + destruct (packet_total k t b2) as [pk ->]; [by eapply accept_size|]. cbn. eexists _, _, _. split_and!; [done|by apply (Hmove e2)|done].
    + eexists _, _, _. split_and!; [done|by apply (Hmove e2)|done].
  - destruct (packet_total k t b) as [pk ->]; [by eapply handle_size|]. cbn. eexists _, _, _. split_and!; [done|by apply Hmove|done].
  - eexists _, _, _. split_and!; [done|by apply Hmove|done].
Qed.

Definition socket_free (e : NetService.SocketEvent) (now : Z) (s : State) : bool :=
  match e with NetService.EUdp k from data => handle_free k from data now s | _ => true end.

Lemma on_socket_good n a X w ts e now :
  good n a X w NDone ts → n + 1 < 2 ^ 64 → socket_free e now (st w) = true →
  let r := on_socket e now w in good (n + 1) (λ x, a x + 0) X r.1 r.2 ts ∧ plain r.2.
Proof.
  intros HG Hn Hf. cbn zeta.
  assert (Hnone : good (n + 1) (λ x, a x + 0) X w NDone ts) by (eapply good_ext; [| |exact HG]; [lia|intros; lia]).
  assert (Hgone : ∀ k reason, let r := endpoint_failed k reason w in good (n + 1) (λ x, a x + 0) X r.1 r.2 ts ∧ plain r.2).
  { intros k reason. cbn zeta. unfold endpoint_failed. destruct (fold_left _ _ _) as [s' o'] eqn:Hx.
    destruct (sphase_failed k reason (st w) s' o' (g_up _ _ _ _ _ _ HG) Hx) as (h & Hs & Ha & Ht). cbn [fst snd]. split; [|done].
    eapply (good_phase n a X w NDone ts None ∅ 0 0 h (λ _, 0)); try done; try lia; [intros x _; cbn; lia|]. intros x _. specialize (Ha x). cbn. lia. }
  destruct e as [| |k from data| | |]; cbn [on_socket NetService.is_gone]; try done.
  destruct (endpoints (st w) !! k) as [ep|] eqn:Hk; [|done].
  destruct (on_datagram_good n a X w ts k from data now ep HG Hn Hk Hf) as (ep' & s & direct & -> & HG' & Ht). done.
Qed.

(** ** Steps *)

Definition message_asks (x : Z * Z) (m : Message) (b : Body) : Z :=
  let p := mkPending (source m) (session m) in
  if decide (mtype m = MsgType.SOCKET) then 0 else
  match decide (mtype m ≠ MsgType.USER), b with
  | right _, BCommand c => asks x p c
  | _, _ => if needs_reply m then is_caller x p else 0
  end.

Definition message_free (m : Message) (b : Body) (now : Z) (s : State) : bool :=
  match b with BSocket e => socket_free e now s | _ => true end.

Lemma refuse_good n a w ts m :
  good n a None w NDone ts →
  good (n + 1) (λ x, a x + if needs_reply m then is_caller x (mkPending (source m) (session m)) else 0) None (refuse m w) NDone ts.
Proof.
  intros HG. unfold refuse. destruct (needs_reply m); [|eapply good_ext; [| |exact HG]; [lia|intros; lia]].
  eapply (good_same n a None w NDone ts (λ x, is_caller x (mkPending (source m) (session m)))); try done.
  - intros x _. cbn. rewrite quic_answered_app. unfold answered at 2. cbn. lia.
  - intros x _. cbn. lia.
Qed.

Lemma dispatch_good n a w ts m b now :
  good n a None w NDone ts → n + 1 < 2 ^ 64 → message_free m b now (st w) = true →
  let r := dispatch m b now w in good (n + 1) (λ x, a x + message_asks x m b) None r.1 r.2 ts ∧ plain r.2.
Proof.
  intros HG Hn Hf. cbn zeta. unfold dispatch, message_asks.
  assert (Hnone : good (n + 1) (λ x, a x + 0) None w NDone ts) by (eapply good_ext; [| |exact HG]; [lia|intros; lia]).
  destruct (decide (mtype m = MsgType.SOCKET)).
  - destruct b as [ev|cm|]; [|done|done]. by apply on_socket_good.
  - destruct (decide (mtype m ≠ MsgType.USER)); [split; [by apply refuse_good|done]|].
    destruct b as [ev|cm|]; [split; [by apply refuse_good|done]| |split; [by apply refuse_good|done]]. by apply on_command_good.
Qed.

(** The number of a new socket is in use nowhere. *)
Definition unused (k : SocketId) (s : Sys) : Prop := endpoints (st (world s)) !! k = None ∧ map_Forall (λ _ t, k ∉ task_socket t) (tasks s).

#[local] Instance quic_unused_dec k s : Decision (unused k s).
Proof. unfold unused. apply _. Defined.

Definition fresh (ev : Event) (s : Sys) : bool :=
  match ev with
  | EMessage _ m b now => message_free m b now (st (world s))
  | EResume _ (RSocket (inl k)) _ => bool_decide (unused k s)
  | _ => true
  end.

Lemma listening_good n a w ts sc p k loc :
  good n a None w (NWait (TListenInfo sc p k)) ts → good (n + 1) (λ x, a x + 0) None (listening sc p k loc w) NDone ts.
Proof.
  intros HG. unfold listening. destruct (is_some_and is_unspecified loc).
  - eapply (good_reply n a None w (NWait (TListenInfo sc p k)) ts); try done; [apply tell_quiet|intros x; apply tell_outs|intros x _; cbn; lia].
  - unfold listener_id. match goal with |- context [reply _ ?r (set_st ?v w)] => set (s' := v); set (ans := r) end.
    destruct (reply_quiet p ans (set_st s' w)) as (Q1 & Q2 & Q3 & Q4 & Q5 & Q6).
    eapply (good_phase n a None w (NWait (TListenInfo sc p k)) ts None {[k]} 0 0 (λ _, 0) (λ x, is_caller x p)); rewrite ?Q1, ?Q2, ?Q4, ?Q5, ?Q6; try done; try lia.
    + eapply (sphase_listening k); try done; [apply HG|apply (g_mine _ _ _ _ _ _ HG); cbn; set_solver].
    + intros x Hx. rewrite reply_outs by done. done.
    + intros j Hj. by right.
Qed.

Lemma quic_resume_good n a w t ts r now y :
  good n a None w (NWait t) ts → n + 1 < 2 ^ 64 →
  match r with RSocket (inl k) => endpoints (st w) !! k = None ∧ map_Forall (λ _ t, k ∉ task_socket t) ts | _ => True end →
  resume t r now w = Some y → good (n + 1) (λ x, a x + 0) None y.1 y.2 ts ∧ plain y.2.
Proof.
  intros HG Hn Hf Hr. 
  assert (Hnew : ∀ k, (endpoints (st w) !! k = None ∧ map_Forall (λ _ t, k ∉ task_socket t) ts) → ∀ j, j ∈ ({[k]} : gset SocketId) →
    endpoints (st w) !! j = None ∧ ∀ c t, ts !! c = Some t → j ∉ task_socket t).
  { intros k [H1 H2] j Hj. apply elem_of_singleton in Hj as ->. split; [done|]. intros c u Hu. by apply (H2 c u). }
  assert (Hmine : ∀ j, j ∈ task_socket t → endpoints (st w) !! j = None ∧ ∀ c u, ts !! c = Some u → j ∉ task_socket u).
  { intros j Hj. split; [by apply (g_mine _ _ _ _ _ _ HG)|]. intros c u Hu Hju. by destruct (g_fly _ _ _ _ _ _ HG c u j Hu Hju). }
  destruct t as [sc p|sc p k|cc o p|cc o p k|cc o p k|o], r as [[j|e]|[[[peer|] loc]|e]|[e|]]; cbn [resume] in Hr; try done; apply (inj Some) in Hr as <-; cbn [fst snd].
  - split; [|done]. eapply good_tell; try done; [intros; cbn; lia|]. by apply Hnew.
  - split; [|done]. eapply good_reply; try done. intros; cbn; lia.
  - split; [by apply listening_good|done].
  - split; [by apply listening_good|done].
  - split; [by apply listening_good|done].
  - destruct (co_bind o); (split; [|done]); (eapply good_tell; try done; [intros; cbn; lia|]; by apply Hnew).
  - split; [|done]. eapply connect_failed_good; try done. intros; cbn; lia.
  - split; [|done]. eapply connect_failed_good; try done. intros; cbn; lia.
  - split; [|done]. eapply good_tell; try done. intros; cbn; lia.
  - by apply connected_good.
  - split; [|done]. eapply connect_failed_good; try done. intros; cbn; lia.
  - split; [|done]. eapply connect_failed_good; try done. intros; cbn; lia.
  - split; [|done]. eapply good_ext; [| |destruct HG as [G1 G2 G3 G4 G5 G6 G7 G8 G9 G10 G11 G12]; split; try done]; [lia|intros; lia].
  - split; [|done]. eapply good_ext; [| |destruct HG as [G1 G2 G3 G4 G5 G6 G7 G8 G9 G10 G11 G12]; split; try done]; [lia|intros; lia].
Qed.

(** A suspended handler taken up again. *)
Lemma good_take n a w ts c t : good n a None w NDone ts → ts !! c = Some t → good n a None w (NWait t) (delete c ts).
Proof.
  intros [G1 G2 G3 [G4 G4'] G5 G6 G7 G8 G9 G10 G11 G12] Hc. split; try done.
  - intros x Hx. rewrite map_sum_delete, Hc. specialize (G3 x Hx). cbn in *. lia.
  - rewrite map_sum_delete, Hc. cbn in *. lia.
  - intros k ep d Hk Hd. destruct (G8 k ep d Hk Hd) as [?|[?|[?|[?|(c' & t' & Ht & Hti)]]]].
    + by left.
    + by right; left.
    + by right; right; left.
    + done.
    + destruct (decide (c' = c)) as [->|]; [right; right; right; left; cbn; congruence|]. right. right. right. right. exists c', t'. by rewrite lookup_delete_ne.
  - intros c' t' k. rewrite lookup_delete_Some. intros [Hne Ht] Hk. split; [by apply (G9 c' t' k)|]. cbn. intros Hk2. apply Hne. by eapply (G10 c c' t t').
  - intros c1 c2 t1 t2 k. rewrite !lookup_delete_Some. intros [_ Ht1] [_ Ht2]. by apply G10.
  - intros k Hk. by apply (G9 c t k).
Qed.

Definition event_asks (x : Z * Z) (ev : Event) : Z := match ev with EMessage _ m b _ => message_asks x m b | _ => 0 end.

(** The callers that a step forgets. *)
Definition forgets (x : Z * Z) (ev : Event) (s : Sys) : Z :=
  let w := world s in
  match ev with
  | EMessage _ m b now => next_forgets x now (dispatch m b now w)
  | EResume c r now => from_option (next_forgets x now) 0 (t ← tasks s !! c; resume t r now w)
  | EPosted _ k now => from_option (λ c, next_forgets x now (on_command (mkPending 0 0) c now (set_posted (delete k (posted w)) w))) 0 (posted w !! k)
  | _ => 0
  end.

Lemma asks_nobody x c : x.2 ≠ 0 → asks x (mkPending 0 0) c = 0.
Proof.
  intros Hx. assert (is_caller x (mkPending 0 0) = 0) as Hz.
  { unfold is_caller. cbn. case_decide as He; [|done]. subst x. done. }
  destruct c as [| | | | | | |? ? ? []| | | | | | | | | |]; cbn; done.
Qed.

Lemma quic_posted_good n a w ts c k now :
  good n a None w NDone ts → posted w !! k = Some c →
  let r := on_command (mkPending 0 0) c now (set_posted (delete k (posted w)) w) in
  good (n + 1) (λ x, a x + 0) None r.1 r.2 ts ∧ plain r.2.
Proof.
  intros HG Hk. cbn zeta. set (w1 := set_posted _ w).
  assert (Hmem : ∀ d, d ∈ posted w → d = c ∨ d ∈ delete k (posted w)).
  { intros d Hd. rewrite <-(take_drop_middle _ _ _ Hk) in Hd. rewrite delete_take_drop. set_solver. }
  set (X := match c with Tick j g => Some (j, g) | _ => None end).
  assert (HG1 : good n a X w1 NDone ts).
  { destruct HG as [G1 G2 G3 G4 G5 G6 G7 G8 G9 G10 G11 G12]. split; try done. intros j ep d Hj Hd. unfold watched. cbn.
    destruct (G8 j ep d Hj Hd) as [?|[?|[Hin|[?|?]]]]; [done|by right; left| |done|by repeat right].
    destruct (Hmem _ Hin) as [<-|?]; [by left|by right; right; left]. }
  assert (Hx : ∀ x, x.2 ≠ 0 → a x + asks x (mkPending 0 0) c = a x + 0) by (intros x Hx; by rewrite asks_nobody).
  destruct (on_command_good n a X w1 ts (mkPending 0 0) c now HG1) as [HG2 Hp]. split; [|done].
  eapply good_ext; [done|exact Hx|]. destruct c; try exact HG2. cbn [X] in HG2. apply good_ticked with (k := socket) (g := generation); [exact HG2|].
  apply (tick_good n a X w1 ts socket generation now HG1).
Qed.

Lemma quic_step_good n a ev s s' :
  sys_good n a s → n + 1 < 2 ^ 64 → fresh ev s = true → step ev s = Some s' →
  sys_good (n + 1) (λ x, a x + event_asks x ev - forgets x ev s) s'.
Proof.
  intros HG Hn Hf. unfold step. rewrite (g_panic _ _ _ _ _ _ HG). destruct s as [w ts]. cbn [world tasks] in *. destruct ev as [c m b now|c r now|k|c k now|up].
  - case_decide as Hc; [|done]. intros [= <-]. destruct (dispatch_good n a w ts m b now HG Hn Hf) as [HG1 Hp].
    cbn [event_asks forgets world]. destruct (dispatch m b now w) as [w1 nx]. exact (good_follow _ _ _ _ _ c now HG1 Hp Hc).
  - destruct (ts !! c) as [t|] eqn:Hc; [|done]. cbn [mbind option_bind]. destruct (resume t r now w) as [y|] eqn:Hr; [|done]. cbn. intros [= <-].
    destruct (quic_resume_good n a w t (delete c ts) r now y (good_take _ _ _ _ _ _ HG Hc) Hn) as [HG1 Hp]; [|done|].
    + destruct r as [[k|]| |]; try done. cbn in Hf. apply bool_decide_eq_true in Hf as [? ?]. split; [done|]. by apply map_Forall_delete.
    + unfold sys_good. cbn [event_asks forgets world tasks]. rewrite Hc. cbn [mbind option_bind]. rewrite Hr. cbn [from_option]. destruct y as [w1 nx].
      exact (good_follow _ _ _ _ _ c now HG1 Hp (lookup_delete_eq ts c)).
  - destruct (timers w !! k) as [c|] eqn:Hk; [|done]. cbn. intros [= <-]. cbn.
    eapply good_ext; [| |destruct HG as [G1 G2 G3 G4 G5 G6 G7 G8 G9 G10 G11 G12]; split; try done]; [lia|intros; cbn; lia|].
    intros j ep d Hj Hd. unfold watched. cbn. destruct (G8 j ep d Hj Hd) as [?|[Hin|[?|[?|?]]]]; [done| |right; right; left; set_solver|done|by repeat right].
    cbn in Hin. rewrite <-(take_drop_middle _ _ _ Hk) in Hin. rewrite delete_take_drop. right. set_solver.
  - case_decide as Hc; [|done]. destruct (posted w !! k) as [x|] eqn:Hk; [|done]. cbn. intros [= <-].
    destruct (quic_posted_good n a w ts x k now HG Hk) as [HG1 Hp]. cbn [forgets world]. rewrite Hk. cbn [from_option event_asks].
    destruct (on_command _ x now _) as [w1 nx]. exact (good_follow _ _ _ _ _ c now HG1 Hp Hc).
  - intros [= <-]. cbn. eapply good_ext; [| |destruct HG as [G1 G2 G3 G4 G5 G6 G7 G8 G9 G10 G11 G12]; split; try done]; [lia|intros; cbn; lia].
Qed.

(** ** Runs *)

(** Every new socket has a number that is not in use, every accepted connection a handle
    that its endpoint does not use. *)
Fixpoint orderly (evs : list Event) (s : Sys) : bool :=
  match evs with
  | [] => true
  | ev :: evs => fresh ev s && match step ev s with Some s => orderly evs s | None => true end
  end.

Fixpoint asked (x : Z * Z) (evs : list Event) : Z := match evs with [] => 0 | ev :: evs => event_asks x ev + asked x evs end.

(** The callers that drained connections took with them. *)
Fixpoint lost (x : Z * Z) (evs : list Event) (s : Sys) : Z :=
  match evs with
  | [] => 0
  | ev :: evs => forgets x ev s + match step ev s with Some s => lost x evs s | None => 0 end
  end.

Lemma quic_run_good evs n a s s' :
  sys_good n a s → n + Z.of_nat (length evs) < 2 ^ 64 → orderly evs s = true → run evs s = Some s' →
  sys_good (n + Z.of_nat (length evs)) (λ x, a x + asked x evs - lost x evs s) s'.
Proof.
  revert n a s. induction evs as [|ev evs IH]; intros n a s HG Hn Ho Hr; cbn in *.
  { injection Hr as <-. eapply good_ext; [| |exact HG]; [lia|intros; lia]. }
  apply andb_true_iff in Ho as [Hf Ho]. destruct (step ev s) as [s1|] eqn:Hs; [|done]. cbn in Hr.
  pose proof (quic_step_good n a ev s s1 HG ltac:(lia) Hf Hs) as HG1. pose proof (IH _ _ _ HG1 ltac:(lia) Ho Hr) as HG2.
  eapply good_ext; [| |exact HG2]; [lia|intros; cbn; lia].
Qed.

Lemma quic_sys_new_good up : 0 ≤ max_connections cf → 0 ≤ max_handshakes cf → sys_good 0 (λ _, 0) (sys_new cf up).
Proof.
  intros H1 H2. split; cbn; try done.
Qed.

(** The run of a service from its start. *)
Definition runs (up : bool) (evs : list Event) (s : Sys) : Prop :=
  run evs (sys_new cf up) = Some s ∧ orderly evs (sys_new cf up) = true ∧ Z.of_nat (length evs) < 2 ^ 64 ∧
  0 ≤ max_connections cf ∧ 0 ≤ max_handshakes cf.

Lemma runs_good up evs s :
  runs up evs s → sys_good (Z.of_nat (length evs)) (λ x, asked x evs - lost x evs (sys_new cf up)) s.
Proof.
  intros (Hr & Ho & Hn & H1 & H2).
  exact (good_ext _ _ _ _ _ _ _ _ (Z.le_refl _) (λ x _, eq_refl) (quic_run_good evs 0 _ _ s (quic_sys_new_good up H1 H2) Hn Ho Hr)).
Qed.

(** The handlers of [connect] that wait for the network service. *)
Definition connecting (s : Sys) : Z := map_sum conn_task (tasks s).

(** C29 The limits of the QUIC service hold in every run, also while any number of [connect]s
    wait for their sockets: the connections and the reservations together are within
    [max_connections], those in a handshake and the reservations within [max_handshakes], and
    there is one reservation for each [connect] under way. *)
Theorem quic_limits up evs s :
  runs up evs s →
  reserved_connections (st (world s)) = connecting s ∧ reserved_handshakes (st (world s)) = connecting s ∧
  Z.of_nat (size (connections (st (world s)))) + connecting s ≤ max_connections cf ∧
  Z.of_nat (size (handshaking (st (world s)))) + connecting s ≤ max_handshakes cf.
Proof.
  intros Hr. destruct (runs_good up evs s Hr) as [G1 G2 G3 [G4 G4'] [G5 G5'] G6 G7 G8 G9 G10 G11 G12].
  unfold connecting, handshake_count in *. rewrite G12 in *. cbn in *. lia.
Qed.

(** C30 The handlers of the QUIC service end and do not panic, and its tables agree.  The loops
    over the events, streams, chunks, datagrams and packets of [quinn_proto] come to an end,
    no packet is cut out of a buffer that does not hold it, and [perform] is never given the
    commands it declares unreachable.  Every connection is under its own number and is
    one of the handles of the endpoint of its socket, every handle of an endpoint is that of
    a connection on its socket, no connection has two handles, and every endpoint that is
    kept listens or has connections, so that the UDP socket of an endpoint out of use is let
    go.  [buffered_bytes] is the number of bytes that wait in the queues of a connection, and
    no event is held back from the owner of a connection that was started. *)
Theorem quic_tables_agree up evs s :
  runs up evs s →
  let es := endpoints (st (world s)) in
  let cs := connections (st (world s)) in
  panicked (world s) = false ∧
  (∀ id c, cs !! id = Some c →
     c_id c = id ∧ (∃ ep h, es !! endpoint_socket c = Some ep ∧ e_connections ep !! h = Some id) ∧
     buffered_bytes c = map_sum queue_bytes (writes c) ∧ (started c = true → queued_events c = [])) ∧
  (∀ k ep h id, es !! k = Some ep → e_connections ep !! h = Some id →
     (∃ c, cs !! id = Some c ∧ endpoint_socket c = k) ∧ ∀ h', e_connections ep !! h' = Some id → h' = h) ∧
  (∀ k ep, es !! k = Some ep → e_listener ep ≠ None ∨ e_connections ep ≠ ∅).
Proof.
  intros Hr es cs. destruct (g_up _ _ _ _ _ _ (runs_good up evs s Hr)) as (Hs & Hb & Hg). split_and!.
  - apply (g_panic _ _ _ _ _ _ (runs_good up evs s Hr)).
  - intros id c Hc. destruct (sn_conn _ Hs id c Hc) as (H1 & _ & H2). destruct (Hg id c Hc) as [[H3 _] H4]. done.
  - intros k ep h id Hk Hh. split; [by apply (sn_handle _ Hs k ep h)|]. intros h' Hh'. by apply (sn_once _ Hs k ep h' h id).
  - intros k ep Hk. by apply (Hb k).
Qed.

(** The callers of the service that wait for an answer. *)
Definition waiting (x : Z * Z) (s : Sys) : Z := map_sum (waits x) (connections (st (world s))) + map_sum (task_waits x) (tasks s).

(** C27 Every caller of the QUIC service is answered once: the calls of a session that were
    answered and those that wait, for a connection, for a write or a finish to go out, or in
    a handler, are those that were made, but for the calls whose connection was drained
    before they were answered. *)
Theorem quic_callers_answered up evs s x :
  runs up evs s → x.2 ≠ 0 → answered x (outs (world s)) + waiting x s = asked x evs - lost x evs (sys_new cf up).
Proof.
  intros Hr Hx. pose proof (g_account _ _ _ _ _ _ (runs_good up evs s Hr) x Hx) as Ha. unfold waiting. cbn in Ha. lia.
Qed.

(** Every timeout of a QUIC connection is attended to: the endpoint of the connection has
    a deadline no later than it, and a [Tick] of the present generation of its timer is
    sleeping, or posted, or in what a handler is about to send. *)
Theorem quic_timeouts_watched up evs s id c t :
  runs up evs s → connections (st (world s)) !! id = Some c → poll_timeout (connection c) = Some t →
  ∃ ep d, endpoints (st (world s)) !! endpoint_socket c = Some ep ∧ timer_deadline ep = Some d ∧ d ≤ t ∧
    (Tick (endpoint_socket c) (timer_generation ep) ∈ timers (world s) ∨ Tick (endpoint_socket c) (timer_generation ep) ∈ posted (world s) ∨
     ∃ call o ms, tasks s !! call = Some (TEmit o) ∧ timer o = Some (mkArm (endpoint_socket c) (timer_generation ep) ms)).
Proof.
  intros Hr Hc Ht. destruct (runs_good up evs s Hr) as [(Hs & Hb & Hg) G2 G3 G4 G5 G6 G7 G8 G9 G10 G11 G12].
  destruct (sn_conn _ Hs id c Hc) as (_ & _ & ep & h & Hk & Hh). destruct (G7 (endpoint_socket c) ep h id c t (not_elem_of_empty _) Hk Hh Hc Ht) as (d & Hd & Hle).
  exists ep, d. split_and!; try done. destruct (G8 _ ep d Hk Hd) as [?|[?|[?|[?|(call & u & Hu & Hti)]]]]; try done; eauto.
  right. right. destruct u as [| | | | |o]; try done. cbn in Hti. destruct (timer o) as [[k g ms]|] eqn:Ho; [|done]. cbn in Hti. injection Hti as -> ->. eauto.
Qed.
End runs.
End QuicRun.
