(* ===== verification/QuicStreams.v ===== *)
(** * The bytes of QUIC streams

    What is written to a stream of [quinn_proto] is what its senders gave the service, in
    order, although a command that sends writes at once and does not look at the queue. *)
From S2P Require Import Prelude Message NetBuffer NetSocket NetService QuicService QuicBooks QuicRun.
From stdpp Require Import strings.
#[local] Open Scope Z_scope.

Module QuicStreams.
Import NetSocket(SocketId, Pending, mkPending, p_source, p_session).
Import QuicService QuicBooks QuicRun.

(** A call that changes a connection and does not write. *)
Inductive still `{QuicEngine} (q : QConn) : QConn → Prop :=
  | s_event e : still q (handle_event q e)
  | s_timeout now : still q (handle_timeout q now)
  | s_endpoint : still q (poll_endpoint_events q).1
  | s_poll : still q (poll q).1
  | s_transmit now buffer : still q (poll_transmit q now buffer).1.1
  | s_close now code reason : still q (conn_close q now code reason)
  | s_open d : still q (stream_open q d).1
  | s_accept d : still q (stream_accept q d).1
  | s_finish s : still q (stream_finish q s).1
  | s_reset s code : still q (stream_reset q s code).1
  | s_stop s code : still q (stream_stop q s code).1
  | s_read s chunk : still q (read_chunk q s chunk).1
  | s_send data : still q (datagram_send q data).1
  | s_recv : still q (datagram_recv q).1.

(** The contract of sending streams: [sent] is what a stream has taken; a [dead] stream,
    reset, stopped, finished or of a lost connection, takes nothing more; a [stuck] one takes
    nothing until the connection hears from its peer or gives up other data: writing,
    finishing and sending packets do not make room. *)
Class StreamLaws `{QuicEngine} : Type := {
  sent : QConn → Z → list Z;
  dead : QConn → Z → Prop;
  stuck : QConn → Z → Prop;
  sent_connect e now cc peer name e' h q s : endpoint_connect e now cc peer name = (e', inl (h, q)) → sent q s = [];
  sent_accept e inc now b e' b' h q s : endpoint_accept e inc now b = (e', b', inl (h, q)) → sent q s = [];
  sent_still q q' s : still q q' → sent q' s = sent q s;
  sent_write q s data q' n : stream_write q s data = (q', inl n) → sent q' s = sent q s ++ take (Z.to_nat n) data;
  sent_refused q s data q' e : stream_write q s data = (q', inr e) → sent q' s = sent q s;
  sent_other q s data s' : s' ≠ s → sent (stream_write q s data).1 s' = sent q s';
  dead_moves q q' s : moves q q' → dead q s → dead q' s;
  dead_write q s data q' n : dead q s → stream_write q s data = (q', inl n) → n = 0;
  dead_failed q s data q' e : stream_write q s data = (q', inr (WFailed e)) → dead q' s;
  dead_lost q q' e s : poll q = (q', Some (ConnectionLost e)) → dead q' s;
  stuck_blocked q s data q' : stream_write q s data = (q', inr WBlocked) → stuck q' s;
  stuck_short q s data q' n : stream_write q s data = (q', inl n) → n < Z.of_nat (length data) → stuck q' s;
  stuck_write q s data q' n : stuck q s → stream_write q s data = (q', inl n) → n = 0;
  stuck_writing q s s' data : stuck q s → stuck (stream_write q s' data).1 s;
  stuck_finishing q s s' : stuck q s → stuck (stream_finish q s').1 s;
  stuck_sending q s now b : stuck q s → stuck (poll_transmit q now b).1.1 s;
}.

Section streams.
Context `{QuicEngine} `{!QuicLaws} `{!StreamLaws}.

Abbreviation CO := (QuicConnection * DriveOutput)%type.

(** What waits in a queue, and the whole line of a stream: taken, then waiting. *)
Definition pending_bytes (q : list QueuedWrite) : list Z := q ≫= λ wr, drop (Z.to_nat (qw_offset wr)) (qw_data wr).

Definition queue_of (s : Z) (c : QuicConnection) : list QueuedWrite := default [] (writes c !! s).

Definition line (s : Z) (c : QuicConnection) : list Z := sent (connection c) s ++ pending_bytes (queue_of s c).

(** From [c] to [c'] the stream [s] takes in [data]: its line grows by it, unless it dies. *)
Definition flows (s : Z) (data : list Z) (c c' : QuicConnection) : Prop :=
  (dead (connection c) s → dead (connection c') s ∧ sent (connection c') s = sent (connection c) s) ∧
  (line s c' = line s c ++ data ∨ dead (connection c') s ∧ sent (connection c') s `prefix_of` line s c ++ data).

Lemma flows_refl s c : flows s [] c c.
Proof. split; [done|]. left. by rewrite app_nil_r. Qed.

Lemma flows_trans s d1 d2 c1 c2 c3 : flows s d1 c1 c2 → flows s d2 c2 c3 → flows s (d1 ++ d2) c1 c3.
Proof.
  intros [A1 A2] [B1 B2]. split.
  - intros Hd. destruct (A1 Hd) as [Hd2 Hs2]. destruct (B1 Hd2) as [Hd3 Hs3]. split; [done|congruence].
  - destruct A2 as [A2|[A2 A2']]; [destruct B2 as [B2|[B2 B2']]|].
    + left. by rewrite B2, A2, app_assoc.
    + right. rewrite A2, <-app_assoc in B2'. done.
    + right. destruct (B1 A2) as [Hd3 Hs3]. split; [done|]. rewrite Hs3, app_assoc. by apply prefix_app_r.
Qed.

Lemma flows_idle s c1 c2 c3 : flows s [] c1 c2 → flows s [] c2 c3 → flows s [] c1 c3.
Proof. apply (flows_trans s [] []). Qed.

(** A call that writes nothing. *)
Lemma flows_move s c c' :
  sent (connection c') s = sent (connection c) s → (dead (connection c) s → dead (connection c') s) → queue_of s c' = queue_of s c → flows s [] c c'.
Proof. intros Hs Hd Hq. split; [auto|]. left. unfold line. by rewrite Hs, Hq, app_nil_r. Qed.

(** ** The loops that only read *)

(** The engine has moved without writing, the queues are as they were. *)
Definition reads (c c' : QuicConnection) : Prop := (∀ s, flows s [] c c') ∧ writes c' = writes c.

#[global] Instance reads_preorder : PreOrder reads.
Proof.
  split; [intros c; split; [intros s; apply flows_refl|done]|]. intros c1 c2 c3 [A1 A2] [B1 B2]. split; [intros s; by eapply flows_idle|congruence].
Qed.

Lemma still_moves q q' : still q q' → moves q q'.
Proof. destruct 1; constructor. Qed.

Lemma reads_move q c : still (connection c) q → reads c (set_connection q c).
Proof. intros Hm. split; [|done]. intros s. apply flows_move; [by apply sent_still|by apply dead_moves, still_moves|done]. Qed.

Lemma reads_event e co : reads co.1 (queue_event e co).1.
Proof. destruct co as [c o]. unfold queue_event. destruct (started c); [done|]. split; [|done]. intros s. by apply flows_move. Qed.

Lemma reads_step q c e o : still (connection c) q → reads c (queue_event e (set_connection q c, o)).1.
Proof. intros Hm. etrans; [by apply reads_move|apply (reads_event e (set_connection q c, o))]. Qed.

Lemma read_loop_reads fuel chunk stream co co' : read_loop fuel chunk stream co = Some co' → reads co.1 co'.1.
Proof.
  revert co. induction fuel as [|fuel IH]; intros [c o]; [done|]. cbn [read_loop fst].
  pose proof (s_read (connection c) stream chunk) as Hm. destruct (read_chunk (connection c) stream chunk) as [q r]. cbn [fst] in Hm.
  destruct r as [[[bytes|]|[|code]]|]; unfold on_conn; cbn [fst snd].
  - intros Hr. etrans; [by apply reads_step|by apply IH].
  - intros [= <-]. by apply reads_step.
  - intros [= <-]. by apply reads_move.
  - intros [= <-]. by apply reads_step.
  - intros [= <-]. by apply reads_move.
Qed.

Lemma accept_loop_reads fuel chunk d co co' : accept_loop fuel chunk d co = Some co' → reads co.1 co'.1.
Proof.
  revert co. induction fuel as [|fuel IH]; intros [c o]; [done|]. cbn [accept_loop fst].
  pose proof (s_accept (connection c) d) as Hm. destruct (stream_accept (connection c) d) as [q r]. cbn [fst] in Hm.
  destruct r as [stream|]; unfold on_conn; cbn [fst snd]; [|intros [= <-]; by apply reads_move].
  destruct (read_stream _ _ _) as [co1|] eqn:Hr1; [|done]. cbn. intros Hr2. etrans; [by apply reads_step|]. etrans; [by eapply read_loop_reads|by apply IH].
Qed.

Lemma datagram_loop_reads fuel co co' : datagram_loop fuel co = Some co' → reads co.1 co'.1.
Proof.
  revert co. induction fuel as [|fuel IH]; intros [c o]; [done|]. cbn [datagram_loop fst].
  pose proof (s_recv (connection c)) as Hm. destruct (datagram_recv (connection c)) as [q r]. cbn [fst] in Hm.
  destruct r as [data|]; unfold on_conn; cbn [fst snd]; [|intros [= <-]; by apply reads_move].
  intros Hr2. etrans; [by apply reads_step|by apply IH].
Qed.

(** ** Writing *)

(** The queue of a stream has been tried: it is empty, or the stream is stuck. *)
Definition settled (s : Z) (c : QuicConnection) : Prop := queue_of s c = [] ∨ stuck (connection c) s.

Lemma write_dead q s s' data q' r : stream_write q s data = (q', r) → dead q s' → dead q' s'.
Proof. intros Hw. assert (q' = (stream_write q s data).1) as -> by by rewrite Hw. apply dead_moves. constructor. Qed.

(** What one pass over the queue of a stream does to it. *)
Lemma flush_queue_sent s q co :
  Forall write_ok q →
  let r := flush_queue s q co in
  let q0 := connection co.1 in
  let q1 := connection r.2.1 in
  (dead q0 s → dead q1 s ∧ sent q1 s = sent q0 s) ∧
  (sent q1 s ++ pending_bytes r.1 = sent q0 s ++ pending_bytes q ∨ dead q1 s ∧ sent q1 s `prefix_of` sent q0 s ++ pending_bytes q) ∧
  (r.1 = [] ∨ stuck q1 s).
Proof.
  cbn zeta. revert co. induction q as [|wr q IH]; intros [c o]; [intros _; cbn; by split_and!; [|left|left]|].
  intros [Hwr Hq]%Forall_cons. cbn [flush_queue fst]. set (rest := drop (Z.to_nat (qw_offset wr)) (qw_data wr)).
  assert (Hlen : Z.of_nat (length rest) = unsent wr) by (unfold rest, unsent, write_ok in *; rewrite length_drop; lia).
  assert (Hpb : pending_bytes (wr :: q) = rest ++ pending_bytes q) by done. rewrite Hpb.
  destruct (stream_write (connection c) s rest) as [t r] eqn:Hw.
  assert (Hdead : ∀ s', dead (connection c) s' → dead t s') by (intros s'; by eapply write_dead).
  destruct r as [n|[|e]].
  - pose proof (write_taken _ _ _ _ _ Hw) as Hn. pose proof (sent_write _ _ _ _ _ Hw) as Hs. cbn [qw_offset qw_data qw_pending].
    assert (Hzero : dead (connection c) s → n = 0) by (intros Hd; by eapply dead_write). case_decide as Hd.
    + match goal with |- context [flush_queue s q ?y] => set (co1 := y); destruct (IH co1 Hq) as (I1 & I2 & I3) end. cbn [fst connection set_buffered set_connection co1] in *.
      assert (Htake : take (Z.to_nat n) rest = rest) by (apply take_ge; unfold unsent in *; lia). rewrite Htake in Hs. rewrite Hs, <-app_assoc in I2. split_and!.
      * intros Hdd. destruct (I1 (Hdead s Hdd)) as [J1 J2]. split; [done|]. rewrite J2, Hs. specialize (Hzero Hdd).
        assert (rest = []) as -> by (apply length_zero_iff_nil; unfold unsent in *; lia). by rewrite app_nil_r.
      * exact I2.
      * exact I3.
    + cbn [fst snd connection set_buffered set_connection]. split_and!.
      * intros Hdd. rewrite (Hzero Hdd) in Hs. cbn in Hs. rewrite app_nil_r in Hs. auto.
      * left. rewrite Hs. change (pending_bytes (mkWrite (qw_data wr) (qw_offset wr + n) (qw_pending wr) :: q)) with (drop (Z.to_nat (qw_offset wr + n)) (qw_data wr) ++ pending_bytes q).
        rewrite <-!app_assoc. f_equal. rewrite (app_assoc (take _ _)). f_equal. unfold write_ok in Hwr. replace (Z.to_nat (qw_offset wr + n)) with (Z.to_nat (qw_offset wr) + Z.to_nat n)%nat by lia.
        rewrite <-drop_drop. by rewrite take_drop.
      * right. eapply stuck_short; [exact Hw|]. unfold unsent in *. cbn in Hd. lia.
  - cbn [fst snd connection set_connection]. pose proof (sent_refused _ _ _ _ _ Hw) as Hs. rewrite Hs. split_and!; [auto|left|right; by eapply stuck_blocked].
    by rewrite Hpb.
  - match goal with |- context [flush_queue s q ?y] => set (co1 := y); destruct (IH co1 Hq) as (I1 & I2 & I3) end. cbn [fst connection set_buffered set_connection co1] in *.
    pose proof (sent_refused _ _ _ _ _ Hw) as Hs. pose proof (dead_failed _ _ _ _ _ Hw) as Hdt. destruct (I1 Hdt) as [J1 J2]. split_and!.
    + intros _. split; [done|congruence].
    + right. split; [done|]. rewrite J2, Hs. apply prefix_app_r. done.
    + exact I3.
Qed.

Lemma flush_queue_other s s' q co :
  let q0 := connection co.1 in
  let q1 := connection (flush_queue s q co).2.1 in
  (s' ≠ s → sent q1 s' = sent q0 s') ∧ (dead q0 s' → dead q1 s') ∧ (stuck q0 s' → stuck q1 s').
Proof.
  cbn zeta. revert co. induction q as [|wr q IH]; intros [c o]; [done|]. cbn [flush_queue fst].
  set (rest := drop _ _). pose proof (sent_other (connection c) s rest s') as Hs. pose proof (stuck_writing (connection c) s' s rest) as Hst.
  pose proof (dead_moves (connection c) _ s' (m_write (connection c) s rest)) as Hd.
  destruct (stream_write (connection c) s rest) as [t r]. cbn [fst] in *.
  assert (Hgo : ∀ co1 : CO, connection co1.1 = t → let q1 := connection (flush_queue s q co1).2.1 in
    (s' ≠ s → sent q1 s' = sent (connection c) s') ∧ (dead (connection c) s' → dead q1 s') ∧ (stuck (connection c) s' → stuck q1 s')).
  { intros co1 Ht. destruct (IH co1) as (I1 & I2 & I3). rewrite Ht in *. split_and!; auto. intros Hne. rewrite I1 by done. auto. }
  destruct r as [n|[|e]]; [case_decide; [by apply Hgo|done]|done|by apply Hgo].
Qed.

Lemma queue_requeue s s' q m : default [] (requeue s q m !! s') = if decide (s' = s) then q else default [] (m !! s').
Proof.
  unfold requeue. destruct (decide (s' = s)) as [->|Hne].
  - case_decide as Hq; [by rewrite lookup_delete_eq, Hq|by rewrite lookup_insert_eq].
  - case_decide; [by rewrite lookup_delete_ne|by rewrite lookup_insert_ne].
Qed.

Lemma flush_finish_reads s co :
  reads co.1 (flush_finish s co).1 ∧ ∀ s', stuck (connection co.1) s' → stuck (connection (flush_finish s co).1) s'.
Proof.
  destruct co as [c o]. unfold flush_finish. destruct (writes c !! s); [done|]. destruct (finishes c !! s) as [p|]; [|done].
  pose proof (s_finish (connection c) s) as Hm. pose proof (λ s', stuck_finishing (connection c) s' s) as Hst.
  destruct (stream_finish (connection c) s) as [t r]. cbn [fst] in *. split; [|intros s' Hs; by apply Hst].
  split; [|done]. intros s'. apply flows_move; [by apply sent_still|by apply dead_moves, still_moves|done].
Qed.

Lemma flush_stream_flows low s co :
  exact co.1 →
  let c' := (flush_stream_writes low s co).1 in
  (∀ s', flows s' [] co.1 c') ∧ settled s c' ∧ ∀ s', settled s' co.1 → settled s' c'.
Proof.
  intros He. cbn zeta. rewrite flush_stream_writes_eq. cbn zeta. set (r := flush_queue s _ co).
  destruct (flush_queue_sent s (queue_of s co.1) co (exact_queue _ s He)) as (F1 & F2 & F3).
  pose proof (λ s', flush_queue_other s s' (queue_of s co.1) co) as Fo. cbn zeta in F1, F2, F3, Fo. fold (queue_of s co.1) in r. fold r in F1, F2, F3, Fo.
  assert (Hwr : writes r.2.1 = writes co.1).
  { destruct (f_same _ _ _ _ (flush_queue_flushed s (queue_of s co.1) co)) as (t & b & Hsame). unfold r. by rewrite Hsame. }
  set (c1 := set_writes (requeue s r.1 (writes r.2.1)) r.2.1).
  assert (Hq1 : ∀ s', queue_of s' c1 = if decide (s' = s) then r.1 else queue_of s' co.1) by (intros s'; unfold c1, queue_of; cbn; by rewrite queue_requeue, Hwr).
  assert (Hflow : ∀ s', flows s' [] co.1 c1).
  { intros s'. destruct (decide (s' = s)) as [->|Hne].
    - split; [exact F1|]. unfold line. rewrite Hq1, decide_True, !app_nil_r by done. exact F2.
    - destruct (Fo s') as (O1 & O2 & O3). split; [intros Hd; split; [by apply O2|by apply O1]|]. left. unfold line.
      rewrite Hq1, decide_False, app_nil_r by done. cbn. by rewrite O1. }
  destruct (flush_finish_reads s (c1, r.2.2)) as [[Hr1 Hr2] Hst]. cbn [fst] in Hr1, Hr2, Hst. set (co2 := flush_finish s (c1, r.2.2)) in *.
  assert (Hlast : ∀ c2, connection (if decide (buffered_bytes c2 ≤ low) then set_warned false c2 else c2) = connection c2 ∧
    writes (if decide (buffered_bytes c2 ≤ low) then set_warned false c2 else c2) = writes c2) by (intros c2; by case_decide).
  destruct (Hlast co2.1) as [L1 L2]. cbn [fst]. set (c3 := if decide _ then _ else _) in *.
  assert (Hset : ∀ s', settled s' c1 → settled s' c3).
  { intros s' [Hq|Hs]; [left|right]; [unfold queue_of in *; by rewrite L2, Hr2|]. rewrite L1. by apply Hst. }
  split_and!.
  - intros s'. eapply flows_idle; [apply Hflow|]. eapply flows_idle; [apply Hr1|]. apply flows_move; [by rewrite L1|by rewrite L1|unfold queue_of; by rewrite L2].
  - apply Hset. destruct F3 as [F3|F3]; [left; by rewrite Hq1, decide_True|by right].
  - intros s' Hs'. apply Hset. destruct (decide (s' = s)) as [->|Hne].
    + destruct F3 as [F3|F3]; [left; by rewrite Hq1, decide_True|by right].
    + destruct Hs' as [Hq|Hs]; [left; by rewrite Hq1, decide_False|]. right. by apply (Fo s').
Qed.

Lemma flush_writes_flows low co :
  exact co.1 → let c' := (flush_writes low co).1 in (∀ s, flows s [] co.1 c') ∧ ∀ s, settled s c'.
Proof.
  intros He. cbn zeta. unfold flush_writes.
  assert (Hfold : ∀ l co, exact co.1 → let c' := (fold_left (λ co s, flush_stream_writes low s co) l co).1 in
    (∀ s, flows s [] co.1 c') ∧ ∀ s, s ∈ l ∨ settled s co.1 → settled s c').
  { clear co He. intros l. induction l as [|s l IH]; intros co He; cbn zeta; cbn [fold_left].
    { split; [intros s; apply flows_refl|]. intros s [Hs|Hs]; [by apply not_elem_of_nil in Hs|done]. }
    destruct (flush_stream_flows low s co He) as (F1 & F2 & F3).
    destruct (IH (flush_stream_writes low s co)) as [I1 I2]; [by apply (cr_exact _ _ (flush_stream_writes_carries low s co))|].
    split; [intros s'; eapply flows_idle; [apply F1|apply I1]|]. intros s' Hs'. apply I2. destruct Hs' as [Hs'|Hs'].
    - apply elem_of_cons in Hs' as [->|Hs']; [by right|by left].
    - right. by apply F3. }
  destruct (Hfold (map_to_list (writes co.1)).*1 co He) as [F1 F2]. split; [done|]. intros s. apply F2.
  destruct (writes co.1 !! s) as [q|] eqn:Hq; [left|right; left; unfold queue_of; by rewrite Hq].
  apply list_elem_of_fmap. exists (s, q). split; [done|]. by apply elem_of_map_to_list.
Qed.

Lemma on_event_flows cf e co co' :
  exact co.1 → (∀ x, e = ConnectionLost x → ∀ s, dead (connection co.1) s) → on_event cf e co = Some co' → ∀ s, flows s [] co.1 co'.1.
Proof.
  intros He Hl. destruct co as [c o]. destruct e as [| |e|[d|s|s|s|s code|d]| |]; cbn [on_event fst snd].
  - intros [= <-] s. by apply flows_move.
  - intros [= <-] s. by apply flows_move.
  - intros [= <-] s. specialize (Hl e eq_refl s). split; [done|]. right. split; [done|]. rewrite app_nil_r. apply prefix_app_r. done.
  - intros Hr s. by apply (accept_loop_reads _ _ _ _ _ Hr).
  - intros Hr s'. by apply (read_loop_reads _ _ _ _ _ Hr).
  - intros [= <-]. by apply (flush_stream_flows _ s (c, o)).
  - intros [= <-] s'. apply (reads_event _ (c, o)).
  - intros [= <-] s'. apply (reads_event _ (c, o)).
  - intros [= <-] s. apply flows_refl.
  - intros Hr s. by apply (datagram_loop_reads _ _ _ Hr).
  - intros [= <-] s. apply flows_refl.
Qed.

Lemma poll_loop_flows fuel cf co co' : exact co.1 → poll_loop fuel cf co = Some co' → ∀ s, flows s [] co.1 co'.1.
Proof.
  revert co. induction fuel as [|fuel IH]; intros co He; [done|]. cbn [poll_loop].
  pose proof (s_poll (connection co.1)) as Hm. pose proof (λ e s, dead_lost (connection co.1) (poll (connection co.1)).1 e s) as Hl.
  destruct (poll (connection co.1)) as [q r]. cbn [fst] in Hm, Hl. destruct r as [e|]; [|intros [= <-]; by apply reads_move].
  destruct (on_event cf e (on_conn q co)) as [co1|] eqn:Hr1; [|done]. cbn. intros Hr2 s.
  destruct (on_event_serves cf e (on_conn q co)) as (co1' & Hs1 & Hc1 & _). rewrite Hr1 in Hs1. injection Hs1 as <-.
  eapply flows_idle; [by apply (reads_move q co.1 Hm)|]. eapply flows_idle; [|apply (IH co1); [by apply (cr_exact _ _ Hc1)|done]].
  apply (on_event_flows cf e (on_conn q co)); [done| |done]. intros x -> s'. cbn. by apply (Hl x).
Qed.

Lemma transmit_loop_flows fuel k now co co' :
  transmit_loop fuel k now co = Some co' → (∀ s, flows s [] co.1 co'.1) ∧ ∀ s, settled s co.1 → settled s co'.1.
Proof.
  revert co. induction fuel as [|fuel IH]; intros co; [done|]. cbn [transmit_loop].
  pose proof (s_transmit (connection co.1) now []) as Hm. pose proof (λ s, stuck_sending (connection co.1) s now []) as Hst.
  destruct (poll_transmit (connection co.1) now []) as [[q b] r]. cbn [fst] in Hm, Hst.
  assert (Hset : ∀ s, settled s co.1 → settled s (set_connection q co.1)) by (intros s [Hq|Hs]; [by left|right; by apply Hst]).
  destruct r as [t|]; [|intros [= <-]; split; [by apply reads_move|done]].
  destruct (packet k t b) as [p|]; [|done]. cbn. intros Hr. destruct (IH _ Hr) as [I1 I2]. cbn [fst] in I1, I2.
  split; [intros s; eapply flows_idle; [by apply (reads_move q co.1 Hm)|apply I1]|auto].
Qed.

Lemma drive_connection_flows cf k now co co' :
  exact co.1 → drive_connection cf k now co = Some co' → (∀ s, flows s [] co.1 co'.1) ∧ ∀ s, settled s co'.1.
Proof.
  intros He. unfold drive_connection. destruct (poll_application cf co) as [co1|] eqn:Hr1; [|done]. cbn [mbind option_bind]. intros Hr2.
  destruct (poll_loop_serves (S (app_work (connection co.1))) cf co ltac:(lia)) as (co1' & Hs1 & Hc1 & _). unfold poll_application in Hr1.
  rewrite Hr1 in Hs1. injection Hs1 as <-. pose proof (cr_exact _ _ Hc1 He) as He1.
  destruct (flush_writes_flows (write_low_water cf) co1 He1) as [F1 F2]. destruct (transmit_loop_flows _ _ _ _ _ Hr2) as [T1 T2].
  split; [|auto]. intros s. eapply flows_idle; [by eapply poll_loop_flows|]. eapply flows_idle; [apply F1|apply T1].
Qed.

(** ** Driving *)

(** Every connection comes from one before, with the same lines. *)
Definition along (s s' : State) : Prop :=
  ∀ id c', connections s' !! id = Some c' → ∃ c, connections s !! id = Some c ∧ ∀ st, flows st [] c c'.

#[global] Instance along_preorder : PreOrder along.
Proof.
  split; [intros s id c Hc; exists c; split; [done|intros st; apply flows_refl]|].
  intros s1 s2 s3 A B id c3 Hc3. destruct (B id c3 Hc3) as (c2 & Hc2 & B2). destruct (A id c2 Hc2) as (c1 & Hc1 & A2).
  exists c1. split; [done|]. intros st. by eapply flows_idle.
Qed.

Lemma along_eq s s' : connections s' = connections s → along s s'.
Proof. intros He id c. rewrite He. intros Hc. exists c. split; [done|]. intros st. apply flows_refl. Qed.

Lemma along_put id c c' s : connections s !! id = Some c → (∀ st, flows st [] c c') → along s (put id c' s).
Proof.
  intros Hc Hf j d'. cbn. rewrite lookup_insert_Some. intros [[<- <-]|[_ Hd]]; [by exists c|]. exists d'. split; [done|]. intros st. apply flows_refl.
Qed.

Lemma endpoint_events_still fuel q q' es : endpoint_events_loop fuel q = Some (q', es) → rtc still q q'.
Proof.
  revert q q' es. induction fuel as [|fuel IH]; intros q q' es; [done|]. cbn. pose proof (s_endpoint q) as Hm.
  destruct (poll_endpoint_events q) as [q1 [e|]]; cbn [fst] in Hm; [|intros [= <- _]; by apply rtc_once].
  destruct (endpoint_events_loop fuel q1) as [[q2 es2]|] eqn:Hr; [|done]. cbn. intros [= <- _]. eapply rtc_l; [exact Hm|by eapply IH].
Qed.

Lemma rtc_still_reads c q' : rtc still (connection c) q' → reads c (set_connection q' c).
Proof.
  remember (connection c) as q eqn:Hq. intros Hr. revert c Hq. induction Hr as [q|q1 q2 q3 Hm Hr IH]; intros c ->.
  - by destruct c.
  - etrans; [by apply reads_move|]. by apply (IH (set_connection q2 c)).
Qed.

Lemma collect_events_along handles s s' es : collect_events handles s = Some (s', es) → along s s'.
Proof.
  revert s s' es. induction handles as [|[h id] l IH]; intros s s' es; cbn [collect_events]; [by intros [= <- _]|].
  destruct (connections s !! id) as [c|] eqn:Hc; [|apply IH]. destruct (endpoint_events_loop _ _) as [[q es1]|] eqn:Hq; [|done]. cbn.
  destruct (collect_events l _) as [[s2 es2]|] eqn:Hr; [|done]. cbn. intros [= <- _]. etrans; [|by eapply IH].
  apply (along_put id c); [done|]. apply rtc_still_reads. by eapply endpoint_events_still.
Qed.

Lemma endpoint_event_along k he s : along s (endpoint_event k he s).
Proof.
  unfold endpoint_event. destruct (endpoints s !! k) as [ep|]; [|done]. destruct (endpoint_handle_event _ _ _) as [e [r|]]; [|by apply along_eq].
  destruct (e_connections ep !! he.1 ≫= _) as [[id c]|] eqn:Hx; [|by apply along_eq]. destruct (e_connections ep !! he.1) as [id'|]; [|done]. cbn in Hx.
  destruct (connections s !! id') as [c'|] eqn:Hc; [|done]. cbn in Hx. injection Hx as <- <-.
  change (along (put_endpoint k (set_endpoint e ep) s) (put id' (set_connection (handle_event (connection c') r) c') (put_endpoint k (set_endpoint e ep) s))).
  apply (along_put id' c'); [done|]. apply reads_move. constructor.
Qed.

Lemma endpoint_loop_along fuel k handles s s' : endpoint_loop fuel k handles s = Some s' → along s s'.
Proof.
  revert s. induction fuel as [|fuel IH]; intros s; [done|]. cbn [endpoint_loop]. destruct (collect_events handles s) as [[s1 es]|] eqn:Hr; [|done].
  cbn. case_decide; [intros [= <-]; by eapply collect_events_along|]. intros Hl. etrans; [by eapply collect_events_along|]. etrans; [|by apply IH].
  clear. revert s1. induction es as [|he es IH]; intros s1; cbn [fold_left]; [done|]. etrans; [apply endpoint_event_along|apply IH].
Qed.

Definition all_exact (s : State) : Prop := map_Forall (λ _, exact) (connections s).

Lemma drive_connections_along cf k now handles so so' :
  all_exact so.1 → drive_connections cf k now handles so = Some so' →
  along so.1 so'.1 ∧ ∀ id c', connections so'.1 !! id = Some c' → id ∈ handles.*2 ∨ (∀ c, connections so.1 !! id = Some c → ∀ st, settled st c) → ∀ st, settled st c'.
Proof.
  revert so. induction handles as [|[h id] l IH]; intros [s o] He; cbn [drive_connections].
  { intros [= <-]. split; [done|]. intros j c Hc [Hin|Hs]; [by apply not_elem_of_nil in Hin|by apply Hs]. }
  cbn [fst snd] in *. destruct (connections s !! id) as [c|] eqn:Hc.
  2:{ intros Hr. pose proof (IH (s, o) He Hr) as [I1 I2]. split; [done|]. intros j c' Hc' Hj. apply (I2 j c' Hc').
      destruct Hj as [Hj|Hj]; [|by right]. rewrite fmap_cons in Hj. apply elem_of_cons in Hj as [->|Hj]; [|by left]. right. cbn. intros c0. congruence. }
  destruct (drive_connection cf k now (c, o)) as [[c1 o1]|] eqn:Hd; [|done]. cbn. intros Hr.
  destruct (drive_connection_flows cf k now (c, o) (c1, o1) (He id c Hc) Hd) as [F1 F2]. cbn [fst] in *.
  assert (He1 : all_exact (put id c1 s)).
  { apply map_Forall_insert_2; [|done]. destruct (drive_connection_carries cf k now (c, o)) as (co & Hd' & Hcr). rewrite Hd in Hd'. injection Hd' as <-.
    apply (cr_exact _ _ Hcr). by apply (He id). }
  destruct (IH (put id c1 s, o1) He1 Hr) as [I1 I2]. cbn [fst] in *. split; [etrans; [by apply (along_put id c)|done]|].
  intros j c' Hc' Hj. apply (I2 j c' Hc'). destruct Hj as [Hj|Hj].
  - apply elem_of_cons in Hj as [->|Hj]; [right|by left]. cbn. intros c0. rewrite lookup_insert_eq. by intros [= <-].
  - right. intros c0. cbn. rewrite lookup_insert_Some. intros [[<- <-]|[_ Hc0]]; [done|by apply Hj].
Qed.

Lemma retire_arm_conns k now d s o s' o' : retire_endpoint k (arm_timer k now d (s, o)) = (s', o') → connections s' = connections s.
Proof. intros Hr. destruct (retire_conns k (arm_timer k now d (s, o))) as [H2 _]. rewrite Hr in H2. cbn [fst] in H2. rewrite H2. apply arm_timer_conns. Qed.

Lemma remove_fold_conns k l s id c : connections (fold_left (remove_drained k) l s) !! id = Some c → connections s !! id = Some c.
Proof.
  revert s. induction l as [|hi l IH]; intros s; cbn [fold_left]; [done|]. intros Hc. apply IH in Hc. unfold remove_drained in Hc.
  destruct (endpoints s !! k); cbn in Hc; by apply lookup_delete_Some in Hc as [_ ?].
Qed.

(** After [drive] the lines are as they were, and the streams of the endpoint have been tried. *)
Lemma drive_along cf k now s s' o' :
  upright s → drive cf k now s = Some (s', o') →
  along s s' ∧ ∀ id c', connections s' !! id = Some c' → of_endpoint k s id ∨ (∀ c, connections s !! id = Some c → ∀ st, settled st c) → ∀ st, settled st c'.
Proof.
  intros (Hs & Hb & Hg) Hd. destruct (drive_drives cf k now s Hs) as (s2 & o2 & Hd' & Hok). rewrite Hd in Hd'. injection Hd' as <- <-.
  unfold drive in Hd. destruct (endpoints s !! k) as [ep|] eqn:Hk.
  2:{ injection Hd as <- <-. split; [done|]. intros id c' Hc' [(ep & h & He & _)|Hx]; [congruence|by apply Hx]. }
  set (handles := map_to_list (e_connections ep)) in Hd. pose proof (handles_of k s ep Hk) as Hh.
  assert (Hre : reaches (of_endpoint k s) k s) by (intros e h id He Hi; by exists e, h).
  destruct (endpoint_loop_drives (of_endpoint k s) (S (endpoint_works handles s)) k handles s output_default Hre Hh ltac:(lia)) as (s1 & Hl & Hd1).
  rewrite Hl in Hd. cbn [mbind option_bind] in Hd. destruct (drive_connections cf k now handles (s1, output_default)) as [[s3 o3]|] eqn:Hc; [|done].
  cbn in Hd. assert (He1 : all_exact s1).
  { intros id c Hc1. destruct (matches_Some' _ _ _ _ _ (d_conns _ _ _ Hd1) Hc1) as (c0 & Hc0 & Hst). apply Hst. by apply (Hg id). }
  destruct (drive_connections_along cf k now handles (s1, output_default) (s3, o3) He1 Hc) as [A1 A2]. cbn [fst] in *.
  injection Hd as Hd. apply retire_arm_conns in Hd.
  assert (Hin : ∀ id c, connections s' !! id = Some c → connections s3 !! id = Some c) by (intros id c; rewrite Hd; apply remove_fold_conns).
  split.
  - etrans; [by eapply endpoint_loop_along|]. etrans; [exact A1|]. intros id c Hc'. exists c. split; [by apply Hin|]. intros st. apply flows_refl.
  - intros id c' Hc' Hx st. destruct Hx as [(ep2 & h & He2 & Hi)|Hx].
    + apply (A2 id c' (Hin id c' Hc')). left. apply list_elem_of_fmap. exists (h, id). split; [done|]. apply elem_of_map_to_list. congruence.
    + destruct (do_conn _ _ _ _ _ _ Hok id c' Hc') as (c & Hc0 & _).
      destruct (decide (Exists (λ hi : Z * Z, hi.2 = id) handles)) as [Hex|Hnex].
      * apply (A2 id c' (Hin id c' Hc')). left. apply Exists_exists in Hex as (hi & Hhi & <-). apply list_elem_of_fmap. eauto.
      * assert (Hno : ¬ of_endpoint k s id).
        { intros (ep2 & h & He2 & Hi). apply Hnex, Exists_exists. exists (h, id). split; [|done]. apply elem_of_map_to_list. congruence. }
        rewrite (do_other _ _ _ _ _ _ Hok id Hno) in Hc'. by eapply Hx.
Qed.

(** ** Commands *)

(** The bytes a command gives to the stream [st] of the connection [id]: those of a [Send]
    that is not refused. *)
Definition sends (cf : QuicConfig) (p : Pending) (c : Command) (s : State) (id st : Z) : list Z :=
  match c with
  | Send id' stream data _ =>
      if decide (id' = id ∧ Z.of_nat (length data) ≤ max_chunk_size cf) then
        match owned_connection id (p_source p) s, proto_stream_id stream with
        | inl d, inl ps =>
            if decide (ps = st ∧ finishes d !! ps = None) then
              match (stream_write (connection d) ps data).2 with inr (WFailed _) => [] | _ => data end
            else []
        | _, _ => []
        end
      else []
  | _ => []
  end.

(** The connections after a command come from those before; those that are changed are on the
    socket to be driven. *)
Definition pflow (data : Z → Z → list Z) (s s' : State) (ko : option SocketId) : Prop :=
  ∀ id c', connections s' !! id = Some c' →
    ∃ c, connections s !! id = Some c ∧ (∀ st, flows st (data id st) c c') ∧ (ko = Some (endpoint_socket c') ∨ c' = c).

Definition none : Z → Z → list Z := λ _ _, [].

Lemma pflow_same s s' ko : connections s' = connections s → pflow none s s' ko.
Proof. intros He id c. rewrite He. intros Hc. exists c. split_and!; [done|intros st; apply flows_refl|by right]. Qed.

Lemma pflow_put data id c c' s :
  connections s !! id = Some c → endpoint_socket c' = endpoint_socket c → (∀ st, flows st (data id st) c c') → (∀ j st, j ≠ id → data j st = []) →
  pflow data s (put id c' s) (Some (endpoint_socket c)).
Proof.
  intros Hc Hs Hf Hd j d'. cbn. rewrite lookup_insert_Some. intros [[<- <-]|[Hne Hj]].
  - exists c. rewrite Hs. by split_and!; [| |left].
  - exists d'. split_and!; [done| |by right]. intros st. rewrite Hd by done. apply flows_refl.
Qed.

Lemma pflow_call id c q s : connections s !! id = Some c → still (connection c) q → pflow none s (put id (set_connection q c) s) (Some (endpoint_socket c)).
Proof. intros Hc Hm. apply (pflow_put none id c); try done. by apply reads_move. Qed.

Lemma enqueue_conn cf p id stream data wait n co :
  connection (enqueue_write cf p id stream data wait n co).1 = connection co.1 ∧
  endpoint_socket (enqueue_write cf p id stream data wait n co).1 = endpoint_socket co.1 ∧
  ∀ st, queue_of st (enqueue_write cf p id stream data wait n co).1 =
    queue_of st co.1 ++ if decide (st = stream ∧ n ≠ Z.of_nat (length data)) then [mkWrite data n (if wait then Some p else None)] else [].
Proof.
  destruct co as [c o]. unfold enqueue_write. case_decide as Hn.
  { split_and!; [done|done|]. intros st. rewrite decide_False, app_nil_r by tauto. done. }
  match goal with |- context [if decide (_ ∧ warned ?v = false) then _ else _] => set (c1 := v) end.
  assert (Hq : ∀ st, queue_of st c1 = queue_of st c ++ if decide (st = stream ∧ n ≠ Z.of_nat (length data)) then [mkWrite data n (if wait then Some p else None)] else []).
  { intros st. unfold c1, queue_of. cbn. destruct (decide (st = stream)) as [->|Hne].
    - rewrite lookup_insert_eq, decide_True by done. done.
    - rewrite lookup_insert_ne, decide_False, app_nil_r by (done || tauto). done. }
  assert (Hc : connection c1 = connection c ∧ endpoint_socket c1 = endpoint_socket c) by done. clearbody c1. destruct Hc as [Hc1 Hc2].
  destruct (decide (write_high_water cf ≤ buffered_bytes c1 ∧ warned c1 = false)); [|split; [exact Hc1|split; [exact Hc2|exact Hq]]]. unfold queue_event. cbn [started set_warned].
  destruct (started c1); (split; [exact Hc1|split; [exact Hc2|exact Hq]]).
Qed.

Lemma send_on_flows cf p id ps data wait co :
  settled ps co.1 →
  let co' := send_on cf p id ps data wait co in
  endpoint_socket co'.1 = endpoint_socket co.1 ∧
  ∀ st, flows st (if decide (ps = st) then match (stream_write (connection co.1) ps data).2 with inr (WFailed _) => [] | _ => data end else []) co.1 co'.1.
Proof.
  intros Hset. cbn zeta. unfold send_on. pose proof (λ st, sent_other (connection co.1) ps data st) as Hoth.
  pose proof (λ st, dead_moves (connection co.1) _ st (m_write (connection co.1) ps data)) as Hdm.
  destruct (stream_write (connection co.1) ps data) as [t r] eqn:Hw. cbn [fst snd] in *.
  assert (Htake : ∀ n, 0 ≤ n ≤ Z.of_nat (length data) → sent t ps = sent (connection co.1) ps ++ take (Z.to_nat n) data →
    (stuck (connection co.1) ps → n = 0) → (dead (connection co.1) ps → n = 0) →
    let co' := enqueue_write cf p id ps data wait n (on_conn t co) in
    endpoint_socket co'.1 = endpoint_socket co.1 ∧ ∀ st, flows st (if decide (ps = st) then data else []) co.1 co'.1).
  { intros n Hn Hs Hz Hdz. cbn zeta. destruct (enqueue_conn cf p id ps data wait n (on_conn t co)) as (E1 & E2 & E3).
    set (co' := enqueue_write _ _ _ _ _ _ _ _) in *. cbn [on_conn fst set_connection connection endpoint_socket] in E1, E2. split; [done|].
    assert (E3' : ∀ st, queue_of st co'.1 = queue_of st co.1 ++ if decide (st = ps ∧ n ≠ Z.of_nat (length data)) then [mkWrite data n (if wait then Some p else None)] else []) by exact E3.
    intros st. destruct (decide (ps = st)) as [<-|Hne].
    - split.
      + intros Hd. rewrite E1. split; [by apply Hdm|]. rewrite Hs, (Hdz Hd). cbn. by rewrite app_nil_r.
      + left. unfold line. rewrite E1, E3', Hs. destruct (decide (n = Z.of_nat (length data))) as [Hfull|Hpart].
        * rewrite decide_False, app_nil_r by tauto. rewrite take_ge by lia. destruct Hset as [Hq|Hst]; [by rewrite Hq, !app_nil_r|].
          assert (data = []) as -> by (apply length_zero_iff_nil; specialize (Hz Hst); lia). by rewrite !app_nil_r.
        * rewrite decide_True by done. unfold pending_bytes. rewrite bind_app. cbn [mbind list_bind qw_offset qw_data]. rewrite app_nil_r.
          destruct Hset as [Hq|Hst].
          -- rewrite Hq. cbn. rewrite app_nil_r, <-app_assoc. by rewrite take_drop.
          -- rewrite (Hz Hst). cbn. by rewrite app_nil_r, app_assoc.
    - apply flows_move; [|by rewrite E1; apply Hdm|].
      + rewrite E1. by apply Hoth.
      + rewrite E3', decide_False, app_nil_r by naive_solver. done. }
  destruct r as [n|[|e]].
  - apply Htake; [by eapply write_taken|by apply sent_write|intros Hst; by eapply stuck_write|intros Hd; by eapply dead_write].
  - apply Htake; [lia| |done|done]. rewrite (sent_refused _ _ _ _ _ Hw). cbn. by rewrite app_nil_r.
  - split; [done|]. intros st. assert ((if decide (ps = st) then [] else []) = ([] : list Z)) as -> by by case_decide.
    apply flows_move; [|by apply Hdm|done]. cbn. destruct (decide (st = ps)) as [->|]; [by eapply sent_refused|by apply Hoth].
Qed.

Lemma pflow_none data s s' ko : pflow none s s' ko → (∀ id st, data id st = []) → pflow data s s' ko.
Proof. intros Hp Hd id c' Hc'. destruct (Hp id c' Hc') as (c & Hc & Hf & Hk). exists c. split_and!; try done. intros st. rewrite Hd. apply Hf. Qed.

Lemma stream_flow p id stream code (op : QConn → Z → Z → QConn * option string) s s' o' ko :
  (∀ q ps n, still q (op q ps n).1) → perform_stream p id stream code op s output_default = (s', o', ko) → pflow none s s' ko.
Proof.
  intros Hop Hr. unfold perform_stream, operate_stream in Hr. destruct (checked_error_code code) as [n|e]; [|simplify_eq; by apply pflow_same].
  destruct (owned_connection id (p_source p) s) as [d|e] eqn:Ho; [|simplify_eq; by apply pflow_same].
  destruct (proto_stream_id stream) as [ps|e]; [|simplify_eq; by apply pflow_same]. apply owned_inv in Ho as [Hd _].
  pose proof (Hop (connection d) ps n) as Hm. destruct (op (connection d) ps n) as [q r]. rewrite (socket_of_put id d) in Hr by done.
  simplify_eq. by apply pflow_call.
Qed.

Lemma perform_flow cf p c now s s' o' ko :
  (∀ id d, connections s !! id = Some d → ∀ st, settled st d) →
  perform cf p c now s output_default = Some (s', o', ko) → pflow (sends cf p c s) s s' ko.
Proof.
  intros Hset. 
  assert (Hsame : ∀ k, pflow none s s k) by (intros k; by apply pflow_same).
  destruct c; cbn [perform]; try done; intros Hr; apply (inj Some) in Hr.
  - unfold perform_local_addr in Hr. simplify_eq. apply Hsame.
  - unfold perform_close_listener in Hr. repeat case_match; simplify_eq; by apply pflow_same.
  - unfold perform_start in Hr. destruct (connections s !! id) as [d|] eqn:Hd; simplify_eq; [|apply Hsame].
    apply (pflow_put none id d); try done. intros st. by apply flows_move.
  - unfold perform_open in Hr. destruct (owned_connection id (p_source p) s) as [d|e] eqn:Ho; [|simplify_eq; apply Hsame].
    apply owned_inv in Ho as [Hd _]. pose proof (s_open (connection d) Bi) as Hm. destruct (stream_open (connection d) Bi) as [q r].
    rewrite (socket_of_put id d) in Hr by done. simplify_eq. by apply pflow_call.
  - unfold perform_open in Hr. destruct (owned_connection id (p_source p) s) as [d|e] eqn:Ho; [|simplify_eq; apply Hsame].
    apply owned_inv in Ho as [Hd _]. pose proof (s_open (connection d) Uni) as Hm. destruct (stream_open (connection d) Uni) as [q r].
    rewrite (socket_of_put id d) in Hr by done. simplify_eq. by apply pflow_call.
  - unfold perform_send in Hr. case_decide as Hlen.
    { simplify_eq. eapply pflow_none; [apply Hsame|]. intros j st. cbn. rewrite decide_False by lia. done. }
    destruct (owned_connection id (p_source p) s) as [d|e] eqn:Ho.
    2:{ simplify_eq. eapply pflow_none; [apply Hsame|]. intros j st. cbn. case_decide as Hj; [|done]. destruct Hj as [<- _]. by rewrite Ho. }
    destruct (proto_stream_id stream) as [ps|e] eqn:Hps.
    2:{ simplify_eq. eapply pflow_none; [apply Hsame|]. intros j st. cbn. case_decide as Hj; [|done]. rewrite Hps. by case_match. }
    case_decide as Hfin.
    { simplify_eq. eapply pflow_none; [apply Hsame|]. intros j st. cbn. case_decide as Hj; [|done]. destruct Hj as [<- _]. rewrite Ho, Hps.
      rewrite decide_False; [done|]. intros [_ Hn]. rewrite Hn in Hfin. by apply is_Some_None in Hfin. }
    pose proof Ho as Ho'. apply owned_inv in Ho' as [Hd _]. destruct (send_on_flows cf p id ps data wait (d, output_default) (Hset id d Hd ps)) as [F1 F2].
    destruct (send_on cf p id ps data wait (d, output_default)) as [c1 o1]. cbn [fst] in *. simplify_eq. rewrite F1.
    apply pflow_put; [done|done| |].
    + intros st. cbn. rewrite decide_True by (split; [done|lia]). rewrite Ho, Hps. specialize (F2 st).
      destruct (decide (ps = st)) as [<-|Hne]; [rewrite decide_True|rewrite decide_False by naive_solver]; [done| |done].
      split; [done|]. by apply eq_None_not_Some.
    + intros j st Hne. cbn. rewrite decide_False; [done|]. by intros [? _].
  - unfold perform_finish in Hr. destruct (owned_connection id (p_source p) s) as [d|e] eqn:Ho; [|simplify_eq; apply Hsame].
    destruct (proto_stream_id stream) as [ps|e]; [|simplify_eq; apply Hsame]. case_decide; [simplify_eq; apply Hsame|].
    apply owned_inv in Ho as [Hd _]. pose proof (s_finish (connection d) ps) as Hm. destruct (stream_finish (connection d) ps) as [q r].
    destruct (writes d !! ps) as [[|wr l]|] eqn:Hq; simplify_eq; [by apply pflow_call| |by apply pflow_call].
    apply (pflow_put none id d); try done. intros st. by apply flows_move.
  - eapply stream_flow; [intros q st n; apply s_reset|exact Hr].
  - eapply stream_flow; [intros q st n; apply s_stop|exact Hr].
  - unfold perform_datagram in Hr. destruct (owned_connection id (p_source p) s) as [d|e] eqn:Ho; [|simplify_eq; apply Hsame].
    apply owned_inv in Ho as [Hd _]. pose proof (s_send (connection d) data) as Hm. destruct (datagram_send (connection d) data) as [q r].
    rewrite (socket_of_put id d) in Hr by done. simplify_eq. by apply pflow_call.
  - unfold perform_close in Hr. destruct (checked_error_code error_code) as [n|e]; [|simplify_eq; apply Hsame].
    destruct (owned_connection id (p_source p) s) as [d|e] eqn:Ho; [|simplify_eq; apply Hsame].
    apply owned_inv in Ho as [Hd _]. rewrite (socket_of_put id d) in Hr by done. simplify_eq. apply pflow_call; [done|constructor].
  - unfold perform_shutdown in Hr. destruct (owned_connection id (p_source p) s) as [d|e] eqn:Ho; [|simplify_eq; apply Hsame].
    apply owned_inv in Ho as [Hd _]. simplify_eq. apply pflow_call; [done|constructor].
  - simplify_eq. apply Hsame.
  - simplify_eq. apply Hsame.
Qed.

(** ** Handlers *)

Definition driven_by (nx : Next) : option SocketId := match nx with NDrive _ k => Some k | _ => None end.

(** A handler up to a point: a connection comes from one before and is as it was, unless its
    endpoint is to be driven; or it is new. *)
Definition hflow (data : Z → Z → list Z) (s : State) (wn : W * Next) : Prop :=
  ∀ id c', connections (st wn.1) !! id = Some c' →
    (∃ c, connections s !! id = Some c ∧ (∀ st, flows st (data id st) c c') ∧ (driven_by wn.2 = Some (endpoint_socket c') ∨ c' = c)) ∨
    (next_connection s < id ∧ writes c' = ∅ ∧ ∀ st, sent (connection c') st = []).

Lemma hflow_pflow data s wn : pflow data s (st wn.1) (driven_by wn.2) → hflow data s wn.
Proof. intros Hp id c' Hc'. left. by apply Hp. Qed.

Lemma hflow_same s wn : connections (st wn.1) = connections s → hflow none s wn.
Proof. intros He. apply hflow_pflow. by apply pflow_same. Qed.

Lemma tell_st c w : st (tell c w) = st w.
Proof. apply tell_quiet. Qed.

Lemma reply_st p a w : st (reply p a w) = st w.
Proof. apply reply_quiet. Qed.

Lemma connect_failed_conns p k e w : connections (st (connect_failed p k e w)) = connections (st w).
Proof. unfold connect_failed. rewrite reply_st. destruct k; [unfold net_shutdown; by rewrite tell_st|done]. Qed.

Lemma on_command_flow p c now w :
  (∀ id d, connections (st w) !! id = Some d → ∀ st, settled st d) → hflow (sends (config w) p c (st w)) (st w) (on_command p c now w).
Proof.
  intros Hset.
  assert (Hother : ∀ s o ko, perform (config w) p c now (st w) output_default = Some (s, o, ko) →
    hflow (sends (config w) p c (st w)) (st w) (match ko with Some k => (set_st s w, NDrive o k) | None => (set_st s w, NEmit o) end)).
  { intros s o ko Hr. pose proof (perform_flow _ _ _ _ _ _ _ _ Hset Hr) as Hp. destruct ko; by apply hflow_pflow. }
  destruct c; try (cbn [on_command]; destruct (perform (config w) p _ now (st w) output_default) as [[[s o] ko]|] eqn:Hr; [|done];
    specialize (Hother s o ko eq_refl); destruct ko; exact Hother).
  - apply hflow_same. cbn. unfold listen. destruct (server_proto_config o); cbn [fst]; [by rewrite tell_st|by rewrite reply_st].
  - apply hflow_same. cbn. unfold connect. destruct (client_proto_config o); cbn [fst]; [|by rewrite reply_st]. unfold reserve_connect.
    destruct (has_connection_capacity _ _); cbn [fst]; [by rewrite tell_st|by rewrite reply_st].
  - cbn [on_command]. unfold tick. destruct (endpoints (st w) !! socket) as [ep|]; [|by apply hflow_same]. case_decide; [|by apply hflow_same].
    apply hflow_pflow. cbn [fst snd driven_by]. intros id c'. cbn. rewrite lookup_fmap. intros Hc. apply fmap_Some in Hc as (d & Hd & ->).
    exists d. split; [done|]. case_decide as Hk; [|split; [intros st; apply flows_refl|by right]]. destruct Hk as [<- _]. split; [|by left].
    apply reads_move. constructor.
  - cbn [on_command]. unfold connect_timeout. destruct (connections (st w) !! id) as [d|] eqn:Hd; [|by apply hflow_same].
    destruct (connect_pending d) as [q|]; [|by apply hflow_same]. destruct (negb _); [by apply hflow_same|]. apply hflow_pflow. cbn [fst snd driven_by].
    rewrite reply_st. cbn [st on_st]. apply (pflow_put none id d); try done. intros st.
    apply flows_move; [apply sent_still; constructor|apply dead_moves; constructor|done].
Qed.

Lemma fail_fold_conns e ids s o id c : connections (fold_left (fail_connection e) ids (s, o)).1 !! id = Some c → connections s !! id = Some c.
Proof.
  pose proof (fail_connections e ids s o) as Hf. destruct (fold_left _ ids (s, o)) as [s' o']. destruct Hf as [Hf _]. cbn. rewrite Hf. by case_decide.
Qed.

(** A connection of its own. *)
Lemma hflow_new id c s wn :
  next_connection s < id → connections (st wn.1) = <[id := c]> (connections s) → writes c = ∅ → (∀ st, sent (connection c) st = []) → hflow none s wn.
Proof.
  intros Hn He Hw Hs j d. rewrite He, lookup_insert_Some. intros [[<- <-]|[_ Hd]]; [by right|]. left. exists d. split_and!; [done|intros st; apply flows_refl|by right].
Qed.

Lemma on_socket_flow e now w :
  upright (st w) → next_connection (st w) + 1 < 2 ^ 64 → hflow none (st w) (on_socket e now w).
Proof.
  intros (Hs & _ & _) Hn.
  assert (Hgone : ∀ k reason, hflow none (st w) (endpoint_failed k reason w)).
  { intros k reason id c'. unfold endpoint_failed. destruct (fold_left _ _ _) as [s' o'] eqn:Hx. cbn. intros Hc. left. exists c'.
    split_and!; [|intros st; apply flows_refl|by right]. match goal with H : fold_left _ ?ids (?s0, ?o0) = _ |- _ => apply (fail_fold_conns reason ids s0 o0) end. by rewrite Hx. }
  destruct e as [| |k from data| | |]; cbn [on_socket NetService.is_gone]; try (by apply hflow_same); try apply Hgone.
  destruct (endpoints (st w) !! k) as [ep|] eqn:Hk; [|by apply hflow_same].
  destruct (on_datagram k ep from data now w) as [[[ep' s'] direct]|] eqn:Hd; [|by apply hflow_same].
  assert (Hsame : connections s' = connections (st w) → hflow none (st w) (set_st (put_endpoint k ep' s') w, NDrive direct k)) by (intros He; by apply hflow_same).
  unfold on_datagram in Hd. destruct (endpoint_handle (endpoint ep) now from data) as [[e b] [[[h ev]|[inc|t]]|]].
  - destruct (e_connections ep !! h) as [id|] eqn:Hid; cbn [mbind option_bind] in Hd; [|simplify_eq; by apply Hsame].
    destruct (connections (st w) !! id) as [c|] eqn:Hc; cbn [fmap option_fmap option_map] in Hd; [|simplify_eq; by apply Hsame].
    apply (inj Some) in Hd. simplify_eq. apply hflow_pflow. cbn [fst snd driven_by st set_st].
    destruct (sn_handle _ Hs k ep h id Hk Hid) as (c0 & Hc0 & Hs0). assert (c0 = c) as -> by congruence. rewrite <-Hs0.
    pose proof (pflow_call id c (handle_event (connection c) ev) (st w) Hc (s_event _ ev)) as Hp. exact Hp.
  - unfold on_incoming in Hd. cbn [e_listener set_endpoint endpoint] in Hd.
    destruct (e_listener ep) as [l|]; [destruct (has_connection_capacity (config w) (st w))|].
    + destruct (endpoint_accept e inc now b) as [[e2 b2] [[h q]|[t|]]] eqn:Ha.
      * rewrite connection_id_eq in Hd by (apply (sn_next _ Hs) || done). apply (inj Some) in Hd. simplify_eq.
        eapply (hflow_new (next_connection (st w) + 1)); [lia|done|done|]. intros st. cbn. by eapply sent_accept.
      * destruct (packet k t b2); [|done]. cbn in Hd. simplify_eq. by apply Hsame.
      * simplify_eq. by apply Hsame.
    + destruct (endpoint_refuse e inc b) as [[e2 b2] t2]. destruct (packet k t2 b2); [|done]. cbn in Hd. simplify_eq. by apply Hsame.
    + destruct (endpoint_refuse e inc b) as [[e2 b2] t2]. destruct (packet k t2 b2); [|done]. cbn in Hd. simplify_eq. by apply Hsame.
  - destruct (packet k t b); [|done]. cbn in Hd. simplify_eq. by apply Hsame.
  - simplify_eq. by apply Hsame.
Qed.

Definition message_sends (m : Message) (b : Body) (w : W) : Z → Z → list Z :=
  match decide (mtype m = MsgType.USER), b with
  | left _, BCommand c => sends (config w) (mkPending (source m) (session m)) c (st w)
  | _, _ => none
  end.

Lemma dispatch_flow m b now w :
  upright (st w) → next_connection (st w) + 1 < 2 ^ 64 → (∀ id d, connections (st w) !! id = Some d → ∀ st, settled st d) →
  hflow (message_sends m b w) (st w) (dispatch m b now w).
Proof.
  intros Hu Hn Hset. assert (Href : hflow none (st w) (refuse m w, NDone)) by (apply hflow_same; unfold refuse; by destruct (needs_reply m)).
  unfold dispatch, message_sends. destruct (decide (mtype m = MsgType.SOCKET)) as [Hm|Hm].
  - rewrite decide_False by (rewrite Hm; done). destruct b; [by apply on_socket_flow|by apply hflow_same|by apply hflow_same].
  - destruct (decide (mtype m ≠ MsgType.USER)) as [Hu'|Hu']; [rewrite decide_False by done; exact Href|].
    rewrite decide_True by (by apply dec_stable). destruct b; [exact Href|by apply on_command_flow|exact Href].
Qed.

Lemma resume_flow t r now w y :
  0 ≤ next_connection (st w) → next_connection (st w) + 1 < 2 ^ 64 → resume t r now w = Some y → hflow none (st w) y.
Proof.
  intros Hp Hn. destruct t as [sc p|sc p k|cc o p|cc o p k|cc o p k|o], r as [[j|e]|[[[peer|] loc]|e]|[e|]]; cbn [resume]; try done; intros Hr; apply (inj Some) in Hr as <-;
    try (apply hflow_same; cbn [fst]; by rewrite ?tell_st, ?reply_st, ?connect_failed_conns);
    try (apply hflow_same; cbn [fst]; unfold listening, net_shutdown, listener_id; destruct (is_some_and _ _); by rewrite ?reply_st, ?tell_st).
  - apply hflow_same. destruct (co_bind o); cbn [fst]; by rewrite tell_st.
  - unfold connected. destruct (endpoint_connect _ _ _ _ _) as [ep [[h q]|e]] eqn:He; [|apply hflow_same; apply connect_failed_conns].
    rewrite connection_id_eq by (cbn; lia). eapply (hflow_new (next_connection (st w) + 1)); [lia|done|done|]. intros st. cbn. by eapply sent_connect.
Qed.

(** ** Numbers only grow *)

Definition grows (w : W) (wn : W * Next) : Prop := next_connection (st w) ≤ next_connection (st wn.1).

Lemma on_command_grows p c now w : upright (st w) → grows w (on_command p c now w).
Proof.
  intros Hu. unfold grows.
  assert (Hother : ∀ s o ko, perform (config w) p c now (st w) output_default = Some (s, o, ko) → next_connection (st w) ≤ next_connection s).
  { intros s o ko Hr. destruct (perform_performed _ _ _ _ _ _ Hu Hr) as (h & Hs & _). pose proof (sp_next _ _ _ _ _ _ _ Hs) as Hn. cbn in Hn. lia. }
  destruct c; try (cbn [on_command]; destruct (perform (config w) p _ now (st w) output_default) as [[[s o] ko]|] eqn:Hr; [|done];
    specialize (Hother s o ko eq_refl); destruct ko; exact Hother).
  - cbn. unfold listen. destruct (server_proto_config o); cbn [fst]; [by rewrite tell_st|by rewrite reply_st].
  - cbn. unfold connect. destruct (client_proto_config o); cbn [fst]; [|by rewrite reply_st]. unfold reserve_connect.
    destruct (has_connection_capacity _ _); cbn [fst]; [by rewrite tell_st|by rewrite reply_st].
  - cbn [on_command]. unfold tick. destruct (endpoints (st w) !! socket) as [ep|]; [|done]. by case_decide.
  - cbn [on_command]. unfold connect_timeout. destruct (connections (st w) !! id) as [d|]; [|done].
    destruct (connect_pending d) as [q|]; [|done]. destruct (negb _); [done|]. cbn [fst]. by rewrite reply_st.
Qed.

Lemma connect_failed_next p k e w : next_connection (st (connect_failed p k e w)) = next_connection (st w).
Proof. unfold connect_failed. rewrite reply_st. destruct k; [unfold net_shutdown; by rewrite tell_st|done]. Qed.

Lemma on_socket_grows e now w : 0 ≤ next_connection (st w) → next_connection (st w) + 1 < 2 ^ 64 → grows w (on_socket e now w).
Proof.
  intros Hp Hn. unfold grows.
  assert (Hgone : ∀ k reason, next_connection (st w) ≤ next_connection (st (endpoint_failed k reason w).1)).
  { intros k reason. unfold endpoint_failed. match goal with |- context [fold_left (fail_connection reason) ?ids (?s0, ?o0)] => pose proof (fail_connections reason ids s0 o0) as Hf; destruct (fold_left _ ids (s0, o0)) as [s' o'] end.
    destruct Hf as (_ & _ & Hf & _). cbn in *. lia. }
  destruct e as [| |k from data| | |]; cbn [on_socket NetService.is_gone fst]; try done; try apply Hgone.
  destruct (endpoints (st w) !! k) as [ep|]; [|done]. unfold on_datagram, on_incoming.
  destruct (endpoint_handle (endpoint ep) now from data) as [[e b] [[[h ev]|[inc|t]]|]]; cbn [mbind option_bind].
  - by destruct (e_connections ep !! h ≫= _) as [[id c]|].
  - cbn [e_listener set_endpoint endpoint]. destruct (e_listener ep) as [l|]; [destruct (has_connection_capacity _ _)|].
    + destruct (endpoint_accept e inc now b) as [[e2 b2] [[h q]|[t|]]]; [rewrite connection_id_eq by done; cbn; lia|by destruct (packet k t b2)|done].
    + destruct (endpoint_refuse e inc b) as [[e2 b2] t2]. by destruct (packet k t2 b2).
    + destruct (endpoint_refuse e inc b) as [[e2 b2] t2]. by destruct (packet k t2 b2).
  - by destruct (packet k t b).
  - done.
Qed.

Lemma dispatch_grows m b now w : upright (st w) → next_connection (st w) + 1 < 2 ^ 64 → grows w (dispatch m b now w).
Proof.
  intros Hu Hn. unfold dispatch, refuse. destruct (decide (mtype m = MsgType.SOCKET)) as [Hm|Hm].
  - destruct b; [apply on_socket_grows; [apply (sn_next _ (proj1 Hu))|done]|by unfold grows|by unfold grows].
  - destruct (decide (mtype m ≠ MsgType.USER)); [by unfold grows; destruct (needs_reply m)|].
    destruct b; [by unfold grows; destruct (needs_reply m)|by apply on_command_grows|by unfold grows; destruct (needs_reply m)].
Qed.

Lemma resume_grows t r now w y : 0 ≤ next_connection (st w) → next_connection (st w) + 1 < 2 ^ 64 → resume t r now w = Some y → grows w y.
Proof.
  intros Hp Hn. unfold grows. destruct t as [sc p|sc p k|cc o p|cc o p k|cc o p k|o], r as [[j|e]|[[[peer|] loc]|e]|[e|]]; cbn [resume]; try done; intros Hr; apply (inj Some) in Hr as <-;
    try (cbn [fst]; by rewrite ?tell_st, ?reply_st, ?connect_failed_next);
    try (cbn [fst]; unfold listening, net_shutdown, listener_id; destruct (is_some_and _ _); by rewrite ?reply_st, ?tell_st).
  - destruct (co_bind o); cbn [fst]; by rewrite tell_st.
  - unfold connected. destruct (endpoint_connect _ _ _ _ _) as [ep [[h q]|e]]; cbn [fst]; [|by rewrite connect_failed_next].
    rewrite connection_id_eq by (cbn; lia). cbn. lia.
Qed.

(** ** The ledger of bytes *)

(** [acc] is what the streams were given: what a stream has taken is a beginning of it, and
    unless the stream is dead the rest is in its queue. *)
Definition ledger (acc : Z → Z → list Z) (s : State) : Prop :=
  (∀ id c, connections s !! id = Some c → ∀ st,
     settled st c ∧ sent (connection c) st `prefix_of` acc id st ∧ (dead (connection c) st ∨ acc id st = line st c)) ∧
  (∀ id st, next_connection s < id → acc id st = []).

Lemma sends_known cf p c s id st : connections s !! id = None → sends cf p c s id st = [].
Proof.
  intros Hn. destruct c; try done. cbn. case_decide; [|done]. unfold owned_connection. by rewrite Hn.
Qed.

(** A line that flows keeps the ledger. *)
Lemma flows_ledger st data c c' a :
  flows st data c c' → sent (connection c) st `prefix_of` a → dead (connection c) st ∨ a = line st c →
  sent (connection c') st `prefix_of` a ++ data ∧ (dead (connection c') st ∨ a ++ data = line st c').
Proof.
  intros [F1 F2] Hp [Hd| ->].
  - destruct (F1 Hd) as [Hd' ->]. split; [by apply prefix_app_r|by left].
  - destruct F2 as [F2|[Hd' Hpre]]; [|by split; [|left]]. rewrite <-F2. split; [|by right]. by apply prefix_app_r.
Qed.

Lemma emit_st o w : st (emit o w).1 = st w.
Proof. unfold emit. destruct (packets o); cbn [fst]; [apply emit_rest_effect|apply tell_st]. Qed.

Lemma settle_st c r s : st (world (settle c r s)) = st r.1.
Proof. by destruct r as [w [t|]]. Qed.

Lemma ledger_step acc data w wn now c s :
  sane (st w) → ledger acc (st w) → hflow data (st w) wn → upright (st wn.1) → grows w wn → (∀ id z, connections (st w) !! id = None → data id z = []) →
  ledger (λ id z, acc id z ++ data id z) (st (world (settle c (follow now wn) s))).
Proof.
  intros Hsane [L1 L2] Hf Hu Hg Hdn. rewrite settle_st. destruct wn as [w1 nx]. unfold grows in Hg. cbn [fst snd] in *.
  assert (Hover : ∀ id z, next_connection (st w) < id → acc id z ++ data id z = []).
  { intros id z Hid. rewrite L2, Hdn; [done| |done]. destruct (connections (st w) !! id) as [d|] eqn:Hd; [|done].
    destruct (sn_conn _ Hsane id d Hd) as (_ & ? & _). lia. }
  (* the handler alone *)
  assert (Hbook : ∀ id c', connections (st w1) !! id = Some c' → ∀ z,
    sent (connection c') z `prefix_of` acc id z ++ data id z ∧ (dead (connection c') z ∨ acc id z ++ data id z = line z c')
    ∧ (driven_by nx = Some (endpoint_socket c') ∨ settled z c')).
  { intros id c' Hc' z. destruct (Hf id c' Hc') as [(d & Hd & Hfl & Hk)|(Hid & Hw & Hs)].
    - destruct (L1 id d Hd z) as (A1 & A2 & A3). destruct (flows_ledger z (data id z) d c' _ (Hfl z) A2 A3) as [B1 B2].
      split_and!; [done|done|]. destruct Hk as [?| ->]; [by left|by right].
    - rewrite (Hover id z Hid), Hs. split_and!; [done| |right; left; unfold queue_of; by rewrite Hw].
      right. unfold line, queue_of. by rewrite Hs, Hw. }
  assert (Hrest : driven_by nx = None → ledger (λ id z, acc id z ++ data id z) (st w1)).
  { intros Hn. split; [|intros id z Hid; apply Hover; lia]. intros id c' Hc' z. destruct (Hbook id c' Hc' z) as (B1 & B2 & [B3|B3]); [congruence|done]. }
  destruct nx as [|t|o|direct k]; cbn [follow fst]; [by apply Hrest|by apply Hrest|rewrite emit_st; by apply Hrest|].
  destruct (drive_drives (config w1) k now (st w1) (proj1 Hu)) as (s' & o' & Hd & Hok). rewrite Hd, emit_st. cbn [st set_st].
  destruct (drive_along _ _ _ _ _ _ Hu Hd) as [A1 A2]. split; [|intros id z Hid; apply Hover; rewrite (do_next _ _ _ _ _ _ Hok) in Hid; lia].
  intros id c' Hc' z. destruct (A1 id c' Hc') as (d & Hdc & Hfl). destruct (Hbook id d Hdc z) as (B1 & B2 & _).
  destruct (flows_ledger z [] d c' _ (Hfl z) B1 B2) as [C1 C2]. rewrite app_nil_r in C1, C2. split_and!; try done.
  apply (A2 id c' Hc'). destruct (decide (endpoint_socket d = k)) as [<-|Hne].
  - left. by apply (sn_conn _ (proj1 Hu) id d).
  - right. intros d2 Hd2 st2. assert (d2 = d) as -> by congruence. destruct (Hbook id d Hdc st2) as (_ & _ & [[= B3]|B3]); [congruence|done].
Qed.

(** The bytes an event gives to the streams. *)
Definition event_sends (ev : Event) (s : Sys) : Z → Z → list Z :=
  match ev with
  | EMessage _ m b _ => message_sends m b (world s)
  | EPosted _ k _ => match posted (world s) !! k with Some c => sends (config (world s)) (mkPending 0 0) c (st (world s)) | None => none end
  | _ => none
  end.

Lemma message_sends_known m b w id z : connections (QuicService.st w) !! id = None → message_sends m b w id z = [].
Proof. intros Hn. unfold message_sends. destruct (decide _); [|done]. destruct b; try done. by apply sends_known. Qed.

Lemma step_ledger cf n a acc ev s s' :
  sys_good cf n a s → n + 1 < 2 ^ 64 → fresh ev s = true → ledger acc (st (world s)) → step ev s = Some s' →
  ledger (λ id z, acc id z ++ event_sends ev s id z) (st (world s')).
Proof.
  intros HG Hn Hf HL. unfold step. rewrite (g_panic _ _ _ _ _ _ _ HG). destruct s as [w ts]. cbn [world tasks] in *.
  pose proof (g_up _ _ _ _ _ _ _ HG) as Hu. pose proof (g_next _ _ _ _ _ _ _ HG) as Hb. cbn [world] in *.
  assert (Hset : ∀ id d, connections (st w) !! id = Some d → ∀ z, settled z d) by (intros id d Hd z; by apply (proj1 HL id d Hd)).
  pose proof (sn_next _ (proj1 Hu)) as Hp.
  assert (Hnil : ∀ w', connections (st w') = connections (st w) → next_connection (st w') = next_connection (st w) → ledger (λ id z, acc id z ++ none id z) (st w')).
  { intros w' H2 H3. destruct HL as [L1 L2]. split; rewrite ?H2, ?H3; [intros id c Hc z; rewrite app_nil_r; by apply L1|intros id z Hi; rewrite app_nil_r; by apply L2]. }
  destruct ev as [c m b now|c r now|k|c k now|up]; cbn [event_sends].
  - case_decide as Hc; [|done]. intros [= <-]. apply (ledger_step acc _ w); try done; [apply Hu|by apply dispatch_flow; [|lia|]| | |].
    + destruct (dispatch_good cf n a w ts m b now HG Hn Hf) as [HG1 _]. apply HG1.
    + apply dispatch_grows; [done|lia].
    + intros id z. apply message_sends_known.
  - destruct (ts !! c) as [t|] eqn:Hc; [|done]. cbn [mbind option_bind]. destruct (resume t r now w) as [y|] eqn:Hr; [|done]. cbn. intros [= <-].
    apply (ledger_step acc none w); try done; [apply Hu|by eapply resume_flow; [| |exact Hr]; lia| |by eapply resume_grows; [| |exact Hr]; lia].
    destruct (quic_resume_good cf n a w t (delete c ts) r now y (good_take _ _ _ _ _ _ _ HG Hc) Hn) as [HG1 _]; [|done|apply HG1].
    destruct r as [[k|]| |]; try done. cbn in Hf. apply bool_decide_eq_true in Hf as [? ?]. split; [done|]. by apply map_Forall_delete.
  - destruct (timers w !! k) as [x|]; [|done]. cbn. intros [= <-]. by apply Hnil.
  - case_decide as Hc; [|done]. destruct (posted w !! k) as [x|] eqn:Hk; [|done]. cbn [world]. rewrite Hk. intros [= <-]. set (w1 := set_posted _ w).
    apply (ledger_step acc _ w1); try done; [apply Hu|by apply (on_command_flow (mkPending 0 0) x now w1)| |by apply (on_command_grows (mkPending 0 0) x now w1)|].
    + destruct (quic_posted_good cf n a w ts x k now HG Hk) as [HG1 _]. apply HG1.
    + intros id z. apply sends_known.
  - intros [= <-]. by apply Hnil.
Qed.

(** What the stream [st] of the connection [id] was given in a run. *)
Fixpoint given (evs : list Event) (s : Sys) (id st : Z) : list Z :=
  match evs with
  | [] => []
  | ev :: evs => event_sends ev s id st ++ match step ev s with Some s => given evs s id st | None => [] end
  end.

Lemma run_ledger cf n a acc evs s s' :
  sys_good cf n a s → n + Z.of_nat (length evs) < 2 ^ 64 → orderly evs s = true → ledger acc (st (world s)) → run evs s = Some s' →
  ledger (λ id st, acc id st ++ given evs s id st) (st (world s')).
Proof.
  revert n a acc s. induction evs as [|ev evs IH]; intros n a acc s HG Hn Ho HL Hr; cbn in *.
  { injection Hr as <-. destruct HL as [L1 L2]. split; [intros id c Hc st; rewrite app_nil_r; by apply L1|intros id st Hi; rewrite app_nil_r; by apply L2]. }
  apply andb_true_iff in Ho as [Hf Ho]. destruct (step ev s) as [s1|] eqn:Hs; [|done]. cbn in Hr.
  pose proof (quic_step_good cf n a ev s s1 HG ltac:(lia) Hf Hs) as HG1. pose proof (step_ledger cf n a acc ev s s1 HG ltac:(lia) Hf HL Hs) as HL1.
  pose proof (IH _ _ _ _ HG1 ltac:(lia) Ho HL1 Hr) as [L1 L2]. split.
  - intros id c Hc st. rewrite app_assoc. by apply L1.
  - intros id st Hi. rewrite app_assoc. by apply L2.
Qed.

End streams.
End QuicStreams.
