(* ===== verification/QuicExamples.v ===== *)
(** * Runs of the QUIC service with a protocol that can be computed

    A protocol of one page in the place of [quinn_proto], which obeys the laws the theorems
    of [QuicRun.v] and [QuicStreams.v] rely on; the inputs at which they are applied; and two
    runs that go wrong: a writer whose connection is closed under it is never answered, and
    the data of a stream reaches its owner out of order. *)
From S2P Require Import Prelude Message NetBuffer NetSocket NetService QuicService QuicBooks QuicRun QuicStreams.
From stdpp Require Import strings.
#[local] Open Scope Z_scope.

Module QuicExamples.
Import NetSocket(SocketId, Pending, mkPending, p_source, p_session).
Import QuicService QuicBooks QuicRun QuicStreams.

(** ** The protocol *)

(** [x_room] is what all streams can still take, [x_log] what they took, [x_inbox] what
    the stream 0 has to be read. *)
Record XConn : Type := mkX {
  x_shaking : bool; x_shut : bool; x_gone : bool; x_events : list PEvent; x_inbox : list (list Z);
  x_room : nat; x_log : list (Z * list Z); x_tx : list (list Z); x_timeout : option Z }.

Definition x_new : XConn := mkX true false false [] [] 2 [] [[0]] (Some 30000000).

Definition x_home : SocketAddr := V4 2130706433 4433.

Inductive XEvent : Type := XUp | XData (bs : list Z) (ack : bool) | XRoom (n : nat).

Definition x_handle (q : XConn) (e : XEvent) : XConn :=
  match e with
  | XUp => mkX false (x_shut q) (x_gone q) (x_events q ++ [PConnected]) (x_inbox q) (x_room q) (x_log q) (x_tx q ++ [[1]]) (x_timeout q)
  | XData bs ack =>
      mkX (x_shaking q) (x_shut q) (x_gone q) (x_events q ++ [PStream (Readable 0)]) (x_inbox q ++ [bs]) (x_room q) (x_log q)
        (if ack then x_tx q ++ [[2]] else x_tx q) (x_timeout q)
  | XRoom n => mkX (x_shaking q) (x_shut q) (x_gone q) (x_events q) (x_inbox q) (x_room q + n) (x_log q) (x_tx q) (x_timeout q)
  end.

Definition x_poll (q : XConn) : XConn * option PEvent :=
  match x_events q with
  | [] => (q, None)
  | e :: es =>
      (mkX (x_shaking q) (match e with ConnectionLost _ => true | _ => x_shut q end) (x_gone q) es (x_inbox q) (x_room q) (x_log q) (x_tx q) (x_timeout q), Some e)
  end.

Definition x_write (q : XConn) (s : Z) (data : list Z) : XConn * (Z + WriteError) :=
  if x_shut q then (q, inr WBlocked) else
  if decide (x_room q = 0%nat ∧ data ≠ []) then (q, inr WBlocked) else
  let n := Nat.min (x_room q) (length data) in
  (mkX (x_shaking q) (x_shut q) (x_gone q) (x_events q) (x_inbox q) (x_room q - n) (x_log q ++ [(s, take n data)]) (x_tx q) (x_timeout q), inl (Z.of_nat n)).

Definition x_read (q : XConn) (s : Z) : XConn * option (option (list Z) + ReadError) :=
  match x_inbox q with
  | bs :: rest => (mkX (x_shaking q) (x_shut q) (x_gone q) (x_events q) rest (x_room q) (x_log q) (x_tx q) (x_timeout q), Some (inl (Some bs)))
  | [] => (q, Some (inr RBlocked))
  end.

Definition x_transmit (q : XConn) (buffer : list Z) : XConn * list Z * option Transmit :=
  match x_tx q with
  | [] => (q, buffer, None)
  | p :: ps =>
      (mkX (x_shaking q) (x_shut q) (x_gone q) (x_events q) (x_inbox q) (x_room q) (x_log q) ps (x_timeout q), buffer ++ p,
       Some (mkTransmit x_home (Z.of_nat (length (buffer ++ p)))))
  end.

(** What a datagram is: a new connection, or news for the connection of a handle. *)
Definition x_datagram (e : Z) (data : list Z) : option (Z * XEvent + (unit + Transmit)) :=
  match data with
  | 0 :: _ => Some (inr (inl tt))
  | 1 :: h :: _ => Some (inl (h, XUp))
  | 2 :: h :: bs => Some (inl (h, XData bs true))
  | 3 :: h :: bs => Some (inl (h, XData bs false))
  | 4 :: h :: n :: _ => Some (inl (h, XRoom (Z.to_nat n)))
  | _ => None
  end.

#[local] Instance x_quic : QuicEngine := {|
  QConn := XConn; QEndpoint := Z; Incoming := unit; ConnectionEvent := XEvent; EndpointEvent := Empty_set;
  ClientTlsConfig := unit; ServerTlsConfig := unit; ClientCrypto := unit; ServerCrypto := unit;
  varint_from_u64 v := if decide (v < 2 ^ 62) then Some v else None;
  idle_timeout_ok v := bool_decide (v < 2 ^ 62);
  client_crypto _ := inl tt; server_crypto _ := inl tt;
  endpoint_new _ := 0;
  endpoint_connect e _ _ _ _ := (e + 1, inl (e, x_new));
  endpoint_handle e _ _ data := (e, [], x_datagram e data);
  endpoint_accept e _ _ b := (e + 1, b, inl (e, x_new));
  endpoint_refuse e _ b := (e, b ++ [7], mkTransmit x_home 1);
  endpoint_handle_event e _ _ := (e, None);
  handle_event := x_handle;
  handle_timeout q _ := mkX (x_shaking q) (x_shut q) (x_gone q || x_shut q) (x_events q) (x_inbox q) (x_room q) (x_log q) (x_tx q) None;
  poll_timeout := x_timeout;
  poll_endpoint_events q := (q, None);
  poll := x_poll;
  poll_transmit q _ b := x_transmit q b;
  conn_close q now _ _ := mkX (x_shaking q) true (x_gone q) (x_events q) (x_inbox q) (x_room q) (x_log q) (x_tx q) (Some (now + 3000));
  is_closed := x_shut; is_handshaking := x_shaking; is_drained := x_gone;
  remote_address _ := x_home; handshake_protocol _ := None; path_rtt _ := 0; path_cwnd _ := 0; send_streams _ := 0;
  stream_open q _ := (q, Some 0);
  stream_accept q _ := (q, None);
  stream_write := x_write;
  stream_finish q _ := (q, None);
  stream_reset q _ _ := (q, None);
  stream_stop q _ _ := (q, None);
  read_chunk q s _ := x_read q s;
  datagram_send q _ := (q, None);
  datagram_recv q := (q, None);
  error_text _ := ""%string;
  endpoint_work _ := 0%nat;
  app_work q := (length (x_events q) + length (x_inbox q))%nat;
  tx_work q := length (x_tx q);
|}.

Lemma x_write_work q s data : (app_work (x_write q s data).1 ≤ app_work q)%nat.
Proof. unfold x_write. destruct (x_shut q); [done|]. by case_decide. Qed.

#[local] Instance x_quic_laws : QuicLaws.
Proof.
  split; cbn -[app_work].
  - intros q q' r [= <- <-]. cbn. lia.
  - done.
  - intros q q' r. unfold x_poll. destruct (x_events q) as [|e es] eqn:He; intros [= <- <-]; cbn; rewrite ?He; cbn; lia.
  - intros q d q' r [= <- <-]. cbn. lia.
  - intros q q' r [= <- <-]. cbn. lia.
  - intros q s c q' r. unfold x_read. destruct (x_inbox q) as [|e es] eqn:He; intros [= <- <-]; cbn; rewrite ?He; cbn; lia.
  - intros q s data. apply x_write_work.
  - done.
  - intros q now b q' b' t. unfold x_transmit. destruct (x_tx q) as [|p ps] eqn:He; [done|]. intros [= <- <- <-]. cbn. split; lia.
  - intros e now from data e' b t. intros [= <- <- Hd]. unfold x_datagram in Hd. by repeat case_match.
  - done.
  - intros e inc b e' b' t [= <- <- <-]. cbn. rewrite length_app. cbn. lia.
  - intros q s data q' n. unfold x_write. destruct (x_shut q); [done|]. case_decide; [done|]. intros [= <- <-]. lia.
  - intros q q' Hm. destruct Hm as [e| | | | | | | |s data| | | |s c| |]; cbn; try done.
    + by destruct e.
    + unfold x_poll. by destruct (x_events q).
    + unfold x_transmit. by destruct (x_tx q).
    + unfold x_write. destruct (x_shut q); [done|]. by case_decide.
    + unfold x_read. by destruct (x_inbox q).
Qed.

Definition x_sent (q : XConn) (s : Z) : list Z := x_log q ≫= λ sd, if decide (sd.1 = s) then sd.2 else [].

Lemma x_write_cases q s data :
  x_write q s data = (q, inr WBlocked) ∧ (x_shut q = true ∨ x_room q = 0%nat) ∨
  ∃ n q', x_write q s data = (q', inl (Z.of_nat n)) ∧ x_shut q = false ∧ x_shut q' = false ∧ n = Nat.min (x_room q) (length data) ∧
    x_room q' = (x_room q - n)%nat ∧ x_log q' = x_log q ++ [(s, take n data)].
Proof.
  unfold x_write. destruct (x_shut q) eqn:Hs; [by left; split; [|left]|]. case_decide as Hr; [left; split; [done|by right; destruct Hr]|].
  right. eexists _, _. split_and!; done.
Qed.

#[local] Instance x_streams : StreamLaws.
Proof.
  refine {| sent := x_sent; dead q _ := x_shut q = true; stuck q _ := x_shut q = true ∨ x_room q = 0%nat |}.
  - intros e now cc peer name e' h q s [= _ _ <-]. done.
  - intros e inc now b e' b' h q s [= _ _ _ <-]. done.
  - intros q q' s Hm. destruct Hm as [e| | | | | | | | | | |s2 c| |]; cbn; try done.
    + by destruct e.
    + unfold x_poll. by destruct (x_events q).
    + unfold x_transmit. by destruct (x_tx q).
    + unfold x_read. by destruct (x_inbox q).
  - intros q s data q' n. cbn. destruct (x_write_cases q s data) as [[-> _]|(m & q2 & -> & _ & _ & _ & _ & Hl)]; [done|]. intros [= <- <-].
    unfold x_sent. rewrite Hl, bind_app. cbn. rewrite decide_True, app_nil_r, Nat2Z.id by done. done.
  - intros q s data q' e. cbn. destruct (x_write_cases q s data) as [[-> _]|(m & q2 & -> & _)]; by intros [= <- _].
  - intros q s data s' Hne. cbn. destruct (x_write_cases q s data) as [[-> _]|(m & q2 & -> & _ & _ & _ & _ & Hl)]; [done|].
    unfold x_sent. cbn. rewrite Hl, bind_app. cbn. rewrite decide_False, app_nil_r by done. done.
  - intros q q' s Hm Hd. destruct Hm as [e| | | | | | | |s2 data| | | |s2 c| |]; cbn; try done.
    + by destruct e.
    + unfold x_poll. destruct (x_events q) as [|[] ?]; done.
    + unfold x_transmit. by destruct (x_tx q).
    + unfold x_write. by rewrite Hd.
    + unfold x_read. by destruct (x_inbox q).
  - intros q s data q' n Hd. cbn. unfold x_write. by rewrite Hd.
  - intros q s data q' e. cbn. destruct (x_write_cases q s data) as [[-> _]|(m & q2 & -> & _)]; done.
  - intros q q' e s. cbn. unfold x_poll. destruct (x_events q) as [|e0 es]; [done|]. intros [= <- ->]. done.
  - intros q s data q'. cbn. destruct (x_write_cases q s data) as [[-> Hb]|(m & q2 & -> & _)]; [|done]. by intros [= <-].
  - intros q s data q' n. cbn. destruct (x_write_cases q s data) as [[-> _]|(m & q2 & -> & _ & _ & Hm & Hr & _)]; [done|]. intros [= <- <-] Hlt. right. lia.
  - intros q s data q' n Hst. cbn. destruct (x_write_cases q s data) as [[-> _]|(m & q2 & -> & H1 & _ & Hm & _)]; [done|]. intros [= <- <-].
    destruct Hst as [?|Hr]; [congruence|]. rewrite Hr in Hm. cbn in Hm. by rewrite Hm.
  - intros q s s' data Hst. cbn. destruct (x_write_cases q s' data) as [[-> _]|(m & q2 & -> & H1 & H2 & Hm & Hr & _)]; [done|]. cbn.
    right. destruct Hst as [?|Hz]; [congruence|]. lia.
  - done.
  - intros q s now b Hst. cbn. unfold x_transmit. by destruct (x_tx q).
Defined.

(** ** Runs *)

Definition quic_cmd (c src sess : Z) (x : Command) (now : Z) : Event := EMessage c (mkMessage src sess MsgType.USER PNone) (BCommand x) now.

Definition quic_udp (c k : Z) (data : list Z) (now : Z) : Event := EMessage c (mkMessage 2 0 MsgType.SOCKET PNone) (BSocket (NetService.EUdp k x_home data)) now.

(** The service 7 listens on the socket 5 and takes a connection over. *)
Definition quic_serve : list Event :=
  [ quic_cmd 1 7 1 (Listen (mkServerOptions (NetService.Literal x_home) tt transport_default)) 0;
    EResume 1 (RSocket (inl 5)) 10; EResume 1 (RInfo (inl (None, Some x_home))) 20;
    quic_udp 2 5 [0] 100; EResume 2 (RDone None) 110;
    quic_udp 3 5 [1; 0] 200; EResume 3 (RDone None) 210;
    quic_cmd 4 7 2 (Start 1) 300 ].

(** It sends more than the stream takes and waits for the rest, while the service 8 connects. *)
Definition quic_busy : list Event :=
  quic_serve ++ [ quic_cmd 5 7 3 (Send 1 0 [10; 11; 12] true) 400;
                  quic_cmd 6 8 4 (Connect (mkClientOptions (NetService.Literal x_home) None "example" tt transport_default None)) 500 ].

Definition quic_start : Sys := sys_new quic_config_default true.

(** A connection is on the endpoint of the socket 5, with a timeout. *)
Definition busy_check (s : Sys) : bool :=
  bool_decide (connecting s = 1) && match connections (st (world s)) !! 1 with
  | Some c => bool_decide (endpoint_socket c = 5 ∧ poll_timeout (connection c) = Some 30000000 ∧ sent (connection c) 0 = [10; 11] ∧ buffered_bytes c = 1)
  | None => false
  end.

Lemma quic_busy_view : ∃ s, run quic_busy quic_start = Some s ∧ busy_check s = true.
Proof. apply some_view. by vm_compute. Qed.

(** A run whose events are orderly, which can be computed. *)
Lemma quic_runs_intro evs s :
  run evs quic_start = Some s → orderly evs quic_start && bool_decide (Z.of_nat (length evs) < 2 ^ 64) = true → runs quic_config_default true evs s.
Proof. intros Hs [Ho Hn%bool_decide_eq_true]%andb_true_iff. split_and!; [exact Hs|exact Ho|exact Hn|done|done]. Qed.

Lemma quic_busy_runs s : run quic_busy quic_start = Some s → runs quic_config_default true quic_busy s.
Proof. intros Hs. apply quic_runs_intro; [exact Hs|vm_compute; reflexivity]. Qed.

Lemma quic_busy_facts s : busy_check s = true →
  connecting s = 1 ∧ ∃ c, connections (st (world s)) !! 1 = Some c ∧ endpoint_socket c = 5 ∧ poll_timeout (connection c) = Some 30000000.
Proof.
  unfold busy_check. destruct (connections (st (world s)) !! 1) as [c|]; [|by rewrite andb_false_r].
  rewrite andb_true_iff, !bool_decide_eq_true. intros (Ht & Hk & Hp & _). eauto.
Qed.

Lemma quic_limits_witness :
  ∃ s, run quic_busy quic_start = Some s ∧ connecting s = 1 ∧ reserved_connections (st (world s)) = connecting s
  ∧ Z.of_nat (size (connections (st (world s)))) + connecting s ≤ 65536.
Proof.
  destruct quic_busy_view as (s & Hs & Hc). exists s. split; [exact Hs|]. split; [exact (proj1 (quic_busy_facts s Hc))|].
  destruct (quic_limits quic_config_default true quic_busy s (quic_busy_runs s Hs)) as (H1 & _ & H2 & _). split; [exact H1|exact H2].
Defined.

Lemma quic_tables_agree_witness :
  ∃ s c, run quic_busy quic_start = Some s ∧ panicked (world s) = false ∧ connections (st (world s)) !! 1 = Some c ∧ c_id c = 1
  ∧ ∃ ep h, endpoints (st (world s)) !! 5 = Some ep ∧ e_connections ep !! h = Some 1.
Proof.
  destruct quic_busy_view as (s & Hs & Hc). destruct (quic_busy_facts s Hc) as (_ & c & Hd & Hk & _). exists s, c. split; [exact Hs|].
  destruct (quic_tables_agree quic_config_default true quic_busy s (quic_busy_runs s Hs)) as (Hp & H1 & _). destruct (H1 1 c Hd) as (Hi & He & _).
  split; [exact Hp|]. split; [exact Hd|].
  rewrite Hk in He. split; [exact Hi|exact He].
Defined.

Lemma quic_callers_answered_witness :
  ∃ s, run quic_busy quic_start = Some s ∧ answered (7, 3) (outs (world s)) + waiting (7, 3) s = asked (7, 3) quic_busy - lost (7, 3) quic_busy quic_start.
Proof.
  destruct quic_busy_view as (s & Hs & _). exists s. split; [exact Hs|].
  exact (quic_callers_answered quic_config_default true quic_busy s (7, 3) (quic_busy_runs s Hs) ltac:(discriminate)).
Defined.

Lemma quic_timeouts_watched_witness :
  ∃ s ep d, run quic_busy quic_start = Some s ∧ endpoints (st (world s)) !! 5 = Some ep ∧ timer_deadline ep = Some d ∧ d ≤ 30000000.
Proof.
  destruct quic_busy_view as (s & Hs & Hc). destruct (quic_busy_facts s Hc) as (_ & c & Hd & Hk & Ht).
  destruct (quic_timeouts_watched quic_config_default true quic_busy s 1 c 30000000 (quic_busy_runs s Hs) Hd Ht) as (ep & d & H1 & H2 & H3 & _).
  rewrite Hk in H1. exists s, ep, d. split; [exact Hs|]. split; [exact H1|]. split; [exact H2|exact H3].
Defined.


(** ** Runs that go wrong *)

(** The owner closes the connection while it waits for a write; the close timer ends. *)
Definition quic_stranded : list Event :=
  quic_serve ++ [ quic_cmd 5 7 3 (Send 1 0 [10; 11; 12] true) 400; quic_cmd 6 7 4 (Close 1 0 []) 500; ETimer 1; EPosted 7 0 4000 ].

(** The owner of a stream gets two pieces of its data while a packet of the first waits for
    the network service. *)
Definition quic_overtaken : list Event :=
  quic_serve ++ [ quic_udp 5 5 [2; 0; 100] 400; quic_udp 6 5 [3; 0; 101] 500; EResume 5 (RDone None) 600 ].

Definition stream_data (to : Z) (o : Out) : list Z := match o with OEmit w (StreamData _ _ bs) => if decide (w = to) then bs else [] | _ => [] end.

Definition stranded_check (s : Sys) : bool :=
  bool_decide (answered (7, 3) (outs (world s)) = 0 ∧ waiting (7, 3) s = 0 ∧ connections (st (world s)) !! 1 = None).

Lemma stranded_view : ∃ s, run quic_stranded quic_start = Some s ∧ stranded_check s = true.
Proof. apply some_view. vm_compute. reflexivity. Qed.

Lemma stranded_runs s : run quic_stranded quic_start = Some s → runs quic_config_default true quic_stranded s.
Proof. intros Hs. apply quic_runs_intro; [exact Hs|vm_compute; reflexivity]. Qed.

(** A caller that waits for a write when its own service closes the connection is never
    answered: it asked once, the connection is drained and gone, and nothing is left that
    waits for it. *)
Theorem quic_close_strands_writer :
  ∃ s, runs quic_config_default true quic_stranded s ∧ asked (7, 3) quic_stranded = 1 ∧ answered (7, 3) (outs (world s)) = 0
  ∧ waiting (7, 3) s = 0 ∧ connections (st (world s)) !! 1 = None.
Proof.
  destruct stranded_view as (s & Hs & Hc). unfold stranded_check in Hc. apply bool_decide_eq_true in Hc as (H1 & H2 & H3). exists s.
  split; [exact (stranded_runs s Hs)|]. split; [vm_compute; reflexivity|]. split; [exact H1|]. split; [exact H2|exact H3].
Qed.

Definition overtaken_check (s : Sys) : bool := bool_decide (outs (world s) ≫= stream_data 7 = [101; 100]).

Lemma overtaken_view : ∃ s, run quic_overtaken quic_start = Some s ∧ overtaken_check s = true.
Proof. apply some_view. vm_compute. reflexivity. Qed.

Lemma overtaken_runs s : run quic_overtaken quic_start = Some s → runs quic_config_default true quic_overtaken s.
Proof. intros Hs. apply quic_runs_intro; [exact Hs|vm_compute; reflexivity]. Qed.

(** The data of a stream reaches its owner out of order: the bytes 100 and then 101 come in,
    and as the handler of the first waits for its packet to be sent before it sends its
    events, the owner gets 101 first. *)
Theorem quic_data_overtaken :
  ∃ s, runs quic_config_default true quic_overtaken s ∧ outs (world s) ≫= stream_data 7 = [101; 100].
Proof.
  destruct overtaken_view as (s & Hs & Hc). unfold overtaken_check in Hc. apply bool_decide_eq_true in Hc. exists s.
  split; [exact (overtaken_runs s Hs)|exact Hc].
Qed.
End QuicExamples.
