(* ===== verification/Plugin.v ===== *)
(** * Plugins of a service

    [rskynet-plugin/src/lib.rs]: descriptors and their registry, the order in which the
    plugins of a configuration are set up, their capabilities and subscriptions, and the
    dispatch of commands and events.  What a plugin does is a program over the operations
    it is given, cut where it awaits something; a value that crosses the [Any] interface is
    its [TypeId] and an object.  Where the code would panic a definition yields [None], or
    [Broken] for a program.  The texts of [Error::Config] and [Error::Service] are the
    constructors of [Fault]. *)
From S2P Require Import Prelude Message.
From Stdlib Require Import Ascii String.
From stdpp Require Import strings sorting relations.
#[local] Open Scope Z_scope.

Module Plugin.

(** ** Identifiers *)

(** [value.trim().is_empty()] on UTF-8: nothing but characters with [White_Space]. *)
Fixpoint blank (l : list Z) : bool :=
  match l with
  | [] => true
  | a :: l1 =>
      if decide (9 ≤ a ≤ 13 ∨ a = 32) then blank l1 else
      match l1 with
      | [] => false
      | b :: l2 =>
          if decide (a = 194 ∧ (b = 133 ∨ b = 160)) then blank l2 else
          match l2 with
          | [] => false
          | c :: l3 =>
              if decide (a = 225 ∧ b = 154 ∧ c = 128 ∨ a = 226 ∧ b = 128 ∧ (128 ≤ c ≤ 138 ∨ c = 168 ∨ c = 169 ∨ c = 175) ∨
                         a = 226 ∧ b = 129 ∧ c = 159 ∨ a = 227 ∧ b = 128 ∧ c = 128)
              then blank l3 else false
          end
      end
  end.

Definition bytes_of (s : string) : list Z := (λ c, Z.of_nat (nat_of_ascii c)) <$> String.list_ascii_of_string s.

Definition validate_identifier (value : string) : bool := negb (blank (bytes_of value)).

Definition TypeId : Type := Z.
Definition CommandId : Type := Z.

(** [Arc<dyn Any>], [Box<dyn Any>]. *)
Record AnyValue : Type := mkAny { any_type : TypeId; any_object : Z }.

Inductive Fault : Type :=
  | BlankName
  | RegisteredTwice (namespace name previous source : string)
  | ConfiguredTwice (name : string)
  | NotRegistered (name : string)
  | DependencyOff (plugin dependency : string)
  | CommandTwice (c : CommandId) (previous name : string)
  | DependencyCycle (name : string)
  | AlreadyInitialized
  | ProvidedTwice (t : TypeId) (previous plugin : string)
  | SubscribedTwice (plugin : string) (t : TypeId)
  | NotProvided (plugin : string) (t : TypeId)
  | NotDeclared (plugin provider : string) (t : TypeId)
  | DebugTwice (name : string) (mtype : Z)
  | NoSelf
  | NotImplemented (c : CommandId)
  | Failed (reason : string).

(** ** What a plugin does *)

(** A future over a [PluginCtx]: [require], [emit], a reply to a message, and anything else
    it awaits; an object is what [require] and an [await] give. *)
Inductive Code : Type :=
  | Return (r : option Fault)
  | Require (t : TypeId) (k : Z + Fault → Code)
  | Emit (e : AnyValue) (k : option Fault → Code)
  | Reply (m : Message) (object : Z) (k : Code)
  | Await (k : Z → Code).

(** What [mount] does with its [PluginMount]. *)
Inductive MountCode : Type :=
  | MReturn (r : option Fault)
  | MProvide (c : AnyValue) (k : option Fault → MountCode)
  | MSubscribe (t : TypeId) (handler : Z → Code) (k : option Fault → MountCode).

(** A [DebugMessageDescriptor]: its name and message type. *)
Definition DebugMessage : Type := string * Z.

Record ServicePlugin : Type := mkPlugin {
  debug_messages : list DebugMessage;
  mount : MountCode;
  init : string → Code;
  handle : CommandId → Message → Z → Code;
}.

(** The default methods of the trait. *)
Definition default_plugin : ServicePlugin := mkPlugin [] (MReturn None) (λ _, Return None) (λ c _ _, Return (Some (NotImplemented c))).

Record PluginDescriptor : Type := mkDescriptor {
  d_namespace : string;
  d_name : string;
  dependencies : list string;
  commands : list CommandId;
  factory : ServicePlugin;
  d_source : string;
}.

(** ** The registry *)

Definition PluginRegistry : Type := gmap (string * string) PluginDescriptor.

Definition register (d : PluginDescriptor) (r : PluginRegistry) : PluginRegistry + Fault :=
  if negb (validate_identifier (d_namespace d)) then inr BlankName else
  if negb (validate_identifier (d_name d)) then inr BlankName else
  match r !! (d_namespace d, d_name d) with
  | Some previous => inr (RegisteredTwice (d_namespace d) (d_name d) (d_source previous) (d_source d))
  | None => inl (<[(d_namespace d, d_name d) := d]> r)
  end.

Fixpoint register_all (ds : list PluginDescriptor) (r : PluginRegistry) : PluginRegistry + Fault :=
  match ds with
  | [] => inl r
  | d :: ds => match register d r with inl r => register_all ds r | inr e => inr e end
  end.

Definition from_descriptors (ds : list PluginDescriptor) : PluginRegistry + Fault := register_all ds ∅.

(** The order of [str], byte by byte. *)
Fixpoint lex_le (a b : list Z) : bool :=
  match a, b with
  | [], _ => true
  | _ :: _, [] => false
  | x :: a, y :: b => if decide (x < y) then true else if decide (x = y) then lex_le a b else false
  end.

Definition str_le (a b : string) : bool := lex_le (bytes_of a) (bytes_of b).

(** [sort_unstable_by_key]: by namespace, name and source. *)
Definition key_le (a b : string * string * string) : bool :=
  let '(n, m, s) := a in
  let '(n', m', s') := b in
  if decide (n = n') then if decide (m = m') then str_le s s' else str_le m m' else str_le n n'.

Definition sort_key (d : PluginDescriptor) : string * string * string := (d_namespace d, d_name d, d_source d).

Definition descriptor_le (a b : PluginDescriptor) : Prop := key_le (sort_key a) (sort_key b) = true.

#[global] Instance descriptor_le_dec a b : Decision (descriptor_le a b).
Proof. unfold descriptor_le. apply _. Defined.

(** [from_auto], of the descriptors in the order of the linker. *)
Definition from_auto (ds : list PluginDescriptor) : PluginRegistry + Fault := from_descriptors (merge_sort descriptor_le ds).

Definition get (namespace name : string) (r : PluginRegistry) : option PluginDescriptor := r !! (namespace, name).

(** ** The order of plugins *)

Record PluginSpec : Type := mkSpec { s_name : string; s_config : string }.

(** The first loop of [resolve]: the entries of the configuration by name, and their order. *)
Fixpoint collect_specs (specs : list PluginSpec) (m : gmap string PluginSpec) (order : list string) : gmap string PluginSpec * list string + Fault :=
  match specs with
  | [] => inl (m, order)
  | spec :: specs =>
      if negb (validate_identifier (s_name spec)) then inr BlankName else
      match m !! s_name spec with
      | Some _ => inr (ConfiguredTwice (s_name spec))
      | None => collect_specs specs (<[s_name spec := spec]> m) (order ++ [s_name spec])
      end
  end.

(** The second loop: their descriptors. *)
Fixpoint collect_descriptors (namespace : string) (r : PluginRegistry) (order : list string) (m : gmap string PluginDescriptor) : gmap string PluginDescriptor + Fault :=
  match order with
  | [] => inl m
  | name :: order =>
      match get namespace name r with
      | None => inr (NotRegistered name)
      | Some d => collect_descriptors namespace r order (<[name := d]> m)
      end
  end.

(** The third loop: every dependency is enabled. *)
Fixpoint missing_dependency (ds : gmap string PluginDescriptor) (l : list PluginDescriptor) : option Fault :=
  match l with
  | [] => None
  | d :: l =>
      match list_find (λ x, ds !! x = None) (dependencies d) with
      | Some (_, x) => Some (DependencyOff (d_name d) x)
      | None => missing_dependency ds l
      end
  end.

(** The fourth loop: no command has two plugins. *)
Fixpoint claim_commands (name : string) (cs : list CommandId) (m : gmap CommandId string) : gmap CommandId string + Fault :=
  match cs with
  | [] => inl m
  | c :: cs => match m !! c with Some previous => inr (CommandTwice c previous name) | None => claim_commands name cs (<[c := name]> m) end
  end.

Fixpoint claim_all (l : list PluginDescriptor) (m : gmap CommandId string) : gmap CommandId string + Fault :=
  match l with
  | [] => inl m
  | d :: l => match claim_commands (d_name d) (commands d) m with inl m => claim_all l m | inr e => inr e end
  end.

Inductive Visit : Type := Visiting | Done.

#[global] Instance Visit_eq_dec : EqDecision Visit.
Proof. solve_decision. Defined.

Record VisitState : Type := mkVisits { states : gmap string Visit; ordered : list string }.

(** [for dependency in .. { visit(dependency)?; }]. *)
Fixpoint visit_each (visit : string → VisitState → option (VisitState + Fault)) (names : list string) (s : VisitState) : option (VisitState + Fault) :=
  match names with
  | [] => Some (inl s)
  | name :: names => match visit name s with Some (inl s) => visit_each visit names s | r => r end
  end.

(** [visit_plugin]; [None] when out of fuel, or when [descriptors\[name\]] panics. *)
Fixpoint visit_plugin (fuel : nat) (ds : gmap string PluginDescriptor) (name : string) (s : VisitState) : option (VisitState + Fault) :=
  match fuel with
  | O => None
  | S fuel =>
      match states s !! name with
      | Some Done => Some (inl s)
      | Some Visiting => Some (inr (DependencyCycle name))
      | None =>
          d ← ds !! name;
          match visit_each (visit_plugin fuel ds) (dependencies d) (mkVisits (<[name := Visiting]> (states s)) (ordered s)) with
          | Some (inl s) => Some (inl (mkVisits (<[name := Done]> (states s)) (ordered s ++ [name])))
          | r => r
          end
      end
  end.

(** [resolve]; [None] is a panic. *)
Definition resolve (namespace : string) (r : PluginRegistry) (config : list PluginSpec) : option (list (PluginDescriptor * string) + Fault) :=
  match collect_specs config ∅ [] with
  | inr e => Some (inr e)
  | inl (specs, order) =>
      match collect_descriptors namespace r order ∅ with
      | inr e => Some (inr e)
      | inl ds =>
          let values := (map_to_list ds).*2 in
          match missing_dependency ds values, claim_all values ∅ with
          | Some e, _ => Some (inr e)
          | None, inr e => Some (inr e)
          | None, inl _ =>
              v ← visit_each (visit_plugin (S (size ds)) ds) order (mkVisits ∅ []);
              match v with
              | inr e => Some (inr e)
              | inl v => inl <$> mapM (λ name, d ← ds !! name; s ← specs !! name; Some (d, s_config s)) (ordered v)
              end
          end
      end
  end.

(** ** Setting up *)

Record LoadedPlugin : Type := mkLoaded { l_descriptor : PluginDescriptor; l_plugin : ServicePlugin; l_config : string }.

Record CapabilityEntry : Type := mkCapability { provider : string; c_value : AnyValue }.

(** The closure that [subscribe] stores takes an [Any] and expects the type [sub_type]. *)
Record Subscriber : Type := mkSubscriber { sub_plugin : string; sub_type : TypeId; sub_handler : Z → Code }.

Record BuildState : Type := mkBuild {
  b_capabilities : gmap TypeId CapabilityEntry;
  b_subscribers : gmap TypeId (list Subscriber);
  subscription_keys : gset (string * TypeId);
}.

Definition build_default : BuildState := mkBuild ∅ ∅ ∅.

Definition provide (plugin : string) (c : AnyValue) (b : BuildState) : BuildState * option Fault :=
  match b_capabilities b !! any_type c with
  | Some previous => (b, Some (ProvidedTwice (any_type c) (provider previous) plugin))
  | None => (mkBuild (<[any_type c := mkCapability plugin c]> (b_capabilities b)) (b_subscribers b) (subscription_keys b), None)
  end.

Definition subscribe (plugin : string) (t : TypeId) (handler : Z → Code) (b : BuildState) : BuildState * option Fault :=
  if decide ((plugin, t) ∈ subscription_keys b) then (b, Some (SubscribedTwice plugin t)) else
  (mkBuild (b_capabilities b) (<[t := default [] (b_subscribers b !! t) ++ [mkSubscriber plugin t handler]]> (b_subscribers b))
     ({[(plugin, t)]} ∪ subscription_keys b), None).

Fixpoint run_mount (plugin : string) (c : MountCode) (b : BuildState) : BuildState * option Fault :=
  match c with
  | MReturn r => (b, r)
  | MProvide v k => let '(b, r) := provide plugin v b in run_mount plugin (k r) b
  | MSubscribe t h k => let '(b, r) := subscribe plugin t h b in run_mount plugin (k r) b
  end.

Fixpoint mount_all (l : list LoadedPlugin) (b : BuildState) : BuildState + Fault :=
  match l with
  | [] => inl b
  | x :: l =>
      match run_mount (d_name (l_descriptor x)) (mount (l_plugin x)) b with
      | (b, None) => mount_all l b
      | (_, Some e) => inr e
      end
  end.

Record Runtime : Type := mkRuntime {
  routes : gmap CommandId ServicePlugin;
  plugin_names : gmap CommandId string;
  r_dependencies : gmap string (gset string);
  capabilities : gmap TypeId CapabilityEntry;
  subscribers : gmap TypeId (list Subscriber);
}.

(** The routes of [init], before anything is mounted. *)
Record Tables : Type := mkTables { t_routes : gmap CommandId ServicePlugin; t_names : gmap CommandId string; t_dependencies : gmap string (gset string) }.

Fixpoint route_commands (name : string) (p : ServicePlugin) (cs : list CommandId) (t : Tables) : Tables + Fault :=
  match cs with
  | [] => inl t
  | c :: cs =>
      match t_names t !! c with
      | Some previous => inr (CommandTwice c previous name)
      | None => route_commands name p cs (mkTables (<[c := p]> (t_routes t)) (<[c := name]> (t_names t)) (t_dependencies t))
      end
  end.

Fixpoint load (l : list (PluginDescriptor * string)) (t : Tables) (loaded : list LoadedPlugin) : Tables * list LoadedPlugin + Fault :=
  match l with
  | [] => inl (t, loaded)
  | (d, cfg) :: l =>
      let t := mkTables (t_routes t) (t_names t) (<[d_name d := list_to_set (dependencies d)]> (t_dependencies t)) in
      match route_commands (d_name d) (factory d) (commands d) t with
      | inl t => load l t (loaded ++ [mkLoaded d (factory d) cfg])
      | inr e => inr e
      end
  end.

(** ** The context of a plugin *)

(** [require]; [None] when the downcast of the capability panics. *)
Definition require (rt : Runtime) (plugin : string) (t : TypeId) : option (Z + Fault) :=
  match capabilities rt !! t with
  | None => Some (inr (NotProvided plugin t))
  | Some e =>
      if decide (provider e = plugin ∨ is_some_and (λ items, bool_decide (provider e ∈ items)) (r_dependencies rt !! plugin) = true) then
        if decide (any_type (c_value e) = t) then Some (inl (any_object (c_value e))) else None
      else Some (inr (NotDeclared plugin (provider e) t))
  end.

(** What a run shows: replies, [reply_error], and where plugins have got to. *)
Inductive Out : Type :=
  | OReply (m : Message) (object : Z)
  | OError (m : Message)
  | OMounted (names : list string)
  | OInit (plugin : string)
  | OInited (plugin : string)
  | OGot (plugin from : string)
  | OHandle (m : Message) (plugin : string)
  | OHandled (m : Message)
  | OEvent (plugin : string) (e : AnyValue)
  | OReady (r : option Fault).

(** The service of a host: [runtime] is that of the host, [dynamic] its debug messages,
    [posted] its own mailbox as far as its events are concerned, [alive] whether its handle
    is registered. *)
Record W : Type := mkW {
  namespace : string;
  registry : PluginRegistry;
  runtime : option Runtime;
  static_messages : list DebugMessage;
  dynamic : list DebugMessage;
  alive : bool;
  posted : list AnyValue;
  outs : list Out;
  panicked : bool;
}.

Definition out (o : Out) (w : W) := mkW (namespace w) (registry w) (runtime w) (static_messages w) (dynamic w) (alive w) (posted w) (outs w ++ [o]) (panicked w).
Definition set_runtime x (w : W) := mkW (namespace w) (registry w) x (static_messages w) (dynamic w) (alive w) (posted w) (outs w) (panicked w).
Definition set_dynamic x (w : W) := mkW (namespace w) (registry w) (runtime w) (static_messages w) x (alive w) (posted w) (outs w) (panicked w).
Definition set_alive x (w : W) := mkW (namespace w) (registry w) (runtime w) (static_messages w) (dynamic w) x (posted w) (outs w) (panicked w).
Definition set_posted x (w : W) := mkW (namespace w) (registry w) (runtime w) (static_messages w) (dynamic w) (alive w) x (outs w) (panicked w).
Definition panic (w : W) := mkW (namespace w) (registry w) (runtime w) (static_messages w) (dynamic w) (alive w) (posted w) (outs w) true.

(** [emit]: the event goes to the mailbox of the service. *)
Definition emit (e : AnyValue) (w : W) : W * option Fault := if alive w then (set_posted (posted w ++ [e]) w, None) else (w, Some NoSelf).

(** How a program gets on: it has returned, it waits, or it has panicked. *)
Inductive Outcome : Type := Finished (r : option Fault) | Waiting (k : Z → Code) | Broken.

Fixpoint exec (rt : Runtime) (plugin : string) (c : Code) (w : W) : W * Outcome :=
  match c with
  | Return r => (w, Finished r)
  | Require t k =>
      match require rt plugin t with
      | None => (w, Broken)
      | Some (inl v) => exec rt plugin (k (inl v)) (out (OGot plugin (from_option provider "" (capabilities rt !! t))) w)
      | Some (inr e) => exec rt plugin (k (inr e)) w
      end
  | Emit e k => let '(w, r) := emit e w in exec rt plugin (k r) w
  | Reply m v k => exec rt plugin k (if needs_reply m then out (OReply m v) w else w)
  | Await k => (w, Waiting k)
  end.

(** [register_debug_messages_into]. *)
Fixpoint debug_duplicate (known messages : list DebugMessage) : option Fault :=
  match messages with
  | [] => None
  | x :: messages => if decide (x ∈ known) then Some (DebugTwice x.1 x.2) else debug_duplicate (known ++ [x]) messages
  end.

Definition register_debug_messages (messages : list DebugMessage) (w : W) : W * option Fault :=
  match debug_duplicate (static_messages w ++ dynamic w) messages with
  | Some e => (w, Some e)
  | None => (set_dynamic (dynamic w ++ messages) w, None)
  end.

(** ** Futures of the host *)

(** [init] in the middle of the [init] of a plugin, with the plugins to come and the debug
    messages so far; [handle] of a plugin; an event handler, which is spawned. *)
Inductive Task : Type :=
  | TInit (rt : Runtime) (p : LoadedPlugin) (k : Z → Code) (rest : list LoadedPlugin) (messages : list DebugMessage)
  | THandle (rt : Runtime) (plugin : string) (m : Message) (k : Z → Code)
  | TEvent (rt : Runtime) (plugin : string) (k : Z → Code).

(** The end of [init]. *)
Definition init_done (rt : Runtime) (messages : list DebugMessage) (w : W) : W :=
  match register_debug_messages messages w with
  | (w, Some e) => out (OReady (Some e)) w
  | (w, None) => out (OReady None) (set_runtime (Some rt) w)
  end.

(** The loop of [init] over the plugins. *)
Fixpoint init_plugins (rt : Runtime) (l : list LoadedPlugin) (messages : list DebugMessage) (w : W) : W * list Task :=
  match l with
  | [] => (init_done rt messages w, [])
  | p :: l =>
      let name := d_name (l_descriptor p) in
      match exec rt name (init (l_plugin p) (l_config p)) (out (OInit name) w) with
      | (w, Finished None) => init_plugins rt l (messages ++ debug_messages (l_plugin p)) (out (OInited name) w)
      | (w, Finished (Some e)) => (out (OReady (Some e)) w, [])
      | (w, Waiting k) => (w, [TInit rt p k l messages])
      | (w, Broken) => (panic w, [])
      end
  end.

(** [PluginHost::init]. *)
Definition host_init (config : list PluginSpec) (w : W) : W * list Task :=
  match runtime w with
  | Some _ => (out (OReady (Some AlreadyInitialized)) w, [])
  | None =>
      match resolve (namespace w) (registry w) config with
      | None => (panic w, [])
      | Some (inr e) => (out (OReady (Some e)) w, [])
      | Some (inl ordered) =>
          match load ordered (mkTables ∅ ∅ ∅) [] with
          | inr e => (out (OReady (Some e)) w, [])
          | inl (t, loaded) =>
              match mount_all loaded build_default with
              | inr e => (out (OReady (Some e)) w, [])
              | inl b =>
                  let rt := mkRuntime (t_routes t) (t_names t) (t_dependencies t) (b_capabilities b) (b_subscribers b) in
                  init_plugins rt loaded [] (out (OMounted ((λ p, d_name (l_descriptor p)) <$> loaded)) w)
              end
          end
      end
  end.

(** ** Dispatch *)

Definition reply_error (m : Message) (w : W) : W := if needs_reply m then out (OError m) w else w.

(** The end of [dispatch] of a command. *)
Definition handled (m : Message) (r : option Fault) (w : W) : W :=
  match r with None => out (OHandled m) w | Some _ => reply_error m w end.

Definition dispatch_command (rt : Runtime) (m : Message) (c : CommandId) (object : Z) (w : W) : W * list Task :=
  match routes rt !! c with
  | None => (reply_error m w, [])
  | Some p =>
      match plugin_names rt !! c with
      | None => (panic w, [])
      | Some name =>
          match exec rt name (handle p c m object) (out (OHandle m name) w) with
          | (w, Finished r) => (handled m r w, [])
          | (w, Waiting k) => (w, [THandle rt name m k])
          | (w, Broken) => (panic w, [])
          end
      end
  end.

(** [dispatch_event]: a task for every subscriber; its closure panics on another type. *)
Definition event_task (rt : Runtime) (e : AnyValue) (s : Subscriber) : option Task :=
  if decide (any_type e = sub_type s) then Some (TEvent rt (sub_plugin s) (λ _, sub_handler s (any_object e))) else None.

Definition dispatch_event (rt : Runtime) (e : AnyValue) (w : W) : W * list Task :=
  match subscribers rt !! any_type e with
  | None => (w, [])
  | Some l =>
      match mapM (event_task rt e) l with
      | None => (panic w, [])
      | Some ts => (fold_left (λ w s, out (OEvent (sub_plugin s) e) w) l w, ts)
      end
  end.

Inductive Body : Type := BEvent (e : AnyValue) | BCommand (c : CommandId) (object : Z) | BOther.

Definition dispatch (m : Message) (b : Body) (w : W) : W * list Task :=
  match runtime w with
  | None => (reply_error m w, [])
  | Some rt =>
      match b with
      | BEvent e => dispatch_event rt e w
      | BCommand c v => dispatch_command rt m c v w
      | BOther => (reply_error m w, [])
      end
  end.

(** A future is polled again with what it waited for. *)
Definition resume (t : Task) (v : Z) (w : W) : W * list Task :=
  match t with
  | TInit rt p k l messages =>
      let name := d_name (l_descriptor p) in
      match exec rt name (k v) w with
      | (w, Finished None) => init_plugins rt l (messages ++ debug_messages (l_plugin p)) (out (OInited name) w)
      | (w, Finished (Some e)) => (out (OReady (Some e)) w, [])
      | (w, Waiting k) => (w, [TInit rt p k l messages])
      | (w, Broken) => (panic w, [])
      end
  | THandle rt name m k =>
      match exec rt name (k v) w with
      | (w, Finished r) => (handled m r w, [])
      | (w, Waiting k) => (w, [THandle rt name m k])
      | (w, Broken) => (panic w, [])
      end
  | TEvent rt name k =>
      match exec rt name (k v) w with
      | (w, Finished _) => (w, [])
      | (w, Waiting k) => (w, [TEvent rt name k])
      | (w, Broken) => (panic w, [])
      end
  end.

(** ** The host as a system *)

Record Sys : Type := mkSys { world : W; tasks : list Task }.

Definition sys_new (ns : string) (r : PluginRegistry) (static : list DebugMessage) : Sys := mkSys (mkW ns r None static [] true [] [] false) [].

(** [init] is called; a message comes in; an event of its own does; a future is polled; the
    service is retired. *)
Inductive Event : Type :=
  | EInit (config : list PluginSpec)
  | EMessage (m : Message) (b : Body)
  | EPosted
  | EPoll (i : nat) (v : Z)
  | ERetire.

Definition settle (s : Sys) (r : W * list Task) : Sys := mkSys r.1 (tasks s ++ r.2).

(** Only [emit] makes event envelopes. *)
Definition is_event (b : Body) : bool := match b with BEvent _ => true | _ => false end.

Definition step (ev : Event) (s : Sys) : option Sys :=
  let w := world s in
  if panicked w then None else
  match ev with
  | EInit config => Some (settle s (host_init config w))
  | EMessage m b => if is_event b then None else Some (settle s (dispatch m b w))
  | EPosted =>
      match posted w with
      | [] => None
      | e :: es => Some (settle s (dispatch (mkMessage 0 0 MsgType.USER PNone) (BEvent e) (set_posted es w)))
      end
  | EPoll i v => t ← tasks s !! i; Some (settle (mkSys w (delete i (tasks s))) (resume t v w))
  | ERetire => Some (mkSys (set_alive false w) (tasks s))
  end.

Fixpoint run (evs : list Event) (s : Sys) : option Sys :=
  match evs with
  | [] => Some s
  | ev :: evs => s ← step ev s; run evs s
  end.
End Plugin.
