(* ===== verification/PluginOrder.v ===== *)
(** * The order in which plugins are set up

    [resolve] of [rskynet-plugin/src/lib.rs] accepts exactly the configurations that make
    sense and sorts their plugins topologically; the registry of the linked plugins does
    not depend on the order in which they were linked. *)
From S2P Require Import Prelude Message Plugin.
From stdpp Require Import strings sorting relations.
#[local] Open Scope Z_scope.

Module PluginOrder.
Import Plugin.

(** ** Depth-first search *)

Section visits.
Context (ds : gmap string PluginDescriptor).

(** [a] needs [b]. *)
Definition needs (a b : string) : Prop := ∃ d, ds !! a = Some d ∧ b ∈ dependencies d.

Definition vis (s : VisitState) : gset string := dom (filter (λ kv, kv.2 = Visiting) (states s)).

Lemma elem_of_vis s n : n ∈ vis s ↔ states s !! n = Some Visiting.
Proof.
  unfold vis. rewrite elem_of_dom. split.
  - intros [v Hv]. apply map_lookup_filter_Some in Hv as [Hv He]. cbn in He. congruence.
  - intros Hn. exists Visiting. by apply map_lookup_filter_Some.
Qed.

(** What has been done: a beginning of a topological order. *)
Record visited (s : VisitState) : Prop := {
  v_done n : states s !! n = Some Done ↔ n ∈ ordered s;
  v_once : NoDup (ordered s);
  v_before l1 n l2 b : ordered s = l1 ++ n :: l2 → needs n b → b ∈ l1;
  v_known n v : states s !! n = Some v → is_Some (ds !! n);
}.

(** A visit adds to the order, or finds a cycle. *)
Definition outcome (s : VisitState) (names : list string) (r : VisitState + Fault) : Prop :=
  match r with
  | inl s' => visited s' ∧ vis s' = vis s ∧ ordered s `prefix_of` ordered s' ∧ ∀ n, n ∈ names → n ∈ ordered s'
  | inr e => ∃ n, e = DependencyCycle n ∧ tc needs n n
  end.

Definition visitable (s : VisitState) (name : string) : Prop := is_Some (ds !! name) ∧ ∀ v, v ∈ vis s → tc needs v name.

Lemma visit_each_ok (f : string → VisitState → option (VisitState + Fault)) names s :
  (∀ name s', name ∈ names → vis s' = vis s → visited s' → ∃ r, f name s' = Some r ∧ outcome s' [name] r) →
  visited s → ∃ r, visit_each f names s = Some r ∧ outcome s names r.
Proof.
  revert s. induction names as [|name names IH]; intros s Hf Hs; cbn.
  { eexists. split; [done|]. split_and!; [done|done|done|by intros n ?%not_elem_of_nil]. }
  destruct (Hf name s) as ([s1|e] & -> & H1); [apply list_elem_of_here|done|done| |eauto]. destruct H1 as (V1 & V2 & V3 & V4).
  destruct (IH s1) as ([s2|e] & -> & H2); [|done| |eauto].
  { intros n s' Hn Hv. apply Hf; [by apply list_elem_of_further|congruence]. }
  destruct H2 as (W1 & W2 & W3 & W4). eexists. split; [done|]. split_and!; [done|congruence|by etrans|].
  intros n [->|Hn]%elem_of_cons; [|by apply W4]. destruct W3 as [l ->]. apply elem_of_app. left. apply V4, list_elem_of_here.
Qed.

Lemma visited_enter s name : visited s → states s !! name = None → is_Some (ds !! name) → visited (mkVisits (<[name := Visiting]> (states s)) (ordered s)).
Proof.
  intros [V1 V2 V3 V4] Hn Hd. split; cbn; try done.
  - intros n. destruct (decide (n = name)) as [->|Hne]; [|by rewrite lookup_insert_ne].
    rewrite lookup_insert_eq. split; [done|]. intros ?%V1. congruence.
  - intros n v. destruct (decide (n = name)) as [->|Hne]; [done|]. rewrite lookup_insert_ne by done. apply V4.
Qed.

Lemma vis_enter s name o : states s !! name = None → vis (mkVisits (<[name := Visiting]> (states s)) o) = {[name]} ∪ vis s.
Proof.
  intros Hn. apply set_eq. intros n. rewrite elem_of_union, elem_of_singleton, !elem_of_vis. cbn. destruct (decide (n = name)) as [->|Hne].
  - rewrite lookup_insert_eq. naive_solver.
  - rewrite lookup_insert_ne by done. naive_solver.
Qed.

Lemma visited_leave s name d :
  visited s → states s !! name = Some Visiting → ds !! name = Some d → (∀ n, n ∈ dependencies d → n ∈ ordered s) →
  visited (mkVisits (<[name := Done]> (states s)) (ordered s ++ [name])).
Proof.
  intros [V1 V2 V3 V4] Hn Hd Hdeps. assert (name ∉ ordered s) as Hnew by (intros ?%V1; congruence). split; cbn.
  - intros n. rewrite elem_of_app, list_elem_of_singleton. destruct (decide (n = name)) as [->|Hne].
    + rewrite lookup_insert_eq. naive_solver.
    + rewrite lookup_insert_ne by done. rewrite V1. naive_solver.
  - apply NoDup_app. split_and!; [done|by intros n Hi ->%list_elem_of_singleton|apply NoDup_singleton].
  - intros l1 n l2 b Heq Hnb. destruct l2 as [|x l2 _] using rev_ind.
    + apply app_inj_tail in Heq as [<- <-]. destruct Hnb as (d' & Hd' & Hb). apply Hdeps. congruence.
    + rewrite app_comm_cons, app_assoc in Heq. apply app_inj_tail in Heq as [Heq _]. by eapply V3.
  - intros n v. destruct (decide (n = name)) as [->|Hne]; [by rewrite Hd|]. rewrite lookup_insert_ne by done. apply V4.
Qed.

Lemma visit_plugin_ok fuel name s :
  (∀ a b, needs a b → is_Some (ds !! b)) → visited s → visitable s name → (size ds < fuel + size (vis s))%nat →
  ∃ r, visit_plugin fuel ds name s = Some r ∧ outcome s [name] r.
Proof.
  intros Hclosed. revert name s. induction fuel as [|fuel IH]; intros name s Hs [[d Hd] Hreach] Hfuel.
  { exfalso. assert (vis s ⊆ dom ds) as Hsub.
    { intros n Hn%elem_of_vis. apply elem_of_dom. by eapply (v_known s Hs). }
    apply subseteq_size in Hsub. rewrite size_dom in Hsub. lia. }
  cbn. destruct (states s !! name) as [[]|] eqn:Hn.
  - eexists. split; [done|]. exists name. split; [done|]. apply Hreach. by apply elem_of_vis.
  - eexists. split; [done|]. split_and!; [done|done|done|]. intros n ->%list_elem_of_singleton. by apply (v_done s Hs).
  - rewrite Hd. cbn. set (s1 := mkVisits _ _). assert (Hv1 : vis s1 = {[name]} ∪ vis s) by by apply vis_enter.
    assert (name ∉ vis s) as Hnv by (rewrite elem_of_vis; congruence).
    destruct (visit_each_ok (visit_plugin fuel ds) (dependencies d) s1) as (r & -> & Hr); [|apply visited_enter; eauto|].
    { intros b s' Hb Hv Hs'. assert (needs name b) as Hnb by by exists d. apply IH; [done| |].
      - split; [by eapply Hclosed|]. intros v. rewrite Hv, Hv1, elem_of_union, elem_of_singleton. intros [->|Hin]; [by apply tc_once|].
        eapply tc_r; [by apply Hreach|done].
      - rewrite Hv, Hv1, size_union by set_solver. rewrite size_singleton. lia. }
    destruct r as [s2|e]; [|eauto]. destruct Hr as (W1 & W2 & W3 & W4). eexists. split; [done|].
    assert (states s2 !! name = Some Visiting) as Hn2 by (apply elem_of_vis; rewrite W2, Hv1; set_solver). split_and!.
    + by eapply visited_leave.
    + apply set_eq. intros n. rewrite !elem_of_vis. cbn. destruct (decide (n = name)) as [->|Hne].
      * rewrite lookup_insert_eq. split; [done|congruence].
      * rewrite lookup_insert_ne, <- !elem_of_vis, W2, Hv1 by done. set_solver.
    + cbn. etrans; [exact W3|]. by eexists.
    + intros n ->%list_elem_of_singleton. cbn. apply elem_of_app. right. by apply list_elem_of_singleton.
Qed.

Lemma visited_reach s n m l1 l2 : visited s → tc needs n m → ordered s = l1 ++ n :: l2 → m ∈ l1.
Proof.
  intros Hs Ht. revert l1 l2. induction Ht as [x y Hxy|x y z Hxy Ht IH]; intros l1 l2 Ho; [by eapply (v_before s Hs)|].
  pose proof (v_before s Hs _ _ _ _ Ho Hxy) as Hy. apply list_elem_of_split in Hy as (a & b & ->).
  apply elem_of_app. left. apply (IH a (b ++ x :: l2)). by rewrite Ho, <- app_assoc.
Qed.

Lemma visited_acyclic s n : visited s → n ∈ ordered s → ¬ tc needs n n.
Proof.
  intros Hs Hn Ht. pose proof (v_once s Hs) as Hnd. apply list_elem_of_split in Hn as (l1 & l2 & Ho).
  pose proof (visited_reach s n n l1 l2 Hs Ht Ho) as Hin. rewrite Ho in Hnd. apply NoDup_app in Hnd as (_ & Hd & _).
  apply (Hd n Hin), list_elem_of_here.
Qed.

Lemma visit_all_ok names :
  (∀ a b, needs a b → is_Some (ds !! b)) → (∀ n, n ∈ names → is_Some (ds !! n)) →
  ∃ r, visit_each (visit_plugin (S (size ds)) ds) names (mkVisits ∅ []) = Some r ∧ outcome (mkVisits ∅ []) names r.
Proof.
  intros Hclosed Hnames. assert (Hvis : vis (mkVisits ∅ []) = ∅) by (apply set_eq; intros n; rewrite elem_of_vis; cbn; by rewrite lookup_empty).
  apply visit_each_ok.
  - intros name s' Hn Hv Hs'. apply visit_plugin_ok; try done; [|rewrite Hv, Hvis, size_empty; lia].
    split; [by apply Hnames|]. intros v. rewrite Hv, Hvis. set_solver.
  - split; cbn; [|constructor|by intros [|] *|].
    + intros n. rewrite lookup_empty. split; [done|by intros ?%not_elem_of_nil].
    + intros n v. by rewrite lookup_empty.
Qed.
End visits.

(** ** The checks of a configuration *)

Lemma collect_specs_spec config m order :
  match collect_specs config m order with
  | inl (m', order') =>
      order' = order ++ (s_name <$> config) ∧ (∀ s, s ∈ config → validate_identifier (s_name s) = true) ∧ NoDup (s_name <$> config)
      ∧ (∀ s, s ∈ config → m !! s_name s = None ∧ m' !! s_name s = Some s) ∧ m ⊆ m'
  | inr _ => ¬ ((∀ s, s ∈ config → validate_identifier (s_name s) = true ∧ m !! s_name s = None) ∧ NoDup (s_name <$> config))
  end.
Proof.
  revert m order. induction config as [|x config IH]; intros m order; cbn.
  { split_and!; [by rewrite app_nil_r|by intros ? ?%not_elem_of_nil|constructor|by intros ? ?%not_elem_of_nil|done]. }
  destruct (validate_identifier (s_name x)) eqn:Hx; cbn; [|intros [Hv _]; destruct (Hv x (list_elem_of_here _ _)); congruence].
  destruct (m !! s_name x) eqn:Hm; [intros [Hv _]; destruct (Hv x (list_elem_of_here _ _)); congruence|].
  specialize (IH (<[s_name x := x]> m) (order ++ [s_name x])). destruct (collect_specs config _ _) as [[m' o']|e].
  - destruct IH as (-> & H1 & H2 & H3 & H4). assert (Hnew : s_name x ∉ s_name <$> config).
    { intros (y & Hy & Hin)%list_elem_of_fmap. destruct (H3 y Hin) as [Hl _]. rewrite Hy, lookup_insert_eq in Hl. done. }
    split_and!; [by rewrite <- app_assoc|by intros s [->|?]%elem_of_cons; auto|by constructor| |].
    + intros s [->|Hs]%elem_of_cons; [split; [done|]; apply (lookup_weaken _ _ _ _ (lookup_insert_eq _ _ _) H4)|].
      destruct (H3 s Hs) as [Hl ?]. split; [|done]. apply lookup_insert_None in Hl. tauto.
    + etrans; [|exact H4]. by apply insert_subseteq.
  - intros [Hv Hd]. apply NoDup_cons in Hd as [Hn Hd]. apply IH. split; [|done]. intros s Hs.
    destruct (Hv s (list_elem_of_further _ _ _ Hs)). split; [done|]. rewrite lookup_insert_ne; [done|].
    intros He. apply Hn. rewrite He. by apply list_elem_of_fmap_2.
Qed.

Lemma collect_descriptors_spec ns r order m :
  match collect_descriptors ns r order m with
  | inl m' => (∀ n, n ∈ order → is_Some (get ns n r)) ∧ ∀ n, m' !! n = if decide (n ∈ order) then get ns n r else m !! n
  | inr _ => ¬ ∀ n, n ∈ order → is_Some (get ns n r)
  end.
Proof.
  revert m. induction order as [|x order IH]; intros m; cbn.
  { split; [by intros ? ?%not_elem_of_nil|done]. }
  destruct (get ns x r) as [d|] eqn:Hx; [|intros Hall; destruct (Hall x (list_elem_of_here _ _)); congruence].
  specialize (IH (<[x := d]> m)). destruct (collect_descriptors ns r order _) as [m'|e].
  - destruct IH as [H1 H2]. split; [intros n [->|?]%elem_of_cons; eauto|]. intros n. rewrite H2. repeat case_decide; try done.
    + exfalso. by apply H0, list_elem_of_further.
    + apply elem_of_cons in H0 as [->|]; [|done]. by rewrite lookup_insert_eq.
    + apply lookup_insert_ne. intros ->. apply H0, list_elem_of_here.
  - intros Hall. apply IH. intros n Hn. by apply Hall, list_elem_of_further.
Qed.

Lemma missing_dependency_spec ds l :
  match missing_dependency ds l with
  | None => ∀ d b, d ∈ l → b ∈ dependencies d → is_Some (ds !! b)
  | Some _ => ¬ ∀ d b, d ∈ l → b ∈ dependencies d → is_Some (ds !! b)
  end.
Proof.
  induction l as [|d l IH]; cbn; [by intros ? ? ?%not_elem_of_nil|].
  destruct (list_find _ (dependencies d)) as [[i x]|] eqn:Hf.
  - apply list_find_Some in Hf as (Hi & Hn & _). intros Hall. destruct (Hall d x (list_elem_of_here _ _)); [by eapply list_elem_of_lookup_2|congruence].
  - apply list_find_None in Hf. rewrite Forall_forall in Hf. destruct (missing_dependency ds l).
    + intros Hall. apply IH. intros d' b Hd. by apply Hall, list_elem_of_further.
    + intros d' b [->|Hd]%elem_of_cons Hb; [|by eapply IH]. destruct (ds !! b) eqn:Hdb; [done|]. by destruct (Hf b Hb).
Qed.

Lemma claim_commands_spec name cs m :
  match claim_commands name cs m with
  | inl m' => NoDup cs ∧ (∀ c, c ∈ cs → m !! c = None) ∧ ∀ c, is_Some (m' !! c) ↔ c ∈ cs ∨ is_Some (m !! c)
  | inr _ => ¬ (NoDup cs ∧ ∀ c, c ∈ cs → m !! c = None)
  end.
Proof.
  revert m. induction cs as [|x cs IH]; intros m; cbn.
  { split_and!; [constructor|by intros ? ?%not_elem_of_nil|]. intros c. rewrite elem_of_nil. tauto. }
  destruct (m !! x) eqn:Hm; [intros [_ Hall]; specialize (Hall x (list_elem_of_here _ _)); congruence|].
  specialize (IH (<[x := name]> m)). destruct (claim_commands name cs _) as [m'|e].
  - destruct IH as (H1 & H2 & H3). assert (x ∉ cs) as Hx by (intros Hin%H2; by rewrite lookup_insert_eq in Hin). split_and!.
    + by constructor.
    + intros c [->|Hc]%elem_of_cons; [done|]. apply H2 in Hc. apply lookup_insert_None in Hc. tauto.
    + intros c. rewrite H3, elem_of_cons, lookup_insert_is_Some. destruct (decide (x = c)) as [->|]; naive_solver.
  - intros [Hd Hall]. apply NoDup_cons in Hd as [Hx Hd]. apply IH. split; [done|]. intros c Hc. rewrite lookup_insert_ne; [|by intros ->].
    by apply Hall, list_elem_of_further.
Qed.

Lemma claim_all_spec l m :
  match claim_all l m with
  | inl _ => NoDup (l ≫= commands) ∧ ∀ c, c ∈ (l ≫= commands) → m !! c = None
  | inr _ => ¬ (NoDup (l ≫= commands) ∧ ∀ c, c ∈ (l ≫= commands) → m !! c = None)
  end.
Proof.
  revert m. induction l as [|d l IH]; intros m; cbn; [split; [constructor|by intros ? ?%not_elem_of_nil]|].
  pose proof (claim_commands_spec (d_name d) (commands d) m) as Hc. destruct (claim_commands _ _ m) as [m'|e].
  - destruct Hc as (H1 & H2 & H3). specialize (IH m'). assert (Hm : ∀ c, m' !! c = None ↔ (c ∉ commands d) ∧ m !! c = None).
    { intros c. rewrite !eq_None_not_Some, H3. tauto. }
    destruct (claim_all l m') as [m2|e].
    + destruct IH as [I1 I2]. split.
      * apply NoDup_app. split_and!; [done| |done]. intros c Hc Hc2. by apply I2, Hm in Hc2 as [].
      * intros c [Hc|Hc]%elem_of_app; [by apply H2|]. by apply I2, Hm in Hc as [].
    + intros [Hd Hall]. apply NoDup_app in Hd as (_ & D2 & D3). apply IH. split; [done|]. intros c Hc. apply Hm. split.
      * intros Hin. by apply (D2 c Hin).
      * apply Hall, elem_of_app. by right.
  - intros [Hd Hall]. apply NoDup_app in Hd as (D1 & _). apply Hc. split; [done|]. intros c Hin. apply Hall, elem_of_app. by left.
Qed.

(** ** [resolve] *)

Section resolving.
Context (ns : string) (r : PluginRegistry).

(** The dependencies that plugins declare. *)
Definition declares (a b : string) : Prop := ∃ d, get ns a r = Some d ∧ b ∈ dependencies d.

Definition enabled (config : list PluginSpec) : list PluginDescriptor := omap (λ s, get ns (s_name s) r) config.

(** A configuration that makes sense: its names are not blank and none comes twice, their
    plugins are registered, what they depend on is enabled too, no command belongs to two
    of them, and no plugin depends on itself. *)
Record sound (config : list PluginSpec) : Prop := {
  so_named s : s ∈ config → validate_identifier (s_name s) = true;
  so_once : NoDup (s_name <$> config);
  so_registered s : s ∈ config → is_Some (get ns (s_name s) r);
  so_enabled a b : a ∈ s_name <$> config → declares a b → b ∈ s_name <$> config;
  so_commands : NoDup (enabled config ≫= commands);
  so_acyclic n : n ∈ s_name <$> config → ¬ tc declares n n;
}.

(** Every plugin with its configuration, each after those it depends on. *)
Definition arranged (config : list PluginSpec) (l : list (PluginDescriptor * string)) : Prop :=
  ∃ specs, specs ≡ₚ config ∧ Forall2 (λ s dc, get ns (s_name s) r = Some dc.1 ∧ dc.2 = s_config s) specs l
  ∧ ∀ l1 s l2 b, specs = l1 ++ s :: l2 → declares (s_name s) b → b ∈ s_name <$> l1.

Lemma tc_inside (R S : relation string) (P : string → Prop) a b :
  (∀ x y, P x → R x y → S x y ∧ P y) → P a → tc R a b → tc S a b.
Proof.
  intros HR Ha Ht. revert Ha. induction Ht as [x y Hxy|x y z Hxy Ht IH]; intros Hx.
  - apply tc_once. by apply HR.
  - destruct (HR x y Hx Hxy) as [Hs Hy]. eapply tc_l; [done|]. by apply IH.
Qed.

Context (config : list PluginSpec) (ds : gmap string PluginDescriptor).
Context (Hnames : NoDup (s_name <$> config)) (Hreg : ∀ n, n ∈ s_name <$> config → is_Some (get ns n r)).
Context (Hds : ∀ n, ds !! n = if decide (n ∈ s_name <$> config) then get ns n r else None).

Lemma ds_known n : is_Some (ds !! n) ↔ n ∈ s_name <$> config.
Proof. rewrite Hds. case_decide; [|split; [by intros []|done]]. split; [done|]. by intros ?%Hreg. Qed.

Lemma ds_values : (map_to_list ds).*2 ≡ₚ enabled config.
Proof.
  assert (map_to_list ds ≡ₚ omap (λ s, pair (s_name s) <$> get ns (s_name s) r) config) as ->.
  { apply NoDup_Permutation; [apply NoDup_map_to_list| |].
    - clear -Hnames. induction config as [|s cfg IH]; cbn; [constructor|]. apply NoDup_cons in Hnames as [Hn Hd].
      destruct (get ns (s_name s) r) as [d|]; cbn; [|by apply IH]. constructor; [|by apply IH].
      intros (y & Hy & He)%list_elem_of_omap. apply fmap_Some in He as (d' & _ & [= He _]). apply Hn. rewrite He. by apply list_elem_of_fmap_2.
    - intros [n d]. rewrite elem_of_map_to_list, Hds, list_elem_of_omap. split.
      + case_decide as Hin; [|done]. intros Hg. apply list_elem_of_fmap in Hin as (s & -> & Hs). exists s. by rewrite Hg.
      + intros (s & Hs & He). apply fmap_Some in He as (d' & He & [= -> ->]). rewrite decide_True; [done|]. by apply list_elem_of_fmap_2. }
  unfold enabled. clear. induction config as [|s cfg IH]; cbn; [done|]. destruct (get ns (s_name s) r); cbn; [by rewrite IH|done].
Qed.

Lemma needs_declares a b : needs ds a b ↔ a ∈ s_name <$> config ∧ declares a b.
Proof.
  unfold needs, declares. setoid_rewrite Hds. split.
  - intros (d & Hd & Hb). case_decide; [|done]. eauto.
  - intros [Ha (d & Hd & Hb)]. exists d. by rewrite decide_True.
Qed.

Lemma specs_of (specs : gmap string PluginSpec) order :
  (∀ s, s ∈ config → specs !! s_name s = Some s) → order ≡ₚ s_name <$> config →
  ∃ l ss, mapM (λ name, d ← ds !! name; s ← specs !! name; Some (d, s_config s)) order = Some l
  ∧ ss ≡ₚ config ∧ order = s_name <$> ss ∧ Forall2 (λ s dc, get ns (s_name s) r = Some dc.1 ∧ dc.2 = s_config s) ss l.
Proof.
  intros Hspecs Hord. destruct (Permutation_map_inv s_name config Hord) as (ss & -> & Hss%Permutation_sym).
  assert (Hall : ∀ s, s ∈ ss → s ∈ config) by (intros s; by rewrite Hss).
  assert (∃ l, mapM (λ name, d ← ds !! name; s ← specs !! name; Some (d, s_config s)) (s_name <$> ss) = Some l
    ∧ Forall2 (λ s dc, get ns (s_name s) r = Some dc.1 ∧ dc.2 = s_config s) ss l) as (l & Hl & Hf).
  { clear Hord Hss. induction ss as [|s ss IH]; cbn; [by exists []|].
    assert (Hs : s ∈ config) by apply Hall, list_elem_of_here. rewrite Hds, decide_True by by apply list_elem_of_fmap_2.
    destruct (Hreg (s_name s)) as [d Hd]; [by apply list_elem_of_fmap_2|]. rewrite Hd, (Hspecs s Hs). cbn.
    destruct IH as (l & Hl & Hf); [intros; by apply Hall, list_elem_of_further|]. cbn in Hl. rewrite Hl. cbn. eexists. split; [done|]. by constructor. }
  by exists l, ss.
Qed.

Lemma enabled_closed : (∀ d b, d ∈ (map_to_list ds).*2 → b ∈ dependencies d → is_Some (ds !! b)) ↔ ∀ a b, needs ds a b → is_Some (ds !! b).
Proof.
  split.
  - intros H a b (d & Hd & Hb). apply (H d); [|done]. apply list_elem_of_fmap. exists (a, d). split; [done|]. by apply elem_of_map_to_list.
  - intros H d b Hd Hb. apply list_elem_of_fmap in Hd as ([a d'] & -> & Ha). apply elem_of_map_to_list in Ha. apply (H a). by exists d'.
Qed.

(** The configuration as a whole, in terms of its descriptors. *)
Lemma sound_iff :
  sound config ↔ (∀ s, s ∈ config → validate_identifier (s_name s) = true)
    ∧ (∀ a b, needs ds a b → is_Some (ds !! b)) ∧ NoDup ((map_to_list ds).*2 ≫= commands) ∧ ∀ n, ¬ tc (needs ds) n n.
Proof.
  split.
  - intros [S1 S2 S3 S4 S5 S6]. split_and!; [done| |by rewrite ds_values|].
    + intros a b [Ha Hb]%needs_declares. apply ds_known. by eapply S4.
    + intros n Ht. assert (n ∈ s_name <$> config) as Hn by (inversion Ht as [? ? Hx|? ? ? Hx]; subst; by apply needs_declares in Hx as []).
      apply (S6 n Hn). eapply (tc_inside (needs ds) declares (λ _, True)); [|done|exact Ht]. intros x y _ Hxy. split; [|done]. by apply needs_declares in Hxy as [].
  - intros (S1 & S2 & S3 & S4). split; [done|done| | |by rewrite <- ds_values|].
    + intros s Hs. apply Hreg. by apply list_elem_of_fmap_2.
    + intros a b Ha Hb. apply ds_known. apply (S2 a). by apply needs_declares.
    + intros n Hn Ht. apply (S4 n). eapply (tc_inside declares (needs ds) (λ x, x ∈ s_name <$> config)); [|exact Hn|exact Ht].
      intros x y Hx Hxy. assert (needs ds x y) as Hnd by by apply needs_declares. split; [done|]. apply ds_known. by apply (S2 x).
Qed.
End resolving.

Lemma plugin_resolved ns r config :
  match resolve ns r config with
  | None => False
  | Some (inl l) => sound ns r config ∧ arranged ns r config l
  | Some (inr _) => ¬ sound ns r config
  end.
Proof.
  unfold resolve. pose proof (collect_specs_spec config ∅ []) as Hc. destruct (collect_specs config ∅ []) as [[specs order]|e].
  2: { intros Hs. apply Hc. split; [|apply Hs]. intros s Hin. split; [by apply Hs|apply lookup_empty]. }
  destruct Hc as (-> & Hval & Hnd & Hspecs & _). cbn [app].
  pose proof (collect_descriptors_spec ns r (s_name <$> config) ∅) as Hd. destruct (collect_descriptors ns r _ ∅) as [ds|e].
  2: { intros Hs. apply Hd. intros n (s & -> & Hin)%list_elem_of_fmap. by apply Hs. }
  destruct Hd as [Hreg Hds]. assert (Hds' : ∀ n, ds !! n = if decide (n ∈ s_name <$> config) then get ns n r else None).
  { intros n. rewrite Hds. case_decide; [done|apply lookup_empty]. }
  pose proof (sound_iff ns r config ds Hnd Hreg Hds') as Hiff.
  pose proof (missing_dependency_spec ds (map_to_list ds).*2) as Hm. destruct (missing_dependency ds _) as [e|].
  { rewrite (enabled_closed ds) in Hm. rewrite Hiff. tauto. }
  rewrite (enabled_closed ds) in Hm. pose proof (claim_all_spec (map_to_list ds).*2 ∅) as Hcl. destruct (claim_all _ ∅) as [cl|e].
  2: { rewrite Hiff. intros (_ & _ & Hn & _). apply Hcl. split; [done|]. intros; apply lookup_empty. }
  destruct (visit_all_ok ds (s_name <$> config)) as (v & -> & Hv); [done|intros n Hn; by apply (ds_known ns r config ds)|]. cbn.
  destruct v as [v|e]; [|rewrite Hiff; destruct Hv as (n & _ & Hn); naive_solver].
  destruct Hv as (V1 & _ & _ & V2). assert (Hord : ordered v ≡ₚ s_name <$> config).
  { apply NoDup_Permutation; [apply V1|done|]. intros n. split; [|apply V2]. intros Hn%(v_done _ _ V1). apply (ds_known ns r config ds Hreg Hds'). by eapply (v_known _ _ V1). }
  destruct (specs_of ns r config ds Hreg Hds' specs (ordered v)) as (l & ss & -> & Hss & Ho & Hf); [intros s Hs; by apply Hspecs|done|]. cbn.
  assert (Hbefore : ∀ l1 n l2 b, ordered v = l1 ++ n :: l2 → declares ns r n b → b ∈ l1).
  { intros l1 n l2 b He Hb. eapply (v_before _ _ V1); [exact He|]. apply (needs_declares ns r config ds Hds'). split; [|done].
    rewrite <- Hord, He, elem_of_app, elem_of_cons. tauto. }
  split.
  - apply Hiff. split_and!; [done|done|apply Hcl|]. intros n Ht. apply (visited_acyclic ds v n V1); [|done]. apply V2.
    inversion Ht as [? ? Hx|? ? ? Hx]; subst; by apply (needs_declares ns r config ds Hds') in Hx as [].
  - exists ss. split_and!; [done|done|]. intros l1 s l2 b -> Hb. rewrite fmap_app, fmap_cons in Ho. by eapply Hbefore.
Qed.

(** C31 [resolve] accepts exactly the configurations that make sense, and sorts their plugins:
    it neither panics nor fails to end, whatever the registry and the configuration; it
    gives an error only when a name is blank or comes twice, a plugin is not registered or
    needs one that is not enabled, two plugins claim a command, or a plugin depends on
    itself; and otherwise it gives every plugin of the configuration once, with its own
    configuration, after all the plugins it depends on. *)
Theorem plugin_resolve_correct ns r config :
  match resolve ns r config with
  | None => False
  | Some (inl l) => sound ns r config ∧ arranged ns r config l
  | Some (inr _) => ¬ sound ns r config
  end.
Proof. apply plugin_resolved. Qed.

(** ** The order of the linker *)

Lemma lex_le_total a b : lex_le a b = true ∨ lex_le b a = true.
Proof.
  revert b. induction a as [|x a IH]; intros [|y b]; cbn; auto. repeat case_decide; auto; try lia.
Qed.

Lemma lex_le_trans a b c : lex_le a b = true → lex_le b c = true → lex_le a c = true.
Proof.
  revert b c. induction a as [|x a IH]; intros [|y b] [|z c]; cbn; try done. repeat case_decide; try done; try lia. apply IH.
Qed.

Lemma lex_le_antisym a b : lex_le a b = true → lex_le b a = true → a = b.
Proof.
  revert b. induction a as [|x a IH]; intros [|y b]; cbn; try done. repeat case_decide; try done; try lia. intros. f_equal; [done|]. by apply IH.
Qed.

Lemma list_ascii_inj a b : String.list_ascii_of_string a = String.list_ascii_of_string b → a = b.
Proof. intros He. rewrite <- (String.string_of_list_ascii_of_string a), He. apply String.string_of_list_ascii_of_string. Qed.

#[local] Instance byte_inj : Inj (=) (=) (λ c, Z.of_nat (Ascii.nat_of_ascii c)).
Proof. intros x y Hxy. apply Nat2Z.inj in Hxy. rewrite <- (Ascii.ascii_nat_embedding x), Hxy. apply Ascii.ascii_nat_embedding. Qed.

Lemma bytes_of_inj a b : bytes_of a = bytes_of b → a = b.
Proof. unfold bytes_of. intros He. apply list_ascii_inj. by apply (inj (fmap (λ c, Z.of_nat (Ascii.nat_of_ascii c)))) in He. Qed.

Lemma str_le_antisym a b : str_le a b = true → str_le b a = true → a = b.
Proof. intros H1 H2. by apply bytes_of_inj, lex_le_antisym. Qed.

Lemma str_le_refl a : str_le a a = true.
Proof. by destruct (lex_le_total (bytes_of a) (bytes_of a)). Qed.

Definition key_order (a b : string * string * string) : Prop := key_le a b = true.

#[local] Instance key_order_total : Total key_order.
Proof.
  intros [[n m] s] [[n' m'] s']. unfold key_order, key_le. repeat case_decide; subst; try done; apply lex_le_total.
Qed.

#[local] Instance key_order_antisym : AntiSymm eq key_order.
Proof.
  intros [[n m] s] [[n' m'] s']. unfold key_order, key_le.
  destruct (decide (n = n')) as [<-|Hn].
  2: { rewrite decide_False by done. intros Ha Hb. by destruct Hn; apply str_le_antisym. }
  destruct (decide (m = m')) as [<-|Hm]; rewrite decide_True by done.
  2: { rewrite decide_False by done. intros Ha Hb. by destruct Hm; apply str_le_antisym. }
  rewrite decide_True by done. intros Ha Hb. f_equal. by apply str_le_antisym.
Qed.

#[local] Instance key_order_trans : Transitive key_order.
Proof.
  intros [[n m] s] [[n' m'] s'] [[n2 m2] s2]. unfold key_order, key_le. intros Ha Hb.
  destruct (decide (n = n')) as [<-|Hn], (decide (n = n2)) as [<-|Hn2]; try done.
  - destruct (decide (m = m')) as [<-|Hm], (decide (m = m2)) as [<-|Hm2]; try done.
    + by eapply lex_le_trans.
    + rewrite decide_False in Hb by done. exfalso. by eapply Hm, str_le_antisym.
    + destruct (decide (m' = m2)) as [<-|?]; [done|]. by eapply lex_le_trans.
  - rewrite decide_False in Hb by done. exfalso. by eapply Hn, str_le_antisym.
  - destruct (decide (n' = n2)) as [<-|?]; [done|]. by eapply lex_le_trans.
Qed.

#[local] Instance descriptor_le_total : Total descriptor_le.
Proof. intros a b. apply key_order_total. Qed.

Lemma sorted_keys l : Sorted descriptor_le l → Sorted key_order (sort_key <$> l).
Proof. induction 1 as [|x l Hl IH Hx]; cbn; constructor; [done|]. by destruct Hx; constructor. Qed.

(** The errors of [register_all] are those of the keys of the descriptors. *)
Fixpoint key_fault (keys : list (string * string * string)) (known : gmap (string * string) string) : option Fault :=
  match keys with
  | [] => None
  | (ns, name, source) :: keys =>
      if negb (validate_identifier ns) then Some BlankName else
      if negb (validate_identifier name) then Some BlankName else
      match known !! (ns, name) with
      | Some previous => Some (RegisteredTwice ns name previous source)
      | None => key_fault keys (<[(ns, name) := source]> known)
      end
  end.

Lemma register_all_keys l r :
  match register_all l r with
  | inr e => key_fault (sort_key <$> l) (d_source <$> r) = Some e
  | inl r' => key_fault (sort_key <$> l) (d_source <$> r) = None ∧ NoDup ((λ d, (d_namespace d, d_name d)) <$> l)
      ∧ (∀ d, d ∈ l → r !! (d_namespace d, d_name d) = None)
      ∧ r' = list_to_map ((λ d, ((d_namespace d, d_name d), d)) <$> l) ∪ r
  end.
Proof.
  unfold PluginRegistry in *. revert r. induction l as [|d l IH]; intros r; cbn.
  { split_and!; [done|apply NoDup_nil_2|by intros ? ?%not_elem_of_nil|symmetry; apply (left_id_L ∅ (∪))]. }
  unfold register, PluginRegistry in *. destruct (negb (validate_identifier (d_namespace d))); [done|]. destruct (negb (validate_identifier (d_name d))); [done|].
  rewrite lookup_fmap. destruct (r !! (d_namespace d, d_name d)) as [p|] eqn:Hr; cbn; [done|].
  specialize (IH (<[(d_namespace d, d_name d) := d]> r)). rewrite fmap_insert in IH. destruct (register_all l _) as [r'|e]; [|done].
  destruct IH as (H1 & H2 & H3 & ->). split_and!; [done| | |].
  - constructor; [|done]. intros (d' & He & Hin)%list_elem_of_fmap. specialize (H3 d' Hin). by rewrite <- He, lookup_insert_eq in H3.
  - intros d' [->|Hin]%elem_of_cons; [done|]. specialize (H3 d' Hin). apply lookup_insert_None in H3. tauto.
  - rewrite <- insert_union_r, insert_union_l; [done|].
    apply not_elem_of_list_to_map_1. rewrite <- list_fmap_compose. intros (d' & He & Hin)%list_elem_of_fmap. specialize (H3 d' Hin). cbn in He.
    by rewrite <- He, lookup_insert_eq in H3.
Qed.

(** The registry of linked plugins does not depend on the order in which they were linked:
    whatever the order of the descriptors, [from_auto] gives the same registry or the same
    error. *)
Theorem plugin_link_order ds ds' : ds ≡ₚ ds' → from_auto ds = from_auto ds'.
Proof.
  intros Hp. unfold from_auto, from_descriptors. set (l := merge_sort descriptor_le ds). set (l' := merge_sort descriptor_le ds').
  assert (Hl : l ≡ₚ l') by (unfold l, l'; rewrite !merge_sort_Permutation; done).
  assert (Hk : sort_key <$> l = sort_key <$> l').
  { apply (Sorted_unique key_order); [apply sorted_keys, Sorted_merge_sort, _..|]. by rewrite Hl. }
  pose proof (register_all_keys l ∅) as R1. pose proof (register_all_keys l' ∅) as R2. rewrite <- Hk in R2.
  destruct (register_all l ∅) as [r|e], (register_all l' ∅) as [r'|e']; [|destruct R1; congruence|destruct R2; congruence|congruence].
  destruct R1 as (_ & Hn & _ & ->), R2 as (_ & _ & _ & ->). f_equal. f_equal. apply list_to_map_proper; [|by rewrite Hl].
  by rewrite <- list_fmap_compose.
Qed.
End PluginOrder.
