(* ===== verification/PluginRun.v ===== *)
(** * What a plugin host promises

    In every run of a host: nothing panics, plugins are set up in the order of their
    dependencies and get capabilities only from plugins that are ready, commands and events
    reach a plugin only when all are, and every request is settled once. *)
From S2P Require Import Prelude Message Plugin PluginOrder.
From stdpp Require Import strings sorting relations.
#[local] Open Scope Z_scope.

Module PluginRun.
Import Plugin PluginOrder.

(** ** What is mounted is well typed *)

Definition caps_typed (m : gmap TypeId CapabilityEntry) : Prop := ∀ t e, m !! t = Some e → any_type (c_value e) = t.

(** Subscribers are under their types, and are plugins of which [P] holds. *)
Definition subs_typed (P : string → Prop) (m : gmap TypeId (list Subscriber)) : Prop := ∀ t l s, m !! t = Some l → s ∈ l → sub_type s = t ∧ P (sub_plugin s).
Definition build_typed (P : string → Prop) (b : BuildState) : Prop := caps_typed (b_capabilities b) ∧ subs_typed P (b_subscribers b).

Lemma provide_typed P plugin c b : build_typed P b → build_typed P (provide plugin c b).1.
Proof.
  intros [Hc Hs]. unfold provide. destruct (b_capabilities b !! any_type c); [done|]. split; [|done]. intros t e. cbn.
  destruct (decide (any_type c = t)) as [<-|Hne]; [|rewrite lookup_insert_ne by done; apply Hc]. rewrite lookup_insert_eq. by intros [= <-].
Qed.

Lemma subscribe_typed (P : string → Prop) plugin t h b : P plugin → build_typed P b → build_typed P (subscribe plugin t h b).1.
Proof.
  intros HP [Hc Hs]. unfold subscribe. case_decide; [done|]. split; [done|]. intros u l s. cbn.
  destruct (decide (t = u)) as [<-|Hne]; [|rewrite lookup_insert_ne by done; apply Hs]. rewrite lookup_insert_eq. intros [= <-] [Hin|Hin]%elem_of_app.
  - destruct (b_subscribers b !! t) eqn:Hb; [by eapply Hs|]. by apply not_elem_of_nil in Hin.
  - by apply list_elem_of_singleton in Hin as ->.
Qed.

Lemma run_mount_typed (P : string → Prop) plugin c b : P plugin → build_typed P b → build_typed P (run_mount plugin c b).1.
Proof.
  intros HP. revert b. induction c as [r|v k IH|t h k IH]; intros b Hb; cbn; [done| |].
  - pose proof (provide_typed P plugin v b Hb). destruct (provide plugin v b). by apply IH.
  - pose proof (subscribe_typed P plugin t h b HP Hb). destruct (subscribe plugin t h b). by apply IH.
Qed.

(** ** What is loaded *)

Definition name_of (p : LoadedPlugin) : string := d_name (l_descriptor p).

Lemma mount_all_typed (P : string → Prop) l b b' : (∀ p, p ∈ l → P (name_of p)) → build_typed P b → mount_all l b = inl b' → build_typed P b'.
Proof.
  revert b. induction l as [|x l IH]; intros b HP Hb; cbn; [by intros [= <-]|].
  pose proof (run_mount_typed P (name_of x) (mount (l_plugin x)) b (HP x (list_elem_of_here _ _)) Hb) as Hm. unfold name_of in Hm.
  destruct (run_mount _ _ b) as [b1 [e|]]; [done|]. apply IH; [|done]. intros p Hp. by apply HP, list_elem_of_further.
Qed.

(** Routes and names go together, and the names are those of loaded plugins. *)
Definition paired (t : Tables) : Prop :=
  (∀ c, is_Some (t_routes t !! c) ↔ is_Some (t_names t !! c)) ∧ ∀ c n, t_names t !! c = Some n → is_Some (t_dependencies t !! n).

Lemma route_commands_paired name p cs t t' :
  paired t → is_Some (t_dependencies t !! name) → route_commands name p cs t = inl t' → paired t' ∧ t_dependencies t' = t_dependencies t.
Proof.
  revert t. induction cs as [|c cs IH]; intros t [Ht Hn] Hd; cbn; [by intros [= <-]|]. destruct (t_names t !! c); [done|].
  intros Hr. apply IH in Hr; [done| |done]. split; cbn.
  - intros c'. rewrite !lookup_insert_is_Some. by rewrite (Ht c').
  - intros c' n. destruct (decide (c = c')) as [<-|Hne]; [rewrite lookup_insert_eq; by intros [= <-]|]. rewrite lookup_insert_ne by done. apply Hn.
Qed.

(** The dependencies of the plugins that are loaded. *)
Definition deps_of (l : list LoadedPlugin) (m : gmap string (gset string)) : Prop :=
  (∀ n, is_Some (m !! n) ↔ n ∈ name_of <$> l) ∧
  ∀ p, p ∈ l → m !! name_of p = Some (list_to_set (dependencies (l_descriptor p))).

Lemma load_spec l t loaded t' loaded' :
  paired t → deps_of loaded (t_dependencies t) → NoDup ((name_of <$> loaded) ++ ((λ dc, d_name dc.1) <$> l)) →
  load l t loaded = inl (t', loaded') →
  paired t' ∧ deps_of loaded' (t_dependencies t') ∧ l_descriptor <$> loaded' = (l_descriptor <$> loaded) ++ l.*1.
Proof.
  revert t loaded. induction l as [|[d cfg] l IH]; intros t loaded Hp Hd Hn; cbn; [intros [= <- <-]; by rewrite app_nil_r|].
  set (t1 := mkTables _ _ _). destruct (route_commands _ _ _ t1) as [t2|e] eqn:Hr; [|done].
  assert (Hp1 : paired t1).
  { split; cbn; [apply Hp|]. intros c n Hc%(proj2 Hp). apply lookup_insert_is_Some. destruct (decide (d_name d = n)); auto. }
  destruct (route_commands_paired _ _ _ t1 _ Hp1 ltac:(cbn; by rewrite lookup_insert_eq) Hr) as [Hp2 Hd2]. intros Hl. cbn in Hn.
  assert (Hnew : d_name d ∉ name_of <$> loaded).
  { intros Hin. apply NoDup_app in Hn as (_ & Hn & _). apply (Hn _ Hin), list_elem_of_here. }
  apply IH in Hl as (H1 & H2 & H3); [|done| |].
  - split_and!; [done|done|]. rewrite H3, fmap_app, <- app_assoc. done.
  - destruct Hd as [D1 D2]. rewrite Hd2. cbn. split.
    + intros n. rewrite lookup_insert_is_Some, D1, fmap_app, elem_of_app. cbn. rewrite list_elem_of_singleton. unfold name_of at 2. cbn.
      destruct (decide (d_name d = n)); naive_solver.
    + intros p [Hin| ->%list_elem_of_singleton]%elem_of_app; cbn.
      * rewrite lookup_insert_ne; [by apply D2|]. intros He. apply Hnew. rewrite He. by apply list_elem_of_fmap_2.
      * unfold name_of. cbn. by rewrite lookup_insert_eq.
  - rewrite fmap_app, <- app_assoc. done.
Qed.

(** ** What may be shown *)

Section runs.
Context (ns : string) (reg : PluginRegistry).

(** What may be shown after [a]: a plugin is initialized when its dependencies have been;
    it gets a capability from itself or from a plugin that has been; it gets a command or
    an event when all plugins mounted with it have been. *)
Definition may_show (a : list Out) (o : Out) : Prop :=
  match o with
  | OInit p => ∀ b, declares ns reg p b → OInited b ∈ a
  | OGot p from => from = p ∨ OInited from ∈ a
  | OHandle _ p | OEvent p _ => ∃ names, OMounted names ∈ a ∧ p ∈ names ∧ ∀ n, n ∈ names → OInited n ∈ a
  | _ => True
  end.

Definition trace_ok (l : list Out) : Prop := ∀ a o b, l = a ++ o :: b → may_show a o.

Lemma may_show_app a a' o : may_show a o → may_show (a ++ a') o.
Proof.
  destruct o; cbn; try done; setoid_rewrite elem_of_app; naive_solver.
Qed.

Lemma trace_ok_snoc l o : trace_ok l → may_show l o → trace_ok (l ++ [o]).
Proof.
  intros Hl Ho a o' b He. destruct b as [|x b _] using rev_ind.
  - by apply app_inj_tail in He as [<- <-].
  - rewrite app_comm_cons, app_assoc in He. apply app_inj_tail in He as [He _]. by eapply Hl.
Qed.

(** A plugin of a runtime. *)
Definition member (rt : Runtime) (n : string) : Prop := is_Some (r_dependencies rt !! n).

Record rt_ok (rt : Runtime) : Prop := {
  ro_routes c : is_Some (routes rt !! c) ↔ is_Some (plugin_names rt !! c);
  ro_names c n : plugin_names rt !! c = Some n → member rt n;
  ro_caps : caps_typed (capabilities rt);
  ro_subs : subs_typed (member rt) (subscribers rt);
  ro_closed n items b : r_dependencies rt !! n = Some items → b ∈ items → member rt b;
}.

Definition mounted (rt : Runtime) (l : list Out) : Prop := ∃ names, OMounted names ∈ l ∧ ∀ n, n ∈ names ↔ member rt n.
Definition ready (rt : Runtime) (l : list Out) : Prop := rt_ok rt ∧ mounted rt l ∧ ∀ n, member rt n → OInited n ∈ l.

Lemma ready_shows rt l p : ready rt l → member rt p → ∃ names, OMounted names ∈ l ∧ p ∈ names ∧ ∀ n, n ∈ names → OInited n ∈ l.
Proof.
  intros (_ & (names & Hm & Hn) & Hi) Hp. exists names. split_and!; [done|by apply Hn|]. intros n ?%Hn. by apply Hi.
Qed.

Lemma mounted_app rt l l' : mounted rt l → mounted rt (l ++ l').
Proof. intros (names & Hm & Hn). exists names. split; [|done]. apply elem_of_app. by left. Qed.

Lemma ready_app rt l l' : ready rt l → ready rt (l ++ l').
Proof. intros (H1 & H2 & H3). split_and!; [done|by apply mounted_app|]. intros n ?%H3. apply elem_of_app. by left. Qed.

(** The plugins of a runtime that [init] still has to do, in their order. *)
Definition queue_ok (rt : Runtime) (l : list LoadedPlugin) (o : list Out) : Prop :=
  (∀ n, member rt n → OInited n ∈ o ∨ n ∈ name_of <$> l) ∧
  ∀ l1 q l2, l = l1 ++ q :: l2 →
    r_dependencies rt !! name_of q = Some (list_to_set (dependencies (l_descriptor q))) ∧ get ns (name_of q) reg = Some (l_descriptor q)
    ∧ ∀ b, b ∈ dependencies (l_descriptor q) → OInited b ∈ o ∨ b ∈ name_of <$> l1.

Lemma queue_ok_app rt l o o' : queue_ok rt l o → queue_ok rt l (o ++ o').
Proof.
  intros [H1 H2]. split.
  - intros n Hn. rewrite elem_of_app. destruct (H1 n Hn); auto.
  - intros l1 q l2 He. destruct (H2 l1 q l2 He) as (Ha & Hb & Hc). split_and!; [done|done|]. intros b Hin. rewrite elem_of_app. destruct (Hc b Hin); auto.
Qed.

Lemma queue_ok_next rt p l o : queue_ok rt (p :: l) o → queue_ok rt l (o ++ [OInited (name_of p)]).
Proof.
  intros [H1 H2]. split.
  - intros n Hn. rewrite elem_of_app, list_elem_of_singleton. destruct (H1 n Hn) as [?|Hin]; [auto|]. cbn in Hin. apply elem_of_cons in Hin as [->|?]; auto.
  - intros l1 q l2 ->. destruct (H2 (p :: l1) q l2 eq_refl) as (Ha & Hb & Hc). split_and!; [done|done|]. intros b Hin.
    rewrite elem_of_app, list_elem_of_singleton. destruct (Hc b Hin) as [?|Hb']; [auto|]. cbn in Hb'. apply elem_of_cons in Hb' as [->|?]; auto.
Qed.

Definition task_ok (o : list Out) (t : Task) : Prop :=
  match t with
  | TInit rt p _ rest _ => rt_ok rt ∧ mounted rt o ∧ queue_ok rt (p :: rest) o
  | THandle rt n _ _ | TEvent rt n _ => ready rt o ∧ member rt n
  end.

Lemma task_ok_app o o' t : task_ok o t → task_ok (o ++ o') t.
Proof.
  destruct t; cbn.
  - intros (H1 & H2 & H3). split_and!; [done|by apply mounted_app|by apply queue_ok_app].
  - intros [H1 H2]. split; [by apply ready_app|done].
  - intros [H1 H2]. split; [by apply ready_app|done].
Qed.

(** ** The books *)

Definition is_request (x : Z * Z) (m : Message) : Z := if decide (source m = x.1 ∧ session m = x.2) then 1 else 0.

(** A request is settled when it is refused, or its handler has returned without an error. *)
Definition settles (x : Z * Z) (o : Out) : Z := match o with OError m | OHandled m => is_request x m | _ => 0 end.
Definition settled (x : Z * Z) (l : list Out) : Z := foldr (λ o n, settles x o + n) 0 l.
Definition handling (x : Z * Z) (ts : list Task) : Z := foldr (λ t n, (match t with THandle _ _ m _ => is_request x m | _ => 0 end) + n) 0 ts.

Lemma settled_app x a b : settled x (a ++ b) = settled x a + settled x b.
Proof. unfold settled. induction a as [|o a IH]; cbn; lia. Qed.

Lemma handling_app x a b : handling x (a ++ b) = handling x a + handling x b.
Proof. unfold handling. induction a as [|o a IH]; cbn; lia. Qed.

Lemma handling_delete x ts i t : ts !! i = Some t → handling x ts = handling x [t] + handling x (delete i ts).
Proof.
  intros Hi. rewrite <- (take_drop_middle ts i t Hi) at 1. rewrite delete_take_drop, !handling_app.
  change (t :: drop (S i) ts) with ([t] ++ drop (S i) ts). rewrite handling_app. lia.
Qed.

Definition world_ok (w : W) : Prop :=
  namespace w = ns ∧ registry w = reg ∧ panicked w = false ∧ trace_ok (outs w) ∧ ∀ rt, runtime w = Some rt → ready rt (outs w).

(** What a handler does to a good world: it stays good, what was shown stays, its futures
    are in order, and it settles or keeps [a x] requests of [x]. *)
Definition does (a : Z * Z → Z) (w : W) (r : W * list Task) : Prop :=
  world_ok r.1 ∧ Forall (task_ok (outs r.1)) r.2 ∧ (∃ l, outs r.1 = outs w ++ l) ∧
  ∀ x, x.2 ≠ 0 → settled x (outs r.1) + handling x r.2 = settled x (outs w) + a x.

Lemma world_out o w : world_ok w → may_show (outs w) o → world_ok (out o w).
Proof.
  intros (H1 & H2 & H3 & H4 & H5) Ho. split_and!; cbn; try done; [by apply trace_ok_snoc|]. intros rt Hr. by apply ready_app, H5.
Qed.

Lemma does_then a b w w1 r : world_ok w1 → (∃ l, outs w1 = outs w ++ l) → (∀ x, x.2 ≠ 0 → settled x (outs w1) = settled x (outs w) + a x) →
  does b w1 r → does (λ x, a x + b x) w r.
Proof.
  intros _ [l Hl] Ha (H1 & H2 & [l' Hl'] & H4). split_and!; [done|done|exists (l ++ l'); by rewrite Hl', Hl, app_assoc|].
  intros x Hx. rewrite H4, Ha by done. lia.
Qed.

Lemma does_ext a b w r : (∀ x, x.2 ≠ 0 → a x = b x) → does a w r → does b w r.
Proof. intros He (H1 & H2 & H3 & H4). split_and!; [done|done|done|]. intros x Hx. rewrite H4, He by done. done. Qed.

(** Capabilities that [plugin] may have. *)
Definition may_get (rt : Runtime) (plugin : string) (o : list Out) : Prop :=
  ∀ from, from = plugin ∨ (∃ items, r_dependencies rt !! plugin = Some items ∧ from ∈ items) → from = plugin ∨ OInited from ∈ o.

Lemma exec_ok rt plugin c w w' r :
  rt_ok rt → may_get rt plugin (outs w) → world_ok w → exec rt plugin c w = (w', r) →
  r ≠ Broken ∧ world_ok w' ∧ (∃ l, outs w' = outs w ++ l) ∧ ∀ x, settled x (outs w') = settled x (outs w).
Proof.
  intros Hrt. revert w. induction c as [v|t k IH|e k IH|m v k IH|k]; intros w Hg Hw; cbn.
  - intros [= <- <-]. split_and!; [done|done|exists []; by rewrite app_nil_r|done].
  - unfold require. destruct (capabilities rt !! t) as [e|] eqn:Hc; [|by apply IH].
    case_decide as Ha; [|by apply IH]. rewrite decide_True by by eapply (ro_caps rt Hrt). cbn. intros He.
    assert (Hshow : provider e = plugin ∨ OInited (provider e) ∈ outs w).
    { apply Hg. destruct Ha as [->|Ha]; [by left|right]. unfold is_some_and in Ha. destruct (r_dependencies rt !! plugin) as [items|]; [|done].
      apply bool_decide_eq_true in Ha. eauto. }
    apply IH in He as (H1 & H2 & [l Hl] & H4); [| |by apply world_out].
    + split_and!; [done|done|cbn in Hl; rewrite Hl, <- app_assoc; eauto|]. intros x. rewrite H4. cbn [out outs]. rewrite settled_app. cbn. lia.
    + cbn. intros from Hf. rewrite elem_of_app. destruct (Hg from Hf); auto.
  - unfold emit. destruct (alive w).
    + intros He. by apply (IH None (set_posted (posted w ++ [e]) w)) in He.
    + by apply IH.
  - destruct (needs_reply m); [|by apply IH]. intros He. apply IH in He as (H1 & H2 & [l Hl] & H4); [| |by apply world_out].
    + split_and!; [done|done|cbn in Hl; rewrite Hl, <- app_assoc; eauto|]. intros x. rewrite H4. cbn [out outs]. rewrite settled_app. cbn. lia.
    + cbn. intros from Hf. rewrite elem_of_app. destruct (Hg from Hf); auto.
  - intros [= <- <-]. split_and!; [done|done|exists []; by rewrite app_nil_r|done].
Qed.

Lemma may_get_ready rt plugin o : ready rt o → may_get rt plugin o.
Proof. intros (Hr & _ & Hi) from [->|(items & Hd & Hin)]; [by left|]. right. apply Hi. by eapply (ro_closed rt Hr). Qed.

Lemma may_get_queue rt p l o : queue_ok rt (p :: l) o → may_get rt (name_of p) o.
Proof.
  intros [_ Hq] from [->|(items & Hd & Hin)]; [by left|]. right. destruct (Hq [] p l eq_refl) as (Ha & _ & Hc).
  rewrite Ha in Hd. injection Hd as <-. apply elem_of_list_to_set in Hin. destruct (Hc _ Hin) as [?|Hn]; [done|]. by apply not_elem_of_nil in Hn.
Qed.

(** ** Handlers *)

Lemma does_out o w : world_ok w → may_show (outs w) o → (∀ x, settles x o = 0) → does (λ _, 0) w (out o w, []).
Proof.
  intros Hw Ho Hs. split_and!; cbn [fst snd]; [by apply world_out|done|by eexists|]. intros x _. cbn [out outs]. rewrite settled_app. cbn. rewrite Hs. lia.
Qed.

Lemma init_done_does rt messages w :
  rt_ok rt → mounted rt (outs w) → queue_ok rt [] (outs w) → world_ok w → does (λ _, 0) w (init_done rt messages w, []).
Proof.
  intros Hrt Hm [Hq _] Hw. unfold init_done, register_debug_messages. destruct (debug_duplicate _ messages); [by apply does_out|].
  set (w1 := set_runtime _ _). apply (does_out _ w1); [|done|done]. destruct Hw as (H1 & H2 & H3 & H4 & H5). split_and!; try done.
  intros rt' [= <-]. split_and!; [done|done|]. intros n Hn. destruct (Hq n Hn) as [?|Hin]; [done|]. by apply not_elem_of_nil in Hin.
Qed.

(** The [init] of a plugin has got as far as [r]; [IH] is about the plugins after it. *)
Lemma init_goes_on rt p l messages c w w1 r :
  (∀ w2, mounted rt (outs w2) → queue_ok rt l (outs w2) → world_ok w2 → does (λ _, 0) w2 (init_plugins rt l (messages ++ debug_messages (l_plugin p)) w2)) →
  rt_ok rt → mounted rt (outs w) → queue_ok rt (p :: l) (outs w) → world_ok w → exec rt (name_of p) c w = (w1, r) →
  does (λ _, 0) w
    match r with
    | Finished None => init_plugins rt l (messages ++ debug_messages (l_plugin p)) (out (OInited (name_of p)) w1)
    | Finished (Some e) => (out (OReady (Some e)) w1, [])
    | Waiting k => (w1, [TInit rt p k l messages])
    | Broken => (panic w1, [])
    end.
Proof.
  intros IH Hrt Hm Hq Hw He. destruct (exec_ok _ _ _ _ _ _ Hrt (may_get_queue _ _ _ _ Hq) Hw He) as (Hb & Hw1 & [o Ho] & Hs).
  assert (Hm1 : mounted rt (outs w1)) by (rewrite Ho; by apply mounted_app). assert (Hq1 : queue_ok rt (p :: l) (outs w1)) by (rewrite Ho; by apply queue_ok_app).
  apply (does_ext (λ x, 0 + 0)); [done|]. apply (does_then _ _ w w1); [done|eauto|intros x _; rewrite Hs; lia|].
  destruct r as [[e|]|k|]; [by apply does_out| | |done].
  - apply (does_ext (λ x, 0 + 0)); [done|]. apply (does_then _ _ w1 (out (OInited (name_of p)) w1)); [by apply world_out|by eexists| |].
    + intros x _. cbn [out outs]. rewrite settled_app. cbn. lia.
    + apply IH; [by apply mounted_app|by apply queue_ok_next|by apply world_out].
  - split_and!; cbn [fst snd]; [done| |by exists []; rewrite app_nil_r|intros x _; cbn; lia]. by apply Forall_singleton.
Qed.

Lemma init_plugins_does rt l messages w :
  rt_ok rt → mounted rt (outs w) → queue_ok rt l (outs w) → world_ok w → does (λ _, 0) w (init_plugins rt l messages w).
Proof.
  intros Hrt. revert messages w. induction l as [|p l IH]; intros messages w Hm Hq Hw; cbn; [by apply init_done_does|].
  destruct (exec rt _ _ _) as [w1 r] eqn:He. set (w0 := out (OInit (name_of p)) w).
  assert (Hw0 : world_ok w0).
  { apply world_out; [done|]. cbn. intros b (d & Hd & Hb). destruct (proj2 Hq [] p l eq_refl) as (_ & Hg & Hc). rewrite Hg in Hd. injection Hd as <-.
    destruct (Hc b Hb) as [?|Hn]; [done|]. by apply not_elem_of_nil in Hn. }
  apply (does_ext (λ x, 0 + 0)); [done|]. apply (does_then _ _ w w0); [done|by eexists|intros x _; cbn [w0 out outs]; rewrite settled_app; cbn; lia|].
  eapply (init_goes_on rt p l messages (init (l_plugin p) (l_config p)) w0 w1 r); [|done|by apply mounted_app|by apply queue_ok_app|done|done].
  intros w2 Hm2 Hq2 Hw2. by apply IH.
Qed.

Context (Hreg : ∀ n d, get ns n reg = Some d → d_name d = n).

(** The runtime of a configuration that makes sense. *)
Lemma loaded_ok config l t loaded b :
  sound ns reg config → arranged ns reg config l → load l (mkTables ∅ ∅ ∅) [] = inl (t, loaded) → mount_all loaded build_default = inl b →
  let rt := mkRuntime (t_routes t) (t_names t) (t_dependencies t) (b_capabilities b) (b_subscribers b) in
  rt_ok rt ∧ (∀ n, n ∈ name_of <$> loaded ↔ member rt n) ∧ queue_ok rt loaded [].
Proof.
  intros Hso (specs & Hp & Hf & Hbefore) Hl Hb rt.
  assert (Hget : ∀ s dc, get ns (s_name s) reg = Some dc.1 ∧ dc.2 = s_config s → d_name dc.1 = s_name s) by (intros s dc [Hg _]; by apply Hreg).
  assert (Hnames : (λ dc, d_name dc.1) <$> l = s_name <$> specs).
  { clear -Hf Hget. induction Hf as [|s dc specs l Hs Hf IH]; cbn; [done|]. f_equal; [by apply Hget|done]. }
  destruct (load_spec l (mkTables ∅ ∅ ∅) [] t loaded) as (Hpair & [D1 D2] & Hld); [| | |done|].
  { split; cbn; [intros c; by rewrite !lookup_empty|intros c n; by rewrite lookup_empty]. }
  { split; [intros n; cbn; rewrite lookup_empty; split; [by intros []|by intros ?%not_elem_of_nil]|by intros p ?%not_elem_of_nil]. }
  { cbn. rewrite Hnames, Hp. apply Hso. }
  cbn in Hld. assert (Hdesc : Forall2 (λ s p, get ns (s_name s) reg = Some (l_descriptor p)) specs loaded).
  { clear -Hf Hld. revert loaded Hld. induction Hf as [|s dc specs l [Hs _] Hf IH]; intros [|p loaded] [=]; constructor; [congruence|auto]. }
  assert (Hsplit : ∀ l1 q l2, loaded = l1 ++ q :: l2 → ∀ x, x ∈ dependencies (l_descriptor q) → x ∈ name_of <$> l1).
  { intros l1 q l2 -> x Hx. apply Forall2_app_inv_r in Hdesc as (s1 & s2' & H1 & H2 & ->). apply Forall2_cons_inv_r in H2 as (s & s2 & Hs & _ & ->).
    assert (Hin : x ∈ s_name <$> s1) by (eapply Hbefore; [done|by eexists]).
    replace (name_of <$> l1) with (s_name <$> s1); [done|]. clear -H1 Hreg. induction H1 as [|s p s1 l1 Hs H1 IH]; cbn; [done|]. f_equal; [|done]. symmetry. by apply Hreg. }
  split_and!.
  - split; cbn; [apply Hpair|apply Hpair|apply (mount_all_typed (λ _, True) loaded build_default b); try done| |].
    + eapply (mount_all_typed (member rt) loaded build_default b); [|split; [done|]|done]; [|intros ? ? ? Hx; cbn in Hx; by rewrite lookup_empty in Hx].
      intros p Hin. apply D1. by apply list_elem_of_fmap_2.
    + intros n items x Hn Hx. apply D1. assert (n ∈ name_of <$> loaded) as Hin by (apply D1; by rewrite Hn).
      apply list_elem_of_fmap in Hin as (p & -> & Hin). rewrite (D2 p Hin) in Hn. injection Hn as <-. apply elem_of_list_to_set in Hx.
      apply list_elem_of_split in Hin as (l1 & l2 & ->). rewrite fmap_app. apply elem_of_app. left. by eapply Hsplit.
  - intros n. symmetry. apply D1.
  - split; [intros n Hn; right; by apply D1|]. intros l1 q l2 He. assert (q ∈ loaded) as Hq by (rewrite He, elem_of_app, elem_of_cons; tauto).
    split_and!; [by apply D2| |intros x Hx; right; by eapply Hsplit]. rewrite He in Hdesc. apply Forall2_app_inv_r in Hdesc as (s1 & s2' & _ & H2 & ->).
    apply Forall2_cons_inv_r in H2 as (s & s2 & Hs & _ & ->). unfold name_of. by rewrite (Hreg _ _ Hs).
Qed.

Lemma host_init_does config w : world_ok w → does (λ _, 0) w (host_init config w).
Proof.
  intros Hw. unfold host_init. destruct (runtime w); [by apply does_out|]. destruct Hw as (Hns & Hrg & Hw). rewrite Hns, Hrg.
  assert (Hw' : world_ok w) by done. pose proof (plugin_resolved ns reg config) as Hr.
  destruct (resolve ns reg config) as [[l|e]|]; [|by apply does_out|done]. destruct Hr as [Hso Har].
  destruct (load l _ []) as [[t loaded]|e] eqn:Hl; [|by apply does_out]. destruct (mount_all loaded build_default) as [b|e] eqn:Hb; [|by apply does_out].
  destruct (loaded_ok config l t loaded b Hso Har Hl Hb) as (Hrt & Hmem & Hq). set (rt := mkRuntime _ _ _ _ _) in *. set (w1 := out (OMounted _) w).
  apply (does_ext (λ x, 0 + 0)); [done|]. apply (does_then _ _ w w1); [by apply world_out|by eexists|intros x _; cbn [w1 out outs]; rewrite settled_app; cbn; lia|].
  apply init_plugins_does; [done| |by apply (queue_ok_app _ _ [])|by apply world_out].
  eexists. split; [|exact Hmem]. cbn. apply elem_of_app. right. by apply list_elem_of_singleton.
Qed.

Lemma reply_error_does m w : world_ok w → does (λ x, is_request x m) w (reply_error m w, []).
Proof.
  intros Hw. unfold reply_error, needs_reply. destruct (session m =? 0) eqn:Hs; cbn.
  - split_and!; cbn; [done|done|by exists []; rewrite app_nil_r|]. intros x Hx. unfold is_request. rewrite decide_False; [lia|]. intros []. apply Z.eqb_eq in Hs. congruence.
  - split_and!; cbn [fst snd]; [by apply world_out|done|by eexists|]. intros x _. cbn [out outs]. rewrite settled_app. cbn. lia.
Qed.

Lemma handled_does m r w : world_ok w → does (λ x, is_request x m) w (handled m r w, []).
Proof.
  intros Hw. destruct r as [e|]; [by apply reply_error_does|]. split_and!; cbn [fst snd handled]; [by apply world_out|done|by eexists|].
  intros x _. cbn [out outs]. rewrite settled_app. cbn. lia.
Qed.

(** [handle] has got as far as [r]. *)
Lemma handle_goes_on rt name m c w w1 r :
  ready rt (outs w) → member rt name → world_ok w → exec rt name c w = (w1, r) →
  does (λ x, is_request x m) w
    match r with Finished r => (handled m r w1, []) | Waiting k => (w1, [THandle rt name m k]) | Broken => (panic w1, []) end.
Proof.
  intros Hr Hn Hw He. destruct (exec_ok _ _ _ _ _ _ (proj1 Hr) (may_get_ready _ _ _ Hr) Hw He) as (Hb & Hw1 & [o Ho] & Hs).
  apply (does_ext (λ x, 0 + is_request x m)); [done|]. apply (does_then _ _ w w1); [done|eauto|intros x _; rewrite Hs; lia|].
  destruct r as [r|k|]; [by apply handled_does| |done]. split_and!; cbn [fst snd]; [done| |by exists []; rewrite app_nil_r|intros x _; cbn; lia].
  apply Forall_singleton. split; [|done]. rewrite Ho. by apply ready_app.
Qed.

Lemma event_tasks rt e l ts o :
  mapM (event_task rt e) l = Some ts → ready rt o → (∀ s, s ∈ l → member rt (sub_plugin s)) → Forall (task_ok o) ts ∧ ∀ x, handling x ts = 0.
Proof.
  revert ts. induction l as [|s l IH]; intros ts; cbn; [intros [= <-] _ _; done|].
  destruct (event_task rt e s) as [t|] eqn:Ht; [|done]. unfold event_task in Ht. case_decide; [|done]. injection Ht as <-. cbn.
  destruct (mapM (event_task rt e) l) as [ts'|]; [|done]. intros [= <-] Hr Hs.
  destruct (IH ts' eq_refl Hr) as [H1 H2]; [intros; by apply Hs, list_elem_of_further|]. split.
  - constructor; [|done]. split; [done|]. apply Hs, list_elem_of_here.
  - intros x. cbn. apply H2.
Qed.

Lemma dispatch_event_does rt e w : ready rt (outs w) → world_ok w → does (λ _, 0) w (dispatch_event rt e w).
Proof.
  intros Hr Hw. assert (Hnil : does (λ _, 0) w (w, [])) by (split_and!; cbn; [done|done|by exists []; rewrite app_nil_r|intros; lia]).
  unfold dispatch_event. destruct (subscribers rt !! any_type e) as [l|] eqn:Hl; [|done].
  assert (Hty : ∀ s, s ∈ l → sub_type s = any_type e ∧ member rt (sub_plugin s)) by (intros s Hs; by eapply (ro_subs rt (proj1 Hr))).
  destruct (mapM (event_task rt e) l) as [ts|] eqn:Hts.
  - assert (Hfold : ∀ k, (∀ s, s ∈ k → member rt (sub_plugin s)) → ∀ w, ready rt (outs w) → world_ok w →
      let w' := fold_left (λ w s, out (OEvent (sub_plugin s) e) w) k w in world_ok w' ∧ (∃ o, outs w' = outs w ++ o) ∧ ∀ x, settled x (outs w') = settled x (outs w)).
    { clear. induction k as [|s k IH]; intros Hk w Hr Hw; cbn; [split_and!; [done|by exists []; rewrite app_nil_r|done]|].
      destruct (IH (λ s' Hs', Hk s' (list_elem_of_further _ _ _ Hs')) (out (OEvent (sub_plugin s) e) w)) as (H1 & [o Ho] & H3).
      - by apply ready_app.
      - apply world_out; [done|]. cbn. eapply ready_shows; [done|]. apply Hk, list_elem_of_here.
      - split_and!; [done|cbn in Ho; rewrite Ho, <- app_assoc; eauto|]. intros x. rewrite H3. cbn [out outs]. rewrite settled_app. cbn. lia. }
    destruct (Hfold l (λ s Hs, proj2 (Hty s Hs)) w Hr Hw) as (H1 & [o Ho] & H3).
    destruct (event_tasks rt e l ts (outs w ++ o) Hts (ready_app _ _ _ Hr) (λ s Hs, proj2 (Hty s Hs))) as [H4 H5].
    split_and!; cbn [fst snd]; [done|by rewrite Ho|by eexists|]. intros x _. rewrite H3, H5. lia.
  - exfalso. clear -Hts Hty. induction l as [|s l IH]; cbn in Hts; [done|]. destruct (event_task rt e s) as [t|] eqn:Ht.
    2: { unfold event_task in Ht. rewrite decide_True in Ht; [done|]. by rewrite (proj1 (Hty s (list_elem_of_here _ _))). }
    cbn in Hts. destruct (mapM (event_task rt e) l); [done|].
    apply IH; [|done]. intros; by apply Hty, list_elem_of_further.
Qed.

Definition asks (x : Z * Z) (m : Message) (b : Body) : Z := match b with BEvent _ => 0 | _ => is_request x m end.

Lemma dispatch_does m b w : session m = 0 ∨ is_event b = false → world_ok w → does (λ x, asks x m b) w (dispatch m b w).
Proof.
  intros Hse Hw. unfold dispatch. destruct (runtime w) as [rt|] eqn:Hrt.
  - assert (Hr : ready rt (outs w)) by by apply Hw. destruct b as [e|c v|]; cbn; [by apply dispatch_event_does| |by apply reply_error_does].
    unfold dispatch_command. destruct (routes rt !! c) as [p|] eqn:Hp; [|by apply reply_error_does].
    assert (is_Some (plugin_names rt !! c)) as [name Hn] by (apply (ro_routes rt (proj1 Hr)); by rewrite Hp). rewrite Hn.
    assert (Hmem : member rt name) by by eapply (ro_names rt (proj1 Hr)).
    destruct (exec rt name _ _) as [w1 r] eqn:He. set (w0 := out (OHandle m name) w) in *.
    assert (Hw0 : world_ok w0) by (apply world_out; [done|by eapply ready_shows]).
    apply (does_ext (λ x, 0 + is_request x m)); [done|]. apply (does_then _ _ w w0); [done|by eexists|intros x _; cbn [w0 out outs]; rewrite settled_app; cbn; lia|].
    eapply handle_goes_on; [by apply ready_app|done|done|done].
  - destruct b as [e|c v|]; cbn; [|by apply reply_error_does..]. destruct Hse as [Hse|]; [|done].
    eapply does_ext; [|by apply reply_error_does]. intros x Hx. cbn. unfold is_request. rewrite decide_False; [done|]. intros []. congruence.
Qed.

Definition task_asks (x : Z * Z) (t : Task) : Z := match t with THandle _ _ m _ => is_request x m | _ => 0 end.

Lemma handling_one x t : handling x [t] = task_asks x t.
Proof. unfold handling, task_asks. cbn. lia. Qed.

Lemma resume_does t v w : task_ok (outs w) t → world_ok w → does (λ x, task_asks x t) w (resume t v w).
Proof.
  intros Ht Hw. destruct t as [rt p k l messages|rt name m k|rt name k]; cbn in *.
  - destruct Ht as (Hrt & Hm & Hq). destruct (exec rt _ _ _) as [w1 r] eqn:He.
    eapply (init_goes_on rt p l messages (k v) w w1 r); try done. intros w2 Hm2 Hq2 Hw2. by apply init_plugins_does.
  - destruct Ht as [Hr Hn]. destruct (exec rt _ _ _) as [w1 r] eqn:He. by eapply handle_goes_on.
  - destruct Ht as [Hr Hn]. destruct (exec rt _ _ _) as [w1 r] eqn:He.
    destruct (exec_ok _ _ _ _ _ _ (proj1 Hr) (may_get_ready _ _ _ Hr) Hw He) as (Hb & Hw1 & [o Ho] & Hs).
    destruct r as [r|k'|]; [| |done]; (split_and!; cbn [fst snd]; [done| |by eexists|intros x _; rewrite Hs; cbn; lia]); [done|].
    apply Forall_singleton. split; [|done]. rewrite Ho. by apply ready_app.
Qed.

(** ** Runs *)

Record good (a : Z * Z → Z) (s : Sys) : Prop := {
  g_world : world_ok (world s);
  g_tasks : Forall (task_ok (outs (world s))) (tasks s);
  g_books x : x.2 ≠ 0 → settled x (outs (world s)) + handling x (tasks s) = a x;
}.

Definition event_asks (x : Z * Z) (ev : Event) : Z := match ev with EMessage m b => asks x m b | _ => 0 end.

Lemma settle_good a b s r : world_ok (world s) → Forall (task_ok (outs (world s))) (tasks s) →
  (∀ x, x.2 ≠ 0 → settled x (outs (world s)) + handling x (tasks s) + b x = a x) → does b (world s) r → good a (settle s r).
Proof.
  intros Hw Ht Ha (H1 & H2 & [l Hl] & H4). split; cbn [settle world tasks]; [done| |].
  - apply Forall_app. split; [|done]. rewrite Hl. eapply Forall_impl; [exact Ht|]. intros t. apply task_ok_app.
  - intros x Hx. rewrite handling_app. specialize (H4 x Hx). specialize (Ha x Hx). lia.
Qed.

Lemma plugin_step_good a ev s s' : good a s → step ev s = Some s' → good (λ x, a x + event_asks x ev) s'.
Proof.
  intros [Hw Ht Hb]. unfold step. destruct Hw as (Hns & Hrg & Hp & Hw). rewrite Hp. assert (Hw' : world_ok (world s)) by done.
  destruct ev as [config|m b| |i v|]; cbn [event_asks].
  - intros [= <-]. eapply settle_good; [done|done| |by apply host_init_does]. intros x Hx. pose proof (Hb x Hx). cbv beta. lia.
  - destruct (is_event b) eqn:He; [done|]. intros [= <-]. eapply settle_good; [done|done| |by apply dispatch_does; [right|]]. intros x Hx. pose proof (Hb x Hx). cbv beta. lia.
  - destruct (posted (world s)) as [|e es]; [done|]. intros [= <-]. eapply (settle_good _ (λ _, 0) (mkSys (set_posted es (world s)) (tasks s))); [done|done| |].
    + intros x Hx. pose proof (Hb x Hx). cbn [world tasks outs set_posted]. lia.
    + by apply (dispatch_does (mkMessage 0 0 MsgType.USER PNone) (BEvent e)); [left|].
  - destruct (tasks s !! i) as [t|] eqn:Hi; [|done]. cbn. intros [= <-].
    eapply (settle_good _ (λ x, task_asks x t) (mkSys (world s) (delete i (tasks s)))); [done|by apply Forall_delete| |].
    + intros x Hx. pose proof (Hb x Hx) as He. rewrite (handling_delete x (tasks s) i t Hi), handling_one in He. cbn [world tasks]. lia.
    + apply resume_does; [|done]. by eapply (Forall_lookup_1 _ _ _ _ Ht).
  - intros [= <-]. split; [done|done|]. intros x Hx. pose proof (Hb x Hx). cbn [world tasks outs set_alive]. lia.
Qed.

Fixpoint asked (x : Z * Z) (evs : list Event) : Z := match evs with [] => 0 | ev :: evs => event_asks x ev + asked x evs end.

Lemma plugin_run_good a evs s s' : good a s → run evs s = Some s' → good (λ x, a x + asked x evs) s'.
Proof.
  revert a s. induction evs as [|ev evs IH]; intros a s Hg; cbn.
  - intros [= <-]. destruct Hg as [G1 G2 G3]. split; [done|done|]. intros x Hx. rewrite (G3 x Hx). lia.
  - destruct (step ev s) as [s1|] eqn:Hs; [|done]. cbn. intros Hr. pose proof (plugin_step_good a ev s s1 Hg Hs) as Hg1.
    destruct (IH _ _ Hg1 Hr) as [G1 G2 G3]. split; [done|done|]. intros x Hx. rewrite (G3 x Hx). lia.
Qed.
End runs.

Lemma registered_names l r r' :
  (∀ k d, r !! k = Some d → k = (d_namespace d, d_name d)) → register_all l r = inl r' → ∀ k d, r' !! k = Some d → k = (d_namespace d, d_name d).
Proof.
  unfold PluginRegistry in *. revert r. induction l as [|d l IH]; intros r Hr; cbn; [by intros [= <-]|]. unfold register, PluginRegistry. destruct (negb _); [done|]. destruct (negb _); [done|].
  destruct (r !! (d_namespace d, d_name d)); [done|]. apply IH. intros k d'. destruct (decide ((d_namespace d, d_name d) = k)) as [<-|Hne].
  - rewrite lookup_insert_eq. by intros [= <-].
  - rewrite lookup_insert_ne by done. apply Hr.
Qed.

(** A run of a host whose registry was made of linked descriptors. *)
Definition runs (ns : string) (ds : list PluginDescriptor) (static : list DebugMessage) (reg : PluginRegistry) (evs : list Event) (s : Sys) : Prop :=
  from_auto ds = inl reg ∧ run evs (sys_new ns reg static) = Some s.

Lemma host_runs_good ns ds static reg evs s : runs ns ds static reg evs s → good ns reg (λ x, asked x evs) s.
Proof.
  intros [Hf Hr]. assert (Hreg : ∀ n d, get ns n reg = Some d → d_name d = n).
  { intros n d Hg. eapply (registered_names (merge_sort descriptor_le ds) ∅ reg) in Hg; [congruence| |exact Hf]. intros k d' Hk. apply lookup_empty_Some in Hk as []. }
  assert (G0 : good ns reg (λ _, 0) (sys_new ns reg static)).
  { split; cbn; [split_and!; try done; intros [|? ?] ? ? ?; done|done|done]. }
  pose proof (plugin_run_good ns reg Hreg _ evs _ s G0 Hr) as [G1 G2 G3]. split; [done|done|]. intros x Hx. rewrite (G3 x Hx). lia.
Qed.

(** C32 Plugins are set up and used in the order of their dependencies, and nothing panics.  In
    every run of a host, whatever its plugins do: a plugin's [init] starts only when those
    of all its dependencies have succeeded; a capability a plugin is given comes from
    itself or from a plugin whose [init] has succeeded; a command or an event reaches a
    plugin only when all plugins mounted with it are initialized; and no downcast and no
    lookup of a route fails. *)
Theorem plugin_order_respected ns ds static reg evs s :
  runs ns ds static reg evs s →
  panicked (world s) = false ∧
  ∀ a o b, outs (world s) = a ++ o :: b →
    match o with
    | OInit p => ∀ d, declares ns reg p d → OInited d ∈ a
    | OGot p from => from = p ∨ OInited from ∈ a
    | OHandle _ p | OEvent p _ => ∃ names, OMounted names ∈ a ∧ p ∈ names ∧ ∀ n, n ∈ names → OInited n ∈ a
    | _ => True
    end.
Proof. intros Hr. destruct (host_runs_good _ _ _ _ _ _ Hr) as [(_ & _ & Hp & Ht & _) _ _]. split; [done|]. intros a o b He. exact (Ht a o b He). Qed.

(** Every request to a plugin host is settled once: the requests of a session that were
    refused with an error, those whose handler returned without one and those being
    handled are as many as those that came in. *)
Theorem plugin_requests_settled ns ds static reg evs s x :
  runs ns ds static reg evs s → x.2 ≠ 0 → settled x (outs (world s)) + handling x (tasks s) = asked x evs.
Proof. intros Hr Hx. apply (g_books _ _ _ _ (host_runs_good _ _ _ _ _ _ Hr) x Hx). Qed.

(** ** Examples *)

(** A store that offers itself and subscribes to an event, and a client that needs it, which
    takes a command and emits the event. *)
Definition x_store : PluginDescriptor :=
  mkDescriptor "demo" "store" [] []
    (mkPlugin [] (MProvide (mkAny 1 42) (λ _, MSubscribe 2 (λ _, Return None) MReturn)) (λ _, Await (λ _, Return None)) (λ c _ _, Return (Some (NotImplemented c)))) "store".

Definition x_client : PluginDescriptor :=
  mkDescriptor "demo" "client" ["store"%string] [9]
    (mkPlugin [] (MReturn None) (λ _, Require 1 (λ r, match r with inl _ => Return None | inr e => Return (Some e) end))
       (λ _ m v, if decide (v = 0) then Return (Some (Plugin.Failed "no")) else Emit (mkAny 2 v) (λ _, Reply m v (Return None)))) "client".

Definition x_registry : PluginRegistry := match from_auto [x_client; x_store] with inl r => r | inr _ => ∅ end.

Definition x_ask (sess v : Z) : Event := EMessage (mkMessage 7 sess MsgType.USER PNone) (BCommand 9 v).

Definition x_events : list Event :=
  [ EInit [mkSpec "client" ""; mkSpec "store" ""]; x_ask 1 5; EPoll 0 0; x_ask 2 5; x_ask 3 0; EPosted; EPoll 0 0 ].

Definition x_start : Sys := sys_new "demo" x_registry [].

Definition x_requests : list Out :=
  [ OMounted ["store"; "client"]; OInit "store"; OError (mkMessage 7 1 MsgType.USER PNone); OInited "store"; OInit "client"; OGot "client" "store";
    OInited "client"; OReady None; OHandle (mkMessage 7 2 MsgType.USER PNone) "client"; OReply (mkMessage 7 2 MsgType.USER PNone) 5;
    OHandled (mkMessage 7 2 MsgType.USER PNone); OHandle (mkMessage 7 3 MsgType.USER PNone) "client"; OError (mkMessage 7 3 MsgType.USER PNone);
    OEvent "store" (mkAny 2 5) ].

Lemma x_registry_made : from_auto [x_client; x_store] = inl x_registry.
Proof.
  unfold x_registry. assert (Hv : match from_auto [x_client; x_store] with inl _ => true | inr _ => false end = true) by (vm_compute; reflexivity).
  destruct (from_auto [x_client; x_store]); [reflexivity|discriminate].
Qed.

Lemma x_run : ∃ s, run x_events x_start = Some s ∧ outs (world s) = x_requests.
Proof. eexists. split; vm_compute; reflexivity. Qed.

Lemma x_runs s : run x_events x_start = Some s → runs "demo" [x_client; x_store] [] x_registry x_events s.
Proof. intros Hs. split; [exact x_registry_made|exact Hs]. Qed.

Lemma plugin_order_respected_witness :
  ∃ s, run x_events x_start = Some s ∧ panicked (world s) = false ∧ ∀ a b, outs (world s) = a ++ OGot "client" "store" :: b → OInited "store" ∈ a.
Proof.
  destruct x_run as (s & Hs & _). exists s. split; [exact Hs|].
  destruct (plugin_order_respected "demo" [x_client; x_store] [] x_registry x_events s (x_runs s Hs)) as [Hp Ho]. split; [exact Hp|].
  intros a b He. destruct (Ho a _ b He) as [Hx|Hx]; [discriminate|exact Hx].
Defined.

Lemma plugin_requests_settled_witness :
  ∃ s, run x_events x_start = Some s ∧ settled (7, 3) (outs (world s)) + handling (7, 3) (tasks s) = asked (7, 3) x_events.
Proof.
  destruct x_run as (s & Hs & _). exists s. split; [exact Hs|].
  exact (plugin_requests_settled "demo" [x_client; x_store] [] x_registry x_events s (7, 3) (x_runs s Hs) ltac:(discriminate)).
Defined.

Lemma plugin_link_order_witness : from_auto [x_client; x_store] = from_auto [x_store; x_client].
Proof. apply plugin_link_order. apply perm_swap. Defined.
End PluginRun.
