(* ===== verification/Logger.v ===== *)
(** * The logger

    [rskynet-logger/src/lib.rs]: the service that writes log lines to the standard output
    and to files, which it rotates by date and size, and that drops lines when its mailbox
    is too long.  Texts are lists of UTF-8 bytes; a path is its directory and its last
    component.  The file system has names and contents apart, as an open file outlives its
    name; each of its operations that can fail takes an answer from a script ([None] or an
    empty script is success, and a write that fails may have written a part).  Local time
    is an input: the date, and the text [%Y%m%d.%H%M%S]; a handler reads it once.  The text
    of a message is that of its payload, or what stands for an invalid one. *)
From S2P Require Import Prelude Message.
From Stdlib Require Import Ascii String.
From stdpp Require Import strings.
#[local] Open Scope Z_scope.

Module Logger.

Definition DEFAULT_MAX_QUEUE : Z := 10000.
Definition DEFAULT_MAX_FILE_SIZE : Z := 100 * 1024 * 1024.

(** A path; the last component is empty when there is none. *)
Definition Path : Type := list Z * list Z.

Definition text (s : string) : list Z := (λ c, Z.of_nat (nat_of_ascii c)) <$> String.list_ascii_of_string s.

(** ** Numbers *)

Definition digit (d : Z) : Z := if decide (d < 10) then d + 48 else d + 87.

(** The digits of [z], the most significant first; as many rounds as it has bits do. *)
Fixpoint digits (fuel : nat) (base z : Z) (acc : list Z) : list Z :=
  match fuel with
  | O => acc
  | S fuel => if decide (z / base = 0) then digit (z mod base) :: acc else digits fuel base (z / base) (digit (z mod base) :: acc)
  end.

Definition pad (c : Z) (width : nat) (l : list Z) : list Z := replicate (width - length l) c ++ l.

Definition numeral (base z : Z) : list Z := digits (S (Z.to_nat (Z.log2 z))) base z [].
Definition decimal (z : Z) : list Z := numeral 10 z.

(** ** Configuration *)

Record LoggerConfig : Type := mkConfig { cfg_path : option Path; cfg_rotate_daily : bool; cfg_max_file_size : Z; cfg_max_queue : Z }.

Definition config_default : LoggerConfig := mkConfig None true DEFAULT_MAX_FILE_SIZE DEFAULT_MAX_QUEUE.

Record RotationConfig : Type := mkRotation { rotate_daily : bool; max_file_size : Z }.

Definition rotation_default : RotationConfig := mkRotation true DEFAULT_MAX_FILE_SIZE.

(** ** Files *)

Record Now : Type := mkNow { date : Z; stamp : list Z }.

Record LogFile : Type := mkFile { file : Z; f_path : Path; f_date : Z; f_len : Z }.

Definition should_rotate (f : LogFile) (now next_line_len : Z) (c : RotationConfig) : bool :=
  rotate_daily c && negb (bool_decide (f_date f = now))
  || negb (bool_decide (max_file_size c = 0)) && negb (bool_decide (f_len f = 0)) && bool_decide (max_file_size c < saturating_add (f_len f) next_line_len).

(** What is before the last dot and what is after it. *)
Fixpoint split_dot (l : list Z) : option (list Z * list Z) :=
  match l with
  | [] => None
  | c :: l =>
      match split_dot l with
      | Some (b, a) => Some (c :: b, a)
      | None => if decide (c = 46) then Some ([], l) else None
      end
  end.

(** [Path::file_stem] and [Path::extension]. *)
Definition file_stem (name : list Z) : list Z := match split_dot name with Some ((_ :: _) as b, _) => b | _ => name end.
Definition extension (name : list Z) : option (list Z) := match split_dot name with Some (_ :: _, a) => Some a | _ => None end.

Definition log_path (path : Path) (ts : list Z) (sequence : Z) : Path :=
  let stem := file_stem path.2 in
  let archive := stem ++ [46] ++ ts ++ [46] ++ pad 48 3 (decimal sequence) in
  (path.1, match extension path.2 with Some (x :: e) => archive ++ [46] ++ x :: e | _ => archive end).

(** ** Back pressure *)

Record Backpressure : Type := mkBack { max_queue : Z; dropped : Z }.

Inductive LogDecision : Type := Drop | Write (dropped : Z).

Definition decide_log (queued : Z) (b : Backpressure) : Backpressure * LogDecision :=
  if decide (max_queue b ≠ 0 ∧ max_queue b ≤ queued) then (mkBack (max_queue b) (saturating_add (dropped b) 1), Drop)
  else (mkBack (max_queue b) 0, Write (dropped b)).

(** ** The world *)

Record Logger : Type := mkLogger { path : option Path; active : option LogFile; rotation : RotationConfig; backpressure : Backpressure }.

Definition logger_default : Logger := mkLogger None None rotation_default (mkBack DEFAULT_MAX_QUEUE 0).

(** A line: the elapsed time, the service it is about, and its text. *)
Inductive Said : Type := SText (t : list Z) | SDropped (n : Z) | SRotation (e : list Z) | SReopen (e : list Z).
Record Line : Type := mkLine { elapsed : Z; about : Handle; said : Said }.

Definition said_text (s : Said) : list Z :=
  match s with
  | SText t => t
  | SDropped n => text "日志队列积压，已丢弃 " ++ decimal n ++ text " 条较旧日志"
  | SRotation e => text "日志文件滚动失败：" ++ e
  | SReopen e => text "重开日志文件失败：" ++ e
  end.

(** [\[{:>6}.{:03}\] \[:{:08x}\] {}]. *)
Definition line_text (l : Line) : list Z :=
  text "[" ++ pad 32 6 (decimal (elapsed l / 1000)) ++ text "." ++ pad 48 3 (decimal (elapsed l mod 1000)) ++ text "] [:"
  ++ pad 48 8 (numeral 16 (about l)) ++ text "] " ++ said_text (said l).

Definition line_bytes (l : Line) : list Z := line_text l ++ [10].

(** [names] gives the file of a path, [data] the contents of files; [script] is what goes
    wrong; [stdout] has the date at which a line was printed; [opened] are the files used so
    far, newest last. *)
Record W : Type := mkW {
  logger : Logger;
  handle : Handle;
  names : gmap Path Z;
  data : gmap Z (list Z);
  script : list (option (nat * list Z));
  stdout : list (Z * Line);
  opened : list Z;
}.

Definition set_logger x (w : W) := mkW x (handle w) (names w) (data w) (script w) (stdout w) (opened w).
Definition set_script x (w : W) := mkW (logger w) (handle w) (names w) (data w) x (stdout w) (opened w).
Definition set_names x (w : W) := mkW (logger w) (handle w) x (data w) (script w) (stdout w) (opened w).
Definition set_data x (w : W) := mkW (logger w) (handle w) (names w) x (script w) (stdout w) (opened w).
Definition set_active x (w : W) := set_logger (mkLogger (path (logger w)) x (rotation (logger w)) (backpressure (logger w))) w.
Definition set_back x (w : W) := set_logger (mkLogger (path (logger w)) (active (logger w)) (rotation (logger w)) x) w.
Definition println (d : Z) (l : Line) (w : W) := mkW (logger w) (handle w) (names w) (data w) (script w) (stdout w ++ [(d, l)]) (opened w).
Definition now_open i (w : W) := mkW (logger w) (handle w) (names w) (data w) (script w) (stdout w) (if decide (i ∈ opened w) then opened w else opened w ++ [i]).

(** The answer of an operation: [Some] is how it failed. *)
Definition attempt (w : W) : option (nat * list Z) * W :=
  match script w with [] => (None, w) | x :: l => (x, set_script l w) end.

(** The loop of [next_log_path], with fuel; an error is its text. *)
Fixpoint next_loop (fuel : nat) (p : Path) (ts : list Z) (sequence : Z) (w : W) : option (W * (Path + list Z)) :=
  match fuel with
  | O => None
  | S fuel =>
      let candidate := log_path p ts sequence in
      match attempt w with
      | (Some (_, e), w) => Some (w, inr e)
      | (None, w) => match names w !! candidate with None => Some (w, inl candidate) | Some _ => next_loop fuel p ts (sequence + 1) w end
      end
  end.

Definition next_log_path (p : Path) (ts : list Z) (w : W) : option (W * (Path + list Z)) := next_loop (S (size (names w))) p ts 1 w.

(** A file that is not there is made, with contents of its own. *)
Definition open_file (p : Path) (w : W) : Z * W :=
  match names w !! p with
  | Some i => (i, w)
  | None => let i := fresh (dom (data w)) in (i, set_data (<[i := []]> (data w)) (set_names (<[p := i]> (names w)) w))
  end.

(** [LogFile::open]: make the directory, open, ask for the size. *)
Definition log_open (p : Path) (d : Z) (w : W) : W * (LogFile + list Z) :=
  let '(r, w) := if decide (p.1 = []) then (None, w) else attempt w in
  match r with
  | Some (_, e) => (w, inr e)
  | None =>
      match attempt w with
      | (Some (_, e), w) => (w, inr e)
      | (None, w) =>
          let '(i, w) := open_file p w in
          match attempt w with
          | (Some (_, e), w) => (w, inr e)
          | (None, w) => (w, inl (mkFile i p d (Z.of_nat (length (default [] (data w !! i))))))
          end
      end
  end.

(** The file is opened and becomes the active one. *)
Definition use_file (r : W * (LogFile + list Z)) : W * option (list Z) :=
  match r with
  | (w, inr e) => (w, Some e)
  | (w, inl f) => (now_open (file f) (set_active (Some f) w), None)
  end.

Definition open_new (p : Path) (now : Now) (w : W) : option (W * option (list Z)) :=
  '(w, r) ← next_log_path p (stamp now) w;
  Some (match r with inr e => (w, Some e) | inl p => use_file (log_open p (date now) w) end).

Definition reopen (base : Path) (now : Now) (w : W) : option (W * option (list Z)) :=
  match active (logger w) with
  | None => open_new base now w
  | Some f => Some (use_file (log_open (f_path f) (date now) w))
  end.

Definition rotate_if_needed (now : Now) (next_line_len : Z) (w : W) : option (W * option (list Z)) :=
  if is_some_and (λ f, should_rotate f (date now) next_line_len (rotation (logger w))) (active (logger w))
  then open_new (default ([], []) (path (logger w))) now w
  else Some (w, None).

(** [writeln!]; a write that fails leaves a part behind. *)
Definition write_unrotated (l : Line) (w : W) : W :=
  match active (logger w) with
  | None => w
  | Some f =>
      let old := default [] (data w !! file f) in
      match attempt w with
      | (None, w) =>
          set_active (Some (mkFile (file f) (f_path f) (f_date f) (saturating_add (f_len f) (Z.of_nat (length (line_bytes l))))))
            (set_data (<[file f := old ++ line_bytes l]> (data w)) w)
      | (Some (k, _), w) => set_data (<[file f := old ++ take k (line_bytes l)]> (data w)) w
      end
  end.

Definition write (ms : Z) (source : Handle) (s : Said) (now : Now) (w : W) : option W :=
  let l := mkLine ms source s in
  '(w, r) ← rotate_if_needed now (Z.of_nat (length (line_bytes l))) (println (date now) l w);
  let w := match r with
           | None => w
           | Some e => let l := mkLine ms (handle w) (SRotation e) in write_unrotated l (println (date now) l w)
           end in
  Some (write_unrotated l w).

(** ** The service *)

Definition init (c : LoggerConfig) (now : Now) (w : W) : option (W * option (list Z)) :=
  let w := set_logger (mkLogger (path (logger w)) (active (logger w)) (mkRotation (cfg_rotate_daily c) (cfg_max_file_size c))
                         (mkBack (cfg_max_queue c) (dropped (backpressure (logger w))))) w in
  match cfg_path c with
  | None => Some (w, None)
  | Some p =>
      '(w, r) ← open_new p now w;
      Some (match r with
            | Some e => (w, Some e)
            | None => (set_logger (mkLogger (Some p) (active (logger w)) (rotation (logger w)) (backpressure (logger w))) w, None)
            end)
  end.

(** A [TEXT] message: [queued] is the length of the mailbox without it. *)
Definition on_text (ms queued : Z) (source : Handle) (t : list Z) (now : Now) (w : W) : option W :=
  match decide_log queued (backpressure (logger w)) with
  | (b, Drop) => Some (set_back b w)
  | (b, Write n) =>
      let w := set_back b w in
      w ← (if decide (n = 0) then Some w else write ms (handle w) (SDropped n) now w);
      write ms source (SText t) now w
  end.

(** A [SYSTEM] message. *)
Definition on_system (ms : Z) (now : Now) (w : W) : option W :=
  match path (logger w) with
  | None => Some w
  | Some p =>
      '(w, r) ← reopen p now w;
      match r with None => Some w | Some e => write ms (handle w) (SReopen e) now w end
  end.

(** Other messages are ignored.  The file system answers as [EAnswers] says; somebody else
    renames or removes a file. *)
Inductive Event : Type :=
  | EText (ms queued : Z) (source : Handle) (t : list Z) (now : Now)
  | ESystem (ms : Z) (now : Now)
  | EOther
  | EAnswers (l : list (option (nat * list Z)))
  | ERename (p q : Path)
  | ERemove (p : Path).

Definition step (ev : Event) (w : W) : option W :=
  match ev with
  | EText ms queued source t now => on_text ms queued source t now w
  | ESystem ms now => on_system ms now w
  | EOther => Some w
  | EAnswers l => Some (set_script l w)
  | ERename p q => Some (match names w !! p with Some i => set_names (<[q := i]> (delete p (names w))) w | None => w end)
  | ERemove p => Some (set_names (delete p (names w)) w)
  end.

Fixpoint run (evs : list Event) (w : W) : option W :=
  match evs with
  | [] => Some w
  | ev :: evs => w ← step ev w; run evs w
  end.

Definition fs_new (h : Handle) (ns : gmap Path Z) (ds : gmap Z (list Z)) : W := mkW logger_default h ns ds [] [] [].

(** ** Names of files *)

Definition value (base : Z) (l : list Z) : Z := fold_left (λ a c, a * base + (if decide (c < 58) then c - 48 else c - 87)) l 0.

Lemma digit_value d : 0 ≤ d < 16 → (if decide (digit d < 58) then digit d - 48 else digit d - 87) = d.
Proof. intros Hd. unfold digit. repeat case_decide; lia. Qed.

Lemma value_from a base l acc : fold_left (λ a c, a * base + (if decide (c < 58) then c - 48 else c - 87)) (l ++ acc) a
  = fold_left (λ a c, a * base + (if decide (c < 58) then c - 48 else c - 87)) acc (fold_left (λ a c, a * base + (if decide (c < 58) then c - 48 else c - 87)) l a).
Proof. apply fold_left_app. Qed.

Lemma digits_app fuel base z acc : digits fuel base z acc = digits fuel base z [] ++ acc.
Proof.
  revert z acc. induction fuel as [|fuel IH]; intros z acc; cbn; [done|]. case_decide; [done|].
  rewrite IH, (IH _ [_]), <- app_assoc. done.
Qed.

Lemma digits_value fuel base z : 2 ≤ base ≤ 16 → 0 ≤ z < 2 ^ Z.of_nat fuel → value base (digits fuel base z []) = z.
Proof.
  intros Hb. revert z. induction fuel as [|fuel IH]; intros z Hz; cbn -[Z.pow].
  - change (2 ^ Z.of_nat 0) with 1 in Hz. unfold value. cbn. lia.
  - pose proof (Z.mod_pos_bound z base ltac:(lia)). pose proof (Z.div_mod z base ltac:(lia)) as Hdm. case_decide as Hq.
    + unfold value. cbn. rewrite digit_value by lia. lia.
    + rewrite digits_app. unfold value. rewrite fold_left_app. cbn. fold (value base (digits fuel base (z / base) [])).
      rewrite IH, digit_value; [lia|lia|]. rewrite Nat2Z.inj_succ, Z.pow_succ_r in Hz by lia. split; [apply Z.div_pos; lia|].
      apply Z.div_lt_upper_bound; [lia|]. nia.
Qed.

Lemma value_pad base width l : value base (pad 48 width l) = value base l.
Proof.
  unfold pad, value. rewrite fold_left_app. f_equal. induction (width - length l)%nat as [|n IH]; cbn; [done|]. exact IH.
Qed.

Lemma decimal_value z : 0 ≤ z → value 10 (decimal z) = z.
Proof.
  intros Hz. apply digits_value; [lia|]. split; [done|]. rewrite Nat2Z.inj_succ, Z2Nat.id by apply Z.log2_nonneg.
  destruct (decide (z = 0)) as [->|]; [done|]. apply Z.log2_spec. lia.
Qed.

Lemma log_path_inj p ts a b : 0 ≤ a → 0 ≤ b → log_path p ts a = log_path p ts b → a = b.
Proof.
  intros Ha Hb He. assert (Hp : pad 48 3 (decimal a) = pad 48 3 (decimal b)).
  { unfold log_path in He. injection He as He. destruct (extension p.2) as [[|x e]|]; by simplify_list_eq. }
  apply (f_equal (value 10)) in Hp. rewrite !value_pad, !decimal_value in Hp by done. done.
Qed.

Lemma attempt_same w r w' : attempt w = (r, w') → w' = set_script (script w') w.
Proof. unfold attempt. destruct w as [a b c d [|x l] e f]; cbn; by intros [= <- <-]. Qed.

Lemma next_loop_total (fuel : nat) (p : Path) (ts : list Z) (sequence : Z) (left : gset Path) (w : W) :
  0 ≤ sequence → (∀ k, sequence ≤ k → log_path p ts k ∈ dom (names w) → log_path p ts k ∈ left) → (size left < fuel)%nat →
  ∃ l r, next_loop fuel p ts sequence w = Some (set_script l w, r)
  ∧ match r with inl q => names w !! q = None | inr _ => script w ≠ [] end ∧ (script w = [] → l = []).
Proof.
  revert sequence left w. induction fuel as [|fuel IH]; intros sequence left w Hs Hl Hf; [lia|]. cbn.
  destruct (attempt w) as [[[k e]|] w1] eqn:Ha; pose proof (attempt_same _ _ _ Ha) as Hw1.
  { exists (script w1), (inr e). rewrite <- Hw1. split; [done|]. unfold attempt in Ha. destruct (script w); [done|]. by split. }
  assert (Hnames : names w1 = names w) by (rewrite Hw1; done). rewrite Hnames. destruct (names w !! log_path p ts sequence) eqn:Hn.
  - destruct (IH (sequence + 1) (left ∖ {[log_path p ts sequence]}) w1) as (l & r & -> & Hr & Hl2).
    + lia.
    + intros k Hk Hin. rewrite Hnames in Hin. apply elem_of_difference. split; [apply Hl; [lia|done]|]. intros He%elem_of_singleton. apply log_path_inj in He; lia.
    + assert (log_path p ts sequence ∈ left) as Hin by (apply Hl; [lia|]; by apply elem_of_dom).
      assert (size (left ∖ {[log_path p ts sequence]}) < size left)%nat; [|lia]. apply subset_size. set_solver.
    + exists l, r. assert (Hsc : script w = [] → script w1 = []) by (unfold attempt in Ha; intros Hn2; rewrite Hn2 in Ha; by injection Ha as <-).
      split_and!; [by rewrite Hw1| |by intros ?%Hsc%Hl2]. rewrite Hnames in Hr. destruct r; [done|]. auto.
  - exists (script w1), (inl (log_path p ts sequence)). split_and!; [by rewrite <- Hw1|done|]. unfold attempt in Ha. intros Hn2. rewrite Hn2 in Ha. by injection Ha as <-.
Qed.

Lemma next_log_path_total p ts w :
  ∃ l r, next_log_path p ts w = Some (set_script l w, r) ∧ match r with inl q => names w !! q = None | inr _ => script w ≠ [] end ∧ (script w = [] → l = []).
Proof. unfold next_log_path. apply (next_loop_total _ p ts 1 (dom (names w))); [lia|done|]. rewrite size_dom. lia. Qed.

(** ** What handlers do *)

(** Contents only grow. *)
Definition grown (d d' : gmap Z (list Z)) : Prop := ∀ i x, d !! i = Some x → ∃ y, d' !! i = Some (x ++ y).

Lemma grown_refl d : grown d d.
Proof. intros i x Hi. exists []. by rewrite app_nil_r. Qed.

Lemma grown_trans a b c : grown a b → grown b c → grown a c.
Proof. intros H1 H2 i x Hx. destruct (H1 i x Hx) as [y Hy]. destruct (H2 i _ Hy) as [z Hz]. exists (y ++ z). by rewrite app_assoc. Qed.

Lemma grown_append d i x : grown d (<[i := default [] (d !! i) ++ x]> d).
Proof.
  intros j y Hj. destruct (decide (i = j)) as [->|Hne].
  - rewrite lookup_insert_eq, Hj. eauto.
  - rewrite lookup_insert_ne by done. exists []. by rewrite app_nil_r.
Qed.

Lemma grown_new d x : grown d (<[fresh (dom d) := x]> d).
Proof.
  intros j y Hj. rewrite lookup_insert_ne; [exists []; by rewrite app_nil_r|]. intros <-. apply (is_fresh (dom d)), elem_of_dom. eauto.
Qed.

(** The lines [l] are printed, and nothing is lost. *)
Record did (l : list (Z * Line)) (w w' : W) : Prop := {
  d_out : stdout w' = stdout w ++ l;
  d_path : path (logger w') = path (logger w);
  d_rotation : rotation (logger w') = rotation (logger w);
  d_back : backpressure (logger w') = backpressure (logger w);
  d_handle : handle w' = handle w;
  d_data : grown (data w) (data w');
}.

Lemma did_nothing w : did [] w w.
Proof. split; try done; [by rewrite app_nil_r|apply grown_refl]. Qed.

Lemma did_then a b w1 w2 w3 : did a w1 w2 → did b w2 w3 → did (a ++ b) w1 w3.
Proof. intros [A1 A2 A3 A4 A5 A6] [B1 B2 B3 B4 B5 B6]. split; try congruence; [by rewrite B1, A1, app_assoc|by eapply grown_trans]. Qed.

Lemma attempt_did w r w' : attempt w = (r, w') → did [] w w'.
Proof. intros ->%attempt_same. split; try done; [by rewrite app_nil_r|apply grown_refl]. Qed.

Lemma open_file_did p w i w' : open_file p w = (i, w') → did [] w w'.
Proof.
  unfold open_file. destruct (names w !! p); intros [= <- <-]; [apply did_nothing|]. split; try done; [by rewrite app_nil_r|apply grown_new].
Qed.

Lemma log_open_did p d w w' r : log_open p d w = (w', r) → did [] w w'.
Proof.
  unfold log_open. destruct (if decide (p.1 = []) then (None, w) else attempt w) as [r0 w0] eqn:H0.
  assert (D0 : did [] w w0) by (case_decide; [injection H0 as _ <-; apply did_nothing|by eapply attempt_did]).
  destruct r0 as [[k e]|]; [by intros [= <- _]|]. destruct (attempt w0) as [r1 w1] eqn:H1. pose proof (attempt_did _ _ _ H1) as D1.
  destruct r1 as [[k e]|]; [intros [= <- _]; by apply (did_then [] [] w w0)|]. destruct (open_file p w1) as [i w2] eqn:H2. pose proof (open_file_did _ _ _ _ H2) as D2.
  destruct (attempt w2) as [r3 w3] eqn:H3. pose proof (attempt_did _ _ _ H3) as D3.
  assert (D : did [] w w3) by by apply (did_then [] [] w w0), (did_then [] [] w0 w1), (did_then [] [] w1 w2).
  destruct r3 as [[k e]|]; by intros [= <- _].
Qed.

Lemma use_file_did r w : did [] w r.1 → did [] w (use_file r).1.
Proof. destruct r as [w' [f|e]]; cbn; [|done]. intros [D1 D2 D3 D4 D5 D6]. by split. Qed.

Lemma open_new_did p now w : ∃ w' r, open_new p now w = Some (w', r) ∧ did [] w w'.
Proof.
  unfold open_new. destruct (next_log_path_total p (stamp now) w) as (l & r & -> & _). cbn.
  assert (D0 : did [] w (set_script l w)) by (split; try done; [by rewrite app_nil_r|apply grown_refl]).
  destruct r as [q|e]; [|eauto]. destruct (log_open q (date now) (set_script l w)) as [w' f] eqn:Hl. pose proof (log_open_did _ _ _ _ _ Hl) as D1.
  pose proof (use_file_did (w', f) w (did_then [] [] _ _ _ D0 D1)) as D2. destruct (use_file (w', f)) as [w2 r2]. eauto.
Qed.

Lemma rotate_did now n w : ∃ w' r, rotate_if_needed now n w = Some (w', r) ∧ did [] w w'.
Proof. unfold rotate_if_needed. destruct (is_some_and _ _); [apply open_new_did|]. eexists _, _. split; [done|apply did_nothing]. Qed.

Lemma reopen_did p now w : ∃ w' r, reopen p now w = Some (w', r) ∧ did [] w w'.
Proof.
  unfold reopen. destruct (active (logger w)) as [f|]; [|apply open_new_did]. destruct (log_open (f_path f) (date now) w) as [w' r] eqn:Hl.
  pose proof (use_file_did (w', r) w (log_open_did _ _ _ _ _ Hl)) as D. destruct (use_file (w', r)). eauto.
Qed.

Lemma write_unrotated_did l w : did [] w (write_unrotated l w).
Proof.
  unfold write_unrotated. destruct (active (logger w)) as [f|]; [|apply did_nothing]. destruct (attempt w) as [r w1] eqn:Ha.
  apply attempt_same in Ha. destruct r as [[k e]|]; rewrite Ha; (split; try done; [by rewrite app_nil_r|cbn; apply grown_append]).
Qed.

Lemma println_did d l w : did [(d, l)] w (println d l w).
Proof. split; try done. apply grown_refl. Qed.

(** [write] prints its line, and another when the rotation fails. *)
Lemma write_did ms source s now w :
  ∃ w' l, write ms source s now w = Some w' ∧ did ((date now, mkLine ms source s) :: l) w w' ∧ (l = [] ∨ ∃ e, l = [(date now, mkLine ms (handle w) (SRotation e))]).
Proof.
  unfold write. destruct (rotate_did now (Z.of_nat (length (line_bytes (mkLine ms source s)))) (println (date now) (mkLine ms source s) w)) as (w1 & r & -> & D1).
  cbn. pose proof (did_then _ _ _ _ _ (println_did (date now) (mkLine ms source s) w) D1) as D. cbn in D. destruct r as [e|].
  - eexists _, [(date now, mkLine ms (handle w) (SRotation e))]. split; [done|]. split; [|eauto]. rewrite <- (d_handle _ _ _ D).
    eapply (did_then ([_] ++ [_]) [] w); [|apply write_unrotated_did]. eapply did_then; [exact D|]. eapply (did_then [_] []); [apply println_did|apply write_unrotated_did].
  - eexists _, []. split; [done|]. split; [|by left]. eapply (did_then [_] []); [exact D|apply write_unrotated_did].
Qed.

(** ** Every text is printed or counted *)

(** What a line stands for: a text, or texts that were dropped. *)
Definition stands_for (l : Line) : list (option (list Z)) :=
  match said l with SText t => [Some t] | SDropped n => replicate (Z.to_nat n) None | _ => [] end.

Definition expand (l : list (Z * Line)) : list (option (list Z)) := l.*2 ≫= stands_for.

(** The texts that came in, [None] for one that the length of the mailbox condemns. *)
Definition arrived (limit : Z) (evs : list Event) : list (option (list Z)) :=
  evs ≫= λ ev, match ev with
               | EText _ queued _ t _ => [if decide (limit ≠ 0 ∧ limit ≤ queued) then None else Some t]
               | _ => []
               end.

Definition accounts (w : W) : list (option (list Z)) := expand (stdout w) ++ replicate (Z.to_nat (dropped (backpressure (logger w)))) None.

Lemma expand_app a b : expand (a ++ b) = expand a ++ expand b.
Proof. unfold expand. by rewrite fmap_app, bind_app. Qed.

Lemma write_expands ms source s now w : ∃ w', write ms source s now w = Some w' ∧ expand (stdout w') = expand (stdout w) ++ stands_for (mkLine ms source s)
  ∧ backpressure (logger w') = backpressure (logger w) ∧ grown (data w) (data w').
Proof.
  destruct (write_did ms source s now w) as (w' & l & Hw & [D1 D2 D3 D4 D5 D6] & Hl). exists w'. split_and!; [done| |done|done].
  rewrite D1, expand_app. f_equal. unfold expand. destruct Hl as [->|[e ->]]; cbn; by rewrite ?app_nil_r.
Qed.

Lemma on_text_accounts ms queued source t now w :
  0 ≤ dropped (backpressure (logger w)) < U64_MAX →
  ∃ w', on_text ms queued source t now w = Some w' ∧ accounts w' = accounts w ++ arrived (max_queue (backpressure (logger w))) [EText ms queued source t now]
  ∧ grown (data w) (data w') ∧ max_queue (backpressure (logger w')) = max_queue (backpressure (logger w))
  ∧ 0 ≤ dropped (backpressure (logger w')) ≤ dropped (backpressure (logger w)) + 1.
Proof.
  intros Hd. unfold on_text, decide_log, arrived, accounts. set (b := backpressure (logger w)) in *. cbn [mbind list_bind]. rewrite app_nil_r. case_decide as Hq.
  - eexists. split; [done|]. cbn. assert (Hsat : saturating_add (dropped b) 1 = dropped b + 1) by (unfold saturating_add; lia). rewrite Hsat.
    split_and!; [|apply grown_refl|done|lia..]. rewrite Z2Nat.inj_add, Nat.add_comm by lia. rewrite <- app_assoc. f_equal.
    rewrite Nat.add_comm, replicate_add. done.
  - set (w1 := set_back _ w). assert (H1 : ∃ w2, (if decide (dropped b = 0) then Some w1 else write ms (handle w1) (SDropped (dropped b)) now w1) = Some w2
      ∧ expand (stdout w2) = expand (stdout w) ++ replicate (Z.to_nat (dropped b)) None ∧ backpressure (logger w2) = mkBack (max_queue b) 0 ∧ grown (data w) (data w2)).
    { case_decide as Hz; [exists w1; rewrite Hz; split_and!; [done|by rewrite app_nil_r|done|apply grown_refl]|].
      destruct (write_expands ms (handle w1) (SDropped (dropped b)) now w1) as (w2 & -> & E2 & B2 & G2). by exists w2. }
    destruct H1 as (w2 & -> & E2 & B2 & G2). cbn. destruct (write_expands ms source (SText t) now w2) as (w3 & -> & E3 & B3 & G3).
    eexists. split; [done|]. rewrite E3, E2, B3, B2. cbn. split_and!; [by rewrite ?app_nil_r, <- app_assoc|by eapply grown_trans|done|lia..].
Qed.

Lemma step_accounts ev w :
  0 ≤ dropped (backpressure (logger w)) < U64_MAX →
  ∃ w', step ev w = Some w' ∧ accounts w' = accounts w ++ arrived (max_queue (backpressure (logger w))) [ev]
  ∧ grown (data w) (data w') ∧ max_queue (backpressure (logger w')) = max_queue (backpressure (logger w))
  ∧ 0 ≤ dropped (backpressure (logger w')) ≤ dropped (backpressure (logger w)) + 1.
Proof.
  intros Hd. assert (Hsame : ∀ w', stdout w' = stdout w → backpressure (logger w') = backpressure (logger w) → grown (data w) (data w') →
    accounts w' = accounts w ++ [] ∧ grown (data w) (data w') ∧ max_queue (backpressure (logger w')) = max_queue (backpressure (logger w))
    ∧ 0 ≤ dropped (backpressure (logger w')) ≤ dropped (backpressure (logger w)) + 1).
  { intros w' Ho Hb Hg. unfold accounts. rewrite Ho, Hb, app_nil_r. split_and!; [done|done|done|lia..]. }
  destruct ev as [ms queued source t now|ms now| |l|p q|p]; cbn [step]; [by apply on_text_accounts| |eexists; split; [done|]; by apply Hsame, grown_refl..| |eexists; split; [done|]; by apply Hsame, grown_refl].
  - unfold on_system. destruct (path (logger w)) as [p|]; [|eexists; split; [done|]; by apply Hsame, grown_refl].
    destruct (reopen_did p now w) as (w1 & r & -> & [D1 D2 D3 D4 D5 D6]). cbn. rewrite app_nil_r in D1. destruct r as [e|]; [|eexists; split; [done|]; by apply Hsame].
    destruct (write_expands ms (handle w1) (SReopen e) now w1) as (w2 & -> & E2 & B2 & G2). eexists. split; [done|].
    unfold accounts. rewrite E2, B2, D1, D4. cbn. rewrite !app_nil_r. split_and!; [done|by eapply grown_trans|done|lia..].
  - eexists. split; [done|]. destruct (names w !! p); by apply Hsame, grown_refl.
Qed.

(** C33 The logger prints or counts every text, and destroys nothing.  Whatever the file system
    answers and others do to the names of its files, its handlers end, in particular the
    search for a free file name; the lines it prints, with every notice of dropped texts
    read as so many dropped texts, and the texts it has dropped since the last notice are
    exactly the texts that came in, in their order, each printed unless the mailbox was
    too long when its turn came; and the contents of files only grow at their ends. *)
Theorem logger_texts_accounted evs w :
  0 ≤ dropped (backpressure (logger w)) → dropped (backpressure (logger w)) + Z.of_nat (length evs) ≤ U64_MAX →
  ∃ w', run evs w = Some w' ∧ accounts w' = accounts w ++ arrived (max_queue (backpressure (logger w))) evs ∧ grown (data w) (data w').
Proof.
  revert w. induction evs as [|ev evs IH]; intros w Hd Hn.
  - exists w. split_and!; [done|by rewrite app_nil_r|apply grown_refl].
  - cbn [length] in Hn. destruct (step_accounts ev w) as (w1 & Hs & Ha & Hg & Hm & Hd1); [lia|]. cbn [run]. rewrite Hs. cbn.
    destruct (IH w1) as (w2 & Hr & Ha2 & Hg2); [lia|lia|]. exists w2. split_and!; [done| |by eapply grown_trans].
    rewrite Ha2, Ha, Hm, <- app_assoc. f_equal. unfold arrived. cbn. by rewrite app_nil_r.
Qed.

(** ** What is in the files *)

Abbreviation Segment := (list (Z * Line)) (only parsing).

Definition seg_bytes (seg : Segment) : list Z := seg.*2 ≫= line_bytes.

Definition sized (limit : Z) (seg : Segment) : Prop := limit = 0 ∨ Z.of_nat (length (seg_bytes seg)) ≤ limit ∨ (length seg ≤ 1)%nat.
Definition dated (seg : Segment) : Prop := ∃ d, ∀ x, x ∈ seg → x.1 = d.
Definition contents (w : W) (i : Z) (seg : Segment) : Prop := data w !! i = Some (seg_bytes seg).

Lemma seg_bytes_snoc seg d l : seg_bytes (seg ++ [(d, l)]) = seg_bytes seg ++ line_bytes l.
Proof. unfold seg_bytes. rewrite fmap_app, bind_app. cbn. by rewrite app_nil_r. Qed.

Lemma seg_bytes_nil seg : seg_bytes seg = [] → seg = [].
Proof. destruct seg as [|[d l] seg]; [done|]. unfold seg_bytes. rewrite fmap_cons, bind_cons. intros [He _]%app_eq_nil. unfold line_bytes in He. by destruct (line_text _). Qed.

(** The lines printed are in the files, those of the last of them in the active one; [plain]
    is a run in which the file was not reopened. *)
Record holds (plain : bool) (w : W) (segs : list Segment) (seg : Segment) (f : LogFile) : Prop := {
  h_script : script w = [];
  h_path : is_Some (path (logger w));
  h_active : active (logger w) = Some f;
  h_opened : ∃ olds, opened w = olds ++ [file f] ∧ Forall2 (contents w) olds segs;
  h_current : contents w (file f) seg;
  h_once : NoDup (opened w);
  h_name : names w !! f_path f = Some (file f);
  h_len : Z.min U64_MAX (f_len f) = Z.min U64_MAX (Z.of_nat (length (seg_bytes seg)));
  h_out : concat segs ++ seg = stdout w;
  h_sized : Forall (sized (max_file_size (rotation (logger w)))) (segs ++ [seg]);
  h_dated : plain = true → rotate_daily (rotation (logger w)) = true → Forall dated segs ∧ ∀ x, x ∈ seg → x.1 = f_date f;
}.

Lemma attempt_calm w : script w = [] → attempt w = (None, w).
Proof. unfold attempt. by intros ->. Qed.

Lemma log_open_calm p d w : script w = [] →
  log_open p d w = ((open_file p w).2, inl (mkFile (open_file p w).1 p d (Z.of_nat (length (default [] (data (open_file p w).2 !! (open_file p w).1)))))).
Proof.
  intros Hs. unfold log_open.
  replace (if decide (p.1 = []) then (None, w) else attempt w) with (@None (nat * list Z), w) by (case_decide; [done|by rewrite attempt_calm]).
  cbv iota beta zeta. rewrite (attempt_calm w Hs). destruct (open_file p w) as [i w1] eqn:Ho. cbn [fst snd]. rewrite (attempt_calm w1); [done|]. unfold open_file in Ho. by destruct (names w !! p); injection Ho as _ <-.
Qed.

Lemma log_open_again p d w i x : script w = [] → names w !! p = Some i → data w !! i = Some x → log_open p d w = (w, inl (mkFile i p d (Z.of_nat (length x)))).
Proof. intros Hs Hn Hx. rewrite log_open_calm by done. unfold open_file. rewrite Hn. cbn. by rewrite Hx. Qed.

Lemma open_new_calm p now w : script w = [] →
  let i := fresh (dom (data w)) in
  ∃ q, open_new p now w = Some (now_open i (set_active (Some (mkFile i q (date now) 0)) (set_data (<[i := []]> (data w)) (set_names (<[q := i]> (names w)) w))), None).
Proof.
  intros Hs i. unfold open_new. destruct (next_log_path_total p (stamp now) w) as (l & r & -> & Hr & Hl). rewrite (Hl Hs). cbn [mbind option_bind].
  destruct r as [q|e]; [|done]. exists q. change (set_script [] w) with (mkW (logger w) (handle w) (names w) (data w) [] (stdout w) (opened w)).
  rewrite <- Hs. replace (mkW _ _ _ _ _ _ _) with w by by destruct w. rewrite log_open_calm by done. unfold open_file. rewrite Hr. cbn -[fresh]. rewrite lookup_insert_eq. done.
Qed.

(** The state of a logger between a line being printed and being written. *)
Lemma write_unrotated_calm l w f : script w = [] → active (logger w) = Some f →
  write_unrotated l w =
    set_active (Some (mkFile (file f) (f_path f) (f_date f) (saturating_add (f_len f) (Z.of_nat (length (line_bytes l))))))
      (set_data (<[file f := default [] (data w !! file f) ++ line_bytes l]> (data w)) w).
Proof. intros Hs Ha. unfold write_unrotated. by rewrite Ha, attempt_calm. Qed.

Lemma contents_known plain w segs seg f i : holds plain w segs seg f → i ∈ opened w → i ∈ dom (data w).
Proof.
  intros H Hi. destruct (h_opened _ _ _ _ _ H) as (olds & Ho & Hc). rewrite Ho in Hi. apply elem_of_dom. apply elem_of_app in Hi as [Hi| ->%list_elem_of_singleton].
  - apply list_elem_of_lookup_1 in Hi as [k Hk]. destruct (Forall2_lookup_l _ _ _ _ _ Hc Hk) as (s & _ & Hs). by rewrite Hs.
  - by rewrite (h_current _ _ _ _ _ H).
Qed.

Lemma Forall2_in {A B} (P Q : A → B → Prop) l k : Forall2 P l k → (∀ x y, x ∈ l → P x y → Q x y) → Forall2 Q l k.
Proof.
  induction 1 as [|x y l k Hxy Hlk IH]; intros HQ; constructor; [by apply HQ; [apply list_elem_of_here|]|].
  apply IH. intros x' y' Hx. by apply HQ, list_elem_of_further.
Qed.

Lemma stays_sized plain w segs seg f now l :
  holds plain w segs seg f → max_file_size (rotation (logger w)) < U64_MAX →
  should_rotate f (date now) (Z.of_nat (length (line_bytes l))) (rotation (logger w)) = false →
  sized (max_file_size (rotation (logger w))) (seg ++ [(date now, l)]) ∧ (rotate_daily (rotation (logger w)) = true → f_date f = date now).
Proof.
  intros H Hm. unfold should_rotate. rewrite orb_false_iff, !andb_false_iff, !negb_false_iff, bool_decide_eq_false, !bool_decide_eq_true. intros [Hd Hs]. split.
  - unfold sized. rewrite seg_bytes_snoc, length_app, Nat2Z.inj_add, length_app. pose proof (h_len _ _ _ _ _ H) as Hlen. unfold saturating_add in Hs.
    destruct Hs as [[?|Hz]|Hz]; [by left| |right; left; unfold U64_MAX in *; lia].
    right. right. assert (seg = []) as ->; [|done]. apply seg_bytes_nil, nil_length_inv. unfold U64_MAX in *. lia.
  - intros Hdaily. destruct Hd as [Hd|Hd]; [congruence|done].
Qed.

Lemma write_same_file plain w segs seg f now l :
  holds plain w segs seg f → max_file_size (rotation (logger w)) < U64_MAX →
  should_rotate f (date now) (Z.of_nat (length (line_bytes l))) (rotation (logger w)) = false →
  ∃ f', holds plain (write_unrotated l (println (date now) l w)) segs (seg ++ [(date now, l)]) f'.
Proof.
  intros H Hm Hr. destruct (stays_sized _ _ _ _ _ _ _ H Hm Hr) as [Hsz Hdt]. destruct H as [H1 H2 H3 (olds & Ho & Hc) H5 H6 H7 H8 H9 H10 H11].
  rewrite (write_unrotated_calm l _ f) by done. unfold contents in H5. cbn [println data]. rewrite H5. cbn [default from_option id].
  eexists. split; cbn -[line_bytes seg_bytes saturating_add]; [done|done|done| | |done|done| | | |].
  - exists olds. split; [done|]. rewrite Ho in H6. apply NoDup_app in H6 as (_ & Hn & _). apply (Forall2_in _ _ _ _ Hc).
    intros i s Hi Hs. unfold contents. cbn. rewrite lookup_insert_ne; [done|]. intros <-. apply (Hn _ Hi). by apply list_elem_of_singleton.
  - unfold contents. cbn. rewrite lookup_insert_eq, seg_bytes_snoc. done.
  - cbn [f_len]. rewrite seg_bytes_snoc, length_app, Nat2Z.inj_add. unfold saturating_add, U64_MAX in *. lia.
  - rewrite app_assoc, H9. done.
  - apply Forall_app in H10 as [? _]. apply Forall_app. split; [done|]. by apply Forall_singleton.
  - intros Hp Hd. destruct (H11 Hp Hd) as [? Hx]. split; [done|]. intros x [?| ->%list_elem_of_singleton]%elem_of_app; [by apply Hx|]. symmetry. by apply Hdt.
Qed.

Lemma write_new_file plain w segs seg f now l p :
  holds plain w segs seg f →
  ∃ w1 f', open_new p now (println (date now) l w) = Some (w1, None) ∧ rotation (logger w1) = rotation (logger w)
  ∧ holds plain (write_unrotated l w1) (segs ++ [seg]) [(date now, l)] f'.
Proof.
  intros H. destruct (open_new_calm p now (println (date now) l w)) as (q & ->); [apply H|]. cbn [println data].
  set (i := fresh (dom (data w))). assert (Hi : i ∉ dom (data w)) by apply is_fresh.
  assert (Hio : i ∉ opened w) by (intros Hin; by apply Hi, (contents_known _ _ _ _ _ _ H)).
  destruct H as [H1 H2 H3 (olds & Ho & Hc) H5 H6 H7 H8 H9 H10 H11].
  set (f1 := mkFile i q (date now) 0). eexists _, _. split; [done|]. split; [done|].
  rewrite (write_unrotated_calm l _ f1) by done. cbn -[line_bytes seg_bytes saturating_add i]. rewrite lookup_insert_eq. cbn [default from_option id app].
  assert (Hkeep : ∀ j s x, j ∈ opened w → data w !! j = Some (seg_bytes s) → (<[i := x]> (<[i := []]> (data w))) !! j = Some (seg_bytes s)).
  { intros j s x Hj Hs. rewrite !lookup_insert_ne; [done|by intros <-|by intros <-]. }
  split; cbn -[line_bytes seg_bytes saturating_add i]; [done|done|done| | | | | | | |].
  - exists (opened w). rewrite decide_False by done. split; [done|]. rewrite Ho. apply Forall2_app.
    + apply (Forall2_in _ _ _ _ Hc). intros j s Hj Hs. apply Hkeep; [|done]. rewrite Ho. apply elem_of_app. by left.
    + constructor; [|constructor]. apply Hkeep; [|done]. rewrite Ho. apply elem_of_app. right. by apply list_elem_of_singleton.
  - unfold contents. cbn -[line_bytes seg_bytes i]. rewrite lookup_insert_eq. unfold seg_bytes. cbn -[line_bytes]. by rewrite app_nil_r.
  - rewrite decide_False by done. apply NoDup_app. split_and!; [done| |apply NoDup_singleton]. intros x Hx ->%list_elem_of_singleton. done.
  - by rewrite lookup_insert_eq.
  - unfold seg_bytes. cbn -[line_bytes saturating_add]. rewrite app_nil_r. unfold saturating_add, U64_MAX. lia.
  - rewrite <- H9, concat_app. cbn. by rewrite app_nil_r.
  - apply Forall_app. split; [done|]. apply Forall_singleton. right. right. done.
  - intros Hp Hd. destruct (H11 Hp Hd) as [? Hx]. split; [|by intros x ->%list_elem_of_singleton]. apply Forall_app. split; [done|]. apply Forall_singleton. by exists (f_date f).
Qed.

Lemma write_holds plain w segs seg f ms source s now :
  holds plain w segs seg f → max_file_size (rotation (logger w)) < U64_MAX →
  ∃ w' segs' seg' f', write ms source s now w = Some w' ∧ holds plain w' segs' seg' f' ∧ rotation (logger w') = rotation (logger w).
Proof.
  intros H Hm. set (l := mkLine ms source s). destruct (write_did ms source s now w) as (w' & ls & Hw & D & _). exists w'.
  assert (∃ segs' seg' f', holds plain w' segs' seg' f') as (segs' & seg' & f' & Hh); [|exists segs', seg', f'; split_and!; [done|done|apply D]].
  unfold write in Hw. fold l in Hw. unfold rotate_if_needed in Hw. cbn [println logger] in Hw. rewrite (h_active _ _ _ _ _ H) in Hw. cbn [is_some_and] in Hw.
  destruct (should_rotate f (date now) _ _) eqn:Hr.
  - destruct (write_new_file _ _ _ _ _ now l (default ([], []) (path (logger w))) H) as (w1 & f' & Ho & _ & Hh). rewrite Ho in Hw. injection Hw as <-. eauto.
  - injection Hw as <-. destruct (write_same_file _ _ _ _ _ _ _ H Hm Hr) as [f' Hh]. eauto.
Qed.

(** ** Runs in which the file system does not fail *)

(** Nothing fails and nobody else touches the files. *)
Definition calm (ev : Event) : bool := match ev with EText _ _ _ _ _ | ESystem _ _ | EOther => true | _ => false end.
Definition reopens (ev : Event) : bool := match ev with ESystem _ _ => true | _ => false end.

Lemma set_back_holds plain b w segs seg f : holds plain w segs seg f → holds plain (set_back b w) segs seg f.
Proof. by intros [H1 H2 H3 H4 H5 H6 H7 H8 H9 H10 H11]. Qed.

Lemma step_holds plain ev w segs seg f :
  holds plain w segs seg f → max_file_size (rotation (logger w)) < U64_MAX → calm ev = true → (plain = true → reopens ev = false) →
  ∃ w' segs' seg' f', step ev w = Some w' ∧ holds plain w' segs' seg' f' ∧ rotation (logger w') = rotation (logger w).
Proof.
  intros H Hm Hc Hp. destruct ev as [ms queued source t now|ms now| | | |]; try done; cbn [step]; [| |eauto 10].
  - unfold on_text. destruct (decide_log queued _) as [b [|n]]; [eexists _, segs, seg, f; split_and!; [done|by apply set_back_holds|done]|].
    apply (set_back_holds plain b) in H. assert (∃ w2 segs2 seg2 f2, (if decide (n = 0) then Some (set_back b w) else write ms (handle (set_back b w)) (SDropped n) now (set_back b w)) = Some w2
      ∧ holds plain w2 segs2 seg2 f2 ∧ rotation (logger w2) = rotation (logger w)) as (w2 & segs2 & seg2 & f2 & -> & H2 & R2).
    { case_decide; [eauto 10|]. by apply (write_holds plain (set_back b w) segs seg f). }
    cbn [mbind option_bind]. rewrite <- R2. rewrite <- R2 in Hm. by eapply write_holds.
  - unfold on_system. destruct (path (logger w)); [|eauto 10]. unfold reopen. rewrite (h_active _ _ _ _ _ H).
    rewrite (log_open_again _ _ _ _ _ (h_script _ _ _ _ _ H) (h_name _ _ _ _ _ H) (h_current _ _ _ _ _ H)). cbn [use_file mbind option_bind].
    destruct H as [H1 H2 H3 (olds & Ho & Hcn) H5 H6 H7 H8 H9 H10 H11]. destruct plain; [by specialize (Hp eq_refl)|].
    eexists _, segs, seg, _. split_and!; [done| |done]. assert (file f ∈ opened w) as Hin by (rewrite Ho; apply elem_of_app; right; by apply list_elem_of_singleton).
    split; cbn; rewrite ?(decide_True _ _ Hin); try done. eauto.
Qed.

Lemma run_holds plain evs w segs seg f :
  holds plain w segs seg f → max_file_size (rotation (logger w)) < U64_MAX → forallb calm evs = true → (plain = true → forallb (λ ev, negb (reopens ev)) evs = true) →
  ∃ w' segs' seg' f', run evs w = Some w' ∧ holds plain w' segs' seg' f' ∧ rotation (logger w') = rotation (logger w).
Proof.
  revert w segs seg f. induction evs as [|ev evs IH]; intros w segs seg f H Hm Hc Hp; cbn; [eauto 10|].
  cbn in Hc, Hp. apply andb_true_iff in Hc as [Hc1 Hc2].
  destruct (step_holds plain ev w segs seg f H Hm Hc1) as (w1 & segs1 & seg1 & f1 & -> & H1 & R1).
  { intros Hpl. specialize (Hp Hpl). apply andb_true_iff in Hp as [Hp _]. by apply negb_true_iff. }
  cbn. rewrite <- R1. rewrite <- R1 in Hm. eapply IH; [done|done|done|]. intros Hpl. specialize (Hp Hpl). by apply andb_true_iff in Hp as [_ Hp].
Qed.

Lemma init_holds plain c p h ns ds now :
  cfg_path c = Some p →
  ∃ w f, init c now (fs_new h ns ds) = Some (w, None) ∧ holds plain w [] [] f ∧ rotation (logger w) = mkRotation (cfg_rotate_daily c) (cfg_max_file_size c).
Proof.
  intros Hp. unfold init. rewrite Hp. set (w1 := set_logger _ _). destruct (open_new_calm p now w1 eq_refl) as (q & ->). cbn [mbind option_bind].
  eexists _, _. split; [done|]. split; [|done]. split; cbn -[fresh]; try done.
  - exists []. split; [done|constructor].
  - unfold contents. cbn -[fresh]. by rewrite lookup_insert_eq.
  - apply NoDup_singleton.
  - by rewrite lookup_insert_eq.
  - apply Forall_singleton. right. right. cbn. lia.
  - intros _ _. split; [constructor|]. by intros x ?%not_elem_of_nil.
Qed.

(** C34 The files of the logger hold what it prints.  With a path configured and a
    [max_file_size] below the largest [u64], while the file system does not fail and nobody
    else touches the files, whatever the log lines and requests to reopen: the files
    used so far are new and all different, and their contents, one file after the other in
    the order they were opened, are exactly the lines printed, none lost, doubled or torn;
    a file is within [max_file_size] unless it has a single line; and with [rotate_daily],
    if no request to reopen came, all lines of a file are of one date. *)
Theorem logger_files_hold_output c p h ns ds now evs :
  cfg_path c = Some p → cfg_max_file_size c < U64_MAX → forallb calm evs = true →
  ∃ w0 w segs, init c now (fs_new h ns ds) = Some (w0, None) ∧ run evs w0 = Some w ∧ concat segs = stdout w ∧ NoDup (opened w)
  ∧ Forall2 (contents w) (opened w) segs ∧ Forall (sized (cfg_max_file_size c)) segs
  ∧ (forallb (λ ev, negb (reopens ev)) evs = true → cfg_rotate_daily c = true → Forall dated segs).
Proof.
  intros Hp Hm Hc. set (plain := forallb (λ ev, negb (reopens ev)) evs).
  destruct (init_holds plain c p h ns ds now Hp) as (w0 & f0 & -> & H0 & R0). exists w0.
  destruct (run_holds plain evs w0 [] [] f0 H0) as (w & segs & seg & f & Hr & H & R); [by rewrite R0|done|done|].
  rewrite R0 in R. exists w, (segs ++ [seg]). destruct H as [H1 H2 H3 (olds & Ho & Hcn) H5 H6 H7 H8 H9 H10 H11]. rewrite R in H10, H11. cbn in H10, H11. split_and!; try done.
  - rewrite concat_app. cbn. by rewrite app_nil_r.
  - rewrite Ho. apply Forall2_app; [done|]. by constructor; [|constructor].
  - intros Hpl Hd. destruct (H11 Hpl Hd) as [? Hx]. apply Forall_app. split; [done|]. apply Forall_singleton. by exists (f_date f).
Qed.

(** ** Examples *)

Definition x_base : Path := (text "run", text "rskynet.log").
Definition x_config : LoggerConfig := mkConfig (Some x_base) true 60 2.
Definition x_now (d : Z) : Now := mkNow d (text "20260822.153045").

(** Three texts of which the second is dropped and the last does not fit into the file. *)
Definition x_texts : list Event :=
  [ EText 1500 0 10 (text "first") (x_now 1); EText 1600 2 10 (text "second") (x_now 1); EText 1700 1 10 (text "third") (x_now 1) ].

Definition x_started : W := match init x_config (x_now 1) (fs_new 3 ∅ ∅) with Some (w, _) => w | None => fs_new 3 ∅ ∅ end.

Lemma logger_texts_accounted_witness :
  ∃ w, run x_texts x_started = Some w ∧ accounts w = accounts x_started ++ [Some (text "first"); None; Some (text "third")].
Proof.
  destruct (logger_texts_accounted x_texts x_started) as (w & Hr & Ha & _); [vm_compute; discriminate|vm_compute; discriminate|].
  exists w. split; [exact Hr|exact Ha].
Defined.

Lemma logger_files_hold_output_witness :
  ∃ w0 w segs, init x_config (x_now 1) (fs_new 3 ∅ ∅) = Some (w0, None) ∧ run x_texts w0 = Some w ∧ concat segs = stdout w ∧ Forall dated segs.
Proof.
  destruct (logger_files_hold_output x_config x_base 3 ∅ ∅ (x_now 1) x_texts) as (w0 & w & segs & H1 & H2 & H3 & _ & _ & _ & H7); [reflexivity|vm_compute; reflexivity|vm_compute; reflexivity|].
  exists w0, w, segs. split; [exact H1|]. split; [exact H2|]. split; [exact H3|]. apply H7; [vm_compute; reflexivity|reflexivity].
Defined.

(** A text on the first day, and on the second a request to reopen before the next text. *)
Definition x_reopened : list Event := [ EText 1500 0 10 (text "a") (x_now 1); ESystem 1550 (x_now 2); EText 1600 0 10 (text "b") (x_now 2) ].

(** A request to reopen keeps the daily rotation from happening: the file that is opened
    again gets the date of that day, and the lines of two days are in one file. *)
Theorem reopen_skips_rotation :
  ∃ w, run x_reopened x_started = Some w ∧ cfg_rotate_daily x_config = true ∧ (stdout w).*1 = [1; 2] ∧ length (opened w) = 1%nat.
Proof.
  assert (Hv : ∃ w, run x_reopened x_started = Some w ∧ bool_decide ((stdout w).*1 = [1; 2] ∧ length (opened w) = 1%nat) = true) by (apply some_view; vm_compute; reflexivity).
  destruct Hv as (w & Hr & Hb). apply bool_decide_eq_true in Hb as [H1 H2]. by exists w.
Qed.
End Logger.
