(* ===== verification/Schema.v ===== *)
(** * Descriptions of messages

    [rskynet-core/src/schema.rs] and the derive macro [MessageSchema] of
    [rskynet-macros/src/expand.rs]: the JSON Schemas that the dashboard shows for messages.
    A message type is what the macro sees of it, its schema, and the JSON that values of it
    are written as; [validate] is JSON Schema for the keywords in use.  [serde] is a class:
    what it writes and how it names fields and variants are its operations, and the laws are
    the data format and the naming rules of its documentation.  Identifiers and names are
    ASCII, and the only attributes of [serde] are [rename], [rename_all] and [default]. *)
From S2P Require Import Prelude.
From Stdlib Require Import Ascii String.
From stdpp Require Import strings.
#[local] Open Scope string_scope.

Module Schema.

(** ** JSON *)

Inductive Json : Type :=
  | JNull
  | JBool (b : bool)
  | JInt (z : Z)
  | JFloat (bits : Z)
  | JStr (s : string)
  | JArr (l : list Json)
  | JObj (l : list (string * Json)).

Fixpoint assoc {A} (k : string) (l : list (string * A)) : option A :=
  match l with [] => None | (k', x) :: l => if decide (k' = k) then Some x else assoc k l end.

(** [Map::insert]. *)
Fixpoint insert_key {A} (k : string) (x : A) (l : list (string * A)) : list (string * A) :=
  match l with [] => [(k, x)] | (k', y) :: l => if decide (k' = k) then (k, x) :: l else (k', y) :: insert_key k x l end.

Definition has_type (t : string) (v : Json) : bool :=
  match v with
  | JNull => bool_decide (t = "null")
  | JBool _ => bool_decide (t = "boolean")
  | JInt _ => bool_decide (t = "integer") || bool_decide (t = "number")
  | JFloat _ => bool_decide (t = "number")
  | JStr _ => bool_decide (t = "string")
  | JArr _ => bool_decide (t = "array")
  | JObj _ => bool_decide (t = "object")
  end.

Definition names_of (x : Json) : list string := match x with JArr l => omap (λ s, match s with JStr n => Some n | _ => None end) l | _ => [] end.

Definition in_properties (n : string) (schema : list (string * Json)) : bool :=
  match assoc "properties" schema with Some (JObj ps) => bool_decide (is_Some (assoc n ps)) | _ => false end.

(** What a value has to satisfy; keywords that are not listed do not matter. *)
Fixpoint validate (s v : Json) {struct s} : bool :=
  match s with
  | JObj fs =>
      (fix all (l : list (string * Json)) : bool :=
         match l with
         | [] => true
         | (k, x) :: l =>
             (if decide (k = "type") then match x with JStr t => has_type t v | _ => true end
              else if decide (k = "const") then match x, v with JStr a, JStr b => bool_decide (a = b) | _, _ => false end
              else if decide (k = "anyOf") then
                match x with JArr ss => (fix any ss := match ss with [] => false | s :: ss => validate s v || any ss end) ss | _ => true end
              else if decide (k = "oneOf") then
                match x with
                | JArr ss => Nat.eqb ((fix count ss := match ss with [] => 0%nat | s :: ss => ((if validate s v then 1 else 0) + count ss)%nat end) ss) 1
                | _ => true
                end
              else if decide (k = "items") then match v with JArr vs => forallb (validate x) vs | _ => true end
              else if decide (k = "prefixItems") then
                match x, v with
                | JArr ss, JArr vs => (fix each ss vs := match ss, vs with s :: ss, v :: vs => validate s v && each ss vs | _, _ => true end) ss vs
                | _, _ => true
                end
              else if decide (k = "properties") then
                match x, v with
                | JObj ps, JObj us =>
                    (fix each ps := match ps with [] => true | (n, s) :: ps => match assoc n us with Some u => validate s u | None => true end && each ps end) ps
                | _, _ => true
                end
              else if decide (k = "additionalProperties") then
                match v with JObj us => forallb (λ nu, in_properties nu.1 fs || validate x nu.2) us | _ => true end
              else if decide (k = "required") then match v with JObj us => forallb (λ n, bool_decide (is_Some (assoc n us))) (names_of x) | _ => true end
              else if decide (k = "minItems") then match x, v with JInt n, JArr vs => bool_decide (n ≤ Z.of_nat (length vs))%Z | _, _ => true end
              else if decide (k = "maxItems") then match x, v with JInt n, JArr vs => bool_decide (Z.of_nat (length vs) ≤ n)%Z | _, _ => true end
              else true) && all l
         end) fs
  | JBool b => b
  | _ => true
  end.

(** ** [schema.rs] *)

Definition scalar (kind : string) : Json := JObj [("type", JStr kind)].
Definition schema_option (s : Json) : Json := JObj [("anyOf", JArr [s; scalar "null"])].
Definition schema_vec (s : Json) : Json := JObj [("type", JStr "array"); ("items", s)].
Definition schema_array (s : Json) (n : nat) : Json := JObj [("type", JStr "array"); ("items", s); ("minItems", JInt (Z.of_nat n)); ("maxItems", JInt (Z.of_nat n))].
Definition schema_map (s : Json) : Json := JObj [("type", JStr "object"); ("additionalProperties", s)].

(** [tuple_schema!]. *)
Definition schema_of_tuple (items : list Json) : Json :=
  JObj [("type", JStr "array"); ("minItems", JInt (Z.of_nat (length items))); ("maxItems", JInt (Z.of_nat (length items))); ("prefixItems", JArr items)].

Definition with_description (d : option string) (l : list (string * Json)) : list (string * Json) :=
  match d with Some d => insert_key "description" (JStr d) l | None => l end.

Definition schema_object (title : string) (description : option string) (fields : list (string * Json * bool)) : Json :=
  let properties := fold_left (λ m f, insert_key f.1.1 f.1.2 m) fields [] in
  let required := omap (λ f : string * Json * bool, if f.2 then Some (JStr f.1.1) else None) fields in
  let base := [("type", JStr "object"); ("title", JStr title); ("properties", JObj properties)] in
  JObj (with_description description (match required with [] => base | _ => base ++ [("required", JArr required)] end)).

Definition schema_tuple (title : string) (description : option string) (items : list Json) : Json :=
  let n := JInt (Z.of_nat (length items)) in
  JObj (with_description description [("type", JStr "array"); ("title", JStr title); ("prefixItems", JArr items); ("minItems", n); ("maxItems", n)]).

Definition schema_enum (title : string) (description : option string) (variants : list Json) : Json :=
  JObj (with_description description [("title", JStr title); ("oneOf", JArr variants)]).

Definition schema_enum_unit (name : string) : Json := JObj [("type", JStr "string"); ("const", JStr name)].

Definition schema_named_variant (name : string) (value : Json) : Json :=
  JObj [("type", JStr "object"); ("properties", JObj [(name, value)]); ("required", JArr [JStr name])].

(** ** Names *)

Definition is_upper (c : ascii) : bool := let n := nat_of_ascii c in (65 <=? n)%nat && (n <=? 90)%nat.
Definition is_lower (c : ascii) : bool := let n := nat_of_ascii c in (97 <=? n)%nat && (n <=? 122)%nat.
Definition to_lower (c : ascii) : ascii := if is_upper c then ascii_of_nat (nat_of_ascii c + 32) else c.
Definition to_upper (c : ascii) : ascii := if is_lower c then ascii_of_nat (nat_of_ascii c - 32) else c.

Fixpoint map_string (f : ascii → ascii) (s : string) : string := match s with EmptyString => EmptyString | String c s => String (f c) (map_string f s) end.

Definition lower : string → string := map_string to_lower.
Definition upper : string → string := map_string to_upper.

(** The loop of [split_words], with the word it is in. *)
Fixpoint split_loop (s current : string) : list string :=
  match s with
  | EmptyString => if decide (current = "") then [] else [lower current]
  | String c s =>
      if decide (c = "_"%char ∨ c = "-"%char) then
        (if decide (current = "") then split_loop s "" else lower current :: split_loop s "")
      else if is_upper c && negb (bool_decide (current = "")) then lower current :: split_loop s (String (to_lower c) "")
      else split_loop s (current ++ String (to_lower c) "")
  end.

Definition split_words (name : string) : list string := split_loop name "".

Definition capitalize (word : string) : string := match word with EmptyString => "" | String c s => String (to_upper c) s end.

Definition apply_rename_all (name : string) (rule : option string) : string :=
  match rule with
  | None => name
  | Some rule =>
      let words := split_words name in
      if decide (rule = "lowercase") then lower name
      else if decide (rule = "UPPERCASE") then upper name
      else if decide (rule = "snake_case") then String.concat "_" words
      else if decide (rule = "SCREAMING_SNAKE_CASE") then upper (String.concat "_" words)
      else if decide (rule = "kebab-case") then String.concat "-" words
      else if decide (rule = "SCREAMING-KEBAB-CASE") then upper (String.concat "-" words)
      else if decide (rule = "camelCase") then default "" (head words) ++ String.concat "" (capitalize <$> drop 1 words)
      else if decide (rule = "PascalCase") then String.concat "" (capitalize <$> words)
      else name
  end.

(** ** The derive macro *)

(** A type as a field has it: whether its last path segment is [Option], its schema, and the
    JSON that its values are written as. *)
Record MessageType : Type := mkType { is_option : bool; schema : Json; written : Json → Prop }.

Record Field : Type := mkField { f_ident : string; f_rename : option string; f_default : bool; f_doc : option string; f_type : MessageType }.

Inductive Fields : Type := FUnit | FUnnamed (l : list MessageType) | FNamed (l : list Field).

Record Variant : Type := mkVariant { v_ident : string; v_rename : option string; v_fields : Fields }.

Definition field_name (rule : option string) (f : Field) : string := default (apply_rename_all (f_ident f) rule) (f_rename f).
Definition variant_name (rule : option string) (v : Variant) : string := default (apply_rename_all (v_ident v) rule) (v_rename v).

Definition field_schema (f : Field) : Json :=
  match f_doc f, schema (f_type f) with
  | Some d, JObj l => JObj (insert_key "description" (JStr d) l)
  | _, s => s
  end.

Definition required (f : Field) : bool := negb (is_option (f_type f)) && negb (f_default f).

Definition schema_for_fields (title : string) (description : option string) (fields : Fields) (rule : option string) : Json :=
  match fields with
  | FUnit => schema_tuple title description []
  | FUnnamed [t] => schema t
  | FUnnamed l => schema_tuple title description (schema <$> l)
  | FNamed l => schema_object title description ((λ f, (field_name rule f, field_schema f, required f)) <$> l)
  end.

Definition variant_schema (title : string) (rule : option string) (v : Variant) : Json :=
  let name := variant_name rule v in
  match v_fields v with
  | FUnit => schema_enum_unit name
  | FUnnamed [t] => schema_named_variant name (schema t)
  | fields => schema_named_variant name (schema_for_fields (title ++ "::" ++ name) None fields None)
  end.

Definition derive_struct (title : string) (description rule : option string) (fields : Fields) : Json := schema_for_fields title description fields rule.
Definition derive_enum (title : string) (description rule : option string) (variants : list Variant) : Json :=
  schema_enum title description (variant_schema title rule <$> variants).

(** ** [serde] *)

(** A word of a name in the Rust style: small letters and digits, and with a capital first. *)
Definition is_digit (c : ascii) : bool := let n := nat_of_ascii c in (48 <=? n)%nat && (n <=? 57)%nat.
Definition small (c : ascii) : bool := is_lower c || is_digit c.

Fixpoint all_chars (p : ascii → bool) (s : string) : bool := match s with EmptyString => true | String c s => p c && all_chars p s end.

Definition word (w : string) : Prop := w ≠ "" ∧ all_chars small w = true.
Definition capital (w : string) : Prop := ∃ c r, w = String c r ∧ is_upper c = true ∧ all_chars small r = true.

Definition titled (w : string) : string := upper (String.substring 0 1 w) ++ String.substring 1 (String.length w - 1) w.

(** The naming conventions, from the name and its words. *)
Definition conventions : list (string * (string → list string → string)) :=
  [("lowercase", λ n _, lower n); ("UPPERCASE", λ n _, upper n);
   ("snake_case", λ _ ws, String.concat "_" ws); ("SCREAMING_SNAKE_CASE", λ _ ws, upper (String.concat "_" ws));
   ("kebab-case", λ _ ws, String.concat "-" ws); ("SCREAMING-KEBAB-CASE", λ _ ws, upper (String.concat "-" ws));
   ("camelCase", λ _ ws, match ws with [] => "" | w :: ws => w ++ String.concat "" (titled <$> ws) end); ("PascalCase", λ _ ws, String.concat "" (titled <$> ws))].

Definition convention (rule : option string) (name : string) (words : list string) : option string :=
  match rule with None => Some name | Some r => (λ f, f name words) <$> assoc r conventions end.

Definition known (rule : option string) : Prop := match rule with None => True | Some r => is_Some (assoc r conventions) end.

(** A type as [serde] sees it, with what the types inside it write. *)
Inductive Shape : Type :=
  | SBool
  | SInteger
  | SFloat
  | SString
  | SUnit
  | SOption (P : Json → Prop)
  | SPointer (P : Json → Prop)
  | SSeq (P : Json → Prop)
  | SArray (P : Json → Prop) (n : nat)
  | SMap (P : Json → Prop)
  | STuple (Ps : list (Json → Prop))
  | SStruct (rule : option string) (fields : Fields)
  | SEnum (rule : option string) (variants : list Variant).

(** [serde] with [serde_json]: [writes] holds of the JSON that some value of a type is
    written as; [field_key] and [variant_key] are the names of fields and variants without
    [rename].  A float that is not finite is written as [null].  The fields of a struct come
    in any order, as in a [Map].  The names follow [rename_all] for identifiers in the Rust
    style; nothing is said of others. *)
Class Serde : Type := {
  writes : Shape → Json → Prop;
  field_key : option string → string → string;
  variant_key : option string → string → string;
  field_key_convention rule ws n : Forall word ws → convention rule (String.concat "_" ws) ws = Some n → field_key rule (String.concat "_" ws) = n;
  variant_key_convention rule ws n : Forall capital ws → convention rule (String.concat "" ws) (lower <$> ws) = Some n → variant_key rule (String.concat "" ws) = n;
  writes_bool v : writes SBool v → ∃ b, v = JBool b;
  writes_integer v : writes SInteger v → ∃ z, v = JInt z;
  writes_float v : writes SFloat v → v = JNull ∨ ∃ b, v = JFloat b;
  writes_string v : writes SString v → ∃ s, v = JStr s;
  writes_unit v : writes SUnit v → v = JNull;
  writes_option P v : writes (SOption P) v → v = JNull ∨ P v;
  writes_pointer P v : writes (SPointer P) v → P v;
  writes_seq P v : writes (SSeq P) v → ∃ vs, v = JArr vs ∧ Forall P vs;
  writes_array P n v : writes (SArray P n) v → ∃ vs, v = JArr vs ∧ length vs = n ∧ Forall P vs;
  writes_map P v : writes (SMap P) v → ∃ us, v = JObj us ∧ Forall (λ nu, P nu.2) us;
  writes_tuple Ps v : writes (STuple Ps) v → ∃ vs, v = JArr vs ∧ Forall2 (λ (P : Json → Prop) v, P v) Ps vs;
  writes_unit_struct rule v : writes (SStruct rule FUnit) v → v = JNull;
  writes_newtype rule t v : writes (SStruct rule (FUnnamed [t])) v → written t v;
  writes_tuple_struct rule ts v : length ts ≠ 1%nat → writes (SStruct rule (FUnnamed ts)) v → ∃ vs, v = JArr vs ∧ Forall2 written ts vs;
  writes_struct rule l v : let names := (λ f, default (field_key rule (f_ident f)) (f_rename f)) <$> l in
    NoDup names → writes (SStruct rule (FNamed l)) v → ∃ vs us, v = JObj us ∧ us ≡ₚ zip names vs ∧ Forall2 (λ f u, written (f_type f) u) l vs;
  writes_enum rule xs v : writes (SEnum rule xs) v → ∃ x, x ∈ xs ∧
    let name := default (variant_key rule (v_ident x)) (v_rename x) in
    match v_fields x with FUnit => v = JStr name | fields => ∃ u, v = JObj [(name, u)] ∧ writes (SStruct None fields) u end;
}.

(** ** Words *)

Ltac by_cases c := destruct c as [[] [] [] [] [] [] [] []]; vm_compute; try done; repeat split; done.

Lemma small_plain c : small c = true → is_upper c = false ∧ to_lower c = c ∧ to_lower (to_upper c) = c.
Proof. by_cases c. Qed.

Lemma small_word c : small c = true → c ≠ "_"%char ∧ c ≠ "-"%char.
Proof. by_cases c. Qed.

Lemma capital_plain c : is_upper c = true → small (to_lower c) = true ∧ to_upper (to_lower c) = c ∧ is_lower (to_lower c) = true.
Proof. by_cases c. Qed.

Lemma capital_word c : is_upper c = true → c ≠ "_"%char ∧ c ≠ "-"%char.
Proof. by_cases c. Qed.

Lemma app_cons c (a b : string) : String c a ++ b = String c (a ++ b).
Proof. done. Qed.

Lemma app_empty (b : string) : "" ++ b = b.
Proof. done. Qed.

Ltac chars := rewrite ?app_cons, ?app_empty.

Lemma string_app_assoc (a b c : string) : (a ++ b) ++ c = a ++ (b ++ c).
Proof. induction a as [|x a IH]; [done|]. exact (f_equal (String x) IH). Qed.

Lemma string_app_nil (a : string) : a ++ "" = a.
Proof. induction a as [|x a IH]; [done|]. exact (f_equal (String x) IH). Qed.

Lemma map_string_id f s : all_chars (λ c, bool_decide (f c = c)) s = true → map_string f s = s.
Proof. induction s as [|c s IH]; cbn; [done|]. rewrite andb_true_iff, bool_decide_eq_true. intros [-> Hs]. by rewrite IH. Qed.

Lemma all_chars_impl (p q : ascii → bool) s : (∀ c, p c = true → q c = true) → all_chars p s = true → all_chars q s = true.
Proof. intros Hpq. induction s as [|c s IH]; cbn; [done|]. rewrite !andb_true_iff. intros [Hc Hs]. auto. Qed.

Lemma lower_small w : all_chars small w = true → lower w = w.
Proof. intros Hw. apply map_string_id. eapply all_chars_impl; [|exact Hw]. intros c Hc. apply bool_decide_eq_true. by apply small_plain. Qed.

Lemma concat_cons sep w v ws : String.concat sep (w :: v :: ws) = w ++ sep ++ String.concat sep (v :: ws).
Proof. done. Qed.

Lemma concat_none w ws : String.concat "" (w :: ws) = w ++ String.concat "" ws.
Proof. destruct ws; [symmetry; apply string_app_nil|done]. Qed.

Lemma lower_capital c r : all_chars small r = true → lower (String c r) = String (to_lower c) r.
Proof. intros Hr. exact (f_equal (String (to_lower c)) (lower_small r Hr)). Qed.

Lemma small_capital c r : is_upper c = true → all_chars small r = true → all_chars small (String (to_lower c) r) = true.
Proof. intros Hc Hr. cbn [all_chars]. rewrite Hr. by destruct (capital_plain c Hc) as (-> & _). Qed.

(** *** [split_words] *)

Lemma split_small w s cur : all_chars small w = true → split_loop (w ++ s) cur = split_loop s (cur ++ w).
Proof.
  revert cur. induction w as [|c w IH]; intros cur; chars; cbn [split_loop all_chars]; [by rewrite string_app_nil|]. rewrite andb_true_iff. intros [Hc Hw].
  destruct (small_word c Hc) as [H1 H2], (small_plain c Hc) as (H3 & H4 & _). rewrite decide_False by naive_solver. rewrite H3, H4. cbn [andb].
  rewrite IH by done. by rewrite string_app_assoc.
Qed.

Lemma split_snake ws : Forall word ws → split_words (String.concat "_" ws) = ws.
Proof.
  unfold split_words. induction 1 as [|w ws [Hw Hs] Hws IH]; [done|]. destruct ws as [|v ws].
  - cbn. rewrite <- (string_app_nil w) at 1. rewrite split_small by done. cbn. rewrite decide_False by done. by rewrite lower_small.
  - rewrite concat_cons, split_small by done. chars; cbn [split_loop ]. rewrite decide_True by by left. rewrite decide_False by done.
    rewrite lower_small by done. by rewrite IH.
Qed.

Lemma split_pascal_loop ws cur : Forall capital ws → cur ≠ "" → all_chars small cur = true →
  split_loop (String.concat "" ws) cur = cur :: (lower <$> ws).
Proof.
  intros Hws. revert cur. induction Hws as [|w ws (c & r & -> & Hc & Hr) Hws IH]; intros cur Hne Hcur.
  - cbn. rewrite decide_False by done. by rewrite lower_small.
  - rewrite concat_none. destruct (capital_plain c Hc) as (H1 & H2 & _), (capital_word c Hc) as [H3 H4]. chars; cbn [split_loop].
    rewrite decide_False by naive_solver. rewrite Hc, bool_decide_eq_false_2 by done. cbn [andb negb]. rewrite lower_small by done. f_equal.
    rewrite split_small by done. chars. rewrite IH by (done || by apply small_capital). by rewrite fmap_cons, lower_capital.
Qed.

Lemma split_pascal ws : Forall capital ws → split_words (String.concat "" ws) = lower <$> ws.
Proof.
  destruct 1 as [|w ws (c & r & -> & Hc & Hr) Hws]; [done|]. unfold split_words. rewrite concat_none.
  destruct (capital_plain c Hc) as (H1 & H2 & _), (capital_word c Hc) as [H3 H4]. chars; cbn [split_loop]. rewrite decide_False by naive_solver.
  rewrite Hc, bool_decide_eq_true_2 by done. chars; cbn [andb negb]; chars. rewrite split_small by done. chars.
  rewrite split_pascal_loop by (done || by apply small_capital). by rewrite fmap_cons, lower_capital.
Qed.

(** *** [apply_rename_all] *)

Lemma substring_all s : String.substring 0 (String.length s) s = s.
Proof. induction s as [|c s IH]; [done|]. cbn. by rewrite IH. Qed.

Lemma capitalize_titled w : capitalize w = titled w.
Proof.
  destruct w as [|c w]; [done|]. unfold titled. cbn [String.length String.substring capitalize]. rewrite Nat.sub_succ, Nat.sub_0_r, substring_all. by destruct w.
Qed.

Lemma rename_convention rule name n : convention rule name (split_words name) = Some n → apply_rename_all name rule = n.
Proof.
  destruct rule as [rule|]; [|by intros [= ->]]. unfold convention, apply_rename_all, conventions. cbn [assoc]. rewrite !(list_fmap_ext capitalize titled) by (intros; apply capitalize_titled).
  repeat (case_decide; subst; [intros [= <-]; try done|]); [|done]. by destruct (split_words name).
Qed.

Lemma known_convention rule name ws : known rule → ∃ n, convention rule name ws = Some n.
Proof. destruct rule as [r|]; [|by eexists]. intros [f Hf]. unfold convention. rewrite Hf. by eexists. Qed.

(** ** Validation *)

(** One keyword of a schema. *)
Definition keyword (fs : list (string * Json)) (v : Json) (kx : string * Json) : bool :=
  let (k, x) := kx in
  if decide (k = "type") then match x with JStr t => has_type t v | _ => true end
  else if decide (k = "const") then match x, v with JStr a, JStr b => bool_decide (a = b) | _, _ => false end
  else if decide (k = "anyOf") then match x with JArr ss => existsb (λ s, validate s v) ss | _ => true end
  else if decide (k = "oneOf") then match x with JArr ss => Nat.eqb (length (List.filter (λ s, validate s v) ss)) 1 | _ => true end
  else if decide (k = "items") then match v with JArr vs => forallb (validate x) vs | _ => true end
  else if decide (k = "prefixItems") then match x, v with JArr ss, JArr vs => forallb (λ sv, validate sv.1 sv.2) (zip ss vs) | _, _ => true end
  else if decide (k = "properties") then
    match x, v with JObj ps, JObj us => forallb (λ ns, match assoc ns.1 us with Some u => validate ns.2 u | None => true end) ps | _, _ => true end
  else if decide (k = "additionalProperties") then match v with JObj us => forallb (λ nu, in_properties nu.1 fs || validate x nu.2) us | _ => true end
  else if decide (k = "required") then match v with JObj us => forallb (λ n, bool_decide (is_Some (assoc n us))) (names_of x) | _ => true end
  else if decide (k = "minItems") then match x, v with JInt n, JArr vs => bool_decide (n ≤ Z.of_nat (length vs))%Z | _, _ => true end
  else if decide (k = "maxItems") then match x, v with JInt n, JArr vs => bool_decide (Z.of_nat (length vs) ≤ n)%Z | _, _ => true end
  else true.

Lemma validate_obj fs v : validate (JObj fs) v = forallb (keyword fs v) fs.
Proof.
  cbn [validate]. enough (H : ∀ l, (fix all l := match l with [] => true | kx :: l => keyword fs v kx && all l end) l = forallb (keyword fs v) l).
  2:{ induction l as [|kx l IH]; [done|]. cbn. by rewrite IH. }
  rewrite <- H. generalize fs at 2 4. intros l. induction l as [|[k x] l IH]; [done|]. rewrite IH. f_equal. unfold keyword.
  repeat (case_decide; [|]); try done.
  - destruct x as [| | | | |ss|]; try done. f_equal. induction ss as [|s ss IHs]; [done|]. cbn. rewrite IHs. by destruct (validate s v).
  - destruct x as [| | | | |ss|]; try done. destruct v as [| | | | |vs|]; try done. clear. revert vs. induction ss as [|s ss IHs]; intros [|v vs]; try done. cbn. by rewrite IHs.
  - destruct x as [| | | | | |ps]; try done. destruct v as [| | | | | |us]; try done. clear. induction ps as [|[n s] ps IHs]; [done|]. cbn. by rewrite IHs.
Qed.

Create Rewrite HintDb schema.

Lemma kw_type fs v t : keyword fs v ("type", JStr t) = has_type t v. Proof. done. Qed.
Lemma kw_title fs v x : keyword fs v ("title", x) = true. Proof. done. Qed.
Lemma kw_description fs v x : keyword fs v ("description", x) = true. Proof. done. Qed.
Lemma kw_const fs v a : keyword fs v ("const", JStr a) = match v with JStr b => bool_decide (a = b) | _ => false end. Proof. done. Qed.
Lemma kw_any fs v ss : keyword fs v ("anyOf", JArr ss) = existsb (λ s, validate s v) ss. Proof. done. Qed.
Lemma kw_one fs v ss : keyword fs v ("oneOf", JArr ss) = Nat.eqb (length (List.filter (λ s, validate s v) ss)) 1. Proof. done. Qed.
Lemma kw_items fs vs x : keyword fs (JArr vs) ("items", x) = forallb (validate x) vs. Proof. done. Qed.
Lemma kw_prefix fs vs ss : keyword fs (JArr vs) ("prefixItems", JArr ss) = forallb (λ sv, validate sv.1 sv.2) (zip ss vs). Proof. done. Qed.
Lemma kw_min fs vs n : keyword fs (JArr vs) ("minItems", JInt n) = bool_decide (n ≤ Z.of_nat (length vs))%Z. Proof. done. Qed.
Lemma kw_max fs vs n : keyword fs (JArr vs) ("maxItems", JInt n) = bool_decide (Z.of_nat (length vs) ≤ n)%Z. Proof. done. Qed.
Lemma kw_additional fs us x : keyword fs (JObj us) ("additionalProperties", x) = forallb (λ nu, in_properties nu.1 fs || validate x nu.2) us. Proof. done. Qed.

Lemma kw_properties fs us ps :
  keyword fs (JObj us) ("properties", JObj ps) = forallb (λ ns, match assoc ns.1 us with Some u => validate ns.2 u | None => true end) ps.
Proof. done. Qed.

Lemma kw_required fs us x : keyword fs (JObj us) ("required", x) = forallb (λ n, bool_decide (is_Some (assoc n us))) (names_of x). Proof. done. Qed.

#[export] Hint Rewrite kw_type kw_title kw_description kw_const kw_any kw_one kw_items kw_prefix kw_min kw_max kw_additional kw_properties kw_required : schema.

(** Evaluates the keywords of a schema. *)
Ltac keywords := rewrite ?validate_obj; cbn [forallb existsb]; autorewrite with schema; rewrite ?andb_true_r, ?orb_false_r.

Lemma forallb_same {A} (p q : A → bool) l : (∀ x, p x = q x) → forallb p l = forallb q l.
Proof. intros Hpq. induction l as [|x l IH]; [done|]. cbn. by rewrite Hpq, IH. Qed.

Lemma assoc_insert_other {A} k k' (x : A) l : k ≠ k' → assoc k (insert_key k' x l) = assoc k l.
Proof.
  intros Hk. induction l as [|[j y] l IH]; cbn [insert_key assoc]; [by rewrite decide_False|].
  destruct (decide (j = k')) as [->|]; cbn [assoc]; [by rewrite !decide_False by done|]. by rewrite IH.
Qed.

Lemma validate_describe d l v : validate (JObj (insert_key "description" d l)) v = validate (JObj l) v.
Proof.
  rewrite !validate_obj.
  assert (Hin : ∀ n, in_properties n (insert_key "description" d l) = in_properties n l) by (intros n; unfold in_properties; by rewrite assoc_insert_other).
  assert (Hkw : ∀ kx, keyword (insert_key "description" d l) v kx = keyword l v kx).
  { intros [k x]. unfold keyword. repeat (case_decide; [done|]). case_decide; [|done]. destruct v; try done. apply forallb_same. intros nu. by rewrite Hin. }
  rewrite (forallb_same _ _ _ Hkw). clear Hin Hkw. generalize l at 1 3. intros fs. induction l as [|[k x] l IH]; cbn [insert_key forallb]; [done|].
  destruct (decide (k = "description")) as [->|]; cbn [forallb]; [done|]. by rewrite IH.
Qed.

Lemma validate_with d l v : validate (JObj (with_description d l)) v = validate (JObj l) v.
Proof. destruct d; [apply validate_describe|done]. Qed.

Lemma validate_field f v : validate (field_schema f) v = validate (schema (f_type f)) v.
Proof. unfold field_schema. destruct (f_doc f), (schema (f_type f)); try done. apply validate_describe. Qed.

(** *** Objects *)

Lemma in_insert_key {A} k (x : A) l kx : kx ∈ insert_key k x l → kx = (k, x) ∨ kx ∈ l.
Proof.
  induction l as [|[j y] l IH]; cbn [insert_key]; [set_solver|]. destruct (decide (j = k)) as [->|]; set_solver.
Qed.

Lemma in_properties_fold (fields : list (string * Json * bool)) m kx :
  kx ∈ fold_left (λ m f, insert_key f.1.1 f.1.2 m) fields m → kx ∈ m ∨ ∃ f, f ∈ fields ∧ kx = f.1.
Proof.
  revert m. induction fields as [|f fields IH]; intros m; cbn [fold_left]; [by left|]. intros [Hm|(g & Hg & ->)]%IH; [|right; set_solver].
  apply in_insert_key in Hm as [->|Hm]; [|by left]. right. exists f. split; [set_solver|]. by destruct f as [[? ?] ?].
Qed.

Lemma forallb_elem {A} (p : A → bool) l : forallb p l = true ↔ ∀ x, x ∈ l → p x = true.
Proof. rewrite List.forallb_forall. split; intros H x Hx; apply H; by apply list_elem_of_In. Qed.

Lemma object_accepts title d fields us :
  (∀ n s r, (n, s, r) ∈ fields → match assoc n us with Some u => validate s u = true | None => r = false end) →
  validate (schema_object title d fields) (JObj us) = true.
Proof.
  intros H. unfold schema_object. rewrite validate_with.
  assert (Hp : keyword [] (JObj us) ("properties", JObj (fold_left (λ m f, insert_key f.1.1 f.1.2 m) fields [])) = true).
  { autorewrite with schema. apply forallb_elem. intros [n s] [|([[n' s'] r] & Hf & [= -> ->])]%in_properties_fold; [set_solver|]. cbn. specialize (H _ _ _ Hf). by destruct (assoc n' us). }
  assert (Hr : keyword [] (JObj us) ("required", JArr (omap (λ f : string * Json * bool, if f.2 then Some (JStr f.1.1) else None) fields)) = true).
  { autorewrite with schema. apply forallb_elem. intros n Hn. cbn [names_of] in Hn. apply list_elem_of_omap in Hn as (x & Hx & Hn). apply list_elem_of_omap in Hx as ([[n' s] r] & Hf & Hx).
    cbn in Hx. destruct r; simplify_eq/=. apply bool_decide_eq_true. specialize (H _ _ _ Hf). by destruct (assoc n us). }
  rewrite validate_obj. destruct (omap _ fields) eqn:Eo; cbn [forallb app]; autorewrite with schema in *; rewrite Hp; [done|]. by rewrite Hr.
Qed.

Lemma insert_key_keeps {A} k (x : A) l kx : kx ∈ l → kx.1 ≠ k → kx ∈ insert_key k x l.
Proof.
  intros Hin Hk. induction l as [|[j y] l IH]; cbn [insert_key]; [set_solver|]. apply elem_of_cons in Hin as [->|Hin].
  - cbn in Hk. rewrite decide_False by done. set_solver.
  - destruct (decide (j = k)) as [->|]; set_solver.
Qed.

Lemma insert_key_has {A} k (x : A) l : (k, x) ∈ insert_key k x l.
Proof. induction l as [|[j y] l IH]; cbn [insert_key]; [set_solver|]. destruct (decide (j = k)); set_solver. Qed.

Lemma properties_keep (fields : list (string * Json * bool)) m kx : kx ∈ m → kx.1 ∉ (fst ∘ fst <$> fields) → kx ∈ fold_left (λ m f, insert_key f.1.1 f.1.2 m) fields m.
Proof.
  revert m. induction fields as [|f fields IH]; intros m Hm Hn; cbn [fold_left]; [done|]. rewrite fmap_cons in Hn. apply IH; [|set_solver]. apply insert_key_keeps; [done|]. cbn in *. set_solver.
Qed.

Lemma properties_have (fields : list (string * Json * bool)) m f : NoDup (fst ∘ fst <$> fields) → f ∈ fields → f.1 ∈ fold_left (λ m f, insert_key f.1.1 f.1.2 m) fields m.
Proof.
  revert m. induction fields as [|g fields IH]; intros m Hnd Hf; [set_solver|]. rewrite fmap_cons in Hnd. apply NoDup_cons in Hnd as [Hg Hnd]. cbn [fold_left].
  apply elem_of_cons in Hf as [->|Hf]; [|by apply IH]. apply properties_keep; [|done]. destruct g as [[n s] r]. apply insert_key_has.
Qed.

Lemma object_demands title d fields us : NoDup (fst ∘ fst <$> fields) → validate (schema_object title d fields) (JObj us) = true →
  ∀ n s r, (n, s, r) ∈ fields → match assoc n us with Some u => validate s u = true | None => r = false end.
Proof.
  intros Hnd Hv n s r Hf. unfold schema_object in Hv. rewrite validate_with, validate_obj in Hv.
  set (ps := fold_left _ fields []) in Hv. set (rs := omap _ fields) in Hv.
  assert (Hp : forallb (λ ns, match assoc ns.1 us with Some u => validate ns.2 u | None => true end) ps = true).
  { destruct rs; cbn [forallb app] in Hv; autorewrite with schema in Hv; rewrite !andb_true_iff in Hv; tauto. }
  assert (Hr : r = true → is_Some (assoc n us)).
  { intros ->. assert (Hn : JStr n ∈ rs) by (apply list_elem_of_omap; by exists (n, s, true)). clearbody rs. destruct rs as [|x rs]; [set_solver|].
    cbn [forallb app] in Hv; autorewrite with schema in Hv; rewrite !andb_true_iff in Hv. destruct Hv as (_ & _ & _ & Hv & _). rewrite forallb_elem in Hv.
    specialize (Hv n). rewrite bool_decide_eq_true in Hv. apply Hv. apply list_elem_of_omap. by exists (JStr n). }
  pose proof (proj1 (forallb_elem _ _) Hp _ (properties_have fields [] (n, s, r) Hnd Hf)) as H. cbn in H.
  destruct (assoc n us); [done|]. destruct r; [|done]. by destruct (Hr eq_refl).
Qed.

Lemma assoc_member {A} (k : string) (x : A) l : NoDup (fst <$> l) → (k, x) ∈ l → assoc k l = Some x.
Proof.
  induction l as [|[j y] l IH]; intros Hnd Hin; [set_solver|]. rewrite fmap_cons in Hnd. apply NoDup_cons in Hnd as [Hj Hnd]. cbn [assoc].
  apply elem_of_cons in Hin as [[= <- <-]|Hin]; [by rewrite decide_True|]. rewrite decide_False; [by apply IH|]. intros ->. apply Hj, list_elem_of_fmap. by exists (k, x).
Qed.

Lemma object_only title d fields v : validate (schema_object title d fields) v = true → ∃ us, v = JObj us.
Proof.
  unfold schema_object. rewrite validate_with, validate_obj. intros H. assert (Ht : has_type "object" v = true); [|destruct v; try done; eauto].
  destruct (omap _ fields); cbn [forallb app] in H; rewrite kw_type in H; by apply andb_true_iff in H as [H _].
Qed.

(** What is written under a name is found under it. *)
Lemma assoc_zip {A} (key : A → string) (P : A → Json → Prop) l vs us x : NoDup (key <$> l) → us ≡ₚ zip (key <$> l) vs → Forall2 P l vs → x ∈ l → ∃ u, assoc (key x) us = Some u ∧ P x u.
Proof.
  intros Hnd Hus Hall (i & Hi)%list_elem_of_lookup. destruct (Forall2_lookup_l _ _ _ _ _ Hall Hi) as (u & Hu & Hp). exists u. split; [|done].
  apply assoc_member; rewrite Hus; [rewrite fst_zip; [done|rewrite length_fmap; by erewrite Forall2_length]|].
  apply list_elem_of_lookup. exists i. rewrite lookup_zip_with. rewrite list_lookup_fmap, Hi. cbn. by rewrite Hu.
Qed.

(** *** Variants *)

Definition names_variant (n : string) (v : Json) : Prop := v = JStr n ∨ ∃ u, v = JObj [(n, u)].

Lemma named_accepts n s u : validate s u = true → validate (schema_named_variant n s) (JObj [(n, u)]) = true.
Proof. intros H. unfold schema_named_variant. keywords. cbn. rewrite decide_True by done. by rewrite H. Qed.

Lemma named_variant_name n m s v : names_variant n v → validate (schema_named_variant m s) v = true → m = n.
Proof.
  intros Hv. unfold schema_named_variant. keywords. destruct Hv as [->|[u ->]]; [done|]. autorewrite with schema. cbn [names_of omap list_omap forallb].
  intros (_ & _ & H)%andb_true_iff%(λ H, conj (proj1 H) (proj1 (andb_true_iff _ _) (proj2 H))). rewrite andb_true_r in H. apply bool_decide_eq_true in H. cbn in H. case_decide; [done|]. by destruct H.
Qed.

Lemma variant_schema_name title rule y n v : names_variant n v → validate (variant_schema title rule y) v = true → variant_name rule y = n.
Proof.
  intros Hv. unfold variant_schema. destruct (v_fields y) as [|[|t [|t' ts]]|l]; try by apply named_variant_name.
  unfold schema_enum_unit. keywords. destruct Hv as [->|[u ->]]; [|done]. cbn [has_type]. intros [_ H]%andb_true_iff. by apply bool_decide_eq_true in H.
Qed.

Lemma filter_one {A B} (name : A → string) (g : A → B) (p : B → bool) l x :
  NoDup (name <$> l) → x ∈ l → p (g x) = true → (∀ y, y ∈ l → p (g y) = true → name y = name x) → length (List.filter p (g <$> l)) = 1%nat.
Proof.
  induction l as [|y l IH]; intros Hnd Hx Hpx Huniq; [set_solver|]. rewrite fmap_cons in Hnd. apply NoDup_cons in Hnd as [Hy Hnd]. rewrite fmap_cons. cbn [List.filter].
  assert (Hno : ∀ z, z ∈ l → name z ≠ name y) by (intros z Hz Hzy; apply Hy; rewrite <- Hzy; apply list_elem_of_fmap; eauto).
  destruct (decide (name y = name x)) as [Hyx|Hyx].
  - assert (x = y) as ->. { apply elem_of_cons in Hx as [|Hx]; [done|]. by destruct (Hno x Hx). }
    rewrite Hpx. cbn [length]. f_equal. apply length_zero_iff_nil. destruct (List.filter p (g <$> l)) as [|b bs] eqn:Eb; [done|]. exfalso.
    assert (Hb : In b (List.filter p (g <$> l))) by (rewrite Eb; by left). apply filter_In in Hb as [Hb Hp]. apply list_elem_of_In, list_elem_of_fmap in Hb as (z & -> & Hz).
    apply (Hno z Hz). apply Huniq; [set_solver|done].
  - destruct (p (g y)) eqn:Epy; [by destruct Hyx; apply Huniq; [set_solver|]|]. apply IH; [done| |done|set_solver]. apply elem_of_cons in Hx as [->|]; done.
Qed.

(** ** The types that messages are made of *)

Section types.
Context {Sd : Serde}.

(** The names that [serde] gives. *)
Definition serde_field (rule : option string) (f : Field) : string := default (field_key rule (f_ident f)) (f_rename f).
Definition serde_variant (rule : option string) (x : Variant) : string := default (variant_key rule (v_ident x)) (v_rename x).

(** The types that have schemas; floats are finite. *)
Definition t_bool : MessageType := mkType false (scalar "boolean") (writes SBool).
Definition t_integer : MessageType := mkType false (scalar "integer") (writes SInteger).
Definition t_number : MessageType := mkType false (scalar "number") (λ v, writes SFloat v ∧ v ≠ JNull).
Definition t_string : MessageType := mkType false (scalar "string") (writes SString).
Definition t_unit : MessageType := mkType false (scalar "null") (writes SUnit).
Definition t_option (t : MessageType) : MessageType := mkType true (schema_option (schema t)) (writes (SOption (written t))).
Definition t_pointer (t : MessageType) : MessageType := mkType false (schema t) (writes (SPointer (written t))).
Definition t_vec (t : MessageType) : MessageType := mkType false (schema_vec (schema t)) (writes (SSeq (written t))).
Definition t_array (t : MessageType) (n : nat) : MessageType := mkType false (schema_array (schema t) n) (writes (SArray (written t) n)).
Definition t_map (t : MessageType) : MessageType := mkType false (schema_map (schema t)) (writes (SMap (written t))).
Definition t_tuple (ts : list MessageType) : MessageType := mkType false (schema_of_tuple (schema <$> ts)) (writes (STuple (written <$> ts))).
Definition t_struct (title : string) (description rule : option string) (fields : Fields) : MessageType :=
  mkType false (derive_struct title description rule fields) (writes (SStruct rule fields)).
Definition t_enum (title : string) (description rule : option string) (variants : list Variant) : MessageType :=
  mkType false (derive_enum title description rule variants) (writes (SEnum rule variants)).

(** A field has a name of its own, or an identifier in snake case under a known rule; a
    variant has a name of its own, or an identifier in Pascal case under a known rule. *)
Definition regular (rule : option string) (f : Field) : Prop := is_Some (f_rename f) ∨ known rule ∧ ∃ ws, f_ident f = String.concat "_" ws ∧ Forall word ws.
Definition regular_variant (rule : option string) (x : Variant) : Prop := is_Some (v_rename x) ∨ known rule ∧ ∃ ws, v_ident x = String.concat "" ws ∧ Forall capital ws.

(** The names of the fields are regular and distinct. *)
Definition regular_fields (rule : option string) (fields : Fields) : Prop :=
  match fields with FNamed l => (∀ f, f ∈ l → regular rule f) ∧ NoDup (serde_field rule <$> l) | _ => True end.

Definition field_types (fields : Fields) : list MessageType := match fields with FUnit => [] | FUnnamed l => l | FNamed l => f_type <$> l end.

Inductive message_type : MessageType → Prop :=
  | ty_bool : message_type t_bool
  | ty_integer : message_type t_integer
  | ty_number : message_type t_number
  | ty_string : message_type t_string
  | ty_unit : message_type t_unit
  | ty_option t : message_type t → message_type (t_option t)
  | ty_pointer t : message_type t → message_type (t_pointer t)
  | ty_vec t : message_type t → message_type (t_vec t)
  | ty_array t n : message_type t → message_type (t_array t n)
  | ty_map t : message_type t → message_type (t_map t)
  | ty_tuple ts : (∀ t, t ∈ ts → message_type t) → message_type (t_tuple ts)
  | ty_struct title d rule fields :
      fields ≠ FUnit → regular_fields rule fields → (∀ t, t ∈ field_types fields → message_type t) → message_type (t_struct title d rule fields)
  | ty_enum title d rule variants :
      (∀ x, x ∈ variants → regular_variant rule x ∧ regular_fields None (v_fields x)) → NoDup (serde_variant rule <$> variants) →
      (∀ x t, x ∈ variants → t ∈ field_types (v_fields x) → message_type t) → message_type (t_enum title d rule variants).

(** *** Names *)

Lemma field_name_agrees rule f : regular rule f → field_name rule f = serde_field rule f.
Proof.
  unfold field_name, serde_field. intros [[n ->]|(Hk & ws & -> & Hws)]; [done|]. destruct (f_rename f); [done|]. cbn. destruct (known_convention rule (String.concat "_" ws) ws Hk) as [n Hn].
  rewrite (field_key_convention rule ws n Hws Hn). apply rename_convention. by rewrite split_snake.
Qed.

Lemma variant_name_agrees rule x : regular_variant rule x → variant_name rule x = serde_variant rule x.
Proof.
  unfold variant_name, serde_variant. intros [[n ->]|(Hk & ws & -> & Hws)]; [done|]. destruct (v_rename x); [done|]. cbn. destruct (known_convention rule (String.concat "" ws) (lower <$> ws) Hk) as [n Hn].
  rewrite (variant_key_convention rule ws n Hws Hn). apply rename_convention. by rewrite split_pascal.
Qed.

(** *** What is written is accepted *)

Definition accepts (t : MessageType) : Prop := ∀ v, written t v → validate (schema t) v = true.

Lemma prefix_accepts ts vs : (∀ t, t ∈ ts → accepts t) → Forall2 written ts vs → forallb (λ sv, validate sv.1 sv.2) (zip (schema <$> ts) vs) = true ∧ length vs = length ts.
Proof.
  intros Hts Hj. induction Hj as [|t v ts vs Htv Hj IH]; [done|]. destruct IH as [IH1 IH2]; [set_solver|]. split; [|cbn; lia]. cbn. rewrite IH1, andb_true_r.
  apply Hts; [set_solver|done].
Qed.

Lemma tuple_accepts title d ts vs : (∀ t, t ∈ ts → accepts t) → Forall2 written ts vs → validate (schema_tuple title d (schema <$> ts)) (JArr vs) = true.
Proof.
  intros Hts Hj. destruct (prefix_accepts ts vs Hts Hj) as [Hp Hl]. unfold schema_tuple. rewrite validate_with. keywords. rewrite length_fmap, Hl, Hp.
  rewrite !bool_decide_eq_true_2 by lia. done.
Qed.

(** An object is accepted for named fields when each of them is, or may be missing. *)
Definition fields_accepted (rule : option string) (l : list Field) (us : list (string * Json)) : Prop :=
  ∀ f, f ∈ l → match assoc (serde_field rule f) us with Some u => validate (schema (f_type f)) u = true | None => is_option (f_type f) = true ∨ f_default f = true end.

Lemma named_schema title d rule l us : regular_fields rule (FNamed l) → validate (schema_for_fields title d (FNamed l) rule) (JObj us) = true ↔ fields_accepted rule l us.
Proof.
  intros [Hreg Hnd]. cbn [schema_for_fields].
  assert (Hreq : ∀ f, required f = false ↔ is_option (f_type f) = true ∨ f_default f = true) by (intros f; unfold required; destruct (is_option _), (f_default f); naive_solver). split.
  - intros Hv f Hf. assert (Hnd' : NoDup (fst ∘ fst <$> ((λ f, (field_name rule f, field_schema f, required f)) <$> l))).
    { rewrite <- list_fmap_compose. erewrite list_fmap_ext; [exact Hnd|]. intros i g Hg. apply field_name_agrees, Hreg. by eapply list_elem_of_lookup_2. }
    assert (Hin : (field_name rule f, field_schema f, required f) ∈ (λ f, (field_name rule f, field_schema f, required f)) <$> l) by (apply list_elem_of_fmap; eauto).
    pose proof (object_demands title d _ us Hnd' Hv _ _ _ Hin) as H. rewrite field_name_agrees in H by by apply Hreg. destruct (assoc _ us); [by rewrite <- validate_field|]. by apply Hreq.
  - intros Hall. apply object_accepts. intros n s r (f & [= -> -> ->] & Hf)%list_elem_of_fmap. rewrite field_name_agrees by by apply Hreg. specialize (Hall f Hf).
    destruct (assoc _ us); [by rewrite validate_field|]. by apply Hreq.
Qed.

Lemma fields_accepts title d rule fields v : fields ≠ FUnit → regular_fields rule fields → (∀ t, t ∈ field_types fields → accepts t) →
  writes (SStruct rule fields) v → validate (schema_for_fields title d fields rule) v = true.
Proof.
  intros Hne Hreg Ht Hj. destruct fields as [|ts|l]; [done| |].
  - destruct (decide (length ts = 1%nat)) as [H1|H1].
    + destruct ts as [|t [|t' ts]]; try done. apply Ht; [set_solver|]. by eapply writes_newtype.
    + destruct (writes_tuple_struct _ _ _ H1 Hj) as (vs & -> & Hj'). destruct ts as [|t [|t' ts]]; [|done|]; apply (tuple_accepts _ _ _ _ Ht Hj').
  - destruct (writes_struct _ _ _ (proj2 Hreg) Hj) as (vs & us & -> & Hus & Hall). apply named_schema; [done|]. intros f Hf.
    destruct (assoc_zip (serde_field rule) _ l vs us f (proj2 Hreg) Hus Hall Hf) as (u & -> & Hu). apply Ht; [|done]. apply list_elem_of_fmap. eauto.
Qed.

Lemma enum_accepts title d rule variants : (∀ x, x ∈ variants → regular_variant rule x ∧ regular_fields None (v_fields x)) → NoDup (serde_variant rule <$> variants) →
  (∀ x t, x ∈ variants → t ∈ field_types (v_fields x) → accepts t) → accepts (t_enum title d rule variants).
Proof.
  intros Hreg Hnd Ht v (x & Hx & Hj)%writes_enum. destruct (Hreg x Hx) as [Hr Hf]. fold (serde_variant rule x) in Hj. rewrite <- variant_name_agrees in Hj by done.
  assert (Hv : names_variant (variant_name rule x) v ∧ validate (variant_schema title rule x) v = true).
  { unfold variant_schema. specialize (Ht x). destruct (v_fields x) as [|ts|l] eqn:Ef; cbn zeta in Hj.
    - subst v. split; [by left|]. unfold schema_enum_unit. keywords. by rewrite bool_decide_eq_true_2.
    - destruct Hj as (u & -> & Hj). split; [right; eauto|]. pose proof (λ title, fields_accepts title None None (FUnnamed ts) u ltac:(done) Hf (λ t, Ht t Hx) Hj) as Ha.
      destruct ts as [|t [|t' ts]]; apply named_accepts; [apply Ha|by apply (Ha title)|apply Ha].
    - destruct Hj as (u & -> & Hj). split; [right; eauto|]. apply named_accepts. apply fields_accepts; [done|done|by intros t Hin; apply Ht|done]. }
  destruct Hv as [Hn Hv]. cbn [schema t_enum]. unfold derive_enum, schema_enum. rewrite validate_with. keywords. apply Nat.eqb_eq, (filter_one (variant_name rule) _ _ _ x); [|done|done|].
  - erewrite list_fmap_ext; [exact Hnd|]. intros i y Hy. apply variant_name_agrees, Hreg. by eapply list_elem_of_lookup_2.
  - intros y Hy. by apply variant_schema_name.
Qed.

Lemma items_accepts t vs : accepts t → Forall (written t) vs → forallb (validate (schema t)) vs = true.
Proof. intros Ht Hvs. apply forallb_elem. intros v Hv. apply Ht. by eapply Forall_forall in Hvs. Qed.

Lemma type_accepts t : message_type t → accepts t.
Proof.
  induction 1 as [| | | | |t _ IH|t _ IH|t _ IH|t n _ IH|t _ IH|ts _ IH|title d rule fields Hne Hreg _ IH|title d rule variants Hreg Hnd _ IH].
  - by intros v [b ->]%writes_bool.
  - by intros v [z ->]%writes_integer.
  - by intros v [[->|[b ->]]%writes_float Hn].
  - by intros v [x ->]%writes_string.
  - by intros v ->%writes_unit.
  - intros v Hj%writes_option. cbn [schema t_option]. unfold schema_option. rewrite validate_obj. cbn [forallb]. rewrite kw_any, andb_true_r. cbn [existsb].
    apply orb_true_iff. destruct Hj as [->|Hj]; [by right|left; by apply IH].
  - intros v Hj%writes_pointer. by apply IH.
  - intros v (vs & -> & Hj)%writes_seq. cbn [schema t_vec]. unfold schema_vec. keywords. by rewrite items_accepts.
  - intros v (vs & -> & Hl & Hj)%writes_array. cbn [schema t_array]. unfold schema_array. keywords. rewrite items_accepts, Hl by done. rewrite !bool_decide_eq_true_2 by lia. done.
  - intros v (us & -> & Hj)%writes_map. cbn [schema t_map]. unfold schema_map. keywords. cbn [has_type]. apply forallb_elem. intros nu Hnu. cbn.
    apply IH. by eapply Forall_forall in Hj.
  - intros v (vs & -> & Hj)%writes_tuple. rewrite Forall2_fmap_l in Hj. cbn [schema t_tuple]. unfold schema_of_tuple. keywords. destruct (prefix_accepts ts vs IH Hj) as [Hp Hl]. rewrite length_fmap, Hl, Hp.
    rewrite !bool_decide_eq_true_2 by lia. done.
  - intros v Hj. by apply fields_accepts.
  - by apply enum_accepts.
Qed.

End types.


(** ** Examples *)

(** A [serde] with the laws. *)
Definition struct_writes (rule : option string) (fields : Fields) (v : Json) : Prop :=
  match fields with
  | FUnit => v = JNull
  | FUnnamed [t] => written t v
  | FUnnamed ts => ∃ vs, v = JArr vs ∧ Forall2 written ts vs
  | FNamed l => ∃ vs us, v = JObj us ∧ us ≡ₚ zip ((λ f, default (apply_rename_all (f_ident f) rule) (f_rename f)) <$> l) vs ∧ Forall2 (λ f u, written (f_type f) u) l vs
  end.

Definition shape_writes (s : Shape) (v : Json) : Prop :=
  match s with
  | SBool => ∃ b, v = JBool b
  | SInteger => ∃ z, v = JInt z
  | SFloat => v = JNull ∨ ∃ b, v = JFloat b
  | SString => ∃ s, v = JStr s
  | SUnit => v = JNull
  | SOption P => v = JNull ∨ P v
  | SPointer P => P v
  | SSeq P => ∃ vs, v = JArr vs ∧ Forall P vs
  | SArray P n => ∃ vs, v = JArr vs ∧ length vs = n ∧ Forall P vs
  | SMap P => ∃ us, v = JObj us ∧ Forall (λ nu, P nu.2) us
  | STuple Ps => ∃ vs, v = JArr vs ∧ Forall2 (λ (P : Json → Prop) v, P v) Ps vs
  | SStruct rule fields => struct_writes rule fields v
  | SEnum rule xs => ∃ x, x ∈ xs ∧ let name := default (apply_rename_all (v_ident x) rule) (v_rename x) in
      match v_fields x with FUnit => v = JStr name | fields => ∃ u, v = JObj [(name, u)] ∧ struct_writes None fields u end
  end.

#[export] Program Instance serde_example : Serde :=
  {| writes := shape_writes; field_key rule s := apply_rename_all s rule; variant_key rule s := apply_rename_all s rule |}.
Next Obligation. intros rule ws n Hws Hn. apply rename_convention. by rewrite split_snake. Qed.
Next Obligation. intros rule ws n Hws Hn. apply rename_convention. by rewrite split_pascal. Qed.
Solve Obligations with (cbn; eauto).
Next Obligation. intros rule [|t [|t' ts]] v Hl Hw; [done|done|exact Hw]. Qed.

(** The types of the tests of [schema.rs]. *)
Definition request : MessageType :=
  t_struct "Request" None None
    (FNamed [mkField "text" None false (Some "said to the user") t_string; mkField "optional" None false None (t_option t_integer); mkField "limit" (Some "page_size") true None t_integer]).
Definition command : MessageType :=
  t_enum "Command" None (Some "snake_case") [mkVariant "StartJob" None (FNamed [mkField "request" None false None request]); mkVariant "Stop" None FUnit].

Definition start_job : Json := JObj [("start_job", JObj [("request", JObj [("text", JStr "hello"); ("optional", JNull); ("page_size", JInt 20)])])].

Lemma regular_word rule f w : known rule → f_ident f = w → word w → regular rule f.
Proof. intros Hk <- Hw. right. split; [done|]. exists [f_ident f]. split; [done|by constructor]. Qed.

Lemma request_regular : regular_fields None (FNamed [mkField "text" None false (Some "said to the user") t_string; mkField "optional" None false None (t_option t_integer); mkField "limit" (Some "page_size") true None t_integer]).
Proof.
  split; [|apply (bool_decide_unpack _); vm_compute; exact I]. intros f Hf. rewrite !elem_of_cons in Hf.
  destruct Hf as [->|[->|[->|?]]]; [by eapply regular_word|by eapply regular_word|left; by eexists|set_solver].
Qed.

Lemma request_type : message_type request.
Proof.
  apply ty_struct; [done|apply request_regular|]. cbn [field_types]. intros t Ht. rewrite !fmap_cons, !elem_of_cons in Ht.
  destruct Ht as [->|[->|[->|?]]]; [apply ty_string|apply ty_option, ty_integer|apply ty_integer|set_solver].
Qed.

Lemma command_type : message_type command.
Proof.
  apply ty_enum.
  - intros x Hx. rewrite !elem_of_cons in Hx. destruct Hx as [->|[->|?]]; [split|split; [|done]|set_solver].
    + right. split; [by eexists|]. exists ["Start"; "Job"]. split; [done|]. repeat (constructor; [by do 2 eexists|]). constructor.
    + split; [|apply NoDup_singleton]. cbn. intros f ->%list_elem_of_singleton. by eapply regular_word.
    + right. split; [by eexists|]. exists ["Stop"]. split; [done|]. constructor; [by do 2 eexists|constructor].
  - apply (bool_decide_unpack _). vm_compute. exact I.
  - intros x t Hx Ht. rewrite !elem_of_cons in Hx. destruct Hx as [->|[->|?]]; [|set_solver|set_solver]. cbn in Ht. apply list_elem_of_singleton in Ht as ->. apply request_type.
Qed.

Lemma start_job_written : written command start_job.
Proof.
  set (r := JObj [("text", JStr "hello"); ("optional", JNull); ("page_size", JInt 20)]). eexists. split; [by left|]. cbn zeta. cbn [v_fields]. exists (JObj [("request", r)]).
  split; [vm_compute; reflexivity|]. exists [r], [("request", r)]. split; [done|]. split; [done|].
  constructor; [|constructor]. exists [JStr "hello"; JNull; JInt 20], [("text", JStr "hello"); ("optional", JNull); ("page_size", JInt 20)]. split; [done|]. split; [done|].
  constructor; [by eexists|]. constructor; [by left|]. constructor; [by eexists|constructor].
Qed.


(** ** Where the schemas and [serde] differ *)

(** No value of a unit struct is accepted: it is written as [null]. *)
Theorem unit_struct_rejected {Sd : Serde} title d rule v : written (t_struct title d rule FUnit) v → validate (schema (t_struct title d rule FUnit)) v = false.
Proof. intros ->%writes_unit_struct. cbn [schema t_struct]. unfold derive_struct, schema_for_fields, schema_tuple. rewrite validate_with. done. Qed.

(** A raw identifier keeps its prefix in the schema. *)
Theorem raw_field_rejected {Sd : Serde} : let s := schema (t_struct "Item" None None (FNamed [mkField "r#type" None false None t_string])) in
  validate s (JObj [("type", JStr "book")]) = false ∧ validate s (JObj [("r#type", JStr "book")]) = true.
Proof. vm_compute. done. Qed.

(** An underscore at the front is lost when [rename_all] says [snake_case]. *)
Theorem underscore_field_rejected {Sd : Serde} : let s := schema (t_struct "Item" None (Some "snake_case") (FNamed [mkField "_id" None false None t_integer])) in
  validate s (JObj [("_id", JInt 7)]) = false ∧ validate s (JObj [("id", JInt 7)]) = true.
Proof. vm_compute. done. Qed.

End Schema.
