(* ===== verification/Macros.v ===== *)
(** * The macros [service] and [exclusive]

    [rskynet-macros/src/expand.rs]: from an [impl] block with hooks and handlers the macro
    makes an [impl Service], whose [dispatch] sends a message to the handler of its type.
    An [impl] block is what the macro looks at of it: attributes, names, signatures and the
    shape of the expressions for message types; bodies are numbers.  Tokens are compared as
    the macro compares them, by their text, which here is equality.  What is generated is
    data too, and [run] says what a generated [dispatch] does, for any meaning of the
    expressions and any conversion of payloads. *)
From S2P Require Import Prelude Message Plugin.
From Stdlib Require Import Ascii String.
From stdpp Require Import strings.
#[local] Open Scope string_scope.

Module Macros.

(** ** Syntax *)

(** The segments of a path. *)
Definition Path : Type := list string.

(** The arguments of a call: an integer literal with its value as a [u8], or another. *)
Inductive CallArg : Type := AInt (tokens : string) (value : option Z) | AElse (tokens : string).

Inductive Expr : Type :=
  | EPath (p : Path)
  | ECall (func : Path) (args : list CallArg)
  | EElse (tokens : string).

#[global] Instance CallArg_eq_dec : EqDecision CallArg.
Proof. solve_decision. Defined.

#[global] Instance Expr_eq_dec : EqDecision Expr.
Proof. solve_decision. Defined.

(** A type: a path with the arguments of its last segment, [()], or another. *)
Inductive Ty : Type := TPath (p : Path) (args : option string) | TUnit | TElse (tokens : string).

#[global] Instance Ty_eq_dec : EqDecision Ty.
Proof. solve_decision. Defined.

Inductive FnArg : Type := Receiver (reference mutability : bool) | Typed (ty : Ty).

(** [output] is [None] when nothing is written. *)
Record Signature : Type := mkSig { ident : string; asyncness : bool; inputs : list FnArg; output : option Ty }.

Inductive MsgTok : Type := MVariant (p : Path) | MType (e : Expr).
Inductive DebugTok : Type := DName (s : string) | DElse.
Inductive DebugMeta : Type := DPath | DList (l : list DebugTok) | DNameValue.

(** An attribute; [AMsg None] has no parentheses. *)
Inductive Attr : Type := AMsg (args : option (list MsgTok)) | ADebug (m : DebugMeta) | AOther (tokens : string).

Record ImplFn : Type := mkFn { attrs : list Attr; sig : Signature; block : Z }.
Inductive ImplItem : Type := IFn (f : ImplFn) | IOther (tokens : string).
Record ItemImpl : Type := mkImpl { trait_ : bool; generics : bool; items : list ImplItem }.

Inductive ArgTok : Type := TCrate (p : Path) | TName (s : string) | TFactory (p : Path) | TUnknown.

(** The messages of the errors. *)
Inductive Fault : Type :=
  | ArgUnknown | NameTwice | FactoryTwice | FactoryWithoutName | GenericService | TraitImpl
  | HookWithMsg | DebugWithoutMsg | DispatchAndMsg | HookTwice
  | DebugTwice | DebugNameTwice | DebugNameEmpty | DebugUnknown | DebugValue
  | SharedIdle | MsgSyntax | VariantTwice | NoTypes | DefaultVariant | ShortVariant
  | HandlerNotAsync | HandlerArgs | WholeReply | WholeDebug | DefaultDebug | ForbiddenDebug | WholeVariant
  | HookNotAsync | HookAsync | HookArgs | BadReceiver | NoReceiver
  | MixedEnvelopes | SameVariant | MixedHandlers | TwoDefaults | Unreachable.

#[local] Notation "'let?' x := e 'in' k" := (match e with inl x => k | inr f => inr f end) (at level 10, x pattern, e at level 100, k at level 200).

(** ** Arguments of the attribute *)

Record Args : Type := mkArgs { krate : Path; name : option string; factory : option Path }.

Fixpoint parse_args (l : list ArgTok) (a : Args) : Args + Fault :=
  match l with
  | [] => inl a
  | TCrate p :: l => parse_args l (mkArgs p (name a) (factory a))
  | TName s :: l => match name a with Some _ => inr NameTwice | None => parse_args l (mkArgs (krate a) (Some s) (factory a)) end
  | TFactory p :: l => match factory a with Some _ => inr FactoryTwice | None => parse_args l (mkArgs (krate a) (name a) (Some p)) end
  | TUnknown :: _ => inr ArgUnknown
  end.

Definition args_default : Args := mkArgs ["rskynet"] None None.

(** ** Signatures *)

Fixpoint typed_loop (l : list FnArg) (seen : bool) (args : list Ty) : list Ty + Fault :=
  match l with
  | [] => if seen then inl args else inr NoReceiver
  | Receiver reference mutability :: l => if negb reference || mutability then inr BadReceiver else typed_loop l true args
  | Typed ty :: l => typed_loop l seen (args ++ [ty])
  end.

Definition typed_args (s : Signature) : list Ty + Fault := typed_loop (inputs s) false [].

Definition is_message (ty : Ty) : bool := match ty with TPath p None => bool_decide (last p = Some "Message") | _ => false end.

Definition returns_unit (output : option Ty) : bool := match output with None | Some TUnit => true | _ => false end.
Definition return_type (output : option Ty) : option Ty := if returns_unit output then None else output.

(** A generated method: its receiver is [self: Arc<Self>] or [&self]; an argument keeps its
    pattern or is [_]. *)
Inductive GenArg : Type := GArg (ty : Ty) | GPad (ty : Ty).
Record GenFn : Type := mkGen { g_name : string; g_arc : bool; g_inputs : list GenArg; g_output : option Ty; g_block : Z }.

Definition rebuild_inputs (s : Signature) (pads : list Ty) : list GenArg + Fault :=
  let? args := typed_args s in
  if decide (length pads < length args)%nat then inr HookArgs else inl ((GArg <$> args) ++ (GPad <$> drop (length args) pads))%list.

Definition async_hook (f : ImplFn) (pads : list Ty) (default_output : Ty) : GenFn + Fault :=
  if negb (asyncness (sig f)) then inr HookNotAsync else
  let? ins := rebuild_inputs (sig f) pads in
  inl (mkGen (ident (sig f)) true ins (Some (default default_output (output (sig f)))) (block f)).

Definition sync_hook (f : ImplFn) (pads : list Ty) : GenFn + Fault :=
  if asyncness (sig f) then inr HookAsync else
  let? ins := rebuild_inputs (sig f) pads in
  inl (mkGen (ident (sig f)) false ins (output (sig f)) (block f)).

(** ** Hooks and routes *)

Inductive Flavor : Type := Shared | Exclusive.
Inductive Hook : Type := Init | Dispatch | Idle | Interrupt.

#[global] Instance Flavor_eq_dec : EqDecision Flavor.
Proof. solve_decision. Defined.

#[global] Instance Hook_eq_dec : EqDecision Hook.
Proof. solve_decision. Defined.

Definition hook_of (name : string) (flavor : Flavor) : option Hook + Fault :=
  if decide (name = "init") then inl (Some Init)
  else if decide (name = "dispatch") then inl (Some Dispatch)
  else if decide (name = "idle") then (if decide (flavor = Shared) then inr SharedIdle else inl (Some Idle))
  else if decide (name = "interrupt") then (if decide (flavor = Shared) then inr SharedIdle else inl (Some Interrupt))
  else inl None.

Record VariantRoute : Type := mkVariant { path : Path; envelope : Path }.
Inductive Route : Type := Types (types : list Expr) (variant : option VariantRoute) | Fallback.

Fixpoint parse_msg (l : list MsgTok) (types : list Expr) (variant : option Path) : list Expr * option Path + Fault :=
  match l with
  | [] => inl (types, variant)
  | MVariant p :: l => match variant with Some _ => inr VariantTwice | None => parse_msg l types (Some p) end
  | MType e :: l => parse_msg l (types ++ [e]) variant
  end.

(** Takes the first attribute that [f] picks. *)
Fixpoint take_attr {A} (f : Attr → option A) (l : list Attr) : option (A * list Attr) :=
  match l with
  | [] => None
  | a :: l =>
      match f a with
      | Some x => Some (x, l)
      | None => '(x, l) ← take_attr f l; Some (x, a :: l)
      end
  end.

Definition msg_attr (a : Attr) := match a with AMsg l => Some l | _ => None end.
Definition debug_attr (a : Attr) := match a with ADebug m => Some m | _ => None end.

Definition variant_route (p : Path) : VariantRoute + Fault := if decide (length p < 2)%nat then inr ShortVariant else inl (mkVariant p (removelast p)).

Definition take_route (f : ImplFn) : ImplFn * option Route + Fault :=
  match take_attr msg_attr (attrs f) with
  | None => inl (f, None)
  | Some (None, _) => inr MsgSyntax
  | Some (Some l, rest) =>
      let f := mkFn rest (sig f) (block f) in
      let? (types, variant) := parse_msg l [] None in
      if decide (types = []) then inr NoTypes else
      let is_default := bool_decide (types = [EPath ["default"]]) in
      match variant with
      | None => inl (f, Some (if is_default then Fallback else Types types None))
      | Some p => if is_default then inr DefaultVariant else let? v := variant_route p in inl (f, Some (Types types (Some v)))
      end
  end.

Fixpoint debug_names (l : list DebugTok) (name : option string) : option string + Fault :=
  match l with
  | [] => inl name
  | DName s :: l =>
      match name with
      | Some _ => inr DebugNameTwice
      | None => if Plugin.validate_identifier s then debug_names l (Some s) else inr DebugNameEmpty
      end
  | DElse :: _ => inr DebugUnknown
  end.

(** [Some] name, which may be missing, when there is a [debug]. *)
Definition take_debug (f : ImplFn) : ImplFn * option (option string) + Fault :=
  if decide (1 < length (omap debug_attr (attrs f)))%nat then inr DebugTwice else
  match take_attr debug_attr (attrs f) with
  | None => inl (f, None)
  | Some (m, rest) =>
      let f := mkFn rest (sig f) (block f) in
      match m with
      | DPath => inl (f, Some None)
      | DList l => let? name := debug_names l None in inl (f, Some name)
      | DNameValue => inr DebugValue
      end
  end.

(** ** Handlers *)

Inductive Arg : Type := Whole | Value (ty : Ty).

Record Handler : Type := mkHandler {
  h_name : string;
  h_route : Route;
  takes_ctx : bool;
  h_arg : option Arg;
  response : option Ty;
  debug_name : option string;
}.

Definition forbidden_debug_type (e : Expr) : bool :=
  match e with
  | EPath p => bool_decide (last p = Some "RESPONSE" ∨ last p = Some "ERROR")
  | ECall func [AInt _ (Some z)] => bool_decide (last func = Some "MsgType") && bool_decide (z = 1 ∨ z = 6)%Z
  | _ => false
  end.

Definition is_whole (arg : option Arg) : bool := match arg with Some Whole => true | _ => false end.

(** [Handler::parse]; the caller keeps the method. *)
Definition parse_handler (f : ImplFn) (route : Route) (debug : option (option string)) : Handler + Fault :=
  if negb (asyncness (sig f)) then inr HandlerNotAsync else
  let? args := typed_args (sig f) in
  if decide (2 < length args)%nat then inr HandlerArgs else
  let arg := (λ ty, if is_message ty then Whole else Value ty) <$> args !! 1%nat in
  let takes_ctx := negb (bool_decide (args = [])) in
  let response := return_type (output (sig f)) in
  if bool_decide (is_Some response) && is_whole arg then inr WholeReply else
  if bool_decide (is_Some debug) && is_whole arg then inr WholeDebug else
  if bool_decide (is_Some debug) && (match route with Fallback => true | _ => false end) then inr DefaultDebug else
  if bool_decide (is_Some debug) && (match route with Types types _ => existsb forbidden_debug_type types | _ => false end) then inr ForbiddenDebug else
  if (match route with Types _ (Some _) => true | _ => false end) && is_whole arg then inr WholeVariant else
  inl (mkHandler (ident (sig f)) route takes_ctx arg response (default (ident (sig f)) <$> debug)).

(** ** The generated [dispatch] *)

(** What [body] makes of a handler, and [variant_body]; [replies] is whether the value the
    handler returns is sent back. *)
Inductive Body : Type :=
  | BPlain (handler : string) (ctx replies : bool)
  | BWhole (handler : string) (ctx : bool)
  | BTyped (handler : string) (ctx : bool) (ty : Ty) (replies : bool).

Record Case : Type := mkCase { c_path : Path; c_handler : string; c_ctx : bool; c_value : bool; c_replies : bool }.

Inductive Arm : Type :=
  | APlain (tests : list Expr) (body : Body)
  | AVariant (test : Expr) (env : Path) (cases : list Case).

Record Routed : Type := mkRouted { arms : list Arm; fallback : option Body }.

Definition replies (h : Handler) : bool := bool_decide (is_Some (response h)).

Definition body (h : Handler) : Body :=
  match h_arg h with
  | None => BPlain (h_name h) (takes_ctx h) (replies h)
  | Some Whole => BWhole (h_name h) (takes_ctx h)
  | Some (Value ty) => BTyped (h_name h) (takes_ctx h) ty (replies h)
  end.

(** A case of the match over the variants; a handler of a variant does not take the whole
    message. *)
Definition variant_case (h : Handler) : Case + Fault :=
  match h_route h, h_arg h with
  | Types _ (Some v), None => inl (mkCase (path v) (h_name h) (takes_ctx h) false (replies h))
  | Types _ (Some v), Some (Value _) => inl (mkCase (path v) (h_name h) (takes_ctx h) true (replies h))
  | _, _ => inr Unreachable
  end.

Record VariantGroup : Type := mkGroup { g_envelope : Path; g_handlers : list Handler }.
Definition Groups : Type := list (Expr * VariantGroup).

Definition group_of (key : Expr) (l : Groups) : option VariantGroup := snd <$> List.find (λ kg, bool_decide (kg.1 = key)) l.

Fixpoint put_group (key : Expr) (g : VariantGroup) (l : Groups) : Groups :=
  match l with
  | [] => [(key, g)]
  | (k, g') :: l => if decide (k = key) then (k, g) :: l else (k, g') :: put_group key g l
  end.

Definition variant_path (h : Handler) : option Path := match h_route h with Types _ (Some v) => Some (path v) | _ => None end.

(** One type of a handler of a variant. *)
Definition claim_variant (key : Expr) (v : VariantRoute) (h : Handler) (l : Groups) : Groups + Fault :=
  let g := default (mkGroup (envelope v) []) (group_of key l) in
  if decide (g_envelope g ≠ envelope v) then inr MixedEnvelopes else
  if existsb (λ e, bool_decide (variant_path e = Some (path v))) (g_handlers g) then inr SameVariant else
  inl (put_group key (mkGroup (g_envelope g) (g_handlers g ++ [h])) l).

Fixpoint claim_types (types : list Expr) (variant : option VariantRoute) (h : Handler) (st : Groups * list Expr) : Groups * list Expr + Fault :=
  match types with
  | [] => inl st
  | e :: types =>
      match variant with
      | None => claim_types types variant h (st.1, st.2 ++ [e])%list
      | Some v => let? l := claim_variant e v h st.1 in claim_types types variant h (l, st.2)
      end
  end.

Fixpoint claim_handlers (hs : list Handler) (st : Groups * list Expr) : Groups * list Expr + Fault :=
  match hs with
  | [] => inl st
  | h :: hs =>
      match h_route h with
      | Fallback => claim_handlers hs st
      | Types types variant => let? st := claim_types types variant h st in claim_handlers hs st
      end
  end.

Fixpoint all_cases (hs : list Handler) : list Case + Fault :=
  match hs with [] => inl [] | h :: hs => let? c := variant_case h in let? cs := all_cases hs in inl (c :: cs) end.

(** The arms of the types of a handler of a variant, with the groups that have theirs. *)
Fixpoint variant_arms (types : list Expr) (groups : Groups) (emitted : list Expr) (out : list Arm) : list Expr * list Arm + Fault :=
  match types with
  | [] => inl (emitted, out)
  | e :: types =>
      if decide (e ∈ emitted) then variant_arms types groups emitted out else
      match group_of e groups with
      | None => inr Unreachable
      | Some g => let? cs := all_cases (g_handlers g) in variant_arms types groups (emitted ++ [e]) (out ++ [AVariant e (g_envelope g) cs])
      end
  end.

Fixpoint make_arms (hs : list Handler) (groups : Groups) (emitted : list Expr) (out : list Arm) (fb : option Body) : Routed + Fault :=
  match hs with
  | [] => inl (mkRouted out fb)
  | h :: hs =>
      match h_route h with
      | Types types None => make_arms hs groups emitted (out ++ [APlain types (body h)]) fb
      | Types types (Some _) => let? (emitted, out) := variant_arms types groups emitted out in make_arms hs groups emitted out fb
      | Fallback => match fb with Some _ => inr TwoDefaults | None => make_arms hs groups emitted out (Some (body h)) end
      end
  end.

Definition routed_dispatch (hs : list Handler) : Routed + Fault :=
  let? (groups, plain) := claim_handlers hs ([], []) in
  if existsb (λ e, bool_decide (is_Some (group_of e groups))) plain then inr MixedHandlers else
  make_arms hs groups [] [] None.

(** ** Descriptions for the dashboard *)

(** [decoder] is the constructor that the generated decoder applies, and what it decodes. *)
Record Descriptor : Type := mkDescriptor { d_name : string; d_mtype : Expr; d_request : Ty; d_response : option Ty; d_decoder : option (Path * Ty) }.

Definition handler_debug (h : Handler) : list Descriptor + Fault :=
  match debug_name h with
  | None => inl []
  | Some n =>
      match h_arg h, h_route h with
      | Some Whole, _ | _, Fallback => inr Unreachable
      | arg, Types types variant =>
          let request := match arg with Some (Value ty) => ty | _ => TUnit end in
          inl ((λ e, mkDescriptor n e request (response h) ((λ v, (path v, request)) <$> variant)) <$> types)
      end
  end.

Fixpoint debug_messages (hs : list Handler) : list Descriptor + Fault :=
  match hs with [] => inl [] | h :: hs => let? d := handler_debug h in let? ds := debug_messages hs in inl (d ++ ds)%list end.

(** ** The expansion *)

Record Sorted : Type := mkSorted { hooks : list (Hook * ImplFn); handlers : list Handler; leftovers : list ImplItem }.

(** The loop over the items of the block. *)
Fixpoint sort_items (flavor : Flavor) (l : list ImplItem) (s : Sorted) : Sorted + Fault :=
  match l with
  | [] => inl s
  | IOther t :: l => sort_items flavor l (mkSorted (hooks s) (handlers s) (leftovers s ++ [IOther t]))
  | IFn f :: l =>
      let? (f, debug) := take_debug f in
      let? (f, route) := take_route f in
      let? hook := hook_of (ident (sig f)) flavor in
      match hook, route, debug with
      | Some _, Some _, _ => inr HookWithMsg
      | Some _, None, Some _ => inr DebugWithoutMsg
      | Some k, None, None => sort_items flavor l (mkSorted (hooks s ++ [(k, f)]) (handlers s) (leftovers s))
      | None, Some route, debug =>
          let? h := parse_handler f route debug in sort_items flavor l (mkSorted (hooks s) (handlers s ++ [h]) (leftovers s ++ [IFn f]))
      | None, None, Some _ => inr DebugWithoutMsg
      | None, None, None => sort_items flavor l (mkSorted (hooks s) (handlers s) (leftovers s ++ [IFn f]))
      end
  end.

Record Hooks : Type := mkHooks { g_init : option GenFn; g_dispatch : option GenFn; g_idle : option GenFn; g_interrupt : option GenFn }.

Definition hooks_none : Hooks := mkHooks None None None None.

Definition generated (k : Hook) (g : Hooks) : option GenFn :=
  match k with Init => g_init g | Dispatch => g_dispatch g | Idle => g_idle g | Interrupt => g_interrupt g end.

Definition set_generated (k : Hook) (x : GenFn) (g : Hooks) : Hooks :=
  match k with
  | Init => mkHooks (Some x) (g_dispatch g) (g_idle g) (g_interrupt g)
  | Dispatch => mkHooks (g_init g) (Some x) (g_idle g) (g_interrupt g)
  | Idle => mkHooks (g_init g) (g_dispatch g) (Some x) (g_interrupt g)
  | Interrupt => mkHooks (g_init g) (g_dispatch g) (g_idle g) (Some x)
  end.

(** A type of the crate that the generated code refers to. *)
Definition in_crate (krate : Path) (n : string) : Ty := TPath (krate ++ [n])%list None.

Definition generate (krate : Path) (k : Hook) (f : ImplFn) : GenFn + Fault :=
  match k with
  | Init => async_hook f [in_crate krate "Ctx"; TPath ["std"; "string"; "String"] None] (TPath (krate ++ ["Result"])%list (Some "<()>"))
  | Dispatch => async_hook f [in_crate krate "Ctx"; in_crate krate "Message"] TUnit
  | Idle => sync_hook f [TElse "&Ctx"; TElse "&Idler"]
  | Interrupt => sync_hook f []
  end.

Fixpoint make_hooks (krate : Path) (l : list (Hook * ImplFn)) (g : Hooks) : Hooks + Fault :=
  match l with
  | [] => inl g
  | (k, f) :: l =>
      match generated k g with
      | Some _ => inr HookTwice
      | None => let? x := generate krate k f in make_hooks krate l (set_generated k x g)
      end
  end.

(** [AutoService]: its name, whether it is exclusive, and its constructor if not the default. *)
Record Registration : Type := mkRegistration { r_name : string; r_exclusive : bool; r_factory : option Path }.

Record Expansion : Type := mkExpansion {
  inherent : list ImplItem;
  x_init : option GenFn;
  x_dispatch : GenFn + Routed;
  x_debug : list Descriptor;
  x_exclusive : option (option GenFn * option GenFn);
  x_registration : option Registration;
}.

Definition try_expand (attr : list ArgTok) (b : ItemImpl) (flavor : Flavor) : Expansion + Fault :=
  let? a := parse_args attr args_default in
  if bool_decide (is_Some (factory a)) && bool_decide (name a = None) then inr FactoryWithoutName else
  if bool_decide (is_Some (name a)) && generics b then inr GenericService else
  if trait_ b then inr TraitImpl else
  let? s := sort_items flavor (items b) (mkSorted [] [] []) in
  if existsb (λ kf, bool_decide (kf.1 = Dispatch)) (hooks s) && negb (match handlers s with [] => true | _ => false end) then inr DispatchAndMsg else
  let? g := make_hooks (krate a) (hooks s) hooks_none in
  let? d := match g_dispatch g with Some f => inl (inl f) | None => let? r := routed_dispatch (handlers s) in inl (inr r) end in
  let? debug := debug_messages (handlers s) in
  inl (mkExpansion (leftovers s) (g_init g) d debug
         (if decide (flavor = Exclusive) then Some (g_idle g, g_interrupt g) else None)
         ((λ n, mkRegistration n (bool_decide (flavor = Exclusive)) (factory a)) <$> name a)).

(** ** What a generated [dispatch] does *)

Section run.
  (** The meaning of expressions of message types, the conversion of a payload to a type,
      the decoding of an enum to the name of the variant and its content, and what a handler
      returns. *)
  Context {V : Type} (meaning : Expr → MsgType.t) (from_payload : Ty → Payload → option V) (decode : Path → Payload → option (string * V)) (result : string → option V → Payload).

Inductive Effect : Type :=
  | Call (handler : string) (arg : option V)
  | CallWhole (handler : string) (m : Message)
  | Reply (m : Message) (p : Payload)
  | ReplyError (m : Message).

(** A message that nobody can take. *)
Definition refuse (m : Message) : list Effect := if needs_reply m then [ReplyError m] else [].

Definition finish (h : string) (arg : option V) (replies : bool) (m : Message) : list Effect :=
  Call h arg :: (if replies && needs_reply m then [Reply m (result h arg)] else []).

Definition run_body (b : Body) (m : Message) : list Effect :=
  match b with
  | BPlain h _ replies => finish h None replies m
  | BWhole h _ => [CallWhole h m]
  | BTyped h _ ty replies =>
      match from_payload ty (payload m) with Some v => finish h (Some v) replies m | None => refuse m end
  end.

Definition run_case (c : Case) (v : V) (m : Message) : list Effect :=
  let arg := if c_value c then Some v else None in
  if c_replies c then finish (c_handler c) arg true m
  else if needs_reply m then [ReplyError m] else [Call (c_handler c) arg].

Definition run_arm (a : Arm) (m : Message) : option (list Effect) :=
  match a with
  | APlain tests b => if existsb (λ e, bool_decide (meaning e = mtype m)) tests then Some (run_body b m) else None
  | AVariant test env cases =>
      if decide (meaning test = mtype m) then
        Some (match decode env (payload m) with
              | None => refuse m
              | Some (n, v) => match List.find (λ c, bool_decide (last (c_path c) = Some n)) cases with Some c => run_case c v m | None => refuse m end
              end)
      else None
  end.

Fixpoint run_arms (l : list Arm) (m : Message) : option (list Effect) :=
  match l with [] => None | a :: l => match run_arm a m with Some r => Some r | None => run_arms l m end end.

Definition run (r : Routed) (m : Message) : list Effect :=
  match run_arms (arms r) m with Some e => e | None => match fallback r with Some b => run_body b m | None => refuse m end end.

(** ** Routing by the handlers themselves *)

Definition lists (e : Expr) (h : Handler) : bool := match h_route h with Types types _ => bool_decide (e ∈ types) | Fallback => false end.

(** The handler is for a message of this type, as it stands in the source. *)
Definition claims (t : MsgType.t) (h : Handler) : bool :=
  match h_route h with Types types _ => existsb (λ e, bool_decide (meaning e = t)) types | Fallback => false end.

Definition is_fallback (h : Handler) : bool := match h_route h with Fallback => true | _ => false end.

Definition takes_variant (n : string) (h : Handler) : bool := match variant_path h with Some p => bool_decide (last p = Some n) | None => false end.

(** The handler of a variant is called with its content. *)
Definition run_variant (h : Handler) (v : V) (m : Message) : list Effect :=
  let arg := match h_arg h with None => None | Some _ => Some v end in
  if replies h then finish (h_name h) arg true m else if needs_reply m then [ReplyError m] else [Call (h_name h) arg].

(** What the attributes say: the first handler of the type takes the message; if it is that
    of a variant, the handler of the type and the variant does. *)
Definition route_message (hs : list Handler) (m : Message) : list Effect :=
  match List.find (claims (mtype m)) hs with
  | Some h =>
      match h_route h with
      | Types _ (Some v) =>
          match decode (envelope v) (payload m) with
          | None => refuse m
          | Some (n, x) =>
              match List.find (λ h, claims (mtype m) h && takes_variant n h) hs with Some h => run_variant h x m | None => refuse m end
          end
      | _ => run_body (body h) m
      end
  | None => match List.find is_fallback hs with Some h => run_body (body h) m | None => refuse m end
  end.
End run.

(** *** The groups of variants *)

Lemma group_of_put key g l k : group_of k (put_group key g l) = if decide (k = key) then Some g else group_of k l.
Proof.
  unfold group_of. induction l as [|[k' g'] l IH]; cbn [put_group List.find fst].
  - destruct (decide (k = key)) as [->|]; [by rewrite bool_decide_eq_true_2|by rewrite bool_decide_eq_false_2].
  - destruct (decide (k' = key)) as [->|Hk]; cbn [List.find fst].
    + destruct (decide (k = key)) as [->|]; [by rewrite bool_decide_eq_true_2|by rewrite !bool_decide_eq_false_2].
    + destruct (bool_decide_reflect (k' = k)) as [->|]; [by rewrite decide_False|done].
Qed.

(** The pairs of a type and a handler of a variant, in the order of the source. *)
Definition pairs_of (h : Handler) : list (Expr * Handler) := match h_route h with Types types (Some _) => (λ e, (e, h)) <$> types | _ => [] end.

Definition of_key (key : Expr) (l : list (Expr * Handler)) : list Handler := omap (λ p : Expr * Handler, if decide (p.1 = key) then Some p.2 else None) l.

Definition in_envelope (env : Path) (h : Handler) : Prop := match h_route h with Types _ (Some v) => envelope v = env | _ => False end.

Definition grouped (groups : Groups) (l : list (Expr * Handler)) : Prop :=
  ∀ key, match group_of key groups with
         | None => of_key key l = []
         | Some g => g_handlers g = of_key key l ∧ g_handlers g ≠ [] ∧ Forall (in_envelope (g_envelope g)) (g_handlers g)
         end.

Lemma of_key_app key l l' : of_key key (l ++ l') = (of_key key l ++ of_key key l')%list.
Proof. unfold of_key. apply omap_app. Qed.

Lemma claim_variant_grouped types key v h groups groups' l : h_route h = Types types (Some v) → grouped groups l →
  claim_variant key v h groups = inl groups' → grouped groups' (l ++ [(key, h)]).
Proof.
  intros Hr Hg. unfold claim_variant. set (g := default _ _). case_decide as He; [done|]. destruct (existsb _ _); [done|]. intros [= <-] k.
  rewrite group_of_put, of_key_app. cbn. pose proof (Hg k) as Hk. destruct (decide (k = key)) as [->|Hne].
  - rewrite decide_True by done. cbn. assert (Hh : g_handlers g = of_key key l ∧ Forall (in_envelope (g_envelope g)) (g_handlers g)).
    { unfold g. destruct (group_of key groups); cbn in *; [by destruct Hk as (? & _ & ?)|by rewrite Hk]. }
    destruct Hh as [Hh Hf]. split; [by rewrite Hh|]. split; [by destruct (g_handlers g)|]. apply Forall_app. split; [done|]. constructor; [|done].
    unfold in_envelope. by rewrite Hr.
  - rewrite decide_False by done. cbn. by rewrite app_nil_r.
Qed.

Lemma claim_types_grouped all types variant h st st' l : h_route h = Types all variant → grouped st.1 l → claim_types types variant h st = inl st' →
  grouped st'.1 (l ++ match variant with Some _ => (λ e, (e, h)) <$> types | None => [] end) ∧ st'.2 = (st.2 ++ match variant with None => types | Some _ => [] end)%list.
Proof.
  intros Hr. revert st l. induction types as [|e types IH]; intros st l Hg; cbn [claim_types].
  - intros [= <-]. destruct variant; cbn; by rewrite !app_nil_r.
  - destruct variant as [v|].
    + destruct (claim_variant e v h st.1) as [groups|] eqn:Ec; [|done]. intros H. eapply IH in H; [|by eapply claim_variant_grouped]. by rewrite <- app_assoc in H.
    + intros H. apply (IH (st.1, (st.2 ++ [e])%list) l) in H as [H1 H2]; [|done]. split; [done|]. rewrite H2. cbn. by rewrite <- app_assoc.
Qed.

(** The types of handlers that are not of a variant. *)
Definition plain_of (h : Handler) : list Expr := match h_route h with Types types None => types | _ => [] end.

Lemma claim_handlers_grouped hs st st' l : grouped st.1 l → claim_handlers hs st = inl st' →
  grouped st'.1 (l ++ (hs ≫= pairs_of)) ∧ st'.2 = (st.2 ++ (hs ≫= plain_of))%list.
Proof.
  revert st l. induction hs as [|h hs IH]; intros st l Hg; cbn [claim_handlers].
  - intros [= <-]. cbn. by rewrite !app_nil_r.
  - cbn [mbind list_bind]. unfold pairs_of at 1, plain_of at 1. destruct (h_route h) as [types variant|] eqn:Er; [|by apply IH].
    destruct (claim_types types variant h st) as [st1|] eqn:Ec; [|done]. intros H. destruct (claim_types_grouped _ _ _ _ _ _ l Er Hg Ec) as [H1 H2].
    apply IH with (l := (l ++ match variant with Some _ => (λ e, (e, h)) <$> types | None => [] end)%list) in H as [H3 H4]; [|done]. rewrite H4, H2, <- !app_assoc in *. by destruct variant.
Qed.

Lemma grouped_nil : grouped [] [].
Proof. by intros key. Qed.

(** *** Cases and arms *)

Section routing.
  Context {V : Type} (meaning : Expr → MsgType.t) (from_payload : Ty → Payload → option V) (decode : Path → Payload → option (string * V)) (result : string → option V → Payload).

Lemma variant_case_spec h c : variant_case h = inl c →
  variant_path h = Some (c_path c) ∧ ∀ v m, run_case result c v m = run_variant result h v m.
Proof.
  unfold variant_case, variant_path, run_case, run_variant. destruct (h_route h) as [types [v|]|]; [|done|done]. destruct (h_arg h) as [[|ty]|]; [done| |]; intros [= <-]; done.
Qed.

Lemma find_case hs cs n : all_cases hs = inl cs → ∀ v m,
  match List.find (λ c, bool_decide (last (c_path c) = Some n)) cs with Some c => run_case result c v m | None => refuse m end =
  match List.find (takes_variant n) hs with Some h => run_variant result h v m | None => refuse m end.
Proof.
  intros Hcs v m. revert cs Hcs. induction hs as [|h hs IH]; intros cs; cbn [all_cases]; [by intros [= <-]|].
  destruct (variant_case h) as [c|] eqn:Ec; [|done]. destruct (all_cases hs) as [cs'|] eqn:Ea; [|done]. intros [= <-]. destruct (variant_case_spec h c Ec) as [Hp Hr].
  cbn [List.find]. unfold takes_variant at 1. rewrite Hp. destruct (bool_decide _); [apply Hr|by apply IH].
Qed.

Lemma run_arms_app l l' m : run_arms meaning from_payload decode result (l ++ l') m =
  match run_arms meaning from_payload decode result l m with Some r => Some r | None => run_arms meaning from_payload decode result l' m end.
Proof. induction l as [|a l IH]; cbn; [done|]. rewrite IH. by destruct (run_arm _ _ _ _ a m). Qed.

Lemma not_meant types m : existsb (λ e, bool_decide (meaning e = mtype m)) types = false → ∀ e, e ∈ types → meaning e ≠ mtype m.
Proof.
  intros H e He Heq. apply not_true_iff_false in H. apply H. apply existsb_exists. exists e. rewrite bool_decide_eq_true. split; [by apply list_elem_of_In|done].
Qed.

(** Arms of types that the message does not have leave it alone. *)
Lemma variant_arms_skip types groups emitted out emitted' out' m : (∀ e, e ∈ types → meaning e ≠ mtype m) → run_arms meaning from_payload decode result out m = None →
  variant_arms types groups emitted out = inl (emitted', out') →
  run_arms meaning from_payload decode result out' m = None ∧ (∀ e, e ∈ emitted' → e ∈ emitted ∨ meaning e ≠ mtype m).
Proof.
  revert emitted out. induction types as [|e types IH]; intros emitted out Hne Hout; cbn [variant_arms]; [intros [= <- <-]; auto|]. case_decide as He; [apply IH; [set_solver|done]|].
  destruct (group_of e groups) as [g|]; [|done]. destruct (all_cases (g_handlers g)) as [cs|]; [|done]. intros H. eapply IH in H as [H1 H2]; [|set_solver|].
  - split; [done|]. intros x Hx. destruct (H2 x Hx) as [Hx'|]; [|by right]. apply elem_of_app in Hx' as [?|Hs]; [by left|]. apply list_elem_of_singleton in Hs as ->. right. set_solver.
  - rewrite run_arms_app, Hout. cbn. rewrite decide_False by set_solver. done.
Qed.

Lemma variant_arms_keeps types groups emitted out emitted' out' m r : run_arms meaning from_payload decode result out m = Some r →
  variant_arms types groups emitted out = inl (emitted', out') → run_arms meaning from_payload decode result out' m = Some r.
Proof.
  revert emitted out. induction types as [|e types IH]; intros emitted out Hout; cbn [variant_arms]; [by intros [= <- <-]|]. case_decide; [by apply IH|].
  destruct (group_of e groups) as [g|]; [|done]. destruct (all_cases (g_handlers g)) as [cs|]; [|done]. apply IH. by rewrite run_arms_app, Hout.
Qed.

Lemma make_arms_keeps hs groups emitted out fb r m e : run_arms meaning from_payload decode result out m = Some e → make_arms hs groups emitted out fb = inl r →
  run_arms meaning from_payload decode result (arms r) m = Some e.
Proof.
  revert emitted out fb. induction hs as [|h hs IH]; intros emitted out fb Hout; cbn [make_arms]; [by intros [= <-]|]. destruct (h_route h) as [types [v|]|].
  - destruct (variant_arms types groups emitted out) as [[emitted' out']|] eqn:Ev; [|done]. apply IH. by eapply variant_arms_keeps.
  - apply IH. by rewrite run_arms_app, Hout.
  - destruct fb; [done|]. by apply IH.
Qed.

(** What the group of a type does with a message. *)
Definition run_group (g : VariantGroup) (m : Message) : list (Effect (V := V)) :=
  match decode (g_envelope g) (payload m) with
  | None => refuse m
  | Some (n, v) => match List.find (takes_variant n) (g_handlers g) with Some h => run_variant result h v m | None => refuse m end
  end.

Lemma variant_arms_hit types groups emitted out emitted' out' m key : key ∈ types → key ∉ emitted → meaning key = mtype m →
  (∀ e, e ∈ types → meaning e = mtype m → e = key) → run_arms meaning from_payload decode result out m = None → variant_arms types groups emitted out = inl (emitted', out') →
  ∃ g, group_of key groups = Some g ∧ run_arms meaning from_payload decode result out' m = Some (run_group g m).
Proof.
  revert emitted out. induction types as [|e types IH]; intros emitted out Hin Hnot Hkey Hone Hout; cbn [variant_arms]; [set_solver|].
  destruct (decide (e = key)) as [->|Hne].
  - rewrite decide_False by done. destruct (group_of key groups) as [g|]; [|done]. destruct (all_cases (g_handlers g)) as [cs|] eqn:Ec; [|done]. intros H. exists g. split; [done|].
    eapply variant_arms_keeps; [|exact H]. rewrite run_arms_app, Hout. cbn. rewrite decide_True by done. unfold run_group. destruct (decode _ _) as [[n v]|]; [|done]. by rewrite (find_case _ _ n Ec).
  - assert (meaning e ≠ mtype m) by (intros He; apply Hne, Hone; [set_solver|done]). apply elem_of_cons in Hin as [->|Hin]; [done|]. case_decide; [apply IH; [done|done|done|set_solver|done]|].
    destruct (group_of e groups) as [g|]; [|done]. destruct (all_cases (g_handlers g)) as [cs|]; [|done]. apply IH; [done|set_solver|done|set_solver|].
    rewrite run_arms_app, Hout. cbn. by rewrite decide_False.
Qed.

(** Two ways to write one type do not occur together. *)
Definition types_of (h : Handler) : list Expr := match h_route h with Types types _ => types | Fallback => [] end.
Definition one_spelling (hs : list Handler) : Prop := ∀ e e', e ∈ hs ≫= types_of → e' ∈ hs ≫= types_of → meaning e = meaning e' → e = e'.

Definition arms_right (hs : list Handler) (groups : Groups) (m : Message) (l : list Arm) : Prop :=
  match List.find (claims meaning (mtype m)) hs with
  | None => run_arms meaning from_payload decode result l m = None
  | Some h =>
      match h_route h with
      | Types types (Some _) =>
          ∃ key g, key ∈ types ∧ meaning key = mtype m ∧ group_of key groups = Some g ∧ run_arms meaning from_payload decode result l m = Some (run_group g m)
      | _ => run_arms meaning from_payload decode result l m = Some (run_body from_payload result (body h) m)
      end
  end.

Lemma one_spelling_tail h hs : one_spelling (h :: hs) → one_spelling hs.
Proof. intros H e e' He He'. apply H; cbn; set_solver. Qed.

Lemma claims_types t h : claims meaning t h = existsb (λ e, bool_decide (meaning e = t)) (types_of h).
Proof. unfold claims, types_of. by destruct (h_route h). Qed.

Lemma claimed t h : claims meaning t h = true ↔ ∃ e, e ∈ types_of h ∧ meaning e = t.
Proof. rewrite claims_types, existsb_exists. by setoid_rewrite bool_decide_eq_true; setoid_rewrite list_elem_of_In. Qed.

Lemma make_arms_right hs groups emitted out fb r m : one_spelling hs → (∀ e, e ∈ emitted → meaning e ≠ mtype m) → run_arms meaning from_payload decode result out m = None →
  make_arms hs groups emitted out fb = inl r → arms_right hs groups m (arms r).
Proof.
  revert emitted out fb. induction hs as [|h hs IH]; intros emitted out fb Hone Hem Hout; cbn [make_arms]; [by intros [= <-]|].
  pose proof (one_spelling_tail h hs Hone) as Htail. unfold arms_right. cbn [List.find]. destruct (claims meaning (mtype m) h) eqn:Ec.
  - apply claimed in Ec as (key & Hin & Hkey). unfold types_of in Hin. destruct (h_route h) as [types [v|]|] eqn:Er; [| |set_solver].
    + destruct (variant_arms types groups emitted out) as [[emitted' out']|] eqn:Ev; [|done]. intros Hm.
      destruct (variant_arms_hit types groups emitted out emitted' out' m key) as (g & Hg & Hr); [done|naive_solver|done| |done|done|].
      { intros e He Heq. apply Hone; [| |congruence]; cbn; apply elem_of_app; left; unfold types_of; by rewrite Er. }
      exists key, g. repeat (split; [done|]). by eapply make_arms_keeps.
    + intros Hm. eapply make_arms_keeps; [|exact Hm]. rewrite run_arms_app, Hout. cbn.
      rewrite (proj2 (existsb_exists _ _)); [done|]. exists key. rewrite bool_decide_eq_true. split; [by apply list_elem_of_In|done].
  - rewrite claims_types in Ec. unfold types_of in Ec. destruct (h_route h) as [types [v|]|].
    + destruct (variant_arms types groups emitted out) as [[emitted' out']|] eqn:Ev; [|done]. destruct (variant_arms_skip types groups emitted out emitted' out' m (not_meant _ _ Ec) Hout Ev) as [H1 H2].
      apply IH; [done| |done]. intros e He. destruct (H2 e He); auto.
    + apply IH; [done|done|]. rewrite run_arms_app, Hout. cbn. by rewrite Ec.
    + destruct fb; [done|]. by apply IH.
Qed.

Lemma make_arms_fallback hs groups emitted out fb r : make_arms hs groups emitted out fb = inl r →
  fallback r = match fb with Some b => Some b | None => body <$> List.find is_fallback hs end.
Proof.
  revert emitted out fb. induction hs as [|h hs IH]; intros emitted out fb; cbn [make_arms]; [intros [= <-]; by destruct fb|].
  cbn [List.find]. unfold is_fallback at 1. destruct (h_route h) as [types [v|]|].
  - destruct (variant_arms types groups emitted out) as [[emitted' out']|]; [|done]. apply IH.
  - apply IH.
  - destruct fb; [done|]. apply IH.
Qed.

Lemma of_key_pairs key h : of_key key (pairs_of h) = if decide (is_Some (variant_path h)) then replicate (length (List.filter (λ e, bool_decide (e = key)) (types_of h))) h else [].
Proof.
  unfold pairs_of, variant_path, types_of. destruct (h_route h) as [types [v|]|]; [|by rewrite decide_False by by intros [? ?]|by rewrite decide_False by by intros [? ?]].
  rewrite decide_True by done. induction types as [|e types IH]; [done|]. cbn. destruct (decide (e = key)) as [->|]; [rewrite bool_decide_eq_true_2 by done|rewrite bool_decide_eq_false_2 by done]; cbn; by rewrite <- IH.
Qed.

Lemma find_replicate {A} (p : A → bool) k x l : List.find p (replicate k x ++ l) = if bool_decide (k ≠ 0%nat) && p x then Some x else List.find p l.
Proof. induction k as [|k IH]; [done|]. cbn. destruct (p x) eqn:Ep; [done|]. rewrite IH. by rewrite !andb_false_r. Qed.

Lemma find_of_key hs0 hs key m n : (∀ h, h ∈ hs → h ∈ hs0) → one_spelling hs0 → key ∈ hs0 ≫= types_of → meaning key = mtype m →
  List.find (takes_variant n) (of_key key (hs ≫= pairs_of)) = List.find (λ h, claims meaning (mtype m) h && takes_variant n h) hs.
Proof.
  clear from_payload decode result. intros Hsub Hone Hk Hkey. induction hs as [|h hs IH]; [done|]. cbn [mbind list_bind]. rewrite of_key_app, of_key_pairs. cbn [List.find].
  rewrite <- IH by set_solver. clear IH. case_decide as Hv.
  - rewrite find_replicate. replace (bool_decide _) with (claims meaning (mtype m) h); [done|]. apply eq_true_iff_eq. rewrite claimed, bool_decide_eq_true. split.
    + intros (e & He & Heq). assert (e = key) as ->. { apply Hone; [|done|congruence]. apply list_elem_of_bind. exists h. split; [done|]. apply Hsub. set_solver. }
      intros H0. apply length_zero_iff_nil in H0. assert (Hin : In key (List.filter (λ e, bool_decide (e = key)) (types_of h))); [|by rewrite H0 in Hin].
      apply filter_In. rewrite bool_decide_eq_true. split; [by apply list_elem_of_In|done].
    + destruct (List.filter _ _) as [|e l] eqn:Ef; [done|]. intros _. assert (Hin : In e (List.filter (λ e, bool_decide (e = key)) (types_of h))) by (rewrite Ef; by left).
      apply filter_In in Hin as [Hin ->%bool_decide_eq_true]. exists key. split; [by apply list_elem_of_In|done].
  - assert (takes_variant n h = false) as -> by (unfold takes_variant; by destruct (variant_path h); [destruct Hv|]). by rewrite andb_false_r.
Qed.

End routing.

Lemma expanded_routes attr b flavor x r : try_expand attr b flavor = inl x → x_dispatch x = inr r →
  ∃ s, sort_items flavor (items b) (mkSorted [] [] []) = inl s ∧ routed_dispatch (handlers s) = inl r.
Proof.
  unfold try_expand. destruct (parse_args attr args_default) as [a|]; [|done]. repeat (case_match; [done|]). destruct (sort_items flavor (items b) _) as [s|]; [|done].
  case_match; [done|]. destruct (make_hooks _ _ _) as [g|]; [|done]. destruct (g_dispatch g); [by destruct (debug_messages _); intros [= <-]|].
  destruct (routed_dispatch (handlers s)) as [r'|] eqn:Er; [|done]. destruct (debug_messages _); [|done]. intros [= <-] [= <-]. eauto.
Qed.

Lemma routed_right {V : Type} (meaning : Expr → MsgType.t) (from_payload : Ty → Payload → option V) (decode : Path → Payload → option (string * V)) (result : string → option V → Payload) hs r m :
  routed_dispatch hs = inl r → one_spelling meaning hs → run meaning from_payload decode result r m = route_message meaning from_payload decode result hs m.
Proof.
  unfold routed_dispatch. destruct (claim_handlers hs ([], [])) as [[groups plain]|] eqn:Ec; [|done]. case_match; [done|]. intros Hm Hone.
  destruct (claim_handlers_grouped hs ([], []) _ [] grouped_nil Ec) as [Hg _]. cbn in Hg.
  pose proof (make_arms_right meaning from_payload decode result hs groups [] [] None r m Hone ltac:(set_solver) eq_refl Hm) as Hr.
  unfold run, route_message. unfold arms_right in Hr. rewrite (make_arms_fallback _ _ _ _ _ _ Hm). destruct (List.find (claims meaning (mtype m)) hs) as [h|] eqn:Ef; [|rewrite Hr; by destruct (List.find is_fallback hs)].
  apply find_some in Ef as [Hin _]. apply list_elem_of_In in Hin. destruct (h_route h) as [types [v|]|] eqn:Er; [|by rewrite Hr|by rewrite Hr]. destruct Hr as (key & g & Hk & Hkey & Hgo & ->).
  assert (Hall : key ∈ hs ≫= types_of) by (apply list_elem_of_bind; exists h; unfold types_of; by rewrite Er).
  specialize (Hg key). rewrite Hgo in Hg. destruct Hg as (Hh & _ & Henv). unfold run_group.
  assert (Hgh : h ∈ g_handlers g).
  { rewrite Hh. unfold of_key. apply list_elem_of_omap. exists (key, h). split; [|cbn; by rewrite decide_True]. apply list_elem_of_bind. exists h. split; [|done]. unfold pairs_of. rewrite Er. apply list_elem_of_fmap. eauto. }
  eapply Forall_forall in Henv; [|exact Hgh]. unfold in_envelope in Henv. rewrite Er in Henv. rewrite Henv. destruct (decode _ _) as [[n y]|]; [|done].
  rewrite Hh. by rewrite (find_of_key meaning hs hs key m n).
Qed.

(** C36 A generated [dispatch] does what the attributes say, for every meaning of the
    expressions of message types under which no type is written in two ways: a message goes
    to the first handler of its type; when the handlers of its type are for variants of an
    enum, to the one of the variant that the payload decodes to; when there is none, to the
    handler of [default]; and where no handler can take it, its sender is told if it waits. *)
Theorem dispatch_routes {V : Type} (meaning : Expr → MsgType.t) (from_payload : Ty → Payload → option V) (decode : Path → Payload → option (string * V)) (result : string → option V → Payload)
    attr b flavor x r s : try_expand attr b flavor = inl x → x_dispatch x = inr r → sort_items flavor (items b) (mkSorted [] [] []) = inl s → one_spelling meaning (handlers s) →
  ∀ m, run meaning from_payload decode result r m = route_message meaning from_payload decode result (handlers s) m.
Proof.
  intros Hx Hr Hs Hone m. destruct (expanded_routes _ _ _ _ _ Hx Hr) as (s' & Hs' & Hd). assert (s' = s) as -> by congruence. by apply routed_right.
Qed.

(** *** Requests are answered *)

Section answers.
  Context {V : Type} (meaning : Expr → MsgType.t) (from_payload : Ty → Payload → option V) (decode : Path → Payload → option (string * V)) (result : string → option V → Payload).

Definition is_answer (m : Message) (e : Effect (V := V)) : bool := match e with Reply m' _ | ReplyError m' => bool_decide (m' = m) | _ => false end.
Definition answers (m : Message) (l : list (Effect (V := V))) : nat := length (List.filter (is_answer m) l).
Definition is_call (e : Effect (V := V)) : bool := match e with Call _ _ | CallWhole _ _ => true | _ => false end.
Definition calls (l : list (Effect (V := V))) : nat := length (List.filter is_call l).

(** The handler returns nothing, or has the message to answer itself, and is not that of a
    variant. *)
Definition silent (b : Body) : bool := match b with BPlain _ _ replies | BTyped _ _ _ replies => negb replies | BWhole _ _ => true end.
Definition body_name (b : Body) : string := match b with BPlain n _ _ | BWhole n _ | BTyped n _ _ _ => n end.
Definition called (n : string) (e : Effect (V := V)) : Prop := match e with Call h _ | CallWhole h _ => h = n | _ => False end.

(** One handler at most is called; a message that is no request is not answered; a request
    is answered once, or is left to a handler of [hs] that answers for itself. *)
Definition accounted (hs : list Handler) (m : Message) (l : list (Effect (V := V))) : Prop :=
  (calls l ≤ 1)%nat ∧
  if needs_reply m then answers m l = 1%nat ∨ ∃ h e, h ∈ hs ∧ silent (body h) = true ∧ l = [e] ∧ called (h_name h) e else answers m l = 0%nat.

Lemma refuse_accounted hs m : accounted hs m (refuse m).
Proof. unfold accounted, refuse, answers. destruct (needs_reply m); [|cbn; split; [lia|done]]. split; [cbn; lia|]. left. cbn. by rewrite bool_decide_eq_true_2. Qed.

Lemma finish_accounted hs n arg m : accounted hs m (finish result n arg true m).
Proof. unfold accounted, finish, answers. destruct (needs_reply m); cbn; [|split; [lia|done]]. rewrite bool_decide_eq_true_2 by done. split; [lia|by left]. Qed.

Lemma body_accounted hs h m : h ∈ hs → accounted hs m (run_body from_payload result (body h) m).
Proof.
  intros Hh. assert (Hs : ∀ e, silent (body h) = true → called (h_name h) e → is_call e = true → is_answer m e = false → accounted hs m [e]).
  { intros e H1 H2 H3 H4. unfold accounted, calls, answers. cbn. rewrite H3, H4. split; [cbn; lia|]. destruct (needs_reply m); [|done]. right. by exists h, e. }
  unfold body in *. destruct (h_arg h) as [[|ty]|]; cbn [run_body]; [by apply Hs| |].
  - destruct (from_payload ty (payload m)) as [v|]; [|apply refuse_accounted]. destruct (replies h) eqn:Er; [apply finish_accounted|]. apply Hs; cbn; by rewrite ?Er.
  - destruct (replies h) eqn:Er; [apply finish_accounted|]. apply Hs; cbn; by rewrite ?Er.
Qed.

Lemma variant_accounted hs h v m : accounted hs m (run_variant result h v m).
Proof.
  unfold run_variant. destruct (replies h); [apply finish_accounted|]. pose proof (refuse_accounted hs m) as Hr. unfold refuse in Hr.
  destruct (needs_reply m) eqn:En; [done|]. unfold accounted. rewrite En. cbn. split; [lia|done].
Qed.

(** The arms call handlers of the block only. *)
Definition arm_from (hs : list Handler) (a : Arm) : Prop :=
  match a with APlain _ b => ∃ h, h ∈ hs ∧ b = body h | AVariant _ _ cs => ∀ c, c ∈ cs → ∃ h, ∀ v m, run_case result c v m = run_variant result h v m end.

Lemma arm_accounted hs a m l : arm_from hs a → run_arm meaning from_payload decode result a m = Some l → accounted hs m l.
Proof.
  destruct a as [tests b|test env cs]; cbn.
  - intros (h & Hh & ->). destruct (existsb _ _); [|done]. intros [= <-]. by apply body_accounted.
  - intros Hcs. case_decide; [|done]. intros [= <-]. destruct (decode env (payload m)) as [[n v]|]; [|apply refuse_accounted].
    destruct (List.find _ cs) as [c|] eqn:Ef; [|apply refuse_accounted]. apply find_some in Ef as [Hin _]. destruct (Hcs c) as [h ->]; [by apply list_elem_of_In|]. apply variant_accounted.
Qed.

Lemma cases_from hs cs c : all_cases hs = inl cs → c ∈ cs → ∃ h, ∀ v m, run_case result c v m = run_variant result h v m.
Proof.
  revert cs. induction hs as [|h hs IH]; intros cs; cbn [all_cases]; [intros [= <-]; set_solver|]. destruct (variant_case h) as [c'|] eqn:Ec; [|done].
  destruct (all_cases hs) as [cs'|]; [|done]. intros [= <-] Hc. apply elem_of_cons in Hc as [->|Hc]; [|by eapply IH]. exists h. by apply variant_case_spec.
Qed.

Lemma variant_arms_from hs types groups emitted out emitted' out' : Forall (arm_from hs) out → variant_arms types groups emitted out = inl (emitted', out') → Forall (arm_from hs) out'.
Proof.
  revert emitted out. induction types as [|e types IH]; intros emitted out Hout; cbn [variant_arms]; [by intros [= <- <-]|]. case_decide; [by apply IH|].
  destruct (group_of e groups) as [g|]; [|done]. destruct (all_cases (g_handlers g)) as [cs|] eqn:Ec; [|done]. apply IH. apply Forall_app. split; [done|]. constructor; [|done].
  intros c Hc. by eapply cases_from.
Qed.

Lemma make_arms_from hs0 hs groups emitted out fb r : (∀ h, h ∈ hs → h ∈ hs0) → Forall (arm_from hs0) out → make_arms hs groups emitted out fb = inl r → Forall (arm_from hs0) (arms r).
Proof.
  revert emitted out fb. induction hs as [|h hs IH]; intros emitted out fb Hsub Hout; cbn [make_arms]; [by intros [= <-]|]. destruct (h_route h) as [types [v|]|].
  - destruct (variant_arms types groups emitted out) as [[emitted' out']|] eqn:Ev; [|done]. apply IH; [set_solver|]. by eapply variant_arms_from.
  - apply IH; [set_solver|]. apply Forall_app. split; [done|]. constructor; [|done]. exists h. split; [set_solver|done].
  - destruct fb; [done|]. apply IH; [set_solver|done].
Qed.

Lemma arms_accounted hs l m e : Forall (arm_from hs) l → run_arms meaning from_payload decode result l m = Some e → accounted hs m e.
Proof. induction 1 as [|a l Ha Hl IH]; cbn; [done|]. destruct (run_arm _ _ _ _ a m) eqn:Er; [|done]. intros [= <-]. by eapply arm_accounted. Qed.

Lemma routed_accounted hs r m : routed_dispatch hs = inl r → accounted hs m (run meaning from_payload decode result r m).
Proof.
  unfold routed_dispatch. destruct (claim_handlers hs _) as [[groups plain]|]; [|done]. case_match; [done|]. intros Hm. unfold run. destruct (run_arms _ _ _ _ _ m) as [e|] eqn:Er.
  - eapply arms_accounted; [|exact Er]. eapply make_arms_from; [|constructor|exact Hm]. done.
  - rewrite (make_arms_fallback _ _ _ _ _ _ Hm). destruct (List.find is_fallback hs) as [h|] eqn:Ef; [|apply refuse_accounted]. apply find_some in Ef as [Hin _].
    apply body_accounted. by apply list_elem_of_In.
Qed.

End answers.

(** C37 Whatever the types mean and however payloads decode, a generated [dispatch] calls one
    handler at most, answers no message that is no request, and answers a request exactly
    once, unless the handler it was given to returns nothing or takes the whole message and
    is not that of a variant. *)
Theorem dispatch_answers {V : Type} (meaning : Expr → MsgType.t) (from_payload : Ty → Payload → option V) (decode : Path → Payload → option (string * V)) (result : string → option V → Payload)
    attr b flavor x r s : try_expand attr b flavor = inl x → x_dispatch x = inr r → sort_items flavor (items b) (mkSorted [] [] []) = inl s →
  ∀ m, accounted (handlers s) m (run meaning from_payload decode result r m).
Proof.
  intros Hx Hr Hs m. destruct (expanded_routes _ _ _ _ _ Hx Hr) as (s' & Hs' & Hd). assert (s' = s) as -> by congruence. by apply routed_accounted.
Qed.

(** ** Examples *)

Definition USER : Expr := EPath ["MsgType"; "USER"].
Definition SOCKET : Expr := EPath ["MsgType"; "SOCKET"].

Definition method (n : string) (msg : list MsgTok) (debug : list Attr) (ty : Ty) (output : option Ty) : ImplItem :=
  IFn (mkFn (debug ++ [AMsg (Some msg)])%list (mkSig n true [Receiver true false; Typed (TPath ["Ctx"] None); Typed ty] output) 0).

Definition on_socket : ImplItem := method "on_socket" [MType SOCKET] [] (TPath ["SocketEvent"] None) None.
Definition on_ask : ImplItem := method "on_ask" [MType USER] [] (TPath ["Ask"] None) (Some (TPath ["Answer"] None)).
Definition debug_ask : ImplItem := method "debug_ask" [MType USER] [ADebug (DList [DName "ask"])] (TPath ["Ask"] None) (Some (TPath ["Answer"] None)).
Definition on_notify : ImplItem := method "on_notify" [MType USER; MVariant ["UserMessage"; "Notify"]] [] (TPath ["Notify"] None) None.
Definition on_query : ImplItem := method "on_query" [MType USER; MVariant ["UserMessage"; "Query"]] [] (TPath ["Query"] None) (Some (TPath ["Answer"] None)).
Definition on_other : ImplItem := method "on_other" [MType (EPath ["default"])] [] (TPath ["Message"] None) None.

Definition gate (l : list ImplItem) : ItemImpl := mkImpl false false l.
Definition expanded (l : list ImplItem) : Expansion := match try_expand [] (gate l) Shared with inl x => x | inr _ => mkExpansion [] None (inr (mkRouted [] None)) [] None None end.
Definition routed (l : list ImplItem) : Routed := match x_dispatch (expanded l) with inr r => r | inl _ => mkRouted [] None end.
Definition sorted (l : list ImplItem) : Sorted := match sort_items Shared l (mkSorted [] [] []) with inl s => s | inr _ => mkSorted [] [] [] end.

(** The types as the crate has them; payloads are objects, and the one of a variant says which. *)
Definition x_meaning (e : Expr) : MsgType.t :=
  match e with
  | EPath p => if decide (last p = Some "USER") then MsgType.USER else if decide (last p = Some "SOCKET") then MsgType.SOCKET else MsgType.TEXT
  | ECall _ [AInt _ (Some z)] => z
  | _ => MsgType.TEXT
  end.
Definition x_from (ty : Ty) (p : Payload) : option Z := match p with PBoxed _ o => Some o | _ => None end.
Definition x_decode (env : Path) (p : Payload) : option (string * Z) := match p with PBoxed 1 o => Some ("Notify", o) | PBoxed 2 o => Some ("Query", o) | _ => None end.
Definition x_result (h : string) (v : option Z) : Payload := PBoxed 9 (default 0%Z v).

Definition x_items : list ImplItem := [on_socket; on_notify; on_query; on_other].
Definition query : Message := mkMessage 3 5 MsgType.USER (PBoxed 2 40).

Lemma x_expands : try_expand [] (gate x_items) Shared = inl (expanded x_items) ∧ x_dispatch (expanded x_items) = inr (routed x_items) ∧
  sort_items Shared (items (gate x_items)) (mkSorted [] [] []) = inl (sorted x_items).
Proof. vm_compute. repeat split. Qed.

Lemma x_spelling : one_spelling x_meaning (handlers (sorted x_items)).
Proof.
  intros e e' He He' Heq. assert (Hall : ∀ e, e ∈ handlers (sorted x_items) ≫= types_of → e = USER ∨ e = SOCKET).
  { intros x Hx. replace (handlers (sorted x_items) ≫= types_of) with [SOCKET; USER; USER] in Hx by (vm_compute; reflexivity). set_solver. }
  destruct (Hall e He) as [->| ->], (Hall e' He') as [->| ->]; done.
Qed.

Lemma dispatch_routes_witness : run x_meaning x_from x_decode x_result (routed x_items) query = [Call "on_query" (Some 40%Z); Reply query (PBoxed 9 40)].
Proof.
  destruct x_expands as (Hx & Hr & Hs). rewrite (dispatch_routes x_meaning x_from x_decode x_result [] (gate x_items) Shared _ _ _ Hx Hr Hs x_spelling). vm_compute. reflexivity.
Defined.

Lemma dispatch_answers_witness : accounted (handlers (sorted x_items)) query (run x_meaning x_from x_decode x_result (routed x_items) query).
Proof.
  destruct x_expands as (Hx & Hr & Hs). exact (dispatch_answers x_meaning x_from x_decode x_result [] (gate x_items) Shared _ _ _ Hx Hr Hs query).
Defined.

(** ** What the macro does not notice *)

(** The block in the documentation of [service] is refused: [on_ask] and the handlers of
    variants have the same type. *)
Theorem documented_block_refused : try_expand [] (gate [on_socket; on_ask; debug_ask; on_notify; on_query; on_other]) Shared = inr MixedHandlers.
Proof. vm_compute. reflexivity. Qed.

(** Of two handlers of a type the second is never called; it is accepted all the same and
    offered to the dashboard, where its message goes to the first. *)
Theorem second_handler_dead m : let r := routed [on_ask; debug_ask] in
  try_expand [] (gate [on_ask; debug_ask]) Shared = inl (expanded [on_ask; debug_ask]) ∧ d_name <$> x_debug (expanded [on_ask; debug_ask]) = ["ask"] ∧
  ∀ v, Call "debug_ask" v ∉ run x_meaning x_from x_decode x_result r m.
Proof.
  split; [vm_compute; reflexivity|]. split; [vm_compute; reflexivity|]. intros v.
  replace (routed [on_ask; debug_ask]) with (mkRouted [APlain [USER] (BTyped "on_ask" true (TPath ["Ask"] None) true); APlain [USER] (BTyped "debug_ask" true (TPath ["Ask"] None) true)] None) by (vm_compute; reflexivity).
  unfold run. cbn [arms fallback run_arms run_arm existsb]. destruct (bool_decide _); cbn [orb run_body].
  - destruct (x_from _ _); cbn; unfold finish, refuse; destruct (needs_reply m); cbn; set_solver.
  - unfold refuse. destruct (needs_reply m); set_solver.
Qed.

(** Handlers of variants of one type, written in two ways, are two groups, and the second is
    never asked: the request is refused although there is a handler for it. *)
Theorem respelled_variant_refused :
  let items := [on_notify; method "on_query" [MType (ECall ["MsgType"] [AInt "7" (Some 7%Z)]); MVariant ["UserMessage"; "Query"]] [] (TPath ["Query"] None) (Some (TPath ["Answer"] None))] in
  try_expand [] (gate items) Shared = inl (expanded items) ∧ run x_meaning x_from x_decode x_result (routed items) query = [ReplyError query].
Proof. vm_compute. repeat split. Qed.
End Macros.
