(* ===== verification/Dashboard.v ===== *)
(** * The dashboard

    [rskynet-dashboard/src/lib.rs] and the descriptors of [rskynet-core/src/debug.rs]: the
    HTTP service that shows a node and, when its configuration allows it, sends messages to
    services.  What it awaits and what it asks of the node are operations with answers, and
    its functions are programs over them; a run of a program is any sequence of answers.
    Requests have numbers that stand for their responders and bodies.  Serialization, the
    pages, and the parsing of socket addresses are parameters; header values are ASCII. *)
From S2P Require Import Prelude Message Plugin Schema.
From Stdlib Require Import Ascii String.
From stdpp Require Import strings.
#[local] Open Scope string_scope.

Module Dashboard.

Definition Json : Type := Schema.Json.

(** ** Descriptors of debug messages *)

(** What [DeserializeOwned], [Serialize], [MessageSchemaType], [IntoPayload] and
    [FromPayload] say of a type. *)
Record MessageTy : Type := mkTy {
  value : Type;
  type_name : string;
  message_schema : Json;
  from_value : Json → Result value;
  to_value : value → Result Json;
  into_payload : value → Payload;
  from_payload : Payload → Result value;
}.

Record DebugMessageDescriptor : Type := mkDescriptor {
  d_name : string;
  d_mtype : MsgType.t;
  request_type : string;
  response_type : option string;
  request_schema : Json;
  response_schema : option Json;
  d_decode : Json → Result Payload;
  d_encode : option (Payload → Result Json);
}.

Definition decode_payload (t : MessageTy) (v : Json) : Result Payload := match from_value t v with inl x => inl (into_payload t x) | inr e => inr e end.
Definition encode_payload (t : MessageTy) (p : Payload) : Result Json := match from_payload t p with inl x => to_value t x | inr e => inr e end.

Definition send_decoded (req : MessageTy) (name : string) (mtype : MsgType.t) (decode : Json → Result Payload) : DebugMessageDescriptor :=
  mkDescriptor name mtype (type_name req) None (message_schema req) None decode None.
Definition call_decoded (req resp : MessageTy) (name : string) (mtype : MsgType.t) (decode : Json → Result Payload) : DebugMessageDescriptor :=
  mkDescriptor name mtype (type_name req) (Some (type_name resp)) (message_schema req) (Some (message_schema resp)) decode (Some (encode_payload resp)).
Definition send_descriptor (req : MessageTy) (name : string) (mtype : MsgType.t) : DebugMessageDescriptor := send_decoded req name mtype (decode_payload req).
Definition call_descriptor (req resp : MessageTy) (name : string) (mtype : MsgType.t) : DebugMessageDescriptor := call_decoded req resp name mtype (decode_payload req).

Definition supports_call (d : DebugMessageDescriptor) : bool := bool_decide (is_Some (d_encode d)).
Definition encode (d : DebugMessageDescriptor) (p : Payload) : Result Json := match d_encode d with Some f => f p | None => inr (Service "call") end.

(** ** Operations *)

Definition HttpError : Type := string.

Record ServiceStats : Type := mkStats { s_handle : Handle; s_kind : string; s_names : list string; s_running : bool }.

Inductive CallAnswer : Type := Replied (p : Payload) | CallError (e : Error) | TimedOut.

Inductive Op : Type :=
  | Discard (r : Z)
  | Collect (r : Z) (limit : Z)
  | Stats
  | Services
  | Netstat
  | DebugMessages (h : Handle)
  | Now
  | Send (h : Handle) (t : MsgType.t) (p : Payload)
  | Call (h : Handle) (t : MsgType.t) (p : Payload) (timeout : Z)
  | Respond (r : Z) (status : Z) (content_type : string) (extra : option (string * string)) (len : Z)
  | WriteChunk (r : Z) (bytes : list Z)
  | Finish (r : Z)
  | RegisterName (n : string)
  | Bind (addr : string)
  | LocalAddr (listener : Z).

(** [None] is success where nothing else is returned. *)
Definition answer (o : Op) : Type :=
  match o with
  | Discard _ | Respond _ _ _ _ _ | WriteChunk _ _ | Finish _ => option HttpError
  | Collect _ _ => list Z + HttpError
  | Stats => Json
  | Services => list ServiceStats
  | Netstat => Json + Error
  | DebugMessages _ => option (list DebugMessageDescriptor)
  | Now => Z
  | Send _ _ _ => option Error
  | Call _ _ _ _ => CallAnswer
  | RegisterName _ => bool
  | Bind _ => Z + HttpError
  | LocalAddr _ => string + HttpError
  end.

Inductive Prog (A : Type) : Type :=
  | Ret (a : A)
  | Do (o : Op) (k : answer o → Prog A).
Arguments Ret {A} a.
Arguments Do {A} o k.

Fixpoint bind {A B} (p : Prog A) (f : A → Prog B) : Prog B :=
  match p with Ret a => f a | Do o k => Do o (λ x, bind (k x) f) end.

#[local] Notation "x <- p ; q" := (bind p (λ x, q)) (at level 100, p at next level, right associativity).
Definition op (o : Op) : Prog (answer o) := Do o Ret.

(** An operation that happened, with its answer. *)
Record Step : Type := mkStep { s_op : Op; s_answer : answer s_op }.

(** Part of a run: the operations so far and what is left of the program. *)
Inductive reaches {A} : Prog A → list Step → Prog A → Prop :=
  | reaches_here p : reaches p [] p
  | reaches_do o k x tr p : reaches (k x) tr p → reaches (Do o k) (mkStep o x :: tr) p.

(** ** Errors of the interface *)

Record ApiError : Type := mkApi { status : Z; code : string; message : string; allow : option string }.

Definition OK : Z := 200.
Definition api_new (status : Z) (code message : string) : ApiError := mkApi status code message None.
Definition bad_request : string → string → ApiError := api_new 400.
Definition not_found : string → string → ApiError := api_new 404.
Definition method_not_allowed (a : string) : ApiError := mkApi 405 "method_not_allowed" a (Some a).

Definition core_api_error (e : Error) : ApiError :=
  match e with
  | NoService _ | NameNotFound _ => not_found "service_not_found" ""
  | CallFailed _ => api_new 502 "call_failed" ""
  | _ => api_new 500 "service_error" ""
  end.

(** ** Debug messages of the node *)

Record DebugMessageInfo : Type := mkInfo {
  i_id : string * MsgType.t;
  i_name : string;
  i_mtype : MsgType.t;
  i_request_type : string;
  i_response_type : option string;
  i_request_schema : Json;
  i_response_schema : option Json;
  i_call_supported : bool;
}.

Record DebugService : Type := mkDebugService { ds_handle : string; ds_kind : string; ds_names : list string; ds_messages : list DebugMessageInfo }.

Definition format_handle (h : Handle) : string := String ":" (AddrText.fmt_08x h).

Definition message_info (d : DebugMessageDescriptor) : DebugMessageInfo :=
  mkInfo (d_name d, d_mtype d) (d_name d) (d_mtype d) (request_type d) (response_type d) (request_schema d) (response_schema d) (supports_call d).

Fixpoint services_loop (l : list ServiceStats) (out : list DebugService) : Prog (list DebugService) :=
  match l with
  | [] => Ret out
  | s :: l =>
      if negb (s_running s) then services_loop l out else
      ms <- op (DebugMessages (s_handle s));
      match ms with
      | None => services_loop l out
      | Some ms =>
          let infos := message_info <$> List.filter (λ d, negb (MsgType.is_reply (d_mtype d))) ms in
          services_loop l (match infos with [] => out | _ => out ++ [mkDebugService (format_handle (s_handle s)) (s_kind s) (s_names s) infos] end)%list
      end
  end.

Definition debug_services : Prog (list DebugService) := l <- op Services; services_loop l [].

(** ** Invocations *)

Inductive Mode : Type := MCall | MSend.
Record DebugInvocation : Type := mkInvocation { target : string; i_message : string; invoked_mtype : Z; mode : Mode; i_payload : Json }.
Record DebugInvocationResult : Type := mkResult { r_mode : string; r_accepted : bool; r_result : option Json; duration_ms : Z }.

Definition parse_handle (v : string) : Handle + ApiError :=
  match v with
  | String c hex =>
      if decide (c = ":"%char) then
        if decide (hex = "" ∨ 16 < String.length hex)%nat then inr (bad_request "invalid_target" "")
        else match AddrText.from_str_radix hex with Some h => inl h | None => inr (bad_request "invalid_target" "") end
      else inr (bad_request "invalid_target" "")
  | EmptyString => inr (bad_request "invalid_target" "")
  end.

Definition named (i : DebugInvocation) (d : DebugMessageDescriptor) : bool := bool_decide (d_name d = i_message i) && bool_decide (d_mtype d = invoked_mtype i).

Definition invoke (i : DebugInvocation) (call_timeout_ms : Z) : Prog (DebugInvocationResult + ApiError) :=
  match parse_handle (target i) with
  | inr e => Ret (inr e)
  | inl h =>
      ms <- op (DebugMessages h);
      match ms with
      | None => Ret (inr (not_found "service_not_found" ""))
      | Some ms =>
          match List.find (named i) ms with
          | None => Ret (inr (not_found "message_not_found" ""))
          | Some d =>
              if MsgType.is_reply (d_mtype d) then Ret (inr (bad_request "reply_type_forbidden" "")) else
              match d_decode d (i_payload i) with
              | inr _ => Ret (inr (api_new 422 "invalid_payload" ""))
              | inl p =>
                  started <- op Now;
                  match mode i with
                  | MSend =>
                      r <- op (Send h (d_mtype d) p);
                      match r with
                      | Some e => Ret (inr (core_api_error e))
                      | None => now <- op Now; Ret (inl (mkResult "send" true None (Z.max 0 (now - started))))
                      end
                  | MCall =>
                      if negb (supports_call d) then Ret (inr (api_new 409 "call_not_supported" "")) else
                      r <- op (Call h (d_mtype d) p call_timeout_ms);
                      match r with
                      | TimedOut => Ret (inr (api_new 504 "call_timeout" ""))
                      | CallError e => Ret (inr (core_api_error e))
                      | Replied reply =>
                          match encode d reply with
                          | inr _ => Ret (inr (api_new 502 "invalid_response" ""))
                          | inl v => now <- op Now; Ret (inl (mkResult "call" true (Some v) (Z.max 0 (now - started))))
                          end
                      end
                  end
              end
          end
      end
  end.

(** ** Responses *)

Definition DEBUG_BODY_LIMIT : Z := 256 * 1024.
Definition CHUNK : Z := 32 * 1024.

(** [chunks]. *)
Fixpoint chunks_loop (fuel : nat) (l : list Z) : list (list Z) :=
  match fuel with O => [] | S fuel => match l with [] => [] | _ => take (Z.to_nat CHUNK) l :: chunks_loop fuel (drop (Z.to_nat CHUNK) l) end end.
Definition chunks (l : list Z) : list (list Z) := chunks_loop (length l) l.

Fixpoint write_chunks (r : Z) (l : list (list Z)) : Prog (option HttpError) :=
  match l with
  | [] => op (Finish r)
  | c :: l => e <- op (WriteChunk r c); match e with Some e => Ret (Some e) | None => write_chunks r l end
  end.

Definition send (r : Z) (status : Z) (content_type : string) (bytes : list Z) (extra : option (string * string)) : Prog (option HttpError) :=
  e <- op (Respond r status content_type extra (Z.of_nat (length bytes)));
  match e with Some e => Ret (Some e) | None => write_chunks r (chunks bytes) end.

(** What is sent as JSON. *)
Inductive Body : Type :=
  | BSnapshot (stats : Json) (services : list ServiceStats) (sockets : Json) (cluster_id : option Z) (console : bool)
  | BServices (l : list DebugService)
  | BResult (r : DebugInvocationResult)
  | BError (code message : string).

Inductive Method : Type := GET | POST | OtherMethod (m : string).

#[global] Instance Method_eq_dec : EqDecision Method.
Proof. solve_decision. Defined.

Record DebugConfig : Type := mkDebug { enabled : bool; call_timeout_ms : Z }.
Record DashboardConfig : Type := mkConfig { address : string; debug_console : bool; debug_call_timeout_ms : Z }.

Definition debug_default : DebugConfig := mkDebug false 10000.

(** A request as [serve] looks at it. *)
Record Request : Type := mkRequest { responder : Z; method : Method; path : string; content_length : option Z; content_type : string }.

Fixpoint before_semicolon (s : string) : string := match s with EmptyString => "" | String c s => if decide (c = ";"%char) then "" else String c (before_semicolon s) end.
Definition is_blank (c : ascii) : bool := bool_decide (c = " "%char) || bool_decide (c = Ascii.ascii_of_nat 9).
Fixpoint trim_start (s : string) : string := match s with EmptyString => "" | String c s' => if is_blank c then trim_start s' else s end.
Fixpoint trim_end (s : string) : string := match s with EmptyString => "" | String c s => match trim_end s with EmptyString => if is_blank c then "" else String c "" | t => String c t end end.

Definition is_json (content_type : string) : bool := bool_decide (Schema.lower (trim_end (trim_start (before_semicolon content_type))) = "application/json").

Section serve.
  (** [serde_json::to_vec] and [from_slice]; the page and the icons; the reading of a socket
      address, to its text and whether it is a loopback address. *)
  Context (to_vec : Body → list Z + HttpError) (from_slice : list Z → DebugInvocation + string) (asset : string → list Z) (parse_addr : string → option (string * bool)).

Definition send_json (r : Z) (status : Z) (b : Body) (extra : option (string * string)) : Prog (option HttpError) :=
  match to_vec b with
  | inr e => Ret (Some e)
  | inl bytes => send r status "application/json; charset=utf-8" bytes extra
  end.

Definition send_api_error (r : Z) (e : ApiError) : Prog (option HttpError) :=
  send_json r (status e) (BError (code e) (message e)) ((λ a, ("allow", a)) <$> allow e).

(** [request.into_body().discard(ctx).await?]. *)
Definition discard (q : Request) (k : Prog (option HttpError)) : Prog (option HttpError) :=
  e <- op (Discard (responder q)); match e with Some e => Ret (Some e) | None => k end.

Definition capture (cluster_id : option Z) (console : bool) : Prog (Body + Error) :=
  stats <- op Stats; services <- op Services; sockets <- op Netstat;
  Ret (match sockets with inl j => inl (BSnapshot stats services j cluster_id console) | inr e => inr e end).

Definition serve_stats (q : Request) (cluster_id : option Z) (debug : DebugConfig) : Prog (option HttpError) :=
  s <- capture cluster_id (enabled debug);
  match s with
  | inr _ => Ret (Some "snapshot")
  | inl b => match to_vec b with inr e => Ret (Some e) | inl bytes => send (responder q) OK "application/json; charset=utf-8" bytes None end
  end.

Definition serve_invoke (q : Request) (debug : DebugConfig) : Prog (option HttpError) :=
  let r := responder q in
  let refuse e := discard q (send_api_error r e) in
  if negb (enabled debug) then refuse (not_found "debug_disabled" "") else
  if is_some_and (λ n, bool_decide (DEBUG_BODY_LIMIT < n)%Z) (content_length q) then refuse (api_new 413 "body_too_large" "") else
  if negb (is_json (content_type q)) then refuse (api_new 415 "content_type" "") else
  b <- op (Collect r DEBUG_BODY_LIMIT);
  match b with
  | inr _ => send_api_error r (api_new 413 "body_too_large" "")
  | inl bytes =>
      match from_slice bytes with
      | inr e => send_api_error r (bad_request "invalid_json" e)
      | inl i =>
          x <- invoke i (call_timeout_ms debug);
          match x with inl y => send_json r OK (BResult y) None | inr e => send_api_error r e end
      end
  end.

Definition is_get (q : Request) : bool := bool_decide (method q = GET).
Definition at_path (q : Request) (p : string) : bool := bool_decide (path q = p).

Definition page (q : Request) (content_type name : string) : Prog (option HttpError) := discard q (send (responder q) OK content_type (asset name) None).

Definition serve (q : Request) (cluster_id : option Z) (debug : DebugConfig) : Prog (option HttpError) :=
  let r := responder q in
  if (at_path q "/" || at_path q "/index.html") && is_get q then page q "text/html; charset=utf-8" "index.html"
  else if at_path q "/api/v1/stats" && is_get q then discard q (serve_stats q cluster_id debug)
  else if at_path q "/api/v1/messages" && is_get q then discard q (l <- debug_services; send_json r OK (BServices l) None)
  else if at_path q "/api/v1/debug/invoke" && bool_decide (method q = POST) then serve_invoke q debug
  else if at_path q "/assets/clock.svg" && is_get q then page q "image/svg+xml" "clock.svg"
  else if at_path q "/assets/refresh.svg" && is_get q then page q "image/svg+xml" "refresh.svg"
  else if at_path q "/assets/server.svg" && is_get q then page q "image/svg+xml" "server.svg"
  else if at_path q "/api/v1/debug/invoke" then discard q (send_api_error r (method_not_allowed "POST"))
  else if existsb (at_path q) ["/"; "/index.html"; "/api/v1/stats"; "/api/v1/messages"; "/assets/clock.svg"; "/assets/refresh.svg"; "/assets/server.svg"] then
    discard q (send_api_error r (method_not_allowed "GET"))
  else discard q (send r 404 "text/plain; charset=utf-8" (Plugin.bytes_of "not found") None).

(** The service after its [init]. *)
Record Dashboard : Type := mkDashboard { cluster_id : option Z; debug : DebugConfig }.
Definition dashboard_new : Dashboard := mkDashboard None debug_default.

(** The loop of [on_socket] over the requests that are complete. *)
Fixpoint on_requests (d : Dashboard) (qs : list Request) : Prog unit :=
  match qs with
  | [] => Ret tt
  | q :: qs => _ <- serve q (cluster_id d) (debug d); on_requests d qs
  end.

Definition validate (c : DashboardConfig) : Result (string * bool) :=
  if negb (Plugin.validate_identifier (address c)) then inr (Config "address") else
  match parse_addr (address c) with
  | None => inr (Config "address")
  | Some (addr, loopback) =>
      if decide (debug_call_timeout_ms c = 0)%Z then inr (Config "debug_call_timeout_ms")
      else if debug_console c && negb loopback then inr (Config "debug_console")
      else inl (addr, loopback)
  end.

(** [init] with the sections of the configuration. *)
Definition init (section : option DashboardConfig) (cluster : option Z) (d : Dashboard) : Prog (Dashboard * option Error) :=
  match section with
  | None => Ret (d, Some (Config "dashboard"))
  | Some c =>
      match validate c with
      | inr e => Ret (d, Some e)
      | inl (addr, _) =>
          let d := mkDashboard cluster (mkDebug (debug_console c) (debug_call_timeout_ms c)) in
          ok <- op (RegisterName "dashboard");
          if negb ok then Ret (d, Some (Service "dashboard")) else
          l <- op (Bind addr);
          match l with
          | inr e => Ret (d, Some (Service e))
          | inl l => a <- op (LocalAddr l); match a with inr e => Ret (d, Some (Service e)) | inl _ => Ret (d, None) end
          end
      end
  end.

End serve.

(** ** Runs *)

Lemma reaches_inv {A} (p q : Prog A) tr : reaches p tr q →
  match p with Ret a => tr = [] ∧ q = Ret a | Do o k => (tr = [] ∧ q = p) ∨ ∃ x tr', tr = mkStep o x :: tr' ∧ reaches (k x) tr' q end.
Proof. destruct 1 as [p|o k x tr q Hr]; [destruct p; auto|]. right. eauto. Qed.

Lemma returns_inv {A} o (k : answer o → Prog A) tr a : reaches (Do o k) tr (Ret a) → ∃ x tr', tr = mkStep o x :: tr' ∧ reaches (k x) tr' (Ret a).
Proof. intros [[_ H]|H]%reaches_inv; [done|exact H]. Qed.

Lemma ret_inv {A} (a b : A) tr : reaches (Ret a) tr (Ret b) → tr = [] ∧ b = a.
Proof. intros [-> [= ->]]%reaches_inv. done. Qed.

Lemma reaches_app {A} (p q r : Prog A) tr tr' : reaches p tr q → reaches q tr' r → reaches p (tr ++ tr') r.
Proof. induction 1 as [|o k x tr q _ IH]; [done|]. intros H. cbn. constructor. auto. Qed.

(** What holds of every operation of a program, given those before it. *)
Fixpoint always {A} (P : list Step → Op → Prop) (past : list Step) (p : Prog A) : Prop :=
  match p with Ret _ => True | Do o k => P past o ∧ ∀ x, always P (past ++ [mkStep o x])%list (k x) end.

Lemma always_bind {A B} P past (p : Prog A) (f : A → Prog B) : always P past p → (∀ tr a, reaches p tr (Ret a) → always P (past ++ tr)%list (f a)) → always P past (bind p f).
Proof.
  revert past. induction p as [a|o k IH]; intros past Hp Hf; cbn.
  - specialize (Hf [] a (reaches_here _)). by rewrite app_nil_r in Hf.
  - destruct Hp as [Ho Hk]. split; [done|]. intros x. apply IH; [done|]. intros tr a Hr. specialize (Hf (mkStep o x :: tr) a). rewrite <- app_assoc. apply Hf. by constructor.
Qed.

Lemma always_reaches {A} P past (p q : Prog A) tr : always P past p → reaches p tr q → ∀ a s b, tr = (a ++ s :: b)%list → P (past ++ a)%list (s_op s).
Proof.
  intros Hp Hr. revert past Hp. induction Hr as [|o k x tr q _ IH]; intros past Hp a s b He; [by destruct a|]. destruct Hp as [Ho Hk].
  destruct a as [|s' a]; injection He as <- He; [by rewrite app_nil_r|]. specialize (IH _ (Hk x) a s b He). by rewrite <- app_assoc in IH.
Qed.

(** A program whose operations are all of a kind. *)
Fixpoint only {A} (K : Op → Prop) (p : Prog A) : Prop := match p with Ret _ => True | Do o k => K o ∧ ∀ x, only K (k x) end.

Lemma only_always {A} (K : Op → Prop) P past (p : Prog A) : (∀ past o, K o → P past o) → only K p → always P past p.
Proof. intros HK. revert past. induction p as [a|o k IH]; intros past; cbn; [done|]. intros [Ho Hk]. split; [auto|]. intros x. apply IH, Hk. Qed.

Lemma only_bind {A B} K (p : Prog A) (f : A → Prog B) : only K p → (∀ a, only K (f a)) → only K (bind p f).
Proof. intros Hp Hf. induction p as [a|o k IH]; cbn; [done|]. destruct Hp as [Ho Hk]. split; [done|]. intros x. apply IH, Hk. Qed.

(** ** Messages are sent only where they may be *)

Definition quiet_op (o : Op) : Prop := match o with Send _ _ _ | Call _ _ _ _ => False | _ => True end.
Abbreviation quiet := (only quiet_op).

Create HintDb quiet.

Lemma quiet_op_prog o : quiet_op o → quiet (op o).
Proof. by intros H. Qed.

Lemma quiet_chunks r l : quiet (write_chunks r l).
Proof. induction l as [|c l IH]; cbn; [done|]. split; [done|]. by intros [e|]. Qed.

Lemma quiet_send r st ct bytes extra : quiet (send r st ct bytes extra).
Proof. cbn. split; [done|]. intros [e|]; [done|]. apply quiet_chunks. Qed.

#[export] Hint Resolve quiet_send : quiet.

Section confined.
  Context (to_vec : Body → list Z + HttpError) (from_slice : list Z → DebugInvocation + string) (asset : string → list Z) (parse_addr : string → option (string * bool)).

Lemma quiet_send_json r st b extra : quiet (send_json to_vec r st b extra).
Proof. unfold send_json. destruct (to_vec b); [apply quiet_send|done]. Qed.

Lemma quiet_api_error r e : quiet (send_api_error to_vec r e).
Proof. apply quiet_send_json. Qed.

Lemma quiet_discard q k : quiet k → quiet (discard q k).
Proof. intros Hk. cbn. split; [done|]. by intros [e|]. Qed.

Lemma quiet_services_loop l out : quiet (services_loop l out).
Proof. revert out. induction l as [|s l IH]; intros out; cbn; [done|]. destruct (negb _); [apply IH|]. cbn. split; [done|]. intros [ms|]; apply IH. Qed.

Lemma quiet_stats q cid debug : quiet (serve_stats to_vec q cid debug).
Proof. cbn. do 3 (split; [done|]; intros ?). destruct x1 as [j|e]; [|done]. destruct (to_vec _); [apply quiet_send|done]. Qed.

Lemma quiet_messages q : quiet (discard q (bind debug_services (λ l, send_json to_vec (responder q) OK (BServices l) None))).
Proof. apply quiet_discard. apply only_bind; [|intros; apply quiet_send_json]. cbn. split; [done|]. intros l. apply quiet_services_loop. Qed.

(** What lets the console send: it is on, the request is a POST of JSON to its path, and the
    body, read within the limit, names a descriptor that the service has offered, for its
    type and with a payload that the descriptor made. *)
Definition authorised (q : Request) (c : DebugConfig) (past : list Step) (h : Handle) (t : MsgType.t) (p : Payload) (m : Mode) : Prop :=
  enabled c = true ∧ method q = POST ∧ path q = "/api/v1/debug/invoke" ∧ is_json (content_type q) = true ∧
  ∃ bytes i ds d,
    mkStep (Collect (responder q) DEBUG_BODY_LIMIT) (inl bytes) ∈ past ∧ from_slice bytes = inl i ∧
    parse_handle (target i) = inl h ∧ mkStep (DebugMessages h) (Some ds) ∈ past ∧ d ∈ ds ∧
    d_name d = i_message i ∧ d_mtype d = invoked_mtype i ∧ d_mtype d = t ∧ MsgType.is_reply t = false ∧ d_decode d (i_payload i) = inl p ∧ mode i = m ∧
    (m = MCall → supports_call d = true).

Definition allowed (q : Request) (c : DebugConfig) (past : list Step) (o : Op) : Prop :=
  match o with
  | Send h t p => authorised q c past h t p MSend
  | Call h t p timeout => authorised q c past h t p MCall ∧ timeout = call_timeout_ms c
  | _ => True
  end.

Lemma quiet_allowed {A} q c past (p : Prog A) : quiet p → always (allowed q c) past p.
Proof. apply only_always. by intros past' [] Ho. Qed.

Lemma invoke_allowed q c past bytes i : enabled c = true → method q = POST → path q = "/api/v1/debug/invoke" → is_json (content_type q) = true →
  mkStep (Collect (responder q) DEBUG_BODY_LIMIT) (inl bytes) ∈ past → from_slice bytes = inl i → always (allowed q c) past (invoke i (call_timeout_ms c)).
Proof.
  intros He Hm Hp Hj Hc Hf. unfold invoke. destruct (parse_handle (target i)) as [h|] eqn:Eh; [|done]. cbn. split; [done|]. intros [ds|]; [|done].
  destruct (List.find (named i) ds) as [d|] eqn:Ed; [|done]. apply find_some in Ed as [Hd [H1 H2]%andb_true_iff]. apply bool_decide_eq_true in H1, H2. apply list_elem_of_In in Hd.
  destruct (MsgType.is_reply (d_mtype d)) eqn:Er; [done|]. destruct (d_decode d (i_payload i)) as [p|] eqn:Ep; [|done]. cbn. split; [done|]. intros t0.
  assert (Hauth : ∀ m, mode i = m → (m = MCall → supports_call d = true) → authorised q c ((past ++ [mkStep (DebugMessages h) (Some ds)]) ++ [mkStep Now t0]) h (d_mtype d) p m).
  { intros m Emode Hcall. repeat (split; [done|]). exists bytes, i, ds, d. split_and!; try done; set_solver. }
  destruct (mode i) eqn:Emode.
  - destruct (supports_call d) eqn:Es; [|done]. cbn. split; [by split; [apply Hauth|]|]. intros [reply|e|]; [|done|done]. by destruct (encode d reply).
  - cbn. split; [by apply Hauth|]. by intros [e|].
Qed.

Lemma serve_invoke_allowed q c past : method q = POST → path q = "/api/v1/debug/invoke" → always (allowed q c) past (serve_invoke to_vec from_slice q c).
Proof.
  intros Hm Hp. assert (Hr : ∀ e, always (allowed q c) past (discard q (send_api_error to_vec (responder q) e))) by (intros e; apply quiet_allowed, quiet_discard, quiet_api_error).
  unfold serve_invoke. destruct (enabled c) eqn:He; [|apply Hr]. cbn [negb]. destruct (is_some_and _ _); [apply Hr|]. destruct (is_json (content_type q)) eqn:Ej; [|apply Hr]. cbn [negb].
  cbn [bind op always]. split; [done|]. intros [bytes|e]; [|apply quiet_allowed, quiet_api_error]. cbn [bind]. destruct (from_slice bytes) as [i|e] eqn:Ef; [|apply quiet_allowed, quiet_api_error].
  apply always_bind; [eapply invoke_allowed; try done; set_solver|]. intros tr [y|e] _; apply quiet_allowed; [apply quiet_send_json|apply quiet_api_error].
Qed.

Lemma serve_allowed q cid c past : always (allowed q c) past (serve to_vec from_slice asset q cid c).
Proof.
  unfold serve. destruct (at_path q "/api/v1/debug/invoke" && bool_decide (method q = POST)) eqn:Ei.
  - apply andb_true_iff in Ei as [Hp%bool_decide_eq_true Hm%bool_decide_eq_true]. unfold at_path, is_get. rewrite Hp, Hm. cbn. by apply serve_invoke_allowed.
  - apply quiet_allowed. repeat (case_match; [first [by apply quiet_discard, quiet_send|by apply quiet_discard, quiet_stats|apply quiet_messages|by apply quiet_discard, quiet_api_error]|]).
    by apply quiet_discard, quiet_send.
Qed.

Lemma requests_allowed d qs past : always (λ past o, quiet_op o ∨ ∃ q, q ∈ qs ∧ allowed q (debug d) past o) past (on_requests to_vec from_slice asset d qs).
Proof.
  revert past. induction qs as [|q qs IH]; intros past; cbn [on_requests]; [done|]. apply always_bind.
  - pose proof (serve_allowed q (cluster_id d) (debug d) past) as Hs. revert past Hs. generalize (serve to_vec from_slice asset q (cluster_id d) (debug d)). induction p as [a|o k IHp]; cbn; intros past; [done|].
    intros [Ho Hk]. split; [right; exists q; split; [set_solver|done]|]. intros x. by apply IHp.
  - intros tr a _. specialize (IH (past ++ tr)%list). revert IH. generalize (past ++ tr)%list. generalize (on_requests to_vec from_slice asset d qs). induction p as [u|o k IHp]; cbn; intros l; [done|].
    intros [Ho Hk]. split; [|intros x; by apply IHp]. destruct Ho as [Ho|(q' & Hq & Ho)]; [by left|right; exists q'; split; [set_solver|done]].
Qed.

End confined.

Lemma init_binds parse_addr section cluster d0 d tr : reaches (init parse_addr section cluster d0) tr (Ret (d, None)) →
  ∃ c addr loopback l, section = Some c ∧ validate parse_addr c = inl (addr, loopback) ∧ debug d = mkDebug (debug_console c) (debug_call_timeout_ms c) ∧ mkStep (Bind addr) (inl l) ∈ tr.
Proof.
  unfold init. destruct section as [c|]; [|by intros [_ [=]]%ret_inv]. destruct (validate parse_addr c) as [[addr lb]|] eqn:Ev; [|by intros [_ [=]]%ret_inv]. cbn.
  intros (ok & tr1 & -> & H1)%returns_inv. destruct ok; cbn in H1; [|by apply ret_inv in H1 as [_ [=]]]. apply returns_inv in H1 as ([l|e] & tr2 & -> & H2); cbn in H2; [|by apply ret_inv in H2 as [_ [=]]].
  apply returns_inv in H2 as ([a|e] & tr3 & -> & H3); cbn in H3; apply ret_inv in H3 as [-> [= ->]]. exists c, addr, lb, l. split_and!; try done. set_solver.
Qed.

(** C39 The console is confined.  In every run of a dashboard that its [init] has set up, a
    message is sent or called only for a request that is a JSON POST to the path of the
    console, read within its limit, that names a message which the service offers, of a type
    that is no reply, with the payload which the descriptor made of the JSON; a call needs a
    descriptor that supports it and has the configured time; and then the console is on and
    the dashboard listens on a loopback address. *)
Theorem console_confined to_vec from_slice asset parse_addr section cluster d tr0 qs tr p :
  reaches (init parse_addr section cluster dashboard_new) tr0 (Ret (d, None)) → reaches (on_requests to_vec from_slice asset d qs) tr p →
  ∀ a s b, tr = (a ++ s :: b)%list → ¬ quiet_op (s_op s) →
    (∃ q, q ∈ qs ∧ allowed from_slice q (debug d) a (s_op s)) ∧
    ∃ c addr l, section = Some c ∧ parse_addr (address c) = Some (addr, true) ∧ mkStep (Bind addr) (inl l) ∈ tr0.
Proof.
  intros Hi Hr a s b He Hq. pose proof (always_reaches _ _ _ _ _ (requests_allowed to_vec from_slice asset d qs []) Hr a s b He) as [|(q & Hin & Ha)]; [done|]. split; [by exists q|].
  destruct (init_binds parse_addr section cluster _ d tr0 Hi) as (c & addr & lb & l & -> & Hv & Hd & Hb). exists c, addr, l. split_and!; [done| |done].
  assert (Hon : debug_console c = true). { cbn in Ha. destruct (s_op s); try done; cbn in Ha; [destruct Ha as [He' _]|destruct Ha as [[He' _] _]]; by rewrite Hd in He'. }
  unfold validate in Hv. rewrite Hon in Hv. destruct (negb _); [done|]. destruct (parse_addr (address c)) as [[addr' []]|]; [| |done]; case_decide; try done. by simplify_eq/=.
Qed.

(** ** Responses are whole *)

Definition response_op (o : Op) : bool := match o with Respond _ _ _ _ _ | WriteChunk _ _ | Finish _ => true | _ => false end.
Definition is_response (s : Step) : bool := response_op (s_op s).

(** The operations of a whole response. *)
Definition response (r st : Z) (ct : string) (extra : option (string * string)) (bytes : list Z) : list Op :=
  (Respond r st ct extra (Z.of_nat (length bytes)) :: (WriteChunk r <$> chunks bytes) ++ [Finish r])%list.

Lemma chunks_loop_right fuel l : (length l ≤ fuel)%nat → concat (chunks_loop fuel l) = l ∧ Forall (λ c, (0 < length c)%nat ∧ (Z.of_nat (length c) ≤ CHUNK)%Z) (chunks_loop fuel l).
Proof.
  assert (HC : (0 < Z.to_nat CHUNK)%nat) by (unfold CHUNK; lia). revert l. induction fuel as [|fuel IH]; intros l Hl; cbn [chunks_loop]; [by destruct l; [|cbn in Hl; lia]|].
  destruct l as [|x l']; [done|]. set (l := (x :: l')%list) in *. destruct (IH (drop (Z.to_nat CHUNK) l)) as [H1 H2]; [rewrite length_drop; unfold l in *; cbn [length] in *; lia|]. split.
  - cbn [concat]. by rewrite H1, take_drop.
  - constructor; [|done]. rewrite length_take. unfold l. cbn [length]. lia.
Qed.

Lemma chunks_right l : concat (chunks l) = l ∧ Forall (λ c, (0 < length c)%nat ∧ (Z.of_nat (length c) ≤ CHUNK)%Z) (chunks l).
Proof. by apply chunks_loop_right. Qed.

Lemma write_chunks_run r l tr p : reaches (write_chunks r l) tr p →
  s_op <$> tr `prefix_of` ((WriteChunk r <$> l) ++ [Finish r])%list ∧ Forall (λ s, is_response s = true) tr ∧ (p = Ret None → s_op <$> tr = ((WriteChunk r <$> l) ++ [Finish r])%list).
Proof.
  revert tr. induction l as [|c l IH]; intros tr; cbn [write_chunks].
  - intros [[-> ->]|(x & tr' & -> & [-> ->]%reaches_inv)]%reaches_inv; [split_and!; [apply prefix_nil|constructor|done]|]. split_and!; [done|by constructor|done].
  - cbn [bind op]. intros [[-> ->]|(x & tr' & -> & Hr)]%reaches_inv; [split_and!; [apply prefix_nil|constructor|done]|]. destruct x as [e|].
    + apply reaches_inv in Hr as [-> ->]. split_and!; [by apply prefix_cons, prefix_nil|by constructor|done].
    + apply IH in Hr as (H1 & H2 & H3). split_and!; [by apply prefix_cons|by constructor|]. intros Hp. rewrite fmap_cons. cbn [s_op]. by rewrite (H3 Hp).
Qed.

Lemma send_run r st ct bytes extra tr p : reaches (send r st ct bytes extra) tr p →
  s_op <$> tr `prefix_of` response r st ct extra bytes ∧ Forall (λ s, is_response s = true) tr ∧ (p = Ret None → s_op <$> tr = response r st ct extra bytes).
Proof.
  unfold send. cbn [bind op]. intros [[-> ->]|(x & tr' & -> & Hr)]%reaches_inv; [split_and!; [apply prefix_nil|constructor|done]|]. destruct x as [e|].
  - apply reaches_inv in Hr as [-> ->]. split_and!; [by apply prefix_cons, prefix_nil|by constructor|done].
  - apply write_chunks_run in Hr as (H1 & H2 & H3). split_and!; [by apply prefix_cons|by constructor|]. intros Hp. rewrite fmap_cons. cbn [s_op]. by rewrite (H3 Hp).
Qed.

(** A program that ends with one response, or fails before it. *)
Inductive answering (r : Z) : Prog (option HttpError) → Prop :=
  | answering_fail e : answering r (Ret (Some e))
  | answering_do o k : response_op o = false → (∀ x, answering r (k x)) → answering r (Do o k)
  | answering_send st ct bytes extra : answering r (send r st ct bytes extra).

Lemma answering_bind {A} r (p : Prog A) f : only (λ o, response_op o = false) p → (∀ a, answering r (f a)) → answering r (bind p f).
Proof. intros Hp Hf. induction p as [a|o k IH]; cbn; [apply Hf|]. destruct Hp as [Ho Hk]. apply answering_do; [done|]. intros x. apply IH, Hk. Qed.

Lemma filter_responses tr : Forall (λ s, is_response s = true) tr → List.filter is_response tr = tr.
Proof. induction 1 as [|s tr Hs Htr IH]; [done|]. cbn. by rewrite Hs, IH. Qed.

Lemma answering_run r p tr q : answering r p → reaches p tr q →
  ∃ st ct extra bytes, s_op <$> List.filter is_response tr `prefix_of` response r st ct extra bytes ∧ (q = Ret None → s_op <$> List.filter is_response tr = response r st ct extra bytes).
Proof.
  intros Ha. revert tr. induction Ha as [e|o k Ho Hk IH|st ct bytes extra]; intros tr.
  - intros [-> ->]%reaches_inv. exists 0%Z, "", None, []. split; [apply prefix_nil|done].
  - intros [[-> ->]|(x & tr' & -> & Hr)]%reaches_inv; [exists 0%Z, "", None, []; split; [apply prefix_nil|done]|]. cbn [List.filter]. assert (is_response (mkStep o x) = false) as -> by exact Ho. by eapply IH.
  - intros Hr. apply send_run in Hr as (H1 & H2 & H3). exists st, ct, extra, bytes. by rewrite filter_responses.
Qed.

Section whole.
  Context (to_vec : Body → list Z + HttpError) (from_slice : list Z → DebugInvocation + string) (asset : string → list Z).

Lemma answering_json r st b extra : answering r (send_json to_vec r st b extra).
Proof. unfold send_json. destruct (to_vec b); [apply answering_send|apply answering_fail]. Qed.

Lemma answering_error r e : answering r (send_api_error to_vec r e).
Proof. apply answering_json. Qed.

Lemma answering_discard q k : answering (responder q) k → answering (responder q) (discard q k).
Proof. intros Hk. cbn. apply answering_do; [done|]. intros [e|]; [apply answering_fail|done]. Qed.

Lemma answering_stats q cid c : answering (responder q) (serve_stats to_vec q cid c).
Proof. cbn. do 3 (apply answering_do; [done|]; intros ?). destruct x1 as [j|e]; [|apply answering_fail]. destruct (to_vec _); [apply answering_send|apply answering_fail]. Qed.

Lemma services_unanswered l out : only (λ o, response_op o = false) (services_loop l out).
Proof. revert out. induction l as [|s l IH]; intros out; cbn; [done|]. destruct (negb _); [apply IH|]. cbn. split; [done|]. intros [ms|]; apply IH. Qed.

Lemma invoke_unanswered i t : only (λ o, response_op o = false) (invoke i t).
Proof.
  unfold invoke. destruct (parse_handle _); [|done]. cbn. split; [done|]. intros [ds|]; [|done]. destruct (List.find _ ds) as [d|]; [|done]. destruct (MsgType.is_reply _); [done|].
  destruct (d_decode _ _); [|done]. cbn. split; [done|]. intros ?. destruct (mode i); [destruct (supports_call d); [|done]|]; cbn; (split; [done|]).
  - intros [reply|e|]; [|done|done]. by destruct (encode d reply).
  - by intros [e|].
Qed.

Lemma answering_invoke q c : answering (responder q) (serve_invoke to_vec from_slice q c).
Proof.
  assert (Hr : ∀ e, answering (responder q) (discard q (send_api_error to_vec (responder q) e))) by (intros e; apply answering_discard, answering_error).
  unfold serve_invoke. destruct (enabled c); [|apply Hr]. cbn [negb]. destruct (is_some_and _ _); [apply Hr|]. destruct (is_json _); [|apply Hr]. cbn [negb bind op]. apply answering_do; [done|].
  intros [bytes|e]; [|apply answering_error]. destruct (from_slice bytes) as [i|e]; [|apply answering_error]. apply answering_bind; [apply invoke_unanswered|].
  intros [y|e]; [apply answering_json|apply answering_error].
Qed.

Lemma answering_messages q : answering (responder q) (discard q (bind debug_services (λ l, send_json to_vec (responder q) OK (BServices l) None))).
Proof. apply answering_discard, answering_bind; [|intros; apply answering_json]. cbn. split; [done|]. intros l. apply services_unanswered. Qed.

Lemma answering_serve q cid c : answering (responder q) (serve to_vec from_slice asset q cid c).
Proof.
  unfold serve. repeat (case_match; [first [by apply answering_discard, answering_send|by apply answering_discard, answering_stats|apply answering_messages|apply answering_invoke|by apply answering_discard, answering_error]|]).
  by apply answering_discard, answering_send.
Qed.

(** C40 A request gets one response, whole or not at all.  Whatever the node and the network
    answer, what [serve] has sent for a request is a beginning of one response: its head, as
    many bytes as the head announces, in pieces that are not empty and within the limit, and
    the end; and all of it when [serve] succeeds. *)
Theorem response_whole q cid c tr p : reaches (serve to_vec from_slice asset q cid c) tr p →
  ∃ st ct extra bytes, s_op <$> List.filter is_response tr `prefix_of` response (responder q) st ct extra bytes ∧
    (p = Ret None → s_op <$> List.filter is_response tr = response (responder q) st ct extra bytes) ∧
    concat (chunks bytes) = bytes ∧ Forall (λ c, (0 < length c)%nat ∧ (Z.of_nat (length c) ≤ CHUNK)%Z) (chunks bytes).
Proof.
  intros Hr. destruct (answering_run _ _ _ _ (answering_serve q cid c) Hr) as (st & ct & extra & bytes & H1 & H2). exists st, ct, extra, bytes. split; [done|]. split; [done|]. apply chunks_right.
Qed.
End whole.

(** ** Handles on the page come back *)

Lemma lower_hex_length n z acc : (String.length (AddrText.lower_hex n z acc) ≤ n + String.length acc)%nat.
Proof. revert z acc. induction n as [|n IH]; intros z acc; cbn [AddrText.lower_hex]; [done|]. case_decide; cbn [String.length]; [lia|]. rewrite IH. cbn [String.length]. lia. Qed.

Lemma zeros_length n s : String.length (AddrText.zeros n s) = (n + String.length s)%nat.
Proof. induction n as [|n IH]; cbn; [done|]. by rewrite IH. Qed.

Lemma fmt_length h : (8 ≤ String.length (AddrText.fmt_08x h) ≤ 16)%nat.
Proof. unfold AddrText.fmt_08x. rewrite zeros_length. pose proof (lower_hex_length 16 h ""). cbn [String.length] in *. lia. Qed.

Theorem handle_round_trip h : is_u64 h → parse_handle (format_handle h) = inl h.
Proof.
  intros Hh. unfold format_handle, parse_handle. rewrite decide_True by done. pose proof (fmt_length h) as Hl. rewrite decide_False.
  - by rewrite AddrText.from_str_radix_fmt.
  - intros [He|]; [rewrite He in Hl; cbn in Hl; lia|lia].
Qed.

(** ** Examples *)

Definition x_to_vec (b : Body) : list Z + HttpError := inl [123; 125]%Z.
Definition x_number : MessageTy :=
  mkTy Z "Number" (Schema.scalar "integer") (λ j, match j with Schema.JInt z => inl z | _ => inr Message.Json end) (λ z, inl (Schema.JInt z)) (λ z, PBoxed 1 z)
    (λ p, match p with PBoxed _ o => inl o | _ => inr (PayloadMismatch "Number") end).
Definition x_descriptor : DebugMessageDescriptor := call_descriptor x_number x_number "double" MsgType.USER.
Definition x_invocation : DebugInvocation := mkInvocation ":0000000b" "double" MsgType.USER MCall (Schema.JInt 21).
Definition x_from_slice (l : list Z) : DebugInvocation + string := inl x_invocation.
Definition x_asset (n : string) : list Z := Plugin.bytes_of n.
Definition x_parse (s : string) : option (string * bool) := if decide (s = "127.0.0.1:8080") then Some (s, true) else None.
Definition x_section : option DashboardConfig := Some (mkConfig "127.0.0.1:8080" true 5000).
Definition x_dashboard : Dashboard := mkDashboard None (mkDebug true 5000).
Definition x_request : Request := mkRequest 4 POST "/api/v1/debug/invoke" (Some 20%Z) "Application/JSON; charset=utf-8".

Definition x_init : list Step := [mkStep (RegisterName "dashboard") true; mkStep (Bind "127.0.0.1:8080") (inl 1%Z); mkStep (LocalAddr 1) (inl "127.0.0.1:8080")].
Definition x_before : list Step := [mkStep (Collect 4 DEBUG_BODY_LIMIT) (inl [1; 2]%Z); mkStep (DebugMessages 11) (Some [x_descriptor]); mkStep Now 100%Z].
Definition x_call : Step := mkStep (Call 11 MsgType.USER (PBoxed 1 21) 5000) (Replied (PBoxed 1 42)).
Definition x_after : list Step := [mkStep Now 107%Z; mkStep (Respond 4 OK "application/json; charset=utf-8" None 2) None; mkStep (WriteChunk 4 [123; 125]%Z) None; mkStep (Finish 4) None].

Lemma x_init_runs : reaches (init x_parse x_section None dashboard_new) x_init (Ret (x_dashboard, None)).
Proof. repeat constructor. Qed.

Lemma x_serve_runs : reaches (serve x_to_vec x_from_slice x_asset x_request None (debug x_dashboard)) (x_before ++ x_call :: x_after)%list (Ret None).
Proof. repeat constructor. Qed.

Lemma x_requests_run : reaches (on_requests x_to_vec x_from_slice x_asset x_dashboard [x_request]) (x_before ++ x_call :: x_after)%list (Ret tt).
Proof. repeat constructor. Qed.

Lemma console_confined_witness : (∃ q, q ∈ [x_request] ∧ allowed x_from_slice q (debug x_dashboard) x_before (s_op x_call)) ∧
  ∃ c addr l, x_section = Some c ∧ x_parse (address c) = Some (addr, true) ∧ mkStep (Bind addr) (inl l) ∈ x_init.
Proof. exact (console_confined x_to_vec x_from_slice x_asset x_parse x_section None x_dashboard x_init [x_request] _ _ x_init_runs x_requests_run x_before x_call x_after eq_refl id). Defined.

Lemma response_whole_witness : ∃ st ct extra bytes, s_op <$> List.filter is_response (x_before ++ x_call :: x_after)%list = response 4 st ct extra bytes.
Proof.
  destruct (response_whole x_to_vec x_from_slice x_asset x_request None (debug x_dashboard) _ _ x_serve_runs) as (st & ct & extra & bytes & _ & H & _). exists st, ct, extra, bytes. by apply H.
Defined.
End Dashboard.
