(* ===== verification/Bootstrap.v ===== *)
(** * Kinds of services and the bootstrap service

    [rskynet-core/src/module.rs], the registry of the kinds of services, with the services
    that the linker collects, and [rskynet-bootstrap/src/lib.rs], the service that launches
    the services of the configuration.  A constructor is a number; the bootstrap service is a
    program over [launch] and [exit]. *)
From S2P Require Import Prelude Message Plugin PluginOrder.
From Stdlib Require Import Ascii String.
From stdpp Require Import strings sorting.
#[local] Open Scope string_scope.

Module Bootstrap.

(** ** The registry *)

(** A constructor, and whether it makes an exclusive service. *)
Record Factory : Type := mkFactory { constructor : Z; exclusive : bool }.

Abbreviation Registry := (gmap string Factory).

Definition register (kind : string) (c : Z) (r : Registry) : Registry := <[kind := mkFactory c false]> r.
Definition register_exclusive (kind : string) (c : Z) (r : Registry) : Registry := <[kind := mkFactory c true]> r.
Definition contains (kind : string) (r : Registry) : bool := bool_decide (is_Some (r !! kind)).
Definition get (kind : string) (r : Registry) : option Factory := r !! kind.

(** A service of the linker, with the function that registers it. *)
Record AutoService : Type := mkAuto { a_name : string; a_exclusive : bool; a_source : string; a_register : Registry → Registry }.

Definition sort_key (a : AutoService) : string * string * string := (a_name a, a_source a, "").
Definition auto_le (a b : AutoService) : Prop := Plugin.key_le (sort_key a) (sort_key b) = true.

#[global] Instance auto_le_dec a b : Decision (auto_le a b).
Proof. unfold auto_le. apply _. Defined.

(** The pairs of neighbours with one name. *)
Fixpoint twice (l : list AutoService) : option (string * string * string) :=
  match l with
  | a :: (b :: _) as l => if decide (a_name a = a_name b) then Some (a_name a, a_source a, a_source b) else twice l
  | _ => None
  end.

Definition from_auto (l : list AutoService) : Registry + string * string * string :=
  let services := merge_sort auto_le l in
  match twice services with
  | Some e => inr e
  | None => inl (fold_left (λ r a, a_register a r) services ∅)
  end.

(** What [service(name = "...")] and [exclusive(name = "...")] submit. *)
Definition submitted (name source : string) (c : Z) (excl : bool) : AutoService :=
  mkAuto name excl source (if excl then register_exclusive name c else register name c).

(** ** The bootstrap service *)

Record ServiceSpec : Type := mkSpec { name : string; args : string }.

(** What [init] asks of the node, in order. *)
Inductive Prog : Type :=
  | Launch (name args : string) (k : Handle + Error → Prog)
  | Exit (k : Prog)
  | Return (r : option Error).

Fixpoint init (services : list ServiceSpec) : Prog :=
  match services with
  | [] => Exit (Return None)
  | s :: services =>
      if negb (Plugin.validate_identifier (name s)) then Return (Some (Config "bootstrap")) else
      Launch (name s) (args s) (λ r, match r with inl _ => init services | inr e => Return (Some e) end)
  end.

(** The operations of a run, with the answers to launches. *)
Inductive Did : Type := Launched (name args : string) (r : Handle + Error) | Exited.

Inductive runs : Prog → list Did → Prog → Prop :=
  | runs_here p : runs p [] p
  | runs_launch n a k r l p : runs (k r) l p → runs (Launch n a k) (Launched n a r :: l) p
  | runs_exit k l p : runs k l p → runs (Exit k) (Exited :: l) p.

(** ** The registry does not depend on the linker *)

#[local] Existing Instance PluginOrder.key_order_total.
#[local] Existing Instance PluginOrder.key_order_antisym.
#[local] Existing Instance PluginOrder.key_order_trans.

#[local] Instance auto_le_total : Total auto_le.
Proof. intros a b. apply PluginOrder.key_order_total. Qed.

#[local] Instance auto_le_trans : Transitive auto_le.
Proof. intros a b c. apply (transitivity (R := PluginOrder.key_order)). Qed.

Lemma sorted_auto_keys l : Sorted auto_le l → Sorted PluginOrder.key_order (sort_key <$> l).
Proof. induction 1 as [|x l Hl IH Hx]; cbn; constructor; [done|]. by destruct Hx; constructor. Qed.

Lemma twice_cons a b l : twice (a :: b :: l) = if decide (a_name a = a_name b) then Some (a_name a, a_source a, a_source b) else twice (b :: l).
Proof. done. Qed.

Lemma same_keys (l l' : list AutoService) : l ≡ₚ l' → sort_key <$> merge_sort auto_le l = sort_key <$> merge_sort auto_le l'.
Proof.
  intros Hp. apply (Sorted_unique PluginOrder.key_order); [apply sorted_auto_keys, Sorted_merge_sort, _|apply sorted_auto_keys, Sorted_merge_sort, _|].
  by rewrite !merge_sort_Permutation, Hp.
Qed.

Lemma twice_keys (l l' : list AutoService) : sort_key <$> l = sort_key <$> l' → twice l = twice l'.
Proof.
  revert l'. induction l as [|a l IH]; intros [|a' l'] He; try done. rewrite !fmap_cons in He. injection He as E1 E2 He. specialize (IH l' He). destruct l as [|b l], l' as [|b' l']; try done.
  rewrite !fmap_cons in He. injection He as E3 E4 _. by rewrite !twice_cons, E1, E2, E3, E4, IH.
Qed.

Lemma same_elements (l l' : list AutoService) : l ≡ₚ l' → sort_key <$> l = sort_key <$> l' → NoDup (a_name <$> l) → l = l'.
Proof.
  intros Hp He Hn. apply list_eq_same_length with (length l); [by apply Permutation_length|done|]. intros i x y _ Hx Hy.
  assert (Hxy : a_name x = a_name y). { assert (Hk : (sort_key <$> l) !! i = (sort_key <$> l') !! i) by by rewrite He. rewrite !list_lookup_fmap, Hx, Hy in Hk. by injection Hk. }
  apply list_elem_of_lookup_2 in Hy. rewrite <- Hp in Hy. apply list_elem_of_lookup in Hy as [j Hj]. assert (i = j) as ->; [|congruence].
  eapply NoDup_lookup; [exact Hn| |]; rewrite list_lookup_fmap, ?Hx, ?Hj; cbn; by rewrite ?Hxy.
Qed.

Lemma str_between a b c : Plugin.str_le a b = true → Plugin.str_le b c = true → a = c → a = b.
Proof. intros H1 H2 <-. by apply PluginOrder.str_le_antisym. Qed.

Lemma auto_le_name a b : auto_le a b → Plugin.str_le (a_name a) (a_name b) = true.
Proof. unfold auto_le, Plugin.key_le. cbn. case_decide as He; [|done]. intros _. rewrite He. apply PluginOrder.str_le_refl. Qed.

Lemma twice_none (l : list AutoService) : StronglySorted auto_le l → twice l = None ↔ NoDup (a_name <$> l).
Proof.
  induction 1 as [|a l Hl IH Ha]; [split; [constructor|done]|]. rewrite fmap_cons, NoDup_cons. destruct l as [|b l]; [cbn; split; [split; [set_solver|constructor]|done]|]. rewrite twice_cons.
  inversion Hl as [|? ? Hl' Hb]; subst. destruct (decide (a_name a = a_name b)) as [Hab|Hab]; [split; [done|intros [Hn _]; destruct Hn; rewrite fmap_cons, Hab; set_solver]|]. rewrite IH. split; [|tauto].
  intros Hn. split; [|done]. rewrite fmap_cons, not_elem_of_cons. split; [done|]. intros (c & Hc & Hin)%list_elem_of_fmap. apply Hab.
  eapply str_between; [apply auto_le_name; by eapply Forall_inv in Ha|apply auto_le_name; eapply Forall_forall in Hb; [exact Hb|exact Hin]|done].
Qed.

(** The registry that the linked services make depends neither on the order in which the
    linker lists them nor, when two have one name, does the error; and there is a registry
    exactly when all names are different. *)
Theorem link_order_irrelevant (l : list AutoService) : ((∃ r, from_auto l = inl r) ↔ NoDup (a_name <$> l)) ∧ ∀ l', l ≡ₚ l' → from_auto l' = from_auto l.
Proof.
  assert (Hsort : ∀ l, twice (merge_sort auto_le l) = None ↔ NoDup (a_name <$> l)).
  { intros k. rewrite twice_none by (apply StronglySorted_merge_sort; apply _). by rewrite merge_sort_Permutation. }
  unfold from_auto. split.
  - rewrite <- Hsort. destruct (twice _); split; try done; [by intros [? ?]|eauto].
  - intros l' Hp. pose proof (same_keys l l' Hp) as Hk. rewrite <- (twice_keys _ _ Hk). destruct (twice (merge_sort auto_le l)) eqn:Et; [done|].
    rewrite (same_elements (merge_sort auto_le l) (merge_sort auto_le l')); [done|by rewrite !merge_sort_Permutation|done|]. apply Hsort in Et. by rewrite merge_sort_Permutation.
Qed.

Lemma registered_others (l : list AutoService) r n : Forall (λ a, ∃ c, a = submitted (a_name a) (a_source a) c (a_exclusive a)) l → n ∉ a_name <$> l →
  fold_left (λ r a, a_register a r) l r !! n = r !! n.
Proof.
  intros Hl. revert r. induction Hl as [|a l [c Ha] Hl IH]; intros r Hn; [done|]. cbn [fold_left]. rewrite fmap_cons, not_elem_of_cons in Hn. destruct Hn as [Hna Hn]. rewrite IH by done.
  rewrite Ha. unfold submitted, register, register_exclusive. cbn. destruct (a_exclusive a); cbv beta; by rewrite lookup_insert_ne.
Qed.

(** Every linked service is found under its name, with its own constructor. *)
Theorem linked_service_found l r n src c e : Forall (λ a, ∃ c, a = submitted (a_name a) (a_source a) c (a_exclusive a)) l → from_auto l = inl r →
  submitted n src c e ∈ l → get n r = Some (mkFactory c e).
Proof.
  intros Hl Hf Hin. assert (Hn : NoDup (a_name <$> l)) by (apply link_order_irrelevant; eauto). unfold from_auto in Hf. destruct (twice _); [done|]. injection Hf as <-.
  assert (Hp : merge_sort auto_le l ≡ₚ l) by apply merge_sort_Permutation. rewrite <- Hp in Hl, Hn, Hin. revert Hl Hn Hin. generalize (merge_sort auto_le l) as k. clear. intros k. generalize (∅ : gmap string Factory).
  induction k as [|a k IH]; intros r Hl Hn Hin; [set_solver|]. inversion Hl as [|? ? [c' Ha] Hl']; subst. rewrite fmap_cons, NoDup_cons in Hn. destruct Hn as [Hna Hn]. cbn [fold_left].
  apply elem_of_cons in Hin as [<-|Hin]; [|by apply IH]. unfold get. rewrite registered_others by done. unfold submitted, register, register_exclusive. cbn. destruct e; cbv beta; by rewrite lookup_insert_eq.
Qed.

(** ** Services are launched in order *)

Definition launched (d : Did) : option (string * string) := match d with Launched n a _ => Some (n, a) | Exited => None end.

(** Every service is launched after those before it in the configuration have been, and
    their initialisation has succeeded; [exit] comes after all of them. *)
Theorem bootstrap_in_order services l p : runs (init services) l p →
  omap launched l `prefix_of` ((λ s, (name s, args s)) <$> services) ∧
  (∀ a d b, l = (a ++ d :: b)%list → ∀ n x r, Launched n x r ∈ a → ∃ h, r = inl h) ∧
  (Exited ∈ l → omap launched l = (λ s, (name s, args s)) <$> services).
Proof.
  revert l. induction services as [|s services IH]; intros l; cbn [init].
  - intros Hr. inversion Hr as [| |? ? ? Hr']; subst; [split_and!; [apply prefix_nil|by intros [] ? ? ?|set_solver]|]. inversion Hr'; subst. split_and!; [done| |done].
    intros [|d' a] d b He; injection He as <- He; [set_solver|by destruct a].
  - destruct (negb _); [intros Hr; inversion Hr; subst; split_and!; [apply prefix_nil|by intros [] ? ? ?|set_solver]|]. intros Hr.
    inversion Hr as [|? ? ? r l' ? Hr'|]; subst; [split_and!; [apply prefix_nil|by intros [] ? ? ?|set_solver]|]. cbn. destruct r as [h|e].
    + destruct (IH l' Hr') as (H1 & H2 & H3). split_and!; [by apply prefix_cons| |].
      * intros [|d' a] d b He n x r Hin; [set_solver|]. injection He as <- He. apply elem_of_cons in Hin as [[= -> -> ->]|Hin]; [eauto|]. by eapply H2.
      * intros [?|Hin]%elem_of_cons; [done|]. by rewrite H3.
    + inversion Hr'; subst. split_and!; [by apply prefix_cons, prefix_nil| |set_solver]. intros [|d' a] d b He; injection He as <- He; [set_solver|by destruct a].
Qed.

End Bootstrap.
