(* ===== verification/PluginMacro.v ===== *)
(** * The macro [service_plugin]

    [rskynet-macros/src/plugin.rs]: from an [impl] block the macro makes an [impl
    ServicePlugin], whose [handle] sends a command to its handler, and the descriptor that
    registers the plugin.  Syntax is that of [Macros.v]; the arms for enums come in the order
    of a hash map, which is any order. *)
From S2P Require Import Prelude Message Macros.
From Stdlib Require Import Ascii String.
From stdpp Require Import strings.
Import Macros.
#[local] Open Scope string_scope.

Module PluginMacro.

(** ** Arguments *)

(** [crate] is a keyword, which is no identifier. *)
Inductive ArgTok : Type :=
  | TDebug | TKeyword (k : string) | TNamespace (s : string) | TName (s : string) | TFactory (p : Path) | TDependencies (l : list string) | TUnknown.

Inductive Fault : Type :=
  | ArgSyntax | DebugAllTwice | ArgUnknown | NoNamespace | NoName | NoFactory | TraitImpl | DebugWithoutMsg | MsgTwice | MsgSyntax | DebugTwice | DebugUnknown | DebugValue
  | HandlerNotAsync | HandlerArgs | ShortVariant | MixedHandlers | PlainTwice | MixedEnvelopes | SameVariant.

#[local] Notation "'let?' x := e 'in' k" := (match e with inl x => k | inr f => inr f end) (at level 10, x pattern, e at level 100, k at level 200).

Record Args : Type := mkArgs { namespace : option string; p_name : option string; p_factory : option Path; p_dependencies : option (list string); debug_all : bool }.

Fixpoint parse_args (l : list ArgTok) (a : Args) : Args + Fault :=
  match l with
  | [] => inl a
  | TKeyword _ :: _ => inr ArgSyntax
  | TDebug :: l => if debug_all a then inr DebugAllTwice else parse_args l (mkArgs (namespace a) (p_name a) (p_factory a) (p_dependencies a) true)
  | TNamespace s :: l => parse_args l (mkArgs (Some s) (p_name a) (p_factory a) (p_dependencies a) (debug_all a))
  | TName s :: l => parse_args l (mkArgs (namespace a) (Some s) (p_factory a) (p_dependencies a) (debug_all a))
  | TFactory p :: l => parse_args l (mkArgs (namespace a) (p_name a) (Some p) (p_dependencies a) (debug_all a))
  | TDependencies d :: l => parse_args l (mkArgs (namespace a) (p_name a) (p_factory a) (Some d) (debug_all a))
  | TUnknown :: _ => inr ArgUnknown
  end.

(** ** Handlers *)

(** What begins with [variant =] is read as an expression. *)
Definition parse_msg (l : list MsgTok) : Expr * option Path + Fault :=
  match l with
  | [] => inr MsgSyntax
  | t :: l =>
      let e := match t with MType e => e | MVariant p => EElse ("variant = " ++ String.concat "::" p) end in
      match l with [] => inl (e, None) | [MVariant p] => inl (e, Some p) | _ => inr MsgSyntax end
  end.

Definition take_msg (f : ImplFn) : ImplFn * option (Expr * option Path) + Fault :=
  if decide (1 < length (omap msg_attr (attrs f)))%nat then inr MsgTwice else
  match take_attr msg_attr (attrs f) with
  | None => inl (f, None)
  | Some (None, _) => inr MsgSyntax
  | Some (Some l, rest) => let? r := parse_msg l in inl (mkFn rest (sig f) (block f), Some r)
  end.

Fixpoint debug_names (l : list DebugTok) (name : option string) : option string + Fault :=
  match l with [] => inl name | DName s :: l => debug_names l (Some s) | DElse :: _ => inr DebugUnknown end.

Definition take_debug (f : ImplFn) : ImplFn * option (option string) + Fault :=
  if decide (1 < length (omap debug_attr (attrs f)))%nat then inr DebugTwice else
  match take_attr debug_attr (attrs f) with
  | None => inl (f, None)
  | Some (m, rest) =>
      let f := mkFn rest (sig f) (block f) in
      match m with
      | DPath => inl (f, Some None)
      | DList l => let? name := debug_names l None in inl (f, Some name)
      | DNameValue => inr DebugValue
      end
  end.

Record Handler : Type := mkHandler {
  method : string;
  command : Expr;
  variant : option (Path * Path);
  takes_ctx : bool;
  arg : option Ty;
  response : option Ty;
  debug_name : option string;
}.

Definition typed_of (l : list FnArg) : list Ty := omap (λ a, match a with Typed ty => Some ty | _ => None end) l.

Definition variant_of (p : Path) : Path * Path + Fault := if decide (length p < 2)%nat then inr ShortVariant else inl (p, removelast p).

Definition parse_handler (f : ImplFn) (route : Expr * option Path) (debug : option (option string)) (debug_all : bool) : Handler + Fault :=
  if negb (asyncness (sig f)) then inr HandlerNotAsync else
  let typed := typed_of (inputs (sig f)) in
  if decide (2 < length typed)%nat then inr HandlerArgs else
  let? v := match route.2 with None => inl None | Some p => let? v := variant_of p in inl (Some v) end in
  let n := ident (sig f) in
  inl (mkHandler n route.1 v (negb (bool_decide (typed = []))) (typed !! 1%nat) (return_type (output (sig f)))
         (match debug with Some name => Some (default n name) | None => if debug_all then Some n else None end)).

(** ** The generated [handle] *)

(** The checks of [dispatch]: plain commands, and for a command with variants its enum and
    the variants seen. *)
Record Seen : Type := mkSeen { plain : list Expr; variants : list (Expr * (Path * list Path)) }.

Fixpoint seen_group (e : Expr) (l : list (Expr * (Path * list Path))) : option (Path * list Path) :=
  match l with [] => None | (e', g) :: l => if decide (e' = e) then Some g else seen_group e l end.

Definition check_handler (h : Handler) (s : Seen) : Seen + Fault :=
  match variant h with
  | None =>
      if bool_decide (is_Some (seen_group (command h) (variants s))) then inr MixedHandlers
      else if bool_decide (command h ∈ plain s) then inr PlainTwice
      else inl (mkSeen (command h :: plain s) (variants s))
  | Some (p, env) =>
      if bool_decide (command h ∈ plain s) then inr MixedHandlers else
      let g := default (env, []) (seen_group (command h) (variants s)) in
      if negb (bool_decide (g.1 = env)) then inr MixedEnvelopes
      else if bool_decide (p ∈ g.2) then inr SameVariant
      else inl (mkSeen (plain s) ((command h, (g.1, p :: g.2)) :: variants s))
  end.

Fixpoint check_handlers (hs : list Handler) (s : Seen) : Seen + Fault :=
  match hs with [] => inl s | h :: hs => let? s := check_handler h s in check_handlers hs s end.

(** A group: the command, its enum and its handlers. *)
Definition Groups : Type := list (Expr * (Path * list Handler)).

(** [entry(..).or_insert(..).2.push(..)]. *)
Fixpoint push_group (h : Handler) (env : Path) (l : Groups) : Groups :=
  match l with
  | [] => [(command h, (env, [h]))]
  | (e, (env', hs)) :: l => if decide (e = command h) then (e, (env', hs ++ [h])) :: l else (e, (env', hs)) :: push_group h env l
  end%list.

Fixpoint build (hs : list Handler) (plain : list Handler) (groups : Groups) : list Handler * Groups :=
  match hs with
  | [] => (plain, groups)
  | h :: hs => match variant h with Some (_, env) => build hs plain (push_group h env groups) | None => build hs (plain ++ [h])%list groups end
  end.

(** The arms of [handle]: those for plain commands and then the groups. *)
Record Handle : Type := mkHandle { h_plain : list Handler; h_groups : Groups }.

Definition dispatch (hs : list Handler) : Handle + Fault :=
  let? _ := check_handlers hs (mkSeen [] []) in let (ps, gs) := build hs [] [] in inl (mkHandle ps gs).

(** ** Descriptors and the expansion *)

Record Descriptor : Type := mkDescriptor { d_name : string; d_request : Ty; d_response : option Ty; d_command : Expr; d_constructor : option Path }.

Definition debug_messages (plugin_name : string) (hs : list Handler) : list Descriptor :=
  omap (λ h, (λ label, mkDescriptor (plugin_name ++ "." ++ label) (default TUnit (arg h)) (response h) (command h) (fst <$> variant h)) <$> debug_name h) hs.

Record Sorted : Type := mkSorted { handlers : list Handler; methods : list ImplItem; has_mount : bool; has_init : bool }.

Fixpoint sort_items (debug_all : bool) (l : list ImplItem) (s : Sorted) : Sorted + Fault :=
  match l with
  | [] => inl s
  | IOther t :: l => sort_items debug_all l (mkSorted (handlers s) (methods s ++ [IOther t]) (has_mount s) (has_init s))
  | IFn f :: l =>
      let? (f, route) := take_msg f in
      let? (f, debug) := take_debug f in
      match route with
      | Some route => let? h := parse_handler f route debug debug_all in sort_items debug_all l (mkSorted (handlers s ++ [h]) (methods s ++ [IFn f]) (has_mount s) (has_init s))
      | None =>
          match debug with
          | Some _ => inr DebugWithoutMsg
          | None => sort_items debug_all l (mkSorted (handlers s) (methods s ++ [IFn f]) (has_mount s || bool_decide (ident (sig f) = "mount")) (has_init s || bool_decide (ident (sig f) = "init")))
          end
      end
  end%list.

Record Expansion : Type := mkExpansion {
  x_block : list ImplItem;
  x_mount : bool;
  x_init : bool;
  x_handle : Handle;
  x_debug : list Descriptor;
  x_namespace : string;
  x_name : string;
  x_factory : Path;
  x_dependencies : list string;
  x_commands : list Expr;
}.

(** The commands, each at its first place. *)
Fixpoint first_seen (l : list Expr) (seen : list Expr) : list Expr :=
  match l with [] => [] | e :: l => if decide (e ∈ seen) then first_seen l seen else e :: first_seen l (e :: seen) end.

Definition try_expand (attr : list ArgTok) (b : ItemImpl) : Expansion + Fault :=
  let? a := parse_args attr (mkArgs None None None None false) in
  let? ns := match namespace a with Some x => inl x | None => inr NoNamespace end in
  let? n := match p_name a with Some x => inl x | None => inr NoName end in
  let? fac := match p_factory a with Some x => inl x | None => inr NoFactory end in
  if trait_ b then inr TraitImpl else
  let? s := sort_items (debug_all a) (items b) (mkSorted [] [] false false) in
  let? h := dispatch (handlers s) in
  inl (mkExpansion (methods s) (has_mount s) (has_init s) h (debug_messages n (handlers s)) ns n fac (default [] (p_dependencies a)) (first_seen (command <$> handlers s) [])).

(** ** What a generated [handle] does *)

Inductive Refusal : Type := BadPayload | NoVariant | UnknownCommand | NotDelivered.

Section run.
  (** The meaning of the expressions of commands; conversions and results as in [Macros.v];
      whether a reply can be sent. *)
  Context {V : Type} (meaning : Expr → Z) (from_payload : Ty → Payload → option V) (decode : Path → Payload → option (string * V)) (result : string → option V → Payload) (delivered : Message → bool).

(** What happened, and the error that is returned. *)
Abbreviation Outcome := (list (Effect (V := V)) * option Refusal)%type.

Definition finish (h : Handler) (v : option V) (m : Message) : Outcome :=
  if bool_decide (is_Some (response h)) && needs_reply m then
    if delivered m then ([Call (method h) v; Reply m (result (method h) v)], None) else ([Call (method h) v], Some NotDelivered)
  else ([Call (method h) v], None).

Definition run_plain (h : Handler) (m : Message) : Outcome :=
  match arg h with
  | None => finish h None m
  | Some ty => match from_payload ty (payload m) with Some v => finish h (Some v) m | None => ([], Some BadPayload) end
  end.

Definition variant_call (h : Handler) (v : V) (m : Message) : Outcome :=
  let x := match arg h with Some _ => Some v | None => None end in
  if bool_decide (is_Some (response h)) then finish h x m
  else if needs_reply m then (if delivered m then ([ReplyError m], None) else ([], Some NotDelivered))
  else ([Call (method h) x], None).

Definition takes (n : string) (h : Handler) : bool := match variant h with Some (p, _) => bool_decide (last p = Some n) | None => false end.

Definition run_group (env : Path) (hs : list Handler) (m : Message) : Outcome :=
  match decode env (payload m) with
  | None => ([], Some BadPayload)
  | Some (n, v) => match List.find (takes n) hs with Some h => variant_call h v m | None => ([], Some NoVariant) end
  end.

(** [handle] with the groups in some order. *)
Definition run (ps : list Handler) (gs : Groups) (c : Z) (m : Message) : Outcome :=
  match List.find (λ h, bool_decide (meaning (command h) = c)) ps with
  | Some h => run_plain h m
  | None =>
      match List.find (λ g, bool_decide (meaning g.1 = c)) gs with
      | Some (_, (env, hs)) => run_group env hs m
      | None => ([], Some UnknownCommand)
      end
  end.

(** What the attributes say. *)
Definition route_command (hs : list Handler) (c : Z) (m : Message) : Outcome :=
  match List.find (λ h, bool_decide (meaning (command h) = c)) hs with
  | None => ([], Some UnknownCommand)
  | Some h =>
      match variant h with
      | None => run_plain h m
      | Some (_, env) => run_group env (List.filter (λ h, bool_decide (meaning (command h) = c)) hs) m
      end
  end.

End run.

(** ** The arms *)

Definition is_plain (h : Handler) : bool := match variant h with None => true | Some _ => false end.
Definition has_variant (h : Handler) : bool := match variant h with None => false | Some _ => true end.

Fixpoint group_at (e : Expr) (l : Groups) : option (Path * list Handler) :=
  match l with [] => None | (e', g) :: l => if decide (e' = e) then Some g else group_at e l end.

Definition of_command (e : Expr) (l : list Handler) : list Handler := List.filter (λ h, bool_decide (command h = e)) l.

(** The groups hold the handlers of variants in [l]. *)
Record grouped (gs : Groups) (l : list Handler) : Prop := {
  g_keys : NoDup (fst <$> gs);
  g_groups : ∀ e, match group_at e gs with
                  | None => of_command e l = []
                  | Some (env, hs) => hs = of_command e l ∧ ∃ h p rest, hs = h :: rest ∧ variant h = Some (p, env)
                  end;
}.

Lemma push_keys h env gs : fst <$> push_group h env gs = ((fst <$> gs) ++ if decide (command h ∈ fst <$> gs) then [] else [command h])%list.
Proof.
  induction gs as [|[e [env' hs]] gs IH]; [done|]. cbn [push_group]. destruct (decide (e = command h)) as [->|He].
  - rewrite !fmap_cons, decide_True by set_solver. by rewrite app_nil_r.
  - rewrite !fmap_cons, IH. cbn [fst]. cbn [app]. f_equal. f_equal. destruct (decide (command h ∈ fst <$> gs)); [by rewrite decide_True by set_solver|]. rewrite decide_False; [done|]. set_solver.
Qed.

Lemma group_at_push h env gs e : group_at e (push_group h env gs) =
  if decide (e = command h) then Some (match group_at e gs with Some (env', hs) => (env', hs ++ [h])%list | None => (env, [h]) end) else group_at e gs.
Proof.
  induction gs as [|[e' [env' hs]] gs IH]; cbn [push_group group_at].
  - destruct (decide (e = command h)) as [->|]; [by rewrite decide_True|by rewrite decide_False].
  - destruct (decide (e' = command h)) as [->|He']; cbn [group_at].
    + destruct (decide (e = command h)) as [->|]; [by rewrite !decide_True by done|by rewrite !decide_False by done].
    + rewrite IH. destruct (decide (e' = e)) as [->|]; [by rewrite decide_False|done].
Qed.

Lemma of_command_app e l l' : of_command e (l ++ l') = (of_command e l ++ of_command e l')%list.
Proof. apply List.filter_app. Qed.

Lemma push_grouped h p env gs l : variant h = Some (p, env) → grouped gs l → grouped (push_group h env gs) (l ++ [h]).
Proof.
  intros Hv [Hk Hg]. split.
  - rewrite push_keys. destruct (decide (command h ∈ fst <$> gs)) as [|Hn]; [by rewrite app_nil_r|]. apply NoDup_app. split; [done|]. split; [set_solver|apply NoDup_singleton].
  - intros e. specialize (Hg e). rewrite group_at_push, of_command_app. cbn. destruct (decide (e = command h)) as [->|He].
    + rewrite bool_decide_eq_true_2 by done. destruct (group_at (command h) gs) as [[env' hs]|].
      * destruct Hg as (-> & h0 & p0 & rest & E & Hv0). split; [done|]. rewrite E. by exists h0, p0, (rest ++ [h])%list.
      * rewrite Hg. split; [done|]. by exists h, p, [].
    + rewrite bool_decide_eq_false_2 by done. by rewrite app_nil_r.
Qed.

Lemma build_right hs ps gs l : grouped gs l → (build hs ps gs).1 = (ps ++ List.filter is_plain hs)%list ∧ grouped (build hs ps gs).2 (l ++ List.filter has_variant hs).
Proof.
  revert ps gs l. induction hs as [|h hs IH]; intros ps gs l Hg; cbn [build List.filter]; [by rewrite !app_nil_r|]. unfold is_plain at 1, has_variant at 1. destruct (variant h) as [[p env]|] eqn:Ev.
  - destruct (IH ps (push_group h env gs) (l ++ [h])%list) as [H1 H2]; [by eapply push_grouped|]. by rewrite <- app_assoc in H2.
  - destruct (IH (ps ++ [h])%list gs l Hg) as [H1 H2]. by rewrite <- app_assoc in H1.
Qed.

(** *** The checks *)

Definition recorded (s : Seen) (l : list Handler) : Prop :=
  (∀ h, h ∈ l → is_plain h = true → command h ∈ plain s) ∧ (∀ h, h ∈ l → has_variant h = true → is_Some (seen_group (command h) (variants s))).

(** No command has plain handlers and handlers of variants. *)
Definition unmixed (l : list Handler) : Prop := ∀ h h', h ∈ l → h' ∈ l → is_plain h = true → has_variant h' = true → command h ≠ command h'.

Lemma check_handler_right h s s' l : recorded s l → unmixed l → check_handler h s = inl s' → recorded s' (l ++ [h]) ∧ unmixed (l ++ [h]).
Proof.
  intros [Hp Hv] Hu. unfold check_handler. destruct (variant h) as [[p env]|] eqn:Ev.
  - destruct (bool_decide_reflect (command h ∈ plain s)) as [|Hn]; [done|]. set (g := default _ _). repeat (case_match; [done|]). intros [= <-]. split; [split|].
    + intros h' [Hh'|Hh']%elem_of_app Hpl; [by apply Hp|]. apply list_elem_of_singleton in Hh' as ->. unfold is_plain in Hpl. by rewrite Ev in Hpl.
    + cbn [variants seen_group]. intros h' [Hh'|Hh']%elem_of_app Hva; destruct (decide (command h = command h')) as [|Hc]; [eauto|by apply Hv|eauto|]. by apply list_elem_of_singleton in Hh' as ->.
    + intros h1 h2 [H1|H1]%elem_of_app [H2|H2]%elem_of_app Hpl Hva; [by eapply Hu| | |]; try (apply list_elem_of_singleton in H1 as ->; unfold is_plain in Hpl; by rewrite Ev in Hpl).
      apply list_elem_of_singleton in H2 as ->. intros He. apply Hn. rewrite <- He. by apply Hp.
  - destruct (bool_decide_reflect (is_Some (seen_group (command h) (variants s)))) as [|Hn]; [done|]. case_match; [done|]. intros [= <-]. cbn. split; [split|].
    + intros h' [Hh'|Hh']%elem_of_app Hpl; cbn; [right; by apply Hp|]. apply list_elem_of_singleton in Hh' as ->. by left.
    + intros h' [Hh'|Hh']%elem_of_app Hva; [by apply Hv|]. apply list_elem_of_singleton in Hh' as ->. unfold has_variant in Hva. by rewrite Ev in Hva.
    + intros h1 h2 [H1|H1]%elem_of_app [H2|H2]%elem_of_app Hpl Hva; [by eapply Hu| | |]; try (apply list_elem_of_singleton in H2 as ->; unfold has_variant in Hva; by rewrite Ev in Hva).
      apply list_elem_of_singleton in H1 as ->. intros He. apply Hn. rewrite He. by apply Hv.
Qed.

Lemma check_handlers_right hs s s' l : recorded s l → unmixed l → check_handlers hs s = inl s' → unmixed (l ++ hs).
Proof.
  revert s l. induction hs as [|h hs IH]; intros s l Hr Hu; cbn [check_handlers]; [intros _; by rewrite app_nil_r|]. destruct (check_handler h s) as [s1|] eqn:Ec; [|done]. intros H.
  destruct (check_handler_right h s s1 l Hr Hu Ec) as [Hr1 Hu1]. specialize (IH s1 _ Hr1 Hu1 H). by rewrite <- app_assoc in IH.
Qed.

Lemma dispatch_right hs h : dispatch hs = inl h → unmixed hs ∧ h_plain h = List.filter is_plain hs ∧ grouped (h_groups h) (List.filter has_variant hs).
Proof.
  unfold dispatch. destruct (check_handlers hs _) as [s|] eqn:Ec; [|done]. destruct (build hs [] []) as [ps gs] eqn:Eb. intros [= <-]. cbn. split.
  - apply (check_handlers_right hs (mkSeen [] []) s []); [split; intros h Hh; by apply not_elem_of_nil in Hh|intros h h' Hh; by apply not_elem_of_nil in Hh|done].
  - destruct (build_right hs [] [] []) as [H1 H2]; [split; [constructor|done]|]. by rewrite Eb in H1, H2.
Qed.

(** ** Routing *)

Section routing.
  Context {V : Type} (meaning : Expr → Z) (from_payload : Ty → Payload → option V) (decode : Path → Payload → option (string * V)) (result : string → option V → Payload) (delivered : Message → bool).

(** No command is written in two ways. *)
Definition one_spelling (hs : list Handler) : Prop := ∀ h h', h ∈ hs → h' ∈ hs → meaning (command h) = meaning (command h') → command h = command h'.

Lemma find_filter {A} (p q : A → bool) l x : List.find p l = Some x → q x = true → List.find p (List.filter q l) = Some x.
Proof.
  induction l as [|y l IH]; [done|]. cbn. destruct (p y) eqn:Ep; [intros [= ->] ->; cbn; by rewrite Ep|]. intros Hf Hq. destruct (q y); cbn; [rewrite Ep|]; by apply IH.
Qed.

Lemma find_nothing {A} (p : A → bool) l : (∀ x, x ∈ l → p x = false) → List.find p l = None.
Proof. induction l as [|x l IH]; intros H; [done|]. cbn. rewrite H by set_solver. apply IH. set_solver. Qed.

Lemma filter_member {A} (p : A → bool) l x : x ∈ List.filter p l ↔ x ∈ l ∧ p x = true.
Proof. rewrite !list_elem_of_In. apply filter_In. Qed.

Lemma filter_agree {A} (p q r : A → bool) l : (∀ x, x ∈ l → q x && r x = p x) → List.filter r (List.filter q l) = List.filter p l.
Proof.
  induction l as [|x l IH]; intros H; [done|]. cbn. specialize (IH ltac:(set_solver)). pose proof (H x ltac:(set_solver)) as Hx.
  destruct (q x); cbn in *; [|by rewrite <- Hx]. rewrite Hx. destruct (p x); by rewrite IH.
Qed.

Lemma group_at_in e g gs : NoDup (fst <$> gs) → (e, g) ∈ gs → group_at e gs = Some g.
Proof.
  induction gs as [|[e' g'] gs IH]; intros Hk Hin; [set_solver|]. rewrite fmap_cons in Hk. apply NoDup_cons in Hk as [Hn Hk]. cbn [group_at]. apply elem_of_cons in Hin as [[= <- <-]|Hin]; [by rewrite decide_True|].
  rewrite decide_False; [by apply IH|]. intros ->. apply Hn. apply list_elem_of_fmap. by exists (e, g).
Qed.

Lemma in_group_at e g gs : group_at e gs = Some g → (e, g) ∈ gs.
Proof. induction gs as [|[e' g'] gs IH]; cbn; [done|]. destruct (decide (e' = e)) as [->|]; [intros [= ->]; set_solver|]. intros H. right. by apply IH. Qed.

Lemma group_member gs l e env ghs : grouped gs l → (e, (env, ghs)) ∈ gs → ghs = of_command e l ∧ ∃ h p rest, ghs = h :: rest ∧ variant h = Some (p, env) ∧ h ∈ l ∧ command h = e.
Proof.
  intros [Hk Hg] Hin. specialize (Hg e). rewrite (group_at_in _ _ _ Hk Hin) in Hg. destruct Hg as (Hgs & h & p & rest & Hr & Hv). split; [done|]. exists h, p, rest. split; [done|]. split; [done|].
  assert (Hh : h ∈ of_command e l) by (rewrite <- Hgs, Hr; set_solver). by apply filter_member in Hh as [? ->%bool_decide_eq_true].
Qed.

(** The first handler of a command is for a variant: so are all, and they are its group. *)
Lemma group_of_variant hs gs c x : unmixed hs → one_spelling hs → grouped gs (List.filter has_variant hs) → x ∈ hs → has_variant x = true → meaning (command x) = c →
  of_command (command x) (List.filter has_variant hs) = List.filter (λ h, bool_decide (meaning (command h) = c)) hs ∧
  ∀ gs', gs' ≡ₚ gs → ∃ env, List.find (λ g, bool_decide (meaning g.1 = c)) gs' = Some (command x, (env, of_command (command x) (List.filter has_variant hs))).
Proof.
  intros Hu Hone Hg Hx Hxv Hc. assert (Hsame : ∀ y, y ∈ hs → meaning (command y) = c → command y = command x) by (intros y Hy Hyc; apply Hone; congruence). split.
  - apply filter_agree. intros y Hy. apply eq_true_iff_eq. rewrite andb_true_iff, !bool_decide_eq_true. split; [intros [_ ->]; done|]. intros Hyc. split; [|by apply Hsame].
    destruct (has_variant y) eqn:Eh; [done|]. exfalso. apply (Hu y x Hy Hx); [unfold is_plain, has_variant in *; by destruct (variant y)|done|by apply Hsame].
  - intros gs' Hp. destruct (List.find (λ g, bool_decide (meaning g.1 = c)) gs') as [[e [env ghs]]|] eqn:Ef.
    + pose proof (find_some _ _ Ef) as [Hin%list_elem_of_In Hec%bool_decide_eq_true]. cbn in Hec. rewrite Hp in Hin. destruct (group_member _ _ _ _ _ Hg Hin) as (-> & h & p & rest & _ & _ & [Hh _]%filter_member & He).
      assert (e = command x) as -> by (rewrite <- He; apply Hsame; [done|congruence]). by exists env.
    + exfalso. pose proof (g_groups _ _ Hg (command x)) as Hgx. destruct (group_at (command x) gs) as [[env ghs]|] eqn:Eg.
      * apply in_group_at in Eg. rewrite <- Hp in Eg. apply list_elem_of_In, (find_none _ _ Ef), bool_decide_eq_false in Eg. done.
      * assert (Hin : x ∈ of_command (command x) (List.filter has_variant hs)); [|rewrite Hgx in Hin; set_solver]. apply filter_member. by rewrite filter_member, bool_decide_eq_true.
Qed.

Lemma handle_routes hs h gs c m : dispatch hs = inl h → one_spelling hs → gs ≡ₚ h_groups h →
  run meaning from_payload decode result delivered (h_plain h) gs c m = route_command meaning from_payload decode result delivered hs c m.
Proof.
  intros Hd Hone Hp. destruct (dispatch_right hs h Hd) as (Hu & Hplain & Hg). unfold run, route_command. rewrite Hplain. destruct (List.find _ hs) as [x|] eqn:Ef.
  - pose proof (find_some _ _ Ef) as [Hx%list_elem_of_In Hc%bool_decide_eq_true]. destruct (variant x) as [[p env]|] eqn:Ev; [|by rewrite (find_filter _ is_plain _ x Ef) by (unfold is_plain; by rewrite Ev)].
    assert (Hxv : has_variant x = true) by (unfold has_variant; by rewrite Ev). destruct (group_of_variant hs _ c x Hu Hone Hg Hx Hxv Hc) as [Heq Hfind]. destruct (Hfind gs Hp) as [env' Hf].
    rewrite find_nothing; [|intros y [Hy Hyp]%filter_member; apply bool_decide_eq_false; intros Hyc; apply (Hu y x Hy Hx Hyp Hxv), Hone; congruence].
    rewrite Hf, Heq. apply find_some in Hf as [Hin%list_elem_of_In _]. rewrite Hp in Hin. destruct (group_member _ _ _ _ _ Hg Hin) as (_ & h0 & p0 & rest & Hr & Hv0 & _). rewrite Heq in Hr.
    pose proof (find_filter _ (λ h, bool_decide (meaning (command h) = c)) _ x Ef ltac:(by apply bool_decide_eq_true)) as Hfirst. rewrite Hr in Hfirst. cbn in Hfirst.
    assert (Hh0 : h0 ∈ List.filter (λ h, bool_decide (meaning (command h) = c)) hs) by (rewrite Hr; set_solver). apply filter_member in Hh0 as [_ Hh0]. rewrite Hh0 in Hfirst. injection Hfirst as ->. congruence.
  - assert (Hnone : ∀ y, y ∈ hs → meaning (command y) ≠ c) by (intros y Hy%list_elem_of_In Hyc; by apply (find_none _ _ Ef), bool_decide_eq_false in Hy).
    rewrite find_nothing; [|intros y [Hy _]%filter_member; apply bool_decide_eq_false; by apply Hnone]. rewrite find_nothing; [done|]. intros [e [env ghs]] Hin. apply bool_decide_eq_false. cbn. rewrite Hp in Hin.
    destruct (group_member _ _ _ _ _ Hg Hin) as (_ & h2 & _ & _ & _ & _ & [Hh2 _]%filter_member & <-). by apply Hnone.
Qed.

(** ** The contract of [ServicePlugin::handle] *)

Definition silent (h : Handler) : bool := is_plain h && negb (bool_decide (is_Some (response h))).

(** One handler at most is called.  An error means that nothing was answered, so that the
    host may answer; without one a request has been answered once, or went to a plain
    handler that returns nothing. *)
Definition contract (hs : list Handler) (m : Message) (o : list (Effect (V := V)) * option Refusal) : Prop :=
  (calls o.1 ≤ 1)%nat ∧
  match o.2 with
  | Some _ => answers m o.1 = 0%nat
  | None =>
      if needs_reply m then answers m o.1 = 1%nat ∨ (answers m o.1 = 0%nat ∧ ∃ h v, h ∈ hs ∧ silent h = true ∧ o.1 = [Call (method h) v]) else answers m o.1 = 0%nat
  end.

Lemma refused hs m e : contract hs m ([], Some e).
Proof. split; [cbn; lia|done]. Qed.

Lemma finish_contract hs h v m : bool_decide (is_Some (response h)) = true ∨ (h ∈ hs ∧ is_plain h = true) → contract hs m (finish result delivered h v m).
Proof.
  unfold finish, contract, answers. intros Hh. destruct (bool_decide (is_Some (response h))) eqn:Er, (needs_reply m) eqn:En; cbn.
  - destruct (delivered m); cbn; rewrite ?En, ?bool_decide_eq_true_2 by done; split; auto; lia.
  - rewrite ?En. split; auto.
  - rewrite ?En. destruct Hh as [|[Hh Hp]]; [done|]. split; [lia|]. right. split; [done|]. exists h, v. unfold silent. by rewrite Hp, Er.
  - rewrite ?En. split; auto.
Qed.

Lemma plain_contract hs h m : h ∈ hs → is_plain h = true → contract hs m (run_plain from_payload result delivered h m).
Proof. intros Hh Hp. unfold run_plain. destruct (arg h) as [ty|]; [destruct (from_payload ty (payload m)) as [v|]; [|apply refused]|]; apply finish_contract; auto. Qed.

Lemma variant_contract hs h v m : contract hs m (variant_call result delivered h v m).
Proof.
  unfold variant_call. destruct (bool_decide (is_Some (response h))) eqn:Er; [apply finish_contract; auto|]. destruct (needs_reply m) eqn:En.
  - destruct (delivered m); [|apply refused]. unfold contract, answers. cbn. rewrite En, bool_decide_eq_true_2 by done. split; auto.
  - unfold contract. cbn. rewrite En. split; auto.
Qed.

Lemma group_contract hs env ghs m : contract hs m (run_group decode result delivered env ghs m).
Proof. unfold run_group. destruct (decode env (payload m)) as [[n v]|]; [|apply refused]. destruct (List.find _ _); [apply variant_contract|apply refused]. Qed.

Lemma handle_contract hs h gs c m : dispatch hs = inl h → contract hs m (run meaning from_payload decode result delivered (h_plain h) gs c m).
Proof.
  intros Hd. destruct (dispatch_right hs h Hd) as (_ & Hplain & _). unfold run. rewrite Hplain. destruct (List.find _ (List.filter is_plain hs)) as [x|] eqn:Ef.
  - apply find_some in Ef as [[Hx Hp]%list_elem_of_In%filter_member _]. by apply plain_contract.
  - destruct (List.find _ gs) as [[e [env ghs]]|]; [apply group_contract|apply refused].
Qed.

Lemma first_seen_member e l seen : e ∈ l → e ∉ seen → e ∈ first_seen l seen.
Proof.
  revert seen. induction l as [|x l IH]; intros seen Hin Hs; [set_solver|]. cbn [first_seen]. apply elem_of_cons in Hin as [->|Hin]; [rewrite decide_False by done; set_solver|].
  case_decide; [by apply IH|]. destruct (decide (e = x)) as [->|]; [set_solver|]. right. apply IH; [done|set_solver].
Qed.

Lemma member_first_seen e l seen : e ∈ first_seen l seen → e ∈ l.
Proof. revert seen. induction l as [|x l IH]; intros seen; cbn [first_seen]; [done|]. case_decide; [intros Hx%IH; set_solver|]. intros [->|Hx%IH]%elem_of_cons; set_solver. Qed.

Lemma finish_known h v m : (finish result delivered h v m).2 ≠ Some UnknownCommand.
Proof. unfold finish. destruct (_ && _); [destruct (delivered m)|]; done. Qed.

Lemma plain_known h m : (run_plain from_payload result delivered h m).2 ≠ Some UnknownCommand.
Proof. unfold run_plain. destruct (arg h) as [ty|]; [destruct (from_payload ty (payload m)); [|done]|]; apply finish_known. Qed.

Lemma group_known env ghs m : (run_group decode result delivered env ghs m).2 ≠ Some UnknownCommand.
Proof.
  unfold run_group. destruct (decode env (payload m)) as [[n v]|]; [|done]. destruct (List.find _ _) as [y|]; [|done]. unfold variant_call. destruct (bool_decide _); [apply finish_known|].
  by destruct (needs_reply m), (delivered m).
Qed.

(** A command that is written in an attribute has an arm. *)
Lemma known_command hs h gs c m e : dispatch hs = inl h → gs ≡ₚ h_groups h → e ∈ first_seen (command <$> hs) [] → meaning e = c →
  (run meaning from_payload decode result delivered (h_plain h) gs c m).2 ≠ Some UnknownCommand.
Proof.
  intros Hd Hp (x & -> & Hx)%member_first_seen%list_elem_of_fmap Hc. destruct (dispatch_right hs h Hd) as (_ & Hplain & Hg). unfold run. rewrite Hplain.
  destruct (List.find _ (List.filter is_plain hs)) eqn:Ef; [apply plain_known|]. destruct (List.find _ gs) as [[e [env ghs]]|] eqn:Eg; [apply group_known|]. exfalso. destruct (has_variant x) eqn:Ev.
  - pose proof (g_groups _ _ Hg (command x)) as Hgx. destruct (group_at (command x) (h_groups h)) as [[env ghs]|] eqn:Ea.
    + apply in_group_at in Ea. rewrite <- Hp in Ea. by apply list_elem_of_In, (find_none _ _ Eg), bool_decide_eq_false in Ea.
    + assert (Hin : x ∈ of_command (command x) (List.filter has_variant hs)); [|rewrite Hgx in Hin; set_solver]. apply filter_member. by rewrite filter_member, bool_decide_eq_true.
  - assert (Hin : x ∈ List.filter is_plain hs) by (apply filter_member; split; [done|]; unfold is_plain, has_variant in *; by destruct (variant x)).
    by apply list_elem_of_In, (find_none _ _ Ef), bool_decide_eq_false in Hin.
Qed.

End routing.

Lemma expanded_handle attr b x : try_expand attr b = inl x →
  ∃ a s, parse_args attr (mkArgs None None None None false) = inl a ∧ sort_items (debug_all a) (items b) (mkSorted [] [] false false) = inl s ∧ dispatch (handlers s) = inl (x_handle x) ∧
    x_commands x = first_seen (command <$> handlers s) [].
Proof.
  unfold try_expand. destruct (parse_args attr _) as [a|]; [|done]. destruct (namespace a) as [?|]; [|done]. destruct (p_name a) as [?|]; [|done]. destruct (p_factory a) as [?|]; [|done]. destruct (trait_ b); [done|].
  destruct (sort_items _ _ _) as [sorted|] eqn:Es; [|done]. destruct (dispatch (handlers sorted)) eqn:Ed; [|done]. intros [= <-]. eauto 10.
Qed.

(** C38 The [handle] that [service_plugin] generates keeps the contract with the host, whatever
    the expressions of commands mean and in whatever order the arms of the groups are
    written: at most one handler is called; an error is returned only when nothing was
    answered, so that the host answers; otherwise a request has been answered once, or went
    to a plain handler that returns nothing; and no command of the plugin's descriptor is
    unknown to it.  If no command is written in two ways (two expressions of the attributes
    with one meaning), the handle also does what the attributes say in every order of the
    groups: a command goes to its handler, or to the one of the variant that the payload
    decodes to, and is refused when there is none. *)
Theorem plugin_handle_correct {V : Type} (meaning : Expr → Z) (from_payload : Ty → Payload → option V) (decode : Path → Payload → option (string * V)) (result : string → option V → Payload) (delivered : Message → bool)
    attr b x a s gs : try_expand attr b = inl x → parse_args attr (mkArgs None None None None false) = inl a → sort_items (debug_all a) (items b) (mkSorted [] [] false false) = inl s →
  gs ≡ₚ h_groups (x_handle x) →
  ∀ c m, let o := run meaning from_payload decode result delivered (h_plain (x_handle x)) gs c m in
    contract (handlers s) m o ∧ (c ∈ meaning <$> x_commands x → o.2 ≠ Some UnknownCommand) ∧
    (one_spelling meaning (handlers s) → o = route_command meaning from_payload decode result delivered (handlers s) c m).
Proof.
  intros Hx Ha Hs Hp c m o. destruct (expanded_handle _ _ _ Hx) as (a' & s' & Ha' & Hs' & Hd & Hc). assert (a' = a) as -> by congruence. assert (s' = s) as -> by congruence.
  split; [by apply handle_contract|]. split; [|intros Hone; by apply handle_routes].
  intros (e & -> & He)%list_elem_of_fmap. rewrite Hc in He. by eapply known_command.
Qed.

(** ** Example *)

Definition x_attr : list ArgTok := [TNamespace "game"; TName "bag"; TFactory ["Bag"; "new"]; TDebug].
Definition x_method (n : string) (msg : list MsgTok) (ty : Ty) (output : option Ty) : ImplItem :=
  IFn (mkFn [AMsg (Some msg)] (mkSig n true [Receiver true false; Typed (TPath ["PluginCtx"] None); Typed ty] output) 0).
Definition x_items : list ImplItem :=
  [x_method "add" [MType (EPath ["BAG"]); MVariant ["BagMessage"; "Notify"]] (TPath ["Item"] None) None;
   x_method "count" [MType (EPath ["COUNT"])] (TPath ["Item"] None) (Some (TPath ["u32"] None));
   x_method "list" [MType (EPath ["BAG"]); MVariant ["BagMessage"; "Query"]] (TPath ["Page"] None) (Some (TPath ["Items"] None))].
Definition x_expansion : Expansion := match try_expand x_attr (gate x_items) with inl x => x | inr _ => mkExpansion [] false false (mkHandle [] []) [] "" "" [] [] [] end.
Definition x_sorted : Sorted := match sort_items true x_items (mkSorted [] [] false false) with inl s => s | inr _ => mkSorted [] [] false false end.
Definition x_args : Args := mkArgs (Some "game") (Some "bag") (Some ["Bag"; "new"]) None true.
Definition x_commands_of (e : Expr) : Z := if decide (e = EPath ["BAG"]) then 1 else 2.
Definition x_query : Message := mkMessage 3 5 MsgType.USER (PBoxed 2 40).

Lemma x_plugin_expands : try_expand x_attr (gate x_items) = inl x_expansion ∧ parse_args x_attr (mkArgs None None None None false) = inl x_args ∧
  sort_items (debug_all x_args) (items (gate x_items)) (mkSorted [] [] false false) = inl x_sorted.
Proof. vm_compute. repeat split. Qed.

Lemma x_plugin_spelling : one_spelling x_commands_of (handlers x_sorted).
Proof.
  assert (Hall : ∀ h, h ∈ handlers x_sorted → command h = EPath ["BAG"] ∨ command h = EPath ["COUNT"]).
  { intros h Hh. assert (Hc : command h ∈ command <$> handlers x_sorted) by (apply list_elem_of_fmap; eauto).
    replace (command <$> handlers x_sorted) with [EPath ["BAG"]; EPath ["COUNT"]; EPath ["BAG"]] in Hc by (vm_compute; reflexivity). set_solver. }
  intros h h' Hh Hh' He. destruct (Hall h Hh) as [E|E], (Hall h' Hh') as [E'|E']; rewrite E, E' in *; done.
Qed.

Lemma plugin_handle_correct_witness :
  run x_commands_of x_from x_decode x_result (λ _, true) (h_plain (x_handle x_expansion)) (h_groups (x_handle x_expansion)) 1 x_query = ([Call "list" (Some 40%Z); Reply x_query (PBoxed 9 40)], None).
Proof.
  destruct x_plugin_expands as (Hx & Ha & Hs).
  destruct (plugin_handle_correct x_commands_of x_from x_decode x_result (λ _, true) x_attr (gate x_items) _ _ _ _ Hx Ha Hs (reflexivity _) 1%Z x_query) as (_ & _ & Hroutes). rewrite (Hroutes x_plugin_spelling). vm_compute. reflexivity.
Defined.
End PluginMacro.
